(* ===== verification/_CoqProject ===== *)
-Q . S2P
Prelude.v
Js.v
JsMap.v
TtlMap.v
Identifiers.v
SignedRequest.v
Cassandra.v
Batch.v
Bucket.v
Storage.v
Retention.v
Json.v
KnownPublic.v
PomboGates.v
SignedReads.v
Ingest.v
Purge.v
Config.v
Frames.v
DataQuery.v
Watchdog.v
Plugin.v
Duplicates.v
FifoMap.v
NodeList.v
Propagation.v
Plumtree.v
Neighbors.v
Contacts.v
Ring.v
Connections.v
Peers.v
Discovery.v
DataStore.v
Rpc.v
Routing.v
Recursive.v
Fleet.v
Heartbeats.v
Topology.v
Text.v
Signing.v
Heap.v
Ordering.v
GapFill.v
Payout.v
Failover.v
ChainPoller.v
Validation.v
StreamIds.v
Keys.v
Publish.v
Pipeline.v
