(* ===== verification/Prelude.v ===== *)
(** * The Pombo storage node, verified

    A development about the storage node of Pombo (a fork of the Streamr network,
    TypeScript): what it stores, what it deletes, whom it answers, and what it tells.
    Paths below are relative to [packages/] of the repository;
    [storage/] abbreviates [node/src/plugins/storage/].

    ** How the program works, and where each part is modelled

    A message arrives from the network.  The plugin's listener ([storage/StoragePlugin.ts],
    [Plugin.v]) drops it unless the node is assigned to its stream part
    ([storage/SetMembershipSynchronizer.ts], [StorageConfig.ts], [StorageEventListener.ts],
    [StoragePoller.ts]: [Config.v]) and the validation at ingest accepts it
    ([IngestValidator.ts]: [Ingest.v]; the SDK's rule [sdk/src/utils/validateStreamMessage.ts]:
    [Validation.v]).  A message that passes is given a bucket ([Bucket.ts],
    [BucketManager.ts]: [Bucket.v]), gathered in a batch of that bucket ([Batch.ts],
    [BatchManager.ts]: [Batch.v]) and written to Cassandra ([Cassandra.v]).  The queries
    and the deletion of single messages are in [Storage.ts] ([Storage.v]), the expiry of
    old data in [DeleteExpiredCmd.ts] and [RetentionScheduler.ts] ([Retention.v]).

    Requests come over HTTP.  A read passes the guard of [signedReads.ts]
    ([SignedReads.v]), which asks [SignedRequest.ts] ([SignedRequest.v]) who signed it and
    [PomboGates.ts] ([PomboGates.v]) whether that user may read; the gates keep their
    answers in maps with expiry ([utils/src/MapWithTtl.ts]: [TtlMap.v]) and the streams
    last seen as public in a file ([KnownPublicStreams.ts]: [KnownPublic.v], with the JSON
    of [Json.v]).  The handlers behind the guard are in [dataQueryEndpoint.ts],
    [DataQueryFormat.ts], [dataMetadataEndpoint.ts], [capabilitiesEndpoint.ts]
    ([DataQuery.v], frames in [Frames.v]), [purgeEndpoint.ts] and [storedEndpoint.ts]
    ([Purge.v]).  [CassandraWatchdog.ts] ([Watchdog.v]) ends the process when the database
    stays away.  [Identifiers.v] holds addresses, user ids and stream parts of
    [utils/src]; [Js.v] the numbers and strings of JavaScript.

    Below the plugin, the overlay network of a stream part
    ([trackerless-network/src/content-delivery-layer/]) drops duplicates
    ([DuplicateMessageDetector.ts]: [Duplicates.v]), keeps lists of nodes ([NodeList.ts]:
    [NodeList.v]) and passes messages on to its neighbours: [propagation/], with the path of
    a message through [ContentDeliveryRpcLocal.ts] and [ContentDeliveryLayerNode.ts]
    ([FifoMap.v], [Propagation.v]), or [plumtree/] ([Plumtree.v]).  It finds these neighbours by
    handshakes with interleaving and keeps them by updates ([neighbor-discovery/], and the list
    handlers of [ContentDeliveryLayerNode.ts]: [Neighbors.v]; the state is the node's lists and the
    calls in flight, an event is an answer or a timer).

    Under the overlay lies the DHT ([dht/src/]): lists of contacts by distance ([dht/contact/]:
    [Contacts.v]) and around a ring ([RingContactList.ts], [ringIdentifiers.ts]: [Ring.v]), the peers a node knows
    ([PeerManager.ts] with a k-bucket and these lists, [DhtNodeRpcLocal.ts]: [Peers.v]) and how it finds them ([dht/discovery/]:
    [Discovery.v], sessions and joins driven by answers, timers and scheduled calls), the connections of a node with their locks ([connection/ConnectionManager.ts],
    [ConnectionLockStates.ts] and the objects they hold: [Connections.v]), and the routing of messages
    from peer to peer ([dht/routing/]: [Routing.v]).  Remote calls travel over all of it
    ([proto-rpc/src/], [dht/src/transport/], [dht/src/rpc-protocol/]: [Rpc.v], a communicator with its
    ongoing and served requests, driven by messages and timers).  Two services use the router: the
    recursive operations that find nodes and fetch or delete data ([dht/recursive-operation/]:
    [Recursive.v], sessions with the hops they know and those that reported), and the data store with its
    replication ([dht/store/]: [DataStore.v], entries as shared objects named by numbers, the tasks of
    [setImmediate] as a queue).

    Of the client (SDK): the order of delivery and the filling of gaps
    ([sdk/src/subscribe/ordering/]: [Ordering.v], [GapFill.v], with the heap of
    [utils/src/Heap.ts]: [Heap.v]); signatures ([utils/src/SigningUtil.ts]: [Signing.v]; bytes
    and text of [utils/src/binaryUtils.ts]: [Text.v]); stream ids, stream parts and permissions as users
    give them ([utils/src/StreamID.ts], [StreamIDBuilder.ts], [permission.ts]: [StreamIds.v]); the group keys
    with their store, their rotation and their exchange between publishers and subscribers ([encryption/],
    [GroupKeyQueue.ts]: [Keys.v]); publishing ([publish/]: [Publish.v], a task of the publisher is one operation
    on the state of its stream); the processing of what a subscription receives ([MsgChainUtil.ts],
    [messagePipeline.ts]: [Pipeline.v], where a publisher and a subscriber are put together); the failover of RPC
    providers ([FailoverProvider.ts], [ProviderHealth.ts]: [Failover.v]).  Of the node's plugins beside
    storage: the autostaker's plan ([node/src/plugins/autostaker/]: [Payout.v]), and the operator
    plugin ([node/src/plugins/operator/]), in which the nodes of an operator find each other by
    heartbeats ([OperatorFleetState.ts], [createIsLeaderFn.ts]: [Heartbeats.v]), learn from the chain what
    the operator stakes on ([MaintainTopologyHelper.ts], [MaintainTopologyService.ts]: [Topology.v]) and
    share the stream parts by consistent hashing ([ConsistentHashRing.ts],
    [StreamPartAssignments.ts]: [Fleet.v]).  The events of the contracts come from
    [sdk/src/contracts/ChainEventPoller.ts] ([ChainPoller.v]).
    [JsMap.v] is JavaScript's [Map] in insertion order.

    ** Reading the definitions

    A definition bears the name of the function it translates.  A call ends in an
    [outcome]: a value or the error thrown.  A method over the state [S] of its object is
    an [eff S E A], whose state survives a throw.  Event-driven objects (batches, buckets,
    the watchdog, the listener, a failover call) are step functions over an inductive type
    of events; their theorems quantify over all event sequences.  The clock is an argument.

    Interfaces: [ExpiringMap] (a map with expiry, implemented by [ttl_map_expiring]),
    [BucketHeap] (the npm package [heap], with an instance that computes), [KBucket] (the npm package [k-bucket], with
    [flat_kbucket]), [OrderedMap] (the npm package [@js-sdsl/ordered-map], with [list_ordered_map]), [Yallist] (the npm
    linked list, with [list_yallist]), [SortedIndex] (the binary search of lodash, with
    [linear_index]) and [CassandraClient] (the driver and the database, with
    the laws of the statements used and the instance [mem_cassandra]).  Clients are proved
    against the interface.

    Parameters, for code that is not in the repository: the curves and hashes of [Signing.v],
    what contracts and the registry answer in [Validation.v], [verifyMessage] of ethers,
    [md5_int32] (the first four bytes of an MD5 digest), [distance] (the distance of the npm
    package [k-bucket]) and [offering_hash] (which of two nodes offers a connection), [convert] and [rowSigner]
    (decoding a stored payload and recovering its signer), [number] (JavaScript's
    [Number]), [chain] (what the contracts and The Graph answer at a moment), the bytes of protobuf
    messages in [Rpc.v] and [Recursive.v] (written and parsed by generated code).  The uuids of calls are
    drawn by the events, and [rpc_legal] says that they are fresh.  The ciphers of [Keys.v] ([ciphers], with the
    class [CipherLaws] for AES-CTR, [working_pair] for the key pairs of an exchange and [working_identity] for
    identities), the generated readers and writers of group key messages, and the random values.

    ** Bounds and fuel

    [json_parse] runs with [2 * length + 2] units of fuel; [json_parse_fuel] shows more
    gives the same.  The loop of the frame decoder takes the length of its buffer, every
    round consuming four bytes or more; the gap loop of the duplicate detector is
    structural in the list of gaps.  The binary search of [Heap.v] takes the length of the
    array; the balancing loop of [Payout.v] takes the number of stakings, and
    [balancing_terminates] shows that this many rounds reach its end.  The two exchanges after
    a message on a plumtree link are shown to be all there is.
    Integers are exact: magnitudes above [2^53], where doubles round, are out of the
    model, except where a theorem is about a width (32-bit timers, Cassandra's [int] sum, the rounding of ring ids in [Ring.v]).

    ** What the theorems show

    - Admission and access: [node_stores_what_it_should], [ingest_verdict_justified],
      [signed_read_guard_justified], [purge_is_authorized], [stored_check_is_no_oracle],
      [verify_no_replay], [canRead_answers_are_recent], [last_seen_public_sound].
    - Storing: [batches_account_for_records] (counted in the queries that Cassandra fulfils),
      [stores_account_for_messages] (from the call of [store] to Cassandra),
      [batch_makes_progress], [manager_invariant_kept], [getBucketId_correct].
    - Reading: [fetchRange_exact], [range_read_complete], [requestLast_latest],
      [query_endpoint_spec], [frames_roundtrip].
    - Deleting: [deleteMessage_exact], [runOnce_deletes_with_reason],
      [orphanSweep_guarded], [rowSweep_bounded].
    - Configuration: [assignments_follow_the_newest] refines "for each part the newest
      information wins"; [known_public_survives_restart] is a round trip through the file.
    - Network: [markAndCheck_spec] and [no_number_is_new_twice] (duplicates),
      [fifo_map_refines_queue] (a map with a size and a TTL is a queue of entries),
      [propagation_reaches_who_joins] and [node_delivers_once] (a message is delivered once, and
      sent on until enough neighbours have it), [node_list_is_a_bounded_set],
      [plumtree_state_is_bounded], [resume_sends_what_was_missed] and
      [plumtree_link_catches_up] (two nodes: at most one message behind).
    - DHT: [closest_nodes_are_the_closest] (the bounded list holds what sorting everything would
      give), [manager_accounts_for_messages] (a message taken is sent once and in order, or rejected),
      [garbage_collection_is_fair], [routing_is_justified], [routes_do_not_loop],
      [sessions_end_when_answered]; [local_store_refines_map] (the store is a map whose newest entry per
      creator wins), [replicas_converge], [replication_flood_ends], [store_to_closest_that_accept];
      [route_request_answers], [operation_completes_for_a_reason], [operation_completes_in_time].
    - Peers: [neighbors_are_locked] (the invariant of the peer manager), [removed_contact_is_gone],
      [ring_keeps_the_closest] (what a side of the ring really keeps), [peers_are_asked_once], [no_join_hangs],
      [rejoin_uses_the_first_entry_point] (a weakness of the code).
    - Remote calls: [answers_come_from_the_handler], [no_call_hangs], [requests_are_answered_once].
    - Neighbours: [overlay_lists_stay_bounded], [interleaving_keeps_two] (who gives up a neighbour does so for
      another one), [updates_make_neighbours_agree], [searches_respect_the_target].
    - Publishing: [stream_ids_are_canonical], [stream_parts_roundtrip], [published_messages_are_accepted] (the
      validation of subscribers and storage nodes takes what a publisher makes), [messages_are_chained] (what the
      ordering of a subscriber relies on), [publish_tells_what_happened].
    - Keys: [keys_go_only_to_subscribers], [stored_keys_come_from_their_publisher], [key_exchange_delivers] (both
      sides together), [rotations_are_followed] (publisher and subscriber: everything is read, without an exchange),
      [chains_are_processed_in_order].  [keys_are_not_bound_to_streams], [forged_response_cancels_request],
      [failed_message_is_named] and [chains_mix_publishers] are weaknesses that the code has.
    - Client: [chain_completes], [chain_delivers_in_order], [gap_filler_refines_chain],
      [gap_tasks_end] (ordering and gaps), [validation_verdict_justified],
      [ingest_end_to_end] (what a stored message was checked for), [evm_sign_verify],
      [utf8_roundtrip], [failover_call_justified], [failover_call_progress].
    - Staking: [plan_is_executable], [plan_respects_limits], [balancing_terminates].
    - Operators: [assignments_follow_the_ring] and [fleet_shares_stream_parts] (each staked part has as
      many nodes as wanted, and they agree on it), [operator_joins_its_share] (with heartbeats and
      time), [topology_follows_the_stakes], [service_follows_assignments], [poller_exactly_once]
      (no event of the contracts is lost or repeated, unless something throws).

    Several theorems pin down behaviour that differs from what comments or documents say
    ([failing_batch_is_dropped], [late_message_bucket_unsorted], [rowSweep_stuck],
    [getTotalBytesInStream_wraps], [run_settles_schedule], ...): they are stated as the
    code behaves.

    ** Simplifications

    Each operation of the gates sees the chain of one moment and is not interleaved with
    others inside its awaits.  String code units are below 256, and [toLowerCase] changes the ASCII letters only.  Where [Promise.all]
    rejects, the first error in list order is taken.  Logging, metrics, Express and the
    stream plumbing of Node are left out.

    ** Not modelled

    Start-up and configuration of the node, the DNS-based host policy of the driver,
    resends, subscriber sessions and the contract bindings of the SDK, the identities other than key pairs of
    Ethereum, inspection and proxying in the network overlay, the connectors of the DHT, certificates,
    command line tools: they
    are I/O, generated code, or large components of their own. *)

From stdpp Require Export sorting base tactics numbers list gmap strings pretty.
From Stdlib Require Export ZArith Lia.

(** * Effects

    [outcome E A] is what a JavaScript call ends with: a value or a thrown
    error.  [eff S E A] is a call that also reads and writes the state [S] of
    the object it is a method of.  The state survives a throw, as it does in
    the source: assignments made before the throw stay. *)

Inductive outcome (E A : Type) :=
  | Return (a : A)
  | Throw (e : E).
Arguments Return {E A} _.
Arguments Throw {E A} _.

Definition outcome_bind {E A B} (m : outcome E A) (k : A → outcome E B) : outcome E B :=
  match m with Return a => k a | Throw e => Throw e end.

Definition eff (S E A : Type) : Type := S → S * outcome E A.

Definition eff_ret {S E A} (a : A) : eff S E A := λ s, (s, Return a).
Definition eff_throw {S E A} (e : E) : eff S E A := λ s, (s, Throw e).
Definition eff_bind {S E A B} (m : eff S E A) (k : A → eff S E B) : eff S E B :=
  λ s, match m s with
       | (s', Return a) => k a s'
       | (s', Throw e) => (s', Throw e)
       end.
Definition eff_catch {S E A} (m : eff S E A) (h : E → eff S E A) : eff S E A :=
  λ s, match m s with
       | (s', Return a) => (s', Return a)
       | (s', Throw e) => h e s'
       end.
Definition eff_get {S E} : eff S E S := λ s, (s, Return s).
Definition eff_put {S E} (s : S) : eff S E unit := λ _, (s, Return tt).
Definition eff_modify {S E} (f : S → S) : eff S E unit := λ s, (f s, Return tt).
(** An awaited call to another component, whose answer is given. *)
Definition eff_await {S E A} (r : outcome E A) : eff S E A := λ s, (s, r).

Declare Scope eff_scope.
Delimit Scope eff_scope with eff.
Notation "'let!' x := m 'in' k" := (eff_bind m (λ x, k))
  (at level 10, x binder, m at level 100, k at level 200) : eff_scope.
Notation "m ';;' k" := (eff_bind m (λ _, k))
  (at level 100, k at level 200, right associativity) : eff_scope.
Notation "'let?' x := m 'in' k" := (outcome_bind m (λ x, k))
  (at level 10, x binder, m at level 100, k at level 200) : eff_scope.

Definition is_return {E A} (o : outcome E A) : bool :=
  match o with Return _ => true | Throw _ => false end.

(** A JavaScript [Error] as the source inspects it: its [code] property, if it
    has one, and its message. *)
Record js_error := MkError { err_code : option string; err_message : string }.

Definition has_code (c : string) (e : js_error) : bool := bool_decide (err_code e = Some c).


(** * Lists *)

Lemma NoDup_fmap_filter {A B} (f : A → B) (P : A → Prop) `{∀ x, Decision (P x)} (l : list A) :
  NoDup (f <$> l) → NoDup (f <$> filter P l).
Proof.
  induction l as [|x l IH]; simpl; [done|]. intros [Hnin Hnd]%NoDup_cons.
  rewrite filter_cons. case_decide; [|by apply IH]. simpl. apply NoDup_cons. split; [|by apply IH].
  intros (y & Heq & [_ ?]%list_elem_of_filter)%list_elem_of_fmap. destruct Hnin. rewrite Heq.
  by apply list_elem_of_fmap_2.
Qed.

Lemma StronglySorted_reverse {A} (R R' : A → A → Prop) (l : list A) :
  (∀ x y, R x y → R' y x) → StronglySorted R l → StronglySorted R' (reverse l).
Proof.
  intros HRS. induction 1 as [|x l Hl IH Hx]; [constructor|]. rewrite reverse_cons.
  apply StronglySorted_app_2; [|done|repeat constructor].
  intros x1 x2 Hx1 Hx2. apply list_elem_of_singleton in Hx2 as ->. apply HRS.
  rewrite elem_of_reverse in Hx1. by eapply Forall_forall in Hx1.
Qed.

(** The first [n] elements of a sorted list, and the others. *)
Lemma StronglySorted_take_rest {A} (R : A → A → Prop) (l : list A) n x y :
  StronglySorted R l → x ∈ l → x ∉ take n l → y ∈ take n l → length (take n l) = n ∧ R y x.
Proof.
  intros Hl Hx Hnin Hy. rewrite <-(take_drop n l) in Hl, Hx.
  apply elem_of_app in Hx as [?|Hx]; [done|]. split.
  - rewrite length_take. assert (n < length l); [|lia].
    destruct (decide (n < length l)); [done|]. rewrite drop_ge in Hx by lia.
    by apply not_elem_of_nil in Hx.
  - by eapply StronglySorted_app_1_elem_of.
Qed.

Lemma StronglySorted_nth {A} (R : A → A → Prop) (l : list A) i j x y :
  StronglySorted R l → l !! i = Some x → l !! j = Some y → i < j → R x y.
Proof.
  intros Hl. revert i j. induction Hl as [|z l Hl IH Hz]; intros [|i] [|j] Hx Hy Hij; simpl in *;
    [done|done|done|done|lia| |lia|]; simplify_eq.
  - eapply Forall_lookup_1; eauto.
  - apply (IH i j); [done..|lia].
Qed.

Lemma filter_all {A} (P : A → Prop) `{∀ x, Decision (P x)} (l : list A) :
  (∀ x, x ∈ l → P x) → filter P l = l.
Proof.
  induction l as [|x l IH]; intros Hl; [done|]. rewrite filter_cons_True by (apply Hl; left).
  f_equal. apply IH. intros y Hy. apply Hl. by right.
Qed.

Lemma filter_none {A} (P : A → Prop) `{∀ x, Decision (P x)} (l : list A) :
  (∀ x, x ∈ l → ¬ P x) → filter P l = [].
Proof.
  induction l as [|x l IH]; intros Hl; [done|]. rewrite filter_cons_False by (apply Hl; left).
  apply IH. intros y Hy. apply Hl. by right.
Qed.

(** Elements of a list without repetitions (of keys) are equal when their keys are. *)
Lemma NoDup_fmap_eq {A B} (f : A → B) (l : list A) x y :
  NoDup (f <$> l) → x ∈ l → y ∈ l → f x = f y → x = y.
Proof.
  intros Hnd [i Hi]%list_elem_of_lookup [j Hj]%list_elem_of_lookup Heq.
  assert (i = j) as ->; [|congruence].
  eapply NoDup_lookup; [exact Hnd| |]; rewrite list_lookup_fmap; [by rewrite Hi|rewrite Hj]; simpl; congruence.
Qed.

Lemma filter_fmap_agree {A B} (f : A → B) (P : B → Prop) (Q : A → Prop)
    `{∀ x, Decision (P x)} `{∀ x, Decision (Q x)} (l : list A) :
  (∀ x, x ∈ l → P (f x) ↔ Q x) → filter P (f <$> l) = f <$> filter Q l.
Proof.
  induction l as [|x l IH]; intros Hl; [done|]. rewrite fmap_cons.
  assert (filter P (f <$> l) = f <$> filter Q l) as Hrest by (apply IH; intros y Hy; apply Hl; by right).
  specialize (Hl x (list_elem_of_here x l)).
  destruct (decide (Q x)) as [Hq|Hq].
  - rewrite (filter_cons_True Q), (filter_cons_True P) by tauto. by rewrite fmap_cons, Hrest.
  - rewrite (filter_cons_False Q), (filter_cons_False P) by tauto. done.
Qed.

Lemma StronglySorted_sublist {A} (R : A → A → Prop) (l l' : list A) :
  sublist l' l → StronglySorted R l → StronglySorted R l'.
Proof.
  induction 1 as [|x l' l Hs IH|x l' l Hs IH]; intros Hl; [constructor| |].
  - apply StronglySorted_inv in Hl as [Hl Hx]. constructor; [by apply IH|].
    apply Forall_forall. intros y Hy. apply (proj1 (Forall_forall _ _) Hx). by eapply sublist_subseteq.
  - apply StronglySorted_inv in Hl as [Hl _]. by apply IH.
Qed.

Lemma StronglySorted_fmap_filter {A B} (R : B → B → Prop) (f : A → B) (P : A → Prop)
    `{∀ x, Decision (P x)} (l : list A) :
  StronglySorted R (f <$> l) → StronglySorted R (f <$> filter P l).
Proof. apply StronglySorted_sublist, fmap_sublist, sublist_filter. Qed.
