(* ===== verification/Js.v ===== *)
(** Library of the JavaScript values and standard functions the source uses:
    numbers that may be [NaN] or infinite, strings, [parseInt]. *)

From S2P Require Import Prelude.
From Stdlib Require Import Ascii.

(** * JavaScript numbers

    The numbers the modelled code computes with are integers (timestamps,
    sequence numbers, sizes, counts), exact in the model: a magnitude above
    2^53, where doubles round, is outside of it.  What a client sends may be any
    number: not finite, or with a fraction, of which the model keeps the floor
    (all that subtracting from and comparing with an integer need) and the text
    [String] gives it. *)

Inductive jsnum :=
  | JFin (z : Z)
  | JFrac (floor : Z) (text : string)   (** strictly between [floor] and [floor + 1] *)
  | JNaN
  | JInf (negative : bool).

#[export] Instance jsnum_eq_dec : EqDecision jsnum.
Proof. solve_decision. Defined.

(** [z - a] for an integer [z]. *)
Definition js_sub_from (z : Z) (a : jsnum) : jsnum :=
  match a with
  | JFin x => JFin (z - x)
  | JFrac f _ => JFrac (z - f - 1) ""
  | JNaN => JNaN
  | JInf n => JInf (negb n)
  end.
(** [Math.abs(a)] *)
Definition js_abs (a : jsnum) : jsnum :=
  match a with
  | JFin x => JFin (Z.abs x)
  | JFrac f t => JFrac (if (0 <=? f)%Z then f else - f - 1) t
  | JNaN => JNaN
  | JInf _ => JInf false
  end.
(** [a > z] for an integer [z]: every comparison with [NaN] is false. *)
Definition js_gtb (a : jsnum) (z : Z) : bool :=
  match a with
  | JFin x => (z <? x)%Z
  | JFrac f _ => (z <=? f)%Z
  | JNaN => false
  | JInf n => negb n
  end.
Definition js_is_nan (a : jsnum) : bool := match a with JNaN => true | _ => false end.
(** [Number.isInteger(a)] and [Number.isSafeInteger(a)] *)
Definition js_is_integer (a : jsnum) : bool := match a with JFin _ => true | _ => false end.
Definition js_is_safe_integer (a : jsnum) : bool :=
  match a with JFin z => (Z.abs z <=? 9007199254740991)%Z | _ => false end.
(** [String(a)] *)
Definition js_num_to_string (a : jsnum) : string :=
  match a with
  | JFin z => pretty z
  | JFrac _ t => t
  | JNaN => "NaN"
  | JInf false => "Infinity"
  | JInf true => "-Infinity"
  end.

(** * Strings

    A JavaScript string is modelled by a [string] whose characters are its code
    units; units above 255 are outside of the model. *)

Definition newline : string := String "010" EmptyString.

Fixpoint string_join (sep : string) (l : list string) : string :=
  match l with
  | [] => ""
  | [x] => x
  | x :: l' => x +:+ sep +:+ string_join sep l'
  end.

Definition lower_ascii (c : ascii) : ascii :=
  let n := nat_of_ascii c in
  if (65 <=? n)%nat && (n <=? 90)%nat then ascii_of_nat (n + 32) else c.

(** [s.toLowerCase()] on the characters below 128. *)
Fixpoint to_lower (s : string) : string :=
  match s with
  | EmptyString => EmptyString
  | String c s' => String (lower_ascii c) (to_lower s')
  end.

Fixpoint string_forallb (p : ascii → bool) (s : string) : bool :=
  match s with
  | EmptyString => true
  | String c s' => p c && string_forallb p s'
  end.

Fixpoint string_drop (n : nat) (s : string) : string :=
  match n, s with
  | O, _ => s
  | S _, EmptyString => EmptyString
  | S n', String _ s' => string_drop n' s'
  end.

(** [s.endsWith(suffix)] *)
Definition ends_with (suffix s : string) : bool :=
  (String.length suffix <=? String.length s)%nat &&
  bool_decide (string_drop (String.length s - String.length suffix) s = suffix).

Definition is_digit (c : ascii) : bool :=
  let n := nat_of_ascii c in (48 <=? n)%nat && (n <=? 57)%nat.
Definition is_hex_digit (c : ascii) : bool :=
  let n := nat_of_ascii c in
  is_digit c || ((65 <=? n)%nat && (n <=? 70)%nat) || ((97 <=? n)%nat && (n <=? 102)%nat).

(** [parseInt(x)] without a radix: white space, a sign, the prefix [0x] and
    then the longest run of digits; [NaN] when that run is empty. *)
Definition is_white (c : ascii) : bool :=
  let n := nat_of_ascii c in
  ((9 <=? n)%nat && (n <=? 13)%nat) || (n =? 32)%nat || (n =? 160)%nat.
Fixpoint trim_start (s : string) : string :=
  match s with
  | String c s' => if is_white c then trim_start s' else s
  | EmptyString => EmptyString
  end.
Definition digit_value (c : ascii) : Z :=
  let n := nat_of_ascii c in
  if is_digit c then Z.of_nat (n - 48)
  else if (97 <=? n)%nat then Z.of_nat (n - 87) else Z.of_nat (n - 55).
Fixpoint parse_digits (radix : Z) (ok : ascii → bool) (acc : option Z) (s : string) : option Z :=
  match s with
  | EmptyString => acc
  | String c s' =>
      if ok c then parse_digits radix ok (Some (default 0 acc * radix + digit_value c)%Z) s'
      else acc
  end.
Definition parse_unsigned (s : string) : option Z :=
  match s with
  | String "0" (String ("x" | "X") s') => parse_digits 16 is_hex_digit None s'
  | _ => parse_digits 10 is_digit None s
  end.
Definition js_parse_int (x : string) : jsnum :=
  let r := match trim_start x with
           | String "-" s => Z.opp <$> parse_unsigned s
           | String "+" s => parse_unsigned s
           | s => parse_unsigned s
           end in
  match r with Some z => JFin z | None => JNaN end.

Example js_parse_int_tests :
  js_parse_int "12" = JFin 12 ∧ js_parse_int " -7px" = JFin (-7) ∧ js_parse_int "0x1F" = JFin 31
  ∧ js_parse_int "" = JNaN ∧ js_parse_int "abc" = JNaN ∧ js_parse_int "0x" = JNaN.
Proof. repeat split; reflexivity. Qed.

(** * Facts *)

Definition no_newline (s : string) : bool := string_forallb (λ c, negb (Ascii.eqb c "010")) s.

Lemma string_app_cons c (s t : string) : String c s +:+ t = String c (s +:+ t).
Proof. reflexivity. Qed.
Lemma string_app_nil_l (s : string) : "" +:+ s = s.
Proof. reflexivity. Qed.

Lemma string_forallb_app p s1 s2 :
  string_forallb p (s1 +:+ s2) = string_forallb p s1 && string_forallb p s2.
Proof.
  induction s1 as [|c s1 IH]; [done|]. rewrite string_app_cons. simpl. by rewrite IH, andb_assoc.
Qed.

Lemma string_app_assoc (a b c : string) : (a +:+ b) +:+ c = a +:+ b +:+ c.
Proof. induction a as [|x a IH]; [done|]. rewrite !string_app_cons. simpl. by rewrite IH. Qed.

Lemma string_app_nil_r (a : string) : a +:+ "" = a.
Proof. induction a as [|x a IH]; [done|]. rewrite !string_app_cons. simpl. by rewrite IH. Qed.

Lemma length_string_app (a b : string) :
  String.length (a +:+ b) = (String.length a + String.length b)%nat.
Proof. induction a as [|x a IH]; [done|]. rewrite !string_app_cons. simpl. by rewrite IH. Qed.

(** A line is read back up to the first newline. *)
Lemma line_inj a b a' b' :
  no_newline a = true → no_newline a' = true →
  a +:+ newline +:+ b = a' +:+ newline +:+ b' → a = a' ∧ b = b'.
Proof.
  unfold newline. revert a'. induction a as [|c a IH]; intros [|c' a'];
    rewrite ?string_app_cons, ?string_app_nil_l; simpl; intros Ha Ha' Heq; simplify_eq/=; [done..|].
  - apply andb_true_iff in Ha as [_ Ha], Ha' as [_ Ha'].
    destruct (IH a' Ha Ha') as [-> ->]; done.
Qed.

Lemma line_end a b a' : no_newline a' = true → a +:+ newline +:+ b ≠ a'.
Proof.
  unfold newline. revert a'. induction a as [|c a IH]; intros [|c' a'];
    rewrite ?string_app_cons, ?string_app_nil_l; simpl; intros Ha' Heq; simplify_eq/=; [done..|].
  - apply andb_true_iff in Ha' as [_ Ha']. by eapply IH.
Qed.

Lemma string_join_cons sep x l :
  l ≠ [] → string_join sep (x :: l) = x +:+ sep +:+ string_join sep l.
Proof. by destruct l. Qed.

Lemma string_join_newline_inj l1 l2 :
  l1 ≠ [] → l2 ≠ [] → Forall (λ s, no_newline s = true) l1 → Forall (λ s, no_newline s = true) l2 →
  string_join newline l1 = string_join newline l2 → l1 = l2.
Proof.
  revert l2. induction l1 as [|x l1 IH]; [done|]. intros [|y l2] _ Hne; [done|].
  intros [Hx Hl1]%Forall_cons [Hy Hl2]%Forall_cons.
  destruct (decide (l1 = [])) as [->|?], (decide (l2 = [])) as [->|?];
    rewrite ?(string_join_cons _ x), ?(string_join_cons _ y) by done; simpl.
  - by intros ->.
  - intros Heq. by destruct (line_end y (string_join newline l2) x Hx).
  - intros Heq. by destruct (line_end x (string_join newline l1) y Hy).
  - intros [-> Heq]%line_inj; [|done..]. f_equal. by apply IH.
Qed.

Lemma no_newline_pretty_N_go n s : no_newline s = true → no_newline (pretty_N_go n s) = true.
Proof.
  revert s. induction (N.lt_wf_0 n) as [n _ IH]. intros s Hs.
  destruct (decide (n = 0)%N) as [->|]; [by rewrite pretty_N_go_0|].
  rewrite pretty_N_go_step by lia. apply IH; [apply N.div_lt; lia|].
  unfold no_newline. cbn [string_forallb]. apply andb_true_iff. split; [|done]. unfold pretty_N_char. by repeat case_match.
Qed.

Lemma no_newline_pretty_Z (z : Z) : no_newline (pretty z) = true.
Proof.
  assert (∀ p, no_newline (pretty (Npos p)) = true) as Hp.
  { intros p. unfold pretty, pretty_N. case_decide; [done|]. by apply no_newline_pretty_N_go. }
  destruct z as [|p|p]; [done|apply Hp|]. apply (Hp p).
Qed.

(** The decimal text of a natural number is made of digits. *)
Lemma pretty_N_go_digits n s :
  string_forallb is_digit s = true → string_forallb is_digit (pretty_N_go n s) = true.
Proof.
  revert s. induction (N.lt_wf_0 n) as [n _ IH]. intros s Hs.
  destruct (decide (n = 0)%N) as [->|]; [by rewrite pretty_N_go_0|].
  rewrite pretty_N_go_step by lia. apply IH; [apply N.div_lt; lia|].
  cbn [string_forallb]. apply andb_true_iff. split; [|done].
  unfold pretty_N_char. by repeat case_match.
Qed.

Lemma pretty_Z_digits (z : Z) : (0 ≤ z)%Z → string_forallb is_digit (pretty z) = true.
Proof.
  assert (∀ p, string_forallb is_digit (pretty (Npos p)) = true) as Hp.
  { intros p. unfold pretty, pretty_N. case_decide; [done|]. by apply pretty_N_go_digits. }
  destruct z as [|p|p]; intros Hz; [done|apply Hp|lia].
Qed.

Lemma pretty_N_go_nonempty n s : s ≠ "" → pretty_N_go n s ≠ "".
Proof.
  revert s. induction (N.lt_wf_0 n) as [n _ IH]. intros s Hs.
  destruct (decide (n = 0)%N) as [->|]; [by rewrite pretty_N_go_0|].
  rewrite pretty_N_go_step by lia. apply IH; [apply N.div_lt; lia|done].
Qed.

Lemma pretty_Z_nonempty (z : Z) : pretty z ≠ "".
Proof.
  destruct z as [|p|p]; [done| |done]. change (pretty (Npos p) ≠ ""). unfold pretty, pretty_N. case_decide; [done|].
  rewrite pretty_N_go_step by lia. by apply pretty_N_go_nonempty.
Qed.

Lemma string_forallb_impl (p q : ascii → bool) s :
  (∀ c, p c = true → q c = true) → string_forallb p s = true → string_forallb q s = true.
Proof.
  intros Hpq. induction s as [|c s IH]; simpl; [done|].
  intros [Hc Hs]%andb_true_iff. by rewrite Hpq, IH.
Qed.

(** * Sorting

    [sortBy] of lodash and [Array.prototype.sort] are stable; [lt] is the strict order. *)

Fixpoint insert_after {A} (lt : A → A → bool) (x : A) (l : list A) : list A :=
  match l with
  | [] => [x]
  | y :: l' => if lt x y then x :: l else y :: insert_after lt x l'
  end.

Definition sortBy {A} (lt : A → A → bool) (l : list A) : list A :=
  foldl (λ acc x, insert_after lt x acc) [] l.

Lemma insert_after_perm {A} (lt : A → A → bool) x l : insert_after lt x l ≡ₚ x :: l.
Proof.
  induction l as [|y l IH]; simpl; [done|]. case_match; [done|]. rewrite IH. apply Permutation_swap.
Qed.

Lemma sortBy_perm {A} (lt : A → A → bool) l : sortBy lt l ≡ₚ l.
Proof.
  unfold sortBy. assert (H : ∀ acc, foldl (λ acc x, insert_after lt x acc) acc l ≡ₚ acc ++ l);
    [|by rewrite H].
  induction l as [|x l IH]; intros acc; simpl; [by rewrite app_nil_r|].
  rewrite IH, insert_after_perm. by rewrite <-Permutation_middle.
Qed.

(** The order a stable sort by [lt] leaves. *)
Definition not_after {A} (lt : A → A → bool) (x y : A) : Prop := lt y x = false.

Lemma insert_after_sorted {A} (lt : A → A → bool) x l :
  (∀ x y, lt x y = true → lt y x = false) →
  (∀ x y z, lt y x = false → lt z y = false → lt z x = false) →
  StronglySorted (not_after lt) l → StronglySorted (not_after lt) (insert_after lt x l).
Proof.
  intros Hasym Htrans. induction 1 as [|y l Hs IH Hy]; simpl; [repeat constructor|].
  destruct (lt x y) eqn:Hxy.
  - constructor; [by constructor|]. constructor; [by apply Hasym|].
    eapply Forall_impl; [exact Hy|]. intros z Hz. eapply Htrans; [by apply Hasym|exact Hz].
  - constructor; [done|]. rewrite insert_after_perm. by constructor.
Qed.

Lemma sortBy_sorted {A} (lt : A → A → bool) l :
  (∀ x y, lt x y = true → lt y x = false) →
  (∀ x y z, lt y x = false → lt z y = false → lt z x = false) →
  StronglySorted (not_after lt) (sortBy lt l).
Proof.
  intros Hasym Htrans. unfold sortBy.
  assert (H : ∀ acc, StronglySorted (not_after lt) acc →
    StronglySorted (not_after lt) (foldl (λ acc x, insert_after lt x acc) acc l)).
  { induction l as [|x l IH]; intros acc Hacc; simpl; [done|]. by apply IH, insert_after_sorted. }
  apply H. constructor.
Qed.
