(* ===== verification/JsMap.v ===== *)
(** JavaScript's [Map] as the list of its entries in insertion order. *)

From S2P Require Import Prelude.

Set Default Proof Using "Type".

Notation jsmap K V := (list (K * V)).

Section maps.
  Context {K : Type} `{EqDecision K} {V : Type}.
  Implicit Types (id : K) (v : V) (m : jsmap K V).

Fixpoint map_get id m : option V :=
  match m with
  | [] => None
  | (id', v) :: m => if decide (id' = id) then Some v else map_get id m
  end.

Definition map_has id m : bool := bool_decide (is_Some (map_get id m)).

Fixpoint map_set id v m : jsmap K V :=
  match m with
  | [] => [(id, v)]
  | (id', v') :: m => if decide (id' = id) then (id', v) :: m else (id', v') :: map_set id v m
  end.

Definition map_delete id m : jsmap K V := filter (λ e, e.1 ≠ id) m.

(** [new Map(entries)] *)
Definition map_new (entries : list (K * V)) : jsmap K V :=
  foldl (λ m e, map_set e.1 e.2 m) [] entries.

(** * Facts *)

Lemma map_get_Some id m v : NoDup m.*1 → map_get id m = Some v ↔ (id, v) ∈ m.
Proof.
  induction m as [|[id' v'] m IH]; simpl; [split; [done|by intros ?%not_elem_of_nil]|].
  intros [Hnin Hnd]%NoDup_cons. rewrite elem_of_cons. case_decide as Heq.
  - subst. split; [by intros [= <-]; left|]. intros [[= <-]|Hin]; [done|].
    destruct Hnin. by apply (list_elem_of_fmap_2 fst) in Hin.
  - rewrite IH by done. split; [by right|]. intros [[= -> ->]|?]; done.
Qed.

Lemma map_get_None id m : map_get id m = None ↔ id ∉ m.*1.
Proof.
  induction m as [|[id' v'] m IH]; simpl; [split; [intros _; apply not_elem_of_nil|done]|].
  case_decide as Heq; rewrite not_elem_of_cons; [split; [done|]; by intros [? _]|]. rewrite IH.
  split; [by intros ?; split|by intros [_ ?]].
Qed.

Lemma map_has_spec id m : map_has id m = true ↔ id ∈ m.*1.
Proof.
  unfold map_has. rewrite bool_decide_eq_true, <-not_eq_None_Some, map_get_None.
  destruct (decide (id ∈ m.*1)); tauto.
Qed.

Lemma map_set_new id (v : V) m : id ∉ m.*1 → map_set id v m = m ++ [(id, v)].
Proof.
  induction m as [|[id' v'] m IH]; simpl; [done|]. rewrite not_elem_of_cons. intros [Hne Hnin].
  rewrite decide_False by done. by rewrite IH.
Qed.

Lemma map_set_same id (v : V) m : NoDup m.*1 → (id, v) ∈ m → map_set id v m = m.
Proof.
  induction m as [|[id' v'] m IH]; simpl; intros Hnd Hin; [by apply not_elem_of_nil in Hin|].
  apply NoDup_cons in Hnd as [Hnin Hnd]. apply elem_of_cons in Hin as [[= -> ->]|Hin].
  - by rewrite decide_True.
  - rewrite decide_False; [by rewrite IH|]. intros ->. destruct Hnin.
    by apply (list_elem_of_fmap_2 fst) in Hin.
Qed.

(** Entries with new keys are appended; entries that are there change nothing. *)
Lemma map_new_app (l1 l2 : list (K * V)) :
  NoDup l1.*1 → (∀ e, e ∈ l2 → e ∈ l1) → map_new (l1 ++ l2) = l1.
Proof.
  intros Hnd Hin. unfold map_new. rewrite foldl_app.
  assert (H1 : ∀ acc, NoDup (acc ++ l1).*1 → foldl (λ m e, map_set e.1 e.2 m) acc l1 = acc ++ l1).
  { clear Hnd Hin. induction l1 as [|[id v] l1 IH]; intros acc Hnd; simpl; [by rewrite app_nil_r|].
    rewrite map_set_new, IH, <-app_assoc; [done|by rewrite <-app_assoc|].
    rewrite fmap_app, NoDup_app in Hnd. destruct Hnd as (_ & Hd & _). intros Hid.
    apply (Hd id Hid). left. }
  rewrite H1 by done. simpl. clear H1. induction l2 as [|[id v] l2 IH]; simpl; [done|].
  rewrite map_set_same; [|done|apply Hin; left]. apply IH. intros e He. apply Hin. by right.
Qed.

Lemma map_new_nodup (l : list (K * V)) : NoDup (map_new l).*1.
Proof.
  unfold map_new. assert (H : ∀ acc : jsmap K V, NoDup acc.*1 → NoDup (foldl (λ m e, map_set e.1 e.2 m) acc l).*1).
  { induction l as [|[id v] l IH]; intros acc Hnd; simpl; [done|]. apply IH. clear IH.
    induction acc as [|[id' v'] acc IH]; simpl; [apply NoDup_singleton|].
    simpl in Hnd. apply NoDup_cons in Hnd as [Hnin Hnd]. case_decide as He; simpl; apply NoDup_cons; [done|].
    split; [|by apply IH]. intros Hin. apply Hnin. clear -Hin He.
    induction acc as [|[id2 v2] acc IH]; simpl in *; [set_solver|].
    case_decide; simpl in *; set_solver. }
  apply H. constructor.
Qed.

Lemma map_delete_absent id m : id ∉ m.*1 → map_delete id m = m.
Proof.
  intros Hn. apply filter_all. intros e Hin He. destruct Hn. rewrite <-He.
  by apply list_elem_of_fmap_2.
Qed.

Lemma map_delete_keys id m : (map_delete id m).*1 = filter (λ id', id' ≠ id) m.*1.
Proof.
  unfold map_delete. induction m as [|[id' v'] m IH]; [done|]. simpl.
  destruct (decide (id' = id)) as [He|He].
  - rewrite !filter_cons_False; [done|tauto..].
  - rewrite !filter_cons_True by done. rewrite fmap_cons. f_equal. exact IH.
Qed.

Lemma map_get_set id id' (v : V) m : map_get id' (map_set id v m) = if decide (id = id') then Some v else map_get id' m.
Proof.
  induction m as [|[k w] m IH]; cbn; [done|]. destruct (decide (k = id)) as [->|Hne]; cbn.
  - by destruct (decide (id = id')).
  - rewrite IH. destruct (decide (k = id')), (decide (id = id')); congruence.
Qed.

Lemma map_get_delete id id' m : map_get id' (map_delete id m) = if decide (id = id') then None else map_get id' m.
Proof.
  unfold map_delete. induction m as [|[k w] m IH]; [by case_decide|]. destruct (decide (k = id)) as [->|Hne].
  - rewrite filter_cons_False by tauto. rewrite IH. cbn. by case_decide.
  - rewrite filter_cons_True by done. cbn. rewrite IH. destruct (decide (k = id')), (decide (id = id')); congruence.
Qed.

Lemma map_set_nodup id (v : V) m : NoDup m.*1 → NoDup (map_set id v m).*1.
Proof.
  intros Hnd. destruct (map_get id m) eqn:Hg.
  - assert ((map_set id v m).*1 = m.*1) as ->; [|done]. clear Hnd.
    induction m as [|[k w] m IH]; [done|]. cbn in *. destruct (decide (k = id)); cbn; [done|]. by rewrite IH.
  - apply map_get_None in Hg. rewrite map_set_new, fmap_app by done. apply NoDup_app. split_and!; [done| |apply NoDup_singleton].
    intros x Hx ->%list_elem_of_singleton. done.
Qed.
Lemma map_set_keys id (v : V) m : (map_set id v m).*1 = if decide (id ∈ m.*1) then m.*1 else m.*1 ++ [id].
Proof.
  induction m as [|[k' v'] m IH]; [by rewrite decide_False by apply not_elem_of_nil|]. cbn.
  destruct (decide (k' = id)) as [->|Hne]; cbn.
  - rewrite decide_True; [done|left].
  - rewrite IH. destruct (decide (id ∈ m.*1)) as [Hin|Hin].
    + rewrite decide_True; [done|by right].
    + rewrite decide_False; [done|]. intros [->|?]%elem_of_cons; done.
Qed.

Lemma map_set_elem id (v : V) m e : e ∈ map_set id v m → e = (id, v) ∨ e ∈ m.
Proof.
  induction m as [|[k' v'] m IH]; cbn; [rewrite list_elem_of_singleton; auto|].
  destruct (decide (k' = id)) as [->|]; rewrite !elem_of_cons; naive_solver.
Qed.
End maps.
