(* ===== verification/TtlMap.v ===== *)
(** [MapWithTtl] (packages/utils/src/MapWithTtl.ts): a map whose entries are
    deleted by a timer.  The model keeps the timers of the event loop beside the
    map, as the wrapper of the source does; [view] forgets them and keeps the
    deadline of each entry.  [ExpiringMap] is the interface the clients of the
    class are written against, and [ttl_map_expiring] its implementation. *)

From S2P Require Import Prelude.

Set Default Proof Using "Type".

(** * The class *)

(** [setTimeout] takes delays from 1 to 2^31 - 1 milliseconds, and 1 for any other. *)
Definition timer_delay (d : Z) : Z :=
  if ((1 <=? d) && (d <=? 2147483647))%Z then d else 1%Z.

Record ttl_map (K V : Type) `{Countable K} := TtlMap {
  delegate : gmap K (V * nat);      (** key to its value and its timer *)
  timers : gmap nat (Z * K);        (** running timers: when, and the key the callback deletes *)
  next_timer : nat
}.
Arguments TtlMap {K V _ _} _ _ _.
Arguments delegate {K V _ _} _.
Arguments timers {K V _ _} _.
Arguments next_timer {K V _ _} _.

Section class.
  Context {K V : Type} `{Countable K} (getTtl : V → Z).
  Implicit Types (m : ttl_map K V) (k : K) (v : V) (now : Z).

Definition ttl_empty : ttl_map K V := TtlMap ∅ ∅ 0.

Definition clear_timeout (t : nat) m : ttl_map K V :=
  TtlMap (delegate m) (base.delete t (timers m)) (next_timer m).

Definition create_timeout now k v m : ttl_map K V * nat :=
  let t := next_timer m in
  (TtlMap (delegate m) (<[t := (now + timer_delay (getTtl v), k)%Z]> (timers m)) (S t), t).

Definition ttl_set now k v m : ttl_map K V :=
  let m1 := match delegate m !! k with
            | Some (_, t) => clear_timeout t m
            | None => m
            end in
  let '(m2, t) := create_timeout now k v m1 in
  TtlMap (<[k := (v, t)]> (delegate m2)) (timers m2) (next_timer m2).

Definition ttl_get k m : option V := fst <$> delegate m !! k.

Definition ttl_has k m : bool := bool_decide (is_Some (delegate m !! k)).

Definition ttl_delete k m : ttl_map K V :=
  match delegate m !! k with
  | Some (_, t) =>
      let m1 := clear_timeout t m in
      TtlMap (base.delete k (delegate m1)) (timers m1) (next_timer m1)
  | None => m
  end.

Definition ttl_clear m : ttl_map K V :=
  let m1 := foldr (λ e, clear_timeout e.2.2) m (map_to_list (delegate m)) in
  TtlMap ∅ (timers m1) (next_timer m1).

Definition ttl_size m : nat := size (delegate m).

Definition ttl_values m : list V := (λ e, e.2.1) <$> map_to_list (delegate m).

(** The event loop runs timer [t]: it is no longer pending, then its callback
    calls [this.delete(key)]. *)
Definition ttl_fire now (t : nat) m : ttl_map K V :=
  match timers m !! t with
  | Some (deadline, k) =>
      if (deadline <=? now)%Z then ttl_delete k (clear_timeout t m) else m
  | None => m
  end.

(** Every timer that is due runs. *)
Definition due now m : list nat :=
  fst <$> filter (λ e, (e.2.1 ≤ now)%Z) (map_to_list (timers m)).
Definition ttl_expire now m : ttl_map K V := foldr (ttl_fire now) m (due now m).

(** What the map holds, with the time at which each entry goes. *)
Definition view m : gmap K (V * Z) :=
  omap (λ e, d ← timers m !! e.2; Some (e.1, d.1)) (delegate m).

(** Each entry has one running timer and each running timer belongs to the
    current entry of its key, so that no timer of an overwritten entry is left
    to delete the new one. *)
Definition ttl_wf m : Prop :=
  (∀ k v t, delegate m !! k = Some (v, t) → ∃ d, timers m !! t = Some (d, k)) ∧
  (∀ t d k, timers m !! t = Some (d, k) → ∃ v, delegate m !! k = Some (v, t)) ∧
  (∀ t, is_Some (timers m !! t) → t < next_timer m).
End class.

(** * The interface *)

Class ExpiringMap (K V M : Type) `{Countable K} (ttl : V → Z) := {
  em_wf : M → Prop;
  em_view : M → gmap K (V * Z);
  em_empty : M;
  em_set : Z → K → V → M → M;
  em_get : K → M → option V;
  em_has : K → M → bool;
  em_expire : Z → M → M;
  em_clear : M → M;
  em_empty_wf : em_wf em_empty;
  em_set_wf now k v m : em_wf m → em_wf (em_set now k v m);
  em_expire_wf now m : em_wf m → em_wf (em_expire now m);
  em_clear_wf m : em_wf m → em_wf (em_clear m);
  em_view_empty : em_view em_empty = ∅;
  em_view_set now k v m :
    em_wf m → em_view (em_set now k v m) = <[k := (v, now + timer_delay (ttl v))%Z]> (em_view m);
  em_view_expire now m :
    em_wf m → em_view (em_expire now m) = filter (λ e, (now < e.2.2)%Z) (em_view m);
  em_view_clear m : em_wf m → em_view (em_clear m) = ∅;
  em_get_view k m : em_wf m → em_get k m = fst <$> em_view m !! k;
  em_has_get k m : em_has k m = bool_decide (is_Some (em_get k m))
}.

Create HintDb ttl.
#[export] Hint Resolve em_empty_wf em_set_wf em_expire_wf em_clear_wf : ttl.

(** * The class implements the interface *)

Section laws.
  Context {K V : Type} `{Countable K}.
  Implicit Types (m : ttl_map K V) (k : K) (v : V) (now : Z).

Lemma ttl_wf_timer_inj m k1 k2 v1 v2 t :
  ttl_wf m → delegate m !! k1 = Some (v1, t) → delegate m !! k2 = Some (v2, t) → k1 = k2.
Proof. intros (Hd & _) H1 H2. destruct (Hd _ _ _ H1), (Hd _ _ _ H2). congruence. Qed.

Lemma view_lookup m k v d :
  view m !! k = Some (v, d) ↔ ∃ t k', delegate m !! k = Some (v, t) ∧ timers m !! t = Some (d, k').
Proof.
  unfold view. rewrite lookup_omap_Some. split.
  - intros ([v' t] & Ht & Hk). simpl in Ht.
    destruct (timers m !! t) as [[d' k']|] eqn:?; simplify_eq/=. eauto.
  - intros (t & k' & Hk & Ht). exists (v, t). simpl. by rewrite Hk, Ht.
Qed.

Lemma view_lookup_None m k : ttl_wf m → view m !! k = None ↔ delegate m !! k = None.
Proof.
  intros (Hd & _). unfold view. rewrite lookup_omap.
  destruct (delegate m !! k) as [[v t]|] eqn:Hk; simpl; [|done].
  destruct (Hd _ _ _ Hk) as [d Ht]. by rewrite Ht.
Qed.

Lemma ttl_wf_empty : ttl_wf (@ttl_empty K V _ _).
Proof. repeat split; simpl; intros *; rewrite ?lookup_empty; naive_solver. Qed.

(** Dropping the entry of [k] and its timer. *)
Lemma ttl_wf_drop m k v t :
  ttl_wf m → delegate m !! k = Some (v, t) →
  ttl_wf (TtlMap (base.delete k (delegate m)) (base.delete t (timers m)) (next_timer m)).
Proof.
  intros Hwf Hk.
  assert (∀ k' v', delegate m !! k' = Some (v', t) → k = k') as Hinj
    by eauto using ttl_wf_timer_inj.
  destruct Hwf as (Hd & Ht & Hn). split; [|split]; simpl.
  - intros k' v' t' [Hne Hk']%lookup_delete_Some. destruct (Hd _ _ _ Hk') as [d ?].
    exists d. apply lookup_delete_Some. split; [|done]. intros <-. eauto.
  - intros t' d k' [Hne Ht']%lookup_delete_Some. destruct (Ht _ _ _ Ht') as [v' ?].
    exists v'. apply lookup_delete_Some. split; [|done]. intros <-. congruence.
  - intros t' [x [? Hx]%lookup_delete_Some]. eauto.
Qed.

(** A fresh entry for a key that has none. *)
Lemma ttl_wf_add m k v d :
  ttl_wf m → delegate m !! k = None →
  ttl_wf (TtlMap (<[k := (v, next_timer m)]> (delegate m))
                 (<[next_timer m := (d, k)]> (timers m)) (S (next_timer m))).
Proof.
  intros (Hd & Ht & Hn) Hk. split; [|split]; simpl.
  - intros k' v' t' [[? ?]|[Hne Hk']]%lookup_insert_Some; simplify_eq.
    { exists d. by rewrite lookup_insert_eq. }
    destruct (Hd _ _ _ Hk') as [d' Ht']. exists d'.
    rewrite lookup_insert_ne; [done|]. intros <-.
    assert (next_timer m < next_timer m) by (apply Hn; eauto). lia.
  - intros t' d' k' [[? ?]|[Hne Ht']]%lookup_insert_Some; simplify_eq.
    { exists v. by rewrite lookup_insert_eq. }
    destruct (Ht _ _ _ Ht') as [v' Hk']. exists v'.
    rewrite lookup_insert_ne; [done|]. intros <-. congruence.
  - intros t' [x [[? ?]|[? Hx]]%lookup_insert_Some]; simplify_eq; [lia|].
    assert (t' < next_timer m) by eauto. lia.
Qed.

Lemma ttl_set_unfold getTtl now k v m :
  ttl_wf m →
  ∃ m1, ttl_wf m1 ∧ delegate m1 = base.delete k (delegate m) ∧ next_timer m1 = next_timer m ∧
        (∀ k', k' ≠ k → view m1 !! k' = view m !! k') ∧
        ttl_set getTtl now k v m =
          TtlMap (<[k := (v, next_timer m1)]> (delegate m1))
                 (<[next_timer m1 := (now + timer_delay (getTtl v), k)%Z]> (timers m1))
                 (S (next_timer m1)).
Proof.
  intros Hwf. unfold ttl_set. destruct (delegate m !! k) as [[v0 t]|] eqn:Hk.
  - eexists. split; [eapply ttl_wf_drop; eauto|]. simpl. repeat split; [|by rewrite insert_delete_eq].
    intros k' Hne. unfold view. rewrite !lookup_omap. simpl. rewrite lookup_delete_ne by done.
    destruct (delegate m !! k') as [[v' t']|] eqn:Hk'; [|done]. simpl.
    rewrite lookup_delete_ne; [done|]. intros <-. eauto using ttl_wf_timer_inj.
  - exists m. rewrite delete_id by done. naive_solver.
Qed.

Lemma ttl_set_wf getTtl now k v m : ttl_wf m → ttl_wf (ttl_set getTtl now k v m).
Proof.
  intros Hwf. destruct (ttl_set_unfold getTtl now k v m Hwf) as (m1 & ? & Hdel & ? & _ & ->).
  apply ttl_wf_add; [done|]. rewrite Hdel. apply lookup_delete_eq.
Qed.

Lemma ttl_set_view getTtl now k v m :
  ttl_wf m →
  view (ttl_set getTtl now k v m) = <[k := (v, now + timer_delay (getTtl v))%Z]> (view m).
Proof.
  intros Hwf. destruct (ttl_set_unfold getTtl now k v m Hwf) as (m1 & Hwf1 & Hdel & _ & Hview & ->).
  apply map_eq. intros k'. destruct (decide (k' = k)) as [->|Hne].
  - rewrite lookup_insert_eq. apply view_lookup. simpl. do 2 eexists. by rewrite !lookup_insert_eq.
  - rewrite lookup_insert_ne, <-Hview by done. unfold view. rewrite !lookup_omap. simpl.
    rewrite lookup_insert_ne by done. destruct (delegate m1 !! k') as [[v' t']|] eqn:Hk'; [|done].
    simpl. destruct Hwf1 as (Hd & _ & Hn). destruct (Hd _ _ _ Hk') as [d Hd'].
    rewrite lookup_insert_ne; [done|]. intros <-.
    assert (next_timer m1 < next_timer m1) by eauto. lia.
Qed.

Lemma ttl_fire_due now t d k m :
  ttl_wf m → timers m !! t = Some (d, k) → (d ≤ now)%Z →
  ttl_wf (ttl_fire now t m) ∧ timers (ttl_fire now t m) = base.delete t (timers m) ∧
  view (ttl_fire now t m) = base.delete k (view m).
Proof.
  intros Hwf Ht Hle. pose proof Hwf as (Hd & Htm & Hn). destruct (Htm _ _ _ Ht) as [v Hk].
  unfold ttl_fire. rewrite Ht, (proj2 (Z.leb_le d now)) by done.
  unfold ttl_delete. simpl. rewrite Hk. unfold clear_timeout. simpl. rewrite delete_delete_eq.
  split; [eapply ttl_wf_drop; eauto|]. split; [done|].
  apply map_eq. intros k'. unfold view. rewrite lookup_omap. simpl.
  destruct (decide (k' = k)) as [->|Hne]; [by rewrite !lookup_delete_eq|].
  rewrite !lookup_delete_ne, lookup_omap by done.
  destruct (delegate m !! k') as [[v' t']|] eqn:Hk'; [|done]. simpl.
  rewrite lookup_delete_ne; [done|]. intros <-. eauto using ttl_wf_timer_inj.
Qed.

Lemma ttl_fire_all now m l :
  ttl_wf m → NoDup l → (∀ t, t ∈ l → ∃ d k, timers m !! t = Some (d, k) ∧ (d ≤ now)%Z) →
  let m' := foldr (ttl_fire now) m l in
  ttl_wf m' ∧
  (∀ t, t ∉ l → timers m' !! t = timers m !! t) ∧
  (∀ t d k, t ∈ l → timers m !! t = Some (d, k) → view m' !! k = None) ∧
  (∀ k, (∀ t d, timers m !! t = Some (d, k) → t ∉ l) → view m' !! k = view m !! k).
Proof.
  intros Hwf. induction l as [|t l IH]; intros Hnd Hdue; simpl.
  { set_solver. }
  apply NoDup_cons in Hnd as [Hnin Hnd].
  destruct IH as (IHwf & IHt & IHin & IHout); [done|set_solver|].
  destruct (Hdue t) as (d & k & Ht & Hle); [set_solver|].
  assert (timers (foldr (ttl_fire now) m l) !! t = Some (d, k)) as Ht' by (by rewrite IHt).
  destruct (ttl_fire_due now t d k _ IHwf Ht' Hle) as (? & Htm & Hvw).
  split; [done|]. rewrite Htm, Hvw. split; [|split].
  - intros t' [? ?]%not_elem_of_cons. rewrite lookup_delete_ne by done. auto.
  - intros t' d' k' [->|Hin]%elem_of_cons Ht''; [simplify_eq; apply lookup_delete_eq|].
    apply lookup_delete_None. eauto.
  - intros k' Hk'. destruct (decide (k' = k)) as [->|].
    { destruct (Hk' _ _ Ht). set_solver. }
    rewrite lookup_delete_ne by done. apply IHout. set_solver.
Qed.

Lemma due_spec now m t :
  t ∈ due now m ↔ ∃ d k, timers m !! t = Some (d, k) ∧ (d ≤ now)%Z.
Proof.
  unfold due. rewrite list_elem_of_fmap. split.
  - intros ([t' [d k]] & -> & [Hle Hin]%list_elem_of_filter). apply elem_of_map_to_list in Hin. eauto.
  - intros (d & k & Ht & Hle). exists (t, (d, k)). split; [done|].
    apply list_elem_of_filter. by rewrite elem_of_map_to_list.
Qed.

Lemma due_NoDup now m : NoDup (due now m).
Proof.
  apply NoDup_fmap_filter, NoDup_fst_map_to_list.
Qed.

Lemma ttl_expire_wf now m : ttl_wf m → ttl_wf (ttl_expire now m).
Proof.
  intros Hwf. apply ttl_fire_all; [done|apply due_NoDup|]. intros t. apply due_spec.
Qed.

Lemma ttl_expire_view now m :
  ttl_wf m → view (ttl_expire now m) = filter (λ e, (now < e.2.2)%Z) (view m).
Proof.
  intros Hwf. destruct (ttl_fire_all now m (due now m) Hwf (due_NoDup now m)) as (_ & _ & Hin & Hout).
  { intros t. apply due_spec. }
  apply map_eq. intros k. destruct (view m !! k) as [[v d]|] eqn:Hk.
  - apply view_lookup in Hk as Hk'. destruct Hk' as (t & k' & Hdel & Ht).
    destruct Hwf as (Hd & Htm & _). destruct (Hd _ _ _ Hdel) as [d' Hd'].
    assert (k' = k ∧ d' = d) as [-> ->] by (split; congruence). clear Hd'.
    destruct (decide (now < d)%Z).
    + unfold ttl_expire. rewrite Hout.
      * rewrite Hk. symmetry. apply map_lookup_filter_Some. done.
      * intros t' d' Ht'. destruct (Htm _ _ _ Ht'). simplify_eq.
        rewrite due_spec. intros (? & ? & ? & ?). simplify_eq. lia.
    + unfold ttl_expire. rewrite (Hin t d k); [|apply due_spec; eauto with lia|done].
      symmetry. apply map_lookup_filter_None. right. simpl. intros ? ?. by simplify_eq.
  - unfold ttl_expire. rewrite Hout.
    + rewrite Hk. symmetry. apply map_lookup_filter_None. by left.
    + intros t d Ht. apply (view_lookup_None m k Hwf) in Hk.
      destruct Hwf as (_ & Htm & _). destruct (Htm _ _ _ Ht). simplify_eq.
Qed.

Lemma ttl_delete_view k m :
  ttl_wf m → ttl_wf (ttl_delete k m) ∧ view (ttl_delete k m) = base.delete k (view m).
Proof.
  intros Hwf. unfold ttl_delete. destruct (delegate m !! k) as [[v t]|] eqn:Hk; simpl.
  - split; [eapply ttl_wf_drop; eauto|]. apply map_eq. intros k'. unfold view. rewrite lookup_omap.
    simpl. destruct (decide (k' = k)) as [->|Hne]; [by rewrite !lookup_delete_eq|].
    rewrite !lookup_delete_ne, lookup_omap by done.
    destruct (delegate m !! k') as [[v' t']|] eqn:Hk'; [|done]. simpl.
    rewrite lookup_delete_ne; [done|]. intros <-. eauto using ttl_wf_timer_inj.
  - split; [done|]. rewrite delete_id; [done|]. by apply view_lookup_None.
Qed.

Lemma clear_timeouts_lookup (l : list (K * (V * nat))) m t :
  timers (foldr (λ e, clear_timeout e.2.2) m l) !! t
  = if bool_decide (t ∈ l.*2.*2) then None else timers m !! t.
Proof.
  induction l as [|[k [v t0]] l IH]; [done|]. cbn [foldr fmap list_fmap snd clear_timeout timers].
  destruct (decide (t = t0)) as [->|].
  - rewrite lookup_delete_eq, bool_decide_eq_true_2 by set_solver. done.
  - rewrite lookup_delete_ne, IH by done. repeat case_bool_decide; set_solver.
Qed.

(** [clear] leaves no entry and no timer behind. *)
Lemma ttl_clear_empties m :
  ttl_wf m → delegate (ttl_clear m) = ∅ ∧ timers (ttl_clear m) = ∅.
Proof.
  intros (Hd & Ht & Hn). unfold ttl_clear. simpl. split; [done|].
  apply map_eq. intros t. rewrite clear_timeouts_lookup, lookup_empty.
  case_bool_decide as Hin; [done|].
  destruct (timers m !! t) as [[d k]|] eqn:Htt; [|done]. destruct (Ht _ _ _ Htt) as [v Hk].
  destruct Hin. apply elem_of_map_to_list in Hk.
  apply (list_elem_of_fmap_2 snd) in Hk. by apply (list_elem_of_fmap_2 snd) in Hk.
Qed.

Lemma ttl_clear_wf m : ttl_wf m → ttl_wf (ttl_clear m).
Proof.
  intros Hwf. destruct (ttl_clear_empties m Hwf) as [Hd Ht].
  repeat split; rewrite ?Hd, ?Ht; intros *; rewrite ?lookup_empty; [naive_solver..|].
  intros [x ?]. done.
Qed.
End laws.

#[export] Program Instance ttl_map_expiring {K V : Type} `{Countable K} (ttl : V → Z) :
    ExpiringMap K V (ttl_map K V) ttl := {|
  em_wf := ttl_wf; em_view := view; em_empty := ttl_empty;
  em_set := ttl_set ttl; em_get := ttl_get; em_has := ttl_has;
  em_expire := ttl_expire; em_clear := ttl_clear
|}.
Next Obligation. intros. apply ttl_wf_empty. Qed.
Next Obligation. intros. by apply ttl_set_wf. Qed.
Next Obligation. intros. by apply ttl_expire_wf. Qed.
Next Obligation. intros. by apply ttl_clear_wf. Qed.
Next Obligation. intros. apply map_eq. intros k. done. Qed.
Next Obligation. intros. by apply ttl_set_view. Qed.
Next Obligation. intros. by apply ttl_expire_view. Qed.
Next Obligation.
  intros K V ? ? ttl m Hwf. apply map_eq. intros k.
  rewrite lookup_empty, view_lookup_None by (by apply ttl_clear_wf).
  by rewrite (proj1 (ttl_clear_empties m Hwf)).
Qed.
Next Obligation.
  intros K V ? ? ttl k m Hwf. unfold ttl_get. destruct (view m !! k) as [[v d]|] eqn:Hk.
  - apply view_lookup in Hk as (t & k' & -> & _). done.
  - apply view_lookup_None in Hk as ->; done.
Qed.
Next Obligation.
  intros. unfold ttl_has, ttl_get. apply bool_decide_ext. rewrite fmap_is_Some. done.
Qed.
