(* ===== verification/Identifiers.v ===== *)
(** The identifiers of packages/utils/src: Ethereum addresses, user ids, stream
    parts, and [keyToArrayIndex], which spreads the stream parts of a cluster
    over its nodes. *)

From S2P Require Import Prelude.
From S2P Require Import Js.
From Stdlib Require Import Ascii.

Set Default Proof Using "Type".

(** * Ethereum addresses and user ids (EthereumAddress.ts, UserID.ts) *)

Definition has_0x_prefix (s : string) : bool :=
  match s with String "0" (String "x" _) => true | _ => false end.

(** [/^0x[a-fA-F0-9]{40}$/] *)
Definition is_ethereum_address (s : string) : bool :=
  has_0x_prefix s && (String.length s =? 42)%nat && string_forallb is_hex_digit (string_drop 2 s).

Definition to_ethereum_address (str : string) : outcome js_error string :=
  if is_ethereum_address str then Return (to_lower str)
  else Throw (MkError None "not a valid Ethereum address").

(** [/^0x[a-fA-F0-9]+$/] *)
Definition is_valid_user_id (input : string) : bool :=
  has_0x_prefix input && (3 <=? String.length input)%nat
    && string_forallb is_hex_digit (string_drop 2 input).

Definition to_user_id (input : string) : outcome js_error string :=
  if is_valid_user_id input then Return (to_lower input)
  else Throw (MkError None "not a valid UserID").

(** * Stream parts (StreamPartID.ts, partition.ts) *)

Definition MAX_PARTITION_COUNT : Z := 100.

Definition ensure_valid_stream_partition_index (p : jsnum) : outcome js_error unit :=
  match p with
  | JFin z => if negb (js_is_safe_integer p) || (z <? 0)%Z || (MAX_PARTITION_COUNT <=? z)%Z
              then Throw (MkError None "invalid streamPartition value") else Return tt
  | _ => Throw (MkError None "invalid streamPartition value")
  end.

Definition to_stream_part_id (streamId : string) (p : jsnum) : outcome js_error string :=
  match ensure_valid_stream_partition_index p with
  | Return _ => Return (streamId +:+ "#" +:+ js_num_to_string p)
  | Throw e => Throw e
  end.

(** [str.lastIndexOf('#')]: the text before and after the last delimiter. *)
Fixpoint split_at_last (c : ascii) (s : string) : option (string * string) :=
  match s with
  | EmptyString => None
  | String x s' =>
      match split_at_last c s' with
      | Some (a, b) => Some (String x a, b)
      | None => if Ascii.eqb x c then Some (EmptyString, s') else None
      end
  end.

(** [StreamPartIDUtils.parseRawElements]; [number] is the global [Number]. *)
Definition parse_raw_elements (number : string → jsnum) (str : string) : string * option jsnum :=
  match split_at_last "#" str with
  | None => (str, None)
  | Some (_, EmptyString) => (str, None)
  | Some (streamId, p) => (streamId, Some (number p))
  end.

(** * Array indices (keyToArrayIndex.ts)

    [md5_int32 key] stands for [computeMd5(key).readInt32LE(0)]. *)

Inductive array_key := KeyNumber (z : Z) | KeyString (s : string).

Definition key_to_array_index (md5_int32 : string → Z) (lengthOfArray : Z) (key : array_key)
    : outcome js_error Z :=
  if negb (js_is_safe_integer (JFin lengthOfArray) && (0 <? lengthOfArray)%Z)
  then Throw (MkError None "lengthOfArray is not a safe positive integer!")
  else if (lengthOfArray =? 1)%Z then Return 0%Z
  else match key with
       | KeyNumber z => Return (Z.abs z `mod` lengthOfArray)%Z
       | KeyString s => Return (Z.abs (md5_int32 s) `mod` lengthOfArray)%Z
       end.

(** * Facts *)

Lemma lower_ascii_idemp c : lower_ascii (lower_ascii c) = lower_ascii c.
Proof. destruct c as [[] [] [] [] [] [] [] []]; reflexivity. Qed.

Lemma to_lower_idemp s : to_lower (to_lower s) = to_lower s.
Proof. induction s as [|c s IH]; simpl; [done|]. by rewrite lower_ascii_idemp, IH. Qed.

Lemma lower_hex_digit c : is_hex_digit (lower_ascii c) = is_hex_digit c.
Proof. destruct c as [[] [] [] [] [] [] [] []]; reflexivity. Qed.

Lemma length_to_lower s : String.length (to_lower s) = String.length s.
Proof. induction s; simpl; congruence. Qed.

Lemma string_drop_to_lower n s : string_drop n (to_lower s) = to_lower (string_drop n s).
Proof. revert n. induction s as [|c s IH]; intros [|n]; simpl; auto. Qed.

Lemma forallb_hex_to_lower s :
  string_forallb is_hex_digit (to_lower s) = string_forallb is_hex_digit s.
Proof. induction s as [|c s IH]; simpl; [done|]. by rewrite lower_hex_digit, IH. Qed.

Lemma has_0x_prefix_to_lower s : has_0x_prefix s = true → has_0x_prefix (to_lower s) = true.
Proof.
  destruct s as [|c1 [|c2 s]]; try done; simpl.
  all: destruct c1 as [[] [] [] [] [] [] [] []]; try done.
  all: destruct c2 as [[] [] [] [] [] [] [] []]; done.
Qed.

Lemma is_ethereum_address_to_lower s :
  is_ethereum_address s = true → is_ethereum_address (to_lower s) = true.
Proof.
  unfold is_ethereum_address. rewrite !andb_true_iff. intros [[H0 H1] H2].
  by rewrite length_to_lower, string_drop_to_lower, forallb_hex_to_lower, has_0x_prefix_to_lower.
Qed.

(** The canonical form of an address is an address and its own canonical form. *)
Lemma to_ethereum_address_idemp s a :
  to_ethereum_address s = Return a → to_ethereum_address a = Return a ∧ to_lower a = a.
Proof.
  unfold to_ethereum_address. destruct (is_ethereum_address s) eqn:Hs; [|done].
  intros [= <-]. by rewrite is_ethereum_address_to_lower, to_lower_idemp.
Qed.

Lemma split_at_last_app c a b :
  split_at_last c b = None → split_at_last c (a +:+ String c b) = Some (a, b).
Proof.
  intros Hb. induction a as [|x a IH]; simpl; [|by rewrite IH].
  by rewrite Hb, Ascii.eqb_refl.
Qed.

Lemma split_at_last_None c s : string_forallb (λ x, negb (Ascii.eqb x c)) s = true → split_at_last c s = None.
Proof.
  induction s as [|x s IH]; simpl; [done|]. intros [Hx Hs]%andb_true_iff.
  rewrite IH by done. by destruct (Ascii.eqb x c).
Qed.

Lemma key_to_array_index_range md5 n k i :
  key_to_array_index md5 n k = Return i → (0 ≤ i < n)%Z.
Proof.
  unfold key_to_array_index. destruct (js_is_safe_integer _ && _) eqn:Hn; simpl; [|done].
  apply andb_true_iff in Hn as [_ Hn%Z.ltb_lt].
  destruct (n =? 1)%Z eqn:H1; [apply Z.eqb_eq in H1|]; destruct k; intros [= <-]; try lia;
    apply Z.mod_pos_bound; lia.
Qed.

(** A name, a separator that is no digit and a natural number are read back. *)
Lemma separated_inj c (s s' : string) (p p' : Z) :
  is_digit c = false → (0 ≤ p)%Z → (0 ≤ p')%Z →
  s +:+ String c (pretty p) = s' +:+ String c (pretty p') → s = s' ∧ p = p'.
Proof.
  intros Hc Hp Hp' Heq.
  assert (∀ z, (0 ≤ z)%Z → split_at_last c (pretty z) = None) as Hnone.
  { intros z Hz. apply split_at_last_None.
    apply (string_forallb_impl is_digit); [|by apply pretty_Z_digits].
    intros x Hx. destruct (Ascii.eqb_spec x c) as [->|]; [congruence|done]. }
  assert (Some (s, pretty p) = Some (s', pretty p')) as Hs.
  { rewrite <-!(split_at_last_app c) by auto. by rewrite Heq. }
  injection Hs as -> Hp0. by apply (inj pretty) in Hp0.
Qed.
