(* ===== verification/SignedRequest.v ===== *)
(** Signed requests (packages/node/src/plugins/storage/SignedRequest.ts): the
    canonical message a client signs and the verifier that authenticates a
    request, with its memory of the nonces it has accepted. *)

From S2P Require Import Prelude.
From S2P Require Import Js.
From S2P Require Import TtlMap.
From S2P Require Import Identifiers.

Set Default Proof Using "Type".

Definition MAX_CLOCK_SKEW : Z := 5 * 60 * 1000.

Record SignedRequestEnvelope := Envelope {
  env_user : string;
  env_issuedAt : jsnum;
  env_nonce : string;
  env_signature : string
}.

(** The [unknown] value a request carries: a field is [None] when it is missing
    or has another type. *)
Record raw_envelope := RawEnvelope {
  raw_user : option string;
  raw_issuedAt : option jsnum;
  raw_nonce : option string;
  raw_signature : option string
}.

(** Every error [verify] throws is a [SignedRequestError]. *)
Inductive verify_error := SignedRequestError (message : string).

Definition createSignedRequestMessage (purpose streamId : string) (partition issuedAt : jsnum)
    (nonce : string) (payloadLines : list string) : string :=
  string_join newline
    (["pombo-storage-node"; purpose; streamId; js_num_to_string partition;
      js_num_to_string issuedAt; nonce] ++ payloadLines).

Definition isEnvelope (value : option raw_envelope) : option SignedRequestEnvelope :=
  match value with
  | Some (RawEnvelope (Some user) (Some issuedAt) (Some nonce) (Some signature)) =>
      if (8 <=? String.length nonce)%nat && (String.length nonce <=? 128)%nat
      then Some (Envelope user issuedAt nonce signature) else None
  | _ => None
  end.

Definition nonce_ttl (_ : bool) : Z := 2 * MAX_CLOCK_SKEW.

(** What the verifier is asked: the envelope and the fields the server
    recomputes from the request. *)
Record signed_request := SignedRequest {
  rq_envelope : option raw_envelope;
  rq_purpose : string;
  rq_streamId : string;
  rq_partition : jsnum;
  rq_payloadLines : list string
}.

Section verifier.
  (** [verifyMessage] of ethers: the address behind an EIP-191 signature. *)
  Context (verifyMessage : string → string → outcome js_error string).
  (** [seenNonces], a [MapWithTtl] *)
  Context {M : Type} `{EM : !ExpiringMap string bool M nonce_ttl}.

(** The [try] block: the claimed user and the signer, or the error it throws. *)
Definition recover (rq : signed_request) (e : SignedRequestEnvelope)
    : outcome js_error (string * string) :=
  (let? user := to_ethereum_address (env_user e) in
   let? address := verifyMessage
     (createSignedRequestMessage (rq_purpose rq) (rq_streamId rq) (rq_partition rq)
        (env_issuedAt e) (env_nonce e) (rq_payloadLines rq)) (env_signature e) in
   let? signer := to_ethereum_address address in
   Return (user, signer))%eff.

Definition nonce_key (user nonce : string) : string := user +:+ "_" +:+ nonce.

Definition verify (now : Z) (rq : signed_request) : eff M verify_error string := λ seenNonces,
  match isEnvelope (rq_envelope rq) with
  | None =>
      (seenNonces, Throw (SignedRequestError "Request must carry user, issuedAt, nonce and signature"))
  | Some e =>
      if js_gtb (js_abs (js_sub_from now (env_issuedAt e))) MAX_CLOCK_SKEW
      then (seenNonces, Throw (SignedRequestError "Request is too old or too far in the future"))
      else match recover rq e with
           | Throw _ => (seenNonces, Throw (SignedRequestError "Invalid signature"))
           | Return (user, signer) =>
               if negb (bool_decide (signer = user))
               then (seenNonces,
                     Throw (SignedRequestError "Signature does not belong to the claimed user"))
               else let nonceKey := nonce_key user (env_nonce e) in
                    if em_has nonceKey seenNonces
                    then (seenNonces, Throw (SignedRequestError "Nonce already used"))
                    else (em_set now nonceKey true seenNonces, Return user)
           end
  end.

Definition verifier_destroy (seenNonces : M) : M := em_clear seenNonces.

(** What happens to a verifier: a request at some time, or the timers that are
    due at some time run. *)
Inductive verifier_event :=
  | TimersRun (now : Z)
  | Requested (now : Z) (rq : signed_request).
Definition event_time (ev : verifier_event) : Z :=
  match ev with TimersRun now | Requested now _ => now end.
Definition run_event (m : M) (ev : verifier_event) : M :=
  match ev with
  | TimersRun now => em_expire now m
  | Requested now rq => (verify now rq m).1
  end.
Definition run_events : M → list verifier_event → M := foldl run_event.

(** ** Lemmas *)

Lemma em_has_view k (m : M) : em_wf m → em_has k m = bool_decide (is_Some (em_view m !! k)).
Proof.
  intros Hwf. rewrite em_has_get, em_get_view by done. apply bool_decide_ext. apply fmap_is_Some.
Qed.

Lemma verify_result now rq m m' r :
  verify now rq m = (m', r) →
  match r with
  | Throw _ => m' = m
  | Return u => ∃ e, isEnvelope (rq_envelope rq) = Some e
      ∧ js_gtb (js_abs (js_sub_from now (env_issuedAt e))) MAX_CLOCK_SKEW = false
      ∧ recover rq e = Return (u, u)
      ∧ em_has (nonce_key u (env_nonce e)) m = false
      ∧ m' = em_set now (nonce_key u (env_nonce e)) true m
  end.
Proof.
  unfold verify. intros Hv. destruct (isEnvelope _) as [e|] eqn:He; [|by simplify_eq].
  destruct (js_gtb _ _) eqn:Hskew; [by simplify_eq|].
  destruct (recover rq e) as [[user signer]|] eqn:Hrec; [|by simplify_eq].
  case_bool_decide; simpl in Hv; [|by simplify_eq].
  destruct (em_has _ _) eqn:Hhas; simplify_eq; [done|]. by exists e.
Qed.

Lemma verify_wf now rq m : em_wf m → em_wf (verify now rq m).1.
Proof.
  intros Hwf. destruct (verify now rq m) as [m' r] eqn:Hv. apply verify_result in Hv.
  destruct r; simpl; [destruct Hv as (e & _ & _ & _ & _ & ->); auto with ttl|by subst].
Qed.

(** A nonce stays known until its deadline, whatever requests and timers run before it. *)
Lemma nonce_kept k d evs m :
  em_wf m → (∃ v, em_view m !! k = Some (v, d)) → Forall (λ ev, event_time ev < d)%Z evs →
  em_wf (run_events m evs) ∧ ∃ v, em_view (run_events m evs) !! k = Some (v, d).
Proof.
  revert m. induction evs as [|ev evs IH]; intros m Hwf [v Hk] Htimes; simpl; [by eauto|].
  apply Forall_cons in Htimes as [Ht Htimes]. apply IH; [| |done].
  - destruct ev; simpl; [auto with ttl|by apply verify_wf].
  - destruct ev as [now|now rq]; simpl in *.
    + exists v. rewrite em_view_expire by done. by apply map_lookup_filter_Some.
    + destruct (verify now rq m) as [m' r] eqn:Hv. apply verify_result in Hv. simpl.
      destruct r; [|subst; eauto]. destruct Hv as (e & _ & _ & _ & Hhas & ->).
      rewrite em_has_view in Hhas by done. apply bool_decide_eq_false in Hhas.
      exists v. rewrite em_view_set by done.
      rewrite lookup_insert_ne; [done|]. intros <-. eauto.
Qed.


(** ** Properties *)

(** C10: an accepted request is never accepted again: after a request with a
    numeric [issuedAt] is accepted at [t1], whatever timers and requests come
    before [t2], a request of the same user with the same nonce and the same
    [issuedAt] is only accepted at [t2] when it came at the first millisecond of
    its window and is replayed at the last one, where the nonce has just been
    forgotten and the clock check still passes. *)
Theorem verify_no_replay (m : M) t1 t2 rq1 rq2 e1 e2 evs u :
  em_wf m →
  isEnvelope (rq_envelope rq1) = Some e1 → isEnvelope (rq_envelope rq2) = Some e2 →
  env_nonce e2 = env_nonce e1 → env_issuedAt e2 = env_issuedAt e1 → env_issuedAt e1 ≠ JNaN →
  (verify t1 rq1 m).2 = Return u →
  Forall (λ ev, event_time ev ≤ t2)%Z evs →
  (verify t2 rq2 (run_events (verify t1 rq1 m).1 evs)).2 = Return u →
  ∃ i, env_issuedAt e1 = JFin i ∧ (t1 = i - MAX_CLOCK_SKEW)%Z ∧ (t2 = i + MAX_CLOCK_SKEW)%Z.
Proof.
  intros Hwf He1 He2 Hn Hi HnN Hr1 Hevs Hr2.
  destruct (verify t1 rq1 m) as [m1 r1] eqn:Hv1; simpl in Hr1; subst r1; simpl in *.
  apply verify_result in Hv1 as (e & ? & Hs1 & _ & _ & Hm1). simplify_eq.
  match goal with H : (verify t2 rq2 ?m').2 = _ |- _ =>
    destruct (verify t2 rq2 m') as [m2 r2] eqn:Hv2; simpl in H; subst r2 end.
  apply verify_result in Hv2 as (e' & ? & Hs2 & _ & Hfree & _). simplify_eq.
  rewrite Hn in Hfree. rewrite Hi in Hs2.
  set (k := nonce_key u (env_nonce e1)) in *.
  destruct (decide (t2 < t1 + 2 * MAX_CLOCK_SKEW)%Z) as [Hlt|Hge].
  - destruct (nonce_kept k (t1 + 2 * MAX_CLOCK_SKEW) evs (em_set t1 k true m)) as [Hwf' Hk].
    + auto with ttl.
    + exists true. by rewrite em_view_set, lookup_insert_eq.
    + eapply Forall_impl; [exact Hevs|]. simpl. lia.
    + rewrite em_has_view in Hfree by done. apply bool_decide_eq_false in Hfree. destruct Hfree, Hk. eauto.
  - unfold MAX_CLOCK_SKEW in *. destruct (env_issuedAt e1) as [i|f t| |neg]; simpl in Hs1, Hs2.
    + apply Z.ltb_ge in Hs1, Hs2. exists i. split; [done|]. lia.
    + apply Z.leb_gt in Hs1, Hs2. repeat case_match; lia.
    + done.
    + done.
Qed.

(** [verify] accepts exactly the complete envelopes within the clock skew
    whose signature over the fields the server recomputed recovers the claimed
    user, with a nonce this user has not used; it then remembers that nonce, and
    a refused request leaves the memory as it was. *)
Theorem verify_spec (m : M) now rq :
  (∀ u, (verify now rq m).2 = Return u ↔ ∃ e a,
     isEnvelope (rq_envelope rq) = Some e ∧
     js_gtb (js_abs (js_sub_from now (env_issuedAt e))) MAX_CLOCK_SKEW = false ∧
     to_ethereum_address (env_user e) = Return u ∧
     verifyMessage (createSignedRequestMessage (rq_purpose rq) (rq_streamId rq) (rq_partition rq)
                      (env_issuedAt e) (env_nonce e) (rq_payloadLines rq)) (env_signature e)
       = Return a ∧
     to_ethereum_address a = Return u ∧
     em_has (nonce_key u (env_nonce e)) m = false) ∧
  match (verify now rq m).2 with
  | Return u => ∃ e, isEnvelope (rq_envelope rq) = Some e ∧
                  (verify now rq m).1 = em_set now (nonce_key u (env_nonce e)) true m
  | Throw _ => (verify now rq m).1 = m
  end.
Proof.
  split; [intros u; split|].
  - destruct (verify now rq m) as [m' r] eqn:Hv. simpl. intros ->.
    apply verify_result in Hv as (e & ? & ? & Hrec & ? & _). unfold recover in Hrec.
    destruct (to_ethereum_address (env_user e)) eqn:?; simplify_eq/=.
    destruct (verifyMessage _ _) as [ad|] eqn:?; simplify_eq/=.
    destruct (to_ethereum_address ad) eqn:?; simplify_eq/=. by exists e, ad.
  - intros (e & ad & He & Hs & Hu & Ha & Hs' & Hn). unfold verify, recover.
    rewrite He, Hs, Hu. simpl. rewrite Ha. simpl. rewrite Hs'. simpl.
    rewrite bool_decide_eq_true_2 by done. simpl. by rewrite Hn.
  - destruct (verify now rq m) as [m' r] eqn:Hv. apply verify_result in Hv. simpl.
    destruct r; naive_solver.
Qed.

(** A request whose [issuedAt] is not a number passes the clock check for
    ever: once it is accepted, it is accepted at every later time at which its
    nonce has been forgotten. *)
Theorem verify_nan_never_expires (m m' : M) now now' rq e u :
  isEnvelope (rq_envelope rq) = Some e → env_issuedAt e = JNaN →
  (verify now rq m).2 = Return u → em_has (nonce_key u (env_nonce e)) m' = false →
  (verify now' rq m').2 = Return u.
Proof.
  intros He Hi Hr Hfree. destruct (verify now rq m) as [m1 r] eqn:Hv. simpl in Hr. subst.
  apply verify_result in Hv as (e' & ? & _ & Hrec & _ & _). simplify_eq.
  unfold verify. rewrite He, Hi. simpl. rewrite Hrec, bool_decide_eq_true_2 by done. simpl.
  by rewrite Hfree.
Qed.

End verifier.

(** A signature covers one request: when no field holds a newline and the
    numbers are integers, requests with different fields have different
    messages. *)
Theorem createSignedRequestMessage_inj p1 s1 n1 i1 o1 l1 p2 s2 n2 i2 o2 l2 :
  Forall (λ s, no_newline s = true) ([p1; s1; o1] ++ l1) →
  Forall (λ s, no_newline s = true) ([p2; s2; o2] ++ l2) →
  createSignedRequestMessage p1 s1 (JFin n1) (JFin i1) o1 l1
    = createSignedRequestMessage p2 s2 (JFin n2) (JFin i2) o2 l2 →
  (p1, s1, n1, i1, o1, l1) = (p2, s2, n2, i2, o2, l2).
Proof.
  intros H1 H2 Heq. unfold createSignedRequestMessage in Heq.
  apply string_join_newline_inj in Heq; [|done..| |].
  - simpl in Heq. simplify_eq. do 2 f_equal.
  - decompose_Forall_hyps. repeat (constructor; try done); apply no_newline_pretty_Z.
  - decompose_Forall_hyps. repeat (constructor; try done); apply no_newline_pretty_Z.
Qed.

(** The nonce is not one line: the message of a request with nonce [n] and
    payload lines [l :: ls] is also the message of the request whose nonce is [n],
    a newline and [l], with lines [ls]. *)
Lemma createSignedRequestMessage_nonce_absorbs p s n i o l ls :
  createSignedRequestMessage p s n i o (l :: ls)
    = createSignedRequestMessage p s n i (o +:+ newline +:+ l) ls.
Proof.
  unfold createSignedRequestMessage. cbn [app].
  repeat (rewrite (string_join_cons _ _ (_ :: _)) by done; f_equal; f_equal).
  destruct ls; simpl; [done|]. by rewrite !string_app_assoc.
Qed.

(** ** Witnesses *)

Module Witness.

(** A signature scheme in which the signature is the address. *)
Definition verify_as_is (message signature : string) : outcome js_error string := Return signature.
Definition alice : string := "0x00000000000000000000000000000000000a11ce".
Definition request (issuedAt : jsnum) : signed_request :=
  SignedRequest (Some (RawEnvelope (Some alice) (Some issuedAt) (Some "nonce-0001") (Some alice)))
    "purge" "stream" (JFin 0) ["m1"; "m2"].
Definition envelope (issuedAt : jsnum) : SignedRequestEnvelope :=
  Envelope alice issuedAt "nonce-0001" alice.
Definition memory : ttl_map string bool := ttl_empty.

(** The one replay that is accepted: sent when the window opens, and again when
    it closes. *)
Lemma verify_no_replay_witness :
  ∃ i, JFin 1000000 = JFin i ∧ (700000 = i - MAX_CLOCK_SKEW)%Z ∧ (1300000 = i + MAX_CLOCK_SKEW)%Z.
Proof.
  apply (verify_no_replay (M := ttl_map string bool) verify_as_is memory 700000 1300000
           (request (JFin 1000000)) (request (JFin 1000000))
           (envelope (JFin 1000000)) (envelope (JFin 1000000)) [TimersRun 1300000] alice);
    [apply ttl_wf_empty|reflexivity..|discriminate|vm_compute; reflexivity| |vm_compute; reflexivity].
  repeat constructor; simpl; lia.
Defined.

Lemma verify_nan_never_expires_witness :
  (verify verify_as_is (10 ^ 13) (request JNaN) memory).2 = Return alice.
Proof.
  apply (verify_nan_never_expires (M := ttl_map string bool) verify_as_is memory memory
           0 (10 ^ 13) (request JNaN) (envelope JNaN)); vm_compute; reflexivity.
Defined.

Lemma createSignedRequestMessage_inj_witness :
  ("purge", "s", 0%Z, 5%Z, "nonce-0001", ["m1"]) = ("purge", "s", 0%Z, 5%Z, "nonce-0001", ["m1"]).
Proof.
  apply (createSignedRequestMessage_inj "purge" "s" 0 5 "nonce-0001" ["m1"]
           "purge" "s" 0 5 "nonce-0001" ["m1"]); [repeat constructor..|reflexivity].
Defined.

End Witness.
