(* ===== verification/Cassandra.v ===== *)
(** The Cassandra tables and the statements the storage plugin runs on them.

    The driver and the database are not code of the repository: [CassandraClient]
    is the interface the components are verified against.  Its operations are the
    shapes of CQL statements the source builds, its laws the documented meaning of
    those statements on the two tables of deploy/cassandra/init.cql, and
    [mem_cassandra] an instance that computes. *)

From S2P Require Import Prelude.
From stdpp Require Import sorting.

Set Default Proof Using "Type".

(** * Tables *)

(** A row of [bucket], keyed by stream, partition and creation date. *)
Record bucket_row := BucketRow {
  bk_stream : string; bk_partition : Z; bk_date : Z;
  bk_id : string; bk_records : Z; bk_size : Z
}.

(** A row of [stream_data], keyed by all but the last two columns. *)
Record data_row := DataRow {
  dr_stream : string; dr_partition : Z; dr_bucket : string; dr_ts : Z; dr_seq : Z;
  dr_publisher : string; dr_chain : string;
  dr_payload : option string; dr_stored_at : option Z
}.

#[export] Instance bucket_row_eq_dec : EqDecision bucket_row.
Proof. solve_decision. Defined.
#[export] Instance data_row_eq_dec : EqDecision data_row.
Proof. solve_decision. Defined.
(** A row is encoded as the list of its encoded columns, which stays small. *)
#[export] Instance bucket_row_countable : Countable bucket_row.
Proof.
  refine (inj_countable
    (λ r, [encode (bk_stream r); encode (bk_partition r); encode (bk_date r); encode (bk_id r);
           encode (bk_records r); encode (bk_size r)])
    (λ l, match l with
          | [a; b; c; d; e; f] =>
              a ← decode a; b ← decode b; c ← decode c; d ← decode d; e ← decode e; f ← decode f;
              Some (BucketRow a b c d e f)
          | _ => None
          end) _).
  intros []. cbn -[encode decode]. by rewrite !decode_encode.
Defined.
#[export] Instance data_row_countable : Countable data_row.
Proof.
  refine (inj_countable
    (λ r, [encode (dr_stream r); encode (dr_partition r); encode (dr_bucket r); encode (dr_ts r);
           encode (dr_seq r); encode (dr_publisher r); encode (dr_chain r); encode (dr_payload r);
           encode (dr_stored_at r)])
    (λ l, match l with
          | [a; b; c; d; e; f; g; h; i] =>
              a ← decode a; b ← decode b; c ← decode c; d ← decode d; e ← decode e; f ← decode f;
              g ← decode g; h ← decode h; i ← decode i;
              Some (DataRow a b c d e f g h i)
          | _ => None
          end) _).
  intros []. cbn -[encode decode]. by rewrite !decode_encode.
Defined.

Definition bucket_key (r : bucket_row) : string * Z * Z := (bk_stream r, bk_partition r, bk_date r).
Definition data_key (r : data_row) : string * Z * string * Z * Z * string * string :=
  (dr_stream r, dr_partition r, dr_bucket r, dr_ts r, dr_seq r, dr_publisher r, dr_chain r).
Definition in_part (streamId : string) (partition : Z) (r : bucket_row) : Prop :=
  bk_stream r = streamId ∧ bk_partition r = partition.

(** * WHERE clauses *)

Inductive cond := CEq (z : Z) | CGe (z : Z) | CGt (z : Z) | CLe (z : Z) | CLt (z : Z) | CIn (l : list Z).

Definition cond_matches (x : Z) (c : cond) : bool :=
  match c with
  | CEq z => (x =? z)%Z
  | CGe z => (z <=? x)%Z
  | CGt z => (z <? x)%Z
  | CLe z => (x <=? z)%Z
  | CLt z => (x <? z)%Z
  | CIn l => bool_decide (x ∈ l)
  end.

(** [stream_id = ? AND partition = ?] and conditions on [date_create]. *)
Record bucket_where := BucketWhere { bw_stream : string; bw_partition : Z; bw_date : list cond }.
Definition bucket_matches (w : bucket_where) (r : bucket_row) : bool :=
  bool_decide (bk_stream r = bw_stream w) && (bk_partition r =? bw_partition w)%Z
  && forallb (cond_matches (bk_date r)) (bw_date w).

(** [stream_id = ? AND partition = ? AND bucket_id IN ?] and conditions on the
    clustering columns. *)
Record data_where := DataWhere {
  dw_stream : string; dw_partition : Z; dw_buckets : list string;
  dw_ts : list cond; dw_seq : list cond;
  dw_publisher : option string; dw_chain : option string
}.
Definition opt_eq_matches (o : option string) (s : string) : bool :=
  match o with Some s' => bool_decide (s = s') | None => true end.
Definition data_matches (w : data_where) (r : data_row) : bool :=
  bool_decide (dr_stream r = dw_stream w) && (dr_partition r =? dw_partition w)%Z
  && bool_decide (dr_bucket r ∈ dw_buckets w)
  && forallb (cond_matches (dr_ts r)) (dw_ts w) && forallb (cond_matches (dr_seq r)) (dw_seq w)
  && opt_eq_matches (dw_publisher w) (dr_publisher r) && opt_eq_matches (dw_chain w) (dr_chain r).

(** * Statements that write *)

Inductive mutation :=
  | InsertData (useTtl : bool) (r : data_row)
  | UpdateBucket (r : bucket_row)              (** for non-existing buckets UPDATE works as INSERT *)
  | DeleteBucket (w : bucket_where)
  | DeleteData (w : data_where).

Definition apply_buckets (m : mutation) (t : gset bucket_row) : gset bucket_row :=
  match m with
  | UpdateBucket r => {[ r ]} ∪ filter (λ r', bucket_key r' ≠ bucket_key r) t
  | DeleteBucket w => filter (λ r', bucket_matches w r' = false) t
  | _ => t
  end.
Definition apply_data (m : mutation) (t : gset data_row) : gset data_row :=
  match m with
  | InsertData _ r => {[ r ]} ∪ filter (λ r', data_key r' ≠ data_key r) t
  | DeleteData w => filter (λ r', data_matches w r' = false) t
  | _ => t
  end.
Definition apply_all_buckets (ms : list mutation) (t : gset bucket_row) : gset bucket_row :=
  foldl (λ t m, apply_buckets m t) t ms.
Definition apply_all_data (ms : list mutation) (t : gset data_row) : gset data_row :=
  foldl (λ t m, apply_data m t) t ms.

(** * ORDER BY, LIMIT and aggregates *)

Inductive order := Unordered | Asc | Desc.

Definition date_order (o : order) (a b : bucket_row) : Prop :=
  match o with
  | Unordered => True
  | Asc => (bk_date a ≤ bk_date b)%Z
  | Desc => (bk_date b ≤ bk_date a)%Z
  end.
Definition ts_seq_le (a b : data_row) : Prop :=
  (dr_ts a < dr_ts b)%Z ∨ (dr_ts a = dr_ts b ∧ (dr_seq a ≤ dr_seq b)%Z).
Definition row_order (o : order) (a b : data_row) : Prop :=
  match o with Unordered => True | Asc => ts_seq_le a b | Desc => ts_seq_le b a end.

#[export] Instance ts_seq_le_dec a b : Decision (ts_seq_le a b).
Proof. unfold ts_seq_le. apply _. Defined.
#[export] Instance date_order_dec o a b : Decision (date_order o a b).
Proof. destruct o; simpl; apply _. Defined.
#[export] Instance row_order_dec o a b : Decision (row_order o a b).
Proof. destruct o; simpl; apply _. Defined.

Definition limit_to {A} (limit : option Z) (l : list A) : list A :=
  match limit with Some n => take (Z.to_nat n) l | None => l end.

(** [rows] answers a SELECT on [table]: a sorted listing of the matching rows, cut. *)
Definition selects {A} `{Countable A} (P : A → bool) (R : A → A → Prop) (limit : option Z)
    (table : gset A) (rows : list A) : Prop :=
  ∃ all, rows = limit_to limit all ∧ all ≡ₚ elements (filter (λ r, P r = true) table)
         ∧ StronglySorted R all.

(** [MAX] of a column: null when no row matches. *)
Definition max_of (l : list Z) : option Z :=
  foldr (λ x m, Some (match m with Some y => Z.max x y | None => x end)) None l.
(** [SUM] of an [int] column is an [int]: it wraps. *)
Definition wrap32 (z : Z) : Z := ((z + 2147483648) `mod` 4294967296 - 2147483648)%Z.
Definition sum_of (l : list Z) : Z := foldr Z.add 0%Z l.

(** * The interface *)

Class CassandraClient (DB : Type) := {
  db_buckets : DB → gset bucket_row;
  db_data : DB → gset data_row;
  distinct_parts : DB → outcome js_error (list (string * Z));
  select_buckets : DB → bucket_where → order → option Z → outcome js_error (list bucket_row);
  sum_buckets : DB → bucket_where → (bucket_row → Z) → outcome js_error (list Z);
  select_data : DB → data_where → order → option Z → outcome js_error (list data_row);
  count_data : DB → data_where → outcome js_error Z;
  max_ts : DB → data_where → outcome js_error (list (option Z));
  execute_batch : DB → list mutation → DB * outcome js_error unit;
  distinct_parts_ok db l : distinct_parts db = Return l →
    NoDup l ∧ ∀ p, p ∈ l ↔ ∃ r, r ∈ db_buckets db ∧ (bk_stream r, bk_partition r) = p;
  select_buckets_ok db w o limit rows : select_buckets db w o limit = Return rows →
    selects (bucket_matches w) (date_order o) limit (db_buckets db) rows;
  sum_buckets_ok db w f rows : sum_buckets db w f = Return rows →
    rows = [wrap32 (sum_of (f <$> elements (filter (λ r, bucket_matches w r = true) (db_buckets db))))];
  select_data_ok db w o limit rows : select_data db w o limit = Return rows →
    selects (data_matches w) (row_order o) limit (db_data db) rows;
  count_data_ok db w n : count_data db w = Return n →
    n = Z.of_nat (size (filter (λ r, data_matches w r = true) (db_data db)));
  max_ts_ok db w rows : max_ts db w = Return rows →
    rows = [max_of (dr_ts <$> elements (filter (λ r, data_matches w r = true) (db_data db)))];
  execute_batch_ok db ms db' r : execute_batch db ms = (db', r) →
    (db_buckets db' = apply_all_buckets ms (db_buckets db)
      ∧ db_data db' = apply_all_data ms (db_data db))
    ∨ (is_return r = false ∧ db_buckets db' = db_buckets db ∧ db_data db' = db_data db)
}.

(** * Facts *)

Lemma selects_elem {A} `{Countable A} (P : A → bool) R limit (table : gset A) rows r :
  selects P R limit table rows → r ∈ rows → r ∈ table ∧ P r = true.
Proof.
  intros (all & -> & Hperm & _) Hr.
  assert (r ∈ all) as Hin.
  { destruct limit; simpl in Hr; [|done]. by eapply subseteq_take. }
  rewrite Hperm, elem_of_elements, elem_of_filter in Hin. tauto.
Qed.

Lemma selects_complete {A} `{Countable A} (P : A → bool) R (table : gset A) rows r :
  selects P R None table rows → r ∈ rows ↔ r ∈ table ∧ P r = true.
Proof.
  intros Hs. split; [by eapply selects_elem|]. destruct Hs as (all & -> & Hperm & _). simpl.
  rewrite Hperm, elem_of_elements, elem_of_filter. tauto.
Qed.

Lemma selects_NoDup {A} `{Countable A} (P : A → bool) R limit (table : gset A) rows :
  selects P R limit table rows → NoDup rows.
Proof.
  intros (all & -> & Hperm & _). assert (NoDup all) by (rewrite Hperm; apply NoDup_elements).
  destruct limit; simpl; [|done]. by eapply sublist_NoDup, sublist_take.
Qed.

(** The first row of a sorted SELECT comes before every matching row. *)
Lemma selects_first {A} `{Countable A} (P : A → bool) R limit (table : gset A) r rows r' :
  selects P R limit table (r :: rows) → r' ∈ table → P r' = true → r' = r ∨ R r r'.
Proof.
  intros (all & Hrows & Hperm & Hsort) Hr' HP.
  assert (r' ∈ all) as Hin by (rewrite Hperm, elem_of_elements, elem_of_filter; done).
  destruct all as [|r0 all]; [by destruct limit; simpl in Hrows; rewrite ?take_nil in Hrows|].
  assert (r = r0) as -> by (destruct limit as [n|]; simpl in Hrows;
    [destruct (Z.to_nat n); simpl in Hrows|]; congruence).
  apply elem_of_cons in Hin as [->|Hin]; [by left|right].
  inversion Hsort as [|? ? _ Hall]; subst. rewrite Forall_forall in Hall. auto.
Qed.

Lemma bucket_matches_spec w r :
  bucket_matches w r = true ↔
  bk_stream r = bw_stream w ∧ bk_partition r = bw_partition w ∧
  Forall (λ c, cond_matches (bk_date r) c = true) (bw_date w).
Proof.
  unfold bucket_matches. rewrite !andb_true_iff, bool_decide_eq_true, Z.eqb_eq, forallb_forall,
    Forall_forall. setoid_rewrite list_elem_of_In. tauto.
Qed.

Lemma data_matches_spec w r :
  data_matches w r = true ↔
  dr_stream r = dw_stream w ∧ dr_partition r = dw_partition w ∧ dr_bucket r ∈ dw_buckets w ∧
  Forall (λ c, cond_matches (dr_ts r) c = true) (dw_ts w) ∧
  Forall (λ c, cond_matches (dr_seq r) c = true) (dw_seq w) ∧
  (∀ p, dw_publisher w = Some p → dr_publisher r = p) ∧
  (∀ c, dw_chain w = Some c → dr_chain r = c).
Proof.
  unfold data_matches.
  rewrite !andb_true_iff, !bool_decide_eq_true, Z.eqb_eq, !forallb_forall, !Forall_forall.
  setoid_rewrite list_elem_of_In.
  assert (∀ o s, opt_eq_matches o s = true ↔ ∀ p, o = Some p → s = p) as Ho.
  { intros [p|] s; simpl; [rewrite bool_decide_eq_true|]; naive_solver. }
  rewrite !Ho. tauto.
Qed.

Lemma max_of_None l : max_of l = None ↔ l = [].
Proof. by destruct l. Qed.

Lemma max_of_ge l m x : max_of l = Some m → x ∈ l → (x ≤ m)%Z.
Proof.
  revert m. induction l as [|y l IH]; simpl; intros m Hm Hx; [by apply not_elem_of_nil in Hx|].
  destruct (max_of l) as [m'|] eqn:Hl; simplify_eq;
    apply elem_of_cons in Hx as [->|Hx]; try lia.
  - specialize (IH m' eq_refl Hx). lia.
  - apply max_of_None in Hl as ->. by apply not_elem_of_nil in Hx.
Qed.

Lemma max_of_elem l m : max_of l = Some m → m ∈ l.
Proof.
  revert m. induction l as [|y l IH]; simpl; intros m Hm; [done|].
  destruct (max_of l) as [m'|] eqn:Hl; simplify_eq; [|by left].
  destruct (Z.max_spec y m') as [[_ ->]|[_ ->]]; [right; auto|left].
Qed.

Lemma wrap32_small z : (-2147483648 ≤ z < 2147483648)%Z → wrap32 z = z.
Proof. intros. unfold wrap32. rewrite Z.mod_small; lia. Qed.

Lemma sum_of_app l1 l2 : sum_of (l1 ++ l2) = (sum_of l1 + sum_of l2)%Z.
Proof. induction l1; simpl; lia. Qed.

#[export] Instance sum_of_proper : Proper ((≡ₚ) ==> (=)) sum_of.
Proof. induction 1; simpl; lia. Qed.

(** Deletions only remove rows. *)
Definition is_delete (m : mutation) : bool :=
  match m with DeleteBucket _ | DeleteData _ => true | _ => false end.

Lemma apply_deletes_data ms t :
  forallb is_delete ms = true →
  ∀ r, r ∈ apply_all_data ms t ↔
       r ∈ t ∧ ∀ w, DeleteData w ∈ ms → data_matches w r = false.
Proof.
  unfold apply_all_data. revert t. induction ms as [|m ms IH]; intros t Hms r.
  { simpl. set_solver. }
  simpl in *. apply andb_true_iff in Hms as [Hm Hms]. rewrite IH by done. clear IH.
  setoid_rewrite elem_of_cons. destruct m; simpl in *; try done.
  - naive_solver.
  - rewrite elem_of_filter. naive_solver.
Qed.

Lemma apply_deletes_buckets ms t :
  forallb is_delete ms = true →
  ∀ r, r ∈ apply_all_buckets ms t ↔
       r ∈ t ∧ ∀ w, DeleteBucket w ∈ ms → bucket_matches w r = false.
Proof.
  unfold apply_all_buckets. revert t. induction ms as [|m ms IH]; intros t Hms r.
  { simpl. set_solver. }
  simpl in *. apply andb_true_iff in Hms as [Hm Hms]. rewrite IH by done. clear IH.
  setoid_rewrite elem_of_cons. destruct m; simpl in *; try done.
  - rewrite elem_of_filter. naive_solver.
  - naive_solver.
Qed.

(** * An instance that computes *)

Record mem_db := MemDb { mem_buckets : gset bucket_row; mem_data : gset data_row }.

#[export] Instance date_order_total o : Total (date_order o).
Proof. intros a b. destruct o; simpl; [by left|lia..]. Qed.
#[export] Instance row_order_total o : Total (row_order o).
Proof. intros a b. destruct o; simpl; unfold ts_seq_le; [by left|lia..]. Qed.
#[export] Instance date_order_trans o : Transitive (date_order o).
Proof. intros a b c. destruct o; simpl; [done|lia..]. Qed.
#[export] Instance row_order_trans o : Transitive (row_order o).
Proof. intros a b c. destruct o; simpl; unfold ts_seq_le; [done|lia..]. Qed.

Definition mem_select {A} `{Countable A} (P : A → bool) (R : A → A → Prop)
    `{∀ a b, Decision (R a b)} (limit : option Z) (t : gset A) : list A :=
  limit_to limit (merge_sort R (elements (filter (λ r, P r = true) t))).

Lemma mem_select_ok {A} `{Countable A} (P : A → bool) (R : A → A → Prop)
    `{∀ a b, Decision (R a b)} `{!Total R} `{!Transitive R} limit (t : gset A) :
  selects P R limit t (mem_select P R limit t).
Proof.
  eexists. split; [done|]. split; [apply merge_sort_Permutation|].
  by apply StronglySorted_merge_sort.
Qed.

#[export] Program Instance mem_cassandra : CassandraClient mem_db := {|
  db_buckets := mem_buckets; db_data := mem_data;
  distinct_parts db :=
    Return (remove_dups ((λ r, (bk_stream r, bk_partition r)) <$> elements (mem_buckets db)));
  select_buckets db w o limit :=
    Return (mem_select (bucket_matches w) (date_order o) limit (mem_buckets db));
  sum_buckets db w f :=
    Return [wrap32 (sum_of (f <$> elements (filter (λ r, bucket_matches w r = true) (mem_buckets db))))];
  select_data db w o limit :=
    Return (mem_select (data_matches w) (row_order o) limit (mem_data db));
  count_data db w :=
    Return (Z.of_nat (size (filter (λ r, data_matches w r = true) (mem_data db))));
  max_ts db w :=
    Return [max_of (dr_ts <$> elements (filter (λ r, data_matches w r = true) (mem_data db)))];
  execute_batch db ms :=
    (MemDb (apply_all_buckets ms (mem_buckets db)) (apply_all_data ms (mem_data db)), Return tt)
|}.
Next Obligation.
  intros db l Hl. simplify_eq/=. split; [apply NoDup_remove_dups|]. intros p.
  rewrite elem_of_remove_dups, list_elem_of_fmap. setoid_rewrite elem_of_elements. naive_solver.
Qed.
Next Obligation. intros. simplify_eq/=. apply mem_select_ok; apply _. Qed.
Next Obligation. intros. by simplify_eq/=. Qed.
Next Obligation. intros. simplify_eq/=. apply mem_select_ok; apply _. Qed.
Next Obligation. intros. by simplify_eq/=. Qed.
Next Obligation. intros. by simplify_eq/=. Qed.
Next Obligation. intros. simplify_eq/=. by left. Qed.
