(* ===== verification/Batch.v ===== *)
(** Writing batches (packages/node/src/plugins/storage/Batch.ts and
    BatchManager.ts): records are gathered per bucket, a full or timed-out batch
    is inserted, a failed insert is retried with a growing delay.

    The model keeps every [Batch] object in [bm_heap] under its id, with the one
    timer [this.timeout] refers to, and the inserts whose answer is awaited.
    [bm_step] takes the events of the program: a call of [store] or [stop], a
    timer that runs, the answer of an insert. *)

From S2P Require Import Prelude.
From S2P Require Import TtlMap.
From S2P Require Import Cassandra.

Set Default Proof Using "Type".

(** * Batch.ts *)

Record InsertRecord := MkInsertRecord {
  ir_streamId : string; ir_partition : Z; ir_timestamp : Z; ir_sequenceNo : Z;
  ir_publisherId : string; ir_msgChainId : string; ir_payload : string; ir_storedAt : Z
}.

(** OPENED => LOCKED => PENDING => INSERTED *)
Inductive batch_state := OPENED | LOCKED | PENDING | INSERTED.
#[export] Instance batch_state_eq_dec : EqDecision batch_state.
Proof. solve_decision. Defined.

(** What the callback of the running timeout does. *)
Inductive batch_timer := LockTimeout | InsertTimeout.
#[export] Instance batch_timer_eq_dec : EqDecision batch_timer.
Proof. solve_decision. Defined.

Record batch := MkBatch {
  b_bucketId : string;
  b_maxSize : Z; b_maxRecordCount : Z; b_maxRetries : Z; b_closeTimeout : Z;
  b_timeout : option (Z * batch_timer);
  b_records : list InsertRecord;
  b_size : Z;
  b_retries : Z;
  b_state : batch_state;
  b_doneCbs : list nat                  (** done callbacks, by the store call that passed them *)
}.

Definition type_error (msg : string) : js_error := MkError None msg.

Definition batch_new (now : Z) (bucketId : string)
    (maxSize maxRecordCount closeTimeout maxRetries : Z) : outcome js_error batch :=
  if (String.length bucketId =? 0)%nat then Throw (type_error "bucketId must be not empty string")
  else if (maxSize <=? 0)%Z then Throw (type_error "maxSize must be > 0")
  else if (maxRecordCount <=? 0)%Z then Throw (type_error "maxRecordCount must be > 0")
  else if (closeTimeout <=? 0)%Z then Throw (type_error "closeTimeout must be > 0")
  else if (maxRetries <=? 0)%Z then Throw (type_error "maxRetries must be > 0")
  else Return (MkBatch bucketId maxSize maxRecordCount maxRetries closeTimeout
                 (Some (now + timer_delay closeTimeout, LockTimeout)%Z) [] 0 0 OPENED []).

Definition reachedMaxRetries (b : batch) : bool := (b_retries b =? b_maxRetries b)%Z.

Definition set_state (s : batch_state) (b : batch) : batch :=
  MkBatch (b_bucketId b) (b_maxSize b) (b_maxRecordCount b) (b_maxRetries b) (b_closeTimeout b)
    (b_timeout b) (b_records b) (b_size b) (b_retries b) s (b_doneCbs b).
Definition set_timeout (t : option (Z * batch_timer)) (b : batch) : batch :=
  MkBatch (b_bucketId b) (b_maxSize b) (b_maxRecordCount b) (b_maxRetries b) (b_closeTimeout b)
    t (b_records b) (b_size b) (b_retries b) (b_state b) (b_doneCbs b).

(** [lock] before it emits 'locked' *)
Definition batch_lock (b : batch) : batch := set_state LOCKED (set_timeout None b).

Definition scheduleInsert (now : Z) (b : batch) : batch :=
  set_timeout (Some (now + timer_delay (b_closeTimeout b * b_retries b), InsertTimeout)%Z) b.

(** The callback of [scheduleInsert], before it emits 'pending'. *)
Definition insert_timeout (b : batch) : batch :=
  let retries := if (b_retries b <? b_maxRetries b)%Z then (b_retries b + 1)%Z else b_retries b in
  MkBatch (b_bucketId b) (b_maxSize b) (b_maxRecordCount b) (b_maxRetries b) (b_closeTimeout b)
    None (b_records b) (b_size b) retries PENDING (b_doneCbs b).

Definition batch_done (b : batch) : batch * list nat :=
  (MkBatch (b_bucketId b) (b_maxSize b) (b_maxRecordCount b) (b_maxRetries b) (b_closeTimeout b)
     (b_timeout b) (b_records b) (b_size b) (b_retries b) (b_state b) [], b_doneCbs b).

Definition batch_clear (b : batch) : batch :=
  MkBatch (b_bucketId b) (b_maxSize b) (b_maxRecordCount b) (b_maxRetries b) (b_closeTimeout b)
    None [] (b_size b) (b_retries b) INSERTED (b_doneCbs b).

Definition payload_length (r : InsertRecord) : Z := Z.of_nat (String.length (ir_payload r)).

Definition batch_push (r : InsertRecord) (doneCb : option nat) (b : batch) : batch :=
  MkBatch (b_bucketId b) (b_maxSize b) (b_maxRecordCount b) (b_maxRetries b) (b_closeTimeout b)
    (b_timeout b) (b_records b ++ [r]) (b_size b + payload_length r) (b_retries b) (b_state b)
    (b_doneCbs b ++ match doneCb with Some cb => [cb] | None => [] end).

Definition getRecordCount (b : batch) : Z := Z.of_nat (length (b_records b)).
Definition isFull (b : batch) : bool :=
  (b_maxSize b <=? b_size b)%Z || (b_maxRecordCount b <=? getRecordCount b)%Z.

(** * BatchManager.ts *)

Record BatchManagerOptions := MkBatchManagerOptions {
  o_useTtl : bool; o_batchMaxSize : Z; o_batchMaxRecordCount : Z;
  o_batchCloseTimeout : Z; o_batchMaxRetries : Z
}.
Definition default_batch_options (useTtl : bool) : BatchManagerOptions :=
  MkBatchManagerOptions useTtl (8000 * 300) 8000 1000 1000.

Record batch_manager := MkBatchManager {
  bm_opts : BatchManagerOptions;
  bm_heap : gmap nat batch;                    (** every Batch created, by id *)
  bm_next : nat;                               (** the next id *)
  bm_batches : gmap string nat;                (** bucketId => batch *)
  bm_pendingBatches : gset nat;                (** batchId => batch *)
  bm_inflight : gmap nat (list mutation)       (** inserts whose answer is awaited *)
}.

Definition bm_new (opts : BatchManagerOptions) : batch_manager :=
  MkBatchManager opts ∅ 0 ∅ ∅ ∅.

(** What the manager does that the rest of the program sees. *)
Inductive batch_output :=
  | InsertSent (id : nat) (queries : list mutation)
  | DoneCalled (cb : nat)
  | Inserted (id : nat)                              (** the insert of the batch is fulfilled *)
  | Dropped (bucketId : string) (records : list InsertRecord)
  | UnhandledRejection.

Definition put_batch (id : nat) (b : batch) (m : batch_manager) : batch_manager :=
  MkBatchManager (bm_opts m) (<[id := b]> (bm_heap m)) (bm_next m) (bm_batches m)
    (bm_pendingBatches m) (bm_inflight m).

(** [moveFullBatch], the listener of 'locked' *)
Definition moveFullBatch (now : Z) (bucketId : string) (id : nat) (m : batch_manager) : batch_manager :=
  match bm_heap m !! id with
  | Some b =>
      MkBatchManager (bm_opts m) (<[id := scheduleInsert now b]> (bm_heap m)) (bm_next m)
        (base.delete bucketId (bm_batches m)) ({[ id ]} ∪ bm_pendingBatches m) (bm_inflight m)
  | None => m
  end.

(** [batch.lock()] with its listener *)
Definition lock_batch (now : Z) (id : nat) (m : batch_manager) : batch_manager :=
  match bm_heap m !! id with
  | Some b => moveFullBatch now (b_bucketId b) id (put_batch id (batch_lock b) m)
  | None => m
  end.

Definition store_existing (r : InsertRecord) (doneCb : option nat) (id : nat) (m : batch_manager)
    : batch_manager :=
  match bm_heap m !! id with
  | Some b => put_batch id (batch_push r doneCb b) m
  | None => m
  end.

Definition bm_store (now : Z) (bucketId : string) (r : InsertRecord) (doneCb : option nat)
    : eff batch_manager js_error unit := λ m,
  let m1 := match bm_batches m !! bucketId with
            | Some id => match bm_heap m !! id with
                         | Some b => if isFull b then lock_batch now id m else m
                         | None => m
                         end
            | None => m
            end in
  match bm_batches m1 !! bucketId with
  | Some id => (store_existing r doneCb id m1, Return tt)
  | None =>
      let o := bm_opts m1 in
      match batch_new now bucketId (o_batchMaxSize o) (o_batchMaxRecordCount o)
              (o_batchCloseTimeout o) (o_batchMaxRetries o) with
      | Throw e => (m1, Throw e)
      | Return b =>
          let id := bm_next m1 in
          let m2 := MkBatchManager o (<[id := b]> (bm_heap m1)) (S id)
                      (<[bucketId := id]> (bm_batches m1)) (bm_pendingBatches m1) (bm_inflight m1) in
          (store_existing r doneCb id m2, Return tt)
      end
  end.

Definition clear_batches (ids : list nat) (heap : gmap nat batch) : gmap nat batch :=
  foldl (λ h id, alter batch_clear id h) heap ids.

Definition bm_stop (m : batch_manager) : batch_manager :=
  MkBatchManager (bm_opts m)
    (clear_batches (elements (bm_pendingBatches m))
      (clear_batches ((map_to_list (bm_batches m)).*2) (bm_heap m)))
    (bm_next m) ∅ ∅ (bm_inflight m).

(** One query of an insert: the statement of the options and its parameters. *)
Definition insert_query (useTtl : bool) (bucketId : string) (r : InsertRecord) : mutation :=
  InsertData useTtl
    (DataRow (ir_streamId r) (ir_partition r) bucketId (ir_timestamp r) (ir_sequenceNo r)
       (ir_publisherId r) (ir_msgChainId r) (Some (ir_payload r)) (Some (ir_storedAt r))).

(** [insert] up to its await.  When the batch is not pending any more, reading its
    records throws, and so does the error handler, which reads it too. *)
Definition insert_begin (id : nat) (m : batch_manager) : batch_manager * list batch_output :=
  if bool_decide (id ∈ bm_pendingBatches m) then
    match bm_heap m !! id with
    | Some b =>
        let queries := insert_query (o_useTtl (bm_opts m)) (b_bucketId b) <$> b_records b in
        (MkBatchManager (bm_opts m) (bm_heap m) (bm_next m) (bm_batches m) (bm_pendingBatches m)
           (<[id := queries]> (bm_inflight m)), [InsertSent id queries])
    | None => (m, [UnhandledRejection])
    end
  else (m, [UnhandledRejection]).

(** The rest of [insert] when the driver's promise is fulfilled, and when it is rejected. *)
Definition insert_end (now : Z) (id : nat) (ok : bool) (m : batch_manager)
    : batch_manager * list batch_output :=
  match bm_inflight m !! id, bm_heap m !! id with
  | Some _, Some b =>
      let inflight := base.delete id (bm_inflight m) in
      if ok then
        let '(b1, cbs) := batch_done b in
        (MkBatchManager (bm_opts m) (<[id := batch_clear b1]> (bm_heap m)) (bm_next m)
           (bm_batches m) (bm_pendingBatches m ∖ {[ id ]}) inflight,
         Inserted id :: (DoneCalled <$> cbs))
      else if reachedMaxRetries b then
        (MkBatchManager (bm_opts m) (<[id := batch_clear b]> (bm_heap m)) (bm_next m)
           (bm_batches m) (bm_pendingBatches m ∖ {[ id ]}) inflight,
         [Dropped (b_bucketId b) (b_records b)])
      else
        (MkBatchManager (bm_opts m) (<[id := scheduleInsert now b]> (bm_heap m)) (bm_next m)
           (bm_batches m) (bm_pendingBatches m) inflight, [])
  | _, _ => (m, [])
  end.

(** The timer of batch [id] runs, once it is due. *)
Definition timer_runs (now : Z) (id : nat) (m : batch_manager) : batch_manager * list batch_output :=
  match bm_heap m !! id with
  | Some b =>
      match b_timeout b with
      | Some (deadline, kind) =>
          if (deadline <=? now)%Z then
            match kind with
            | LockTimeout => (lock_batch now id m, [])
            | InsertTimeout => insert_begin id (put_batch id (insert_timeout b) m)
            end
          else (m, [])
      | None => (m, [])
      end
  | None => (m, [])
  end.

Inductive batch_event :=
  | Store (now : Z) (bucketId : string) (r : InsertRecord) (doneCb : option nat)
  | TimerRuns (now : Z) (id : nat)
  | InsertAnswered (now : Z) (id : nat) (ok : bool)
  | Stop.

Definition bm_step (m : batch_manager) (ev : batch_event) : batch_manager * list batch_output :=
  match ev with
  | Store now bucketId r cb => ((bm_store now bucketId r cb m).1, [])
  | TimerRuns now id => timer_runs now id m
  | InsertAnswered now id ok => insert_end now id ok m
  | Stop => (bm_stop m, [])
  end.

Fixpoint bm_run (m : batch_manager) (evs : list batch_event) : batch_manager * list batch_output :=
  match evs with
  | [] => (m, [])
  | ev :: evs' =>
      let '(m1, out1) := bm_step m ev in
      let '(m2, out2) := bm_run m1 evs' in (m2, out1 ++ out2)
  end.

(** * The invariant of the batches *)

(** Where a batch is in its life: gathering records, waiting for its next insert,
    being inserted, or finished. *)
Definition phase_open (m : batch_manager) (id : nat) (b : batch) : Prop :=
  bm_batches m !! b_bucketId b = Some id ∧ id ∉ bm_pendingBatches m ∧ bm_inflight m !! id = None
  ∧ b_state b = OPENED ∧ (∃ t, b_timeout b = Some (t, LockTimeout)) ∧ b_retries b = 0%Z.
Definition phase_waiting (m : batch_manager) (id : nat) (b : batch) : Prop :=
  bm_batches m !! b_bucketId b ≠ Some id ∧ id ∈ bm_pendingBatches m ∧ bm_inflight m !! id = None
  ∧ (b_state b = LOCKED ∨ b_state b = PENDING) ∧ (∃ t, b_timeout b = Some (t, InsertTimeout))
  ∧ (0 ≤ b_retries b < b_maxRetries b)%Z.
Definition phase_inserting (m : batch_manager) (id : nat) (b : batch) : Prop :=
  bm_batches m !! b_bucketId b ≠ Some id ∧ id ∈ bm_pendingBatches m
  ∧ bm_inflight m !! id = Some (insert_query (o_useTtl (bm_opts m)) (b_bucketId b) <$> b_records b)
  ∧ b_state b = PENDING ∧ b_timeout b = None ∧ (1 ≤ b_retries b ≤ b_maxRetries b)%Z.
Definition phase_done (m : batch_manager) (id : nat) (b : batch) : Prop :=
  bm_batches m !! b_bucketId b ≠ Some id ∧ id ∉ bm_pendingBatches m ∧ bm_inflight m !! id = None
  ∧ b_state b = INSERTED ∧ b_timeout b = None ∧ b_records b = [].

Definition batch_ok (m : batch_manager) (id : nat) (b : batch) : Prop :=
  b_maxRetries b = o_batchMaxRetries (bm_opts m)
  ∧ b_maxRecordCount b = o_batchMaxRecordCount (bm_opts m)
  ∧ (getRecordCount b ≤ b_maxRecordCount b)%Z
  ∧ (phase_open m id b ∨ phase_waiting m id b ∨ phase_inserting m id b ∨ phase_done m id b).

Definition opts_ok (o : BatchManagerOptions) : Prop :=
  (0 < o_batchMaxSize o ∧ 0 < o_batchMaxRecordCount o ∧ 0 < o_batchCloseTimeout o
   ∧ 0 < o_batchMaxRetries o)%Z.

Record bm_inv (m : batch_manager) : Prop := {
  inv_opts : opts_ok (bm_opts m);
  inv_batch id b : bm_heap m !! id = Some b → batch_ok m id b;
  inv_open bucketId id : bm_batches m !! bucketId = Some id →
    ∃ b, bm_heap m !! id = Some b ∧ b_bucketId b = bucketId;
  inv_pending id : id ∈ bm_pendingBatches m → is_Some (bm_heap m !! id);
  inv_inflight id : is_Some (bm_inflight m !! id) → is_Some (bm_heap m !! id);
  inv_next id : is_Some (bm_heap m !! id) → id < bm_next m;
  inv_nonempty : bm_batches m !! "" = None
}.

Lemma bm_new_inv o : opts_ok o → bm_inv (bm_new o).
Proof.
  intros Ho. split; simpl; [done|..]; intros *; rewrite ?lookup_empty; try done.
  all: intros [? ?]; done.
Qed.

(** A step touches one batch. *)
Lemma inv_update m m' id b' :
  bm_inv m → bm_opts m' = bm_opts m → bm_heap m' = <[id := b']> (bm_heap m) →
  bm_next m ≤ bm_next m' → id < bm_next m' →
  (∀ id', id' ≠ id → id' ∈ bm_pendingBatches m' ↔ id' ∈ bm_pendingBatches m) →
  (∀ id', id' ≠ id → bm_inflight m' !! id' = bm_inflight m !! id') →
  (∀ bk id', id' ≠ id → bm_batches m' !! bk = Some id' ↔ bm_batches m !! bk = Some id') →
  (∀ bk, bm_batches m' !! bk = Some id → b_bucketId b' = bk) →
  (bm_batches m !! "" = None → bm_batches m' !! "" = None) →
  batch_ok m' id b' → bm_inv m'.
Proof.
  intros Hinv Ho Hh Hn Hid Hp Hi Hb Hbk Hempty Hok. split.
  - rewrite Ho. apply Hinv.
  - intros id0 b0. rewrite Hh. intros [[? ?]|[Hne Hb0]]%lookup_insert_Some; [by simplify_eq|].
    destruct (inv_batch m Hinv _ _ Hb0) as (? & ? & ? & Hph). unfold batch_ok, phase_open,
      phase_waiting, phase_inserting, phase_done.
    rewrite Ho, Hi, Hp, Hb by done. done.
  - intros bk id0. destruct (decide (id0 = id)) as [->|].
    + intros Hbk'. exists b'. rewrite Hh, lookup_insert_eq. auto.
    + rewrite Hb, Hh, lookup_insert_ne by done. apply Hinv.
  - intros id0. rewrite Hh. destruct (decide (id0 = id)) as [->|]; [by rewrite lookup_insert_eq|].
    rewrite Hp, lookup_insert_ne by done. apply Hinv.
  - intros id0. rewrite Hh. destruct (decide (id0 = id)) as [->|]; [by rewrite lookup_insert_eq|].
    rewrite Hi, lookup_insert_ne by done. apply Hinv.
  - intros id0. rewrite Hh. destruct (decide (id0 = id)) as [->|]; [done|].
    rewrite lookup_insert_ne by done. intros ?%(inv_next m Hinv). lia.
  - apply Hempty, Hinv.
Qed.

Lemma lock_batch_spec now id m b :
  bm_inv m → bm_heap m !! id = Some b → phase_open m id b →
  let m' := lock_batch now id m in
  bm_inv m' ∧ bm_heap m' = <[id := scheduleInsert now (batch_lock b)]> (bm_heap m)
  ∧ bm_batches m' = base.delete (b_bucketId b) (bm_batches m) ∧ bm_opts m' = bm_opts m
  ∧ bm_next m' = bm_next m ∧ bm_pendingBatches m' = {[ id ]} ∪ bm_pendingBatches m
  ∧ bm_inflight m' = bm_inflight m.
Proof.
  intros Hinv Hb Hph. unfold lock_batch. rewrite Hb. unfold moveFullBatch, put_batch. simpl.
  rewrite lookup_insert_eq, insert_insert_eq. simpl. split; [|done].
  destruct Hph as (Hbk & Hnp & Hnf & Hst & Hto & Hre).
  destruct (inv_batch m Hinv _ _ Hb) as (Hmr & Hmc & Hct & _).
  destruct (inv_opts m Hinv) as (? & ? & ? & ?).
  eapply (inv_update m _ id); try done; simpl.
  - eapply (inv_next m); eauto.
  - set_solver.
  - intros bk id' Hne. rewrite lookup_delete_Some. split; [naive_solver|]. intros Hbk'.
    split; [|done]. intros <-. congruence.
  - intros bk [Hne Hbk']%lookup_delete_Some. destruct (inv_open m Hinv _ _ Hbk') as (b0 & ? & ?).
    simplify_eq.
  - intros. apply lookup_delete_None. auto.
  - split; [done|]. split; [done|]. split; [done|]. right. left.
    split; simpl; [by rewrite lookup_delete_eq|]. split; [set_solver|]. repeat split; eauto; lia.
Qed.

Definition heap_list {A} (f : batch → list A) (h : gmap nat batch) : list A :=
  map_to_list h ≫= (λ p, f p.2).

Lemma heap_list_insert {A} (f : batch → list A) (h : gmap nat batch) id b' :
  h !! id = None → heap_list f (<[id := b']> h) ≡ₚ f b' ++ heap_list f h.
Proof.
  intros Hid. unfold heap_list. by rewrite map_to_list_insert.
Qed.

Lemma heap_list_update {A} (f : batch → list A) (h : gmap nat batch) id b b' :
  h !! id = Some b →
  ∃ rest, heap_list f h ≡ₚ f b ++ rest ∧ heap_list f (<[id := b']> h) ≡ₚ f b' ++ rest.
Proof.
  intros Hid. exists (heap_list f (base.delete id h)). split.
  - rewrite <-(insert_delete_id h id b) at 1 by done.
    apply heap_list_insert, lookup_delete_eq.
  - rewrite <-insert_delete_eq. apply heap_list_insert, lookup_delete_eq.
Qed.

(** What a trace of events stored: the query that each record is to be written by. *)
Definition stored_queries (useTtl : bool) (ev : batch_event) : list mutation :=
  match ev with
  | Store _ bucketId r _ => if (String.length bucketId =? 0)%nat then [] else [insert_query useTtl bucketId r]
  | _ => []
  end.
Definition stored_cbs (ev : batch_event) : list nat :=
  match ev with
  | Store _ bucketId _ (Some cb) => if (String.length bucketId =? 0)%nat then [] else [cb]
  | _ => []
  end.
Definition inserted_of (o : batch_output) : list nat :=
  match o with Inserted id => [id] | _ => [] end.
Definition dropped_of (o : batch_output) : list InsertRecord :=
  match o with Dropped _ l => l | _ => [] end.
Definition dropped_queries (useTtl : bool) (o : batch_output) : list mutation :=
  match o with Dropped bucketId l => insert_query useTtl bucketId <$> l | _ => [] end.
Definition called_of (o : batch_output) : list nat :=
  match o with DoneCalled cb => [cb] | _ => [] end.
Definition is_stop (ev : batch_event) : bool := match ev with Stop => true | _ => false end.

(** What Cassandra is sent and acknowledges, from the outputs alone: the queries last sent for each batch, and the
    queries of the fulfilled inserts. *)
Definition sent_step (sent : gmap nat (list mutation)) (o : batch_output) : gmap nat (list mutation) :=
  match o with InsertSent id queries => <[id := queries]> sent | Inserted id => base.delete id sent | _ => sent end.
Definition sent_run (sent : gmap nat (list mutation)) (out : list batch_output) : gmap nat (list mutation) :=
  foldl sent_step sent out.
Fixpoint acknowledged (sent : gmap nat (list mutation)) (out : list batch_output) : list mutation :=
  match out with
  | [] => []
  | o :: out =>
      match o with Inserted id => default [] (sent !! id) | _ => [] end ++ acknowledged (sent_step sent o) out
  end.

Lemma acknowledged_app sent out1 out2 :
  acknowledged sent (out1 ++ out2) = acknowledged sent out1 ++ acknowledged (sent_run sent out1) out2.
Proof.
  revert sent. induction out1 as [|o out1 IH]; intros sent; [done|]. simpl. by rewrite IH, app_assoc.
Qed.
Lemma sent_run_app sent out1 out2 : sent_run sent (out1 ++ out2) = sent_run (sent_run sent out1) out2.
Proof. apply foldl_app. Qed.

Lemma done_called_silent sent cbs :
  acknowledged sent (DoneCalled <$> cbs) = [] ∧ sent_run sent (DoneCalled <$> cbs) = sent
  ∧ (∀ ttl, (DoneCalled <$> cbs) ≫= dropped_queries ttl = []) ∧ (DoneCalled <$> cbs) ≫= called_of = cbs.
Proof.
  revert sent. induction cbs as [|c cbs IH]; intros sent; [done|]. destruct (IH sent) as (H1 & H2 & H3 & H4).
  unfold sent_run in *. simpl in *. repeat split; [exact H1|exact H2|exact H3|by f_equal].
Qed.

(** The queries that the records waiting in batches are to be written by, and the callbacks. *)
Definition batch_queries (useTtl : bool) (b : batch) : list mutation :=
  insert_query useTtl (b_bucketId b) <$> b_records b.
Definition held_queries (m : batch_manager) : list mutation :=
  heap_list (batch_queries (o_useTtl (bm_opts m))) (bm_heap m).
Definition held_cbs (m : batch_manager) : list nat := heap_list b_doneCbs (bm_heap m).

(** One step loses nothing and makes up nothing, whatever is known of what was sent before the awaited inserts. *)
Definition step_ok (m : batch_manager) (queries : list mutation) (cbs : list nat)
    (r : batch_manager * list batch_output) : Prop :=
  bm_inv r.1 ∧ bm_opts r.1 = bm_opts m ∧ UnhandledRejection ∉ r.2
  ∧ (∀ sent, bm_inflight m ⊆ sent →
       bm_inflight r.1 ⊆ sent_run sent r.2
       ∧ held_queries m ++ queries ≡ₚ
           acknowledged sent r.2 ++ (r.2 ≫= dropped_queries (o_useTtl (bm_opts m))) ++ held_queries r.1)
  ∧ held_cbs m ++ cbs ≡ₚ (r.2 ≫= called_of) ++ held_cbs r.1.

(** A step without outputs *)
Lemma step_ok_silent m m' queries cbs :
  bm_inv m' → bm_opts m' = bm_opts m → bm_inflight m' = bm_inflight m →
  held_queries m ++ queries ≡ₚ held_queries m' → held_cbs m ++ cbs ≡ₚ held_cbs m' →
  step_ok m queries cbs (m', []).
Proof.
  intros ? ? Hf ? ?. split; [done|]. split; [done|]. split; [simpl; set_solver|]. simpl. rewrite Hf.
  by split; [intros sent ?|].
Qed.

Lemma step_ok_refl m : bm_inv m → step_ok m [] [] (m, []).
Proof. intros. apply step_ok_silent; by rewrite ?app_nil_r. Qed.

(** A change of one batch that keeps its records and callbacks. *)
Lemma held_same m m' id b b' :
  bm_opts m' = bm_opts m → bm_heap m !! id = Some b → bm_heap m' = <[id := b']> (bm_heap m) →
  b_bucketId b' = b_bucketId b → b_records b' = b_records b → b_doneCbs b' = b_doneCbs b →
  held_queries m' ≡ₚ held_queries m ∧ held_cbs m' ≡ₚ held_cbs m.
Proof.
  intros Ho Hb Hh Hk Hr Hc. unfold held_queries, held_cbs. rewrite Ho, Hh.
  destruct (heap_list_update (batch_queries (o_useTtl (bm_opts m))) (bm_heap m) id b b' Hb) as (rest & -> & ->).
  destruct (heap_list_update b_doneCbs (bm_heap m) id b b' Hb) as (rest' & -> & ->).
  unfold batch_queries. by rewrite Hk, Hr, Hc.
Qed.

(** A step that sends nothing and keeps the records and callbacks of the batch it touches. *)
Lemma step_ok_same m m' id b b' :
  bm_inv m' → bm_opts m' = bm_opts m → bm_inflight m' = bm_inflight m → bm_heap m !! id = Some b →
  bm_heap m' = <[id := b']> (bm_heap m) → b_bucketId b' = b_bucketId b → b_records b' = b_records b →
  b_doneCbs b' = b_doneCbs b →
  step_ok m [] [] (m', []).
Proof.
  intros Hinv Ho Hf Hb Hh Hk Hr Hc. destruct (held_same m m' id b b' Ho Hb Hh Hk Hr Hc) as [Hq Hcb].
  apply step_ok_silent; rewrite ?app_nil_r; by symmetry || done.
Qed.

Lemma open_phase m bk id :
  bm_inv m → bm_batches m !! bk = Some id →
  ∃ b, bm_heap m !! id = Some b ∧ b_bucketId b = bk ∧ phase_open m id b.
Proof.
  intros Hinv Hbk. destruct (inv_open m Hinv _ _ Hbk) as (b & Hb & <-).
  destruct (inv_batch m Hinv _ _ Hb) as (_ & _ & _ & Hph).
  exists b. split; [done|]. split; [done|].
  destruct Hph as [?|[Hph|[Hph|Hph]]]; [done|destruct Hph as [Hph _]; done..].
Qed.

(** [store] once the full batch of the bucket has been locked. *)
Lemma push_step_ok m bk id b r cb :
  bm_inv m → bm_batches m !! bk = Some id → bm_heap m !! id = Some b → isFull b = false →
  step_ok m [insert_query (o_useTtl (bm_opts m)) bk r] (match cb with Some c => [c] | None => [] end)
    (store_existing r cb id m, []).
Proof.
  intros Hinv Hbk Hb Hfull. destruct (open_phase m bk id Hinv Hbk) as (b0 & Hb0 & Hid & Hph).
  simplify_eq. destruct (inv_batch m Hinv _ _ Hb) as (Hmr & Hmc & Hct & _).
  unfold store_existing. rewrite Hb. unfold put_batch. apply step_ok_silent; try done.
  - eapply (inv_update m _ id (batch_push r cb b)); simpl; try done.
    + eapply (inv_next m); eauto.
    + intros bk' Hbk'. destruct (inv_open m Hinv _ _ Hbk') as (b1 & ? & ?). by simplify_eq.
    + split; [done|]. split; [done|]. split; [|by left].
      unfold isFull in Hfull. apply orb_false_iff in Hfull as [_ Hfull%Z.leb_gt].
      unfold getRecordCount in *. simpl. rewrite length_app. simpl. lia.
  - unfold held_queries. simpl.
    destruct (heap_list_update (batch_queries (o_useTtl (bm_opts m))) (bm_heap m) id b (batch_push r cb b) Hb)
      as (rest & -> & ->).
    unfold batch_queries. simpl. rewrite fmap_app. simpl. solve_Permutation.
  - unfold held_cbs. simpl.
    destruct (heap_list_update b_doneCbs (bm_heap m) id b (batch_push r cb b) Hb) as (rest & -> & ->).
    simpl. solve_Permutation.
Qed.

(** [store] for a bucket that has no open batch. *)
Lemma new_step_ok now m bk b r cb :
  bm_inv m → bm_batches m !! bk = None → bk ≠ "" →
  batch_new now bk (o_batchMaxSize (bm_opts m)) (o_batchMaxRecordCount (bm_opts m))
    (o_batchCloseTimeout (bm_opts m)) (o_batchMaxRetries (bm_opts m)) = Return b →
  let m2 := MkBatchManager (bm_opts m) (<[bm_next m := b]> (bm_heap m)) (S (bm_next m))
              (<[bk := bm_next m]> (bm_batches m)) (bm_pendingBatches m) (bm_inflight m) in
  step_ok m [insert_query (o_useTtl (bm_opts m)) bk r] (match cb with Some c => [c] | None => [] end)
    (store_existing r cb (bm_next m) m2, []).
Proof.
  intros Hinv Hbk Hbk0 Hnew m2.
  assert (bm_heap m !! bm_next m = None) as Hfresh.
  { destruct (bm_heap m !! bm_next m) eqn:Hx; [|done].
    assert (bm_next m < bm_next m) by (apply (inv_next m Hinv); eauto). lia. }
  destruct (inv_opts m Hinv) as (? & ? & ? & ?).
  assert (b_bucketId b = bk ∧ b_records b = [] ∧ b_doneCbs b = [] ∧ b_state b = OPENED
    ∧ b_retries b = 0%Z ∧ b_size b = 0%Z ∧ (∃ t, b_timeout b = Some (t, LockTimeout))
    ∧ b_maxSize b = o_batchMaxSize (bm_opts m)
    ∧ b_maxRecordCount b = o_batchMaxRecordCount (bm_opts m)
    ∧ b_maxRetries b = o_batchMaxRetries (bm_opts m))
    as (? & Hr & Hc & ? & ? & Hs & ? & Hms & Hmc & ?).
  { unfold batch_new in Hnew. repeat case_match; simplify_eq; simpl; eauto 15. }
  assert (bm_inv m2) as Hinv2.
  { eapply (inv_update m m2 (bm_next m) b); simpl; try done; [lia|lia|..].
    - intros bk' id' Hne. rewrite lookup_insert_Some. split; [naive_solver|].
      intros Hbk'. right. split; [|done]. intros <-. congruence.
    - intros bk' [[? ?]|[? Hbk']]%lookup_insert_Some; [congruence|].
      destruct (inv_open m Hinv _ _ Hbk') as (? & ? & ?). congruence.
    - intros. by rewrite lookup_insert_ne.
    - split; [done|]. split; [done|]. split; [unfold getRecordCount; rewrite Hr; simpl; lia|].
      left. subst m2. unfold phase_open. simpl. subst bk. rewrite lookup_insert_eq.
      repeat split; try done.
      + intros Hp%(inv_pending m Hinv). rewrite Hfresh in Hp. by destruct Hp.
      + destruct (bm_inflight m !! bm_next m) eqn:Hx; [|done].
        assert (is_Some (bm_heap m !! bm_next m)) as [? ?] by (apply (inv_inflight m Hinv); eauto).
        congruence. }
  assert (isFull b = false) as Hfull.
  { unfold isFull, getRecordCount. rewrite Hr, Hs, Hms, Hmc. simpl.
    apply orb_false_iff. split; apply Z.leb_gt; lia. }
  destruct (push_step_ok m2 bk (bm_next m) b r cb Hinv2) as (? & ? & ? & Hpr & Hpc); try done.
  { subst m2. simpl. apply lookup_insert_eq. }
  { subst m2. simpl. apply lookup_insert_eq. }
  assert (held_queries m2 ≡ₚ held_queries m ∧ held_cbs m2 ≡ₚ held_cbs m) as [Hq2 Hc2].
  { unfold held_queries, held_cbs. subst m2. simpl. rewrite !heap_list_insert by done.
    unfold batch_queries at 1. by rewrite Hr, Hc. }
  split; [done|]. split; [done|]. split; [done|]. split; [|by rewrite <-Hc2].
  intros sent Hsent. destruct (Hpr sent Hsent) as [? Hpq]. split; [done|]. by rewrite <-Hq2.
Qed.

Lemma step_ok_trans m m1 recs1 recs2 cbs1 cbs2 out1 out2 m2 :
  step_ok m recs1 cbs1 (m1, out1) → step_ok m1 recs2 cbs2 (m2, out2) →
  step_ok m (recs1 ++ recs2) (cbs1 ++ cbs2) (m2, out1 ++ out2).
Proof.
  intros (? & Ho1 & Hu1 & Hr1 & Hc1) (? & Ho2 & Hu2 & Hr2 & Hc2). unfold step_ok. simpl in *.
  rewrite !bind_app. split; [done|]. split; [congruence|]. split; [set_solver|]. split.
  - intros sent Hsent. destruct (Hr1 sent Hsent) as [Hsent1 Hq1].
    destruct (Hr2 _ Hsent1) as [Hsent2 Hq2]. rewrite sent_run_app, acknowledged_app. split; [done|].
    rewrite Ho1 in Hq2. rewrite app_assoc, Hq1.
    set (a1 := acknowledged sent out1) in *. set (d1 := out1 ≫= dropped_queries _) in *.
    transitivity (a1 ++ d1 ++ (held_queries m1 ++ recs2)); [solve_Permutation|]. rewrite Hq2. solve_Permutation.
  - rewrite app_assoc, Hc1. set (c1 := out1 ≫= called_of) in *.
    transitivity (c1 ++ (held_cbs m1 ++ cbs2)); [solve_Permutation|]. rewrite Hc2. solve_Permutation.
Qed.

Lemma lock_step_ok now m id b :
  bm_inv m → bm_heap m !! id = Some b → phase_open m id b → step_ok m [] [] (lock_batch now id m, []).
Proof.
  intros Hinv Hb Hph. destruct (lock_batch_spec now id m b Hinv Hb Hph) as (? & ? & _ & ? & _ & _ & ?).
  by eapply step_ok_same.
Qed.

Lemma batch_new_ok now bk o :
  opts_ok o → (String.length bk =? 0)%nat = false →
  ∃ b, batch_new now bk (o_batchMaxSize o) (o_batchMaxRecordCount o) (o_batchCloseTimeout o)
         (o_batchMaxRetries o) = Return b.
Proof.
  intros (? & ? & ? & ?) Hbk. unfold batch_new. rewrite Hbk.
  repeat (case_match; [exfalso; lia|]). eauto.
Qed.

Lemma store_empty_bucket m :
  bm_inv m → ∀ now r cb, bm_store now "" r cb m
  = (m, Throw (type_error "bucketId must be not empty string")).
Proof. intros Hinv now r cb. unfold bm_store. by rewrite !(inv_nonempty m Hinv). Qed.

Lemma store_step_ok now m bk r cb :
  bm_inv m → (String.length bk =? 0)%nat = false →
  (bm_store now bk r cb m).2 = Return tt
  ∧ step_ok m [insert_query (o_useTtl (bm_opts m)) bk r] (match cb with Some c => [c] | None => [] end)
      ((bm_store now bk r cb m).1, []).
Proof.
  intros Hinv Hbk. unfold bm_store. assert (bk ≠ "") by (by intros ->).
  destruct (bm_batches m !! bk) as [id|] eqn:Hopen.
  - destruct (open_phase m bk id Hinv Hopen) as (b & Hb & Hid & Hph). rewrite Hb.
    destruct (isFull b) eqn:Hfull.
    + destruct (lock_batch_spec now id m b Hinv Hb Hph) as (Hinv1 & _ & Hbt & Ho & Hn & _).
      assert (bm_batches (lock_batch now id m) !! bk = None) as Hnone.
      { rewrite Hbt, Hid. apply lookup_delete_eq. }
      rewrite Hnone.
      destruct (batch_new_ok now bk (bm_opts (lock_batch now id m))) as [bn Hbn];
        [apply Hinv1|done|]. rewrite Hbn. split; [done|].
      rewrite <-Ho. apply (step_ok_trans m (lock_batch now id m) [] [_] []
               (match cb with Some c => [c] | None => [] end) [] []); [by eapply lock_step_ok|].
      by apply (new_step_ok now _ bk).
    + rewrite Hopen. split; [done|]. by eapply push_step_ok.
  - rewrite Hopen. destruct (batch_new_ok now bk (bm_opts m)) as [bn Hbn];
      [apply Hinv|done|]. rewrite Hbn. split; [done|]. by eapply (new_step_ok now _ bk).
Qed.

Lemma timer_step_ok now m id : bm_inv m → step_ok m [] [] (timer_runs now id m).
Proof.
  intros Hinv. unfold timer_runs.
  destruct (bm_heap m !! id) as [b|] eqn:Hb; [|by apply step_ok_refl].
  destruct (b_timeout b) as [[d k]|] eqn:Ht; [|by apply step_ok_refl].
  destruct (d <=? now)%Z; [|by apply step_ok_refl].
  destruct (inv_batch m Hinv _ _ Hb) as (Hmr & Hmc & Hct & Hph).
  destruct k.
  - apply (lock_step_ok now m id b); [done..|].
    destruct Hph as [?|[Hph|[Hph|Hph]]]; [done|destruct Hph as (_ & _ & _ & _ & ? & _); naive_solver..].
  - assert (phase_waiting m id b) as (Hbt & Hp & Hf & Hst & Hto & Hre).
    { destruct Hph as [Hph|[?|[Hph|Hph]]]; [|done|..];
        destruct Hph as (_ & _ & _ & _ & ? & _); naive_solver. }
    unfold insert_begin, put_batch. simpl. rewrite bool_decide_eq_true_2 by done.
    rewrite lookup_insert_eq. simpl.
    set (b' := insert_timeout b).
    set (q := insert_query (o_useTtl (bm_opts m)) (b_bucketId b) <$> b_records b).
    set (m' := MkBatchManager (bm_opts m) (<[id := b']> (bm_heap m)) (bm_next m) (bm_batches m)
                 (bm_pendingBatches m) (<[id := q]> (bm_inflight m))).
    assert (bm_inv m') as Hinv'.
    { eapply (inv_update m m' id b'); simpl; try done.
      - apply (inv_next m Hinv); eauto.
      - intros id' Hne. by rewrite lookup_insert_ne.
      - intros bk Hbk. destruct (inv_open m Hinv _ _ Hbk) as (? & ? & ?). by simplify_eq.
      - split; [done|]. split; [done|]. split; [done|]. right. right. left. subst m' b' q.
        unfold phase_inserting. simpl. rewrite lookup_insert_eq. repeat split; try done.
        all: case_match; lia. }
    destruct (held_same m m' id b b' eq_refl Hb eq_refl eq_refl eq_refl eq_refl) as [Hr Hc].
    split; [done|]. split; [done|]. split; [simpl; set_solver|]. simpl. rewrite !app_nil_r.
    split; [|by symmetry]. intros sent Hsent. split; [by apply insert_mono|by symmetry].
Qed.

Lemma insert_end_step_ok now m id ok : bm_inv m → step_ok m [] [] (insert_end now id ok m).
Proof.
  intros Hinv. unfold insert_end.
  destruct (bm_inflight m !! id) as [q|] eqn:Hq; [|by apply step_ok_refl].
  destruct (bm_heap m !! id) as [b|] eqn:Hb; [|by apply step_ok_refl].
  destruct (inv_batch m Hinv _ _ Hb) as (Hmr & Hmc & Hct & Hph).
  assert (phase_inserting m id b) as (Hbt & Hp & Hf & Hst & Hto & Hre).
  { destruct Hph as [Hph|[Hph|[?|Hph]]]; [..|done|]; destruct Hph as (_ & _ & ? & _); congruence. }
  assert (q = batch_queries (o_useTtl (bm_opts m)) b) as Hqs by (unfold batch_queries; congruence).
  assert (id < bm_next m) as Hid by (apply (inv_next m Hinv); eauto).
  assert (∀ bk, bm_batches m !! bk = Some id → b_bucketId b = bk) as Hbk.
  { intros bk Hbk. destruct (inv_open m Hinv _ _ Hbk) as (? & ? & ?). by simplify_eq. }
  assert (0 < b_maxRecordCount b)%Z as Hmc0 by (rewrite Hmc; apply (inv_opts m Hinv)).
  assert (∀ id', id' ≠ id → base.delete id (bm_inflight m) !! id' = bm_inflight m !! id') as Hdel
    by (intros; by rewrite lookup_delete_ne).
  destruct ok; [|destruct (reachedMaxRetries b) eqn:Hmax].
  - simpl. set (b' := batch_clear _).
    split; [|split; [done|split]]; simpl.
    + eapply (inv_update m _ id b'); simpl; try done; [set_solver|].
      split; [done|]. split; [done|]. split; [unfold getRecordCount; simpl; lia|].
      do 3 right. unfold phase_done. simpl. rewrite lookup_delete_eq. set_solver.
    + rewrite elem_of_cons, list_elem_of_fmap. set_solver.
    + destruct (done_called_silent ∅ (b_doneCbs b)) as (_ & _ & Hd & Hcb). split.
      * intros sent Hsent. destruct (done_called_silent (base.delete id sent) (b_doneCbs b)) as (Ha & Hrun & _).
        unfold sent_run, mbind in *. simpl. rewrite Hrun, Ha, Hd. split; [by apply delete_mono|].
        rewrite (lookup_weaken _ _ _ _ Hq Hsent). simpl.
        unfold held_queries. simpl.
        destruct (heap_list_update (batch_queries (o_useTtl (bm_opts m))) (bm_heap m) id b b' Hb) as (rest & -> & ->).
        rewrite !app_nil_r. by rewrite Hqs.
      * unfold mbind in Hcb. rewrite Hcb. unfold held_cbs. simpl.
        destruct (heap_list_update b_doneCbs (bm_heap m) id b b' Hb) as (rest' & -> & ->).
        by rewrite app_nil_r.
  - set (b' := batch_clear _).
    split; [|split; [done|split]]; simpl; [|set_solver|].
    + eapply (inv_update m _ id b'); simpl; try done; [set_solver|].
      split; [done|]. split; [done|]. split; [unfold getRecordCount; simpl; lia|].
      do 3 right. unfold phase_done. simpl. rewrite lookup_delete_eq. set_solver.
    + split.
      * intros sent Hsent. split; [etransitivity; [apply delete_subseteq|done]|]. unfold held_queries. simpl.
        destruct (heap_list_update (batch_queries (o_useTtl (bm_opts m))) (bm_heap m) id b b' Hb) as (rest & -> & ->).
        by rewrite !app_nil_r.
      * unfold held_cbs. simpl. destruct (heap_list_update b_doneCbs (bm_heap m) id b b' Hb) as (rest' & -> & ->).
        by rewrite app_nil_r.
  - apply Z.eqb_neq in Hmax. set (m' := MkBatchManager _ _ _ _ _ _).
    assert (bm_inv m') as Hinv'.
    { eapply (inv_update m _ id (scheduleInsert now b)); simpl; try done.
      split; [done|]. split; [done|]. split; [done|]. right. left. unfold phase_waiting. simpl.
      rewrite lookup_delete_eq. repeat split; eauto; lia. }
    destruct (held_same m m' id b (scheduleInsert now b) eq_refl Hb eq_refl eq_refl eq_refl eq_refl) as [Hr Hc].
    split; [done|]. split; [done|]. split; [simpl; set_solver|]. cbn [fst snd mbind list_bind app]. rewrite !app_nil_r.
    split; [|by symmetry]. intros sent Hsent. split; [etransitivity; [apply delete_subseteq|done]|by symmetry].
Qed.

Lemma bm_step_ok m ev :
  bm_inv m → is_stop ev = false → step_ok m (stored_queries (o_useTtl (bm_opts m)) ev) (stored_cbs ev) (bm_step m ev).
Proof.
  intros Hinv Hev. destruct ev as [now bk r cb|now id|now id ok|]; simpl in *; [|..|done].
  - destruct (String.length bk =? 0)%nat eqn:Hbk.
    + destruct bk; [|done]. rewrite (store_empty_bucket m Hinv); simpl.
      destruct cb; by apply step_ok_refl.
    + destruct (store_step_ok now m bk r cb Hinv Hbk) as [_ ?]. by destruct cb.
  - by apply timer_step_ok.
  - by apply insert_end_step_ok.
Qed.

Lemma bm_run_ok m evs :
  bm_inv m → forallb (λ ev, negb (is_stop ev)) evs = true →
  step_ok m (evs ≫= stored_queries (o_useTtl (bm_opts m))) (evs ≫= stored_cbs) (bm_run m evs).
Proof.
  revert m. induction evs as [|ev evs IH]; intros m Hinv Hevs; simpl in *; [by apply step_ok_refl|].
  apply andb_true_iff in Hevs as [Hev%negb_true_iff Hevs].
  pose proof (bm_step_ok m ev Hinv Hev) as Hstep.
  destruct (bm_step m ev) as [m1 out1]. pose proof Hstep as (Hinv1 & Ho & _). simpl in Hinv1, Ho.
  specialize (IH m1 Hinv1 Hevs). rewrite Ho in IH. destruct (bm_run m1 evs) as [m2 out2].
  by eapply step_ok_trans.
Qed.

(** [store] touches the open batch of the bucket and new batches only. *)
Lemma store_frame now m id b bk r cb :
  bm_inv m → bm_heap m !! id = Some b → bm_batches m !! b_bucketId b ≠ Some id →
  bm_heap (bm_store now bk r cb m).1 !! id = Some b.
Proof.
  intros Hinv Hb Hnot.
  assert (∀ id', bm_batches m !! bk = Some id' → id' ≠ id) as Hne.
  { intros id' Hbk ->. destruct (inv_open m Hinv _ _ Hbk) as (? & ? & ?). by simplify_eq. }
  assert (bm_next m ≠ id) as Hnext.
  { intros <-. assert (bm_next m < bm_next m) by (apply (inv_next m Hinv); eauto). lia. }
  unfold bm_store. destruct (bm_batches m !! bk) as [id'|] eqn:Hbk.
  - specialize (Hne id' eq_refl).
    destruct (open_phase m bk id' Hinv Hbk) as (b' & Hb' & Hid' & Hph'). rewrite Hb'.
    destruct (isFull b').
    + destruct (lock_batch_spec now id' m b' Hinv Hb' Hph') as (_ & Hh & Hbt & Ho & Hn & _).
      rewrite Hbt, Hid', lookup_delete_eq, Ho, Hn.
      destruct (batch_new _ _ _ _ _ _); simpl; [|by rewrite Hh, lookup_insert_ne].
      unfold store_existing. simpl. rewrite lookup_insert_eq. simpl.
      by rewrite Hh, !lookup_insert_ne.
    + rewrite Hbk. unfold store_existing. rewrite Hb'. simpl. by rewrite lookup_insert_ne.
  - rewrite Hbk. destruct (batch_new _ _ _ _ _ _); simpl; [|done].
    unfold store_existing. simpl. rewrite lookup_insert_eq. simpl. by rewrite !lookup_insert_ne.
Qed.

(** A timer or an answer touches its own batch, which a finished batch has none of. *)
Lemma timer_frame now m id b id' :
  bm_inv m → bm_heap m !! id = Some b → b_timeout b = None →
  bm_heap (timer_runs now id' m).1 !! id = Some b.
Proof.
  intros Hinv Hb Hto. unfold timer_runs. destruct (decide (id' = id)) as [->|Hne].
  { by rewrite Hb, Hto. }
  destruct (bm_heap m !! id') as [b'|] eqn:Hb'; [|done].
  destruct (b_timeout b') as [[d k]|] eqn:Hto'; [|done]. destruct (d <=? now)%Z; [|done].
  destruct k.
  - unfold lock_batch, moveFullBatch, put_batch. rewrite Hb'. simpl. rewrite lookup_insert_eq. simpl.
    by rewrite !lookup_insert_ne.
  - unfold insert_begin, put_batch. simpl. rewrite lookup_insert_eq.
    case_bool_decide; simpl; by rewrite !lookup_insert_ne.
Qed.

Lemma insert_end_frame now m id b id' ok :
  bm_heap m !! id = Some b → bm_inflight m !! id = None →
  bm_heap (insert_end now id' ok m).1 !! id = Some b.
Proof.
  intros Hb Hf. unfold insert_end. destruct (decide (id' = id)) as [->|Hne]; [by rewrite Hf|].
  repeat case_match; simplify_eq/=; try done; by rewrite lookup_insert_ne.
Qed.

(** A finished batch is never touched again. *)
Lemma done_frame m id b :
  bm_inv m → bm_heap m !! id = Some b → phase_done m id b → ∀ evs,
  forallb (λ ev, negb (is_stop ev)) evs = true →
  bm_heap (bm_run m evs).1 !! id = Some b.
Proof.
  intros Hinv Hb Hph evs. revert m Hinv Hb Hph.
  induction evs as [|ev evs IH]; intros m Hinv Hb Hph Hevs; simpl in *; [done|].
  apply andb_true_iff in Hevs as [Hev%negb_true_iff Hevs].
  pose proof (bm_step_ok m ev Hinv Hev) as Hstep.
  assert (bm_heap (bm_step m ev).1 !! id = Some b) as Hb'.
  { destruct Hph as (Hbt & Hp & Hf & Hst & Hto & Hr).
    destruct ev; simpl; [by apply store_frame|by apply timer_frame|by apply insert_end_frame|done]. }
  assert (phase_done (bm_step m ev).1 id b) as Hph'.
  { destruct (inv_batch _ (proj1 Hstep) _ _ Hb') as (_ & _ & _ & Hph').
    destruct Hph as (_ & _ & _ & Hst & Hto & _).
    destruct Hph' as [(_&_&_&Hx&_)|[(_&_&_&_&[t Hx]&_)|[(_&_&_&Hx&_)|?]]]; [congruence..|done]. }
  specialize (IH _ (proj1 Hstep) Hb' Hph' Hevs).
  destruct (bm_step m ev) as [m1 out1]. simpl in *. by destruct (bm_run m1 evs) as [m2 out2].
Qed.

(** ** Properties *)

(** C36: no record is lost or written twice by the batching: of the queries that write the records stored over any run
    that does not stop the manager, each into its bucket, each was sent to Cassandra in an insert that was fulfilled, was
    dropped with its batch, or is still held by a batch, and none of them twice; and each done callback was called once or
    is still held.  What was sent and fulfilled is read from the queries given to the driver. *)
Theorem batches_account_for_records o evs :
  opts_ok o → forallb (λ ev, negb (is_stop ev)) evs = true →
  let '(m, out) := bm_run (bm_new o) evs in
  evs ≫= stored_queries (o_useTtl o) ≡ₚ
    acknowledged ∅ out ++ (out ≫= dropped_queries (o_useTtl o)) ++ held_queries m
  ∧ evs ≫= stored_cbs ≡ₚ (out ≫= called_of) ++ held_cbs m.
Proof.
  intros Ho Hevs. destruct (bm_run_ok (bm_new o) evs (bm_new_inv o Ho) Hevs) as (_ & _ & _ & Hr & Hc).
  destruct (bm_run (bm_new o) evs) as [m out]. split; [|done]. by apply Hr.
Qed.

(** No batch is stuck: in every reachable state a batch that holds records
    has exactly one thing coming, the timer that locks it, the timer of its next
    insert, or the answer of its insert, whose queries are those of the records it
    holds; it is never above the record limit, and no promise of the manager
    rejects unhandled. *)
Theorem batch_makes_progress o evs id b :
  opts_ok o → forallb (λ ev, negb (is_stop ev)) evs = true →
  bm_heap (bm_run (bm_new o) evs).1 !! id = Some b → b_records b ≠ [] →
  let m := (bm_run (bm_new o) evs).1 in
  ((∃ t, b_timeout b = Some (t, LockTimeout) ∧ b_state b = OPENED ∧ bm_inflight m !! id = None
         ∧ bm_batches m !! b_bucketId b = Some id)
   ∨ (∃ t, b_timeout b = Some (t, InsertTimeout) ∧ bm_inflight m !! id = None
           ∧ id ∈ bm_pendingBatches m)
   ∨ (b_timeout b = None ∧ id ∈ bm_pendingBatches m
      ∧ bm_inflight m !! id = Some (insert_query (o_useTtl o) (b_bucketId b) <$> b_records b)))
  ∧ (getRecordCount b ≤ o_batchMaxRecordCount o)%Z
  ∧ UnhandledRejection ∉ (bm_run (bm_new o) evs).2.
Proof.
  intros Ho Hevs Hb Hr m.
  destruct (bm_run_ok (bm_new o) evs (bm_new_inv o Ho) Hevs) as (Hinv & Hopts & Hu & _).
  destruct (inv_batch _ Hinv _ _ Hb) as (_ & Hmc & Hct & Hph).
  rewrite Hopts in Hmc. simpl in Hmc. split; [|split; [by rewrite <-Hmc|done]].
  destruct Hph as [(?&?&?&?&[t ?]&?)|[(?&?&?&?&[t ?]&?)|[(?&?&Hq&?&?&?)|(_&_&_&_&_&?)]]].
  - left. eauto 10.
  - right. left. eauto 10.
  - right. right. rewrite Hopts in Hq. done.
  - done.
Qed.

(** Every insert of batch [id] fails as soon as it is sent, for [n] attempts; each
    timer runs when it is due. *)
Fixpoint failing_attempts (closeTimeout : Z) (id : nat) (n : nat) (retries t : Z) : list batch_event :=
  match n with
  | O => []
  | S n' => TimerRuns t id :: InsertAnswered t id false
            :: failing_attempts closeTimeout id n' (retries + 1)
                 (t + closeTimeout * (retries + 1))
  end.

Lemma failing_attempts_drop n : ∀ m id b t,
  bm_inv m → bm_heap m !! id = Some b → phase_waiting m id b →
  b_timeout b = Some (t, InsertTimeout) → (0 < b_closeTimeout b)%Z →
  (b_closeTimeout b * b_maxRetries b ≤ 2147483647)%Z →
  Z.of_nat n = (b_maxRetries b - b_retries b)%Z →
  let '(m', out) := bm_run m (failing_attempts (b_closeTimeout b) id n (b_retries b) t) in
  bm_inv m' ∧ (out ≫= dropped_of) = b_records b ∧ (out ≫= inserted_of) = []
  ∧ (out ≫= called_of) = []
  ∧ ∃ b', bm_heap m' !! id = Some b' ∧ phase_done m' id b' ∧ b_doneCbs b' = b_doneCbs b.
Proof.
  induction n as [|n IH]; intros m id b t Hinv Hb Hph Ht Hct Hrange Hn.
  { destruct Hph as (_ & _ & _ & _ & _ & ?). lia. }
  pose proof (timer_step_ok t m id Hinv) as [Hinv1 _].
  destruct Hph as (Hbt & Hp & Hf & Hst & _ & Hre). cbn [failing_attempts bm_run bm_step].
  unfold timer_runs in *. rewrite Hb, Ht, Z.leb_refl in *.
  unfold insert_begin, put_batch in *. simpl in *. rewrite bool_decide_eq_true_2 in * by done.
  rewrite lookup_insert_eq in *. simpl in Hinv1.
  match type of Hinv1 with bm_inv ?x => set (m1 := x) in * end.
  pose proof (insert_end_step_ok t m1 id false Hinv1) as [Hinv2 _].
  unfold insert_end in *. subst m1. simpl in *. rewrite !lookup_insert_eq in *.
  assert ((b_retries b <? b_maxRetries b)%Z = true) as Hlt by (apply Z.ltb_lt; lia).
  unfold reachedMaxRetries in *. simpl in *. rewrite Hlt in *.
  destruct (b_retries b + 1 =? b_maxRetries b)%Z eqn:Hmax; simpl in *.
  - apply Z.eqb_eq in Hmax. assert (n = 0) as -> by lia. simpl. rewrite app_nil_r.
    split; [done|]. do 3 (split; [done|]). eexists. rewrite lookup_insert_eq. split; [done|].
    split; [|done]. unfold phase_done. simpl. rewrite lookup_delete_eq. set_solver.
  - apply Z.eqb_neq in Hmax. rewrite insert_insert_eq in *.
    match type of Hinv2 with bm_inv (MkBatchManager _ (<[_ := ?b']> _) _ _ _ _) => set (b2 := b') in * end.
    match type of Hinv2 with bm_inv ?x => set (m2 := x) in * end.
    assert (b_retries b2 = b_retries b + 1)%Z as Hr2 by (subst b2; simpl; by rewrite Hlt).
    assert (timer_delay (b_closeTimeout b * (b_retries b + 1))
            = b_closeTimeout b * (b_retries b + 1))%Z as Hdelay.
    { unfold timer_delay. rewrite (proj2 (Z.leb_le 1 _)), (proj2 (Z.leb_le _ 2147483647)) by nia. done. }
    assert (phase_waiting m2 id b2) as Hph2.
    { unfold phase_waiting. rewrite Hr2. subst m2 b2. simpl. rewrite lookup_delete_eq.
      repeat split; eauto; lia. }
    assert (b_timeout b2 = Some (t + b_closeTimeout b * (b_retries b + 1), InsertTimeout)%Z) as Ht2.
    { subst b2. unfold scheduleInsert. simpl. by rewrite Hlt, Hdelay. }
    assert (Z.of_nat n = b_maxRetries b2 - b_retries b2)%Z as Hn2 by (rewrite Hr2; simpl; lia).
    specialize (IH m2 id b2 _ Hinv2 (lookup_insert_eq _ _ _) Hph2 Ht2 Hct Hrange Hn2).
    rewrite Hr2 in IH. change (b_closeTimeout b2) with (b_closeTimeout b) in IH.
    destruct (bm_run m2 _) as [m' out]. done.
Qed.

Definition event_time (ev : batch_event) : Z :=
  match ev with Store now _ _ _ | TimerRuns now _ | InsertAnswered now _ _ => now | Stop => 0 end.

Lemma failing_attempts_last ct id n r t :
  ∃ last_t, last (event_time <$> failing_attempts ct id (S n) r t) = Some last_t
  ∧ (2 * (last_t - t) = ct * Z.of_nat n * (2 * r + Z.of_nat n + 1))%Z.
Proof.
  revert r t. induction n as [|n IH]; intros r t.
  { exists t. simpl. split; [done|lia]. }
  destruct (IH (r + 1)%Z (t + ct * (r + 1))%Z) as (lt & Hlast & Heq).
  exists lt. split; [|lia].
  change (failing_attempts ct id (S (S n)) r t) with
    (TimerRuns t id :: InsertAnswered t id false
     :: failing_attempts ct id (S n) (r + 1) (t + ct * (r + 1))).
  rewrite !fmap_cons. remember (event_time <$> failing_attempts ct id (S n) _ _) as l.
  destruct l; [done|]. done.
Qed.

(** While Cassandra refuses a batch that has just been locked, its inserts are
    attempted [maxRetries] times, [closeTimeout * k] after the [k]-th failure; the
    last failure, [closeTimeout * maxRetries * (maxRetries - 1) / 2] after the first
    attempt, drops all its records.  No done callback is called, and none of them
    ever is: the finished batch keeps them whatever follows. *)
Theorem failing_batch_is_dropped m id b t evs :
  bm_inv m → bm_heap m !! id = Some b → phase_waiting m id b → b_retries b = 0%Z →
  b_timeout b = Some (t, InsertTimeout) → (0 < b_closeTimeout b)%Z →
  (b_closeTimeout b * b_maxRetries b ≤ 2147483647)%Z →
  forallb (λ ev, negb (is_stop ev)) evs = true →
  let attempts := failing_attempts (b_closeTimeout b) id (Z.to_nat (b_maxRetries b)) 0 t in
  let '(m', out) := bm_run m attempts in
  (out ≫= dropped_of) = b_records b ∧ (out ≫= inserted_of) = [] ∧ (out ≫= called_of) = []
  ∧ (∃ last_t, last (event_time <$> attempts) = Some last_t
       ∧ (last_t = t + b_closeTimeout b * (b_maxRetries b * (b_maxRetries b - 1) / 2))%Z)
  ∧ (∃ b', bm_heap (bm_run m' evs).1 !! id = Some b' ∧ b_doneCbs b' = b_doneCbs b).
Proof.
  intros Hinv Hb Hph Hr Ht Hct Hrange Hevs attempts.
  assert (0 < b_maxRetries b)%Z as Hmax by (destruct Hph as (_ & _ & _ & _ & _ & ?); lia).
  pose proof (failing_attempts_drop (Z.to_nat (b_maxRetries b)) m id b t Hinv Hb Hph Ht Hct Hrange)
    as Hdrop. rewrite Hr in Hdrop. fold attempts in Hdrop.
  destruct (bm_run m attempts) as [m' out].
  destruct Hdrop as (Hinv' & Hd & Hi & Hc & b' & Hb' & Hph' & Hcbs); [lia|].
  do 3 (split; [done|]). split.
  - destruct (failing_attempts_last (b_closeTimeout b) id (Z.to_nat (b_maxRetries b) - 1) 0 t)
      as (lt & Hlast & Heq).
    replace (S (Z.to_nat (b_maxRetries b) - 1)) with (Z.to_nat (b_maxRetries b)) in Hlast by lia.
    exists lt. split; [done|].
    replace (Z.of_nat (Z.to_nat (b_maxRetries b) - 1)) with (b_maxRetries b - 1)%Z in Heq by lia.
    assert (b_maxRetries b * (b_maxRetries b - 1) = 2 * (b_maxRetries b * (b_maxRetries b - 1) / 2))%Z
      as Heven.
    { apply Z_div_exact_full_2; [done|]. rewrite Zmod_even, Z.even_mul, Z.even_sub.
      by destruct (Z.even (b_maxRetries b)). }
    nia.
  - exists b'. split; [|done]. by apply done_frame.
Qed.

Lemma clear_batches_lookup l h id b :
  h !! id = Some b →
  ∃ b', clear_batches l h !! id = Some b' ∧ b_retries b' = b_retries b
        ∧ b_maxRetries b' = b_maxRetries b ∧ b_closeTimeout b' = b_closeTimeout b.
Proof.
  unfold clear_batches. revert h b. induction l as [|id' l IH]; intros h b Hb; simpl; [eauto|].
  destruct (decide (id' = id)) as [->|Hne].
  - destruct (IH (alter batch_clear id h) (batch_clear b)) as (b' & ? & ? & ? & ?); [|by eauto].
    rewrite lookup_alter_eq, Hb. done.
  - apply IH. by rewrite lookup_alter_ne.
Qed.

(** Stopping the manager while an insert is awaited and then fails leaves a
    promise of [insert] rejected with nobody to handle it: the retry it schedules
    looks the batch up among the pending batches, which [stop] has emptied. *)
Lemma stop_then_failed_insert_rejects m id b q t t' :
  bm_heap m !! id = Some b → bm_inflight m !! id = Some q → reachedMaxRetries b = false →
  (t + timer_delay (b_closeTimeout b * b_retries b) ≤ t')%Z →
  UnhandledRejection ∈ (bm_run m [Stop; InsertAnswered t id false; TimerRuns t' id]).2.
Proof.
  intros Hb Hq Hmax Hle. cbn [bm_run bm_step].
  destruct (clear_batches_lookup ((map_to_list (bm_batches m)).*2) _ id b Hb)
    as (b1 & Hb1 & Hr1 & Hm1 & Hc1).
  destruct (clear_batches_lookup (elements (bm_pendingBatches m)) _ id b1 Hb1)
    as (b2 & Hb2 & Hr2 & Hm2 & Hc2).
  unfold insert_end, bm_stop. simpl. rewrite Hq, Hb2. unfold reachedMaxRetries in *.
  rewrite Hr2, Hm2, Hr1, Hm1, Hmax. unfold timer_runs. simpl. rewrite lookup_insert_eq. simpl.
  rewrite Hc2, Hr2, Hc1, Hr1, (proj2 (Z.leb_le _ t')) by done.
  unfold insert_begin. simpl. rewrite bool_decide_eq_false_2 by set_solver. simpl. set_solver.
Qed.

(** ** Witnesses *)

Module BatchWitness.
Definition record (n : Z) : InsertRecord := MkInsertRecord "s" 0 n 0 "0xp" "c" "payload" n.
(** Two records per batch, three attempts. *)
Definition options : BatchManagerOptions := MkBatchManagerOptions false 1000 2 100 3.
Definition events : list batch_event :=
  [Store 0 "b" (record 1) (Some 1); Store 1 "b" (record 2) (Some 2); Store 2 "b" (record 3) (Some 3);
   TimerRuns 3 0; InsertAnswered 4 0 false; TimerRuns 104 0; InsertAnswered 105 0 true;
   Store 106 "c" (record 4) None].
Definition locked : batch_manager := (bm_run (bm_new options) (take 3 events)).1.
Definition sent : batch_manager := (bm_run (bm_new options) (take 4 events)).1.
Definition first_batch (m : batch_manager) : batch :=
  default (MkBatch "" 0 0 0 0 None [] 0 0 OPENED []) (bm_heap m !! 0).

Lemma options_ok : opts_ok options.
Proof. repeat split. Qed.

Lemma batches_account_for_records_witness :
  let '(m, out) := bm_run (bm_new options) events in
  acknowledged ∅ out = insert_query false "b" <$> [record 1; record 2]
  ∧ events ≫= stored_queries false ≡ₚ acknowledged ∅ out ++ (out ≫= dropped_queries false) ++ held_queries m
  ∧ events ≫= stored_cbs ≡ₚ (out ≫= called_of) ++ held_cbs m.
Proof.
  pose proof (batches_account_for_records options events options_ok eq_refl) as H.
  assert (acknowledged ∅ (bm_run (bm_new options) events).2 = insert_query false "b" <$> [record 1; record 2]) as Ha
    by (vm_compute; reflexivity).
  destruct (bm_run (bm_new options) events) as [m out]. split; [exact Ha|exact H].
Defined.

Lemma batch_makes_progress_witness :
  (getRecordCount (first_batch sent) ≤ 2)%Z ∧ bm_inflight sent !! 0 ≠ None.
Proof.
  destruct (batch_makes_progress options (take 4 events) 0 (first_batch sent)) as (Hcase & Hle & _);
    [exact options_ok|vm_compute; reflexivity..|vm_compute; discriminate|].
  split; [exact Hle|]. vm_compute. discriminate.
Defined.

Lemma failing_batch_is_dropped_witness :
  let '(m', out) := bm_run locked (failing_attempts 100 0 3 0 3) in
  (out ≫= dropped_of) = [record 1; record 2]
  ∧ last (event_time <$> failing_attempts 100 0 3 0 3) = Some 303%Z.
Proof.
  pose proof (failing_batch_is_dropped locked 0 (first_batch locked) 3
    [TimerRuns 1000 0; Store 1001 "b" (record 5) None]) as H.
  assert (bm_inv locked) as Hinv by (apply bm_run_ok; [apply bm_new_inv, options_ok|reflexivity]).
  specialize (H Hinv eq_refl).
  destruct (bm_run locked (failing_attempts 100 0 3 0 3)) as [m' out] eqn:Hrun.
  assert (phase_waiting locked 0 (first_batch locked)) as Hph.
  { destruct (inv_batch _ Hinv 0 _ eq_refl) as (_ & _ & _ & [Hp|[Hp|[Hp|Hp]]]); [|exact Hp|..];
      exfalso; destruct Hp as (_ & _ & _ & Hs & _); vm_compute in Hs; discriminate. }
  specialize (H Hph eq_refl eq_refl eq_refl).
  cbv zeta in H. change (b_closeTimeout (first_batch locked)) with 100%Z in H.
  change (Z.to_nat (b_maxRetries (first_batch locked))) with 3 in H. rewrite Hrun in H.
  destruct H as (Hd & _ & _ & (lt & Hl & ->) & _); [discriminate|reflexivity|].
  split; [exact Hd|reflexivity].
Defined.

Lemma stop_then_failed_insert_case :
  UnhandledRejection ∈ (bm_run sent [Stop; InsertAnswered 5 0 false; TimerRuns 105 0]).2.
Proof.
  apply (stop_then_failed_insert_rejects sent 0 (first_batch sent)
    (insert_query false "b" <$> [record 1; record 2])); vm_compute; [reflexivity..|discriminate].
Defined.
End BatchWitness.
