(* ===== verification/Bucket.v ===== *)
(** Buckets (packages/node/src/plugins/storage/Bucket.ts and BucketManager.ts):
    which bucket a message is written to, when a new bucket is opened, how the
    counters of the buckets reach the database and when a bucket is forgotten.

    A [Bucket] object is shared by the table [buckets] and by the heap of its
    stream part, so the model keeps the objects in a store and both refer to it.
    The npm package [heap] is the interface [BucketHeap]. *)

From S2P Require Import Prelude.
From S2P Require Import Js.
From S2P Require Import Identifiers.
From S2P Require Import Cassandra.

Set Default Proof Using "Type".

(** * Bucket.ts *)

Record bucket := MkBucket {
  k_id : string; k_streamId : string; k_partition : Z;
  k_size : Z; k_records : Z; k_dateCreate : Z;
  k_maxSize : Z; k_maxRecordCount : Z; k_keepAliveSeconds : Z;
  k_ttl : Z; k_stored : bool
}.

Definition type_error (msg : string) : js_error := MkError None msg.

Definition bucket_new (now : Z) (id streamId : string) (partition size records dateCreate
    maxSize maxRecordCount keepAliveSeconds : Z) : outcome js_error bucket :=
  if (String.length id =? 0)%nat then Throw (type_error "id must be not empty string")
  else if (String.length streamId =? 0)%nat then Throw (type_error "streamId must be not empty string")
  else if (partition <? 0)%Z then Throw (type_error "partition must be >= 0")
  else if (size <? 0)%Z then Throw (type_error "size must be => 0")
  else if (records <? 0)%Z then Throw (type_error "records must be => 0")
  else if (maxSize <=? 0)%Z then Throw (type_error "maxSize must be > 0")
  else if (maxRecordCount <=? 0)%Z then Throw (type_error "maxRecordCount must be > 0")
  else if (keepAliveSeconds <=? 0)%Z then Throw (type_error "keepAliveSeconds must be > 0")
  else Return (MkBucket id streamId partition size records dateCreate maxSize maxRecordCount
                 keepAliveSeconds (now + keepAliveSeconds * 1000) false).

Definition isStored (b : bucket) : bool := k_stored b.
Definition setStored (b : bucket) : bucket :=
  MkBucket (k_id b) (k_streamId b) (k_partition b) (k_size b) (k_records b) (k_dateCreate b)
    (k_maxSize b) (k_maxRecordCount b) (k_keepAliveSeconds b) (k_ttl b) true.

(** [size >= maxSize * (100 - p) / 100], without the division *)
Definition checkSize (percentDeduction : Z) (b : bucket) : bool :=
  (k_maxSize b * (100 - percentDeduction) <=? k_size b * 100)%Z
  || (k_maxRecordCount b * (100 - percentDeduction) <=? k_records b * 100)%Z.
Definition isAlmostFull (b : bucket) : bool := checkSize 30 b.

Definition updateTTL (now : Z) (b : bucket) : Z := (now + k_keepAliveSeconds b * 1000)%Z.

Definition bucket_increment (now size : Z) (b : bucket) : bucket :=
  MkBucket (k_id b) (k_streamId b) (k_partition b) (k_size b + size) (k_records b + 1)
    (k_dateCreate b) (k_maxSize b) (k_maxRecordCount b) (k_keepAliveSeconds b)
    (updateTTL now b) false.

Definition isAlive (now : Z) (b : bucket) : bool := (now <=? k_ttl b)%Z.

(** * The npm package [heap] *)

(** A heap of bucket objects, each given with its [dateCreate], which never
    changes; the latest is the root.  [toArray] lists the root first and promises
    nothing on the order of the others. *)
Class BucketHeap (Hp : Type) := {
  heap_empty : Hp;
  heap_push : Z * nat → Hp → Hp;
  heap_peek : Hp → option (Z * nat);
  heap_toArray : Hp → list (Z * nat);
  heap_toArray_empty : heap_toArray heap_empty = [];
  heap_toArray_push x h : heap_toArray (heap_push x h) ≡ₚ x :: heap_toArray h;
  heap_peek_head h : heap_peek h = head (heap_toArray h);
  heap_peek_latest h x y : heap_peek h = Some x → y ∈ heap_toArray h → (y.1 ≤ x.1)%Z
}.

(** * BucketManager.ts *)

Record BucketManagerOptions := MkBucketManagerOptions {
  bo_maxBucketSize : Z; bo_maxBucketRecords : Z; bo_bucketKeepAliveSeconds : Z
}.
Definition default_bucket_options : BucketManagerOptions :=
  MkBucketManagerOptions (1024 * 1024 * 100) (500 * 1000) 60.

Record part_state (Hp : Type) := MkPartState {
  ps_streamId : string; ps_partition : Z; ps_buckets : Hp; ps_minTimestamp : option Z
}.
Arguments MkPartState {Hp} _ _ _ _.
Arguments ps_streamId {Hp} _.
Arguments ps_partition {Hp} _.
Arguments ps_buckets {Hp} _.
Arguments ps_minTimestamp {Hp} _.

Record bucket_manager (Hp : Type) := MkBucketManager {
  km_opts : BucketManagerOptions;
  km_streamParts : gmap string (part_state Hp);
  km_objects : gmap nat bucket;             (** every Bucket object created *)
  km_next : nat;
  km_buckets : gmap string nat;             (** bucketId => object *)
  km_stopped : bool
}.
Arguments MkBucketManager {Hp} _ _ _ _ _ _.
Arguments km_opts {Hp} _.
Arguments km_streamParts {Hp} _.
Arguments km_objects {Hp} _.
Arguments km_next {Hp} _.
Arguments km_buckets {Hp} _.
Arguments km_stopped {Hp} _.

Definition toKey (streamId : string) (partition : Z) : string :=
  streamId +:+ "-" +:+ pretty partition.

Section manager.
  Context {Hp : Type} `{BH : !BucketHeap Hp}.
  Context {DB : Type} `{CC : !CassandraClient DB}.
  (** [TimeUuid.fromDate(date).toString()] of cassandra-driver, called for the
      [n]-th object. *)
  Context (timeUuid : nat → Z → string).
  Implicit Types (m : bucket_manager Hp) (s : part_state Hp).

Definition km_new (o : BucketManagerOptions) : bucket_manager Hp :=
  MkBucketManager o ∅ ∅ 0 ∅ false.

Definition set_part (key : string) s m : bucket_manager Hp :=
  MkBucketManager (km_opts m) (<[key := s]> (km_streamParts m)) (km_objects m) (km_next m)
    (km_buckets m) (km_stopped m).
Definition set_minTimestamp (t : option Z) s : part_state Hp :=
  MkPartState (ps_streamId s) (ps_partition s) (ps_buckets s) t.
Definition set_heap (h : Hp) s : part_state Hp :=
  MkPartState (ps_streamId s) (ps_partition s) h (ps_minTimestamp s).

Definition getLatestInMemoryBucket (key : string) m : option bucket :=
  s ← km_streamParts m !! key; x ← heap_peek (ps_buckets s); km_objects m !! x.2.

Definition findBucketId (key : string) (timestamp : Z) m : option string :=
  match km_streamParts m !! key with
  | None => None
  | Some s =>
      match getLatestInMemoryBucket key m with
      | None => None
      | Some latestBucket =>
          if negb (isAlmostFull latestBucket) && (k_dateCreate latestBucket <=? timestamp)%Z
          then Some (k_id latestBucket)
          else if (timestamp <? k_dateCreate latestBucket)%Z
          then
            (* remove latest *)
            let currentBuckets := tail (heap_toArray (ps_buckets s)) in
            x ← head (filter (λ x, (x.1 ≤ timestamp)%Z) currentBuckets);
            k_id <$> km_objects m !! x.2
          else None
      end
  end.

Definition getBucketId (streamId : string) (partition timestamp : Z) m
    : bucket_manager Hp * option string :=
  let key := toKey streamId partition in
  match km_streamParts m !! key with
  | Some s =>
      match findBucketId key timestamp m with
      | Some bucketId => (m, Some bucketId)
      | None =>
          let t := match ps_minTimestamp s with
                   | Some t => Z.min t timestamp
                   | None => timestamp
                   end in
          (set_part key (set_minTimestamp (Some t) s) m, None)
      end
  | None => (set_part key (MkPartState streamId partition heap_empty (Some timestamp)) m, None)
  end.

Definition incrementBucket (now : Z) (bucketId : string) (size : Z) m : bucket_manager Hp :=
  match km_buckets m !! bucketId with
  | Some r => MkBucketManager (km_opts m) (km_streamParts m)
                (alter (bucket_increment now size) r (km_objects m)) (km_next m)
                (km_buckets m) (km_stopped m)
  | None => m
  end.

(** ** Reading buckets from the database *)

Definition bucket_of_row (now : Z) (streamId : string) (partition : Z) (o : BucketManagerOptions)
    (row : bucket_row) : outcome js_error bucket :=
  bucket_new now (bk_id row) streamId partition (bk_size row) (bk_records row) (bk_date row)
    (bo_maxBucketSize o) (bo_maxBucketRecords o) (bo_bucketKeepAliveSeconds o).

Fixpoint outcome_map {A B} (f : A → outcome js_error B) (l : list A) : outcome js_error (list B) :=
  match l with
  | [] => Return []
  | a :: l' => (let? b := f a in let? bs := outcome_map f l' in Return (b :: bs))%eff
  end.

Definition getBucketsFromDatabase (now : Z) (db : DB) (w : bucket_where) (o : order)
    (limit : option Z) m : outcome js_error (list bucket) :=
  (let? rows := select_buckets db w o limit in
   outcome_map (bucket_of_row now (bw_stream w) (bw_partition w) (km_opts m)) rows)%eff.

Definition getBucketsByTimestamp (now : Z) (db : DB) (streamId : string) (partition : Z)
    (fromTimestamp toTimestamp : option Z) m : outcome js_error (list bucket) :=
  let getExplicitFirst from :=
    getBucketsFromDatabase now db (BucketWhere streamId partition [CLe from]) Desc (Some 1%Z) m in
  let getRest :=
    match fromTimestamp, toTimestamp with
    | Some from, Some to =>
        getBucketsFromDatabase now db (BucketWhere streamId partition [CGt from; CLe to]) Desc None m
    | Some from, None =>
        getBucketsFromDatabase now db (BucketWhere streamId partition [CGt from]) Desc None m
    | None, Some to =>
        getBucketsFromDatabase now db (BucketWhere streamId partition [CLe to]) Desc None m
    | None, None => Throw (type_error "Not correct combination of fromTimestamp and toTimestamp")
    end in
  match fromTimestamp with
  | Some from =>
      (let? first := getExplicitFirst from in let? rest := getRest in Return (rest ++ first))%eff
  | None => getRest
  end.

(** [if (timestamp)]: zero counts as no timestamp. *)
Definition getLastBuckets (now : Z) (db : DB) (streamId : string) (partition limit : Z)
    (timestamp : option Z) m : outcome js_error (list bucket) :=
  match timestamp with
  | Some t => if (t =? 0)%Z
              then getBucketsFromDatabase now db (BucketWhere streamId partition []) Desc (Some limit) m
              else getBucketsFromDatabase now db (BucketWhere streamId partition [CLe t]) Desc
                     (Some limit) m
  | None => getBucketsFromDatabase now db (BucketWhere streamId partition []) Desc (Some limit) m
  end.

(** ** Opening buckets *)

(** [stream.buckets.push(b); this.buckets[b.getId()] = b; stream.minTimestamp = undefined] *)
Definition add_bucket (key : string) s (b : bucket) m : bucket_manager Hp :=
  let r := km_next m in
  MkBucketManager (km_opts m)
    (<[key := set_minTimestamp None (set_heap (heap_push (k_dateCreate b, r) (ps_buckets s)) s)]>
       (km_streamParts m))
    (<[r := b]> (km_objects m)) (S r) (<[k_id b := r]> (km_buckets m)) (km_stopped m).

(** The helper [checkFoundBuckets]; the boolean is [insertNewBucket]. *)
Definition checkFoundBuckets (key : string) (foundBuckets : list bucket) (insertNewBucket : bool) m
    : bucket_manager Hp * bool :=
  match foundBuckets, km_streamParts m !! key with
  | foundBucket :: _, Some s =>
      if bool_decide (km_buckets m !! k_id foundBucket = None)
      then (add_bucket key s foundBucket m, insertNewBucket)
      else (m, true)
  | _, _ => (m, true)
  end.

Definition query_last (now : Z) (db : DB) (key : string) s (timestamp : option Z)
    (insertNewBucket : bool) : eff (bucket_manager Hp) js_error bool := λ m,
  match getLastBuckets now db (ps_streamId s) (ps_partition s) 1 timestamp m with
  | Throw e => (m, Throw e)
  | Return foundBuckets =>
      let '(m', insertNewBucket') := checkFoundBuckets key foundBuckets insertNewBucket m in
      (m', Return insertNewBucket')
  end.

(** If the latest bucket is full or almost full, or none is in memory, the latest in
    the database is looked up; the answer is [insertNewBucket]. *)
Definition check_latest (now : Z) (db : DB) (key : string) s
    : eff (bucket_manager Hp) js_error bool := λ m,
  match getLatestInMemoryBucket (toKey (ps_streamId s) (ps_partition s)) m with
  | Some latestBucket =>
      if isAlmostFull latestBucket then query_last now db key s None true m
      else (m, Return false)
  | None => query_last now db key s None false m
  end.

(** Check in database that we have bucket for minTimestamp. *)
Definition check_timestamp (now : Z) (db : DB) (key : string) s (minTimestamp : Z)
    (insertNewBucket : bool) : eff (bucket_manager Hp) js_error bool := λ m,
  if negb insertNewBucket &&
     bool_decide (findBucketId (toKey (ps_streamId s) (ps_partition s)) minTimestamp m = None)
  then query_last now db key s (Some minTimestamp) insertNewBucket m
  else (m, Return insertNewBucket).

Definition insert_bucket (now : Z) (key : string) s (minTimestamp : Z)
    : eff (bucket_manager Hp) js_error unit := λ m,
  let o := km_opts m in
  match bucket_new now (timeUuid (km_next m) minTimestamp) (ps_streamId s) (ps_partition s) 0 0
          minTimestamp (bo_maxBucketSize o) (bo_maxBucketRecords o) (bo_bucketKeepAliveSeconds o),
        km_streamParts m !! key with
  | Return newBucket, Some stream => (add_bucket key stream newBucket m, Return tt)
  | Return _, None => (m, Return tt)
  | Throw e, _ => (m, Throw e)
  end.

(** The body of the loop of [checkFullBucketsOnce] for one stream part. *)
Definition check_part (now : Z) (db : DB) (key : string) : eff (bucket_manager Hp) js_error unit := λ m,
  match km_streamParts m !! key with
  | None => (m, Return tt)
  | Some s =>
      match ps_minTimestamp s with
      | None => (m, Return tt)
      | Some minTimestamp =>
          (let! insertNewBucket := check_latest now db key s in
           let! insertNewBucket' := check_timestamp now db key s minTimestamp insertNewBucket in
           if insertNewBucket' then insert_bucket now key s minTimestamp else eff_ret tt)%eff m
      end
  end.

Fixpoint check_parts (now : Z) (db : DB) (keys : list string) : eff (bucket_manager Hp) js_error unit :=
  match keys with
  | [] => eff_ret tt
  | key :: keys' => (check_part now db key;; check_parts now db keys')%eff
  end.
Definition checkFullBucketsOnce (now : Z) (db : DB) : eff (bucket_manager Hp) js_error unit := λ m,
  check_parts now db ((map_to_list (km_streamParts m)).*1) m.

(** One round of [checkFullBuckets]; the boolean says whether it schedules the next. *)
Definition checkFullBuckets (now : Z) (db : DB) m : bucket_manager Hp * bool :=
  let m' := (checkFullBucketsOnce now db m).1 in (m', negb (km_stopped m')).

(** ** Storing the counters *)

Definition removeBucket (bucketId streamId : string) (partition : Z) m : bucket_manager Hp :=
  let key := toKey streamId partition in
  let buckets := base.delete bucketId (km_buckets m) in
  match km_streamParts m !! key with
  | Some s =>
      let currentBuckets := heap_toArray (ps_buckets s) in
      (* the first element with this id is deleted, and the heap is rebuilt *)
      let is_it x := bool_decide (k_id <$> km_objects m !! x.2 = Some bucketId) in
      let remaining := match list_find (λ x, is_it x = true) currentBuckets with
                       | Some (i, _) => base.delete i currentBuckets
                       | None => currentBuckets
                       end in
      let heap := foldl (λ h x, heap_push x h) heap_empty remaining in
      MkBucketManager (km_opts m) (<[key := set_heap heap s]> (km_streamParts m)) (km_objects m)
        (km_next m) buckets (km_stopped m)
  | None => MkBucketManager (km_opts m) (km_streamParts m) (km_objects m) (km_next m) buckets
              (km_stopped m)
  end.

Definition live_buckets m : list (nat * bucket) :=
  omap (λ e, b ← km_objects m !! e.2; Some (e.2, b)) (map_to_list (km_buckets m)).

Definition row_of_bucket (b : bucket) : bucket_row :=
  BucketRow (k_streamId b) (k_partition b) (k_dateCreate b) (k_id b) (k_records b) (k_size b).

(** [storeBucketsOnce] before its await: the updates it sends, each with its object
    and the record count it remembers. *)
Definition store_begin m : list (nat * Z * mutation) :=
  (λ e, (e.1, k_records e.2, UpdateBucket (row_of_bucket e.2)))
    <$> filter (λ e, isStored e.2 = false) (live_buckets m).

(** The updates run; [now] and what happens to the manager in between are the caller's. *)
Definition run_updates (db : DB) (l : list (nat * Z * mutation)) : DB * list (nat * Z * bool) :=
  foldl (λ acc e, let '(db', r) := execute_batch acc.1 [e.2] in
                  (db', acc.2 ++ [(e.1.1, e.1.2, is_return r)])) (db, []) l.

Definition store_result (now : Z) m (e : nat * Z * bool) : bucket_manager Hp :=
  let '(r, records, fulfilled) := e in
  if fulfilled then
    match km_objects m !! r with
    | Some b =>
        let update b := if (k_records b =? records)%Z then setStored b else b in
        let b' := update b in
        let m' := MkBucketManager (km_opts m) (km_streamParts m) (alter update r (km_objects m))
                    (km_next m) (km_buckets m) (km_stopped m) in
        if negb (isAlive now b') && isStored b'
        then removeBucket (k_id b') (k_streamId b') (k_partition b') m' else m'
    | None => m
    end
  else m.

(** [storeBucketsOnce] after its await *)
Definition store_end (now : Z) (results : list (nat * Z * bool)) m : bucket_manager Hp :=
  let m1 := foldl (store_result now) m results in
  let bucketsToRemove := filter (λ e, isStored e.2 = true ∧ isAlive now e.2 = false) (live_buckets m1) in
  foldl (λ m e, removeBucket (k_id e.2) (k_streamId e.2) (k_partition e.2) m) m1 bucketsToRemove.

(** One round of [storeBuckets] with nothing in between; the boolean says whether it
    schedules the next. *)
Definition storeBuckets (now : Z) (db : DB) m : DB * bucket_manager Hp * bool :=
  let '(db', results) := run_updates db (store_begin m) in
  let m' := store_end now results m in (db', m', negb (km_stopped m')).

Definition km_stop m : bucket_manager Hp :=
  MkBucketManager (km_opts m) (km_streamParts m) (km_objects m) (km_next m) (km_buckets m) true.
End manager.

(** * Facts *)

Lemma toKey_inj s p s' p' :
  (0 ≤ p)%Z → (0 ≤ p')%Z → toKey s p = toKey s' p' → s = s' ∧ p = p'.
Proof. unfold toKey. intros. by apply (separated_inj (Ascii.ascii_of_nat 45)). Qed.

Lemma bucket_new_ok now id streamId partition size records dateCreate maxSize maxRecordCount ka b :
  bucket_new now id streamId partition size records dateCreate maxSize maxRecordCount ka = Return b →
  b = MkBucket id streamId partition size records dateCreate maxSize maxRecordCount ka
        (now + ka * 1000) false ∧ (0 ≤ partition)%Z ∧ (0 < maxSize)%Z ∧ (0 < maxRecordCount)%Z.
Proof. unfold bucket_new. repeat case_match; intros; simplify_eq. split; [done|lia]. Qed.

(** * The invariant of the bucket manager *)

Section invariant.
  Context {Hp : Type} `{BH : !BucketHeap Hp}.
  Implicit Types (m : bucket_manager Hp) (s : part_state Hp).

Definition entry_ok m s (x : Z * nat) : Prop :=
  ∃ b, km_objects m !! x.2 = Some b ∧ k_dateCreate b = x.1 ∧ k_streamId b = ps_streamId s
       ∧ k_partition b = ps_partition s ∧ km_buckets m !! k_id b = Some x.2.

Record km_inv m : Prop := {
  kinv_key key s : km_streamParts m !! key = Some s →
    key = toKey (ps_streamId s) (ps_partition s) ∧ (0 ≤ ps_partition s)%Z;
  kinv_entry key s x : km_streamParts m !! key = Some s → x ∈ heap_toArray (ps_buckets s) →
    entry_ok m s x;
  kinv_bucket id r : km_buckets m !! id = Some r →
    ∃ b, km_objects m !! r = Some b ∧ k_id b = id ∧
         ∃ s, km_streamParts m !! toKey (k_streamId b) (k_partition b) = Some s
              ∧ ps_streamId s = k_streamId b ∧ ps_partition s = k_partition b
              ∧ (k_dateCreate b, r) ∈ heap_toArray (ps_buckets s);
  kinv_nodup key s : km_streamParts m !! key = Some s → NoDup (heap_toArray (ps_buckets s)).*2;
  kinv_next r : is_Some (km_objects m !! r) → r < km_next m
}.

Lemma km_new_inv o : km_inv (km_new o).
Proof. split; simpl; intros *; rewrite ?lookup_empty; try done. Qed.

(** The objects keep what identifies them; only the counters change. *)
Definition same_identity (b b' : bucket) : Prop :=
  k_id b' = k_id b ∧ k_streamId b' = k_streamId b ∧ k_partition b' = k_partition b
  ∧ k_dateCreate b' = k_dateCreate b.

Lemma km_inv_update_object m r f :
  (∀ b, same_identity b (f b)) → km_inv m →
  km_inv (MkBucketManager (km_opts m) (km_streamParts m) (alter f r (km_objects m)) (km_next m)
            (km_buckets m) (km_stopped m)).
Proof.
  intros Hf Hinv.
  assert (∀ r0 b0, km_objects m !! r0 = Some b0 →
    ∃ b1, alter f r (km_objects m) !! r0 = Some b1 ∧ same_identity b0 b1) as Hl.
  { intros r0 b0 Hb0. destruct (decide (r = r0)) as [->|].
    - rewrite lookup_alter_eq, Hb0. eauto.
    - rewrite lookup_alter_ne by done. exists b0. done. }
  split; simpl; try apply Hinv.
  - intros key s x Hs Hx. destruct (kinv_entry m Hinv key s x Hs Hx) as (b & Hb & ? & ? & ? & ?).
    destruct (Hl _ _ Hb) as (b1 & ? & Hid1 & Hid2 & Hid3 & Hid4). exists b1.
    simpl. rewrite Hid1, Hid2, Hid3, Hid4. done.
  - intros id r0 Hr0. destruct (kinv_bucket m Hinv id r0 Hr0) as (b & Hb & ? & s & ?).
    destruct (Hl _ _ Hb) as (b1 & ? & Hid1 & Hid2 & Hid3 & Hid4). exists b1.
    rewrite Hid1, Hid2, Hid3, Hid4. eauto 10.
  - intros r0 [b0 Hb0]. apply (kinv_next m Hinv). apply lookup_alter_Some in Hb0.
    destruct Hb0 as [(<- & b & ? & _)|[_ ?]]; eauto.
Qed.

Lemma add_bucket_inv key s b m :
  km_inv m → km_streamParts m !! key = Some s → k_streamId b = ps_streamId s →
  k_partition b = ps_partition s → km_buckets m !! k_id b = None → km_inv (add_bucket key s b m).
Proof.
  intros Hinv Hs Hsid Hpart Hfresh. unfold add_bucket.
  destruct (kinv_key m Hinv key s Hs) as [Hkey Hp0].
  assert (km_objects m !! km_next m = None) as Hnone.
  { destruct (km_objects m !! km_next m) eqn:Hx; [|done].
    assert (km_next m < km_next m) by (apply (kinv_next m Hinv); eauto). lia. }
  assert (∀ s0 x, entry_ok m s0 x → x.2 ≠ km_next m) as Hold.
  { intros s0 x (b0 & Hb0 & _) Hx. congruence. }
  split; simpl.
  - intros key0 s0 [[? ?]|[? ?]]%lookup_insert_Some; simplify_eq/=; [done|by apply Hinv].
  - intros key0 s0 x [[? ?]|[Hne Hs0]]%lookup_insert_Some; simplify_eq/=.
    + rewrite heap_toArray_push, elem_of_cons. intros [->|Hx].
      * exists b. simpl. rewrite !lookup_insert_eq. done.
      * pose proof (kinv_entry m Hinv _ s x Hs Hx) as Hok.
        pose proof (Hold _ _ Hok) as Hxne. destruct Hok as (b0 & ? & ? & ? & ? & Hb0).
        exists b0. simpl. rewrite lookup_insert_ne by done. repeat split; try done.
        rewrite lookup_insert_ne; [done|]. intros Heq. rewrite Heq in Hfresh. congruence.
    + intros Hx. pose proof (kinv_entry m Hinv _ s0 x Hs0 Hx) as Hok.
      pose proof (Hold _ _ Hok) as Hxne. destruct Hok as (b0 & ? & ? & ? & ? & Hb0).
      exists b0. simpl. rewrite lookup_insert_ne by done. repeat split; try done.
      rewrite lookup_insert_ne; [done|]. intros Heq. rewrite Heq in Hfresh. congruence.
  - intros id r [[<- <-]|[Hne Hr]]%lookup_insert_Some.
    + exists b. rewrite lookup_insert_eq. split; [done|]. split; [done|].
      eexists. rewrite Hsid, Hpart, <-Hkey, lookup_insert_eq. split; [done|]. simpl.
      rewrite heap_toArray_push, elem_of_cons. auto.
    + destruct (kinv_bucket m Hinv id r Hr) as (b0 & Hb0 & Hid & s0 & Hs0 & ? & ? & Hx).
      exists b0. rewrite lookup_insert_ne by congruence. split; [done|]. split; [done|].
      destruct (decide (key = toKey (k_streamId b0) (k_partition b0))) as [Heq|Hkne].
      * rewrite <-Heq, lookup_insert_eq. rewrite <-Heq, Hs in Hs0. simplify_eq.
        eexists. split; [done|]. simpl. rewrite heap_toArray_push, elem_of_cons. auto.
      * rewrite lookup_insert_ne by done. eauto 10.
  - intros key0 s0 [[? ?]|[? ?]]%lookup_insert_Some; simplify_eq/=; [|by eapply (kinv_nodup m Hinv)].
    rewrite heap_toArray_push. simpl. apply NoDup_cons.
    split; [|by eapply (kinv_nodup m Hinv)].
    intros (x & Heq & Hx)%list_elem_of_fmap.
    by eapply Hold; [eapply (kinv_entry m Hinv); [exact Hs|exact Hx]|].
  - intros r. destruct (decide (r = km_next m)) as [->|]; [lia|].
    rewrite lookup_insert_ne by done. intros ?%(kinv_next m Hinv). lia.
Qed.

Lemma set_part_inv key s s' m :
  km_inv m → km_streamParts m !! key = Some s → ps_streamId s' = ps_streamId s →
  ps_partition s' = ps_partition s → ps_buckets s' = ps_buckets s → km_inv (set_part key s' m).
Proof.
  intros Hinv Hs Hid Hpart Hb. destruct (kinv_key m Hinv key s Hs) as [Hkey ?].
  split; simpl; try apply Hinv.
  - intros key0 s0 [[? ?]|[? ?]]%lookup_insert_Some; simplify_eq; [|by apply Hinv].
    rewrite Hid, Hpart. done.
  - intros key0 s0 x [[? ?]|[? ?]]%lookup_insert_Some; simplify_eq.
    + rewrite Hb. intros Hx. destruct (kinv_entry m Hinv _ s x Hs Hx) as (b0 & ?).
      exists b0. rewrite Hid, Hpart. done.
    + by eapply (kinv_entry m Hinv).
  - intros id r Hr. destruct (kinv_bucket m Hinv id r Hr) as (b0 & Hb0 & Hid0 & s0 & Hs0 & ? & ? & ?).
    exists b0. split; [done|]. split; [done|].
    destruct (decide (key = toKey (k_streamId b0) (k_partition b0))) as [Heq|Hne].
    + rewrite <-Heq, lookup_insert_eq. rewrite <-Heq, Hs in Hs0. simplify_eq.
      exists s'. rewrite Hb, Hid, Hpart. done.
    + rewrite lookup_insert_ne by done. eauto 10.
  - intros key0 s0 [[? ?]|[? ?]]%lookup_insert_Some; simplify_eq; [rewrite Hb|];
      by eapply (kinv_nodup m Hinv).
Qed.

Lemma set_minTimestamp_inv key s t m :
  km_inv m → km_streamParts m !! key = Some s → km_inv (set_part key (set_minTimestamp t s) m).
Proof. intros. by eapply set_part_inv. Qed.

Lemma latest_spec m key s b :
  km_inv m → km_streamParts m !! key = Some s → getLatestInMemoryBucket key m = Some b →
  ∃ r rest, heap_toArray (ps_buckets s) = (k_dateCreate b, r) :: rest ∧ km_objects m !! r = Some b
  ∧ ∀ x, x ∈ heap_toArray (ps_buckets s) → (x.1 ≤ k_dateCreate b)%Z.
Proof.
  intros Hinv Hs. unfold getLatestInMemoryBucket. rewrite Hs. simpl.
  destruct (heap_peek (ps_buckets s)) as [x|] eqn:Hx; simpl; [|done]. intros Hb.
  pose proof Hx as Hhd. rewrite heap_peek_head in Hhd.
  destruct (heap_toArray (ps_buckets s)) as [|x' rest] eqn:Harr; [done|]. injection Hhd as <-.
  destruct (kinv_entry m Hinv key s x' Hs) as (b0 & ? & Hd & _); [rewrite Harr; by left|].
  simplify_eq. destruct x' as [d r]. simpl in *. subst. exists r, rest. split; [done|].
  split; [done|]. intros y Hy. apply (heap_peek_latest (ps_buckets s) (k_dateCreate b, r)); [done|].
  by rewrite Harr.
Qed.

Lemma latest_None m key s :
  km_inv m → km_streamParts m !! key = Some s → getLatestInMemoryBucket key m = None →
  heap_toArray (ps_buckets s) = [].
Proof.
  intros Hinv Hs. unfold getLatestInMemoryBucket. rewrite Hs. simpl. rewrite heap_peek_head.
  destruct (heap_toArray (ps_buckets s)) as [|x rest] eqn:Harr; [done|]. simpl.
  destruct (kinv_entry m Hinv key s x Hs) as (b & -> & _); [rewrite Harr; by left|]. done.
Qed.

(** What [findBucketId] answers. *)
Lemma findBucketId_Some m key s t id :
  km_inv m → km_streamParts m !! key = Some s → findBucketId key t m = Some id →
  ∃ r b latest, km_buckets m !! id = Some r ∧ km_objects m !! r = Some b ∧ k_id b = id
  ∧ (k_dateCreate b, r) ∈ heap_toArray (ps_buckets s) ∧ (k_dateCreate b ≤ t)%Z
  ∧ k_streamId b = ps_streamId s ∧ k_partition b = ps_partition s
  ∧ getLatestInMemoryBucket key m = Some latest
  ∧ ((b = latest ∧ isAlmostFull b = false) ∨ (t < k_dateCreate latest)%Z).
Proof.
  intros Hinv Hs. unfold findBucketId. rewrite Hs.
  destruct (getLatestInMemoryBucket key m) as [latest|] eqn:Hl; [|done].
  destruct (latest_spec m key s latest Hinv Hs Hl) as (r & rest & Harr & Hr & _).
  destruct (negb (isAlmostFull latest) && (k_dateCreate latest <=? t)%Z) eqn:Hok.
  - intros [= <-]. apply andb_true_iff in Hok as [Hnf%negb_true_iff Hle%Z.leb_le].
    destruct (kinv_entry m Hinv key s (k_dateCreate latest, r) Hs) as (b & ? & ? & ? & ? & ?);
      [rewrite Harr; by left|]. simplify_eq/=.
    exists r, latest, latest. rewrite Harr. repeat split; eauto. by left.
  - destruct (t <? k_dateCreate latest)%Z eqn:Hlt; [|done]. apply Z.ltb_lt in Hlt.
    rewrite Harr. simpl.
    destruct (filter _ rest) as [|x xs] eqn:Hf; [done|]. simpl. intros Hid.
    assert (x ∈ filter (λ x : Z * nat, (x.1 ≤ t)%Z) rest) as [Hle Hx]%list_elem_of_filter
      by (rewrite Hf; by left).
    assert (x ∈ heap_toArray (ps_buckets s)) as Hxa by (rewrite Harr; by right).
    destruct (kinv_entry m Hinv key s x Hs Hxa) as (b & Hb & Hd & ? & ? & ?).
    rewrite Hb in Hid. simplify_eq/=. destruct x as [d r0]. simpl in *. subst.
    exists r0, b, latest. rewrite <-Harr. repeat split; eauto.
Qed.

(** And when it answers nothing. *)
Lemma findBucketId_None m key s t latest :
  km_inv m → km_streamParts m !! key = Some s → getLatestInMemoryBucket key m = Some latest →
  findBucketId key t m = None ↔
  (isAlmostFull latest = true ∧ (k_dateCreate latest ≤ t)%Z)
  ∨ ∀ x, x ∈ heap_toArray (ps_buckets s) → (t < x.1)%Z.
Proof.
  intros Hinv Hs Hl. unfold findBucketId. rewrite Hs, Hl.
  destruct (latest_spec m key s latest Hinv Hs Hl) as (r & rest & Harr & Hr & Hmax).
  destruct (Z.le_gt_cases (k_dateCreate latest) t) as [Hle|Hgt].
  - rewrite (proj2 (Z.leb_le _ _)), andb_true_r by done. rewrite (proj2 (Z.ltb_ge _ _)) by done.
    assert (¬ ∀ x, x ∈ heap_toArray (ps_buckets s) → (t < x.1)%Z) as Hno.
    { intros Hall. assert (t < k_dateCreate latest)%Z; [|lia].
      apply (Hall (k_dateCreate latest, r)). rewrite Harr. by left. }
    destruct (isAlmostFull latest); simpl; naive_solver.
  - rewrite (proj2 (Z.leb_gt _ _)), andb_false_r by done. rewrite (proj2 (Z.ltb_lt _ _)) by done.
    rewrite Harr. simpl. split.
    + intros Hn. right. intros x Hx. apply elem_of_cons in Hx as [->|Hx]; [simpl; lia|].
      destruct (Z.lt_ge_cases t x.1); [done|exfalso].
      destruct (filter (λ x : Z * nat, (x.1 ≤ t)%Z) rest) as [|y ys] eqn:Hf.
      { assert (x ∈ filter (λ x : Z * nat, (x.1 ≤ t)%Z) rest) as Hin
          by (by apply list_elem_of_filter). rewrite Hf in Hin. by apply not_elem_of_nil in Hin. }
      assert (y ∈ filter (λ x : Z * nat, (x.1 ≤ t)%Z) rest) as [_ Hy]%list_elem_of_filter
        by (rewrite Hf; by left).
      destruct (kinv_entry m Hinv key s y Hs) as (b & Hb & _); [rewrite Harr; by right|].
      simpl in Hn. by rewrite Hb in Hn.
    + intros [[_ ?]|Hall]; [lia|].
      destruct (filter (λ x : Z * nat, (x.1 ≤ t)%Z) rest) as [|y ys] eqn:Hf; [done|exfalso].
      assert (y ∈ filter (λ x : Z * nat, (x.1 ≤ t)%Z) rest) as [? Hy]%list_elem_of_filter
        by (rewrite Hf; by left).
      assert (t < y.1)%Z; [|lia]. apply Hall. by right.
Qed.

Lemma getBucketId_inv streamId partition t m :
  km_inv m → (0 ≤ partition)%Z → km_inv (getBucketId streamId partition t m).1.
Proof.
  intros Hinv Hpos. unfold getBucketId.
  destruct (km_streamParts m !! toKey streamId partition) as [s|] eqn:Hs.
  - destruct (findBucketId _ _ _); [done|]. simpl. by apply set_minTimestamp_inv.
  - simpl. split; simpl; try apply Hinv.
    + intros key s [[? ?]|[? ?]]%lookup_insert_Some; simplify_eq/=; [done|by apply Hinv].
    + intros key s x [[? ?]|[? Hs']]%lookup_insert_Some; simplify_eq/=.
      * rewrite heap_toArray_empty. by intros ?%not_elem_of_nil.
      * intros Hx. destruct (kinv_entry m Hinv key s x Hs' Hx) as (b & ?). by exists b.
    + intros id r Hr. destruct (kinv_bucket m Hinv id r Hr) as (b & ? & ? & s & ? & ?).
      exists b. split; [done|]. split; [done|]. exists s. rewrite lookup_insert_ne by congruence. done.
    + intros key s [[? ?]|[? ?]]%lookup_insert_Some; simplify_eq/=; [|by eapply (kinv_nodup m Hinv)].
      rewrite heap_toArray_empty. constructor.
Qed.

Lemma rebuild_heap l : heap_toArray (foldl (λ h x, heap_push x h) heap_empty l) ≡ₚ l.
Proof.
  assert (∀ h, heap_toArray (foldl (λ h x, heap_push x h) h l) ≡ₚ l ++ heap_toArray h) as Hall.
  { induction l as [|x l IH]; intros h; simpl; [done|].
    rewrite IH, heap_toArray_push. symmetry. apply Permutation_middle. }
  by rewrite Hall, heap_toArray_empty, app_nil_r.
Qed.

Lemma delete_NoDup (l : list (Z * nat)) i x :
  NoDup l.*2 → l !! i = Some x →
  NoDup (base.delete i l).*2 ∧ ∀ y, y ∈ base.delete i l ↔ y ∈ l ∧ y.2 ≠ x.2.
Proof.
  intros Hnd Hi. pose proof (delete_Permutation l i x Hi) as Hperm.
  assert (NoDup (x :: base.delete i l).*2) as Hnd' by (by rewrite <-Hperm).
  simpl in Hnd'. apply NoDup_cons in Hnd' as [Hnin Hnd']. split; [done|]. intros y.
  assert (y ∈ l ↔ y ∈ x :: base.delete i l) as -> by (by rewrite <-Hperm). rewrite elem_of_cons. split.
  - intros Hy. split; [by right|]. intros Heq. apply Hnin. rewrite <-Heq. by apply list_elem_of_fmap_2.
  - intros [[->|?] ?]; done.
Qed.

(** The heap of the part after [removeBucket], and the table. *)
Lemma removeBucket_spec id streamId partition m :
  km_inv m →
  (∀ r b, km_buckets m !! id = Some r → km_objects m !! r = Some b →
     k_streamId b = streamId ∧ k_partition b = partition) →
  let m' := removeBucket id streamId partition m in
  km_objects m' = km_objects m ∧ km_next m' = km_next m
  ∧ km_buckets m' = base.delete id (km_buckets m) ∧ km_opts m' = km_opts m
  ∧ (∀ key, key ≠ toKey streamId partition → km_streamParts m' !! key = km_streamParts m !! key)
  ∧ (∀ s, km_streamParts m !! toKey streamId partition = Some s →
      ∃ h, km_streamParts m' !! toKey streamId partition = Some (set_heap h s)
        ∧ NoDup (heap_toArray h).*2
        ∧ ∀ x, x ∈ heap_toArray h ↔
               x ∈ heap_toArray (ps_buckets s) ∧ km_buckets m !! id ≠ Some x.2)
  ∧ (km_streamParts m !! toKey streamId partition = None →
      km_streamParts m' !! toKey streamId partition = None).
Proof.
  intros Hinv Hid. unfold removeBucket.
  destruct (km_streamParts m !! toKey streamId partition) as [s|] eqn:Hs; simpl; [|by eauto 10].
  do 4 (split; [done|]). split; [intros; by rewrite lookup_insert_ne|]. split; [|done].
  intros s0 [= <-]. rewrite lookup_insert_eq. eexists. split; [done|].
  pose proof (kinv_nodup m Hinv _ s Hs) as Hnd.
  assert (∀ x, x ∈ heap_toArray (ps_buckets s) →
    k_id <$> km_objects m !! x.2 = Some id ↔ km_buckets m !! id = Some x.2) as Hit.
  { intros x Hx. destruct (kinv_entry m Hinv _ s x Hs Hx) as (b & Hb & _ & _ & _ & Hbk). rewrite Hb.
    simpl. split; [by intros [= <-]|]. intros Hbk'.
    destruct (kinv_bucket m Hinv _ _ Hbk') as (b' & ? & ? & _). congruence. }
  match goal with |- context [list_find ?P ?l] => destruct (list_find P l) as [[i y]|] eqn:Hf end.
  - apply list_find_Some in Hf as (Hi & Hy & _). apply bool_decide_eq_true in Hy.
    assert (y ∈ heap_toArray (ps_buckets s)) as Hyin by (by eapply list_elem_of_lookup_2).
    apply Hit in Hy; [|done]. destruct (delete_NoDup _ i y Hnd Hi) as [Hnd' Hdel]. split.
    + by rewrite rebuild_heap.
    + intros x. rewrite rebuild_heap, Hdel, Hy. naive_solver.
  - apply list_find_None in Hf. rewrite Forall_forall in Hf. split.
    + by rewrite rebuild_heap.
    + intros x. rewrite rebuild_heap. split; [|tauto]. intros Hx. split; [done|].
      rewrite <-Hit by done. intros Hx'. apply (Hf x Hx). by apply bool_decide_eq_true.
Qed.

Lemma removeBucket_inv id streamId partition m :
  km_inv m →
  (∀ r b, km_buckets m !! id = Some r → km_objects m !! r = Some b →
     k_streamId b = streamId ∧ k_partition b = partition) →
  km_inv (removeBucket id streamId partition m).
Proof.
  intros Hinv Hid.
  destruct (removeBucket_spec id streamId partition m Hinv Hid)
    as (Hobj & Hnext & Hbk & _ & Hother & Hpart & Hnone).
  assert (∀ key s', km_streamParts (removeBucket id streamId partition m) !! key = Some s' →
    ∃ s, km_streamParts m !! key = Some s ∧ ps_streamId s' = ps_streamId s
         ∧ ps_partition s' = ps_partition s ∧ NoDup (heap_toArray (ps_buckets s')).*2
         ∧ ∀ x, x ∈ heap_toArray (ps_buckets s') →
             x ∈ heap_toArray (ps_buckets s) ∧ km_buckets m !! id ≠ Some x.2) as Hparts.
  { intros key s' Hs'. destruct (decide (key = toKey streamId partition)) as [->|Hne].
    - destruct (km_streamParts m !! toKey streamId partition) as [s|] eqn:Hs.
      + destruct (Hpart s eq_refl) as (h & Hh & Hnd & Hx). rewrite Hh in Hs'. simplify_eq.
        exists s. repeat split; try done; by apply Hx.
      + rewrite Hnone in Hs' by done. done.
    - rewrite Hother in Hs' by done. exists s'. split; [done|]. split; [done|]. split; [done|].
      split; [by eapply (kinv_nodup m Hinv)|]. intros x Hx. split; [done|]. intros Hbx.
      destruct (kinv_entry m Hinv key s' x Hs' Hx) as (b & Hb & _ & Hsid & Hpt & Hbb).
      destruct (Hid _ _ Hbx Hb) as [? ?]. destruct (kinv_key m Hinv key s' Hs') as [Hk _]. congruence. }
  split.
  - intros key s' (s & Hs & -> & -> & _)%Hparts. by apply Hinv.
  - intros key s' x (s & Hs & Hsid & Hpt & _ & Hx)%Hparts Hxin. destruct (Hx x Hxin) as [Hxs Hne].
    destruct (kinv_entry m Hinv key s x Hs Hxs) as (b & ? & ? & ? & ? & Hb). exists b.
    rewrite Hobj, Hbk, Hsid, Hpt. repeat split; try done. rewrite lookup_delete_ne; [done|].
    congruence.
  - intros id0 r. rewrite Hbk, Hobj. intros [Hne Hr]%lookup_delete_Some.
    destruct (kinv_bucket m Hinv id0 r Hr) as (b & Hb & Hb0 & s & Hs & ? & ? & Hx).
    exists b. split; [done|]. split; [done|].
    destruct (decide (toKey (k_streamId b) (k_partition b) = toKey streamId partition)) as [Heq|Hkne].
    + rewrite Heq in *. destruct (Hpart s Hs) as (h & Hh & _ & Hiff). rewrite Hh.
      eexists. split; [done|]. split; [done|]. split; [done|]. simpl. apply Hiff. split; [done|].
      simpl. intros Hidr. destruct (kinv_bucket m Hinv _ _ Hidr) as (b1 & ? & ? & _). congruence.
    + rewrite Hother by done. eauto 10.
  - intros key s' (s & _ & _ & _ & Hnd & _)%Hparts. done.
  - rewrite Hobj, Hnext. apply Hinv.
Qed.
End invariant.

(** * Opening buckets *)

Section opening.
  Context {Hp : Type} `{BH : !BucketHeap Hp}.
  Context {DB : Type} `{CC : !CassandraClient DB}.
  Context (timeUuid : nat → Z → string).
  Implicit Types (m : bucket_manager Hp) (s : part_state Hp) (db : DB).

Lemma outcome_map_Forall2 {A B} (f : A → outcome js_error B) l l' :
  outcome_map f l = Return l' → Forall2 (λ a b, f a = Return b) l l'.
Proof.
  revert l'. induction l as [|a l IH]; simpl; intros l' Hl; [by simplify_eq|].
  destruct (f a) eqn:Ha; simplify_eq/=. destruct (outcome_map f l) eqn:Hm; simplify_eq/=.
  constructor; auto.
Qed.

Definition row_bucket (o : BucketManagerOptions) (w : bucket_where) (row : bucket_row) (b : bucket) : Prop :=
  k_id b = bk_id row ∧ k_streamId b = bw_stream w ∧ k_partition b = bw_partition w
  ∧ k_dateCreate b = bk_date row ∧ k_size b = bk_size row ∧ k_records b = bk_records row
  ∧ k_maxSize b = bo_maxBucketSize o ∧ k_maxRecordCount b = bo_maxBucketRecords o.

Lemma getBucketsFromDatabase_spec now db w o limit m bs :
  getBucketsFromDatabase now db w o limit m = Return bs →
  ∃ rows, selects (bucket_matches w) (date_order o) limit (db_buckets db) rows
          ∧ Forall2 (row_bucket (km_opts m) w) rows bs.
Proof.
  unfold getBucketsFromDatabase. destruct (select_buckets db w o limit) as [rows|] eqn:Hsel; [|done].
  simpl. intros Hmap%outcome_map_Forall2. exists rows. split; [by apply select_buckets_ok|].
  eapply Forall2_impl; [exact Hmap|]. intros row b Hb. apply bucket_new_ok in Hb as [-> _]. done.
Qed.

Lemma checkFoundBuckets_spec key found i m m' i' s :
  km_inv m → km_streamParts m !! key = Some s →
  Forall (λ b, k_streamId b = ps_streamId s ∧ k_partition b = ps_partition s) found →
  checkFoundBuckets key found i m = (m', i') →
  km_inv m' ∧ km_opts m' = km_opts m
  ∧ ((m' = m ∧ i' = true)
     ∨ ∃ b rest, found = b :: rest ∧ km_buckets m !! k_id b = None
                 ∧ m' = add_bucket key s b m ∧ i' = i).
Proof.
  intros Hinv Hs Hall. unfold checkFoundBuckets. rewrite Hs.
  destruct found as [|b rest]; [intros [= <- <-]; auto|]. apply Forall_cons in Hall as [[? ?] _].
  case_bool_decide; intros [= <- <-]; [|auto]. split; [by apply add_bucket_inv|].
  split; [done|]. right. eauto 10.
Qed.

Lemma add_bucket_part key s b m :
  km_streamParts (add_bucket key s b m) !! key
  = Some (set_minTimestamp None (set_heap (heap_push (k_dateCreate b, km_next m) (ps_buckets s)) s)).
Proof. unfold add_bucket. simpl. by rewrite lookup_insert_eq. Qed.

(** No bucket of the part that is almost full is dated [t]. *)
Definition no_full_at (t : Z) (key : string) m : Prop :=
  ∀ s x b, km_streamParts m !! key = Some s → x ∈ heap_toArray (ps_buckets s) →
    km_objects m !! x.2 = Some b → isAlmostFull b = true → k_dateCreate b ≠ t.

Lemma add_bucket_no_full_at t key s b m :
  km_inv m → km_streamParts m !! key = Some s → no_full_at t key m →
  (isAlmostFull b = true → k_dateCreate b ≠ t) → no_full_at t key (add_bucket key s b m).
Proof.
  intros Hinv Hs Hno Hb s' x b'. rewrite add_bucket_part. intros [= <-]. simpl.
  rewrite heap_toArray_push, elem_of_cons. intros [->|Hx]; simpl.
  - rewrite lookup_insert_eq. by intros [= <-].
  - destruct (kinv_entry m Hinv key s x Hs Hx) as (b0 & Hb0 & _).
    assert (x.2 < km_next m) by (apply (kinv_next m Hinv); eauto).
    rewrite lookup_insert_ne by lia.
    intros Hb'. by eapply Hno.
Qed.

(** After a bucket is added that is dated [t] or earlier, a message dated [t] has a
    bucket, unless the latest bucket is full and not after [t]. *)
Lemma findBucketId_add key s b t m :
  km_inv (add_bucket key s b m) → (k_dateCreate b ≤ t)%Z →
  (∀ latest, getLatestInMemoryBucket key (add_bucket key s b m) = Some latest →
     isAlmostFull latest = true → (t < k_dateCreate latest)%Z) →
  findBucketId key t (add_bucket key s b m) ≠ None.
Proof.
  intros Hinv Hle Hlatest Hnone. pose proof (add_bucket_part key s b m) as Hs'.
  destruct (getLatestInMemoryBucket key (add_bucket key s b m)) as [latest|] eqn:Hl.
  - apply (findBucketId_None _ _ _ _ _ Hinv Hs' Hl) in Hnone as [[Hf Hd]|Hall].
    + specialize (Hlatest _ eq_refl Hf). lia.
    + specialize (Hall (k_dateCreate b, km_next m)). simpl in Hall.
      rewrite heap_toArray_push in Hall. assert (t < k_dateCreate b)%Z by (apply Hall; by left). lia.
  - pose proof (latest_None _ _ _ Hinv Hs' Hl) as Hnil. simpl in Hnil.
    pose proof (heap_toArray_push (k_dateCreate b, km_next m) (ps_buckets s)) as Hperm.
    rewrite Hnil in Hperm. by apply Permutation_nil_l in Hperm.
Qed.

Lemma findBucketId_add_new key s b t m :
  km_inv (add_bucket key s b m) → km_inv m → km_streamParts m !! key = Some s →
  k_dateCreate b = t → isAlmostFull b = false → no_full_at t key m →
  findBucketId key t (add_bucket key s b m) ≠ None.
Proof.
  intros Hinv' Hinv Hs Hd Hnf Hno. apply findBucketId_add; [done|lia|].
  intros latest Hl Hfull.
  destruct (latest_spec _ _ _ _ Hinv' (add_bucket_part key s b m) Hl) as (r & rest & Harr & Hr & Hmax).
  specialize (Hmax (k_dateCreate b, km_next m)). simpl in Hmax, Harr.
  assert (k_dateCreate b ≤ k_dateCreate latest)%Z as Hge
    by (apply Hmax; rewrite heap_toArray_push; by left).
  assert (k_dateCreate latest ≠ t); [|lia].
  apply (add_bucket_no_full_at t key s b m Hinv Hs Hno) with
    (s := set_minTimestamp None (set_heap (heap_push (k_dateCreate b, km_next m) (ps_buckets s)) s))
    (x := (k_dateCreate latest, r)); [congruence|apply add_bucket_part| |done|done].
  simpl. rewrite Harr. by left.
Qed.

Definition row_full (o : BucketManagerOptions) (r : bucket_row) : bool :=
  (bo_maxBucketSize o * 70 <=? bk_size r * 100)%Z
  || (bo_maxBucketRecords o * 70 <=? bk_records r * 100)%Z.

(** The answer of [getLastBuckets] with limit 1: the latest bucket of the part, or
    the latest that is not after the timestamp. *)
Lemma getLastBuckets_spec now db streamId partition ts m found :
  (∀ t, ts = Some t → t ≠ 0%Z) →
  getLastBuckets now db streamId partition 1 ts m = Return found →
  Forall (λ b, k_streamId b = streamId ∧ k_partition b = partition) found ∧
  ∀ b rest, found = b :: rest → ∃ row,
    row ∈ db_buckets db ∧ in_part streamId partition row ∧ k_id b = bk_id row
    ∧ k_dateCreate b = bk_date row ∧ isAlmostFull b = row_full (km_opts m) row
    ∧ (∀ t, ts = Some t → (bk_date row ≤ t)%Z)
    ∧ ∀ row', row' ∈ db_buckets db → in_part streamId partition row' →
        (∀ t, ts = Some t → (bk_date row' ≤ t)%Z) → (bk_date row' ≤ bk_date row)%Z.
Proof.
  intros Hts Hget.
  assert (∃ conds, getBucketsFromDatabase now db (BucketWhere streamId partition conds) Desc
            (Some 1%Z) m = Return found
          ∧ ∀ r, Forall (λ c, cond_matches (bk_date r) c = true) conds ↔
                 ∀ t, ts = Some t → (bk_date r ≤ t)%Z) as (conds & Hfound & Hconds).
  { unfold getLastBuckets in Hget. destruct ts as [t|].
    - rewrite (proj2 (Z.eqb_neq t 0)) in Hget by eauto. exists [CLe t]. split; [done|]. intros r.
      rewrite Forall_singleton. simpl. rewrite Z.leb_le. naive_solver.
    - exists []. split; [done|]. intros r. rewrite Forall_nil. naive_solver. }
  apply getBucketsFromDatabase_spec in Hfound as (rows & Hsel & Hall). split.
  - apply Forall_forall. intros b Hb. apply list_elem_of_lookup in Hb as [i Hi].
    destruct (Forall2_lookup_r _ _ _ _ _ Hall Hi) as (row & _ & Hrow). by destruct Hrow as (_ & ? & ? & _).
  - intros b rest ->. inversion Hall as [|row ? rows' ? Hrow _]; subst.
    destruct (selects_elem _ _ _ _ _ row Hsel) as [Hin Hm]; [by left|].
    apply bucket_matches_spec in Hm as (Hsid & Hp0 & Hd). simpl in *.
    destruct Hrow as (? & ? & ? & ? & Hsz & Hrc & Hms & Hmr). exists row.
    repeat split; try done.
    + unfold isAlmostFull, checkSize, row_full. by rewrite Hsz, Hrc, Hms, Hmr.
    + by apply Hconds.
    + intros row' Hin' [? ?] Hd'. destruct (selects_first _ _ _ _ _ _ row' Hsel Hin') as [->|Hle]; [|done..].
      apply bucket_matches_spec. simpl. by rewrite Hconds.
Qed.

(** The last step of [check_part]. *)
Lemma open_new_bucket now key s t m newBucket :
  km_inv m → km_streamParts m !! key = Some s → no_full_at t key m →
  (0 < bo_maxBucketSize (km_opts m))%Z → (0 < bo_maxBucketRecords (km_opts m))%Z →
  km_buckets m !! timeUuid (km_next m) t = None →
  bucket_new now (timeUuid (km_next m) t) (ps_streamId s) (ps_partition s) 0 0 t
    (bo_maxBucketSize (km_opts m)) (bo_maxBucketRecords (km_opts m))
    (bo_bucketKeepAliveSeconds (km_opts m)) = Return newBucket →
  km_inv (add_bucket key s newBucket m) ∧ findBucketId key t (add_bucket key s newBucket m) ≠ None.
Proof.
  intros Hinv Hs Hno Hsz Hrc Hfresh Hnew. apply bucket_new_ok in Hnew as [-> _].
  assert (km_inv (add_bucket key s (MkBucket (timeUuid (km_next m) t) (ps_streamId s)
    (ps_partition s) 0 0 t (bo_maxBucketSize (km_opts m)) (bo_maxBucketRecords (km_opts m))
    (bo_bucketKeepAliveSeconds (km_opts m)) (now + bo_bucketKeepAliveSeconds (km_opts m) * 1000) false) m))
    as Hinv' by (by apply add_bucket_inv).
  split; [done|]. apply findBucketId_add_new; [done..| |done].
  unfold isAlmostFull, checkSize. simpl. apply orb_false_iff. split; apply Z.leb_gt; lia.
Qed.

(** What stays true along [check_part]: the part is the same, no almost full bucket
    is dated [t], and the next uuids are new. *)
Record checking (o : BucketManagerOptions) (t : Z) (key : string) (streamId : string) (partition : Z)
    db m : Prop := {
  ck_inv : km_inv m;
  ck_opts : km_opts m = o;
  ck_part : ∃ s, km_streamParts m !! key = Some s ∧ ps_streamId s = streamId
                 ∧ ps_partition s = partition;
  ck_full : no_full_at t key m;
  ck_fresh n ts : km_next m ≤ n → km_buckets m !! timeUuid n ts = None
                  ∧ ∀ r, r ∈ db_buckets db → bk_id r ≠ timeUuid n ts
}.

Lemma checking_add o t key streamId partition db m s row b :
  checking o t key streamId partition db m → km_streamParts m !! key = Some s →
  k_streamId b = streamId → k_partition b = partition → km_buckets m !! k_id b = None →
  row ∈ db_buckets db → k_id b = bk_id row → (isAlmostFull b = true → k_dateCreate b ≠ t) →
  checking o t key streamId partition db (add_bucket key s b m).
Proof.
  intros [Hinv Ho (s0 & Hs0 & Hsid & Hpt) Hfull Hfresh] Hs Hbs Hbp Hnew Hrow Hid Hnf. simplify_eq.
  split.
  - by apply add_bucket_inv.
  - done.
  - eexists. rewrite add_bucket_part. done.
  - by apply add_bucket_no_full_at.
  - simpl. intros n ts Hn. destruct (Hfresh n ts) as [? Hr]; [lia|]. split; [|done].
    rewrite lookup_insert_ne; [done|]. rewrite Hid. by apply Hr.
Qed.

(** One query of [check_part]: either a new bucket is wanted, or the bucket the query
    found is now in memory. *)
Lemma query_last_spec now db key streamId partition s ts i o t m m' i' :
  checking o t key streamId partition db m →
  ps_streamId s = streamId → ps_partition s = partition →
  (∀ t', ts = Some t' → t' ≠ 0%Z) →
  (∀ r, r ∈ db_buckets db → in_part streamId partition r → row_full o r = true → bk_date r ≠ t) →
  query_last now db key s ts i m = (m', Return i') →
  checking o t key streamId partition db m'
  ∧ ((m' = m ∧ i' = true)
     ∨ i' = i ∧ ∃ b row s0, km_streamParts m !! key = Some s0 ∧ m' = add_bucket key s0 b m
         ∧ km_buckets m !! k_id b = None
         ∧ row ∈ db_buckets db ∧ in_part streamId partition row
         ∧ k_id b = bk_id row ∧ k_dateCreate b = bk_date row
         ∧ (∀ t', ts = Some t' → (bk_date row ≤ t')%Z)
         ∧ ∀ row', row' ∈ db_buckets db → in_part streamId partition row' →
             (∀ t', ts = Some t' → (bk_date row' ≤ t')%Z) → (bk_date row' ≤ bk_date row)%Z).
Proof.
  intros Hck Hsid Hpt Hts Hdbfull. unfold query_last.
  destruct (getLastBuckets _ _ _ _ _ _ _) as [found|] eqn:Hget; [|done].
  apply getLastBuckets_spec in Hget as [Hall Hfirst]; [|done].
  destruct (checkFoundBuckets key found i m) as [m2 i2] eqn:Hcf. intros [= <- <-].
  pose proof Hck as [Hinv Ho (s0 & Hs0 & Hsid0 & Hpt0) _ _].
  rewrite Hsid, Hpt, <-Hsid0, <-Hpt0 in Hall.
  destruct (checkFoundBuckets_spec _ _ _ _ _ _ s0 Hinv Hs0 Hall Hcf)
    as (_ & _ & [[-> ->]|(b & rest & -> & Hnew & -> & ->)]); [by auto|].
  destruct (Hfirst b rest eq_refl) as (row & Hrow & Hin & Hid & Hd & Hf & Hle & Hmax).
  rewrite Hsid, Hpt in *. apply Forall_cons in Hall as [[? ?] _].
  split; [|right; split; [done|]; eauto 15].
  eapply checking_add; eauto; [congruence..|].
  intros Hfull. rewrite Hd. apply Hdbfull; [done..|]. by rewrite <-Ho, <-Hf.
Qed.

(** The first lookup leaves either the wish for a new bucket, or a latest bucket in
    memory that has room, or one that is the latest of the database. *)
Lemma check_latest_spec now db key streamId partition s o t m m' i :
  checking o t key streamId partition db m → km_streamParts m !! key = Some s →
  ps_streamId s = streamId → ps_partition s = partition →
  (∀ r, r ∈ db_buckets db → in_part streamId partition r → row_full o r = true → bk_date r ≠ t) →
  check_latest now db key s m = (m', Return i) →
  checking o t key streamId partition db m'
  ∧ (i = true ∨ ∃ latest, getLatestInMemoryBucket key m' = Some latest ∧
      (isAlmostFull latest = false
       ∨ km_buckets m' !! k_id latest ≠ None ∧ ∃ row, row ∈ db_buckets db
           ∧ in_part streamId partition row
           ∧ k_id latest = bk_id row ∧ k_dateCreate latest = bk_date row
           ∧ ∀ row', row' ∈ db_buckets db → in_part streamId partition row' →
               (bk_date row' ≤ bk_date row)%Z)).
Proof.
  intros Hck Hs Hsid Hpt Hdb. unfold check_latest.
  pose proof (ck_inv _ _ _ _ _ _ _ Hck) as Hinv.
  destruct (kinv_key m Hinv key s Hs) as [Hkey _]. rewrite <-Hkey.
  destruct (getLatestInMemoryBucket key m) as [latest|] eqn:Hl.
  - destruct (isAlmostFull latest) eqn:Hf.
    + intros Hq. eapply query_last_spec in Hq as [Hck' Hcase]; [|done || eauto..].
      split; [done|]. left. by destruct Hcase as [[_ ->]|(-> & _)].
    + intros [= <- <-]. split; [done|]. right. eauto.
  - intros Hq. eapply query_last_spec in Hq as [Hck' Hcase]; [|done || eauto..].
    split; [done|]. destruct Hcase as [[_ ->]|(-> & b & row & s0 & Hs0 & -> & Hnew & Hrow & Hin & Hid & Hd & _ & Hmax)];
      [by left|right].
    pose proof (latest_None _ _ _ Hinv Hs Hl) as Hnil. assert (s0 = s) as -> by congruence.
    pose proof (add_bucket_part key s b m) as Hp'.
    pose proof (ck_inv _ _ _ _ _ _ _ Hck') as Hinv'.
    pose proof (heap_toArray_push (k_dateCreate b, km_next m) (ps_buckets s)) as Hperm.
    rewrite Hnil in Hperm. apply Permutation_singleton_r in Hperm.
    destruct (getLatestInMemoryBucket key (add_bucket key s b m)) as [latest|] eqn:Hl'.
    + destruct (latest_spec _ _ _ _ Hinv' Hp' Hl') as (r & rest & Harr & Hr & _).
      simpl in Harr. rewrite Hperm in Harr. injection Harr as Hdl <- _. simpl in Hr.
      rewrite lookup_insert_eq in Hr. injection Hr as <-. exists b. split; [done|]. right.
      split; [simpl; by rewrite lookup_insert_eq|]. exists row. repeat split; try done; try apply Hin.
      intros row' ? ?. by apply Hmax.
    + pose proof (latest_None _ _ _ Hinv' Hp' Hl') as Hnil'. simpl in Hnil'. congruence.
Qed.

(** A pending message finds a bucket. *)
Lemma check_part_serves now db key streamId partition s o t m m' :
  checking o t key streamId partition db m → km_streamParts m !! key = Some s →
  ps_streamId s = streamId → ps_partition s = partition → ps_minTimestamp s = Some t → t ≠ 0%Z →
  (0 < bo_maxBucketSize o)%Z → (0 < bo_maxBucketRecords o)%Z →
  (∀ r1 r2, r1 ∈ db_buckets db → r2 ∈ db_buckets db → bucket_key r1 = bucket_key r2 → r1 = r2) →
  (∀ r, r ∈ db_buckets db → in_part streamId partition r → row_full o r = true → bk_date r ≠ t) →
  check_part timeUuid now db key m = (m', Return tt) →
  km_inv m' ∧ findBucketId key t m' ≠ None.
Proof.
  intros Hck Hs Hsid Hpt Hmin Ht Hsz Hrc Huniq Hdb. unfold check_part. rewrite Hs, Hmin.
  unfold eff_bind at 1. destruct (check_latest now db key s m) as [m1 [i|]] eqn:H1; [|done].
  destruct (check_latest_spec _ _ _ _ _ _ _ _ _ _ _ Hck Hs Hsid Hpt Hdb H1) as [Hck1 Hlat].
  unfold eff_bind. destruct (check_timestamp now db key s t i m1) as [m2 [i2|]] eqn:H2; [|done].
  unfold check_timestamp in H2. destruct (kinv_key m (ck_inv _ _ _ _ _ _ _ Hck) key s Hs) as [Hkey _].
  rewrite <-Hkey in H2.
  pose proof Hck1 as [Hinv1 Ho1 (s1 & Hs1 & Hsid1 & Hpt1) Hfull1 Hfresh1].
  assert (i2 = true → checking o t key streamId partition db m2 →
    insert_bucket timeUuid now key s t m2 = (m', Return tt) →
    km_inv m' ∧ findBucketId key t m' ≠ None) as Hinsert.
  { intros _ [Hinv2 Ho2 (s2 & Hs2 & Hsid2 & Hpt2) Hfull2 Hfresh2]. unfold insert_bucket.
    rewrite Hs2. destruct (bucket_new _ _ _ _ _ _ _ _ _ _) as [nb|] eqn:Hnew; [|done].
    intros [= <-]. eapply (open_new_bucket now); rewrite ?Ho2; try done.
    - by destruct (Hfresh2 (km_next m2) t).
    - rewrite Hsid2, Hpt2, <-Hsid, <-Hpt, <-Ho2. done. }
  destruct (negb i && bool_decide (findBucketId key t m1 = None)) eqn:Hcond.
  - apply andb_true_iff in Hcond as [->%negb_true_iff Hnone%bool_decide_eq_true].
    apply (query_last_spec now db key streamId partition s (Some t) false o t) in H2
      as [Hck2 Hcase]; [|done || by intros ? [= <-]..].
    destruct Hcase as [[-> ->]|(-> & b & row & s0 & Hs0 & -> & Hnew & Hrow & Hin & Hid & Hd & Hle & Hmax)];
      [by apply Hinsert|].
    intros [= <-]. split; [apply Hck2|].
    destruct Hlat as [?|(latest & Hl & Hlatest)]; [done|].
    specialize (Hle t eq_refl). rewrite <-Hd in Hle.
    apply findBucketId_add; [apply Hck2|done|].
    intros latest' Hl' Hf'. assert (s0 = s1) as -> by congruence.
    destruct (latest_spec _ _ _ _ Hinv1 Hs1 Hl) as (r & rest & Harr & Hr & _).
    destruct (latest_spec _ _ _ _ (ck_inv _ _ _ _ _ _ _ Hck2) (add_bucket_part key _ b m1) Hl')
      as (_ & _ & _ & _ & Hmax').
    assert (k_dateCreate latest ≤ k_dateCreate latest')%Z.
    { apply (Hmax' (k_dateCreate latest, r)). simpl. rewrite heap_toArray_push, Harr. right. by left. }
    apply (findBucketId_None _ _ _ _ _ Hinv1 Hs1 Hl) in Hnone as [[Hfl Hdl]|Hall].
    + destruct Hlatest as [?|(Hknown & row1 & Hrow1 & Hin1 & Hid1 & Hd1 & Hmax1)]; [congruence|].
      exfalso. assert (row1 = row) as ->; [|congruence].
      apply Huniq; [done..|]. unfold bucket_key.
      assert (bk_date row1 ≤ bk_date row)%Z .
      { apply (Hmax row1 Hrow1 Hin1). intros ? [= <-]. lia. }
      specialize (Hmax1 row Hrow Hin). destruct Hin as [-> ->], Hin1 as [-> ->]. f_equal. lia.
    + specialize (Hall (k_dateCreate latest, r)). rewrite Harr in Hall.
      assert (t < k_dateCreate latest)%Z by (apply Hall; by left). lia.
  - injection H2 as <- <-. destruct i; simpl in Hcond.
    + intros Hi. by apply Hinsert.
    + intros [= <-]. split; [done|]. by apply bool_decide_eq_false in Hcond.
Qed.
End opening.

(** ** Buckets have names *)

Section names.
  Context {Hp : Type} `{BH : !BucketHeap Hp}.
  Context {DB : Type} `{CC : !CassandraClient DB}.
  Context (timeUuid : nat → Z → string).
  Implicit Types (m : bucket_manager Hp).

(** No bucket object has the empty id: the constructor refuses it. *)
Definition names_ok m : Prop := map_Forall (λ _ b, k_id b ≠ "") (km_objects m).

Lemma km_new_names o : names_ok (km_new o).
Proof using Type. apply map_Forall_empty. Qed.

Lemma bucket_new_named now id streamId partition size records dateCreate maxSize maxRecordCount ka b :
  bucket_new now id streamId partition size records dateCreate maxSize maxRecordCount ka = Return b → k_id b ≠ "".
Proof using Type. unfold bucket_new. repeat case_match; intros; simplify_eq. by destruct id. Qed.

Lemma getBucketId_names streamId partition timestamp m : names_ok m →
  names_ok (getBucketId streamId partition timestamp m).1
  ∧ (getBucketId streamId partition timestamp m).2 ≠ Some "".
Proof using Type.
  intros Hm. unfold getBucketId. destruct (km_streamParts m !! _) as [s|] eqn:Hs; [|done].
  destruct (findBucketId _ _ m) as [id|] eqn:Hid; [|done]. split; [done|]. cbn. intros [= ->].
  unfold findBucketId in Hid. rewrite Hs in Hid.
  destruct (getLatestInMemoryBucket _ m) as [latest|] eqn:Hl; [|done].
  assert (k_id latest ≠ "") as Hne.
  { unfold getLatestInMemoryBucket in Hl. rewrite Hs in Hl. cbn in Hl. destruct (heap_peek _) as [x|]; [|done].
    by apply (Hm x.2). }
  destruct (_ && _); [congruence|]. destruct (_ <? _)%Z; [|done].
  destruct (head _) as [x|]; [|done]. cbn in Hid. destruct (km_objects m !! x.2) as [b|] eqn:Hb; [|done].
  specialize (Hm _ _ Hb). cbn in *. congruence.
Qed.

(** A change of one object that keeps its id *)
Lemma alter_names (f : bucket → bucket) r (objects : gmap nat bucket) :
  (∀ b, k_id (f b) = k_id b) → map_Forall (λ _ b, k_id b ≠ "") objects →
  map_Forall (λ _ b, k_id b ≠ "") (alter f r objects).
Proof using Type.
  intros Hf Hm r' b. rewrite lookup_alter_Some. intros [(-> & b0 & Hb & ->)|[_ Hb]]; [rewrite Hf|]; by eapply Hm.
Qed.

Lemma incrementBucket_names now id size m : names_ok m → names_ok (incrementBucket now id size m).
Proof using Type. intros Hm. unfold incrementBucket. case_match; [|done]. by apply alter_names. Qed.

Lemma add_bucket_names key s b m : k_id b ≠ "" → names_ok m → names_ok (add_bucket key s b m).
Proof using Type. intros Hb Hm. by apply map_Forall_insert_2. Qed.

Lemma query_last_names now db key s t i m : names_ok m → names_ok (query_last now db key s t i m).1.
Proof using Type.
  intros Hm. unfold query_last. destruct (getLastBuckets _ _ _ _ _ _ _) as [found|e] eqn:Hf; [|done].
  assert (Forall (λ b, k_id b ≠ "") found) as Hnamed.
  { assert (∀ w o l, getBucketsFromDatabase now db w o l m = Return found → Forall (λ b, k_id b ≠ "") found) as Hdb.
    { intros w o l. unfold getBucketsFromDatabase. destruct (select_buckets _ _ _ _) as [rows|]; [|done]. cbn.
      intros Hmap%outcome_map_Forall2. apply Forall_forall. intros b Hb.
      apply list_elem_of_lookup in Hb as [j Hb]. destruct (Forall2_lookup_r _ _ _ _ _ Hmap Hb) as (row & _ & Hrow).
      by eapply bucket_new_named. }
    unfold getLastBuckets in Hf. repeat case_match; by eapply Hdb. }
  unfold checkFoundBuckets. destruct found as [|b found]; [done|]. apply Forall_cons in Hnamed as [Hb _].
  destruct (km_streamParts m !! key); [|done]. case_bool_decide; [by apply add_bucket_names|done].
Qed.

Lemma check_part_names now db key m : names_ok m → names_ok (check_part timeUuid now db key m).1.
Proof using Type.
  intros Hm. unfold check_part. destruct (km_streamParts m !! key) as [s|]; [|done].
  destruct (ps_minTimestamp s) as [t|]; [|done]. unfold eff_bind.
  assert (names_ok (check_latest now db key s m).1) as H1.
  { unfold check_latest. destruct (getLatestInMemoryBucket _ m); [case_match; [|done]|]; by apply query_last_names. }
  destruct (check_latest now db key s m) as [m1 [i|e]]; [|done]. cbn in H1.
  assert (names_ok (check_timestamp now db key s t i m1).1) as H2.
  { unfold check_timestamp. case_match; [by apply query_last_names|done]. }
  destruct (check_timestamp now db key s t i m1) as [m2 [i'|e]]; [|done]. cbn in H2. destruct i'; [|done].
  unfold insert_bucket. destruct (bucket_new _ _ _ _ _ _ _ _ _ _) as [b|e] eqn:Hb; [|done].
  destruct (km_streamParts m2 !! key); [|done]. apply add_bucket_names; [|done]. by eapply bucket_new_named.
Qed.

(** The rounds of the manager keep names. *)
Lemma checkFullBuckets_names now db m : names_ok m → names_ok (checkFullBuckets timeUuid now db m).1.
Proof using Type.
  intros Hm. unfold checkFullBuckets, checkFullBucketsOnce. cbn.
  generalize ((map_to_list (km_streamParts m)).*1) as keys. intros keys. revert m Hm.
  induction keys as [|key keys IH]; intros m Hm; [done|]. cbn. unfold eff_bind.
  pose proof (check_part_names now db key m Hm) as H1. destruct (check_part timeUuid now db key m) as [m1 [[]|e]]; [|done].
  by apply IH.
Qed.

Lemma removeBucket_names id streamId partition m : names_ok m → names_ok (removeBucket id streamId partition m).
Proof using Type. intros Hm. unfold removeBucket. by case_match. Qed.

Lemma store_end_names now results m : names_ok m → names_ok (store_end now results m).
Proof using Type.
  intros Hm. unfold store_end.
  assert (names_ok (foldl (store_result now) m results)) as H1.
  { revert m Hm. induction results as [|[[r records] ok] results IH]; intros m Hm; [done|]. apply IH. cbn.
    destruct ok; [|done]. destruct (km_objects m !! r); [|done]. set (m' := MkBucketManager _ _ _ _ _ _).
    assert (names_ok m') as Hm' by (apply alter_names; [intros b0; by case_match|done]).
    case_match; [by apply removeBucket_names|done]. }
  revert H1. generalize (filter (λ e : nat * bucket, isStored e.2 = true ∧ isAlive now e.2 = false)
    (live_buckets (foldl (store_result now) m results))) as l. generalize (foldl (store_result now) m results) as m1.
  intros m1 l. revert m1. induction l as [|e l IH]; intros m1 H1; [done|]. cbn. apply IH. by apply removeBucket_names.
Qed.
End names.

(** * Storing counters and forgetting buckets *)

Section storing.
  Context {Hp : Type} `{BH : !BucketHeap Hp}.
  Implicit Types (m : bucket_manager Hp) (s : part_state Hp).

Lemma live_buckets_spec m r b :
  (r, b) ∈ live_buckets m ↔ (∃ id, km_buckets m !! id = Some r) ∧ km_objects m !! r = Some b.
Proof.
  unfold live_buckets. rewrite list_elem_of_omap. split.
  - intros ([id r'] & Hin & Hb). apply elem_of_map_to_list in Hin. simpl in Hb.
    destruct (km_objects m !! r') eqn:?; simplify_eq/=. eauto.
  - intros [[id Hid] Hb]. exists (id, r). rewrite elem_of_map_to_list. simpl. by rewrite Hb.
Qed.

Lemma known_object m id r :
  km_inv m → km_buckets m !! id = Some r → ∃ b, km_objects m !! r = Some b ∧ k_id b = id.
Proof. intros Hinv Hr. destruct (kinv_bucket m Hinv id r Hr) as (b & ? & ? & _). eauto. Qed.

Lemma remove_known m r b :
  km_inv m → km_buckets m !! k_id b = Some r → km_objects m !! r = Some b →
  let m' := removeBucket (k_id b) (k_streamId b) (k_partition b) m in
  km_inv m' ∧ km_objects m' = km_objects m ∧ km_buckets m' = base.delete (k_id b) (km_buckets m).
Proof.
  intros Hinv Hr Hb.
  assert (∀ r0 b0, km_buckets m !! k_id b = Some r0 → km_objects m !! r0 = Some b0 →
    k_streamId b0 = k_streamId b ∧ k_partition b0 = k_partition b) as Hid
    by (intros; by simplify_eq).
  destruct (removeBucket_spec _ _ _ m Hinv Hid) as (? & _ & ? & _).
  split; [by apply removeBucket_inv|done].
Qed.

Definition mark (n : Z) (b : bucket) : bucket := if (k_records b =? n)%Z then setStored b else b.

Lemma mark_identity n b : same_identity b (mark n b) ∧ k_records (mark n b) = k_records b
  ∧ k_ttl (mark n b) = k_ttl b.
Proof. unfold mark. by destruct (k_records b =? n)%Z. Qed.

(** One result: its bucket is marked as stored when the count is still the same, and
    forgotten when it is stored and its time is up. *)
Lemma store_result_spec now m r n id :
  km_inv m → km_buckets m !! id = Some r →
  let m' := store_result now m (r, n, true) in
  km_inv m' ∧ ∃ b, km_objects m !! r = Some b ∧ k_id b = id
  ∧ km_objects m' = alter (mark n) r (km_objects m)
  ∧ km_buckets m' = if negb (isAlive now b) && isStored (mark n b)
                    then base.delete id (km_buckets m) else km_buckets m.
Proof.
  intros Hinv Hr. destruct (known_object m id r Hinv Hr) as (b & Hb & Hid).
  unfold store_result. rewrite Hb. fold (mark n b).
  assert (∀ b, same_identity b (mark n b)) as Hmark by (intros; apply mark_identity).
  pose proof (km_inv_update_object m r (mark n) Hmark Hinv) as Hinv1.
  destruct (Hmark b) as (Hid1 & _). destruct (mark_identity n b) as (_ & _ & Httl).
  assert (isAlive now (mark n b) = isAlive now b) as Hal by (unfold isAlive; by rewrite Httl).
  cbv zeta. fold (mark n b). rewrite Hal.
  match goal with |- context [alter ?f r (km_objects m)] => change f with (mark n) end.
  destruct (negb (isAlive now b) && isStored (mark n b)) eqn:Hrm.
  - match goal with |- context [removeBucket _ _ _ ?m1] => set (m1' := m1) in * end.
    destruct (remove_known m1' r (mark n b) Hinv1) as (? & ? & Hbk).
    { rewrite Hid1, Hid. done. }
    { subst m1'. simpl. by rewrite lookup_alter_eq, Hb. }
    split; [done|]. exists b. rewrite Hrm, <-Hid, <-Hid1. done.
  - split; [done|]. exists b. by rewrite Hrm.
Qed.

Lemma remove_all l m :
  km_inv m → NoDup l.*1 →
  (∀ r b, (r, b) ∈ l → km_objects m !! r = Some b ∧ km_buckets m !! k_id b = Some r) →
  let m' := foldl (λ m e, removeBucket (k_id e.2) (k_streamId e.2) (k_partition e.2) m) m l in
  km_inv m' ∧ km_objects m' = km_objects m
  ∧ ∀ id r, km_buckets m !! id = Some r → r ∉ l.*1 → km_buckets m' !! id = Some r.
Proof.
  revert m. induction l as [|[r b] l IH]; intros m Hinv Hnd Hl; simpl; [done|].
  apply NoDup_cons in Hnd as [Hnin Hnd]. simpl in Hnin.
  destruct (Hl r b) as [Hb Hr]; [by left|].
  destruct (remove_known m r b Hinv Hr Hb) as (Hinv1 & Hobj & Hbk).
  destruct (IH (removeBucket (k_id b) (k_streamId b) (k_partition b) m)) as (? & Hobj' & Hkeep); [done..| |].
  - intros r' b' Hin'. destruct (Hl r' b') as [? ?]; [by right|]. rewrite Hobj. split; [done|].
    rewrite Hbk, lookup_delete_ne; [done|]. intros Heq. rewrite Heq in Hr. simplify_eq.
    apply Hnin. by apply (list_elem_of_fmap_2 fst) in Hin'.
  - split; [done|]. split; [congruence|]. intros id r0 Hr0 [Hne Hnin0]%not_elem_of_cons.
    apply Hkeep; [|done]. rewrite Hbk, lookup_delete_ne; [done|]. intros <-. congruence.
Qed.

(** What a round of results leaves of the bucket [id]: known as before, or forgotten
    because it is stored and its time is up; it is marked as stored only by an update
    that carried its record count. *)
Definition fate (results : list (nat * Z * bool)) (now : Z) (id : string) (r : nat) (b : bucket) m : Prop :=
  ∃ b', km_objects m !! r = Some b' ∧ same_identity b b' ∧ k_records b' = k_records b
  ∧ k_ttl b' = k_ttl b
  ∧ (isStored b' = true → isStored b = true ∨ (r, k_records b, true) ∈ results)
  ∧ (km_buckets m !! id = Some r
     ∨ isAlive now b = false ∧ (isStored b = true ∨ (r, k_records b, true) ∈ results)).

Lemma store_results_fate now results all m id r b :
  km_inv m → NoDup (results.*1).*1 → (∀ e, e ∈ results → e ∈ all) →
  (∀ r' n f, (r', n, f) ∈ results → ∃ id', km_buckets m !! id' = Some r') →
  k_id b = id → fate all now id r b m →
  km_inv (foldl (store_result now) m results) ∧ fate all now id r b (foldl (store_result now) m results).
Proof.
  revert m. induction results as [|[[r0 n] f] results IH]; intros m Hinv Hnd Hall Href Hid Hfate;
    cbn [foldl]; [done|].
  apply NoDup_cons in Hnd as [Hnin Hnd]. simpl in Hnin.
  destruct f; [|apply IH; [done..|set_solver|intros; eapply Href; by right|done|done]].
  destruct (Href r0 n true) as [id0 Hr0]; [by left|].
  destruct (store_result_spec now m r0 n id0 Hinv Hr0) as (Hinv1 & b0 & Hb0 & Hid0 & Hobj & Hbk).
  assert (∀ id' r', r' ≠ r0 → km_buckets m !! id' = Some r' →
    km_buckets (store_result now m (r0, n, true)) !! id' = Some r') as Hkeep.
  { intros id' r' Hne Hr'. rewrite Hbk. case_match; [|done].
    rewrite lookup_delete_ne; [done|]. intros <-. congruence. }
  apply IH; [done..|set_solver| |done|].
  - intros r' n' f' Hin'. destruct (Href r' n' f') as [id' Hr']; [by right|]. exists id'.
    apply Hkeep; [|done]. intros ->. apply Hnin.
    apply (list_elem_of_fmap_2 fst) in Hin'. by apply (list_elem_of_fmap_2 fst) in Hin'.
  - destruct Hfate as (b' & Hb' & Hsame & Hrec & Httl & Hst & Hcase).
    destruct (decide (r = r0)) as [->|Hne].
    + rewrite Hb0 in Hb'. injection Hb' as ->. exists (mark n b').
      destruct (mark_identity n b') as (Hs1 & Hr1 & Ht1).
      assert (isStored (mark n b') = true → isStored b = true ∨ (r0, k_records b, true) ∈ all) as Hst'.
      { unfold mark. destruct (k_records b' =? n)%Z eqn:Hn; [|done]. intros _. right.
        apply Z.eqb_eq in Hn. rewrite <-Hrec, Hn. apply Hall. by left. }
      rewrite Hobj, lookup_alter_eq, Hb0. split; [done|].
      split. { destruct Hsame as (?&?&?&?), Hs1 as (?&?&?&?). repeat split; congruence. }
      split; [congruence|]. split; [congruence|]. split; [done|].
      destruct Hcase as [Hk|?]; [|by right]. rewrite Hbk.
      destruct (negb (isAlive now b') && isStored (mark n b')) eqn:Hrm; [|by left].
      right. apply andb_true_iff in Hrm as [Hal%negb_true_iff Hs]. split; [|by apply Hst'].
      unfold isAlive in *. by rewrite <-Httl.
    + exists b'. rewrite Hobj, lookup_alter_ne by done. do 5 (split; [done|]).
      destruct Hcase as [Hk|?]; [left; by apply Hkeep|by right].
Qed.

Lemma live_buckets_NoDup m : km_inv m → NoDup (live_buckets m).*1.
Proof.
  intros Hinv. unfold live_buckets.
  pose proof (NoDup_fst_map_to_list (km_buckets m)) as Hnd.
  assert (∀ e, e ∈ map_to_list (km_buckets m) → km_buckets m !! e.1 = Some e.2) as Hall.
  { intros [k v]. by rewrite elem_of_map_to_list. }
  revert Hnd Hall. generalize (map_to_list (km_buckets m)) as l.
  induction l as [|[id r] l IH]; simpl; intros Hnd Hall; [constructor|].
  apply NoDup_cons in Hnd as [Hnin Hnd].
  assert (NoDup (omap (λ e, b ← km_objects m !! e.2; Some (e.2, b)) l).*1) as IH'
    by (apply IH; [done|intros; apply Hall; by right]).
  destruct (km_objects m !! r) as [b|] eqn:Hb; simpl; [|done]. apply NoDup_cons. split; [|done].
  intros ([r' b'] & Heq & Hin)%list_elem_of_fmap. simpl in Heq. subst r'.
  apply list_elem_of_omap in Hin as ([id' r'] & Hin' & Hb'). simpl in *.
  destruct (km_objects m !! r') eqn:Ho; simplify_eq/=. apply Hnin.
  assert (km_buckets m !! id' = Some r) as H1 by (apply (Hall (id', r)); by right).
  assert (km_buckets m !! id = Some r) as H2 by (apply (Hall (id, r)); by left).
  destruct (known_object m _ _ Hinv H1) as (? & ? & ?), (known_object m _ _ Hinv H2) as (? & ? & ?).
  simplify_eq. by apply (list_elem_of_fmap_2 fst) in Hin'.
Qed.

(** The results of one round refer to different buckets that are in memory. *)
Definition results_ok m (results : list (nat * Z * bool)) : Prop :=
  NoDup (results.*1).*1 ∧ ∀ r n f, (r, n, f) ∈ results → ∃ id, km_buckets m !! id = Some r.

Lemma store_end_fate now results m id r b :
  km_inv m → results_ok m results → km_buckets m !! id = Some r → km_objects m !! r = Some b →
  km_inv (store_end now results m) ∧ fate results now id r b (store_end now results m).
Proof.
  intros Hinv [Hnd Href] Hr Hb.
  assert (k_id b = id) as Hid by (destruct (known_object m _ _ Hinv Hr) as (? & ? & ?); congruence).
  destruct (store_results_fate now results results m id r b) as [Hinv1 Hfate]; try done.
  { exists b. repeat split; auto. }
  unfold store_end. set (m1 := foldl (store_result now) m results) in *.
  set (l := filter _ (live_buckets m1)).
  assert (∀ r0 b0, (r0, b0) ∈ l → (isStored b0 = true ∧ isAlive now b0 = false) ∧
    km_objects m1 !! r0 = Some b0 ∧ km_buckets m1 !! k_id b0 = Some r0) as Hl.
  { intros r0 b0 [Hcond [[id0 Hid0] Hb0]%live_buckets_spec]%list_elem_of_filter. split; [done|].
    destruct (known_object m1 _ _ Hinv1 Hid0) as (? & ? & <-). by simplify_eq. }
  destruct (remove_all l m1 Hinv1) as (Hinv2 & Hobj & Hkeep).
  { apply NoDup_fmap_filter. by apply live_buckets_NoDup. }
  { intros r0 b0 Hin. by apply Hl. }
  split; [done|]. destruct Hfate as (b' & Hb' & Hsame & Hrec & Httl & Hst & Hcase).
  exists b'. rewrite Hobj. do 5 (split; [done|]).
  destruct Hcase as [Hk|?]; [|by right].
  destruct (decide (r ∈ l.*1)) as [([r0 b0] & -> & Hin)%list_elem_of_fmap|Hnin]; [|left; auto].
  destruct (Hl _ _ Hin) as ((Hs & Ha) & Hb0 & _). simpl in *. simplify_eq. right.
  split; [|by apply Hst]. unfold isAlive in *. by rewrite <-Httl.
Qed.
End storing.

(** * Properties *)

Section properties.
  Context {Hp : Type} `{BH : !BucketHeap Hp}.
  Context {DB : Type} `{CC : !CassandraClient DB}.
  Context (timeUuid : nat → Z → string).
  Implicit Types (m : bucket_manager Hp) (db : DB).

(** What the storage does with the manager between two rounds of bucket creation. *)
Inductive manager_event :=
  | Lookup (streamId : string) (partition timestamp : Z)
  | Wrote (now : Z) (bucketId : string) (size : Z)
  | UpdatesAnswered (now : Z) (results : list (nat * Z * bool)).

Definition event_ok m (ev : manager_event) : Prop :=
  match ev with
  | Lookup _ partition _ => (0 ≤ partition)%Z
  | Wrote _ _ _ => True
  | UpdatesAnswered _ results => results_ok m results
  end.
Definition manager_step m (ev : manager_event) : bucket_manager Hp :=
  match ev with
  | Lookup streamId partition t => (getBucketId streamId partition t m).1
  | Wrote now id size => incrementBucket now id size m
  | UpdatesAnswered now results => store_end now results m
  end.

Lemma incrementBucket_inv now id size m : km_inv m → km_inv (incrementBucket now id size m).
Proof.
  intros Hinv. unfold incrementBucket. destruct (km_buckets m !! id); [|done].
  by apply km_inv_update_object.
Qed.

Lemma store_end_nothing now results m :
  km_inv m → results_ok m results → km_inv (store_end now results m).
Proof.
  intros Hinv Hok. destruct (decide (km_buckets m = ∅)) as [Hemp|Hne].
  - destruct results as [|[[r n] f] results].
    + unfold store_end, live_buckets. simpl. by rewrite Hemp, map_to_list_empty.
    + destruct Hok as [_ Href]. destruct (Href r n f) as [id Hid]; [by left|].
      by rewrite Hemp, lookup_empty in Hid.
  - apply map_choose in Hne as (id & r & Hr). destruct (known_object m id r Hinv Hr) as (b & Hb & _).
    by destruct (store_end_fate now results m id r b).
Qed.

(** The two views of the buckets agree at all times: every bucket of a part's
    heap is registered in the table under its id and belongs to that part, every
    bucket of the table is in the heap of its part, and no heap lists one twice;
    every operation keeps it so. *)
Theorem manager_invariant_kept m ev : km_inv m → event_ok m ev → km_inv (manager_step m ev).
Proof.
  intros Hinv Hok. destruct ev; simpl in *.
  - by apply getBucketId_inv.
  - by apply incrementBucket_inv.
  - by apply store_end_nothing.
Qed.

(** The bucket a message is written to is one of its own stream part that
    starts at or before it; when it is the latest of the part it is not almost full,
    and otherwise the latest starts after the message.  When there is none, the part
    remembers a timestamp at or before the message for the next bucket. *)
Theorem getBucketId_correct m streamId partition t m' res :
  km_inv m → (0 ≤ partition)%Z → getBucketId streamId partition t m = (m', res) →
  match res with
  | Some id => m' = m ∧ ∃ r b, km_buckets m !! id = Some r ∧ km_objects m !! r = Some b
      ∧ k_id b = id ∧ k_streamId b = streamId ∧ k_partition b = partition
      ∧ (k_dateCreate b ≤ t)%Z
      ∧ (isAlmostFull b = false ∨ ∃ latest, getLatestInMemoryBucket (toKey streamId partition) m
           = Some latest ∧ (t < k_dateCreate latest)%Z)
  | None => ∃ s mt, km_streamParts m' !! toKey streamId partition = Some s
      ∧ ps_streamId s = streamId ∧ ps_partition s = partition
      ∧ ps_minTimestamp s = Some mt ∧ (mt ≤ t)%Z
  end.
Proof.
  intros Hinv Hpos. unfold getBucketId.
  destruct (km_streamParts m !! toKey streamId partition) as [s|] eqn:Hs.
  - destruct (kinv_key m Hinv _ s Hs) as [Hkey Hpos'].
    apply toKey_inj in Hkey as [Hsid Hpid]; [|done..].
    destruct (findBucketId _ t m) as [id|] eqn:Hf; intros [= <- <-].
    + destruct (findBucketId_Some m _ s t id Hinv Hs Hf)
        as (r & b & latest & ? & ? & ? & _ & ? & ? & ? & Hl & Hcase).
      split; [done|]. exists r, b. repeat split; try congruence.
      destruct Hcase as [[-> ?]|?]; [by left|right; eauto].
    + do 2 eexists. simpl. rewrite lookup_insert_eq. repeat split; [done..|].
      destruct (ps_minTimestamp s); lia.
  - intros [= <- <-]. do 2 eexists. simpl. rewrite lookup_insert_eq. repeat split. lia.
Qed.

(** A pending message does not wait for ever: one successful round of
    [checkFullBucketsOnce] over its part leaves a bucket for the earliest pending
    timestamp, whether in memory, in the database or new. *)
Theorem check_part_serves_pending now db key streamId partition s o t m m' :
  checking timeUuid o t key streamId partition db m → km_streamParts m !! key = Some s →
  ps_streamId s = streamId → ps_partition s = partition → ps_minTimestamp s = Some t → t ≠ 0%Z →
  (0 < bo_maxBucketSize o)%Z → (0 < bo_maxBucketRecords o)%Z →
  (∀ r1 r2, r1 ∈ db_buckets db → r2 ∈ db_buckets db → bucket_key r1 = bucket_key r2 → r1 = r2) →
  (∀ r, r ∈ db_buckets db → in_part streamId partition r → row_full o r = true → bk_date r ≠ t) →
  check_part timeUuid now db key m = (m', Return tt) →
  km_inv m' ∧ findBucketId key t m' ≠ None.
Proof. apply check_part_serves. Qed.

(** No count is lost when a bucket is forgotten: a round of [storeBucketsOnce],
    whatever its updates answered, either keeps a bucket in memory or its time was up
    and its present record count was stored before or by an update of this round. *)
Theorem forgotten_bucket_was_stored now results m id r b :
  km_inv m → results_ok m results → km_buckets m !! id = Some r → km_objects m !! r = Some b →
  km_buckets (store_end now results m) !! id = Some r
  ∨ isAlive now b = false ∧ (isStored b = true ∨ (r, k_records b, true) ∈ results).
Proof.
  intros Hinv Hok Hr Hb. by destruct (store_end_fate now results m id r b Hinv Hok Hr Hb)
    as [_ (b' & _ & _ & _ & _ & _ & ?)].
Qed.

(** [findBucketId] takes the first bucket of the heap's array that starts at or
    before a late message, and the array is sorted only at its root: with three
    buckets listed [d3; d1; d2], d1 < d2, a message of the time of the second goes to
    the first. *)
Theorem late_message_bucket_unsorted m key s t d1 d2 d3 r1 r2 r3 b1 :
  km_inv m → km_streamParts m !! key = Some s →
  heap_toArray (ps_buckets s) = [(d3, r3); (d1, r1); (d2, r2)] →
  (d1 < d2)%Z → (d2 ≤ t)%Z → (t < d3)%Z → km_objects m !! r1 = Some b1 →
  findBucketId key t m = Some (k_id b1).
Proof.
  intros Hinv Hs Harr H12 H2 H3 Hb1. unfold findBucketId. rewrite Hs.
  destruct (kinv_entry m Hinv key s (d3, r3) Hs) as (b3 & Hb3 & Hd3 & _); [rewrite Harr; by left|].
  unfold getLatestInMemoryBucket. rewrite Hs. simpl. rewrite heap_peek_head, Harr. simpl in *.
  rewrite Hb3, Hd3, (proj2 (Z.leb_gt _ _)), andb_false_r, (proj2 (Z.ltb_lt _ _)) by done.
  rewrite filter_cons_True by (simpl; lia). simpl. by rewrite Hb1.
Qed.

(** A read of the time range [from, to] looks in every bucket of the part that
    starts inside the range, in the latest one that starts at or before [from], and in
    no other. *)
Lemma getBucketsByTimestamp_spec now db streamId partition from to m bs :
  getBucketsByTimestamp now db streamId partition (Some from) (Some to) m = Return bs →
  (∀ b, b ∈ bs → ∃ row, row ∈ db_buckets db ∧ in_part streamId partition row
     ∧ k_id b = bk_id row ∧ k_dateCreate b = bk_date row
     ∧ ((from < bk_date row ≤ to)%Z
        ∨ (bk_date row ≤ from)%Z ∧ ∀ row', row' ∈ db_buckets db → in_part streamId partition row' →
            (bk_date row' ≤ from)%Z → (bk_date row' ≤ bk_date row)%Z))
  ∧ (∀ row, row ∈ db_buckets db → in_part streamId partition row → (from < bk_date row ≤ to)%Z →
       ∃ b, b ∈ bs ∧ k_id b = bk_id row)
  ∧ ((∃ row, row ∈ db_buckets db ∧ in_part streamId partition row ∧ (bk_date row ≤ from)%Z) →
       ∃ b, b ∈ bs ∧ (k_dateCreate b ≤ from)%Z).
Proof.
  unfold getBucketsByTimestamp. intros Hget.
  destruct (getBucketsFromDatabase now db (BucketWhere streamId partition [CLe from]) _ _ m)
    as [first|] eqn:Hfirst; [|done]. simpl in Hget.
  destruct (getBucketsFromDatabase now db (BucketWhere streamId partition [CGt from; CLe to]) _ _ m)
    as [rest|] eqn:Hrest; simplify_eq/=.
  apply getBucketsFromDatabase_spec in Hfirst as (frows & Hfsel & Hfall).
  apply getBucketsFromDatabase_spec in Hrest as (rrows & Hrsel & Hrall).
  assert (∀ r, bucket_matches (BucketWhere streamId partition [CLe from]) r = true ↔
    in_part streamId partition r ∧ (bk_date r ≤ from)%Z) as Hmf.
  { intros r. rewrite bucket_matches_spec. simpl. rewrite Forall_singleton. simpl.
    rewrite Z.leb_le. unfold in_part. tauto. }
  assert (∀ r, bucket_matches (BucketWhere streamId partition [CGt from; CLe to]) r = true ↔
    in_part streamId partition r ∧ (from < bk_date r ≤ to)%Z) as Hmr.
  { intros r. rewrite bucket_matches_spec. simpl. rewrite Forall_cons, Forall_singleton. simpl.
    rewrite Z.leb_le, Z.ltb_lt. unfold in_part. tauto. }
  split; [|split].
  - intros b [Hb|Hb]%elem_of_app; apply list_elem_of_lookup in Hb as [i Hi].
    + destruct (Forall2_lookup_r _ _ _ _ _ Hrall Hi) as (row & Hrow & (? & _ & _ & ? & _)).
      apply list_elem_of_lookup_2 in Hrow.
      destruct (selects_elem _ _ _ _ _ _ Hrsel Hrow) as [? [? ?]%Hmr]. exists row. auto 10.
    + destruct (Forall2_lookup_r _ _ _ _ _ Hfall Hi) as (row & Hrow & (? & _ & _ & ? & _)).
      apply list_elem_of_lookup_2 in Hrow as Hin.
      destruct (selects_elem _ _ _ _ _ _ Hfsel Hin) as [? [? ?]%Hmf]. exists row.
      do 4 (split; [done|]). right. split; [done|]. intros row' Hin' Hpart' Hd'.
      destruct frows as [|row0 frows]; [done|].
      assert (row = row0) as ->.
      { destruct Hfsel as (all & Hall & _). destruct all as [|x [|y all]]; simpl in Hall;
          destruct i; simplify_eq/=; done. }
      destruct (selects_first _ _ _ _ _ _ row' Hfsel Hin') as [->|?]; [by apply Hmf|lia|done].
  - intros row Hrow Hpart Hd.
    assert (row ∈ rrows) as Hin by (apply (selects_complete _ _ _ _ row Hrsel); by rewrite Hmr).
    apply list_elem_of_lookup in Hin as [i Hi].
    destruct (Forall2_lookup_l _ _ _ _ _ Hrall Hi) as (b & Hb & (? & _)).
    exists b. split; [|done]. apply elem_of_app. left. by eapply list_elem_of_lookup_2.
  - intros (row & Hrow & Hpart & Hd). destruct Hfsel as (all & -> & Hperm & _).
    assert (row ∈ all) as Hin by (rewrite Hperm, elem_of_elements, elem_of_filter, Hmf; done).
    destruct all as [|row0 all]; [by apply not_elem_of_nil in Hin|]. simpl in Hfall.
    apply Forall2_cons_inv_l in Hfall as (b & ? & (_ & _ & _ & Hdb & _) & _ & ->).
    exists b. split; [apply elem_of_app; right; by left|].
    assert (row0 ∈ elements (filter (λ r, bucket_matches (BucketWhere streamId partition [CLe from]) r
      = true) (db_buckets db))) as [[_ ?]%Hmf _]%elem_of_elements%elem_of_filter
      by (rewrite <-Hperm; by left). lia.
Qed.
End properties.

(** * Witnesses *)

Module BucketWitness.
(** A heap given by its insertions, that lists the root and then the others in the
    order of insertion. *)
Fixpoint split_max (x : Z * nat) (l : list (Z * nat)) : (Z * nat) * list (Z * nat) :=
  match l with
  | [] => (x, [])
  | y :: l' => if (y.1 <=? x.1)%Z then let '(r, rest) := split_max x l' in (r, y :: rest)
               else let '(r, rest) := split_max y l' in (r, x :: rest)
  end.
Definition to_array (l : list (Z * nat)) : list (Z * nat) :=
  match l with [] => [] | x :: l' => let '(r, rest) := split_max x l' in r :: rest end.

Lemma split_max_perm l x : (split_max x l).1 :: (split_max x l).2 ≡ₚ x :: l.
Proof.
  revert x. induction l as [|y l IH]; intros x; simpl; [done|].
  destruct (y.1 <=? x.1)%Z.
  - specialize (IH x). destruct (split_max x l). simpl in *. rewrite perm_swap, IH. apply perm_swap.
  - specialize (IH y). destruct (split_max y l). simpl in *. by rewrite perm_swap, IH.
Qed.

Lemma split_max_max l x y : y ∈ x :: l → (y.1 ≤ (split_max x l).1.1)%Z.
Proof.
  revert x y. induction l as [|z l IH]; intros x y Hy; simpl.
  { apply list_elem_of_singleton in Hy as ->. done. }
  destruct (z.1 <=? x.1)%Z eqn:Hle; [apply Z.leb_le in Hle|apply Z.leb_gt in Hle].
  - assert (∀ y, y ∈ x :: l → (y.1 ≤ (split_max x l).1.1)%Z) as IH' by (intros; by apply IH).
    destruct (split_max x l). simpl in *.
    apply elem_of_cons in Hy as [->|[->|Hy]%elem_of_cons]; [apply IH'; by left| |apply IH'; by right].
    specialize (IH' x (list_elem_of_here _ _)). lia.
  - assert (∀ y, y ∈ z :: l → (y.1 ≤ (split_max z l).1.1)%Z) as IH' by (intros; by apply IH).
    destruct (split_max z l). simpl in *.
    apply elem_of_cons in Hy as [->|[->|Hy]%elem_of_cons]; [|apply IH'; by left|apply IH'; by right].
    specialize (IH' z (list_elem_of_here _ _)). lia.
Qed.

Lemma to_array_perm l : to_array l ≡ₚ l.
Proof.
  destruct l as [|x l]; simpl; [done|]. pose proof (split_max_perm l x).
  by destruct (split_max x l).
Qed.

#[export] Program Instance list_heap : BucketHeap (list (Z * nat)) := {|
  heap_empty := []; heap_push x h := h ++ [x]; heap_peek h := head (to_array h);
  heap_toArray := to_array
|}.
Next Obligation. done. Qed.
Next Obligation.
  intros x h. simpl. rewrite !to_array_perm. by rewrite Permutation_app_comm.
Qed.
Next Obligation. done. Qed.
Next Obligation.
  intros h x y Hx Hy. simpl in *. rewrite to_array_perm in Hy. destruct h as [|z h]; [done|].
  pose proof (split_max_max h z y Hy) as Hle. simpl in Hx. destruct (split_max z h).
  by simplify_eq/=.
Qed.

Definition uuid (n : nat) (_ : Z) : string := "uuid" +:+ pretty n.
Definition key : string := toKey "s" 0.
Definition manager0 : bucket_manager (list (Z * nat)) := km_new default_bucket_options.
(** A message dated 100 waits for a bucket. *)
Definition manager1 : bucket_manager (list (Z * nat)) := (getBucketId "s" 0 100 manager0).1.
Definition part1 : part_state (list (Z * nat)) := MkPartState "s" 0 [] (Some 100%Z).
(** The database knows a bucket that is almost full. *)
Definition db1 : mem_db := MemDb {[ BucketRow "s" 0 50 "old" 400000 0 ]} ∅.
Definition manager2 : bucket_manager (list (Z * nat)) := (check_part uuid 0 db1 key manager1).1.

Lemma manager1_inv : km_inv manager1.
Proof. apply getBucketId_inv; [apply km_new_inv|done]. Qed.

Lemma check_part_serves_pending_witness : km_inv manager2 ∧ findBucketId key 100 manager2 ≠ None.
Proof.
  apply (check_part_serves_pending uuid 0 db1 key "s" 0 part1 default_bucket_options 100 manager1
    manager2); try reflexivity; try done.
  - split; [exact manager1_inv|reflexivity|exists part1; done| |].
    + intros s x b Hs Hx. vm_compute in Hs. injection Hs as <-. by apply not_elem_of_nil in Hx.
    + intros n ts _. split; [reflexivity|]. simpl. by intros r ->%elem_of_singleton.
  - intros r1 r2. simpl. by intros ->%elem_of_singleton ->%elem_of_singleton.
  - simpl. by intros r ->%elem_of_singleton.
Defined.

Definition bucket_at (id : string) (t : Z) : bucket := MkBucket id "s" 0 0 0 t 100 100 60 60000 true.
Definition add (b : bucket) (m : bucket_manager (list (Z * nat))) : bucket_manager (list (Z * nat)) :=
  match km_streamParts m !! key with Some s => add_bucket key s b m | None => m end.
(** Three buckets opened in the order of time. *)
Definition manager3 : bucket_manager (list (Z * nat)) :=
  add (bucket_at "c" 30) (add (bucket_at "b" 20) (add (bucket_at "a" 10) manager1)).

Lemma manager3_inv : km_inv manager3.
Proof.
  unfold manager3, add.
  repeat (case_match; [eapply add_bucket_inv; [|eassumption|..]|]); try exact manager1_inv;
    repeat match goal with H : _ !! key = Some _ |- _ => vm_compute in H; injection H as <- end;
    reflexivity.
Qed.

Lemma late_message_bucket_unsorted_witness : findBucketId key 25 manager3 = Some "a".
Proof.
  apply (late_message_bucket_unsorted manager3 key
    (default part1 (km_streamParts manager3 !! key)) 25 10 20 30 0 1 2 (bucket_at "a" 10));
    [exact manager3_inv|reflexivity|reflexivity|lia|lia|lia|reflexivity].
Defined.

Lemma getBucketId_correct_witness :
  ∃ r b, km_buckets manager3 !! "c" = Some r ∧ km_objects manager3 !! r = Some b
         ∧ k_streamId b = "s" ∧ (k_dateCreate b ≤ 40)%Z.
Proof.
  destruct (getBucketId_correct manager3 "s" 0 40 manager3 (Some "c")) as [_ (r & b & ? & ? & _ & ? & _ & ? & _)];
    [exact manager3_inv|done|vm_compute; reflexivity|eauto 10].
Defined.

Lemma manager_invariant_kept_witness : km_inv (store_end 100000 [(1, 0%Z, true)] manager3).
Proof.
  apply (manager_invariant_kept manager3 (UpdatesAnswered 100000 [(1, 0%Z, true)]));
    [exact manager3_inv|]. simpl. split; [repeat constructor; apply not_elem_of_nil|].
  intros r n f [= -> -> ->]%list_elem_of_singleton. exists "b". reflexivity.
Defined.

Lemma forgotten_bucket_was_stored_witness :
  km_buckets (store_end 100000 [(1, 0%Z, true)] manager3) !! "b" = Some 1
  ∨ isAlive 100000 (bucket_at "b" 20) = false
    ∧ (isStored (bucket_at "b" 20) = true ∨ (1, 0%Z, true) ∈ [(1, 0%Z, true)]).
Proof.
  apply (forgotten_bucket_was_stored 100000 [(1, 0%Z, true)] manager3 "b" 1 (bucket_at "b" 20));
    [exact manager3_inv| |reflexivity..].
  split; [repeat constructor; apply not_elem_of_nil|].
  intros r n f [= -> -> ->]%list_elem_of_singleton. exists "b". reflexivity.
Defined.
End BucketWitness.
