(* ===== verification/Storage.v ===== *)
(** The storage (packages/node/src/plugins/storage/Storage.ts): storing a message
    through the bucket and batch managers, and the queries over stored rows. *)

From S2P Require Import Prelude.
From S2P Require Import TtlMap.
From S2P Require Import Cassandra.
From S2P Require Import Batch.
From S2P Require Import Bucket.

Set Default Proof Using "Type".

Definition MAX_TIMESTAMP_VALUE : Z := 8640000000000000.
Definition MAX_RESEND_LAST : Z := 10000.
Definition BUCKET_LOOKBACK_MS : Z := 10 * 60 * 1000.
(** of dataQueryEndpoint.ts *)
Definition MIN_SEQUENCE_NUMBER_VALUE : Z := 0.
Definition MAX_SEQUENCE_NUMBER_VALUE : Z := 2147483647.

(** What the storage reads of a [StreamMessage]; [sm_bytes] is
    [convertStreamMessageToBytes] of the message. *)
Record stream_message := StreamMessage {
  sm_streamId : string; sm_partition : Z; sm_timestamp : Z; sm_sequenceNo : Z;
  sm_publisherId : string; sm_msgChainId : string; sm_bytes : string
}.

(** [StoredMessage] and [StoredRow] of StoredMessage.ts *)
Record StoredMessage := MkStoredMessage { s_payload : string; s_storedAt : option Z }.
Record StoredRow := MkStoredRow {
  sr_bucketId : string; sr_timestamp : Z; sr_sequenceNo : Z; sr_publisherId : string;
  sr_msgChainId : string; sr_payload : option string; sr_storedAt : option Z
}.
Record StoredRowKey := MkStoredRowKey { rk_timestamp : Z; rk_sequenceNo : Z; rk_publisherId : string }.

Section storage.
  Context {Hp : Type} `{BH : !BucketHeap Hp}.
  Context {DB : Type} `{CC : !CassandraClient DB}.

(** * Writing *)

(** The state of a [Storage]: its managers, the pending stores with the time of their
    retry, and the [setImmediate] callbacks that will hand a record to a batch.  A call
    of [store] is named by a number; its promise resolves when that number is called. *)
Record storage := MkStorage {
  st_retryInterval : Z;
  st_bucketManager : bucket_manager Hp;
  st_batchManager : batch_manager;
  st_pendingStores : gmap nat (Z * stream_message * Z);
  st_immediates : list (string * InsertRecord * nat)
}.

Definition storage_new (opts : BucketManagerOptions) (useTtl : bool) : storage :=
  MkStorage 500 (km_new opts) (bm_new (default_batch_options useTtl)) ∅ [].

Definition to_record (msg : stream_message) (storedAt : Z) : InsertRecord :=
  MkInsertRecord (sm_streamId msg) (sm_partition msg) (sm_timestamp msg) (sm_sequenceNo msg)
    (sm_publisherId msg) (sm_msgChainId msg) (sm_bytes msg) storedAt.

(** [store], the call [call] of it *)
Definition store (now : Z) (call : nat) (msg : stream_message) (storedAt : Z) (st : storage) : storage :=
  let '(bkm, bucketId) := getBucketId (sm_streamId msg) (sm_partition msg) (sm_timestamp msg)
                            (st_bucketManager st) in
  match bucketId with
  | Some id =>
      let record := to_record msg storedAt in
      MkStorage (st_retryInterval st) (incrementBucket now id (payload_length record) bkm)
        (st_batchManager st) (st_pendingStores st)
        (st_immediates st ++ [(id, record, call)])
  | None =>
      MkStorage (st_retryInterval st) bkm (st_batchManager st)
        (<[call := ((now + timer_delay (st_retryInterval st))%Z, msg, storedAt)]> (st_pendingStores st))
        (st_immediates st)
  end.

(** The timeout of a pending store *)
Definition retry_store (now : Z) (call : nat) (st : storage) : storage :=
  match st_pendingStores st !! call with
  | Some (deadline, msg, storedAt) =>
      if (deadline <=? now)%Z then
        store now call msg storedAt
          (MkStorage (st_retryInterval st) (st_bucketManager st) (st_batchManager st)
             (base.delete call (st_pendingStores st)) (st_immediates st))
      else st
  | None => st
  end.

(** The next [setImmediate] callback *)
Definition run_immediate (now : Z) (st : storage) : storage :=
  match st_immediates st with
  | (bucketId, record, call) :: rest =>
      MkStorage (st_retryInterval st) (st_bucketManager st)
        (bm_store now bucketId record (Some call) (st_batchManager st)).1
        (st_pendingStores st) rest
  | [] => st
  end.

Definition close (st : storage) : storage :=
  MkStorage (st_retryInterval st) (km_stop (st_bucketManager st)) (bm_stop (st_batchManager st))
    ∅ (st_immediates st).

(** * Reading *)

Definition parseRow (row : data_row) : option StoredMessage :=
  match dr_payload row with
  | None => None
  | Some payload => Some (MkStoredMessage payload (dr_stored_at row))
  end.

(** The result stream passes on the rows that parse. *)
Definition createResultStream (rows : list data_row) : list StoredMessage := omap parseRow rows.

Definition bucketsToIds (buckets : list bucket) : list string := k_id <$> buckets.

(** The loop of [requestLast] over the pages of GET_BUCKETS, one bucket each. *)
Fixpoint last_buckets (db : DB) (streamId : string) (partition limit total : Z)
    (bucketIds : list string) (pages : list string) : outcome js_error (list string) :=
  match pages with
  | [] => Return bucketIds
  | bucketId :: nextPage =>
      let bucketIds' := bucketIds ++ [bucketId] in
      (let? count := count_data db (DataWhere streamId partition [bucketId] [] [] None None) in
       let total' := (total + wrap32 count)%Z in
       if negb (bool_decide (nextPage = [])) && (total' <? limit)%Z && (total' <? MAX_RESEND_LAST)%Z
       then last_buckets db streamId partition limit total' bucketIds' nextPage
       else Return bucketIds')%eff
  end.

(** The rows [requestLast] writes to its result stream *)
Definition requestLast_rows (db : DB) (streamId : string) (partition limit : Z)
    : outcome js_error (list data_row) :=
  let limit := if (MAX_RESEND_LAST <? limit)%Z then MAX_RESEND_LAST else limit in
  (let? buckets := select_buckets db (BucketWhere streamId partition []) Desc None in
   match buckets with
   | [] => Return []
   | _ =>
       let? bucketIds := last_buckets db streamId partition limit 0 [] (bk_id <$> buckets) in
       let? rows := select_data db (DataWhere streamId partition bucketIds [] [] None None) Desc
                      (Some limit) in
       Return (reverse rows)
   end)%eff.
Definition requestLast (db : DB) (streamId : string) (partition limit : Z)
    : outcome js_error (list StoredMessage) :=
  (let? rows := requestLast_rows db streamId partition limit in Return (createResultStream rows))%eff.

(** The queries of [fetchRange] *)
Definition range_queries (streamId : string) (partition fromTimestamp fromSequenceNo toTimestamp
    toSequenceNo : Z) (publisherId msgChainId : option string) (bucketIds : list string)
    : list data_where :=
  if (fromSequenceNo =? MIN_SEQUENCE_NUMBER_VALUE)%Z && (toSequenceNo =? MAX_SEQUENCE_NUMBER_VALUE)%Z
  then [DataWhere streamId partition bucketIds [CGe fromTimestamp; CLe toTimestamp] [] publisherId msgChainId]
  else [DataWhere streamId partition bucketIds [CEq fromTimestamp] [CGe fromSequenceNo] publisherId msgChainId;
        DataWhere streamId partition bucketIds [CGt fromTimestamp; CLt toTimestamp] [] publisherId msgChainId;
        DataWhere streamId partition bucketIds [CEq toTimestamp] [CLe toSequenceNo] publisherId msgChainId].

Fixpoint run_queries (db : DB) (queries : list data_where) : outcome js_error (list data_row) :=
  match queries with
  | [] => Return []
  | q :: queries' =>
      (let? rows := select_data db q Unordered None in
       let? rest := run_queries db queries' in Return (rows ++ rest))%eff
  end.

(** The rows [fetchRange] pipes into its result stream *)
Definition fetchRange (now : Z) (db : DB) (st : storage) (streamId : string)
    (partition fromTimestamp fromSequenceNo toTimestamp toSequenceNo : Z)
    (publisherId msgChainId : option string) : outcome js_error (list data_row) :=
  (let? buckets := getBucketsByTimestamp now db streamId partition
                     (Some (fromTimestamp - BUCKET_LOOKBACK_MS)%Z) (Some toTimestamp)
                     (st_bucketManager st) in
   match buckets with
   | [] => Return []
   | _ => run_queries db (range_queries streamId partition fromTimestamp fromSequenceNo toTimestamp
                            toSequenceNo publisherId msgChainId (bucketsToIds buckets))
   end)%eff.

Definition requestFrom (now : Z) (db : DB) (st : storage) (streamId : string)
    (partition fromTimestamp fromSequenceNo : Z) (publisherId : option string)
    : outcome js_error (list StoredMessage) :=
  (let? rows := fetchRange now db st streamId partition fromTimestamp fromSequenceNo
                  MAX_TIMESTAMP_VALUE MAX_SEQUENCE_NUMBER_VALUE publisherId None in
   Return (createResultStream rows))%eff.

Definition requestRange (now : Z) (db : DB) (st : storage) (streamId : string)
    (partition fromTimestamp fromSequenceNo toTimestamp toSequenceNo : Z)
    (publisherId msgChainId : option string) : outcome js_error (list StoredMessage) :=
  if negb (bool_decide (publisherId = None ↔ msgChainId = None))
  then Throw (MkError None "Invalid combination of requestFrom arguments")
  else (let? rows := fetchRange now db st streamId partition fromTimestamp fromSequenceNo toTimestamp
                       toSequenceNo publisherId msgChainId in
        Return (createResultStream rows))%eff.

Definition to_stored_row (r : data_row) : StoredRow :=
  MkStoredRow (dr_bucket r) (dr_ts r) (dr_seq r) (dr_publisher r) (dr_chain r) (dr_payload r)
    (dr_stored_at r).

Definition getMessages (now : Z) (db : DB) (st : storage) (streamId : string)
    (partition timestamp sequenceNo : Z) : outcome js_error (list StoredRow) :=
  (let? buckets := getBucketsByTimestamp now db streamId partition
                     (Some (timestamp - BUCKET_LOOKBACK_MS)%Z) (Some timestamp) (st_bucketManager st) in
   match buckets with
   | [] => Return []
   | _ =>
       let? rows := select_data db (DataWhere streamId partition (bucketsToIds buckets)
                      [CEq timestamp] [CEq sequenceNo] None None) Unordered None in
       Return (to_stored_row <$> rows)
   end)%eff.

Definition min_list (t : Z) (ts : list Z) : Z := foldr Z.min t ts.
Definition max_list (t : Z) (ts : list Z) : Z := foldr Z.max t ts.

Definition to_row_key (r : data_row) : StoredRowKey :=
  MkStoredRowKey (dr_ts r) (dr_seq r) (dr_publisher r).

Definition getRowKeys (now : Z) (db : DB) (st : storage) (streamId : string) (partition : Z)
    (timestamps : list Z) : outcome js_error (list StoredRowKey) :=
  match timestamps with
  | [] => Return []
  | t :: ts =>
      (let? buckets := getBucketsByTimestamp now db streamId partition
                         (Some (min_list t ts - BUCKET_LOOKBACK_MS)%Z) (Some (max_list t ts))
                         (st_bucketManager st) in
       match buckets with
       | [] => Return []
       | _ =>
           let? rows := select_data db (DataWhere streamId partition (bucketsToIds buckets)
                          [CIn (remove_dups timestamps)] [] None None) Unordered None in
           Return (to_row_key <$> rows)
       end)%eff
  end.

Definition deleteMessage (streamId : string) (partition : Z) (row : StoredRow)
    : eff DB js_error unit := λ db,
  execute_batch db [DeleteData (DataWhere streamId partition [sr_bucketId row]
    [CEq (sr_timestamp row)] [CEq (sr_sequenceNo row)] (Some (sr_publisherId row))
    (Some (sr_msgChainId row)))].

(** * Metadata *)

Definition edge_timestamp (o : order) (db : DB) (streamId : string) (partition : Z) : outcome js_error Z :=
  (let? buckets := select_buckets db (BucketWhere streamId partition []) o (Some 1%Z) in
   match buckets with
   | [b] =>
       let? rows := select_data db (DataWhere streamId partition [bk_id b] [] [] None None) o
                      (Some 1%Z) in
       match rows with [r] => Return (dr_ts r) | _ => Return 0%Z end
   | _ => Return 0%Z
   end)%eff.
Definition getFirstMessageTimestampInStream (db : DB) (streamId : string) (partition : Z)
    : outcome js_error Z := edge_timestamp Asc db streamId partition.
Definition getLastMessageTimestampInStream (db : DB) (streamId : string) (partition : Z)
    : outcome js_error Z := edge_timestamp Desc db streamId partition.

Definition getNumberOfMessagesInStream (db : DB) (streamId : string) (partition : Z)
    : outcome js_error Z :=
  (let? rows := sum_buckets db (BucketWhere streamId partition []) bk_records in
   match rows with [count] => Return count | _ => Return 0%Z end)%eff.

Definition getTotalBytesInStream (db : DB) (streamId : string) (partition : Z) : outcome js_error Z :=
  (let? rows := sum_buckets db (BucketWhere streamId partition []) bk_size in
   match rows with
   | [count] =>
       if (count <? 0)%Z
       then let? buckets := select_buckets db (BucketWhere streamId partition []) Unordered None in
            Return (foldl (λ c b, (c + bk_size b)%Z) 0%Z buckets)
       else Return count
   | _ => Return 0%Z
   end)%eff.
End storage.

(** * Connecting ([startCassandraStorage])

    One attempt connects and reads the [stored_at] column; its error is a
    [StorageSchemaError] when the latter fails. *)

Inductive attempt := Connected | SchemaError (message : string) | NotResponding (message : string).
Definition assertStoredAtColumn (connect column : outcome js_error unit) : attempt :=
  match connect with
  | Throw e => NotResponding (err_message e)
  | Return _ => match column with
                | Return _ => Connected
                | Throw e => SchemaError (err_message e)
                end
  end.

Definition nbTrials : nat := 20.
Fixpoint start_loop (retryCount : nat) (lastError : string) (attempts : nat → attempt)
    : outcome js_error nat * nat :=
  match retryCount with
  | O => (Throw (MkError None ("Failed to connect to Cassandra after trials: " +:+ lastError)), 0)
  | S n =>
      match attempts (nbTrials - retryCount) with
      | Connected => (Return (nbTrials - retryCount), 0)
      | SchemaError msg => (Throw (MkError (Some "SCHEMA") msg), 0)
      | NotResponding msg =>
          let '(r, slept) := start_loop n msg attempts in (r, 5000 + slept)
      end
  end.
(** The result, with the index of the attempt that connected, and the time slept. *)
Definition startCassandraStorage (attempts : nat → attempt) : outcome js_error nat * nat :=
  start_loop nbTrials "" attempts.

(** * Facts *)

(** The rows of a part that a time range is about. *)
Definition in_range (fromTimestamp fromSequenceNo toTimestamp toSequenceNo : Z) (r : data_row) : Prop :=
  ((fromTimestamp < dr_ts r) ∨ (dr_ts r = fromTimestamp ∧ fromSequenceNo ≤ dr_seq r))%Z
  ∧ ((dr_ts r < toTimestamp) ∨ (dr_ts r = toTimestamp ∧ dr_seq r ≤ toSequenceNo))%Z.
Definition row_of (streamId : string) (partition : Z) (publisherId msgChainId : option string)
    (r : data_row) : Prop :=
  dr_stream r = streamId ∧ dr_partition r = partition
  ∧ (∀ p, publisherId = Some p → dr_publisher r = p) ∧ (∀ c, msgChainId = Some c → dr_chain r = c).

Section facts.
  Context {Hp : Type} `{BH : !BucketHeap Hp}.
  Context {DB : Type} `{CC : !CassandraClient DB}.
  Implicit Types (db : DB) (st : @storage Hp).

Lemma run_queries_spec db qs rows :
  run_queries db qs = Return rows →
  ∃ parts, rows = concat parts
    ∧ Forall2 (λ q l, selects (data_matches q) (row_order Unordered) None (db_data db) l) qs parts.
Proof.
  revert rows. induction qs as [|q qs IH]; simpl; intros rows Hr.
  { simplify_eq. by exists []. }
  destruct (select_data db q Unordered None) as [l|] eqn:Hl; [|done]. simpl in Hr.
  destruct (run_queries db qs) as [rest|]; simplify_eq/=.
  destruct (IH rest eq_refl) as (parts & -> & Hall). exists (l :: parts). split; [done|].
  constructor; [by apply select_data_ok|done].
Qed.

(** A query of a range, by the conditions on time and sequence number. *)
Lemma range_query_elem db streamId partition ids tsc seqc pub chain l r :
  selects (data_matches (DataWhere streamId partition ids tsc seqc pub chain)) (row_order Unordered)
    None (db_data db) l →
  r ∈ l ↔ r ∈ db_data db ∧ row_of streamId partition pub chain r ∧ dr_bucket r ∈ ids
          ∧ Forall (λ c, cond_matches (dr_ts r) c = true) tsc
          ∧ Forall (λ c, cond_matches (dr_seq r) c = true) seqc.
Proof.
  intros Hsel. rewrite (selects_complete _ _ _ _ r Hsel), data_matches_spec. simpl.
  unfold row_of. tauto.
Qed.

Ltac cond_simpl := rewrite ?Forall_cons, ?Forall_nil; cbn [cond_matches];
  rewrite ?Z.eqb_eq, ?Z.leb_le, ?Z.ltb_lt.

Lemma range_rows_exact db streamId partition ft fs tt' tseq pub chain ids rows :
  run_queries db (range_queries streamId partition ft fs tt' tseq pub chain ids) = Return rows →
  (ft < tt')%Z ∨ (fs = MIN_SEQUENCE_NUMBER_VALUE ∧ tseq = MAX_SEQUENCE_NUMBER_VALUE) →
  (∀ r, r ∈ db_data db → MIN_SEQUENCE_NUMBER_VALUE ≤ dr_seq r ≤ MAX_SEQUENCE_NUMBER_VALUE)%Z →
  NoDup rows ∧ ∀ r, r ∈ rows ↔ r ∈ db_data db ∧ row_of streamId partition pub chain r
                              ∧ dr_bucket r ∈ ids ∧ in_range ft fs tt' tseq r.
Proof.
  intros Hrun Hcase Hseq. apply run_queries_spec in Hrun as (parts & -> & Hall).
  unfold range_queries in Hall.
  destruct ((fs =? MIN_SEQUENCE_NUMBER_VALUE)%Z && (tseq =? MAX_SEQUENCE_NUMBER_VALUE)%Z) eqn:Hopt.
  - apply andb_true_iff in Hopt as [->%Z.eqb_eq ->%Z.eqb_eq].
    apply Forall2_cons_inv_l in Hall as (l & ? & Hl & Hnil & ->). apply Forall2_nil_inv_l in Hnil as ->.
    simpl. rewrite app_nil_r. split; [by eapply selects_NoDup|]. intros r.
    rewrite (range_query_elem _ _ _ _ _ _ _ _ _ r Hl). cond_simpl. unfold in_range.
    split; [|intuition lia]. intros (Hin & ? & ? & ? & _). specialize (Hseq r Hin). intuition lia.
  - assert (ft < tt')%Z as Hlt.
    { destruct Hcase as [?|[-> ->]]; [done|]. by rewrite !Z.eqb_refl in Hopt. }
    apply Forall2_cons_inv_l in Hall as (l1 & ? & H1 & Hall & ->).
    apply Forall2_cons_inv_l in Hall as (l2 & ? & H2 & Hall & ->).
    apply Forall2_cons_inv_l in Hall as (l3 & ? & H3 & Hnil & ->). apply Forall2_nil_inv_l in Hnil as ->.
    pose proof (λ r, range_query_elem _ _ _ _ _ _ _ _ _ r H1) as E1.
    pose proof (λ r, range_query_elem _ _ _ _ _ _ _ _ _ r H2) as E2.
    pose proof (λ r, range_query_elem _ _ _ _ _ _ _ _ _ r H3) as E3.
    simpl. rewrite app_nil_r. split.
    + apply NoDup_app. split; [by eapply selects_NoDup|]. split.
      * intros r. rewrite elem_of_app, E1, E2, E3. cond_simpl. intuition lia.
      * apply NoDup_app. split; [by eapply selects_NoDup|]. split; [|by eapply selects_NoDup].
        intros r. rewrite E2, E3. cond_simpl. intuition lia.
    + intros r. rewrite !elem_of_app, E1, E2, E3. cond_simpl. unfold in_range.
      split; [intuition lia|]. intros (? & ? & ? & Hr1 & Hr2).
      destruct (Z.lt_trichotomy (dr_ts r) ft) as [?|[?|?]]; [lia|left|right].
      * intuition lia.
      * destruct (Z.lt_trichotomy (dr_ts r) tt') as [?|[?|?]]; [left|right|]; intuition lia.
Qed.

Lemma fetchRange_cases now db st streamId partition ft fs tt' tseq pub chain rows :
  fetchRange now db st streamId partition ft fs tt' tseq pub chain = Return rows →
  ∃ bs, getBucketsByTimestamp now db streamId partition (Some (ft - BUCKET_LOOKBACK_MS)%Z) (Some tt')
          (st_bucketManager st) = Return bs
  ∧ ((bs = [] ∧ rows = [])
     ∨ run_queries db (range_queries streamId partition ft fs tt' tseq pub chain (bucketsToIds bs))
       = Return rows).
Proof.
  unfold fetchRange. destruct (getBucketsByTimestamp _ _ _ _ _ _ _) as [bs|]; [|done]. simpl.
  intros Hrun. exists bs. split; [done|]. destruct bs; [left; by simplify_eq|right; done].
Qed.

(** ** Reading a time range *)

(** C18: a range read returns, once each, exactly the rows of the part, publisher and
    chain asked for that lie between the two (timestamp, sequence number) bounds in
    the buckets looked up, when the bounds have different timestamps or do not
    restrict sequence numbers. *)
Theorem fetchRange_exact now db st streamId partition ft fs tt' tseq pub chain rows :
  fetchRange now db st streamId partition ft fs tt' tseq pub chain = Return rows →
  (ft < tt')%Z ∨ (fs = MIN_SEQUENCE_NUMBER_VALUE ∧ tseq = MAX_SEQUENCE_NUMBER_VALUE) →
  (∀ r, r ∈ db_data db → MIN_SEQUENCE_NUMBER_VALUE ≤ dr_seq r ≤ MAX_SEQUENCE_NUMBER_VALUE)%Z →
  NoDup rows ∧ ∃ bs,
    getBucketsByTimestamp now db streamId partition (Some (ft - BUCKET_LOOKBACK_MS)%Z) (Some tt')
      (st_bucketManager st) = Return bs
    ∧ ∀ r, r ∈ rows ↔ r ∈ db_data db ∧ row_of streamId partition pub chain r
                      ∧ dr_bucket r ∈ bucketsToIds bs ∧ in_range ft fs tt' tseq r.
Proof.
  intros Hf Hcase Hseq. apply fetchRange_cases in Hf as (bs & Hbs & [[-> ->]|Hrun]).
  - split; [constructor|]. exists []. split; [done|]. simpl. set_solver.
  - destruct (range_rows_exact _ _ _ _ _ _ _ _ _ _ _ Hrun Hcase Hseq) as [? ?]. eauto.
Qed.

(** No stored row is missed: if every row was written to a bucket that starts at
    or before it, and no other bucket of its part starts after that one and
    [BUCKET_LOOKBACK_MS] or more before the row, then a range read returns every row
    of the range. *)
Theorem range_read_complete now db st streamId partition ft fs tt' tseq pub chain rows r row :
  fetchRange now db st streamId partition ft fs tt' tseq pub chain = Return rows →
  (ft < tt')%Z ∨ (fs = MIN_SEQUENCE_NUMBER_VALUE ∧ tseq = MAX_SEQUENCE_NUMBER_VALUE) →
  (∀ r, r ∈ db_data db → MIN_SEQUENCE_NUMBER_VALUE ≤ dr_seq r ≤ MAX_SEQUENCE_NUMBER_VALUE)%Z →
  (∀ r1 r2, r1 ∈ db_buckets db → r2 ∈ db_buckets db → bucket_key r1 = bucket_key r2 → r1 = r2) →
  r ∈ db_data db → row_of streamId partition pub chain r → in_range ft fs tt' tseq r →
  row ∈ db_buckets db → in_part streamId partition row → bk_id row = dr_bucket r →
  (bk_date row ≤ dr_ts r)%Z →
  (∀ row', row' ∈ db_buckets db → in_part streamId partition row' →
     (bk_date row < bk_date row')%Z → (dr_ts r - BUCKET_LOOKBACK_MS < bk_date row')%Z) →
  r ∈ rows.
Proof.
  intros Hf Hcase Hseq Huniq Hr Hof Hrange Hrow Hpart Hid Hdate Hlook.
  pose proof Hf as Hbs. apply fetchRange_cases in Hf as (bs & Hget & Hrun).
  pose proof (getBucketsByTimestamp_spec _ _ _ _ _ _ _ _ Hget) as (Hsound & Hin & Hold).
  assert (ft ≤ dr_ts r ≤ tt')%Z as Hts by (unfold in_range in Hrange; lia).
  assert (∃ b, b ∈ bs ∧ k_id b = dr_bucket r) as (b & Hb & Hbid).
  { destruct (Z.lt_ge_cases (ft - BUCKET_LOOKBACK_MS) (bk_date row)) as [Hlt|Hge].
    - destruct (Hin row Hrow Hpart) as (b & ? & ?); [lia|]. exists b. by rewrite <-Hid.
    - destruct Hold as (b & Hb & Hbd); [by eauto|]. exists b. split; [done|].
      destruct (Hsound b Hb) as (rowb & Hrowb & Hpartb & Hidb & Hdb & [Hbad|[_ Hmax]]); [lia|].
      specialize (Hmax row Hrow Hpart Hge). specialize (Hlook rowb Hrowb Hpartb). rewrite Hidb, <-Hid. f_equal. apply Huniq; [done..|].
      unfold bucket_key. destruct Hpart as [-> ->], Hpartb as [-> ->]. f_equal.
      destruct (Z.eq_dec (bk_date rowb) (bk_date row)); [done|].
      assert (dr_ts r - BUCKET_LOOKBACK_MS < bk_date rowb)%Z by (apply Hlook; lia). lia. }
  destruct Hrun as [[-> _]|Hrun]; [by apply not_elem_of_nil in Hb|].
  destruct (range_rows_exact _ _ _ _ _ _ _ _ _ _ _ Hrun Hcase Hseq) as [_ Hiff].
  apply Hiff. split; [done|]. split; [done|]. split; [|done].
  unfold bucketsToIds. rewrite <-Hbid. by apply list_elem_of_fmap_2.
Qed.

(** A range that starts and ends at one timestamp and restricts sequence numbers
    is answered by two overlapping queries: the rows inside the range come twice, and
    rows outside of it come too. *)
Theorem fetchRange_same_timestamp now db st streamId partition t fs tseq pub chain rows bs :
  fetchRange now db st streamId partition t fs t tseq pub chain = Return rows →
  getBucketsByTimestamp now db streamId partition (Some (t - BUCKET_LOOKBACK_MS)%Z) (Some t)
    (st_bucketManager st) = Return bs →
  ¬ (fs = MIN_SEQUENCE_NUMBER_VALUE ∧ tseq = MAX_SEQUENCE_NUMBER_VALUE) →
  ∃ rows1 rows2, rows = rows1 ++ rows2
  ∧ (∀ r, r ∈ rows1 ↔ r ∈ db_data db ∧ row_of streamId partition pub chain r
                     ∧ dr_bucket r ∈ bucketsToIds bs ∧ dr_ts r = t ∧ (fs ≤ dr_seq r)%Z)
  ∧ (∀ r, r ∈ rows2 ↔ r ∈ db_data db ∧ row_of streamId partition pub chain r
                     ∧ dr_bucket r ∈ bucketsToIds bs ∧ dr_ts r = t ∧ (dr_seq r ≤ tseq)%Z).
Proof.
  intros Hf Hget Hres. apply fetchRange_cases in Hf as (bs' & Hget' & Hrun).
  rewrite Hget in Hget'. injection Hget' as <-.
  destruct Hrun as [[-> ->]|Hrun]; [exists [], []; set_solver|].
  apply run_queries_spec in Hrun as (parts & -> & Hall). unfold range_queries in Hall.
  destruct ((fs =? MIN_SEQUENCE_NUMBER_VALUE)%Z && (tseq =? MAX_SEQUENCE_NUMBER_VALUE)%Z) eqn:Hopt.
  { apply andb_true_iff in Hopt as [->%Z.eqb_eq ->%Z.eqb_eq]. by destruct Hres. }
  apply Forall2_cons_inv_l in Hall as (l1 & ? & H1 & Hall & ->).
  apply Forall2_cons_inv_l in Hall as (l2 & ? & H2 & Hall & ->).
  apply Forall2_cons_inv_l in Hall as (l3 & ? & H3 & Hnil & ->). apply Forall2_nil_inv_l in Hnil as ->.
  exists l1, l3.
  assert (l2 = []) as ->.
  { destruct l2 as [|r l2]; [done|exfalso].
    assert (r ∈ r :: l2) as Hr by (by left).
    rewrite (range_query_elem _ _ _ _ _ _ _ _ _ r H2) in Hr. revert Hr. cond_simpl. intuition lia. }
  simpl. rewrite app_nil_r. split; [done|]. split; intros r.
  - rewrite (range_query_elem _ _ _ _ _ _ _ _ _ r H1). cond_simpl. tauto.
  - rewrite (range_query_elem _ _ _ _ _ _ _ _ _ r H3). cond_simpl. tauto.
Qed.

(** ** The last messages *)

Definition bucket_rows db (streamId : string) (partition : Z) (ids : list string) : gset data_row :=
  filter (λ r, data_matches (DataWhere streamId partition ids [] [] None None) r = true) (db_data db).

Lemma elem_of_bucket_rows db streamId partition ids r :
  r ∈ bucket_rows db streamId partition ids ↔
  r ∈ db_data db ∧ dr_stream r = streamId ∧ dr_partition r = partition ∧ dr_bucket r ∈ ids.
Proof.
  unfold bucket_rows. rewrite elem_of_filter, data_matches_spec. simpl. rewrite !Forall_nil.
  naive_solver.
Qed.

Lemma size_bucket_rows_snoc db streamId partition ids id :
  id ∉ ids →
  size (bucket_rows db streamId partition (ids ++ [id]))
  = size (bucket_rows db streamId partition ids) + size (bucket_rows db streamId partition [id]).
Proof.
  intros Hnin. rewrite <-size_union.
  - f_equal. apply set_eq. intros r. rewrite elem_of_union, !elem_of_bucket_rows.
    rewrite elem_of_app. tauto.
  - intros r. rewrite !elem_of_bucket_rows. intros (_ & _ & _ & Hin) (_ & _ & _ & Hid).
    apply list_elem_of_singleton in Hid. congruence.
Qed.

Lemma last_buckets_spec db streamId partition limit ids pages out :
  (Z.of_nat (size (db_data db)) < 2147483648)%Z → (limit ≤ MAX_RESEND_LAST)%Z →
  NoDup (ids ++ pages) → pages ≠ [] →
  last_buckets db streamId partition limit
    (Z.of_nat (size (bucket_rows db streamId partition ids))) ids pages = Return out →
  ∃ visited rest, pages = visited ++ rest ∧ out = ids ++ visited
    ∧ (rest = [] ∨ (limit ≤ Z.of_nat (size (bucket_rows db streamId partition out)))%Z).
Proof.
  intros Hsize Hlim. revert ids. induction pages as [|id pages IH]; intros ids Hnd Hne; [done|].
  simpl. destruct (count_data db _) as [n|] eqn:Hn; [|done]. simpl.
  apply count_data_ok in Hn. fold (bucket_rows db streamId partition [id]) in Hn.
  assert (size (bucket_rows db streamId partition [id]) ≤ size (db_data db)) as Hle.
  { apply subseteq_size. intros r Hr%elem_of_bucket_rows. tauto. }
  assert (id ∉ ids) as Hnin.
  { apply NoDup_app in Hnd as (_ & Hdisj & _). intros Hin. apply (Hdisj id Hin). by left. }
  assert (Z.of_nat (size (bucket_rows db streamId partition ids)) + wrap32 n
    = Z.of_nat (size (bucket_rows db streamId partition (ids ++ [id]))))%Z as Htot.
  { rewrite wrap32_small by lia. rewrite size_bucket_rows_snoc by done. lia. }
  rewrite Htot. destruct (negb _ && _ && _) eqn:Hgo.
  - apply andb_true_iff in Hgo as [[Hpg%negb_true_iff _]%andb_true_iff _].
    apply bool_decide_eq_false in Hpg. intros Hrec.
    destruct (IH (ids ++ [id])) as (visited & rest & -> & -> & Hcase); [|done..|].
    { by rewrite <-app_assoc. }
    exists (id :: visited), rest. rewrite <-!app_assoc in *. done.
  - intros [= <-]. exists [id], pages. split; [done|]. split; [done|].
    rewrite !andb_false_iff in Hgo. destruct Hgo as [[Hpg|Hlt]|Hlt].
    + left. apply negb_false_iff, bool_decide_eq_true in Hpg. done.
    + right. apply Z.ltb_ge in Hlt. done.
    + right. apply Z.ltb_ge in Hlt. lia.
Qed.

(** The last-messages query returns, in ascending order and without repetition, at
    most [min limit 10000] rows: the latest rows of the buckets visited.  The buckets
    visited are the latest of the part, and either the answer is complete or every
    bucket of the part was visited. *)
Theorem requestLast_latest db streamId partition limit rows :
  requestLast_rows db streamId partition limit = Return rows →
  (1 ≤ limit)%Z → (Z.of_nat (size (db_data db)) < 2147483648)%Z →
  (∀ r1 r2, r1 ∈ db_buckets db → r2 ∈ db_buckets db → in_part streamId partition r1 →
     in_part streamId partition r2 → bk_id r1 = bk_id r2 → r1 = r2) →
  let n := Z.to_nat (Z.min limit MAX_RESEND_LAST) in
  StronglySorted ts_seq_le rows ∧ NoDup rows ∧ length rows ≤ n ∧ ∃ visited,
    (∀ r, r ∈ rows → r ∈ bucket_rows db streamId partition visited)
    ∧ (∀ r, r ∈ bucket_rows db streamId partition visited → r ∉ rows →
         length rows = n ∧ ∀ x, x ∈ rows → ts_seq_le r x)
    ∧ (∀ b1 b2, b1 ∈ db_buckets db → b2 ∈ db_buckets db → in_part streamId partition b1 →
         in_part streamId partition b2 → bk_id b1 ∈ visited → bk_id b2 ∉ visited →
         (bk_date b2 ≤ bk_date b1)%Z)
    ∧ (length rows = n
       ∨ ∀ b, b ∈ db_buckets db → in_part streamId partition b → bk_id b ∈ visited).
Proof.
  intros Hreq Hpos Hsize Huniq n. unfold requestLast_rows in Hreq.
  replace (if (MAX_RESEND_LAST <? limit)%Z then MAX_RESEND_LAST else limit)
    with (Z.min limit MAX_RESEND_LAST) in Hreq by (destruct (Z.ltb_spec MAX_RESEND_LAST limit); lia).
  destruct (select_buckets db _ _ _) as [buckets|] eqn:Hbk; [|done]. simpl in Hreq.
  apply select_buckets_ok in Hbk.
  assert (∀ b, b ∈ buckets ↔ b ∈ db_buckets db ∧ in_part streamId partition b) as Hall.
  { intros b. rewrite (selects_complete _ _ _ _ b Hbk), bucket_matches_spec. simpl.
    rewrite Forall_nil. unfold in_part. tauto. }
  destruct (decide (buckets = [])) as [->|Hne].
  { simplify_eq. split; [constructor|]. split; [constructor|]. split; [simpl; lia|].
    exists []. split; [set_solver|]. split.
    { intros r Hr%elem_of_bucket_rows. set_solver. }
    split; [set_solver|]. right. intros b ? ?. exfalso. eapply not_elem_of_nil, Hall; eauto. }
  destruct (last_buckets _ _ _ _ _ _ _) as [ids|] eqn:Hlast; [|by destruct buckets].
  assert (NoDup (bk_id <$> buckets)) as Hndid.
  { apply NoDup_fmap_2_strong; [|by eapply selects_NoDup].
    intros b1 b2 [? ?]%Hall [? ?]%Hall. by apply Huniq. }
  assert (bucket_rows db streamId partition [] = ∅) as Hemp.
  { apply set_eq. intros r. rewrite elem_of_bucket_rows. set_solver. }
  destruct (last_buckets_spec db streamId partition (Z.min limit MAX_RESEND_LAST) []
    (bk_id <$> buckets) ids) as (visited & rest & Hpages & -> & Hcase);
    [done|lia|done|by destruct buckets|by rewrite Hemp|]. simpl in *.
  destruct (select_data db _ _ _) as [sel|] eqn:Hsel; [|by destruct buckets].
  assert (rows = reverse sel) as -> by (destruct buckets; by simplify_eq/=). clear Hreq.
  apply select_data_ok in Hsel as (all & Hcut & Hperm & Hsort). simpl in Hcut. fold n in Hcut.
  fold (bucket_rows db streamId partition visited) in Hperm.
  assert (∀ r, r ∈ all ↔ r ∈ bucket_rows db streamId partition visited) as Hin.
  { intros r. by rewrite Hperm, elem_of_elements. }
  assert (length all = size (bucket_rows db streamId partition visited)) as Hlen by (by rewrite Hperm).
  subst sel. rewrite length_reverse, length_take. split.
  { eapply StronglySorted_reverse; [|by eapply StronglySorted_app_1_l; rewrite take_drop]. done. }
  split.
  { rewrite reverse_Permutation. eapply sublist_NoDup; [|apply sublist_take].
    rewrite Hperm. apply NoDup_elements. }
  split; [lia|]. exists visited. split; [|split; [|split]].
  - intros r Hr%elem_of_reverse%subseteq_take. by apply Hin.
  - intros r Hr Hnin. rewrite elem_of_reverse in Hnin. apply Hin in Hr.
    assert (n ≤ length all).
    { destruct (decide (n ≤ length all)); [done|]. rewrite take_ge in Hnin by lia. done. }
    split; [lia|]. intros x Hx. rewrite elem_of_reverse in Hx.
    by apply (StronglySorted_take_rest _ all n r x Hsort Hr Hnin Hx).
  - intros b1 b2 Hb1 Hb2 Hp1 Hp2 Hv1 Hv2.
    destruct (fmap_app_inv _ _ _ _ Hpages) as (bs1 & bs2 & -> & _ & Hbs).
    destruct Hbk as (all' & Hall' & _ & Hbsort). simpl in Hall'. subst all'.
    assert (b2 ∈ bs1 ++ bs2) as [Hb2'|Hb2']%elem_of_app by (rewrite <-Hbs; by apply Hall).
    { destruct Hv2. by apply list_elem_of_fmap_2. }
    apply list_elem_of_fmap in Hv1 as (b1' & Hid & Hb1').
    assert (b1' ∈ buckets) as [? ?]%Hall by (rewrite Hbs; apply elem_of_app; by left).
    assert (b1 = b1') as -> by (by apply Huniq).
    rewrite Hbs in Hbsort. by apply (StronglySorted_app_1_elem_of _ _ _ b1' b2 Hbsort).
  - destruct Hcase as [->|Hge]; [right|left].
    + intros b ? ?. rewrite app_nil_r in Hpages. rewrite <-Hpages. apply list_elem_of_fmap_2.
      by apply Hall.
    + lia.
Qed.

(** ** Rows at a timestamp *)

Lemma min_list_le t ts x : x ∈ t :: ts → (min_list t ts ≤ x)%Z.
Proof.
  unfold min_list. induction ts as [|y ts IH]; intros Hx; simpl in *.
  { apply list_elem_of_singleton in Hx as ->. lia. }
  apply elem_of_cons in Hx as [->|[->|Hx]%elem_of_cons]; [|lia|].
  - assert (foldr Z.min t ts ≤ t)%Z by (apply IH; by left). lia.
  - assert (foldr Z.min t ts ≤ x)%Z by (apply IH; by right). lia.
Qed.

Lemma max_list_ge t ts x : x ∈ t :: ts → (x ≤ max_list t ts)%Z.
Proof.
  unfold max_list. induction ts as [|y ts IH]; intros Hx; simpl in *.
  { apply list_elem_of_singleton in Hx as ->. lia. }
  apply elem_of_cons in Hx as [->|[->|Hx]%elem_of_cons]; [|lia|].
  - assert (t ≤ foldr Z.max t ts)%Z by (apply IH; by left). lia.
  - assert (x ≤ foldr Z.max t ts)%Z by (apply IH; by right). lia.
Qed.

(** A wider lookup finds the buckets of a narrower one. *)
Lemma wider_lookup now db streamId partition from to from' to' (m m' : bucket_manager Hp) bs bs' b :
  (∀ r1 r2, r1 ∈ db_buckets db → r2 ∈ db_buckets db → bucket_key r1 = bucket_key r2 → r1 = r2) →
  (from' ≤ from)%Z → (to ≤ to')%Z → (from ≤ to)%Z →
  getBucketsByTimestamp now db streamId partition (Some from) (Some to) m = Return bs →
  getBucketsByTimestamp now db streamId partition (Some from') (Some to') m' = Return bs' →
  b ∈ bs → ∃ b', b' ∈ bs' ∧ k_id b' = k_id b.
Proof.
  intros Huniq Hf Ht Hft H1 H2 Hb.
  destruct (getBucketsByTimestamp_spec _ _ _ _ _ _ _ _ H1) as (Hs1 & _ & _).
  destruct (getBucketsByTimestamp_spec _ _ _ _ _ _ _ _ H2) as (Hs2 & Hin2 & Hold2).
  destruct (Hs1 b Hb) as (row & Hrow & Hpart & Hid & Hd & Hcase). rewrite Hid.
  destruct (Z.lt_ge_cases from' (bk_date row)) as [Hlt|Hge].
  - destruct (Hin2 row Hrow Hpart) as (b' & ? & ?); [lia|]. eauto.
  - destruct Hcase as [?|[_ Hmax]]; [lia|].
    destruct Hold2 as (b' & Hb' & Hbd'); [by eauto|]. exists b'. split; [done|].
    destruct (Hs2 b' Hb') as (row' & Hrow' & Hpart' & -> & Hd' & [?|[Hle' Hmax']]); [lia|].
    f_equal. apply Huniq; [done..|]. specialize (Hmax row' Hrow' Hpart'). specialize (Hmax' row Hrow Hpart).
    unfold bucket_key. destruct Hpart as [-> ->], Hpart' as [-> ->]. f_equal. lia.
Qed.

Lemma getMessages_spec now db st streamId partition t seq msgs :
  getMessages now db st streamId partition t seq = Return msgs →
  ∃ bs, getBucketsByTimestamp now db streamId partition (Some (t - BUCKET_LOOKBACK_MS)%Z) (Some t)
          (st_bucketManager st) = Return bs
  ∧ ∀ x, x ∈ msgs ↔ ∃ r, x = to_stored_row r ∧ r ∈ db_data db ∧ dr_stream r = streamId
       ∧ dr_partition r = partition ∧ dr_bucket r ∈ bucketsToIds bs ∧ dr_ts r = t ∧ dr_seq r = seq.
Proof.
  unfold getMessages. destruct (getBucketsByTimestamp _ _ _ _ _ _ _) as [bs|] eqn:Hbs; [|done]. simpl.
  intros Hget. exists bs. split; [done|]. destruct (decide (bs = [])) as [->|Hne].
  { simplify_eq. set_solver. }
  destruct (select_data db _ _ _) as [rows|] eqn:Hsel; [|by destruct bs].
  assert (msgs = to_stored_row <$> rows) as -> by (destruct bs; by simplify_eq/=).
  apply select_data_ok in Hsel. intros x. rewrite list_elem_of_fmap.
  setoid_rewrite (λ r, selects_complete _ _ _ _ r Hsel). setoid_rewrite data_matches_spec. simpl.
  setoid_rewrite Forall_singleton. simpl. setoid_rewrite Z.eqb_eq. naive_solver.
Qed.

(** The keys the stored-check reads cover every row the exact lookup would find:
    for each timestamp asked for, a row [getMessages] returns has its key in the answer
    of [getRowKeys]. *)
Theorem getRowKeys_covers now db st streamId partition timestamps keys t seq msgs x :
  getRowKeys now db st streamId partition timestamps = Return keys →
  getMessages now db st streamId partition t seq = Return msgs →
  (∀ r1 r2, r1 ∈ db_buckets db → r2 ∈ db_buckets db → bucket_key r1 = bucket_key r2 → r1 = r2) →
  t ∈ timestamps → x ∈ msgs → MkStoredRowKey t seq (sr_publisherId x) ∈ keys.
Proof.
  intros Hkeys Hmsgs Huniq Ht Hx. apply getMessages_spec in Hmsgs as (bs & Hbs & Hmsgs).
  apply Hmsgs in Hx as (r & -> & Hr & Hs & Hpt & Hb & Hts & Hseq).
  destruct timestamps as [|t0 ts]; [by apply not_elem_of_nil in Ht|]. unfold getRowKeys in Hkeys.
  pose proof (min_list_le _ _ _ Ht) as Hmin. pose proof (max_list_ge _ _ _ Ht) as Hmax.
  destruct (getBucketsByTimestamp now db streamId partition (Some (min_list t0 ts - _)%Z) _ _)
    as [bs'|] eqn:Hbs'; [|done]. simpl in Hkeys.
  assert (dr_bucket r ∈ bucketsToIds bs') as Hb'.
  { apply list_elem_of_fmap in Hb as (b & -> & Hb).
    destruct (wider_lookup now db streamId partition (t - BUCKET_LOOKBACK_MS) t
      (min_list t0 ts - BUCKET_LOOKBACK_MS) (max_list t0 ts) (st_bucketManager st)
      (st_bucketManager st) bs bs' b) as (b' & Hin' & <-); try done; [lia|unfold BUCKET_LOOKBACK_MS; lia|].
    by apply list_elem_of_fmap_2. }
  destruct (decide (bs' = [])) as [->|Hne]; [by apply not_elem_of_nil in Hb'|].
  destruct (select_data db _ _ _) as [rows|] eqn:Hsel; [|by destruct bs'].
  assert (keys = to_row_key <$> rows) as -> by (destruct bs'; by simplify_eq/=).
  apply list_elem_of_fmap. exists r. unfold to_row_key. rewrite Hts, Hseq. split; [done|].
  apply select_data_ok in Hsel. apply (selects_complete _ _ _ _ r Hsel). split; [done|].
  apply data_matches_spec. simpl. rewrite Forall_singleton, Forall_nil. repeat split; try done.
  apply bool_decide_eq_true, (elem_of_remove_dups (t0 :: ts)). by rewrite Hts.
Qed.

(** [deleteMessage] removes the row it is given, and nothing else. *)
Theorem deleteMessage_exact db r db' :
  deleteMessage (dr_stream r) (dr_partition r) (to_stored_row r) db = (db', Return tt) →
  db_buckets db' = db_buckets db ∧
  ∀ r', r' ∈ db_data db' ↔ r' ∈ db_data db ∧ data_key r' ≠ data_key r.
Proof.
  unfold deleteMessage. intros Hex. apply execute_batch_ok in Hex as [[Hb Hd]|[? _]]; [|done].
  split; [done|]. intros r'. rewrite Hd, apply_deletes_data by done.
  assert (∀ P : data_where → Prop, (∀ w, DeleteData w ∈
    [DeleteData (DataWhere (dr_stream r) (dr_partition r) [sr_bucketId (to_stored_row r)]
      [CEq (sr_timestamp (to_stored_row r))] [CEq (sr_sequenceNo (to_stored_row r))]
      (Some (sr_publisherId (to_stored_row r))) (Some (sr_msgChainId (to_stored_row r))))] → P w) ↔
    P (DataWhere (dr_stream r) (dr_partition r) [dr_bucket r] [CEq (dr_ts r)] [CEq (dr_seq r)]
      (Some (dr_publisher r)) (Some (dr_chain r)))) as Hw.
  { intros P. split; [intros HP; apply HP; by left|].
    intros HP w Hin. apply list_elem_of_singleton in Hin. by simplify_eq/=. }
  rewrite Hw, <-not_true_iff_false, data_matches_spec. simpl.
  rewrite !Forall_singleton, list_elem_of_singleton. simpl. rewrite !Z.eqb_eq.
  unfold data_key. naive_solver congruence.
Qed.

(** The byte count of a stream is right up to 2^32: a sum that wraps below zero is
    counted again row by row; from 2^32 on it wraps back above zero unnoticed and the
    answer is 2^32 too small. *)
Theorem getTotalBytesInStream_wraps db streamId partition total bytes :
  getTotalBytesInStream db streamId partition = Return bytes →
  total = sum_of (bk_size <$> elements (filter (λ r, bucket_matches
            (BucketWhere streamId partition []) r = true) (db_buckets db))) →
  ((0 ≤ total < 4294967296)%Z → bytes = total)
  ∧ ((4294967296 ≤ total < 6442450944)%Z → bytes = (total - 4294967296)%Z).
Proof.
  unfold getTotalBytesInStream. intros Hget ->.
  destruct (sum_buckets db _ _) as [rows|] eqn:Hsum; [|done]. apply sum_buckets_ok in Hsum as ->.
  simpl in Hget. set (total := sum_of _) in *.
  assert (∀ z k, (-2147483648 ≤ z - k * 4294967296 < 2147483648)%Z →
    wrap32 z = (z - k * 4294967296)%Z) as Hwrap.
  { intros z k Hz. unfold wrap32.
    assert ((z + 2147483648) `mod` 4294967296 = z - k * 4294967296 + 2147483648)%Z as ->
      by (symmetry; apply (Z.mod_unique _ _ k); lia). lia. }
  destruct (Z.ltb_spec (wrap32 total) 0) as [Hneg|Hpos].
  - destruct (select_buckets db _ _ _) as [bs|] eqn:Hsel; simplify_eq/=.
    apply select_buckets_ok in Hsel as (all & -> & Hperm & _). simpl.
    assert (foldl (λ c b, (c + bk_size b)%Z) 0%Z all = total) as ->.
    { assert (∀ l z, foldl (λ c b, (c + bk_size b)%Z) z l = (z + sum_of (bk_size <$> l))%Z) as Hf.
      { induction l as [|b l IH]; intros z; [simpl; lia|]. cbn [foldl]. rewrite IH, fmap_cons.
        unfold sum_of. cbn [foldr]. lia. }
      rewrite Hf. subst total. by rewrite Hperm. }
    split; [done|]. intros Hr. exfalso. rewrite (Hwrap total 1%Z) in Hneg by lia. lia.
  - simplify_eq. split.
    + intros Hr. destruct (Z.lt_ge_cases total 2147483648); [rewrite (Hwrap total 0%Z) by lia; lia|].
      rewrite (Hwrap total 1%Z) in Hpos by lia. lia.
    + intros Hr. rewrite (Hwrap total 1%Z) by lia. lia.
Qed.
End facts.

(** ** Storing *)

Section storing.
  Context {Hp : Type} `{BH : !BucketHeap Hp}.
  Implicit Types (st : @storage Hp).

Inductive storage_event :=
  | StoreCalled (now : Z) (call : nat) (msg : stream_message) (storedAt : Z)
  | RetryTimeout (now : Z) (call : nat)
  | ImmediateRuns (now : Z)
  | ManagerRuns (f : bucket_manager Hp → bucket_manager Hp)    (** a round of the bucket manager *)
  | BatchTimer (now : Z) (id : nat)                            (** the timer of a batch *)
  | InsertSettled (now : Z) (id : nat) (ok : bool).            (** Cassandra's answer to an insert *)

Definition batches_step (r : batch_manager * list batch_output) st : @storage Hp * list batch_output :=
  (MkStorage (st_retryInterval st) (st_bucketManager st) r.1 (st_pendingStores st) (st_immediates st), r.2).

(** The step, with what the batch manager does that is seen outside. *)
Definition storage_step st (ev : storage_event) : @storage Hp * list batch_output :=
  match ev with
  | StoreCalled now call msg storedAt => (store now call msg storedAt st, [])
  | RetryTimeout now call => (retry_store now call st, [])
  | ImmediateRuns now => (run_immediate now st, [])
  | ManagerRuns f =>
      (MkStorage (st_retryInterval st) (f (st_bucketManager st)) (st_batchManager st)
         (st_pendingStores st) (st_immediates st), [])
  | BatchTimer now id => batches_step (timer_runs now id (st_batchManager st)) st
  | InsertSettled now id ok => batches_step (insert_end now id ok (st_batchManager st)) st
  end.
Fixpoint storage_run st (evs : list storage_event) : @storage Hp * list batch_output :=
  match evs with
  | [] => (st, [])
  | ev :: evs' =>
      let '(st1, out1) := storage_step st ev in
      let '(st2, out2) := storage_run st1 evs' in (st2, out1 ++ out2)
  end.

Definition called (ev : storage_event) : list (InsertRecord * nat) :=
  match ev with StoreCalled _ call msg storedAt => [(to_record msg storedAt, call)] | _ => [] end.
Definition calls_fresh st (evs : list storage_event) : Prop :=
  NoDup ((evs ≫= called).*2) ∧ ∀ c, c ∈ (evs ≫= called).*2 → st_pendingStores st !! c = None.

(** The rounds of the bucket manager keep its buckets named, as [checkFullBuckets_names] and [store_end_names] say of
    the rounds of BucketManager.ts. *)
Definition rounds_keep_names (ev : storage_event) : Prop :=
  match ev with ManagerRuns f => ∀ k, names_ok k → names_ok (f k) | _ => True end.

(** The record that a query of an insert writes *)
Definition record_of (m : mutation) : list InsertRecord :=
  match m with
  | InsertData _ (DataRow streamId partition _ ts seq publisher chain (Some payload) (Some storedAt)) =>
      [MkInsertRecord streamId partition ts seq publisher chain payload storedAt]
  | _ => []
  end.

Lemma record_of_query useTtl bucketId r : record_of (insert_query useTtl bucketId r) = [r].
Proof. by destruct r. Qed.
Lemma records_of_queries useTtl bucketId l : (insert_query useTtl bucketId <$> l) ≫= record_of = l.
Proof. induction l as [|r l IH]; [done|]. rewrite fmap_cons, bind_cons, record_of_query, IH. done. Qed.
Lemma records_of_dropped useTtl out : (out ≫= dropped_queries useTtl) ≫= record_of = out ≫= dropped_of.
Proof.
  induction out as [|o out IH]; [done|]. rewrite !bind_cons, bind_app, IH. f_equal.
  destruct o; try done. apply records_of_queries.
Qed.

Definition pending_records st : list (InsertRecord * nat) :=
  (λ e, (to_record e.2.1.2 e.2.2, e.1)) <$> map_to_list (st_pendingStores st).
Definition immediate_records st : list (InsertRecord * nat) :=
  (λ e, (e.1.2, e.2)) <$> st_immediates st.
(** The records, and the calls, that wait for a bucket, for their immediate, or in a batch *)
Definition waiting_records st : list InsertRecord :=
  (held_queries (st_batchManager st) ≫= record_of) ++ (immediate_records st ++ pending_records st).*1.
Definition waiting_calls st : list nat :=
  held_cbs (st_batchManager st) ++ (immediate_records st ++ pending_records st).*2.

Lemma pending_records_insert call d msg storedAt m :
  m !! call = None →
  (λ e : nat * (Z * stream_message * Z), (to_record e.2.1.2 e.2.2, e.1))
    <$> map_to_list (<[call := (d, msg, storedAt)]> m)
  ≡ₚ (to_record msg storedAt, call)
     :: ((λ e : nat * (Z * stream_message * Z), (to_record e.2.1.2 e.2.2, e.1)) <$> map_to_list m).
Proof. intros Hm. by rewrite map_to_list_insert. Qed.

Lemma store_keeps now call msg storedAt st :
  st_pendingStores st !! call = None →
  pending_records (store now call msg storedAt st) ++ immediate_records (store now call msg storedAt st)
  ≡ₚ (to_record msg storedAt, call) :: pending_records st ++ immediate_records st.
Proof.
  intros Hfresh. unfold store. destruct (getBucketId _ _ _ _) as [bkm [id|]];
    unfold pending_records, immediate_records; simpl.
  - rewrite fmap_app. simpl. rewrite app_assoc, <-Permutation_cons_append. done.
  - by rewrite pending_records_insert.
Qed.

Lemma store_pending now call msg storedAt st c :
  c ≠ call → st_pendingStores (store now call msg storedAt st) !! c = st_pendingStores st !! c.
Proof.
  intros Hne. unfold store. destruct (getBucketId _ _ _ _) as [bkm [id|]]; simpl; [done|].
  by rewrite lookup_insert_ne.
Qed.

Record storage_inv st : Prop := {
  si_batches : bm_inv (st_batchManager st);
  si_names : names_ok (st_bucketManager st);
  si_immediates : Forall (λ e, e.1.1 ≠ "") (st_immediates st)
}.

Lemma storage_new_inv o useTtl : storage_inv (storage_new o useTtl).
Proof. split; [by apply bm_new_inv|apply km_new_names|constructor]. Qed.

(** What one step keeps, adds and lets out *)
Definition step_accounts st (ev : storage_event) (r : @storage Hp * list batch_output) : Prop :=
  storage_inv r.1 ∧ bm_opts (st_batchManager r.1) = bm_opts (st_batchManager st)
  ∧ (∀ sent, bm_inflight (st_batchManager st) ⊆ sent →
       bm_inflight (st_batchManager r.1) ⊆ sent_run sent r.2
       ∧ (called ev).*1 ++ waiting_records st ≡ₚ
           (acknowledged sent r.2 ≫= record_of) ++ (r.2 ≫= dropped_of) ++ waiting_records r.1)
  ∧ (called ev).*2 ++ waiting_calls st ≡ₚ (r.2 ≫= called_of) ++ waiting_calls r.1
  ∧ ∀ c, st_pendingStores st !! c = None → c ∉ (called ev).*2 → st_pendingStores r.1 !! c = None.

(** A step before the batches *)
Lemma before_batches_accounts st st' ev :
  storage_inv st' → st_batchManager st' = st_batchManager st →
  pending_records st' ++ immediate_records st' ≡ₚ called ev ++ pending_records st ++ immediate_records st →
  (∀ c, st_pendingStores st !! c = None → c ∉ (called ev).*2 → st_pendingStores st' !! c = None) →
  step_accounts st ev (st', []).
Proof.
  intros Hinv Hb Hrec Hkeep. split; [done|]. unfold waiting_records, waiting_calls. simpl. rewrite Hb.
  assert (immediate_records st' ++ pending_records st' ≡ₚ
    called ev ++ immediate_records st ++ pending_records st) as Hrec'.
  { rewrite (Permutation_app_comm (immediate_records st')), Hrec. solve_Permutation. }
  split; [done|]. split; [intros sent Hs; split; [done|]|split; [|done]].
  - rewrite Hrec', (fmap_app _ (called ev)). solve_Permutation.
  - rewrite Hrec', (fmap_app _ (called ev)). solve_Permutation.
Qed.

Lemma store_inv now call msg storedAt st : storage_inv st → storage_inv (store now call msg storedAt st).
Proof.
  intros [Hb Hn Hi]. unfold store.
  destruct (getBucketId_names (sm_streamId msg) (sm_partition msg) (sm_timestamp msg) _ Hn) as [Hn' Hid].
  destruct (getBucketId _ _ _ _) as [bkm [id|]]; simpl in *; split; simpl; try done.
  - by apply incrementBucket_names.
  - apply Forall_app. split; [done|]. apply Forall_singleton. simpl. congruence.
Qed.

Lemma store_batches now call msg storedAt st : st_batchManager (store now call msg storedAt st) = st_batchManager st.
Proof. unfold store. by destruct (getBucketId _ _ _ _) as [bkm [id|]]. Qed.

(** A record that leaves its immediate is in a batch. *)
Lemma immediate_accounts now st ev : storage_inv st → called ev = [] → step_accounts st ev (run_immediate now st, []).
Proof.
  intros Hinv Hev. pose proof Hinv as [Hb Hn Hi]. unfold run_immediate.
  destruct (st_immediates st) as [|[[id r] call] rest] eqn:Himm.
  { apply before_batches_accounts; try done. by rewrite Hev. }
  apply Forall_cons in Hi as [Hid Hi]. simpl in Hid.
  assert ((String.length id =? 0)%nat = false) as Hlen by (by destruct id).
  destruct (store_step_ok now (st_batchManager st) id r (Some call) Hb Hlen) as [_ (Hb' & Ho & _ & Hq & Hc)].
  simpl in *. split; [by split|]. unfold waiting_records, waiting_calls, immediate_records, pending_records. simpl.
  rewrite Himm, Hev. simpl. split; [done|]. split; [|split; [|done]].
  - intros sent Hs. destruct (Hq sent Hs) as [Hs' Hq']. split; [done|]. rewrite <-Hq', bind_app, bind_cons, record_of_query.
    simpl. solve_Permutation.
  - rewrite <-Hc. solve_Permutation.
Qed.

(** The batch manager works on its own. *)
Lemma batches_accounts st ev r :
  storage_inv st → called ev = [] → step_ok (st_batchManager st) [] [] r → step_accounts st ev (batches_step r st).
Proof.
  intros [Hb Hn Hi] Hev (Hb' & Ho & _ & Hq & Hc). split; [by split|].
  unfold waiting_records, waiting_calls, immediate_records, pending_records. simpl. rewrite Hev. simpl.
  rewrite app_nil_r in Hc. split; [done|]. split; [|split; [|done]].
  - intros sent Hs. destruct (Hq sent Hs) as [Hs' Hq']. split; [done|].
    rewrite app_nil_r in Hq'. by rewrite Hq', !bind_app, records_of_dropped, <-!app_assoc.
  - by rewrite Hc, <-!app_assoc.
Qed.

Lemma storage_step_accounts st ev :
  storage_inv st → rounds_keep_names ev → (∀ c, c ∈ (called ev).*2 → st_pendingStores st !! c = None) →
  step_accounts st ev (storage_step st ev).
Proof.
  intros Hinv Hround Hfresh. destruct ev as [now call msg storedAt|now call|now|f|now id|now id ok]; simpl in *.
  - apply before_batches_accounts; [by apply store_inv|apply store_batches|..].
    + apply store_keeps, Hfresh. by left.
    + intros c Hc Hne%not_elem_of_cons. rewrite store_pending; [done|tauto].
  - unfold retry_store. destruct (st_pendingStores st !! call) as [[[d msg] sa]|] eqn:Hc;
      [|by apply before_batches_accounts].
    destruct (d <=? now)%Z; [|by apply before_batches_accounts].
    set (st0 := MkStorage _ _ _ (base.delete call (st_pendingStores st)) _).
    assert (st_pendingStores st0 !! call = None) as H0 by apply lookup_delete_eq.
    apply before_batches_accounts; [apply store_inv; destruct Hinv; by split|exact (store_batches now call msg sa st0)|..].
    + rewrite (store_keeps now call msg sa st0 H0). simpl. unfold pending_records at 2.
      rewrite <-(insert_delete_id (st_pendingStores st) call (d, msg, sa)) at 1 by done.
      rewrite pending_records_insert by apply lookup_delete_eq. done.
    + intros c Hcn _. rewrite store_pending by congruence. simpl. apply lookup_delete_None. auto.
  - by apply immediate_accounts.
  - apply before_batches_accounts; try done. destruct Hinv. split; [done|by apply Hround|done].
  - apply batches_accounts; [done..|]. apply timer_step_ok, Hinv.
  - apply batches_accounts; [done..|]. apply insert_end_step_ok, Hinv.
Qed.

Lemma storage_run_accounts st evs sent :
  storage_inv st → calls_fresh st evs → Forall rounds_keep_names evs → bm_inflight (st_batchManager st) ⊆ sent →
  let '(st', out) := storage_run st evs in
  (evs ≫= called).*1 ++ waiting_records st ≡ₚ
    (acknowledged sent out ≫= record_of) ++ (out ≫= dropped_of) ++ waiting_records st'
  ∧ (evs ≫= called).*2 ++ waiting_calls st ≡ₚ (out ≫= called_of) ++ waiting_calls st'.
Proof.
  revert st sent. induction evs as [|ev evs IH]; intros st sent Hinv [Hnd Hfresh] Hrounds Hsent; [done|].
  apply Forall_cons in Hrounds as [Hround Hrounds]. simpl in *.
  rewrite fmap_app in Hnd. apply NoDup_app in Hnd as (_ & Hdisj & Hnd).
  setoid_rewrite fmap_app in Hfresh. setoid_rewrite elem_of_app in Hfresh.
  destruct (storage_step_accounts st ev Hinv Hround ltac:(auto)) as (Hinv1 & _ & Hq & Hc & Hother).
  destruct (storage_step st ev) as [st1 out1]. simpl in *. destruct (Hq sent Hsent) as [Hsent1 Hq1].
  assert (calls_fresh st1 evs) as Hf1.
  { split; [done|]. intros c Hin. apply Hother; [by auto|]. intros Hin'. by eapply Hdisj. }
  specialize (IH st1 (sent_run sent out1) Hinv1 Hf1 Hrounds Hsent1).
  destruct (storage_run st1 evs) as [st2 out2]. destruct IH as [IHq IHc].
  rewrite acknowledged_app, !bind_app, !fmap_app. split.
  - set (a1 := acknowledged sent out1 ≫= _) in *. set (d1 := out1 ≫= dropped_of) in *.
    transitivity ((evs ≫= called).*1 ++ ((called ev).*1 ++ waiting_records st)); [solve_Permutation|].
    rewrite Hq1. transitivity (a1 ++ d1 ++ ((evs ≫= called).*1 ++ waiting_records st1)); [solve_Permutation|].
    rewrite IHq. solve_Permutation.
  - set (c1 := out1 ≫= called_of) in *.
    transitivity ((evs ≫= called).*2 ++ ((called ev).*2 ++ waiting_calls st)); [solve_Permutation|].
    rewrite Hc. transitivity (c1 ++ ((evs ≫= called).*2 ++ waiting_calls st1)); [solve_Permutation|].
    rewrite IHc. solve_Permutation.
Qed.

(** C37: a message given to [store] is never lost on its way to Cassandra: after any calls, retries, rounds of the bucket
    manager, immediates, timers of batches and answers to inserts, in any order, the record of each call waits for a
    bucket, waits for its immediate, is held by a batch, was dropped with its batch after the last retry, or was in an
    insert that Cassandra fulfilled (read from the queries sent to it), exactly one of these and once; and the promise of
    each call was resolved once, or its callback waits in one of these places (for ever in a batch that was dropped). *)
Theorem stores_account_for_messages o useTtl evs :
  calls_fresh (storage_new o useTtl) evs → Forall rounds_keep_names evs →
  let '(st, out) := storage_run (storage_new o useTtl) evs in
  (evs ≫= called).*1 ≡ₚ
    (acknowledged ∅ out ≫= record_of) ++ (out ≫= dropped_of)
    ++ (held_queries (st_batchManager st) ≫= record_of) ++ (immediate_records st).*1 ++ (pending_records st).*1
  ∧ (evs ≫= called).*2 ≡ₚ
    (out ≫= called_of) ++ held_cbs (st_batchManager st) ++ (immediate_records st).*2 ++ (pending_records st).*2.
Proof.
  intros Hfresh Hrounds.
  pose proof (storage_run_accounts _ evs ∅ (storage_new_inv o useTtl) Hfresh Hrounds (reflexivity _)) as Hrun.
  destruct (storage_run _ evs) as [st out]. unfold waiting_records, waiting_calls in Hrun. rewrite !fmap_app in Hrun.
  unfold held_queries at 1, held_cbs at 1, heap_list in Hrun. simpl in Hrun. by rewrite !app_nil_r in Hrun.
Qed.
End storing.

(** * Witnesses *)

Module StorageWitness.
Import BucketWitness.
Definition row (bucketId : string) (t seq : Z) : data_row :=
  DataRow "s" 0 bucketId t seq "0xp" "chain" (Some "payload") (Some t).
Definition bucket_rows' : gset bucket_row :=
  {[ BucketRow "s" 0 0 "A" 3 2500000000; BucketRow "s" 0 1000000 "B" 1 2500000000 ]}.
Definition data_rows : gset data_row :=
  {[ row "A" 1100000 3; row "A" 1100000 6; row "A" 1100000 9; row "B" 1100001 0 ]}.
Definition db : mem_db := MemDb bucket_rows' data_rows.
Definition st : @storage (list (Z * nat)) := storage_new default_bucket_options false.
Definition rows_of {A} (o : outcome js_error (list A)) : list A :=
  match o with Return l => l | Throw _ => [] end.

Lemma db_seq r :
  r ∈ db_data db → (MIN_SEQUENCE_NUMBER_VALUE ≤ dr_seq r ≤ MAX_SEQUENCE_NUMBER_VALUE)%Z.
Proof.
  simpl. unfold data_rows, MIN_SEQUENCE_NUMBER_VALUE, MAX_SEQUENCE_NUMBER_VALUE.
  rewrite !elem_of_union, !elem_of_singleton. intros [[[->| ->]| ->]| ->]; simpl; lia.
Qed.

Lemma db_keys r1 r2 :
  r1 ∈ db_buckets db → r2 ∈ db_buckets db → bucket_key r1 = bucket_key r2 → r1 = r2.
Proof.
  simpl. unfold bucket_rows'. rewrite !elem_of_union, !elem_of_singleton.
  intros [-> | ->] [-> | ->]; by intros [=].
Qed.

Definition range_rows : list data_row :=
  rows_of (fetchRange 0 db st "s" 0 1050000 0 1100000 6 None None).
Lemma fetchRange_exact_witness : NoDup range_rows ∧ length range_rows = 2.
Proof.
  split; [|vm_compute; reflexivity].
  apply (fetchRange_exact 0 db st "s" 0 1050000 0 1100000 6 None None range_rows);
    [vm_compute; reflexivity|left; lia|exact db_seq].
Defined.

Lemma range_read_complete_witness : row "A" 1100000 3 ∈ range_rows.
Proof.
  apply (range_read_complete 0 db st "s" 0 1050000 0 1100000 6 None None range_rows
    (row "A" 1100000 3) (BucketRow "s" 0 0 "A" 3 2500000000));
    [vm_compute; reflexivity|left; lia|exact db_seq|exact db_keys|..].
  - simpl. unfold data_rows. rewrite !elem_of_union, !elem_of_singleton. auto.
  - repeat split; discriminate.
  - unfold in_range; simpl; lia.
  - simpl. unfold bucket_rows'. rewrite elem_of_union, !elem_of_singleton. auto.
  - done.
  - done.
  - simpl. lia.
  - intros row'. simpl. unfold bucket_rows'. rewrite elem_of_union, !elem_of_singleton.
    unfold BUCKET_LOOKBACK_MS. intros [-> | ->]; simpl; lia.
Defined.

(** Asked for the sequence numbers 5 to 7 at one timestamp: 6 comes twice, 3 and 9 come too. *)
Lemma fetchRange_same_timestamp_witness :
  ∃ rows1 rows2, rows_of (fetchRange 0 db st "s" 0 1100000 5 1100000 7 None None) = rows1 ++ rows2
  ∧ row "A" 1100000 9 ∈ rows1 ∧ row "A" 1100000 3 ∈ rows2.
Proof.
  destruct (fetchRange_same_timestamp 0 db st "s" 0 1100000 5 7 None None
    (rows_of (fetchRange 0 db st "s" 0 1100000 5 1100000 7 None None))
    (rows_of (getBucketsByTimestamp 0 db "s" 0 (Some 500000%Z) (Some 1100000%Z)
                (st_bucketManager st)))) as (rows1 & rows2 & Heq & H1 & H2);
    [vm_compute; reflexivity..|intros [Hbad _]; discriminate Hbad|].
  exists rows1, rows2. split; [exact Heq|].
  split; [apply H1|apply H2]; (split; [refine (bool_decide_eq_true_1 _ _); vm_compute; reflexivity|]);
    (split; [repeat split; discriminate|]); (split; [refine (bool_decide_eq_true_1 _ _); vm_compute; reflexivity|]);
    (split; [reflexivity|simpl; lia]).
Defined.

Definition last_rows : list data_row := rows_of (requestLast_rows db "s" 0 2).
Lemma requestLast_latest_witness : StronglySorted ts_seq_le last_rows ∧ length last_rows ≤ 2.
Proof.
  destruct (requestLast_latest db "s" 0 2 last_rows) as (Hs & _ & Hl & _);
    [vm_compute; reflexivity|lia|vm_compute; reflexivity| |split; [exact Hs|exact Hl]].
  simpl. unfold bucket_rows'. intros r1 r2. rewrite !elem_of_union, !elem_of_singleton.
  intros [-> | ->] [-> | ->] _ _; by intros [=].
Defined.

Lemma getRowKeys_covers_witness :
  MkStoredRowKey 1100000 6 "0xp" ∈ rows_of (getRowKeys 0 db st "s" 0 [1100000%Z; 1100001%Z]).
Proof.
  apply (getRowKeys_covers 0 db st "s" 0 [1100000%Z; 1100001%Z] _ 1100000 6
    (rows_of (getMessages 0 db st "s" 0 1100000 6)) (to_stored_row (row "A" 1100000 6)));
    [vm_compute; reflexivity|vm_compute; reflexivity|exact db_keys|left|vm_compute; left].
Defined.

Definition after_delete : mem_db := (deleteMessage "s" 0 (to_stored_row (row "A" 1100000 6)) db).1.
Lemma deleteMessage_exact_witness :
  row "A" 1100000 9 ∈ db_data after_delete ∧ row "A" 1100000 6 ∉ db_data after_delete.
Proof.
  destruct (deleteMessage_exact db (row "A" 1100000 6) after_delete) as [_ Hiff]; [reflexivity|].
  rewrite !Hiff. split; [|by intros [_ []]].
  split; [refine (bool_decide_eq_true_1 _ _); vm_compute; reflexivity|discriminate].
Defined.

(** Two buckets of 2.5 GB are counted as 0.7 GB. *)
Lemma getTotalBytesInStream_wraps_witness :
  getTotalBytesInStream db "s" 0 = Return 705032704%Z.
Proof.
  destruct (getTotalBytesInStream db "s" 0) as [bytes|] eqn:Hb; [|vm_compute in Hb; discriminate].
  destruct (getTotalBytesInStream_wraps db "s" 0 5000000000 bytes) as [_ Hw];
    [exact Hb|vm_compute; reflexivity|]. rewrite Hw by lia. reflexivity.
Defined.

Definition message (t : Z) : stream_message := StreamMessage "s" 0 t 0 "0xp" "chain" "payload".
(** The first message finds no bucket; a round of the bucket manager opens one, the retry and the second message fill the
    batch of it, which is locked, inserted and acknowledged. *)
Definition store_events : list (@storage_event (list (Z * nat))) :=
  [StoreCalled 0 1 (message 100) 0; ManagerRuns (λ k, (checkFullBuckets (λ _ _, "bucket") 100 (MemDb ∅ ∅) k).1);
   RetryTimeout 500 1; StoreCalled 501 2 (message 101) 501; ImmediateRuns 502; ImmediateRuns 502;
   StoreCalled 503 3 (message 102) 503; BatchTimer 1502 0; BatchTimer 1503 0; InsertSettled 1504 0 true].
Definition stored_run := storage_run st store_events.
Lemma stores_account_for_messages_witness :
  acknowledged ∅ stored_run.2 ≫= record_of = [to_record (message 100) 0; to_record (message 101) 501] ∧
  (store_events ≫= called).*2 ≡ₚ
    (stored_run.2 ≫= called_of) ++ held_cbs (st_batchManager stored_run.1)
    ++ (immediate_records stored_run.1).*2 ++ (pending_records stored_run.1).*2.
Proof.
  split; [vm_compute; reflexivity|].
  pose proof (stores_account_for_messages default_bucket_options false store_events) as H.
  unfold stored_run, st. destruct (storage_run _ store_events) as [st' out]. apply H.
  - split; [|intros c _; apply lookup_empty]. refine (bool_decide_eq_true_1 _ _). vm_compute. reflexivity.
  - repeat constructor. intros k. apply checkFullBuckets_names.
Defined.
End StorageWitness.
