(* ===== verification/Retention.v ===== *)
(** Retention (packages/node/src/plugins/storage/DeleteExpiredCmd.ts and
    RetentionScheduler.ts): the three phases that delete stored data, the guards of
    the orphan sweep and the schedule of the runs.

    Each phase is a function of the database and of the answers of the chain:
    [storageDayCount streamId] is what [getStream] and [getStorageDayCount] answer,
    [getStream n streamId] what the [n]-th attempt of [classify] is answered. *)

From S2P Require Import Prelude.
From S2P Require Import Js.
From S2P Require Import TtlMap.
From S2P Require Import Cassandra.

Set Default Proof Using "Type".

Definition DAY_MS : Z := 24 * 60 * 60 * 1000.
Definition HOUR_MS : Z := 60 * 60 * 1000.
Definition STARTUP_DELAY_MS : Z := 10 * 60 * 1000.

Record RetentionConfig := MkRetentionConfig {
  rc_intervalHours : Z; rc_graceDays : Z; rc_abortFractionPercent : Z; rc_abortMinStreams : Z;
  rc_bucketDeleteLimit : Z; rc_rowDeleteLimit : Z
}.

(** * DeleteExpiredCmd.ts *)

Record StreamPartInfo := MkStreamPartInfo { pi_streamId : string; pi_partition : Z; pi_storageDays : Z }.
Record BucketInfo := MkBucketInfo {
  bi_bucketId : string; bi_dateCreate : Z; bi_streamId : string; bi_partition : Z;
  bi_records : Z; bi_size : Z; bi_storageDays : Z
}.

Inductive StreamState := Exists (sid : string) | Deleted (sid : string) | Errored (sid code : string).
Definition state_sid (c : StreamState) : string :=
  match c with Exists sid | Deleted sid | Errored sid _ => sid end.

Section retention.
  Context {DB : Type} `{CC : !CassandraClient DB}.
  Context (storageDayCount : string → outcome js_error (option Z)).
  Context (getStream : nat → string → outcome js_error unit).

(** [(await streamFromChain.getStorageDayCount()) ?? 365], or nothing when the chain
    cannot tell *)
Definition storageDaysOf (streamId : string) : option Z :=
  match storageDayCount streamId with
  | Return d => Some (default 365%Z d)
  | Throw _ => None
  end.

Definition fetchStreamsInfo (streams : list (string * Z)) : list (option StreamPartInfo) :=
  (λ p, MkStreamPartInfo p.1 p.2 <$> storageDaysOf p.1) <$> streams.

Definition expiry (now storageDays : Z) : Z := (now - 1000 * 60 * 60 * 24 * storageDays)%Z.

Definition getPotentiallyExpiredBuckets (now : Z) (db : DB) (streamsInfo : list (option StreamPartInfo))
    : list BucketInfo :=
  omap id streamsInfo ≫= λ s,
    match select_buckets db (BucketWhere (pi_streamId s) (pi_partition s)
            [CLe (expiry now (pi_storageDays s))]) Unordered None with
    | Return rows =>
        (λ row, MkBucketInfo (bk_id row) (bk_date row) (bk_stream row) (bk_partition row)
                  (bk_records row) (bk_size row) (pi_storageDays s)) <$> rows
    | Throw _ => []
    end.

Definition bucket_data (streamId : string) (partition : Z) (bucketId : string) (ts : list cond)
    : data_where := DataWhere streamId partition [bucketId] ts [] None None.

(** The newest message of the bucket is past its stream's storage days. *)
Definition is_expired (now : Z) (db : DB) (b : BucketInfo) : bool :=
  match max_ts db (bucket_data (bi_streamId b) (bi_partition b) (bi_bucketId b) []) with
  | Return [] => true
  | Return (None :: _) => true
  | Return (Some m :: _) => (m <? expiry now (bi_storageDays b))%Z
  | Throw _ => false
  end.
Definition filterExpiredBuckets (now : Z) (db : DB) (bs : list BucketInfo) : list BucketInfo :=
  filter (λ b, is_expired now db b = true) bs.

Definition delete_bucket_queries (streamId : string) (partition dateCreate : Z) (bucketId : string)
    : list mutation :=
  [DeleteBucket (BucketWhere streamId partition [CEq dateCreate]);
   DeleteData (bucket_data streamId partition bucketId [])].

Definition deleteExpired (bs : list BucketInfo) (db : DB) : DB :=
  foldl (λ db b, (execute_batch db (delete_bucket_queries (bi_streamId b) (bi_partition b)
                    (bi_dateCreate b) (bi_bucketId b))).1) db bs.

(** [run] of a command that is no dry run *)
Definition delete_expired_run (now bucketLimit : Z) : eff DB js_error unit := λ db,
  match distinct_parts db with
  | Throw e => (db, Throw e)
  | Return streams =>
      let streamsInfo := fetchStreamsInfo streams in
      let potentialBuckets := getPotentiallyExpiredBuckets now db streamsInfo in
      let cutPotentialBuckets := take (Z.to_nat bucketLimit) potentialBuckets in
      let expiredBuckets := filterExpiredBuckets now db cutPotentialBuckets in
      (deleteExpired expiredBuckets db, Return tt)
  end.

(** * RetentionScheduler.ts: row sweep *)

(** The buckets of one stream part; [None] says the sweep returned at the limit. *)
Fixpoint sweep_buckets (limit cutoff : Z) (streamId : string) (partition : Z) (ids : list string)
    (rowsDeleted : Z) : eff DB js_error (option Z) :=
  match ids with
  | [] => eff_ret (Some rowsDeleted)
  | id :: ids' => λ db,
      match count_data db (bucket_data streamId partition id [CLt cutoff]) with
      | Throw e => (db, Throw e)
      | Return count =>
          if (count =? 0)%Z then sweep_buckets limit cutoff streamId partition ids' rowsDeleted db
          else if (limit <? rowsDeleted + count)%Z then (db, Return None)
          else match execute_batch db [DeleteData (bucket_data streamId partition id [CLt cutoff])] with
               | (db', Throw e) => (db', Throw e)
               | (db', Return _) =>
                   sweep_buckets limit cutoff streamId partition ids' (rowsDeleted + count) db'
               end
      end
  end.

Fixpoint sweep_parts (now limit : Z) (pairs : list (string * Z)) (rowsDeleted : Z)
    : eff DB js_error unit :=
  match pairs with
  | [] => eff_ret tt
  | (streamId, partition) :: pairs' => λ db,
      if (limit <=? rowsDeleted)%Z then (db, Return tt)
      else match storageDaysOf streamId with
           | None => sweep_parts now limit pairs' rowsDeleted db
           | Some storageDays =>
               let cutoff := (now - storageDays * DAY_MS)%Z in
               match select_buckets db (BucketWhere streamId partition [CLe cutoff]) Unordered None with
               | Throw e => (db, Throw e)
               | Return buckets =>
                   match sweep_buckets limit cutoff streamId partition (bk_id <$> buckets)
                           rowsDeleted db with
                   | (db', Throw e) => (db', Throw e)
                   | (db', Return None) => (db', Return tt)
                   | (db', Return (Some n)) => sweep_parts now limit pairs' n db'
                   end
               end
           end
  end.

Definition rowSweep (now : Z) (c : RetentionConfig) : eff DB js_error unit := λ db,
  match distinct_parts db with
  | Throw e => (db, Throw e)
  | Return pairs => sweep_parts now (rc_rowDeleteLimit c) pairs 0 db
  end.

(** * Orphan sweep *)

Definition err_code_or (e : js_error) : string := default "UNKNOWN" (err_code e).

Fixpoint classify_from (attempt left : nat) (code streamId : string) : StreamState :=
  match left with
  | O => Errored streamId code
  | S left' =>
      match getStream attempt streamId with
      | Return _ => Exists streamId
      | Throw e => if has_code "STREAM_NOT_FOUND" e then Deleted streamId
                   else classify_from (S attempt) left' (err_code_or e) streamId
      end
  end.
Definition classify (streamId : string) : StreamState := classify_from 0 3 "UNKNOWN" streamId.

Definition is_error (s : StreamState) : bool := match s with Errored _ _ => true | _ => false end.
Definition is_deleted (s : StreamState) : bool := match s with Deleted _ => true | _ => false end.

Record candidate := MkCandidate {
  cd_streamId : string; cd_partition : Z; cd_bucketId : string; cd_dateCreate : Z
}.

(** The buckets of one deleted stream part, up to the limit *)
Fixpoint candidates_of_part (now graceMs limit : Z) (db : DB) (streamId : string) (partition : Z)
    (buckets : list bucket_row) (acc : list candidate) : outcome js_error (list candidate) :=
  match buckets with
  | [] => Return acc
  | b :: buckets' =>
      if (limit <=? Z.of_nat (length acc))%Z then Return acc
      else (let? maxRs := max_ts db (bucket_data streamId partition (bk_id b) []) in
            let newest := match maxRs with
                          | Some m :: _ => m
                          | _ => bk_date b
                          end in
            let acc' := if (graceMs <=? now - newest)%Z
                        then acc ++ [MkCandidate streamId partition (bk_id b) (bk_date b)] else acc in
            candidates_of_part now graceMs limit db streamId partition buckets' acc')%eff
  end.

Fixpoint find_candidates (now graceMs limit : Z) (db : DB) (pairs : list (string * Z))
    (acc : list candidate) : outcome js_error (list candidate) :=
  match pairs with
  | [] => Return acc
  | (streamId, partition) :: pairs' =>
      (let? buckets := select_buckets db (BucketWhere streamId partition []) Unordered None in
       let? acc' := candidates_of_part now graceMs limit db streamId partition buckets acc in
       find_candidates now graceMs limit db pairs' acc')%eff
  end.

Fixpoint delete_candidates (cs : list candidate) : eff DB js_error unit :=
  match cs with
  | [] => eff_ret tt
  | c :: cs' => λ db,
      match execute_batch db (delete_bucket_queries (cd_streamId c) (cd_partition c)
                                (cd_dateCreate c) (cd_bucketId c)) with
      | (db', Throw e) => (db', Throw e)
      | (db', Return _) => delete_candidates cs' db'
      end
  end.

(** [fraction > abortFractionPercent / 100], without the divisions *)
Definition suspicious (c : RetentionConfig) (deleted total : Z) : bool :=
  (rc_abortMinStreams c <=? total)%Z && (rc_abortFractionPercent c * total <? deleted * 100)%Z.

Definition orphanSweep (now : Z) (c : RetentionConfig) : eff DB js_error unit := λ db,
  match distinct_parts db with
  | Throw e => (db, Throw e)
  | Return pairs =>
      let streamIds := remove_dups pairs.*1 in
      let classified := classify <$> streamIds in
      let errors := filter (λ s, is_error s = true) classified in
      if (0 <? length errors)%nat then (db, Return tt)
      else
        let deleted := state_sid <$> filter (λ s, is_deleted s = true) classified in
        if suspicious c (Z.of_nat (length deleted)) (Z.of_nat (length streamIds)) then (db, Return tt)
        else if (length deleted =? 0)%nat then (db, Return tt)
        else match find_candidates now (rc_graceDays c * DAY_MS) (rc_bucketDeleteLimit c) db
                     (filter (λ p, p.1 ∈ deleted) pairs) [] with
             | Throw e => (db, Throw e)
             | Return cs => delete_candidates cs db
             end
  end.

(** [runOnce], when no run is in progress: the three phases in order; an error ends the run. *)
Definition runOnce (now : Z) (c : RetentionConfig) : eff DB js_error unit :=
  (delete_expired_run now (rc_bucketDeleteLimit c);; rowSweep now c;; orphanSweep now c)%eff.
End retention.

(** * The schedule *)

(** [readLastRun]: the state file as a number, when it is there and finite. *)
Definition readLastRun (number : string → jsnum) (file : option string) : option Z :=
  match file with
  | Some text => match number text with
                 | JFin z => Some z
                 | JFrac f _ => Some f
                 | _ => None
                 end
  | None => None
  end.

Definition firstRunDelay (now : Z) (c : RetentionConfig) (lastRun : option Z) : Z :=
  let intervalMs := (rc_intervalHours c * HOUR_MS)%Z in
  match lastRun with
  | None => STARTUP_DELAY_MS
  | Some t =>
      let sinceLastRun := (now - t)%Z in
      if (sinceLastRun <? 0)%Z || (intervalMs <=? sinceLastRun)%Z then STARTUP_DELAY_MS
      else Z.max STARTUP_DELAY_MS (intervalMs - sinceLastRun)
  end.

Record scheduler := MkScheduler {
  sc_config : RetentionConfig;
  sc_timeout : option Z;            (** when the next run is due *)
  sc_runs : nat;                    (** runs whose promise has not settled *)
  sc_stopped : bool;
  sc_lastRun : option Z             (** the state file *)
}.
Definition schedule (now delay : Z) (s : scheduler) : scheduler :=
  MkScheduler (sc_config s) (Some (now + timer_delay delay)%Z) (sc_runs s) (sc_stopped s) (sc_lastRun s).
Definition scheduler_start (now : Z) (s : scheduler) : scheduler :=
  schedule now (firstRunDelay now (sc_config s) (sc_lastRun s))
    (MkScheduler (sc_config s) (sc_timeout s) (sc_runs s) false (sc_lastRun s)).
Definition scheduler_stop (s : scheduler) : scheduler :=
  MkScheduler (sc_config s) None (sc_runs s) true (sc_lastRun s).
(** The timer runs: the run is recorded and [runOnce] called. *)
Definition timer_fires (now : Z) (s : scheduler) : scheduler :=
  match sc_timeout s with
  | Some t => if (t <=? now)%Z
              then MkScheduler (sc_config s) None (S (sc_runs s)) (sc_stopped s) (Some now) else s
  | None => s
  end.
(** The promise of [runOnce] settles. *)
Definition run_settles (now : Z) (s : scheduler) : scheduler :=
  match sc_runs s with
  | O => s
  | S n =>
      let s' := MkScheduler (sc_config s) (sc_timeout s) n (sc_stopped s) (sc_lastRun s) in
      if sc_stopped s then s' else schedule now (rc_intervalHours (sc_config s) * 60 * 60 * 1000) s'
  end.

(** * Facts *)

Section facts.
  Context {DB : Type} `{CC : !CassandraClient DB}.
  Implicit Types (db : DB) (P : data_row → Prop).

(** From [db] to [db'] no row appears, and the rows that disappear satisfy [P]. *)
Definition loses db db' P : Prop :=
  db_data db' ⊆ db_data db ∧ ∀ r, r ∈ db_data db → r ∉ db_data db' → P r.

Lemma loses_refl db P : loses db db P.
Proof. split; [done|]. by intros. Qed.

Lemma loses_mono db db' P Q : (∀ r, r ∈ db_data db → P r → Q r) → loses db db' P → loses db db' Q.
Proof. intros HPQ [? HP]. split; auto. Qed.

Lemma loses_trans db1 db2 db3 P : loses db1 db2 P → loses db2 db3 P → loses db1 db3 P.
Proof.
  intros [Hs1 HP1] [Hs2 HP2]. split; [set_solver|]. intros r Hr Hn.
  destruct (decide (r ∈ db_data db2)); auto.
Qed.

Lemma loses_execute db db' res w ms :
  forallb is_delete ms = true → (∀ w', DeleteData w' ∈ ms → w' = w) →
  execute_batch db ms = (db', res) → loses db db' (λ r, data_matches w r = true).
Proof.
  intros Hdel Hw Hex. apply execute_batch_ok in Hex as [[_ Hd]|(_ & _ & Hd)].
  - split.
    + intros r. rewrite Hd, apply_deletes_data by done. tauto.
    + intros r Hr. rewrite Hd, apply_deletes_data by done. intros Hn.
      destruct (data_matches w r) eqn:Hm; [done|]. destruct Hn. split; [done|].
      intros w' Hw'. by rewrite (Hw w' Hw').
  - split; [by rewrite Hd|]. intros r Hr. by rewrite Hd.
Qed.

Lemma loses_bucket db db' res streamId partition date id :
  execute_batch db (delete_bucket_queries streamId partition date id) = (db', res) →
  loses db db' (λ r, dr_stream r = streamId ∧ dr_partition r = partition ∧ dr_bucket r = id).
Proof.
  intros Hex. eapply loses_mono;
    [|eapply (loses_execute _ _ _ (bucket_data streamId partition id [])); [| |exact Hex]].
  - intros r _ (? & ? & Hb & _)%data_matches_spec. simpl in *. by apply list_elem_of_singleton in Hb.
  - done.
  - intros w'. unfold delete_bucket_queries. rewrite !elem_of_cons.
    intros [Hw|[Hw|Hw]]; [done|by injection Hw|by apply not_elem_of_nil in Hw].
Qed.

Lemma bucket_data_matches streamId partition id r :
  dr_stream r = streamId → dr_partition r = partition → dr_bucket r = id →
  data_matches (bucket_data streamId partition id []) r = true.
Proof.
  intros <- <- <-. apply data_matches_spec. simpl.
  rewrite !Forall_nil, list_elem_of_singleton. done.
Qed.

(** The answer of MAX(ts) over a bucket bounds its rows. *)
Lemma max_ts_bound db streamId partition id rows r :
  max_ts db (bucket_data streamId partition id []) = Return rows →
  r ∈ db_data db → dr_stream r = streamId → dr_partition r = partition → dr_bucket r = id →
  ∃ m, rows = [Some m] ∧ (dr_ts r ≤ m)%Z.
Proof.
  intros Hmax Hr Hs Hp Hb. apply max_ts_ok in Hmax as ->.
  assert (dr_ts r ∈ dr_ts <$> elements (filter (λ r, data_matches (bucket_data streamId partition id [])
    r = true) (db_data db))) as Hin.
  { apply list_elem_of_fmap_2. rewrite elem_of_elements, elem_of_filter.
    split; [by apply bucket_data_matches|done]. }
  destruct (max_of _) as [m|] eqn:Hm.
  - exists m. split; [done|]. by eapply max_of_ge.
  - apply max_of_None in Hm. rewrite Hm in Hin. by apply not_elem_of_nil in Hin.
Qed.
End facts.

Section phases.
  Context {DB : Type} `{CC : !CassandraClient DB}.
  Context (storageDayCount : string → outcome js_error (option Z)).
  Context (getStream : nat → string → outcome js_error unit).
  Implicit Types (db : DB).

(** A row past the storage days of its stream *)
Definition past_storage_days (now : Z) (r : data_row) : Prop :=
  ∃ days, storageDaysOf storageDayCount (dr_stream r) = Some days ∧ (dr_ts r < now - days * DAY_MS)%Z.

Lemma deleteExpired_loses bs db :
  loses db (deleteExpired bs db) (λ r, ∃ b, b ∈ bs ∧ dr_stream r = bi_streamId b
    ∧ dr_partition r = bi_partition b ∧ dr_bucket r = bi_bucketId b).
Proof.
  unfold deleteExpired. revert db. induction bs as [|b bs IH]; intros db; simpl; [apply loses_refl|].
  destruct (execute_batch db _) as [db1 res] eqn:Hex. simpl.
  eapply loses_trans; [eapply loses_mono; [|by eapply loses_bucket]|eapply loses_mono; [|apply IH]].
  - intros r _ (? & ? & ?). exists b. split; [by left|done].
  - intros r _ (b' & ? & ?). exists b'. split; [by right|done].
Qed.

Lemma filterExpired_old now db bs b r :
  b ∈ filterExpiredBuckets now db bs → r ∈ db_data db → dr_stream r = bi_streamId b →
  dr_partition r = bi_partition b → dr_bucket r = bi_bucketId b →
  b ∈ bs ∧ (dr_ts r < expiry now (bi_storageDays b))%Z.
Proof.
  intros [Hexp Hb]%list_elem_of_filter Hr Hs Hp Hid. split; [done|]. unfold is_expired in Hexp.
  destruct (max_ts db _) as [rows|] eqn:Hmax; [|done].
  destruct (max_ts_bound _ _ _ _ _ r Hmax Hr Hs Hp Hid) as (m & -> & Hle).
  apply Z.ltb_lt in Hexp. lia.
Qed.

Lemma potential_days now db streams b :
  b ∈ getPotentiallyExpiredBuckets now db (fetchStreamsInfo storageDayCount streams) →
  storageDaysOf storageDayCount (bi_streamId b) = Some (bi_storageDays b).
Proof.
  unfold getPotentiallyExpiredBuckets. intros (s & Hb & Hs)%list_elem_of_bind.
  apply list_elem_of_omap in Hs as (o & Ho & Hoid). unfold id in Hoid. subst o.
  apply list_elem_of_fmap in Ho as (p & Hp & _).
  destruct (storageDaysOf storageDayCount p.1) as [d|] eqn:Hd; simplify_eq/=.
  destruct (select_buckets db _ _ _) as [rows|] eqn:Hsel; [|by apply not_elem_of_nil in Hb].
  apply list_elem_of_fmap in Hb as (row & -> & Hrow). simpl.
  apply select_buckets_ok in Hsel. apply (selects_elem _ _ _ _ _ row Hsel) in Hrow as [_ Hm].
  apply bucket_matches_spec in Hm as (-> & _). done.
Qed.

Lemma delete_expired_run_loses now limit db db' res :
  delete_expired_run storageDayCount now limit db = (db', res) → loses db db' (past_storage_days now).
Proof.
  unfold delete_expired_run. destruct (distinct_parts db) as [streams|]; [|intros [= <- _]; apply loses_refl].
  intros [= <- _]. eapply loses_mono; [|apply deleteExpired_loses].
  intros r Hr (b & Hb & Hs & Hp & Hid).
  destruct (filterExpired_old _ _ _ _ r Hb Hr Hs Hp Hid) as [Hin Hlt].
  exists (bi_storageDays b). rewrite Hs. split.
  - eapply potential_days. by eapply subseteq_take.
  - unfold expiry in Hlt. unfold DAY_MS. lia.
Qed.

(** The row sweep: what it removes, and how many rows. *)
Lemma sweep_buckets_spec limit cutoff streamId partition ids n db db' res :
  (n ≤ limit)%Z →
  sweep_buckets limit cutoff streamId partition ids n db = (db', res) →
  loses db db' (λ r, dr_stream r = streamId ∧ (dr_ts r < cutoff)%Z)
  ∧ (Z.of_nat (size (db_data db)) ≤ Z.of_nat (size (db_data db'))
       + (match res with Return (Some n') => n' | _ => limit end - n))%Z
  ∧ (∀ n', res = Return (Some n') → n ≤ n' ≤ limit)%Z.
Proof.
  revert n db. induction ids as [|id ids IH]; intros n db Hn; simpl.
  { intros [= <- <-]. split; [apply loses_refl|]. split; [lia|]. intros ? [= <-]. lia. }
  destruct (count_data db _) as [count|] eqn:Hcount.
  2: { intros [= <- <-]. split; [apply loses_refl|]. split; [lia|done]. }
  pose proof Hcount as Hc. apply count_data_ok in Hc.
  destruct (count =? 0)%Z; [by apply IH|].
  destruct (limit <? n + count)%Z eqn:Hlim.
  { intros [= <- <-]. split; [apply loses_refl|]. split; [lia|done]. }
  apply Z.ltb_ge in Hlim.
  destruct (execute_batch db _) as [db1 r1] eqn:Hex.
  assert (loses db db1 (λ r, data_matches (bucket_data streamId partition id [CLt cutoff]) r = true))
    as Hl1.
  { eapply loses_execute; [..|exact Hex]; [done|]. intros w'. rewrite list_elem_of_singleton. congruence. }
  assert (Z.of_nat (size (db_data db)) ≤ Z.of_nat (size (db_data db1)) + count)%Z as Hsz.
  { destruct Hl1 as [_ Hlost]. rewrite Hc.
    assert (db_data db ⊆ db_data db1 ∪ filter (λ r, data_matches
      (bucket_data streamId partition id [CLt cutoff]) r = true) (db_data db)) as Hsub.
    { intros r Hr. rewrite elem_of_union, elem_of_filter. destruct (decide (r ∈ db_data db1)); auto. }
    apply subseteq_size in Hsub. rewrite size_union_alt in Hsub.
    pose proof (subseteq_size (filter (λ r, data_matches (bucket_data streamId partition id [CLt cutoff])
      r = true) (db_data db) ∖ db_data db1) (filter (λ r, data_matches
      (bucket_data streamId partition id [CLt cutoff]) r = true) (db_data db))
      ltac:(set_solver)). lia. }
  assert (loses db db1 (λ r, dr_stream r = streamId ∧ (dr_ts r < cutoff)%Z)) as Hl1'.
  { eapply loses_mono; [|exact Hl1]. intros r _ (? & _ & _ & Ht & _)%data_matches_spec. simpl in Ht.
    apply Forall_singleton, Z.ltb_lt in Ht. done. }
  destruct r1 as [u|e].
  - intros Hrec. destruct (IH (n + count)%Z db1 Hlim Hrec) as (Hl2 & Hs2 & Hn2).
    split; [by eapply loses_trans|]. split; [lia|]. intros n' Hn'. specialize (Hn2 n' Hn').
    assert (0 ≤ count)%Z by lia. lia.
  - intros [= <- <-]. split; [done|]. split; [lia|done].
Qed.

Lemma sweep_parts_spec now limit pairs n db db' res :
  (n ≤ limit)%Z →
  sweep_parts storageDayCount now limit pairs n db = (db', res) →
  loses db db' (past_storage_days now)
  ∧ (Z.of_nat (size (db_data db)) ≤ Z.of_nat (size (db_data db')) + (limit - n))%Z.
Proof.
  revert n db. induction pairs as [|[streamId partition] pairs IH]; intros n db Hn; simpl.
  { intros [= <- _]. split; [apply loses_refl|lia]. }
  destruct (limit <=? n)%Z; [intros [= <- _]; split; [apply loses_refl|lia]|].
  destruct (storageDaysOf storageDayCount streamId) as [days|] eqn:Hdays; [|by apply IH].
  destruct (select_buckets db _ _ _) as [buckets|].
  2: { intros [= <- _]. split; [apply loses_refl|lia]. }
  destruct (sweep_buckets _ _ _ _ _ _ _) as [db1 r1] eqn:Hsw.
  destruct (sweep_buckets_spec _ _ _ _ _ _ _ _ _ Hn Hsw) as (Hl1 & Hs1 & Hn1).
  assert (loses db db1 (past_storage_days now)) as Hl1'.
  { eapply loses_mono; [|exact Hl1]. intros r _ [<- ?]. by exists days. }
  destruct r1 as [[n'|]|e].
  - destruct (Hn1 n' eq_refl). intros Hrec. destruct (IH n' db1) as (Hl2 & Hs2); [lia|done|].
    split; [by eapply loses_trans|lia].
  - intros [= <- _]. split; [done|lia].
  - intros [= <- _]. split; [done|lia].
Qed.

(** The orphan sweep. *)
Lemma classify_from_deleted attempt left code streamId :
  is_deleted (classify_from getStream attempt left code streamId) = true →
  ∃ n e, attempt ≤ n < attempt + left ∧ getStream n streamId = Throw e
         ∧ err_code e = Some "STREAM_NOT_FOUND".
Proof.
  revert attempt code. induction left as [|left IH]; intros attempt code; simpl; [done|].
  destruct (getStream attempt streamId) as [|e] eqn:Hg; [done|].
  destruct (has_code "STREAM_NOT_FOUND" e) eqn:Hc.
  - intros _. apply bool_decide_eq_true in Hc. exists attempt, e. split; [lia|done].
  - intros (n & e' & ? & ?)%IH. exists n, e'. split; [lia|done].
Qed.

Lemma classify_sid attempt left code streamId :
  state_sid (classify_from getStream attempt left code streamId) = streamId.
Proof.
  revert attempt code. induction left as [|left IH]; intros attempt code; simpl; [done|].
  destruct (getStream attempt streamId) as [|e]; [done|]. by destruct (has_code _ e).
Qed.

(** A candidate: an empty bucket, or one whose newest row is older than the grace time. *)
Definition candidate_ok now graceMs db (pairs : list (string * Z)) (cd : candidate) : Prop :=
  (cd_streamId cd, cd_partition cd) ∈ pairs ∧
  ∀ r, r ∈ db_data db → dr_stream r = cd_streamId cd → dr_partition r = cd_partition cd →
       dr_bucket r = cd_bucketId cd → (dr_ts r ≤ now - graceMs)%Z.

Lemma candidates_of_part_ok now graceMs limit db streamId partition pairs buckets acc cs :
  (streamId, partition) ∈ pairs → Forall (candidate_ok now graceMs db pairs) acc →
  (Z.of_nat (length acc) ≤ Z.max 0 limit)%Z →
  candidates_of_part now graceMs limit db streamId partition buckets acc = Return cs →
  Forall (candidate_ok now graceMs db pairs) cs ∧ (Z.of_nat (length cs) ≤ Z.max 0 limit)%Z.
Proof.
  intros Hp. revert acc. induction buckets as [|b buckets IH]; intros acc Hacc Hlen; simpl.
  { by intros [= <-]. }
  destruct (limit <=? Z.of_nat (length acc))%Z eqn:Hlim; [by intros [= <-]|]. apply Z.leb_gt in Hlim.
  destruct (max_ts db _) as [rows|] eqn:Hmax; [|done]. simpl.
  destruct (graceMs <=? _)%Z eqn:Hgrace; [apply Z.leb_le in Hgrace|by apply IH].
  apply IH.
  - apply Forall_app. split; [done|]. apply Forall_singleton. split; [done|]. simpl.
    intros r Hr Hs Hpt Hid. destruct (max_ts_bound _ _ _ _ _ r Hmax Hr Hs Hpt Hid) as (m & -> & ?). lia.
  - rewrite length_app. simpl. lia.
Qed.

Lemma find_candidates_ok now graceMs limit db all pairs acc cs :
  (∀ p, p ∈ pairs → p ∈ all) → Forall (candidate_ok now graceMs db all) acc →
  (Z.of_nat (length acc) ≤ Z.max 0 limit)%Z →
  find_candidates now graceMs limit db pairs acc = Return cs →
  Forall (candidate_ok now graceMs db all) cs ∧ (Z.of_nat (length cs) ≤ Z.max 0 limit)%Z.
Proof.
  revert acc. induction pairs as [|[streamId partition] pairs IH]; intros acc Hall Hacc Hlen; simpl.
  { by intros [= <-]. }
  destruct (select_buckets db _ _ _) as [buckets|]; [|done]. simpl.
  destruct (candidates_of_part _ _ _ _ _ _ _ _) as [acc'|] eqn:Hc; [|done]. simpl.
  eapply candidates_of_part_ok in Hc as [? ?]; [..|done|done]; [|apply Hall; by left].
  apply IH; [|done..]. intros p Hin. apply Hall. by right.
Qed.

Lemma delete_candidates_loses cs db db' res :
  delete_candidates cs db = (db', res) →
  loses db db' (λ r, ∃ c, c ∈ cs ∧ dr_stream r = cd_streamId c ∧ dr_partition r = cd_partition c
                          ∧ dr_bucket r = cd_bucketId c).
Proof.
  revert db. induction cs as [|c cs IH]; intros db; simpl; [intros [= <- _]; apply loses_refl|].
  destruct (execute_batch db _) as [db1 r1] eqn:Hex. apply loses_bucket in Hex.
  assert (loses db db1 (λ r, ∃ c', c' ∈ c :: cs ∧ dr_stream r = cd_streamId c'
    ∧ dr_partition r = cd_partition c' ∧ dr_bucket r = cd_bucketId c')) as Hl1.
  { eapply loses_mono; [|exact Hex]. intros r _ (? & ? & ?). exists c. split; [by left|done]. }
  destruct r1; [|intros [= <- _]; done]. intros Hrec. eapply loses_trans; [exact Hl1|].
  eapply loses_mono; [|by apply IH]. intros r _ (c' & ? & ?). exists c'. split; [by right|done].
Qed.

(** A row of a stream that the chain does not find, older than the grace time *)
Definition orphaned (now : Z) (c : RetentionConfig) (r : data_row) : Prop :=
  (∃ n e, n < 3 ∧ getStream n (dr_stream r) = Throw e ∧ err_code e = Some "STREAM_NOT_FOUND")
  ∧ (dr_ts r ≤ now - rc_graceDays c * DAY_MS)%Z.

(** The guards of the orphan sweep: every stream was classified, and not too many as
    deleted. *)
Definition guards_pass (c : RetentionConfig) db : Prop :=
  ∃ pairs, distinct_parts db = Return pairs ∧
    let classified := classify getStream <$> remove_dups pairs.*1 in
    (∀ s, s ∈ classified → is_error s = false)
    ∧ suspicious c (Z.of_nat (length (filter (λ s, is_deleted s = true) classified)))
        (Z.of_nat (length classified)) = false.

Lemma orphanSweep_loses now c db db' res :
  orphanSweep getStream now c db = (db', res) →
  loses db db' (λ r, orphaned now c r ∧ guards_pass c db).
Proof.
  unfold orphanSweep. destruct (distinct_parts db) as [pairs|] eqn:Hd; [|intros [= <- _]; apply loses_refl].
  set (classified := classify getStream <$> remove_dups pairs.*1).
  destruct (0 <? length (filter (λ s, is_error s = true) classified))%nat eqn:Herr;
    [intros [= <- _]; apply loses_refl|].
  destruct (suspicious c _ _) eqn:Hsus; [intros [= <- _]; apply loses_refl|].
  destruct (_ =? 0)%nat; [intros [= <- _]; apply loses_refl|].
  destruct (find_candidates _ _ _ _ _ _) as [cs|] eqn:Hc; [|intros [= <- _]; apply loses_refl].
  intros Hdel. eapply loses_mono; [|by eapply delete_candidates_loses].
  intros r Hr (cd & Hcd & Hs & Hp & Hid).
  eapply find_candidates_ok in Hc as [Hok _]; [|intros p Hin; exact Hin|constructor|simpl; lia].
  rewrite Forall_forall in Hok. destruct (Hok cd Hcd) as [Hpair Hold].
  apply list_elem_of_filter in Hpair as [Hdelst _]. simpl in Hdelst.
  apply list_elem_of_fmap in Hdelst as (s & Hsid & [Hisd Hin]%list_elem_of_filter).
  apply list_elem_of_fmap in Hin as (sid & -> & _).
  split; [split|].
  - rewrite Hs, Hsid. unfold classify in *. rewrite classify_sid.
    destruct (classify_from_deleted _ _ _ _ Hisd) as (n & e & ? & ?). exists n, e. split; [lia|done].
  - by apply Hold.
  - exists pairs. split; [done|]. fold classified. simpl. split.
    + intros s Hsin. apply Nat.ltb_ge in Herr. destruct (is_error s) eqn:He; [|done].
      assert (s ∈ filter (λ s, is_error s = true) classified) as Hf by (by apply list_elem_of_filter).
      destruct (filter _ classified); [by apply not_elem_of_nil in Hf|simpl in Herr; lia].
    + rewrite length_fmap in Hsus. unfold classified at 2. by rewrite length_fmap.
Qed.
End phases.

(** * Properties *)

Section properties.
  Context {DB : Type} `{CC : !CassandraClient DB}.
  Context (storageDayCount : string → outcome js_error (option Z)).
  Context (getStream : nat → string → outcome js_error unit).
  Implicit Types (db : DB).

(** C35: a retention run, whether it ends or fails half-way, adds no message and
    removes one only for a reason: it is older than the storage days of a stream whose
    storage days the chain told, or its stream was answered STREAM_NOT_FOUND and the
    message is older than the grace period. *)
Theorem runOnce_deletes_with_reason now c db db' res :
  runOnce storageDayCount getStream now c db = (db', res) → (0 ≤ rc_rowDeleteLimit c)%Z →
  loses db db' (λ r, past_storage_days storageDayCount now r ∨ orphaned getStream now c r).
Proof.
  unfold runOnce, eff_bind. intros Hrun Hlim.
  destruct (delete_expired_run storageDayCount now (rc_bucketDeleteLimit c) db) as [db1 r1] eqn:H1.
  apply delete_expired_run_loses in H1.
  assert (∀ db1 db2, loses db1 db2 (past_storage_days storageDayCount now) → loses db1 db2 (λ r,
    past_storage_days storageDayCount now r ∨ orphaned getStream now c r)) as Hpast
    by (intros; eapply loses_mono; [|done]; auto).
  destruct r1; [|injection Hrun as <- _; by apply Hpast].
  unfold rowSweep in Hrun. destruct (distinct_parts db1) as [pairs|];
    [|injection Hrun as <- _; by apply Hpast].
  destruct (sweep_parts storageDayCount now _ pairs 0 db1) as [db2 r2] eqn:H2.
  apply sweep_parts_spec in H2 as [H2 _]; [|done].
  destruct r2; [|injection Hrun as <- _; eapply loses_trans; by apply Hpast].
  apply orphanSweep_loses in Hrun.
  eapply loses_trans; [by apply Hpast|]. eapply loses_trans; [by apply Hpast|].
  eapply loses_mono; [|exact Hrun]. naive_solver.
Qed.

(** The orphan sweep removes a message only when its stream was answered
    STREAM_NOT_FOUND, the message is older than the grace period, no stream of the node
    was answered with another error, and the deleted streams are within the configured
    fraction. *)
Theorem orphanSweep_guarded now c db db' res :
  orphanSweep getStream now c db = (db', res) →
  loses db db' (λ r, orphaned getStream now c r ∧ guards_pass getStream c db).
Proof. apply orphanSweep_loses. Qed.

(** The row sweep removes at most [rowDeleteLimit] rows, all of them past the
    storage days of their stream. *)
Theorem rowSweep_bounded now c db db' res :
  rowSweep storageDayCount now c db = (db', res) → (0 ≤ rc_rowDeleteLimit c)%Z →
  loses db db' (past_storage_days storageDayCount now)
  ∧ (Z.of_nat (size (db_data db) - size (db_data db')) ≤ rc_rowDeleteLimit c)%Z.
Proof.
  unfold rowSweep. intros Hrun Hlim. destruct (distinct_parts db) as [pairs|].
  - apply sweep_parts_spec in Hrun as [? ?]; [|done]. split; [done|]. lia.
  - injection Hrun as <- _. split; [apply loses_refl|]. lia.
Qed.

(** The row sweep never gets past a bucket that holds more stale rows than the
    limit: when the first bucket it looks at does, the run removes nothing. *)
Theorem rowSweep_stuck now c db streamId partition pairs days b buckets n :
  distinct_parts db = Return ((streamId, partition) :: pairs) → (0 < rc_rowDeleteLimit c)%Z →
  storageDaysOf storageDayCount streamId = Some days →
  select_buckets db (BucketWhere streamId partition [CLe (now - days * DAY_MS)]) Unordered None
    = Return (b :: buckets) →
  count_data db (bucket_data streamId partition (bk_id b) [CLt (now - days * DAY_MS)]) = Return n →
  (rc_rowDeleteLimit c < n)%Z →
  rowSweep storageDayCount now c db = (db, Return tt).
Proof.
  intros Hd Hlim Hdays Hsel Hcount Hn. unfold rowSweep. rewrite Hd. simpl.
  rewrite (proj2 (Z.leb_gt _ _)) by done. rewrite Hdays, Hsel. simpl. rewrite Hcount.
  rewrite (proj2 (Z.eqb_neq n 0)) by lia. by rewrite (proj2 (Z.ltb_lt _ _)) by lia.
Qed.
End properties.

(** The first run after a start comes no earlier than [STARTUP_DELAY_MS] and, when
    the last run was less than an interval ago, no earlier than one interval after it;
    it is never later than the startup delay or the interval from now. *)
Lemma firstRunDelay_bounds now c lastRun :
  let d := firstRunDelay now c lastRun in
  (STARTUP_DELAY_MS ≤ d ≤ Z.max STARTUP_DELAY_MS (rc_intervalHours c * HOUR_MS))%Z
  ∧ ∀ t, lastRun = Some t → (t ≤ now < t + rc_intervalHours c * HOUR_MS)%Z →
      (t + rc_intervalHours c * HOUR_MS ≤ now + d)%Z.
Proof.
  unfold firstRunDelay. destruct lastRun as [t|]; [|split; [lia|done]].
  destruct (Z.ltb_spec (now - t) 0); simpl; [split; [lia|intros ? [= <-]; lia]|].
  destruct (Z.leb_spec (rc_intervalHours c * HOUR_MS) (now - t)); split; try lia; intros ? [= <-]; lia.
Qed.

(** When a run settles and the scheduler is not stopped, the next one is due after
    [intervalHours], if that is at most 596 hours; a longer interval does not fit a
    timer, and the next run is due one millisecond later.  A stopped scheduler
    schedules nothing. *)
Theorem run_settles_schedule now s :
  sc_runs s ≠ 0 →
  (sc_stopped s = true → sc_timeout (run_settles now s) = sc_timeout s)
  ∧ (sc_stopped s = false → (1 ≤ rc_intervalHours (sc_config s) ≤ 596)%Z →
      sc_timeout (run_settles now s) = Some (now + rc_intervalHours (sc_config s) * HOUR_MS)%Z)
  ∧ (sc_stopped s = false → (597 ≤ rc_intervalHours (sc_config s))%Z →
      sc_timeout (run_settles now s) = Some (now + 1)%Z).
Proof.
  intros Hruns. unfold run_settles. destruct (sc_runs s) as [|n]; [done|]. simpl.
  unfold schedule, timer_delay, HOUR_MS. repeat split; intros Hst; rewrite Hst; simpl; [done| |].
  - intros ?. rewrite (proj2 (Z.leb_le 1 _)), (proj2 (Z.leb_le _ 2147483647)) by lia. simpl.
    f_equal. lia.
  - intros ?. rewrite (proj2 (Z.leb_gt _ 2147483647)) by lia. by rewrite andb_false_r.
Qed.

(** * Witnesses *)

Module RetentionWitness.
Definition now : Z := 1000 * DAY_MS.
Definition config : RetentionConfig := MkRetentionConfig 6 7 80 10 100 2.
(** The chain keeps [kept] for 30 days and does not know [gone]. *)
Definition days (s : string) : outcome js_error (option Z) :=
  if bool_decide (s = "kept") then Return (Some 30%Z)
  else Throw (MkError (Some "STREAM_NOT_FOUND") "not found").
Definition stream (_ : nat) (s : string) : outcome js_error unit :=
  if bool_decide (s = "kept") then Return tt
  else Throw (MkError (Some "STREAM_NOT_FOUND") "not found").
Definition data (s id : string) (t : Z) : data_row := DataRow s 0 id t 0 "0xp" "c" (Some "m") None.
Definition db : mem_db := MemDb
  {[ BucketRow "kept" 0 (960 * DAY_MS) "k" 3 0; BucketRow "gone" 0 (900 * DAY_MS) "g" 1 0 ]}
  {[ data "kept" "k" (965 * DAY_MS); data "kept" "k" (999 * DAY_MS); data "gone" "g" (990 * DAY_MS) ]}.
Definition after : mem_db := (runOnce days stream now config db).1.

Lemma runOnce_deletes_with_reason_witness :
  loses db after (λ r, past_storage_days days now r ∨ orphaned stream now config r)
  ∧ data "gone" "g" (990 * DAY_MS) ∉ mem_data after
  ∧ data "kept" "k" (999 * DAY_MS) ∈ mem_data after.
Proof.
  split; [|split; refine (bool_decide_eq_true_1 _ _); vm_compute; reflexivity].
  apply (runOnce_deletes_with_reason days stream now config db after (Return tt));
    [vm_compute; reflexivity|simpl; lia].
Defined.

Lemma orphanSweep_guarded_witness :
  loses db (orphanSweep stream now config db).1
    (λ r, orphaned stream now config r ∧ guards_pass stream config db).
Proof.
  apply (orphanSweep_guarded stream now config db (orphanSweep stream now config db).1 (Return tt)).
  vm_compute. reflexivity.
Defined.

Lemma rowSweep_bounded_witness :
  (Z.of_nat (size (db_data db) - size (db_data (rowSweep days now config db).1))
   ≤ rc_rowDeleteLimit config)%Z.
Proof.
  destruct (rowSweep_bounded days now config db (rowSweep days now config db).1 (Return tt))
    as [_ Hle]; [vm_compute; reflexivity|discriminate|exact Hle].
Defined.

(** Three stale rows in one bucket, and a limit of two. *)
Definition db' : mem_db := MemDb {[ BucketRow "kept" 0 (900 * DAY_MS) "k" 3 0 ]}
  {[ data "kept" "k" (901 * DAY_MS); data "kept" "k" (902 * DAY_MS); data "kept" "k" (903 * DAY_MS) ]}.
Lemma rowSweep_stuck_witness : rowSweep days now config db' = (db', Return tt).
Proof.
  apply (rowSweep_stuck days now config db' "kept" 0 [] 30
    (BucketRow "kept" 0 (900 * DAY_MS) "k" 3 0) [] 3);
    [vm_compute; reflexivity|simpl; lia|vm_compute; reflexivity..|simpl; lia].
Defined.

Lemma run_settles_schedule_witness :
  sc_timeout (run_settles 0 (MkScheduler (MkRetentionConfig 720 7 80 10 100 2) None 1 false None))
  = Some 1%Z.
Proof.
  apply (run_settles_schedule 0 (MkScheduler (MkRetentionConfig 720 7 80 10 100 2) None 1 false None));
    [discriminate|reflexivity|simpl; lia].
Defined.
End RetentionWitness.
