(* ===== verification/Json.v ===== *)
(** JSON texts: [JSON.parse] and [JSON.stringify] as the storage plugin uses them, on
    strings whose code units are below 256.  A number keeps its text. *)

From S2P Require Import Prelude.
From S2P Require Import Js.
From Stdlib Require Import Ascii.

Inductive json :=
  | JNull
  | JBool (b : bool)
  | JNum (lexeme : string)
  | JString (s : string)
  | JArray (l : list json)
  | JObject (members : list (string * json)).

(** * Printing *)

Definition quote : ascii := "034".
Definition backslash : ascii := "092".
Definition hex_char (n : nat) : ascii :=
  if (n <? 10)%nat then ascii_of_nat (48 + n) else ascii_of_nat (87 + n).

Definition escape_char (c : ascii) : string :=
  let n := nat_of_ascii c in
  if Ascii.eqb c quote then String backslash (String quote "")
  else if Ascii.eqb c backslash then String backslash (String backslash "")
  else if (n =? 8)%nat then String backslash "b"
  else if (n =? 12)%nat then String backslash "f"
  else if (n =? 10)%nat then String backslash "n"
  else if (n =? 13)%nat then String backslash "r"
  else if (n =? 9)%nat then String backslash "t"
  else if (n <? 32)%nat
  then String backslash (String "u" (String "0" (String "0"
         (String (hex_char (n / 16)) (String (hex_char (n mod 16)) "")))))
  else String c "".

Fixpoint escape (s : string) : string :=
  match s with
  | EmptyString => ""
  | String c s' => escape_char c +:+ escape s'
  end.
Definition print_string (s : string) : string := String quote (escape s +:+ String quote "").

(** [JSON.stringify] of an array of strings *)
Definition stringify_strings (l : list string) : string :=
  "[" +:+ string_join "," (print_string <$> l) +:+ "]".

(** * Parsing *)

Definition is_json_white (c : ascii) : bool :=
  let n := nat_of_ascii c in (n =? 32)%nat || (n =? 9)%nat || (n =? 10)%nat || (n =? 13)%nat.
Fixpoint skip_white (s : string) : string :=
  match s with
  | String c s' => if is_json_white c then skip_white s' else s
  | EmptyString => EmptyString
  end.

Definition hex_value (c : ascii) : option nat :=
  if is_hex_digit c then Some (Z.to_nat (digit_value c)) else None.

(** The characters of a string literal after its opening quote, and what follows it. *)
Fixpoint parse_chars (s : string) : option (string * string) :=
  match s with
  | EmptyString => None
  | String c s1 =>
      if Ascii.eqb c quote then Some ("", s1)
      else if Ascii.eqb c backslash then
        match s1 with
        | EmptyString => None
        | String e s2 =>
            let simple (c : ascii) := '(r, rest) ← parse_chars s2; Some (String c r, rest) in
            if Ascii.eqb e quote then simple quote
            else if Ascii.eqb e backslash then simple backslash
            else if Ascii.eqb e "/" then simple "/"%char
            else if Ascii.eqb e "b" then simple "008"%char
            else if Ascii.eqb e "f" then simple "012"%char
            else if Ascii.eqb e "n" then simple "010"%char
            else if Ascii.eqb e "r" then simple "013"%char
            else if Ascii.eqb e "t" then simple "009"%char
            else if Ascii.eqb e "u" then
              match s2 with
              | String h1 (String h2 (String h3 (String h4 s3))) =>
                  a ← hex_value h1; b ← hex_value h2; c' ← hex_value h3; d ← hex_value h4;
                  let code := ((a * 16 + b) * 16 + c') * 16 + d in
                  if (code <? 256)%nat
                  then '(r, rest) ← parse_chars s3; Some (String (ascii_of_nat code) r, rest)
                  else None
              | _ => None
              end
            else None
        end
      else if (nat_of_ascii c <? 32)%nat then None
      else '(r, rest) ← parse_chars s1; Some (String c r, rest)
  end.

Fixpoint take_digits (s : string) : string * string :=
  match s with
  | String c s' => if is_digit c then let '(d, r) := take_digits s' in (String c d, r) else ("", s)
  | EmptyString => ("", "")
  end.
(** An optional sign, digits without a leading zero, an optional fraction and exponent. *)
Definition parse_number (s : string) : option (string * string) :=
  let '(sign, s1) := match s with String "-" s' => ("-", s') | _ => ("", s) end in
  let '(int, s2) := take_digits s1 in
  let int_ok := match int with
                | EmptyString => false
                | String "0" (String _ _) => false
                | _ => true
                end in
  if int_ok then
    f ← match s2 with
        | String "." s3 => let '(d, r) := take_digits s3 in
                           if bool_decide (d = "") then None else Some ("." +:+ d, r)
        | _ => Some ("", s2)
        end;
    e ← match f.2 with
        | String (("e" | "E") as c) s4 =>
            let '(sg, s5) := match s4 with
                             | String (("+" | "-") as x) s' => (String x "", s') | _ => ("", s4) end in
            let '(d, r) := take_digits s5 in
            if bool_decide (d = "") then None else Some (String c sg +:+ d, r)
        | _ => Some ("", f.2)
        end;
    Some (sign +:+ int +:+ f.1 +:+ e.1, e.2)
  else None.

Fixpoint strip_prefix (p s : string) : option string :=
  match p, s with
  | EmptyString, _ => Some s
  | String a p', String b s' => if Ascii.eqb a b then strip_prefix p' s' else None
  | _, EmptyString => None
  end.

Fixpoint parse_value (fuel : nat) (s : string) : option (json * string) :=
  match fuel with
  | O => None
  | S n =>
      match skip_white s with
      | EmptyString => None
      | String c s1 =>
          if Ascii.eqb c quote then '(r, rest) ← parse_chars s1; Some (JString r, rest)
          else if Ascii.eqb c "[" then
            match skip_white s1 with
            | String "]" rest => Some (JArray [], rest)
            | _ => '(l, rest) ← parse_elements n s1; Some (JArray l, rest)
            end
          else if Ascii.eqb c "{" then
            match skip_white s1 with
            | String "}" rest => Some (JObject [], rest)
            | _ => '(l, rest) ← parse_members n s1; Some (JObject l, rest)
            end
          else match strip_prefix "null" (String c s1), strip_prefix "true" (String c s1),
                     strip_prefix "false" (String c s1) with
               | Some rest, _, _ => Some (JNull, rest)
               | _, Some rest, _ => Some (JBool true, rest)
               | _, _, Some rest => Some (JBool false, rest)
               | None, None, None =>
                   '(r, rest) ← parse_number (String c s1); Some (JNum r, rest)
               end
      end
  end
with parse_elements (fuel : nat) (s : string) : option (list json * string) :=
  match fuel with
  | O => None
  | S n =>
      '(v, s1) ← parse_value n s;
      match skip_white s1 with
      | String "," s2 => '(l, rest) ← parse_elements n s2; Some (v :: l, rest)
      | String "]" rest => Some ([v], rest)
      | _ => None
      end
  end
with parse_members (fuel : nat) (s : string) : option (list (string * json) * string) :=
  match fuel with
  | O => None
  | S n =>
      match skip_white s with
      | String c s1 =>
          if Ascii.eqb c quote then
            '(k, s2) ← parse_chars s1;
            match skip_white s2 with
            | String ":" s3 =>
                '(v, s4) ← parse_value n s3;
                match skip_white s4 with
                | String "," s5 => '(l, rest) ← parse_members n s5; Some ((k, v) :: l, rest)
                | String "}" rest => Some ([(k, v)], rest)
                | _ => None
                end
            | _ => None
            end
          else None
      | EmptyString => None
      end
  end.

(** [JSON.parse]: one value and nothing but white space after it.  Each level of a
    value takes at most two units of fuel per character. *)
Definition json_parse (s : string) : option json :=
  '(v, rest) ← parse_value (2 * String.length s + 2) s;
  if bool_decide (skip_white rest = "") then Some v else None.

(** [v.key] of a parsed value: the last member of that name *)
Definition json_get (key : string) (v : json) : option json :=
  match v with
  | JObject members => snd <$> last (filter (λ m, m.1 = key) members)
  | _ => None
  end.

Example json_parse_tests :
  json_parse "[1, {}, null]" = Some (JArray [JNum "1"; JObject []; JNull])
  ∧ json_parse "01" = None ∧ json_parse "[1,]" = None ∧ json_parse "-1.5e+3 " = Some (JNum "-1.5e+3")
  ∧ json_parse (String quote (String backslash "u0041" +:+ String quote "")) = Some (JString "A").
Proof. repeat split; vm_compute; reflexivity. Qed.

(** * Round trip *)

Lemma parse_escaped_char c t :
  parse_chars (escape_char c +:+ t) = '(r, rest) ← parse_chars t; Some (String c r, rest).
Proof. destruct c as [[] [] [] [] [] [] [] []]; reflexivity. Qed.

Lemma parse_chars_escape s rest : parse_chars (escape s +:+ String quote rest) = Some (s, rest).
Proof.
  induction s as [|c s IH]; [done|]. cbn [escape].
  by rewrite string_app_assoc, parse_escaped_char, IH.
Qed.

Lemma parse_printed_string n s rest :
  parse_value (S n) (print_string s +:+ rest) = Some (JString s, rest).
Proof.
  unfold print_string. rewrite string_app_cons, string_app_assoc, string_app_cons, string_app_nil_l.
  cbn [parse_value]. unfold skip_white. cbn [is_json_white]. simpl.
  by rewrite parse_chars_escape.
Qed.

Lemma parse_elements_step n s :
  parse_elements (S n) s =
  '(v, s1) ← parse_value n s;
  match skip_white s1 with
  | String "," s2 => '(l, rest) ← parse_elements n s2; Some (v :: l, rest)
  | String "]" rest => Some ([v], rest)
  | _ => None
  end.
Proof. reflexivity. Qed.

Lemma parse_string_list l s n :
  length l < n →
  parse_elements (S n) (string_join "," (print_string <$> (s :: l)) +:+ "]")
  = Some (JString <$> (s :: l), "").
Proof.
  revert s n. induction l as [|s' l IH]; intros s n Hn; simpl in Hn;
    (destruct n as [|n]; [lia|]); rewrite parse_elements_step.
  - change (string_join "," (print_string <$> [s])) with (print_string s).
    by rewrite parse_printed_string.
  - rewrite fmap_cons, string_join_cons by done. rewrite !string_app_assoc, parse_printed_string.
    specialize (IH s' n ltac:(lia)).
    rewrite string_app_cons, string_app_nil_l. cbn [mbind option_bind].
    assert (∀ x, skip_white (String "," x) = String "," x) as Hc by done. rewrite Hc.
    cbv beta iota. rewrite IH. done.
Qed.

Lemma string_join_length sep l : length l ≤ S (String.length (string_join sep (print_string <$> l))).
Proof.
  induction l as [|s l IH]; [simpl; lia|]. destruct (decide (l = [])) as [->|Hne]; [simpl; lia|].
  rewrite fmap_cons, string_join_cons by (by destruct l). rewrite !length_string_app.
  unfold print_string at 1. simpl. lia.
Qed.

(** Printing a list of strings and parsing it gives the list back. *)
Lemma stringify_strings_roundtrip l :
  json_parse (stringify_strings l) = Some (JArray (JString <$> l)).
Proof.
  destruct l as [|s l]; [done|]. unfold json_parse, stringify_strings.
  pose proof (string_join_length "," (s :: l)) as Hlen. simpl length in Hlen.
  set (body := string_join "," (print_string <$> (s :: l)) +:+ "]").
  assert (String.length (string_join "," (print_string <$> (s :: l))) < String.length body) as Hb
    by (subst body; rewrite length_string_app; simpl; lia).
  rewrite string_app_cons, string_app_nil_l. fold body. change (String.length (String "[" body)) with (S (String.length body)).
  replace (2 * S (String.length body) + 2) with (S (S (2 * String.length body + 2))) by lia.
  assert (∃ body', body = String quote body') as [body' Hq].
  { subst body. rewrite fmap_cons. unfold print_string at 1.
    destruct (decide (l = [])) as [->|Hne]; [by eexists|].
    rewrite string_join_cons by (by destruct l). rewrite !string_app_cons. by eexists. }
  assert (∀ n, parse_value (S n) (String "[" body)
    = '(l, rest) ← parse_elements n body; Some (JArray l, rest)) as Hv by (intros; by rewrite Hq).
  rewrite Hv. subst body. rewrite parse_string_list by lia. done.
Qed.

(** * Enough fuel

    What follows a parsed prefix is shorter than the text, so the fuel of [json_parse]
    never runs out: more of it changes nothing. *)

Lemma skip_white_shrinks s : String.length (skip_white s) ≤ String.length s.
Proof. induction s as [|c s IH]; simpl; [done|]. destruct (is_json_white c); simpl; lia. Qed.

Lemma parse_chars_shrinks n : ∀ s r rest,
  String.length s ≤ n → parse_chars s = Some (r, rest) → String.length rest < String.length s.
Proof.
  induction n as [|n IH]; intros [|c s] r rest Hn; simpl in Hn; try lia; try done.
  cbn [parse_chars].
  assert (∀ t c' r rest, String.length t ≤ n → ('(r, rest) ← parse_chars t; Some (String c' r, rest)) = Some (r, rest) →
    String.length rest < String.length t) as Hrec.
  { intros t c' r' rest' Ht. destruct (parse_chars t) as [[r0 rest0]|] eqn:Ht0; [|done].
    intros [= _ <-]. by eapply IH. }
  destruct (Ascii.eqb c quote); [intros [= _ <-]; simpl; lia|].
  destruct (Ascii.eqb c backslash).
  - destruct s as [|e s2]; [done|]. simpl in Hn.
    assert (∀ c', ('(r, rest) ← parse_chars s2; Some (String c' r, rest)) = Some (r, rest) →
      String.length rest < String.length (String c (String e s2))) as Hs.
    { intros c' H%Hrec; [simpl; lia|lia]. }
    cbv zeta. repeat (destruct (Ascii.eqb e _); [apply Hs|]).
    destruct (Ascii.eqb e "u"); [|done].
    destruct s2 as [|h1 [|h2 [|h3 [|h4 s3]]]]; try done. simpl in Hn.
    destruct (hex_value h1), (hex_value h2), (hex_value h3), (hex_value h4); try done.
    cbn [mbind option_bind]. destruct (_ <? 256)%nat; [|done].
    intros H%Hrec; [simpl; lia|lia].
  - destruct (_ <? 32)%nat; [done|]. intros H%Hrec; [simpl; lia|lia].
Qed.

Lemma take_digits_shrinks s : String.length (take_digits s).2 ≤ String.length s.
Proof.
  induction s as [|c s IH]; simpl; [done|]. destruct (is_digit c); [|done].
  destruct (take_digits s); simpl in *; lia.
Qed.
Lemma take_digits_progress s d r : take_digits s = (d, r) → d ≠ "" → String.length r < String.length s.
Proof.
  destruct s as [|c s]; simpl; [by intros [= <- <-]|]. destruct (is_digit c); [|by intros [= <- <-]].
  pose proof (take_digits_shrinks s). destruct (take_digits s) as [d' r']. intros [= <- <-] _. simpl in *. lia.
Qed.

(** The parts of a number *)
Definition number_sign (s : string) : string * string :=
  match s with String "-" s' => ("-", s') | _ => ("", s) end.
Definition number_fraction (s2 : string) : option (string * string) :=
  match s2 with
  | String "." s3 => let '(d, r) := take_digits s3 in
                     if bool_decide (d = "") then None else Some ("." +:+ d, r)
  | _ => Some ("", s2)
  end.
Definition exponent_sign (s4 : string) : string * string :=
  match s4 with String (("+" | "-") as x) s' => (String x "", s') | _ => ("", s4) end.
Definition number_exponent (s : string) : option (string * string) :=
  match s with
  | String (("e" | "E") as c) s4 =>
      let '(sg, s5) := exponent_sign s4 in
      let '(d, r) := take_digits s5 in
      if bool_decide (d = "") then None else Some (String c sg +:+ d, r)
  | _ => Some ("", s)
  end.

Lemma number_sign_shrinks s : String.length (number_sign s).2 ≤ String.length s.
Proof. unfold number_sign. repeat case_match; simpl; lia. Qed.
Lemma number_fraction_shrinks s f : number_fraction s = Some f → String.length f.2 ≤ String.length s.
Proof.
  unfold number_fraction. intros H. repeat case_match; simplify_eq/=; try lia.
  all: match goal with H : take_digits ?t = _ |- _ => pose proof (take_digits_shrinks t) as Hs; rewrite H in Hs end;
    simpl in *; lia.
Qed.
Lemma exponent_sign_shrinks s : String.length (exponent_sign s).2 ≤ String.length s.
Proof. unfold exponent_sign. repeat case_match; simpl; lia. Qed.
Lemma number_exponent_shrinks s e : number_exponent s = Some e → String.length e.2 ≤ String.length s.
Proof.
  assert (∀ c s4, (let '(sg, s5) := exponent_sign s4 in let '(d, r) := take_digits s5 in
    if bool_decide (d = "") then None else Some (String c sg +:+ d, r)) = Some e →
    String.length e.2 ≤ String.length (String c s4)) as Hexp.
  { intros c s4. pose proof (exponent_sign_shrinks s4) as H1. destruct (exponent_sign s4) as [sg s5].
    pose proof (take_digits_shrinks s5) as H2. destruct (take_digits s5) as [d r].
    case_bool_decide; [done|]. intros [= <-]. simpl in *. lia. }
  unfold number_exponent. intros H. destruct s as [|c s4]; [by simplify_eq|].
  assert ((∃ r, Some ("", String c s4) = Some r ∧ r = e) ∨
    (let '(sg, s5) := exponent_sign s4 in let '(d, r) := take_digits s5 in
     if bool_decide (d = "") then None else Some (String c sg +:+ d, r)) = Some e) as [(r & Hr & <-)|He].
  { destruct c as [[] [] [] [] [] [] [] []]; first [right; exact H|left; eauto]. }
  - by simplify_eq.
  - by apply Hexp.
Qed.

Lemma parse_number_eq s :
  parse_number s =
  let '(sign, s1) := number_sign s in
  let '(int, s2) := take_digits s1 in
  if match int with EmptyString => false | String "0" (String _ _) => false | _ => true end then
    f ← number_fraction s2; e ← number_exponent f.2; Some (sign +:+ int +:+ f.1 +:+ e.1, e.2)
  else None.
Proof. reflexivity. Qed.

Lemma parse_number_shrinks s r rest :
  parse_number s = Some (r, rest) → String.length rest < String.length s.
Proof.
  rewrite parse_number_eq. pose proof (number_sign_shrinks s) as H1. destruct (number_sign s) as [sign s1].
  destruct (take_digits s1) as [int s2] eqn:Hd.
  destruct (match int with EmptyString => false | _ => _ end) eqn:Hok; [|done].
  assert (int ≠ "") as Hne by (by intros ->). pose proof (take_digits_progress _ _ _ Hd Hne) as H2.
  destruct (number_fraction s2) as [f|] eqn:Hf; [|done]. cbn [mbind option_bind].
  destruct (number_exponent f.2) as [e|] eqn:He; [|done]. cbn [mbind option_bind]. intros [= _ <-].
  apply number_fraction_shrinks in Hf. apply number_exponent_shrinks in He. simpl in *. lia.
Qed.

Lemma strip_prefix_shrinks p s rest : strip_prefix p s = Some rest → p ≠ "" → String.length rest < String.length s.
Proof.
  revert s rest. induction p as [|a p IH]; intros [|b s] rest; simpl; try done.
  destruct (Ascii.eqb a b); [|done]. intros Hp _. destruct p as [|a' p]; [simpl in Hp; simplify_eq; lia|].
  specialize (IH s rest Hp ltac:(done)). lia.
Qed.

(** The three parsers with [n] and any more fuel, on texts short enough for [n] *)
Definition fuel_ok {A} (parse : nat → string → option (A * string)) (units n : nat) : Prop :=
  ∀ s, 2 * String.length s + units ≤ n →
    (∀ m, n ≤ m → parse m s = parse n s) ∧
    (∀ v rest, parse n s = Some (v, rest) → String.length rest < String.length s).

Lemma more_fuel n m : S n ≤ m → ∃ m', m = S m' ∧ n ≤ m'.
Proof. destruct m as [|m]; intros; [lia|]. exists m. split; [done|lia]. Qed.

Lemma parse_value_fuel n :
  fuel_ok parse_elements 2 n → fuel_ok parse_members 2 n → fuel_ok parse_value 1 (S n).
Proof.
  intros IHe IHm s Hn. pose proof (skip_white_shrinks s) as Hws.
  assert (∀ c s1, skip_white s = String c s1 → 2 * String.length s1 + 2 ≤ n) as Hs1
    by (intros c s1 Heq; rewrite Heq in Hws; simpl in Hws; lia).
  split.
  + intros m (m' & -> & Hle)%more_fuel. cbn [parse_value]. destruct (skip_white s) as [|c s1]; [done|].
    specialize (Hs1 c s1 eq_refl). rewrite (proj1 (IHe s1 Hs1) m' Hle), (proj1 (IHm s1 Hs1) m' Hle). done.
  + intros v rest. cbn [parse_value]. destruct (skip_white s) as [|c s1] eqn:Hsw; [done|].
    specialize (Hs1 c s1 eq_refl). pose proof (skip_white_shrinks s1) as Hw1.
    pose proof (proj2 (IHe s1 Hs1)) as He. pose proof (proj2 (IHm s1 Hs1)) as Hmm. simpl in Hws.
    destruct (Ascii.eqb c quote).
    { destruct (parse_chars s1) as [[r rest']|] eqn:Hc; [|done]. intros [= _ <-].
      pose proof (parse_chars_shrinks _ _ _ _ (le_n _) Hc). lia. }
    destruct (Ascii.eqb c "[").
    { assert ((('(l, rest) ← parse_elements n s1; Some (JArray l, rest)) = Some (v, rest)) →
        String.length rest < String.length s) as Hel.
      { destruct (parse_elements n s1) as [[l rest']|]; [|done]. intros [= _ <-].
        specialize (He _ _ eq_refl). lia. }
      destruct (skip_white s1) as [|c2 r2]; [exact Hel|]. simpl in Hw1.
      destruct c2 as [[] [] [] [] [] [] [] []]; first [exact Hel|intros [= _ <-]; lia]. }
    destruct (Ascii.eqb c "{").
    { assert ((('(l, rest) ← parse_members n s1; Some (JObject l, rest)) = Some (v, rest)) →
        String.length rest < String.length s) as Hel.
      { destruct (parse_members n s1) as [[l rest']|]; [|done]. intros [= _ <-].
        specialize (Hmm _ _ eq_refl). lia. }
      destruct (skip_white s1) as [|c2 r2]; [exact Hel|]. simpl in Hw1.
      destruct c2 as [[] [] [] [] [] [] [] []]; first [exact Hel|intros [= _ <-]; lia]. }
    assert (∀ p r', strip_prefix p (String c s1) = Some r' → p ≠ "" → String.length r' < String.length s) as Hp.
    { intros p r' H H0. pose proof (strip_prefix_shrinks _ _ _ H H0) as Hlt. simpl in Hlt. lia. }
    destruct (strip_prefix "null" _) eqn:E1; [intros [= _ <-]; by eapply Hp|].
    destruct (strip_prefix "true" _) eqn:E2; [intros [= _ <-]; by eapply Hp|].
    destruct (strip_prefix "false" _) eqn:E3; [intros [= _ <-]; by eapply Hp|].
    destruct (parse_number _) as [[r rest']|] eqn:E4; [|done]. intros [= _ <-].
    apply parse_number_shrinks in E4. simpl in E4. lia.
Qed.

Lemma parse_elements_fuel n :
  fuel_ok parse_value 1 n → fuel_ok parse_elements 2 n → fuel_ok parse_elements 2 (S n).
Proof.
  intros IHv IHe s Hn.
  assert (2 * String.length s + 1 ≤ n) as Hv by lia. destruct (IHv s Hv) as [Hvm Hvr].
  assert (∀ v s1 c s2, parse_value n s = Some (v, s1) → skip_white s1 = String c s2 →
    String.length s2 + 2 ≤ String.length s) as Hs2.
  { intros v s1 c s2 Hp Hq. specialize (Hvr _ _ Hp). pose proof (skip_white_shrinks s1) as H.
    rewrite Hq in H. simpl in H. lia. }
  split.
  + intros m (m' & -> & Hle)%more_fuel. cbn [parse_elements]. rewrite (Hvm m' Hle).
    destruct (parse_value n s) as [[v s1]|] eqn:Hp; [|done]. cbn [mbind option_bind].
    destruct (skip_white s1) as [|c s2] eqn:Hq; [done|]. specialize (Hs2 _ _ _ _ eq_refl Hq).
    by rewrite (proj1 (IHe s2 ltac:(lia)) m' Hle).
  + intros l rest. cbn [parse_elements]. destruct (parse_value n s) as [[v s1]|] eqn:Hp; [|done].
    cbn [mbind option_bind]. destruct (skip_white s1) as [|c s2] eqn:Hq; [done|].
    specialize (Hs2 _ _ _ _ eq_refl Hq). pose proof (proj2 (IHe s2 ltac:(lia))) as He.
    assert (('(l, rest) ← parse_elements n s2; Some (v :: l, rest)) = Some (l, rest) →
      String.length rest < String.length s) as Hel.
    { destruct (parse_elements n s2) as [[l' rest']|]; [|done]. intros [= _ <-].
      specialize (He _ _ eq_refl). lia. }
    destruct c as [[] [] [] [] [] [] [] []]; first [done|exact Hel|intros [= _ <-]; lia].
Qed.

Lemma parse_members_fuel n :
  fuel_ok parse_value 1 n → fuel_ok parse_members 2 n → fuel_ok parse_members 2 (S n).
Proof.
  intros IHv IHm s Hn. pose proof (skip_white_shrinks s) as Hws.
  assert (∀ c s1 k s2 s3 v s4 c5 s5, skip_white s = String c s1 → parse_chars s1 = Some (k, s2) →
    skip_white s2 = String ":" s3 →
    2 * String.length s3 + 1 ≤ n ∧ (parse_value n s3 = Some (v, s4) → skip_white s4 = String c5 s5 →
      String.length s5 + 4 ≤ String.length s)) as Hlen.
  { intros c s1 k s2 s3 v s4 c5 s5 H1 H2 H3. rewrite H1 in Hws. simpl in Hws.
    pose proof (parse_chars_shrinks _ _ _ _ (le_n _) H2). pose proof (skip_white_shrinks s2) as Hw2.
    rewrite H3 in Hw2. simpl in Hw2. assert (2 * String.length s3 + 1 ≤ n) as Hn3 by lia. split; [done|].
    intros H4 H5. pose proof (proj2 (IHv s3 Hn3) _ _ H4). pose proof (skip_white_shrinks s4) as Hw4.
    rewrite H5 in Hw4. simpl in Hw4. lia. }
  split.
  - intros m (m' & -> & Hle)%more_fuel. cbn [parse_members]. destruct (skip_white s) as [|c s1]; [done|].
    destruct (Ascii.eqb c quote); [|done]. destruct (parse_chars s1) as [[k s2]|] eqn:Hc; [|done].
    cbn [mbind option_bind]. destruct (skip_white s2) as [|c2 s3] eqn:Hq; [done|].
    destruct (decide (c2 = ":"%char)) as [->|Hne].
    2: { destruct c2 as [[] [] [] [] [] [] [] []]; done. }
    destruct (Hlen c s1 k s2 s3 JNull "" c "" eq_refl Hc Hq) as [Hn3 _].
    rewrite (proj1 (IHv s3 Hn3) m' Hle). destruct (parse_value n s3) as [[v s4]|] eqn:Hp; [|done].
    cbn [mbind option_bind]. destruct (skip_white s4) as [|c5 s5] eqn:Hq4; [done|].
    destruct (Hlen c s1 k s2 s3 v s4 c5 s5 eq_refl Hc Hq) as [_ H5]. specialize (H5 Hp Hq4).
    by rewrite (proj1 (IHm s5 ltac:(lia)) m' Hle).
  - intros l rest. cbn [parse_members]. destruct (skip_white s) as [|c s1]; [done|].
    destruct (Ascii.eqb c quote); [|done]. destruct (parse_chars s1) as [[k s2]|] eqn:Hc; [|done].
    cbn [mbind option_bind]. destruct (skip_white s2) as [|c2 s3] eqn:Hq; [done|].
    destruct (decide (c2 = ":"%char)) as [->|Hne].
    2: { destruct c2 as [[] [] [] [] [] [] [] []]; done. }
    destruct (parse_value n s3) as [[v s4]|] eqn:Hp; [|done]. cbn [mbind option_bind].
    destruct (skip_white s4) as [|c5 s5] eqn:Hq4; [done|].
    destruct (Hlen c s1 k s2 s3 v s4 c5 s5 eq_refl Hc Hq) as [_ H5]. specialize (H5 Hp Hq4).
    pose proof (proj2 (IHm s5 ltac:(lia))) as He.
    assert (('(l, rest) ← parse_members n s5; Some ((k, v) :: l, rest)) = Some (l, rest) →
      String.length rest < String.length s) as Hel.
    { destruct (parse_members n s5) as [[l' rest']|]; [|done]. intros [= _ <-].
      specialize (He _ _ eq_refl). lia. }
    destruct c5 as [[] [] [] [] [] [] [] []]; first [done|exact Hel|intros [= _ <-]; lia].
Qed.

Lemma parse_fuel n : fuel_ok parse_value 1 n ∧ fuel_ok parse_elements 2 n ∧ fuel_ok parse_members 2 n.
Proof.
  induction n as [|n (IHv & IHe & IHm)]; [split_and!; intros s Hs; lia|].
  split_and!; [by apply parse_value_fuel|by apply parse_elements_fuel|by apply parse_members_fuel].
Qed.

(** The fuel of [json_parse] is enough: no larger amount parses anything else. *)
Lemma json_parse_fuel s fuel :
  2 * String.length s + 2 ≤ fuel → parse_value fuel s = parse_value (2 * String.length s + 2) s.
Proof. intros Hf. apply (proj1 (parse_fuel (2 * String.length s + 2))); [lia|done]. Qed.
