(* ===== verification/KnownPublic.v ===== *)
(** The streams last seen as public
    (packages/node/src/plugins/storage/KnownPublicStreams.ts), kept on disk across
    restarts.  The file is modelled by its content. *)

From S2P Require Import Prelude.
From S2P Require Import Js.
From S2P Require Import TtlMap.
From S2P Require Import Json.

Definition SAVE_DELAY_MS : Z := 5 * 1000.

(** [load] of a file's content; nothing when it cannot be read. *)
Definition load (content : option string) : list string :=
  match content with
  | None => []
  | Some text =>
      match json_parse text with
      | Some (JArray l) =>
          match mapM (λ v, match v with JString s => Some s | _ => None end) l with
          | Some ids => ids
          | None => []
          end
      | _ => []
      end
  end.

Record known_public := MkKnownPublic {
  kp_hasFile : bool;
  kp_streams : list string;          (** the Set, in its insertion order *)
  kp_saveTimeout : option Z
}.

(** [new Set(list)] *)
Definition js_set (l : list string) : list string := reverse (remove_dups (reverse l)).

Definition kp_new (file : option (option string)) : known_public :=
  match file with
  | Some content => MkKnownPublic true (js_set (load content)) None
  | None => MkKnownPublic false [] None
  end.

Definition kp_has (streamId : string) (k : known_public) : bool :=
  bool_decide (streamId ∈ kp_streams k).

Definition kp_scheduleSave (now : Z) (k : known_public) : known_public :=
  if kp_hasFile k && bool_decide (kp_saveTimeout k = None)
  then MkKnownPublic (kp_hasFile k) (kp_streams k) (Some (now + timer_delay SAVE_DELAY_MS)%Z)
  else k.

Definition kp_set (now : Z) (streamId : string) (isPublic : bool) (k : known_public) : known_public :=
  if Bool.eqb isPublic (kp_has streamId k) then k
  else kp_scheduleSave now
         (MkKnownPublic (kp_hasFile k)
            (if isPublic then kp_streams k ++ [streamId]
             else filter (λ s, s ≠ streamId) (kp_streams k)) (kp_saveTimeout k)).

(** [save]: the content of the file afterwards; a failed write leaves it as it was. *)
Definition kp_save (writes : bool) (k : known_public) (content : option string) : option string :=
  if writes then Some (stringify_strings (kp_streams k)) else content.

Definition kp_flush (writes : bool) (k : known_public) (content : option string)
    : known_public * option string :=
  match kp_saveTimeout k with
  | Some _ => let k' := MkKnownPublic (kp_hasFile k) (kp_streams k) None in
              (k', kp_save writes k' content)
  | None => (k, content)
  end.

(** The save timer runs. *)
Definition kp_timer (now : Z) (writes : bool) (k : known_public) (content : option string)
    : known_public * option string :=
  match kp_saveTimeout k with
  | Some t => if (t <=? now)%Z then kp_flush writes k content else (k, content)
  | None => (k, content)
  end.

(** * Facts *)

Lemma load_stringify l : load (Some (stringify_strings l)) = l.
Proof.
  unfold load. rewrite stringify_strings_roundtrip.
  set (f := λ v : json, match v with JString s => Some s | _ => None end).
  assert (mapM f (JString <$> l) = Some l) as ->; [|done].
  induction l as [|s l IH]; [done|].
  transitivity (k ← mapM f (JString <$> l); Some (s :: k)); [reflexivity|]. by rewrite IH.
Qed.

Lemma js_set_NoDup l : NoDup l → js_set l = l.
Proof.
  intros Hnd. unfold js_set. assert (∀ l : list string, NoDup l → remove_dups l = l) as Hid.
  { induction 1 as [|x l' Hx Hl IH]; simpl; [done|].
    destruct (decide_rel _ x l') as [|_]; [done|]. by rewrite IH. }
  rewrite Hid, reverse_involutive; [done|]. by rewrite reverse_Permutation.
Qed.

Definition kp_wf (k : known_public) : Prop := NoDup (kp_streams k).

Lemma kp_set_wf now s b k : kp_wf k → kp_wf (kp_set now s b k).
Proof.
  unfold kp_wf, kp_set, kp_scheduleSave. intros Hnd.
  destruct (Bool.eqb b (kp_has s k)) eqn:Heq; [done|].
  assert (NoDup (if b then kp_streams k ++ [s] else filter (λ s0, s0 ≠ s) (kp_streams k))).
  { destruct b; [|by apply NoDup_filter]. apply NoDup_app. split; [done|]. split; [|apply NoDup_singleton].
    unfold kp_has in Heq. case_bool_decide; [done|]. set_solver. }
  simpl. by destruct (kp_hasFile k && _).
Qed.

Lemma kp_set_has now s b k s' :
  kp_has s' (kp_set now s b k) = if bool_decide (s' = s) then b else kp_has s' k.
Proof.
  unfold kp_set. destruct (Bool.eqb b (kp_has s k)) eqn:Heq.
  - apply eqb_prop in Heq. case_bool_decide; subst; done.
  - assert (∀ k, kp_has s' (kp_scheduleSave now k) = kp_has s' k) as ->
      by (intros k0; unfold kp_scheduleSave; by destruct (_ && _)).
    unfold kp_has. simpl. destruct (decide (s' = s)) as [->|Hne].
    + rewrite (bool_decide_eq_true_2 (s = s)) by done.
      destruct b; [apply bool_decide_eq_true_2; set_solver|apply bool_decide_eq_false_2].
      rewrite list_elem_of_filter. tauto.
    + rewrite (bool_decide_eq_false_2 (s' = s)) by done. apply bool_decide_ext.
      destruct b; [set_solver|]. rewrite list_elem_of_filter. tauto.
Qed.

Lemma kp_set_hasFile now s b k : kp_hasFile (kp_set now s b k) = kp_hasFile k.
Proof. unfold kp_set, kp_scheduleSave. repeat case_match; done. Qed.

(** What happens to the list while it has a file whose writes succeed. *)
Inductive public_event := SetPublic (now : Z) (streamId : string) (isPublic : bool) | SaveTimer (now : Z).
Definition public_step (s : known_public * option string) (ev : public_event)
    : known_public * option string :=
  match ev with
  | SetPublic now streamId isPublic => (kp_set now streamId isPublic s.1, s.2)
  | SaveTimer now => kp_timer now true s.1 s.2
  end.

(** With no save pending, the file holds the list. *)
Definition on_disk (s : known_public * option string) : Prop :=
  kp_hasFile s.1 = true ∧ kp_wf s.1 ∧ (kp_saveTimeout s.1 = None → js_set (load s.2) = kp_streams s.1).

Lemma on_disk_step s ev : on_disk s → on_disk (public_step s ev).
Proof.
  destruct s as [k content]. intros (Hf & Hwf & Hsync). simpl in *. destruct ev as [now sid b|now]; simpl.
  - split; [simpl; by rewrite kp_set_hasFile|]. split; [by apply kp_set_wf|]. simpl.
    unfold kp_set. destruct (Bool.eqb _ _); [done|]. unfold kp_scheduleSave. simpl. rewrite Hf. simpl.
    by case_bool_decide.
  - unfold kp_timer, kp_flush. destruct (kp_saveTimeout k) as [t|] eqn:Ht.
    2: { split; [done|]. split; [done|]. intros _. by apply Hsync. }
    destruct (t <=? now)%Z; [|split; [done|]; split; [done|]; simpl; congruence].
    split; [done|]. split; [done|]. intros _.
    change (js_set (load (Some (stringify_strings (kp_streams k)))) = kp_streams k).
    rewrite load_stringify. by apply js_set_NoDup.
Qed.

(** The list of public streams survives a restart: whatever was set and saved
    before, flushing and loading the file again gives the list as it was. *)
Theorem known_public_survives_restart content evs :
  let s := foldl public_step (kp_new (Some content), content) evs in
  let '(k, content') := kp_flush true s.1 s.2 in
  kp_new (Some content') = MkKnownPublic true (kp_streams s.1) None.
Proof.
  intros s. assert (on_disk s) as Hs.
  { subst s. assert (on_disk (kp_new (Some content), content)) as H0.
    { split; [done|]. split; [|done]. unfold kp_wf. cbn [kp_new kp_streams fst]. unfold js_set. rewrite reverse_Permutation. apply NoDup_remove_dups. }
    revert H0. generalize (kp_new (Some content), content) as s0.
    induction evs as [|ev evs IH]; intros s0 H0; simpl; [done|]. by apply IH, on_disk_step. }
  destruct s as [k content0]. destruct Hs as (Hf & Hwf & Hsync). simpl in *. unfold kp_flush.
  destruct (kp_saveTimeout k) as [t|] eqn:Ht.
  - change (kp_new (Some (Some (stringify_strings (kp_streams k)))) = MkKnownPublic true (kp_streams k) None).
    unfold kp_new. by rewrite load_stringify, js_set_NoDup.
  - unfold kp_new. by rewrite Hsync.
Qed.
