(* ===== verification/PomboGates.v ===== *)
(** Pombo gates (packages/node/src/plugins/storage/PomboGates.ts): who may read a
    stream, resolved from the chain and cached with a lifetime that depends on the
    answer.

    A [chain] is what the StreamrClient and the gate contracts answer at one moment; an
    operation is given the chain of its time.  The caches are [MapWithTtl]s behind
    [ExpiringMap]. *)

From S2P Require Import Prelude.
From S2P Require Import Js.
From S2P Require Import TtlMap.
From S2P Require Import Identifiers.
From S2P Require Import Json.
From S2P Require Import KnownPublic.

Set Default Proof Using "Type".

Definition CACHE_TTL : Z := 10 * 60 * 1000.
Definition DENIAL_TTL : Z := 20 * 1000.
Definition WIRE_IDENTITY_VISIBLE : Z := 0.

Record GateInfo := MkGateInfo {
  gi_address : string; gi_owner : string; gi_readOnly : bool; gi_visible : bool
}.
#[export] Instance GateInfo_eq_dec : EqDecision GateInfo.
Proof. solve_decision. Defined.

Definition ttlOf (granted : bool) : Z := if granted then CACHE_TTL else DENIAL_TTL.
Definition gate_ttl (gate : option GateInfo) : Z :=
  match gate with Some _ => CACHE_TTL | None => DENIAL_TTL end.

(** * Metadata

    The metadata of a stream matters through its [description], when that is a
    string. *)

Definition parsePomboDescription (description : option string) : option json :=
  match description with
  | None => None
  | Some text =>
      match json_parse text with
      | Some (JObject m) => Some (JObject m)
      | Some (JArray l) => Some (JArray l)
      | _ => None
      end
  end.

Definition parseGateAddress (description : option string) : option string :=
  match parsePomboDescription description ≫= json_get "g" with
  | Some (JString gate) => if is_ethereum_address gate then Some (to_lower gate) else None
  | _ => None
  end.

Definition parseLinkedStream (description : option string) : option string :=
  match parsePomboDescription description ≫= json_get "ln" with
  | Some (JString linked) => if (0 <? String.length linked)%nat then Some linked else None
  | _ => None
  end.

(** * The gate contract *)

Record gate_contract := MkGateContract {
  gc_owner : outcome js_error string;
  gc_readOnly : outcome js_error bool;
  gc_wireIdentity : outcome js_error Z;
  gc_moderators : string → outcome js_error bool;
  gc_checkAccess : string → outcome js_error bool
}.

(** [getInfo] of [createEthersGateReader] *)
Definition reader_getInfo (contracts : string → gate_contract) (gateAddress : string)
    : outcome js_error GateInfo :=
  let contract := contracts gateAddress in
  (let? owner := gc_owner contract in
   let? readOnly := gc_readOnly contract in
   let? wireIdentity := gc_wireIdentity contract in
   let? owner := to_ethereum_address owner in
   Return (MkGateInfo gateAddress owner readOnly (wireIdentity =? WIRE_IDENTITY_VISIBLE)%Z))%eff.

(** What the chain answers at one moment. *)
Record chain := MkChain {
  ch_getStreamMetadata : string → outcome js_error (option string);
  ch_contracts : string → gate_contract;
  ch_publicSubscribe : string → outcome js_error bool;
  ch_userSubscribe : string → string → outcome js_error bool;
  ch_userDelete : string → string → outcome js_error bool
}.
Definition ch_getInfo (c : chain) : string → outcome js_error GateInfo :=
  reader_getInfo (ch_contracts c).
Definition ch_isModerator (c : chain) (gateAddress user : string) : outcome js_error bool :=
  gc_moderators (ch_contracts c gateAddress) user.
Definition ch_checkAccess (c : chain) (gateAddress user : string) : outcome js_error bool :=
  gc_checkAccess (ch_contracts c gateAddress) user.

Section gates.
  Context {MB : Type} `{EB : !ExpiringMap string bool MB ttlOf}.
  Context {MG : Type} `{EG : !ExpiringMap string (option GateInfo) MG gate_ttl}.

Record gates := MkGates {
  pg_gateCache : MG;
  pg_moderatorCache : MB;
  pg_accessCache : MB;
  pg_subscribePublicCache : MB;
  pg_subscribeUserCache : MB;
  pg_knownPublic : known_public
}.

Definition gates_new (knownPublic : known_public) : gates :=
  MkGates em_empty em_empty em_empty em_empty em_empty knownPublic.

Definition set_knownPublic (now : Z) (streamId : string) (isPublic : bool) (g : gates) : gates :=
  MkGates (pg_gateCache g) (pg_moderatorCache g) (pg_accessCache g) (pg_subscribePublicCache g)
    (pg_subscribeUserCache g) (kp_set now streamId isPublic (pg_knownPublic g)).
Definition set_gateCache (m : MG) (g : gates) : gates :=
  MkGates m (pg_moderatorCache g) (pg_accessCache g) (pg_subscribePublicCache g)
    (pg_subscribeUserCache g) (pg_knownPublic g).

(** The address of the gate behind a stream: its own, or its linked stream's. *)
Definition gate_address (c : chain) (streamId : string) (metadata : option string)
    : outcome js_error (option string) :=
  match parseGateAddress metadata with
  | Some a => Return (Some a)
  | None =>
      match parseLinkedStream metadata with
      | Some linked => if bool_decide (linked = streamId) then Return None
                       else (let? m := ch_getStreamMetadata c linked in Return (parseGateAddress m))%eff
      | None => Return None
      end
  end.

Definition getGate (now : Z) (c : chain) (streamId : string) : eff gates js_error (option GateInfo) := λ g,
  match em_get streamId (pg_gateCache g) with
  | Some cached => (g, Return cached)
  | None =>
      match ch_getStreamMetadata c streamId with
      | Throw err =>
          (if has_code "STREAM_NOT_FOUND" err then set_knownPublic now streamId false g else g, Throw err)
      | Return metadata =>
          match gate_address c streamId metadata with
          | Throw err => (g, Throw err)
          | Return gateAddress =>
              let g1 := match gateAddress with
                        | Some _ => set_knownPublic now streamId false g
                        | None => g
                        end in
              match (match gateAddress with
                     | Some a => (let? i := ch_getInfo c a in Return (Some i))%eff
                     | None => Return None
                     end) with
              | Throw err => (g1, Throw err)
              | Return info =>
                  (set_gateCache (em_set now streamId info (pg_gateCache g1)) g1, Return info)
              end
          end
      end
  end.

Definition cachedLookup (now : Z) (key : string) (lookup : outcome js_error bool) : eff MB js_error bool := λ cache,
  match em_get key cache with
  | Some cached => (cache, Return cached)
  | None => match lookup with
            | Throw e => (cache, Throw e)
            | Return result => (em_set now key result cache, Return result)
            end
  end.

Definition pair_key (a user : string) : string := a +:+ "_" +:+ user.

Definition isModerator (now : Z) (c : chain) (gateAddress user : string) : eff gates js_error bool := λ g,
  let '(m, r) := cachedLookup now (pair_key gateAddress user) (ch_isModerator c gateAddress user)
                   (pg_moderatorCache g) in
  (MkGates (pg_gateCache g) m (pg_accessCache g) (pg_subscribePublicCache g)
     (pg_subscribeUserCache g) (pg_knownPublic g), r).

Definition hasAccess (now : Z) (c : chain) (gateAddress user : string) : eff gates js_error bool := λ g,
  let '(m, r) := cachedLookup now (pair_key gateAddress user) (ch_checkAccess c gateAddress user)
                   (pg_accessCache g) in
  (MkGates (pg_gateCache g) (pg_moderatorCache g) m (pg_subscribePublicCache g)
     (pg_subscribeUserCache g) (pg_knownPublic g), r).

Definition isPublicSubscribe (now : Z) (c : chain) (streamId : string) : eff gates js_error bool := λ g,
  match em_get streamId (pg_subscribePublicCache g) with
  | Some cached => (g, Return cached)
  | None =>
      match ch_publicSubscribe c streamId with
      | Throw e => (g, Throw e)
      | Return result =>
          (MkGates (pg_gateCache g) (pg_moderatorCache g) (pg_accessCache g)
             (em_set now streamId result (pg_subscribePublicCache g)) (pg_subscribeUserCache g)
             (kp_set now streamId result (pg_knownPublic g)), Return result)
      end
  end.

Definition wasLastSeenPublic (streamId : string) (g : gates) : bool :=
  kp_has streamId (pg_knownPublic g).

Definition hasSubscribe (now : Z) (c : chain) (streamId user : string) : eff gates js_error bool := λ g,
  let '(m, r) := cachedLookup now (pair_key streamId user) (ch_userSubscribe c streamId user)
                   (pg_subscribeUserCache g) in
  (MkGates (pg_gateCache g) (pg_moderatorCache g) (pg_accessCache g) (pg_subscribePublicCache g)
     m (pg_knownPublic g), r).

(** [a || await b] *)
Definition eff_or (a b : eff gates js_error bool) : eff gates js_error bool :=
  (let! x := a in if x then eff_ret true else b)%eff.

(** The rule of a gated channel *)
Definition gate_access (now : Z) (c : chain) (info : GateInfo) (user : string) : eff gates js_error bool :=
  eff_or (eff_ret (bool_decide (user = gi_owner info)))
    (eff_or (isModerator now c (gi_address info) user) (hasAccess now c (gi_address info) user)).

Definition canRead (now : Z) (c : chain) (streamId user : string) : eff gates js_error bool :=
  (let! gate := getGate now c streamId in
   match gate with
   | Some info => gate_access now c info user
   | None => eff_or (isPublicSubscribe now c streamId) (hasSubscribe now c streamId user)
   end)%eff.

Definition gates_destroy (writes : bool) (g : gates) (content : option string) : gates * option string :=
  let '(k, content') := kp_flush writes (pg_knownPublic g) content in
  (MkGates (em_clear (pg_gateCache g)) (em_clear (pg_moderatorCache g)) (em_clear (pg_accessCache g))
     (em_clear (pg_subscribePublicCache g)) (em_clear (pg_subscribeUserCache g)) k, content').

(** The timers that are due at [now] run. *)
Definition gates_tick (now : Z) (g : gates) : gates :=
  MkGates (em_expire now (pg_gateCache g)) (em_expire now (pg_moderatorCache g))
    (em_expire now (pg_accessCache g)) (em_expire now (pg_subscribePublicCache g))
    (em_expire now (pg_subscribeUserCache g)) (pg_knownPublic g).
End gates.
Arguments gates : clear implicits.

(** * Facts *)

(** The gate of a stream, as the chain tells it without a cache *)
Definition resolve_gate (c : chain) (streamId : string) : outcome js_error (option GateInfo) :=
  (let? metadata := ch_getStreamMetadata c streamId in
   let? gateAddress := gate_address c streamId metadata in
   match gateAddress with
   | Some a => let? i := ch_getInfo c a in Return (Some i)
   | None => Return None
   end)%eff.

Lemma string_app_inj_length a b s t :
  String.length a = String.length b → a +:+ s = b +:+ t → a = b ∧ s = t.
Proof.
  revert b. induction a as [|c a IH]; intros [|d b] Hlen; simplify_eq/=; intros Heq; [done|].
  injection Heq as -> Heq. by destruct (IH b Hlen Heq) as [-> ->].
Qed.

Lemma pair_key_inj a u a' u' :
  String.length u = String.length u' → pair_key a u = pair_key a' u' → a = a' ∧ u = u'.
Proof.
  unfold pair_key. intros Hlen Heq. pose proof (f_equal String.length Heq) as Hl.
  rewrite !length_string_app in Hl. simpl in Hl.
  destruct (string_app_inj_length a a' _ _ ltac:(lia) Heq) as [-> Hu].
  by simplify_eq/=.
Qed.

(** ** A cache of answers

    [answers t k v]: asked at [t] about [k], the chain answered [v]. *)

Section cache.
  Context {V M : Type} {ttl : V → Z} `{E : !ExpiringMap string V M ttl}.
  Context (answers : Z → string → V → Prop).

(** Every entry is an answer of the chain, kept for the lifetime of that answer. *)
Definition cache_inv (now : Z) (m : M) : Prop :=
  em_wf m ∧ ∀ k v d, em_view m !! k = Some (v, d) →
    ∃ t, (t ≤ now ∧ d = t + timer_delay (ttl v))%Z ∧ answers t k v.

Lemma cache_inv_empty now : cache_inv now em_empty.
Proof. split; [auto with ttl|]. intros *. by rewrite em_view_empty, lookup_empty. Qed.

Lemma cache_inv_set now k v m : cache_inv now m → answers now k v → cache_inv now (em_set now k v m).
Proof.
  intros [Hwf Hm] Ha. split; [auto with ttl|]. intros k' v' d. rewrite em_view_set by done.
  rewrite lookup_insert_Some. intros [[<- ?]|[_ ?]]; [simplify_eq; exists now; split; [lia|done]|eauto].
Qed.

Lemma cache_inv_expire t now m : cache_inv now m → cache_inv now (em_expire t m).
Proof.
  intros [Hwf Hm]. split; [auto with ttl|]. intros *. rewrite em_view_expire by done.
  rewrite map_lookup_filter_Some. naive_solver.
Qed.

Lemma cache_inv_clear now m : cache_inv now m → cache_inv now (em_clear m).
Proof.
  intros [Hwf Hm]. split; [auto with ttl|]. intros *. by rewrite em_view_clear, lookup_empty by done.
Qed.

Lemma cache_inv_mono now now' m : (now ≤ now')%Z → cache_inv now m → cache_inv now' m.
Proof.
  intros Hle [Hwf Hm]. split; [done|]. intros k v d Hk.
  destruct (Hm k v d Hk) as (t & [? ?] & ?). exists t. split; [lia|done].
Qed.

(** Once the due timers ran, what the cache returns is younger than its lifetime. *)
Definition cache_fresh (now : Z) (m : M) : Prop :=
  ∀ k v d, em_view m !! k = Some (v, d) → (now < d)%Z.

Lemma cache_fresh_expire now m : cache_inv now m → cache_fresh now (em_expire now m).
Proof.
  intros [Hwf _] k v d. rewrite em_view_expire by done. rewrite map_lookup_filter_Some. naive_solver.
Qed.

Lemma cache_fresh_set now k v m :
  em_wf m → (0 < timer_delay (ttl v))%Z → cache_fresh now m → cache_fresh now (em_set now k v m).
Proof.
  intros Hwf Hv Hm k' v' d. rewrite em_view_set by done.
  rewrite lookup_insert_Some. intros [[<- ?]|[_ ?]]; [simplify_eq; lia|eauto].
Qed.

Lemma cache_get now k v m :
  cache_inv now m → cache_fresh now m → em_get k m = Some v →
  ∃ t, (t ≤ now < t + timer_delay (ttl v))%Z ∧ answers t k v.
Proof.
  intros [Hwf Hm] Hf. rewrite em_get_view by done. intros Hk.
  apply fmap_Some in Hk as ([v' d] & Hk & ->). cbn [fst].
  destruct (Hm _ _ _ Hk) as (t & [? ->] & Ha). pose proof (Hf _ _ _ Hk). exists t. split; [lia|done].
Qed.
End cache.

(** * What the caches guarantee

    [chain_at t] is what the chain answers at [t].  A call runs after the timers that are
    due and asks the chain of its own time. *)

Section runs.
  Context {MB : Type} `{EB : !ExpiringMap string bool MB ttlOf}.
  Context {MG : Type} `{EG : !ExpiringMap string (option GateInfo) MG gate_ttl}.
  Context (chain_at : Z → chain).
  Notation gs := (gates MB MG).

(** The calls of the clients: [isPublicSubscribe] is asked of streams with no gate. *)
Inductive gate_call :=
  | CallGetGate (streamId : string)
  | CallIsModerator (gateAddress user : string)
  | CallHasAccess (gateAddress user : string)
  | CallPublicSubscribe (streamId : string)
  | CallHasSubscribe (streamId user : string)
  | CallCanRead (streamId user : string).

Definition call_user (c : gate_call) : option string :=
  match c with
  | CallIsModerator _ u | CallHasAccess _ u | CallHasSubscribe _ u | CallCanRead _ u => Some u
  | _ => None
  end.
Definition user_ok (u : string) : Prop := String.length u = 42.

Definition gate_or_public (now : Z) (c : chain) (streamId : string) : eff gs js_error bool :=
  (let! gate := getGate now c streamId in
   match gate with Some _ => eff_ret false | None => isPublicSubscribe now c streamId end)%eff.

Definition gate_step (now : Z) (call : gate_call) (g : gs) : gs :=
  let c := chain_at now in
  let g := gates_tick now g in
  match call with
  | CallGetGate s => fst (getGate now c s g)
  | CallIsModerator a u => fst (isModerator now c a u g)
  | CallHasAccess a u => fst (hasAccess now c a u g)
  | CallPublicSubscribe s => fst (gate_or_public now c s g)
  | CallHasSubscribe s u => fst (hasSubscribe now c s u g)
  | CallCanRead s u => fst (canRead now c s u g)
  end.

(** The states the calls lead to, with the time of the last one *)
Inductive gates_reach (known : known_public) : Z → gs → Prop :=
  | reach_new now : gates_reach known now (gates_new known)
  | reach_call now now' call g :
      gates_reach known now g → (now ≤ now')%Z → (∀ u, call_user call = Some u → user_ok u) →
      gates_reach known now' (gate_step now' call g).

(** ** The invariant *)

Definition pair_answer (lookup : chain → string → string → outcome js_error bool)
    (t : Z) (key : string) (v : bool) : Prop :=
  ∃ a u, key = pair_key a u ∧ user_ok u ∧ lookup (chain_at t) a u = Return v.
Definition gate_answer (t : Z) (s : string) (v : option GateInfo) : Prop :=
  resolve_gate (chain_at t) s = Return v.
Definition public_answer (t : Z) (s : string) (v : bool) : Prop :=
  ch_publicSubscribe (chain_at t) s = Return v.

(** [P] held of the chain at most [ttl] ago. *)
Definition recently (now ttl : Z) (P : chain → Prop) : Prop :=
  ∃ t, (t ≤ now < t + ttl)%Z ∧ P (chain_at t).

(** Seen public: an answer, at a moment when no gate was known to be on the chain. *)
Definition seen_public (now : Z) (s : string) : Prop :=
  ∃ t, (t ≤ now)%Z ∧ public_answer t s true ∧
    recently t DENIAL_TTL (λ c, resolve_gate c s = Return None).

Definition flag_inv (known : known_public) (now : Z) (g : gs) : Prop :=
  ∀ s, kp_has s (pg_knownPublic g) = true →
    (kp_has s known = true ∨ seen_public now s) ∧
    (∀ info, em_get s (pg_gateCache g) ≠ Some (Some info)).

Record gates_inv (known : known_public) (now : Z) (g : gs) : Prop := {
  gv_gate : cache_inv gate_answer now (pg_gateCache g);
  gv_moderator : cache_inv (pair_answer ch_isModerator) now (pg_moderatorCache g);
  gv_access : cache_inv (pair_answer ch_checkAccess) now (pg_accessCache g);
  gv_public : cache_inv public_answer now (pg_subscribePublicCache g);
  gv_user : cache_inv (pair_answer ch_userSubscribe) now (pg_subscribeUserCache g);
  gv_flag : flag_inv known now g
}.

Record gates_fresh (now : Z) (g : gs) : Prop := {
  gf_gate : cache_fresh now (pg_gateCache g);
  gf_moderator : cache_fresh now (pg_moderatorCache g);
  gf_access : cache_fresh now (pg_accessCache g);
  gf_public : cache_fresh now (pg_subscribePublicCache g);
  gf_user : cache_fresh now (pg_subscribeUserCache g)
}.

(** Both, as each operation keeps them *)
Definition gates_ok (known : known_public) (now : Z) (g : gs) : Prop :=
  gates_inv known now g ∧ gates_fresh now g.

Lemma ttlOf_delay b : timer_delay (ttlOf b) = ttlOf b.
Proof. by destruct b. Qed.
Lemma gate_ttl_delay v : timer_delay (gate_ttl v) = gate_ttl v.
Proof. by destruct v. Qed.
Lemma ttlOf_pos b : (0 < timer_delay (ttlOf b))%Z.
Proof. by destruct b. Qed.
Lemma gate_ttl_pos v : (0 < timer_delay (gate_ttl v))%Z.
Proof. by destruct v. Qed.
#[local] Hint Resolve ttlOf_pos gate_ttl_pos : ttl.

Lemma seen_public_mono now now' s : (now ≤ now')%Z → seen_public now s → seen_public now' s.
Proof. intros ? (t & ? & ?). exists t. split; [lia|done]. Qed.

Lemma em_get_expire now m k v :
  em_wf m → em_get k (em_expire now m) = Some v → em_get (M := MG) k m = Some v.
Proof.
  intros Hwf. rewrite !em_get_view by auto with ttl. rewrite em_view_expire by done.
  intros ([v' d] & Hk & ->)%fmap_Some. apply map_lookup_filter_Some in Hk as [Hk _]. by rewrite Hk.
Qed.

Lemma gates_tick_ok known now now' g :
  (now ≤ now')%Z → gates_inv known now g → gates_ok known now' (gates_tick now' g).
Proof.
  intros Hle [Hg Hm Ha Hp Hu Hf]. split.
  - split; simpl; try (by eapply cache_inv_expire, cache_inv_mono).
    intros s Hs. destruct (Hf s Hs) as [Hpub Hng]. split.
    + destruct Hpub; [by left|right]. by eapply seen_public_mono.
    + intros info Hget. simpl in Hget. apply em_get_expire in Hget; [|apply Hg]. by eapply Hng.
  - split; simpl; eapply cache_fresh_expire, cache_inv_mono; eauto.
Qed.

(** ** The operations keep it *)

Lemma cachedLookup_ok (lookup : chain → string → string → outcome js_error bool) now a u (m m' : MB) r :
  user_ok u → cache_inv (pair_answer lookup) now m → cache_fresh now m →
  cachedLookup now (pair_key a u) (lookup (chain_at now) a u) m = (m', r) →
  cache_inv (pair_answer lookup) now m' ∧ cache_fresh now m' ∧
  ∀ b, r = Return b → recently now (ttlOf b) (λ c, lookup c a u = Return b).
Proof.
  intros Hu Hinv Hf. unfold cachedLookup. destruct (em_get _ m) as [v|] eqn:Hget.
  - intros ?; simplify_eq. split; [done|]. split; [done|]. intros b [= ->].
    destruct (cache_get _ _ _ _ _ Hinv Hf Hget) as (t & Ht & a' & u' & Heq & Hu' & Hl).
    rewrite ttlOf_delay in Ht. exists t. split; [done|].
    by apply pair_key_inj in Heq as [-> ->]; [|unfold user_ok in *; congruence].
  - destruct (lookup (chain_at now) a u) as [v|e] eqn:Hl; intros ?; simplify_eq; [|by split_and!].
    split; [apply cache_inv_set; [done|by exists a, u]|].
    split; [apply cache_fresh_set; [apply Hinv|auto with ttl|done]|].
    intros b [= ->]. exists now. split; [|done]. pose proof (ttlOf_pos b). rewrite ttlOf_delay in *. lia.
Qed.

Lemma isModerator_ok known now a u g g' r :
  user_ok u → gates_ok known now g → isModerator now (chain_at now) a u g = (g', r) →
  gates_ok known now g' ∧
  ∀ b, r = Return b → recently now (ttlOf b) (λ c, ch_isModerator c a u = Return b).
Proof.
  intros Hu [[Hg Hm Ha Hp Hus Hf] [Fg Fm Fa Fp Fu]]. unfold isModerator.
  destruct (cachedLookup _ _ _ _) as [m r'] eqn:Hc. intros ?; simplify_eq.
  destruct (cachedLookup_ok _ _ _ _ _ _ _ Hu Hm Fm Hc) as (? & ? & ?). done.
Qed.

Lemma hasAccess_ok known now a u g g' r :
  user_ok u → gates_ok known now g → hasAccess now (chain_at now) a u g = (g', r) →
  gates_ok known now g' ∧
  ∀ b, r = Return b → recently now (ttlOf b) (λ c, ch_checkAccess c a u = Return b).
Proof.
  intros Hu [[Hg Hm Ha Hp Hus Hf] [Fg Fm Fa Fp Fu]]. unfold hasAccess.
  destruct (cachedLookup _ _ _ _) as [m r'] eqn:Hc. intros ?; simplify_eq.
  destruct (cachedLookup_ok _ _ _ _ _ _ _ Hu Ha Fa Hc) as (? & ? & ?). done.
Qed.

Lemma hasSubscribe_ok known now s u g g' r :
  user_ok u → gates_ok known now g → hasSubscribe now (chain_at now) s u g = (g', r) →
  gates_ok known now g' ∧
  ∀ b, r = Return b → recently now (ttlOf b) (λ c, ch_userSubscribe c s u = Return b).
Proof.
  intros Hu [[Hg Hm Ha Hp Hus Hf] [Fg Fm Fa Fp Fu]]. unfold hasSubscribe.
  destruct (cachedLookup _ _ _ _) as [m r'] eqn:Hc. intros ?; simplify_eq.
  destruct (cachedLookup_ok _ _ _ _ _ _ _ Hu Hus Fu Hc) as (? & ? & ?). done.
Qed.

(** A stream that is not public any more, or has a gate: its flag goes. *)
Lemma flag_inv_clear known now s g :
  flag_inv known now g → flag_inv known now (set_knownPublic now s false g).
Proof.
  intros Hf s'. cbn [pg_knownPublic set_knownPublic pg_gateCache]. rewrite kp_set_has.
  case_bool_decide; [done|]. intros Hs. apply (Hf s' Hs).
Qed.

Lemma em_get_set now k v (m : MG) k' :
  em_wf m → em_get k' (em_set now k v m) = if bool_decide (k' = k) then Some v else em_get k' m.
Proof.
  intros Hwf. rewrite !em_get_view by auto with ttl. rewrite em_view_set by done.
  case_bool_decide; subst; [by rewrite lookup_insert_eq|by rewrite lookup_insert_ne].
Qed.

Lemma getGate_ok known now s g g' r :
  gates_ok known now g → getGate now (chain_at now) s g = (g', r) →
  gates_ok known now g' ∧
  ∀ v, r = Return v → em_get s (pg_gateCache g') = Some v ∧
    recently now (gate_ttl v) (λ c, resolve_gate c s = Return v).
Proof.
  intros Hok. pose proof Hok as [[Hg Hm Ha Hp Hus Hf] [Fg Fm Fa Fp Fu]]. unfold getGate.
  destruct (em_get s _) as [v|] eqn:Hget.
  { intros ?; simplify_eq. split; [done|]. intros v' [= ->]. split; [done|].
    destruct (cache_get _ _ _ _ _ Hg Fg Hget) as (t & Ht & Ht'). rewrite gate_ttl_delay in Ht.
    by exists t. }
  assert (gates_ok known now (set_knownPublic now s false g)) as Hclr.
  { split; split; try done. by apply flag_inv_clear. }
  destruct (ch_getStreamMetadata _ s) as [md|e] eqn:Hmd.
  2: { destruct (has_code _ e); intros ?; by simplify_eq. }
  destruct (gate_address _ s md) as [ga|e] eqn:Hga; [|intros ?; by simplify_eq].
  set (g1 := match ga with Some _ => _ | None => g end).
  assert (gates_ok known now g1) as H1 by (subst g1; by destruct ga).
  assert (ga = None ∨ kp_has s (pg_knownPublic g1) = false) as Hg1.
  { subst g1. destruct ga; [right|by left]. cbn. by rewrite kp_set_has, bool_decide_eq_true_2. }
  destruct (match ga with Some a => outcome_bind _ _ | None => _ end) as [info|e] eqn:Hi; [|intros ?; by simplify_eq].
  assert (resolve_gate (chain_at now) s = Return info) as Hres.
  { unfold resolve_gate. rewrite Hmd. simpl. rewrite Hga. simpl. done. }
  assert (info = None ∨ kp_has s (pg_knownPublic g1) = false) as Hor.
  { destruct Hg1 as [Hga'|]; [left|by right]. rewrite Hga' in Hi. by simplify_eq. }
  intros ?; simplify_eq. destruct H1 as [[Jg Jm Ja Jp Ju Jf] [Kg Km Ka Kp Ku]].
  cbn [pg_gateCache set_gateCache]. split.
  - split; [split|split]; try done.
    + by apply cache_inv_set.
    + intros s' Hs'. destruct (Jf s' Hs') as [? Hng]. split; [done|]. intros i.
      cbn [pg_gateCache set_gateCache]. rewrite em_get_set by apply Jg. case_bool_decide as Heq; [|apply Hng].
      subst s'. destruct Hor as [->|Hfl]; [done|]. cbn in Hs'. congruence.
    + apply cache_fresh_set; [apply Jg|auto with ttl|done].
  - intros v [= ->]. split; [rewrite em_get_set by apply Jg; by rewrite bool_decide_eq_true_2|].
    exists now. split; [|done]. pose proof (gate_ttl_pos v). rewrite gate_ttl_delay in *. lia.
Qed.

Lemma isPublicSubscribe_ok known now s g g' r :
  gates_ok known now g → em_get s (pg_gateCache g) = Some None →
  recently now DENIAL_TTL (λ c, resolve_gate c s = Return None) →
  isPublicSubscribe now (chain_at now) s g = (g', r) →
  gates_ok known now g' ∧
  ∀ b, r = Return b → recently now (ttlOf b) (λ c, ch_publicSubscribe c s = Return b).
Proof.
  intros Hok Hnone Hres. pose proof Hok as [[Hg Hm Ha Hp Hus Hf] [Fg Fm Fa Fp Fu]].
  unfold isPublicSubscribe. destruct (em_get s (pg_subscribePublicCache g)) as [v|] eqn:Hget.
  { intros ?; simplify_eq. split; [done|]. intros b [= ->].
    destruct (cache_get _ _ _ _ _ Hp Fp Hget) as (t & Ht & Ht'). rewrite ttlOf_delay in Ht.
    by exists t. }
  destruct (ch_publicSubscribe _ s) as [v|e] eqn:Hv; intros ?; simplify_eq; [|done]. split.
  - split; [split|split]; try done; cbn [pg_subscribePublicCache].
    + by apply cache_inv_set.
    + intros s'. cbn [pg_knownPublic pg_gateCache]. rewrite kp_set_has.
      case_bool_decide as Heq; [|apply (Hf s')]. subst s'. intros ->. split; [|congruence].
      right. exists now. split; [lia|done].
    + apply cache_fresh_set; [apply Hp|auto with ttl|done].
  - intros b [= ->]. exists now. split; [|done]. pose proof (ttlOf_pos b). rewrite ttlOf_delay in *. lia.
Qed.

(** ** [canRead] *)

(** A granted read: the answers it rests on are at most ten minutes old. *)
Definition grant_justified (now : Z) (s u : string) : Prop :=
  (∃ info, recently now CACHE_TTL (λ c, resolve_gate c s = Return (Some info)) ∧
     (u = gi_owner info ∨
      recently now CACHE_TTL (λ c, ch_isModerator c (gi_address info) u = Return true) ∨
      recently now CACHE_TTL (λ c, ch_checkAccess c (gi_address info) u = Return true))) ∨
  (recently now DENIAL_TTL (λ c, resolve_gate c s = Return None) ∧
   (recently now CACHE_TTL (λ c, ch_publicSubscribe c s = Return true) ∨
    recently now CACHE_TTL (λ c, ch_userSubscribe c s u = Return true))).

(** A refused read: of a gated stream, the gate and its owner were the chain's at most ten
    minutes ago (the owner is an answer that grants, and is kept as one) and its moderator and
    access rule said no at most twenty seconds ago; of a stream with no gate, that there
    is none and both SUBSCRIBE rules are answers of at most twenty seconds ago. *)
Definition denial_justified (now : Z) (s u : string) : Prop :=
  (∃ info, recently now CACHE_TTL (λ c, resolve_gate c s = Return (Some info)) ∧
     u ≠ gi_owner info ∧
     recently now DENIAL_TTL (λ c, ch_isModerator c (gi_address info) u = Return false) ∧
     recently now DENIAL_TTL (λ c, ch_checkAccess c (gi_address info) u = Return false)) ∨
  (recently now DENIAL_TTL (λ c, resolve_gate c s = Return None) ∧
   recently now DENIAL_TTL (λ c, ch_publicSubscribe c s = Return false) ∧
   recently now DENIAL_TTL (λ c, ch_userSubscribe c s u = Return false)).

Definition read_justified (now : Z) (s u : string) (b : bool) : Prop :=
  if b then grant_justified now s u else denial_justified now s u.

Lemma gate_access_ok known now info u g g' r :
  user_ok u → gates_ok known now g → gate_access now (chain_at now) info u g = (g', r) →
  gates_ok known now g' ∧
  (r = Return true → u = gi_owner info ∨
     recently now CACHE_TTL (λ c, ch_isModerator c (gi_address info) u = Return true) ∨
     recently now CACHE_TTL (λ c, ch_checkAccess c (gi_address info) u = Return true)) ∧
  (r = Return false → u ≠ gi_owner info ∧
     recently now DENIAL_TTL (λ c, ch_isModerator c (gi_address info) u = Return false) ∧
     recently now DENIAL_TTL (λ c, ch_checkAccess c (gi_address info) u = Return false)).
Proof.
  intros Hu Hok. unfold gate_access, eff_or, eff_bind, eff_ret. case_bool_decide as Ho.
  { intros ?; simplify_eq. split_and!; eauto. done. }
  destruct (isModerator _ _ _ _ g) as [g1 [[]|e]] eqn:Hm.
  - destruct (isModerator_ok _ _ _ _ _ _ _ Hu Hok Hm) as [H1 Hr].
    intros ?; simplify_eq. split_and!; [done| |done]. intros _. right. left. by apply (Hr true).
  - destruct (isModerator_ok _ _ _ _ _ _ _ Hu Hok Hm) as [H1 Hr].
    intros Ha. destruct (hasAccess_ok _ _ _ _ _ _ _ Hu H1 Ha) as [H2 Hr2].
    split_and!; [done|..].
    + intros Ht. right. right. by apply (Hr2 true).
    + intros Ht. split_and!; [done|by apply (Hr false)|by apply (Hr2 false)].
  - destruct (isModerator_ok _ _ _ _ _ _ _ Hu Hok Hm) as [H1 Hr]. intros ?; by simplify_eq.
Qed.

Lemma canRead_ok known now s u g g' r :
  user_ok u → gates_ok known now g → canRead now (chain_at now) s u g = (g', r) →
  gates_ok known now g' ∧ ∀ b, r = Return b → read_justified now s u b.
Proof.
  intros Hu Hok. unfold canRead, eff_bind. destruct (getGate _ _ s g) as [g1 [[info|]|e]] eqn:Hgt.
  - destruct (getGate_ok _ _ _ _ _ _ Hok Hgt) as [H1 Hr]. intros Ha.
    destruct (gate_access_ok _ _ _ _ _ _ _ Hu H1 Ha) as (H2 & Ht & Hf).
    split; [done|]. destruct (Hr _ eq_refl) as [_ Hrec]. intros [] Hb; left; exists info; eauto.
  - destruct (getGate_ok _ _ _ _ _ _ Hok Hgt) as [H1 Hr]. destruct (Hr _ eq_refl) as [Hget Hrec].
    unfold eff_or, eff_bind, eff_ret. destruct (isPublicSubscribe _ _ s g1) as [g2 [[]|e]] eqn:Hp;
      destruct (isPublicSubscribe_ok _ _ _ _ _ _ H1 Hget Hrec Hp) as [H2 Hr2].
    + intros ?; simplify_eq. split; [done|]. intros b [= <-]. right. split; [done|left].
      by apply (Hr2 true).
    + intros Hs. destruct (hasSubscribe_ok _ _ _ _ _ _ _ Hu H2 Hs) as [H3 Hr3].
      split; [done|]. intros [] Hb; right; (split; [done|]).
      * right. by apply (Hr3 true).
      * split; [by apply (Hr2 false)|by apply (Hr3 false)].
    + intros ?; by simplify_eq.
  - destruct (getGate_ok _ _ _ _ _ _ Hok Hgt) as [H1 Hr]. intros ?; by simplify_eq.
Qed.

Lemma gate_or_public_ok known now s g g' r :
  gates_ok known now g → gate_or_public now (chain_at now) s g = (g', r) → gates_ok known now g'.
Proof.
  intros Hok. unfold gate_or_public, eff_bind, eff_ret.
  destruct (getGate _ _ s g) as [g1 [[info|]|e]] eqn:Hgt;
    destruct (getGate_ok _ _ _ _ _ _ Hok Hgt) as [H1 Hr]; [intros ?; by simplify_eq| |intros ?; by simplify_eq].
  destruct (Hr _ eq_refl) as [Hget Hrec]. intros Hp. by eapply isPublicSubscribe_ok.
Qed.

Lemma gate_step_inv known now now' call g :
  (now ≤ now')%Z → (∀ u, call_user call = Some u → user_ok u) →
  gates_inv known now g → gates_inv known now' (gate_step now' call g).
Proof.
  intros Hle Hu Hinv. pose proof (gates_tick_ok _ _ _ _ Hle Hinv) as Hok. unfold gate_step.
  assert (∀ u, call_user call = Some u → user_ok u) as Huu by done.
  destruct call; cbn [call_user] in Huu;
    match goal with |- gates_inv _ _ (fst ?e) => destruct e as [g' r] eqn:He end; cbn [fst];
    [eapply getGate_ok in He|eapply isModerator_ok in He|eapply hasAccess_ok in He
    |eapply gate_or_public_ok in He|eapply hasSubscribe_ok in He|eapply canRead_ok in He]; eauto; apply He.
Qed.

Lemma gates_reach_inv known now g : gates_reach known now g → gates_inv known now g.
Proof.
  induction 1 as [now|now now' call g _ IH Hle Hu]; [|by eapply gate_step_inv].
  split; try (apply cache_inv_empty). intros s Hs. split; [by left|].
  intros info. cbn [gates_new pg_gateCache].
  rewrite em_get_view, em_view_empty, lookup_empty by auto with ttl. done.
Qed.

(** ** What the node last read of a stream

    A call reads from the chain what no cache has: that a stream is missing or has a gate
    ([false]), or whether anyone may subscribe to it. *)

Definition gate_reading (c : chain) (s : string) (g : gs) : list bool :=
  match em_get s (pg_gateCache g) with
  | Some _ => []
  | None =>
      match ch_getStreamMetadata c s with
      | Throw e => if has_code "STREAM_NOT_FOUND" e then [false] else []
      | Return md => match gate_address c s md with Return (Some _) => [false] | _ => [] end
      end
  end.

Definition without_gate (c : chain) (s : string) (g : gs) : bool :=
  match em_get s (pg_gateCache g) with
  | Some (Some _) => false
  | Some None => true
  | None => match resolve_gate c s with Return None => true | _ => false end
  end.

Definition public_reading (c : chain) (s : string) (g : gs) : list bool :=
  match em_get s (pg_subscribePublicCache g) with
  | Some _ => []
  | None => match ch_publicSubscribe c s with Return b => [b] | Throw _ => [] end
  end.

Definition open_readings (c : chain) (s : string) (g : gs) : list (string * bool) :=
  pair s <$> gate_reading c s g ++ (if without_gate c s g then public_reading c s g else []).

Definition call_readings (c : chain) (call : gate_call) (g : gs) : list (string * bool) :=
  match call with
  | CallGetGate s => pair s <$> gate_reading c s g
  | CallPublicSubscribe s | CallCanRead s _ => open_readings c s g
  | CallIsModerator _ _ | CallHasAccess _ _ | CallHasSubscribe _ _ => []
  end.

(** The states the calls lead to, with all that was read on the way *)
Inductive gates_run (known : known_public) : Z → gs → list (string * bool) → Prop :=
  | run_new now : gates_run known now (gates_new known) []
  | run_call now now' call g h :
      gates_run known now g h → (now ≤ now')%Z → (∀ u, call_user call = Some u → user_ok u) →
      gates_run known now' (gate_step now' call g) (h ++ call_readings (chain_at now') call (gates_tick now' g)).

Lemma gates_run_reach known now g h : gates_run known now g h → gates_reach known now g.
Proof. induction 1; [constructor|by eapply reach_call]. Qed.

(** The last of the readings of a stream; before the first one, [b] *)
Definition last_reading (s : string) (b : bool) (h : list (string * bool)) : bool :=
  foldl (λ b r, if bool_decide (r.1 = s) then r.2 else b) b h.

Lemma getGate_readings now c s s' (g : gs) :
  wasLastSeenPublic s' (getGate now c s g).1 =
  last_reading s' (wasLastSeenPublic s' g) (pair s <$> gate_reading c s g).
Proof.
  assert (∀ g0 : gs, wasLastSeenPublic s' (set_knownPublic now s false g0) =
            last_reading s' (wasLastSeenPublic s' g0) [(s, false)]) as Hclr.
  { intros g0. unfold wasLastSeenPublic, last_reading. cbn. rewrite kp_set_has.
    repeat case_bool_decide; congruence. }
  unfold getGate, gate_reading. destruct (em_get s _); [done|].
  destruct (ch_getStreamMetadata c s) as [md|e]; [|by destruct (has_code _ e); [apply Hclr|]].
  destruct (gate_address c s md) as [[a|]|e]; [|done..].
  destruct (ch_getInfo c a); cbn [outcome_bind fst]; apply Hclr.
Qed.

Lemma getGate_caches now c s (g : gs) :
  pg_subscribePublicCache (getGate now c s g).1 = pg_subscribePublicCache g ∧
  (getGate now c s g).2 = match em_get s (pg_gateCache g) with Some v => Return v | None => resolve_gate c s end.
Proof.
  unfold getGate, resolve_gate. destruct (em_get s _); [done|].
  destruct (ch_getStreamMetadata c s) as [md|e]; [|by destruct (has_code _ e)].
  cbn [outcome_bind]. destruct (gate_address c s md) as [[a|]|e]; [|done..].
  cbn [outcome_bind]. by destruct (ch_getInfo c a).
Qed.

Lemma isPublicSubscribe_readings now c s s' (g : gs) :
  wasLastSeenPublic s' (isPublicSubscribe now c s g).1 =
  last_reading s' (wasLastSeenPublic s' g) (pair s <$> public_reading c s g).
Proof.
  unfold isPublicSubscribe, public_reading. destruct (em_get s _); [done|].
  destruct (ch_publicSubscribe c s) as [b|]; [|done].
  unfold wasLastSeenPublic, last_reading. cbn. rewrite kp_set_has. repeat case_bool_decide; congruence.
Qed.

Lemma gate_or_public_readings now c s s' (g : gs) :
  wasLastSeenPublic s' (gate_or_public now c s g).1 =
  last_reading s' (wasLastSeenPublic s' g) (open_readings c s g).
Proof.
  unfold open_readings. rewrite fmap_app. unfold last_reading. rewrite foldl_app.
  fold (last_reading s' (wasLastSeenPublic s' g) (pair s <$> gate_reading c s g)).
  rewrite <-(getGate_readings now). unfold gate_or_public, eff_bind, eff_ret, without_gate.
  destruct (getGate_caches now c s g) as [Hp Hr].
  destruct (getGate now c s g) as [g1 r]. cbn [fst snd] in *. subst r.
  destruct (match em_get s _ with Some v => Return v | None => resolve_gate c s end) as [[i|]|e] eqn:Hv.
  - by destruct (em_get s _) as [[]|]; simplify_eq; try rewrite Hv.
  - rewrite isPublicSubscribe_readings. unfold public_reading. rewrite Hp.
    by destruct (em_get s (pg_gateCache g)) as [[]|]; simplify_eq; try rewrite Hv.
  - by destruct (em_get s _) as [[]|]; simplify_eq; try rewrite Hv.
Qed.

Lemma gate_access_known now c info u (g : gs) :
  pg_knownPublic (gate_access now c info u g).1 = pg_knownPublic g.
Proof.
  unfold gate_access, eff_or, eff_bind, eff_ret, isModerator, hasAccess. case_bool_decide; [done|].
  destruct (cachedLookup _ _ _ _) as [m [[]|e]]; [done| |done].
  cbn [pg_accessCache pg_knownPublic]. by destruct (cachedLookup _ _ _ _) as [m' r].
Qed.

Lemma canRead_known now c s u (g : gs) :
  pg_knownPublic (canRead now c s u g).1 = pg_knownPublic (gate_or_public now c s g).1.
Proof.
  unfold canRead, gate_or_public, eff_bind, eff_ret.
  destruct (getGate now c s g) as [g1 [[i|]|e]]; [by rewrite gate_access_known| |done].
  unfold eff_or, eff_bind, eff_ret. destruct (isPublicSubscribe now c s g1) as [g2 [[]|e]]; [done| |done].
  unfold hasSubscribe. by destruct (cachedLookup _ _ _ _).
Qed.

Lemma gate_step_readings now call s (g : gs) :
  wasLastSeenPublic s (gate_step now call g) =
  last_reading s (wasLastSeenPublic s g) (call_readings (chain_at now) call (gates_tick now g)).
Proof.
  assert (wasLastSeenPublic s g = wasLastSeenPublic s (gates_tick now g)) as -> by done.
  unfold gate_step. generalize (gates_tick now g) as g0. intros g0. destruct call; cbn [call_readings].
  - apply getGate_readings.
  - unfold isModerator. by destruct (cachedLookup _ _ _ _).
  - unfold hasAccess. by destruct (cachedLookup _ _ _ _).
  - apply gate_or_public_readings.
  - unfold hasSubscribe. by destruct (cachedLookup _ _ _ _).
  - rewrite <-(gate_or_public_readings now). unfold wasLastSeenPublic. by rewrite canRead_known.
Qed.

(** A stream counts as last seen public exactly when the last reading of it said so. *)
Lemma gates_run_last known now g h s :
  gates_run known now g h → wasLastSeenPublic s g = last_reading s (kp_has s known) h.
Proof.
  induction 1 as [|now now' call g h _ IH]; [done|].
  rewrite gate_step_readings, IH. unfold last_reading. by rewrite foldl_app.
Qed.

(** C12: freshness of a read decision.  After any sequence of calls, an answer of [canRead] is
    one the chain gave.  What grants a read was true on the chain less than ten minutes
    ago: the stream's gate, with its owner, moderator or access rule; or, where the chain
    showed no gate less than twenty seconds ago, the public or the user's SUBSCRIBE.  A
    refusal of a gated channel rests on a gate, and an owner that is not the user, read
    less than ten minutes ago, and on a no of the moderator rule and one of the access rule
    younger than twenty seconds; a refusal of another stream rests only on answers younger
    than twenty seconds: no gate, no public SUBSCRIBE, no SUBSCRIBE of the user. *)
Theorem canRead_answers_are_recent known now now' g s u g' b :
  gates_reach known now g → (now ≤ now')%Z → user_ok u →
  canRead now' (chain_at now') s u (gates_tick now' g) = (g', Return b) →
  read_justified now' s u b.
Proof.
  intros Hr Hle Hu Hc. pose proof (gates_tick_ok _ _ _ _ Hle (gates_reach_inv _ _ _ Hr)) as Hok.
  destruct (canRead_ok _ _ _ _ _ _ _ Hu Hok Hc) as [_ Hb]. by apply Hb.
Qed.

(** A stream counts as last seen public only if the list it started with says so or the
    chain once answered that anyone may subscribe, with no gate on the stream; it does not
    while a gate is cached for it; and reading from the chain that the stream has a gate, or
    does not exist, clears it whatever else fails. *)
Theorem last_seen_public_sound known now g s :
  gates_reach known now g →
  (wasLastSeenPublic s g = true →
     (kp_has s known = true ∨ seen_public now s) ∧
     ∀ info, em_get s (pg_gateCache g) ≠ Some (Some info)) ∧
  ∀ c, em_get s (pg_gateCache g) = None →
    (∃ e, ch_getStreamMetadata c s = Throw e ∧ has_code "STREAM_NOT_FOUND" e = true) ∨
    (∃ md a, ch_getStreamMetadata c s = Return md ∧ gate_address c s md = Return (Some a)) →
    wasLastSeenPublic s (fst (getGate now c s g)) = false.
Proof.
  intros Hr%gates_reach_inv. split; [apply (gv_flag _ _ _ Hr)|].
  intros c Hget Hc. unfold getGate, wasLastSeenPublic. rewrite Hget.
  assert (kp_has s (kp_set now s false (pg_knownPublic g)) = false) as Hclr
    by (by rewrite kp_set_has, bool_decide_eq_true_2).
  destruct Hc as [(e & -> & ->)|(md & a & -> & ->)]; [done|]. by destruct (ch_getInfo c a).
Qed.
End runs.

Lemma to_ethereum_address_length s a : to_ethereum_address s = Return a → user_ok a.
Proof.
  unfold to_ethereum_address, is_ethereum_address, user_ok. intros H.
  destruct (has_0x_prefix s && _ && _) eqn:Hok; simplify_eq.
  apply andb_prop in Hok as [[_ Hlen]%andb_prop _]. apply Nat.eqb_eq in Hlen. by rewrite length_to_lower.
Qed.

(** What fails, when an operation does, is the chain at that moment. *)
Section failures.
  Context {MB : Type} `{EB : !ExpiringMap string bool MB ttlOf}.
  Context {MG : Type} `{EG : !ExpiringMap string (option GateInfo) MG gate_ttl}.

Lemma getGate_throw now c s (g g' : gates MB MG) e :
  getGate now c s g = (g', Throw e) → resolve_gate c s = Throw e.
Proof.
  unfold getGate, resolve_gate. destruct (em_get s _); [done|].
  destruct (ch_getStreamMetadata c s) as [md|e']; simpl; [|by intros [= _ <-]].
  destruct (gate_address c s md) as [[a|]|e']; simpl; [..|by intros [= _ <-]]; [|done].
  destruct (ch_getInfo c a); simpl; [done|by intros [= _ <-]].
Qed.

Lemma isPublicSubscribe_throw now c s (g g' : gates MB MG) e :
  isPublicSubscribe now c s g = (g', Throw e) → ch_publicSubscribe c s = Throw e.
Proof.
  unfold isPublicSubscribe. destruct (em_get s _); [done|].
  destruct (ch_publicSubscribe c s); [done|by intros [= _ <-]].
Qed.

Lemma cachedLookup_throw now key l (m m' : MB) e : cachedLookup now key l m = (m', Throw e) → l = Throw e.
Proof. unfold cachedLookup. destruct (em_get key m); [done|]. destruct l; [done|by intros [= _ <-]]. Qed.

Lemma isModerator_throw now c a u (g g' : gates MB MG) e :
  isModerator now c a u g = (g', Throw e) → ch_isModerator c a u = Throw e.
Proof. unfold isModerator. destruct (cachedLookup _ _ _ _) eqn:H. intros; simplify_eq. by eapply cachedLookup_throw. Qed.
Lemma hasAccess_throw now c a u (g g' : gates MB MG) e :
  hasAccess now c a u g = (g', Throw e) → ch_checkAccess c a u = Throw e.
Proof. unfold hasAccess. destruct (cachedLookup _ _ _ _) eqn:H. intros; simplify_eq. by eapply cachedLookup_throw. Qed.
Lemma hasSubscribe_throw now c s u (g g' : gates MB MG) e :
  hasSubscribe now c s u g = (g', Throw e) → ch_userSubscribe c s u = Throw e.
Proof. unfold hasSubscribe. destruct (cachedLookup _ _ _ _) eqn:H. intros; simplify_eq. by eapply cachedLookup_throw. Qed.
End failures.

(** * Concrete runs *)

Module GatesWitness.
Definition owner : string := "0x1111111111111111111111111111111111111111".
Definition member : string := "0x2222222222222222222222222222222222222222".
Definition gate : string := "0x3333333333333333333333333333333333333333".
Definition stream : string := "0xabc/chat-1".

(** A gate that lets [member] in from the time 1000 on *)
Definition contract (t : Z) : gate_contract :=
  MkGateContract (Return owner) (Return false) (Return 0%Z) (λ _, Return false)
    (λ u, Return (bool_decide (u = member) && (1000 <=? t)%Z)).
Definition description : string := stringify_strings [] (** not an object with a gate *).
Definition quote : string := String (Ascii.ascii_of_nat 34) "".
Definition gated : string := "{" +:+ quote +:+ "g" +:+ quote +:+ ":" +:+ quote +:+ gate +:+ quote +:+ "}".
Definition chain_at (t : Z) : chain :=
  MkChain (λ s, Return (Some (if bool_decide (s = stream) then gated else description)))
    (λ _, contract t) (λ s, Return (bool_decide (s ≠ stream))) (λ _ _, Return false) (λ _ _, Return false).
Notation gts := (gates (ttl_map string bool) (ttl_map string (option GateInfo))).
Definition g0 : gts := gates_new (kp_new None).
Definition g1 : gts := gate_step chain_at 0 (CallCanRead stream member) g0.
Definition g2 : gts := gate_step chain_at 0 (CallPublicSubscribe "other") g1.

Lemma user_calls u call : user_ok u → call_user call = Some u ∨ call_user call = None →
  ∀ u', call_user call = Some u' → user_ok u'.
Proof. intros ? [->| ->] u'; naive_solver. Qed.

Lemma g2_reach : gates_reach chain_at (kp_new None) 0 g2.
Proof.
  unfold g2, g1. apply reach_call with 0%Z; [|lia|by eapply (user_calls member); [|right]].
  apply reach_call with 0%Z; [constructor|lia|by eapply (user_calls member); [|left]].
Qed.

(** Twenty-five seconds after a refusal the member, let in meanwhile, may read. *)
Lemma canRead_answers_are_recent_witness :
  snd (canRead 25000 (chain_at 25000) stream member (gates_tick 25000 g2)) = Return true ∧
  read_justified chain_at 25000 stream member true.
Proof.
  assert (snd (canRead 25000 (chain_at 25000) stream member (gates_tick 25000 g2)) = Return true) as Heq
    by (vm_compute; reflexivity).
  split; [exact Heq|].
  apply (canRead_answers_are_recent chain_at (kp_new None) 0 25000 g2 stream member
    (fst (canRead 25000 (chain_at 25000) stream member (gates_tick 25000 g2))) true g2_reach ltac:(lia) eq_refl).
  rewrite <-Heq. apply surjective_pairing.
Defined.

Lemma last_seen_public_sound_witness :
  wasLastSeenPublic "other" g2 = true ∧ seen_public chain_at 0 "other" ∧
  wasLastSeenPublic "other" (fst (getGate 0 (chain_at 0) stream g0)) = false.
Proof.
  assert (wasLastSeenPublic "other" g2 = true) as Hseen by (vm_compute; reflexivity).
  split; [exact Hseen|]. split; [|vm_compute; reflexivity].
  destruct (last_seen_public_sound chain_at (kp_new None) 0 g2 "other" g2_reach) as [Hs _].
  destruct (Hs Hseen) as [[Hk|Hk] _]; [|exact Hk]. vm_compute in Hk. discriminate.
Defined.
End GatesWitness.
