(* ===== verification/SignedReads.v ===== *)
(** Signed reads (packages/node/src/plugins/storage/signedReads.ts): the guard in front of
    the read endpoints.  Its state, shared with the other endpoints, is the nonces of the
    [SignedRequestVerifier] and the caches of [PomboGates].  [Number], which reads the
    time of issue from a header, is a parameter: nothing depends on what it returns. *)

From S2P Require Import Prelude.
From S2P Require Import Js.
From S2P Require Import TtlMap.
From S2P Require Import Identifiers.
From S2P Require Import Json.
From S2P Require Import KnownPublic.
From S2P Require Import SignedRequest.
From S2P Require Import PomboGates.
From stdpp Require Import sorting.

Set Default Proof Using "Type".

Definition OPEN_STREAM_SUFFIX : string := "-3".

(** * Requests

    A parameter of the query string, as Express parses it: text, the list of a repeated
    parameter, or an object. *)
Inductive query_value := QText (s : string) | QList (l : list query_value) | QObject.

(** [String(v)] *)
Fixpoint query_text (v : query_value) : string :=
  match v with
  | QText s => s
  | QList l => string_join "," (query_text <$> l)
  | QObject => "[object Object]"
  end.

Record read_request := MkReadRequest {
  rr_id : string;
  rr_partition : string;
  rr_resendType : option string;
  rr_query : list (string * query_value);       (** each name once *)
  rr_user : option string; rr_issuedAt : option string; rr_nonce : option string;
  rr_signature : option string                    (** the headers *)
}.

(** The order of [sort]: code units, then length *)
Definition string_le (a b : string) : Prop := String.leb a b = true.
#[export] Instance string_le_dec a b : Decision (string_le a b).
Proof. unfold string_le. apply _. Defined.

Definition canonicalQuery (query : list (string * query_value)) : string :=
  string_join "&"
    (key ← merge_sort string_le query.*1;
     let values := match (list_to_map query : gmap string query_value) !! key with
                   | Some (QList l) => l
                   | Some v => [v]
                   | None => []
                   end in
     (λ v, key +:+ "=" +:+ query_text v) <$> values).

(** * The guard *)

Inductive read_result :=
  | Next                                         (** the endpoint answers *)
  | Responded (status : Z) (error : string).

Section guard.
  Context (verifyMessage : string → string → outcome js_error string) (number : string → jsnum).
  Context {M : Type} `{EM : !ExpiringMap string bool M nonce_ttl}.
  Context {MB : Type} `{EB : !ExpiringMap string bool MB ttlOf}.
  Context {MG : Type} `{EG : !ExpiringMap string (option GateInfo) MG gate_ttl}.

Definition readEnvelope (req : read_request) : option raw_envelope :=
  match rr_user req, rr_issuedAt req, rr_nonce req, rr_signature req with
  | Some user, Some issuedAt, Some nonce, Some signature =>
      Some (RawEnvelope (Some user) (Some (number issuedAt)) (Some nonce) (Some signature))
  | _, _, _, _ => None
  end.

Record access := MkAccess { ac_nonces : M; ac_gates : gates MB MG }.

(** What the guard asks of the verifier *)
Definition read_signed_request (req : read_request) : signed_request :=
  SignedRequest (readEnvelope req) "read" (rr_id req) (js_parse_int (rr_partition req))
    [default "" (rr_resendType req); canonicalQuery (rr_query req)].

(** The access check of a gated channel, or of a stream that is not public *)
Definition accessCheck (now : Z) (c : chain) (streamId : string) (gate : option GateInfo) (user : string)
    : eff (gates MB MG) js_error bool :=
  match gate with
  | Some info => gate_access now c info user
  | None => hasSubscribe now c streamId user
  end.

(** The part after the rule is picked: a signature of an account with access *)
Definition require_signature (now : Z) (c : chain) (req : read_request) (gate : option GateInfo)
    (a : access) : access * read_result :=
  match verify verifyMessage now (read_signed_request req) (ac_nonces a) with
  | (m, Throw (SignedRequestError message)) => (MkAccess m (ac_gates a), Responded 401 message)
  | (m, Return user) =>
      match accessCheck now c (rr_id req) gate user (ac_gates a) with
      | (g, Throw _) => (MkAccess m g, Responded 503 "Cannot verify access right now")
      | (g, Return allowed) =>
          (MkAccess m g, if negb allowed then Responded 403 "No access to this stream" else Next)
      end
  end.

Definition createSignedReadGuard (enabled : bool) (now : Z) (c : chain) (req : read_request) (a : access)
    : access * read_result :=
  if negb enabled then (a, Next)
  else
    let streamId := rr_id req in
    let partition := js_parse_int (rr_partition req) in
    if js_is_nan partition || ends_with OPEN_STREAM_SUFFIX streamId then (a, Next)
    else
      match getGate now c streamId (ac_gates a) with
      | (g, Throw err) =>
          (MkAccess (ac_nonces a) g,
           if has_code "STREAM_NOT_FOUND" err then Responded 404 "Stream not found"
           else if wasLastSeenPublic streamId g then Next
           else Responded 503 "Cannot verify access right now")
      | (g, Return (Some info)) => require_signature now c req (Some info) (MkAccess (ac_nonces a) g)
      | (g, Return None) =>
          match isPublicSubscribe now c streamId g with
          | (g, Throw err) =>
              (MkAccess (ac_nonces a) g,
               if wasLastSeenPublic streamId g then Next
               else Responded 503 "Cannot verify access right now")
          | (g, Return isPublic) =>
              if isPublic then (MkAccess (ac_nonces a) g, Next)
              else require_signature now c req None (MkAccess (ac_nonces a) g)
          end
      end.
End guard.
Arguments access : clear implicits.

(** * Facts *)

(** ** The canonical query *)

Lemma string_leb_cons c d a b :
  String.leb (String c a) (String d b) =
    match Ascii.compare c d with Lt => true | Eq => String.leb a b | Gt => false end.
Proof. unfold String.leb. simpl. by destruct (Ascii.compare c d). Qed.

Lemma ascii_compare_trans a b c :
  Ascii.compare a b ≠ Gt → Ascii.compare b c ≠ Gt → Ascii.compare a c ≠ Gt ∧
  (Ascii.compare a c = Eq → Ascii.compare a b = Eq ∧ Ascii.compare b c = Eq).
Proof.
  unfold Ascii.compare. intros H1 H2.
  assert (Ascii.N_of_ascii a ≤ Ascii.N_of_ascii b)%N by exact H1.
  assert (Ascii.N_of_ascii b ≤ Ascii.N_of_ascii c)%N by exact H2.
  split; [change (Ascii.N_of_ascii a ≤ Ascii.N_of_ascii c)%N; lia|].
  rewrite !N.compare_eq_iff. lia.
Qed.

#[export] Instance string_le_trans : Transitive string_le.
Proof.
  intros a. unfold string_le. induction a as [|x a IH]; intros [|y b] [|z c]; try done.
  rewrite !string_leb_cons. intros H1 H2.
  destruct (ascii_compare_trans x y z) as [Hgt Heq];
    [by destruct (Ascii.compare x y)|by destruct (Ascii.compare y z)|].
  destruct (Ascii.compare x z) eqn:Hxz; [|done..].
  destruct (Heq eq_refl) as [Hxy Hyz]. rewrite Hxy in H1. rewrite Hyz in H2. by eapply IH.
Qed.
#[export] Instance string_le_total : Total string_le.
Proof. intros a b. unfold string_le. destruct (String.leb_total a b); auto. Qed.
#[export] Instance string_le_antisym : AntiSymm (=) string_le.
Proof. intros a b. unfold string_le. apply String.leb_antisym. Qed.

(** The query a client signs does not depend on the order of the parameters: two
    requests with the same parameters have one canonical query. *)
Theorem canonicalQuery_order_irrelevant query query' :
  NoDup query.*1 → query ≡ₚ query' → canonicalQuery query = canonicalQuery query'.
Proof.
  intros Hnd Hp. unfold canonicalQuery. rewrite (list_to_map_proper query query') by done.
  assert (merge_sort string_le query.*1 = merge_sort string_le query'.*1) as ->; [|done].
  apply (StronglySorted_unique string_le); [by apply (StronglySorted_merge_sort string_le)..|].
  by rewrite !merge_sort_Permutation, Hp.
Qed.

(** ** The guard *)

Section facts.
  Context (verifyMessage : string → string → outcome js_error string) (number : string → jsnum).
  Context {M : Type} `{EM : !ExpiringMap string bool M nonce_ttl}.
  Context {MB : Type} `{EB : !ExpiringMap string bool MB ttlOf}.
  Context {MG : Type} `{EG : !ExpiringMap string (option GateInfo) MG gate_ttl}.
  Context (chain_at : Z → chain).

Lemma verify_user_ok now rq m m' u :
  verify verifyMessage (M := M) now rq m = (m', Return u) → user_ok u.
Proof.
  intros (e & _ & _ & Hrec & _)%verify_result. unfold recover in Hrec.
  destruct (to_ethereum_address (env_user e)) as [a|] eqn:Ha; [|done]. simpl in Hrec.
  destruct (verifyMessage _ _) as [b|]; [|done]. simpl in Hrec.
  destruct (to_ethereum_address b) as [d|] eqn:Hb; simplify_eq/=. by eapply to_ethereum_address_length.
Qed.

(** The stream can be read by anyone: no gate, and a public SUBSCRIBE. *)
Definition open_stream (now : Z) (streamId : string) : Prop :=
  recently chain_at now DENIAL_TTL (λ c, resolve_gate c streamId = Return None) ∧
  recently chain_at now CACHE_TTL (λ c, ch_publicSubscribe c streamId = Return true).

(** The chain fails to say, now, whether the stream is open. *)
Definition chain_fails (c : chain) (streamId : string) : Prop :=
  is_return (resolve_gate c streamId) = false ∨ is_return (ch_publicSubscribe c streamId) = false.
Definition ever_public (known : known_public) (now : Z) (streamId : string) : Prop :=
  kp_has streamId known = true ∨ seen_public chain_at now streamId.

(** The chain fails to say whether [user] has access by the rule of [gate]. *)
Definition access_fails (now : Z) (s user : string) (gate : option GateInfo) : Prop :=
  match gate with
  | Some info =>
      user ≠ gi_owner info ∧
      (is_return (ch_isModerator (chain_at now) (gi_address info) user) = false ∨
       recently chain_at now DENIAL_TTL (λ c, ch_isModerator c (gi_address info) user = Return false) ∧
       is_return (ch_checkAccess (chain_at now) (gi_address info) user) = false)
  | None => is_return (ch_userSubscribe (chain_at now) s user) = false
  end.

(** The rule the guard picks for a stream that is not open: its gate, or, where there is
    neither a gate nor a public SUBSCRIBE, the SUBSCRIBE of the user *)
Definition rule_picked (now : Z) (s : string) (gate : option GateInfo) : Prop :=
  match gate with
  | Some info => recently chain_at now CACHE_TTL (λ c, resolve_gate c s = Return (Some info))
  | None => recently chain_at now DENIAL_TTL (λ c, resolve_gate c s = Return None) ∧
            recently chain_at now DENIAL_TTL (λ c, ch_publicSubscribe c s = Return false)
  end.

(** What that rule says of [user], by answers less than ten minutes (a yes) or twenty
    seconds (a no) old *)
Definition rule_says (now : Z) (s user : string) (gate : option GateInfo) (b : bool) : Prop :=
  match gate, b with
  | Some info, true =>
      user = gi_owner info ∨
      recently chain_at now CACHE_TTL (λ c, ch_isModerator c (gi_address info) user = Return true) ∨
      recently chain_at now CACHE_TTL (λ c, ch_checkAccess c (gi_address info) user = Return true)
  | Some info, false =>
      user ≠ gi_owner info ∧
      recently chain_at now DENIAL_TTL (λ c, ch_isModerator c (gi_address info) user = Return false) ∧
      recently chain_at now DENIAL_TTL (λ c, ch_checkAccess c (gi_address info) user = Return false)
  | None, _ => recently chain_at now (ttlOf b) (λ c, ch_userSubscribe c s user = Return b)
  end.

(** The stream that the gate of [s] is looked up on, after [s] itself *)
Definition linked_stream (c : chain) (s linked : string) : Prop :=
  ∃ md, ch_getStreamMetadata c s = Return md ∧ parseGateAddress md = None ∧
        parseLinkedStream md = Some linked ∧ linked ≠ s.

Definition missing (c : chain) (s : string) : Prop :=
  ∃ e, ch_getStreamMetadata c s = Throw e ∧ has_code "STREAM_NOT_FOUND" e = true.

(** What each answer rests on.  [gate] is the answer about the gate that this read got,
    [signed] what the verifier says of the request, and [public] whether the last
    reading of the stream said that anyone may read it. *)
Inductive answer_justified (now : Z) (s : string) (gate : outcome js_error (option GateInfo))
    (signed : outcome verify_error string) (public : bool) : read_result → Prop :=
  | next_open : gate = Return None → open_stream now s → answer_justified now s gate signed public Next
  | next_outage : chain_fails (chain_at now) s → public = true → answer_justified now s gate signed public Next
  | next_signed rule user :
      gate = Return rule → rule_picked now s rule → signed = Return user → rule_says now s user rule true →
      answer_justified now s gate signed public Next
  | refuse_missing : missing (chain_at now) s →
      answer_justified now s gate signed public (Responded 404 "Stream not found")
  | refuse_link_missing linked : linked_stream (chain_at now) s linked → missing (chain_at now) linked →
      answer_justified now s gate signed public (Responded 404 "Stream not found")
  | refuse_unsigned rule message :
      gate = Return rule → rule_picked now s rule → signed = Throw (SignedRequestError message) →
      answer_justified now s gate signed public (Responded 401 message)
  | refuse_access rule user :
      gate = Return rule → rule_picked now s rule → signed = Return user → rule_says now s user rule false →
      answer_justified now s gate signed public (Responded 403 "No access to this stream")
  | refuse_outage : chain_fails (chain_at now) s → public = false →
      answer_justified now s gate signed public (Responded 503 "Cannot verify access right now")
  | refuse_access_outage rule user :
      gate = Return rule → rule_picked now s rule → signed = Return user → access_fails now s user rule →
      answer_justified now s gate signed public (Responded 503 "Cannot verify access right now").

(** An error of a gate contract is not the registry's STREAM_NOT_FOUND. *)
Definition contract_errors_ordinary : Prop :=
  ∀ t a e, ch_getInfo (chain_at t) a = Throw e → has_code "STREAM_NOT_FOUND" e = false.

Lemma getGate_missing now s e :
  contract_errors_ordinary → resolve_gate (chain_at now) s = Throw e → has_code "STREAM_NOT_FOUND" e = true →
  missing (chain_at now) s ∨ ∃ linked, linked_stream (chain_at now) s linked ∧ missing (chain_at now) linked.
Proof.
  intros Hord. unfold resolve_gate. destruct (ch_getStreamMetadata _ s) as [md|e'] eqn:Hmd; cbn [outcome_bind].
  2: { intros [= ->] He. left. by exists e. }
  destruct (gate_address _ s md) as [[a|]|e'] eqn:Ha; cbn [outcome_bind]; [|done|].
  { destruct (ch_getInfo _ a) as [i|e'] eqn:Hi; [done|]. intros [= ->]. by rewrite (Hord _ _ _ Hi). }
  intros [= ->] He. right. unfold gate_address in Ha.
  destruct (parseGateAddress md) eqn:Hp; [done|]. destruct (parseLinkedStream md) as [linked|] eqn:Hl; [|done].
  case_bool_decide; [done|]. exists linked. split; [by exists md|]. exists e. split; [|done].
  by destruct (ch_getStreamMetadata _ linked); simplify_eq/=.
Qed.

Lemma accessCheck_throw known now s gate u (g g' : gates MB MG) e :
  user_ok u → gates_ok chain_at known now g →
  accessCheck now (chain_at now) s gate u g = (g', Throw e) → access_fails now s u gate.
Proof.
  intros Hu Hok. destruct gate as [info|]; simpl.
  - unfold gate_access, eff_or, eff_bind, eff_ret. case_bool_decide as Ho; [done|].
    destruct (isModerator _ _ _ _ g) as [g1 [[]|e']] eqn:Hm; [done| |].
    + intros Ha%hasAccess_throw. split; [done|]. right. rewrite Ha.
      destruct (isModerator_ok _ _ _ _ _ _ _ _ Hu Hok Hm) as [_ Hr]. by split; [apply (Hr false)|].
    + intros _. apply isModerator_throw in Hm. split; [done|]. left. by rewrite Hm.
  - intros Hs%hasSubscribe_throw. by rewrite Hs.
Qed.

Lemma accessCheck_ok known now s gate u (g g' : gates MB MG) b :
  user_ok u → gates_ok chain_at known now g →
  accessCheck now (chain_at now) s gate u g = (g', Return b) → rule_says now s u gate b.
Proof.
  intros Hu Hok. destruct gate as [info|]; simpl in *; intros Hc.
  - destruct (gate_access_ok _ _ _ _ _ _ _ _ Hu Hok Hc) as (_ & Ht & Hf). destruct b; auto.
  - destruct (hasSubscribe_ok _ _ _ _ _ _ _ _ Hu Hok Hc) as [_ Hr]. by apply Hr.
Qed.

Lemma require_signature_ok known now req gate public a a' res :
  gates_ok chain_at known now (ac_gates a) → rule_picked now (rr_id req) gate →
  require_signature verifyMessage number now (chain_at now) req gate a = (a', res) →
  answer_justified now (rr_id req) (Return gate)
    (verify verifyMessage now (read_signed_request number req) (ac_nonces a)).2 public res.
Proof.
  intros Hok Hrule. unfold require_signature.
  destruct (verify _ _ _ _) as [m [user|[message]]] eqn:Hv; cbn [snd].
  - pose proof (verify_user_ok _ _ _ _ _ Hv) as Hu.
    destruct (accessCheck _ _ _ _ _ _) as [g [b|e]] eqn:Hc; intros [= <- <-].
    + pose proof (accessCheck_ok _ _ _ _ _ _ _ _ Hu Hok Hc) as Hj.
      destruct b; simpl in *; [by eapply next_signed|by eapply refuse_access].
    + eapply refuse_access_outage; [done..|]. by eapply accessCheck_throw.
  - intros [= <- <-]. by eapply refuse_unsigned.
Qed.

Lemma flag_ever_public known now s (g : gates MB MG) :
  gates_ok chain_at known now g → wasLastSeenPublic s g = true → ever_public known now s.
Proof. intros [Hinv _] Hs. apply (gv_flag _ _ _ _ Hinv s Hs). Qed.

(** C7: what the guard answers, and why.  It does not look at requests while it is disabled, for
    a partition that is not a number, and for the admin stream.  Every other read is
    passed on only if the stream is open; or the chain fails now and the last reading
    that the node made of the stream, in this call or any before it, said that anyone may
    read it; or the request is signed by an account that the rule of the stream (its
    gate, or its SUBSCRIBE where it has none and is not public) let in less than ten
    minutes ago.  It is refused only when the chain says that the stream, or the stream it
    names for its gate, is missing (404); when that rule applies and the signature does not
    verify (401); when the rule refused the signer less than twenty seconds ago (403); or
    when the chain fails now, for a stream not last read as public or in what the rule
    asks of it about the signer (503). *)
Theorem signed_read_guard_justified known t now g h m enabled req a' res :
  gates_run chain_at known t g h → (t ≤ now)%Z → contract_errors_ordinary →
  createSignedReadGuard verifyMessage number enabled now (chain_at now) req
    (MkAccess m (gates_tick now g)) = (a', res) →
  if negb enabled || js_is_nan (js_parse_int (rr_partition req)) || ends_with OPEN_STREAM_SUFFIX (rr_id req)
  then a' = MkAccess m (gates_tick now g) ∧ res = Next
  else answer_justified now (rr_id req)
         (getGate now (chain_at now) (rr_id req) (gates_tick now g)).2
         (verify verifyMessage now (read_signed_request number req) m).2
         (last_reading (rr_id req) (kp_has (rr_id req) known)
            (h ++ open_readings (chain_at now) (rr_id req) (gates_tick now g))) res.
Proof.
  intros Hrun Hle Hord. pose proof (gates_run_last _ _ _ _ _ (rr_id req) Hrun) as Hlast.
  pose proof (gates_reach_inv _ _ _ _ (gates_run_reach _ _ _ _ _ Hrun)) as Hr.
  pose proof (gates_tick_ok _ _ _ _ _ Hle Hr) as Hok.
  assert (last_reading (rr_id req) (kp_has (rr_id req) known)
            (h ++ open_readings (chain_at now) (rr_id req) (gates_tick now g)) =
          wasLastSeenPublic (rr_id req) (gate_or_public now (chain_at now) (rr_id req) (gates_tick now g)).1) as ->.
  { unfold last_reading. rewrite foldl_app. fold (last_reading (rr_id req) (kp_has (rr_id req) known) h).
    by rewrite <-Hlast, gate_or_public_readings. }
  unfold createSignedReadGuard. destruct enabled; simpl; [|by intros [= <- <-]].
  destruct (js_is_nan _ || _); [by intros [= <- <-]|].
  unfold gate_or_public, eff_bind, eff_ret.
  destruct (getGate _ _ _ _) as [g1 [[info|]|e]] eqn:Hg; cbn [fst snd];
    destruct (getGate_ok _ _ _ _ _ _ _ Hok Hg) as [Hok1 Hret].
  - destruct (Hret _ eq_refl) as [_ Hrec]. intros Hq.
    eapply (require_signature_ok known now req (Some info) _ (MkAccess m g1)) in Hq; done.
  - destruct (Hret _ eq_refl) as [Hget Hrec].
    destruct (isPublicSubscribe _ _ _ _) as [g2 [[]|e]] eqn:Hp; cbn [fst];
      destruct (isPublicSubscribe_ok _ _ _ _ _ _ _ Hok1 Hget Hrec Hp) as [Hok2 Hret2].
    + intros [= <- <-]. apply next_open; [done|]. split; [done|]. by apply (Hret2 true).
    + intros Hq. eapply (require_signature_ok known now req None _ (MkAccess m g2)) in Hq; [done|done|].
      split; [done|]. by apply (Hret2 false).
    + apply isPublicSubscribe_throw in Hp. assert (chain_fails (chain_at now) (rr_id req)) by (right; by rewrite Hp).
      destruct (wasLastSeenPublic _ g2) eqn:Hs; intros [= <- <-]; [by apply next_outage|by apply refuse_outage].
  - apply getGate_throw in Hg. assert (chain_fails (chain_at now) (rr_id req)) by (left; by rewrite Hg).
    destruct (has_code _ e) eqn:He; [intros [= <- <-]|].
    { destruct (getGate_missing _ _ _ Hord Hg He) as [?|(linked & ? & ?)];
        [by apply refuse_missing|by eapply refuse_link_missing]. }
    destruct (wasLastSeenPublic _ g1) eqn:Hs; intros [= <- <-]; [by apply next_outage|by apply refuse_outage].
Qed.
End facts.

(** * A concrete read *)

Module SignedReadsWitness.
Import GatesWitness.
Definition verifyMessage (message signature : string) : outcome js_error string := Return signature.
Definition request : read_request :=
  MkReadRequest stream "0" (Some "last") [("count", QText "10")]
    (Some member) (Some "25000") (Some "nonce-001") (Some member).
Definition state : access (ttl_map string bool) (ttl_map string bool) (ttl_map string (option GateInfo)) :=
  MkAccess ttl_empty (gates_tick 25000 g2).
Definition answer := createSignedReadGuard verifyMessage js_parse_int true 25000 (chain_at 25000) request state.

Lemma g2_run : gates_run chain_at (kp_new None) 0 g2 [(stream, false); ("other", true)].
Proof.
  change [(stream, false); ("other", true)] with
    ([(stream, false)] ++ call_readings (chain_at 0) (CallPublicSubscribe "other") (gates_tick 0 g1)).
  change [(stream, false)] with ([] ++ call_readings (chain_at 0) (CallCanRead stream member) (gates_tick 0 g0)).
  unfold g2, g1. apply run_call with 0%Z; [|lia|by eapply (user_calls member); [|right]].
  apply run_call with 0%Z; [constructor|lia|by eapply (user_calls member); [|left]].
Qed.

(** The member, let in since the last refusal, reads. *)
Lemma signed_read_guard_justified_witness :
  snd answer = Next ∧
  answer_justified chain_at 25000 stream
    (getGate 25000 (chain_at 25000) stream (gates_tick 25000 g2)).2
    (verify verifyMessage (M := ttl_map string bool) 25000 (read_signed_request js_parse_int request) ttl_empty).2
    false Next.
Proof.
  assert (snd answer = Next) as Hn by (vm_compute; reflexivity).
  split; [exact Hn|].
  refine (signed_read_guard_justified verifyMessage js_parse_int chain_at (kp_new None) 0 25000 g2
    _ (ttl_empty : ttl_map string bool) true request (fst answer) Next g2_run _ _ _); [lia|done|].
  rewrite <-Hn. apply surjective_pairing.
Defined.

Lemma canonicalQuery_order_irrelevant_witness :
  canonicalQuery [("b", QList [QText "1"; QText "2"]); ("a", QText "x")] = "a=x&b=1&b=2" ∧
  canonicalQuery [("b", QList [QText "1"; QText "2"]); ("a", QText "x")] =
    canonicalQuery [("a", QText "x"); ("b", QList [QText "1"; QText "2"])].
Proof.
  split; [vm_compute; reflexivity|].
  apply canonicalQuery_order_irrelevant; [|apply Permutation_swap].
  apply NoDup_cons. split; [set_solver|]. apply NoDup_singleton.
Defined.
End SignedReadsWitness.
