(* ===== verification/Ingest.v ===== *)
(** Validation at ingest (packages/node/src/plugins/storage/IngestValidator.ts), and who
    signed a message (getMessageSigner of packages/sdk/src/StreamrClient.ts).

    [validateMessage] of the SDK and the recovery of an EVM signature are answers given to
    the model; [validateStreamMessage] behind the former is the rule every subscriber
    applies. *)

From S2P Require Import Prelude.
From S2P Require Import Js.
From S2P Require Import TtlMap.
From S2P Require Import Identifiers.
From S2P Require Import Json.
From S2P Require Import KnownPublic.
From S2P Require Import PomboGates.

Set Default Proof Using "Type".

Definition CONVERSATION_STREAM_SUFFIX : string := "-1".
Definition DEFINITIVE_REJECTIONS : list string :=
  ["INVALID_SIGNATURE"; "MISSING_PERMISSION"; "INVALID_PARTITION"; "SIGNATURE_POLICY_VIOLATION"].

Inductive IngestVerdict := Store | Reject (reason : string).
#[export] Instance IngestVerdict_eq_dec : EqDecision IngestVerdict.
Proof. solve_decision. Defined.

(** [recovered] is what [recoverSignerUserId] gives, in hexadecimal. *)
Definition getMessageSigner (recovered : outcome js_error string) : outcome js_error string :=
  (let? raw := recovered in
   let? userId := to_user_id raw in
   to_ethereum_address userId)%eff.

(** What the SDK says of a message when it arrives *)
Record ingest_message := MkIngestMessage {
  im_streamId : string;
  im_validated : outcome js_error unit;
  im_recovered : outcome js_error string
}.

Section validator.
  Context {MB : Type} `{EB : !ExpiringMap string bool MB ttlOf}.
  Context {MG : Type} `{EG : !ExpiringMap string (option GateInfo) MG gate_ttl}.

Record validator := MkValidator { iv_gates : gates MB MG; iv_rejected : nat }.

Definition reject (reason : string) (v : validator) : validator * IngestVerdict :=
  (MkValidator (iv_gates v) (S (iv_rejected v)), Reject reason).

Definition enforceReadOnly (now : Z) (c : chain) (msg : ingest_message) (v : validator)
    : validator * IngestVerdict :=
  let streamId := im_streamId msg in
  if negb (ends_with CONVERSATION_STREAM_SUFFIX streamId) then (v, Store)
  else
    match getGate now c streamId (iv_gates v) with
    | (g, Throw _) => (MkValidator g (iv_rejected v), Store)
    | (g, Return gate) =>
        let v := MkValidator g (iv_rejected v) in
        match gate with
        | None => (v, Store)
        | Some info =>
            if negb (gi_readOnly info) || negb (gi_visible info) then (v, Store)
            else
              match getMessageSigner (im_recovered msg) with
              | Throw _ => reject "UNRECOVERABLE_SIGNER" v
              | Return signer =>
                  if bool_decide (signer = gi_owner info) then (v, Store)
                  else
                    match isModerator now c (gi_address info) signer g with
                    | (g, Throw _) => (MkValidator g (iv_rejected v), Store)
                    | (g, Return true) => (MkValidator g (iv_rejected v), Store)
                    | (g, Return false) => reject "READ_ONLY" (MkValidator g (iv_rejected v))
                    end
              end
        end
    end.

Definition validate (now : Z) (c : chain) (msg : ingest_message) (v : validator)
    : validator * IngestVerdict :=
  match im_validated msg with
  | Throw err =>
      match err_code err with
      | Some code => if bool_decide (code ∈ DEFINITIVE_REJECTIONS) then reject code v else (v, Store)
      | None => (v, Store)
      end
  | Return _ => enforceReadOnly now c msg v
  end.
End validator.
Arguments validator : clear implicits.

(** * Facts *)

Lemma getMessageSigner_ok r u : getMessageSigner r = Return u → user_ok u.
Proof.
  unfold getMessageSigner. destruct r as [raw|]; [|done]. simpl. destruct (to_user_id raw) as [x|]; [|done]. simpl.
  apply to_ethereum_address_length.
Qed.

Section facts.
  Context {MB : Type} `{EB : !ExpiringMap string bool MB ttlOf}.
  Context {MG : Type} `{EG : !ExpiringMap string (option GateInfo) MG gate_ttl}.
  Context (chain_at : Z → chain).

(** The conversation of a read-only channel where messages are signed by their authors *)
Definition read_only_channel (now : Z) (streamId : string) (info : GateInfo) : Prop :=
  ends_with CONVERSATION_STREAM_SUFFIX streamId = true ∧ gi_readOnly info = true ∧ gi_visible info = true ∧
  recently chain_at now CACHE_TTL (λ c, resolve_gate c streamId = Return (Some info)).

(** A definite reason not to store: the protocol's, or the read-only rule's *)
Inductive must_reject (now : Z) (msg : ingest_message) : string → Prop :=
  | reject_protocol err code :
      im_validated msg = Throw err → err_code err = Some code → code ∈ DEFINITIVE_REJECTIONS →
      must_reject now msg code
  | reject_unrecoverable info err :
      im_validated msg = Return tt → read_only_channel now (im_streamId msg) info →
      getMessageSigner (im_recovered msg) = Throw err → must_reject now msg "UNRECOVERABLE_SIGNER"
  | reject_read_only info signer :
      im_validated msg = Return tt → read_only_channel now (im_streamId msg) info →
      getMessageSigner (im_recovered msg) = Return signer → signer ≠ gi_owner info →
      recently chain_at now DENIAL_TTL (λ c, ch_isModerator c (gi_address info) signer = Return false) →
      must_reject now msg "READ_ONLY".

(** A reason to store: nothing definite against the message, or the owner's or a
    moderator's message, or a chain that fails now *)
Inductive may_store (now : Z) (msg : ingest_message) : Prop :=
  | store_unverified err :
      im_validated msg = Throw err → (∀ code, err_code err = Some code → code ∉ DEFINITIVE_REJECTIONS) →
      may_store now msg
  | store_other_stream :
      im_validated msg = Return tt → ends_with CONVERSATION_STREAM_SUFFIX (im_streamId msg) = false →
      may_store now msg
  | store_gate_unreadable err :
      im_validated msg = Return tt → resolve_gate (chain_at now) (im_streamId msg) = Throw err → may_store now msg
  | store_writable gate :
      im_validated msg = Return tt →
      recently chain_at now (gate_ttl gate) (λ c, resolve_gate c (im_streamId msg) = Return gate) →
      (∀ info, gate = Some info → gi_readOnly info = false ∨ gi_visible info = false) → may_store now msg
  | store_privileged info signer :
      im_validated msg = Return tt → read_only_channel now (im_streamId msg) info →
      getMessageSigner (im_recovered msg) = Return signer →
      signer = gi_owner info ∨
      recently chain_at now CACHE_TTL (λ c, ch_isModerator c (gi_address info) signer = Return true) ∨
      is_return (ch_isModerator (chain_at now) (gi_address info) signer) = false → may_store now msg.

(** The verdict of a validator whose caches are sound, and that they stay so *)
Lemma validate_ok known now g n msg v' verdict :
  gates_ok chain_at known now g →
  validate now (chain_at now) msg (MkValidator g n) = (v', verdict) →
  gates_ok chain_at known now (iv_gates v') ∧
  match verdict with
  | Store => may_store now msg ∧ iv_rejected v' = n
  | Reject reason => must_reject now msg reason ∧ iv_rejected v' = S n
  end.
Proof.
  intros Hok. unfold validate. destruct (im_validated msg) as [[]|err] eqn:Hv.
  2: { destruct (err_code err) as [code|] eqn:Hc; [case_bool_decide|]; intros [= <- <-]; split_and!; try done.
       - by eapply reject_protocol.
       - eapply store_unverified; [done|]. intros ? [= <-]%(eq_trans (eq_sym Hc)). done.
       - eapply store_unverified; [done|]. congruence. }
  unfold enforceReadOnly. destruct (ends_with _ _) eqn:Hsuf; simpl.
  2: { intros [= <- <-]. split_and!; [done|by apply store_other_stream|done]. }
  destruct (getGate _ _ _ _) as [g1 r] eqn:Hg.
  destruct (getGate_ok _ _ _ _ _ _ _ Hok Hg) as [Hok1 Hret]. destruct r as [gate|e].
  2: { apply getGate_throw in Hg. intros [= <- <-]. split_and!; [done|by eapply store_gate_unreadable|done]. }
  destruct (Hret _ eq_refl) as [_ Hrec]. destruct gate as [info|].
  2: { intros [= <- <-]. split_and!; [done|by eapply store_writable|done]. }
  destruct (negb (gi_readOnly info) || negb (gi_visible info)) eqn:Hro.
  { intros [= <- <-]. split_and!; [done| |done]. eapply store_writable; [done..|]. intros ? [= <-].
    destruct (gi_readOnly info), (gi_visible info); auto. }
  assert (read_only_channel now (im_streamId msg) info) as Hch.
  { destruct (gi_readOnly info) eqn:?, (gi_visible info) eqn:?; done. }
  destruct (getMessageSigner _) as [signer|e] eqn:Hs.
  2: { intros [= <- <-]. split_and!; [done|by eapply reject_unrecoverable|done]. }
  case_bool_decide as Ho.
  { intros [= <- <-]. split_and!; [done| |done]. eapply store_privileged; eauto. }
  destruct (isModerator _ _ _ _ g1) as [g2 r] eqn:Hm.
  destruct (isModerator_ok _ _ _ _ _ _ _ _ (getMessageSigner_ok _ _ Hs) Hok1 Hm) as [Hok2 Hb].
  destruct r as [[]|e]; [specialize (Hb _ eq_refl)..|].
  - intros [= <- <-]. split_and!; [done| |done]. eapply store_privileged; eauto.
  - intros [= <- <-]. split_and!; [done| |done]. by eapply reject_read_only.
  - apply isModerator_throw in Hm. intros [= <- <-]. split_and!; [done| |done].
    eapply store_privileged; [done..|]. right. right. by rewrite Hm.
Qed.

(** Ingest fails open, and only open.  A message is dropped exactly for a definite reason (a
    protocol violation of its publisher; on a read-only conversation, a signer the chain
    says is neither owner nor moderator), and stored for one of the stated reasons; each
    rejection is counted once and nothing else is. *)
Theorem ingest_verdict_justified known t now g n msg v' verdict :
  gates_reach chain_at known t g → (t ≤ now)%Z →
  validate now (chain_at now) msg (MkValidator (gates_tick now g) n) = (v', verdict) →
  match verdict with
  | Store => may_store now msg ∧ iv_rejected v' = n
  | Reject reason => must_reject now msg reason ∧ iv_rejected v' = S n
  end.
Proof.
  intros Hr%gates_reach_inv Hle. by apply (validate_ok known), (gates_tick_ok _ _ t).
Qed.
End facts.

(** * A concrete message *)

Module IngestWitness.
Import GatesWitness.
(** The channel of the gate, made read-only *)
Definition closed_contract : gate_contract :=
  MkGateContract (Return owner) (Return true) (Return 0%Z) (λ u, Return false) (λ u, Return true).
Definition closed_chain (t : Z) : chain :=
  MkChain (λ s, Return (Some gated)) (λ _, closed_contract) (λ _, Return false) (λ _ _, Return false)
    (λ _ _, Return false).
Definition message_by (user : string) : ingest_message := MkIngestMessage stream (Return tt) (Return user).
Definition v0 : validator (ttl_map string bool) (ttl_map string (option GateInfo)) :=
  MkValidator (gates_tick 5 (gates_new (kp_new None))) 0.

Lemma ingest_verdict_justified_witness :
  snd (validate 5 (closed_chain 5) (message_by owner) v0) = Store ∧
  must_reject closed_chain 5 (message_by member) "READ_ONLY".
Proof.
  split; [vm_compute; reflexivity|].
  pose (r := validate 5 (closed_chain 5) (message_by member) v0).
  assert (snd r = Reject "READ_ONLY") as Hr by (vm_compute; reflexivity).
  refine (proj1 (ingest_verdict_justified closed_chain (kp_new None) 5 5 (gates_new (kp_new None)) 0
    (message_by member) (fst r) (Reject "READ_ONLY") (reach_new _ _ _) _ _)); [lia|].
  rewrite <-Hr. apply surjective_pairing.
Defined.
End IngestWitness.
