(* ===== verification/Purge.v ===== *)
(** The endpoints that act on single messages: purge
    (packages/node/src/plugins/storage/purgeEndpoint.ts) and the stored check
    (storedEndpoint.ts).

    [rowSigner payload] is what converting a stored payload to a message and recovering
    its signature gives; both happen in one [try]. *)

From S2P Require Import Prelude.
From S2P Require Import Js.
From S2P Require Import TtlMap.
From S2P Require Import Identifiers.
From S2P Require Import Cassandra.
From S2P Require Import Bucket.
From S2P Require Import Storage.
From S2P Require Import Json.
From S2P Require Import KnownPublic.
From S2P Require Import SignedRequest.
From S2P Require Import PomboGates.
From S2P Require Import SignedReads.
From S2P Require Import Ingest.

Set Default Proof Using "Type".

Definition MAX_TARGETS : nat := 100.

Record PurgeTarget := MkPurgeTarget { pt_timestamp : Z; pt_sequenceNumber : Z }.
#[export] Instance PurgeTarget_eq_dec : EqDecision PurgeTarget.
Proof. solve_decision. Defined.

Inductive PurgeResult := Deleted | Forbidden | NotFound.
Inductive StoredResult := Present | Absent.

(** An element of [targets] in the body of the request: each field when it is a number *)
Record raw_target := MkRawTarget { tg_timestamp : option jsnum; tg_sequenceNumber : option jsnum }.

Definition isTarget (value : raw_target) : option PurgeTarget :=
  match tg_timestamp value, tg_sequenceNumber value with
  | Some (JFin t), Some (JFin s) => if (0 <=? s)%Z then Some (MkPurgeTarget t s) else None
  | _, _ => None
  end.

Definition targetToLine (target : PurgeTarget) : string :=
  js_num_to_string (JFin (pt_timestamp target)) +:+ ":" +:+
  js_num_to_string (JFin (pt_sequenceNumber target)).

Record targets_request := MkTargetsRequest {
  tq_id : string;
  tq_partition : string;
  tq_targets : option (list raw_target);      (** [None]: not an array *)
  tq_envelope : option raw_envelope
}.

(** The check of the body, shared by both endpoints *)
Definition parse_targets (req : targets_request) : option (list PurgeTarget) :=
  match tq_targets req with
  | None => None
  | Some targets =>
      if (length targets =? 0)%nat || (MAX_TARGETS <? length targets)%nat then None
      else mapM isTarget targets
  end.

(** What an endpoint answers: an error, its results, or a rejected promise *)
Inductive targets_response (R : Type) :=
  | Refused (status : Z) (error : string)
  | Results (results : list (PurgeTarget * R))
  | Rejected (err : js_error).
Arguments Refused {R} _ _.
Arguments Results {R} _.
Arguments Rejected {R} _.

Section endpoints.
  Context (verifyMessage : string → string → outcome js_error string).
  Context (rowSigner : option string → outcome js_error string).
  Context {M : Type} `{EM : !ExpiringMap string bool M nonce_ttl}.
  Context {MB : Type} `{EB : !ExpiringMap string bool MB ttlOf}.
  Context {MG : Type} `{EG : !ExpiringMap string (option GateInfo) MG gate_ttl}.
  Context {Hp : Type} `{BH : !BucketHeap Hp}.
  Context {DB : Type} `{CC : !CassandraClient DB}.
  Notation acc := (access M MB MG).
  Notation sto := (@storage Hp).

(** * Purge *)

(** [PurgeAuthorizer.createContext]: [(admin, authorRuleApplies)] *)
Definition createContext (now : Z) (c : chain) (streamId signer : string) (g : gates MB MG)
    : gates MB MG * (bool * bool) :=
  let admin := match ch_userDelete c streamId signer with Return b => b | Throw _ => false end in
  match getGate now c streamId g with
  | (g, Throw _) => (g, (admin, false))
  | (g, Return None) => (g, (admin, true))
  | (g, Return (Some gate)) =>
      let authorRuleApplies := gi_visible gate in
      if admin then (g, (admin, authorRuleApplies))
      else if bool_decide (signer = gi_owner gate) then (g, (true, authorRuleApplies))
      else match isModerator now c (gi_address gate) signer g with
           | (g, Return b) => (g, (b, authorRuleApplies))
           | (g, Throw _) => (g, (admin, false))
           end
  end.

Definition row_signed_by (signer : string) (row : StoredRow) : bool :=
  match getMessageSigner (rowSigner (sr_payload row)) with
  | Return s => bool_decide (s = signer)
  | Throw _ => false
  end.
Definition isAuthor (rows : list StoredRow) (signer : string) : bool :=
  forallb (row_signed_by signer) rows.

Fixpoint delete_rows (streamId : string) (partition : Z) (rows : list StoredRow) : eff DB js_error unit :=
  match rows with
  | [] => eff_ret tt
  | row :: rows => (deleteMessage streamId partition row ;; delete_rows streamId partition rows)%eff
  end.

Definition purge_target (now : Z) (st : sto) (streamId : string) (partition : Z) (context : bool * bool)
    (signer : string) (target : PurgeTarget) : eff DB js_error PurgeResult :=
  (let! db := eff_get in
   let! rows := eff_await (getMessages now db st streamId partition (pt_timestamp target)
                             (pt_sequenceNumber target)) in
   match rows with
   | [] => eff_ret NotFound
   | _ => if context.1 || (context.2 && isAuthor rows signer)
          then delete_rows streamId partition rows ;; eff_ret Deleted
          else eff_ret Forbidden
   end)%eff.

Fixpoint purge_targets (now : Z) (st : sto) (streamId : string) (partition : Z) (context : bool * bool)
    (signer : string) (targets : list PurgeTarget) : eff DB js_error (list (PurgeTarget * PurgeResult)) :=
  match targets with
  | [] => eff_ret []
  | target :: targets =>
      (let! result := purge_target now st streamId partition context signer target in
       let! results := purge_targets now st streamId partition context signer targets in
       eff_ret ((target, result) :: results))%eff
  end.

(** The checks before the work: the partition, the body and the signature *)
Definition check_request {R} (purpose : string) (now : Z) (req : targets_request) (m : M)
    : M * (targets_response R + (Z * list PurgeTarget * string)) :=
  match js_parse_int (tq_partition req) with
  | JFin partition =>
      match parse_targets req with
      | None => (m, inl (Refused 400 "Body must carry 1-100 targets of {timestamp, sequenceNumber}"))
      | Some targets =>
          match verify verifyMessage now
                  (SignedRequest (tq_envelope req) purpose (tq_id req) (JFin partition)
                     (targetToLine <$> targets)) m with
          | (m, Throw (SignedRequestError message)) => (m, inl (Refused 401 message))
          | (m, Return signer) => (m, inr (partition, targets, signer))
          end
      end
  | _ => (m, inl (Refused 400 "Path parameter partition not a number"))
  end.

Definition purge_handler (now : Z) (c : chain) (st : sto) (req : targets_request) (s : acc * DB)
    : acc * DB * targets_response PurgeResult :=
  let '(a, db) := s in
  match check_request "purge" now req (ac_nonces a) with
  | (m, inl response) => (MkAccess m (ac_gates a), db, response)
  | (m, inr (partition, targets, signer)) =>
      let '(g, context) := createContext now c (tq_id req) signer (ac_gates a) in
      let '(db, r) := purge_targets now st (tq_id req) partition context signer targets db in
      (MkAccess m g, db, match r with Return results => Results results | Throw err => Rejected err end)
  end.

(** * The stored check *)

Definition signedBy (rows : list StoredRow) (signer : string) : bool :=
  negb (length rows =? 0)%nat && forallb (row_signed_by signer) rows.

Definition stored_target (now : Z) (db : DB) (st : sto) (streamId : string) (partition : Z)
    (mayRead : bool) (signer : string) (keys : list StoredRowKey) (target : PurgeTarget)
    : outcome js_error StoredResult :=
  let publishers := (λ k, to_lower (rk_publisherId k)) <$>
    filter (λ k, rk_timestamp k = pt_timestamp target ∧ rk_sequenceNo k = pt_sequenceNumber target) keys in
  match publishers with
  | [] => Return Absent
  | _ => if mayRead || forallb (λ p, bool_decide (p = to_lower signer)) publishers then Return Present
         else (let? rows := getMessages now db st streamId partition (pt_timestamp target)
                              (pt_sequenceNumber target) in
               Return (if signedBy rows signer then Present else Absent))%eff
  end.

Fixpoint stored_targets (now : Z) (db : DB) (st : sto) (streamId : string) (partition : Z)
    (mayRead : bool) (signer : string) (keys : list StoredRowKey) (targets : list PurgeTarget)
    : outcome js_error (list (PurgeTarget * StoredResult)) :=
  match targets with
  | [] => Return []
  | target :: targets =>
      (let? result := stored_target now db st streamId partition mayRead signer keys target in
       let? results := stored_targets now db st streamId partition mayRead signer keys targets in
       Return ((target, result) :: results))%eff
  end.

Definition stored_handler (now : Z) (c : chain) (db : DB) (st : sto) (req : targets_request) (a : acc)
    : acc * targets_response StoredResult :=
  match check_request "stored" now req (ac_nonces a) with
  | (m, inl response) => (MkAccess m (ac_gates a), response)
  | (m, inr (partition, targets, signer)) =>
      let streamId := tq_id req in
      let '(g, r) := canRead now c streamId signer (ac_gates a) in
      match (match r with
             | Return b => Some b
             | Throw _ => if wasLastSeenPublic streamId g then Some true else None
             end) with
      | None => (MkAccess m g, Refused 503 "Cannot verify access right now")
      | Some mayRead =>
          (MkAccess m g,
           match (let? keys := getRowKeys now db st streamId partition (pt_timestamp <$> targets) in
                  stored_targets now db st streamId partition mayRead signer keys targets)%eff with
           | Return results => Results results
           | Throw err => Rejected err
           end)
      end
  end.
End endpoints.

(** * Facts *)

Section deletions.
  Context {DB : Type} `{CC : !CassandraClient DB}.
  Implicit Types (db : DB).

(** ** What is deleted *)

(** [row] is the stored form of [r], in the part. *)
Definition is_row (s : string) (p : Z) (row : StoredRow) (r : data_row) : Prop :=
  dr_stream r = s ∧ dr_partition r = p ∧ dr_bucket r = sr_bucketId row ∧ dr_ts r = sr_timestamp row ∧
  dr_seq r = sr_sequenceNo row ∧ dr_publisher r = sr_publisherId row ∧ dr_chain r = sr_msgChainId row.

(** From [db] to [db'] only rows that satisfy [P] go. *)
Definition only_deletes (P : data_row → Prop) db db' : Prop :=
  db_buckets db' = db_buckets db ∧
  (∀ r, r ∈ db_data db' → r ∈ db_data db) ∧
  (∀ r, r ∈ db_data db → r ∉ db_data db' → P r).

Lemma only_deletes_refl P db : only_deletes P db db.
Proof. split_and!; [done|done|]. intros r ? []. done. Qed.

Lemma only_deletes_trans P db1 db2 db3 :
  only_deletes P db1 db2 → only_deletes P db2 db3 → only_deletes P db1 db3.
Proof.
  intros (Hb1 & Hs1 & Hp1) (Hb2 & Hs2 & Hp2). split_and!; [congruence|auto|]. intros r H1 H3.
  destruct (decide (r ∈ db_data db2)); auto.
Qed.

Lemma only_deletes_weaken (P Q : data_row → Prop) db db' :
  (∀ r, r ∈ db_data db → P r → Q r) → only_deletes P db db' → only_deletes Q db db'.
Proof. intros HPQ (Hb & Hs & HP). split_and!; eauto. Qed.

Lemma deleteMessage_ok s p row db db' o :
  deleteMessage s p row db = (db', o) →
  only_deletes (is_row s p row) db db' ∧
  (o = Return tt → ∀ r, is_row s p row r → r ∉ db_data db').
Proof.
  set (w := DataWhere s p [sr_bucketId row] [CEq (sr_timestamp row)] [CEq (sr_sequenceNo row)]
    (Some (sr_publisherId row)) (Some (sr_msgChainId row))).
  assert (∀ r, data_matches w r = true ↔ is_row s p row r) as Hw.
  { intros r. rewrite data_matches_spec. simpl. rewrite !Forall_singleton, list_elem_of_singleton. simpl.
    rewrite !Z.eqb_eq. unfold is_row. naive_solver. }
  intros Hex%execute_batch_ok. destruct Hex as [[Hb Hd]|(Hr & Hb & Hd)].
  2: { split; [|intros ->; done]. split_and!; [done|by intros r; rewrite Hd|].
       intros r H1 H2. rewrite Hd in H2. done. }
  assert (∀ r, r ∈ db_data db' ↔ r ∈ db_data db ∧ ¬ is_row s p row r) as Hin.
  { intros r. rewrite Hd. cbn [apply_all_data foldl apply_data]. rewrite elem_of_filter.
    rewrite <-Hw, not_true_iff_false. tauto. }
  split; [split_and!; [done|intros r; rewrite Hin; tauto|]|intros _ r; rewrite Hin; tauto].
  intros r H1. rewrite Hin, <-Hw. destruct (data_matches w r); [done|]. intros []. auto.
Qed.

Lemma delete_rows_ok s p rows db db' o :
  delete_rows s p rows db = (db', o) →
  only_deletes (λ r, ∃ row, row ∈ rows ∧ is_row s p row r) db db' ∧
  (o = Return tt → ∀ row r, row ∈ rows → is_row s p row r → r ∉ db_data db').
Proof.
  revert db. induction rows as [|row rows IH]; intros db; simpl.
  { intros [= <- <-]. split; [apply only_deletes_refl|]. intros _ row r []%not_elem_of_nil. }
  unfold eff_bind. destruct (deleteMessage s p row db) as [db1 [[]|e]] eqn:Hd;
    apply deleteMessage_ok in Hd as [Hd1 Hd2].
  - intros Hrest. destruct (IH _ Hrest) as [Hr1 Hr2]. split.
    + eapply only_deletes_trans; eapply only_deletes_weaken; [|exact Hd1| |exact Hr1]; simpl.
      * intros r _ ?. exists row. split; [by left|done].
      * intros r _ (row' & ? & ?). exists row'. split; [by right|done].
    + intros -> row' r [->|Hin]%elem_of_cons Hrow; [|by eapply Hr2].
      intros Hr. apply (Hd2 eq_refl r Hrow). by apply Hr1.
  - intros [= <- <-]. split; [|done]. eapply only_deletes_weaken; [|exact Hd1].
    intros r _ ?. exists row. split; [by left|done].
Qed.
End deletions.

Section facts.
  Context (verifyMessage : string → string → outcome js_error string).
  Context (rowSigner : option string → outcome js_error string).
  Context {M : Type} `{EM : !ExpiringMap string bool M nonce_ttl}.
  Context {MB : Type} `{EB : !ExpiringMap string bool MB ttlOf}.
  Context {MG : Type} `{EG : !ExpiringMap string (option GateInfo) MG gate_ttl}.
  Context {Hp : Type} `{BH : !BucketHeap Hp}.
  Context {DB : Type} `{CC : !CassandraClient DB}.
  Context (chain_at : Z → chain).
  Implicit Types (db : DB) (st : @storage Hp).

(** ** Who may delete *)

Definition privileged (now : Z) (s u : string) : Prop :=
  ch_userDelete (chain_at now) s u = Return true ∨
  ∃ info, recently chain_at now CACHE_TTL (λ c, resolve_gate c s = Return (Some info)) ∧
    (u = gi_owner info ∨
     recently chain_at now CACHE_TTL (λ c, ch_isModerator c (gi_address info) u = Return true)).

(** The channel is not Sealed: messages are signed by their authors. *)
Definition author_rule (now : Z) (s : string) : Prop :=
  recently chain_at now DENIAL_TTL (λ c, resolve_gate c s = Return None) ∨
  ∃ info, recently chain_at now CACHE_TTL (λ c, resolve_gate c s = Return (Some info)) ∧
    gi_visible info = true.

Lemma createContext_ok known now s u (g g' : gates MB MG) admin rule :
  user_ok u → gates_ok chain_at known now g →
  createContext now (chain_at now) s u g = (g', (admin, rule)) →
  (admin = true → privileged now s u) ∧ (rule = true → author_rule now s).
Proof.
  intros Hu Hok. unfold createContext.
  set (adm := match ch_userDelete _ _ _ with Return b => b | Throw _ => false end).
  assert (adm = true → privileged now s u) as Hadm.
  { subst adm. intros H. left. destruct (ch_userDelete _ _ _); [by subst|done]. }
  destruct (getGate _ _ s g) as [g1 [[info|]|e]] eqn:Hg.
  - destruct (getGate_ok _ _ _ _ _ _ _ Hok Hg) as [Hok1 Hret]. destruct (Hret _ eq_refl) as [_ Hrec].
    assert (gi_visible info = true → author_rule now s) as Hrule by (intros ?; right; eauto).
    destruct adm; [intros [= <- <- <-]; auto|]. case_bool_decide as Ho.
    { intros [= <- <- <-]. split; [intros _; right; eauto|done]. }
    destruct (isModerator _ _ _ _ g1) as [g2 [b|e]] eqn:Hm; intros [= <- <- <-]; [|done].
    destruct (isModerator_ok _ _ _ _ _ _ _ _ Hu Hok1 Hm) as [_ Hb]. specialize (Hb _ eq_refl).
    split; [|done]. intros ->. right. eauto.
  - destruct (getGate_ok _ _ _ _ _ _ _ Hok Hg) as [Hok1 Hret]. destruct (Hret _ eq_refl) as [_ Hrec].
    intros [= <- <- <-]. split; [done|]. intros _. by left.
  - intros [= <- <- <-]. done.
Qed.

(** The rows a purge of [targets] may remove *)
Definition purgeable (s : string) (p : Z) (context : bool * bool) (signer : string)
    (targets : list PurgeTarget) (r : data_row) : Prop :=
  dr_stream r = s ∧ dr_partition r = p ∧ MkPurgeTarget (dr_ts r) (dr_seq r) ∈ targets ∧
  (context.1 = true ∨
   context.2 = true ∧ getMessageSigner (rowSigner (dr_payload r)) = Return signer).

Definition data_unique db : Prop :=
  ∀ r1 r2, r1 ∈ db_data db → r2 ∈ db_data db → data_key r1 = data_key r2 → r1 = r2.

Lemma isAuthor_row rows signer row :
  isAuthor rowSigner rows signer = true → row ∈ rows →
  getMessageSigner (rowSigner (sr_payload row)) = Return signer.
Proof.
  unfold isAuthor. rewrite forallb_forall. intros Hall Hin. specialize (Hall row (proj1 (list_elem_of_In _ _) Hin)).
  revert Hall. unfold row_signed_by. destruct (getMessageSigner _); [|done].
  by case_bool_decide; subst.
Qed.

(** Something of the target went. *)
Definition target_gone (s : string) (p : Z) (target : PurgeTarget) db db' : Prop :=
  ∃ r, r ∈ db_data db ∧ r ∉ db_data db' ∧ dr_stream r = s ∧ dr_partition r = p ∧
    MkPurgeTarget (dr_ts r) (dr_seq r) = target.

Lemma purge_target_ok now st s p context signer target db db' o :
  data_unique db → purge_target rowSigner now st s p context signer target db = (db', o) →
  only_deletes (purgeable s p context signer [target]) db db' ∧
  (o = Return Deleted → target_gone s p target db db').
Proof.
  intros Huniq. unfold purge_target, eff_bind, eff_get, eff_await, eff_ret.
  destruct (getMessages _ _ _ _ _ _ _) as [rows|e] eqn:Hget.
  2: { intros [= <- <-]. split; [apply only_deletes_refl|done]. }
  apply getMessages_spec in Hget as (bs & _ & Hrows).
  destruct rows as [|row0 rows0]; [intros [= <- <-]; split; [apply only_deletes_refl|done]|].
  set (rows := row0 :: rows0) in *.
  destruct (context.1 || (context.2 && isAuthor rowSigner rows signer)) eqn:Hctx.
  2: { intros [= <- <-]. split; [apply only_deletes_refl|done]. }
  assert (∀ row r, row ∈ rows → is_row s p row r → r ∈ db_data db → row = to_stored_row r ∧
    purgeable s p context signer [target] r) as Hpurge.
  { intros row r Hrow (Hs & Hpt & Hbk & Hts & Hsq & Hpub & Hch) Hr.
    pose proof Hrow as (r' & -> & Hr' & Hs' & Hp' & _ & Ht' & Hq')%Hrows. simpl in *.
    assert (r = r') as -> by (apply Huniq; [done..|]; unfold data_key; congruence).
    split; [done|]. split_and!; [done..| |].
    - rewrite list_elem_of_singleton. destruct target; simpl in *. congruence.
    - destruct (context.1); [by left|]. right. cbn [orb] in Hctx. apply andb_prop in Hctx as [? Ha].
      split; [done|]. apply (isAuthor_row rows _ _ Ha Hrow). }
  destruct (delete_rows s p rows db) as [db1 [[]|e]] eqn:Hdel; apply delete_rows_ok in Hdel as [Hd1 Hd2];
    intros [= <- <-].
  - split.
    + eapply only_deletes_weaken; [|exact Hd1]. intros r Hr (row & Hrow & Hir). by eapply Hpurge.
    + intros _. assert (row0 ∈ rows) as H0 by (by left).
      pose proof H0 as (r & Heq & Hr & Hs & Hpt & _ & Hts & Hsq)%Hrows.
      exists r. split_and!; [done| |done|done|destruct target; simpl in *; congruence].
      eapply (Hd2 eq_refl _ _ H0). rewrite Heq. done.
  - split; [|done]. eapply only_deletes_weaken; [|exact Hd1]. intros r Hr (row & Hrow & Hir). by eapply Hpurge.
Qed.

Lemma data_unique_mono P db db' : only_deletes P db db' → data_unique db → data_unique db'.
Proof. intros (_ & Hs & _) Hu r1 r2 H1 H2. apply Hu; auto. Qed.

Lemma purge_targets_ok now st s p context signer targets db db' o :
  data_unique db → purge_targets rowSigner now st s p context signer targets db = (db', o) →
  only_deletes (purgeable s p context signer targets) db db' ∧
  (∀ results, o = Return results → results.*1 = targets ∧
     ∀ target, (target, Deleted) ∈ results → target_gone s p target db db').
Proof.
  revert db db' o. induction targets as [|target targets IH]; intros db db' o Huniq; simpl.
  { intros [= <- <-]. split; [apply only_deletes_refl|]. intros results [= <-]. split; [done|].
    intros target []%not_elem_of_nil. }
  unfold eff_bind, eff_ret. destruct (purge_target _ _ _ _ _ _ _ _ db) as [db1 [result|e]] eqn:Ht;
    apply purge_target_ok in Ht as [Ht1 Ht2]; [|done| |done].
  - destruct (purge_targets _ _ _ _ _ _ _ _ db1) as [db2 o2] eqn:Hrest.
    destruct (IH _ _ _ (data_unique_mono _ _ _ Ht1 Huniq) Hrest) as [Hr1 Hr2].
    assert (only_deletes (purgeable s p context signer (target :: targets)) db db2) as Hall.
    { eapply only_deletes_trans; eapply only_deletes_weaken; [|exact Ht1| |exact Hr1];
        intros r _ (? & ? & Hin & ?); (split_and!; [done..| |done]);
        [apply list_elem_of_singleton in Hin as ->; by left|by right]. }
    destruct o2 as [results|e]; intros [= <- <-]; (split; [done|]); [|done].
    intros results' [= <-]. destruct (Hr2 _ eq_refl) as [Hfst Hgone]. split; [rewrite <-Hfst; done|].
    intros tg [[= -> <-]|Hin]%elem_of_cons.
    + destruct (Ht2 eq_refl) as (r & H1 & H2 & H3). exists r. split; [done|]. split; [|done].
      intros Hr. apply H2. by apply Hr1.
    + destruct (Hgone _ Hin) as (r & H1 & H2 & H3). exists r. split; [by apply Ht1|done].
  - intros [= <- <-]. split; [|done]. eapply only_deletes_weaken; [|exact Ht1].
    intros r _ (? & ? & Hin & ?). split_and!; [done..| |done]. apply list_elem_of_singleton in Hin as ->. by left.
Qed.

(** ** The endpoints *)

(** What [check_request] lets through: at most a hundred well-formed targets, signed *)
Lemma check_request_ok {R} purpose now req (m m' : M) partition targets signer :
  check_request (R := R) verifyMessage purpose now req m = (m', inr (partition, targets, signer)) →
  js_parse_int (tq_partition req) = JFin partition ∧ parse_targets req = Some targets ∧
  verify verifyMessage now (SignedRequest (tq_envelope req) purpose (tq_id req) (JFin partition)
    (targetToLine <$> targets)) m = (m', Return signer).
Proof.
  unfold check_request. destruct (js_parse_int _) as [p| | |]; [|done..].
  destruct (parse_targets req) as [ts|] eqn:Hts; [|done].
  destruct (verify _ _ _ _) as [m1 [u|[]]] eqn:Hv; [|done]. by intros [= <- <- <- <-].
Qed.

Lemma parse_targets_length req targets :
  parse_targets req = Some targets → 1 ≤ length targets ≤ MAX_TARGETS.
Proof.
  unfold parse_targets. destruct (tq_targets req) as [raw|]; [|done].
  destruct (length raw =? 0)%nat eqn:H0; [done|]. destruct (MAX_TARGETS <? length raw)%nat eqn:H1; [done|].
  simpl. intros Hm%length_mapM. apply Nat.eqb_neq in H0. apply Nat.ltb_ge in H1. lia.
Qed.

(** What the body of the request names: between one and a hundred pairs of a timestamp and a
    sequence number *)
Definition names_targets (req : targets_request) (targets : list PurgeTarget) : Prop :=
  1 ≤ length targets ≤ 100 ∧ Forall (λ t, (0 ≤ pt_sequenceNumber t)%Z) targets ∧
  tq_targets req = Some ((λ t, MkRawTarget (Some (JFin (pt_timestamp t))) (Some (JFin (pt_sequenceNumber t)))) <$> targets).

Lemma parse_targets_names req targets : parse_targets req = Some targets ↔ names_targets req targets.
Proof.
  split.
  - intros H. pose proof (parse_targets_length _ _ H) as Hlen. split; [exact Hlen|]. revert H. unfold parse_targets.
    destruct (tq_targets req) as [raw|]; [|done]. destruct (_ || _); [done|]. intros Hm%mapM_Some. clear Hlen.
    induction Hm as [|v t raw targets Ht Hm IH]; [done|]. destruct IH as [Hall [= ->]].
    revert Ht. unfold isTarget. destruct v as [[[t0| | |]|] [[s0| | |]|]]; simpl; try done.
    destruct (Z.leb_spec 0 s0); [|done]. intros [= <-]. split; [by constructor|done].
  - intros (Hlen & Hall & Hraw). unfold parse_targets. rewrite Hraw, length_fmap.
    assert ((length targets =? 0)%nat = false) as -> by (apply Nat.eqb_neq; lia).
    assert ((MAX_TARGETS <? length targets)%nat = false) as -> by (apply Nat.ltb_ge; unfold MAX_TARGETS; lia).
    cbn [orb]. apply mapM_Some. clear Hlen Hraw. induction Hall as [|[t0 s0] targets Hs Hall IH]; [constructor|].
    constructor; [|exact IH]. unfold isTarget. simpl in *. by rewrite (proj2 (Z.leb_le 0 s0) Hs).
Qed.

(** [signer] signed for the purge of [targets] of the part [p]. *)
Definition signed_purge (now : Z) (m : M) (req : targets_request) (p : Z) (targets : list PurgeTarget)
    (signer : string) : Prop :=
  js_parse_int (tq_partition req) = JFin p ∧ names_targets req targets ∧
  (verify verifyMessage now (SignedRequest (tq_envelope req) "purge" (tq_id req) (JFin p)
     (targetToLine <$> targets)) m).2 = Return signer.

Lemma check_request_refused now req (m m' : M) (resp : targets_response PurgeResult) :
  check_request verifyMessage "purge" now req m = (m', inl resp) →
  ∃ status error, resp = Refused status error ∧ ∀ p targets signer, ¬ signed_purge now m req p targets signer.
Proof.
  unfold check_request, signed_purge. destruct (js_parse_int _) as [p| | |].
  2-4: by intros [= <- <-]; do 2 eexists; split; [reflexivity|]; intros ??? [??].
  destruct (parse_targets req) as [ts|] eqn:Hts.
  2: { intros [= <- <-]. do 2 eexists. split; [reflexivity|]. intros q targets signer (_ & Hn%parse_targets_names & _). congruence. }
  destruct (verify _ _ _ _) as [m1 [u|[text]]] eqn:Hv; [done|]. intros [= <- <-].
  do 2 eexists. split; [reflexivity|]. intros q targets signer ([= <-] & Hn%parse_targets_names & Hs).
  assert (targets = ts) as -> by congruence. by rewrite Hv in Hs.
Qed.

(** C8: a purge removes only what its signer may remove.  A refused request (its partition is
    not a number, its body does not name one to a hundred targets, or its signature does
    not verify: what is answered with an error status) leaves the database as it is.
    Otherwise the request has one verified signer, who signed for exactly the stream part
    and the targets that the request names; whatever the database does, nothing is added,
    and every row that is gone afterwards belongs to that stream part and to one of those
    targets, and the signer holds DELETE now, or owned or moderated the channel's gate by
    answers of the last ten minutes, or signed that very message on a channel that is not
    Sealed.  The results are those of the named targets, in their order, and a target
    answered as deleted lost a row. *)
Theorem purge_is_authorized known t now g m db st req a' db' response :
  gates_reach chain_at known t g → (t ≤ now)%Z → data_unique db →
  purge_handler verifyMessage rowSigner now (chain_at now) st req
    (MkAccess m (gates_tick now g), db) = (a', db', response) →
  (∃ status error, response = Refused status error ∧ db' = db ∧
     ∀ p targets signer, ¬ signed_purge now m req p targets signer) ∨
  ∃ p targets signer, signed_purge now m req p targets signer ∧
    (∀ status error, response ≠ Refused status error) ∧
    db_buckets db' = db_buckets db ∧ (∀ r, r ∈ db_data db' → r ∈ db_data db) ∧
    (∀ r, r ∈ db_data db → r ∉ db_data db' →
       dr_stream r = tq_id req ∧ dr_partition r = p ∧ MkPurgeTarget (dr_ts r) (dr_seq r) ∈ targets ∧
       (privileged now (tq_id req) signer ∨
        author_rule now (tq_id req) ∧ getMessageSigner (rowSigner (dr_payload r)) = Return signer)) ∧
    (∀ results, response = Results results → results.*1 = targets ∧
       ∀ target, (target, Deleted) ∈ results → target_gone (tq_id req) p target db db').
Proof.
  intros Hr%gates_reach_inv Hle Huniq. pose proof (gates_tick_ok _ _ _ _ _ Hle Hr) as Hok.
  unfold purge_handler. cbn [ac_nonces ac_gates].
  destruct (check_request _ _ _ _ _) as [m1 [resp|[[p targets] signer]]] eqn:Hc.
  { intros [= <- <- <-]. left. destruct (check_request_refused _ _ _ _ _ Hc) as (status & error & -> & Hno).
    by exists status, error. }
  apply check_request_ok in Hc as (Hpt & Hts & Hv).
  destruct (createContext _ _ _ _ _) as [g1 [admin rule]] eqn:Hctx.
  apply (createContext_ok known) in Hctx as [Hadm Hrule]; [|by eapply verify_user_ok|done].
  destruct (purge_targets _ _ _ _ _ _ _ _ db) as [db1 o] eqn:Hpu.
  destruct (purge_targets_ok _ _ _ _ _ _ _ _ _ _ Huniq Hpu) as [(Hb & Hs & Hd) Hres].
  intros [= <- <- <-]. right. exists p, targets, signer.
  split; [split; [done|]; split; [by apply parse_targets_names|by rewrite Hv]|].
  split; [by destruct o|]. split; [done|]. split; [done|]. split.
  - intros r Hin Hout. destruct (Hd r Hin Hout) as (Hst & Hpa & Htg & Hwhy). simpl in Hwhy.
    split; [done|]. split; [done|]. split; [done|]. naive_solver.
  - intros results Heq. destruct o as [results'|]; simplify_eq. by apply (Hres _ eq_refl).
Qed.

(** ** The stored check *)

Lemma canRead_throw known now s u (g g' : gates MB MG) e :
  user_ok u → gates_ok chain_at known now g → canRead now (chain_at now) s u g = (g', Throw e) →
  chain_fails (chain_at now) s ∨ ∃ rule, rule_picked chain_at now s rule ∧ access_fails chain_at now s u rule.
Proof.
  intros Hu Hok. unfold canRead, eff_bind. destruct (getGate _ _ s g) as [g1 [[info|]|e1]] eqn:Hg;
    destruct (getGate_ok _ _ _ _ _ _ _ Hok Hg) as [Hok1 Hret].
  - intros Ha. right. exists (Some info). split; [exact (proj2 (Hret _ eq_refl))|].
    by apply (accessCheck_throw chain_at known now s (Some info) u g1 g' e).
  - destruct (Hret _ eq_refl) as [Hget Hrec]. unfold eff_or, eff_bind, eff_ret.
    destruct (isPublicSubscribe now _ s g1) as [g2 [[]|e2]] eqn:Hpu; [done|..];
      destruct (isPublicSubscribe_ok _ _ _ _ _ _ _ Hok1 Hget Hrec Hpu) as [Hok2 Hret2].
    + intros Hs. right. exists None. split; [split; [done|by apply (Hret2 false)]|].
      by apply (accessCheck_throw chain_at known now s None u g2 g' e).
    + intros _. apply isPublicSubscribe_throw in Hpu. left. right. by rewrite Hpu.
  - intros _. apply getGate_throw in Hg. left. left. by rewrite Hg.
Qed.

Lemma getRowKeys_sound now db st s p timestamps keys k :
  getRowKeys now db st s p timestamps = Return keys → k ∈ keys →
  ∃ r, r ∈ db_data db ∧ dr_stream r = s ∧ dr_partition r = p ∧ k = to_row_key r.
Proof.
  unfold getRowKeys. destruct timestamps as [|t ts]; [by intros [= <-] []%not_elem_of_nil|].
  destruct (getBucketsByTimestamp _ _ _ _ _ _ _) as [bs|]; [|done]. simpl.
  destruct bs as [|b bs]; [by intros [= <-] []%not_elem_of_nil|].
  destruct (select_data db _ _ _) as [rows|] eqn:Hsel; [|done]. simpl. intros [= <-].
  rewrite list_elem_of_fmap. intros (r & -> & Hr).
  destruct (selects_elem _ _ _ _ _ _ (select_data_ok _ _ _ _ _ Hsel) Hr) as [Hin (Hs & Hpt & _)%data_matches_spec].
  by exists r.
Qed.

(** [signer] may know that [r] is stored. *)
Definition row_entitled (mayRead : bool) (signer : string) (r : data_row) : Prop :=
  mayRead = true ∨ to_lower (dr_publisher r) = to_lower signer ∨
  getMessageSigner (rowSigner (dr_payload r)) = Return signer.

Lemma stored_target_ok now db st s p mayRead signer timestamps keys target :
  getRowKeys now db st s p timestamps = Return keys →
  stored_target rowSigner now db st s p mayRead signer keys target = Return Present →
  ∃ r, r ∈ db_data db ∧ dr_stream r = s ∧ dr_partition r = p ∧
    MkPurgeTarget (dr_ts r) (dr_seq r) = target ∧ row_entitled mayRead signer r.
Proof.
  intros Hkeys. unfold stored_target.
  destruct (filter _ keys) as [|k ks] eqn:Hf; [done|]. cbn [fmap list_fmap].
  assert (k ∈ filter (λ k, rk_timestamp k = pt_timestamp target ∧ rk_sequenceNo k = pt_sequenceNumber target) keys)
    as [[Hkt Hks] Hk]%list_elem_of_filter by (rewrite Hf; by left).
  destruct (getRowKeys_sound _ _ _ _ _ _ _ _ Hkeys Hk) as (r & Hr & Hs & Hpt & ->). simpl in Hkt, Hks.
  assert (MkPurgeTarget (dr_ts r) (dr_seq r) = target) as Htg by (destruct target; simpl in *; congruence).
  destruct (mayRead || _) eqn:Hmay.
  - intros _. exists r. split_and!; try done. destruct mayRead; [by left|]. right. left.
    cbn [orb forallb] in Hmay. apply andb_prop in Hmay as [Hb _]. by apply bool_decide_eq_true in Hb.
  - destruct (getMessages _ _ _ _ _ _ _) as [rows|] eqn:Hget; [|done]. simpl.
    destruct (signedBy rowSigner rows signer) eqn:Hsig; [|done]. intros _.
    apply andb_prop in Hsig as [Hne Hall]. destruct rows as [|row rows]; [done|].
    apply getMessages_spec in Hget as (bs & _ & Hrows).
    destruct (proj1 (Hrows row) ltac:(by left)) as (r' & -> & Hr' & Hs' & Hp' & _ & Ht' & Hq').
    exists r'. split_and!; try done; [destruct target; simpl in *; congruence|]. right. right.
    apply (isAuthor_row (to_stored_row r' :: rows) signer (to_stored_row r')); [done|by left].
Qed.

Lemma stored_targets_ok now db st s p mayRead signer timestamps keys targets results :
  getRowKeys now db st s p timestamps = Return keys →
  stored_targets rowSigner now db st s p mayRead signer keys targets = Return results →
  results.*1 = targets ∧ ∀ target, (target, Present) ∈ results →
    ∃ r, r ∈ db_data db ∧ dr_stream r = s ∧ dr_partition r = p ∧
      MkPurgeTarget (dr_ts r) (dr_seq r) = target ∧ row_entitled mayRead signer r.
Proof.
  intros Hkeys. revert results. induction targets as [|target targets IH]; intros results; simpl.
  { intros [= <-]. split; [done|]. by intros ? []%not_elem_of_nil. }
  destruct (stored_target _ _ _ _ _ _ _ _ _ _) as [res|] eqn:Ht; [|done]. simpl.
  destruct (stored_targets _ _ _ _ _ _ _ _ _ _) as [rest|]; [|done]. simpl. intros [= <-].
  destruct (IH _ eq_refl) as [Hfst Hrest]. split; [rewrite <-Hfst; done|].
  intros tg [[= -> <-]|Hin]%elem_of_cons; [by eapply stored_target_ok|by apply Hrest].
Qed.

(** The stored check is no existence oracle.  It answers only signed requests, about the
    targets the signer signed for, and says a message is present only if the node holds a
    row of it that the signer may know of: the signer could read the stream by answers of the
    chain at most ten minutes old, or the stream was last seen public and the chain fails
    now, or the signer published the row or signed its message. *)
Theorem stored_check_is_no_oracle known t now g m db st req a' results :
  gates_reach chain_at known t g → (t ≤ now)%Z →
  stored_handler verifyMessage rowSigner now (chain_at now) db st req
    (MkAccess m (gates_tick now g)) = (a', Results results) →
  ∃ p signer, js_parse_int (tq_partition req) = JFin p ∧ 1 ≤ length results ≤ MAX_TARGETS ∧
    (verify verifyMessage now (SignedRequest (tq_envelope req) "stored" (tq_id req) (JFin p)
       (targetToLine <$> results.*1)) m).2 = Return signer ∧
    ∀ target, (target, Present) ∈ results →
      ∃ r, r ∈ db_data db ∧ dr_stream r = tq_id req ∧ dr_partition r = p ∧
        MkPurgeTarget (dr_ts r) (dr_seq r) = target ∧
        (grant_justified chain_at now (tq_id req) signer ∨
         ((chain_fails (chain_at now) (tq_id req) ∨
           ∃ rule, rule_picked chain_at now (tq_id req) rule ∧ access_fails chain_at now (tq_id req) signer rule) ∧
          ever_public chain_at known now (tq_id req)) ∨
         row_entitled false signer r).
Proof.
  intros Hr%gates_reach_inv Hle. pose proof (gates_tick_ok _ _ _ _ _ Hle Hr) as Hok.
  unfold stored_handler. cbn [ac_nonces ac_gates].
  destruct (check_request _ _ _ _ _) as [m1 [resp|[[p targets] signer]]] eqn:Hc.
  { intros [= <- ->]. exfalso. revert Hc. unfold check_request. repeat case_match; naive_solver. }
  apply check_request_ok in Hc as (Hpt & Hts & Hv).
  pose proof (verify_user_ok _ _ _ _ _ _ Hv) as Hu.
  destruct (canRead _ _ _ _ _) as [g1 o] eqn:Hcan.
  destruct (canRead_ok _ _ _ _ _ _ _ _ Hu Hok Hcan) as [Hok1 Hb].
  set (mr := match o with Return b => Some b | Throw _ => _ end).
  destruct mr as [mayRead|] eqn:Hmr; [|done]. intros [= <- Hres].
  destruct (getRowKeys _ _ _ _ _ _) as [keys|] eqn:Hkeys; [|done]. simpl in Hres.
  destruct (stored_targets _ _ _ _ _ _ _ _ _ _) as [results'|] eqn:Hst; simplify_eq.
  destruct (stored_targets_ok _ _ _ _ _ _ _ _ _ _ _ Hkeys Hst) as [Hfst Hpres].
  exists p, signer. split; [done|]. pose proof (parse_targets_length _ _ Hts) as Hlen.
  rewrite <-Hfst, length_fmap in Hlen. split; [done|]. split; [by rewrite Hfst, Hv|].
  intros target Hin. destruct (Hpres _ Hin) as (r & ? & ? & ? & ? & Hent). exists r. split_and!; try done.
  destruct Hent as [->|Hent]; [|right; right; by right]. destruct o as [b|e].
  - simplify_eq. left. by apply (Hb true).
  - destruct (wasLastSeenPublic _ g1) eqn:Hs; [|done]. right. left. split.
    + by apply (canRead_throw known now _ _ _ _ _ Hu Hok Hcan).
    + by eapply flag_ever_public.
Qed.
End facts.

(** * Concrete requests *)

Module PurgeWitness.
Import GatesWitness.
Import BucketWitness.
Definition verifyMessage (message signature : string) : outcome js_error string := Return signature.
(** The payload of the example names its signer. *)
Definition rowSigner (payload : option string) : outcome js_error string :=
  match payload with Some s => Return s | None => Throw (MkError None "no payload") end.
Definition row (t : Z) (signer : string) : data_row :=
  DataRow stream 0 "A" t 0 "0xpublisher" "chain" (Some signer) (Some 0%Z).
Definition db : mem_db :=
  MemDb {[ BucketRow stream 0 0 "A" 0 0 ]} {[ row 10 member; row 20 owner ]}.
Definition st : @storage (list (Z * nat)) := Storage.storage_new default_bucket_options false.
Definition request (nonce : string) : targets_request :=
  MkTargetsRequest stream "0"
    (Some [MkRawTarget (Some (JFin 10)) (Some (JFin 0)); MkRawTarget (Some (JFin 20)) (Some (JFin 0))])
    (Some (RawEnvelope (Some member) (Some (JFin 500)) (Some nonce) (Some member))).
Definition purged :=
  purge_handler (M := ttl_map string bool) verifyMessage rowSigner 500 (chain_at 500) st (request "nonce-001")
    (MkAccess ttl_empty (gates_tick 500 g2), db).
Definition checked :=
  stored_handler (M := ttl_map string bool) verifyMessage rowSigner 500 (chain_at 500) db st (request "nonce-002")
    (MkAccess ttl_empty (gates_tick 500 g2)).

Lemma db_unique : data_unique db.
Proof.
  intros r1 r2. simpl. rewrite !elem_of_union, !elem_of_singleton. intros [->| ->] [->| ->]; by intros [=].
Qed.

Definition purge_results : list (PurgeTarget * PurgeResult) :=
  [(MkPurgeTarget 10 0, Deleted); (MkPurgeTarget 20 0, Forbidden)].
Definition stored_results : list (PurgeTarget * StoredResult) :=
  [(MkPurgeTarget 10 0, Present); (MkPurgeTarget 20 0, Absent)].

(** A member deletes the message it signed, and not the owner's. *)
Lemma purge_is_authorized_witness :
  snd purged = Results purge_results ∧ ∃ p, target_gone stream p (MkPurgeTarget 10 0) db (snd (fst purged)).
Proof.
  assert (snd purged = Results purge_results) as Hr by (vm_compute; reflexivity). split; [exact Hr|].
  destruct (purge_is_authorized verifyMessage rowSigner chain_at (kp_new None) 0 500 g2
    (ttl_empty : ttl_map string bool) db st (request "nonce-001") (fst (fst purged)) (snd (fst purged)) (snd purged))
    as [(status & error & Href & _)|(p & targets & signer & _ & _ & _ & _ & _ & Hgone)];
    [exact g2_reach|lia|exact db_unique| | |].
  - change (purged = (fst (fst purged), snd (fst purged), snd purged)).
    rewrite <-surjective_pairing. apply surjective_pairing.
  - rewrite Hr in Href. discriminate.
  - exists p. apply (Hgone purge_results); [exact Hr|]. apply list_elem_of_here.
Defined.

Lemma stored_check_is_no_oracle_witness :
  snd checked = Results stored_results ∧
  ∃ r, r ∈ db_data db ∧ MkPurgeTarget (dr_ts r) (dr_seq r) = MkPurgeTarget 10 0.
Proof.
  assert (snd checked = Results stored_results) as Hr by (vm_compute; reflexivity). split; [exact Hr|].
  destruct (stored_check_is_no_oracle verifyMessage rowSigner chain_at (kp_new None) 0 500 g2
    (ttl_empty : ttl_map string bool) db st (request "nonce-002") (fst checked) stored_results)
    as (p & signer & _ & _ & _ & Hp); [exact g2_reach|lia| |].
  - change (checked = (fst checked, Results stored_results)). rewrite <-Hr. apply surjective_pairing.
  - destruct (Hp (MkPurgeTarget 10 0)) as (r & ? & _ & _ & ? & _); [apply list_elem_of_here|]. exists r; split; assumption.
Defined.
End PurgeWitness.
