(* ===== verification/Config.v ===== *)
(** Which stream parts the node stores: SetMembershipSynchronizer.ts, StorageConfig.ts,
    StorageEventListener.ts and StoragePoller.ts of packages/node/src/plugins/storage, and
    the endpoint that tells (storageConfigEndpoint.ts).

    The chain is read by a poll of all assignments (a snapshot at a block) and by events
    (a patch at a block); both can fail, repeat and arrive late.  [latest] is the
    abstract specification: for each part, the newest information wins. *)

From S2P Require Import Prelude.
From S2P Require Import Js.
From S2P Require Import Identifiers.

Set Default Proof Using "Type".

(** * The synchronizer (SetMembershipSynchronizer.ts) *)

Record Diff := MkDiff { added : list string; removed : list string }.
Definition EMPTY_DIFF : Diff := MkDiff [] [].

Inductive operation := Added | Removed.
#[export] Instance operation_eq_dec : EqDecision operation.
Proof. solve_decision. Defined.

Record synchronizer := MkSynchronizer {
  sy_lastSnapshotSequenceNo : Z;
  sy_state : gset string;
  sy_lastSequenceNoByElement : gmap string Z
}.
Definition synchronizer_new : synchronizer := MkSynchronizer 0 ∅ ∅.
Definition getState (y : synchronizer) : gset string := sy_state y.

Definition setDifference (setA setB : gset string) : list string :=
  filter (λ el, el ∉ setB) (elements setA).

Definition ingestSnapshot (elems : gset string) (sequenceNo : Z) (y : synchronizer) : synchronizer * Diff :=
  if (sequenceNo <=? sy_lastSnapshotSequenceNo y)%Z then (y, EMPTY_DIFF)
  else
    (* delete stale patches *)
    let patches := filter (λ e, ¬ (e.2 ≤ sequenceNo)%Z) (sy_lastSequenceNoByElement y) in
    (* apply patches *)
    let previousState := sy_state y in
    let state := map_fold (λ element _ state, if bool_decide (element ∈ previousState)
                                              then {[ element ]} ∪ state else state ∖ {[ element ]})
                   elems patches in
    (MkSynchronizer sequenceNo state patches,
     MkDiff (setDifference state previousState) (setDifference previousState state)).

(** The [filter] whose callback changes the set: the elements for which it returns true *)
Fixpoint filter_add (els : list string) (state : gset string) : gset string * list string :=
  match els with
  | [] => (state, [])
  | element :: els =>
      let didStateChange := bool_decide (element ∉ state) in
      let '(state, changed) := filter_add els ({[ element ]} ∪ state) in
      (state, if didStateChange then element :: changed else changed)
  end.
Fixpoint filter_delete (els : list string) (state : gset string) : gset string * list string :=
  match els with
  | [] => (state, [])
  | element :: els =>
      let didStateChange := bool_decide (element ∈ state) in
      let '(state, changed) := filter_delete els (state ∖ {[ element ]}) in
      (state, if didStateChange then element :: changed else changed)
  end.

Definition ingestPatch (elems : gset string) (op : operation) (sequenceNo : Z) (y : synchronizer)
    : synchronizer * Diff :=
  if (sequenceNo <=? sy_lastSnapshotSequenceNo y)%Z then (y, EMPTY_DIFF)
  else
    let nonStaleElements := filter (λ element,
      (default 0 (sy_lastSequenceNoByElement y !! element) < sequenceNo)%Z) (elements elems) in
    let patches := foldl (λ m element, <[element := sequenceNo]> m)
                     (sy_lastSequenceNoByElement y) nonStaleElements in
    match op with
    | Added =>
        let '(state, changed) := filter_add nonStaleElements (sy_state y) in
        (MkSynchronizer (sy_lastSnapshotSequenceNo y) state patches, MkDiff changed [])
    | Removed =>
        let '(state, changed) := filter_delete nonStaleElements (sy_state y) in
        (MkSynchronizer (sy_lastSnapshotSequenceNo y) state patches, MkDiff [] changed)
    end.

(** * The node's assignments (StorageConfig.ts) *)

(** What the client answers for a stream: its parts *)
Definition stream_parts : Type := outcome js_error (list string).

Section config.
  (** [computeMd5(key).readInt32LE(0)] *)
  Context (md5_int32 : string → Z).

Record storage_config := MkStorageConfig {
  sc_clusterId : string; sc_clusterSize : Z; sc_myIndexInCluster : Z;
  sc_synchronizer : synchronizer;
  sc_joined : gset string            (** the parts the listener was told to join and not to leave *)
}.
Definition config_new (clusterId : string) (clusterSize myIndexInCluster : Z) : storage_config :=
  MkStorageConfig clusterId clusterSize myIndexInCluster synchronizer_new ∅.

Definition getStreamParts (s : storage_config) : gset string := getState (sc_synchronizer s).
Definition hasStreamPart (part : string) (s : storage_config) : bool := bool_decide (part ∈ getStreamParts s).

Definition is_mine (size index : Z) (part : string) : outcome js_error bool :=
  (let? hashedIndex := key_to_array_index md5_int32 size (KeyString part) in
   Return (hashedIndex =? index)%Z)%eff.
Fixpoint filter_mine (size index : Z) (parts : list string) : outcome js_error (list string) :=
  match parts with
  | [] => Return []
  | part :: parts =>
      (let? mine := is_mine size index part in
       let? rest := filter_mine size index parts in
       Return (if (mine : bool) then part :: rest else rest))%eff
  end.
Definition createMyStreamParts (size index : Z) (stream : stream_parts) : outcome js_error (gset string) :=
  (let? parts := stream in
   let? mine := filter_mine size index parts in
   Return (list_to_set mine))%eff.

Definition handleDiff (d : Diff) (s : storage_config) : storage_config :=
  MkStorageConfig (sc_clusterId s) (sc_clusterSize s) (sc_myIndexInCluster s) (sc_synchronizer s)
    (foldl (λ j part, j ∖ {[ part ]}) (foldl (λ j part, {[ part ]} ∪ j) (sc_joined s) (added d)) (removed d)).
Definition set_synchronizer (y : synchronizer) (s : storage_config) : storage_config :=
  MkStorageConfig (sc_clusterId s) (sc_clusterSize s) (sc_myIndexInCluster s) y (sc_joined s).

(** The parts of all streams of a poll: one failure fails the poll. *)
Fixpoint my_parts (size index : Z) (streams : list stream_parts) : outcome js_error (gset string) :=
  match streams with
  | [] => Return ∅
  | stream :: streams =>
      (let? mine := createMyStreamParts size index stream in
       let? rest := my_parts size index streams in
       Return (mine ∪ rest))%eff
  end.

(** [StoragePoller.tryPoll] with the callback of the constructor; [stored] is what
    [getStoredStreams] answers. *)
Definition poll (stored : outcome js_error (list stream_parts * Z)) (s : storage_config)
    : outcome js_error storage_config :=
  (let? sb := stored in
   let? parts := my_parts (sc_clusterSize s) (sc_myIndexInCluster s) sb.1 in
   let '(y, d) := ingestSnapshot parts sb.2 (sc_synchronizer s) in
   Return (handleDiff d (set_synchronizer y s)))%eff.
Definition tryPoll (stored : outcome js_error (list stream_parts * Z)) (s : storage_config) : storage_config :=
  match poll stored s with Return s' => s' | Throw _ => s end.

Record StorageNodeAssignmentEvent := MkAssignmentEvent {
  ev_nodeAddress : string;
  ev_blockNumber : Z;
  ev_stream : stream_parts           (** the stream of the event, when the client finds it *)
}.

(** [StorageEventListener.handleEvent] with the callback of the constructor *)
Definition handleEvent (event : StorageNodeAssignmentEvent) (type : operation) (s : storage_config)
    : storage_config :=
  if negb (bool_decide (ev_nodeAddress event = sc_clusterId s)) then s
  else
    match createMyStreamParts (sc_clusterSize s) (sc_myIndexInCluster s) (ev_stream event) with
    | Throw _ => s
    | Return parts =>
        let '(y, d) := ingestPatch parts type (ev_blockNumber event) (sc_synchronizer s) in
        handleDiff d (set_synchronizer y s)
    end.

(** * The endpoint (storageConfigEndpoint.ts)

    [number] is the global [Number], [toStreamID] the one of the client's utilities. *)
Definition storage_config_handler (number : string → jsnum) (toStreamID : string → outcome js_error string)
    (id partition : string) (s : storage_config) : outcome js_error Z :=
  if js_is_nan (js_parse_int partition) then Return 400%Z
  else (let? streamId := toStreamID id in
        let? part := to_stream_part_id streamId (number partition) in
        Return (if hasStreamPart part s then 200%Z else 404%Z))%eff.
End config.

(** * The specification: the newest information wins *)

Inductive update :=
  | Snapshot (elems : gset string) (block : Z)
  | Patch (elems : gset string) (op : operation) (block : Z).

(** The snapshot of the greatest block, of equal ones the first *)
Definition newer_snapshot (acc : Z * gset string) (u : update) : Z * gset string :=
  match u with
  | Snapshot els b => if (acc.1 <? b)%Z then (b, els) else acc
  | Patch _ _ _ => acc
  end.
Definition latest_snapshot : list update → Z * gset string := foldl newer_snapshot (0%Z, ∅).

(** The patch of the greatest block among those that mention [e] *)
Definition newer_patch (e : string) (acc : Z * operation) (u : update) : Z * operation :=
  match u with
  | Snapshot _ _ => acc
  | Patch els op b => if bool_decide (e ∈ els) && (acc.1 <? b)%Z then (b, op) else acc
  end.
Definition latest_patch (e : string) : list update → Z * operation := foldl (newer_patch e) (0%Z, Removed).

(** Whether [e] is a member: a patch decides if it is newer than the latest snapshot. *)
Definition latest (us : list update) (e : string) : Prop :=
  if ((latest_snapshot us).1 <? (latest_patch e us).1)%Z
  then (latest_patch e us).2 = Added else e ∈ (latest_snapshot us).2.

Definition ingest (u : update) (y : synchronizer) : synchronizer * Diff :=
  match u with
  | Snapshot els b => ingestSnapshot els b y
  | Patch els op b => ingestPatch els op b y
  end.

(** * Facts *)

Lemma elem_of_setDifference e (A B : gset string) : e ∈ setDifference A B ↔ e ∈ A ∧ e ∉ B.
Proof. unfold setDifference. rewrite list_elem_of_filter, elem_of_elements. tauto. Qed.

Lemma apply_patches_spec (previous els : gset string) (patches : gmap string Z) e :
  e ∈ map_fold (λ element (_ : Z) (state : gset string), if bool_decide (element ∈ previous)
                 then {[ element ]} ∪ state else state ∖ {[ element ]}) els patches
  ↔ match patches !! e with Some _ => e ∈ previous | None => e ∈ els end.
Proof.
  revert patches. apply (map_fold_weak_ind (λ r (m : gmap string Z),
    e ∈ r ↔ match m !! e with Some _ => e ∈ previous | None => e ∈ els end)).
  { by rewrite lookup_empty. }
  intros i x m r Hi IH. destruct (decide (i = e)) as [->|Hne].
  - rewrite lookup_insert_eq. case_bool_decide; set_solver.
  - rewrite lookup_insert_ne by done. rewrite <-IH. case_bool_decide; set_solver.
Qed.

Lemma filter_add_spec els state state' changed :
  NoDup els → filter_add els state = (state', changed) →
  state' = list_to_set els ∪ state ∧ ∀ e, e ∈ changed ↔ e ∈ els ∧ e ∉ state.
Proof.
  revert state state' changed. induction els as [|x els IH]; intros state state' changed Hnd; simpl.
  { intros [= <- <-]. set_solver. }
  apply NoDup_cons in Hnd as [Hx Hnd]. destruct (filter_add els _) as [s c] eqn:Hf.
  destruct (IH _ _ _ Hnd Hf) as [-> Hc]. intros [= <- <-]. split; [set_solver|]. intros e.
  case_bool_decide; set_solver.
Qed.

Lemma filter_delete_spec els state state' changed :
  NoDup els → filter_delete els state = (state', changed) →
  state' = state ∖ list_to_set els ∧ ∀ e, e ∈ changed ↔ e ∈ els ∧ e ∈ state.
Proof.
  revert state state' changed. induction els as [|x els IH]; intros state state' changed Hnd; simpl.
  { intros [= <- <-]. set_solver. }
  apply NoDup_cons in Hnd as [Hx Hnd]. destruct (filter_delete els _) as [s c] eqn:Hf.
  destruct (IH _ _ _ Hnd Hf) as [-> Hc]. intros [= <- <-]. split; [set_solver|]. intros e.
  case_bool_decide; set_solver.
Qed.

Lemma lookup_patches (els : list string) (n : Z) (m : gmap string Z) e :
  foldl (λ m element, <[element := n]> m) m els !! e = if bool_decide (e ∈ els) then Some n else m !! e.
Proof.
  revert m. induction els as [|x els IH]; intros m; [done|]. cbn [foldl].
  rewrite IH. destruct (decide (e = x)) as [->|Hne].
  - rewrite (bool_decide_eq_true_2 (x ∈ x :: els)), lookup_insert_eq by (by left). by case_bool_decide.
  - rewrite lookup_insert_ne by done. repeat case_bool_decide; set_solver.
Qed.

(** ** The simulation *)

Record simulates (us : list update) (y : synchronizer) : Prop := {
  sim_block : sy_lastSnapshotSequenceNo y = (latest_snapshot us).1;
  sim_block_pos : (0 ≤ (latest_snapshot us).1)%Z;
  sim_patches e : sy_lastSequenceNoByElement y !! e =
    if ((latest_snapshot us).1 <? (latest_patch e us).1)%Z then Some (latest_patch e us).1 else None;
  sim_state e : e ∈ sy_state y ↔ latest us e
}.

(** A diff tells exactly how the set changed. *)
Definition diff_exact (old new : gset string) (d : Diff) : Prop :=
  (∀ e, e ∈ added d ↔ e ∈ new ∧ e ∉ old) ∧ (∀ e, e ∈ removed d ↔ e ∈ old ∧ e ∉ new).

Lemma diff_exact_refl s : diff_exact s s EMPTY_DIFF.
Proof. split; simpl; set_solver. Qed.

Lemma simulates_new : simulates [] synchronizer_new.
Proof. split; simpl; [done|done|done|]. unfold latest. simpl. set_solver. Qed.

Lemma latest_snapshot_snoc us u : latest_snapshot (us ++ [u]) = newer_snapshot (latest_snapshot us) u.
Proof. apply foldl_snoc. Qed.
Lemma latest_patch_snoc e us u : latest_patch e (us ++ [u]) = newer_patch e (latest_patch e us) u.
Proof. apply foldl_snoc. Qed.

Lemma simulates_snapshot us y els b y' d :
  simulates us y → ingestSnapshot els b y = (y', d) →
  simulates (us ++ [Snapshot els b]) y' ∧ diff_exact (sy_state y) (sy_state y') d.
Proof.
  intros [Hb Hpos Hp Hs]. unfold ingestSnapshot. rewrite Hb.
  destruct (Z.leb_spec b (latest_snapshot us).1) as [Hle|Hlt].
  { intros [= <- <-]. split; [|apply diff_exact_refl].
    assert (latest_snapshot (us ++ [Snapshot els b]) = latest_snapshot us) as Heq.
    { rewrite latest_snapshot_snoc. simpl. by rewrite (proj2 (Z.ltb_ge _ _)) by lia. }
    split; rewrite ?Heq; try done; intros e; [by rewrite latest_patch_snoc|].
    rewrite Hs. unfold latest. by rewrite Heq, latest_patch_snoc. }
  assert (latest_snapshot (us ++ [Snapshot els b]) = (b, els)) as Heq.
  { rewrite latest_snapshot_snoc. simpl. by rewrite (proj2 (Z.ltb_lt _ _)) by lia. }
  set (patches := filter _ (sy_lastSequenceNoByElement y)).
  assert (∀ e, patches !! e = if (b <? (latest_patch e us).1)%Z then Some (latest_patch e us).1 else None)
    as Hpatch.
  { intros e. subst patches. rewrite map_lookup_filter, Hp.
    destruct (Z.ltb_spec b (latest_patch e us).1), (Z.ltb_spec (latest_snapshot us).1 (latest_patch e us).1);
      simpl; try done; try lia; case_guard; simpl in *; try done; lia. }
  intros [= <- <-]. cbn [sy_state]. split.
  - split; simpl; rewrite ?Heq; simpl; try done; [lia|intros e; by rewrite latest_patch_snoc|].
    intros e. etrans; [apply apply_patches_spec|]. rewrite Hpatch. unfold latest.
    rewrite Heq, latest_patch_snoc. simpl. destruct (Z.ltb_spec b (latest_patch e us).1); simpl; [|done].
    rewrite Hs. unfold latest. by rewrite (proj2 (Z.ltb_lt _ _)) by lia.
  - split; intros e; simpl; rewrite elem_of_setDifference; done.
Qed.

Lemma latest_patch_snoc_patch e us els op n :
  latest_patch e (us ++ [Patch els op n]) =
    if decide (e ∈ els ∧ ((latest_patch e us).1 < n)%Z) then (n, op) else latest_patch e us.
Proof.
  rewrite latest_patch_snoc. simpl. destruct (decide (e ∈ els ∧ _)) as [[H1 H2]|H1].
  - by rewrite bool_decide_eq_true_2, (proj2 (Z.ltb_lt _ _)).
  - destruct (bool_decide (e ∈ els) && _) eqn:Hc; [|done]. apply andb_prop in Hc as [Hc1 Hc2].
    apply bool_decide_eq_true in Hc1. apply Z.ltb_lt in Hc2. tauto.
Qed.

(** The state after a patch, element by element *)
Lemma ingestPatch_spec els op n y y' d :
  ingestPatch els op n y = (y', d) → (sy_lastSnapshotSequenceNo y < n)%Z →
  let fresh e := e ∈ els ∧ (default 0 (sy_lastSequenceNoByElement y !! e) < n)%Z in
  sy_lastSnapshotSequenceNo y' = sy_lastSnapshotSequenceNo y ∧
  (∀ e, fresh e → sy_lastSequenceNoByElement y' !! e = Some n ∧ (e ∈ sy_state y' ↔ op = Added)) ∧
  (∀ e, ¬ fresh e → sy_lastSequenceNoByElement y' !! e = sy_lastSequenceNoByElement y !! e ∧
     (e ∈ sy_state y' ↔ e ∈ sy_state y)) ∧
  diff_exact (sy_state y) (sy_state y') d.
Proof.
  unfold ingestPatch. intros Hi Hlt. rewrite (proj2 (Z.leb_gt _ _)) in Hi by lia.
  set (fresh_list := filter _ (elements els)) in Hi.
  assert (NoDup fresh_list) as Hnd by apply NoDup_filter, NoDup_elements.
  assert (∀ e, e ∈ fresh_list ↔ e ∈ els ∧ (default 0 (sy_lastSequenceNoByElement y !! e) < n)%Z) as Hfresh.
  { intros e. unfold fresh_list. rewrite list_elem_of_filter, elem_of_elements. tauto. }
  clearbody fresh_list. simpl. setoid_rewrite <-Hfresh.
  assert (∀ e, e ∈ fresh_list → foldl (λ m element, <[element := n]> m)
    (sy_lastSequenceNoByElement y) fresh_list !! e = Some n) as H1.
  { intros e He. by rewrite lookup_patches, bool_decide_eq_true_2. }
  assert (∀ e, e ∉ fresh_list → foldl (λ m element, <[element := n]> m)
    (sy_lastSequenceNoByElement y) fresh_list !! e = sy_lastSequenceNoByElement y !! e) as H2.
  { intros e He. by rewrite lookup_patches, bool_decide_eq_false_2. }
  destruct op.
  - destruct (filter_add _ _) as [s c] eqn:Hf. destruct (filter_add_spec _ _ _ _ Hnd Hf) as [-> Hc].
    simplify_eq. cbn [sy_state sy_lastSnapshotSequenceNo sy_lastSequenceNoByElement]. split; [done|].
    split; [|split; [|split]]; intros e; cbn [added removed];
      rewrite ?elem_of_union, ?elem_of_list_to_set, ?Hc, ?elem_of_nil; try tauto.
    + intros He. split; [by apply H1|]. tauto.
    + intros He. split; [by apply H2|]. tauto.
  - destruct (filter_delete _ _) as [s c] eqn:Hf. destruct (filter_delete_spec _ _ _ _ Hnd Hf) as [-> Hc].
    simplify_eq. cbn [sy_state sy_lastSnapshotSequenceNo sy_lastSequenceNoByElement]. split; [done|].
    split; [|split; [|split]]; intros e; cbn [added removed];
      rewrite ?elem_of_difference, ?elem_of_list_to_set, ?Hc, ?elem_of_nil; try tauto.
    + intros He. split; [by apply H1|]. split; [tauto|done].
    + intros He. split; [by apply H2|]. tauto.
    + destruct (decide (e ∈ fresh_list)); tauto.
Qed.

Lemma simulates_patch us y els op n y' d :
  simulates us y → ingestPatch els op n y = (y', d) →
  simulates (us ++ [Patch els op n]) y' ∧ diff_exact (sy_state y) (sy_state y') d.
Proof.
  intros [Hb Hpos Hp Hs] Hi.
  assert (latest_snapshot (us ++ [Patch els op n]) = latest_snapshot us) as Heq
    by (by rewrite latest_snapshot_snoc).
  destruct (Z.le_gt_cases n (latest_snapshot us).1) as [Hle|Hlt].
  - assert (y' = y ∧ d = EMPTY_DIFF) as [-> ->].
    { unfold ingestPatch in Hi. rewrite (proj2 (Z.leb_le _ _)) in Hi by lia. by simplify_eq. }
    split; [|apply diff_exact_refl].
    assert (∀ e, (latest_patch e (us ++ [Patch els op n])) = latest_patch e us ∨
      ((latest_patch e (us ++ [Patch els op n])).1 ≤ (latest_snapshot us).1)%Z ∧
      ((latest_patch e us).1 ≤ (latest_snapshot us).1)%Z) as Hcase.
    { intros e. rewrite latest_patch_snoc. simpl. destruct (bool_decide _ && _) eqn:Hc; [|by left].
      apply andb_prop in Hc as [_ Hc%Z.ltb_lt]. right. simpl. lia. }
    split; rewrite ?Heq; try done; intros e.
    + rewrite Hp. destruct (Hcase e) as [->|[H1 H2]]; [done|]. by rewrite !(proj2 (Z.ltb_ge _ _)).
    + rewrite Hs. unfold latest. rewrite Heq. destruct (Hcase e) as [->|[H1 H2]]; [done|].
      by rewrite !(proj2 (Z.ltb_ge _ _)).
  - destruct (ingestPatch_spec _ _ _ _ _ _ Hi ltac:(lia)) as (Hb' & Hf & Hnf & Hd). split; [|done].
    assert (∀ e, (e ∈ els ∧ (default 0 (sy_lastSequenceNoByElement y !! e) < n)%Z) ↔
      (e ∈ els ∧ ((latest_patch e us).1 < n)%Z)) as Hfresh.
    { intros e. rewrite Hp. destruct (Z.ltb_spec (latest_snapshot us).1 (latest_patch e us).1); simpl; [done|].
      split; intros [? _]; (split; [done|lia]). }
    split; rewrite ?Heq; [congruence|done|..]; intros e.
    all: destruct (decide (e ∈ els ∧ (default 0 (sy_lastSequenceNoByElement y !! e) < n)%Z)) as [He|He].
    all: [> destruct (Hf e He) as [Hl Hst]|destruct (Hnf e He) as [Hl Hst]
          |destruct (Hf e He) as [Hl Hst]|destruct (Hnf e He) as [Hl Hst]].
    all: rewrite Hfresh in He.
    + rewrite Hl, latest_patch_snoc_patch, decide_True by done. simpl. by rewrite (proj2 (Z.ltb_lt _ _)) by lia.
    + by rewrite Hl, latest_patch_snoc_patch, decide_False, Hp by done.
    + rewrite Hst. unfold latest. rewrite Heq, latest_patch_snoc_patch, decide_True by done. simpl.
      by rewrite (proj2 (Z.ltb_lt _ _)) by lia.
    + rewrite Hst, Hs. unfold latest. by rewrite Heq, latest_patch_snoc_patch, decide_False by done.
Qed.

(** ** The node's view *)

Definition update_parts (u : update) : gset string :=
  match u with Snapshot els _ => els | Patch els _ _ => els end.

Lemma handleDiff_joined d s :
  diff_exact (sc_joined s) (getState (sc_synchronizer s)) d →
  sc_joined (handleDiff d s) = getState (sc_synchronizer s).
Proof.
  intros [Ha Hr]. simpl.
  assert (∀ l (j : gset string), foldl (λ j part, {[ part ]} ∪ j) j l = list_to_set l ∪ j) as Hadd.
  { induction l as [|x l IH]; intros j; simpl; [set_solver|]. rewrite IH. set_solver. }
  assert (∀ l (j : gset string), foldl (λ j part, j ∖ {[ part ]}) j l = j ∖ list_to_set l) as Hdel.
  { induction l as [|x l IH]; intros j; simpl; [set_solver|]. rewrite IH. set_solver. }
  rewrite Hadd, Hdel. apply set_eq. intros e. specialize (Ha e). specialize (Hr e).
  rewrite elem_of_difference, elem_of_union, !elem_of_list_to_set, Ha, Hr.
  destruct (decide (e ∈ sc_joined s)), (decide (e ∈ getState (sc_synchronizer s))); tauto.
Qed.

Lemma latest_mentioned us e : latest us e → ∃ u, u ∈ us ∧ e ∈ update_parts u.
Proof.
  unfold latest.
  assert (((latest_snapshot us).2 = ∅ ∨ ∃ b, Snapshot (latest_snapshot us).2 b ∈ us) ∧
    ((latest_patch e us).2 = Removed ∨ ∃ els op b, Patch els op b ∈ us ∧ e ∈ els)) as [Hs Hp].
  { induction us as [|u us [IH1 IH2]] using rev_ind; [auto|]. rewrite latest_snapshot_snoc, latest_patch_snoc.
    split.
    - destruct u as [els b|]; simpl; [destruct (_ <? b)%Z|]; simpl; [right|..]; set_solver.
    - destruct u as [|els op b]; simpl; [|destruct (bool_decide _ && _) eqn:Hc; simpl; [right|]];
        [set_solver|apply andb_prop in Hc as [Hc%bool_decide_eq_true _]|]; set_solver. }
  destruct (_ <? _)%Z; intros H.
  - destruct Hp as [Hp|(els & op & b & ? & ?)]; [congruence|]. by exists (Patch els op b).
  - destruct Hs as [Hs|[b Hs]]; [rewrite Hs in H; by apply not_elem_of_empty in H|]. by exists (Snapshot (latest_snapshot us).2 b).
Qed.

Section view.
  Context (md5_int32 : string → Z).

Inductive config_event :=
  | Polled (stored : outcome js_error (list stream_parts * Z))
  | Assigned (event : StorageNodeAssignmentEvent) (type : operation).

Definition config_step (s : storage_config) (ev : config_event) : storage_config :=
  match ev with
  | Polled stored => tryPoll md5_int32 stored s
  | Assigned event type => handleEvent md5_int32 event type s
  end.

(** What an event says about the node's parts, when it is for the node and can be read *)
Definition update_of (clusterId : string) (size index : Z) (ev : config_event) : option update :=
  match ev with
  | Polled (Return (streams, block)) =>
      match my_parts md5_int32 size index streams with
      | Return parts => Some (Snapshot parts block)
      | Throw _ => None
      end
  | Polled (Throw _) => None
  | Assigned event type =>
      if bool_decide (ev_nodeAddress event = clusterId) then
        match createMyStreamParts md5_int32 size index (ev_stream event) with
        | Return parts => Some (Patch parts type (ev_blockNumber event))
        | Throw _ => None
        end
      else None
  end.

Lemma filter_mine_elem size index parts mine p :
  filter_mine md5_int32 size index parts = Return mine → p ∈ mine → is_mine md5_int32 size index p = Return true.
Proof.
  revert mine. induction parts as [|x parts IH]; intros mine; simpl; [by intros [= <-] []%not_elem_of_nil|].
  destruct (is_mine _ size index x) as [b|] eqn:Hx; [|done]. simpl.
  destruct (filter_mine _ size index parts) as [rest|]; [|done]. simpl. intros [= <-].
  destruct b; [|by apply IH]. intros [->|Hin]%elem_of_cons; [done|by apply (IH rest)].
Qed.

Lemma createMyStreamParts_elem size index stream mine p :
  createMyStreamParts md5_int32 size index stream = Return mine → p ∈ mine → is_mine md5_int32 size index p = Return true.
Proof.
  unfold createMyStreamParts. destruct stream as [parts|]; [|done]. simpl.
  destruct (filter_mine _ _ _ _) as [l|] eqn:Hf; [|done]. simpl. intros [= <-].
  rewrite elem_of_list_to_set. by apply (filter_mine_elem _ _ parts).
Qed.

Lemma my_parts_elem size index streams mine p :
  my_parts md5_int32 size index streams = Return mine → p ∈ mine → is_mine md5_int32 size index p = Return true.
Proof.
  revert mine. induction streams as [|x streams IH]; intros mine; simpl; [by intros [= <-] []%not_elem_of_empty|].
  destruct (createMyStreamParts _ _ _ x) as [a|] eqn:Ha; [|done]. simpl.
  destruct (my_parts _ _ _ streams) as [b|]; [|done]. simpl. intros [= <-].
  intros [?|?]%elem_of_union; [by eapply createMyStreamParts_elem|by apply (IH b)].
Qed.

Lemma update_of_mine cid size index ev u p :
  update_of cid size index ev = Some u → p ∈ update_parts u → is_mine md5_int32 size index p = Return true.
Proof.
  destruct ev as [[[streams block]|]|event type]; simpl; [|done|].
  - destruct (my_parts _ _ _ _) as [parts|] eqn:Hm; [|done]. intros [= <-]. by eapply my_parts_elem.
  - case_bool_decide; [|done]. destruct (createMyStreamParts _ _ _ _) as [parts|] eqn:Hm; [|done].
    intros [= <-]. by eapply createMyStreamParts_elem.
Qed.

Record config_inv (cid : string) (size index : Z) (us : list update) (s : storage_config) : Prop := {
  ci_ids : sc_clusterId s = cid ∧ sc_clusterSize s = size ∧ sc_myIndexInCluster s = index;
  ci_sim : simulates us (sc_synchronizer s);
  ci_joined : sc_joined s = getStreamParts s
}.

Lemma config_inv_ingest cid size index us s u y d :
  config_inv cid size index us s → ingest u (sc_synchronizer s) = (y, d) →
  config_inv cid size index (us ++ [u]) (handleDiff d (set_synchronizer y s)).
Proof.
  intros [Hids Hsim Hj] Hi.
  assert (simulates (us ++ [u]) y ∧ diff_exact (sy_state (sc_synchronizer s)) (sy_state y) d) as [Hsim' Hd].
  { destruct u; [by apply simulates_snapshot|by apply simulates_patch]. }
  split; [done|done|]. unfold getStreamParts. cbn [handleDiff sc_synchronizer].
  apply (handleDiff_joined d (set_synchronizer y s)). cbn [sc_joined set_synchronizer sc_synchronizer].
  rewrite Hj. done.
Qed.

Lemma config_inv_step cid size index us s ev :
  config_inv cid size index us s →
  config_inv cid size index (us ++ option_list (update_of cid size index ev)) (config_step s ev).
Proof.
  intros Hinv. pose proof Hinv as [(<- & <- & <-) _ _].
  destruct ev as [[[streams block]|e]|event type]; simpl; unfold tryPoll, poll, handleEvent; simpl.
  - destruct (my_parts _ _ _ _) as [parts|]; simpl; [|by rewrite app_nil_r].
    destruct (ingestSnapshot _ _ _) as [y d] eqn:Hi. by apply config_inv_ingest.
  - by rewrite app_nil_r.
  - case_bool_decide; simpl; [|by rewrite app_nil_r].
    destruct (createMyStreamParts _ _ _ _) as [parts|]; simpl; [|by rewrite app_nil_r].
    destruct (ingestPatch _ _ _ _) as [y d] eqn:Hi. by apply config_inv_ingest.
Qed.

(** What the assignments are after any events *)
Lemma assignments_spec cid size index evs :
  let s := foldl config_step (config_new cid size index) evs in
  let us := omap (update_of cid size index) evs in
  (∀ part, hasStreamPart part s = true ↔ latest us part) ∧
  sc_joined s = getStreamParts s ∧
  (∀ part, part ∈ getStreamParts s → is_mine md5_int32 size index part = Return true).
Proof.
  assert (∀ us s, config_inv cid size index us s →
    config_inv cid size index (us ++ omap (update_of cid size index) evs) (foldl config_step s evs)) as Hrun.
  { induction evs as [|ev evs IH]; intros us s Hs; simpl; [by rewrite app_nil_r|].
    apply (config_inv_step _ _ _ _ _ ev) in Hs. apply IH in Hs.
    destruct (update_of cid size index ev); simpl in Hs; [by rewrite <-app_assoc in Hs|by rewrite app_nil_r in Hs]. }
  intros s us. destruct (Hrun [] (config_new cid size index)) as [_ Hsim Hj].
  { split; [done|apply simulates_new|done]. }
  simpl in Hsim. fold s in Hsim, Hj. fold us in Hsim. split; [|split; [done|]].
  - intros part. unfold hasStreamPart. rewrite bool_decide_eq_true. apply (sim_state _ _ Hsim).
  - intros part Hin. apply (sim_state _ _ Hsim) in Hin. apply latest_mentioned in Hin as (u & Hu & Hpart).
    apply list_elem_of_omap in Hu as (ev & _ & Hev). by eapply update_of_mine.
Qed.

(** C11: the node's assignments converge to the newest information.  However polls and events
    interleave, repeat, fail or arrive late, the parts the node has, and the parts its
    listener has joined, are exactly those the newest readable information about each
    part says, a snapshot or a patch by block number; and all of them hash to the node's
    own index in the cluster. *)
Theorem assignments_follow_the_newest cid size index evs :
  let s := foldl config_step (config_new cid size index) evs in
  let us := omap (update_of cid size index) evs in
  (∀ part, hasStreamPart part s = true ↔ latest us part) ∧
  sc_joined s = getStreamParts s ∧
  (∀ part, part ∈ getStreamParts s → is_mine md5_int32 size index part = Return true).
Proof. apply assignments_spec. Qed.

(** The nodes of a cluster share the stream parts out: whatever the hash, each part belongs
    to exactly one index below the cluster size. *)
Lemma cluster_shares_out size part :
  (0 < size ≤ 9007199254740991)%Z →
  ∃ index, (0 ≤ index < size)%Z ∧ is_mine md5_int32 size index part = Return true ∧
    ∀ index', is_mine md5_int32 size index' part = Return true → index' = index.
Proof.
  intros Hsize. unfold is_mine.
  destruct (key_to_array_index md5_int32 size (KeyString part)) as [i|e] eqn:Hk.
  - exists i. split; [by eapply key_to_array_index_range|]. simpl. rewrite Z.eqb_refl. split; [done|].
    intros index' [= Heq%Z.eqb_eq]. done.
  - exfalso. revert Hk. unfold key_to_array_index. simpl.
    rewrite (proj2 (Z.leb_le _ _)), (proj2 (Z.ltb_lt _ _)) by lia. simpl. by destruct (size =? 1)%Z.
Qed.
End view.

(** * Concrete events *)

Module ConfigWitness.
Definition md5_int32 (s : string) : Z := Z.of_nat (String.length s).
(** A removal that is newer than the next snapshot stays. *)
Example late_snapshot :
  let s := foldl (config_step md5_int32) (config_new "0xme" 1 0)
    [Polled (Return ([Return ["a#0"; "b#0"]], 10%Z));
     Assigned (MkAssignmentEvent "0xme" 20 (Return ["a#0"])) Removed;
     Polled (Return ([Return ["a#0"; "b#0"]], 15%Z));
     Assigned (MkAssignmentEvent "0xother" 30 (Return ["b#0"])) Removed] in
  hasStreamPart "a#0" s = false ∧ hasStreamPart "b#0" s = true.
Proof. vm_compute. done. Qed.
End ConfigWitness.
