(* ===== verification/Frames.v ===== *)
(** Length-prefixed frames (packages/utils/src/lengthPrefixedFrameUtils.ts): the encoding
    of the raw query format, and the decoder of the client, which gets the bytes in
    chunks of any size. *)

From S2P Require Import Prelude.

Set Default Proof Using "Type".

(** A byte is a [Z] from 0 to 255. *)
Definition bytes : Type := list Z.
Definition is_bytes (b : bytes) : Prop := Forall (λ x, 0 ≤ x < 256)%Z b.

Definition HEADER_LENGTH : nat := 4.

(** [writeUint32BE]: a number that needs more than 32 bits is refused. *)
Definition write_uint32_be (n : Z) : outcome js_error bytes :=
  if ((0 <=? n) && (n <? 2 ^ 32))%Z
  then Return [n `div` 2 ^ 24 `mod` 256; n `div` 2 ^ 16 `mod` 256; n `div` 2 ^ 8 `mod` 256; n `mod` 256]%Z
  else Throw (MkError (Some "ERR_OUT_OF_RANGE") "out of range").

(** [readUInt32BE(0)] of a buffer of at least four bytes *)
Definition read_uint32_be (b : bytes) : Z :=
  match b with
  | b0 :: b1 :: b2 :: b3 :: _ =>
      (b0 * 2 ^ 24 + b1 * 2 ^ 16 + b2 * 2 ^ 8 + b3)%Z
  | _ => 0%Z
  end.

Definition toLengthPrefixedFrame (payload : bytes) : outcome js_error bytes :=
  (let? header := write_uint32_be (Z.of_nat (length payload)) in Return (header ++ payload))%eff.

(** The loop of [processStreamData]: what is left in the buffer and what was pushed.
    Each round takes a header off the buffer, so its length is enough fuel. *)
Fixpoint process_loop (fuel : nat) (buffer : bytes) : bytes * list bytes :=
  match fuel with
  | O => (buffer, [])
  | S fuel =>
      if (HEADER_LENGTH <=? length buffer)%nat then
        let payloadSize := Z.to_nat (read_uint32_be buffer) in
        if (payloadSize + HEADER_LENGTH <=? length buffer)%nat then
          let payload := take payloadSize (drop HEADER_LENGTH buffer) in
          let '(rest, pushed) := process_loop fuel (drop (payloadSize + HEADER_LENGTH) buffer) in
          (rest, payload :: pushed)
        else (buffer, [])
      else (buffer, [])
  end.
Definition processStreamData (buffer : bytes) : bytes * list bytes := process_loop (length buffer) buffer.

(** The decoder: its buffer, and what [_transform] and [_flush] push *)
Definition decoder_transform (buffer chunk : bytes) : bytes * list bytes := processStreamData (buffer ++ chunk).
Definition decoder_flush (buffer : bytes) : bytes * list bytes := processStreamData buffer.

Fixpoint decode_chunks (buffer : bytes) (chunks : list bytes) : bytes * list bytes :=
  match chunks with
  | [] => decoder_flush buffer
  | chunk :: chunks =>
      let '(buffer, pushed) := decoder_transform buffer chunk in
      let '(buffer, pushed') := decode_chunks buffer chunks in
      (buffer, pushed ++ pushed')
  end.

(** The encoder, message after message *)
Fixpoint encode_frames (payloads : list bytes) : outcome js_error bytes :=
  match payloads with
  | [] => Return []
  | payload :: payloads =>
      (let? frame := toLengthPrefixedFrame payload in
       let? rest := encode_frames payloads in
       Return (frame ++ rest))%eff
  end.

(** * Facts *)

Lemma read_write_uint32_be n header rest :
  write_uint32_be n = Return header → length header = HEADER_LENGTH ∧ read_uint32_be (header ++ rest) = n.
Proof.
  unfold write_uint32_be. destruct ((0 <=? n) && (n <? 2 ^ 32))%Z eqn:Hn; [|done].
  apply andb_prop in Hn as [H0%Z.leb_le H1%Z.ltb_lt]. intros [= <-]. split; [done|]. simpl.
  change (2 ^ 32)%Z with 4294967296%Z in H1. change (2 ^ 24)%Z with 16777216%Z.
  change (2 ^ 16)%Z with 65536%Z. change (2 ^ 8)%Z with 256%Z. Z.to_euclidean_division_equations; lia.
Qed.

(** The loop leaves the buffer as it is, or takes one frame and goes on. *)
Lemma process_loop_fuel f1 f2 buffer :
  length buffer ≤ f1 → length buffer ≤ f2 → process_loop f1 buffer = process_loop f2 buffer.
Proof.
  revert f2 buffer. induction f1 as [|f1 IH]; intros [|f2] buffer H1 H2; [done|..].
  - destruct buffer; simpl in *; [done|lia].
  - destruct buffer; simpl in *; [done|lia].
  - cbn [process_loop]. destruct (HEADER_LENGTH <=? length buffer)%nat eqn:Hh; [|done].
    apply Nat.leb_le in Hh. unfold HEADER_LENGTH in *.
    destruct (_ <=? length buffer)%nat; [|done].
    rewrite (IH f2); [done|rewrite length_drop; lia..].
Qed.

Lemma processStreamData_eq buffer :
  processStreamData buffer =
    let n := Z.to_nat (read_uint32_be buffer) in
    if (HEADER_LENGTH <=? length buffer)%nat && (n + HEADER_LENGTH <=? length buffer)%nat then
      let '(rest, pushed) := processStreamData (drop (n + HEADER_LENGTH) buffer) in
      (rest, take n (drop HEADER_LENGTH buffer) :: pushed)
    else (buffer, []).
Proof.
  unfold processStreamData. destruct (length buffer) as [|f] eqn:Hl.
  { by destruct buffer. }
  rewrite <-Hl. rewrite Hl at 1. cbn [process_loop]. cbv zeta.
  destruct (HEADER_LENGTH <=? length buffer)%nat eqn:Hh; [|done]. cbn [andb].
  destruct (_ + HEADER_LENGTH <=? length buffer)%nat eqn:Hp; [|done].
  apply Nat.leb_le in Hh, Hp. unfold HEADER_LENGTH in *.
  rewrite (process_loop_fuel f (length (drop (Z.to_nat (read_uint32_be buffer) + 4) buffer))); [done|..];
    rewrite length_drop; lia.
Qed.

Lemma read_uint32_be_app b c : HEADER_LENGTH ≤ length b → read_uint32_be (b ++ c) = read_uint32_be b.
Proof. destruct b as [|? [|? [|? [|? b]]]]; unfold HEADER_LENGTH; simpl; intros; try lia. Qed.

(** Bytes that arrive later do not change what was decoded. *)
Lemma processStreamData_app b c :
  processStreamData (b ++ c) =
    let '(rest, pushed) := processStreamData b in
    let '(rest', pushed') := processStreamData (rest ++ c) in (rest', pushed ++ pushed').
Proof.
  induction b as [b IH] using (induction_ltof1 _ (@length Z)). unfold ltof in IH.
  rewrite (processStreamData_eq b). cbv zeta.
  destruct (HEADER_LENGTH <=? length b)%nat eqn:Hh; [|cbn [andb]; by destruct (processStreamData (b ++ c))]. cbn [andb].
  apply Nat.leb_le in Hh. set (n := Z.to_nat (read_uint32_be b)).
  destruct (n + HEADER_LENGTH <=? length b)%nat eqn:Hp; [|cbn [andb]; by destruct (processStreamData (b ++ c))].
  apply Nat.leb_le in Hp. rewrite processStreamData_eq. cbv zeta. rewrite read_uint32_be_app by done. fold n.
  rewrite length_app, !(proj2 (Nat.leb_le _ _)) by lia. cbn [andb].
  assert (drop (n + HEADER_LENGTH) (b ++ c) = drop (n + HEADER_LENGTH) b ++ c) as -> by (by apply drop_app_le).
  rewrite IH by (rewrite length_drop; unfold HEADER_LENGTH in *; lia).
  destruct (processStreamData (drop _ b)) as [rest pushed].
  destruct (processStreamData (rest ++ c)) as [rest' pushed'].
  f_equal. rewrite drop_app_le by lia. by rewrite take_app_le by (rewrite length_drop; lia).
Qed.

Lemma processStreamData_done b rest pushed : processStreamData b = (rest, pushed) → processStreamData rest = (rest, []).
Proof.
  intros H. pose proof (processStreamData_app b []) as Happ. rewrite app_nil_r, H, app_nil_r in Happ.
  destruct (processStreamData rest) as [rest' pushed']. injection Happ as -> Hp.
  apply (f_equal length) in Hp. rewrite length_app in Hp. destruct pushed'; [done|simpl in Hp; lia].
Qed.

Lemma decode_chunks_concat buffer chunks :
  processStreamData buffer = (buffer, []) → decode_chunks buffer chunks = processStreamData (buffer ++ concat chunks).
Proof.
  revert buffer. induction chunks as [|c chunks IH]; intros buffer Hb; simpl.
  { by rewrite app_nil_r. }
  unfold decoder_transform. rewrite app_assoc, (processStreamData_app (buffer ++ c)).
  destruct (processStreamData (buffer ++ c)) as [rest pushed] eqn:Hp.
  by rewrite IH by (by eapply processStreamData_done).
Qed.

Lemma processStreamData_frames payloads data :
  encode_frames payloads = Return data → processStreamData data = ([], payloads).
Proof.
  revert data. induction payloads as [|p payloads IH]; intros data; simpl; [by intros [= <-]|].
  unfold toLengthPrefixedFrame. destruct (write_uint32_be _) as [h|] eqn:Hw; [|done]. simpl.
  destruct (encode_frames payloads) as [rest|]; [|done]. simpl. intros [= <-].
  destruct (read_write_uint32_be _ _ (p ++ rest) Hw) as [Hh Hr].
  rewrite processStreamData_eq. rewrite <-app_assoc, Hr, Nat2Z.id. cbv zeta.
  rewrite !length_app, !(proj2 (Nat.leb_le _ _)) by lia. cbn [andb].
  assert (drop (length p + HEADER_LENGTH) (h ++ p ++ rest) = rest) as ->.
  { rewrite Nat.add_comm, <-drop_drop, drop_app_length' by lia. by rewrite drop_app_length. }
  rewrite (IH rest eq_refl), drop_app_length' by lia. by rewrite take_app_length.
Qed.

(** Raw query results survive the transport: whatever the chunks in which the encoded
    frames arrive, the decoder yields exactly the payloads, in order, and ends with an
    empty buffer. *)
Theorem frames_roundtrip payloads data chunks :
  encode_frames payloads = Return data → concat chunks = data → decode_chunks [] chunks = ([], payloads).
Proof.
  intros Henc Hc. rewrite decode_chunks_concat by done. simpl. rewrite Hc. by apply processStreamData_frames.
Qed.

Lemma frames_roundtrip_witness :
  decode_chunks [] [[0; 0]; [0; 2; 7]; [9; 0; 0; 0]; [0]]%Z = ([], [[7; 9]; []]%Z).
Proof.
  apply (frames_roundtrip [[7; 9]; []]%Z [0; 0; 0; 2; 7; 9; 0; 0; 0; 0]%Z); [vm_compute|]; reflexivity.
Defined.
