(* ===== verification/DataQuery.v ===== *)
(** The read endpoints: dataQueryEndpoint.ts, DataQueryFormat.ts, dataMetadataEndpoint.ts and
    capabilitiesEndpoint.ts of packages/node/src/plugins/storage, and the hexadecimal text of
    binary data (packages/utils/src/binaryUtils.ts).

    A request is turned into a call of the storage or an error; the result stream into
    the chunks of the response.  [convert] is convertBytesToStreamMessage of the SDK: the
    fields of the message it yields are a [message_view]. *)

From S2P Require Import Prelude.
From S2P Require Import Js.
From S2P Require Import Identifiers.
From S2P Require Import Cassandra.
From S2P Require Import Bucket.
From S2P Require Import Storage.
From S2P Require Import Json.
From S2P Require Import Frames.

Set Default Proof Using "Type".

(** * Binary data as text (binaryUtils.ts) *)

Definition hex_byte (b : Z) : string :=
  String (hex_char (Z.to_nat (b `div` 16))) (String (hex_char (Z.to_nat (b `mod` 16))) "").
Fixpoint hex_text (b : bytes) : string :=
  match b with [] => "" | x :: b => hex_byte x +:+ hex_text b end.
Definition binaryToHex (b : bytes) (addPrefix : bool) : string :=
  if addPrefix then "0x" +:+ hex_text b else hex_text b.

(** [Buffer.from(hex, 'hex')] stops at the first pair that is not hexadecimal. *)
Fixpoint buffer_from_hex (s : string) : bytes :=
  match s with
  | String c (String d s') =>
      match hex_value c, hex_value d with
      | Some x, Some y => (Z.of_nat x * 16 + Z.of_nat y)%Z :: buffer_from_hex s'
      | _, _ => []
      end
  | _ => []
  end.
Definition hexToBinary (hex : string) : outcome js_error bytes :=
  let hex := if has_0x_prefix hex then string_drop 2 hex else hex in
  if negb (String.length hex mod 2 =? 0)%nat then Throw (MkError None "Hex string length must be even")
  else let result := buffer_from_hex hex in
       if negb (String.length hex =? length result * 2)%nat
       then Throw (MkError None "Hex string input is likely malformed") else Return result.

(** * Formats (DataQueryFormat.ts) *)

(** [JSON.stringify]; the members of an object in their order *)
Fixpoint json_print (v : json) : string :=
  match v with
  | JNull => "null"
  | JBool b => if b then "true" else "false"
  | JNum lexeme => lexeme
  | JString s => print_string s
  | JArray l => "[" +:+ string_join "," (json_print <$> l) +:+ "]"
  | JObject members =>
      "{" +:+ string_join "," ((λ m, print_string m.1 +:+ ":" +:+ json_print m.2) <$> members) +:+ "}"
  end.

Inductive content := Binary (b : bytes) | Parsed (v : json).

(** A message as the SDK converts it *)
Record message_view := MkMessageView {
  mv_streamId : string; mv_partition : Z; mv_timestamp : Z; mv_sequenceNumber : Z;
  mv_publisherId : string; mv_msgChainId : string; mv_messageType : Z; mv_contentType : Z;
  mv_encryptionType : Z;
  mv_content : bytes;
  mv_json : outcome js_error json;        (** the content parsed as JSON, numbers with the text [String] gives *)
  mv_signature : bytes; mv_groupKeyId : option string
}.

Definition ENCRYPTION_NONE : Z := 0.
Definition CONTENT_JSON : Z := 0.
Definition CONTENT_BINARY : Z := 1.

Definition getParsedContent (m : message_view) : outcome js_error content :=
  if negb (mv_encryptionType m =? ENCRYPTION_NONE)%Z || (mv_contentType m =? CONTENT_BINARY)%Z
  then Return (Binary (mv_content m))
  else if (mv_contentType m =? CONTENT_JSON)%Z
  then match mv_json m with
       | Return v => Return (Parsed v)
       | Throw _ => Throw (MkError (Some "INVALID_MESSAGE_CONTENT") "Unable to parse JSON")
       end
  else Throw (MkError (Some "ASSERTION_FAILED") "Unknown content type").

Definition JInt (z : Z) : json := JNum (js_num_to_string (JFin z)).

Definition toObject (m : message_view) (storedAt : option Z) : outcome js_error json :=
  (let? parsedContent := getParsedContent m in
   Return (JObject
     ([("streamId", JString (mv_streamId m));
       ("streamPartition", JInt (mv_partition m));
       ("timestamp", JInt (mv_timestamp m));
       ("sequenceNumber", JInt (mv_sequenceNumber m));
       ("publisherId", JString (mv_publisherId m));
       ("msgChainId", JString (mv_msgChainId m));
       ("messageType", JInt (mv_messageType m));
       ("contentType", JInt (mv_contentType m));
       ("encryptionType", JInt (mv_encryptionType m));
       ("content", match parsedContent with
                   | Binary b => JString (binaryToHex b false)
                   | Parsed v => v
                   end);
       ("signature", JString (binaryToHex (mv_signature m) false))]
      ++ match mv_groupKeyId m with Some k => [("groupKeyId", JString k)] | None => [] end
      ++ match storedAt with Some t => [("storedAt", JInt t)] | None => [] end)))%eff.

Definition toMetadataObject (m : message_view) (storedAt : option Z) : json :=
  let size := match getParsedContent m with
              | Return (Binary b) => JInt (Z.of_nat (length b))
              | _ => JNull
              end in
  JObject
    ([("timestamp", JInt (mv_timestamp m));
      ("sequenceNumber", JInt (mv_sequenceNumber m));
      ("publisherId", JString (mv_publisherId m));
      ("size", size)]
     ++ match storedAt with Some t => [("storedAt", JInt t)] | None => [] end).

Inductive chunk := Text (s : string) | Bytes (b : bytes).

Record Format := MkFormat {
  formatMessage : StoredMessage → outcome js_error chunk;
  f_contentType : option string;
  delimiter : option string; header : option string; footer : option string
}.

Definition createJsonFormat (f : StoredMessage → outcome js_error string) : Format :=
  MkFormat (λ m, (let? s := f m in Return (Text s))%eff) (Some "application/json") (Some ",") (Some "[") (Some "]").
Definition createBinaryFormat (f : StoredMessage → outcome js_error bytes) : Format :=
  MkFormat (λ m, (let? b := f m in Return (Bytes b))%eff) (Some "application/octet-stream") None None None.

(** A payload, kept as a string of its bytes *)
Definition payload_bytes (s : string) : bytes := (λ c, Z.of_nat (Ascii.nat_of_ascii c)) <$> String.list_ascii_of_string s.

Section formats.
  Context (convert : string → outcome js_error message_view).

Definition object_json (m : StoredMessage) : outcome js_error json :=
  (let? v := convert (s_payload m) in toObject v (s_storedAt m))%eff.
Definition metadata_json (m : StoredMessage) : outcome js_error json :=
  (let? v := convert (s_payload m) in Return (toMetadataObject v (s_storedAt m)))%eff.
Definition raw_frame (m : StoredMessage) : outcome js_error bytes :=
  toLengthPrefixedFrame (payload_bytes (s_payload m)).

Definition stringify (f : StoredMessage → outcome js_error json) (m : StoredMessage) : outcome js_error string :=
  (let? v := f m in Return (json_print v))%eff.

(** The properties every object inherits; [FORMATS[key]] finds them as well. *)
Definition object_prototype : list string :=
  ["constructor"; "__defineGetter__"; "__defineSetter__"; "hasOwnProperty"; "__lookupGetter__";
   "__lookupSetter__"; "isPrototypeOf"; "propertyIsEnumerable"; "toString"; "valueOf"; "__proto__";
   "toLocaleString"].
(** None of them has the fields of a format: [formatMessage] is not a function. *)
Definition inherited_format : Format :=
  MkFormat (λ _, Throw (MkError None "formatMessage is not a function")) None None None None.

Definition getFormat (id : option string) : option Format :=
  let key := default "object" id in
  if bool_decide (key = "object") then Some (createJsonFormat (stringify object_json))
  else if bool_decide (key = "raw") then Some (createBinaryFormat raw_frame)
  else if bool_decide (key = "metadata") then Some (createJsonFormat (stringify metadata_json))
  else if bool_decide (key ∈ object_prototype) then Some inherited_format
  else None.

(** * The response stream (dataQueryEndpoint.ts) *)

Definition push_opt (s : option string) : list chunk := match s with Some s => [Text s] | None => [] end.

(** [_transform]: the flag, and what is pushed or the error *)
Definition transform (f : Format) (firstMessage : bool) (input : StoredMessage) : outcome js_error (bool * list chunk) :=
  (let? formatted := formatMessage f input in
   Return (false, (if firstMessage then push_opt (header f) else push_opt (delimiter f)) ++ [formatted]))%eff.
Definition flush (f : Format) (firstMessage : bool) : list chunk :=
  (if firstMessage then push_opt (header f) else []) ++ push_opt (footer f).

(** The chunks sent, and the error that ended the response, if one did *)
Fixpoint respond (f : Format) (firstMessage : bool) (data : list StoredMessage) : list chunk * option js_error :=
  match data with
  | [] => (flush f firstMessage, None)
  | input :: data =>
      match transform f firstMessage input with
      | Throw err => ([], Some err)
      | Return (first, pushed) => let '(rest, err) := respond f first data in (pushed ++ rest, err)
      end
  end.
End formats.

(** * Queries (dataQueryEndpoint.ts)

    The parameters are text; a sequence number is passed on whether or not it is one. *)

Record query := MkQuery {
  q_count : option string; q_fromTimestamp : option string; q_toTimestamp : option string;
  q_fromSequenceNumber : option string; q_toSequenceNumber : option string;
  q_publisherId : option string; q_msgChainId : option string;
  q_fromOffset : option string; q_toOffset : option string; q_format : option string
}.

Definition parseIntIfExists (x : option string) : option jsnum := js_parse_int <$> x.

(** A call of the storage *)
Inductive storage_query :=
  | RequestLast (streamId : string) (partition count : jsnum)
  | RequestFrom (streamId : string) (partition fromTimestamp fromSequenceNo : jsnum) (publisherId : option string)
  | RequestRange (streamId : string) (partition fromTimestamp fromSequenceNo toTimestamp toSequenceNo : jsnum)
      (publisherId msgChainId : option string).

(** [sendError] with status 400, or the call *)
Definition handled : Type := string + storage_query.

Definition handleLast (q : query) (streamId : string) (partition : jsnum) : handled :=
  let count := match q_count q with None => JFin 1 | Some c => js_parse_int c end in
  if js_is_nan count then inl "Query parameter count not a number"
  else inr (RequestLast streamId partition count).

(** [x !== undefined && !isValidUserId(x)] *)
Definition bad_publisher (publisherId : option string) : bool :=
  match publisherId with Some p => negb (is_valid_user_id p) | None => false end.
Definition user_id_of (publisherId : option string) : option string := to_lower <$> publisherId.

Definition handleFrom (q : query) (streamId : string) (partition : jsnum) : handled :=
  let fromSequenceNumber := default (JFin MIN_SEQUENCE_NUMBER_VALUE) (parseIntIfExists (q_fromSequenceNumber q)) in
  match parseIntIfExists (q_fromTimestamp q) with
  | None => inl "Query parameter fromTimestamp required."
  | Some fromTimestamp =>
      if js_is_nan fromTimestamp then inl "Query parameter fromTimestamp not a number"
      else if bad_publisher (q_publisherId q) then inl "Query parameter publisherId not valid"
      else inr (RequestFrom streamId partition fromTimestamp fromSequenceNumber (user_id_of (q_publisherId q)))
  end.

(** JavaScript's truth of an optional string *)
Definition truthy (x : option string) : bool :=
  match x with Some s => negb (String.length s =? 0)%nat | None => false end.
Definition is_defined (x : option string) : bool := bool_decide (is_Some x).

Definition handleRange (q : query) (streamId : string) (partition : jsnum) : handled :=
  let fromSequenceNumber := default (JFin MIN_SEQUENCE_NUMBER_VALUE) (parseIntIfExists (q_fromSequenceNumber q)) in
  let toSequenceNumber := default (JFin MAX_SEQUENCE_NUMBER_VALUE) (parseIntIfExists (q_toSequenceNumber q)) in
  if is_defined (q_fromOffset q) || is_defined (q_toOffset q)
  then inl "Query parameters fromOffset and toOffset are no longer supported."
  else
    match parseIntIfExists (q_fromTimestamp q) with
    | None => inl "Query parameter fromTimestamp required."
    | Some fromTimestamp =>
        if js_is_nan fromTimestamp then inl "Query parameter fromTimestamp not a number"
        else
          match parseIntIfExists (q_toTimestamp q) with
          | None => inl "Query parameter toTimestamp required as well."
          | Some toTimestamp =>
              if js_is_nan toTimestamp then inl "Query parameter toTimestamp not a number"
              else if (truthy (q_publisherId q) && negb (truthy (q_msgChainId q)))
                      || (negb (truthy (q_publisherId q)) && truthy (q_msgChainId q))
              then inl "Invalid combination of publisherId and msgChainId"
              else if bad_publisher (q_publisherId q) then inl "Query parameter publisherId not valid"
              else inr (RequestRange streamId partition fromTimestamp fromSequenceNumber toTimestamp
                          toSequenceNumber (user_id_of (q_publisherId q)) (q_msgChainId q))
          end
    end.

(** [createHandler], up to the call of the storage *)
Definition query_handler (convert : string → outcome js_error message_view)
    (id partition resendType : string) (q : query) : string + (Format * storage_query) :=
  let p := js_parse_int partition in
  if js_is_nan p then inl "Path parameter partition not a number"
  else
    match getFormat convert (q_format q) with
    | None => inl "Query parameter format is invalid"
    | Some format =>
        match (if bool_decide (resendType = "last") then handleLast q id p
               else if bool_decide (resendType = "from") then handleFrom q id p
               else if bool_decide (resendType = "range") then handleRange q id p
               else inl "Unknown resend type") with
        | inl message => inl message
        | inr call => inr (format, call)
        end
    end.

Section serving.
  Context (convert : string → outcome js_error message_view).
  Context {Hp : Type} `{BH : !BucketHeap Hp}.
  Context {DB : Type} `{CC : !CassandraClient DB}.

(** The storage's answer; [None] for a number the database is not defined on. *)
Definition run_query (now : Z) (db : DB) (st : @storage Hp) (q : storage_query)
    : option (outcome js_error (list StoredMessage)) :=
  match q with
  | RequestLast s (JFin p) (JFin n) => Some (requestLast db s p n)
  | RequestFrom s (JFin p) (JFin t) (JFin sq) pub => Some (requestFrom now db st s p t sq pub)
  | RequestRange s (JFin p) (JFin t) (JFin sq) (JFin t') (JFin sq') pub chain =>
      Some (requestRange now db st s p t sq t' sq' pub chain)
  | _ => None
  end.

(** * The other read endpoints *)

Record stream_metadata := MkStreamMetadata {
  md_totalBytes : Z; md_totalMessages : Z; md_firstMessage : Z; md_lastMessage : Z
}.
(** dataMetadataEndpoint.ts: status 400, a rejected promise, or the figures *)
Definition metadata_handler (db : DB) (id partition : string) : string + outcome js_error stream_metadata :=
  match js_parse_int partition with
  | JFin p =>
      inr (let? totalBytes := getTotalBytesInStream db id p in
           let? totalMessages := getNumberOfMessagesInStream db id p in
           let? firstMessage := getFirstMessageTimestampInStream db id p in
           let? lastMessage := getLastMessageTimestampInStream db id p in
           Return (MkStreamMetadata totalBytes totalMessages firstMessage lastMessage))%eff
  | _ => inl "Path parameter partition not a number"
  end.
End serving.

(** capabilitiesEndpoint.ts *)
Definition capabilities (signedReadsEnabled : bool) (version : string) : json :=
  JObject [("name", JString "pombo-storage-node"); ("version", JString version);
           ("features", JArray (JString <$> (["metadata"; "storedAt"; "purge"; "stored"]
                                             ++ if signedReadsEnabled then ["signedReads"] else [])))].

(** * Facts *)

(** ** The body *)

(** The text of a response: what the chunks of a JSON format concatenate to *)
Fixpoint body_text (l : list chunk) : option string :=
  match l with
  | [] => Some ""
  | Text s :: l => rest ← body_text l; Some (s +:+ rest)
  | Bytes _ :: _ => None
  end.
Fixpoint body_bytes (l : list chunk) : option bytes :=
  match l with
  | [] => Some []
  | Bytes b :: l => rest ← body_bytes l; Some (b ++ rest)
  | Text _ :: _ => None
  end.

(** All messages formatted, or the error of the first that cannot be *)
Fixpoint format_all (f : StoredMessage → outcome js_error json) (data : list StoredMessage)
    : outcome js_error (list json) :=
  match data with
  | [] => Return []
  | m :: data => (let? v := f m in let? vs := format_all f data in Return (v :: vs))%eff
  end.

Lemma respond_cons f first m data c chunks err :
  formatMessage f m = Return c → respond f false data = (chunks, err) →
  respond f first (m :: data) = ((if first then push_opt (header f) else push_opt (delimiter f)) ++ c :: chunks, err).
Proof. intros Hc Hr. cbn [respond]. unfold transform. rewrite Hc. simpl. rewrite Hr. by rewrite <-app_assoc. Qed.

Lemma json_format_message f m v :
  f m = Return v → formatMessage (createJsonFormat (stringify f)) m = Return (Text (json_print v)).
Proof. intros Hv. simpl. unfold stringify. by rewrite Hv. Qed.

Lemma format_all_cons f m data vs :
  format_all f (m :: data) = Return vs →
  ∃ v vs', vs = v :: vs' ∧ f m = Return v ∧ format_all f data = Return vs'.
Proof.
  simpl. destruct (f m) as [v|]; [|done]. simpl. destruct (format_all f data) as [vs'|]; [|done].
  intros [= <-]. eauto.
Qed.

Lemma respond_json_rest f data vs :
  format_all f data = Return vs →
  ∃ chunks, respond (createJsonFormat (stringify f)) false data = (chunks, None) ∧
    body_text chunks = Some (foldr (λ v acc, "," +:+ json_print v +:+ acc) "]" vs).
Proof.
  revert vs. induction data as [|m data IH]; intros vs.
  { intros [= <-]. eexists. split; [done|]. done. }
  intros (v & vs' & -> & Hv & Hvs)%format_all_cons. destruct (IH _ Hvs) as (chunks & Hr & Hb).
  eexists. split; [by eapply respond_cons, Hr; apply json_format_message|]. simpl. by rewrite Hb.
Qed.

Lemma join_array_text v vs :
  json_print v +:+ foldr (λ v acc, "," +:+ json_print v +:+ acc) "]" vs =
  string_join "," (json_print <$> v :: vs) +:+ "]".
Proof.
  revert v. induction vs as [|v' vs IH]; intros v; [done|].
  rewrite fmap_cons, string_join_cons by done. cbn [foldr]. rewrite IH. by rewrite !string_app_assoc.
Qed.

Lemma respond_json f data vs :
  format_all f data = Return vs →
  ∃ chunks, respond (createJsonFormat (stringify f)) true data = (chunks, None) ∧
    body_text chunks = Some (json_print (JArray vs)).
Proof.
  destruct data as [|m data].
  { intros [= <-]. eexists. split; [done|]. done. }
  intros (v & vs' & -> & Hv & Hvs)%format_all_cons.
  destruct (respond_json_rest _ _ _ Hvs) as (chunks & Hr & Hb).
  eexists. split; [by eapply respond_cons, Hr; apply json_format_message|].
  cbn [push_opt header createJsonFormat app body_text]. rewrite Hb. cbn [mbind option_bind].
  f_equal. by rewrite join_array_text.
Qed.

Lemma respond_raw data bs first :
  encode_frames ((λ m, payload_bytes (s_payload m)) <$> data) = Return bs →
  ∃ chunks, respond (createBinaryFormat raw_frame) first data = (chunks, None) ∧ body_bytes chunks = Some bs.
Proof.
  revert bs first. induction data as [|m data IH]; intros bs first.
  { intros [= <-]. exists []. by destruct first. }
  simpl. destruct (toLengthPrefixedFrame _) as [fr|] eqn:Hf; [|done]. simpl.
  destruct (encode_frames _) as [rest|]; [|done]. simpl. intros [= <-].
  destruct (IH _ false eq_refl) as (chunks & Hr & Hb). eexists. split.
  { apply (respond_cons (createBinaryFormat raw_frame) first m data (Bytes fr) chunks None); [|done].
    simpl. unfold raw_frame. by rewrite Hf. }
  destruct first; simpl; by rewrite Hb.
Qed.

(** ** Requests *)

Definition whole (n : jsnum) : Prop := ∃ z, n = JFin z.
Definition canonical (pub : option string) : Prop := ∀ u, pub = Some u → to_user_id u = Return u.
(** A sequence number is what its parameter parses to, or the default. *)
Definition sequence_of (param : option string) (d : Z) (n : jsnum) : Prop :=
  match param with None => n = JFin d | Some x => n = js_parse_int x end.

(** A call the endpoint may make: whole numbers where it checks for a number, publishers in
    canonical form, and a chain only with its publisher unless it is empty *)
Definition call_checked (q : query) (call : storage_query) : Prop :=
  match call with
  | RequestLast _ p n => whole p ∧ whole n
  | RequestFrom _ p t sq pub =>
      whole p ∧ whole t ∧ canonical pub ∧ sequence_of (q_fromSequenceNumber q) MIN_SEQUENCE_NUMBER_VALUE sq
  | RequestRange _ p t sq t' sq' pub chain =>
      whole p ∧ whole t ∧ whole t' ∧ canonical pub ∧ (is_Some pub ↔ truthy chain = true) ∧
      sequence_of (q_fromSequenceNumber q) MIN_SEQUENCE_NUMBER_VALUE sq ∧
      sequence_of (q_toSequenceNumber q) MAX_SEQUENCE_NUMBER_VALUE sq'
  end.

Lemma parse_int_whole x : js_is_nan (js_parse_int x) = false → whole (js_parse_int x).
Proof.
  unfold whole, js_parse_int. match goal with |- js_is_nan (match ?r with _ => _ end) = _ → _ => destruct r end;
    [by eexists|done].
Qed.

Lemma user_id_canonical pub : bad_publisher pub = false → canonical (user_id_of pub).
Proof.
  intros Hb u. destruct pub as [p|]; [|done]. simpl in *. apply negb_false_iff in Hb. intros [= <-].
  unfold to_user_id, is_valid_user_id in *.
  apply andb_prop in Hb as [[H0 Hl]%andb_prop Hh].
  rewrite has_0x_prefix_to_lower, length_to_lower, Hl, string_drop_to_lower, forallb_hex_to_lower, Hh by done.
  by rewrite to_lower_idemp.
Qed.

Lemma sequence_of_param param d :
  sequence_of param d (default (JFin d) (parseIntIfExists param)).
Proof. by destruct param. Qed.

Lemma bad_publisher_truthy pub : bad_publisher pub = false → truthy pub = is_defined pub.
Proof. destruct pub as [[|c s]|]; done. Qed.

Lemma handleLast_checked q s p call : whole p → handleLast q s p = inr call → call_checked q call.
Proof.
  intros Hp. unfold handleLast. destruct (q_count q) as [c|]; [|by intros [= <-]; split; [|eexists]].
  destruct (js_is_nan _) eqn:Hn; [done|]. intros [= <-]. split; [done|by apply parse_int_whole].
Qed.

Lemma handleFrom_checked q s p call : whole p → handleFrom q s p = inr call → call_checked q call.
Proof.
  intros Hp. unfold handleFrom. destruct (q_fromTimestamp q) as [t|]; [|done]. simpl.
  destruct (js_is_nan _) eqn:Hn; [done|]. destruct (bad_publisher _) eqn:Hb; [done|]. intros [= <-].
  split_and!; [done|by apply parse_int_whole|by apply user_id_canonical|apply sequence_of_param].
Qed.

Lemma handleRange_checked q s p call : whole p → handleRange q s p = inr call → call_checked q call.
Proof.
  intros Hp. unfold handleRange. destruct (is_defined _ || _); [done|].
  destruct (q_fromTimestamp q) as [t|]; [|done]. simpl. destruct (js_is_nan (js_parse_int t)) eqn:Hn; [done|].
  destruct (q_toTimestamp q) as [t'|]; [|done]. simpl. destruct (js_is_nan (js_parse_int t')) eqn:Hn'; [done|].
  destruct (_ || _) eqn:Hc; [done|]. destruct (bad_publisher _) eqn:Hb; [done|]. intros [= <-].
  split_and!; [done|by apply parse_int_whole|by apply parse_int_whole|by apply user_id_canonical|
    |apply sequence_of_param|apply sequence_of_param].
  rewrite (bad_publisher_truthy _ Hb) in Hc. unfold user_id_of. rewrite fmap_is_Some.
  unfold is_defined in Hc. case_bool_decide as Hd; destruct (truthy (q_msgChainId q)); simpl in Hc; done.
Qed.

(** What the query endpoint asks of the storage and what it sends.  Every request is
    refused or turned into a call whose partition, count and timestamps are whole numbers
    and whose publisher is a valid user id in canonical form (sequence numbers are passed on
    unchecked); and the body is, for the object and metadata formats, one JSON array with
    the object of each message in order and, for raw, the frames of the payloads. *)
Theorem query_endpoint_spec convert id partition resendType q format call :
  query_handler convert id partition resendType q = inr (format, call) →
  call_checked q call ∧
  (∀ data vs,
     (default "object" (q_format q) = "object" ∧ format_all (object_json convert) data = Return vs) ∨
     (q_format q = Some "metadata" ∧ format_all (metadata_json convert) data = Return vs) →
     ∃ chunks, respond format true data = (chunks, None) ∧ body_text chunks = Some (json_print (JArray vs))) ∧
  (∀ data bs, q_format q = Some "raw" →
     encode_frames ((λ m, payload_bytes (s_payload m)) <$> data) = Return bs →
     ∃ chunks, respond format true data = (chunks, None) ∧ body_bytes chunks = Some bs).
Proof.
  unfold query_handler. destruct (js_is_nan _) eqn:Hp; [done|]. apply parse_int_whole in Hp.
  destruct (getFormat convert (q_format q)) as [f|] eqn:Hf; [|done].
  destruct (if bool_decide (resendType = "last") then _ else _) as [|c] eqn:Hh; [done|]. intros [= <- <-].
  split_and!.
  - repeat case_bool_decide; [by eapply handleLast_checked|by eapply handleFrom_checked
      |by eapply handleRange_checked|done].
  - intros data vs [[Hq Hall]|[Hq Hall]]; unfold getFormat in Hf; rewrite Hq in Hf;
      simplify_eq/=; by apply respond_json.
  - intros data bs Hq Henc. unfold getFormat in Hf. rewrite Hq in Hf. simplify_eq/=. by apply respond_raw.
Qed.

(** A sequence number that is not a number reaches the storage. *)
Lemma sequence_number_unchecked convert :
  ∃ format, query_handler convert "s" "0" "from"
    (MkQuery None (Some "1000") None (Some "abc") None None None None None None) =
  inr (format, RequestFrom "s" (JFin 0) (JFin 1000) JNaN None).
Proof. eexists. reflexivity. Qed.

(** The names that [FORMATS] inherits are accepted as formats; the first message then fails. *)
Lemma inherited_name_is_a_format convert :
  getFormat convert (Some "constructor") = Some inherited_format ∧
  ∀ m data, ∃ err, respond inherited_format true (m :: data) = ([], Some err).
Proof. split; [reflexivity|]. intros m data. eexists. reflexivity. Qed.

(** An empty msgChainId passes the check of the endpoint and makes the storage throw. *)
Lemma empty_chain_throws convert {Hp : Type} `{BH : !BucketHeap Hp} {DB : Type} `{CC : !CassandraClient DB}
    now (db : DB) (st : @storage Hp) :
  ∃ format call e, query_handler convert "s" "0" "range"
    (MkQuery None (Some "1") (Some "2") None None None (Some "") None None None) = inr (format, call) ∧
  run_query now db st call = Some (Throw e).
Proof. eexists _, _, _. split; reflexivity. Qed.

(** ** Hexadecimal text *)

Lemma hex_value_char n : n < 16 → hex_value (hex_char n) = Some n.
Proof. intros Hn. do 16 (destruct n as [|n]; [reflexivity|]). lia. Qed.

Lemma hex_text_roundtrip b : is_bytes b → buffer_from_hex (hex_text b) = b ∧ String.length (hex_text b) = length b * 2.
Proof.
  induction 1 as [|x b Hx Hb [IH1 IH2]]; [done|]. cbn [hex_text]. unfold hex_byte.
  rewrite !string_app_cons, string_app_nil_l. cbn [buffer_from_hex].
  assert (Z.to_nat (x `div` 16) < 16) as H1 by (Z.to_euclidean_division_equations; lia).
  assert (Z.to_nat (x `mod` 16) < 16) as H2 by (Z.to_euclidean_division_equations; lia).
  rewrite !hex_value_char, IH1 by done. split; [f_equal; Z.to_euclidean_division_equations; lia|].
  cbn [String.length]. rewrite IH2. simpl. lia.
Qed.

Lemma hexToBinary_roundtrip b prefix : is_bytes b → hexToBinary (binaryToHex b prefix) = Return b.
Proof.
  intros Hb. destruct (hex_text_roundtrip b Hb) as [H1 H2].
  assert (hexToBinary (binaryToHex b prefix) =
    let hex := hex_text b in
    if negb (String.length hex mod 2 =? 0)%nat then Throw (MkError None "Hex string length must be even")
    else let result := buffer_from_hex hex in
         if negb (String.length hex =? length result * 2)%nat
         then Throw (MkError None "Hex string input is likely malformed") else Return result) as ->.
  { unfold hexToBinary, binaryToHex. destruct prefix.
    - change (has_0x_prefix ("0x" +:+ hex_text b)) with true. reflexivity.
    - assert (has_0x_prefix (hex_text b) = false) as ->; [|done]. destruct Hb as [|x b Hx]; [done|].
      cbn [hex_text]. unfold hex_byte. rewrite !string_app_cons.
      assert (∀ n, n < 16 → hex_char n ≠ Ascii.ascii_of_nat 120) as Hne
        by (intros n Hn; do 16 (destruct n as [|n]; [done|]); lia).
      specialize (Hne (Z.to_nat (x `mod` 16)) ltac:(Z.to_euclidean_division_equations; lia)).
      unfold has_0x_prefix. repeat case_match; try done; congruence. }
  cbv zeta. rewrite H1, H2, Nat.Div0.mod_mul, !Nat.eqb_refl. done.
Qed.

(** * A concrete query *)

Module DataQueryWitness.
Definition convert (payload : string) : outcome js_error message_view :=
  Return (MkMessageView "s" 0 1000 0 "0xab" "chain" 27 CONTENT_JSON ENCRYPTION_NONE []
            (Return (JObject [("text", JString payload)])) [1; 255]%Z None).
Definition q : query := MkQuery None (Some "1000") None None None (Some "0xAB") None None None (Some "metadata").
Definition data : list StoredMessage := [MkStoredMessage "hello" (Some 1005%Z)].
Definition objects : list json :=
  [JObject [("timestamp", JNum "1000"); ("sequenceNumber", JNum "0"); ("publisherId", JString "0xab");
            ("size", JNull); ("storedAt", JNum "1005")]].

Lemma query_endpoint_spec_witness :
  ∃ format, query_handler convert "s" "0" "from" q =
    inr (format, RequestFrom "s" (JFin 0) (JFin 1000) (JFin 0) (Some "0xab")) ∧
  ∃ chunks, respond format true data = (chunks, None) ∧ body_text chunks = Some (json_print (JArray objects)).
Proof.
  eexists. split; [reflexivity|].
  destruct (query_endpoint_spec convert "s" "0" "from" q _ _ eq_refl) as (_ & Hbody & _).
  apply (Hbody data objects). right. split; reflexivity.
Defined.
End DataQueryWitness.
