(* ===== verification/Watchdog.v ===== *)
(** The watchdog of the database connection
    (packages/node/src/plugins/storage/CassandraWatchdog.ts).

    Its repeated check is two events: the timer fires and a query is sent; the answer of
    the query arrives. *)

From S2P Require Import Prelude.

Set Default Proof Using "Type".

(** How the probe ends: an answer, no usable host, or another error *)
Inductive probe := Reachable | NoHostAvailable | OtherError.
#[export] Instance probe_eq_dec : EqDecision probe.
Proof. solve_decision. Defined.

Record CassandraWatchdogOptions := MkWatchdogOptions { checkIntervalMs : Z; maxUnreachableMs : Z }.

Record watchdog := MkWatchdog {
  wd_unreachableSince : option Z;
  wd_timeout : option Z;         (** when the timer fires, while it runs *)
  wd_checking : nat;             (** probes sent and not answered *)
  wd_stopped : bool
}.
Definition watchdog_new : watchdog := MkWatchdog None None 0 false.

Section watchdog.
  Context (opts : CassandraWatchdogOptions).

Definition wd_schedule (now : Z) (w : watchdog) : watchdog :=
  if wd_stopped w then w
  else MkWatchdog (wd_unreachableSince w) (Some (now + checkIntervalMs opts)%Z) (wd_checking w) false.

Definition wd_start (now : Z) (w : watchdog) : watchdog :=
  wd_schedule now (MkWatchdog (wd_unreachableSince w) (wd_timeout w) (wd_checking w) false).

Definition wd_stop (w : watchdog) : watchdog :=
  MkWatchdog (wd_unreachableSince w) None (wd_checking w) true.

(** The end of [check]: the new state, and whether [onUnreachable] was called *)
Definition check_end (now : Z) (p : probe) (w : watchdog) : watchdog * bool :=
  match p with
  | NoHostAvailable =>
      let since := default now (wd_unreachableSince w) in
      let w := MkWatchdog (Some since) (wd_timeout w) (wd_checking w) (wd_stopped w) in
      if (maxUnreachableMs opts <=? now - since)%Z then (wd_stop w, true) else (w, false)
  | _ => (MkWatchdog None (wd_timeout w) (wd_checking w) (wd_stopped w), false)
  end.

Inductive wd_event :=
  | Fires (now : Z)
  | Answered (now : Z) (p : probe)
  | Stopped.

(** [checkAndSchedule], in two halves, and [stop] *)
Definition wd_step (w : watchdog) (ev : wd_event) : watchdog * bool :=
  match ev with
  | Fires now =>
      match wd_timeout w with
      | Some t => if (t <=? now)%Z
                  then (MkWatchdog (wd_unreachableSince w) None (S (wd_checking w)) (wd_stopped w), false)
                  else (w, false)
      | None => (w, false)
      end
  | Answered now p =>
      match wd_checking w with
      | O => (w, false)
      | S n =>
          let '(w, gave_up) :=
            check_end now p (MkWatchdog (wd_unreachableSince w) (wd_timeout w) n (wd_stopped w)) in
          (wd_schedule now w, gave_up)
      end
  | Stopped => (wd_stop w, false)
  end.

(** A run: the last state, the answers it took in, and whether it gave up *)
Fixpoint wd_run (w : watchdog) (evs : list wd_event) : watchdog * list (Z * probe) * bool :=
  match evs with
  | [] => (w, [], false)
  | ev :: evs =>
      let answers := match ev with
                     | Answered now p => if (0 <? wd_checking w)%nat then [(now, p)] else []
                     | _ => []
                     end in
      let '(w, gave_up) := wd_step w ev in
      let '(w, answers', gave_up') := wd_run w evs in
      (w, answers ++ answers', gave_up || gave_up')
  end.

(** * The specification *)

(** When the outage began that lasts until the last answer: the time of the first answer
    of the unbroken run of no-host answers at the end *)
Definition outage (answers : list (Z * probe)) (since : Z) : Prop :=
  ∃ before during, answers = before ++ (since, NoHostAvailable) :: during ∧
    (∀ t p, last before = Some (t, p) → p ≠ NoHostAvailable) ∧
    Forall (λ a, a.2 = NoHostAvailable) during.

(** The node is given up when an answer finds an outage of the maximal length. *)
Definition gives_up (answers : list (Z * probe)) : Prop :=
  ∃ upto rest now since, answers = upto ++ rest ∧ last upto = Some (now, NoHostAvailable) ∧
    outage upto since ∧ (maxUnreachableMs opts ≤ now - since)%Z.

(** * Facts *)

(** What the state remembers of the answers *)
Definition remembers (answers : list (Z * probe)) (w : watchdog) : Prop :=
  match wd_unreachableSince w with
  | Some since => outage answers since
  | None => ∀ t p, last answers = Some (t, p) → p ≠ NoHostAvailable
  end.

Lemma remembers_answer answers w now p w' b :
  remembers answers w → check_end now p w = (w', b) →
  remembers (answers ++ [(now, p)]) w' ∧
  (b = true ↔ p = NoHostAvailable ∧ ∃ since, outage (answers ++ [(now, p)]) since ∧
     wd_unreachableSince w' = Some since ∧ (maxUnreachableMs opts ≤ now - since)%Z).
Proof.
  unfold remembers, check_end. intros Hw.
  destruct p; [| |intros [= <- <-]; simpl; split; [intros t p; rewrite last_snoc; by intros [= <- <-]|naive_solver]].
  { intros [= <- <-]; simpl; split; [intros t p; rewrite last_snoc; by intros [= <- <-]|naive_solver]. }
  cbv zeta. set (since := default now (wd_unreachableSince w)).
  assert (outage (answers ++ [(now, NoHostAvailable)]) since) as Hout.
  { subst since. destruct (wd_unreachableSince w) as [s|]; simpl.
    - destruct Hw as (bf & du & -> & Hbf & Hdu). exists bf, (du ++ [(now, NoHostAvailable)]).
      rewrite <-app_assoc. split; [done|]. split; [done|]. rewrite Forall_app. by repeat constructor.
    - exists answers, []. by repeat constructor. }
  destruct (maxUnreachableMs opts <=? now - since)%Z eqn:Hm; intros [= <- <-]; cbn [wd_unreachableSince wd_stop].
  - split; [done|]. apply Z.leb_le in Hm. split; [|done]. intros _. split; [done|]. by exists since.
  - split; [done|]. apply Z.leb_gt in Hm. split; [done|]. intros [_ (s & _ & [= <-] & ?)]. lia.
Qed.

Lemma outage_unique_le (answers b1 d1 b2 d2 k : list (Z * probe)) s1 s2 :
  answers = b1 ++ (s1, NoHostAvailable) :: d1 → b1 = b2 ++ k →
  (s2, NoHostAvailable) :: d2 = k ++ (s1, NoHostAvailable) :: d1 →
  (∀ t p, last b1 = Some (t, p) → p ≠ NoHostAvailable) → Forall (λ a, a.2 = NoHostAvailable) d2 → s1 = s2.
Proof.
  intros -> -> Heq Hlast Hall. destruct k as [|x k]; [by simplify_eq/=|]. exfalso.
  assert (Forall (λ a : Z * probe, a.2 = NoHostAvailable) (x :: k)) as Hk.
  { assert (Forall (λ a : Z * probe, a.2 = NoHostAvailable) ((x :: k) ++ (s1, NoHostAvailable) :: d1)) as H
      by (rewrite <-Heq; by constructor).
    by apply Forall_app in H as [H _]. }
  destruct (last (x :: k)) as [[t p]|] eqn:Hl; [|by apply last_None in Hl].
  apply (Hlast t p); [by rewrite last_app, Hl|].
  rewrite Forall_forall in Hk. apply (Hk (t, p)). by apply last_Some_elem_of.
Qed.

Lemma outage_unique answers s1 s2 : outage answers s1 → outage answers s2 → s1 = s2.
Proof.
  intros (b1 & d1 & H1 & Hb1 & Hd1) (b2 & d2 & H2 & Hb2 & Hd2).
  pose proof H2 as Heq. rewrite H1 in Heq. apply app_eq_inv in Heq as [(k & -> & Hk)|(k & -> & Hk)].
  - by eapply (outage_unique_le answers).
  - symmetry. by eapply (outage_unique_le answers).
Qed.

Lemma run_gives_up evs : ∀ w w' seen answers b,
  remembers seen w → wd_run w evs = (w', answers, b) →
  b = true ↔ ∃ upto rest now since, answers = upto ++ rest ∧ last upto = Some (now, NoHostAvailable) ∧
    outage (seen ++ upto) since ∧ (maxUnreachableMs opts ≤ now - since)%Z.
Proof.
  induction evs as [|ev evs IH]; intros w w' seen answers b Hw; simpl.
  { intros [= <- <- <-]. split; [done|]. intros (upto & rest & now & since & Heq & Hl & _).
    symmetry in Heq. apply app_eq_nil in Heq as [-> _]. done. }
  destruct (wd_step w ev) as [w1 b1] eqn:Hs. destruct (wd_run w1 evs) as [[w2 ans] b2] eqn:Hr.
  intros [= <- <- <-].
  destruct (match ev with Answered _ _ => 0 <? wd_checking w | _ => false end)%nat eqn:Hans.
  - destruct ev as [|now p|]; try done. rewrite Hans. simpl in Hs.
    destruct (wd_checking w) as [|n] eqn:Hn; [done|].
    destruct (check_end now p _) as [w3 b3] eqn:Hc. injection Hs as <- <-.
    assert (remembers seen (MkWatchdog (wd_unreachableSince w) (wd_timeout w) n (wd_stopped w))) as Hw0 by exact Hw.
    destruct (remembers_answer _ _ _ _ _ _ Hw0 Hc) as [Hw3 Hb3].
    assert (remembers (seen ++ [(now, p)]) (wd_schedule now w3)) as Hw1
      by (unfold wd_schedule; by destruct (wd_stopped w3)).
    rewrite orb_true_iff, (IH _ _ _ _ _ Hw1 Hr), Hb3. split.
    + intros [(-> & since & Ho & _ & Hm)|(upto & rest & now' & since & -> & Hl & Ho & Hm)].
      * exists [(now, NoHostAvailable)], ans, now, since. by split_and!.
      * exists ((now, p) :: upto), rest, now', since. rewrite <-app_assoc in Ho.
        split_and!; try done. rewrite last_cons, Hl. done.
    + intros (upto & rest & now' & since & Heq & Hl & Ho & Hm). destruct upto as [|a upto]; [done|].
      simpl in Heq. injection Heq as <- ->. destruct (decide (upto = [])) as [->|Hne].
      * left. simpl in Hl. injection Hl as -> ->. split; [done|].
        unfold remembers in Hw3. destruct (wd_unreachableSince w3) as [s3|] eqn:Hs3.
        -- exists s3. rewrite (outage_unique _ _ _ Hw3 Ho). by rewrite (outage_unique _ _ _ Hw3 Ho) in Hw3.
        -- exfalso. apply (Hw3 now' NoHostAvailable); [|done]. by rewrite last_snoc.
      * right. exists upto, rest, now', since. rewrite <-app_assoc. split_and!; try done.
        rewrite last_cons in Hl. destruct (last upto) eqn:Hlu; [done|by apply last_None in Hlu].
  - assert ((match ev with Answered now p => if (0 <? wd_checking w)%nat then [(now, p)] else [] | _ => [] end) = [])
      as -> by (destruct ev; try done; by rewrite Hans).
    assert (remembers seen w1 ∧ b1 = false) as [Hw1 ->].
    { destruct ev as [now|now p|]; simpl in Hs.
      - destruct (wd_timeout w) as [t|]; [destruct (t <=? now)%Z|]; by simplify_eq.
      - destruct (wd_checking w); [by simplify_eq|done].
      - by simplify_eq. }
    simpl. by apply (IH _ _ _ _ _ Hw1 Hr).
Qed.

(** the node gives up its process exactly for an outage that lasted: [onUnreachable] is
    called if and only if some answer of the probe finds that every answer since at least
    [maxUnreachableMs], itself and the first included, was that no host is available; any
    other answer, a timeout included, starts the count again. *)
Theorem watchdog_gives_up_iff now evs w answers gave_up :
  wd_run (wd_start now watchdog_new) evs = (w, answers, gave_up) →
  gave_up = true ↔ gives_up answers.
Proof. apply (run_gives_up _ _ _ []). by intros t p. Qed.

(** A check that is under way when the watchdog is stopped may still give up. *)
Lemma stopped_watchdog_gives_up t since now :
  (maxUnreachableMs opts ≤ now - since)%Z →
  snd (wd_run (MkWatchdog (Some since) t 1 false) [Stopped; Answered now NoHostAvailable]) = true.
Proof. intros Hm. simpl. rewrite (proj2 (Z.leb_le _ _)) by done. done. Qed.
End watchdog.

(** * The node's options (StoragePlugin.ts) *)

Module WatchdogWitness.
Definition opts : CassandraWatchdogOptions := MkWatchdogOptions (30 * 1000) (2 * 60 * 1000).
(** The driver never reconnects: the fifth check ends the process, two minutes after the first. *)
Definition outage_run : list wd_event :=
  [Fires 30000; Answered 30100 NoHostAvailable; Fires 60100; Answered 60200 NoHostAvailable;
   Fires 90200; Answered 90300 NoHostAvailable; Fires 120300; Answered 120400 NoHostAvailable;
   Fires 150400; Answered 150500 NoHostAvailable].
Definition outage_answers : list (Z * probe) :=
  [(30100, NoHostAvailable); (60200, NoHostAvailable); (90300, NoHostAvailable);
   (120400, NoHostAvailable); (150500, NoHostAvailable)]%Z.
Lemma watchdog_gives_up_iff_witness : gives_up opts outage_answers.
Proof.
  apply (watchdog_gives_up_iff opts 0 outage_run (fst (fst (wd_run opts (wd_start opts 0 watchdog_new) outage_run)))
    outage_answers true); vm_compute; reflexivity.
Defined.
End WatchdogWitness.
