(* ===== verification/Plugin.v ===== *)
(** The plugin (packages/node/src/plugins/storage/StoragePlugin.ts): what happens to a
    message that reaches the node.

    The node joins the assignments, the validation at ingest and the storage; polls,
    assignment events, requests to the read endpoints and messages interleave in any
    order.  The storage's own rounds are in Storage.v; here the node keeps the record of
    the messages it handed over. *)

From S2P Require Import Prelude.
From S2P Require Import Js.
From S2P Require Import TtlMap.
From S2P Require Import Identifiers.
From S2P Require Import Batch.
From S2P Require Import Bucket.
From S2P Require Import Storage.
From S2P Require Import Json.
From S2P Require Import KnownPublic.
From S2P Require Import PomboGates.
From S2P Require Import Ingest.
From S2P Require Import Config.

Set Default Proof Using "Type".

(** [StreamMessageType] of the SDK *)
Inductive StreamMessageType := MESSAGE | GROUP_KEY_REQUEST | GROUP_KEY_RESPONSE.
#[export] Instance StreamMessageType_eq_dec : EqDecision StreamMessageType.
Proof. solve_decision. Defined.

(** A message that arrives, and what the SDK says of it *)
Record incoming := MkIncoming {
  in_message : stream_message;
  in_type : StreamMessageType;
  in_validated : outcome js_error unit;
  in_recovered : outcome js_error string
}.

Definition isStorableMessage (msg : incoming) : bool := bool_decide (in_type msg = MESSAGE).
Definition getStreamPartID (msg : incoming) : string :=
  sm_streamId (in_message msg) +:+ "#" +:+ pretty (sm_partition (in_message msg)).
Definition ingest_of (msg : incoming) : ingest_message :=
  MkIngestMessage (sm_streamId (in_message msg)) (in_validated msg) (in_recovered msg).

Section plugin.
  Context (md5_int32 : string → Z) (chain_at : Z → chain).
  Context {MB : Type} `{EB : !ExpiringMap string bool MB ttlOf}.
  Context {MG : Type} `{EG : !ExpiringMap string (option GateInfo) MG gate_ttl}.
  Context {Hp : Type} `{BH : !BucketHeap Hp}.

Record plugin := MkPlugin {
  pl_storageConfig : storage_config;
  pl_validator : validator MB MG;
  pl_cassandra : @storage Hp;
  pl_calls : nat;                       (** calls of [store] so far *)
  pl_stored : list (Z * incoming)       (** the messages of those calls *)
}.

Definition plugin_new (cid : string) (size index : Z) (known : known_public) (st : @storage Hp) : plugin :=
  MkPlugin (config_new cid size index) (MkValidator (gates_new known) 0) st 0 [].

(** The message listener.  [validate] never rejects: every call it awaits is inside a [try]. *)
Definition messageListener (now : Z) (msg : incoming) (p : plugin) : plugin :=
  if isStorableMessage msg && hasStreamPart (getStreamPartID msg) (pl_storageConfig p) then
    let receivedAt := now in
    let v := MkValidator (gates_tick now (iv_gates (pl_validator p))) (iv_rejected (pl_validator p)) in
    match validate now (chain_at now) (ingest_of msg) v with
    | (v, Store) =>
        MkPlugin (pl_storageConfig p) v (store now (pl_calls p) (in_message msg) receivedAt (pl_cassandra p))
          (S (pl_calls p)) (pl_stored p ++ [(now, msg)])
    | (v, Reject _) => MkPlugin (pl_storageConfig p) v (pl_cassandra p) (pl_calls p) (pl_stored p)
    end
  else p.

Inductive plugin_event :=
  | MessageArrives (now : Z) (msg : incoming)
  | ConfigChanges (now : Z) (ev : config_event)
  | GatesAsked (now : Z) (call : gate_call)          (** by an endpoint *)
  | StorageRuns (now : Z) (ev : @storage_event Hp).

Definition event_time (ev : plugin_event) : Z :=
  match ev with MessageArrives now _ | ConfigChanges now _ | GatesAsked now _ | StorageRuns now _ => now end.

Definition plugin_step (p : plugin) (ev : plugin_event) : plugin :=
  match ev with
  | MessageArrives now msg => messageListener now msg p
  | ConfigChanges _ ev =>
      MkPlugin (config_step md5_int32 (pl_storageConfig p) ev) (pl_validator p) (pl_cassandra p)
        (pl_calls p) (pl_stored p)
  | GatesAsked now call =>
      MkPlugin (pl_storageConfig p)
        (MkValidator (gate_step chain_at now call (iv_gates (pl_validator p))) (iv_rejected (pl_validator p)))
        (pl_cassandra p) (pl_calls p) (pl_stored p)
  | StorageRuns _ ev =>
      MkPlugin (pl_storageConfig p) (pl_validator p) (fst (storage_step (pl_cassandra p) ev))
        (pl_calls p) (pl_stored p)
  end.

(** [stop], of what the model keeps: the caches are dropped, every part is left, the
    storage is closed. *)
Definition plugin_stop (writes : bool) (content : option string) (p : plugin) : plugin * option string * gset string :=
  let '(g, content) := gates_destroy writes (iv_gates (pl_validator p)) content in
  (MkPlugin (pl_storageConfig p) (MkValidator g (iv_rejected (pl_validator p))) (close (pl_cassandra p))
     (pl_calls p) (pl_stored p), content, getStreamParts (pl_storageConfig p)).

(** * What is stored *)

(** The config events among the first events of a run *)
Definition config_events (evs : list plugin_event) : list config_event :=
  omap (λ ev, match ev with ConfigChanges _ e => Some e | _ => None end) evs.

(** The message [msg] had every reason to be stored at [now], after [before]. *)
Definition rightly_stored (cid : string) (size index : Z) (before : list plugin_event) (now : Z) (msg : incoming)
    : Prop :=
  in_type msg = MESSAGE ∧
  latest (omap (update_of md5_int32 cid size index) (config_events before)) (getStreamPartID msg) ∧
  is_mine md5_int32 size index (getStreamPartID msg) = Return true ∧
  may_store chain_at now (ingest_of msg).
(** It had a reason not to be. *)
Definition rightly_dropped (cid : string) (size index : Z) (before : list plugin_event) (now : Z) (msg : incoming)
    : Prop :=
  in_type msg ≠ MESSAGE ∨
  ¬ latest (omap (update_of md5_int32 cid size index) (config_events before)) (getStreamPartID msg) ∨
  ∃ reason, must_reject chain_at now (ingest_of msg) reason.

(** A run with its verdicts: each message that arrives is stored or dropped. *)
Inductive plugin_run (cid : string) (size index : Z) (p0 : plugin) : list plugin_event → Z → plugin → Prop :=
  | run_start now : plugin_run cid size index p0 [] now p0
  | run_event evs t p ev :
      plugin_run cid size index p0 evs t p → (t ≤ event_time ev)%Z →
      (∀ now call u, ev = GatesAsked now call → call_user call = Some u → user_ok u) →
      plugin_run cid size index p0 (evs ++ [ev]) (event_time ev) (plugin_step p ev).

Record plugin_inv (cid : string) (size index : Z) (known : known_public) (evs : list plugin_event) (t : Z)
    (p : plugin) : Prop := {
  pi_config : pl_storageConfig p =
    foldl (config_step md5_int32) (config_new cid size index) (config_events evs);
  pi_gates : gates_inv chain_at known t (iv_gates (pl_validator p));
  pi_stored : ∀ now msg, (now, msg) ∈ pl_stored p →
    ∃ before after, evs = before ++ MessageArrives now msg :: after ∧
      rightly_stored cid size index before now msg;
  pi_dropped : ∀ before now msg after, evs = before ++ MessageArrives now msg :: after →
    (now, msg) ∈ pl_stored p ∨ rightly_dropped cid size index before now msg
}.

Lemma config_events_snoc evs ev :
  config_events (evs ++ [ev]) =
  config_events evs ++ match ev with ConfigChanges _ e => [e] | _ => [] end.
Proof. unfold config_events. rewrite omap_app. by destruct ev. Qed.

Lemma snoc_split (evs before after : list plugin_event) ev x :
  evs ++ [ev] = before ++ x :: after →
  (after = [] ∧ evs = before ∧ ev = x) ∨ ∃ after', after = after' ++ [ev] ∧ evs = before ++ x :: after'.
Proof.
  destruct after as [|y after _] using rev_ind; intros Heq.
  - left. by apply app_inj_tail in Heq as [-> ->].
  - right. exists after. rewrite app_comm_cons, app_assoc in Heq. by apply app_inj_tail in Heq as [-> ->].
Qed.

(** An event that is no arrival: it stores and drops nothing. *)
Lemma plugin_inv_other cid size index known evs t p p' ev t' :
  plugin_inv cid size index known evs t p → (∀ now msg, ev ≠ MessageArrives now msg) →
  pl_storageConfig p' = foldl (config_step md5_int32) (config_new cid size index) (config_events (evs ++ [ev])) →
  gates_inv chain_at known t' (iv_gates (pl_validator p')) → pl_stored p' = pl_stored p →
  plugin_inv cid size index known (evs ++ [ev]) t' p'.
Proof.
  intros [_ _ Hs Hd] Hev Hc Hg Hst. split; [done|done|..].
  - intros now msg. rewrite Hst. intros (before & after & -> & ?)%Hs.
    exists before, (after ++ [ev]). by rewrite <-app_assoc.
  - intros before now msg after [(_ & _ & ->)|(after' & -> & ->)]%snoc_split; [by edestruct Hev|].
    rewrite Hst. by eapply Hd.
Qed.

Lemma gates_inv_mono known t t' (g : gates MB MG) :
  (t ≤ t')%Z → gates_inv chain_at known t g → gates_inv chain_at known t' g.
Proof.
  intros Hle [H1 H2 H3 H4 H5 H6]. split; try (by eapply cache_inv_mono).
  intros s Hs. destruct (H6 s Hs) as [[?|?] ?]; split; auto. right. by eapply seen_public_mono.
Qed.

Lemma plugin_inv_message cid size index known evs t p now msg :
  plugin_inv cid size index known evs t p → (t ≤ now)%Z →
  plugin_inv cid size index known (evs ++ [MessageArrives now msg]) now (messageListener now msg p).
Proof.
  intros [Hc Hg Hs Hd] Hle.
  assert (∀ part, hasStreamPart part (pl_storageConfig p) = true ↔
    latest (omap (update_of md5_int32 cid size index) (config_events evs)) part) as Hlatest.
  { intros part. rewrite Hc. apply (assignments_spec md5_int32 cid size index (config_events evs)). }
  assert (∀ part, hasStreamPart part (pl_storageConfig p) = true → is_mine md5_int32 size index part = Return true)
    as Hmine.
  { intros part Hin%bool_decide_eq_true. rewrite Hc in Hin.
    by apply (assignments_spec md5_int32 cid size index (config_events evs)). }
  assert (∀ p', pl_storageConfig p' = pl_storageConfig p → gates_inv chain_at known now (iv_gates (pl_validator p')) →
    (pl_stored p' = pl_stored p ∧ rightly_dropped cid size index evs now msg ∨
     pl_stored p' = pl_stored p ++ [(now, msg)] ∧ rightly_stored cid size index evs now msg) →
    plugin_inv cid size index known (evs ++ [MessageArrives now msg]) now p') as Hstep.
  { intros p' Hc' Hg' Hcase. split; [by rewrite Hc', Hc, config_events_snoc, app_nil_r|done|..].
    - assert (∀ x m, (x, m) ∈ pl_stored p → ∃ before after,
        evs ++ [MessageArrives now msg] = before ++ MessageArrives x m :: after ∧
        rightly_stored cid size index before x m) as Hold.
      { intros x m (before & after & -> & ?)%Hs. exists before, (after ++ [MessageArrives now msg]).
        by rewrite <-app_assoc. }
      intros x m. destruct Hcase as [[-> _]|[-> Hr]]; [apply Hold|].
      intros [Hin|Hin%list_elem_of_singleton]%elem_of_app; [by apply Hold|]. simplify_eq. by exists evs, [].
    - intros before x m after [(-> & -> & [= -> ->])|(after' & -> & ->)]%snoc_split.
      + destruct Hcase as [[_ ?]|[-> _]]; [by right|left]. apply elem_of_app. right. by left.
      + destruct (Hd before x m after' eq_refl) as [Hin|?]; [left|by right].
        destruct Hcase as [[-> _]|[-> _]]; [done|]. apply elem_of_app. by left. }
  unfold messageListener. destruct (isStorableMessage msg) eqn:Hty; simpl.
  2: { apply Hstep; [done|by eapply gates_inv_mono|]. left. split; [done|]. left.
       by apply bool_decide_eq_false in Hty. }
  apply bool_decide_eq_true in Hty. destruct (hasStreamPart _ _) eqn:Hpart.
  2: { apply Hstep; [done|by eapply gates_inv_mono|]. left. split; [done|]. right. left.
       by rewrite <-Hlatest, Hpart. }
  destruct (validate _ _ _ _) as [v verdict] eqn:Hv.
  apply (validate_ok _ known) in Hv as [[Hg' _] Hverdict]; [|by eapply gates_tick_ok].
  destruct verdict as [|reason]; destruct Hverdict as [Hwhy _]; apply Hstep; try done.
  - right. split; [done|]. split_and!; [done|by apply Hlatest|by apply Hmine|done].
  - left. split; [done|]. right. right. by exists reason.
Qed.

Lemma plugin_run_inv cid size index known st evs t p :
  plugin_run cid size index (plugin_new cid size index known st) evs t p →
  plugin_inv cid size index known evs t p.
Proof.
  induction 1 as [now|evs t p ev _ IH Hle Hu].
  { split; [done| |by intros ? ? ?%not_elem_of_nil|by intros [] ? ? ? ?].
    apply (gates_reach_inv _ _ now), reach_new. }
  destruct ev as [now msg|now ce|now call|now se]; simpl in *.
  - by eapply plugin_inv_message.
  - eapply plugin_inv_other; [done|done| | |done].
    + rewrite config_events_snoc, foldl_app. simpl. by rewrite <-(pi_config _ _ _ _ _ _ _ IH).
    + eapply gates_inv_mono, (pi_gates _ _ _ _ _ _ _ IH). done.
  - eapply plugin_inv_other; [done|done| | |done].
    + rewrite config_events_snoc, app_nil_r. apply (pi_config _ _ _ _ _ _ _ IH).
    + eapply gate_step_inv, (pi_gates _ _ _ _ _ _ _ IH); [done|]. intros u. by apply (Hu now).
  - eapply plugin_inv_other; [done|done| | |done].
    + rewrite config_events_snoc, app_nil_r. apply (pi_config _ _ _ _ _ _ _ IH).
    + eapply gates_inv_mono, (pi_gates _ _ _ _ _ _ _ IH). done.
Qed.

(** C1: what the node stores, end to end.  Over any interleaving of messages, assignment polls and
    events, requests and storage rounds, a message handed to the storage had arrived, was a
    data message of a stream part that the newest readable assignments give to this node and
    that hashes to its place in the cluster, and nothing definite spoke against it; and every
    message that arrived was handed over, or was no data message, or of a part the node does
    not have, or had a definite reason to be rejected. *)
Theorem node_stores_what_it_should cid size index known st evs t p :
  plugin_run cid size index (plugin_new cid size index known st) evs t p →
  (∀ now msg, (now, msg) ∈ pl_stored p →
     ∃ before after, evs = before ++ MessageArrives now msg :: after ∧
       rightly_stored cid size index before now msg) ∧
  (∀ before now msg after, evs = before ++ MessageArrives now msg :: after →
     (now, msg) ∈ pl_stored p ∨ rightly_dropped cid size index before now msg).
Proof. intros Hrun%plugin_run_inv. by destruct Hrun. Qed.
End plugin.

(** * A concrete run *)

Module PluginWitness.
Import BucketWitness.
Definition md5_int32 (s : string) : Z := 0.
Definition no_gate (t : Z) : chain :=
  MkChain (λ _, Return None) (λ _, MkGateContract (Return "") (Return false) (Return 0%Z) (λ _, Return false) (λ _, Return false))
    (λ _, Return true) (λ _ _, Return false) (λ _ _, Return false).
Definition plug : Type := @plugin (ttl_map string bool) (ttl_map string (option GateInfo)) (list (Z * nat)).
Definition msg (id : string) : incoming :=
  MkIncoming (StreamMessage id 0 1000 0 "0xab" "chain" "bytes") MESSAGE (Return tt) (Return "0xab").
Definition assigned : config_event := Polled (Return ([Return ["a/x-1#0"]], 10%Z)).
Definition p0 : plug := plugin_new "0xme" 1 0 (kp_new None) (storage_new default_bucket_options false).
Definition p1 : plug := plugin_step md5_int32 no_gate p0 (ConfigChanges 5 assigned).
Definition p2 : plug := plugin_step md5_int32 no_gate p1 (MessageArrives 1000 (msg "a/x-1")).
Definition p3 : plug := plugin_step md5_int32 no_gate p2 (MessageArrives 1001 (msg "other")).
Definition before : list (@plugin_event (list (Z * nat))) :=
  [ConfigChanges 5 assigned] ++ [MessageArrives 1000 (msg "a/x-1")].
Definition evs : list (@plugin_event (list (Z * nat))) := before ++ [MessageArrives 1001 (msg "other")].

Lemma p3_run : plugin_run md5_int32 no_gate "0xme" 1 0 p0 evs 1001 p3.
Proof.
  apply (run_event _ _ _ _ _ _ _ 1000 p2 (MessageArrives 1001 (msg "other"))); [|simpl; lia|done].
  apply (run_event _ _ _ _ _ _ _ 5 p1 (MessageArrives 1000 (msg "a/x-1"))); [|simpl; lia|done].
  apply (run_event _ _ _ _ _ _ [] 0 p0 (ConfigChanges 5 assigned)); [constructor|simpl; lia|done].
Qed.

Lemma node_stores_what_it_should_witness :
  pl_stored p3 = [(1000%Z, msg "a/x-1")] ∧
  rightly_dropped md5_int32 no_gate "0xme" 1 0 before 1001 (msg "other").
Proof.
  assert (pl_stored p3 = [(1000%Z, msg "a/x-1")]) as Hst by (vm_compute; reflexivity). split; [exact Hst|].
  destruct (node_stores_what_it_should md5_int32 no_gate "0xme" 1 0 (kp_new None)
    (storage_new default_bucket_options false) evs 1001 p3 p3_run) as [_ Hd].
  destruct (Hd _ _ _ [] eq_refl) as [Hin|Hdrop]; [|exact Hdrop].
  rewrite Hst in Hin. apply list_elem_of_singleton in Hin. discriminate Hin.
Defined.
End PluginWitness.
