(* ===== verification/Duplicates.v ===== *)
(** Duplicate detection of the network layer
    (packages/trackerless-network/src/content-delivery-layer/DuplicateMessageDetector.ts):
    the gaps in the numbering of a message chain that may still hold unseen messages.

    [unseen] is the specification: the numbers that a gap covers. *)

From S2P Require Import Prelude.
From Stdlib Require Import Structures.Orders Structures.OrdersTac.
From stdpp Require Import sorting.

Set Default Proof Using "Type".

(** * Number pairs *)

Inductive number := Num (z : Z) | Infinity.
#[export] Instance number_eq_dec : EqDecision number.
Proof. solve_decision. Defined.

(** [a > b] *)
Definition number_gt (a b : number) : bool :=
  match a, b with
  | Num x, Num y => (y <? x)%Z
  | Infinity, Num _ => true
  | _, Infinity => false
  end.

Record NumberPair := MkPair { np_a : number; np_b : number }.
#[export] Instance NumberPair_eq_dec : EqDecision NumberPair.
Proof. solve_decision. Defined.

Definition compareTo (p q : NumberPair) : Z :=
  if number_gt (np_a p) (np_a q) then 1
  else if number_gt (np_a q) (np_a p) then -1
  else if number_gt (np_b p) (np_b q) then 1
  else if number_gt (np_b q) (np_b p) then -1
  else 0.
Definition greaterThan (p q : NumberPair) : bool := (compareTo p q =? 1)%Z.
Definition equalTo (p q : NumberPair) : bool := (compareTo p q =? 0)%Z.
Definition greaterThanOrEqual (p q : NumberPair) : bool := greaterThan p q || equalTo p q.

Definition infinite_pair : NumberPair := MkPair Infinity Infinity.

(** * The detector *)

Notation gap := (NumberPair * NumberPair)%type.

Inductive detector_error := InvalidNumberingError | GapMisMatchError.

Record detector := MkDetector { maxGapCount : nat; gaps : list gap }.
Definition detector_new (maxGapCount : nat) : detector := MkDetector maxGapCount [].

Definition dropLowestGapIfOverMaxGapCount (d : detector) : detector :=
  if (maxGapCount d <? length (gaps d))%nat then MkDetector (maxGapCount d) (tail (gaps d)) else d.

(** The loop from index [i - 1] down: what it does to the gaps, or that it returns false *)
Fixpoint mark_loop (i : nat) (gs : list gap) (previousNumber number : NumberPair)
    : outcome detector_error (option (list gap)) :=
  match i with
  | O => Return None
  | S i =>
      match gs !! i with
      | None => Return None                            (* no such index *)
      | Some (lowerBound, upperBound) =>
          if greaterThanOrEqual previousNumber upperBound then Return None
          else if greaterThanOrEqual previousNumber lowerBound then
            if greaterThan number upperBound then Throw GapMisMatchError
            else if equalTo previousNumber lowerBound then
              if equalTo number upperBound
              then Return (Some (take i gs ++ drop (S i) gs))
              else Return (Some (take i gs ++ (number, upperBound) :: drop (S i) gs))
            else if equalTo number upperBound
            then Return (Some (take i gs ++ (lowerBound, previousNumber) :: drop (S i) gs))
            else Return (Some (take i gs ++ (lowerBound, previousNumber) :: (number, upperBound) :: drop (S i) gs))
          else if greaterThan number lowerBound then Throw GapMisMatchError
          else mark_loop i gs previousNumber number
      end
  end.

Definition markAndCheck (previousNumber : option NumberPair) (number : NumberPair)
    : eff detector detector_error bool := λ d,
  if match previousNumber with Some p => greaterThanOrEqual p number | None => false end
  then (d, Throw InvalidNumberingError)
  else
    match gaps d with
    | [] => (MkDetector (maxGapCount d) [(number, infinite_pair)], Return true)
    | _ =>
        match previousNumber with
        | None =>
            match last (gaps d) with
            | Some (lowerBound, upperBound) =>
                if greaterThan number lowerBound
                then (MkDetector (maxGapCount d) (take (pred (length (gaps d))) (gaps d) ++ [(number, upperBound)]),
                      Return true)
                else (d, Return false)
            | None => (d, Return false)                (* the list is not empty *)
            end
        | Some previousNumber =>
            match mark_loop (length (gaps d)) (gaps d) previousNumber number with
            | Throw e => (d, Throw e)
            | Return None => (d, Return false)
            | Return (Some gs) => (dropLowestGapIfOverMaxGapCount (MkDetector (maxGapCount d) gs), Return true)
            end
        end
    end.

(** * The order of the pairs *)

Definition np_lt (p q : NumberPair) : Prop := compareTo q p = 1%Z.
Definition np_le (p q : NumberPair) : Prop := np_lt p q ∨ p = q.

Lemma number_gt_spec a b :
  number_gt a b = true ∧ number_gt b a = false ∧ a ≠ b ∨ number_gt a b = false ∧ number_gt b a = true ∧ a ≠ b
  ∨ number_gt a b = false ∧ number_gt b a = false ∧ a = b.
Proof.
  destruct a as [x|], b as [y|]; simpl; [|auto..].
  destruct (Z.lt_trichotomy x y) as [H|[->|H]].
  - right. left. assert (x <? y = true)%Z as -> by (by apply Z.ltb_lt).
    assert (y <? x = false)%Z as -> by (apply Z.ltb_ge; lia). split_and!; [done..|]. intros [=]. lia.
  - right. right. by rewrite Z.ltb_irrefl.
  - left. assert (y <? x = true)%Z as -> by (by apply Z.ltb_lt).
    assert (x <? y = false)%Z as -> by (apply Z.ltb_ge; lia). split_and!; [done..|]. intros [=]. lia.
Qed.

Lemma number_gt_trans a b c : number_gt a b = true → number_gt b c = true → number_gt a c = true.
Proof. destruct a, b, c; simpl; try done. rewrite !Z.ltb_lt. lia. Qed.
Lemma number_gt_irrefl a : number_gt a a = false.
Proof. destruct a; simpl; [apply Z.ltb_irrefl|done]. Qed.

Lemma np_lt_spec p q :
  np_lt p q ↔ number_gt (np_a q) (np_a p) = true ∨ np_a p = np_a q ∧ number_gt (np_b q) (np_b p) = true.
Proof.
  unfold np_lt, compareTo.
  destruct (number_gt_spec (np_a q) (np_a p)) as [(H1 & H2 & ?)|[(H1 & H2 & ?)|(H1 & H2 & Ha)]]; rewrite ?H1, ?H2.
  - naive_solver.
  - naive_solver congruence.
  - destruct (number_gt_spec (np_b q) (np_b p)) as [(H3 & H4 & ?)|[(H3 & H4 & ?)|(H3 & H4 & Hb)]];
      rewrite ?H3, ?H4; naive_solver.
Qed.

Lemma compareTo_eq p q : compareTo p q = 0%Z ↔ p = q.
Proof.
  unfold compareTo. destruct p as [a b], q as [a' b']; simpl.
  destruct (number_gt_spec a a') as [(H1 & H2 & ?)|[(H1 & H2 & ?)|(H1 & H2 & ->)]]; rewrite ?H1, ?H2;
    [naive_solver..|].
  destruct (number_gt_spec b b') as [(H3 & H4 & ?)|[(H3 & H4 & ?)|(H3 & H4 & ->)]]; rewrite ?H3, ?H4; naive_solver.
Qed.

(** The pairs as a total order, for the tactic [np_order] *)
Module NPOrder.
Definition t := NumberPair.
Definition eq := @eq NumberPair.
Definition lt := np_lt.
Definition le := np_le.
#[global] Instance eq_equiv : Equivalence eq := eq_equivalence.
#[global] Instance lt_strorder : StrictOrder lt.
Proof.
  split.
  - intros p. unfold complement, lt. rewrite np_lt_spec, !number_gt_irrefl. by intros [|[]].
  - intros p q r. unfold lt. rewrite !np_lt_spec. intros [H1|[H1 H1']] [H2|[H2 H2']].
    + left. by eapply number_gt_trans.
    + left. by rewrite <-H2.
    + left. by rewrite H1.
    + right. split; [congruence|by eapply number_gt_trans].
Qed.
#[global] Instance lt_compat : Proper (eq ==> eq ==> iff) lt.
Proof. by intros ? ? -> ? ? ->. Qed.
Lemma le_lteq x y : le x y ↔ lt x y ∨ eq x y.
Proof. done. Qed.
Lemma lt_total x y : lt x y ∨ eq x y ∨ lt y x.
Proof.
  unfold lt, eq. rewrite !np_lt_spec. destruct x as [a b], y as [a' b']; simpl.
  destruct (number_gt_spec a a') as [(H1 & _)|[(_ & H2 & _)|(_ & _ & ->)]]; [auto..|].
  destruct (number_gt_spec b b') as [(H1 & _)|[(_ & H2 & _)|(_ & _ & ->)]]; auto.
Qed.
End NPOrder.
Module NPTac := MakeOrderTac NPOrder NPOrder.
Ltac np_order :=
  change np_lt with NPOrder.lt in *; change np_le with NPOrder.le in *;
  change (@Logic.eq NumberPair) with NPOrder.eq in *; NPTac.order.

Lemma np_total p q : np_le p q ∨ np_lt q p.
Proof. destruct (NPOrder.lt_total p q) as [H|[H|H]]; [by left; left|by left; right|by right]. Qed.

Lemma greaterThan_spec p q : greaterThan p q = true ↔ np_lt q p.
Proof. unfold greaterThan, np_lt. apply Z.eqb_eq. Qed.
Lemma equalTo_spec p q : equalTo p q = true ↔ p = q.
Proof. unfold equalTo. rewrite Z.eqb_eq. apply compareTo_eq. Qed.
Lemma greaterThanOrEqual_spec p q : greaterThanOrEqual p q = true ↔ np_le q p.
Proof.
  unfold greaterThanOrEqual, np_le. rewrite orb_true_iff, greaterThan_spec, equalTo_spec. naive_solver.
Qed.
Lemma np_lt_infinite p : p ≠ infinite_pair → np_lt p infinite_pair.
Proof.
  rewrite np_lt_spec. destruct p as [[x|] [y|]]; simpl; auto.
Qed.

(** * The specification *)

(** What the gaps cover has not been seen; everything else counts as seen. *)
Definition unseen (gs : list gap) (x : NumberPair) : Prop := ∃ g, g ∈ gs ∧ np_lt g.1 x ∧ np_le x g.2.

Definition before_gap (g g' : gap) : Prop := np_le g.2 g'.1.

(** The invariants the source states: gaps are not empty, ascending and disjoint, and the
    last one is open. *)
Record gaps_ok (gs : list gap) : Prop := {
  go_nonempty g : g ∈ gs → np_lt g.1 g.2;
  go_sorted : StronglySorted before_gap gs;
  go_last : ∃ n, last gs = Some (n, infinite_pair)
}.

Definition finite (p : NumberPair) : Prop := np_lt p infinite_pair.
(** [x] is one of the numbers a message claims: those after its predecessor up to its own *)
Definition claims (previousNumber number x : NumberPair) : Prop := np_lt previousNumber x ∧ np_le x number.

(** A bound of a gap falls strictly inside what is claimed. *)
Definition mismatch (gs : list gap) (previousNumber number : NumberPair) : Prop :=
  ∃ g, g ∈ gs ∧ (np_lt previousNumber g.1 ∧ np_lt g.1 number ∨ np_lt previousNumber g.2 ∧ np_lt g.2 number).

Lemma unseen_app l k x : unseen (l ++ k) x ↔ unseen l x ∨ unseen k x.
Proof. unfold unseen. setoid_rewrite elem_of_app. naive_solver. Qed.
Lemma unseen_cons g l x : unseen (g :: l) x ↔ np_lt g.1 x ∧ np_le x g.2 ∨ unseen l x.
Proof. unfold unseen. setoid_rewrite elem_of_cons. naive_solver. Qed.
Lemma unseen_nil x : unseen [] x ↔ False.
Proof. unfold unseen. setoid_rewrite elem_of_nil. naive_solver. Qed.

(** A gap is replaced by parts of it. *)
Lemma gaps_ok_replace pre lo hi mid post :
  gaps_ok (pre ++ (lo, hi) :: post) →
  (∀ g, g ∈ mid → np_le lo g.1 ∧ np_lt g.1 g.2 ∧ np_le g.2 hi) → StronglySorted before_gap mid →
  (mid = [] → post ≠ []) → (∀ l, last mid = Some l → l.2 = hi ∨ post ≠ []) →
  gaps_ok (pre ++ mid ++ post).
Proof.
  intros [Hne Hs [n Hl]] Hmid Hsm Hm1 Hm2. apply StronglySorted_app in Hs as (Hcross & Hs1 & Hs2).
  apply StronglySorted_inv in Hs2 as [Hs2 Hall]. rewrite Forall_forall in Hall. split.
  - intros g. rewrite !elem_of_app. intros [Hg|[Hg|Hg]]; [|by apply Hmid|]; apply Hne; set_solver.
  - apply StronglySorted_app. split_and!; [|done|apply StronglySorted_app; split_and!; [|done|done]].
    + intros g g' Hg [Hg'|Hg']%elem_of_app; [|apply Hcross; [done|by right]].
      destruct (Hmid _ Hg') as (H1 & _). assert (before_gap g (lo, hi)) as H0 by (apply Hcross; [done|by left]).
      unfold before_gap in *. simpl in *. np_order.
    + intros g g' Hg Hg'. destruct (Hmid _ Hg) as (_ & _ & H2). specialize (Hall _ Hg').
      unfold before_gap in *. simpl in *. np_order.
  - rewrite last_app, last_cons in Hl. rewrite !last_app. destruct (last post) as [g|] eqn:Hp; [by exists n|].
    apply last_None in Hp as ->. destruct (last mid) as [l|] eqn:Hlm.
    + destruct (Hm2 l eq_refl) as [H|]; [|done]. simplify_eq. destruct l as [a b]. simpl in *. subst. eauto.
    + apply last_None in Hlm. by destruct (Hm1 Hlm).
Qed.

(** The tests of the source, the failed ones as well *)
Lemma greaterThan_false p q : greaterThan p q = false → np_le p q.
Proof. intros H%not_true_iff_false. rewrite greaterThan_spec in H. np_order. Qed.
Lemma greaterThanOrEqual_false p q : greaterThanOrEqual p q = false → np_lt p q.
Proof. intros H%not_true_iff_false. rewrite greaterThanOrEqual_spec in H. np_order. Qed.
Lemma equalTo_false p q : equalTo p q = false → p ≠ q.
Proof. intros H%not_true_iff_false. by rewrite equalTo_spec in H. Qed.

Lemma unseen_around pre lo hi post x :
  unseen (pre ++ (lo, hi) :: post) x ↔ unseen pre x ∨ (np_lt lo x ∧ np_le x hi) ∨ unseen post x.
Proof. by rewrite unseen_app, unseen_cons. Qed.

Lemma gap_nonempty pre lo hi post : gaps_ok (pre ++ (lo, hi) :: post) → np_lt lo hi.
Proof. intros Hok. apply (go_nonempty _ Hok (lo, hi)). set_solver. Qed.

Lemma unseen_before pre lo hi post x : gaps_ok (pre ++ (lo, hi) :: post) → unseen pre x → np_le x lo.
Proof.
  intros Hok (g & Hg & H1 & H2).
  pose proof (StronglySorted_app_1_elem_of _ _ _ _ _ (go_sorted _ Hok) Hg (list_elem_of_here _ _)) as H.
  unfold before_gap in H. simpl in H. np_order.
Qed.

Lemma unseen_after post number x : (∀ g, g ∈ post → np_le number g.1) → unseen post x → np_lt number x.
Proof. intros Hpost (g & Hg & H1 & H2). specialize (Hpost g Hg). np_order. Qed.

Section around.
  Context (pre post : list gap) (lo hi previousNumber number : NumberPair).
  Hypothesis (Hok : gaps_ok (pre ++ (lo, hi) :: post)).
  Hypothesis (Hpost : ∀ g, g ∈ post → np_le number g.1).

(** The gap gives way to what is left of it. *)
Lemma gap_replaced mid :
  np_lt previousNumber number → np_le lo previousNumber → np_le number hi →
  (∀ g, g ∈ mid → np_le lo g.1 ∧ np_lt g.1 g.2 ∧ np_le g.2 hi) → StronglySorted before_gap mid →
  (mid = [] → post ≠ []) → (∀ l, last mid = Some l → l.2 = hi ∨ post ≠ []) → length mid ≤ 2 →
  (∀ x, unseen mid x ↔ (np_lt lo x ∧ np_le x hi) ∧ ¬ claims previousNumber number x) →
  unseen (pre ++ (lo, hi) :: post) number ∧ gaps_ok (pre ++ mid ++ post) ∧
  length (pre ++ mid ++ post) ≤ S (length (pre ++ (lo, hi) :: post)) ∧
  ∀ x, unseen (pre ++ mid ++ post) x ↔ unseen (pre ++ (lo, hi) :: post) x ∧ ¬ claims previousNumber number x.
Proof using Hok Hpost.
  intros Hlt Hlo Hhi Hmid Hs Hm1 Hm2 Hlen Hx. split; [|split; [|split]].
  - rewrite unseen_around. right. left. split; np_order.
  - by eapply gaps_ok_replace.
  - rewrite !length_app. simpl. lia.
  - intros x. rewrite unseen_around, !unseen_app, Hx. unfold claims.
    pose proof (unseen_before _ _ _ _ x Hok). pose proof (unseen_after _ _ x Hpost). split; [|tauto].
    intros [H1|[H1|H1]]; [|tauto|]; (split; [tauto|]); intros [Hc1 Hc2].
    + assert (np_le x lo) by auto. np_order.
    + assert (np_lt number x) by auto. np_order.
Qed.
End around.

(** What the loop does below the gaps [post] it has passed *)
Lemma mark_loop_spec previousNumber number : ∀ pre post,
  gaps_ok (pre ++ post) → np_lt previousNumber number → finite number →
  (∀ g, g ∈ post → np_le number g.1) →
  match mark_loop (length pre) (pre ++ post) previousNumber number with
  | Return None => ∀ x, claims previousNumber number x → ¬ unseen (pre ++ post) x
  | Return (Some gs) => unseen (pre ++ post) number ∧ gaps_ok gs ∧ length gs ≤ S (length (pre ++ post)) ∧
      ∀ x, unseen gs x ↔ unseen (pre ++ post) x ∧ ¬ claims previousNumber number x
  | Throw _ => mismatch (pre ++ post) previousNumber number
  end.
Proof.
  intros pre. induction pre as [|[lo hi] pre IH] using rev_ind; intros post Hok Hlt Hfin Hpost.
  { simpl. intros x [Hx1 Hx2] H%(unseen_after post number _ Hpost). np_order. }
  rewrite length_app, Nat.add_1_r. cbn [mark_loop].
  rewrite <-!(app_assoc pre [(lo, hi)] post) in *. cbn [app] in *.
  rewrite (list_lookup_middle pre post (lo, hi) (length pre) eq_refl), take_app_length.
  assert (drop (S (length pre)) (pre ++ (lo, hi) :: post) = post) as ->
    by (rewrite <-Nat.add_1_r, <-drop_drop, drop_app_length; done).
  pose proof (gap_nonempty _ _ _ _ Hok) as Hne. pose proof (λ x, unseen_before _ _ _ _ x Hok) as Hbefore.
  pose proof (λ x, unseen_after post number x Hpost) as Hafter.
  destruct (greaterThanOrEqual previousNumber hi) eqn:E1.
  { apply greaterThanOrEqual_spec in E1. intros x [Hx1 Hx2]. rewrite unseen_around. intros [H|[[H1 H2]|H]].
    - specialize (Hbefore _ H). np_order.
    - np_order.
    - specialize (Hafter _ H). np_order. }
  apply greaterThanOrEqual_false in E1.
  destruct (greaterThanOrEqual previousNumber lo) eqn:E2; [apply greaterThanOrEqual_spec in E2
    |apply greaterThanOrEqual_false in E2].
  2: { destruct (greaterThan number lo) eqn:E3; [apply greaterThan_spec in E3|apply greaterThan_false in E3].
       - exists (lo, hi). split; [set_solver|]. by left.
       - apply IH; [done..|]. intros g [->|Hg]%elem_of_cons; [done|by apply Hpost]. }
  destruct (greaterThan number hi) eqn:E3; [apply greaterThan_spec in E3|apply greaterThan_false in E3].
  { exists (lo, hi). split; [set_solver|]. by right. }
  assert (number = hi → post ≠ []) as Hlast.
  { intros -> ->. destruct (go_last _ Hok) as [n Hl]. rewrite last_snoc in Hl. simplify_eq.
    unfold finite in Hfin. np_order. }
  destruct (equalTo previousNumber lo) eqn:E4; [apply equalTo_spec in E4|apply equalTo_false in E4];
    (destruct (equalTo number hi) eqn:E5; [apply equalTo_spec in E5|apply equalTo_false in E5]).
  - apply (gap_replaced _ _ _ _ _ _ Hok Hpost []); [done|done|done|by intros g ?%not_elem_of_nil|constructor
      |by intros _; apply Hlast|done|simpl; lia|].
    intros x. rewrite unseen_nil. unfold claims. split; [done|]. intros [[? ?] Hc]. apply Hc. split; np_order.
  - apply (gap_replaced _ _ _ _ _ _ Hok Hpost [(number, hi)]); [done|done|done| |repeat constructor|done
      |by intros l [= <-]; left|simpl; lia|].
    + intros g ->%list_elem_of_singleton. simpl. split_and!; np_order.
    + intros x. rewrite unseen_cons, unseen_nil. simpl. unfold claims.
      destruct (np_total x number); split; intros; split_and?; naive_solver np_order.
  - assert (np_lt lo previousNumber) as Hlp by np_order.
    apply (gap_replaced _ _ _ _ _ _ Hok Hpost [(lo, previousNumber)]); [done|done|done| |repeat constructor|done
      |by intros l _; right; apply Hlast|simpl; lia|].
    + intros g ->%list_elem_of_singleton. simpl. split_and!; np_order.
    + intros x. rewrite unseen_cons, unseen_nil. simpl. unfold claims.
      destruct (np_total x previousNumber); split; intros; split_and?; naive_solver np_order.
  - assert (np_lt lo previousNumber) as Hlp by np_order.
    apply (gap_replaced _ _ _ _ _ _ Hok Hpost [(lo, previousNumber); (number, hi)]); [done|done|done| | |done
      |by intros l [= <-]; left|simpl; lia|].
    + intros g [Hg|Hg%list_elem_of_singleton]%elem_of_cons; subst g; simpl; split_and!; np_order.
    + repeat constructor. unfold before_gap. simpl. np_order.
    + intros x. rewrite !unseen_cons, unseen_nil. simpl. unfold claims.
      destruct (np_total x previousNumber), (np_total x number); split; intros; split_and?; naive_solver np_order.
Qed.

(** ** The detector *)

Record detector_ok (d : detector) : Prop := {
  do_gaps : gaps_ok (gaps d);
  do_count : length (gaps d) ≤ maxGapCount d
}.

Lemma gaps_ok_tail g gs : gaps_ok (g :: gs) → gs ≠ [] → gaps_ok gs.
Proof.
  intros [Hne Hs [n Hl]] Hgs. split.
  - intros g' Hg'. apply Hne. by right.
  - by apply StronglySorted_inv in Hs as [? _].
  - exists n. rewrite last_cons in Hl. destruct (last gs) eqn:E; [done|]. by apply last_None in E.
Qed.

Lemma drop_lowest_ok m gs :
  gaps_ok gs → 1 ≤ m → length gs ≤ S m →
  let d := dropLowestGapIfOverMaxGapCount (MkDetector m gs) in
  detector_ok d ∧ maxGapCount d = m ∧ (∀ x, unseen (gaps d) x → unseen gs x) ∧
  (gaps d = gs ∨ length gs = S m ∧ ∃ lowest, gs = lowest :: gaps d).
Proof.
  intros Hok Hm Hlen. unfold dropLowestGapIfOverMaxGapCount. simpl.
  destruct (Nat.ltb_spec m (length gs)) as [Hover|Hover]; simpl.
  - destruct gs as [|g gs]; simpl in *; [lia|]. split_and!; [|done| |].
    + split; simpl; [|lia]. eapply gaps_ok_tail; [done|]. by intros ->; simpl in *; lia.
    + intros x Hx. apply unseen_cons. by right.
    + right. split; [lia|]. by exists g.
  - split_and!; [done..|by left].
Qed.

Lemma mark_with_predecessor d p n d' r :
  detector_ok d → 1 ≤ maxGapCount d → np_lt p n → finite n →
  markAndCheck (Some p) n d = (d', r) →
  match r with
  | Return new =>
      (new = true ↔ unseen (gaps d) n) ∧ detector_ok d' ∧
      (∀ x, unseen (gaps d') x → unseen (gaps d) x ∧ ¬ claims p n x) ∧
      ∃ rest, gaps_ok rest ∧ (∀ x, unseen rest x ↔ unseen (gaps d) x ∧ ¬ claims p n x) ∧
        (gaps d' = rest ∨
         length (gaps d) = maxGapCount d ∧ length rest = S (maxGapCount d) ∧ ∃ lowest, rest = lowest :: gaps d')
  | Throw GapMisMatchError => d' = d ∧ mismatch (gaps d) p n
  | Throw InvalidNumberingError => False
  end.
Proof.
  intros [Hok Hcount] Hm Hlt Hfin. unfold markAndCheck.
  destruct (greaterThanOrEqual p n) eqn:Hge; [apply greaterThanOrEqual_spec in Hge; np_order|].
  destruct (gaps d) as [|g0 gs0] eqn:Hgs; [destruct (go_last _ Hok) as [? [=]]|]. rewrite <-Hgs in *. clear Hgs g0 gs0.
  pose proof (mark_loop_spec p n (gaps d) []) as Hspec. rewrite app_nil_r in Hspec.
  specialize (Hspec Hok Hlt Hfin ltac:(by intros g ?%not_elem_of_nil)).
  assert (claims p n n) as Hself by (split; [done|by right]).
  destruct (mark_loop _ _ _ _) as [[gs|]|e] eqn:Hloop; intros [= <- <-].
  - destruct Hspec as (Hun & Hok' & Hlen & Hx).
    destruct (drop_lowest_ok (maxGapCount d) gs) as (Hd & Hmd & Hsub & Hsame); [done..|lia|].
    split_and!; [done|done| |].
    + intros x Hx'. by apply Hx, Hsub.
    + exists gs. split; [done|]. split; [done|]. destruct Hsame as [?|[? ?]]; [by left|right].
      split; [lia|]. by split.
  - assert (∀ x, unseen (gaps d) x → unseen (gaps d) x ∧ ¬ claims p n x) as Hsame.
    { intros x Hx'. split; [done|]. intros Hc. by destruct (Hspec x Hc). }
    split_and!; [|done|done|].
    + split; [done|]. intros Hun. by destruct (Hspec n Hself).
    + exists (gaps d). split; [done|]. split; [|by left]. intros x. split; [apply Hsame|by intros [? _]].
  - destruct e; [|done]. exfalso. revert Hloop. clear. generalize (length (gaps d)) as i.
    induction i as [|i IH]; simpl; [done|]. repeat case_match; try done.
Qed.

(** C19: duplicate detection with a predecessor.  In a state with gaps, a message that claims the
    numbers after its predecessor up to its own is new exactly if its number is not seen.
    What is left unseen is exactly what was unseen and is not claimed, in gaps that are
    ordered, disjoint and not empty ([rest]); the detector keeps all of these gaps, unless it
    held as many as its limit and they are one more: then it keeps all of them but the
    lowest.  It throws only if a gap begins or ends strictly inside of what is claimed, and
    then changes nothing. *)
Theorem markAndCheck_spec d p n d' r :
  detector_ok d → 1 ≤ maxGapCount d → np_lt p n → finite n →
  markAndCheck (Some p) n d = (d', r) →
  match r with
  | Return new =>
      (new = true ↔ unseen (gaps d) n) ∧ detector_ok d' ∧
      (∀ x, unseen (gaps d') x → unseen (gaps d) x ∧ ¬ claims p n x) ∧
      ∃ rest, gaps_ok rest ∧ (∀ x, unseen rest x ↔ unseen (gaps d) x ∧ ¬ claims p n x) ∧
        (gaps d' = rest ∨
         length (gaps d) = maxGapCount d ∧ length rest = S (maxGapCount d) ∧ ∃ lowest, rest = lowest :: gaps d')
  | Throw GapMisMatchError => d' = d ∧ mismatch (gaps d) p n
  | Throw InvalidNumberingError => False
  end.
Proof. apply mark_with_predecessor. Qed.

Lemma mark_first prev n d d' r :
  gaps d = [] → (∀ p, prev = Some p → np_lt p n) → markAndCheck prev n d = (d', r) →
  r = Return true ∧ d' = MkDetector (maxGapCount d) [(n, infinite_pair)].
Proof.
  intros Hgs Hlt. unfold markAndCheck. destruct prev as [p|].
  - destruct (greaterThanOrEqual p n) eqn:Hge; [apply greaterThanOrEqual_spec in Hge; specialize (Hlt p eq_refl); np_order|].
    rewrite Hgs. by intros [= <- <-].
  - rewrite Hgs. by intros [= <- <-].
Qed.

Lemma first_ok n m : finite n → 1 ≤ m → detector_ok (MkDetector m [(n, infinite_pair)]).
Proof.
  intros Hn Hm. split; simpl; [|lia]. split; [|repeat constructor|by exists n].
  by intros g ->%list_elem_of_singleton.
Qed.

(** A detector that expects what follows [p] takes the message whose predecessor is [p]. *)
Lemma mark_successor m p n :
  1 ≤ m → np_lt p n → finite n →
  markAndCheck (Some p) n (MkDetector m [(p, infinite_pair)]) = (MkDetector m [(n, infinite_pair)], Return true).
Proof.
  intros Hm Hlt Hfin. pose proof (Hfin : np_lt n infinite_pair) as Hinf.
  unfold markAndCheck. cbn [gaps last length mark_loop lookup list_lookup].
  destruct (greaterThanOrEqual p n) eqn:H1; [apply greaterThanOrEqual_spec in H1; np_order|].
  destruct (greaterThanOrEqual p infinite_pair) eqn:H2; [apply greaterThanOrEqual_spec in H2; np_order|].
  destruct (greaterThanOrEqual p p) eqn:H3.
  2: { apply not_true_iff_false in H3. rewrite greaterThanOrEqual_spec in H3. np_order. }
  destruct (greaterThan n infinite_pair) eqn:H4; [apply greaterThan_spec in H4; np_order|].
  rewrite (proj2 (equalTo_spec p p)) by done.
  destruct (equalTo n infinite_pair) eqn:H5; [apply equalTo_spec in H5; np_order|].
  unfold dropLowestGapIfOverMaxGapCount. cbn [take app drop length gaps maxGapCount].
  rewrite (proj2 (Nat.ltb_ge m 1)) by lia. done.
Qed.

(** Without a predecessor only numbers above the last gap's lower bound count as new. *)
Lemma mark_without_predecessor n d d' r :
  detector_ok d → finite n → markAndCheck None n d = (d', r) →
  r = Return false ∧ d' = d ∨
  r = Return true ∧ unseen (gaps d) n ∧ detector_ok d' ∧ maxGapCount d' = maxGapCount d ∧
  ∀ x, unseen (gaps d') x → unseen (gaps d) x ∧ x ≠ n.
Proof.
  intros [Hok Hcount] Hfin. unfold markAndCheck. destruct (go_last _ Hok) as [lo Hl].
  assert (∃ pre, gaps d = pre ++ [(lo, infinite_pair)]) as [pre Hgs] by (by apply last_Some in Hl).
  rewrite Hl. destruct (gaps d) as [|g0 gs0] eqn:Hd; [by destruct pre|]. rewrite <-Hd in *. clear Hd g0 gs0.
  rewrite Hgs in Hok. rewrite Hgs, length_app in Hcount. simpl in Hcount.
  destruct (greaterThan n lo) eqn:Hgt; intros [= <- <-]; [right|by left]. apply greaterThan_spec in Hgt.
  rewrite Hgs, length_app, Nat.add_1_r. cbn [length pred]. rewrite take_app_length. simpl.
  split_and!; [done| | |done|].
  - rewrite unseen_around. right. left. split; [done|by left].
  - split; simpl; [|rewrite length_app; simpl; lia].
    apply (gaps_ok_replace pre lo infinite_pair [(n, infinite_pair)] []); [done| |repeat constructor|done
      |by intros l [= <-]; left].
    intros g ->%list_elem_of_singleton. simpl. split_and!; [by left|done|by right].
  - intros x. rewrite unseen_around, unseen_app, unseen_cons, unseen_nil. simpl.
    intros [Hx|[[H1 H2]|[]]].
    + split; [by left|]. intros ->. pose proof (unseen_before _ _ _ _ _ Hok Hx). np_order.
    + split; [right; left; split; [np_order|done]|]. intros ->. np_order.
Qed.

(** A run over messages, with the numbers it found new *)
Fixpoint mark_all (msgs : list (option NumberPair * NumberPair)) (d : detector) : detector * list NumberPair :=
  match msgs with
  | [] => (d, [])
  | (prev, n) :: msgs =>
      let '(d, r) := markAndCheck prev n d in
      let '(d, new) := mark_all msgs d in
      (d, match r with Return true => n :: new | _ => new end)
  end.

(** What a run starts from: nothing marked, or a state where [seen] counts as seen *)
Definition has_seen (seen : NumberPair → Prop) (d : detector) : Prop :=
  (gaps d = [] ∧ ∀ x, ¬ seen x) ∨ (detector_ok d ∧ ∀ x, seen x → ¬ unseen (gaps d) x).

Lemma mark_seen prev n d d' r seen :
  has_seen seen d → 1 ≤ maxGapCount d → finite n → markAndCheck prev n d = (d', r) →
  (r = Return true → ¬ seen n) ∧ maxGapCount d' = maxGapCount d ∧
  has_seen (λ x, seen x ∨ r = Return true ∧ x = n) d'.
Proof.
  intros Hs Hm Hfin Hmark.
  assert (prev = None ∨ ∃ p, prev = Some p ∧ (np_lt p n ∨ np_le n p)) as Hprev.
  { destruct prev as [p|]; [right|by left]. exists p. split; [done|]. destruct (np_total n p); auto. }
  assert (∀ p, prev = Some p → np_le n p → r = Throw InvalidNumberingError ∧ d' = d) as Hinvalid.
  { intros p -> Hle. revert Hmark. unfold markAndCheck. rewrite (proj2 (greaterThanOrEqual_spec p n)) by done.
    by intros [= <- <-]. }
  assert ((∃ p, prev = Some p ∧ np_le n p) ∨ ∀ p, prev = Some p → np_lt p n) as [(p & Hp & Hle)|Hlt]
    by (destruct Hprev as [->|(p & -> & [?|?])]; naive_solver).
  { destruct (Hinvalid p Hp Hle) as [-> ->]. split_and!; [done|done|].
    destruct Hs as [[? Hs]|[? Hs]]; [left|right]; (split; [done|]); intros x; naive_solver. }
  destruct Hs as [[Hgs Hs]|[Hok Hs]].
  - destruct (mark_first _ _ _ _ _ Hgs Hlt Hmark) as [-> ->]. split_and!; [by intros _|done|]. right.
    split; [by apply first_ok|]. intros x [Hx|[_ ->]]; [by destruct (Hs x)|]. simpl.
    rewrite unseen_cons, unseen_nil. simpl. intros [[? _]|[]]. np_order.
  - destruct prev as [p|].
    + pose proof (Hlt p eq_refl) as Hpn. pose proof Hmark as Hspec.
      apply mark_with_predecessor in Hspec; [|done..].
      assert (maxGapCount d' = maxGapCount d) as Hmd.
      { revert Hmark. unfold markAndCheck, dropLowestGapIfOverMaxGapCount. repeat case_match; intros; by simplify_eq. }
      destruct r as [new|[]]; [|done|].
      * destruct Hspec as (Hnew & Hok' & Hsub & _). split_and!; [|done|].
        -- intros [= ->] Hsn. by apply (Hs n Hsn), Hnew.
        -- right. split; [done|]. intros x [Hx|[_ ->]] Hu; apply Hsub in Hu as [Hu Hc]; [by apply (Hs x)|].
           apply Hc. split; [done|by right].
      * destruct Hspec as [-> _]. split_and!; [done|done|]. right. split; [done|]. naive_solver.
    + destruct (mark_without_predecessor _ _ _ _ Hok Hfin Hmark) as [[-> ->]|(-> & Hu & Hok' & Hmd & Hsub)].
      * split_and!; [done|done|]. right. split; [done|]. naive_solver.
      * split_and!; [intros _ Hsn; by apply (Hs n)|done|]. right. split; [done|].
        intros x [Hx|[_ ->]] Hux; apply Hsub in Hux as [Hux ?]; [by apply (Hs x)|done].
Qed.

(** no number is found new twice.  Over any sequence of messages with finite numbers, in any
    order, with or without predecessors, with gaps forgotten and claims that throw, the numbers
    the detector reports as new are all different. *)
Theorem no_number_is_new_twice m msgs :
  1 ≤ m → Forall (λ e, finite e.2) msgs → NoDup (mark_all msgs (detector_new m)).2.
Proof.
  intros Hm Hfin.
  assert (∀ d seen, has_seen seen d → 1 ≤ maxGapCount d →
    NoDup (mark_all msgs d).2 ∧ ∀ x, x ∈ (mark_all msgs d).2 → ¬ seen x) as Hall.
  { induction msgs as [|[prev n] msgs IH]; intros d seen Hs Hd; simpl.
    { split; [constructor|]. by intros x ?%not_elem_of_nil. }
    apply Forall_cons in Hfin as [Hn Hfin]. simpl in Hn.
    destruct (markAndCheck prev n d) as [d1 r] eqn:Hmark.
    destruct (mark_seen _ _ _ _ _ _ Hs Hd Hn Hmark) as (Hnew & Hmd & Hs1).
    destruct (mark_all msgs d1) as [d2 new] eqn:Hrun.
    destruct (IH Hfin d1 _ Hs1 ltac:(lia)) as [Hnd Hnot]. rewrite Hrun in Hnd, Hnot. simpl in *.
    destruct r as [[]|]; [|by split; [|naive_solver]..]. split.
    - apply NoDup_cons. split; [|done]. intros Hin. apply (Hnot n Hin). by right.
    - intros x [->|Hin]%elem_of_cons; [by apply Hnew|naive_solver]. }
  apply (Hall (detector_new m) (λ _, False)); [by left; split; [|auto]|done].
Qed.

(** * Concrete messages *)

Module DuplicatesWitness.
Definition np (z : Z) : NumberPair := MkPair (Num z) (Num 0).
(** 1, then 5 after 4, then 2 after 1 in the gap, then 2 again, then 3 *)
Definition d2 : detector := (mark_all [(None, np 1); (Some (np 4), np 5)] (detector_new 10)).1.
Lemma d2_ok : detector_ok d2.
Proof.
  split; [|vm_compute; lia]. change (gaps d2) with [(np 1, np 4); (np 5, infinite_pair)]. split.
  - intros g [Hg|Hg%list_elem_of_singleton]%elem_of_cons; subst g; reflexivity.
  - repeat constructor. 
  - by exists (np 5).
Qed.

Lemma markAndCheck_spec_witness :
  snd (markAndCheck (Some (np 1)) (np 2) d2) = Return true ∧ unseen (gaps d2) (np 2).
Proof.
  assert (snd (markAndCheck (Some (np 1)) (np 2) d2) = Return true) as Hr by (vm_compute; reflexivity).
  split; [exact Hr|].
  destruct (markAndCheck_spec d2 (np 1) (np 2) (fst (markAndCheck (Some (np 1)) (np 2) d2)) (Return true) d2_ok)
    as (Hnew & _); [vm_compute; lia|reflexivity|reflexivity|rewrite <-Hr; apply surjective_pairing|].
  apply Hnew. reflexivity.
Defined.

Definition messages : list (option NumberPair * NumberPair) :=
  [(None, np 1); (Some (np 4), np 5); (Some (np 1), np 2); (Some (np 1), np 2); (Some (np 2), np 3); (None, np 5)].
Lemma no_number_is_new_twice_witness :
  (mark_all messages (detector_new 10)).2 = [np 1; np 5; np 2; np 3] ∧
  NoDup (mark_all messages (detector_new 10)).2.
Proof.
  split; [vm_compute; reflexivity|]. apply no_number_is_new_twice; [lia|]. repeat constructor.
Defined.
End DuplicatesWitness.
