(* ===== verification/FifoMap.v ===== *)
(** [FifoMapWithTTL] (packages/trackerless-network/src/content-delivery-layer/propagation): a map
    with a maximum size, whose oldest entry makes room for a new one, and whose entries are
    stale after a time.

    The linked list of the [yallist] package is an interface, [Yallist]; a node of it is known
    by the number [new Node] is given.  [fifo_view] is the specification: one list of keys,
    values and deadlines, oldest first. *)

From S2P Require Import Prelude.
From S2P Require Import JsMap.

Set Default Proof Using "Type".

(** * The linked list *)

Class Yallist (K Y : Type) := {
  yl_nodes : Y → list (nat * K);
  yl_create : Y;
  yl_pushNode : nat → K → Y → Y;
  yl_shift : Y → Y * option K;
  yl_removeNode : nat → Y → Y;
  yl_create_nodes : yl_nodes yl_create = [];
  yl_pushNode_nodes n k y : yl_nodes (yl_pushNode n k y) = yl_nodes y ++ [(n, k)];
  yl_shift_nodes y : yl_nodes (yl_shift y).1 = tail (yl_nodes y);
  yl_shift_key y : (yl_shift y).2 = snd <$> head (yl_nodes y);
  yl_removeNode_nodes n y :
    NoDup (yl_nodes y).*1 → n ∈ (yl_nodes y).*1 →
    yl_nodes (yl_removeNode n y) = filter (λ e, e.1 ≠ n) (yl_nodes y)
}.

#[export] Instance list_yallist K : Yallist K (list (nat * K)).
Proof.
  refine {| yl_nodes y := y; yl_create := []; yl_pushNode n k y := y ++ [(n, k)];
            yl_shift y := (tail y, snd <$> head y); yl_removeNode n y := filter (λ e, e.1 ≠ n) y |}; done.
Defined.

(** * The class *)

Section fifo.
  Context {K V Y : Type} `{EqDecision K} `{!Yallist K Y}.

Record Item := MkItem { it_value : V; it_dropQueueNode : nat; it_expiresAt : Z }.

Record FifoMapWithTTL := MkFifo {
  fm_items : jsmap K Item;
  fm_dropQueue : Y;
  fm_nextNode : nat;
  fm_ttlInMs : Z;
  fm_maxSize : Z
}.
Implicit Types (m : FifoMapWithTTL) (k : K) (v : V) (now : Z).

Definition fifo_new (ttlInMs maxSize : Z) : outcome js_error FifoMapWithTTL :=
  if (ttlInMs <? 0)%Z then Throw (MkError None "ttlInMs cannot be < 0")
  else if (maxSize <? 0)%Z then Throw (MkError None "maxSize cannot be < 0")
  else Return (MkFifo [] yl_create 0 ttlInMs maxSize).

Definition fm_size m : Z := Z.of_nat (length (fm_items m)).

(** Each operation gives the keys that [onItemDropped] is called with. *)
Definition fifo_delete k m : FifoMapWithTTL * list K :=
  match map_get k (fm_items m) with
  | Some item =>
      (MkFifo (map_delete k (fm_items m)) (yl_removeNode (it_dropQueueNode item) (fm_dropQueue m))
         (fm_nextNode m) (fm_ttlInMs m) (fm_maxSize m), [k])
  | None => (m, [])
  end.

Definition add_entry now k v m : FifoMapWithTTL :=
  MkFifo (map_set k (MkItem v (fm_nextNode m) (now + fm_ttlInMs m)) (fm_items m))
    (yl_pushNode (fm_nextNode m) k (fm_dropQueue m)) (S (fm_nextNode m)) (fm_ttlInMs m) (fm_maxSize m).

Definition fifo_set now k v : eff FifoMapWithTTL js_error (list K) := λ m,
  if (fm_maxSize m =? 0)%Z then (m, Return [])
  else if (fm_maxSize m <? fm_size m)%Z
  then (m, Throw (MkError None "assertion error: maximum size exceeded"))
  else
    let '(m, dropped) := fifo_delete k m in
    if (fm_size m =? fm_maxSize m)%Z then
      let '(queue, keyToDel) := yl_shift (fm_dropQueue m) in
      let m := MkFifo (fm_items m) queue (fm_nextNode m) (fm_ttlInMs m) (fm_maxSize m) in
      match keyToDel with
      | None => (m, Throw (MkError None "assertion error: queue empty but still have items"))
      | Some keyToDel =>
          let m := MkFifo (map_delete keyToDel (fm_items m)) (fm_dropQueue m) (fm_nextNode m)
                     (fm_ttlInMs m) (fm_maxSize m) in
          (add_entry now k v m, Return (dropped ++ [keyToDel]))
      end
    else (add_entry now k v m, Return dropped).

Definition fifo_get now k m : FifoMapWithTTL * option V :=
  match map_get k (fm_items m) with
  | None => (m, None)
  | Some item =>
      if (it_expiresAt item <=? now)%Z then ((fifo_delete k m).1, None) else (m, Some (it_value item))
  end.

Fixpoint get_all now (keys : list K) m : FifoMapWithTTL * list V :=
  match keys with
  | [] => (m, [])
  | k :: keys =>
      let '(m, value) := fifo_get now k m in
      let '(m, values) := get_all now keys m in
      (m, match value with Some v => v :: values | None => values end)
  end.

Definition fifo_values now m : FifoMapWithTTL * list V := get_all now (fm_items m).*1 m.

(** * The specification *)

(** Keys with their values and deadlines, oldest first *)
Definition fifo_view m : list (K * (V * Z)) := (λ e, (e.1, (it_value e.2, it_expiresAt e.2))) <$> fm_items m.

(** The invariant of the class: the keys present in [items] and [dropQueue] are the same set,
    and in the same order; and the size is bounded. *)
Record fifo_inv m : Prop := {
  fi_queue : yl_nodes (fm_dropQueue m) = (λ e, (it_dropQueueNode e.2, e.1)) <$> fm_items m;
  fi_keys : NoDup (fm_items m).*1;
  fi_nodes : NoDup (yl_nodes (fm_dropQueue m)).*1;
  fi_fresh : Forall (λ n, n < fm_nextNode m) (yl_nodes (fm_dropQueue m)).*1;
  fi_size : (fm_size m ≤ fm_maxSize m)%Z
}.

(** ** Deletion *)

Notation queue_entry := (λ e : K * Item, (it_dropQueueNode e.2, e.1)).

Lemma items_node_inj m e e' :
  fifo_inv m → e ∈ fm_items m → e' ∈ fm_items m → it_dropQueueNode e.2 = it_dropQueueNode e'.2 → e = e'.
Proof.
  intros [Hq _ Hn _ _]. rewrite Hq, <-list_fmap_compose in Hn. by apply (NoDup_fmap_eq (fst ∘ queue_entry)).
Qed.

Lemma items_key m k item : fifo_inv m → map_get k (fm_items m) = Some item ↔ (k, item) ∈ fm_items m.
Proof. intros []. by apply map_get_Some. Qed.

Definition without k (l : list (K * (V * Z))) : list (K * (V * Z)) := filter (λ e, e.1 ≠ k) l.

Lemma view_keys m : (fifo_view m).*1 = (fm_items m).*1.
Proof. unfold fifo_view. by rewrite <-list_fmap_compose. Qed.

Lemma view_delete k items :
  (λ e : K * Item, (e.1, (it_value e.2, it_expiresAt e.2))) <$> map_delete k items =
  without k ((λ e : K * Item, (e.1, (it_value e.2, it_expiresAt e.2))) <$> items).
Proof. unfold map_delete, without. symmetry. by apply filter_fmap_agree. Qed.

Lemma fifo_delete_spec k m m' dropped :
  fifo_inv m → fifo_delete k m = (m', dropped) →
  fifo_inv m' ∧ fifo_view m' = without k (fifo_view m) ∧
  dropped = (if decide (k ∈ (fifo_view m).*1) then [k] else []) ∧
  fm_ttlInMs m' = fm_ttlInMs m ∧ fm_maxSize m' = fm_maxSize m ∧ fm_nextNode m' = fm_nextNode m.
Proof.
  intros Hinv. unfold fifo_delete. rewrite view_keys.
  destruct (map_get k (fm_items m)) as [item|] eqn:Hg.
  2: { apply map_get_None in Hg. intros [= <- <-]. split_and!; [done| |by rewrite decide_False|done..].
       symmetry. apply filter_all. intros e He Hek. destruct Hg. rewrite <-Hek, <-view_keys.
       by apply list_elem_of_fmap_2. }
  apply items_key in Hg; [|done]. pose proof Hinv as [Hq Hk Hn Hf Hs].
  intros [= <- <-]. rewrite decide_True by (by apply (list_elem_of_fmap_2 fst) in Hg).
  assert (yl_nodes (yl_removeNode (it_dropQueueNode item) (fm_dropQueue m)) =
          queue_entry <$> map_delete k (fm_items m)) as Hq'.
  { rewrite yl_removeNode_nodes; [|done|].
    - rewrite Hq. apply filter_fmap_agree. intros e He. cbn. split; intros Hne Heq; apply Hne.
      + by rewrite (NoDup_fmap_eq fst _ e (k, item) Hk He Hg Heq).
      + by rewrite (items_node_inj m e (k, item) Hinv He Hg Heq).
    - rewrite Hq, <-list_fmap_compose. by apply (list_elem_of_fmap_2 (fst ∘ queue_entry)) in Hg. }
  split_and!; [|by unfold fifo_view; cbn; rewrite view_delete|done..].
  assert (sublist (map_delete k (fm_items m)) (fm_items m)) as Hsub by apply sublist_filter.
  split; cbn.
  - done.
  - eapply sublist_NoDup; [exact Hk|]. by apply fmap_sublist.
  - rewrite Hq'. rewrite Hq in Hn. eapply sublist_NoDup; [exact Hn|]. by do 2 apply fmap_sublist.
  - rewrite Hq'. rewrite Hq in Hf. apply Forall_forall. intros n Hn'.
    apply (proj1 (Forall_forall _ _) Hf). eapply sublist_subseteq; [|exact Hn']. by do 2 apply fmap_sublist.
  - unfold fm_size in *. cbn. apply sublist_length in Hsub. lia.
Qed.

(** ** Adding an entry *)

(** Room for one more: the oldest entry goes when there is none. *)
Definition make_room (maxSize : Z) (l : list (K * (V * Z))) : list (K * (V * Z)) :=
  if (Z.of_nat (length l) =? maxSize)%Z then tail l else l.

Lemma make_room_sublist maxSize l : sublist (make_room maxSize l) l.
Proof.
  unfold make_room. destruct (_ =? _)%Z; [|reflexivity]. destruct l; [constructor|]. by apply sublist_cons.
Qed.

Lemma without_keys k l : k ∉ (without k l).*1.
Proof. intros (e & -> & [He _]%list_elem_of_filter)%list_elem_of_fmap. done. Qed.

Lemma add_entry_spec now k v m :
  fifo_inv m → k ∉ (fm_items m).*1 → (fm_size m < fm_maxSize m)%Z →
  fifo_inv (add_entry now k v m) ∧
  fifo_view (add_entry now k v m) = fifo_view m ++ [(k, (v, now + fm_ttlInMs m)%Z)].
Proof.
  intros [Hq Hk Hn Hf Hs] Hnin Hlt. unfold add_entry, fifo_view. cbn [fm_items].
  rewrite map_set_new by done. split; [|by rewrite fmap_app]. split; cbn.
  - by rewrite yl_pushNode_nodes, fmap_app, Hq.
  - rewrite fmap_app. apply NoDup_app. split_and!; [done| |apply NoDup_singleton].
    intros x Hx ->%list_elem_of_singleton. done.
  - rewrite yl_pushNode_nodes, fmap_app. apply NoDup_app. split_and!; [done| |apply NoDup_singleton].
    intros x Hx ->%list_elem_of_singleton.
    pose proof (proj1 (Forall_forall _ _) Hf _ Hx) as Hlt'. cbn in Hlt'. lia.
  - rewrite yl_pushNode_nodes, fmap_app. apply Forall_app. split.
    + eapply Forall_impl; [exact Hf|]. cbn. lia.
    + repeat constructor.
  - unfold fm_size in *. cbn. rewrite length_app. cbn. lia.
Qed.

Lemma shift_spec m e items :
  fifo_inv m → fm_items m = e :: items →
  (yl_shift (fm_dropQueue m)).2 = Some e.1 ∧ map_delete e.1 (fm_items m) = items ∧
  fifo_inv (MkFifo items (yl_shift (fm_dropQueue m)).1 (fm_nextNode m) (fm_ttlInMs m) (fm_maxSize m)).
Proof.
  intros [Hq Hk Hn Hf Hs] Hi. rewrite Hi in Hq, Hk.
  rewrite fmap_cons in Hq. rewrite fmap_cons in Hk.
  rewrite Hq in Hn, Hf. apply NoDup_cons in Hk as [Hnin Hk]. apply NoDup_cons in Hn as [_ Hn].
  apply Forall_cons in Hf as [_ Hf].
  rewrite yl_shift_key, Hq. split_and!; [done| |split; cbn].
  - rewrite Hi. unfold map_delete. rewrite filter_cons_False by tauto. by apply map_delete_absent.
  - by rewrite yl_shift_nodes, Hq.
  - done.
  - by rewrite yl_shift_nodes, Hq.
  - by rewrite yl_shift_nodes, Hq.
  - unfold fm_size in *. rewrite Hi in Hs. cbn in *. lia.
Qed.

Lemma fifo_set_spec now k v m :
  fifo_inv m →
  ∃ m' dropped, fifo_set now k v m = (m', Return dropped) ∧ fifo_inv m' ∧
    fm_ttlInMs m' = fm_ttlInMs m ∧ fm_maxSize m' = fm_maxSize m ∧
    fifo_view m' = (if (fm_maxSize m =? 0)%Z then fifo_view m
                    else make_room (fm_maxSize m) (without k (fifo_view m)) ++ [(k, (v, now + fm_ttlInMs m)%Z)]).
Proof.
  intros Hinv. unfold fifo_set. destruct (Z.eqb_spec (fm_maxSize m) 0) as [Hz|Hz]; [by exists m, []|].
  pose proof (fi_size _ Hinv) as Hs. rewrite (proj2 (Z.ltb_ge _ _)) by done.
  destruct (fifo_delete k m) as [m1 dropped] eqn:Hd.
  destruct (fifo_delete_spec _ _ _ _ Hinv Hd) as (Hinv1 & Hv1 & _ & Ht1 & Hm1 & _).
  assert (k ∉ (fm_items m1).*1) as Hnin.
  { rewrite <-view_keys, Hv1. apply without_keys. }
  assert (fm_size m1 = Z.of_nat (length (without k (fifo_view m)))) as Hlen.
  { rewrite <-Hv1. unfold fm_size, fifo_view. by rewrite length_fmap. }
  unfold make_room. rewrite <-Hlen, <-Hm1, <-Ht1, <-Hv1. pose proof (fi_size _ Hinv1) as Hs1.
  destruct (Z.eqb_spec (fm_size m1) (fm_maxSize m1)) as [He|He].
  2: { destruct (add_entry_spec now k v m1 Hinv1 Hnin ltac:(lia)) as [Hi Hv].
       exists (add_entry now k v m1), dropped. done. }
  destruct (fm_items m1) as [|e items] eqn:Hi.
  { exfalso. unfold fm_size in He. rewrite Hi in He. cbn in He. lia. }
  destruct (shift_spec m1 e items Hinv1 Hi) as (Hkey & Hdel & Hinv2).
  destruct (yl_shift (fm_dropQueue m1)) as [queue key] eqn:Hsh. cbn in Hkey, Hinv2. subst key. cbn [fm_items fm_dropQueue fm_nextNode fm_ttlInMs fm_maxSize].
  rewrite Hi in Hdel. rewrite Hdel.
  destruct (add_entry_spec now k v _ Hinv2) as [Hi3 Hv3].
  - cbn. intros Hin. apply Hnin. rewrite fmap_cons. by right.
  - unfold fm_size in *. rewrite Hi in He. cbn in *. lia.
  - eexists _, _. split_and!; [done|done|done|done|]. rewrite Hv3. unfold fifo_view. cbn. by rewrite Hi.
Qed.

(** ** Reading *)

Definition live now (e : K * (V * Z)) : Prop := (now < e.2.2)%Z.
#[export] Instance live_dec now e : Decision (live now e).
Proof. unfold live. apply _. Defined.

Lemma fifo_get_spec now k m m' r :
  fifo_inv m → fifo_get now k m = (m', r) →
  fifo_inv m' ∧ fm_ttlInMs m' = fm_ttlInMs m ∧ fm_maxSize m' = fm_maxSize m ∧
  match map_get k (fifo_view m) with
  | Some (v, expiresAt) =>
      if (expiresAt <=? now)%Z then fifo_view m' = without k (fifo_view m) ∧ r = None
      else m' = m ∧ r = Some v
  | None => m' = m ∧ r = None
  end.
Proof.
  intros Hinv. unfold fifo_get.
  assert (map_get k (fifo_view m) = (λ item, (it_value item, it_expiresAt item)) <$> map_get k (fm_items m)) as ->.
  { unfold fifo_view. clear. induction (fm_items m) as [|[k' item] l IH]; [done|]. rewrite fmap_cons. cbn.
    by destruct (decide (k' = k)). }
  destruct (map_get k (fm_items m)) as [item|]; cbn; [|by intros [= <- <-]].
  destruct (it_expiresAt item <=? now)%Z; [|by intros [= <- <-]].
  destruct (fifo_delete k m) as [m1 d] eqn:Hd. intros [= <- <-].
  by destruct (fifo_delete_spec _ _ _ _ Hinv Hd) as (? & ? & _ & ? & ? & _).
Qed.

(** Reading the keys of [todo], a part of the entries, in order *)
Lemma get_all_spec now done_ todo m m' r :
  fifo_inv m → fifo_view m = done_ ++ todo → get_all now todo.*1 m = (m', r) →
  fifo_inv m' ∧ fm_ttlInMs m' = fm_ttlInMs m ∧ fm_maxSize m' = fm_maxSize m ∧
  fifo_view m' = done_ ++ filter (live now) todo ∧ r = (λ e, e.2.1) <$> filter (live now) todo.
Proof.
  revert done_ m r. induction todo as [|[k [v d]] todo IH]; intros done_ m r Hinv Hview.
  { intros [= <- <-]. by rewrite app_nil_r in *. }
  rewrite fmap_cons. cbn [get_all fst].
  destruct (fifo_get now k m) as [m1 value] eqn:Hg.
  destruct (fifo_get_spec _ _ _ _ _ Hinv Hg) as (Hinv1 & Ht1 & Hm1 & Hcase).
  assert (NoDup (fifo_view m).*1) as Hnd by (rewrite view_keys; by apply fi_keys).
  assert (map_get k (fifo_view m) = Some (v, d)) as Hk.
  { apply map_get_Some; [done|]. rewrite Hview. apply elem_of_app. right. left. }
  rewrite Hk in Hcase. destruct (get_all now todo.*1 m1) as [m2 values] eqn:Hall.
  destruct (Z.leb_spec d now) as [Hd|Hd]; destruct Hcase as [Hc ->]; intros [= <- <-].
  - rewrite filter_cons_False by (unfold live; cbn; lia).
    assert (fifo_view m1 = done_ ++ todo) as Hv1.
    { rewrite Hc, Hview. unfold without. rewrite filter_app, filter_cons_False by tauto.
      rewrite Hview, fmap_app, fmap_cons in Hnd. cbn in Hnd. apply NoDup_app in Hnd as (_ & Hdis & Hnd).
      apply NoDup_cons in Hnd as [Hnin _].
      rewrite !filter_all; [done| |].
      - intros e He Hek. destruct Hnin. rewrite <-Hek. by apply list_elem_of_fmap_2.
      - intros e He Hek. apply (Hdis k); [|left]. rewrite <-Hek. by apply list_elem_of_fmap_2. }
    destruct (IH done_ m1 values Hinv1 Hv1 Hall) as (? & ? & ? & ? & ?). split_and!; congruence.
  - subst m1. rewrite filter_cons_True by (unfold live; cbn; lia).
    rewrite (cons_middle _ done_ todo), app_assoc in Hview.
    destruct (IH (done_ ++ [(k, (v, d))]) m values Hinv Hview Hall) as (? & ? & ? & Hv2 & ->).
    split_and!; [done..| |by rewrite fmap_cons]. rewrite Hv2, <-app_assoc. done.
Qed.

Lemma fifo_values_spec now m m' r :
  fifo_inv m → fifo_values now m = (m', r) →
  fifo_inv m' ∧ fm_ttlInMs m' = fm_ttlInMs m ∧ fm_maxSize m' = fm_maxSize m ∧
  fifo_view m' = filter (live now) (fifo_view m) ∧ r = (λ e, e.2.1) <$> filter (live now) (fifo_view m).
Proof.
  intros Hinv. unfold fifo_values. rewrite <-view_keys. by apply (get_all_spec now []).
Qed.

(** * Refinement

    The calls of a user, with the time of each; an answer is the list of the values returned. *)

Inductive fifo_call := CallSet (k : K) (v : V) | CallGet (k : K) | CallDelete (k : K) | CallValues.

Definition fifo_step now (call : fifo_call) m : FifoMapWithTTL * outcome js_error (list V) :=
  match call with
  | CallSet k v => match fifo_set now k v m with
                   | (m, Return _) => (m, Return [])
                   | (m, Throw e) => (m, Throw e)
                   end
  | CallGet k => let '(m, r) := fifo_get now k m in (m, Return (option_list r))
  | CallDelete k => ((fifo_delete k m).1, Return [])
  | CallValues => let '(m, r) := fifo_values now m in (m, Return r)
  end.

(** The same on one queue of entries, oldest first *)
Definition queue_step (ttlInMs maxSize now : Z) (call : fifo_call) (q : list (K * (V * Z)))
    : list (K * (V * Z)) * list V :=
  match call with
  | CallSet k v =>
      (if (maxSize =? 0)%Z then q else make_room maxSize (without k q) ++ [(k, (v, now + ttlInMs)%Z)], [])
  | CallGet k =>
      match map_get k q with
      | Some (v, expiresAt) => if (expiresAt <=? now)%Z then (without k q, []) else (q, [v])
      | None => (q, [])
      end
  | CallDelete k => (without k q, [])
  | CallValues => (filter (live now) q, (λ e, e.2.1) <$> filter (live now) q)
  end.

Fixpoint fifo_run (calls : list (Z * fifo_call)) m : FifoMapWithTTL * list (outcome js_error (list V)) :=
  match calls with
  | [] => (m, [])
  | (now, call) :: calls =>
      let '(m, r) := fifo_step now call m in
      let '(m, rs) := fifo_run calls m in (m, r :: rs)
  end.

Fixpoint queue_run (ttlInMs maxSize : Z) (calls : list (Z * fifo_call)) (q : list (K * (V * Z)))
    : list (K * (V * Z)) * list (list V) :=
  match calls with
  | [] => (q, [])
  | (now, call) :: calls =>
      let '(q, r) := queue_step ttlInMs maxSize now call q in
      let '(q, rs) := queue_run ttlInMs maxSize calls q in (q, r :: rs)
  end.

Lemma fifo_step_refines now call m :
  fifo_inv m →
  let '(m', r) := fifo_step now call m in
  let '(q, r') := queue_step (fm_ttlInMs m) (fm_maxSize m) now call (fifo_view m) in
  fifo_inv m' ∧ fm_ttlInMs m' = fm_ttlInMs m ∧ fm_maxSize m' = fm_maxSize m ∧ fifo_view m' = q ∧ r = Return r'.
Proof.
  intros Hinv. destruct call as [k v|k|k|]; cbn.
  - destruct (fifo_set_spec now k v m Hinv) as (m' & d & -> & ? & ? & ? & Hv). done.
  - destruct (fifo_get now k m) as [m' r] eqn:Hg.
    destruct (fifo_get_spec _ _ _ _ _ Hinv Hg) as (? & ? & ? & Hc).
    destruct (map_get k (fifo_view m)) as [[v d]|]; [destruct (d <=? now)%Z|]; destruct Hc as [? ->]; by subst.
  - destruct (fifo_delete k m) as [m' d] eqn:Hd.
    by destruct (fifo_delete_spec _ _ _ _ Hinv Hd) as (? & ? & _ & ? & ? & _).
  - destruct (fifo_values now m) as [m' r] eqn:Hg.
    destruct (fifo_values_spec _ _ _ _ Hinv Hg) as (? & ? & ? & ? & ->). done.
Qed.

Lemma fifo_run_refines calls m :
  fifo_inv m →
  let '(m', rs) := fifo_run calls m in
  let '(q, rs') := queue_run (fm_ttlInMs m) (fm_maxSize m) calls (fifo_view m) in
  fifo_inv m' ∧ fm_maxSize m' = fm_maxSize m ∧ fifo_view m' = q ∧ rs = Return <$> rs'.
Proof.
  revert m. induction calls as [|[now call] calls IH]; intros m Hinv; [done|]. cbn [fifo_run queue_run].
  pose proof (fifo_step_refines now call m Hinv) as Hstep.
  destruct (fifo_step now call m) as [m1 r]. destruct (queue_step _ _ _ _ _) as [q1 r1].
  destruct Hstep as (Hinv1 & Ht & Hm & <- & ->). specialize (IH m1 Hinv1). rewrite Ht, Hm in IH.
  destruct (fifo_run calls m1) as [m2 rs]. destruct (queue_run _ _ calls _) as [q2 rs'].
  by destruct IH as (? & ? & ? & ->).
Qed.

Lemma fifo_new_inv ttlInMs maxSize m :
  fifo_new ttlInMs maxSize = Return m →
  fifo_inv m ∧ fm_ttlInMs m = ttlInMs ∧ fm_maxSize m = maxSize ∧ fifo_view m = [].
Proof.
  unfold fifo_new. destruct (Z.ltb_spec ttlInMs 0); [done|]. destruct (Z.ltb_spec maxSize 0); [done|].
  intros [= <-]. split_and!; try done. split; cbn; rewrite ?yl_create_nodes; try constructor.
  unfold fm_size. cbn. lia.
Qed.

(** The class is a queue of entries: whatever is called, in whatever order and at
    whatever times, its answers are those of the queue (a value is gone once its time is over, a new entry
    pushes out the oldest), neither of its assertion errors is ever thrown, and it never holds
    more entries than its maximum, nor two for one key. *)
Theorem fifo_map_refines_queue ttlInMs maxSize calls :
  match fifo_new ttlInMs maxSize with
  | Throw _ => (ttlInMs < 0 ∨ maxSize < 0)%Z
  | Return m =>
      let '(m', answers) := fifo_run calls m in
      let '(q, answers') := queue_run ttlInMs maxSize calls [] in
      fifo_view m' = q ∧ answers = Return <$> answers' ∧
      (Z.of_nat (length q) ≤ maxSize)%Z ∧ NoDup q.*1
  end.
Proof.
  destruct (fifo_new ttlInMs maxSize) as [m|e] eqn:Hnew.
  - destruct (fifo_new_inv _ _ _ Hnew) as (Hinv & Ht & Hm & Hv).
    pose proof (fifo_run_refines calls m Hinv) as Hrun. rewrite Ht, Hm, Hv in Hrun.
    destruct (fifo_run calls m) as [m' rs]. destruct (queue_run _ _ calls _) as [q rs'].
    destruct Hrun as (Hinv' & Hm' & <- & ->). split_and!; [done|done| |].
    + pose proof (fi_size _ Hinv') as Hs. unfold fm_size in Hs. unfold fifo_view. rewrite length_fmap. lia.
    + rewrite view_keys. by apply fi_keys.
  - revert Hnew. unfold fifo_new. destruct (Z.ltb_spec ttlInMs 0); [auto|]. destruct (Z.ltb_spec maxSize 0); [auto|done].
Qed.
End fifo.
Arguments FifoMapWithTTL : clear implicits.
Arguments Item : clear implicits.
Arguments fifo_call : clear implicits.

(** Two entries of two, then a third: the first is gone, and later all of them. *)
Example fifo_evicts_and_expires :
  match fifo_new (K:=nat) (V:=string) (Y:=list (nat * nat)) 10 2 with
  | Return m => (fifo_run [(0%Z, CallSet 1 "a"); (1%Z, CallSet 2 "b"); (2%Z, CallSet 3 "c");
                           (3%Z, CallGet 1); (4%Z, CallValues); (11%Z, CallValues); (12%Z, CallValues)] m).2
  | Throw _ => []
  end = Return <$> [[]; []; []; []; ["b"; "c"]; ["c"]; []].
Proof. reflexivity. Qed.
