(* ===== verification/NodeList.v ===== *)
(** [NodeList] (packages/trackerless-network/src/content-delivery-layer/NodeList.ts): the
    bounded lists of remote nodes of an overlay (neighbours, near and random views), in the
    order of insertion, without the node itself.

    The events [nodeAdded] and [nodeRemoved] of an operation are part of its result.
    [ids_step] is the specification: an ordered set of ids with a bound. *)

From S2P Require Import Prelude.
From S2P Require Import JsMap.

Set Default Proof Using "Type".

(** * The class *)

(** A [ContentDeliveryRpcRemote]: the id and the websocket entry of its peer descriptor;
    [rc_object] tells objects for the same peer apart. *)
Record content_remote := MkRemote { rc_nodeId : string; rc_websocket : bool; rc_object : nat }.
#[export] Instance content_remote_eq_dec : EqDecision content_remote.
Proof. solve_decision. Defined.

Inductive list_event := NodeAdded (id : string) (remote : content_remote) | NodeRemoved (id : string) (remote : content_remote).

Record NodeList := MkNodeList {
  nl_nodes : jsmap string content_remote;
  nl_limit : nat;
  nl_ownId : string
}.
Implicit Types (l : NodeList) (remote : content_remote) (nodeId : string).

Definition nodelist_new (ownId : string) (limit : nat) : NodeList := MkNodeList [] limit ownId.

Definition with_nodes (nodes : jsmap string content_remote) l : NodeList :=
  MkNodeList nodes (nl_limit l) (nl_ownId l).

Definition nl_has nodeId l : bool := map_has nodeId (nl_nodes l).

Definition nl_add remote l : NodeList * list list_event :=
  let nodeId := rc_nodeId remote in
  if negb (bool_decide (nl_ownId l = nodeId)) && (length (nl_nodes l) <? nl_limit l)%nat then
    let isExistingNode := map_has nodeId (nl_nodes l) in
    (with_nodes (map_set nodeId remote (nl_nodes l)) l,
     if negb isExistingNode then [NodeAdded nodeId remote] else [])
  else (l, []).

Definition nl_remove nodeId l : NodeList * list list_event :=
  match map_get nodeId (nl_nodes l) with
  | Some remote => (with_nodes (map_delete nodeId (nl_nodes l)) l, [NodeRemoved nodeId remote])
  | None => (l, [])
  end.

(** Adding, or removing, one after the other *)
Fixpoint nl_add_all (remotes : list content_remote) l : NodeList * list list_event :=
  match remotes with
  | [] => (l, [])
  | remote :: remotes =>
      let '(l, evs) := nl_add remote l in
      let '(l, evs') := nl_add_all remotes l in (l, evs ++ evs')
  end.

Fixpoint nl_remove_all (ids : list string) l : NodeList * list list_event :=
  match ids with
  | [] => (l, [])
  | id :: ids =>
      let '(l, evs) := nl_remove id l in
      let '(l, evs') := nl_remove_all ids l in (l, evs ++ evs')
  end.

(** [splice] leaves the caller's array with what is over the limit, the last component. *)
Definition replaceAll (neighbors : list content_remote) l : NodeList * list list_event * list content_remote :=
  (nl_add_all (take (nl_limit l) neighbors) (with_nodes [] l), drop (nl_limit l) neighbors).

Definition getIds l : list string := (nl_nodes l).*1.
Definition nl_get id l : option content_remote := map_get id (nl_nodes l).
Definition getAll l : list content_remote := (nl_nodes l).*2.

Definition getValuesOfIncludedKeys (exclude : list string) (wsOnly : bool)
    (nodes : jsmap string content_remote) : list content_remote :=
  let values := if wsOnly then filter (λ e, rc_websocket e.2 = true) nodes else nodes in
  (filter (λ e, e.1 ∉ exclude) values).*2.

Definition nl_size (exclude : list string) l : nat := length (filter (λ id, id ∉ exclude) (getIds l)).
Definition getFirst (exclude : list string) (wsOnly : bool) l : option content_remote :=
  head (getValuesOfIncludedKeys exclude wsOnly (nl_nodes l)).
Definition getLast (exclude : list string) l : option content_remote :=
  last (getValuesOfIncludedKeys exclude false (nl_nodes l)).
Definition getFirstAndLast (exclude : list string) l : list content_remote :=
  let included := getValuesOfIncludedKeys exclude false (nl_nodes l) in
  if (length included =? 0)%nat then []
  else if (1 <? length included)%nat
  then option_list (getFirst exclude false l) ++ option_list (getLast exclude l)
  else option_list (getFirst exclude false l).

(** [sample] of lodash: a draw is a number below the length *)
Definition getRandom (draw : nat → nat) (exclude : list string) l : option content_remote :=
  let included := getValuesOfIncludedKeys exclude false (nl_nodes l) in
  included !! draw (length included).

(** [forEach] visits the entries that are there when it starts: each call removes the entry
    being visited.  The listeners are removed as well. *)
Definition nl_stop l : NodeList * list list_event := nl_remove_all (rc_nodeId <$> getAll l) l.

(** * The invariant *)

Record nl_inv l : Prop := {
  nli_keys : Forall (λ e, e.1 = rc_nodeId e.2) (nl_nodes l);
  nli_nodup : NoDup (getIds l);
  nli_own : nl_ownId l ∉ getIds l;
  nli_bound : length (nl_nodes l) ≤ nl_limit l
}.

Lemma nl_new_inv ownId limit : nl_inv (nodelist_new ownId limit).
Proof. split; cbn; [constructor|constructor|apply not_elem_of_nil|lia]. Qed.

Lemma getIds_length l : length (getIds l) = length (nl_nodes l).
Proof. unfold getIds. by rewrite length_fmap. Qed.

(** The ids under an addition: a new id comes last, when it is not the node's own and there is room. *)
Definition id_add (ownId : string) (limit : nat) nodeId (ids : list string) : list string :=
  if decide (ownId = nodeId ∨ nodeId ∈ ids ∨ limit ≤ length ids) then ids else ids ++ [nodeId].

Lemma nl_add_spec remote l :
  nl_inv l →
  let '(l', evs) := nl_add remote l in
  nl_inv l' ∧ nl_limit l' = nl_limit l ∧ nl_ownId l' = nl_ownId l ∧
  getIds l' = id_add (nl_ownId l) (nl_limit l) (rc_nodeId remote) (getIds l) ∧
  evs = (if decide (getIds l' = getIds l) then [] else [NodeAdded (rc_nodeId remote) remote]).
Proof.
  intros Hinv. pose proof Hinv as [Hk Hn Ho Hb]. unfold nl_add, id_add. rewrite getIds_length.
  destruct (bool_decide_reflect (nl_ownId l = rc_nodeId remote)) as [He|He]; cbn [negb andb].
  { split_and!; [done..| |]; [rewrite decide_True by auto; done|by rewrite decide_True]. }
  destruct (Nat.ltb_spec (length (nl_nodes l)) (nl_limit l)) as [Hlt|Hge].
  2: { split_and!; [done..| |]; [rewrite decide_True by auto; done|by rewrite decide_True]. }
  assert (getIds (with_nodes (map_set (rc_nodeId remote) remote (nl_nodes l)) l) =
          if decide (rc_nodeId remote ∈ getIds l) then getIds l else getIds l ++ [rc_nodeId remote]) as Hids
    by (unfold getIds; cbn [nl_nodes with_nodes]; apply map_set_keys).
  rewrite Hids. split_and!; [split|done|done| |].
  - apply Forall_forall. intros e [->|Hin]%map_set_elem; [done|]. exact (proj1 (Forall_forall _ _) Hk _ Hin).
  - rewrite Hids. case_decide as Hin; [done|]. apply NoDup_app. split_and!; [done| |apply NoDup_singleton].
    intros x Hx ->%list_elem_of_singleton. done.
  - rewrite Hids. cbn. case_decide; [done|]. rewrite elem_of_app, list_elem_of_singleton. tauto.
  - rewrite <-getIds_length, Hids. cbn. pose proof (getIds_length l). case_decide; [lia|]. rewrite length_app. cbn. lia.
  - destruct (decide (rc_nodeId remote ∈ getIds l)) as [Hin|Hin].
    + by rewrite decide_True by auto.
    + rewrite decide_False; [done|]. intros [?|[?|?]]; [done|done|lia].
  - unfold getIds in *. destruct (decide (rc_nodeId remote ∈ (nl_nodes l).*1)) as [Hin|Hin].
    + rewrite (proj2 (map_has_spec _ _)) by done. cbn [negb]. by rewrite decide_True.
    + destruct (map_has (rc_nodeId remote) (nl_nodes l)) eqn:Hh; [by apply map_has_spec in Hh|]. cbn [negb].
      rewrite decide_False; [done|]. intros Heq%(f_equal length). rewrite length_app in Heq. cbn in Heq. lia.
Qed.

Lemma nl_remove_spec nodeId l :
  nl_inv l →
  let '(l', evs) := nl_remove nodeId l in
  nl_inv l' ∧ nl_limit l' = nl_limit l ∧ nl_ownId l' = nl_ownId l ∧
  getIds l' = filter (λ id, id ≠ nodeId) (getIds l) ∧
  (evs ≠ [] ↔ nodeId ∈ getIds l).
Proof.
  intros Hinv. pose proof Hinv as [Hk Hn Ho Hb]. unfold nl_remove.
  destruct (map_get nodeId (nl_nodes l)) as [remote|] eqn:Hg.
  2: { apply map_get_None in Hg. split_and!; [done..| |done]. symmetry. apply filter_all. by intros x Hx ->. }
  assert (getIds (with_nodes (map_delete nodeId (nl_nodes l)) l) = filter (λ id, id ≠ nodeId) (getIds l)) as Hids
    by apply map_delete_keys.
  apply map_get_Some in Hg; [|done].
  split_and!; [split|done|done|done|].
  - apply Forall_forall. intros e [_ He]%list_elem_of_filter. exact (proj1 (Forall_forall _ _) Hk _ He).
  - rewrite Hids. by apply NoDup_filter.
  - rewrite Hids. cbn. by intros [_ ?]%list_elem_of_filter.
  - cbn. transitivity (length (nl_nodes l)); [|done]. apply sublist_length, sublist_filter.
  - split; [|done]. intros _. by apply (list_elem_of_fmap_2 fst) in Hg.
Qed.

(** * What an observer sees *)

Inductive list_call := Add (remote : content_remote) | Remove (nodeId : string).

Definition list_step (call : list_call) l : NodeList * list list_event :=
  match call with Add remote => nl_add remote l | Remove nodeId => nl_remove nodeId l end.

Fixpoint list_run (calls : list list_call) l : NodeList * list list_event :=
  match calls with
  | [] => (l, [])
  | call :: calls =>
      let '(l, evs) := list_step call l in
      let '(l, evs') := list_run calls l in (l, evs ++ evs')
  end.

(** The ids, as an ordered set with a bound *)
Definition ids_step (ownId : string) (limit : nat) (ids : list string) (call : list_call) : list string :=
  match call with
  | Add remote => id_add ownId limit (rc_nodeId remote) ids
  | Remove nodeId => filter (λ id, id ≠ nodeId) ids
  end.

(** A listener that keeps its own list *)
Definition follow (ids : list string) (ev : list_event) : list string :=
  match ev with NodeAdded id _ => ids ++ [id] | NodeRemoved id _ => filter (λ id', id' ≠ id) ids end.

Lemma list_step_spec call l :
  nl_inv l →
  let '(l', evs) := list_step call l in
  nl_inv l' ∧ nl_limit l' = nl_limit l ∧ nl_ownId l' = nl_ownId l ∧
  getIds l' = ids_step (nl_ownId l) (nl_limit l) (getIds l) call ∧ foldl follow (getIds l) evs = getIds l'.
Proof.
  intros Hinv. destruct call as [remote|nodeId]; cbn [list_step].
  - pose proof (nl_add_spec remote l Hinv) as Hadd. destruct (nl_add remote l) as [l' evs].
    destruct Hadd as (Hinv' & Hlim & Hown & Hids & ->). split_and!; try done.
    case_decide as He; [done|]. cbn. rewrite Hids in *. unfold id_add in *. by case_decide.
  - unfold nl_remove. pose proof (nl_remove_spec nodeId l Hinv) as Hrem. unfold nl_remove in Hrem.
    destruct (map_get nodeId (nl_nodes l)) as [remote|]; destruct Hrem as (? & ? & ? & Hids & _); [|done].
    by split_and!.
Qed.

(** a list of nodes is an ordered set with a bound: whatever is added and removed, it holds at most its limit
    of nodes, never the node itself and no node twice, in the order in which they came; and a listener of its
    events knows exactly which nodes it holds. *)
Theorem node_list_is_a_bounded_set ownId limit calls :
  let '(l, evs) := list_run calls (nodelist_new ownId limit) in
  getIds l = foldl (ids_step ownId limit) [] calls ∧ foldl follow [] evs = getIds l ∧
  NoDup (getIds l) ∧ ownId ∉ getIds l ∧ length (getIds l) ≤ limit ∧ rc_nodeId <$> getAll l = getIds l.
Proof.
  assert (∀ l, nl_inv l → let '(l', evs) := list_run calls l in
    nl_inv l' ∧ nl_limit l' = nl_limit l ∧ nl_ownId l' = nl_ownId l ∧
    getIds l' = foldl (ids_step (nl_ownId l) (nl_limit l)) (getIds l) calls ∧ foldl follow (getIds l) evs = getIds l')
    as Hrun.
  { induction calls as [|call calls IH]; intros l Hinv; [done|]. cbn [list_run].
    pose proof (list_step_spec call l Hinv) as Hstep. destruct (list_step call l) as [l1 evs].
    destruct Hstep as (Hinv1 & Hlim1 & Hown1 & Hids1 & Hf1). specialize (IH l1 Hinv1).
    destruct (list_run calls l1) as [l2 evs']. destruct IH as (? & ? & ? & Hids & Hf).
    split_and!; [done|congruence|congruence| |by rewrite foldl_app, Hf1].
    cbn [foldl]. by rewrite Hids, Hlim1, Hown1, Hids1. }
  specialize (Hrun _ (nl_new_inv ownId limit)). destruct (list_run calls _) as [l evs].
  destruct Hrun as ([Hk Hn Ho Hb] & Hlim & Hown & Hids & Hf).
  rewrite Hown in Ho. rewrite Hlim, <-getIds_length in Hb.
  split_and!; try done. unfold getAll, getIds. rewrite <-list_fmap_compose.
  apply list_fmap_ext. intros i e He. symmetry. by eapply (Forall_lookup_1 _ _ _ _ Hk).
Qed.

(** [replaceAll] limits the candidates before it drops the node itself and repetitions: the list can be
    shorter than its limit while a candidate is left over. *)
Lemma replaceAll_may_fall_short :
  let a := MkRemote "a" false 0 in let b := MkRemote "b" false 1 in let own := MkRemote "own" false 2 in
  let '(l, _, rest) := replaceAll [own; a; b] (nodelist_new "own" 2) in
  getIds l = ["a"] ∧ rest = [b].
Proof. done. Qed.

(** First and last, in the order of insertion *)
Example first_and_last :
  let l := (list_run [Add (MkRemote "a" false 0); Add (MkRemote "b" true 1); Add (MkRemote "c" false 2)]
              (nodelist_new "own" 4)).1 in
  rc_nodeId <$> getFirstAndLast ["c"] l = ["a"; "b"] ∧ rc_nodeId <$> getFirst [] true l = Some "b" ∧
  rc_nodeId <$> getLast [] l = Some "c" ∧ getIds (nl_stop l).1 = [].
Proof. done. Qed.
