(* ===== verification/Propagation.v ===== *)
(** Delivery of messages in the overlay of a stream part
    (packages/trackerless-network/src/content-delivery-layer): PropagationTaskStore.ts and
    Propagation.ts, and the path of a message through ContentDeliveryRpcLocal.ts,
    ContentDeliveryLayerNode.ts and markAndCheckDuplicate of utils.ts.

    A task is an object that the store, the sends in flight and the callers share: the model
    keeps all of them in [pr_tasks], and refers to one by its index.  The keys of the store
    are the [messageId] objects of the messages, by identity ([nm_ref]).  Sending is a call
    to the network, whose end is an event. *)

From S2P Require Import Prelude.
From S2P Require Import Js.
From S2P Require Import JsMap.
From S2P Require Import Duplicates.
From S2P Require Import FifoMap.

Set Default Proof Using "Type".

(** * Messages and tasks *)

Record net_message := MkNetMessage {
  nm_ref : nat;                  (** identity of the [messageId] object *)
  nm_publisherId : string;       (** as [toUserId] gives it *)
  nm_messageChainId : string;
  nm_number : NumberPair;
  nm_previous : option NumberPair
}.

Record PropagationTask := MkTask {
  pt_message : net_message; pt_source : option string; pt_handledNeighbors : gset string }.

(** A call of [sendToNeighbor], and how it ended *)
Record send := MkSend { sd_task : nat; sd_neighbor : string; sd_result : option bool }.

Section propagation.
  Context {Y : Type} `{!Yallist nat Y}.

Record Propagation := MkPropagation {
  pr_minPropagationTargets : Z;
  pr_activeTaskStore : FifoMapWithTTL nat nat Y;
  pr_tasks : list PropagationTask;
  pr_sends : list send
}.
Implicit Types (p : Propagation).

Definition DEFAULT_PROPAGATION_BUFFER_TTL : Z := 10 * 1000.
Definition DEFAULT_MIN_PROPAGATION_TARGETS : Z := 2.
Definition DEFAULT_MAX_PROPAGATION_BUFFER_SIZE : Z := 150.

Definition propagation_new (minPropagationTargets maxMessages ttl : Z) : outcome js_error Propagation :=
  (let? store := fifo_new ttl maxMessages in Return (MkPropagation minPropagationTargets store [] []))%eff.

Definition sendAndAwaitThenMark (tid : nat) (neighborId : string) p : Propagation :=
  match pr_tasks p !! tid with
  | Some task =>
      if negb (bool_decide (neighborId ∈ pt_handledNeighbors task)) && negb (bool_decide (Some neighborId = pt_source task))
      then MkPropagation (pr_minPropagationTargets p) (pr_activeTaskStore p) (pr_tasks p)
             (pr_sends p ++ [MkSend tid neighborId None])
      else p
  | None => p                    (* the tasks of the callers exist *)
  end.

Definition mark_send (i : nat) (ok : bool) (sends : list send) : list send :=
  alter (λ sd, MkSend (sd_task sd) (sd_neighbor sd) (Some ok)) i sends.

(** What follows the [await] of the send number [i] *)
Definition send_settled (i : nat) (ok : bool) p : Propagation :=
  match pr_sends p !! i with
  | Some (MkSend tid neighborId None) =>
      let sends := mark_send i ok (pr_sends p) in
      match ok, pr_tasks p !! tid with
      | true, Some (MkTask message source handledNeighbors) =>
          let handledNeighbors := {[neighborId]} ∪ handledNeighbors in
          let store := if (pr_minPropagationTargets p <=? Z.of_nat (size handledNeighbors))%Z
                       then (fifo_delete (nm_ref message) (pr_activeTaskStore p)).1
                       else pr_activeTaskStore p in
          MkPropagation (pr_minPropagationTargets p) store
            (<[tid := MkTask message source handledNeighbors]> (pr_tasks p)) sends
      | _, _ => MkPropagation (pr_minPropagationTargets p) (pr_activeTaskStore p) (pr_tasks p) sends
      end
  | _ => p
  end.

Definition send_to_all (targets : list (nat * string)) p : Propagation :=
  foldl (λ p t, sendAndAwaitThenMark t.1 t.2 p) p targets.

Definition feedUnseenMessage (now : Z) (message : net_message) (targets : list string)
    (source : option string) : eff Propagation js_error unit := λ p,
  let tid := length (pr_tasks p) in
  let tasks := pr_tasks p ++ [MkTask message source ∅] in
  match fifo_set now (nm_ref message) tid (pr_activeTaskStore p) with
  | (store, Throw e) => (MkPropagation (pr_minPropagationTargets p) store tasks (pr_sends p), Throw e)
  | (store, Return _) =>
      (send_to_all (pair tid <$> targets) (MkPropagation (pr_minPropagationTargets p) store tasks (pr_sends p)),
       Return tt)
  end.

Definition onNeighborJoined (now : Z) (neighborId : string) p : Propagation :=
  let '(store, tids) := fifo_values now (pr_activeTaskStore p) in
  send_to_all ((λ tid, (tid, neighborId)) <$> tids)
    (MkPropagation (pr_minPropagationTargets p) store (pr_tasks p) (pr_sends p)).

(** * A node's part of the overlay *)

Record delivery_node := MkDeliveryNode {
  dn_duplicateDetectors : gmap string detector;
  dn_propagation : Propagation;
  dn_messagesPropagated : Z;
  dn_emitted : list net_message          (** the [message] events, in order *)
}.

Definition detector_key (message : net_message) : string :=
  nm_publisherId message +:+ "-" +:+ nm_messageChainId message.

(** [new DuplicateMessageDetector()] *)
Definition MAX_GAP_COUNT : nat := Nat.mul 100 100.

Definition markAndCheckDuplicate (message : net_message) : eff (gmap string detector) detector_error bool :=
  λ detectors,
    let d := default (detector_new MAX_GAP_COUNT) (detectors !! detector_key message) in
    let '(d, r) := markAndCheck (nm_previous message) (nm_number message) d in
    (<[detector_key message := d]> detectors, r).

(** What a delivery ends with when it throws *)
Inductive delivery_error := NumberingError (e : detector_error) | StoreError (e : js_error).

(** [targets] is what [getPropagationTargets] gives, and [temporary] whether the previous node
    is one of the temporary connections. *)
Definition broadcast_checked (now : Z) (message : net_message) (previousNode : option string)
    (targets : list string) (temporary : bool) (n : delivery_node) : delivery_node * outcome delivery_error unit :=
  let source := if temporary then None else previousNode in
  let emitted := dn_emitted n ++ [message] in
  match feedUnseenMessage now message targets source (dn_propagation n) with
  | (p, Return _) => (MkDeliveryNode (dn_duplicateDetectors n) p (dn_messagesPropagated n + 1) emitted, Return tt)
  | (p, Throw e) => (MkDeliveryNode (dn_duplicateDetectors n) p (dn_messagesPropagated n) emitted, Throw (StoreError e))
  end.

Definition with_detectors (detectors : gmap string detector) (n : delivery_node) : delivery_node :=
  MkDeliveryNode detectors (dn_propagation n) (dn_messagesPropagated n) (dn_emitted n).

(** [broadcast] of the node's own messages marks them, and ignores what the detector answers. *)
Definition broadcast (now : Z) (message : net_message) (previousNode : option string)
    (targets : list string) (temporary : bool) (n : delivery_node) : delivery_node * outcome delivery_error unit :=
  match previousNode with
  | None =>
      match markAndCheckDuplicate message (dn_duplicateDetectors n) with
      | (detectors, Throw e) => (with_detectors detectors n, Throw (NumberingError e))
      | (detectors, Return _) =>
          broadcast_checked now message previousNode targets temporary (with_detectors detectors n)
      end
  | Some _ => broadcast_checked now message previousNode targets temporary n
  end.

(** [ContentDeliveryRpcLocal.sendStreamMessage], without plumtree *)
Definition sendStreamMessage (now : Z) (message : net_message) (previousNode : string)
    (targets : list string) (temporary : bool) (n : delivery_node) : delivery_node * outcome delivery_error unit :=
  match markAndCheckDuplicate message (dn_duplicateDetectors n) with
  | (detectors, Throw e) => (with_detectors detectors n, Throw (NumberingError e))
  | (detectors, Return false) => (with_detectors detectors n, Return tt)
  | (detectors, Return true) =>
      broadcast now message (Some previousNode) targets temporary (with_detectors detectors n)
  end.
End propagation.

(** * Runs of the propagation *)

Inductive prop_event :=
  | Feed (message : net_message) (targets : list string) (source : option string)
  | Join (neighborId : string)
  | Settle (i : nat) (ok : bool).

Section propagation_facts.
  Context {Y : Type} `{!Yallist nat Y}.
  Implicit Types (p : @Propagation Y).

Definition prop_step p (ev : Z * prop_event) : Propagation :=
  match ev.2 with
  | Feed message targets source => (feedUnseenMessage ev.1 message targets source p).1
  | Join neighborId => onNeighborJoined ev.1 neighborId p
  | Settle i ok => send_settled i ok p
  end.

Definition prop_run (evs : list (Z * prop_event)) p : Propagation := foldl prop_step p evs.

(** The times at which the tasks were fed, in the order of the tasks *)
Definition fed_times (evs : list (Z * prop_event)) : list Z :=
  omap (λ ev, match ev.2 with Feed _ _ _ => Some ev.1 | _ => None end) evs.

(** The identities of the messages fed *)
Definition fed_refs (evs : list (Z * prop_event)) : list nat :=
  omap (λ ev, match ev.2 with Feed m _ _ => Some (nm_ref m) | _ => None end) evs.

(** Enough neighbours have the message. *)
Definition finished (minTargets : Z) (task : PropagationTask) : Prop :=
  pt_handledNeighbors task ≠ ∅ ∧ (minTargets ≤ Z.of_nat (size (pt_handledNeighbors task)))%Z.

#[local] Instance finished_dec minTargets task : Decision (finished minTargets task).
Proof. unfold finished. apply _. Defined.

(** An entry of the store is a task that is not finished, with the time it was fed. *)
Definition entry_ok (minTargets ttl : Z) (tasks : list PropagationTask) (fed : list Z) (e : nat * (nat * Z)) : Prop :=
  ∃ task t0, tasks !! e.2.1 = Some task ∧ fed !! e.2.1 = Some t0 ∧
    e.1 = nm_ref (pt_message task) ∧ e.2.2 = (t0 + ttl)%Z ∧ ¬ finished minTargets task.

(** A task that is not in the store is over, finished, or older than as many as the store holds. *)
Definition gone (minTargets ttl maxMessages now : Z) (count tid : nat) (task : PropagationTask) (t0 : Z) : Prop :=
  (t0 + ttl ≤ now)%Z ∨ finished minTargets task ∨ (Z.of_nat tid + maxMessages < Z.of_nat count)%Z.

Definition stored_tids p : list nat := (λ e, e.2.1) <$> fifo_view (pr_activeTaskStore p).

Record prop_inv (minTargets ttl maxMessages now : Z) (fed : list Z) p : Prop := {
  pi_min : pr_minPropagationTargets p = minTargets;
  pi_store : fifo_inv (pr_activeTaskStore p);
  pi_ttl : fm_ttlInMs (pr_activeTaskStore p) = ttl;
  pi_max : fm_maxSize (pr_activeTaskStore p) = maxMessages;
  pi_fed : length fed = length (pr_tasks p);
  pi_refs : NoDup ((nm_ref ∘ pt_message) <$> pr_tasks p);
  pi_entries : Forall (entry_ok minTargets ttl (pr_tasks p) fed) (fifo_view (pr_activeTaskStore p));
  pi_order : StronglySorted lt (stored_tids p);
  pi_gone tid task t0 :
    pr_tasks p !! tid = Some task → fed !! tid = Some t0 →
    tid ∈ stored_tids p ∨ gone minTargets ttl maxMessages now (length (pr_tasks p)) tid task t0;
  pi_sends : Forall (λ s, ∃ task, pr_tasks p !! sd_task s = Some task ∧ Some (sd_neighbor s) ≠ pt_source task)
               (pr_sends p);
  pi_handled tid task n :
    pr_tasks p !! tid = Some task → n ∈ pt_handledNeighbors task → MkSend tid n (Some true) ∈ pr_sends p
}.

(** ** Sending *)

(** The sends that a list of pairs of task and neighbour leads to *)
Definition wanted p (t : nat * string) : Prop :=
  match pr_tasks p !! t.1 with
  | Some task => t.2 ∉ pt_handledNeighbors task ∧ Some t.2 ≠ pt_source task
  | None => False
  end.
#[local] Instance wanted_dec p t : Decision (wanted p t).
Proof. unfold wanted. destruct (pr_tasks p !! t.1); apply _. Defined.

Definition add_sends (ts : list (nat * string)) p : Propagation :=
  MkPropagation (pr_minPropagationTargets p) (pr_activeTaskStore p) (pr_tasks p)
    (pr_sends p ++ ((λ t, MkSend t.1 t.2 None) <$> ts)).

Lemma sendAndAwaitThenMark_spec tid n p :
  sendAndAwaitThenMark tid n p = if decide (wanted p (tid, n)) then add_sends [(tid, n)] p else p.
Proof.
  unfold sendAndAwaitThenMark, add_sends, wanted. cbn [fst snd].
  destruct (decide _) as [Hw|Hw]; revert Hw; cbn [fst]; destruct (pr_tasks p !! tid) as [task|]; try done.
  - intros [H1 H2]. by rewrite !bool_decide_eq_false_2.
  - intros Hw. destruct (bool_decide_reflect (n ∈ pt_handledNeighbors task)),
      (bool_decide_reflect (Some n = pt_source task)); simpl; [done..|]. by destruct Hw.
Qed.

Lemma send_to_all_spec ts p : send_to_all ts p = add_sends (filter (wanted p) ts) p.
Proof.
  unfold send_to_all.
  assert (∀ sent, foldl (λ p t, sendAndAwaitThenMark t.1 t.2 p) (add_sends sent p) ts =
                  add_sends (sent ++ filter (wanted p) ts) p) as Hall.
  { induction ts as [|[tid n] ts IH]; intros sent; cbn [foldl]; [by rewrite app_nil_r|].
    rewrite sendAndAwaitThenMark_spec. cbn [fst snd].
    change (wanted (add_sends sent p) (tid, n)) with (wanted p (tid, n)).
    destruct (decide (wanted p (tid, n))) as [Hw|Hw].
    - rewrite filter_cons_True by done.
      replace (add_sends [(tid, n)] (add_sends sent p)) with (add_sends (sent ++ [(tid, n)]) p).
      + by rewrite IH, <-app_assoc.
      + unfold add_sends. cbn. by rewrite fmap_app, app_assoc.
    - by rewrite filter_cons_False, <-IH by done. }
  specialize (Hall []). unfold add_sends in Hall at 1. cbn in Hall. rewrite app_nil_r in Hall.
  destruct p. exact Hall.
Qed.

Lemma wanted_sends_ok p ts :
  Forall (λ s, ∃ task, pr_tasks p !! sd_task s = Some task ∧ Some (sd_neighbor s) ≠ pt_source task)
    ((λ t, MkSend t.1 t.2 None) <$> filter (wanted p) ts).
Proof.
  apply Forall_fmap, Forall_forall. intros [tid n] [Hw _]%list_elem_of_filter. cbn.
  unfold wanted in Hw. cbn in Hw. destruct (pr_tasks p !! tid) as [task|]; [|done]. exists task. naive_solver.
Qed.

(** ** The invariant *)

Lemma gone_mono minTargets ttl maxMessages now now' count count' tid task t0 :
  (now ≤ now')%Z → count ≤ count' →
  gone minTargets ttl maxMessages now count tid task t0 → gone minTargets ttl maxMessages now' count' tid task t0.
Proof. intros ?? [?|[?|?]]; [left; lia|by right; left|right; right; lia]. Qed.

Lemma entry_ok_app minTargets ttl tasks fed task t0 e :
  entry_ok minTargets ttl tasks fed e → entry_ok minTargets ttl (tasks ++ [task]) (fed ++ [t0]) e.
Proof.
  intros (task' & t' & H1 & H2 & Hrest). exists task', t'. split_and!; [by apply lookup_app_l_Some..|tauto|tauto|tauto].
Qed.

Lemma stored_lt minTargets ttl maxMessages now fed p tid :
  prop_inv minTargets ttl maxMessages now fed p → tid ∈ stored_tids p → tid < length (pr_tasks p).
Proof.
  intros Hinv (e & -> & He)%list_elem_of_fmap.
  destruct (proj1 (Forall_forall _ _) (pi_entries _ _ _ _ _ _ Hinv) e He) as (task & t0 & Ht & _).
  by eapply lookup_lt_Some.
Qed.

(** An ascending list below [n] *)
Lemma sorted_head_bound (l : list nat) x n :
  StronglySorted lt (x :: l) → Forall (λ y, y < n) (x :: l) → x + length (x :: l) ≤ n.
Proof.
  revert x. induction l as [|y l IH]; intros x Hs Hn; cbn.
  { apply Forall_cons in Hn as [? _]. lia. }
  apply StronglySorted_inv in Hs as [Hs Hx]. apply Forall_cons in Hx as [Hxy _].
  apply Forall_cons in Hn as [_ Hn]. specialize (IH y Hs Hn). cbn in IH. lia.
Qed.

Lemma prop_new_inv minTargets maxMessages ttl now p :
  propagation_new minTargets maxMessages ttl = Return p → prop_inv minTargets ttl maxMessages now [] p.
Proof.
  unfold propagation_new. destruct (fifo_new ttl maxMessages) as [m|] eqn:Hn; [|done]. cbn. intros [= <-].
  destruct (fifo_new_inv _ _ _ Hn) as (Hi & Ht & Hm & Hv).
  split; cbn; rewrite ?Hv; try done; try constructor; try (intros; done).
  unfold stored_tids. cbn. rewrite Hv. constructor.
Qed.

(** Sending changes nothing but the sends. *)
Lemma add_sends_inv minTargets ttl maxMessages now fed p ts :
  prop_inv minTargets ttl maxMessages now fed p →
  prop_inv minTargets ttl maxMessages now fed (add_sends (filter (wanted p) ts) p).
Proof.
  intros []. split; cbn; [done..| |].
  - apply Forall_app. split; [done|]. apply wanted_sends_ok.
  - intros tid task n Ht Hn. apply elem_of_app. left. by eapply pi_handled0.
Qed.

Lemma join_inv minTargets ttl maxMessages now now' fed p n :
  prop_inv minTargets ttl maxMessages now fed p → (now ≤ now')%Z →
  prop_inv minTargets ttl maxMessages now' fed (onNeighborJoined now' n p).
Proof.
  intros Hinv Hle. unfold onNeighborJoined.
  destruct (fifo_values now' (pr_activeTaskStore p)) as [store tids] eqn:Hv.
  destruct (fifo_values_spec _ _ _ _ (pi_store _ _ _ _ _ _ Hinv) Hv) as (Hs & Ht & Hm & Hview & ->).
  rewrite send_to_all_spec. apply add_sends_inv.
  pose proof Hinv as []. split; cbn; try done; [congruence|congruence|..].
  - rewrite Hview. apply Forall_forall. intros e [_ He]%list_elem_of_filter.
    exact (proj1 (Forall_forall _ _) pi_entries0 e He).
  - unfold stored_tids in *. cbn. rewrite Hview. by apply StronglySorted_fmap_filter.
  - intros tid task t0 Htask Hfed. unfold stored_tids in *. cbn. rewrite Hview.
    destruct (pi_gone0 tid task t0 Htask Hfed) as [Hin|Hg]; [|right; by eapply gone_mono].
    apply list_elem_of_fmap in Hin as (e & -> & He).
    destruct (decide (live now' e)) as [Hl|Hl].
    + left. apply (list_elem_of_fmap_2 (λ e, e.2.1)). by apply list_elem_of_filter.
    + right. left. destruct (proj1 (Forall_forall _ _) pi_entries0 e He) as (task' & t' & _ & Hf' & _ & Hexp & _).
      unfold live in Hl. assert (t' = t0) by congruence. lia.
Qed.

(** What making room takes from an ascending store is older than as many tasks as it holds. *)
Lemma make_room_keeps maxMessages (l : list (nat * (nat * Z))) tid n :
  StronglySorted lt ((λ e, e.2.1) <$> l) → Forall (λ tid, tid < n) ((λ e, e.2.1) <$> l) →
  tid ∈ (λ e, e.2.1) <$> l →
  tid ∈ (λ e, e.2.1) <$> make_room maxMessages l ∨ (Z.of_nat tid + maxMessages ≤ Z.of_nat n)%Z.
Proof.
  intros Hs Hn Hin. unfold make_room.
  destruct (Z.eqb_spec (Z.of_nat (length l)) maxMessages) as [Hfull|]; [|by left].
  destruct l as [|e l]; [by left|]. rewrite fmap_cons in Hin, Hs, Hn.
  pose proof (sorted_head_bound _ _ _ Hs Hn) as Hb. rewrite length_cons, length_fmap in Hb.
  rewrite length_cons in Hfull. apply elem_of_cons in Hin as [->|Hin]; [right; lia|by left].
Qed.

(** A new task at the end of the store, the oldest entry gone when it was full *)
Lemma feed_store_inv minTargets ttl maxMessages now now' fed p m source store dropped :
  prop_inv minTargets ttl maxMessages now fed p → (now ≤ now')%Z →
  nm_ref m ∉ (nm_ref ∘ pt_message) <$> pr_tasks p →
  fifo_set now' (nm_ref m) (length (pr_tasks p)) (pr_activeTaskStore p) = (store, Return dropped) →
  prop_inv minTargets ttl maxMessages now' (fed ++ [now'])
    (MkPropagation (pr_minPropagationTargets p) store (pr_tasks p ++ [MkTask m source ∅]) (pr_sends p)).
Proof.
  intros Hinv Hle Hfresh Hset. pose proof Hinv as [Hmin Hstore Httl Hmax Hlen Hrefs Hent Hord Hgone Hsends Hhand].
  set (new := length (pr_tasks p)) in *.
  destruct (fifo_set_spec now' (nm_ref m) new _ Hstore) as (store' & d' & Hset' & Hs & Ht & Hm & Hview).
  rewrite Hset in Hset'. injection Hset' as <- <-. rewrite Hmax, Httl in Hview.
  assert (without (nm_ref m) (fifo_view (pr_activeTaskStore p)) = fifo_view (pr_activeTaskStore p)) as Hw.
  { apply filter_all. intros e He Hek. apply Hfresh. rewrite <-Hek.
    destruct (proj1 (Forall_forall _ _) Hent e He) as (task & t0 & Ht' & _ & -> & _).
    apply (list_elem_of_fmap_2 (nm_ref ∘ pt_message)). by eapply list_elem_of_lookup_2. }
  rewrite Hw in Hview. clear Hw.
  set (old := fifo_view (pr_activeTaskStore p)) in *.
  assert (Forall (λ tid, tid < new) (stored_tids p)) as Hlt.
  { apply Forall_forall. intros tid. by eapply stored_lt. }
  pose proof (make_room_sublist maxMessages old) as Hsub.
  assert (Forall (entry_ok minTargets ttl (pr_tasks p ++ [MkTask m source ∅]) (fed ++ [now'])) old) as Hent'.
  { eapply Forall_impl; [exact Hent|]. apply entry_ok_app. }
  assert (entry_ok minTargets ttl (pr_tasks p ++ [MkTask m source ∅]) (fed ++ [now'])
            (nm_ref m, (new, now' + ttl)%Z)) as Hnew.
  { exists (MkTask m source ∅), now'. cbn.
    split_and!; [by apply list_lookup_middle|by apply list_lookup_middle|done|done|]. by intros [? _]. }
  split; cbn; try done; try congruence.
  - rewrite !length_app. cbn. lia.
  - rewrite fmap_app. apply NoDup_app. split_and!; [done| |apply NoDup_singleton].
    intros x Hx ->%list_elem_of_singleton. done.
  - rewrite Hview. destruct (maxMessages =? 0)%Z; [done|]. apply Forall_app. split; [|by constructor].
    apply Forall_forall. intros e He. apply (proj1 (Forall_forall _ _) Hent'). by eapply sublist_subseteq.
  - unfold stored_tids. cbn. rewrite Hview. destruct (maxMessages =? 0)%Z; [done|].
    rewrite fmap_app. apply StronglySorted_app_2; [| |repeat constructor].
    + intros x y Hx ->%list_elem_of_singleton.
      apply (proj1 (Forall_forall _ _) Hlt). eapply sublist_subseteq; [|exact Hx]. by apply fmap_sublist.
    + eapply StronglySorted_sublist; [by apply fmap_sublist|exact Hord].
  - intros tid task t0 Htask Hfed. unfold stored_tids. cbn. rewrite Hview, length_app. cbn [length].
    destruct (decide (tid = new)) as [->|Hne].
    { destruct (Z.eqb_spec maxMessages 0) as [Hz|Hz]; [right; right; right; fold new; lia|left].
      rewrite fmap_app. apply elem_of_app. right. left. }
    assert (tid < new) as Hlt'.
    { apply lookup_lt_Some in Htask. rewrite length_app in Htask. cbn in Htask. fold new in Htask. lia. }
    rewrite lookup_app_l in Htask by done. rewrite lookup_app_l in Hfed by (rewrite Hlen; done).
    destruct (Hgone tid task t0 Htask Hfed) as [Hin|Hg]; [|right; eapply gone_mono; [exact Hle| |exact Hg]; lia].
    destruct (Z.eqb_spec maxMessages 0) as [Hz|Hz]; [right; right; right; lia|].
    rewrite fmap_app, elem_of_app.
    destruct (make_room_keeps maxMessages old tid new Hord Hlt Hin) as [?|?]; [auto|].
    right. right. right. fold new. lia.
  - eapply Forall_impl; [exact Hsends|]. intros sd (task & H1 & H2). exists task.
    split; [by apply lookup_app_l_Some|done].
  - intros tid task n Htask Hn. apply lookup_app_Some in Htask as [Htask|[_ Htask]]; [by eapply Hhand|].
    apply list_lookup_singleton_Some in Htask as [_ <-]. cbn in Hn. set_solver.
Qed.

Lemma feed_inv minTargets ttl maxMessages now now' fed p m targets source :
  prop_inv minTargets ttl maxMessages now fed p → (now ≤ now')%Z →
  nm_ref m ∉ (nm_ref ∘ pt_message) <$> pr_tasks p →
  prop_inv minTargets ttl maxMessages now' (fed ++ [now']) (feedUnseenMessage now' m targets source p).1 ∧
  (feedUnseenMessage now' m targets source p).2 = Return tt ∧
  (nm_ref ∘ pt_message) <$> pr_tasks (feedUnseenMessage now' m targets source p).1 =
    ((nm_ref ∘ pt_message) <$> pr_tasks p) ++ [nm_ref m].
Proof.
  intros Hinv Hle Hfresh. unfold feedUnseenMessage.
  destruct (fifo_set_spec now' (nm_ref m) (length (pr_tasks p)) _ (pi_store _ _ _ _ _ _ Hinv))
    as (store & d & Hset & _). rewrite Hset. cbn [fst snd]. rewrite send_to_all_spec. split_and!; [|done|].
  - apply add_sends_inv. by eapply feed_store_inv.
  - cbn. by rewrite fmap_app.
Qed.

(** ** A send ends *)

Lemma finished_mono minTargets m source handled n :
  finished minTargets (MkTask m source handled) → finished minTargets (MkTask m source ({[n]} ∪ handled)).
Proof.
  unfold finished. cbn. intros [Hne Hsz]. split; [set_solver|].
  pose proof (subseteq_size handled ({[n]} ∪ handled) ltac:(set_solver)). lia.
Qed.

Lemma mark_send_keeps i ok sends tid n sd :
  sends !! i = Some sd → sd_result sd = None →
  MkSend tid n (Some true) ∈ sends → MkSend tid n (Some true) ∈ mark_send i ok sends.
Proof.
  intros Hi Hr [j Hj]%list_elem_of_lookup. apply list_elem_of_lookup. exists j. unfold mark_send.
  rewrite list_lookup_alter_ne; [done|]. intros ->. rewrite Hi in Hj. by simplify_eq.
Qed.

Lemma mark_send_ok i ok (P : nat → string → Prop) sends :
  Forall (λ sd, P (sd_task sd) (sd_neighbor sd)) sends →
  Forall (λ sd, P (sd_task sd) (sd_neighbor sd)) (mark_send i ok sends).
Proof. intros HP. by apply Forall_alter. Qed.

(** The store after a task got one more neighbour *)
Lemma settle_store_spec minTargets ttl maxMessages now fed p tid n m source handled :
  prop_inv minTargets ttl maxMessages now fed p → pr_tasks p !! tid = Some (MkTask m source handled) →
  let task := MkTask m source ({[n]} ∪ handled) in
  let store := if (minTargets <=? Z.of_nat (size (pt_handledNeighbors task)))%Z
               then (fifo_delete (nm_ref m) (pr_activeTaskStore p)).1 else pr_activeTaskStore p in
  fifo_inv store ∧ fm_ttlInMs store = ttl ∧ fm_maxSize store = maxMessages ∧
  sublist (fifo_view store) (fifo_view (pr_activeTaskStore p)) ∧
  (∀ e, e ∈ fifo_view store → e.2.1 = tid → ¬ finished minTargets task) ∧
  (∀ e, e ∈ fifo_view (pr_activeTaskStore p) → e ∈ fifo_view store ∨ e.2.1 = tid ∧ finished minTargets task).
Proof.
  intros Hinv Htask task store. pose proof Hinv as [Hmin Hstore Httl Hmax Hlen Hrefs Hent _ _ _ _].
  assert (pt_handledNeighbors task ≠ ∅) as Hne by (cbn; set_solver).
  assert (∀ e, e ∈ fifo_view (pr_activeTaskStore p) → e.1 = nm_ref m ↔ e.2.1 = tid) as Hkey.
  { intros e He. destruct (proj1 (Forall_forall _ _) Hent e He) as (task' & t0 & Ht' & _ & -> & _).
    split; [|intros Heq; rewrite Heq in Ht'; by simplify_eq/=]. intros Heq.
    eapply (NoDup_lookup ((nm_ref ∘ pt_message) <$> pr_tasks p)); [exact Hrefs| |];
      rewrite list_lookup_fmap; [by rewrite Ht'|rewrite Htask]. cbn. by rewrite Heq. }
  unfold store. destruct (Z.leb_spec minTargets (Z.of_nat (size (pt_handledNeighbors task)))) as [Hle|Hgt].
  2: { split_and!; [done..| |auto]. intros e _ _ [_ ?]. lia. }
  destruct (fifo_delete (nm_ref m) (pr_activeTaskStore p)) as [store' d] eqn:Hd.
  destruct (fifo_delete_spec _ _ _ _ Hstore Hd) as (Hs & Hv & _ & Ht & Hm & _). cbn [fst]. rewrite Hv.
  split_and!; [done|congruence|congruence|apply sublist_filter| |].
  - intros e [Hk He]%list_elem_of_filter Heq. destruct Hk. by apply Hkey.
  - intros e He. destruct (decide (e.2.1 = tid)) as [Heq|Heq]; [right; by split|left].
    apply list_elem_of_filter. split; [|done]. by rewrite (Hkey e He).
Qed.

Lemma settle_inv minTargets ttl maxMessages now fed p i ok :
  prop_inv minTargets ttl maxMessages now fed p → prop_inv minTargets ttl maxMessages now fed (send_settled i ok p).
Proof.
  intros Hinv. pose proof Hinv as [Hmin Hstore Httl Hmax Hlen Hrefs Hent Hord Hgone Hsends Hhand].
  unfold send_settled. destruct (pr_sends p !! i) as [[tid n [r|]]|] eqn:Hi; [done| |done].
  pose proof (mark_send_ok i ok (λ t n, ∃ task, pr_tasks p !! t = Some task ∧ Some n ≠ pt_source task) _ Hsends) as Hsends'.
  assert (∀ t task n', pr_tasks p !! t = Some task → n' ∈ pt_handledNeighbors task →
            MkSend t n' (Some true) ∈ mark_send i ok (pr_sends p)) as Hhand'.
  { intros t task n' Ht Hn. eapply mark_send_keeps; [exact Hi|done|by eapply Hhand]. }
  destruct ok; [destruct (pr_tasks p !! tid) as [[m source handled]|] eqn:Htask|]; [|by split..].
  destruct (settle_store_spec _ _ _ _ _ _ _ n _ _ _ Hinv Htask) as (Hs & Ht & Hm & Hsub & Hnot & Hkept).
  rewrite Hmin. cbn [pt_handledNeighbors] in *. set (store := if (_ <=? _)%Z then _ else _) in *.
  set (task := MkTask m source ({[n]} ∪ handled)) in *.
  assert (∀ t, <[tid := task]> (pr_tasks p) !! t = if decide (t = tid) then Some task else pr_tasks p !! t) as Hl.
  { intros t. case_decide; [subst; apply list_lookup_insert_eq; by eapply lookup_lt_Some|by rewrite list_lookup_insert_ne]. }
  split; cbn; try done.
  - by rewrite length_insert.
  - rewrite list_fmap_insert. rewrite list_insert_id; [done|].
    by rewrite list_lookup_fmap, Htask.
  - apply Forall_forall. intros e He.
    destruct (proj1 (Forall_forall _ _) Hent e ltac:(by eapply sublist_subseteq)) as (task' & t0 & Ht' & Hf & Hk & Hexp & Hnf).
    destruct (decide (e.2.1 = tid)) as [Heq|Heq].
    + exists task, t0. rewrite Hl, decide_True by done. rewrite Heq, Htask in Ht'. simplify_eq/=.
      split_and!; [done..|exact (Hnot e He eq_refl)].
    + exists task', t0. rewrite Hl, decide_False by done. done.
  - eapply StronglySorted_sublist; [by apply fmap_sublist|exact Hord].
  - intros tid' task' t0 Ht' Hf. rewrite Hl in Ht'. rewrite length_insert.
    assert (∃ old, pr_tasks p !! tid' = Some old ∧
              (finished minTargets old → finished minTargets task')) as (old & Hold & Hfin).
    { case_decide as Heq; [subst tid'; simplify_eq; eexists; split; [exact Htask|apply finished_mono]|eauto]. }
    destruct (Hgone tid' old t0 Hold Hf) as [Hin|[?|[?|?]]]; [|right; by left|right; right; left; auto|right; right; by right].
    apply list_elem_of_fmap in Hin as (e & -> & He). destruct (Hkept e He) as [He'|[Heq Hfinished]].
    + left. by apply (list_elem_of_fmap_2 (λ e, e.2.1)).
    + right. right. left. rewrite decide_True in Ht' by done. by simplify_eq.
  - eapply Forall_impl; [exact Hsends'|]. intros sd (task' & H1 & H2). rewrite Hl. case_decide as Heq; [|eauto].
    exists task. split; [done|]. rewrite Heq, Htask in H1. by simplify_eq/=.
  - intros t task' n' Ht' Hn. rewrite Hl in Ht'. case_decide as Heq; [|by eapply Hhand']. subst t. simplify_eq.
    cbn in Hn. apply elem_of_union in Hn as [->%elem_of_singleton|Hn]; [|by eapply Hhand'].
    apply list_elem_of_lookup. exists i. unfold mark_send. by rewrite list_lookup_alter_eq, Hi.
Qed.

(** ** Runs *)

Lemma prop_inv_mono minTargets ttl maxMessages now now' fed p :
  (now ≤ now')%Z → prop_inv minTargets ttl maxMessages now fed p → prop_inv minTargets ttl maxMessages now' fed p.
Proof.
  intros Hle []. split; try done. intros tid task t0 Ht Hf.
  destruct (pi_gone0 tid task t0 Ht Hf); [by left|right; by eapply gone_mono].
Qed.

Notation task_refs p := ((nm_ref ∘ pt_message) <$> pr_tasks p).

Lemma send_settled_refs i ok p : task_refs (send_settled i ok p) = task_refs p.
Proof.
  unfold send_settled. destruct (pr_sends p !! i) as [[tid n [r|]]|]; [done| |done].
  destruct ok; [|done]. destruct (pr_tasks p !! tid) as [[m source handled]|] eqn:Ht; [|done]. cbn.
  rewrite list_fmap_insert, list_insert_id; [done|]. by rewrite list_lookup_fmap, Ht.
Qed.

Lemma onNeighborJoined_refs now n p : task_refs (onNeighborJoined now n p) = task_refs p.
Proof.
  unfold onNeighborJoined. destruct (fifo_values now (pr_activeTaskStore p)). by rewrite send_to_all_spec.
Qed.

Lemma prop_run_inv minTargets maxMessages ttl p0 evs now :
  propagation_new minTargets maxMessages ttl = Return p0 →
  StronglySorted Z.le evs.*1 → Forall (λ t, t ≤ now)%Z evs.*1 → NoDup (fed_refs evs) →
  prop_inv minTargets ttl maxMessages now (fed_times evs) (prop_run evs p0) ∧
  task_refs (prop_run evs p0) = fed_refs evs.
Proof.
  intros Hnew. revert now. induction evs as [|[t ev] evs IH] using rev_ind; intros now Hs Hn Hnd.
  { split; [by apply prop_new_inv|]. unfold propagation_new in Hnew.
    destruct (fifo_new ttl maxMessages); [|done]. by injection Hnew as <-. }
  rewrite fmap_app in Hs, Hn. apply Forall_app in Hn as [_ Hn]. apply Forall_cons in Hn as [Htn _]. cbn in Htn.
  assert (Forall (λ t', t' ≤ t)%Z evs.*1) as Hle.
  { apply Forall_forall. intros t' Ht'. eapply StronglySorted_app_1_elem_of; [exact Hs|done|by left]. }
  apply StronglySorted_app_1_l in Hs.
  assert (fed_refs (evs ++ [(t, ev)]) = fed_refs evs ++ fed_refs [(t, ev)]) as Hfr by apply omap_app.
  assert (fed_times (evs ++ [(t, ev)]) = fed_times evs ++ fed_times [(t, ev)]) as Hft by apply omap_app.
  rewrite Hfr in Hnd |- *. rewrite Hft.
  assert (NoDup (fed_refs evs)) as Hnd' by (by apply NoDup_app in Hnd as (? & _)).
  destruct (IH t Hs Hle Hnd') as [Hinv Hrefs].
  unfold prop_run in *. rewrite foldl_app. cbn [foldl]. unfold prop_step. cbn [fst snd].
  destruct ev as [m targets source|n|i ok].
  - change (fed_refs [(t, Feed m targets source)]) with [nm_ref m] in *.
    change (fed_times [(t, Feed m targets source)]) with [t].
    destruct (feed_inv _ _ _ _ t _ _ m targets source Hinv ltac:(done)) as (Hinv' & _ & Hrefs').
    { rewrite Hrefs. apply NoDup_app in Hnd as (_ & Hd & _). intros Hin. apply (Hd _ Hin). left. }
    split; [by eapply prop_inv_mono|]. exact (eq_trans Hrefs' (f_equal (λ l, l ++ [nm_ref m]) Hrefs)).
  - change (fed_refs [(t, Join n)]) with (@nil nat). change (fed_times [(t, Join n)]) with (@nil Z).
    rewrite !app_nil_r. split; [|by rewrite onNeighborJoined_refs]. eapply prop_inv_mono; [exact Htn|]. by eapply join_inv.
  - change (fed_refs [(t, Settle i ok)]) with (@nil nat). change (fed_times [(t, Settle i ok)]) with (@nil Z).
    rewrite !app_nil_r. split; [|by rewrite send_settled_refs]. eapply prop_inv_mono; [exact Htn|]. by apply settle_inv.
Qed.

(** The tasks that a joining neighbour is sent *)
Lemma join_sends minTargets ttl maxMessages now fed p n :
  prop_inv minTargets ttl maxMessages now fed p →
  ∃ tids, pr_sends (onNeighborJoined now n p) = pr_sends p ++ ((λ tid, MkSend tid n None) <$> tids) ∧
    StronglySorted lt tids ∧
    ∀ tid, tid ∈ tids ↔ wanted p (tid, n) ∧ ∃ e, e ∈ fifo_view (pr_activeTaskStore p) ∧ e.2.1 = tid ∧ live now e.
Proof.
  intros Hinv. unfold onNeighborJoined.
  destruct (fifo_values now (pr_activeTaskStore p)) as [store r] eqn:Hv.
  destruct (fifo_values_spec _ _ _ _ (pi_store _ _ _ _ _ _ Hinv) Hv) as (_ & _ & _ & _ & ->).
  rewrite send_to_all_spec. cbn.
  set (tids := filter (λ tid, wanted p (tid, n)) ((λ e, e.2.1) <$> filter (live now) (fifo_view (pr_activeTaskStore p)))).
  exists tids. split_and!.
  - f_equal. unfold tids. 
    rewrite (filter_fmap_agree (λ tid, (tid, n)) _ (λ tid, wanted p (tid, n))) by done.
    by rewrite <-list_fmap_compose.
  - unfold tids. eapply StronglySorted_sublist; [apply sublist_filter|].
    apply StronglySorted_fmap_filter. exact (pi_order _ _ _ _ _ _ Hinv).
  - intros tid. unfold tids. rewrite list_elem_of_filter, list_elem_of_fmap. split.
    + intros [Hw (e & -> & [Hl He]%list_elem_of_filter)]. eauto.
    + intros [Hw (e & He & <- & Hl)]. split; [done|]. exists e. split; [done|]. by apply list_elem_of_filter.
Qed.

(** Propagation reaches who joins, and stops.  In any run, a neighbour that joins is sent, in
    order and once each, messages fed less than the time to live ago that fewer than
    [minPropagationTargets] neighbours have, that it has not itself and did not come
    from it; and all of those that are among the last [maxMessages] fed.  Nothing is ever sent to the
    source of a message, who counts as having a message was sent it successfully, and the
    store never holds more than [maxMessages]. *)
Theorem propagation_reaches_who_joins minTargets maxMessages ttl p0 evs now n :
  propagation_new minTargets maxMessages ttl = Return p0 →
  StronglySorted Z.le evs.*1 → Forall (λ t, t ≤ now)%Z evs.*1 → NoDup (fed_refs evs) →
  let p := prop_run evs p0 in
  let due tid := ∃ task t0, pr_tasks p !! tid = Some task ∧ fed_times evs !! tid = Some t0 ∧ (now < t0 + ttl)%Z ∧
    ¬ finished minTargets task ∧ n ∉ pt_handledNeighbors task ∧ Some n ≠ pt_source task in
  (∃ tids, pr_sends (onNeighborJoined now n p) = pr_sends p ++ ((λ tid, MkSend tid n None) <$> tids) ∧
     StronglySorted lt tids ∧ Forall due tids ∧
     ∀ tid, due tid → (Z.of_nat (length (pr_tasks p)) ≤ Z.of_nat tid + maxMessages)%Z → tid ∈ tids) ∧
  (∀ s, s ∈ pr_sends p → ∃ task, pr_tasks p !! sd_task s = Some task ∧ Some (sd_neighbor s) ≠ pt_source task) ∧
  (∀ tid task n', pr_tasks p !! tid = Some task → n' ∈ pt_handledNeighbors task →
     MkSend tid n' (Some true) ∈ pr_sends p) ∧
  (fm_size (pr_activeTaskStore p) ≤ maxMessages)%Z.
Proof.
  intros Hnew Hs Hn Hnd p due. destruct (prop_run_inv _ _ _ _ _ _ Hnew Hs Hn Hnd) as [Hinv _]. fold p in Hinv.
  split_and!.
  - destruct (join_sends _ _ _ _ _ _ n Hinv) as (tids & Hsends & Hord & Hin). exists tids.
    split_and!; [done|done| |].
    + apply Forall_forall. intros tid (Hw & e & He & <- & Hl)%Hin.
      destruct (proj1 (Forall_forall _ _) (pi_entries _ _ _ _ _ _ Hinv) e He) as (task & t0 & Ht & Hf & _ & Hexp & Hnf).
      unfold wanted in Hw. cbn in Hw. rewrite Ht in Hw. unfold live in Hl. exists task, t0.
      split_and!; [done|done|lia|done|tauto|tauto].
    + intros tid (task & t0 & Ht & Hf & Hlive & Hnf & Hw) Hrecent. apply Hin.
      split; [unfold wanted; cbn; by rewrite Ht|].
      destruct (pi_gone _ _ _ _ _ _ Hinv tid task t0 Ht Hf) as [He|[?|[?|?]]]; [|lia|done|lia].
      apply list_elem_of_fmap in He as (e & -> & He). exists e. split_and!; [done..|].
      destruct (proj1 (Forall_forall _ _) (pi_entries _ _ _ _ _ _ Hinv) e He) as (task' & t' & _ & Hf' & _ & Hexp & _).
      unfold live. assert (t' = t0) by congruence. lia.
  - apply Forall_forall. exact (pi_sends _ _ _ _ _ _ Hinv).
  - exact (pi_handled _ _ _ _ _ _ Hinv).
  - rewrite <-(pi_max _ _ _ _ _ _ Hinv). apply fi_size, (pi_store _ _ _ _ _ _ Hinv).
Qed.
End propagation_facts.

(** * Runs of a node *)

Inductive node_event :=
  | Receive (message : net_message) (previousNode : string) (targets : list string) (temporary : bool)
  | Publish (message : net_message) (targets : list string) (temporary : bool)
  | NeighborJoined (neighborId : string)
  | SendSettled (i : nat) (ok : bool).

Definition event_message (ev : node_event) : option net_message :=
  match ev with Receive m _ _ _ | Publish m _ _ => Some m | _ => None end.

Section node_facts.
  Context {Y : Type} `{!Yallist nat Y}.
  Implicit Types (n : @delivery_node Y) (p : @Propagation Y).

Definition with_propagation p n : @delivery_node Y :=
  MkDeliveryNode (dn_duplicateDetectors n) p (dn_messagesPropagated n) (dn_emitted n).

Definition node_step n (ev : Z * node_event) : @delivery_node Y :=
  match ev.2 with
  | Receive m previousNode targets temporary => (sendStreamMessage ev.1 m previousNode targets temporary n).1
  | Publish m targets temporary => (broadcast ev.1 m None targets temporary n).1
  | NeighborJoined neighborId => with_propagation (onNeighborJoined ev.1 neighborId (dn_propagation n)) n
  | SendSettled i ok => with_propagation (send_settled i ok (dn_propagation n)) n
  end.

(** What a step emits *)
Definition step_emits n (ev : Z * node_event) : list net_message :=
  drop (length (dn_emitted n)) (dn_emitted (node_step n ev)).

(** A run, with the messages emitted because they were received *)
Fixpoint node_run (evs : list (Z * node_event)) n : @delivery_node Y * list net_message :=
  match evs with
  | [] => (n, [])
  | ev :: evs =>
      let '(n', received) := node_run evs (node_step n ev) in
      (n', match ev.2 with Receive _ _ _ _ => step_emits n ev | _ => [] end ++ received)
  end.

Definition node_new p : @delivery_node Y := MkDeliveryNode ∅ p 0 [].

(** What is emitted is what is propagated. *)
Record node_inv n : Prop := {
  ni_store : fifo_inv (pr_activeTaskStore (dn_propagation n));
  ni_fed : pt_message <$> pr_tasks (dn_propagation n) = dn_emitted n;
  ni_count : dn_messagesPropagated n = Z.of_nat (length (dn_emitted n))
}.

Definition number_of (m : net_message) : string * NumberPair := (detector_key m, nm_number m).

(** The detectors count the numbers in [seen] as seen. *)
Definition detectors_seen (seen : string * NumberPair → Prop) (detectors : gmap string detector) : Prop :=
  ∀ key, let d := default (detector_new MAX_GAP_COUNT) (detectors !! key) in
    has_seen (λ x, seen (key, x)) d ∧ maxGapCount d = MAX_GAP_COUNT.

Lemma has_seen_weaken (seen seen' : NumberPair → Prop) d :
  (∀ x, seen' x → seen x) → has_seen seen d → has_seen seen' d.
Proof. intros Hw [[? Hs]|[? Hs]]; [left|right]; (split; [done|]); intros x; naive_solver. Qed.

Lemma mark_detectors m detectors detectors' r (seen : string * NumberPair → Prop) :
  detectors_seen seen detectors → finite (nm_number m) → markAndCheckDuplicate m detectors = (detectors', r) →
  (r = Return true → ¬ seen (number_of m)) ∧
  detectors_seen (λ x, seen x ∨ r = Return true ∧ x = number_of m) detectors'.
Proof.
  intros Hs Hfin. unfold markAndCheckDuplicate. destruct (Hs (detector_key m)) as [Hk Hm].
  destruct (markAndCheck _ _ _) as [d' r'] eqn:Hmark. intros [= <- <-].
  destruct (mark_seen _ _ _ _ _ _ Hk ltac:(rewrite Hm; unfold MAX_GAP_COUNT; lia) Hfin Hmark) as (Hnew & Hmd & Hs').
  split; [done|]. intros key. destruct (decide (detector_key m = key)) as [<-|Hne].
  - rewrite lookup_insert_eq. cbn [default from_option id]. split; [|by rewrite Hmd]. eapply has_seen_weaken; [|exact Hs'].
    intros x [?|[? Hx]]; [by left|right]. split; [done|]. by injection Hx.
  - rewrite lookup_insert_ne by done. destruct (Hs key) as [Hk' Hm']. split; [|done].
    eapply has_seen_weaken; [|exact Hk']. intros x [?|[_ Hx]]; [done|]. by injection Hx as -> _.
Qed.

(** Feeding a node's propagation adds one task, for the message. *)
Lemma feed_fed now m targets source p :
  fifo_inv (pr_activeTaskStore p) →
  ∃ p', feedUnseenMessage now m targets source p = (p', Return tt) ∧ fifo_inv (pr_activeTaskStore p') ∧
    pt_message <$> pr_tasks p' = (pt_message <$> pr_tasks p) ++ [m].
Proof.
  intros Hinv. unfold feedUnseenMessage.
  destruct (fifo_set_spec now (nm_ref m) (length (pr_tasks p)) _ Hinv) as (store & d & -> & Hs & _).
  eexists. split; [reflexivity|]. rewrite send_to_all_spec. cbn. split; [done|]. by rewrite fmap_app.
Qed.

Lemma broadcast_checked_spec now m previousNode targets temporary n :
  node_inv n →
  let n' := (broadcast_checked now m previousNode targets temporary n).1 in
  node_inv n' ∧ dn_emitted n' = dn_emitted n ++ [m] ∧ dn_duplicateDetectors n' = dn_duplicateDetectors n.
Proof.
  intros [Hs Hf Hc]. unfold broadcast_checked.
  destruct (feed_fed now m targets (if temporary then None else previousNode) _ Hs) as (p' & -> & Hs' & Hf').
  split_and!; [split; cbn; [done|by rewrite Hf', Hf|rewrite length_app; cbn; lia]|done..].
Qed.

Lemma with_detectors_inv detectors n : node_inv n → node_inv (with_detectors detectors n).
Proof. intros []. by split. Qed.

Lemma node_step_other_inv n now ev :
  event_message ev = None → node_inv n →
  node_inv (node_step n (now, ev)) ∧ dn_emitted (node_step n (now, ev)) = dn_emitted n ∧
  dn_duplicateDetectors (node_step n (now, ev)) = dn_duplicateDetectors n.
Proof.
  intros Hm [Hs Hf Hc]. destruct ev as [| |neighborId|i ok]; try done; unfold node_step; cbn; (split; [split|done]); cbn; try done.
  - unfold onNeighborJoined. destruct (fifo_values now _) as [store r] eqn:Hv. rewrite send_to_all_spec. cbn.
    by destruct (fifo_values_spec _ _ _ _ Hs Hv) as (? & _).
  - unfold onNeighborJoined. destruct (fifo_values now _) as [store r]. by rewrite send_to_all_spec.
  - unfold send_settled. destruct (pr_sends _ !! i) as [[tid n' [r|]]|]; [done| |done].
    destruct ok; [|done]. destruct (pr_tasks _ !! tid) as [[m source handled]|]; [|done]. cbn.
    destruct (_ <=? _)%Z; [|done]. destruct (fifo_delete (nm_ref m) _) as [store d] eqn:Hd.
    by destruct (fifo_delete_spec _ _ _ _ Hs Hd) as (? & _).
  - unfold send_settled. destruct (pr_sends _ !! i) as [[tid n' [r|]]|]; [done| |done].
    destruct ok; [|done]. destruct (pr_tasks _ !! tid) as [[m source handled]|] eqn:Ht; [|done]. cbn.
    rewrite list_fmap_insert, list_insert_id; [done|]. by rewrite list_lookup_fmap, Ht.
Qed.

(** One step: the invariant stays, and what a reception emits was not seen and is then. *)
Lemma node_step_spec n ev (seen : string * NumberPair → Prop) :
  node_inv n → detectors_seen seen (dn_duplicateDetectors n) →
  (∀ m, event_message ev.2 = Some m → finite (nm_number m)) →
  let new := match ev.2 with Receive _ _ _ _ => step_emits n ev | _ => [] end in
  node_inv (node_step n ev) ∧ NoDup (number_of <$> new) ∧ (∀ m, m ∈ new → ¬ seen (number_of m)) ∧
  detectors_seen (λ x, seen x ∨ x ∈ number_of <$> new) (dn_duplicateDetectors (node_step n ev)).
Proof.
  intros Hinv Hseen Hfin new. destruct ev as [now ev].
  assert (∀ (detectors : gmap string detector) (seen' : string * NumberPair → Prop),
    detectors_seen seen' detectors → (∀ x, seen x → seen' x) → detectors_seen (λ x, seen x ∨ x ∈ number_of <$> []) detectors) as Hweak.
  { intros detectors seen' Hd Hs key. destruct (Hd key) as [Hk Hm]. split; [|done].
    eapply has_seen_weaken; [|exact Hk]. intros x [?|Hx]; [auto|]. by apply not_elem_of_nil in Hx. }
  destruct (event_message ev) as [m|] eqn:Hev.
  2: { destruct (node_step_other_inv n now ev Hev Hinv) as (Hinv' & He & Hd).
       assert (new = []) as -> by (unfold new; destruct ev; done).
       split_and!; [done|constructor|by intros m ?%not_elem_of_nil|]. rewrite Hd. by eapply Hweak. }
  specialize (Hfin m Hev).
  destruct (markAndCheckDuplicate m (dn_duplicateDetectors n)) as [detectors r] eqn:Hmark.
  destruct (mark_detectors _ _ _ _ _ Hseen Hfin Hmark) as [Hnew Hseen'].
  pose proof (with_detectors_inv detectors n Hinv) as Hinv1.
  destruct ev as [m' previousNode targets temporary|m' targets temporary| |]; simplify_eq/=.
  - unfold new, step_emits, node_step. cbn. unfold sendStreamMessage. rewrite Hmark.
    destruct r as [[]|e]; cbn.
    + destruct (broadcast_checked_spec now m (Some previousNode) targets temporary _ Hinv1) as (Hinv2 & He & Hd).
      rewrite He, Hd. cbn. rewrite drop_app_length. split_and!; [done|apply NoDup_singleton| |].
      * intros m' ->%list_elem_of_singleton. by apply Hnew.
      * intros key. destruct (Hseen' key) as [Hk Hm]. split; [|done].
        eapply has_seen_weaken; [|exact Hk]. intros x [?|Hx%list_elem_of_singleton]; [by left|by right].
    + rewrite drop_all. split_and!; [done|constructor|by intros ? ?%not_elem_of_nil|]. eapply Hweak; [exact Hseen'|by left].
    + rewrite drop_all. split_and!; [done|constructor|by intros ? ?%not_elem_of_nil|]. eapply Hweak; [exact Hseen'|by left].
  - unfold new, node_step. cbn. unfold broadcast. rewrite Hmark. destruct r as [b|e]; cbn.
    + destruct (broadcast_checked_spec now m None targets temporary _ Hinv1) as (Hinv2 & He & Hd).
      rewrite Hd. split_and!; [done|constructor|by intros ? ?%not_elem_of_nil|]. eapply Hweak; [exact Hseen'|by left].
    + split_and!; [done|constructor|by intros ? ?%not_elem_of_nil|]. eapply Hweak; [exact Hseen'|by left].
Qed.

Lemma node_run_spec evs n (seen : string * NumberPair → Prop) :
  node_inv n → detectors_seen seen (dn_duplicateDetectors n) →
  Forall (λ ev, ∀ m, event_message ev.2 = Some m → finite (nm_number m)) evs →
  let '(n', received) := node_run evs n in
  node_inv n' ∧ NoDup (number_of <$> received) ∧ ∀ m, m ∈ received → ¬ seen (number_of m).
Proof.
  revert n seen. induction evs as [|ev evs IH]; intros n seen Hinv Hseen Hfin; cbn.
  { split_and!; [done|constructor|by intros m ?%not_elem_of_nil]. }
  apply Forall_cons in Hfin as [Hev Hfin].
  destruct (node_step_spec n ev seen Hinv Hseen Hev) as (Hinv1 & Hnd1 & Hnew1 & Hseen1).
  specialize (IH _ _ Hinv1 Hseen1 Hfin). destruct (node_run evs (node_step n ev)) as [n' received].
  destruct IH as (Hinv2 & Hnd2 & Hnew2). split_and!; [done| |].
  - rewrite fmap_app. apply NoDup_app. split_and!; [done| |done].
    intros x Hx (m & -> & Hm)%list_elem_of_fmap. apply (Hnew2 m Hm). by right.
  - intros m [Hm|Hm]%elem_of_app; [by apply Hnew1|]. intros Hs. apply (Hnew2 m Hm). by left.
Qed.

(** C32: a message is delivered once.  However many neighbours send a message, in whatever order and
    interleaved with messages of the node's own, neighbours joining and sends ending, of the messages received no two with
    the same publisher, chain and number are given to the application and passed on; what is given to
    the application is what is propagated, in order, and the count of propagated messages is right. *)
Theorem node_delivers_once minTargets maxMessages ttl p0 evs :
  propagation_new minTargets maxMessages ttl = Return p0 →
  Forall (λ ev, ∀ m, event_message ev.2 = Some m → finite (nm_number m)) evs →
  let '(n, received) := node_run evs (node_new p0) in
  NoDup (number_of <$> received) ∧
  pt_message <$> pr_tasks (dn_propagation n) = dn_emitted n ∧
  dn_messagesPropagated n = Z.of_nat (length (dn_emitted n)).
Proof.
  intros Hnew Hfin.
  assert (node_inv (node_new p0)) as Hinv.
  { unfold propagation_new in Hnew. destruct (fifo_new ttl maxMessages) as [store|] eqn:Hf; [|done].
    injection Hnew as <-. by destruct (fifo_new_inv _ _ _ Hf) as (? & _). }
  pose proof (node_run_spec evs (node_new p0) (λ _, False) Hinv) as Hrun.
  destruct (node_run evs (node_new p0)) as [n received].
  destruct Hrun as ([_ Hf Hc] & Hnd & _); [|done|done].
  intros key. cbn. rewrite lookup_empty. cbn [default from_option id]. split; [|done]. left. split; [done|]. by intros x [].
Qed.
End node_facts.

Module PropagationWitness.
Definition no_tasks : Propagation (Y:=list (nat * nat)) :=
  MkPropagation 2 (MkFifo [] [] 0 10000 150) [] [].
Definition message (ref : nat) (t : Z) (prev : option NumberPair) : net_message :=
  MkNetMessage ref "0xaa" "c" (MkPair (Num t) (Num 0)) prev.
Definition first_two : list (Z * prop_event) :=
  [(0%Z, Feed (message 1 100 None) ["a"; "b"] (Some "a")); (5%Z, Feed (message 2 101 None) ["a"; "b"] None);
   (6%Z, Settle 0 true); (7%Z, Settle 1 true); (7%Z, Settle 2 true)].

(** The second message is with two neighbours when [c] joins; the first, with one only, is sent. *)
Lemma propagation_reaches_who_joins_witness :
  let p := prop_run first_two no_tasks in
  pr_sends (onNeighborJoined 9 "c" p) = pr_sends p ++ [MkSend 0 "c" None] ∧
  (fm_size (pr_activeTaskStore p) ≤ 150)%Z.
Proof.
  cbv zeta. split; [vm_compute; reflexivity|].
  refine (proj2 (proj2 (proj2 (propagation_reaches_who_joins 2 150 10000 no_tasks first_two 9 "c" _ _ _ _)))).
  - reflexivity.
  - repeat constructor; vm_compute; congruence.
  - repeat constructor; vm_compute; congruence.
  - apply (bool_decide_unpack _). vm_compute. exact I.
Defined.

(** Two neighbours send the same two messages. *)
Definition crossing : list (Z * node_event) :=
  [(0%Z, Receive (message 1 100 None) "a" ["a"; "b"] false);
   (1%Z, Receive (message 2 101 (Some (MkPair (Num 100) (Num 0)))) "b" ["a"; "b"] false);
   (2%Z, Receive (message 3 100 None) "b" ["a"; "b"] false);
   (3%Z, Receive (message 4 101 (Some (MkPair (Num 100) (Num 0)))) "a" ["a"; "b"] false)].

Lemma node_delivers_once_witness :
  nm_ref <$> (node_run crossing (node_new no_tasks)).2 = [1; 2] ∧
  NoDup (number_of <$> (node_run crossing (node_new no_tasks)).2).
Proof.
  split; [vm_compute; reflexivity|].
  pose proof (node_delivers_once 2 150 10000 no_tasks crossing eq_refl) as H.
  assert (Forall (λ ev, ∀ m, event_message ev.2 = Some m → finite (nm_number m)) crossing) as Hfin.
  { repeat constructor; intros m [= <-]; vm_compute; congruence. }
  specialize (H Hfin). revert H. destruct (node_run crossing (node_new no_tasks)) as [n received].
  intros [H _]. exact H.
Defined.
End PropagationWitness.
