(* ===== verification/Plumtree.v ===== *)
(** The plumtree optimisation of message delivery
    (packages/trackerless-network/src/content-delivery-layer/plumtree: PausedNeighbors.ts,
    PlumtreeManager.ts, PlumtreeRpcLocal.ts) and the plumtree branch of
    ContentDeliveryRpcLocal.sendStreamMessage.

    A node that gets a message twice asks the second sender to pause: that neighbour then
    sends the ids of messages only ("metadata").  When metadata runs ahead of the messages,
    the neighbour is asked to resume and sends what it still has.

    What an operation sends or emits is a list of effects, in order.  [setImmediate] and the
    end of an awaited request are events of their own. *)

From S2P Require Import Prelude.
From S2P Require Import Js.
From S2P Require Import JsMap.
From S2P Require Import Duplicates.
From S2P Require Import NodeList.
From S2P Require Import Propagation.

Set Default Proof Using "Type".

(** * PausedNeighbors *)

Record PausedNeighbors := MkPaused { pn_pausedNeighbors : jsmap string (gset string); pn_limit : nat }.
Implicit Types (p : PausedNeighbors) (node msgChainId : string).

Definition paused_new (limit : nat) : PausedNeighbors := MkPaused [] limit.

Definition pn_set msgChainId p : gset string := default ∅ (map_get msgChainId (pn_pausedNeighbors p)).

Definition pn_add node msgChainId p : PausedNeighbors :=
  let paused := if map_has msgChainId (pn_pausedNeighbors p) then pn_pausedNeighbors p
                else map_set msgChainId ∅ (pn_pausedNeighbors p) in
  let neighbors := default ∅ (map_get msgChainId paused) in
  if (pn_limit p <=? size neighbors)%nat then MkPaused paused (pn_limit p)
  else MkPaused (map_set msgChainId ({[node]} ∪ neighbors) paused) (pn_limit p).

Definition pn_delete node msgChainId p : PausedNeighbors :=
  match map_get msgChainId (pn_pausedNeighbors p) with
  | None => p
  | Some neighbors =>
      let neighbors := neighbors ∖ {[node]} in
      MkPaused (if (size neighbors =? 0)%nat then map_delete msgChainId (pn_pausedNeighbors p)
                else map_set msgChainId neighbors (pn_pausedNeighbors p)) (pn_limit p)
  end.

Definition pn_deleteAll node p : PausedNeighbors :=
  MkPaused (filter (λ e, size e.2 ≠ 0) ((λ e, (e.1, e.2 ∖ {[node]})) <$> pn_pausedNeighbors p)) (pn_limit p).

Definition isPaused node msgChainId p : bool :=
  if map_has msgChainId (pn_pausedNeighbors p) then bool_decide (node ∈ pn_set msgChainId p) else false.

Definition pn_size msgChainId p : nat := size (pn_set msgChainId p).

(** * PlumtreeManager *)

Definition MAX_PAUSED_NEIGHBORS_DEFAULT : nat := 3.

Record PlumtreeManager := MkPlumtree {
  pm_localPausedNeighbors : PausedNeighbors;
  pm_remotePausedNeighbors : PausedNeighbors;
  pm_latestMessages : gmap string (list net_message);
  pm_metadataTimestampsAheadOfRealData : gmap string (gset Z);
  pm_maxPausedNeighbors : nat
}.
Implicit Types (pm : PlumtreeManager) (msg : net_message) (neighbors : NodeList).

Definition plumtree_new (maxPausedNeighbors : option nat) : PlumtreeManager :=
  let limit := default MAX_PAUSED_NEIGHBORS_DEFAULT maxPausedNeighbors in
  MkPlumtree (paused_new limit) (paused_new limit) ∅ ∅ limit.

Definition with_local p pm : PlumtreeManager :=
  MkPlumtree p (pm_remotePausedNeighbors pm) (pm_latestMessages pm)
    (pm_metadataTimestampsAheadOfRealData pm) (pm_maxPausedNeighbors pm).
Definition with_remote p pm : PlumtreeManager :=
  MkPlumtree (pm_localPausedNeighbors pm) p (pm_latestMessages pm)
    (pm_metadataTimestampsAheadOfRealData pm) (pm_maxPausedNeighbors pm).
Definition with_ahead (ahead : gmap string (gset Z)) pm : PlumtreeManager :=
  MkPlumtree (pm_localPausedNeighbors pm) (pm_remotePausedNeighbors pm) (pm_latestMessages pm)
    ahead (pm_maxPausedNeighbors pm).

(** [messageId.timestamp]; the protobuf field is a finite number *)
Definition timestamp_of msg : Z := match np_a (nm_number msg) with Num t => t | Infinity => 0 end.

Inductive plum_effect :=
  | SendMessage (to : string) (msg : net_message)
  | SendMetadata (to : string) (msg : net_message)            (** its [messageId] *)
  | PauseRequest (to msgChainId : string)
  | ResumeRequest (to : string) (fromTimestamp : Z) (msgChainId : string)
  | EmitMessage (msg : net_message)
  | ResumeLater (to msgChainId : string).                     (** the [setImmediate] of [onNeighborRemoved] *)

Definition pauseNeighbor neighbors node msgChainId pm : PlumtreeManager * list plum_effect :=
  if nl_has node neighbors && negb (isPaused node msgChainId (pm_remotePausedNeighbors pm))
     && (pn_size msgChainId (pm_remotePausedNeighbors pm) <? pm_maxPausedNeighbors pm)%nat
  then (with_remote (pn_add node msgChainId (pm_remotePausedNeighbors pm)) pm, [PauseRequest node msgChainId])
  else (pm, []).

Definition resumeNeighbor node msgChainId (fromTimestamp : Z) pm : PlumtreeManager * list plum_effect :=
  if isPaused node msgChainId (pm_remotePausedNeighbors pm)
  then (with_remote (pn_delete node msgChainId (pm_remotePausedNeighbors pm)) pm,
        [ResumeRequest node fromTimestamp msgChainId])
  else (pm, []).

Definition getLatestMessageTimestamp msgChainId pm : Z :=
  match last (default [] (pm_latestMessages pm !! msgChainId)) with
  | Some msg => timestamp_of msg
  | None => 0
  end.

(** Called after the neighbour left the list *)
Definition onNeighborRemoved neighbors (nodeId : string) pm : PlumtreeManager * list plum_effect :=
  let pm := with_local (pn_deleteAll nodeId (pm_localPausedNeighbors pm)) pm in
  let pm := with_remote (pn_deleteAll nodeId (pm_remotePausedNeighbors pm)) pm in
  (pm, if (0 <? nl_size [] neighbors)%nat then
         omap (λ e, if (nl_size [] neighbors <=? size e.2)%nat
                    then (λ neighborToResume, ResumeLater (rc_nodeId neighborToResume) e.1) <$>
                           getFirst [] false neighbors
                    else None)
           (pn_pausedNeighbors (pm_remotePausedNeighbors pm))
       else []).

Definition sendBuffer (fromTimestamp : Z) msgChainId (neighbor : string) pm : list plum_effect :=
  SendMessage neighbor <$>
    filter (λ msg, fromTimestamp < timestamp_of msg)%Z (default [] (pm_latestMessages pm !! msgChainId)).

Definition clear_ahead msgChainId pm : PlumtreeManager :=
  with_ahead (<[msgChainId := ∅]> (pm_metadataTimestampsAheadOfRealData pm)) pm.

(** The last component tells whether the call awaits its request; what follows is [clear_ahead]. *)
Definition onMetadata msg (previousNode : string) pm : PlumtreeManager * list plum_effect * bool :=
  let chain := nm_messageChainId msg in
  let latestMessageTimestamp := getLatestMessageTimestamp chain pm in
  if (latestMessageTimestamp <? timestamp_of msg)%Z then
    let ahead := {[timestamp_of msg]} ∪ default ∅ (pm_metadataTimestampsAheadOfRealData pm !! chain) in
    let pm := with_ahead (<[chain := ahead]> (pm_metadataTimestampsAheadOfRealData pm)) pm in
    if (1 <? size ahead)%nat then
      match resumeNeighbor previousNode chain (getLatestMessageTimestamp chain pm) pm with
      | (pm, []) => (clear_ahead chain pm, [], false)
      | (pm, effects) => (pm, effects, true)
      end
    else (pm, [], false)
  else (pm, [], false).

Definition LATEST_MESSAGES : nat := 20.

(** The buffer of the latest messages *)
Definition push_latest msg (messages : list net_message) : list net_message :=
  if (length messages <? LATEST_MESSAGES)%nat then messages ++ [msg] else tail messages ++ [msg].

Definition plumtree_broadcast neighbors msg (previousNode : string) pm : PlumtreeManager * list plum_effect :=
  let chain := nm_messageChainId msg in
  let latest := push_latest msg (default [] (pm_latestMessages pm !! chain)) in
  let ahead := alter (λ timestamps, timestamps ∖ {[timestamp_of msg]}) chain
                 (pm_metadataTimestampsAheadOfRealData pm) in
  let pm := MkPlumtree (pm_localPausedNeighbors pm) (pm_remotePausedNeighbors pm)
              (<[chain := latest]> (pm_latestMessages pm)) ahead (pm_maxPausedNeighbors pm) in
  let receivers := filter (λ neighbor, rc_nodeId neighbor ≠ previousNode) (getAll neighbors) in
  (pm, EmitMessage msg ::
       ((λ neighbor, if isPaused (rc_nodeId neighbor) chain (pm_localPausedNeighbors pm)
                     then SendMetadata (rc_nodeId neighbor) msg
                     else SendMessage (rc_nodeId neighbor) msg) <$> receivers)).

Definition isNeighborPaused node msgChainId pm : bool :=
  isPaused node msgChainId (pm_localPausedNeighbors pm) || isPaused node msgChainId (pm_remotePausedNeighbors pm).

(** * PlumtreeRpcLocal *)

Definition rpc_pauseNeighbor neighbors (sender msgChainId : string) pm : PlumtreeManager :=
  if nl_has sender neighbors then with_local (pn_add sender msgChainId (pm_localPausedNeighbors pm)) pm else pm.

Definition rpc_resumeNeighbor (sender : string) (fromTimestamp : Z) msgChainId pm : PlumtreeManager * list plum_effect :=
  let pm := with_local (pn_delete sender msgChainId (pm_localPausedNeighbors pm)) pm in
  (pm, sendBuffer fromTimestamp msgChainId sender pm).

(** * A node with plumtree *)

Record plum_node := MkPlumNode {
  pl_neighbors : NodeList;
  pl_duplicateDetectors : gmap string detector;
  pl_manager : PlumtreeManager
}.

Definition with_manager pm (n : plum_node) : plum_node :=
  MkPlumNode (pl_neighbors n) (pl_duplicateDetectors n) pm.

(** [ContentDeliveryRpcLocal.sendStreamMessage], with plumtree *)
Definition sendStreamMessage msg (previousNode : string) (n : plum_node)
    : plum_node * outcome detector_error (list plum_effect) :=
  match markAndCheckDuplicate msg (pl_duplicateDetectors n) with
  | (detectors, Throw e) => (MkPlumNode (pl_neighbors n) detectors (pl_manager n), Throw e)
  | (detectors, Return true) =>
      let '(pm, effects) := plumtree_broadcast (pl_neighbors n) msg previousNode (pl_manager n) in
      (MkPlumNode (pl_neighbors n) detectors pm, Return effects)
  | (detectors, Return false) =>
      let '(pm, effects) := pauseNeighbor (pl_neighbors n) previousNode (nm_messageChainId msg) (pl_manager n) in
      (MkPlumNode (pl_neighbors n) detectors pm, Return effects)
  end.

Inductive plum_event :=
  | Received (msg : net_message) (previousNode : string)
  | Metadata (msg : net_message) (previousNode : string)
  | Paused (sender msgChainId : string)
  | Resumed (sender : string) (fromTimestamp : Z) (msgChainId : string)
  | Immediate (neighborToResume msgChainId : string)
  | MetadataRequestEnded (msgChainId : string) (ok : bool)
  | NeighborAdd (remote : content_remote)
  | NeighborRemove (nodeId : string).

Definition plum_step (n : plum_node) (ev : plum_event) : plum_node * list plum_effect :=
  match ev with
  | Received msg previousNode =>
      match sendStreamMessage msg previousNode n with
      | (n, Return effects) => (n, effects)
      | (n, Throw _) => (n, [])
      end
  | Metadata msg previousNode =>
      let '(pm, effects, _) := onMetadata msg previousNode (pl_manager n) in (with_manager pm n, effects)
  | Paused sender msgChainId =>
      (with_manager (rpc_pauseNeighbor (pl_neighbors n) sender msgChainId (pl_manager n)) n, [])
  | Resumed sender fromTimestamp msgChainId =>
      let '(pm, effects) := rpc_resumeNeighbor sender fromTimestamp msgChainId (pl_manager n) in
      (with_manager pm n, effects)
  | Immediate neighborToResume msgChainId =>
      let '(pm, effects) := resumeNeighbor neighborToResume msgChainId
                              (getLatestMessageTimestamp msgChainId (pl_manager n)) (pl_manager n) in
      (with_manager pm n, effects)
  | MetadataRequestEnded msgChainId ok =>
      (if ok then with_manager (clear_ahead msgChainId (pl_manager n)) n else n, [])
  | NeighborAdd remote =>
      (MkPlumNode (nl_add remote (pl_neighbors n)).1 (pl_duplicateDetectors n) (pl_manager n), [])
  | NeighborRemove nodeId =>
      let '(neighbors, evs) := nl_remove nodeId (pl_neighbors n) in
      match evs with
      | [] => (n, [])
      | _ => let '(pm, effects) := onNeighborRemoved neighbors nodeId (pl_manager n) in
             (MkPlumNode neighbors (pl_duplicateDetectors n) pm, effects)
      end
  end.

Fixpoint plum_run (evs : list plum_event) (n : plum_node) : plum_node * list plum_effect :=
  match evs with
  | [] => (n, [])
  | ev :: evs =>
      let '(n, effects) := plum_step n ev in
      let '(n, effects') := plum_run evs n in (n, effects ++ effects')
  end.

Definition plum_new (ownId : string) (limit : nat) (maxPausedNeighbors : option nat) : plum_node :=
  MkPlumNode (nodelist_new ownId limit) ∅ (plumtree_new maxPausedNeighbors).

(** * The sets of paused neighbours *)

Lemma isPaused_spec node msgChainId p : isPaused node msgChainId p = bool_decide (node ∈ pn_set msgChainId p).
Proof.
  unfold isPaused, map_has, pn_set. destruct (map_get msgChainId (pn_pausedNeighbors p)) as [neighbors|].
  - by rewrite bool_decide_eq_true_2.
  - rewrite bool_decide_eq_false_2 by (by intros [? [=]]). by rewrite bool_decide_eq_false_2 by set_solver.
Qed.

Lemma pn_set_add node chain chain' p :
  pn_set chain' (pn_add node chain p) =
  if decide (chain = chain' ∧ size (pn_set chain p) < pn_limit p) then {[node]} ∪ pn_set chain p else pn_set chain' p.
Proof.
  unfold pn_add. set (paused := if map_has _ _ then _ else _).
  assert (∀ c, default ∅ (map_get c paused) = pn_set c p) as Hp.
  { intros c. unfold paused, pn_set. destruct (map_has chain (pn_pausedNeighbors p)) eqn:Hh; [done|].
    rewrite map_get_set. case_decide as Heq; [subst|done]. unfold map_has in Hh.
    destruct (map_get c (pn_pausedNeighbors p)); [|done]. by rewrite bool_decide_eq_true_2 in Hh. }
  rewrite Hp. destruct (Nat.leb_spec (pn_limit p) (size (pn_set chain p))) as [Hle|Hlt].
  - rewrite decide_False by lia. apply Hp.
  - unfold pn_set at 1. cbn. rewrite map_get_set. destruct (decide (chain = chain')) as [->|Hne].
    + by rewrite decide_True.
    + rewrite decide_False by tauto. apply Hp.
Qed.

Lemma pn_set_delete node chain chain' p :
  pn_set chain' (pn_delete node chain p) = if decide (chain = chain') then pn_set chain p ∖ {[node]} else pn_set chain' p.
Proof.
  unfold pn_delete, pn_set. destruct (map_get chain (pn_pausedNeighbors p)) as [neighbors|] eqn:Hg; cbn.
  2: { case_decide as He; [subst|done]. rewrite Hg. cbn. set_solver. }
  destruct (Nat.eqb_spec (size (neighbors ∖ {[node]})) 0) as [Hz|Hz].
  - rewrite map_get_delete. case_decide; [|done]. cbn. apply size_empty_inv in Hz. set_solver.
  - rewrite map_get_set. by case_decide.
Qed.

Lemma pn_set_deleteAll node chain p :
  NoDup (pn_pausedNeighbors p).*1 → pn_set chain (pn_deleteAll node p) = pn_set chain p ∖ {[node]}.
Proof.
  unfold pn_deleteAll, pn_set. cbn. induction (pn_pausedNeighbors p) as [|[c neighbors] m IH]; intros Hnd.
  { cbn. set_solver. }
  rewrite fmap_cons in *. apply NoDup_cons in Hnd as [Hnin Hnd]. specialize (IH Hnd). cbn [fst snd] in *.
  destruct (decide (size (neighbors ∖ {[node]}) ≠ 0)) as [Hne|He].
  - rewrite filter_cons_True by done. cbn. case_decide; [done|]. exact IH.
  - rewrite filter_cons_False by done. cbn [map_get]. destruct (decide (c = chain)) as [->|Hne]; [|exact IH]. rewrite IH.
    apply (map_get_None chain m) in Hnin. rewrite Hnin. cbn.
    assert (size (neighbors ∖ {[node]}) = 0) as Hz%size_empty_inv by lia. set_solver.
Qed.

Lemma pn_deleteAll_nodup node p : NoDup (pn_pausedNeighbors p).*1 → NoDup (pn_pausedNeighbors (pn_deleteAll node p)).*1.
Proof.
  intros Hnd. unfold pn_deleteAll. cbn. apply NoDup_fmap_filter. by rewrite <-list_fmap_compose.
Qed.

(** The paused neighbours of each chain: neighbours, and not more than the limit *)
Record paused_ok (ids : list string) p : Prop := {
  po_keys : NoDup (pn_pausedNeighbors p).*1;
  po_known chain node : node ∈ pn_set chain p → node ∈ ids;
  po_bound chain : size (pn_set chain p) ≤ pn_limit p
}.

Lemma paused_new_ok ids limit : paused_ok ids (paused_new limit).
Proof.
  split; [apply NoDup_nil_2|by intros ?? ?%elem_of_empty|]. intros c. unfold pn_set. cbn. rewrite size_empty. lia.
Qed.

Lemma pn_add_ok ids node chain p : node ∈ ids → paused_ok ids p → paused_ok ids (pn_add node chain p).
Proof.
  intros Hin [Hk Hn Hb]. split.
  - unfold pn_add. destruct (map_has chain _); case_match; cbn; auto using map_set_nodup.
  - intros c n'. rewrite pn_set_add. case_decide; [|apply Hn]. rewrite elem_of_union, elem_of_singleton. naive_solver.
  - intros c. rewrite pn_set_add. replace (pn_limit (pn_add node chain p)) with (pn_limit p).
    + case_decide as Hd; [|done]. destruct Hd as [_ Hlt].
      pose proof (size_union_alt {[node]} (pn_set chain p)) as Hs. rewrite Hs, size_singleton.
      assert (size (pn_set chain p ∖ {[node]}) ≤ size (pn_set chain p)); [|lia]. apply subseteq_size. set_solver.
    + unfold pn_add. by case_match.
Qed.

Lemma pn_delete_limit node chain p : pn_limit (pn_delete node chain p) = pn_limit p.
Proof. unfold pn_delete. by case_match. Qed.

Lemma pn_delete_ok ids node chain p : paused_ok ids p → paused_ok ids (pn_delete node chain p).
Proof.
  intros [Hk Hn Hb]. split.
  - unfold pn_delete. case_match; [|done]. cbn. case_match; [by apply NoDup_fmap_filter|by apply map_set_nodup].
  - intros c n'. rewrite pn_set_delete. case_decide; [|apply Hn]. subst. intros [? _]%elem_of_difference. by eapply Hn.
  - intros c. rewrite pn_set_delete, pn_delete_limit. case_decide; [|done]. etransitivity; [|apply (Hb chain)].
    apply subseteq_size. set_solver.
Qed.

Lemma pn_deleteAll_ok ids node p :
  paused_ok ids p → paused_ok (filter (λ id, id ≠ node) ids) (pn_deleteAll node p).
Proof.
  intros [Hk Hn Hb]. split.
  - by apply pn_deleteAll_nodup.
  - intros c n'. rewrite pn_set_deleteAll by done. intros [? Hne]%elem_of_difference. apply list_elem_of_filter.
    split; [|by eapply Hn]. set_solver.
  - intros c. rewrite pn_set_deleteAll by done. etransitivity; [|apply (Hb c)]. apply subseteq_size. set_solver.
Qed.

Lemma paused_ok_mono ids ids' p : (∀ x, x ∈ ids → x ∈ ids') → paused_ok ids p → paused_ok ids' p.
Proof. intros Hs [Hk Hn Hb]. split; [done| |done]. intros c n' Hin. by eapply Hs, Hn. Qed.

(** * The buffer *)

Definition last_n {A} (k : nat) (l : list A) : list A := drop (length l - k) l.

Lemma last_n_all {A} k (l : list A) : length l ≤ k → last_n k l = l.
Proof. intros Hl. unfold last_n. by replace (length l - k) with 0 by lia. Qed.

Lemma last_n_length {A} k (l : list A) : length (last_n k l) = length l `min` k.
Proof. unfold last_n. rewrite length_drop. lia. Qed.

Lemma last_n_snoc {A} k (l : list A) x :
  0 < k → last_n k (l ++ [x]) = (if (length (last_n k l) <? k)%nat then last_n k l else tail (last_n k l)) ++ [x].
Proof.
  intros Hk. rewrite last_n_length. destruct (Nat.ltb_spec (length l `min` k) k) as [Hlt|Hge].
  - rewrite !last_n_all; [done|lia|rewrite length_app; cbn; lia].
  - unfold last_n. rewrite length_app, drop_app_le by (cbn; lia). f_equal.
    replace (length l + length [x] - k) with (S (length l - k)) by (cbn; lia).
    destruct (drop (length l - k) l) as [|y l'] eqn:Hd.
    + apply (f_equal length) in Hd. rewrite length_drop in Hd. cbn in Hd. lia.
    + cbn. by rewrite <-Nat.add_1_r, <-drop_drop, Hd.
Qed.

Lemma push_latest_spec msg l : push_latest msg (last_n LATEST_MESSAGES l) = last_n LATEST_MESSAGES (l ++ [msg]).
Proof.
  rewrite last_n_snoc by (unfold LATEST_MESSAGES; lia).
  unfold push_latest. by case_match.
Qed.

(** The elements of a sorted list above a bound are among its last ones. *)
Lemma filter_last_n {A} (f : A → Z) (t : Z) k (l : list A) :
  StronglySorted (λ x y, f x ≤ f y)%Z l → length (filter (λ x, t < f x)%Z l) ≤ k →
  filter (λ x, t < f x)%Z (last_n k l) = filter (λ x, t < f x)%Z l.
Proof.
  unfold last_n. intros Hs Hk. rewrite <-(take_drop (length l - k) l) at 3. rewrite filter_app.
  rewrite (filter_none _ (take _ l)); [done|]. intros x Hx Hlt.
  assert (filter (λ x, t < f x)%Z (drop (length l - k) l) = drop (length l - k) l) as Hall.
  { apply filter_all. intros y Hy. rewrite <-(take_drop (length l - k) l) in Hs.
    pose proof (StronglySorted_app_1_elem_of _ _ _ _ _ Hs Hx Hy) as Hle. cbn in Hle. lia. }
  rewrite <-(take_drop (length l - k) l), filter_app, Hall, length_app, length_drop in Hk.
  assert (0 < length (filter (λ x, t < f x)%Z (take (length l - k) l))).
  { destruct (filter (λ x, (t < f x)%Z) (take (length l - k) l)) eqn:Hf; [|cbn; lia].
    assert (x ∈ filter (λ x, (t < f x)%Z) (take (length l - k) l)) as Hin by (by apply list_elem_of_filter).
    rewrite Hf in Hin. by apply not_elem_of_nil in Hin. }
  destruct (decide (k ≤ length l)); [lia|]. replace (length l - k) with 0 in Hx by lia. by apply not_elem_of_nil in Hx.
Qed.

(** * The invariant of a node *)

Definition emitted_of (effects : list plum_effect) : list net_message :=
  omap (λ e, match e with EmitMessage msg => Some msg | _ => None end) effects.

Lemma emitted_of_app effects effects' : emitted_of (effects ++ effects') = emitted_of effects ++ emitted_of effects'.
Proof. apply omap_app. Qed.

Definition of_chain msgChainId (messages : list net_message) : list net_message :=
  filter (λ msg, nm_messageChainId msg = msgChainId) messages.

Definition buffer msgChainId pm : list net_message := default [] (pm_latestMessages pm !! msgChainId).

Record manager_inv (ids : list string) (emitted : list net_message) pm : Prop := {
  mi_local : paused_ok ids (pm_localPausedNeighbors pm);
  mi_remote : paused_ok ids (pm_remotePausedNeighbors pm);
  mi_limits : pn_limit (pm_localPausedNeighbors pm) = pm_maxPausedNeighbors pm ∧
              pn_limit (pm_remotePausedNeighbors pm) = pm_maxPausedNeighbors pm;
  mi_latest chain : buffer chain pm = last_n LATEST_MESSAGES (of_chain chain emitted)
}.

Definition plum_inv (emitted : list net_message) (n : plum_node) : Prop :=
  nl_inv (pl_neighbors n) ∧ manager_inv (getIds (pl_neighbors n)) emitted (pl_manager n).

Lemma with_local_inv ids ids' emitted p pm :
  manager_inv ids emitted pm → (∀ x, x ∈ ids → x ∈ ids') → paused_ok ids' p → pn_limit p = pm_maxPausedNeighbors pm →
  manager_inv ids' emitted (with_local p pm).
Proof. intros [Hl Hr [Hm Hm'] Hlat] Hids Hp Hlim. split; [done|by eapply paused_ok_mono|done|done]. Qed.

Lemma with_remote_inv ids ids' emitted p pm :
  manager_inv ids emitted pm → (∀ x, x ∈ ids → x ∈ ids') → paused_ok ids' p → pn_limit p = pm_maxPausedNeighbors pm →
  manager_inv ids' emitted (with_remote p pm).
Proof. intros [Hl Hr [Hm Hm'] Hlat] Hids Hp Hlim. split; [by eapply paused_ok_mono|done|done|done]. Qed.

Lemma with_ahead_inv ids emitted ahead pm : manager_inv ids emitted pm → manager_inv ids emitted (with_ahead ahead pm).
Proof. by intros []. Qed.

Lemma pn_add_limit node chain p : pn_limit (pn_add node chain p) = pn_limit p.
Proof. unfold pn_add. by case_match. Qed.

Lemma pauseNeighbor_inv neighbors emitted node chain pm :
  manager_inv (getIds neighbors) emitted pm →
  manager_inv (getIds neighbors) emitted (pauseNeighbor neighbors node chain pm).1 ∧
  emitted_of (pauseNeighbor neighbors node chain pm).2 = [].
Proof.
  intros Hinv. unfold pauseNeighbor. destruct (nl_has node neighbors) eqn:Hh; [|done]. apply map_has_spec in Hh.
  case_match; [|done]. split; [|done]. pose proof Hinv as [_ Hr [_ Hm] _].
  eapply with_remote_inv; [done|done| |by rewrite pn_add_limit]. by apply pn_add_ok.
Qed.

Lemma resumeNeighbor_inv ids emitted node chain t pm :
  manager_inv ids emitted pm →
  manager_inv ids emitted (resumeNeighbor node chain t pm).1 ∧ emitted_of (resumeNeighbor node chain t pm).2 = [].
Proof.
  intros Hinv. unfold resumeNeighbor. case_match; [|done]. split; [|done]. pose proof Hinv as [_ Hr [_ Hm] _].
  eapply with_remote_inv; [done|done| |by rewrite pn_delete_limit]. by apply pn_delete_ok.
Qed.

Lemma onMetadata_inv ids emitted msg previousNode pm :
  manager_inv ids emitted pm →
  let '(pm', effects, _) := onMetadata msg previousNode pm in manager_inv ids emitted pm' ∧ emitted_of effects = [].
Proof.
  intros Hinv. unfold onMetadata. destruct (_ <? _)%Z; [|done].
  set (ahead := with_ahead _ pm). assert (manager_inv ids emitted ahead) as Ha by (by apply with_ahead_inv).
  destruct (_ <? _)%nat; [|done].
  destruct (resumeNeighbor_inv ids emitted previousNode (nm_messageChainId msg)
              (getLatestMessageTimestamp (nm_messageChainId msg) ahead) ahead Ha) as [Hr He].
  destruct (resumeNeighbor _ _ _ _) as [pm' [|e effects]]; [|done]. split; [|done]. by apply with_ahead_inv.
Qed.

Lemma emitted_forwards (remotes : list content_remote) msg chain p :
  emitted_of ((λ neighbor, if isPaused (rc_nodeId neighbor) chain p then SendMetadata (rc_nodeId neighbor) msg
                           else SendMessage (rc_nodeId neighbor) msg) <$> remotes) = [].
Proof.
  unfold emitted_of. induction remotes as [|r l IH]; [done|]. rewrite fmap_cons. cbn [omap list_omap].
  destruct (isPaused _ _ _); exact IH.
Qed.

Lemma of_chain_snoc chain emitted msg :
  of_chain chain (emitted ++ [msg]) =
  if decide (nm_messageChainId msg = chain) then of_chain chain emitted ++ [msg] else of_chain chain emitted.
Proof.
  unfold of_chain. rewrite filter_app. case_decide.
  - by rewrite filter_cons_True.
  - rewrite filter_cons_False by done. by rewrite app_nil_r.
Qed.

Lemma broadcast_inv neighbors emitted msg previousNode pm :
  manager_inv (getIds neighbors) emitted pm →
  manager_inv (getIds neighbors) (emitted ++ [msg]) (plumtree_broadcast neighbors msg previousNode pm).1 ∧
  emitted_of (plumtree_broadcast neighbors msg previousNode pm).2 = [msg].
Proof.
  intros [Hl Hr Hm Hlat]. split.
  - split; [done|done|done|]. intros chain. unfold plumtree_broadcast, buffer. cbn [fst pm_latestMessages].
    rewrite of_chain_snoc. case_decide as Hc.
    + rewrite <-Hc, lookup_insert_eq. cbn [default from_option id]. rewrite <-push_latest_spec. f_equal. apply Hlat.
    + rewrite lookup_insert_ne by done. apply Hlat.
  - unfold plumtree_broadcast, emitted_of. cbn [snd omap list_omap]. f_equal. apply emitted_forwards.
Qed.

(** ** Every step keeps it *)

Lemma resume_immediate_inv ids emitted sender t chain pm :
  manager_inv ids emitted pm →
  manager_inv ids emitted (rpc_resumeNeighbor sender t chain pm).1 ∧ emitted_of (rpc_resumeNeighbor sender t chain pm).2 = [].
Proof.
  intros Hinv. unfold rpc_resumeNeighbor. pose proof Hinv as [Hl _ [Hm _] _]. split.
  - eapply with_local_inv; [done|done| |by rewrite pn_delete_limit]. by apply pn_delete_ok.
  - cbn [snd]. unfold sendBuffer, emitted_of. by induction (filter _ _).
Qed.

Lemma neighborRemoved_inv neighbors nodeId ids emitted pm :
  getIds neighbors = filter (λ id, id ≠ nodeId) ids → manager_inv ids emitted pm →
  manager_inv (getIds neighbors) emitted (onNeighborRemoved neighbors nodeId pm).1 ∧
  emitted_of (onNeighborRemoved neighbors nodeId pm).2 = [].
Proof.
  intros Hids [Hl Hr [Hm Hm'] Hlat]. split.
  - rewrite Hids. split; [by apply pn_deleteAll_ok..|done|done].
  - unfold onNeighborRemoved. cbn [snd]. case_match; [|done]. unfold emitted_of.
    induction (pn_pausedNeighbors _) as [|e l IH]; [done|]. cbn [omap list_omap].
    destruct (_ <=? _)%nat; [|exact IH]. destruct (getFirst [] false neighbors); exact IH.
Qed.

Lemma plum_step_inv emitted n ev :
  plum_inv emitted n → let '(n', effects) := plum_step n ev in plum_inv (emitted ++ emitted_of effects) n'.
Proof.
  intros [Hnl Hpm].
  assert (∀ n' (r : PlumtreeManager * list plum_effect),
    pl_neighbors n' = pl_neighbors n → manager_inv (getIds (pl_neighbors n)) emitted r.1 ∧ emitted_of r.2 = [] →
    pl_manager n' = r.1 → plum_inv (emitted ++ emitted_of r.2) n') as Hquiet.
  { intros n' r Hn [Hr He] Hm. rewrite He, app_nil_r. split; [by rewrite Hn|by rewrite Hn, Hm]. }
  destruct ev as [msg previousNode|msg previousNode|sender chain|sender t chain|node chain|chain ok|remote|nodeId]; cbn [plum_step].
  - unfold sendStreamMessage. destruct (markAndCheckDuplicate _ _) as [detectors [[]|e]].
    + destruct (broadcast_inv (pl_neighbors n) emitted msg previousNode _ Hpm) as [Hinv He].
      destruct (plumtree_broadcast _ _ _ _) as [pm effects]. cbn [fst snd] in *. by rewrite He.
    + pose proof (pauseNeighbor_inv _ _ previousNode (nm_messageChainId msg) _ Hpm) as Hp.
      destruct (pauseNeighbor _ _ _ _) as [pm effects]. by eapply (Hquiet _ (pm, effects)).
    + cbn. rewrite app_nil_r. done.
  - pose proof (onMetadata_inv _ _ msg previousNode _ Hpm) as Hp.
    destruct (onMetadata _ _ _) as [[pm effects] b]. by eapply (Hquiet _ (pm, effects)).
  - eapply (Hquiet _ (_, [])); [done| |done]. split; [|done]. unfold rpc_pauseNeighbor.
    destruct (nl_has sender _) eqn:Hh; [|done]. apply map_has_spec in Hh. pose proof Hpm as [Hl _ [Hm _] _].
    eapply with_local_inv; [done|done| |by rewrite pn_add_limit]. by apply pn_add_ok.
  - pose proof (resume_immediate_inv _ _ sender t chain _ Hpm) as Hp.
    destruct (rpc_resumeNeighbor _ _ _ _) as [pm effects]. by eapply (Hquiet _ (pm, effects)).
  - pose proof (resumeNeighbor_inv _ _ node chain (getLatestMessageTimestamp chain (pl_manager n)) _ Hpm) as Hp.
    destruct (resumeNeighbor _ _ _ _) as [pm effects]. by eapply (Hquiet _ (pm, effects)).
  - cbn. rewrite app_nil_r. destruct ok; [|done]. split; [done|]. by apply with_ahead_inv.
  - cbn. rewrite app_nil_r. pose proof (nl_add_spec remote _ Hnl) as Hadd.
    destruct (nl_add remote _) as [l evs]. destruct Hadd as (Hl & _ & _ & Hids & _). split; [done|]. cbn.
    destruct Hpm as [Hlo Hre Hm Hlat].
    assert (∀ x, x ∈ getIds (pl_neighbors n) → x ∈ getIds l) as Hmono.
    { intros x Hx. rewrite Hids. unfold id_add. case_decide; [done|]. apply elem_of_app. by left. }
    split; [by eapply paused_ok_mono..|done|done].
  - pose proof (nl_remove_spec nodeId _ Hnl) as Hrem. destruct (nl_remove nodeId _) as [l evs].
    destruct Hrem as (Hl & _ & _ & Hids & _). destruct evs as [|ev evs]; [cbn; by rewrite app_nil_r|].
    destruct (neighborRemoved_inv _ _ _ _ _ Hids Hpm) as [Hinv He].
    destruct (onNeighborRemoved _ _ _) as [pm effects]. cbn [fst snd] in *. by rewrite He, app_nil_r.
Qed.

Lemma plum_run_inv evs emitted n :
  plum_inv emitted n → let '(n', effects) := plum_run evs n in plum_inv (emitted ++ emitted_of effects) n'.
Proof.
  revert emitted n. induction evs as [|ev evs IH]; intros emitted n Hinv; cbn [plum_run].
  { cbn. by rewrite app_nil_r. }
  pose proof (plum_step_inv _ _ ev Hinv) as Hstep. destruct (plum_step n ev) as [n1 effects].
  specialize (IH _ _ Hstep). destruct (plum_run evs n1) as [n2 effects'].
  by rewrite emitted_of_app, app_assoc.
Qed.

Lemma plum_new_inv ownId limit maxPaused : plum_inv [] (plum_new ownId limit maxPaused).
Proof.
  split; [apply nl_new_inv|]. split; [apply paused_new_ok..|done|]. intros chain. unfold buffer. cbn.
  by rewrite lookup_empty.
Qed.

(** * What a node keeps to *)

Definition effect_to (e : plum_effect) : option string :=
  match e with
  | SendMessage to _ | SendMetadata to _ | PauseRequest to _ | ResumeRequest to _ _ => Some to
  | EmitMessage _ | ResumeLater _ _ => None
  end.

(** What is sent to one node *)
Definition addressed (node : string) (effects : list plum_effect) : list plum_effect :=
  filter (λ e, effect_to e = Some node) effects.

Lemma addressed_fmap node (remotes : list content_remote) (f : content_remote → plum_effect) r :
  (∀ r, effect_to (f r) = Some (rc_nodeId r)) → NoDup (rc_nodeId <$> remotes) → r ∈ remotes → rc_nodeId r = node →
  addressed node (f <$> remotes) = [f r].
Proof.
  intros Hf. unfold addressed. induction remotes as [|r' l IH]; intros Hnd Hin Hr; [by apply not_elem_of_nil in Hin|].
  rewrite fmap_cons in Hnd. apply NoDup_cons in Hnd as [Hnin Hnd]. rewrite fmap_cons.
  apply elem_of_cons in Hin as [<-|Hin].
  - rewrite filter_cons_True by (rewrite Hf; congruence). f_equal. apply filter_none.
    intros e (r' & -> & Hr')%list_elem_of_fmap He. destruct Hnin. rewrite Hf in He. injection He as He.
    rewrite Hr, <-He. by apply list_elem_of_fmap_2.
  - rewrite filter_cons_False; [by apply IH|]. rewrite Hf. intros [= He]. destruct Hnin. rewrite He, <-Hr.
    by apply list_elem_of_fmap_2.
Qed.

Lemma NoDup_ids_remotes l : nl_inv l → rc_nodeId <$> getAll l = getIds l.
Proof.
  intros [Hk _ _ _]. unfold getAll, getIds. rewrite <-list_fmap_compose.
  apply list_fmap_ext. intros i e He. symmetry. by eapply (Forall_lookup_1 _ _ _ _ Hk).
Qed.

(** A broadcast message goes to each neighbour but the previous node, once: itself or, when the neighbour is
    paused, its id. *)
Lemma broadcast_addressed neighbors msg previousNode node pm :
  nl_inv neighbors → node ∈ getIds neighbors → node ≠ previousNode →
  addressed node (plumtree_broadcast neighbors msg previousNode pm).2 =
  [if isPaused node (nm_messageChainId msg) (pm_localPausedNeighbors pm) then SendMetadata node msg else SendMessage node msg].
Proof.
  intros Hinv Hin Hne. unfold plumtree_broadcast, addressed. cbn [snd pm_localPausedNeighbors].
  rewrite filter_cons_False by done. rewrite <-NoDup_ids_remotes in Hin by done.
  match goal with |- filter _ ?l = ?r => change (addressed node l = r) end.
  apply list_elem_of_fmap in Hin as (r & Hr & Hin).
  erewrite (addressed_fmap node _ _ r); [by rewrite Hr| | | |done].
  - intros r'. by case_match.
  - eapply sublist_NoDup; [|by apply fmap_sublist, sublist_filter]. rewrite NoDup_ids_remotes by done. by destruct Hinv.
  - apply list_elem_of_filter. by rewrite <-Hr.
Qed.

(** whatever happens to a node, in each chain of messages it has paused, and it has asked to pause, at most
    [maxPausedNeighbors] nodes, all of them neighbours of the moment; and its buffer of a chain is the last 20
    messages of that chain which it passed on, in order. *)
Theorem plumtree_state_is_bounded ownId limit maxPaused evs :
  let '(n, effects) := plum_run evs (plum_new ownId limit maxPaused) in
  ∀ chain,
    pn_set chain (pm_localPausedNeighbors (pl_manager n)) ⊆ list_to_set (getIds (pl_neighbors n)) ∧
    pn_set chain (pm_remotePausedNeighbors (pl_manager n)) ⊆ list_to_set (getIds (pl_neighbors n)) ∧
    pn_size chain (pm_localPausedNeighbors (pl_manager n)) ≤ pm_maxPausedNeighbors (pl_manager n) ∧
    pn_size chain (pm_remotePausedNeighbors (pl_manager n)) ≤ pm_maxPausedNeighbors (pl_manager n) ∧
    buffer chain (pl_manager n) = last_n LATEST_MESSAGES (of_chain chain (emitted_of effects)).
Proof.
  pose proof (plum_run_inv evs _ _ (plum_new_inv ownId limit maxPaused)) as Hrun.
  destruct (plum_run _ _) as [n effects]. destruct Hrun as [_ [[_ Hl Hlb] [_ Hr Hrb] [Hm Hm'] Hlat]]. intros chain.
  rewrite <-Hm at 1. rewrite <-Hm'. split_and!; [| |apply Hlb|apply Hrb|apply Hlat];
    intros x Hx; apply elem_of_list_to_set; eauto.
Qed.

(** A neighbour that resumes is sent exactly what it missed: when no more than 20 messages of the chain are
    newer than the timestamp it names, and the chain came in the order of its timestamps, the node sends those
    newer messages that it passed on, all of them, in order, and nothing else. *)
Theorem resume_sends_what_was_missed ownId limit maxPaused evs node t chain :
  let '(n, effects) := plum_run evs (plum_new ownId limit maxPaused) in
  let missed := filter (λ msg, t < timestamp_of msg)%Z (of_chain chain (emitted_of effects)) in
  StronglySorted (λ x y, timestamp_of x ≤ timestamp_of y)%Z (of_chain chain (emitted_of effects)) →
  length missed ≤ LATEST_MESSAGES →
  (plum_step n (Resumed node t chain)).2 = SendMessage node <$> missed.
Proof.
  pose proof (plum_run_inv evs _ _ (plum_new_inv ownId limit maxPaused)) as Hrun.
  destruct (plum_run _ _) as [n effects]. destruct Hrun as [_ [_ _ _ Hlat]]. intros missed Hs Hlen.
  cbn [plum_step]. unfold rpc_resumeNeighbor, sendBuffer. cbn [snd pm_latestMessages with_local].
  specialize (Hlat chain). unfold buffer in Hlat. rewrite Hlat. f_equal. by apply filter_last_n.
Qed.

(** When a neighbour leaves and all those which stay are paused in a chain, one of them is to be resumed. *)
Lemma removal_resumes emitted n nodeId chain :
  plum_inv emitted n → nodeId ∈ getIds (pl_neighbors n) →
  let '(n', effects) := plum_step n (NeighborRemove nodeId) in
  getIds (pl_neighbors n') ≠ [] →
  (∀ id, id ∈ getIds (pl_neighbors n') → id ∈ pn_set chain (pm_remotePausedNeighbors (pl_manager n'))) →
  ∃ first, ResumeLater first chain ∈ effects ∧ isPaused first chain (pm_remotePausedNeighbors (pl_manager n')) = true.
Proof.
  intros [Hnl Hpm] Hin. cbn [plum_step]. pose proof (nl_remove_spec nodeId _ Hnl) as Hrem.
  destruct (nl_remove nodeId _) as [l evs]. destruct Hrem as (Hl & _ & _ & Hids & Hev).
  destruct evs as [|ev evs]; [by apply Hev in Hin|].
  destruct (neighborRemoved_inv _ _ _ _ _ Hids Hpm) as [[_ Hr _ _] _].
  unfold onNeighborRemoved in *. cbn [fst pl_neighbors pl_manager with_local with_remote pm_remotePausedNeighbors] in *.
  intros Hne Hall. set (p := pn_deleteAll nodeId _) in *.
  assert (nl_size [] l = length (getIds l)) as Hsize by (unfold nl_size; by rewrite filter_all by (intros x _; apply not_elem_of_nil)).
  destruct (getIds l) as [|first ids] eqn:Hi; [done|].
  assert (getFirst [] false l = head (getAll l)) as Hfirst.
  { unfold getFirst, getValuesOfIncludedKeys, getAll. by rewrite filter_all by (intros x _; apply not_elem_of_nil). }
  pose proof (NoDup_ids_remotes l Hl) as Hremotes. rewrite Hi in Hremotes.
  destruct (getAll l) as [|r rs] eqn:Hrs; [done|]. rewrite fmap_cons in Hremotes. injection Hremotes as Hr0 Hrs0.
  exists first. split; [|rewrite isPaused_spec; apply bool_decide_eq_true_2, Hall; left].
  rewrite (proj2 (Nat.ltb_lt 0 (nl_size [] l))) by (rewrite Hsize; cbn; lia).
  destruct (map_get chain (pn_pausedNeighbors p)) as [neighbors|] eqn:Hg.
  2: { specialize (Hall first (list_elem_of_here _ _)). unfold pn_set in Hall. rewrite Hg in Hall. by apply elem_of_empty in Hall. }
  assert (nl_size [] l ≤ size neighbors) as Hle.
  { assert (NoDup (first :: ids)) as Hnd by (rewrite <-Hi; by destruct Hl).
    rewrite Hsize, <-(size_list_to_set (C:=gset string) (first :: ids)) by done. apply subseteq_size.
    intros x Hx%elem_of_list_to_set. specialize (Hall x Hx). unfold pn_set in Hall. by rewrite Hg in Hall. }
  apply list_elem_of_omap. exists (chain, neighbors). split; [apply map_get_Some in Hg; [done|by destruct Hr]|].
  cbn [fst snd]. rewrite (proj2 (Nat.leb_le _ _)) by done. rewrite Hfirst. cbn. by rewrite Hr0.
Qed.

(** * Two neighbours

    The link from a node to a neighbour, both running the code above.  An exchange is what
    follows a broadcast or a request: messages reach the other end in order, requests are
    answered, until nothing is on the way. *)

Section link.
  Context (sender receiver source : string).

Record link := MkLink {
  lk_sender : plum_node;
  lk_receiver : plum_node;
  lk_delivered : list net_message       (** what the receiver emitted *)
}.

(** The receiver's handling of one effect of the sender.  The request that [onMetadata] awaits is a notification,
    whose call ends when it is sent. *)
Definition deliver (e : plum_effect) (r : plum_node) : plum_node * list plum_effect :=
  match e with
  | SendMessage _ msg => plum_step r (Received msg sender)
  | SendMetadata _ msg =>
      let '(r, effects) := plum_step r (Metadata msg sender) in
      match effects with
      | [] => (r, [])
      | _ => ((plum_step r (MetadataRequestEnded (nm_messageChainId msg) true)).1, effects)
      end
  | _ => (r, [])
  end.

Fixpoint deliver_all (effects : list plum_effect) (r : plum_node) : plum_node * list plum_effect :=
  match effects with
  | [] => (r, [])
  | e :: effects =>
      let '(r, back) := deliver e r in
      let '(r, back') := deliver_all effects r in (r, back ++ back')
  end.

(** The sender's handling of the receiver's requests *)
Definition answer (e : plum_effect) (s : plum_node) : plum_node * list plum_effect :=
  match e with
  | PauseRequest _ chain => plum_step s (Paused receiver chain)
  | ResumeRequest _ t chain => plum_step s (Resumed receiver t chain)
  | _ => (s, [])
  end.

Fixpoint answer_all (effects : list plum_effect) (s : plum_node) : plum_node * list plum_effect :=
  match effects with
  | [] => (s, [])
  | e :: effects =>
      let '(s, out) := answer e s in
      let '(s, out') := answer_all effects s in (s, out ++ out')
  end.

(** A message exchange and the answer to it: the link, and what the sender sends next *)
Definition exchange (effects : list plum_effect) (lk : link) : link * list plum_effect :=
  let '(r, back) := deliver_all (addressed receiver effects) (lk_receiver lk) in
  let '(s, out) := answer_all (addressed sender back) (lk_sender lk) in
  (MkLink s r (lk_delivered lk ++ emitted_of back), out).

Inductive link_event :=
  | Forward (msg : net_message)          (** a message reaches the sender, from elsewhere *)
  | AskPause (chain : string).           (** the receiver got a message of the chain twice *)

(** Two exchanges; the last component is what is still on its way. *)
Definition link_step (lk : link) (ev : link_event) : link * list plum_effect :=
  match ev with
  | Forward msg =>
      let '(s, effects) := plum_step (lk_sender lk) (Received msg source) in
      let '(lk, out) := exchange effects (MkLink s (lk_receiver lk) (lk_delivered lk)) in
      exchange out lk
  | AskPause chain =>
      let '(pm, back) := pauseNeighbor (pl_neighbors (lk_receiver lk)) sender chain (pl_manager (lk_receiver lk)) in
      let '(s, out) := answer_all (addressed sender back) (lk_sender lk) in
      (MkLink s (with_manager pm (lk_receiver lk)) (lk_delivered lk), out)
  end.

Fixpoint link_run (lk : link) (evs : list link_event) : link * list (list plum_effect) :=
  match evs with
  | [] => (lk, [])
  | ev :: evs =>
      let '(lk, out) := link_step lk ev in
      let '(lk, outs) := link_run lk evs in (lk, out :: outs)
  end.
End link.

Definition link_new (sender receiver : string) (limit : nat) (maxPaused : option nat) : link :=
  MkLink (plum_run [NeighborAdd (MkRemote receiver false 0)] (plum_new sender limit maxPaused)).1
    (plum_run [NeighborAdd (MkRemote sender false 1)] (plum_new receiver limit maxPaused)).1 [].

Definition link_messages (evs : list link_event) : list net_message :=
  omap (λ ev, match ev with Forward msg => Some msg | AskPause _ => None end) evs.

(** A chain as its publisher numbers it: increasing timestamps, each message naming the one before *)
Fixpoint published (publisher chain : string) (previous : option NumberPair) (t : Z) (messages : list net_message) : Prop :=
  match messages with
  | [] => True
  | msg :: messages =>
      nm_publisherId msg = publisher ∧ nm_messageChainId msg = chain ∧ nm_previous msg = previous ∧
      (∃ t' s, nm_number msg = MkPair (Num t') (Num s) ∧ t < t')%Z ∧
      published publisher chain (Some (nm_number msg)) (timestamp_of msg) messages
  end.

Definition numbered (ref : nat) (t s : Z) (prev : option (Z * Z)) : net_message :=
  MkNetMessage ref "0xaa" "c" (MkPair (Num t) (Num s)) ((λ q, MkPair (Num q.1) (Num q.2)) <$> prev).

(** A run: the second message is held back until the third is announced. *)
Example link_catches_up :
  let '(lk, outs) := link_run "s" "r" "p" (link_new "s" "r" 4 None)
    [Forward (numbered 1 10 0 None); AskPause "c"; Forward (numbered 2 20 0 (Some (10, 0)%Z)); Forward (numbered 3 30 0 (Some (20, 0)%Z));
     Forward (numbered 4 40 0 (Some (30, 0)%Z)); AskPause "c"; Forward (numbered 5 50 0 (Some (40, 0)%Z))] in
  nm_ref <$> lk_delivered lk = [1; 2; 3; 4] ∧ outs = replicate 7 [].
Proof. vm_compute. done. Qed.

(** Messages of the same timestamp are lost: the id of the second does not count as ahead, and the third makes
    the neighbour resume after the second. *)
Lemma same_timestamp_is_lost :
  let '(lk, outs) := link_run "s" "r" "p" (link_new "s" "r" 4 None)
    [Forward (numbered 1 10 0 None); AskPause "c"; Forward (numbered 2 10 1 (Some (10, 0)%Z)); Forward (numbered 3 20 0 (Some (10, 1)%Z));
     Forward (numbered 4 30 0 (Some (20, 0)%Z)); Forward (numbered 5 40 0 (Some (30, 0)%Z))] in
  nm_ref <$> lk_delivered lk = [1; 3; 4; 5] ∧ outs = replicate 6 [].
Proof. vm_compute. done. Qed.

(** ** The states of the two ends *)

Section catch_up.
  Context (publisher chain : string).
  Implicit Types (h : list net_message) (n : plum_node).

Definition last_number h : option NumberPair := nm_number <$> last h.
Definition last_time h : Z := default 0%Z (timestamp_of <$> last h).

(** [msg] is the next message of the chain after [h]. *)
Definition next_message h msg : Prop := published publisher chain (last_number h) (last_time h) [msg].

Lemma published_app prev t h messages :
  published publisher chain prev t (h ++ messages) ↔
  published publisher chain prev t h ∧
  published publisher chain (match last h with Some m => Some (nm_number m) | None => prev end)
    (match last h with Some m => timestamp_of m | None => t end) messages.
Proof.
  revert prev t. induction h as [|m h IH]; intros prev t; cbn [app published]; [cbn; tauto|]. rewrite IH, last_cons.
  destruct (last h); tauto.
Qed.

Lemma published_next h msg :
  published publisher chain None 0 (h ++ [msg]) ↔ published publisher chain None 0 h ∧ next_message h msg.
Proof. rewrite published_app. unfold next_message, last_number, last_time. by destruct (last h). Qed.

Lemma next_message_time h msg : next_message h msg → (last_time h < timestamp_of msg)%Z.
Proof. intros (_ & _ & _ & (t' & s & Hn & Hlt) & _). unfold timestamp_of. by rewrite Hn. Qed.

Lemma next_message_chain h msg : next_message h msg → nm_messageChainId msg = chain.
Proof. by intros (_ & ? & _). Qed.

Lemma published_sorted prev t h :
  published publisher chain prev t h →
  StronglySorted (λ x y, timestamp_of x < timestamp_of y)%Z h ∧ Forall (λ m, t < timestamp_of m)%Z h ∧
  of_chain chain h = h.
Proof.
  revert prev t. induction h as [|m h IH]; intros prev t; [by repeat constructor|].
  intros (_ & Hc & _ & (t' & s & Hn & Hlt) & Hrest). destruct (IH _ _ Hrest) as (Hs & Hf & Hch).
  assert (timestamp_of m = t') as Ht by (unfold timestamp_of; by rewrite Hn). rewrite Ht in Hf. split_and!.
  - constructor; [done|]. by rewrite Ht.
  - constructor; [by rewrite Ht|]. eapply Forall_impl; [exact Hf|]. cbn. lia.
  - unfold of_chain in *. by rewrite filter_cons_True, Hch by done.
Qed.

Lemma last_last_n {A} k (l : list A) : 0 < k → last (last_n k l) = last l.
Proof.
  intros Hk. unfold last_n. destruct (decide (length l ≤ k)) as [Hle|Hgt].
  - by replace (length l - k) with 0 by lia.
  - rewrite !last_lookup, lookup_drop, length_drop. f_equal. lia.
Qed.

(** One end: what it passed on, what its detector expects, which timestamps are ahead *)
Record end_state (peer : string) h (ahead : gset Z) n : Prop := {
  es_inv : plum_inv h n;
  es_peer : peer ∈ getIds (pl_neighbors n);
  es_published : published publisher chain None 0 h;
  es_detector : default (detector_new MAX_GAP_COUNT) (pl_duplicateDetectors n !! (publisher +:+ "-" +:+ chain)) =
                MkDetector MAX_GAP_COUNT (option_list ((λ x, (x, infinite_pair)) <$> last_number h));
  es_ahead : default ∅ (pm_metadataTimestampsAheadOfRealData (pl_manager n) !! chain) = ahead
}.

Definition asked_pause n : gset string := pn_set chain (pm_remotePausedNeighbors (pl_manager n)).
Definition told_pause n : gset string := pn_set chain (pm_localPausedNeighbors (pl_manager n)).

Lemma end_latest peer h ahead n : end_state peer h ahead n → getLatestMessageTimestamp chain (pl_manager n) = last_time h.
Proof.
  intros [[_ [_ _ _ Hlat]] _ Hp _ _]. unfold getLatestMessageTimestamp, last_time. specialize (Hlat chain).
  unfold buffer in Hlat. destruct (published_sorted _ _ _ Hp) as (_ & _ & Hch).
  rewrite Hlat, Hch, last_last_n by (unfold LATEST_MESSAGES; lia). by destruct (last h).
Qed.

Lemma published_number prev t h msg :
  published publisher chain prev t h → msg ∈ h → ∃ s, nm_number msg = MkPair (Num (timestamp_of msg)) (Num s).
Proof.
  revert prev t. induction h as [|m h IH]; intros prev t; [by intros _ ?%not_elem_of_nil|].
  intros (_ & _ & _ & (t' & s & Hn & _) & Hrest) [->|Hin]%elem_of_cons; [|by eapply IH].
  exists s. unfold timestamp_of. by rewrite Hn.
Qed.

Lemma last_time_bound prev t h msg :
  published publisher chain prev t h → msg ∈ h → (timestamp_of msg ≤ last_time h)%Z.
Proof.
  intros Hp Hin. destruct (published_sorted _ _ _ Hp) as (Hs & _ & _). unfold last_time.
  destruct h as [|l h' _] using rev_ind; [by apply not_elem_of_nil in Hin|]. rewrite last_snoc. cbn.
  apply elem_of_app in Hin as [Hin|Hin%list_elem_of_singleton]; [|subst; lia].
  pose proof (StronglySorted_app_1_elem_of _ _ _ _ _ Hs Hin (list_elem_of_here l [])) as Hlt. cbn in Hlt. lia.
Qed.

Lemma mark_next_message h msg :
  published publisher chain None 0 h → next_message h msg →
  markAndCheck (nm_previous msg) (nm_number msg)
    (MkDetector MAX_GAP_COUNT (option_list ((λ x, (x, infinite_pair)) <$> last_number h))) =
    (MkDetector MAX_GAP_COUNT [(nm_number msg, infinite_pair)], Return true).
Proof.
  intros Hp (_ & _ & Hprev & (t' & s & Hn & Hlt) & _). rewrite Hprev, Hn.
  unfold last_number, last_time in *. destruct (last h) as [l|] eqn:Hl; [|done].
  apply last_Some_elem_of in Hl. destruct (published_number _ _ _ _ Hp Hl) as (s' & Hn'). cbn in *. rewrite Hn'.
  apply mark_successor; [unfold MAX_GAP_COUNT; lia| |]; apply np_lt_spec; cbn; [left; by apply Z.ltb_lt|by left].
Qed.

(** Receiving the next message: it is passed on. *)
Lemma end_receive peer h ahead n msg previousNode :
  end_state peer h ahead n → next_message h msg →
  let '(n', effects) := plum_step n (Received msg previousNode) in
  end_state peer (h ++ [msg]) (ahead ∖ {[timestamp_of msg]}) n' ∧
  effects = (plumtree_broadcast (pl_neighbors n) msg previousNode (pl_manager n)).2 ∧ emitted_of effects = [msg] ∧
  asked_pause n' = asked_pause n ∧ told_pause n' = told_pause n.
Proof.
  intros [Hinv Hpeer Hp Hdet Hahead] Hnext. pose proof (plum_step_inv _ _ (Received msg previousNode) Hinv) as Hstep.
  pose proof (mark_next_message _ _ Hp Hnext) as Hmark. pose proof Hnext as (Hpub & Hchain & _).
  assert (detector_key msg = publisher +:+ "-" +:+ chain) as Hkey by (unfold detector_key; by rewrite Hpub, Hchain).
  destruct (broadcast_inv (pl_neighbors n) h msg previousNode _ (proj2 Hinv)) as [_ Hem].
  cbn [plum_step] in *. unfold sendStreamMessage, markAndCheckDuplicate in *.
  rewrite Hkey, Hdet, Hmark in *.
  destruct (plumtree_broadcast _ _ _ _) as [pm effects] eqn:Hb. cbn [snd] in Hem. rewrite Hem in Hstep.
  assert (pm_localPausedNeighbors pm = pm_localPausedNeighbors (pl_manager n) ∧
          pm_remotePausedNeighbors pm = pm_remotePausedNeighbors (pl_manager n) ∧
          pm_metadataTimestampsAheadOfRealData pm =
            alter (λ ts, ts ∖ {[timestamp_of msg]}) chain (pm_metadataTimestampsAheadOfRealData (pl_manager n)))
    as (Hl & Hr & Ha).
  { unfold plumtree_broadcast in Hb. rewrite Hchain in Hb. by injection Hb as <- _. }
  split_and!; [split|done|done|unfold asked_pause; cbn; by rewrite Hr|unfold told_pause; cbn; by rewrite Hl].
  - done.
  - done.
  - by apply published_next.
  - cbn. rewrite lookup_insert_eq. unfold last_number. by rewrite last_snoc.
  - cbn. rewrite Ha, lookup_alter_eq, <-Hahead.
    destruct (pm_metadataTimestampsAheadOfRealData (pl_manager n) !! chain) as [ts|]; cbn; set_solver.
Qed.

(** The id of a newer message *)
Lemma end_metadata peer h ahead n msg previousNode :
  end_state peer h ahead n → nm_messageChainId msg = chain → (last_time h < timestamp_of msg)%Z →
  size ({[timestamp_of msg]} ∪ ahead) ≤ 1 →
  let '(n', effects) := plum_step n (Metadata msg previousNode) in
  end_state peer h ({[timestamp_of msg]} ∪ ahead) n' ∧ effects = [] ∧
  asked_pause n' = asked_pause n ∧ told_pause n' = told_pause n.
Proof.
  intros Hes Hchain Hlt Hsize. pose proof (end_latest _ _ _ _ Hes) as Hlatest. destruct Hes as [Hinv Hpeer Hp Hdet Hahead].
  pose proof (plum_step_inv _ _ (Metadata msg previousNode) Hinv) as Hstep.
  cbn [plum_step] in *. unfold onMetadata in *. rewrite Hchain, Hlatest, Hahead in *.
  rewrite (proj2 (Z.ltb_lt _ _)) in * by done. rewrite (proj2 (Nat.ltb_ge 1 _)) in * by done.
  rewrite app_nil_r in Hstep. split_and!; [|done..]. split; [done..|]. cbn. by rewrite lookup_insert_eq.
Qed.

(** The second id ahead: a neighbour that was asked to pause is asked to resume. *)
Lemma end_resume_request peer h ahead n msg :
  end_state peer h ahead n → nm_messageChainId msg = chain → (last_time h < timestamp_of msg)%Z →
  1 < size ({[timestamp_of msg]} ∪ ahead) → peer ∈ asked_pause n →
  let '(n', effects) := plum_step n (Metadata msg peer) in
  let n'' := (plum_step n' (MetadataRequestEnded chain true)).1 in
  end_state peer h ∅ n'' ∧ effects = [ResumeRequest peer (last_time h) chain].
Proof.
  intros Hes Hchain Hlt Hsize Hasked. pose proof (end_latest _ _ _ _ Hes) as Hlatest.
  destruct Hes as [Hinv Hpeer Hp Hdet Hahead].
  pose proof (plum_step_inv _ _ (Metadata msg peer) Hinv) as Hstep.
  cbn [plum_step] in *. unfold onMetadata in *. rewrite Hchain, Hlatest, Hahead in *.
  rewrite (proj2 (Z.ltb_lt _ _)) in * by done. rewrite (proj2 (Nat.ltb_lt 1 _)) in * by done.
  unfold resumeNeighbor in *. cbn [pm_remotePausedNeighbors with_ahead] in *.
  rewrite isPaused_spec, bool_decide_eq_true_2 in * by done.
  cbn [emitted_of omap list_omap] in Hstep. rewrite app_nil_r in Hstep.
  split; [|unfold getLatestMessageTimestamp in *; cbn [pm_latestMessages with_ahead] in *; by rewrite Hlatest].
  split; [|done..|]; cbn.
  - destruct Hstep as [Hnl Hm]. split; [done|]. by apply with_ahead_inv.
  - by rewrite lookup_insert_eq.
Qed.

Lemma end_resume peer h ahead n t :
  end_state peer h ahead n →
  let '(n', effects) := plum_step n (Resumed peer t chain) in
  end_state peer h ahead n' ∧ told_pause n' = told_pause n ∖ {[peer]} ∧ asked_pause n' = asked_pause n ∧
  effects = SendMessage peer <$> filter (λ m, t < timestamp_of m)%Z (last_n LATEST_MESSAGES h).
Proof.
  intros [Hinv Hpeer Hp Hdet Hahead]. pose proof (plum_step_inv _ _ (Resumed peer t chain) Hinv) as Hstep.
  pose proof (resume_immediate_inv _ _ peer t chain _ (proj2 Hinv)) as [_ Hem].
  cbn [plum_step] in *. unfold rpc_resumeNeighbor in *. cbn [snd] in Hem. rewrite Hem, app_nil_r in Hstep.
  destruct (published_sorted _ _ _ Hp) as (_ & _ & Hch). destruct Hinv as [_ [_ _ _ Hlat]]. specialize (Hlat chain).
  unfold buffer in Hlat. rewrite Hch in Hlat. split_and!; [split; done| |done|].
  - unfold told_pause. cbn. rewrite pn_set_delete. by rewrite decide_True.
  - unfold sendBuffer. cbn [pm_latestMessages with_local]. by rewrite Hlat.
Qed.

Lemma end_told peer h ahead n c :
  end_state peer h ahead n →
  let '(n', effects) := plum_step n (Paused peer c) in
  end_state peer h ahead n' ∧ effects = [] ∧ asked_pause n' = asked_pause n ∧
  told_pause n ⊆ told_pause n' ∧ (∀ x, x ∈ told_pause n' → x ∈ told_pause n ∨ c = chain).
Proof.
  intros [Hinv Hpeer Hp Hdet Hahead]. pose proof (plum_step_inv _ _ (Paused peer c) Hinv) as Hstep.
  cbn [plum_step] in *. rewrite app_nil_r in Hstep. unfold rpc_pauseNeighbor in *.
  rewrite (proj2 (map_has_spec _ _) Hpeer : nl_has peer _ = true) in *. split_and!; [split; done|done|done| |];
    unfold told_pause; cbn; rewrite pn_set_add; case_decide as Hd; [|done| |auto].
  - destruct Hd as [-> _]. set_solver.
  - intros x _. tauto.
Qed.

Lemma end_asks peer h ahead n c :
  end_state peer h ahead n →
  let '(pm, effects) := pauseNeighbor (pl_neighbors n) peer c (pl_manager n) in
  end_state peer h ahead (with_manager pm n) ∧ told_pause (with_manager pm n) = told_pause n ∧
  asked_pause n ⊆ asked_pause (with_manager pm n) ∧
  (effects = [] ∨ effects = [PauseRequest peer c] ∧ (c = chain → peer ∈ asked_pause (with_manager pm n))).
Proof.
  intros [[Hnl Hpm] Hpeer Hp Hdet Hahead]. pose proof (pauseNeighbor_inv _ _ peer c _ Hpm) as [Hinv _].
  unfold pauseNeighbor in *. rewrite (proj2 (map_has_spec _ _) Hpeer : nl_has peer _ = true) in *. cbn [andb] in *.
  destruct (isPaused _ _ _) eqn:Hi; cbn [negb andb] in *; [by split_and!; [split|..]; auto|].
  destruct (Nat.ltb_spec (pn_size c (pm_remotePausedNeighbors (pl_manager n))) (pm_maxPausedNeighbors (pl_manager n))) as [Hlt|].
  2: by split_and!; [split|..]; auto.
  destruct Hpm as [_ _ [_ Hm] _]. split_and!; [split; done|done| |right; split; [done|]];
    unfold asked_pause; cbn; rewrite pn_set_add, Hm.
  - case_decide as Hd; [|done]. destruct Hd as [-> _]. set_solver.
  - intros ->. rewrite decide_True by done. set_solver.
Qed.
End catch_up.
Arguments end_state _ _ _ _ _ _ : clear implicits.

(** ** The link *)

Set Default Proof Using "All".

Section link_facts.
  Context (sender receiver source publisher chain : string).
  Hypothesis (Hsr : sender ≠ receiver) (Hsource : receiver ≠ source).
  Implicit Types (h : list net_message) (lk : link).

(** The receiver has everything, or everything but the last message, whose id it knows. *)
Definition behind h lk (ahead : gset Z) : Prop :=
  (lk_delivered lk = h ∧ ahead = ∅) ∨
  ∃ m, h = lk_delivered lk ++ [m] ∧ ahead = {[timestamp_of m]} ∧ receiver ∈ told_pause chain (lk_sender lk).

Record link_inv h lk (ahead : gset Z) : Prop := {
  li_sender : end_state publisher chain receiver h ∅ (lk_sender lk);
  li_receiver : end_state publisher chain sender (lk_delivered lk) ahead (lk_receiver lk);
  li_paused : receiver ∈ told_pause chain (lk_sender lk) → sender ∈ asked_pause chain (lk_receiver lk);
  li_behind : behind h lk ahead
}.

Lemma ask_pause_inv h lk ahead c :
  link_inv h lk ahead →
  let '(lk', out) := link_step sender receiver source lk (AskPause c) in link_inv h lk' ahead ∧ out = [].
Proof.
  intros [Hs Hr Hp Hb]. cbn [link_step]. pose proof (end_asks _ _ _ _ _ _ c Hr) as Hask.
  destruct (pauseNeighbor _ _ _ _) as [pm effects]. destruct Hask as (Hr' & _ & Hsub & [->|[-> Hin]]).
  - cbn. split; [|done]. split; [done|done| |done]. intros Ht. by apply Hsub, Hp.
  - unfold addressed. rewrite filter_cons_True by done. cbn [answer_all filter list_filter answer].
    pose proof (end_told _ _ _ _ _ _ c Hs) as Htold. destruct (plum_step _ _) as [s' out].
    destruct Htold as (Hs' & -> & _ & Hmono & Hsub'). cbn. split; [|done]. split; cbn.
    + done.
    + done.
    + intros [Ht| ->]%Hsub'; [|by apply Hin]. by apply Hsub, Hp.
    + destruct Hb as [Hb|(m & ? & ? & Ht)]; [by left|right]. exists m. split_and!; [done..|]. by apply Hmono.
Qed.

(** Messages in order reach a receiver that has what came before. *)
Lemma deliver_messages delivered r messages :
  end_state publisher chain sender delivered ∅ r → published publisher chain None 0 (delivered ++ messages) →
  let '(r', back) := deliver_all sender (SendMessage receiver <$> messages) r in
  end_state publisher chain sender (delivered ++ messages) ∅ r' ∧ addressed sender back = [] ∧
  emitted_of back = messages ∧ asked_pause chain r' = asked_pause chain r.
Proof.
  revert delivered r. induction messages as [|m messages IH]; intros delivered r Hr Hp.
  { cbn. by rewrite app_nil_r. }
  rewrite (cons_middle m delivered messages), app_assoc in *. rewrite fmap_cons. cbn [deliver_all deliver].
  assert (next_message publisher chain delivered m) as Hnext by (apply published_app in Hp as [Hp _]; by apply published_next).
  pose proof (end_receive _ _ _ _ _ _ m sender Hr Hnext) as Hstep. destruct (plum_step r _) as [r1 back] eqn:Hs1.
  destruct Hstep as (Hr1 & Heff & Hem & Hasked & _). replace (∅ ∖ {[timestamp_of m]}) with (∅ : gset Z) in Hr1 by set_solver.
  specialize (IH _ _ Hr1 Hp). destruct (deliver_all sender _ r1) as [r2 back'].
  destruct IH as (Hr2 & Hback & Hem' & Hasked'). split_and!; [done| |by rewrite emitted_of_app, Hem, Hem'|congruence].
  unfold addressed in *. rewrite filter_app, Hback, app_nil_r, Heff. apply filter_none.
  unfold plumtree_broadcast. cbn [snd]. intros e [->|He]%elem_of_cons; [done|].
  apply list_elem_of_fmap in He as (nb & -> & [Hnb _]%list_elem_of_filter). case_match; cbn; congruence.
Qed.

(** What the sender still has above the receiver's last message *)
Lemma buffer_above delivered m m' :
  published publisher chain None 0 (delivered ++ [m; m']) →
  filter (λ x, last_time delivered < timestamp_of x)%Z (last_n LATEST_MESSAGES (delivered ++ [m; m'])) = [m; m'].
Proof.
  intros Hp. destruct (published_sorted _ _ _ _ _ Hp) as (Hs & _ & _). pose proof Hp as Hp'.
  apply published_app in Hp as [Hd Hmm].
  assert (filter (λ x, last_time delivered < timestamp_of x)%Z (delivered ++ [m; m']) = [m; m']) as Hf.
  { rewrite filter_app, filter_none.
    - destruct (published_sorted _ _ _ _ _ Hmm) as (_ & Hgt & _).
      assert (last_time delivered = match last delivered with Some m => timestamp_of m | None => 0%Z end) as ->
        by (unfold last_time; by destruct (last delivered)).
      apply filter_all. by apply Forall_forall.
    - intros x Hx Hlt. pose proof (last_time_bound _ _ _ _ _ _ Hd Hx). lia. }
  rewrite filter_last_n; [done| |by rewrite Hf; cbn; unfold LATEST_MESSAGES; lia].
  clear -Hs. induction Hs as [|x l Hl IH Hx]; constructor; [done|]. eapply Forall_impl; [exact Hx|]. cbn. lia.
Qed.

(** The receiver's part of an exchange of one step *)
Lemma forward_paused h lk m :
  link_inv h lk ∅ → lk_delivered lk = h → next_message publisher chain h m →
  let '(r, back) := deliver_all sender [SendMetadata receiver m] (lk_receiver lk) in
  end_state publisher chain sender h {[timestamp_of m]} r ∧ back = [] ∧ asked_pause chain r = asked_pause chain (lk_receiver lk).
Proof.
  intros [_ Hr _ _] Hd Hnext. rewrite Hd in Hr.
  assert (size ({[timestamp_of m]} ∪ ∅ : gset Z) ≤ 1) as Hsize.
  { replace ({[timestamp_of m]} ∪ ∅ : gset Z) with ({[timestamp_of m]} : gset Z) by set_solver. by rewrite size_singleton. }
  pose proof (end_metadata _ _ _ _ _ _ m sender Hr (next_message_chain _ _ _ _ Hnext)
                (next_message_time _ _ _ _ Hnext) Hsize) as Hmeta.
  cbn [deliver_all deliver]. destruct (plum_step _ _) as [r effects].
  destruct Hmeta as (Hr' & -> & Hasked & _).
  by replace ({[timestamp_of m]} ∪ ∅ : gset Z) with ({[timestamp_of m]} : gset Z) in Hr' by set_solver.
Qed.

(** The message itself goes through. *)
Lemma forward_message h lk s m :
  link_inv h lk ∅ → lk_delivered lk = h → receiver ∉ told_pause chain s →
  end_state publisher chain receiver (h ++ [m]) ∅ s →
  let '(lk1, out) := exchange sender receiver [SendMessage receiver m] (MkLink s (lk_receiver lk) (lk_delivered lk)) in
  link_inv (h ++ [m]) lk1 ∅ ∧ out = [].
Proof.
  intros [_ Hr _ _] Hd Ht Hs. rewrite Hd in *. unfold exchange, addressed. rewrite filter_cons_True by done.
  cbn [filter list_filter lk_sender lk_receiver lk_delivered].
  pose proof (deliver_messages h (lk_receiver lk) [m] Hr (es_published _ _ _ _ _ _ Hs)) as Hdel.
  cbn [fmap list_fmap] in Hdel. destruct (deliver_all _ _ _) as [r back]. destruct Hdel as (Hr' & Hback & Hem & _).
  unfold addressed in Hback. rewrite Hback, Hem. cbn. split; [|done]. split; cbn; [done|done|done|by left].
Qed.

Lemma link_inv_told h lk ahead : link_inv h lk ahead → receiver ∉ told_pause chain (lk_sender lk) → lk_delivered lk = h ∧ ahead = ∅.
Proof. intros [_ _ _ [Hb|(m & _ & _ & ?)]]; done. Qed.

(** The second id ahead makes the sender send both messages. *)
Lemma forward_catches_up h lk s m m' :
  link_inv h lk {[timestamp_of m]} → h = lk_delivered lk ++ [m] → receiver ∈ told_pause chain (lk_sender lk) →
  next_message publisher chain h m' → end_state publisher chain receiver (h ++ [m']) ∅ s →
  let '(lk1, out) := exchange sender receiver [SendMetadata receiver m'] (MkLink s (lk_receiver lk) (lk_delivered lk)) in
  let '(lk2, out') := exchange sender receiver out lk1 in
  link_inv (h ++ [m']) lk2 ∅ ∧ out' = [].
Proof.
  intros Hinv Hh Ht Hnext Hs. pose proof Hinv as [_ Hr Hpaused _]. specialize (Hpaused Ht).
  pose proof (es_published _ _ _ _ _ _ Hs) as Hp.
  unfold exchange, addressed. rewrite filter_cons_True by done.
  cbn [filter list_filter lk_sender lk_receiver lk_delivered deliver_all deliver].
  pose proof (next_message_time _ _ _ _ Hnext) as Hlt. rewrite Hh in Hlt. unfold last_time at 1 in Hlt. rewrite last_snoc in Hlt.
  cbn in Hlt. assert (last_time (lk_delivered lk) < timestamp_of m)%Z as Hlt'.
  { apply published_app in Hp as [Hp _]. rewrite Hh in Hp. apply published_next in Hp as [_ Hm]. by apply next_message_time in Hm. }
  assert (1 < size ({[timestamp_of m']} ∪ {[timestamp_of m]} : gset Z)) as Hsize.
  { rewrite size_union by set_solver by lia. rewrite !size_singleton. lia. }
  assert (last_time (lk_delivered lk) < timestamp_of m')%Z as Hlt2 by lia.
  pose proof (end_resume_request _ _ _ _ _ _ m' Hr (next_message_chain _ _ _ _ Hnext) Hlt2 Hsize Hpaused) as Hreq.
  destruct (plum_step (lk_receiver lk) _) as [r1 effects]. destruct Hreq as [Hr1 ->].
  rewrite (next_message_chain _ _ _ _ Hnext). set (r2 := (plum_step r1 _).1) in *.
  cbn [app]. rewrite filter_cons_True by done. cbn [filter list_filter answer_all answer].
  pose proof (end_resume _ _ _ _ _ _ (last_time (lk_delivered lk)) Hs) as Hres.
  destruct (plum_step s _) as [s1 out]. destruct Hres as (Hs1 & Htold & _ & ->).
  rewrite Hh, <-app_assoc in *. cbn [app] in *. rewrite buffer_above, app_nil_r by done.
  unfold addressed. rewrite filter_all by (intros e (x & -> & _)%list_elem_of_fmap; done).
  cbn [lk_receiver lk_sender lk_delivered].
  pose proof (deliver_messages _ _ [m; m'] Hr1 Hp) as Hdel. destruct (deliver_all _ _ _) as [r3 back].
  destruct Hdel as (Hr3 & Hback & Hem & _). unfold addressed in Hback. rewrite Hback, Hem. cbn. rewrite app_nil_r.
  split; [|done]. split; cbn; [done|done| |by left]. rewrite Htold. set_solver.
Qed.

Lemma exchange_addressed effects lk :
  exchange sender receiver effects lk = exchange sender receiver (addressed receiver effects) lk.
Proof.
  unfold exchange. replace (addressed receiver (addressed receiver effects)) with (addressed receiver effects); [done|].
  unfold addressed. symmetry. apply filter_all. by intros e [? _]%list_elem_of_filter.
Qed.

Lemma forward_inv h lk ahead m :
  link_inv h lk ahead → next_message publisher chain h m →
  let '(lk', out) := link_step sender receiver source lk (Forward m) in
  (∃ ahead', link_inv (h ++ [m]) lk' ahead') ∧ out = [].
Proof.
  intros Hinv Hnext. pose proof Hinv as [Hs Hr Hpaused Hb]. cbn [link_step].
  pose proof (end_receive _ _ _ _ _ _ m source Hs Hnext) as Hstep.
  destruct (plum_step (lk_sender lk) _) as [s effects]. destruct Hstep as (Hs1 & -> & _ & _ & Htold).
  replace (∅ ∖ {[timestamp_of m]}) with (∅ : gset Z) in Hs1 by set_solver.
  rewrite exchange_addressed, broadcast_addressed; [|by destruct Hs as [[] ?]|by destruct Hs|done].
  rewrite isPaused_spec.
  assert (nm_messageChainId m = chain) as Hc by (by destruct Hnext as (_ & ? & _)).
  rewrite Hc. change (pn_set chain (pm_localPausedNeighbors (pl_manager (lk_sender lk)))) with (told_pause chain (lk_sender lk)).
  destruct (bool_decide_reflect (receiver ∈ told_pause chain (lk_sender lk))) as [Ht|Ht].
  - destruct Hb as [[Hd ->]|(x & Hh & -> & _)].
    + pose proof (forward_paused h lk m Hinv Hd Hnext) as Hf. unfold exchange at 1, addressed at 1.
      rewrite filter_cons_True by done.
      cbn [filter list_filter lk_receiver]. destruct (deliver_all _ _ _) as [r back]. destruct Hf as (Hr' & -> & Hasked). cbn.
      split; [|done]. exists {[timestamp_of m]}. rewrite app_nil_r. split; cbn.
      * done.
      * by rewrite app_nil_r, Hd.
      * intros _. rewrite Hasked. by apply Hpaused.
      * right. exists m. cbn. rewrite app_nil_r, Hd, Htold. done.
    + pose proof (forward_catches_up h lk s x m Hinv Hh Ht Hnext Hs1) as Hf.
      destruct (exchange _ _ _ _) as [lk1 out1]. destruct (exchange _ _ out1 lk1) as [lk2 out2].
      destruct Hf as [Hf ->]. split; [by exists ∅|done].
  - destruct (link_inv_told _ _ _ Hinv Ht) as [Hd ->]. rewrite <-Htold in Ht.
    pose proof (forward_message h lk s m Hinv Hd Ht Hs1) as Hf.
    destruct (exchange _ _ _ _) as [[s1 r1 d1] out1]. destruct Hf as [Hf ->]. cbn. rewrite app_nil_r. split; [by exists ∅|done].
Qed.

Lemma link_run_inv evs h lk ahead :
  link_inv h lk ahead → published publisher chain None 0 (h ++ link_messages evs) →
  let '(lk', outs) := link_run sender receiver source lk evs in
  (∃ ahead', link_inv (h ++ link_messages evs) lk' ahead') ∧ Forall (λ out, out = []) outs.
Proof.
  revert h lk ahead. induction evs as [|ev evs IH]; intros h lk ahead Hinv Hp; cbn [link_run].
  { cbn. rewrite app_nil_r. split; [by exists ahead|constructor]. }
  destruct ev as [m|c]; cbn [link_messages omap list_omap] in *.
  - rewrite (cons_middle m h), app_assoc in *.
    assert (next_message publisher chain h m) as Hnext by (apply published_app in Hp as [Hp _]; by apply published_next).
    pose proof (forward_inv h lk ahead m Hinv Hnext) as Hstep. destruct (link_step _ _ _ lk _) as [lk1 out].
    destruct Hstep as [[ahead' Hinv'] ->]. specialize (IH _ _ _ Hinv' Hp). destruct (link_run _ _ _ lk1 evs) as [lk2 outs].
    destruct IH as [? ?]. by split; [|constructor].
  - pose proof (ask_pause_inv h lk ahead c Hinv) as Hstep. destruct (link_step _ _ _ lk _) as [lk1 out].
    destruct Hstep as [Hinv' ->]. specialize (IH _ _ _ Hinv' Hp). destruct (link_run _ _ _ lk1 evs) as [lk2 outs].
    destruct IH as [? ?]. by split; [|constructor].
Qed.

Lemma end_new peer own limit maxPaused k :
  own ≠ peer → 0 < limit →
  end_state publisher chain peer [] ∅ (plum_run [NeighborAdd (MkRemote peer false k)] (plum_new own limit maxPaused)).1.
Proof.
  intros Hne Hlim. pose proof (plum_run_inv [NeighborAdd (MkRemote peer false k)] _ _ (plum_new_inv own limit maxPaused)) as Hinv.
  cbn [plum_run plum_step] in *. cbn in Hinv. cbn [fst].
  assert (nl_nodes (nl_add (MkRemote peer false k) (nodelist_new own limit)).1 = [(peer, MkRemote peer false k)]) as Hn.
  { unfold nl_add. cbn. rewrite bool_decide_eq_false_2 by done. cbn. destruct limit; [lia|done]. }
  split; cbn; [done| |done|by rewrite lookup_empty|by rewrite lookup_empty].
  unfold getIds. rewrite Hn. left.
Qed.
End link_facts.

Set Default Proof Using "Type".

(** C33: plumtree loses nothing on a link, and delays it by one message at most: for a chain published with increasing
    timestamps, whatever the moments at which the receiver asks to pause, after each message the receiver has passed
    on all the sender passed on, or all but the last one; and two exchanges are enough, nothing more is sent. *)
Theorem plumtree_link_catches_up sender receiver source publisher chain limit maxPaused evs :
  sender ≠ receiver → receiver ≠ source → 0 < limit → published publisher chain None 0 (link_messages evs) →
  let '(lk, outs) := link_run sender receiver source (link_new sender receiver limit maxPaused) evs in
  (lk_delivered lk = link_messages evs ∨ ∃ msg, link_messages evs = lk_delivered lk ++ [msg]) ∧
  Forall (λ out, out = []) outs.
Proof.
  intros Hsr Hsource Hlim Hp.
  assert (link_inv sender receiver publisher chain [] (link_new sender receiver limit maxPaused) ∅) as Hinv.
  { split; [by apply (end_new sender receiver source)|by apply (end_new sender receiver source)| |by left]. unfold told_pause, pn_set. cbn. by intros ?%elem_of_empty. }
  pose proof (link_run_inv sender receiver source publisher chain Hsr Hsource evs [] _ ∅ Hinv Hp) as Hrun.
  destruct (link_run _ _ _ _ evs) as [lk outs]. destruct Hrun as [[ahead [_ _ _ Hb]] Houts]. split; [|done].
  destruct Hb as [[-> _]|(m & Hm & _)]; [by left|right]. by exists m.
Qed.

Module PlumtreeWitness.
Definition paused_run : list plum_event :=
  [NeighborAdd (MkRemote "r" false 0); Received (numbered 1 10 0 None) "p"; Paused "r" "c";
   Received (numbered 2 20 0 (Some (10, 0)%Z)) "p"; Received (numbered 3 30 0 (Some (20, 0)%Z)) "p"].

Lemma resume_sends_what_was_missed_witness :
  (plum_step (plum_run paused_run (plum_new "s" 4 None)).1 (Resumed "r" 10 "c")).2 =
  [SendMessage "r" (numbered 2 20 0 (Some (10, 0)%Z)); SendMessage "r" (numbered 3 30 0 (Some (20, 0)%Z))].
Proof.
  pose proof (resume_sends_what_was_missed "s" 4 None paused_run "r" 10 "c") as H.
  destruct (plum_run paused_run (plum_new "s" 4 None)) as [n effects] eqn:Hrun. cbn [fst].
  assert (of_chain "c" (emitted_of effects) =
    [numbered 1 10 0 None; numbered 2 20 0 (Some (10, 0)%Z); numbered 3 30 0 (Some (20, 0)%Z)]) as He.
  { apply (f_equal snd) in Hrun. cbn [snd] in Hrun. rewrite <-Hrun. vm_compute. reflexivity. }
  rewrite He in H. refine (H _ _).
  - repeat constructor; vm_compute; congruence.
  - vm_compute. lia.
Defined.

Definition link_events : list link_event :=
  [Forward (numbered 1 10 0 None); AskPause "c"; Forward (numbered 2 20 0 (Some (10, 0)%Z));
   Forward (numbered 3 30 0 (Some (20, 0)%Z)); AskPause "c"; Forward (numbered 4 40 0 (Some (30, 0)%Z))].

Lemma plumtree_link_catches_up_witness :
  let '(lk, outs) := link_run "s" "r" "p" (link_new "s" "r" 4 None) link_events in
  lk_delivered lk = link_messages link_events ∨ ∃ msg, link_messages link_events = lk_delivered lk ++ [msg].
Proof.
  assert (published "0xaa" "c" None 0 (link_messages link_events)) as Hp.
  { cbn. split_and!; try done; eexists _, _; (split; [reflexivity|vm_compute; reflexivity]). }
  pose proof (plumtree_link_catches_up "s" "r" "p" "0xaa" "c" 4 None link_events ltac:(done) ltac:(done) ltac:(lia) Hp) as H.
  revert H. destruct (link_run "s" "r" "p" _ link_events) as [lk outs]. intros [H _]. exact H.
Defined.
End PlumtreeWitness.
