(* ===== verification/Neighbors.v ===== *)
(** * Finding neighbours in the overlay of a stream part

    Translated from [trackerless-network/src/content-delivery-layer/]: [neighbor-discovery/] ([Handshaker.ts],
    [HandshakeRpcLocal.ts], [HandshakeRpcRemote.ts], [NeighborFinder.ts], [NeighborUpdateManager.ts] and
    [NeighborUpdateRpcLocal.ts]) and the handlers of [ContentDeliveryLayerNode.ts] that keep the lists of nodes, wired
    as in [createContentDeliveryLayerNode.ts].

    A remote call is an output with a number; its answer, a failure being the answer that refuses, is an event, and what
    the code does with it is a frame that waits under the number.  The arrays of excluded ids, which two searches of a
    finder can share, are objects known by their numbers.  [sample] draws by a function of the length of its list. *)

From S2P Require Import Prelude.
From S2P Require Import JsMap.
From S2P Require Import NodeList.

Set Default Proof Using "Type".

(** The parts of a peer descriptor that matter: the id and the websocket entry *)
Record peer := MkPeer { pd_nodeId : string; pd_websocket : bool }.

Definition descriptor_of (remote : content_remote) : peer := MkPeer (rc_nodeId remote) (rc_websocket remote).
(** [createContentDeliveryRpcRemote] *)
Definition remote_to (p : peer) : content_remote := MkRemote (pd_nodeId p) (pd_websocket p) 0.

Definition PARALLEL_HANDSHAKE_COUNT : nat := 2.
Definition INITIAL_WAIT : Z := 100%Z.
Definition INTERVAL : Z := 250%Z.

(** What waits for the answer to a handshake: a handshake of a search (the number of the search, the place of the
    target), one with a node that an accepting target gave up ([result] is the answer for the search), or one that
    another node asked for. *)
Inductive frame :=
  | ForSearch (search index : nat)
  | ForInterleaveOf (targetNodeId : string) (accepted : bool) (search index : nat)
  | ForRequest (remoteNodeId : string) (request : nat).

(** A search: the array it excludes, what its targets answered so far, and whether it is one of the parallel kind. *)
Record search := MkSearch { se_excluded : nat; se_parallel : bool; se_targets : list (string * option bool) }.

Record overlay_node := MkOverlay {
  ov_neighbors : NodeList;
  ov_left : NodeList;
  ov_right : NodeList;
  ov_nearby : NodeList;
  ov_random : NodeList;
  ov_ongoingHandshakes : gset string;
  ov_ongoingInterleaves : gset string;
  (** handshakes under way: their targets and frames *)
  ov_handshakes : gmap nat (peer * frame);
  (** requests to interleave under way: their targets *)
  ov_interleaves : gmap nat string;
  ov_searches : gmap nat search;
  ov_arrays : list (list string);
  (** timers of the finder: when they are due, which array the searches exclude, how many searches start *)
  ov_timers : list (Z * nat * nat);
  ov_running : bool;
  ov_aborted : bool;
  (** the next number of a call, or of a search *)
  ov_next : nat }.

Inductive overlay_output :=
  | HandshakeCall (call : nat) (target : string) (neighborNodeIds : list string) (concurrent interleaveNodeId : option string)
  | InterleaveCall (call : nat) (target : string) (originator : peer)
  | InterleaveAnswer (request : nat) (accepted : bool)
  | UpdateCall (target : string) (neighborDescriptors : list peer)
  | NeighborEvent (ev : list_event).

Section overlay.
  Context (maxNeighborCount nodeViewSize : nat).
  Implicit Types (n : overlay_node) (nodeId : string) (exclude : list string) (draw : nat → nat) (now : Z).

Definition overlay_new (ownId : string) (maxContactCount : nat) : overlay_node :=
  let l := nodelist_new ownId maxContactCount in
  MkOverlay l l l l l ∅ ∅ ∅ ∅ ∅ [] [] false false 0.

Definition with_neighbors (l : NodeList) n : overlay_node :=
  MkOverlay l (ov_left n) (ov_right n) (ov_nearby n) (ov_random n) (ov_ongoingHandshakes n) (ov_ongoingInterleaves n) (ov_handshakes n)
    (ov_interleaves n) (ov_searches n) (ov_arrays n) (ov_timers n) (ov_running n) (ov_aborted n) (ov_next n).
Definition with_views (left right nearby random : NodeList) n : overlay_node :=
  MkOverlay (ov_neighbors n) left right nearby random (ov_ongoingHandshakes n) (ov_ongoingInterleaves n) (ov_handshakes n)
    (ov_interleaves n) (ov_searches n) (ov_arrays n) (ov_timers n) (ov_running n) (ov_aborted n) (ov_next n).
Definition with_calls (ongoing : gset string) (handshakes : gmap nat (peer * frame)) (next : nat) n : overlay_node :=
  MkOverlay (ov_neighbors n) (ov_left n) (ov_right n) (ov_nearby n) (ov_random n) ongoing (ov_ongoingInterleaves n) handshakes
    (ov_interleaves n) (ov_searches n) (ov_arrays n) (ov_timers n) (ov_running n) (ov_aborted n) next.
Definition with_interleaves (ongoing : gset string) (calls : gmap nat string) (next : nat) n : overlay_node :=
  MkOverlay (ov_neighbors n) (ov_left n) (ov_right n) (ov_nearby n) (ov_random n) (ov_ongoingHandshakes n) ongoing (ov_handshakes n)
    calls (ov_searches n) (ov_arrays n) (ov_timers n) (ov_running n) (ov_aborted n) next.
Definition with_finder (searches : gmap nat search) (arrays : list (list string)) (timers : list (Z * nat * nat)) (running : bool) n : overlay_node :=
  MkOverlay (ov_neighbors n) (ov_left n) (ov_right n) (ov_nearby n) (ov_random n) (ov_ongoingHandshakes n) (ov_ongoingInterleaves n) (ov_handshakes n)
    (ov_interleaves n) searches arrays timers running (ov_aborted n) (ov_next n).

Definition neighbor_ids n : list string := getIds (ov_neighbors n).
Definition neighbor_count n : nat := nl_size [] (ov_neighbors n).

Definition add_neighbor (p : peer) n : overlay_node * list overlay_output :=
  let '(l, evs) := nl_add (remote_to p) (ov_neighbors n) in (with_neighbors l n, NeighborEvent <$> evs).
Definition remove_neighbor nodeId n : overlay_node * list overlay_output :=
  let '(l, evs) := nl_remove nodeId (ov_neighbors n) in (with_neighbors l n, NeighborEvent <$> evs).

(** ** HandshakeRpcLocal *)

Record handshake_request := MkHandshake { hr_neighborNodeIds : list string; hr_interleaveNodeId : option string }.
Record handshake_response := MkHandshakeResponse { hs_accepted : bool; hs_interleaveTarget : option peer }.

Definition acceptHandshake (requester : peer) n : overlay_node * list overlay_output * handshake_response :=
  (add_neighbor requester n, MkHandshakeResponse true None).

Definition rejectHandshake n : overlay_node * list overlay_output * handshake_response := (n, [], MkHandshakeResponse false None).

Definition acceptHandshakeWithInterleaving (r : handshake_request) (requester : peer) n
    : overlay_node * list overlay_output * handshake_response :=
  let exclude := hr_neighborNodeIds r ++ elements (ov_ongoingInterleaves n) ++ [pd_nodeId requester] ++ option_list (hr_interleaveNodeId r) in
  let lastNode := getLast exclude (ov_neighbors n) in
  let '(n, out) :=
    match lastNode with
    | Some remote =>
        (with_interleaves ({[rc_nodeId remote]} ∪ ov_ongoingInterleaves n) (<[ov_next n := rc_nodeId remote]> (ov_interleaves n)) (S (ov_next n)) n,
         [InterleaveCall (ov_next n) (rc_nodeId remote) requester])
    | None => (n, [])
    end in
  let '(n, out') := add_neighbor requester n in
  (n, out ++ out', MkHandshakeResponse true (descriptor_of <$> lastNode)).

Definition handle_handshake (r : handshake_request) (sender : peer) n : overlay_node * list overlay_output * handshake_response :=
  let senderNodeId := pd_nodeId sender in
  if bool_decide (senderNodeId ∈ ov_ongoingInterleaves n) then rejectHandshake n
  else if nl_has senderNodeId (ov_neighbors n) || bool_decide (senderNodeId ∈ ov_ongoingHandshakes n) then acceptHandshake sender n
  else if (neighbor_count n + size (ov_ongoingHandshakes n) <? maxNeighborCount)%nat then acceptHandshake sender n
  else if (2 <=? Z.of_nat (nl_size (option_list (hr_interleaveNodeId r)) (ov_neighbors n)) - Z.of_nat (size (ov_ongoingInterleaves n)))%Z
          && (neighbor_count n <=? maxNeighborCount)%nat then acceptHandshakeWithInterleaving r sender n
  else rejectHandshake n.

(** The answer to a request to interleave *)
Definition interleave_answered (call : nat) (accepted : bool) n : overlay_node * list overlay_output :=
  match ov_interleaves n !! call with
  | None => (n, [])
  | Some nodeId =>
      let '(n, out) := if accepted then remove_neighbor nodeId n else (n, []) in
      (with_interleaves (ov_ongoingInterleaves n ∖ {[nodeId]}) (delete call (ov_interleaves n)) (ov_next n) n, out)
  end.

(** ** Handshaker *)

(** A handshake is sent: [concurrent] and [interleaveNodeId] are fields of the request. *)
Definition send_handshake (target : peer) (concurrent interleaveNodeId : option string) (k : frame) n : overlay_node * list overlay_output :=
  (with_calls ({[pd_nodeId target]} ∪ ov_ongoingHandshakes n) (<[ov_next n := (target, k)]> (ov_handshakes n)) (S (ov_next n)) n,
   [HandshakeCall (ov_next n) (pd_nodeId target) (neighbor_ids n) concurrent interleaveNodeId]).

Definition handshakeWithInterleaving (target : peer) (remoteNodeId : string) (k : frame) n : overlay_node * list overlay_output :=
  send_handshake target None (Some remoteNodeId) k n.

(** The handler of a request to interleave, until its handshake is answered *)
Definition interleaveRequest (request : nat) (target : peer) (remoteNodeId : string) n : overlay_node * list overlay_output :=
  handshakeWithInterleaving target remoteNodeId (ForRequest remoteNodeId request) n.

(** [targets.set], if there is a node *)
Definition add_target (remote : option content_remote) (targets : jsmap string peer) : jsmap string peer :=
  match remote with
  | Some remote => map_set (rc_nodeId remote) (descriptor_of remote) targets
  | None => targets
  end.

(** Step 4 of [selectParallelTargets]; a node drawn is not among the targets, so two rounds are enough. *)
Fixpoint fill_random draw (rounds : nat) (excludedIds : list string) n (targets : jsmap string peer) : jsmap string peer :=
  match rounds with
  | 0 => targets
  | S rounds =>
      if (length targets <? PARALLEL_HANDSHAKE_COUNT)%nat then
        match getRandom draw (excludedIds ++ targets.*1) (ov_random n) with
        | None => targets
        | Some random => fill_random draw rounds excludedIds n (add_target (Some random) targets)
        end
      else targets
  end.

Definition selectParallelTargets draw (excludedIds : list string) n : list peer :=
  let excluding (targets : jsmap string peer) := excludedIds ++ targets.*1 in
  let targets := if (neighbor_count n =? 0)%nat then add_target (getFirst (excluding []) true (ov_nearby n)) [] else [] in
  let leftNode := getFirst (excluding targets) false (ov_left n) in
  let rightNode := getFirst (excluding targets) false (ov_right n) in
  let targets := add_target rightNode (add_target leftNode targets) in
  let targets := if (length targets <? PARALLEL_HANDSHAKE_COUNT)%nat then add_target (getFirst (excluding targets) false (ov_nearby n)) targets else targets in
  (fill_random draw PARALLEL_HANDSHAKE_COUNT excludedIds n targets).*2.

Definition new_array (ids : list string) n : overlay_node * nat :=
  (with_finder (ov_searches n) (ov_arrays n ++ [ids]) (ov_timers n) (ov_running n) n, length (ov_arrays n)).

Definition array_of (ref : nat) n : list string := default [] (ov_arrays n !! ref).

Definition push (ref : nat) nodeId n : overlay_node :=
  with_finder (ov_searches n) (alter (λ ids, ids ++ [nodeId]) ref (ov_arrays n)) (ov_timers n) (ov_running n) n.

Definition new_search (s : search) n : overlay_node * nat :=
  (MkOverlay (ov_neighbors n) (ov_left n) (ov_right n) (ov_nearby n) (ov_random n) (ov_ongoingHandshakes n) (ov_ongoingInterleaves n)
     (ov_handshakes n) (ov_interleaves n) (<[ov_next n := s]> (ov_searches n)) (ov_arrays n) (ov_timers n) (ov_running n) (ov_aborted n)
     (S (ov_next n)), ov_next n).

Fixpoint handshake_all (sid index : nat) (targets : list peer) (concurrent : nat → option string) n : overlay_node * list overlay_output :=
  match targets with
  | [] => (n, [])
  | target :: targets =>
      let '(n, out) := send_handshake target (concurrent index) None (ForSearch sid index) n in
      let '(n, out') := handshake_all sid (S index) targets concurrent n in (n, out ++ out')
  end.

(** The searches, until they wait.  [None]: the search waits; [Some ref]: it answers the array [ref] at once. *)
Definition selectParallelTargetsAndHandshake draw (ref : nat) n : overlay_node * list overlay_output * option nat :=
  let exclude := array_of ref n ++ neighbor_ids n in
  let '(n, excludeRef) := new_array exclude n in
  match selectParallelTargets draw exclude n with
  | [] => (n, [], Some excludeRef)
  | targets =>
      let n := with_calls (list_to_set (pd_nodeId <$> targets) ∪ ov_ongoingHandshakes n) (ov_handshakes n) (ov_next n) n in
      let '(n, sid) := new_search (MkSearch excludeRef true ((λ t, (pd_nodeId t, None)) <$> targets)) n in
      let other (index : nat) := pd_nodeId <$> (if (index =? 0)%nat then targets !! 1 else targets !! 0) in
      let '(n, out) := handshake_all sid 0 targets other n in (n, out, None)
  end.

Definition selectNewTargetAndHandshake draw (ref : nat) n : overlay_node * list overlay_output * option nat :=
  let exclude := array_of ref n ++ neighbor_ids n in
  let first (l : NodeList) (rest : option content_remote) := match getFirst exclude false l with Some remote => Some remote | None => rest end in
  match first (ov_left n) (first (ov_right n) (first (ov_nearby n) (getRandom draw exclude (ov_random n)))) with
  | None => (n, [], Some ref)
  | Some target =>
      let '(n, sid) := new_search (MkSearch ref false [(rc_nodeId target, None)]) n in
      let '(n, out) := send_handshake (descriptor_of target) None None (ForSearch sid 0) n in (n, out, None)
  end.

Definition attemptHandshakesOnContacts draw (ref : nat) n : overlay_node * list overlay_output * option nat :=
  let count := (neighbor_count n + size (ov_ongoingHandshakes n))%nat in
  if (Z.of_nat count <? Z.of_nat maxNeighborCount - 2)%Z then selectParallelTargetsAndHandshake draw ref n
  else if (count <? maxNeighborCount)%nat then selectNewTargetAndHandshake draw ref n
  else (n, [], Some ref).

(** ** NeighborFinder *)

Definition uniqueContactCount n : nat :=
  size (list_to_set (getIds (ov_nearby n) ++ getIds (ov_left n) ++ getIds (ov_right n) ++ getIds (ov_random n)) : gset string).

(** [setAbortableTimeout] *)
Definition set_timer now (wait : Z) (ref count : nat) n : overlay_node :=
  if ov_aborted n then n
  else with_finder (ov_searches n) (ov_arrays n) (ov_timers n ++ [((now + wait)%Z, ref, count)]) (ov_running n) n.

Definition set_running (running : bool) n : overlay_node := with_finder (ov_searches n) (ov_arrays n) (ov_timers n) running n.

(** [findNeighbors] after [doFindNeighbors] answered *)
Definition found_neighbors now (newExcludes : nat) n : overlay_node :=
  if (neighbor_count n <? maxNeighborCount)%nat && (length (array_of newExcludes n) <? uniqueContactCount n)%nat
  then set_timer now INTERVAL newExcludes 1 n
  else if (neighbor_count n =? 0)%nat && (0 <? uniqueContactCount n)%nat
  then let '(n, ref) := new_array [] n in set_timer now INTERVAL ref 1 n
  else set_running false n.

(** [findNeighbors] until it waits *)
Definition findNeighbors draw (ref : nat) n : overlay_node * list overlay_output * option nat :=
  if ov_running n then attemptHandshakesOnContacts draw ref n else (n, [], None).

Definition finder_start now (excluded : list string) n : overlay_node :=
  if ov_running n then n
  else let '(n, ref) := new_array excluded n in set_timer now INITIAL_WAIT ref 2 (set_running true n).

Definition finder_stop n : overlay_node :=
  if ov_running n then
    MkOverlay (ov_neighbors n) (ov_left n) (ov_right n) (ov_nearby n) (ov_random n) (ov_ongoingHandshakes n) (ov_ongoingInterleaves n)
      (ov_handshakes n) (ov_interleaves n) (ov_searches n) (ov_arrays n) [] false true (ov_next n)
  else n.

(** A timer fires: its searches start, and then those that need not wait go on. *)
Definition finder_timeout draw now (k : nat) n : overlay_node * list overlay_output :=
  match ov_timers n !! k with
  | None => (n, [])
  | Some (due, ref, count) =>
      if (due <=? now)%Z then
        let n := with_finder (ov_searches n) (ov_arrays n) (delete k (ov_timers n)) (ov_running n) n in
        let '(n, out1, r1) := findNeighbors draw ref n in
        let '(n, out2, r2) := if (1 <? count)%nat then findNeighbors draw ref n else (n, [], None) in
        (foldl (λ n r, match r with Some ref => found_neighbors now ref n | None => n end) n [r1; r2], out1 ++ out2)
      else (n, [])
  end.

(** [doParallelHandshakes] and [selectNewTargetAndHandshake] when their handshakes are answered *)
Definition search_done now (sid : nat) (s : search) n : overlay_node :=
  let refused := omap (λ t, match t.2 with Some true => None | _ => Some t.1 end) (se_targets s) in
  let n := foldl (λ n nodeId, push (se_excluded s) nodeId n) n refused in
  found_neighbors now (se_excluded s) (with_finder (delete sid (ov_searches n)) (ov_arrays n) (ov_timers n) (ov_running n) n).

Definition search_answered now (sid index : nat) (accepted : bool) n : overlay_node :=
  match ov_searches n !! sid with
  | None => n
  | Some s =>
      let s := MkSearch (se_excluded s) (se_parallel s) (alter (λ t, (t.1, Some accepted)) index (se_targets s)) in
      let n := with_finder (<[sid := s]> (ov_searches n)) (ov_arrays n) (ov_timers n) (ov_running n) n in
      if forallb (λ t, bool_decide (is_Some t.2)) (se_targets s) then search_done now sid s n else n
  end.

Definition forget_ongoing nodeId n : overlay_node := with_calls (ov_ongoingHandshakes n ∖ {[nodeId]}) (ov_handshakes n) (ov_next n) n.

(** A handshake is answered. *)
Definition handshake_answered now (call : nat) (r : handshake_response) n : overlay_node * list overlay_output :=
  match ov_handshakes n !! call with
  | None => (n, [])
  | Some (target, k) =>
      let n := with_calls (ov_ongoingHandshakes n) (delete call (ov_handshakes n)) (ov_next n) n in
      let '(n, out) := if hs_accepted r then add_neighbor target n else (n, []) in
      match k with
      | ForSearch sid index =>
          match hs_interleaveTarget r with
          | Some other =>
              let '(n, out') := handshakeWithInterleaving other (pd_nodeId target) (ForInterleaveOf (pd_nodeId target) (hs_accepted r) sid index) n in
              (n, out ++ out')
          | None => (search_answered now sid index (hs_accepted r) (forget_ongoing (pd_nodeId target) n), out)
          end
      | ForInterleaveOf first accepted sid index =>
          (search_answered now sid index accepted (forget_ongoing first (forget_ongoing (pd_nodeId target) n)), out)
      | ForRequest remoteNodeId request =>
          let '(n, out') := remove_neighbor remoteNodeId (forget_ongoing (pd_nodeId target) n) in
          (n, out ++ out' ++ [InterleaveAnswer request true])
      end
  end.

(** ** NeighborUpdateManager and NeighborUpdateRpcLocal *)

Definition updateNeighborInfo n : list overlay_output :=
  let neighborDescriptors := descriptor_of <$> getAll (ov_neighbors n) in
  (λ p, UpdateCall (pd_nodeId p) neighborDescriptors) <$> neighborDescriptors.

(** The answer of a neighbour; setting the round trip time of a node that is no neighbour any more throws. *)
Definition update_answered now nodeId (removeMe : bool) n : overlay_node * list overlay_output :=
  if nl_has nodeId (ov_neighbors n) then
    if removeMe then let '(n, out) := remove_neighbor nodeId n in (finder_start now [nodeId] n, out) else (n, [])
  else (n, []).

Definition updateContacts (neighborDescriptors : list peer) n : overlay_node :=
  let newPeerDescriptors := filter (λ p, pd_nodeId p ≠ nl_ownId (ov_neighbors n) ∧ pd_nodeId p ∉ neighbor_ids n) neighborDescriptors in
  with_views (ov_left n) (ov_right n) (nl_add_all (remote_to <$> newPeerDescriptors) (ov_nearby n)).1 (ov_random n) n.

(** The answer: the neighbours, and whether the sender is to remove this node *)
Definition neighborUpdate now (remoteNodeId : string) (neighborDescriptors : list peer) n
    : overlay_node * list overlay_output * (list peer * bool) :=
  let n := updateContacts neighborDescriptors n in
  if negb (nl_has remoteNodeId (ov_neighbors n)) && negb (bool_decide (remoteNodeId ∈ ov_ongoingHandshakes n)) then
    (n, [], (descriptor_of <$> getAll (ov_neighbors n), true))
  else
    let isOverNeighborCount := (maxNeighborCount <? neighbor_count n)%nat && (maxNeighborCount <? length neighborDescriptors)%nat in
    let '(n, out) := if negb isOverNeighborCount then (finder_start now [] n, []) else remove_neighbor remoteNodeId n in
    (n, out, (descriptor_of <$> getAll (ov_neighbors n), isOverNeighborCount)).

(** ** ContentDeliveryLayerNode *)

Definition replaced (peers : list peer) (l : NodeList) : NodeList := (replaceAll (remote_to <$> peers) l).1.1.

Definition onRingContactsUpdated (left right : list peer) n : overlay_node :=
  with_views (replaced left (ov_left n)) (replaced right (ov_right n)) (ov_nearby n) (ov_random n) n.

(** The loop over the neighbours of the discovery layer *)
Fixpoint top_up (descriptors : list peer) (nearby : NodeList) : NodeList :=
  match descriptors with
  | [] => nearby
  | p :: descriptors => if (nodeViewSize <=? nl_size [] nearby)%nat then nearby else top_up descriptors (nl_add (remote_to p) nearby).1
  end.

Definition updateNearbyNodeView (closest discoveryNeighbors : list peer) n : overlay_node :=
  with_views (ov_left n) (ov_right n) (top_up discoveryNeighbors (replaced closest (ov_nearby n))) (ov_random n) n.

Definition start_if_few now n : overlay_node := if (neighbor_count n <? maxNeighborCount)%nat then finder_start now [] n else n.

Definition onNearbyContactAdded now (closest discoveryNeighbors : list peer) n : overlay_node :=
  start_if_few now (updateNearbyNodeView closest discoveryNeighbors n).

Definition onNearbyContactRemoved (closest discoveryNeighbors : list peer) n : overlay_node :=
  updateNearbyNodeView closest discoveryNeighbors n.

Definition onRandomContactRemoved (random : list peer) n : overlay_node :=
  with_views (ov_left n) (ov_right n) (ov_nearby n) (replaced random (ov_random n)) n.

Definition onRandomContactAdded now (random : list peer) n : overlay_node := start_if_few now (onRandomContactRemoved random n).

Definition onNodeDisconnected now nodeId n : overlay_node * list overlay_output :=
  if nl_has nodeId (ov_neighbors n) then let '(n, out) := remove_neighbor nodeId n in (finder_start now [nodeId] n, out) else (n, []).

(** [proxy]: whether there is a proxy connection with the node *)
Definition onLeaveNotice now (proxy : bool) nodeId n : overlay_node * list overlay_output :=
  if nl_has nodeId (ov_nearby n) || nl_has nodeId (ov_random n) || nl_has nodeId (ov_neighbors n) || proxy then
    let '(n, out) := remove_neighbor nodeId n in
    let gone (l : NodeList) := (nl_remove nodeId l).1 in
    (finder_start now [nodeId] (with_views (gone (ov_left n)) (gone (ov_right n)) (gone (ov_nearby n)) (gone (ov_random n)) n), out)
  else (n, []).

(** [stop], as far as the lists and the finder go *)
Definition node_stop n : overlay_node * list overlay_output :=
  let '(neighbors, _) := nl_stop (ov_neighbors n) in
  (finder_stop (with_views (ov_left n) (ov_right n) (nl_stop (ov_nearby n)).1 (nl_stop (ov_random n)).1 (with_neighbors neighbors n)), []).

(** ** What happens to a node *)

Inductive overlay_event :=
  | VHandshake (r : handshake_request) (sender : peer)
  | VInterleaveRequest (request : nat) (target : peer) (remoteNodeId : string)
  | VHandshakeAnswered (call : nat) (r : handshake_response)
  | VInterleaveAnswered (call : nat) (accepted : bool)
  | VUpdate (remoteNodeId : string) (neighborDescriptors : list peer)
  | VUpdateAnswered (nodeId : string) (removeMe : bool)
  | VTimer (draw : nat → nat) (k : nat)
  | VRing (lefts rights : list peer)
  | VNearby (added : bool) (closest discoveryNeighbors : list peer)
  | VRandom (added : bool) (random : list peer)
  | VDisconnected (nodeId : string)
  | VLeave (proxy : bool) (nodeId : string)
  | VStop.

Definition overlay_step now (ev : overlay_event) n : overlay_node * list overlay_output :=
  match ev with
  | VHandshake r sender => (handle_handshake r sender n).1
  | VInterleaveRequest request target remoteNodeId => interleaveRequest request target remoteNodeId n
  | VHandshakeAnswered call r => handshake_answered now call r n
  | VInterleaveAnswered call accepted => interleave_answered call accepted n
  | VUpdate remoteNodeId descriptors => (neighborUpdate now remoteNodeId descriptors n).1
  | VUpdateAnswered nodeId removeMe => update_answered now nodeId removeMe n
  | VTimer draw k => finder_timeout draw now k n
  | VRing lefts rights => (onRingContactsUpdated lefts rights n, [])
  | VNearby added closest neighbors =>
      ((if added then onNearbyContactAdded now closest neighbors n else onNearbyContactRemoved closest neighbors n), [])
  | VRandom added random => ((if added then onRandomContactAdded now random n else onRandomContactRemoved random n), [])
  | VDisconnected nodeId => onNodeDisconnected now nodeId n
  | VLeave proxy nodeId => onLeaveNotice now proxy nodeId n
  | VStop => node_stop n
  end.

Fixpoint overlay_run (evs : list (Z * overlay_event)) n : overlay_node * list overlay_output :=
  match evs with
  | [] => (n, [])
  | (now, ev) :: evs =>
      let '(n, out) := overlay_step now ev n in
      let '(n, out') := overlay_run evs n in (n, out ++ out')
  end.
End overlay.

(** * The lists are kept *)

(** A list with the same limit and owner *)
Definition same_list (l l' : NodeList) : Prop := nl_inv l' ∧ nl_limit l' = nl_limit l ∧ nl_ownId l' = nl_ownId l.

Lemma same_list_trans l1 l2 l3 : same_list l1 l2 → same_list l2 l3 → same_list l1 l3.
Proof. intros (_ & H1 & H2) (? & H3 & H4). split_and!; [done|congruence|congruence]. Qed.

Lemma add_same remote l : nl_inv l → same_list l (nl_add remote l).1.
Proof. intros Hl. pose proof (nl_add_spec remote l Hl) as H. destruct (nl_add remote l) as [l' evs]. destruct H as (? & ? & ? & _). by split_and!. Qed.

Lemma remove_same nodeId l : nl_inv l → same_list l (nl_remove nodeId l).1.
Proof. intros Hl. pose proof (nl_remove_spec nodeId l Hl) as H. destruct (nl_remove nodeId l) as [l' evs]. destruct H as (? & ? & ? & _). by split_and!. Qed.

Lemma add_all_same remotes l : nl_inv l → same_list l (nl_add_all remotes l).1.
Proof.
  revert l. induction remotes as [|remote remotes IH]; intros l Hl; [by split_and!|]. cbn [nl_add_all].
  pose proof (add_same remote l Hl) as Hadd. destruct (nl_add remote l) as [l1 evs]. cbn [fst] in Hadd.
  pose proof (IH l1 (proj1 Hadd)) as Hall. destruct (nl_add_all remotes l1) as [l2 evs']. by eapply same_list_trans.
Qed.

Lemma remove_all_same ids l : nl_inv l → same_list l (nl_remove_all ids l).1.
Proof.
  revert l. induction ids as [|nodeId ids IH]; intros l Hl; [by split_and!|]. cbn [nl_remove_all].
  pose proof (remove_same nodeId l Hl) as Hrem. destruct (nl_remove nodeId l) as [l1 evs]. cbn [fst] in Hrem.
  pose proof (IH l1 (proj1 Hrem)) as Hall. destruct (nl_remove_all ids l1) as [l2 evs']. by eapply same_list_trans.
Qed.

Lemma replaced_same peers l : nl_inv l → same_list l (replaced peers l).
Proof.
  intros Hl. unfold replaced, replaceAll. cbn [fst].
  assert (nl_inv (with_nodes [] l)) as Hempty by (split; cbn; [constructor|constructor|apply not_elem_of_nil|lia]).
  destruct (add_all_same (take (nl_limit l) (remote_to <$> peers)) _ Hempty) as (? & ? & ?). by split_and!.
Qed.

Lemma top_up_same size peers l : nl_inv l → same_list l (top_up size peers l).
Proof.
  revert l. induction peers as [|p peers IH]; intros l Hl; cbn [top_up]; [by split_and!|]. case_match; [by split_and!|].
  eapply same_list_trans; [by apply add_same|]. apply IH. by apply add_same.
Qed.

Lemma count_length l : nl_size [] l = length (getIds l).
Proof. unfold nl_size. rewrite filter_all; [done|]. intros x _. apply not_elem_of_nil. Qed.

Lemma has_ids nodeId l : nl_has nodeId l = bool_decide (nodeId ∈ getIds l).
Proof. apply eq_true_iff_eq. unfold nl_has. by rewrite map_has_spec, bool_decide_eq_true. Qed.

Lemma add_ids remote l : nl_inv l → getIds (nl_add remote l).1 = id_add (nl_ownId l) (nl_limit l) (rc_nodeId remote) (getIds l).
Proof. intros Hl. pose proof (nl_add_spec remote l Hl) as H. destruct (nl_add remote l) as [l' evs]. by destruct H as (_ & _ & _ & ? & _). Qed.

Lemma remove_ids nodeId l : nl_inv l → getIds (nl_remove nodeId l).1 = filter (λ id, id ≠ nodeId) (getIds l).
Proof. intros Hl. pose proof (nl_remove_spec nodeId l Hl) as H. destruct (nl_remove nodeId l) as [l' evs]. by destruct H as (_ & _ & _ & ? & _). Qed.

Lemma id_add_count own limit nodeId ids :
  length ids ≤ length (id_add own limit nodeId ids) ≤ S (length ids).
Proof. unfold id_add. case_decide; [lia|]. rewrite length_app. cbn. lia. Qed.

Lemma filter_ne_count (nodeId : string) (ids : list string) : NoDup ids → length ids ≤ S (length (filter (λ id, id ≠ nodeId) ids)).
Proof.
  intros Hnd. destruct (decide (nodeId ∈ ids)) as [Hin|Hin].
  - apply list_elem_of_split in Hin as (l1 & l2 & ->). apply NoDup_app in Hnd as (_ & Hd & [Hn _]%NoDup_cons).
    rewrite filter_app, filter_cons_False by tauto. rewrite !filter_all, !length_app; [cbn; lia|intros x Hx ->; done|].
    intros x Hx ->. apply (Hd nodeId Hx). left.
  - rewrite filter_all; [lia|]. by intros x Hx ->.
Qed.

(** * Calls under way *)

Record overlay_ok (n : overlay_node) : Prop := {
  ok_neighbors : nl_inv (ov_neighbors n);
  ok_left : nl_inv (ov_left n);
  ok_right : nl_inv (ov_right n);
  ok_nearby : nl_inv (ov_nearby n);
  ok_random : nl_inv (ov_random n);
  (** every ongoing handshake waits for a call *)
  ok_ongoing : ∀ x, x ∈ ov_ongoingHandshakes n → ∃ call target k, ov_handshakes n !! call = Some (target, k) ∧
    (pd_nodeId target = x ∨ ∃ accepted sid index, k = ForInterleaveOf x accepted sid index);
  (** so does every ongoing interleave, and no two calls are for one node *)
  ok_interleaves : ∀ x, x ∈ ov_ongoingInterleaves n ↔ ∃ call, ov_interleaves n !! call = Some x;
  ok_distinct : ∀ call call' x, ov_interleaves n !! call = Some x → ov_interleaves n !! call' = Some x → call = call';
  ok_next : ∀ call, ov_next n ≤ call → ov_handshakes n !! call = None ∧ ov_interleaves n !! call = None }.

(** Limits and owners stay. *)
Definition keeps (n n' : overlay_node) : Prop :=
  nl_limit (ov_neighbors n') = nl_limit (ov_neighbors n) ∧ nl_ownId (ov_neighbors n') = nl_ownId (ov_neighbors n) ∧
  nl_limit (ov_left n') = nl_limit (ov_left n) ∧ nl_limit (ov_right n') = nl_limit (ov_right n) ∧
  nl_limit (ov_nearby n') = nl_limit (ov_nearby n) ∧ nl_limit (ov_random n') = nl_limit (ov_random n) ∧
  nl_ownId (ov_left n') = nl_ownId (ov_left n) ∧ nl_ownId (ov_right n') = nl_ownId (ov_right n) ∧
  nl_ownId (ov_nearby n') = nl_ownId (ov_nearby n) ∧ nl_ownId (ov_random n') = nl_ownId (ov_random n).

Definition fine (n n' : overlay_node) : Prop := overlay_ok n' ∧ keeps n n'.

Lemma keeps_trans n1 n2 n3 : keeps n1 n2 → keeps n2 n3 → keeps n1 n3.
Proof. unfold keeps. intuition congruence. Qed.

Lemma fine_refl n : overlay_ok n → fine n n.
Proof. done. Qed.

Lemma fine_trans n1 n2 n3 : fine n1 n2 → (overlay_ok n2 → fine n2 n3) → fine n1 n3.
Proof. intros [H1 K1] H2. destruct (H2 H1) as [? K2]. split; [done|by eapply keeps_trans]. Qed.

(** Steps that change only the finder *)
Record core (n n' : overlay_node) : Prop := {
  co_neighbors : ov_neighbors n' = ov_neighbors n;
  co_views : ov_left n' = ov_left n ∧ ov_right n' = ov_right n ∧ ov_nearby n' = ov_nearby n ∧ ov_random n' = ov_random n;
  co_ongoing : ov_ongoingHandshakes n' = ov_ongoingHandshakes n ∧ ov_ongoingInterleaves n' = ov_ongoingInterleaves n;
  co_calls : ov_handshakes n' = ov_handshakes n ∧ ov_interleaves n' = ov_interleaves n;
  co_next : ov_next n ≤ ov_next n' }.

#[export] Instance core_preorder : PreOrder core.
Proof.
  split; [by intros n; split|]. intros n1 n2 n3 [? (? & ? & ? & ?) [? ?] [? ?] ?] [? (? & ? & ? & ?) [? ?] [? ?] ?].
  split; [congruence|split_and!; congruence|split; congruence|split; congruence|lia].
Qed.

Lemma core_fine n n' : overlay_ok n → core n n' → fine n n'.
Proof.
  intros [? ? ? ? ? Hon Hint Hd Hnext] [Hn (Hl & Hr & Hb & Ha) (Ho & Hi) (Hc & Hv) Hx]. split.
  - split; rewrite ?Hn, ?Hl, ?Hr, ?Hb, ?Ha, ?Ho, ?Hi, ?Hc, ?Hv; try done. intros call Hcall. apply Hnext. lia.
  - unfold keeps. by rewrite Hn, Hl, Hr, Hb, Ha.
Qed.

Section steps.
  Context (maxNeighborCount nodeViewSize : nat).
  Implicit Types (n : overlay_node) (nodeId : string) (draw : nat → nat) (now : Z).

Lemma set_timer_core now wait ref count n : core n (set_timer now wait ref count n).
Proof using Type. unfold set_timer. by case_match; split. Qed.

Lemma finder_start_core now excluded n : core n (finder_start now excluded n).
Proof using Type.
  unfold finder_start. case_match; [done|]. cbn. etrans; [|apply set_timer_core]. by split.
Qed.

Lemma found_core now ref n : core n (found_neighbors maxNeighborCount now ref n).
Proof using Type.
  unfold found_neighbors. case_match; [apply set_timer_core|]. case_match; [|by split].
  cbn. etrans; [|apply set_timer_core]. by split.
Qed.

Lemma search_answered_core now sid index accepted n : core n (search_answered maxNeighborCount now sid index accepted n).
Proof using Type.
  unfold search_answered. destruct (ov_searches n !! sid) as [s|]; [|done]. case_match; [|by split]. unfold search_done.
  etrans; [|apply found_core].
  assert (∀ (l : list string) n0 ref, core n0 (foldl (λ n nodeId, push ref nodeId n) n0 l)) as Hpush.
  { clear. induction l as [|x l IH]; intros n0 ref; [done|]. cbn. etrans; [|apply IH]. by split. }
  set (n1 := with_finder _ _ _ _ n). etrans; [by instantiate (1 := n1); split|]. etrans; [apply Hpush|]. by split.
Qed.

Lemma finder_stop_core n : core n (finder_stop n).
Proof using Type. unfold finder_stop. by case_match; split. Qed.

Lemma start_if_few_core now n : core n (start_if_few maxNeighborCount now n).
Proof using Type. unfold start_if_few. case_match; [apply finder_start_core|done]. Qed.

Lemma neighbors_fine n l : overlay_ok n → same_list (ov_neighbors n) l → fine n (with_neighbors l n).
Proof using Type. intros [] (? & ? & ?). split; [by split|by split_and!]. Qed.

Lemma views_fine n left right nearby random : overlay_ok n →
  same_list (ov_left n) left → same_list (ov_right n) right → same_list (ov_nearby n) nearby → same_list (ov_random n) random →
  fine n (with_views left right nearby random n).
Proof using Type. intros [] (? & ? & ?) (? & ? & ?) (? & ? & ?) (? & ? & ?). split; [by split|by split_and!]. Qed.

Lemma list_self l : nl_inv l → same_list l l.
Proof using Type. done. Qed.

Lemma add_fine p n : overlay_ok n → fine n (add_neighbor p n).1.
Proof using Type.
  intros Hn. unfold add_neighbor. pose proof (add_same (remote_to p) _ (ok_neighbors n Hn)) as H.
  destruct (nl_add _ _) as [l evs]. by apply neighbors_fine.
Qed.

Lemma remove_fine nodeId n : overlay_ok n → fine n (remove_neighbor nodeId n).1.
Proof using Type.
  intros Hn. unfold remove_neighbor. pose proof (remove_same nodeId _ (ok_neighbors n Hn)) as H.
  destruct (nl_remove _ _) as [l evs]. by apply neighbors_fine.
Qed.

(** A handshake that is sent *)
Lemma send_fine target concurrent interleave k n :
  overlay_ok n → fine n (send_handshake target concurrent interleave k n).1.
Proof using Type.
  intros [? ? ? ? ? Hon Hint Hd Hnext]. split; [|by split_and!]. split; cbn; try done.
  - intros x [->%elem_of_singleton|Hx]%elem_of_union.
    + exists (ov_next n), target, k. split; [by rewrite lookup_insert_eq|by left].
    + destruct (Hon x Hx) as (call & t & k' & Hc & Hk). exists call, t, k'. split; [|done]. rewrite lookup_insert_ne; [done|].
      intros <-. destruct (Hnext (ov_next n)) as [? _]; [lia|]. congruence.
  - intros call Hcall. rewrite lookup_insert_ne by lia. apply Hnext. lia.
Qed.

(** What a round of handshakes changes *)
Record sends (targets : list peer) n n' : Prop := {
  sd_ongoing : ov_ongoingHandshakes n' = list_to_set (pd_nodeId <$> targets) ∪ ov_ongoingHandshakes n;
  sd_kept : ∀ call v, ov_handshakes n !! call = Some v → ov_handshakes n' !! call = Some v;
  sd_sent : ∀ t, t ∈ targets → ∃ call k, ov_handshakes n' !! call = Some (t, k);
  sd_fresh : ∀ call, ov_next n' ≤ call → ov_handshakes n' !! call = None;
  sd_next : ov_next n ≤ ov_next n';
  sd_neighbors : ov_neighbors n' = ov_neighbors n;
  sd_views : ov_left n' = ov_left n ∧ ov_right n' = ov_right n ∧ ov_nearby n' = ov_nearby n ∧ ov_random n' = ov_random n;
  sd_interleaves : ov_ongoingInterleaves n' = ov_ongoingInterleaves n ∧ ov_interleaves n' = ov_interleaves n }.

Lemma handshake_all_sends sid index (targets : list peer) (concurrent : nat → option string) n :
  (∀ call, ov_next n ≤ call → ov_handshakes n !! call = None) →
  sends targets n (handshake_all sid index targets concurrent n).1.
Proof using Type.
  revert index n. induction targets as [|t targets IH]; intros index n Hfresh.
  { cbn. split; cbn; try done; [set_solver|]. by intros t ?%not_elem_of_nil. }
  cbn [handshake_all]. set (sent := send_handshake t (concurrent index) None (ForSearch sid index) n).
  assert (∀ call, ov_next sent.1 ≤ call → ov_handshakes sent.1 !! call = None) as Hfresh1.
  { intros call Hcall. cbn in Hcall |- *. rewrite lookup_insert_ne by lia. apply Hfresh. lia. }
  specialize (IH (S index) sent.1 Hfresh1). destruct sent as [n1 out] eqn:Hsent. cbn [fst] in *.
  destruct (handshake_all sid (S index) targets concurrent n1) as [n2 out']. cbn [fst] in *.
  unfold sent, send_handshake in Hsent. injection Hsent as <- _. destruct IH as [Ho Hk Hs Hf Hx Hn Hv Hi]. cbn in *.
  split; try done; [rewrite Ho; set_solver| | |lia].
  - intros call v Hc. apply Hk. rewrite lookup_insert_ne; [done|]. intros <-. by rewrite Hfresh in Hc.
  - intros t' [->|Ht]%elem_of_cons; [|by apply Hs]. exists (ov_next n), (ForSearch sid index). apply Hk. by rewrite lookup_insert_eq.
Qed.

Lemma sends_fine (targets : list peer) n n1 n' : overlay_ok n → core n n1 →
  sends targets (with_calls (list_to_set (pd_nodeId <$> targets) ∪ ov_ongoingHandshakes n1) (ov_handshakes n1) (ov_next n1) n1) n' →
  fine n n'.
Proof using Type.
  intros Hn Hcore Hs. eapply fine_trans; [by apply core_fine|]. intros [? ? ? ? ? Hon Hint Hd Hnext].
  destruct Hs as [Ho Hk Hsent Hf Hx Hnb (Hl & Hr & Hb & Ha) (Hi & Hv)]. cbn in *. split.
  - split; rewrite ?Hnb, ?Hl, ?Hr, ?Hb, ?Ha, ?Hi, ?Hv; try done.
    + intros x Hxin. rewrite Ho in Hxin. assert (x ∈ pd_nodeId <$> targets ∨ x ∈ ov_ongoingHandshakes n1) as [Hxt|Hxo] by set_solver.
      * apply list_elem_of_fmap in Hxt as (t & -> & Ht). destruct (Hsent t Ht) as (call & k & Hc). exists call, t, k. by split; [|left].
      * destruct (Hon x Hxo) as (call & t & k & Hc & ?). exists call, t, k. split; [by apply Hk|done].
    + intros call Hcall. split; [by apply Hf|]. apply Hnext. lia.
  - unfold keeps. by rewrite Hnb, Hl, Hr, Hb, Ha.
Qed.

Lemma new_search_core s n : core n (new_search s n).1.
Proof using Type. unfold new_search. split; cbn; try done. lia. Qed.

Lemma attempt_fine draw ref n : overlay_ok n → fine n (attemptHandshakesOnContacts maxNeighborCount draw ref n).1.1.
Proof using Type.
  intros Hn. unfold attemptHandshakesOnContacts, selectParallelTargetsAndHandshake, selectNewTargetAndHandshake. case_match.
  - cbn [new_array]. set (n1 := with_finder _ _ _ _ n). assert (core n n1) as Hc1 by by split.
    destruct (selectParallelTargets _ _ _) as [|t targets] eqn:Ht; [by apply core_fine|]. rewrite <-Ht. set (all := selectParallelTargets _ _ _). clearbody all.
    set (n2 := with_calls _ _ _ n1).
    destruct (new_search _ n2) as [n3 sid] eqn:Hsearch. pose proof (handshake_all_sends sid 0 all (λ index, pd_nodeId <$> (if (index =? 0)%nat then all !! 1 else all !! 0)) n3) as Hs.
    destruct (handshake_all sid 0 all _ n3) as [n4 out]. cbn [fst] in *. unfold new_search in Hsearch. injection Hsearch as <- <-.
    apply (sends_fine all n (new_search (MkSearch (length (ov_arrays n)) true ((λ t0, (pd_nodeId t0, None)) <$> all)) n1).1); [done| |].
    + etrans; [exact Hc1|apply new_search_core].
    + apply Hs. intros call Hcall. cbn in Hcall |- *. apply (ok_next n Hn). lia.
  - case_match; [|by apply fine_refl]. case_match; [|by apply fine_refl]. cbn [new_search].
    set (n1 := MkOverlay _ _ _ _ _ _ _ _ _ _ _ _ _ _ _).
    assert (core n n1) as Hc by (split; cbn; try done; lia). eapply fine_trans; [by apply core_fine|]. intros Hn1. by apply send_fine.
Qed.

Lemma find_fine draw ref n : overlay_ok n → fine n (findNeighbors maxNeighborCount draw ref n).1.1.
Proof using Type. intros Hn. unfold findNeighbors. case_match; [by apply attempt_fine|by apply fine_refl]. Qed.

Lemma timeout_fine draw now k n : overlay_ok n → fine n (finder_timeout maxNeighborCount draw now k n).1.
Proof using Type.
  intros Hn. unfold finder_timeout. destruct (ov_timers n !! k) as [[[due ref] count]|]; [|by apply fine_refl].
  case_match; [|by apply fine_refl]. set (n1 := with_finder _ _ _ _ n).
  assert (fine n n1) as Hn1 by (apply core_fine; [done|by split]). pose proof (find_fine draw ref n1 (proj1 Hn1)) as H2.
  destruct (findNeighbors _ draw ref n1) as [[n2 out1] r1]. cbn [fst] in H2.
  assert (overlay_ok n2) as Hok2 by apply H2. set (second := if (1 <? count)%nat then findNeighbors maxNeighborCount draw ref n2 else (n2, [], None)).
  assert (fine n2 second.1.1) as H3 by (subst second; destruct (1 <? count)%nat; [by apply find_fine|by apply fine_refl]).
  destruct second as [[n3 out2] r2]. cbn [fst] in H3 |- *.
  eapply fine_trans; [exact Hn1|]. intros _. eapply fine_trans; [exact H2|]. intros _. eapply fine_trans; [exact H3|]. intros Hok3.
  apply core_fine; [done|]. cbn. destruct r1, r2; [etrans; [|apply found_core]; apply found_core|apply found_core|apply found_core|done].
Qed.

(** The call of a handshake is over, and what it was ongoing for as well. *)
Lemma forget_fine (gone : gset string) call target k n : overlay_ok n → ov_handshakes n !! call = Some (target, k) →
  pd_nodeId target ∈ gone → (∀ x accepted sid index, k = ForInterleaveOf x accepted sid index → x ∈ gone) →
  fine n (with_calls (ov_ongoingHandshakes n ∖ gone) (delete call (ov_handshakes n)) (ov_next n) n).
Proof using Type.
  intros [? ? ? ? ? Hon Hint Hd Hnext] Hcall Htarget Hk. split; [|by split_and!]. split; cbn; try done.
  - intros x [Hx Hgone]%elem_of_difference. destruct (Hon x Hx) as (call' & t & k' & Hc & Hwhy). exists call', t, k'. split; [|done].
    rewrite lookup_delete_ne; [done|]. intros <-. rewrite Hcall in Hc. injection Hc as <- <-.
    destruct Hwhy as [<-|(accepted & sid & index & ->)]; [done|]. apply Hgone. by eapply Hk.
  - intros call' Hc. destruct (Hnext call' Hc). split; [|done]. by rewrite lookup_delete_None; right.
Qed.

(** The call is over, and another one takes over what it was ongoing for. *)
Lemma hand_over_fine call target k other remote accepted sid index n : overlay_ok n →
  ov_handshakes n !! call = Some (target, k) → (∀ x a i j, k ≠ ForInterleaveOf x a i j) →
  fine n (handshakeWithInterleaving other remote (ForInterleaveOf (pd_nodeId target) accepted sid index)
            (with_calls (ov_ongoingHandshakes n) (delete call (ov_handshakes n)) (ov_next n) n)).1.
Proof using Type.
  intros [? ? ? ? ? Hon Hint Hd Hnext] Hcall Hk. split; [|by split_and!]. split; cbn; try done.
  - intros x [->%elem_of_singleton|Hx]%elem_of_union.
    + eexists (ov_next n), other, _. split; [by rewrite lookup_insert_eq|by left].
    + destruct (Hon x Hx) as (call' & t & k' & Hc & Hwhy). destruct (decide (call' = call)) as [->|Hne].
      * rewrite Hcall in Hc. injection Hc as <- <-. destruct Hwhy as [<-|(a & i & j & ->)]; [|by destruct (Hk x a i j)].
        eexists (ov_next n), other, _. split; [by rewrite lookup_insert_eq|right; by eexists _, _, _].
      * exists call', t, k'. split; [|done]. rewrite lookup_insert_ne, lookup_delete_ne; [done|done|].
        intros <-. destruct (Hnext (ov_next n)) as [? _]; [lia|]. congruence.
  - intros call' Hc. rewrite lookup_insert_ne by lia. destruct (Hnext call'); [lia|]. split; [|done]. by rewrite lookup_delete_None; right.
Qed.

Lemma answered_fine now call r n : overlay_ok n → fine n (handshake_answered maxNeighborCount now call r n).1.
Proof using Type.
  intros Hn. unfold handshake_answered. destruct (ov_handshakes n !! call) as [[target k]|] eqn:Hcall; [|by apply fine_refl].
  set (n1 := with_calls _ _ _ n).
  (* adding the neighbour and ending the call commute *)
  set (added := if hs_accepted r then add_neighbor target n1 else (n1, [])).
  set (n0 := if hs_accepted r then (add_neighbor target n).1 else n).
  assert (fine n n0) as H0 by (subst n0; destruct (hs_accepted r); [by apply add_fine|by apply fine_refl]).
  assert (added.1 = with_calls (ov_ongoingHandshakes n0) (delete call (ov_handshakes n0)) (ov_next n0) n0 ∧ ov_handshakes n0 = ov_handshakes n) as [Hadded Hsame].
  { subst added n0 n1. destruct (hs_accepted r); [|done]. unfold add_neighbor. cbn [with_calls ov_neighbors].
    by destruct (nl_add (remote_to target) (ov_neighbors n)). }
  destruct added as [n2 out] eqn:Hadd. cbn [fst] in Hadded. subst n2.
  assert (ov_handshakes n0 !! call = Some (target, k)) as Hcall0 by by rewrite Hsame.
  eapply fine_trans; [exact H0|]. intros Hok0. destruct k as [sid index|first accepted sid index|remoteNodeId request].
  - destruct (hs_interleaveTarget r) as [other|].
    + pose proof (hand_over_fine call target _ other (pd_nodeId target) (hs_accepted r) sid index n0 Hok0 Hcall0 ltac:(done)) as Hover.
      by destruct (handshakeWithInterleaving _ _ _ _).
    + cbn [fst]. eapply fine_trans; [|intros Hok; apply core_fine; [exact Hok|apply search_answered_core]].
      apply (forget_fine {[pd_nodeId target]} call target _ n0 Hok0 Hcall0); [set_solver|by intros].
  - cbn [fst]. eapply fine_trans; [|intros Hok; apply core_fine; [exact Hok|apply search_answered_core]].
    pose proof (forget_fine ({[pd_nodeId target]} ∪ {[first]}) call target _ n0 Hok0 Hcall0 ltac:(set_solver)) as Hf.
    unfold forget_ongoing. cbn [with_calls ov_ongoingHandshakes ov_handshakes ov_next ov_neighbors] in *.
    rewrite difference_difference_l_L. apply Hf. intros x a i j [= -> _ _ _]. set_solver.
  - set (n3 := forget_ongoing _ _). assert (fine n0 n3) as H3.
    { apply (forget_fine {[pd_nodeId target]} call target _ n0 Hok0 Hcall0); [set_solver|by intros]. }
    pose proof (remove_fine remoteNodeId n3 (proj1 H3)) as H4. destruct (remove_neighbor remoteNodeId n3) as [n4 out']. cbn [fst] in *.
    eapply fine_trans; [exact H3|done].
Qed.

Lemma interleave_answered_fine call accepted n : overlay_ok n → fine n (interleave_answered call accepted n).1.
Proof using Type.
  intros Hn. unfold interleave_answered. destruct (ov_interleaves n !! call) as [nodeId|] eqn:Hcall; [|by apply fine_refl].
  set (removed := if accepted then remove_neighbor nodeId n else (n, [])).
  assert (fine n removed.1 ∧ ov_interleaves removed.1 = ov_interleaves n ∧ ov_ongoingInterleaves removed.1 = ov_ongoingInterleaves n) as (H1 & Hi & Ho).
  { subst removed. destruct accepted; [|by split_and!]. split; [by apply remove_fine|]. unfold remove_neighbor. by destruct (nl_remove _ _). }
  destruct removed as [n1 out]. cbn [fst] in *. eapply fine_trans; [exact H1|]. intros [? ? ? ? ? Hon Hint Hd Hnext]. split; [|by split_and!].
  split; cbn; try done.
  - intros x. rewrite elem_of_difference, not_elem_of_singleton, Hint. split.
    + intros [(c & Hc) Hne]. exists c. rewrite lookup_delete_ne; [done|]. intros <-. rewrite Hi, Hcall in Hc. congruence.
    + intros (c & [Hne Hc]%lookup_delete_Some). split; [by exists c|]. intros ->. apply Hne. apply (Hd call c nodeId); [by rewrite Hi|done].
  - intros c c' x [_ Hc]%lookup_delete_Some [_ Hc']%lookup_delete_Some. by eapply Hd.
  - intros c Hc. destruct (Hnext c Hc). split; [done|]. by rewrite lookup_delete_None; right.
Qed.

(** A request to interleave is sent to a node for which there is none. *)
Lemma interleave_fine nodeId n : overlay_ok n → nodeId ∉ ov_ongoingInterleaves n →
  fine n (with_interleaves ({[nodeId]} ∪ ov_ongoingInterleaves n) (<[ov_next n := nodeId]> (ov_interleaves n)) (S (ov_next n)) n).
Proof using Type.
  intros [? ? ? ? ? Hon Hint Hd Hnext] Hnew. split; [|by split_and!]. split; cbn; try done.
  - intros x. rewrite elem_of_union, elem_of_singleton, Hint. split.
    + intros [->|(c & Hc)]; [exists (ov_next n); by rewrite lookup_insert_eq|]. exists c. rewrite lookup_insert_ne; [done|].
      intros <-. destruct (Hnext (ov_next n)) as [_ ?]; [lia|]. congruence.
    + intros (c & [[_ <-]|[_ Hc]]%lookup_insert_Some); [by left|right; by exists c].
  - intros c c' x [[<- <-]|[? Hc]]%lookup_insert_Some [[<- ?]|[? Hc']]%lookup_insert_Some.
    + done.
    + destruct Hnew. apply Hint. by exists c'.
    + subst. destruct Hnew. apply Hint. by exists c.
    + by eapply Hd.
  - intros c Hc. rewrite lookup_insert_ne by lia. apply Hnext. lia.
Qed.

Lemma interleaving_accept_fine r sender n : overlay_ok n → fine n (acceptHandshakeWithInterleaving r sender n).1.1.
Proof using Type.
  intros Hn. unfold acceptHandshakeWithInterleaving. set (exclude := _ ++ _).
  destruct (getLast exclude (ov_neighbors n)) as [remote|] eqn:Hlast.
  - set (n1 := with_interleaves _ _ _ n). assert (fine n n1) as H1.
    { apply interleave_fine; [done|]. intros Hin. unfold getLast in Hlast. apply last_Some_elem_of in Hlast.
      unfold getValuesOfIncludedKeys in Hlast. apply list_elem_of_fmap in Hlast as ([k v] & -> & [Hex Hin']%list_elem_of_filter). cbn in *.
      pose proof (nli_keys _ (ok_neighbors n Hn)) as Hkeys. rewrite Forall_forall in Hkeys. specialize (Hkeys _ Hin'). cbn in Hkeys. subst k.
      apply Hex. unfold exclude. rewrite !elem_of_app. right. left. by apply elem_of_elements. }
    pose proof (add_fine sender n1 (proj1 H1)) as H2. destruct (add_neighbor sender n1) as [n2 out']. cbn [fst] in *. by eapply fine_trans.
  - pose proof (add_fine sender n Hn) as H2. by destruct (add_neighbor sender n) as [n2 out'].
Qed.
End steps.

Section overlay_theorems.
  Context (maxNeighborCount nodeViewSize : nat).
  Implicit Types (n : overlay_node) (nodeId : string) (draw : nat → nat) (now : Z).

Notation step := (overlay_step maxNeighborCount nodeViewSize).
Notation run := (overlay_run maxNeighborCount nodeViewSize).

Lemma handshake_fine r sender n : overlay_ok n → fine n (handle_handshake maxNeighborCount r sender n).1.1.
Proof using Type.
  intros Hn. unfold handle_handshake, acceptHandshake, rejectHandshake.
  repeat (case_match; cbn [fst]); try (by apply fine_refl); try (by apply add_fine). by apply interleaving_accept_fine.
Qed.

Lemma update_fine now remoteNodeId descriptors n : overlay_ok n → fine n (neighborUpdate maxNeighborCount now remoteNodeId descriptors n).1.1.
Proof using Type.
  intros Hn. unfold neighborUpdate. set (n1 := updateContacts descriptors n).
  assert (fine n n1) as H1 by (pose proof Hn as []; by apply views_fine; try apply list_self; try apply add_all_same).
  case_match; [exact H1|]. eapply fine_trans; [exact H1|]. intros Hok1.
  destruct (negb ((maxNeighborCount <? neighbor_count n1)%nat && (maxNeighborCount <? length descriptors)%nat)); cbn [fst].
  - apply core_fine; [done|apply finder_start_core].
  - pose proof (remove_fine remoteNodeId n1 Hok1) as H2. by destruct (remove_neighbor remoteNodeId n1).
Qed.

Lemma removed_then_fine nodeId n (f : overlay_node → overlay_node) : overlay_ok n → (∀ n', overlay_ok n' → fine n' (f n')) →
  fine n (let '(n', out) := remove_neighbor nodeId n in (f n', out)).1.
Proof using Type.
  intros Hn Hf. pose proof (remove_fine nodeId n Hn) as H1. destruct (remove_neighbor nodeId n) as [n1 out]. cbn [fst] in *.
  eapply fine_trans; [exact H1|apply Hf].
Qed.

Lemma step_fine now ev n : overlay_ok n → fine n (step now ev n).1.
Proof using Type.
  intros Hn. pose proof Hn as [Hb Hl Hr Hy Ha _ _ _ _].
  destruct ev as [r sender|request target remote|call r|call accepted|remote descriptors|nodeId removeMe|draw k|lefts rights|added closest others|added random|nodeId|proxy nodeId|];
    cbn [overlay_step].
  - by apply handshake_fine.
  - exact (send_fine target None (Some remote) (ForRequest remote request) n Hn).
  - by apply answered_fine.
  - by apply interleave_answered_fine.
  - by apply update_fine.
  - unfold update_answered. case_match; [|by apply fine_refl]. destruct removeMe; [|by apply fine_refl].
    apply removed_then_fine; [done|]. intros n' Hn'. apply core_fine; [done|apply finder_start_core].
  - by apply timeout_fine.
  - by apply views_fine; try apply replaced_same.
  - assert (fine n (updateNearbyNodeView nodeViewSize closest others n)) as H1.
    { apply views_fine; try done. eapply same_list_trans; [by apply replaced_same|]. apply top_up_same, replaced_same, Hy. }
    destruct added; cbn [fst]; [|exact H1]. eapply fine_trans; [exact H1|]. intros Hok. apply core_fine; [done|apply start_if_few_core].
  - assert (fine n (onRandomContactRemoved random n)) as H1 by (apply views_fine; try done; by apply replaced_same).
    destruct added; cbn [fst]; [|exact H1]. eapply fine_trans; [exact H1|]. intros Hok. apply core_fine; [done|apply start_if_few_core].
  - unfold onNodeDisconnected. case_match; [|by apply fine_refl].
    apply removed_then_fine; [done|]. intros n' Hn'. apply core_fine; [done|apply finder_start_core].
  - unfold onLeaveNotice. case_match; [|by apply fine_refl]. apply removed_then_fine; [done|]. intros n' [? ? ? ? ? ? ? ? ?].
    eapply fine_trans; [by apply (views_fine n'); try apply remove_same|]. intros Hok. apply core_fine; [done|apply finder_start_core].
  - unfold node_stop. pose proof (remove_all_same (rc_nodeId <$> getAll (ov_neighbors n)) _ Hb) as H1.
    unfold nl_stop at 1. destruct (nl_remove_all (rc_nodeId <$> getAll (ov_neighbors n)) (ov_neighbors n)) as [l evs]. cbn [fst] in *.
    eapply fine_trans; [by apply neighbors_fine|]. intros Hok1.
    eapply fine_trans; [apply (views_fine _ (ov_left n) (ov_right n) (nl_stop (ov_nearby n)).1 (nl_stop (ov_random n)).1 Hok1); try done; by apply remove_all_same|].
    intros Hok2. apply core_fine; [exact Hok2|apply finder_stop_core].
Qed.

Lemma run_fine (evs : list (Z * overlay_event)) n : overlay_ok n → fine n (run evs n).1.
Proof using Type.
  revert n. induction evs as [|[now ev] evs IH]; intros n Hn; [by apply fine_refl|]. cbn [overlay_run].
  pose proof (step_fine now ev n Hn) as H1. destruct (step now ev n) as [n1 out]. cbn [fst] in H1.
  pose proof (IH n1 (proj1 H1)) as H2. destruct (run evs n1) as [n2 out']. cbn [fst] in *. by eapply fine_trans.
Qed.

Lemma new_ok ownId limit : overlay_ok (overlay_new ownId limit).
Proof using Type.
  split; try apply nl_new_inv; try done. intros x. split; [by intros ?%elem_of_empty|by intros (call & Hc)].
Qed.

(** C31: the lists of a node stay bounded and nothing is waited for in vain: whatever messages and answers come, in whatever
    order, every list of nodes (neighbours, left, right, near and random) has at most its limit of entries, no node twice
    and not the node itself; every handshake that counts as ongoing waits for the answer to a call, so that none is ongoing
    when no call is; and the nodes that are being interleaved are exactly those with a call of their own. *)
Theorem overlay_lists_stay_bounded ownId limit (evs : list (Z * overlay_event)) :
  let n := (run evs (overlay_new ownId limit)).1 in
  (∀ l, l ∈ [ov_neighbors n; ov_left n; ov_right n; ov_nearby n; ov_random n] →
     length (getIds l) ≤ limit ∧ NoDup (getIds l) ∧ ownId ∉ getIds l) ∧
  (∀ x, x ∈ ov_ongoingHandshakes n → ∃ call target k, ov_handshakes n !! call = Some (target, k) ∧
     (pd_nodeId target = x ∨ ∃ accepted sid index, k = ForInterleaveOf x accepted sid index)) ∧
  (ov_handshakes n = ∅ → ov_ongoingHandshakes n = ∅) ∧
  ∀ x, x ∈ ov_ongoingInterleaves n ↔ ∃ call, ov_interleaves n !! call = Some x.
Proof using Type.
  cbn zeta. destruct (run_fine evs _ (new_ok ownId limit)) as [[Hb Hl Hr Hy Ha Hon Hint _ _] (Lb & Ob & Ll & Lr & Ly & La & Ol & Or & Oy & Oa)].
  cbn in Lb, Ob, Ll, Lr, Ly, La, Ol, Or, Oy, Oa.
  set (n := (run evs _).1) in *. split_and!; [|done| |done].
  - assert (∀ l, nl_inv l → nl_limit l = limit → nl_ownId l = ownId →
      length (getIds l) ≤ limit ∧ NoDup (getIds l) ∧ ownId ∉ getIds l) as Hlist.
    { intros l [_ Hnd Hown Hbound] <- <-. by rewrite getIds_length. }
    intros l Hin. repeat (apply elem_of_cons in Hin as [->|Hin]; [by apply Hlist|]). by apply not_elem_of_nil in Hin.
  - intros Hnone. apply leibniz_equiv, elem_of_equiv_empty. intros x Hx. destruct (Hon x Hx) as (call & t & k & Hc & _). by rewrite Hnone in Hc.
Qed.

(** ** Agreement of two nodes *)

Lemma removed_ids nodeId n : overlay_ok n → neighbor_ids (remove_neighbor nodeId n).1 = filter (λ id, id ≠ nodeId) (neighbor_ids n).
Proof using Type.
  intros Hn. unfold remove_neighbor, neighbor_ids. rewrite <-(remove_ids nodeId (ov_neighbors n)) by apply Hn. by destruct (nl_remove _ _).
Qed.

Lemma core_ids n n' : core n n' → neighbor_ids n' = neighbor_ids n.
Proof using Type. intros [Hn _ _ _ _]. unfold neighbor_ids. by rewrite Hn. Qed.

Lemma removed_agree nodeId n : overlay_ok n → nodeId ∉ neighbor_ids (remove_neighbor nodeId n).1.
Proof using Type. intros Hn. rewrite removed_ids by done. by intros [? _]%list_elem_of_filter. Qed.

(** Neighbours agree after an update: when a node sends an update to one of its neighbours and takes the answer, and the
    neighbour has no handshake with it under way, then each is a neighbour of the other, or neither is. *)
Theorem updates_make_neighbours_agree now now' (a_id b_id : string) (a b : overlay_node) descriptors :
  overlay_ok a → overlay_ok b → b_id ∈ neighbor_ids a → a_id ∉ ov_ongoingHandshakes b →
  let '(b', _, (_, removeMe)) := neighborUpdate maxNeighborCount now a_id descriptors b in
  let a' := (update_answered now' b_id removeMe a).1 in
  b_id ∈ neighbor_ids a' ↔ a_id ∈ neighbor_ids b'.
Proof using Type.
  intros Ha Hb Hin Hno. unfold neighborUpdate, update_answered. set (b1 := updateContacts descriptors b).
  assert (overlay_ok b1) as Hb1 by (pose proof Hb as []; by apply views_fine; try apply list_self; try apply add_all_same).
  rewrite !has_ids. rewrite (bool_decide_eq_true_2 (b_id ∈ getIds (ov_neighbors a))) by done.
  change (ov_ongoingHandshakes b1) with (ov_ongoingHandshakes b). rewrite (bool_decide_eq_false_2 (a_id ∈ ov_ongoingHandshakes b)) by done.
  cbn [negb]. rewrite andb_true_r.
  assert (b_id ∉ neighbor_ids (let '(n, out) := remove_neighbor b_id a in (finder_start now' [b_id] n, out)).1) as Hgone.
  { pose proof (removed_agree b_id a Ha) as H. destruct (remove_neighbor b_id a) as [a1 out]. cbn [fst] in *.
    by rewrite (core_ids _ _ (finder_start_core now' [b_id] a1)). }
  destruct (bool_decide_reflect (a_id ∈ getIds (ov_neighbors b1))) as [Hmem|Hmem]; cbn [negb].
  2: { split; [intros H; by destruct Hgone|intros H; by destruct Hmem]. }
  destruct ((maxNeighborCount <? neighbor_count b1)%nat && (maxNeighborCount <? length descriptors)%nat); cbn [negb].
  - pose proof (removed_agree a_id b1 Hb1) as Hb2. destruct (remove_neighbor a_id b1) as [b2 out]. cbn [fst] in Hb2.
    split; [intros H; by destruct Hgone|intros H; by destruct Hb2].
  - split; [intros _; by rewrite (core_ids _ _ (finder_start_core now [] b1))|done].
Qed.

(** ** How many neighbours a search can lead to *)

Lemma add_target_length remote (targets : jsmap string peer) : length (add_target remote targets) ≤ S (length targets).
Proof using Type.
  destruct remote as [remote|]; cbn; [|lia]. induction targets as [|[k v] targets IH]; cbn; [lia|]. case_decide; cbn; lia.
Qed.

Lemma fill_random_length draw rounds (ids : list string) n (targets : jsmap string peer) :
  length (fill_random draw rounds ids n targets) ≤ length targets `max` PARALLEL_HANDSHAKE_COUNT.
Proof using Type.
  revert targets. induction rounds as [|rounds IH]; intros targets; cbn [fill_random]; [lia|].
  destruct (length targets <? PARALLEL_HANDSHAKE_COUNT) eqn:Hlt; [|lia]. apply Nat.ltb_lt in Hlt.
  destruct (getRandom _ _ _) as [random|]; [|lia]. specialize (IH (add_target (Some random) targets)).
  pose proof (add_target_length (Some random) targets). lia.
Qed.

Lemma targets_length draw (ids : list string) n : length (selectParallelTargets draw ids n) ≤ 3.
Proof using Type.
  unfold selectParallelTargets. rewrite length_fmap. etrans; [apply fill_random_length|]. apply Nat.max_lub; [|unfold PARALLEL_HANDSHAKE_COUNT; lia].
  set (t1 := if (neighbor_count n =? 0)%nat then _ else _).
  assert (length t1 ≤ 1) as H1 by (subst t1; case_match; [apply add_target_length|cbn; lia]).
  set (t2 := add_target _ t1). pose proof (add_target_length (getFirst (ids ++ t1.*1) false (ov_left n)) t1) as H2. fold t2 in H2.
  set (t3 := add_target _ t2). pose proof (add_target_length (getFirst (ids ++ t1.*1) false (ov_right n)) t2) as H3. fold t3 in H3.
  destruct (length t3 <? PARALLEL_HANDSHAKE_COUNT) eqn:Hlt; [|lia]. apply Nat.ltb_lt in Hlt. unfold PARALLEL_HANDSHAKE_COUNT in Hlt.
  pose proof (add_target_length (getFirst (ids ++ t3.*1) false (ov_nearby n)) t3). lia.
Qed.

Lemma union_size (l : list string) (X : gset string) : size (list_to_set l ∪ X) ≤ length l + size X.
Proof using Type.
  rewrite size_union_alt. assert (size (list_to_set l : gset string) ≤ length l) as H1.
  { induction l as [|x l IH]; cbn; [by rewrite size_empty|]. rewrite size_union_alt, size_singleton.
    assert (size (list_to_set l ∖ {[x]} : gset string) ≤ size (list_to_set l : gset string)) by (apply subseteq_size; set_solver). lia. }
  assert (size (X ∖ list_to_set l) ≤ size X) by (apply subseteq_size; set_solver). lia.
Qed.

(** Neighbours and ongoing handshakes *)
Definition handshake_load n : nat := neighbor_count n + size (ov_ongoingHandshakes n).

(** A step that keeps the neighbours and does not raise the load above the target *)
Definition respects n n' : Prop :=
  ov_neighbors n' = ov_neighbors n ∧ ov_ongoingInterleaves n' = ov_ongoingInterleaves n ∧ handshake_load n' ≤ maxNeighborCount `max` handshake_load n.

Lemma respects_trans n1 n2 n3 : respects n1 n2 → respects n2 n3 → respects n1 n3.
Proof using Type. intros (? & ? & ?) (? & ? & ?). split_and!; [congruence|congruence|lia]. Qed.

Lemma core_respects n n' : core n n' → respects n n'.
Proof using Type. intros [Hn _ [Ho Hi] _ _]. unfold respects, handshake_load, neighbor_count. rewrite Hn, Ho. split_and!; [done|done|lia]. Qed.

Lemma sends_respects (targets : list peer) n n1 n' : core n n1 → (length targets + handshake_load n ≤ maxNeighborCount) →
  sends targets (with_calls (list_to_set (pd_nodeId <$> targets) ∪ ov_ongoingHandshakes n1) (ov_handshakes n1) (ov_next n1) n1) n' →
  respects n n'.
Proof using Type.
  intros [Hnb _ [Ho1 Hi1] _ _] Hle [Ho _ _ _ _ Hn _ [Hi _]]. cbn in *. unfold respects, handshake_load, neighbor_count. rewrite Hn, Hnb, Ho, Hi, Hi1.
  split_and!; [done|done|]. rewrite Ho1. replace (list_to_set (pd_nodeId <$> targets) ∪ (list_to_set (pd_nodeId <$> targets) ∪ ov_ongoingHandshakes n) : gset string)
    with (list_to_set (pd_nodeId <$> targets) ∪ ov_ongoingHandshakes n : gset string) by set_solver.
  pose proof (union_size (pd_nodeId <$> targets) (ov_ongoingHandshakes n)) as Hs. rewrite length_fmap in Hs.
  unfold handshake_load, neighbor_count in Hle. lia.
Qed.

Lemma attempt_respects draw ref n : overlay_ok n → respects n (attemptHandshakesOnContacts maxNeighborCount draw ref n).1.1.
Proof using Type.
  intros Hn. unfold attemptHandshakesOnContacts, selectParallelTargetsAndHandshake, selectNewTargetAndHandshake. fold (handshake_load n). destruct (Z.ltb_spec (Z.of_nat (handshake_load n)) (Z.of_nat maxNeighborCount - 2)) as [Hlt|_].
  - cbn [new_array]. set (n1 := with_finder _ _ _ _ n). assert (core n n1) as Hc1 by by split.
    pose proof (targets_length draw (array_of ref n ++ neighbor_ids n) n1) as Hlen.
    destruct (selectParallelTargets _ _ _) as [|t targets] eqn:Ht; [by apply core_respects|]. rewrite <-Ht in Hlen |- *. set (all := selectParallelTargets _ _ _) in *. clearbody all.
    set (n2 := with_calls _ _ _ n1).
    destruct (new_search _ n2) as [n3 sid] eqn:Hsearch. pose proof (handshake_all_sends sid 0 all (λ index, pd_nodeId <$> (if (index =? 0)%nat then all !! 1 else all !! 0)) n3) as Hs.
    destruct (handshake_all sid 0 all _ n3) as [n4 out]. cbn [fst] in *. unfold new_search in Hsearch. injection Hsearch as <- <-.
    apply (sends_respects all n (new_search (MkSearch (length (ov_arrays n)) true ((λ t0, (pd_nodeId t0, None)) <$> all)) n1).1); [etrans; [exact Hc1|apply new_search_core]|lia|].
    apply Hs. intros call Hcall. cbn in Hcall |- *. apply (ok_next n Hn). lia.
  - destruct (Nat.ltb_spec (handshake_load n) maxNeighborCount) as [Hlt|Hge]; [|by apply core_respects]. case_match; [|by apply core_respects].
    unfold respects, handshake_load, neighbor_count. cbn. split_and!; [done|done|]. unfold handshake_load, neighbor_count in Hlt.
    pose proof (union_size [rc_nodeId c] (ov_ongoingHandshakes n)) as Hs. cbn in Hs. rewrite union_empty_r_L in Hs. lia.
Qed.

Lemma find_respects draw ref n : overlay_ok n → respects n (findNeighbors maxNeighborCount draw ref n).1.1.
Proof using Type. intros Hn. unfold findNeighbors. case_match; [by apply attempt_respects|by apply core_respects]. Qed.

Lemma timeout_respects draw now k n : overlay_ok n → respects n (finder_timeout maxNeighborCount draw now k n).1.
Proof using Type.
  intros Hn. unfold finder_timeout. destruct (ov_timers n !! k) as [[[due ref] count]|]; [|by apply core_respects].
  destruct (due <=? now)%Z; [|by apply core_respects]. set (n1 := with_finder _ _ _ _ n). assert (core n n1) as Hc1 by by split.
  pose proof (core_fine _ _ Hn Hc1) as [Hok1 _]. pose proof (find_respects draw ref n1 Hok1) as H2. pose proof (find_fine maxNeighborCount draw ref n1 Hok1) as [Hok2 _].
  destruct (findNeighbors _ draw ref n1) as [[n2 out1] r1]. cbn [fst] in H2, Hok2.
  set (second := if (1 <? count)%nat then findNeighbors maxNeighborCount draw ref n2 else (n2, [], None)).
  assert (respects n2 second.1.1) as H3 by (subst second; destruct (1 <? count)%nat; [by apply find_respects|by apply core_respects]).
  destruct second as [[n3 out2] r2]. cbn [fst] in H3 |- *.
  eapply respects_trans; [by apply core_respects|]. eapply respects_trans; [exact H2|]. eapply respects_trans; [exact H3|].
  apply core_respects. destruct r1, r2; [etrans; [|apply found_core]; apply found_core|apply found_core|apply found_core|done].
Qed.

(** Searches respect the target: the handshakes that the timer of the finder starts never make the neighbours and the
    ongoing handshakes together more than the target, unless they were more before. *)
Theorem searches_respect_the_target draw now k n : overlay_ok n → respects n (finder_timeout maxNeighborCount draw now k n).1.
Proof using Type. apply timeout_respects. Qed.

(** ** Interleaving keeps two neighbours *)

(** What does not take neighbours away, other than the answers to requests to interleave; the nodes that ask are others. *)
Definition calm (ev : overlay_event) n : Prop :=
  match ev with
  | VHandshake _ sender => pd_nodeId sender ≠ nl_ownId (ov_neighbors n)
  | VHandshakeAnswered call _ => ∀ target remote request, ov_handshakes n !! call ≠ Some (target, ForRequest remote request)
  | VInterleaveAnswered _ _ | VTimer _ _ | VRing _ _ | VNearby _ _ _ | VRandom _ _ => True
  | _ => False
  end.

Fixpoint calm_run (evs : list (Z * overlay_event)) n : Prop :=
  match evs with
  | [] => True
  | (now, ev) :: evs => calm ev n ∧ calm_run evs (step now ev n).1
  end.

Definition two_left n : Prop :=
  2 ≤ neighbor_count n ∧ (ov_ongoingInterleaves n = ∅ ∨ size (ov_ongoingInterleaves n) + 2 ≤ neighbor_count n).

(** Steps that interleave nothing and lose no neighbour *)
Definition grows n n' : Prop := neighbor_count n ≤ neighbor_count n' ∧ ov_ongoingInterleaves n' = ov_ongoingInterleaves n.

Lemma grows_two n n' : grows n n' → two_left n → two_left n'.
Proof using Type. intros [Hc Hi] [H2 Hk]. unfold two_left. rewrite Hi. split; [lia|]. destruct Hk as [Hk|Hk]; [by left|right; lia]. Qed.

Lemma core_grows n n' : core n n' → grows n n'.
Proof using Type. intros [Hn _ [_ Hi] _ _]. unfold grows, neighbor_count. by rewrite Hn, Hi. Qed.

Lemma add_count p n : overlay_ok n → grows n (add_neighbor p n).1.
Proof using Type.
  intros Hn. unfold add_neighbor, grows, neighbor_count. rewrite !count_length.
  pose proof (add_ids (remote_to p) (ov_neighbors n) (ok_neighbors n Hn)) as Hids. destruct (nl_add _ _) as [l evs]. cbn in *.
  rewrite Hids. split; [|done]. apply id_add_count.
Qed.

Lemma add_new_count p n : overlay_ok n → pd_nodeId p ≠ nl_ownId (ov_neighbors n) → pd_nodeId p ∉ neighbor_ids n →
  neighbor_count n < nl_limit (ov_neighbors n) → neighbor_count (add_neighbor p n).1 = S (neighbor_count n).
Proof using Type.
  intros Hn Hown Hnew Hroom. unfold add_neighbor, neighbor_count in *. rewrite !count_length in *.
  pose proof (add_ids (remote_to p) (ov_neighbors n) (ok_neighbors n Hn)) as Hids. destruct (nl_add _ _) as [l evs]. cbn in *.
  rewrite Hids. unfold id_add. rewrite decide_False, length_app; [cbn; lia|]. intros [?|[?|?]]; [congruence|done|lia].
Qed.

Lemma remove_count nodeId n : overlay_ok n → neighbor_count n ≤ S (neighbor_count (remove_neighbor nodeId n).1).
Proof using Type.
  intros Hn. unfold neighbor_count. rewrite !count_length. pose proof (removed_ids nodeId n Hn) as Hids. unfold neighbor_ids in Hids. rewrite Hids.
  apply filter_ne_count, Hn.
Qed.

Lemma interleaving_accept_two r sender n : overlay_ok n → pd_nodeId sender ≠ nl_ownId (ov_neighbors n) → pd_nodeId sender ∉ neighbor_ids n →
  neighbor_count n < nl_limit (ov_neighbors n) → size (ov_ongoingInterleaves n) + 2 ≤ neighbor_count n →
  two_left (acceptHandshakeWithInterleaving r sender n).1.1.
Proof using Type.
  intros Hn Hown Hnew Hroom Htwo. unfold acceptHandshakeWithInterleaving. set (exclude := _ ++ _).
  destruct (getLast exclude (ov_neighbors n)) as [remote|] eqn:Hlast.
  - set (n1 := with_interleaves _ _ _ n).
    assert (neighbor_count (add_neighbor sender n1).1 = S (neighbor_count n)) as Hcount.
    { pose proof (add_new_count sender n Hn Hown Hnew Hroom) as H. unfold add_neighbor in *. cbn [n1 with_interleaves ov_neighbors].
      by destruct (nl_add (remote_to sender) (ov_neighbors n)). }
    assert (ov_ongoingInterleaves (add_neighbor sender n1).1 = {[rc_nodeId remote]} ∪ ov_ongoingInterleaves n) as Hi.
    { unfold add_neighbor. by destruct (nl_add _ _). }
    destruct (add_neighbor sender n1) as [n2 out']. cbn [fst] in *. pose proof (union_size [rc_nodeId remote] (ov_ongoingInterleaves n)) as Hs.
    cbn in Hs. rewrite union_empty_r_L in Hs. split; [lia|right]. rewrite Hi. lia.
  - pose proof (add_new_count sender n Hn Hown Hnew Hroom) as Hcount. pose proof (proj2 (add_count sender n Hn)) as Hi.
    destruct (add_neighbor sender n) as [n2 out']. cbn [fst] in *. split; [lia|right]. rewrite Hi. lia.
Qed.

Lemma handshake_two r sender n : overlay_ok n → maxNeighborCount < nl_limit (ov_neighbors n) → pd_nodeId sender ≠ nl_ownId (ov_neighbors n) →
  two_left n → two_left (handle_handshake maxNeighborCount r sender n).1.1.
Proof using Type.
  intros Hn Hlim Hown Htwo. unfold handle_handshake, acceptHandshake, rejectHandshake.
  destruct (bool_decide (pd_nodeId sender ∈ ov_ongoingInterleaves n)); [done|].
  rewrite has_ids. destruct (bool_decide_reflect (pd_nodeId sender ∈ getIds (ov_neighbors n))) as [Hin|Hnew]; cbn [orb].
  { eapply grows_two; [by apply add_count|done]. }
  destruct (bool_decide (pd_nodeId sender ∈ ov_ongoingHandshakes n)); [eapply grows_two; [by apply add_count|done]|].
  destruct (_ <? maxNeighborCount); [eapply grows_two; [by apply add_count|done]|].
  destruct (_ && _) eqn:Hcase; [|done]. apply andb_true_iff in Hcase as [Hdiff%Z.leb_le Hle%Nat.leb_le].
  assert (nl_size (option_list (hr_interleaveNodeId r)) (ov_neighbors n) ≤ neighbor_count n) as Hsize.
  { unfold neighbor_count. rewrite count_length. apply length_filter. }
  apply interleaving_accept_two; [done|done|done|lia|lia].
Qed.

Lemma interleave_answered_two call accepted n : overlay_ok n → two_left n → two_left (interleave_answered call accepted n).1.
Proof using Type.
  intros Hn [H2 Hk]. unfold interleave_answered. destruct (ov_interleaves n !! call) as [nodeId|] eqn:Hcall; [|by split].
  assert (nodeId ∈ ov_ongoingInterleaves n) as Hin by (apply (ok_interleaves n Hn); by exists call).
  destruct Hk as [Hk|Hk]; [set_solver|].
  assert (size (ov_ongoingInterleaves n ∖ {[nodeId]}) + 1 = size (ov_ongoingInterleaves n)) as Hsize.
  { rewrite size_difference by set_solver. rewrite size_singleton.
    assert (size (ov_ongoingInterleaves n) ≠ 0) by (intros Hz%size_empty_inv; set_solver). lia. }
  set (removed := if accepted then remove_neighbor nodeId n else (n, [])).
  assert (neighbor_count n ≤ S (neighbor_count removed.1) ∧ ov_ongoingInterleaves removed.1 = ov_ongoingInterleaves n) as [Hc Hi].
  { subst removed. destruct accepted; [|split; [cbn; lia|done]]. split; [by apply remove_count|]. unfold remove_neighbor. by destruct (nl_remove _ _). }
  destruct removed as [n1 out]. cbn [fst] in *. unfold two_left. cbn [with_interleaves ov_ongoingInterleaves]. rewrite Hi.
  change (neighbor_count (with_interleaves _ _ _ n1)) with (neighbor_count n1). split; [lia|right; lia].
Qed.

Lemma answered_grows now call r n : overlay_ok n → (∀ target remote request, ov_handshakes n !! call ≠ Some (target, ForRequest remote request)) →
  grows n (handshake_answered maxNeighborCount now call r n).1.
Proof using Type.
  intros Hn Hno. unfold handshake_answered. destruct (ov_handshakes n !! call) as [[target k]|] eqn:Hcall; [|by split].
  set (n1 := with_calls _ _ _ n). set (added := if hs_accepted r then add_neighbor target n1 else (n1, [])).
  assert (grows n added.1) as Hadd.
  { subst added. destruct (hs_accepted r); [|by split]. pose proof (add_count target n Hn) as H. unfold add_neighbor in *.
    cbn [n1 with_calls ov_neighbors]. by destruct (nl_add (remote_to target) (ov_neighbors n)). }
  destruct added as [n2 out]. cbn [fst] in Hadd. destruct k as [sid index|first accepted sid index|remote request]; [| |by destruct (Hno target remote request)].
  - destruct (hs_interleaveTarget r) as [other|]; [exact Hadd|]. cbn [fst]. destruct Hadd as [Hc Hi].
    destruct (core_grows _ _ (search_answered_core maxNeighborCount now sid index (hs_accepted r) (forget_ongoing (pd_nodeId target) n2))) as [Hc' Hi'].
    split; [etrans; [exact Hc|exact Hc']|]. by rewrite Hi'.
  - cbn [fst]. destruct Hadd as [Hc Hi].
    destruct (core_grows _ _ (search_answered_core maxNeighborCount now sid index accepted (forget_ongoing first (forget_ongoing (pd_nodeId target) n2)))) as [Hc' Hi'].
    split; [etrans; [exact Hc|exact Hc']|]. by rewrite Hi'.
Qed.

Lemma timeout_grows draw now k n : overlay_ok n → grows n (finder_timeout maxNeighborCount draw now k n).1.
Proof using Type. intros Hn. destruct (timeout_respects draw now k n Hn) as (Hb & Hi & _). unfold grows, neighbor_count. by rewrite Hb, Hi. Qed.

Lemma step_two now ev n : overlay_ok n → maxNeighborCount < nl_limit (ov_neighbors n) → calm ev n → two_left n → two_left (step now ev n).1.
Proof using Type.
  intros Hn Hlim Hcalm Htwo.
  destruct ev as [r sender| |call r|call accepted| | |draw k|lefts rights|added closest others|added random| | |]; try done; cbn [overlay_step].
  - by apply handshake_two.
  - eapply grows_two; [by apply answered_grows|done].
  - by apply interleave_answered_two.
  - eapply grows_two; [by apply timeout_grows|done].
  - destruct added; [|done]. cbn [fst]. eapply grows_two; [apply core_grows, start_if_few_core|done].
  - destruct added; [|done]. cbn [fst]. eapply grows_two; [apply core_grows, start_if_few_core|done].
Qed.

(** Interleaving keeps two neighbours: a node with at least two neighbours, none of which is being interleaved, has at least
    two after any handshakes with other nodes, requests to interleave, their answers, searches and changes of its views, in
    any order, as long as its neighbour list has room for more than the target. *)
Theorem interleaving_keeps_two (evs : list (Z * overlay_event)) n : overlay_ok n → maxNeighborCount < nl_limit (ov_neighbors n) →
  2 ≤ neighbor_count n → ov_ongoingInterleaves n = ∅ → calm_run evs n → 2 ≤ neighbor_count (run evs n).1.
Proof using Type.
  intros Hn Hlim H2 Hnone Hcalm.
  assert (two_left (run evs n).1) as [? _]; [|done].
  assert (two_left n) as Htwo by (split; [done|by left]). clear H2 Hnone. revert n Hn Hlim Hcalm Htwo.
  induction evs as [|[now ev] evs IH]; intros n Hn Hlim Hcalm Htwo; [done|]. cbn [overlay_run calm_run] in *. destruct Hcalm as [Hev Hcalm].
  pose proof (step_fine now ev n Hn) as [Hok (Hl & _)]. pose proof (step_two now ev n Hn Hlim Hev Htwo) as Htwo'.
  destruct (step now ev n) as [n1 out]. cbn [fst] in *. specialize (IH n1 Hok ltac:(by rewrite Hl) Hcalm Htwo').
  by destruct (run evs n1).
Qed.
End overlay_theorems.

Module NeighborsWitness.

Definition node (nodeId : string) : peer := MkPeer nodeId true.
Definition pick (len : nat) : nat := 0.
Definition run := overlay_run 4 20.

(** A node with contacts on both sides of the ring *)
Definition contacts : list (Z * overlay_event) :=
  [(0%Z, VRing [node "l"] [node "r"]); (0%Z, VNearby true [node "l"; node "r"; node "x"] []); (100%Z, VTimer pick 0)].

(** Both searches of the finder ask node l: the second one does not exclude the handshakes of the first. *)
Example searches_ask_the_same_node :
  (λ o, match o with HandshakeCall _ target _ _ _ => Some target | _ => None end) <$> (run contacts (overlay_new "own" 20)).2 =
  [Some "l"; Some "r"; Some "l"].
Proof. vm_compute. reflexivity. Qed.

(** One neighbour, and five more contacts of which three refuse: the neighbour is excluded again in every round, so that
    the array of excluded ids is soon as long as there are contacts, and the finder stops although two of them were never
    asked; the two searches asked the same nodes. *)
Definition refused : handshake_response := MkHandshakeResponse false None.

Definition repeated : list (Z * overlay_event) :=
  [(0%Z, VHandshake (MkHandshake [] None) (node "n"));
   (0%Z, VNearby true [node "n"; node "a"; node "b"; node "c"; node "d"; node "y"] []);
   (100%Z, VTimer pick 0); (110%Z, VHandshakeAnswered 1 refused); (110%Z, VHandshakeAnswered 3 refused);
   (360%Z, VTimer pick 0); (360%Z, VTimer pick 0); (370%Z, VHandshakeAnswered 5 refused); (370%Z, VHandshakeAnswered 7 refused);
   (620%Z, VTimer pick 0); (620%Z, VTimer pick 0); (630%Z, VHandshakeAnswered 9 refused); (630%Z, VHandshakeAnswered 11 refused)].

Example search_stops_early :
  let '(n, out) := run repeated (overlay_new "own" 20) in
  neighbor_ids n = ["n"] ∧ ov_running n = false ∧ uniqueContactCount n = 6 ∧
  omap (λ o, match o with HandshakeCall _ target _ _ _ => Some target | _ => None end) out = ["a"; "a"; "b"; "b"; "c"; "c"].
Proof. vm_compute. done. Qed.

(** A node whose neighbour gives its place to another: it answers that it accepts, and has lost the neighbour, although the
    other node refused it. *)
Definition giving_way : list (Z * overlay_event) :=
  [(0%Z, VHandshake (MkHandshake [] None) (node "n")); (5%Z, VInterleaveRequest 7 (node "z") "n"); (6%Z, VHandshakeAnswered 0 refused)].

Example interleaved_without_a_new_neighbour :
  let '(n, out) := run giving_way (overlay_new "own" 20) in
  neighbor_ids n = [] ∧ last out = Some (InterleaveAnswer 7 true).
Proof. vm_compute. done. Qed.

(** Two neighbours agree after an update. *)
Definition a_node : overlay_node := (run [(0%Z, VHandshake (MkHandshake [] None) (node "b"))] (overlay_new "a" 20)).1.
Definition b_node : overlay_node := overlay_new "b" 20.

Lemma updates_make_neighbours_agree_witness :
  let '(b', _, (_, removeMe)) := neighborUpdate 4 50 "a" [node "b"] b_node in
  let a' := (update_answered 60 "b" removeMe a_node).1 in
  "b" ∈ neighbor_ids a' ↔ "a" ∈ neighbor_ids b'.
Proof.
  apply (updates_make_neighbours_agree 4 50 60 "a" "b" a_node b_node [node "b"]).
  - apply (run_fine 4 20 [(0%Z, VHandshake (MkHandshake [] None) (node "b"))] (overlay_new "a" 20)), new_ok.
  - apply new_ok.
  - vm_compute. left.
  - unfold b_node. cbn. set_solver.
Defined.

Lemma searches_respect_the_target_witness :
  respects 4 (run (take 2 contacts) (overlay_new "own" 20)).1
    (finder_timeout 4 pick 100 0 (run (take 2 contacts) (overlay_new "own" 20)).1).1.
Proof.
  apply searches_respect_the_target. apply (run_fine 4 20 (take 2 contacts) (overlay_new "own" 20)), new_ok.
Defined.

(** A full node: a fifth node comes, the last neighbour gives way. *)
Definition full : overlay_node :=
  (run ((λ nodeId, (0%Z, VHandshake (MkHandshake [] None) (node nodeId))) <$> ["a"; "b"; "c"; "d"]) (overlay_new "own" 20)).1.
Definition fifth : list (Z * overlay_event) :=
  [(1%Z, VHandshake (MkHandshake ["a"] None) (node "e")); (2%Z, VInterleaveAnswered 0 true)].

Example last_gives_way : neighbor_ids (run fifth full).1 = ["a"; "b"; "c"; "e"].
Proof. vm_compute. reflexivity. Qed.

Lemma interleaving_keeps_two_witness : 2 ≤ neighbor_count (run fifth full).1.
Proof.
  apply interleaving_keeps_two.
  - apply (run_fine 4 20 _ (overlay_new "own" 20)), new_ok.
  - vm_compute. lia.
  - vm_compute. lia.
  - vm_compute. reflexivity.
  - split; [vm_compute; discriminate|]. split; [exact I|exact I].
Defined.
End NeighborsWitness.
