(* ===== verification/Contacts.v ===== *)
(** The contact lists of the DHT (packages/dht/src/dht/contact/): [SortedContactList], bounded and sorted by the
    distance to an id, [getClosestNodes] on top of it, and [RandomContactList] with [ContactList].

    Ids are hexadecimal texts; [distance] is the distance of the npm package [k-bucket] between the bytes of two ids
    (helpers/getPeerDistance.ts), a parameter.  [sortedIndexBy] of lodash is an interface. *)

From S2P Require Import Prelude.
From S2P Require Import Js.
From S2P Require Import JsMap.

Set Default Proof Using "Type".

(** * lodash *)

(** [sortedIndexBy]: the lowest index of a sorted list at which an element can be inserted. *)
Class SortedIndex := {
  sortedIndexBy : (string → Z) → list string → string → nat;
  sortedIndexBy_lowest f l x :
    StronglySorted (λ a b, f a ≤ f b)%Z l →
    Forall (λ y, f y < f x)%Z (take (sortedIndexBy f l x) l) ∧ Forall (λ y, f x ≤ f y)%Z (drop (sortedIndexBy f l x) l)
}.

Fixpoint first_index (P : string → bool) (l : list string) : nat :=
  match l with [] => 0 | x :: l => if P x then 0 else S (first_index P l) end.

#[export] Program Instance linear_index : SortedIndex := {| sortedIndexBy f l x := first_index (λ y, f x <=? f y)%Z l |}.
Next Obligation.
  intros f l x. induction 1 as [|y l Hl IH Hy]; cbn; [by split|]. destruct (Z.leb_spec (f x) (f y)) as [Hle|Hlt]; cbn.
  - split; [constructor|]. constructor; [done|]. eapply Forall_impl; [exact Hy|]. cbn. lia.
  - destruct IH as [IH1 IH2]. split; [|done]. by constructor.
Qed.

(** * SortedContactList *)

(** [Infinity] as a size: [None] *)
Record SortedContactListOptions := MkSortedOptions {
  so_referenceId : string;
  so_allowToContainReferenceId : bool;
  so_maxSize : option nat;
  so_nodeIdDistanceLimit : option string;
  so_excludedNodeIds : option (gset string)
}.

(** [findIndex] and [splice(index, 1)], where an index of -1 is the last *)
Definition without_id (id : string) (ids : list string) : list string :=
  match list_find (λ nodeId, nodeId = id) ids with
  | Some (index, _) => delete index ids
  | None => removelast ids
  end.

Lemma without_filter (id : string) (ids : list string) : NoDup ids → id ∈ ids → without_id id ids = filter (λ id', id' ≠ id) ids ∧ ids ≡ₚ id :: without_id id ids.
Proof.
  intros Hnd Hin. unfold without_id. destruct (list_find (λ nodeId, nodeId = id) ids) as [[i id']|] eqn:Hf.
  2: { apply list_find_None in Hf. by apply (proj1 (Forall_forall _ _) Hf) in Hin. }
  apply list_find_Some in Hf as (Hi & -> & _). split; [|by apply delete_Permutation].
  pose proof (take_drop_middle ids i id Hi) as Hids. rewrite <-Hids in Hnd |- *. apply NoDup_app in Hnd as (_ & Hn1 & [Hn2 _]%NoDup_cons).
  rewrite filter_app, filter_cons_False by tauto. rewrite !filter_all; [|intros x Hx ->; done|intros x Hx ->; apply (Hn1 id); [done|left]].
  rewrite delete_take_drop. rewrite take_app_le, drop_app_ge; rewrite ?length_take; pose proof (lookup_lt_Some _ _ _ Hi); [|lia..].
  rewrite take_take, Nat.min_id. by replace (S i - i `min` length ids) with 1 by lia.
Qed.

Section contacts.
  Context {C : Type} (getNodeId : C → string) (distance : string → string → Z) `{SortedIndex}.
  Implicit Types (contact : C) (id : string) (ids : list string).

Inductive contact_event := ContactAdded contact | ContactRemoved contact.

Record SortedContactList := MkSorted {
  sc_options : SortedContactListOptions;
  sc_contactsById : jsmap string C;
  sc_contactIds : list string
}.
Implicit Types (l : SortedContactList).

Definition sorted_new (options : SortedContactListOptions) : SortedContactList := MkSorted options [] [].

Definition distanceToReferenceId (options : SortedContactListOptions) id : Z := distance (so_referenceId options) id.

Definition compareIds (options : SortedContactListOptions) (id1 id2 : string) : Z :=
  (distanceToReferenceId options id1 - distanceToReferenceId options id2)%Z.

(** [splice(index, 0, id)] at the index of lodash *)
Definition insert_id (options : SortedContactListOptions) id ids : list string :=
  let index := sortedIndexBy (distanceToReferenceId options) ids id in take index ids ++ id :: drop index ids.

(** The two early returns of [addContact] *)
Definition refuses (options : SortedContactListOptions) id : bool :=
  bool_decide (id ∈ default ∅ (so_excludedNodeIds options)) ||
  (negb (so_allowToContainReferenceId options) && bool_decide (so_referenceId options = id)) ||
  match so_nodeIdDistanceLimit options with Some limit => (compareIds options limit id <? 0)%Z | None => false end.

(** With a [maxSize] of 0 the id of the last contact is [undefined], and its conversion throws. *)
Definition addContact contact l : outcome js_error (SortedContactList * list contact_event) :=
  let contactId := getNodeId contact in
  let '(MkSorted options contactsById contactIds) := l in
  if refuses options contactId then Return (l, [])
  else if map_has contactId contactsById then Return (l, [])
  else if match so_maxSize options with None => true | Some maxSize => (length contactIds <? maxSize)%nat end then
    Return (MkSorted options (map_set contactId contact contactsById) (insert_id options contactId contactIds),
            [ContactAdded contact])
  else
    match (match so_maxSize options with Some (S n) => contactIds !! n | _ => None end) with
    | None => Throw (MkError None "Cannot read properties of undefined (reading 'startsWith')")
    | Some lastId =>
        if (0 <? compareIds options lastId contactId)%Z then
          let removedId := List.last contactIds "" in
          let removedContact := map_get removedId contactsById in
          Return (MkSorted options (map_set contactId contact (map_delete removedId contactsById))
                    (insert_id options contactId (removelast contactIds)),
                  match removedContact with Some c => [ContactRemoved c] | None => [] end ++ [ContactAdded contact])
        else Return (l, [])
    end.

Fixpoint addContacts (contacts : list C) l : outcome js_error (SortedContactList * list contact_event) :=
  match contacts with
  | [] => Return (l, [])
  | contact :: contacts =>
      (let? r := addContact contact l in
       let? r' := addContacts contacts r.1 in Return (r'.1, r.2 ++ r'.2))%eff
  end.

Definition removeContact id l : SortedContactList * list contact_event * bool :=
  match map_get id (sc_contactsById l) with
  | None => (l, [], false)
  | Some removed =>
      (MkSorted (sc_options l) (map_delete id (sc_contactsById l)) (without_id id (sc_contactIds l)), [ContactRemoved removed], true)
  end.

Definition getContact id l : option C := map_get id (sc_contactsById l).

Definition sc_has id l : bool := map_has id (sc_contactsById l).

Definition getContactIds l : list string := sc_contactIds l.

Definition getClosestContactId l : option string := head (sc_contactIds l).

(** [slice(0, Math.max(limit, 0))] *)
Definition limited {X} (limit : option Z) (items : list X) : list X :=
  match limit with None => items | Some n => take (Z.to_nat (Z.max n 0)) items end.

Definition getClosestContacts (limit : option Z) l : list C :=
  omap (λ id, map_get id (sc_contactsById l)) (limited limit (sc_contactIds l)).

Definition getFurthestContacts (limit : option Z) l : list C := limited limit (reverse (getClosestContacts None l)).

Definition getAllContactsInUndefinedOrder l : list C := (sc_contactsById l).*2.

Definition getSize (excludedNodeIds : option (gset string)) l : Z :=
  let excludedCount := match excludedNodeIds with
                       | None => 0%nat
                       | Some ids => size (filter (λ id, sc_has id l = true) ids)
                       end in
  (Z.of_nat (length (sc_contactIds l)) - Z.of_nat excludedCount)%Z.

(** [getClosestNodes] *)
Definition getClosestNodes (referenceId : string) (contacts : list C) (maxCount : option nat)
    (excludedNodeIds : option (gset string)) : outcome js_error (list C) :=
  (let? r := addContacts contacts (sorted_new (MkSortedOptions referenceId true maxCount None excludedNodeIds)) in
   Return (getClosestContacts None r.1))%eff.

Definition sc_clear l : SortedContactList := MkSorted (sc_options l) [] [].

(** ** What an instance always is *)

Notation dist o := (distanceToReferenceId o).

Notation by_distance o := (λ a b, dist o a ≤ dist o b)%Z.

Record sc_inv l : Prop := {
  inv_sorted : StronglySorted (by_distance (sc_options l)) (sc_contactIds l);
  inv_nodup : NoDup (sc_contactIds l);
  inv_keys : NoDup (sc_contactsById l).*1;
  inv_same : ∀ id, id ∈ (sc_contactsById l).*1 ↔ id ∈ sc_contactIds l;
  inv_named : ∀ id contact, map_get id (sc_contactsById l) = Some contact → getNodeId contact = id;
  inv_admitted : ∀ id, id ∈ sc_contactIds l → refuses (sc_options l) id = false;
  inv_bounded : ∀ n, so_maxSize (sc_options l) = Some n → length (sc_contactIds l) ≤ n
}.

Lemma sorted_new_inv o : sc_inv (sorted_new o).
Proof using Type.
  split; cbn; try constructor; try done.
  - intros id Hid. by apply not_elem_of_nil in Hid.
  - intros n _. lia.
Qed.

Lemma insert_id_perm o id ids : insert_id o id ids ≡ₚ id :: ids.
Proof using Type. unfold insert_id. by rewrite <-Permutation_middle, take_drop. Qed.

Lemma insert_id_sorted o id ids :
  StronglySorted (by_distance o) ids → StronglySorted (by_distance o) (insert_id o id ids).
Proof using Type.
  intros Hs. destruct (sortedIndexBy_lowest (dist o) ids id Hs) as [Hlt Hge]. unfold insert_id.
  set (i := sortedIndexBy _ _ _) in *. clearbody i. pose proof Hs as Hs'. rewrite <-(take_drop i ids) in Hs'.
  apply StronglySorted_app_2.
  - intros a b Ha [->|Hb]%elem_of_cons.
    + pose proof (proj1 (Forall_forall _ _) Hlt a Ha). cbn in *. lia.
    + by apply (StronglySorted_app_1_elem_of (by_distance o) _ _ _ _ Hs').
  - by apply StronglySorted_app_1_l in Hs'.
  - constructor; [by apply StronglySorted_app_1_r in Hs'|done].
Qed.

Lemma last_of_sorted o ids : ids ≠ [] → StronglySorted (by_distance o) ids →
  ids = removelast ids ++ [List.last ids ""] ∧ (∀ id, id ∈ ids → dist o id ≤ dist o (List.last ids ""))%Z.
Proof using Type.
  intros Hne Hs. pose proof (app_removelast_last "" Hne) as Heq. split; [done|]. intros id Hid.
  rewrite Heq in Hs. rewrite Heq in Hid. apply elem_of_app in Hid as [Hid| ->%list_elem_of_singleton]; [|lia].
  apply (StronglySorted_app_1_elem_of (by_distance o) _ _ _ _ Hs); [done|left].
Qed.

Lemma inserted_inv o m ids contact (id := getNodeId contact) :
  sc_inv (MkSorted o m ids) → id ∉ ids → refuses o id = false → (∀ n, so_maxSize o = Some n → length ids < n) →
  sc_inv (MkSorted o (map_set id contact m) (insert_id o id ids)).
Proof using Type.
  intros [Hs Hnd Hk Hsame Hnamed Hadm Hbound] Hnin Hr Hroom. pose proof (insert_id_perm o id ids) as Hp. split; cbn in *.
  - by apply insert_id_sorted.
  - rewrite Hp. by constructor.
  - by apply map_set_nodup.
  - intros id'. rewrite map_set_keys, Hp, elem_of_cons. destruct (decide (id ∈ m.*1)) as [Hin|Hin].
    + by apply Hsame in Hin.
    + rewrite elem_of_app, Hsame, list_elem_of_singleton. tauto.
  - intros id' c. rewrite map_get_set. destruct (decide (id = id')) as [<-|Hne]; [by intros [= <-]|apply Hnamed].
  - intros id'. rewrite Hp. intros [->|Hin]%elem_of_cons; [done|by apply Hadm].
  - intros n Hn. rewrite Hp. cbn. specialize (Hroom n Hn). lia.
Qed.

Lemma removed_inv o m ids ids' id :
  sc_inv (MkSorted o m ids) → sublist ids' ids → ids ≡ₚ id :: ids' → sc_inv (MkSorted o (map_delete id m) ids').
Proof using Type.
  intros [Hs Hnd Hk Hsame Hnamed Hadm Hbound] Hsub Hp.
  pose proof Hnd as Hnd'. cbn [sc_contactIds] in Hnd'. rewrite Hp in Hnd'. apply NoDup_cons in Hnd' as [Hnin Hnd'].
  split; cbn in *.
  - by eapply StronglySorted_sublist.
  - done.
  - rewrite map_delete_keys. by apply NoDup_filter.
  - intros id'. rewrite map_delete_keys, list_elem_of_filter, Hsame, Hp, elem_of_cons. set_solver.
  - intros id' c. rewrite map_get_delete. destruct (decide (id = id')); [done|]. apply Hnamed.
  - intros id' Hin. apply Hadm. rewrite Hp. by right.
  - intros n Hn. specialize (Hbound n Hn). rewrite Hp in Hbound. cbn in Hbound. lia.
Qed.

(** ** Adding a contact *)

(** The ids after [id] is added *)
Definition ids_after o id ids ids' : Prop :=
  ids' ≡ₚ id :: ids ∧ (∀ n, so_maxSize o = Some n → length ids < n) ∨
  ∃ n init far, so_maxSize o = Some n ∧ length ids = n ∧ ids = init ++ [far] ∧
    (∀ id', id' ∈ ids → dist o id' ≤ dist o far)%Z ∧
    (ids' = ids ∧ (dist o far ≤ dist o id)%Z ∨ ids' ≡ₚ id :: init ∧ (dist o id < dist o far)%Z).

Lemma add_spec contact l :
  sc_inv l → so_maxSize (sc_options l) ≠ Some 0 →
  ∃ l' evs, addContact contact l = Return (l', evs) ∧ sc_inv l' ∧ sc_options l' = sc_options l ∧
    (∀ id c, map_get id (sc_contactsById l') = Some c → c = contact ∨ map_get id (sc_contactsById l) = Some c) ∧
    let id := getNodeId contact in
    if refuses (sc_options l) id || bool_decide (id ∈ sc_contactIds l)
    then sc_contactIds l' = sc_contactIds l
    else ids_after (sc_options l) id (sc_contactIds l) (sc_contactIds l').
Proof using Type.
  destruct l as [o m ids]. cbn [sc_options sc_contactIds sc_contactsById]. intros Hinv Hmax.
  pose proof Hinv as [Hs Hnd Hk Hsame Hnamed Hadm Hbound]. cbn [sc_options sc_contactIds sc_contactsById] in *.
  set (id := getNodeId contact) in *. unfold addContact. fold id.
  destruct (refuses o id) eqn:Hr; [by eexists _, []; split_and!; eauto|]. cbn [orb].
  destruct (bool_decide_reflect (id ∈ ids)) as [Hin|Hnin].
  { rewrite (proj2 (map_has_spec id m)) by (by apply Hsame). by eexists _, []; split_and!; eauto. }
  destruct (map_has id m) eqn:Hh; [by apply map_has_spec, Hsame in Hh|]. clear Hh.
  assert (∀ m' id' c, (∀ c, map_get id' m' = Some c → map_get id' m = Some c) →
    map_get id' (map_set id contact m') = Some c → c = contact ∨ map_get id' m = Some c) as Hget.
  { intros m' id' c Hsub. rewrite map_get_set. destruct (decide (id = id')); [intros [= <-]|]; eauto. }
  destruct (match so_maxSize o with None => true | Some maxSize => _ end) eqn:Hroom.
  { assert (∀ n, so_maxSize o = Some n → length ids < n) as Hlt by (intros n Hn; rewrite Hn in Hroom; by apply Nat.ltb_lt).
    eexists _, _. split_and!; [done|by apply inserted_inv|done|eauto|]. left. split; [apply insert_id_perm|done]. }
  destruct (so_maxSize o) as [[|n]|] eqn:Hn; [done| |done]. apply Nat.ltb_ge in Hroom.
  assert (length ids = S n) as Hlen by (specialize (Hbound _ eq_refl); lia).
  assert (ids ≠ []) as Hne by (by intros ->). destruct (last_of_sorted o ids Hne Hs) as [Hids Hfar].
  set (init := removelast ids) in *. set (far := List.last ids "") in *.
  assert (ids !! n = Some far) as ->.
  { rewrite Hids. apply list_lookup_middle. apply (f_equal length) in Hids. rewrite length_app in Hids. cbn in Hids. lia. }
  unfold compareIds. destruct (Z.ltb_spec 0 (dist o far - dist o id)) as [Hlt|Hge].
  - assert (ids ≡ₚ far :: init) as Hp by (rewrite Hids; by rewrite Permutation_app_comm).
    assert (sc_inv (MkSorted o (map_delete far m) init)) as Hinv'.
    { apply (removed_inv o m ids); [done| |done]. rewrite Hids. by apply sublist_inserts_r. }
    eexists _, _. split_and!; [done| |done| |].
    + apply inserted_inv; [done| |done|].
      * intros Hin. apply Hnin. rewrite Hp. by right.
      * intros k [= <-]%(eq_trans (eq_sym Hn)). rewrite Hp in Hlen. cbn in Hlen. lia.
    + intros id' c. apply Hget. intros c'. rewrite map_get_delete. by destruct (decide _).
    + right. exists (S n), init, far. split_and!; [done|done|done|done|]. right. split; [apply insert_id_perm|lia].
  - eexists _, []. split_and!; [done|done|done|eauto|]. right. exists (S n), init, far. split_and!; [done|done|done|done|].
    left. split; [done|lia].
Qed.

(** ** Adding many contacts *)

(** What is known of a list to which contacts with the ids [seen] were added *)
Record kept (seen : gset string) l : Prop := {
  kept_seen : ∀ id, id ∈ sc_contactIds l → id ∈ seen;
  kept_closest : ∀ id, id ∈ seen → refuses (sc_options l) id = false → id ∉ sc_contactIds l →
    so_maxSize (sc_options l) = Some (length (sc_contactIds l)) ∧
    ∀ id', id' ∈ sc_contactIds l → (dist (sc_options l) id' ≤ dist (sc_options l) id)%Z
}.

Lemma add_kept contact l l' seen :
  kept seen l → sc_options l' = sc_options l →
  (if refuses (sc_options l) (getNodeId contact) || bool_decide (getNodeId contact ∈ sc_contactIds l)
   then sc_contactIds l' = sc_contactIds l
   else ids_after (sc_options l) (getNodeId contact) (sc_contactIds l) (sc_contactIds l')) →
  kept ({[getNodeId contact]} ∪ seen) l'.
Proof using Type.
  set (id := getNodeId contact). clearbody id. intros [Hseen Hclosest] Ho Hafter.
  destruct (refuses (sc_options l) id || _) eqn:Hr.
  { split; rewrite Hafter, ?Ho; [set_solver|]. intros id' Hid' Hr' Hnin. apply Hclosest; [|done..].
    apply elem_of_union in Hid' as [->%elem_of_singleton|Hid']; [|done]. rewrite Hr' in Hr. by apply bool_decide_eq_true in Hr. }
  destruct Hafter as [[Hp Hroom]|(n & init & far & Hn & Hlen & Hids & Hfar & [[Hsame Hle]|[Hp Hlt]])].
  - split; rewrite ?Ho; setoid_rewrite Hp; [set_solver|]. intros id' Hid' Hr' [Hne Hnin]%not_elem_of_cons.
    destruct (Hclosest id' ltac:(set_solver) Hr' Hnin) as [Hmax _]. specialize (Hroom _ Hmax). lia.
  - split; rewrite Hsame, ?Ho; [set_solver|]. intros id' Hid' Hr' Hnin.
    apply elem_of_union in Hid' as [->%elem_of_singleton|Hid']; [|by apply Hclosest].
    split; [by rewrite Hlen|]. intros id' Hin. specialize (Hfar _ Hin). lia.
  - assert (length (sc_contactIds l') = n) as Hlen'.
    { rewrite Hp, <-Hlen, Hids, length_app. cbn. lia. }
    split; rewrite ?Ho, ?Hlen'; setoid_rewrite Hp; rewrite ?Hn; rewrite Hids in *.
    + intros id' Hin. apply elem_of_union. apply elem_of_cons in Hin as [->|Hin]; [left; set_solver|right]. apply Hseen. set_solver.
    + intros id' Hid' Hr' [Hne Hnin]%not_elem_of_cons. split; [done|].
      assert (∀ id', id' ∈ init → dist (sc_options l) id' ≤ dist (sc_options l) far)%Z as Hinit by (intros; apply Hfar; set_solver).
      destruct (decide (id' = far)) as [->|Hnf].
      * intros id2 [->|Hin]%elem_of_cons; [lia|by apply Hinit].
      * destruct (Hclosest id' ltac:(set_solver) Hr' ltac:(set_solver)) as [_ Hc].
        assert (dist (sc_options l) far ≤ dist (sc_options l) id')%Z as Hf by (apply Hc; set_solver).
        intros id2 [->|Hin]%elem_of_cons; [lia|]. specialize (Hinit _ Hin). lia.
Qed.

Lemma addContacts_spec contacts l seen :
  sc_inv l → so_maxSize (sc_options l) ≠ Some 0 → kept seen l →
  ∃ l' evs, addContacts contacts l = Return (l', evs) ∧ sc_inv l' ∧ sc_options l' = sc_options l ∧
    kept (list_to_set (getNodeId <$> contacts) ∪ seen) l' ∧
    (∀ id c, map_get id (sc_contactsById l') = Some c → c ∈ contacts ∨ map_get id (sc_contactsById l) = Some c).
Proof using Type.
  revert l seen. induction contacts as [|contact contacts IH]; intros l seen Hinv Hmax Hkept.
  { exists l, []. split_and!; try done; [|by right]. cbn. by rewrite (left_id_L ∅ (∪)). }
  destruct (add_spec contact l Hinv Hmax) as (l1 & evs1 & Hadd & Hinv1 & Ho1 & Hget1 & Hafter).
  pose proof (add_kept contact l l1 seen Hkept Ho1 Hafter) as Hkept1.
  destruct (IH l1 _ Hinv1 ltac:(by rewrite Ho1) Hkept1) as (l2 & evs2 & Hadds & Hinv2 & Ho2 & Hkept2 & Hget2).
  exists l2, (evs1 ++ evs2). cbn [addContacts]. rewrite Hadd. cbn [outcome_bind fst snd]. rewrite Hadds.
  split_and!; [done|done|by rewrite Ho2| |].
  - by replace (list_to_set (getNodeId <$> contact :: contacts) ∪ seen)
      with (list_to_set (getNodeId <$> contacts) ∪ ({[getNodeId contact]} ∪ seen) : gset string) by (cbn; set_solver).
  - intros id c Hc. destruct (Hget2 id c Hc) as [?|Hc1]; [left; by right|]. destruct (Hget1 id c Hc1) as [->|?]; [left; left|by right].
Qed.

(** [result] is what of [contacts] a list with these options keeps: the closest, in the order of the distance. *)
Definition closest_of o (contacts result : list C) : Prop :=
  let admitted : gset string := list_to_set (filter (λ id, refuses o id = false) (getNodeId <$> contacts)) in
  StronglySorted (by_distance o) (getNodeId <$> result) ∧ NoDup (getNodeId <$> result) ∧
  (∀ c, c ∈ result → c ∈ contacts ∧ refuses o (getNodeId c) = false) ∧
  length result = match so_maxSize o with Some n => n `min` size admitted | None => size admitted end ∧
  (∀ c c', c ∈ contacts → refuses o (getNodeId c) = false → getNodeId c ∉ getNodeId <$> result → c' ∈ result →
     dist o (getNodeId c') ≤ dist o (getNodeId c))%Z.

Lemma closest_contacts_ids l : sc_inv l → getNodeId <$> getClosestContacts None l = sc_contactIds l.
Proof using Type.
  intros [_ _ _ Hsame Hnamed _ _]. unfold getClosestContacts. cbn [limited].
  assert (∀ ids, (∀ id, id ∈ ids → id ∈ (sc_contactsById l).*1) →
    getNodeId <$> omap (λ id, map_get id (sc_contactsById l)) ids = ids) as Hall; [|apply Hall; intros id; apply Hsame].
  induction ids as [|id ids IH]; intros Hin; [done|]. cbn. destruct (map_get id (sc_contactsById l)) as [c|] eqn:Hg.
  - cbn. rewrite (Hnamed id c Hg). f_equal. apply IH. intros id' ?. apply Hin. by right.
  - apply map_get_None in Hg. destruct Hg. apply Hin. left.
Qed.

Lemma closest_contacts_of contacts l o :
  sc_inv l → sc_options l = o → kept (list_to_set (getNodeId <$> contacts)) l →
  (∀ id c, map_get id (sc_contactsById l) = Some c → c ∈ contacts) → closest_of o contacts (getClosestContacts None l).
Proof using Type.
  intros Hinv <- [Hseen Hclosest] Hget. pose proof (closest_contacts_ids l Hinv) as Hids.
  pose proof Hinv as [Hs Hnd _ _ _ Hadm Hbound]. unfold closest_of. rewrite Hids.
  set (adm := list_to_set _ : gset string).
  assert (∀ id, id ∈ sc_contactIds l → id ∈ adm) as Hsub.
  { intros id Hid. apply elem_of_list_to_set, list_elem_of_filter. split; [by apply Hadm|]. by apply (elem_of_list_to_set (C := gset string)), Hseen. }
  split_and!; [done|done| | |].
  - intros c Hc. pose proof (list_elem_of_fmap_2 getNodeId _ _ Hc) as Hid. rewrite Hids in Hid. split; [|by apply Hadm].
    apply list_elem_of_omap in Hc as (id & _ & Hc). by eapply Hget.
  - assert (size (list_to_set (sc_contactIds l) : gset string) = length (getClosestContacts None l)) as Hsize.
    { rewrite size_list_to_set by done. by rewrite <-Hids, length_fmap. }
    rewrite <-Hsize. assert (list_to_set (sc_contactIds l) ⊆ adm) as Hss by set_solver.
    destruct (decide (adm ⊆ list_to_set (sc_contactIds l))) as [Hall|Hsome].
    + assert (list_to_set (sc_contactIds l) = adm) as Heq by set_solver. rewrite Heq.
      destruct (so_maxSize (sc_options l)) as [n|] eqn:Hn; [|done]. specialize (Hbound n eq_refl).
      rewrite <-Heq, size_list_to_set by done. lia.
    + assert (∃ id, id ∈ adm ∧ id ∉ sc_contactIds l) as (id & Hin & Hnin).
      { destruct (set_choose_or_empty (adm ∖ list_to_set (sc_contactIds l))) as [[id Hid]|Hempty]; [exists id; set_solver|].
        destruct Hsome. set_solver. }
      apply elem_of_list_to_set, list_elem_of_filter in Hin as [Hr Hin].
      destruct (Hclosest id) as [Hmax _]; [by apply elem_of_list_to_set|done|done|]. rewrite Hmax.
      rewrite size_list_to_set by done. pose proof (subseteq_size _ _ Hss) as Hle. rewrite size_list_to_set in Hle by done. lia.
  - intros c c' Hc Hr Hnin Hc'. destruct (Hclosest (getNodeId c)) as [_ Hd]; [|done|done|].
    { apply elem_of_list_to_set. by apply list_elem_of_fmap_2. }
    apply Hd. rewrite <-Hids. by apply list_elem_of_fmap_2.
Qed.

Lemma getClosestNodes_closest referenceId contacts maxCount excluded :
  maxCount ≠ Some 0 →
  ∃ result, getClosestNodes referenceId contacts maxCount excluded = Return result ∧
    closest_of (MkSortedOptions referenceId true maxCount None excluded) contacts result.
Proof using Type.
  intros Hmax. set (o := MkSortedOptions _ _ _ _ _).
  destruct (addContacts_spec contacts (sorted_new o) ∅ (sorted_new_inv o) Hmax) as (l & evs & Hadd & Hinv & Ho & Hkept & Hget).
  { split; cbn; intros id Hid; [by apply not_elem_of_nil in Hid|set_solver]. }
  exists (getClosestContacts None l). unfold getClosestNodes. fold o. rewrite Hadd. split; [done|].
  apply closest_contacts_of; [done|done|by rewrite (right_id_L ∅ (∪)) in Hkept|].
  intros id c Hc. by destruct (Hget id c Hc) as [?|?].
Qed.

(** ** Removing a contact *)

Lemma remove_spec id l :
  sc_inv l →
  let '(l', evs, removed) := removeContact id l in
  sc_inv l' ∧ sc_options l' = sc_options l ∧ removed = bool_decide (id ∈ sc_contactIds l) ∧
  sc_contactIds l' = filter (λ id', id' ≠ id) (sc_contactIds l).
Proof using Type.
  destruct l as [o m ids]. intros Hinv. pose proof Hinv as [_ Hnd _ Hsame _ _ _]. cbn in Hnd, Hsame.
  unfold removeContact. cbn [sc_contactsById sc_contactIds sc_options].
  destruct (map_get id m) as [c|] eqn:Hg.
  - assert (id ∈ ids) as Hin.
    { apply Hsame. destruct (decide (id ∈ m.*1)) as [?|Hn]; [done|]. apply map_get_None in Hn. congruence. }
    destruct (without_filter id ids Hnd Hin) as [Hw Hp].
    split_and!; [|done|by rewrite bool_decide_eq_true_2|done]. apply (removed_inv o m ids); [done| |done].
    rewrite Hw. apply sublist_filter.
  - apply map_get_None in Hg. rewrite Hsame in Hg. split_and!; [done|done|by rewrite bool_decide_eq_false_2|].
    symmetry. apply filter_all. by intros x Hx ->.
Qed.

(** ** The reference *)

(** The specification: of the ids that are not excluded, each once and in the order of their distance, as many as asked for *)
Definition nearer (referenceId a b : string) : Prop := (distance referenceId a ≤ distance referenceId b)%Z.
#[local] Instance nearer_dec r : RelDecision (nearer r).
Proof using Type. intros a b. unfold nearer. apply _. Defined.
#[local] Instance nearer_total r : Total (nearer r).
Proof using Type. intros a b. unfold nearer. lia. Qed.
#[local] Instance nearer_trans r : Transitive (nearer r).
Proof using Type. intros a b c. unfold nearer. lia. Qed.

Definition closest_ids (referenceId : string) (maxCount : option nat) (excluded : option (gset string)) ids : list string :=
  let allowed : gset string := list_to_set ids ∖ default ∅ excluded in
  let sorted := merge_sort (nearer referenceId) (elements allowed) in
  match maxCount with Some n => take n sorted | None => sorted end.

Lemma refuses_excluded referenceId maxCount excluded id :
  refuses (MkSortedOptions referenceId true maxCount None excluded) id = false ↔ id ∉ default ∅ excluded.
Proof using Type. unfold refuses. cbn. rewrite !orb_false_r. apply bool_decide_eq_false. Qed.

Lemma closest_of_reference referenceId maxCount excluded contacts result :
  let o := MkSortedOptions referenceId true maxCount None excluded in
  (∀ c c', c ∈ contacts → c' ∈ contacts →
     distance referenceId (getNodeId c) = distance referenceId (getNodeId c') → getNodeId c = getNodeId c') →
  closest_of o contacts result → getNodeId <$> result = closest_ids referenceId maxCount excluded (getNodeId <$> contacts).
Proof using Type.
  intros o Hinj (Hs & Hnd & Hin & Hlen & Hfar). unfold closest_ids.
  assert (list_to_set (getNodeId <$> contacts) ∖ default ∅ excluded =
    (list_to_set (filter (λ id, refuses o id = false) (getNodeId <$> contacts)) : gset string)) as ->.
  { apply set_eq. intros x. rewrite elem_of_difference, !elem_of_list_to_set, list_elem_of_filter. unfold o.
    rewrite refuses_excluded. tauto. }
  set (adm := list_to_set _ : gset string) in *. set (sorted := merge_sort _ _).
  set (ids := getNodeId <$> result) in *.
  assert (∀ id, id ∈ adm ↔ ∃ c, c ∈ contacts ∧ getNodeId c = id ∧ refuses o id = false) as Hadm.
  { intros id. unfold adm. rewrite elem_of_list_to_set, list_elem_of_filter. split.
    - intros [Hr (c & -> & Hc)%list_elem_of_fmap]. by exists c.
    - intros (c & Hc & <- & Hr). split; [done|]. by apply list_elem_of_fmap_2. }
  assert (∀ id, id ∈ ids → id ∈ adm) as Hsub.
  { intros id (c & -> & Hc)%list_elem_of_fmap. apply Hadm. exists c. by destruct (Hin c Hc). }
  set (rest := merge_sort (nearer referenceId) (elements (adm ∖ list_to_set ids))).
  assert (∀ id, id ∈ rest → id ∈ adm ∧ id ∉ ids) as Hrest.
  { intros id Hid. unfold rest in Hid. rewrite merge_sort_Permutation in Hid. set_solver. }
  assert (sorted = ids ++ rest) as ->.
  { symmetry. apply (StronglySorted_unique_strong (nearer referenceId)).
    - intros x y Hx Hy H1 H2.
      assert (x ∈ adm) as (c & Hc & <- & _)%Hadm by (apply elem_of_app in Hx as [?|?]; [by apply Hsub|by apply Hrest]).
      assert (y ∈ adm) as (c' & Hc' & <- & _)%Hadm by (unfold sorted in Hy; rewrite merge_sort_Permutation in Hy; by apply elem_of_elements in Hy).
      apply Hinj; [done..|unfold nearer in *; lia].
    - apply StronglySorted_app_2; [|done|apply StronglySorted_merge_sort; apply _].
      intros x y (c' & -> & Hc')%list_elem_of_fmap Hy. apply Hrest in Hy as [(c & Hc & <- & Hr)%Hadm Hn]. by apply Hfar.
    - apply StronglySorted_merge_sort; apply _.
    - unfold sorted, rest. rewrite !merge_sort_Permutation. rewrite <-(elements_list_to_set (C := gset string) ids) at 1 by done.
      rewrite <-elements_disj_union by set_solver.
      enough (list_to_set ids ∪ adm ∖ list_to_set ids = adm) as -> by done.
      apply set_eq. intros x. rewrite elem_of_union, elem_of_difference, elem_of_list_to_set.
      destruct (decide (x ∈ ids)); naive_solver. }
  assert (length ids = length result) as Hl by apply length_fmap.
  assert (length (ids ++ rest) = size adm) as Htot.
  { rewrite length_app. unfold rest. rewrite merge_sort_Permutation. change (length (elements ?X)) with (size X).
    rewrite size_difference, size_list_to_set by first [done | set_solver].
    assert (size (list_to_set ids : gset string) ≤ size adm) as Hle by (apply subseteq_size; set_solver).
    rewrite size_list_to_set in Hle by done. lia. }
  rewrite length_app in Htot. unfold o in Hlen. cbn [so_maxSize] in Hlen. destruct maxCount as [n|].
  - destruct (Nat.le_gt_cases (size adm) n).
    + assert (rest = []) as -> by (apply length_zero_iff_nil; lia). rewrite app_nil_r, take_ge; [done|lia].
    + by rewrite take_app_length' by lia.
  - assert (rest = []) as -> by (apply length_zero_iff_nil; lia). by rewrite app_nil_r.
Qed.

(** C26: the nodes closest to an id are found: when no two nodes are equally far from it, [getClosestNodes] answers with the
    nodes whose ids are not among the excluded ones, each once, in the order of their distance from the id, cut to the
    count that is asked for, for any count but 0 (with 0 it throws as soon as there is a node: [limit_zero_throws]). *)
Theorem closest_nodes_are_the_closest referenceId contacts maxCount excluded :
  maxCount ≠ Some 0 →
  (∀ c c', c ∈ contacts → c' ∈ contacts →
     distance referenceId (getNodeId c) = distance referenceId (getNodeId c') → getNodeId c = getNodeId c') →
  ∃ result, getClosestNodes referenceId contacts maxCount excluded = Return result ∧
    getNodeId <$> result = closest_ids referenceId maxCount excluded (getNodeId <$> contacts) ∧
    (∀ c, c ∈ result → c ∈ contacts).
Proof using Type.
  intros Hmax Hinj. destruct (getClosestNodes_closest referenceId contacts maxCount excluded Hmax) as (result & Hret & Hclosest).
  exists result. split_and!; [done|by apply closest_of_reference|]. intros c Hc. by apply Hclosest.
Qed.
End contacts.

(** * ContactList and RandomContactList *)

(** [rl_randomness] is what the rolls of [Math.random] are compared with; the outcome of the comparison is an
    argument. *)
Section random.
  Context {C : Type} (getNodeId : C → string).
  Implicit Types (contact : C) (id : string).

Record RandomContactList := MkRandom {
  rl_localNodeId : string;
  rl_maxSize : nat;
  rl_contactsById : jsmap string C;
  rl_contactIds : list string
}.
Implicit Types (r : RandomContactList).

Definition random_new (localNodeId : string) (maxSize : nat) : RandomContactList := MkRandom localNodeId maxSize [] [].

Definition random_remove id r : RandomContactList * list contact_event * bool :=
  match map_get id (rl_contactsById r) with
  | None => (r, [], false)
  | Some removed =>
      (MkRandom (rl_localNodeId r) (rl_maxSize r) (map_delete id (rl_contactsById r)) (without_id id (rl_contactIds r)), [ContactRemoved removed], true)
  end.

Definition random_add (roll : bool) contact r : RandomContactList * list contact_event :=
  let id := getNodeId contact in
  if bool_decide (rl_localNodeId r = id) || map_has id (rl_contactsById r) || negb roll then (r, [])
  else
    let size := length (rl_contactIds r) in
    let '(r, evs) := match rl_contactIds r with
                     | toRemove :: _ => if (size =? rl_maxSize r)%nat then (random_remove toRemove r).1 else (r, [])
                     | [] => (r, [])
                     end in
    (MkRandom (rl_localNodeId r) (rl_maxSize r) (map_set id contact (rl_contactsById r)) (rl_contactIds r ++ [id]),
     evs ++ [ContactAdded contact]).

Definition random_contacts (limit : option Z) r : list C :=
  omap (λ id, map_get id (rl_contactsById r)) (limited limit (rl_contactIds r)).

Record random_inv r : Prop := {
  ri_nodup : NoDup (rl_contactIds r);
  ri_keys : NoDup (rl_contactsById r).*1;
  ri_same : ∀ id, id ∈ (rl_contactsById r).*1 ↔ id ∈ rl_contactIds r;
  ri_local : rl_localNodeId r ∉ rl_contactIds r;
  ri_bounded : length (rl_contactIds r) ≤ rl_maxSize r
}.

Lemma random_remove_spec id r :
  random_inv r →
  let '(r', evs, removed) := random_remove id r in
  random_inv r' ∧ rl_localNodeId r' = rl_localNodeId r ∧ rl_maxSize r' = rl_maxSize r ∧
  removed = bool_decide (id ∈ rl_contactIds r) ∧ rl_contactIds r' = filter (λ id', id' ≠ id) (rl_contactIds r).
Proof using Type.
  destruct r as [local n m ids]. intros Hinv. pose proof Hinv as [Hnd Hk Hsame Hlocal Hb]. cbn in *.
  unfold random_remove. cbn [rl_contactsById rl_contactIds].
  destruct (map_get id m) as [c|] eqn:Hg.
  - assert (id ∈ ids) as Hin.
    { apply Hsame. destruct (decide (id ∈ m.*1)) as [?|Hn]; [done|]. apply map_get_None in Hn. congruence. }
    destruct (without_filter id ids Hnd Hin) as [Hw Hp].
    split_and!; [|done|done|by rewrite bool_decide_eq_true_2|done]. split; cbn; rewrite ?map_delete_keys, ?Hw.
    + by apply NoDup_filter.
    + by apply NoDup_filter.
    + intros id'. rewrite !list_elem_of_filter. by rewrite Hsame.
    + intros [_ ?]%list_elem_of_filter. done.
    + pose proof (sublist_length _ _ (sublist_filter (λ id', id' ≠ id) ids)). lia.
  - apply map_get_None in Hg. rewrite Hsame in Hg. split_and!; [done|done|done|by rewrite bool_decide_eq_false_2|].
    symmetry. apply filter_all. by intros x Hx ->.
Qed.

Lemma random_add_spec roll contact r :
  random_inv r → rl_maxSize r ≠ 0 →
  let r' := (random_add roll contact r).1 in
  let id := getNodeId contact in
  random_inv r' ∧
  rl_contactIds r' =
    if bool_decide (rl_localNodeId r = id) || bool_decide (id ∈ rl_contactIds r) || negb roll then rl_contactIds r
    else (if length (rl_contactIds r) =? rl_maxSize r then tail (rl_contactIds r) else rl_contactIds r) ++ [id].
Proof using Type.
  intros Hinv Hmax. pose proof Hinv as [Hnd Hk Hsame Hlocal Hb]. unfold random_add. set (id := getNodeId contact).
  assert (map_has id (rl_contactsById r) = bool_decide (id ∈ rl_contactIds r)) as ->.
  { apply eq_true_iff_eq. by rewrite map_has_spec, bool_decide_eq_true, Hsame. }
  destruct (_ || negb roll) eqn:Hr; [done|]. apply orb_false_iff in Hr as [[Hl Hn]%orb_false_iff _].
  apply bool_decide_eq_false in Hl, Hn.
  assert (∀ r1, random_inv r1 → rl_localNodeId r1 = rl_localNodeId r → rl_maxSize r1 = rl_maxSize r → id ∉ rl_contactIds r1 →
    length (rl_contactIds r1) < rl_maxSize r →
    random_inv (MkRandom (rl_localNodeId r1) (rl_maxSize r1) (map_set id contact (rl_contactsById r1)) (rl_contactIds r1 ++ [id]))) as Hpush.
  { intros r1 [Hnd1 Hk1 Hsame1 Hlocal1 _] Hloc Hm1 Hn1 Hlen. split; cbn.
    - apply NoDup_app. split_and!; [done|by intros x Hx ->%list_elem_of_singleton|apply NoDup_singleton].
    - by apply map_set_nodup.
    - intros id'. rewrite map_set_keys. destruct (decide (id ∈ _)) as [Hin|_]; [by apply Hsame1 in Hin|]. by rewrite !elem_of_app, Hsame1.
    - rewrite elem_of_app, list_elem_of_singleton, Hloc. rewrite Hloc in Hlocal1. tauto.
    - rewrite length_app, Hm1. cbn. lia. }
  destruct (rl_contactIds r) as [|first rest] eqn:Hids.
  { split; [|cbn [fst rl_contactIds]; rewrite Hids; by destruct (length [] =? rl_maxSize r)].
    cbn [fst]. apply Hpush; [done..| |]; rewrite Hids; [done|cbn; lia]. }
  destruct (Nat.eqb_spec (length (first :: rest)) (rl_maxSize r)) as [Hfull|Hroom].
  - pose proof (random_remove_spec first r Hinv) as Hrem. destruct (random_remove first r) as [[r1 evs] b]. cbn [fst snd].
    destruct Hrem as (Hinv1 & Hloc & Hm & _ & Hids1). rewrite Hids in Hids1. apply NoDup_cons in Hnd as [Hfirst Hnd].
    rewrite filter_cons_False, filter_all in Hids1 by first [tauto | by intros x Hx ->]. split; [|cbn; by rewrite Hids1].
    apply Hpush; [done|done|done| |]; rewrite Hids1; [by apply not_elem_of_cons in Hn as [_ ?]|cbn in Hfull; lia].
  - split; [|cbn [fst rl_contactIds]; by rewrite Hids]. cbn [fst]. apply Hpush; [done|done|done| |]; rewrite Hids; [done|cbn in *; lia].
Qed.
End random.

Module ContactsWitness.

(** Ids of one letter, the distance of their codes *)
Definition code (id : string) : Z := match id with String c _ => Z.of_N (Ascii.N_of_ascii c) | EmptyString => 0 end.
Definition distance (a b : string) : Z := Z.abs (code a - code b).

Example closest_three :
  getClosestNodes id distance "f" ["a"; "j"; "g"; "d"; "g"; "m"; "e"] (Some 3) (Some {["e"]}) = Return ["g"; "d"; "j"].
Proof. vm_compute. reflexivity. Qed.

(** A limit of 0 is an error as soon as there is a node. *)
Example limit_zero_throws : is_return (getClosestNodes id distance "f" ["a"] (Some 0) None) = false.
Proof. reflexivity. Qed.

Lemma closest_nodes_are_the_closest_witness :
  ∃ result, getClosestNodes id distance "f" ["a"; "j"; "e"; "h"; "m"] (Some 2) (Some {["e"]}) = Return result ∧
    id <$> result = ["h"; "j"] ∧ (∀ c, c ∈ result → c ∈ ["a"; "j"; "e"; "h"; "m"]).
Proof.
  assert (closest_ids distance "f" (Some 2) (Some {["e"]}) (id <$> ["a"; "j"; "e"; "h"; "m"]) = ["h"; "j"]) as <-
    by (vm_compute; reflexivity).
  apply (closest_nodes_are_the_closest id distance "f" ["a"; "j"; "e"; "h"; "m"] (Some 2) (Some {["e"]})); [discriminate|].
  intros c c' Hc Hc'. cbn in Hc, Hc'. set_unfold.
  destruct Hc as [->|[->|[->|[->|[->|[]]]]]], Hc' as [->|[->|[->|[->|[->|[]]]]]]; vm_compute; try reflexivity; discriminate.
Defined.

End ContactsWitness.
