(* ===== verification/Ring.v ===== *)
(** The ring of the DHT (packages/dht/src/dht/contact/): ringIdentifiers.ts and [RingContactList].

    A ring id is made of 15 bytes, kept as a JavaScript number: [to_double] is the rounding of [Number(bigint)] and of
    every operation on numbers.  [OrderedMap] of the npm package [@js-sdsl/ordered-map] is an interface. *)

From S2P Require Import Prelude.
From S2P Require Import JsMap.
From S2P Require Import Frames.
From S2P Require Import DataQuery.
From S2P Require Import Contacts.

Set Default Proof Using "Type".

(** * ringIdentifiers.ts *)

Section numbers.
Local Open Scope Z_scope.

(** The nearest number with 53 bits to an integer that is not negative, of two the even one *)
Definition to_double (z : Z) : Z :=
  let e := Z.log2 z - 52 in
  if e <=? 0 then z
  else
    let q := z / 2 ^ e in
    let r := z mod 2 ^ e in
    let half := 2 ^ (e - 1) in
    (if (half <? r) || ((half =? r) && Z.odd q) then q + 1 else q) * 2 ^ e.

(** [2 ** 120 - 1] *)
Definition RING_SIZE : Z := to_double (to_double (2 ^ 120) - 1).

Definition binaryToBigInt (binary : bytes) : Z := foldl (λ acc val, Z.lor (Z.shiftl acc 8) val) 0 binary.

Definition getRingIdFromRaw (raw : bytes) : Z := to_double (binaryToBigInt raw).

Record PeerDescriptor := MkPeerDescriptor { pd_nodeId : bytes; pd_region : option Z; pd_ipAddress : option Z }.

Definition toNodeId (peerDescriptor : PeerDescriptor) : string := binaryToHex (pd_nodeId peerDescriptor) false.

(** [writeUInt32BE] *)
Definition uint32_be (z : Z) : bytes := [z / 2 ^ 24; (z / 2 ^ 16) mod 256; (z / 2 ^ 8) mod 256; z mod 256].

(** [subarray(length - 7, length)]; a negative start counts from the end. *)
Definition unique_part (nodeId : bytes) : bytes :=
  let n := length nodeId in
  if (7 <=? n)%nat then drop (n - 7) nodeId else drop (n - (7 - n)) nodeId.

Definition getRingIdRawFromPeerDescriptor (peerDescriptor : PeerDescriptor) : bytes :=
  uint32_be (default 0 (pd_region peerDescriptor)) ++ uint32_be (default 0 (pd_ipAddress peerDescriptor)) ++
  unique_part (pd_nodeId peerDescriptor).

Definition getRingIdFromPeerDescriptor (peerDescriptor : PeerDescriptor) : Z :=
  to_double (binaryToBigInt (getRingIdRawFromPeerDescriptor peerDescriptor)).

Definition getLeftDistance (referenceId id : Z) : Z :=
  let diff := to_double (Z.abs (referenceId - id)) in
  if id <? referenceId then diff else to_double (RING_SIZE - diff).

Definition getRightDistance (referenceId id : Z) : Z :=
  let diff := to_double (Z.abs (referenceId - id)) in
  if id <? referenceId then to_double (RING_SIZE - diff) else diff.
End numbers.

(** * @js-sdsl/ordered-map *)

(** The entries of a map in the order of its keys, with a new value for a key *)
Fixpoint ordered_insert {C} (k : Z) (c : C) (l : list (Z * C)) : list (Z * C) :=
  match l with
  | [] => [(k, c)]
  | (k', c') :: l' =>
      if (k <? k')%Z then (k, c) :: l else if (k =? k')%Z then (k, c) :: l' else (k', c') :: ordered_insert k c l'
  end.

(** [entries] is what the iteration of the map yields. *)
Class OrderedMap (C M : Type) := {
  om_entries : M → list (Z * C);
  om_create : M;
  om_setElement : Z → C → M → M;
  om_back : M → option (Z * C);
  om_size : M → nat;
  om_eraseLast : M → M;
  om_eraseElementByKey : Z → M → M * bool;
  om_getElementByKey : Z → M → option C;
  om_entries_create : om_entries om_create = [];
  om_entries_set k c m : om_entries (om_setElement k c m) = ordered_insert k c (om_entries m);
  om_back_last m : om_back m = last (om_entries m);
  om_size_length m : om_size m = length (om_entries m);
  om_entries_eraseLast m : om_entries (om_eraseLast m) = removelast (om_entries m);
  om_entries_erase k m :
    om_entries (om_eraseElementByKey k m).1 = map_delete k (om_entries m) ∧
    (om_eraseElementByKey k m).2 = map_has k (om_entries m);
  om_get_entry k m : om_getElementByKey k m = map_get k (om_entries m)
}.

#[export] Program Instance list_ordered_map C : OrderedMap C (list (Z * C)) := {|
  om_entries m := m; om_create := []; om_setElement := ordered_insert; om_back := last; om_size := length;
  om_eraseLast := @removelast _; om_eraseElementByKey k m := (map_delete k m, map_has k m); om_getElementByKey := map_get |}.
Solve All Obligations with done.

(** * Facts about numbers *)

(** [to_double] where the exponent [e] is positive: the quotient, rounded *)
Lemma to_double_cases z (e := (Z.log2 z - 52)%Z) :
  (0 < z)%Z →
  (e ≤ 0 ∧ to_double z = z)%Z ∨
  (0 < e ∧ 2 ^ 52 ≤ z / 2 ^ e < 2 ^ 53 ∧
   ∃ b, to_double z = (z / 2 ^ e + b) * 2 ^ e ∧
        (b = 1 ∧ 2 ^ (e - 1) ≤ z mod 2 ^ e ∨ b = 0 ∧ z mod 2 ^ e ≤ 2 ^ (e - 1)) ∧
        (z mod 2 ^ e = 2 ^ (e - 1) → b = if Z.odd (z / 2 ^ e) then 1 else 0))%Z.
Proof.
  intros Hz. unfold to_double. fold e. destruct (Z.leb_spec e 0) as [He|He]; [by left|]. right. split; [done|].
  pose proof (Z.log2_spec z Hz) as [H1 H2]. split.
  - assert (2 ^ Z.log2 z = 2 ^ 52 * 2 ^ e)%Z as Hl by (rewrite <-Z.pow_add_r by lia; f_equal; lia).
    rewrite Z.pow_succ_r in H2 by apply Z.log2_nonneg. split; [apply Z.div_le_lower_bound; lia|].
    apply Z.div_lt_upper_bound; [lia|]. change (2 ^ 53)%Z with (2 * 2 ^ 52)%Z. lia.
  - destruct (Z.ltb_spec (2 ^ (e - 1)) (z mod 2 ^ e)) as [Hlt|Hge]; cbn [orb].
    { exists 1%Z. split_and!; [done|left; lia|lia]. }
    destruct (Z.eqb_spec (2 ^ (e - 1)) (z mod 2 ^ e)) as [Heq|Hne]; cbn [andb].
    + destruct (Z.odd (z / 2 ^ e)); [exists 1%Z|exists 0%Z; rewrite Z.add_0_r]; split_and!; try done; [left|right]; lia.
    + exists 0%Z. rewrite Z.add_0_r. split_and!; [done|right; lia|lia].
Qed.

Lemma to_double_range z : (0 < z)%Z → (2 ^ Z.log2 z ≤ to_double z ≤ 2 ^ (Z.log2 z + 1))%Z.
Proof.
  intros Hz. pose proof (Z.log2_spec z Hz) as [H1 H2]. pose proof (Z.log2_nonneg z).
  destruct (to_double_cases z Hz) as [[_ ->]|(He & Hq & b & -> & Hb & _)].
  { rewrite <-Z.add_1_r in H2. lia. }
  set (e := (Z.log2 z - 52)%Z) in *. assert (0 < 2 ^ e)%Z by (apply Z.pow_pos_nonneg; lia).
  assert (2 ^ Z.log2 z = 2 ^ 52 * 2 ^ e ∧ 2 ^ (Z.log2 z + 1) = 2 ^ 53 * 2 ^ e)%Z as [-> ->].
  { rewrite <-!Z.pow_add_r by lia. split; f_equal; lia. }
  split; apply Z.mul_le_mono_nonneg_r; lia.
Qed.

Lemma to_double_mono a b : (0 ≤ a ≤ b)%Z → (to_double a ≤ to_double b)%Z.
Proof.
  intros [Ha Hab]. destruct (Z.eq_dec a 0) as [->|Hne].
  { destruct (Z.eq_dec b 0) as [->|]; [done|]. pose proof (to_double_range b ltac:(lia)). change (to_double 0) with 0%Z.
    pose proof (Z.pow_nonneg 2 (Z.log2 b)). lia. }
  assert (0 < a ∧ 0 < b)%Z as [Ha' Hb'] by lia. pose proof (Z.log2_le_mono a b Hab) as Hl.
  destruct (Z.eq_dec (Z.log2 a) (Z.log2 b)) as [Heq|Hne'].
  - destruct (to_double_cases a Ha') as [[He ->]|(He & _ & ba & -> & Hba & Hta)], (to_double_cases b Hb') as [[He' ->]|(He' & _ & bb & -> & Hbb & Htb)];
      [done|lia|lia|]. rewrite <-Heq in *. set (e := (Z.log2 a - 52)%Z) in *.
    assert (0 < 2 ^ e)%Z as Hp by (apply Z.pow_pos_nonneg; lia). apply Z.mul_le_mono_nonneg_r; [lia|].
    pose proof (Z.div_le_mono a b (2 ^ e) Hp Hab) as Hq.
    destruct (Z.eq_dec (a / 2 ^ e) (b / 2 ^ e)) as [Hqe|]; [|lia]. rewrite <-Hqe in *.
    pose proof (Z.div_mod a (2 ^ e) ltac:(lia)). pose proof (Z.div_mod b (2 ^ e) ltac:(lia)). rewrite <-Hqe in *.
    assert (a mod 2 ^ e ≤ b mod 2 ^ e)%Z as Hm by lia.
    destruct Hba as [[-> Hra]|[-> Hra]], Hbb as [[-> Hrb]|[-> Hrb]]; try lia.
  - etrans; [apply to_double_range; lia|]. etrans; [|apply to_double_range; lia]. apply Z.pow_le_mono_r; lia.
Qed.

Lemma to_double_nonneg z : (0 ≤ z)%Z → (0 ≤ to_double z)%Z.
Proof. intros Hz. apply (to_double_mono 0 z). lia. Qed.

(** As a JavaScript number [2 ** 120 - 1] is [2 ** 120]: the number of ring ids. *)
Lemma RING_SIZE_value : RING_SIZE = (2 ^ 120)%Z.
Proof. reflexivity. Qed.

(** Distances respect the order of the ids, on either side of the reference. *)
Lemma left_distance_mono ref id id' :
  (0 ≤ id ≤ id')%Z → (id' < ref)%Z → (getLeftDistance ref id' ≤ getLeftDistance ref id)%Z.
Proof.
  intros Hid Hr. unfold getLeftDistance. rewrite !(proj2 (Z.ltb_lt _ _)) by lia. apply to_double_mono. lia.
Qed.

Lemma right_distance_mono ref id id' :
  (ref ≤ id ≤ id')%Z → (getRightDistance ref id ≤ getRightDistance ref id')%Z.
Proof.
  intros Hid. unfold getRightDistance. rewrite !(proj2 (Z.ltb_ge _ _)) by lia. apply to_double_mono. lia.
Qed.


(** * One side of the ring *)

Section side.
  Context {C M : Type} `{OrderedMap C M}.
  Implicit Types (contact : C) (m : M) (es : list (Z * C)).

Definition numNeighborsPerSide : nat := 5.

(** One side of [addContact]: the side, [elementAdded] and [elementRemoved] *)
Definition side_add (distance : Z) contact m : M * bool * bool :=
  if match om_back m with None => true | Some (last, _) => (distance <? last)%Z end then
    let m := om_setElement distance contact m in
    if (numNeighborsPerSide <? om_size m)%nat then (om_eraseLast m, true, true) else (m, true, false)
  else (m, false, false).


Notation by_key := (λ a b : Z, a < b)%Z.

Lemma ordered_insert_elem k (c : C) es e : e ∈ ordered_insert k c es → e = (k, c) ∨ e ∈ es.
Proof.
  induction es as [|[k' c'] es IH]; cbn; [rewrite list_elem_of_singleton; auto|].
  destruct (k <? k')%Z, (k =? k')%Z; rewrite !elem_of_cons; naive_solver.
Qed.

Lemma ordered_insert_keys k (c : C) es x : x ∈ (ordered_insert k c es).*1 ↔ x = k ∨ x ∈ es.*1.
Proof.
  induction es as [|[k' c'] es IH]; cbn; [rewrite list_elem_of_singleton; set_solver|].
  destruct (k <? k')%Z; [set_solver|]. destruct (Z.eqb_spec k k') as [->|]; cbn; [set_solver|]. rewrite !elem_of_cons, IH. tauto.
Qed.

Lemma ordered_insert_sorted k (c : C) es : StronglySorted by_key es.*1 → StronglySorted by_key (ordered_insert k c es).*1.
Proof.
  induction es as [|[k' c'] es IH]; cbn; [repeat constructor|]. intros [Hs Hall]%StronglySorted_inv.
  destruct (Z.ltb_spec k k') as [Hlt|Hge]; cbn.
  { constructor; [by constructor|]. constructor; [done|]. eapply Forall_impl; [exact Hall|]. cbn. lia. }
  destruct (Z.eqb_spec k k') as [->|Hne]; cbn; [by constructor|]. constructor; [by apply IH|].
  apply Forall_forall. intros x [->|Hx]%ordered_insert_keys; [lia|]. by apply (proj1 (Forall_forall _ _) Hall).
Qed.

Lemma ordered_insert_length k (c : C) es : StronglySorted by_key es.*1 →
  length (ordered_insert k c es) = if bool_decide (k ∈ es.*1) then length es else S (length es).
Proof.
  induction es as [|[k' c'] es IH]; cbn; [done|]. intros [Hs Hall]%StronglySorted_inv. specialize (IH Hs).
  destruct (Z.ltb_spec k k') as [Hlt|Hge]; cbn.
  { rewrite bool_decide_eq_false_2; [done|]. intros [->|Hin]%elem_of_cons; [lia|]. apply (proj1 (Forall_forall _ _) Hall) in Hin. lia. }
  destruct (Z.eqb_spec k k') as [->|Hne]; cbn; [rewrite bool_decide_eq_true_2; [done|left]|]. rewrite IH.
  destruct (bool_decide_reflect (k ∈ es.*1)) as [Hin|Hin].
  - rewrite bool_decide_eq_true_2; [done|by right].
  - rewrite bool_decide_eq_false_2; [done|]. intros [->|?]%elem_of_cons; done.
Qed.

(** What a side always is: sorted, of at most five entries, each under its distance *)
Record side_ok (distance : C → Z) (admitted : C → Prop) (es : list (Z * C)) : Prop := {
  so_sorted : StronglySorted by_key es.*1;
  so_bounded : length es ≤ numNeighborsPerSide;
  so_keyed : ∀ k c, (k, c) ∈ es → k = distance c ∧ admitted c
}.

Lemma last_key es k c : last es = Some (k, c) → StronglySorted by_key es.*1 → ∀ x, x ∈ es.*1 → (x ≤ k)%Z.
Proof.
  intros [es' ->]%last_Some Hs x. rewrite fmap_app, elem_of_app in *. cbn. intros [Hx| ->%list_elem_of_singleton]; [|done].
  apply Z.lt_le_incl. by apply (StronglySorted_app_1_elem_of by_key _ _ _ _ Hs); [|left].
Qed.

Lemma side_add_ok distance admitted contact m :
  side_ok distance admitted (om_entries m) → admitted contact →
  side_ok distance admitted (om_entries (side_add (distance contact) contact m).1.1).
Proof.
  intros [Hs Hb Hk] Hadm. unfold side_add. set (inserted := match om_back m with None => true | Some _ => _ end). destruct inserted; [|done].
  rewrite om_size_length, om_entries_set.
  assert (∀ e, e ∈ ordered_insert (distance contact) contact (om_entries m) → e.1 = distance e.2 ∧ admitted e.2) as Hin.
  { intros [k c] [[= -> ->]|He]%ordered_insert_elem; [done|by apply Hk]. }
  pose proof (ordered_insert_sorted (distance contact) contact _ Hs) as Hs'.
  pose proof (ordered_insert_length (distance contact) contact _ Hs) as Hl.
  destruct (Nat.ltb_spec numNeighborsPerSide (length (ordered_insert (distance contact) contact (om_entries m)))) as [Hlt|Hle];
    cbn [fst]; rewrite ?om_entries_eraseLast, ?om_entries_set.
  - set (es := ordered_insert _ _ _) in *. assert (es ≠ []) as Hne by (intros He; rewrite He in Hlt; cbn in Hlt; lia).
    pose proof (app_removelast_last (0%Z, contact) Hne) as Heq. rewrite Heq in Hin, Hs'.
    split.
    + rewrite fmap_app in Hs'. by apply StronglySorted_app_1_l in Hs'.
    + apply (f_equal length) in Heq. rewrite length_app in Heq. cbn [length] in Heq.
      destruct (bool_decide (distance contact ∈ (om_entries m).*1)); lia.
    + intros k c He. apply (Hin (k, c)). apply elem_of_app. by left.
  - split; [done|lia|]. intros k c He. by apply (Hin (k, c)).
Qed.

(** *** What of the contacts added to an empty side is kept *)

(** [first] is the distance of the first contact, [seen] those of all. *)
Record side_kept (first : Z) (seen : gset Z) (es : list (Z * C)) : Prop := {
  sk_seen : first ∈ seen;
  sk_from : ∀ k, k ∈ es.*1 → k ∈ seen ∧ (k ≤ first)%Z;
  sk_rest : ∀ d, d ∈ seen → (d ≤ first)%Z → d ∉ es.*1 → length es = numNeighborsPerSide ∧ ∀ k, k ∈ es.*1 → (k < d)%Z
}.

Lemma side_add_kept distance admitted first seen contact m :
  side_ok distance admitted (om_entries m) → side_kept first seen (om_entries m) →
  side_kept first ({[distance contact]} ∪ seen) (om_entries (side_add (distance contact) contact m).1.1).
Proof.
  intros [Hs Hb _] [Hfirst Hfrom Hrest]. set (d := distance contact). unfold side_add. rewrite om_back_last.
  destruct (last (om_entries m)) as [[k c]|] eqn:Hlast.
  2: { apply last_None in Hlast. exfalso. rewrite Hlast in Hrest. destruct (Hrest first Hfirst) as [? _]; [lia|apply not_elem_of_nil|done]. }
  pose proof (last_key _ _ _ Hlast Hs) as Hmax. pose proof (list_elem_of_fmap_2 fst _ _ (last_Some_elem_of _ _ Hlast)) as Hk. cbn in Hk.
  pose proof (Hfrom k Hk) as [Hks Hkf].
  destruct (Z.ltb_spec d k) as [Hlt|Hge].
  2: { cbn [fst]. split; [set_solver|intros x Hx; specialize (Hfrom x Hx); set_solver|].
    intros d' [->%elem_of_singleton|Hd']%elem_of_union Hle Hnin; [|by apply Hrest].
    assert (k < d)%Z as Hkd by (destruct (Z.eq_dec k d) as [->|]; [done|lia]).
    destruct (decide (first ∈ (om_entries m).*1)) as [Hin|Hnin']; [specialize (Hmax _ Hin); lia|].
    destruct (Hrest first Hfirst ltac:(lia) Hnin') as [Hlen _]. split; [done|]. intros x Hx. specialize (Hmax x Hx). lia. }
  rewrite om_size_length, om_entries_set. set (es := ordered_insert d contact (om_entries m)) in *.
  pose proof (ordered_insert_sorted d contact _ Hs) as Hs'. pose proof (ordered_insert_length d contact _ Hs) as Hl. fold es in Hs', Hl.
  assert (∀ x, x ∈ es.*1 ↔ x = d ∨ x ∈ (om_entries m).*1) as Hes by (intros x; apply ordered_insert_keys).
  destruct (Nat.ltb_spec numNeighborsPerSide (length es)) as [Hfull|Hroom]; cbn [fst]; rewrite ?om_entries_eraseLast, ?om_entries_set; fold es.
  - assert (es ≠ []) as Hne by (intros He; rewrite He in Hfull; cbn in Hfull; lia).
    pose proof (app_removelast_last (0%Z, contact) Hne) as Heq. set (init := removelast es) in *. set (far := List.last es (0%Z, contact)) in *.
    assert (length init = numNeighborsPerSide) as Hinit.
    { apply (f_equal length) in Heq. rewrite length_app in Heq. cbn [length] in Heq.
      destruct (bool_decide (d ∈ (om_entries m).*1)); lia. }
    assert (∀ x, x ∈ es.*1 ↔ x ∈ init.*1 ∨ x = far.1) as Hes'.
    { intros x. rewrite Heq, fmap_app, elem_of_app. cbn. by rewrite list_elem_of_singleton. }
    assert (∀ x, x ∈ init.*1 → (x < far.1)%Z) as Hfar.
    { intros x Hx. rewrite Heq, fmap_app in Hs'. by apply (StronglySorted_app_1_elem_of by_key _ _ _ _ Hs'); [|left]. }
    split; [set_solver| |].
    + intros x Hx. assert (x ∈ es.*1) as [->|Hx']%Hes by (apply Hes'; by left); [set_solver by lia|]. specialize (Hfrom x Hx'). set_solver.
    + intros d' Hd' Hle Hnin. split; [done|]. intros x Hx. destruct (decide (d' ∈ es.*1)) as [[?| ->]%Hes'|Hn]; [done|by apply Hfar|].
      rewrite Hes in Hn. apply elem_of_union in Hd' as [->%elem_of_singleton|Hd']; [tauto|].
      destruct (Hrest d' Hd' Hle) as [_ Hless]; [tauto|].
      assert (x ∈ es.*1) as [->|Hx']%Hes by (apply Hes'; by left); [specialize (Hless k Hk); lia|by apply Hless].
  - split; [set_solver| |].
    + intros x [->|Hx']%Hes; [set_solver by lia|]. specialize (Hfrom x Hx'). set_solver.
    + intros d' Hd' Hle Hnin. rewrite Hes in Hnin. apply elem_of_union in Hd' as [->%elem_of_singleton|Hd']; [tauto|].
      destruct (Hrest d' Hd' Hle) as [Hlen Hless]; [tauto|].
      assert (d ∈ (om_entries m).*1) as Hd.
      { destruct (bool_decide_reflect (d ∈ (om_entries m).*1)); [done|]. lia. }
      rewrite bool_decide_eq_true_2 in Hl by done. split; [lia|]. intros x [->|Hx']%Hes; [by apply Hless|by apply Hless].
Qed.
(** The reference: the closest five of the distances up to the first *)
Definition closest_up_to (first : Z) (seen : gset Z) : list Z :=
  take numNeighborsPerSide (merge_sort Z.le (elements (filter (λ d, d ≤ first)%Z seen))).

Lemma sorted_lt_le (l : list Z) : StronglySorted by_key l → StronglySorted Z.le l ∧ NoDup l.
Proof.
  induction 1 as [|x l Hl [IH1 IH2] Hx]; [split; constructor|]. split.
  - constructor; [done|]. eapply Forall_impl; [exact Hx|]. cbn. lia.
  - constructor; [|done]. intros Hin. apply (proj1 (Forall_forall _ _) Hx) in Hin. lia.
Qed.

Lemma side_kept_reference distance admitted first seen es :
  side_ok distance admitted es → side_kept first seen es → es.*1 = closest_up_to first seen.
Proof.
  intros [Hs Hb _] [Hfirst Hfrom Hrest]. destruct (sorted_lt_le _ Hs) as [Hle Hnd].
  unfold closest_up_to. set (near := filter _ seen).
  set (rest := merge_sort Z.le (elements (near ∖ list_to_set es.*1))).
  assert (∀ d, d ∈ rest ↔ (d ∈ seen ∧ (d ≤ first)%Z ∧ d ∉ es.*1)) as Hin.
  { intros d. unfold rest, near. rewrite merge_sort_Permutation. set_solver. }
  assert (merge_sort Z.le (elements near) = es.*1 ++ rest) as ->.
  { apply (StronglySorted_unique Z.le); [apply StronglySorted_merge_sort; apply _| |].
    - apply StronglySorted_app_2; [|done|apply StronglySorted_merge_sort; apply _].
      intros x y Hx Hy. apply Hin in Hy as (Hy1 & Hy2 & Hy3). destruct (Hrest y Hy1 Hy2 Hy3) as [_ Hlt]. specialize (Hlt x Hx). lia.
    - unfold rest. rewrite !merge_sort_Permutation. rewrite <-(elements_list_to_set (C := gset Z) es.*1) at 1 by done.
      rewrite <-elements_disj_union by set_solver.
      enough (list_to_set es.*1 ∪ near ∖ list_to_set es.*1 = near) as -> by done. apply set_eq. intros x.
      rewrite elem_of_union, elem_of_difference, elem_of_list_to_set. unfold near. rewrite elem_of_filter.
      destruct (decide (x ∈ es.*1)) as [Hx|]; [|naive_solver]. specialize (Hfrom x Hx). naive_solver. }
  assert (length es.*1 = length es) as Hl by apply length_fmap. destruct rest as [|d rest'] eqn:Hr.
  - rewrite app_nil_r, take_ge; [done|]. rewrite Hl. exact Hb.
  - destruct (proj1 (Hin d) ltac:(left)) as (H1 & H2 & H3). destruct (Hrest d H1 H2 H3) as [Hlen _].
    rewrite take_app_length'; [done|]. by rewrite Hl.
Qed.

Lemma side_add_first distance contact :
  side_kept (distance contact) {[distance contact]} (om_entries (side_add (distance contact) contact om_create).1.1).
Proof.
  unfold side_add. rewrite om_back_last, om_entries_create. cbn [last]. rewrite om_size_length, om_entries_set, om_entries_create.
  cbn. rewrite om_entries_set, om_entries_create. cbn. split; set_solver by lia.
Qed.
End side.

(** * RingContactList *)

Section ring.
  Context {C M : Type} (getPeerDescriptor : C → PeerDescriptor) `{OrderedMap C M}.
  Implicit Types (contact : C) (m : M).

Record RingContactList := MkRing {
  rc_referenceId : Z;
  rc_excludedIds : gset string;
  rc_leftNeighbors : M;
  rc_rightNeighbors : M;
  rc_hasEventListeners : bool
}.
Implicit Types (l : RingContactList).

Definition ringContacts_new (rawReferenceId : bytes) (excludedIds : option (gset string)) (listeners : bool) : RingContactList :=
  MkRing (getRingIdFromRaw rawReferenceId) (default ∅ excludedIds) om_create om_create listeners.

Definition ring_id contact : Z := getRingIdFromPeerDescriptor (getPeerDescriptor contact).

Definition ring_refuses contact l : bool :=
  (ring_id contact =? rc_referenceId l)%Z || bool_decide (toNodeId (getPeerDescriptor contact) ∈ rc_excludedIds l).

Definition ringContacts_add contact l : RingContactList * list (contact_event (C := C)) :=
  if ring_refuses contact l then (l, [])
  else
    let id := ring_id contact in
    let '(lefts, addedLeft, removedLeft) := side_add (getLeftDistance (rc_referenceId l) id) contact (rc_leftNeighbors l) in
    let '(rights, addedRight, removedRight) := side_add (getRightDistance (rc_referenceId l) id) contact (rc_rightNeighbors l) in
    (MkRing (rc_referenceId l) (rc_excludedIds l) lefts rights (rc_hasEventListeners l),
     if rc_hasEventListeners l then
       (if addedLeft || addedRight then [ContactAdded contact] else []) ++
       (if removedLeft || removedRight then [ContactRemoved contact] else [])
     else []).

Definition ringContacts_remove (contact : option C) l : RingContactList * list (contact_event (C := C)) :=
  match contact with
  | None => (l, [])
  | Some contact =>
      let id := ring_id contact in
      let '(lefts, removedLeft) := om_eraseElementByKey (getLeftDistance (rc_referenceId l) id) (rc_leftNeighbors l) in
      let '(rights, removedRight) := om_eraseElementByKey (getRightDistance (rc_referenceId l) id) (rc_rightNeighbors l) in
      (MkRing (rc_referenceId l) (rc_excludedIds l) lefts rights (rc_hasEventListeners l),
       if rc_hasEventListeners l && (removedLeft || removedRight) then [ContactRemoved contact] else [])
  end.

Definition ring_getContact (peerDescriptor : PeerDescriptor) l : option C :=
  let id := getRingIdFromPeerDescriptor peerDescriptor in
  match om_getElementByKey (getLeftDistance (rc_referenceId l) id) (rc_leftNeighbors l) with
  | Some contact => Some contact
  | None => om_getElementByKey (getRightDistance (rc_referenceId l) id) (rc_rightNeighbors l)
  end.

Definition ring_closest (limitPerSide : option nat) l : list C * list C :=
  let side m := match limitPerSide with None => (om_entries m).*2 | Some limit => take limit (om_entries m).*2 end in
  (side (rc_leftNeighbors l), side (rc_rightNeighbors l)).

Definition ring_all l : list C := (om_entries (rc_leftNeighbors l)).*2 ++ (om_entries (rc_rightNeighbors l)).*2.

Fixpoint ring_adds (contacts : list C) l : RingContactList :=
  match contacts with [] => l | contact :: contacts => ring_adds contacts (ringContacts_add contact l).1 end.

(** ** What an instance always is *)

Record ring_ok l : Prop := {
  ring_left : side_ok (λ c, getLeftDistance (rc_referenceId l) (ring_id c)) (λ c, ring_refuses c l = false) (om_entries (rc_leftNeighbors l));
  ring_right : side_ok (λ c, getRightDistance (rc_referenceId l) (ring_id c)) (λ c, ring_refuses c l = false) (om_entries (rc_rightNeighbors l))
}.

Lemma ring_contacts_new_ok raw excluded listeners : ring_ok (ringContacts_new raw excluded listeners).
Proof using Type.
  split; cbn; rewrite om_entries_create; (split; cbn; [constructor|lia|intros k c Hin; by apply not_elem_of_nil in Hin]).
Qed.

Lemma ring_add_sides contact l :
  ring_refuses contact l = false →
  (ringContacts_add contact l).1 =
    MkRing (rc_referenceId l) (rc_excludedIds l)
      (side_add (getLeftDistance (rc_referenceId l) (ring_id contact)) contact (rc_leftNeighbors l)).1.1
      (side_add (getRightDistance (rc_referenceId l) (ring_id contact)) contact (rc_rightNeighbors l)).1.1 (rc_hasEventListeners l).
Proof using Type.
  unfold ringContacts_add. intros ->. by destruct (side_add (getLeftDistance _ _) _ _) as [[? ?] ?], (side_add (getRightDistance _ _) _ _) as [[? ?] ?].
Qed.

Lemma ring_add_refused contact l : ring_refuses contact l = true → ringContacts_add contact l = (l, []).
Proof using Type. unfold ringContacts_add. by intros ->. Qed.

Lemma ring_contacts_add_ok contact l :
  ring_ok l → ring_ok (ringContacts_add contact l).1 ∧ rc_referenceId (ringContacts_add contact l).1 = rc_referenceId l ∧
  rc_excludedIds (ringContacts_add contact l).1 = rc_excludedIds l.
Proof using Type.
  intros [Hl Hr]. destruct (ring_refuses contact l) eqn:Href; [by rewrite ring_add_refused|]. rewrite ring_add_sides by done.
  split_and!; [|done..]. split; [exact (side_add_ok _ _ contact _ Hl Href)|exact (side_add_ok _ _ contact _ Hr Href)].
Qed.

Lemma side_erase_ok distance admitted k m :
  side_ok distance admitted (om_entries m) → side_ok distance admitted (om_entries (om_eraseElementByKey k m).1).
Proof using Type.
  clear getPeerDescriptor. intros [Hs Hb Hk]. destruct (om_entries_erase k m) as [-> _]. unfold map_delete. split.
  - by apply StronglySorted_fmap_filter.
  - etrans; [|exact Hb]. apply sublist_length, sublist_filter.
  - intros k' c [_ Hin]%list_elem_of_filter. by apply Hk.
Qed.

Lemma ring_contacts_remove_ok (contact : option C) l :
  ring_ok l → ring_ok (ringContacts_remove contact l).1 ∧ rc_referenceId (ringContacts_remove contact l).1 = rc_referenceId l ∧
  rc_excludedIds (ringContacts_remove contact l).1 = rc_excludedIds l.
Proof using Type.
  intros [Hl Hr]. destruct contact as [contact|]; [|done]. unfold ringContacts_remove.
  pose proof (side_erase_ok _ _ (getLeftDistance (rc_referenceId l) (ring_id contact)) _ Hl) as Hl'.
  pose proof (side_erase_ok _ _ (getRightDistance (rc_referenceId l) (ring_id contact)) _ Hr) as Hr'.
  destruct (om_eraseElementByKey (getLeftDistance _ _) _) as [lefts bl], (om_eraseElementByKey (getRightDistance _ _) _) as [rights br].
  split_and!; [by split|done..].
Qed.

Lemma entries_of (m : M) c : c ∈ (om_entries m).*2 ↔ ∃ k, (k, c) ∈ om_entries m.
Proof using Type.
  rewrite list_elem_of_fmap. split; [intros ([k c'] & -> & Hin); eauto|]. intros [k Hin]. by exists (k, c).
Qed.

Lemma side_add_entries k (contact : C) (m : M) c : c ∈ (om_entries (side_add k contact m).1.1).*2 → c = contact ∨ c ∈ (om_entries m).*2.
Proof using Type.
  clear getPeerDescriptor. unfold side_add. set (inserted := match om_back m with None => true | Some _ => _ end).
  destruct inserted; [|by right]. rewrite om_size_length, om_entries_set.
  assert (∀ k', (k', c) ∈ ordered_insert k contact (om_entries m) → c = contact ∨ c ∈ (om_entries m).*2) as Hin.
  { intros k' [[= _ ->]|?]%ordered_insert_elem; [by left|right; apply entries_of; eauto]. }
  destruct (_ <? _)%nat; cbn [fst]; intros [k' Hk']%entries_of; rewrite ?om_entries_eraseLast, om_entries_set in Hk'; [|by eapply Hin].
  apply (Hin k'). destruct (decide (ordered_insert k contact (om_entries m) = [])) as [E|Hne]; [rewrite E in Hk'; by apply not_elem_of_nil in Hk'|].
  rewrite (app_removelast_last (0%Z, contact) Hne). apply elem_of_app. by left.
Qed.

Lemma ring_add_all contact l c : c ∈ ring_all (ringContacts_add contact l).1 → c = contact ∨ c ∈ ring_all l.
Proof using Type.
  destruct (ring_refuses contact l) eqn:Hr; [rewrite ring_add_refused by done; by right|]. rewrite ring_add_sides by done.
  unfold ring_all. cbn [rc_leftNeighbors rc_rightNeighbors]. rewrite !elem_of_app. intros [Hc|Hc]; apply side_add_entries in Hc; tauto.
Qed.

Lemma ring_remove_all (contact : option C) l c : c ∈ ring_all (ringContacts_remove contact l).1 → c ∈ ring_all l.
Proof using Type.
  destruct contact as [contact|]; [|done]. unfold ringContacts_remove, ring_all.
  assert (∀ k (m : M), c ∈ (om_entries (om_eraseElementByKey k m).1).*2 → c ∈ (om_entries m).*2) as Herase.
  { intros k m [k' Hk']%entries_of. rewrite (proj1 (om_entries_erase k m)) in Hk'. apply list_elem_of_filter in Hk' as [_ Hk'].
    apply entries_of. eauto. }
  pose proof (Herase (getLeftDistance (rc_referenceId l) (ring_id contact)) (rc_leftNeighbors l)) as Hl.
  pose proof (Herase (getRightDistance (rc_referenceId l) (ring_id contact)) (rc_rightNeighbors l)) as Hr.
  destruct (om_eraseElementByKey (getLeftDistance _ _) _) as [lefts bl], (om_eraseElementByKey (getRightDistance _ _) _) as [rights br].
  cbn [fst rc_leftNeighbors rc_rightNeighbors] in *. rewrite !elem_of_app. tauto.
Qed.

Lemma ring_adds_all contacts l c : c ∈ ring_all (ring_adds contacts l) → c ∈ contacts ∨ c ∈ ring_all l.
Proof using Type.
  revert l. induction contacts as [|c' contacts IH]; intros l; [by right|]. cbn [ring_adds].
  intros [Hc|Hc]%IH; [left; by apply list_elem_of_further|]. apply ring_add_all in Hc as [->|Hc]; [left; apply list_elem_of_here|by right].
Qed.

(** The contacts of a list are none it refuses. *)
Lemma ring_all_admitted l c : ring_ok l → c ∈ ring_all l → ring_refuses c l = false.
Proof using Type. intros [Hl Hr] [[k Hk]%entries_of|[k Hk]%entries_of]%elem_of_app; [by destruct (so_keyed _ _ _ Hl _ _ Hk)|by destruct (so_keyed _ _ _ Hr _ _ Hk)]. Qed.

Lemma ring_adds_ok contacts l : ring_ok l → ring_ok (ring_adds contacts l) ∧ rc_referenceId (ring_adds contacts l) = rc_referenceId l ∧
  rc_excludedIds (ring_adds contacts l) = rc_excludedIds l.
Proof using Type.
  revert l. induction contacts as [|c contacts IH]; intros l Hok; [done|]. cbn. destruct (ring_contacts_add_ok c l Hok) as (Hok' & Hr & He).
  destruct (IH _ Hok') as (? & -> & ->). done.
Qed.

(** ** What is kept of many contacts *)

Lemma ring_adds_kept contacts l fl fr sl sr :
  let left c := getLeftDistance (rc_referenceId l) (ring_id c) in
  let right c := getRightDistance (rc_referenceId l) (ring_id c) in
  ring_ok l → (∀ c, c ∈ contacts → ring_refuses c l = false) →
  side_kept fl sl (om_entries (rc_leftNeighbors l)) → side_kept fr sr (om_entries (rc_rightNeighbors l)) →
  side_kept fl (list_to_set (left <$> contacts) ∪ sl) (om_entries (rc_leftNeighbors (ring_adds contacts l))) ∧
  side_kept fr (list_to_set (right <$> contacts) ∪ sr) (om_entries (rc_rightNeighbors (ring_adds contacts l))).
Proof using Type.
  intros left right. subst left right. revert l sl sr. induction contacts as [|c contacts IH]; intros l sl sr Hok Hadm Hl Hr.
  { cbn. by rewrite !(left_id_L ∅ (∪)). }
  destruct (ring_contacts_add_ok c l Hok) as (Hok' & Href & Hex). pose proof Hok as [Hlo Hro].
  pose proof (side_add_kept _ _ _ _ c _ Hlo Hl) as Hl'. pose proof (side_add_kept _ _ _ _ c _ Hro Hr) as Hr'. cbn beta in Hl', Hr'.
  assert (rc_leftNeighbors (ringContacts_add c l).1 = (side_add (getLeftDistance (rc_referenceId l) (ring_id c)) c (rc_leftNeighbors l)).1.1 ∧
          rc_rightNeighbors (ringContacts_add c l).1 = (side_add (getRightDistance (rc_referenceId l) (ring_id c)) c (rc_rightNeighbors l)).1.1) as [El Er].
  { by rewrite ring_add_sides by (apply Hadm; left). }
  rewrite <-El in Hl'. rewrite <-Er in Hr'. cbn [ring_adds].
  assert (∀ c', c' ∈ contacts → ring_refuses c' (ringContacts_add c l).1 = false) as Hadm'.
  { intros c' Hc'. unfold ring_refuses. rewrite Href, Hex. apply Hadm. by right. }
  destruct (IH _ _ _ Hok' Hadm' Hl' Hr') as [IHl IHr].
  rewrite Href in IHl, IHr. rewrite !fmap_cons, !list_to_set_cons.
  rewrite (assoc_L (∪)), (comm_L (∪) (list_to_set _)) in IHl. rewrite (assoc_L (∪)), (comm_L (∪) (list_to_set _)) in IHr. done.
Qed.

(** What a list to which contacts are added keeps on a side: not the closest of all, but the closest of those that are not
    farther than the first one. *)
Lemma ring_keeps_the_closest raw excluded listeners first contacts :
  let l := ringContacts_new raw excluded listeners in
  let left c := getLeftDistance (rc_referenceId l) (ring_id c) in
  let right c := getRightDistance (rc_referenceId l) (ring_id c) in
  (∀ c, c ∈ first :: contacts → ring_refuses c l = false) →
  let l' := ring_adds (first :: contacts) l in
  (om_entries (rc_leftNeighbors l')).*1 = closest_up_to (left first) (list_to_set (left <$> first :: contacts)) ∧
  (om_entries (rc_rightNeighbors l')).*1 = closest_up_to (right first) (list_to_set (right <$> first :: contacts)).
Proof using Type.
  intros l left right Hadm l'. pose proof (ring_contacts_new_ok raw excluded listeners) as Hok. fold l in Hok.
  destruct (ring_contacts_add_ok first l Hok) as (Hok1 & Href & Hex).
  assert (rc_leftNeighbors (ringContacts_add first l).1 = (side_add (left first) first om_create).1.1 ∧
          rc_rightNeighbors (ringContacts_add first l).1 = (side_add (right first) first om_create).1.1) as [El Er].
  { by rewrite ring_add_sides by (apply Hadm; left). }
  destruct (ring_adds_kept contacts (ringContacts_add first l).1 (left first) (right first) {[left first]} {[right first]} Hok1) as [Hl Hr].
  - intros c Hc. unfold ring_refuses. rewrite Href, Hex. apply Hadm. by apply list_elem_of_further.
  - rewrite El. apply (side_add_first left).
  - rewrite Er. apply (side_add_first right).
  - rewrite Href in Hl, Hr. destruct (ring_adds_ok (first :: contacts) l Hok) as ([Hokl Hokr] & _ & _). fold l' in Hokl, Hokr.
    change (ring_adds contacts (ringContacts_add first l).1) with l' in Hl, Hr. rewrite !fmap_cons, !list_to_set_cons.
    rewrite (comm_L (∪)) in Hl. rewrite (comm_L (∪)) in Hr. split; eapply side_kept_reference; eauto.
Qed.
End ring.

Module RingWitness.

Definition node (region : Z) (unique : bytes) : PeerDescriptor :=
  MkPeerDescriptor (replicate 13 0%Z ++ unique) (Some region) (Some 16909060%Z).
Definition local : PeerDescriptor := node 50 [0; 0; 0; 0; 0; 0; 0]%Z.

Definition ring_of (peers : list PeerDescriptor) : RingContactList :=
  ring_adds (M := list (Z * PeerDescriptor)) id peers (ringContacts_new (getRingIdRawFromPeerDescriptor local) None true).

(** A contact farther than the only one is refused, though there is room for four more. *)
Example second_contact_is_refused :
  let near := node 49 [0; 0; 0; 0; 0; 0; 1]%Z in
  let far := node 48 [0; 0; 0; 0; 0; 0; 1]%Z in
  (ring_closest None (ring_of [near; far])).1 = [near] ∧ (ring_closest None (ring_of [far; near])).1 = [near; far].
Proof. split; vm_compute; reflexivity. Qed.

(** Two nodes behind one address whose ids differ in their last bits are one contact. *)
Example neighbours_share_a_ring_id :
  let a := node 100 [1; 2; 3; 4; 5; 6; 7]%Z in
  let b := node 100 [1; 2; 3; 4; 9; 9; 9]%Z in
  toNodeId a ≠ toNodeId b ∧ getRingIdFromPeerDescriptor a = getRingIdFromPeerDescriptor b ∧
  ring_all (ring_of [a; b]) = [a; a].
Proof. split_and!; [vm_compute; discriminate|vm_compute; reflexivity..]. Qed.

End RingWitness.
