(* ===== verification/Connections.v ===== *)
(** The connections of a node (packages/dht/src/connection/): [ConnectionManager] with its endpoints, [OutputBuffer],
    [PendingConnection] and [ManagedConnection] as it uses them, [ConnectionLockStates] and [ConnectionLockRpcLocal],
    [getOfferer] of helpers/offering.ts, and [DuplicateDetector] of dht/routing/.

    What happens to the manager is an event with its time; what it does to others is the output of the event.  A peer
    descriptor is the node id in it.  Connectors open sockets and shake hands; here a connection is a number, new for each
    [PendingConnection], and its handshake, data and end are events. *)

From S2P Require Import Prelude.
From S2P Require Import Js.
From S2P Require Import JsMap.
From S2P Require Import Contacts.

Set Default Proof Using "Type".

(** * ConnectionLockStates *)

Notation lock_map := (gmap string (gset string)).

Record ConnectionLockStates := MkLocks {
  lk_localLocks : lock_map;
  lk_remoteLocks : lock_map;
  lk_weakLocks : lock_map;
  lk_remotePrivateConnections : gset string
}.

Section locks.
Implicit Types (id lockId : string) (locks : ConnectionLockStates) (m : lock_map).

(** [addLocalLocked], [addRemoteLocked] and [addWeakLocked] on their map *)
Definition add_lock id lockId m : lock_map := <[id := {[lockId]} ∪ default ∅ (m !! id)]> m.

(** [removeLocalLocked], [removeRemoteLocked] and [removeWeakLocked] on their map *)
Definition remove_lock id lockId m : lock_map :=
  match m !! id with
  | None => m
  | Some ids => if decide (size (ids ∖ {[lockId]}) = 0) then delete id m else <[id := ids ∖ {[lockId]}]> m
  end.

Definition locks_new : ConnectionLockStates := MkLocks ∅ ∅ ∅ ∅.

Definition addLocalLocked id lockId locks : ConnectionLockStates :=
  MkLocks (add_lock id lockId (lk_localLocks locks)) (lk_remoteLocks locks) (lk_weakLocks locks) (lk_remotePrivateConnections locks).
Definition addRemoteLocked id lockId locks : ConnectionLockStates :=
  MkLocks (lk_localLocks locks) (add_lock id lockId (lk_remoteLocks locks)) (lk_weakLocks locks) (lk_remotePrivateConnections locks).
Definition addWeakLocked id lockId locks : ConnectionLockStates :=
  MkLocks (lk_localLocks locks) (lk_remoteLocks locks) (add_lock id lockId (lk_weakLocks locks)) (lk_remotePrivateConnections locks).
Definition removeLocalLocked id lockId locks : ConnectionLockStates :=
  MkLocks (remove_lock id lockId (lk_localLocks locks)) (lk_remoteLocks locks) (lk_weakLocks locks) (lk_remotePrivateConnections locks).
Definition removeRemoteLocked id lockId locks : ConnectionLockStates :=
  MkLocks (lk_localLocks locks) (remove_lock id lockId (lk_remoteLocks locks)) (lk_weakLocks locks) (lk_remotePrivateConnections locks).
Definition removeWeakLocked id lockId locks : ConnectionLockStates :=
  MkLocks (lk_localLocks locks) (lk_remoteLocks locks) (remove_lock id lockId (lk_weakLocks locks)) (lk_remotePrivateConnections locks).

Definition is_locked_in id (lockId : option string) m : bool :=
  match lockId with
  | None => bool_decide (is_Some (m !! id))
  | Some lockId => bool_decide (lockId ∈ default ∅ (m !! id))
  end.

Definition isLocalLocked id (lockId : option string) locks : bool := is_locked_in id lockId (lk_localLocks locks).
Definition isRemoteLocked id (lockId : option string) locks : bool := is_locked_in id lockId (lk_remoteLocks locks).
Definition isWeakLocked id locks : bool := is_locked_in id None (lk_weakLocks locks).

Definition isLocked id locks : bool := isLocalLocked id None locks || isRemoteLocked id None locks || isWeakLocked id locks.

Definition addPrivate id locks : ConnectionLockStates :=
  MkLocks (lk_localLocks locks) (lk_remoteLocks locks) (lk_weakLocks locks) ({[id]} ∪ lk_remotePrivateConnections locks).
Definition removePrivate id locks : ConnectionLockStates :=
  MkLocks (lk_localLocks locks) (lk_remoteLocks locks) (lk_weakLocks locks) (lk_remotePrivateConnections locks ∖ {[id]}).
Definition isPrivate id locks : bool := bool_decide (id ∈ lk_remotePrivateConnections locks).

Definition clearAllLocks id locks : ConnectionLockStates :=
  MkLocks (delete id (lk_localLocks locks)) (delete id (lk_remoteLocks locks)) (delete id (lk_weakLocks locks))
    (lk_remotePrivateConnections locks).
Definition locks_clear locks : ConnectionLockStates := MkLocks ∅ ∅ ∅ (lk_remotePrivateConnections locks).
End locks.

(** * DuplicateDetector *)

Record DuplicateDetector := MkDetector { dd_values : gset string; dd_queue : list string; dd_maxItemCount : nat }.

Definition dht_detector_new (maxItemCount : nat) : DuplicateDetector := MkDetector ∅ [] maxItemCount.

Definition isMostLikelyDuplicate (value : string) (d : DuplicateDetector) : bool := bool_decide (value ∈ dd_values d).

Definition detector_add (value : string) (d : DuplicateDetector) : DuplicateDetector :=
  let values := {[value]} ∪ dd_values d in
  match dd_queue d ++ [value] with
  | removed :: queue =>
      if (dd_maxItemCount d <? S (length queue))%nat then MkDetector (values ∖ {[removed]}) queue (dd_maxItemCount d)
      else MkDetector values (removed :: queue) (dd_maxItemCount d)
  | [] => d
  end.

Definition detector_clear (d : DuplicateDetector) : DuplicateDetector := MkDetector ∅ [] (dd_maxItemCount d).

(** * ConnectionManager *)

(** [getOfferer]; [offering_hash] stands for the first four bytes of the MD5 digest. *)
Definition offered_by_local (offering_hash : string → Z) (localNodeId remoteNodeId : string) : bool :=
  (offering_hash (localNodeId +:+ "," +:+ remoteNodeId) <? offering_hash (remoteNodeId +:+ "," +:+ localNodeId))%Z.

(** A [PendingConnection], which becomes a [ManagedConnection] when its handshake is completed *)
Inductive conn_state :=
  | Pending (replacedAsDuplicate stopped : bool)
  | Managed (replacedAsDuplicate disconnected : bool) (lastUsedTimestamp : Z).

Record conn_object := MkConn { co_peer : string; co_state : conn_state }.

(** The buffer is the one of the endpoint: an [OutputBuffer] moves with it when the connection is replaced. *)
Inductive endpoint :=
  | Connecting (connection : nat) (buffer : list string)
  | Connected (connection : nat).

Inductive manager_state := Idle | Running | Stopping | Stopped.
#[export] Instance manager_state_eq_dec : EqDecision manager_state.
Proof. solve_decision. Defined.

Record ConnectionManager := MkManager {
  cm_state : manager_state;
  cm_endpoints : jsmap string endpoint;
  cm_connections : gmap nat conn_object;       (** those the manager listens to *)
  cm_locks : ConnectionLockStates;
  cm_detector : DuplicateDetector;
  cm_privateClientMode : bool
}.

Inductive rpc_request :=
  | LockRequest (lockId : string) | UnlockRequest (lockId : string) | SetPrivateRequest (isPrivate : bool)
  | GracefulDisconnect (leaving : bool).

Inductive cm_output :=
  | Transmit (nodeId : string) (connection : nat) (message : string)
  | BufferResolved (nodeId : string) (messages : list string)   (** the promises of the sends that were buffered *)
  | BufferRejected (nodeId : string) (messages : list string)
  | EmitConnected (nodeId : string)
  | EmitDisconnected (nodeId : string) (gracefulLeave : bool)
  | EmitMessage (nodeId messageId : string)
  | InternalMessage (nodeId messageId : string)
  | RequestTo (nodeId : string) (request : rpc_request)
  | CloseSocket (connection : nat) (gracefulLeave : bool).

Record cm_options := MkCmOptions {
  mo_localNodeId : string;
  mo_isOwnWebsocketServer : string → bool;
  mo_maxConnections : nat;
  mo_allowIncomingPrivateConnections : bool
}.

Definition INTERNAL_SERVICE_ID : string := "system/connection-manager".
Definition LAST_USED_LIMIT : Z := 20000.

Section manager.
  Context (offering_hash : string → Z) (distance : string → string → Z) `{SortedIndex} (opts : cm_options).
  Implicit Types (s : ConnectionManager) (nodeId lockId : string) (c : nat).

Definition manager_new : ConnectionManager := MkManager Idle [] ∅ locks_new (dht_detector_new 10000) false.

Definition with_endpoints (endpoints : jsmap string endpoint) (connections : gmap nat conn_object) s : ConnectionManager :=
  MkManager (cm_state s) endpoints connections (cm_locks s) (cm_detector s) (cm_privateClientMode s).
Definition with_locks (locks : ConnectionLockStates) s : ConnectionManager :=
  MkManager (cm_state s) (cm_endpoints s) (cm_connections s) locks (cm_detector s) (cm_privateClientMode s).
Definition with_state (state : manager_state) s : ConnectionManager :=
  MkManager state (cm_endpoints s) (cm_connections s) (cm_locks s) (cm_detector s) (cm_privateClientMode s).

Definition is_local nodeId : bool := bool_decide (nodeId = mo_localNodeId opts).
Definition isConnectionToSelf nodeId : bool := is_local nodeId || mo_isOwnWebsocketServer opts nodeId.

(** ** Endpoints *)

Definition connection_of (e : endpoint) : nat := match e with Connecting c _ => c | Connected c => c end.

(** [replaceAsDuplicate] of the connection of an endpoint *)
Definition replaceAsDuplicate (o : conn_object) : conn_object :=
  MkConn (co_peer o) match co_state o with
                     | Pending _ stopped => Pending true stopped
                     | Managed _ disconnected t => Managed true disconnected t
                     end.

Definition acceptNewConnection nodeId c s : ConnectionManager * bool :=
  match map_get nodeId (cm_endpoints s) with
  | Some e =>
      if negb (offered_by_local offering_hash (mo_localNodeId opts) nodeId) then
        let buffer := match e with Connecting _ buffer => buffer | Connected _ => [] end in
        (with_endpoints (map_set nodeId (Connecting c buffer) (cm_endpoints s))
           (alter replaceAsDuplicate (connection_of e) (cm_connections s)) s, true)
      else (s, false)
  | None => (with_endpoints (map_set nodeId (Connecting c []) (cm_endpoints s)) (cm_connections s) s, true)
  end.

(** The manager listens to a connection that it accepts. *)
Definition onNewConnection nodeId c s : ConnectionManager * bool :=
  if decide (cm_state s = Stopped) then (s, false)
  else
    let '(s, accepted) := acceptNewConnection nodeId c s in
    if accepted then (with_endpoints (cm_endpoints s) (<[c := MkConn nodeId (Pending false false)]> (cm_connections s)) s, true)
    else (s, false).

Definition onDisconnected nodeId (gracefulLeave : bool) s : ConnectionManager * list cm_output :=
  match map_get nodeId (cm_endpoints s) with
  | None => (s, [])
  | Some e =>
      (with_endpoints (map_delete nodeId (cm_endpoints s)) (cm_connections s) (with_locks (clearAllLocks nodeId (cm_locks s)) s),
       match e with Connecting _ buffer => [BufferRejected nodeId buffer] | Connected _ => [] end ++
       [EmitDisconnected nodeId gracefulLeave])
  end.

Definition no_endpoint : js_error := MkError None "Cannot read properties of undefined".

Definition onConnected (now : Z) nodeId c s : ConnectionManager * outcome js_error (list cm_output) :=
  match map_get nodeId (cm_endpoints s) with
  | Some (Connecting c' buffer) =>
      let connections := alter (λ o, match co_state o with
                                     | Pending replaced _ => MkConn (co_peer o) (Pending replaced true)
                                     | Managed _ _ _ => o
                                     end) c' (cm_connections s) in
      (with_endpoints (map_set nodeId (Connected c) (cm_endpoints s))
         (<[c := MkConn nodeId (Managed false false now)]> connections) s,
       Return ((Transmit nodeId c <$> buffer) ++ [BufferResolved nodeId buffer] ++
               (if cm_privateClientMode s then [RequestTo nodeId (SetPrivateRequest true)] else []) ++ [EmitConnected nodeId]))
  | _ => (s, Throw no_endpoint)
  end.

(** ** Connections *)

(** [PendingConnection.onHandshakeCompleted] *)
Definition onHandshakeCompleted (now : Z) c s : ConnectionManager * outcome js_error (list cm_output) :=
  match cm_connections s !! c with
  | Some (MkConn nodeId (Pending false _)) => onConnected now nodeId c s
  | _ => (s, Return [])
  end.

(** [PendingConnection.close], by its timeout, the connectors or the manager *)
Definition pending_close c (graceful : bool) s : ConnectionManager * list cm_output :=
  match cm_connections s !! c with
  | Some (MkConn nodeId (Pending replaced false)) =>
      let s := with_endpoints (cm_endpoints s) (<[c := MkConn nodeId (Pending replaced true)]> (cm_connections s)) s in
      if replaced then (s, []) else onDisconnected nodeId graceful s
  | _ => (s, [])
  end.

(** [ManagedConnection.onDisconnected] *)
Definition socket_disconnected c (graceful : bool) s : ConnectionManager * list cm_output :=
  match cm_connections s !! c with
  | Some (MkConn nodeId (Managed replaced false t)) =>
      let s := with_endpoints (cm_endpoints s) (<[c := MkConn nodeId (Managed replaced true t)]> (cm_connections s)) s in
      if replaced then (s, []) else onDisconnected nodeId graceful s
  | _ => (s, [])
  end.

Definition touch (now : Z) (o : conn_object) : conn_object :=
  match co_state o with
  | Managed replaced disconnected _ => MkConn (co_peer o) (Managed replaced disconnected now)
  | _ => o
  end.

(** [close] of the connection of an endpoint *)
Definition close_endpoint (e : endpoint) (graceful : bool) s : ConnectionManager * list cm_output :=
  match e with
  | Connecting c _ => pending_close c graceful s
  | Connected c => (s, [CloseSocket c graceful])
  end.

Definition closeConnection nodeId (graceful : bool) s : ConnectionManager * list cm_output :=
  let s := with_locks (clearAllLocks nodeId (cm_locks s)) s in
  match map_get nodeId (cm_endpoints s) with
  | Some e => close_endpoint e graceful s
  | None => (s, [EmitDisconnected nodeId false])
  end.

(** ** Messages *)

Record send_options := MkSendOptions { sn_connect : bool; sn_sendIfStopped : bool; sn_bufferWhileConnecting : bool }.

Inductive send_result := Sent | Buffered | Dropped.

(** [created] is the connection that the connector facade creates, if it is asked. *)
Definition cm_send (now : Z) nodeId (message : string) (o : send_options) (created : nat) s
    : ConnectionManager * list cm_output * outcome js_error send_result :=
  if (bool_decide (cm_state s = Stopped) || bool_decide (cm_state s = Stopping)) && negb (sn_sendIfStopped o)
  then (s, [], Return Dropped)
  else if isConnectionToSelf nodeId then (s, [], Throw (MkError None "Cannot send to self"))
  else
    let s' := match map_get nodeId (cm_endpoints s) with
              | None => if sn_connect o then Some (onNewConnection nodeId created s).1 else None
              | Some (Connecting _ _) => if sn_connect o then Some s else None
              | Some (Connected _) => Some s
              end in
    match s' with
    | None => (s, [], Throw (MkError None "No connection to target, connect flag is false"))
    | Some s =>
        match map_get nodeId (cm_endpoints s) with
        | None => (s, [], Throw no_endpoint)
        | Some (Connected c) =>
            (with_endpoints (cm_endpoints s) (alter (touch now) c (cm_connections s)) s, [Transmit nodeId c message], Return Sent)
        | Some (Connecting c buffer) =>
            if sn_bufferWhileConnecting o
            then (with_endpoints (map_set nodeId (Connecting c (buffer ++ [message])) (cm_endpoints s)) (cm_connections s) s,
                  [], Return Buffered)
            else (s, [], Return Dropped)
        end
    end.

(** A parsed message; [None] for the id of one that is not an RPC message *)
Record network_message := MkNetMessage { nm_messageId : string; nm_serviceId : string; nm_isRpc : bool }.

Definition handleMessage nodeId (m : network_message) s : ConnectionManager * list cm_output :=
  if negb (nm_isRpc m) then (s, [])
  else if isMostLikelyDuplicate (nm_messageId m) (cm_detector s) then (s, [])
  else
    (MkManager (cm_state s) (cm_endpoints s) (cm_connections s) (cm_locks s) (detector_add (nm_messageId m) (cm_detector s))
       (cm_privateClientMode s),
     if bool_decide (nm_serviceId m = INTERNAL_SERVICE_ID) then [InternalMessage nodeId (nm_messageId m)]
     else [EmitMessage nodeId (nm_messageId m)]).

(** Data on a socket; [None] for what does not parse *)
Definition onData (now : Z) c (m : option network_message) s : ConnectionManager * list cm_output :=
  match cm_connections s !! c with
  | Some (MkConn nodeId (Managed _ false _)) =>
      let s := with_endpoints (cm_endpoints s) (alter (touch now) c (cm_connections s)) s in
      if decide (cm_state s = Stopped) then (s, [])
      else match m with Some m => handleMessage nodeId m s | None => (s, []) end
  | _ => (s, [])
  end.

(** ** Locks *)

Definition lockConnection nodeId lockId s : ConnectionManager * list cm_output :=
  if bool_decide (cm_state s = Stopped) || is_local nodeId then (s, [])
  else (with_locks (addLocalLocked nodeId lockId (cm_locks s)) s, [RequestTo nodeId (LockRequest lockId)]).

Definition unlockConnection nodeId lockId s : ConnectionManager * list cm_output :=
  if bool_decide (cm_state s = Stopped) || is_local nodeId then (s, [])
  else (with_locks (removeLocalLocked nodeId lockId (cm_locks s)) s,
        if map_has nodeId (cm_endpoints s) then [RequestTo nodeId (UnlockRequest lockId)] else []).

Definition weakLockConnection nodeId lockId s : ConnectionManager :=
  if bool_decide (cm_state s = Stopped) || is_local nodeId then s
  else with_locks (addWeakLocked nodeId lockId (cm_locks s)) s.

Definition weakUnlockConnection nodeId lockId s : ConnectionManager :=
  if bool_decide (cm_state s = Stopped) || is_local nodeId then s
  else with_locks (removeWeakLocked nodeId lockId (cm_locks s)) s.

(** [ConnectionLockRpcLocal], with the callbacks of the constructor *)
Definition lockRequest sender lockId s : ConnectionManager * bool :=
  if is_local sender then (s, false) else (with_locks (addRemoteLocked sender lockId (cm_locks s)) s, true).

Definition unlockRequest sender lockId s : ConnectionManager := with_locks (removeRemoteLocked sender lockId (cm_locks s)) s.

Definition gracefulDisconnect sender (leaving : bool) s : ConnectionManager * list cm_output := closeConnection sender leaving s.

Definition setPrivate sender (private : bool) s : ConnectionManager :=
  if negb (mo_allowIncomingPrivateConnections opts) then s
  else with_locks ((if private then addPrivate sender else removePrivate sender) (cm_locks s)) s.

(** ** Private mode *)

Definition connected_nodes s : list string :=
  omap (λ e, match e.2 with
             | Connected c => co_peer <$> cm_connections s !! c
             | Connecting _ _ => None
             end) (cm_endpoints s).

Definition set_private_mode (private : bool) s : ConnectionManager * list cm_output :=
  (MkManager (cm_state s) (cm_endpoints s) (cm_connections s) (cm_locks s) (cm_detector s) private,
   (λ nodeId, RequestTo nodeId (SetPrivateRequest private)) <$> connected_nodes s).

Definition getConnections s : list string := filter (λ nodeId, isPrivate nodeId (cm_locks s) = false) (connected_nodes s).

(** ** Garbage collection *)

(** The connections that may be closed, in the order of the endpoints *)
Definition disposable (now maxIdleTime : Z) s : list string :=
  omap (λ e, match e.2 with
             | Connected c =>
                 match cm_connections s !! c with
                 | Some (MkConn nodeId (Managed _ _ lastUsed)) =>
                     if negb (isLocked nodeId (cm_locks s)) && negb (isPrivate nodeId (cm_locks s)) && (maxIdleTime <? now - lastUsed)%Z
                     then Some nodeId else None
                 | _ => None
                 end
             | Connecting _ _ => None
             end) (cm_endpoints s).

(** The [maxSize] of the list of candidates *)
Definition GC_LIST_SIZE : nat := N.to_nat 100000.

Definition gc_options : SortedContactListOptions := MkSortedOptions (mo_localNodeId opts) false (Some GC_LIST_SIZE) None None.

(** Which connections are closed gracefully.  The notice goes out, and the socket is closed by its other end, or by a
    timeout of two seconds. *)
Definition garbageCollectConnections (maxConnections : nat) (now maxIdleTime : Z) s : outcome js_error (list cm_output) :=
  if (length (cm_endpoints s) <=? maxConnections)%nat then Return []
  else
    (let? r := addContacts id distance (disposable now maxIdleTime s) (sorted_new gc_options) in
     let disconnectables := getFurthestContacts (Some (Z.of_nat (length (cm_endpoints s)) - Z.of_nat maxConnections)%Z) r.1 in
     Return ((λ nodeId, RequestTo nodeId (GracefulDisconnect false)) <$> disconnectables))%eff.

(** ** Start and stop *)

Definition cm_start s : outcome js_error ConnectionManager :=
  if bool_decide (cm_state s = Running) || bool_decide (cm_state s = Stopped) then Throw (MkError None "Cannot start already started module")
  else Return (with_state Running s).

(** What [stop] does at once, for one endpoint after the other *)
Fixpoint stop_endpoints (endpoints : jsmap string endpoint) s : ConnectionManager * list cm_output :=
  match endpoints with
  | [] => (s, [])
  | (nodeId, e) :: endpoints =>
      let '(s, out) := match e with
                       | Connected _ => (s, [RequestTo nodeId (GracefulDisconnect true)])
                       | Connecting c _ => pending_close c true s
                       end in
      let '(s, out') := stop_endpoints endpoints s in (s, out ++ out')
  end.

Definition stop_begin s : ConnectionManager * list cm_output :=
  if bool_decide (cm_state s = Stopped) || bool_decide (cm_state s = Stopping) then (s, [])
  else stop_endpoints (cm_endpoints s) (with_state Stopping s).

Definition stop_end s : ConnectionManager :=
  MkManager Stopped (cm_endpoints s) (cm_connections s) (locks_clear (cm_locks s)) (detector_clear (cm_detector s))
    (cm_privateClientMode s).

(** ** Runs *)

Inductive cm_event :=
  | EStart
  | ESend (nodeId message : string) (options : send_options) (created : nat)
  | ENewConnection (nodeId : string) (c : nat)
  | EHandshakeCompleted (c : nat)
  | EPendingClose (c : nat) (graceful : bool)
  | ESocketDisconnected (c : nat) (graceful : bool)
  | EData (c : nat) (m : option network_message)
  | ELock (nodeId lockId : string) | EUnlock (nodeId lockId : string)
  | EWeakLock (nodeId lockId : string) | EWeakUnlock (nodeId lockId : string)
  | ELockRequest (sender lockId : string) | EUnlockRequest (sender lockId : string)
  | EGracefulDisconnect (sender : string) (leaving : bool)
  | ESetPrivate (sender : string) (private : bool)
  | EPrivateMode (private : bool)
  | EGarbageCollect
  | EStop | EStopped.

(** The state after an event, what it did, and the message that a [send] took upon itself *)
Definition cm_step (now : Z) (ev : cm_event) s : ConnectionManager * list cm_output * list (string * string) :=
  let quiet s := (s, [], []) in
  let plain '(s, out) := (s, out, []) in
  match ev with
  | EStart => quiet match cm_start s with Return s => s | Throw _ => s end
  | ESend nodeId message options created =>
      let '(s, out, r) := cm_send now nodeId message options created s in
      (s, out, match r with Return Sent | Return Buffered => [(nodeId, message)] | _ => [] end)
  | ENewConnection nodeId c => quiet (onNewConnection nodeId c s).1
  | EHandshakeCompleted c =>
      let '(s, r) := onHandshakeCompleted now c s in (s, match r with Return out => out | Throw _ => [] end, [])
  | EPendingClose c graceful => plain (pending_close c graceful s)
  | ESocketDisconnected c graceful => plain (socket_disconnected c graceful s)
  | EData c m => plain (onData now c m s)
  | ELock nodeId lockId => plain (lockConnection nodeId lockId s)
  | EUnlock nodeId lockId => plain (unlockConnection nodeId lockId s)
  | EWeakLock nodeId lockId => quiet (weakLockConnection nodeId lockId s)
  | EWeakUnlock nodeId lockId => quiet (weakUnlockConnection nodeId lockId s)
  | ELockRequest sender lockId => quiet (lockRequest sender lockId s).1
  | EUnlockRequest sender lockId => quiet (unlockRequest sender lockId s)
  | EGracefulDisconnect sender leaving => plain (gracefulDisconnect sender leaving s)
  | ESetPrivate sender private => quiet (setPrivate sender private s)
  | EPrivateMode private => plain (set_private_mode private s)
  | EGarbageCollect =>
      (s, match garbageCollectConnections (mo_maxConnections opts) now LAST_USED_LIMIT s with Return out => out | Throw _ => [] end, [])
  | EStop => plain (stop_begin s)
  | EStopped => quiet (stop_end s)
  end.

Fixpoint cm_run (evs : list (Z * cm_event)) s : ConnectionManager * list cm_output * list (string * string) :=
  match evs with
  | [] => (s, [], [])
  | (now, ev) :: evs =>
      let '(s, out, taken) := cm_step now ev s in
      let '(s, out', taken') := cm_run evs s in (s, out ++ out', taken ++ taken')
  end.
End manager.

(** * Endpoints and connections *)

Lemma omap_keys_sublist {K V} (f : K * V → option K) (m : list (K * V)) :
  (∀ e x, e ∈ m → f e = Some x → x = e.1) → sublist (omap f m) m.*1.
Proof.
  induction m as [|e m IH]; intros Hf; [done|]. cbn. assert (sublist (omap f m) m.*1) as Hs.
  { apply IH. intros e' x He'. apply Hf. by right. }
  destruct (f e) as [x|] eqn:Hx; cbn; [|by constructor]. rewrite (Hf e x (list_elem_of_here _ _) Hx). by constructor.
Qed.

Section views.
  Implicit Types (s : ConnectionManager) (nodeId : string) (c : nat).

(** Which connection speaks for a node, and whether it is connected; and for which node a connection speaks. *)
Definition endpoint_view (e : endpoint) : nat * bool :=
  match e with Connecting c _ => (c, false) | Connected c => (c, true) end.

Definition speaks_for (o : conn_object) : option (string * bool) :=
  match co_state o with
  | Pending false false => Some (co_peer o, false)
  | Managed false false _ => Some (co_peer o, true)
  | _ => None
  end.

Definition view_of s nodeId : option (nat * bool) := endpoint_view <$> map_get nodeId (cm_endpoints s).
Definition speaker s c : option (string * bool) := cm_connections s !! c ≫= speaks_for.

(** Every endpoint has its own connection, every connection that is neither replaced nor closed an endpoint. *)
Definition cm_inv s : Prop := ∀ nodeId c b, view_of s nodeId = Some (c, b) ↔ speaker s c = Some (nodeId, b).

Definition buffer_of nodeId s : list string :=
  match map_get nodeId (cm_endpoints s) with Some (Connecting _ buffer) => buffer | _ => [] end.

(** The messages to a node that are settled: written to a connection, or their promise rejected *)
Definition accounted_by nodeId (o : cm_output) : list string :=
  match o with
  | Transmit p _ m => if decide (p = nodeId) then [m] else []
  | BufferRejected p ms => if decide (p = nodeId) then ms else []
  | _ => []
  end.
Definition accounted nodeId (out : list cm_output) : list string := out ≫= accounted_by nodeId.

Definition taken_for nodeId (taken : list (string * string)) : list string := (filter (λ t, t.1 = nodeId) taken).*2.

(** What an event does right *)
Record step_ok s s' (out : list cm_output) (taken : list (string * string)) : Prop := {
  ok_inv : cm_inv s';
  ok_account : ∀ nodeId, buffer_of nodeId s ++ taken_for nodeId taken = accounted nodeId out ++ buffer_of nodeId s';
  ok_live : ∀ nodeId c m, Transmit nodeId c m ∈ out → speaker s' c = Some (nodeId, true)
}.

Lemma cm_inv_move s s' nodeId new :
  cm_inv s →
  (∀ nodeId', view_of s' nodeId' = if decide (nodeId' = nodeId) then new else view_of s nodeId') →
  (∀ c', speaker s' c' = if decide (fst <$> new = Some c') then (λ v, (nodeId, v.2)) <$> new
                         else if decide (fst <$> view_of s nodeId = Some c') then None else speaker s c') →
  (∀ c b, new = Some (c, b) → speaker s c = None ∨ fst <$> view_of s nodeId = Some c) →
  cm_inv s'.
Proof.
  intros Hinv Hview Hspeak Hnew nodeId' c' b. rewrite Hview, Hspeak.
  destruct (decide (nodeId' = nodeId)) as [->|Hne].
  - destruct new as [[c b']|]; cbn.
    + destruct (decide (Some c = Some c')) as [[= <-]|Hc]; [naive_solver|].
      split; [congruence|]. case_decide; [done|]. intros Hs%Hinv. rewrite Hs in *. cbn in *. congruence.
    + split; [done|]. repeat case_decide; try done. intros Hs%Hinv. rewrite Hs in *. cbn in *. congruence.
  - destruct (decide (fst <$> new = Some c')) as [Hc|Hc].
    + destruct new as [[c b']|]; [|done]. injection Hc as ->. cbn. split; [|congruence]. intros Hs%Hinv.
      destruct (Hnew c' b' eq_refl) as [Hs'|Hs']; [congruence|].
      destruct (view_of s nodeId) as [[c2 b2]|] eqn:Hv; [|done]. injection Hs' as ->. apply Hinv in Hv. congruence.
    + case_decide as Hold; [|apply Hinv]. split; [|done]. intros Hs%Hinv.
      destruct (view_of s nodeId) as [[c2 b2]|] eqn:Hv; [|done]. injection Hold as ->. apply Hinv in Hv. congruence.
Qed.

(** Events that leave endpoints and connections alone *)
Lemma step_ok_quiet s s' out :
  cm_inv s → cm_endpoints s' = cm_endpoints s → (∀ c, speaker s' c = speaker s c) →
  Forall (λ o, match o with Transmit _ _ _ | BufferRejected _ _ => False | _ => True end) out →
  step_ok s s' out [].
Proof.
  intros Hinv He Hs Hout. split.
  - intros nodeId c b. unfold view_of. rewrite He, Hs. apply Hinv.
  - intros nodeId. unfold buffer_of. rewrite He. cbn. rewrite app_nil_r.
    assert (accounted nodeId out = []) as ->; [|done]. unfold accounted.
    induction Hout as [|o out Ho Hout IH]; [done|]. rewrite bind_cons, IH, app_nil_r. by destruct o.
  - intros nodeId c m Hin. by apply (proj1 (Forall_forall _ _) Hout) in Hin.
Qed.

Lemma view_set s nodeId e conns nodeId' :
  view_of (with_endpoints (map_set nodeId e (cm_endpoints s)) conns s) nodeId' =
  if decide (nodeId' = nodeId) then Some (endpoint_view e) else view_of s nodeId'.
Proof. unfold view_of. cbn. rewrite map_get_set. destruct (decide (nodeId = nodeId')) as [->|]; [by rewrite decide_True|by rewrite decide_False]. Qed.

Lemma cm_view_delete s nodeId conns nodeId' :
  view_of (with_endpoints (map_delete nodeId (cm_endpoints s)) conns s) nodeId' =
  if decide (nodeId' = nodeId) then None else view_of s nodeId'.
Proof. unfold view_of. cbn. rewrite map_get_delete. destruct (decide (nodeId = nodeId')) as [->|]; [by rewrite decide_True|by rewrite decide_False]. Qed.
Lemma accounted_transmits nodeId p c ms : accounted nodeId (Transmit p c <$> ms) = if decide (p = nodeId) then ms else [].
Proof.
  unfold accounted. induction ms as [|m ms IH]; [by case_decide|]. rewrite fmap_cons, bind_cons, IH. cbn. by case_decide.
Qed.

Lemma accounted_app nodeId out out' : accounted nodeId (out ++ out') = accounted nodeId out ++ accounted nodeId out'.
Proof. unfold accounted. by rewrite bind_app. Qed.

(** The end of a connection that speaks for its node *)
Lemma drop_ok s p c b o g (s1 := with_endpoints (cm_endpoints s) (<[c := o]> (cm_connections s)) s) :
  cm_inv s → speaker s c = Some (p, b) → speaks_for o = None →
  step_ok s (onDisconnected p g s1).1 (onDisconnected p g s1).2 [].
Proof.
  intros Hinv Hc Ho. pose proof Hc as Hv%Hinv. unfold onDisconnected. cbn [s1 cm_endpoints with_endpoints].
  pose proof Hv as He. unfold view_of in He. destruct (map_get p (cm_endpoints s)) as [e|] eqn:Hg; [|done].
  assert (endpoint_view e = (c, b)) as Hev by (by injection He). clear He. split; cbn [fst snd].
  - apply (cm_inv_move s _ p None Hinv).
    + intros p'. unfold view_of. cbn. rewrite map_get_delete.
      destruct (decide (p = p')) as [->|]; [by rewrite decide_True|by rewrite decide_False].
    + intros c'. rewrite Hv. cbn. destruct (decide (None = Some c')); [done|]. unfold speaker. cbn.
      destruct (decide (Some c = Some c')) as [[= <-]|Hne]; [by rewrite lookup_insert_eq|].
      rewrite lookup_insert_ne; congruence.
    + done.
  - intros p'. unfold buffer_of. cbn. rewrite map_get_delete, app_nil_r.
    destruct (decide (p = p')) as [<-|Hne].
    + rewrite Hg, app_nil_r. destruct e; cbn; [rewrite decide_True by done; by rewrite app_nil_r|done].
    + replace (accounted p' _) with (@nil string); [done|]. destruct e; cbn; [by rewrite decide_False|done].
  - intros p' c' m. destruct e; cbn; rewrite !elem_of_cons, elem_of_nil; naive_solver.
Qed.

(** The end of a handshake *)
Lemma connected_ok now s p c :
  cm_inv s → speaker s c = Some (p, false) →
  ∃ s' out, onConnected now p c s = (s', Return out) ∧ step_ok s s' out [].
Proof.
  intros Hinv Hc. pose proof Hc as Hv%Hinv. unfold onConnected.
  pose proof Hv as He. unfold view_of in He. destruct (map_get p (cm_endpoints s)) as [e|] eqn:Hg; [|done].
  destruct e as [c' buffer|c']; injection He as ->; [|done]. eexists _, _. split; [done|]. split; cbn [fst snd].
  - apply (cm_inv_move s _ p (Some (c, true)) Hinv).
    + intros p'. apply view_set.
    + intros c'. rewrite Hv. unfold speaker. cbn. destruct (decide (Some c = Some c')) as [[= <-]|Hne]; [by rewrite lookup_insert_eq|].
      rewrite lookup_insert_ne by congruence. by rewrite lookup_alter_ne by congruence.
    + intros c' b [= <- <-]. right. by rewrite Hv.
  - intros p'. unfold buffer_of. cbn. rewrite map_get_set, !accounted_app, accounted_transmits, app_nil_r.
    replace (accounted p' (_ :: _)) with (@nil string) by by destruct (cm_privateClientMode s). rewrite app_nil_r.
    destruct (decide (p = p')) as [<-|Hne]; cbn; [by rewrite Hg, app_nil_r|done].
  - intros p' c' m Hin.
    assert (Transmit p' c' m ∈ Transmit p c <$> buffer) as Hin'.
    { destruct (cm_privateClientMode s); rewrite !elem_of_app in Hin; set_solver. }
    apply list_elem_of_fmap in Hin' as (m' & [= -> -> ->] & _). unfold speaker. cbn. by rewrite lookup_insert_eq.
Qed.
Lemma replaced_is_silent o : speaks_for (replaceAsDuplicate o) = None.
Proof. by destruct o as [p [r st|r d t]]. Qed.

Lemma touch_speaks now o : speaks_for (touch now o) = speaks_for o.
Proof. by destruct o as [p [r st|r d t]]. Qed.

Lemma touch_speaker now c s c' :
  speaker (with_endpoints (cm_endpoints s) (alter (touch now) c (cm_connections s)) s) c' = speaker s c'.
Proof.
  unfold speaker. cbn. destruct (decide (c = c')) as [<-|Hne]; [|by rewrite lookup_alter_ne].
  rewrite lookup_alter_eq. destruct (cm_connections s !! c); [apply touch_speaks|done].
Qed.

(** A new connection *)
Lemma accept_ok offering_hash opts s p c :
  cm_inv s → cm_connections s !! c = None →
  let '(s', accepted) := onNewConnection offering_hash opts p c s in
  step_ok s s' [] [] ∧ (accepted = true → ∃ buffer, map_get p (cm_endpoints s') = Some (Connecting c buffer)) ∧
  (accepted = false → s' = s).
Proof.
  intros Hinv Hfresh. unfold onNewConnection. destruct (decide _); [by split; [apply step_ok_quiet|]|].
  assert (∀ buffer conns, (∀ c', speaker (with_endpoints (cm_endpoints s) (<[c := MkConn p (Pending false false)]> conns) s) c' =
      if decide (c = c') then Some (p, false) else if decide (fst <$> view_of s p = Some c') then None else speaker s c') →
    buffer_of p s = buffer →
    step_ok s (with_endpoints (map_set p (Connecting c buffer) (cm_endpoints s)) (<[c := MkConn p (Pending false false)]> conns) s) [] []) as Hset.
  { intros buffer conns Hs Hb. split.
    - apply (cm_inv_move s _ p (Some (c, false)) Hinv).
      + intros p'. apply view_set.
      + intros c'. specialize (Hs c'). unfold speaker in *. cbn in *. rewrite Hs.
        destruct (decide (c = c')) as [->|Hne]; [by rewrite decide_True|]. by rewrite (decide_False (P := Some c = Some c')) by congruence.
      + intros c' b [= <- <-]. left. unfold speaker. by rewrite Hfresh.
    - intros p'. unfold buffer_of at 2. cbn. rewrite map_get_set, app_nil_r. destruct (decide (p = p')) as [<-|]; [done|].
      unfold buffer_of. done.
    - intros p' c' m Hin. by apply not_elem_of_nil in Hin. }
  unfold acceptNewConnection. destruct (map_get p (cm_endpoints s)) as [e|] eqn:He.
  - destruct (negb _); [|by split; [apply step_ok_quiet|]]. split; [|split; [|done]].
    + apply Hset; [|unfold buffer_of; rewrite He; by destruct e].
      intros c'. unfold view_of. rewrite He. cbn. unfold speaker. cbn.
      destruct (decide (c = c')) as [<-|Hne]; [by rewrite lookup_insert_eq|]. rewrite lookup_insert_ne by done.
      assert ((endpoint_view e).1 = connection_of e) as Hev by by destruct e. rewrite Hev.
      destruct (decide (Some (connection_of e) = Some c')) as [[= <-]|Hne']; [|by rewrite lookup_alter_ne by congruence].
      rewrite lookup_alter_eq. destruct (cm_connections s !! connection_of e); [apply replaced_is_silent|done].
    + intros _. eexists. cbn. by rewrite map_get_set, decide_True.
  - split; [|split; [|done]].
    + apply Hset; [|unfold buffer_of; by rewrite He]. intros c'. unfold view_of. rewrite He. cbn.
      rewrite (decide_False (P := None = Some c')) by done. unfold speaker. cbn.
      destruct (decide (c = c')) as [<-|Hne]; [by rewrite lookup_insert_eq|by rewrite lookup_insert_ne].
    + intros _. eexists. cbn. by rewrite map_get_set, decide_True.
Qed.

(** Sending *)
Lemma cm_step_ok_trans s s1 s2 out taken : step_ok s s1 [] [] → step_ok s1 s2 out taken → step_ok s s2 out taken.
Proof.
  intros [_ Ha1 _] [Hi2 Ha2 Hl2]. split; [done| |done]. intros p. specialize (Ha1 p). cbn in Ha1. rewrite app_nil_r in Ha1.
  rewrite Ha1. apply Ha2.
Qed.

Lemma taken_for_one p p' m : taken_for p [(p', m)] = if decide (p' = p) then [m] else [].
Proof. unfold taken_for. rewrite filter_cons. cbn. by case_decide. Qed.

Lemma send_ok offering_hash opts now p m o c s :
  cm_inv s → cm_connections s !! c = None →
  let '(s', out, r) := cm_send offering_hash opts now p m o c s in
  step_ok s s' out match r with Return Sent | Return Buffered => [(p, m)] | _ => [] end.
Proof.
  intros Hinv Hfresh. unfold cm_send. destruct (_ && _); [by apply step_ok_quiet|].
  destruct (isConnectionToSelf _ _); [by apply step_ok_quiet|].
  assert (∀ s1, step_ok s s1 [] [] →
    let '(s', out, r) := match map_get p (cm_endpoints s1) with
        | None => (s1, [], Throw no_endpoint)
        | Some (Connected c) =>
            (with_endpoints (cm_endpoints s1) (alter (touch now) c (cm_connections s1)) s1, [Transmit p c m], Return Sent)
        | Some (Connecting c buffer) =>
            if sn_bufferWhileConnecting o
            then (with_endpoints (map_set p (Connecting c (buffer ++ [m])) (cm_endpoints s1)) (cm_connections s1) s1,
                  [], Return Buffered)
            else (s1, [], Return Dropped)
        end in
    step_ok s s' out match r with Return Sent | Return Buffered => [(p, m)] | _ => [] end) as Hsend.
  { intros s1 Hok. pose proof Hok as [Hinv1 _ _]. destruct (map_get p (cm_endpoints s1)) as [[c1 buffer|c1]|] eqn:He; [| |done].
    - destruct (sn_bufferWhileConnecting o); [|done]. apply (cm_step_ok_trans s s1); [done|]. split.
      + intros p' c' b. rewrite view_set. unfold speaker. cbn. rewrite <-(Hinv1 p' c' b). unfold view_of.
        destruct (decide (p' = p)) as [->|]; [by rewrite He|done].
      + intros p'. rewrite taken_for_one. unfold buffer_of. cbn. rewrite map_get_set.
        destruct (decide (p = p')) as [<-|]; [by rewrite He|by rewrite app_nil_r].
      + intros p' c' m' Hin. by apply not_elem_of_nil in Hin.
    - apply (cm_step_ok_trans s s1); [done|]. split.
      + intros p' c' b. rewrite touch_speaker. apply Hinv1.
      + intros p'. rewrite taken_for_one. unfold buffer_of. cbn. case_decide as Hp; cbn; [|by rewrite app_nil_r].
        subst p'. by rewrite He.
      + intros p' c' m' [= -> -> ->]%list_elem_of_singleton. rewrite touch_speaker. apply Hinv1. unfold view_of. by rewrite He. }
  destruct (map_get p (cm_endpoints s)) as [[c1 buffer|c1]|] eqn:He.
  - destruct (sn_connect o); [|by apply step_ok_quiet]. apply Hsend. by apply step_ok_quiet.
  - apply Hsend. by apply step_ok_quiet.
  - destruct (sn_connect o); [|by apply step_ok_quiet]. apply Hsend.
    pose proof (accept_ok offering_hash opts s p c Hinv Hfresh) as Hacc. destruct (onNewConnection _ _ _ _ _) as [s1 acc]. by apply Hacc.
Qed.
(** Closing *)
Definition silent (out : list cm_output) : Prop := ∀ p c m, Transmit p c m ∉ out.

Lemma step_ok_app s s1 s2 out1 out2 :
  step_ok s s1 out1 [] → silent out1 → step_ok s1 s2 out2 [] → step_ok s s2 (out1 ++ out2) [].
Proof.
  intros [_ Ha1 _] Hsil [Hi2 Ha2 Hl2]. split; [done| |].
  - intros p. specialize (Ha1 p). specialize (Ha2 p). cbn in *. rewrite app_nil_r in *. by rewrite Ha1, Ha2, accounted_app, app_assoc.
  - intros p c m [Hin|Hin]%elem_of_app; [by apply Hsil in Hin|by eapply Hl2].
Qed.

Lemma onDisconnected_silent p g s : silent (onDisconnected p g s).2.
Proof.
  intros p' c m. unfold onDisconnected. destruct (map_get p _) as [[c1 b|c1]|]; cbn; rewrite ?elem_of_cons, ?elem_of_nil; naive_solver.
Qed.

Lemma pending_close_ok c g s : cm_inv s → step_ok s (pending_close c g s).1 (pending_close c g s).2 [] ∧ silent (pending_close c g s).2.
Proof.
  intros Hinv. unfold pending_close.
  assert (step_ok s s [] [] ∧ silent []) as Hnone by (split; [by apply step_ok_quiet|intros ??? Hin; by apply not_elem_of_nil in Hin]).
  destruct (cm_connections s !! c) as [[p [replaced [|]|? ? ?]]|] eqn:Hc; try apply Hnone. destruct replaced.
  - split; [|apply Hnone]. apply step_ok_quiet; [done|done| |done]. intros c'. unfold speaker. cbn.
    destruct (decide (c = c')) as [<-|]; [by rewrite lookup_insert_eq, Hc|by rewrite lookup_insert_ne].
  - split; [|apply onDisconnected_silent]. apply (drop_ok s p c false); [done| |done]. unfold speaker. by rewrite Hc.
Qed.

Lemma socket_disconnected_ok c g s : cm_inv s → step_ok s (socket_disconnected c g s).1 (socket_disconnected c g s).2 [].
Proof.
  intros Hinv. unfold socket_disconnected.
  assert (step_ok s s [] []) as Hnone by by apply step_ok_quiet.
  destruct (cm_connections s !! c) as [[p [? ?|replaced [|] t]]|] eqn:Hc; try apply Hnone. destruct replaced.
  - apply step_ok_quiet; [done|done| |done]. intros c'. unfold speaker. cbn.
    destruct (decide (c = c')) as [<-|]; [by rewrite lookup_insert_eq, Hc|by rewrite lookup_insert_ne].
  - apply (drop_ok s p c true); [done| |done]. unfold speaker. by rewrite Hc.
Qed.

Lemma close_endpoint_ok e g s : cm_inv s → step_ok s (close_endpoint e g s).1 (close_endpoint e g s).2 [].
Proof. intros Hinv. destruct e as [c b|c]; [by apply pending_close_ok|]. apply step_ok_quiet; [done..|]. by repeat constructor. Qed.

Lemma stop_endpoints_ok es s : cm_inv s → step_ok s (stop_endpoints es s).1 (stop_endpoints es s).2 [].
Proof.
  revert s. induction es as [|[p e] es IH]; intros s Hinv; [by apply step_ok_quiet|]. cbn [stop_endpoints].
  set (one := match e with Connecting _ _ => _ | Connected _ => _ end).
  assert (step_ok s one.1 one.2 [] ∧ silent one.2) as [Hok Hsil].
  { unfold one. destruct e as [c b|c]; [by apply pending_close_ok|]. split.
    - apply step_ok_quiet; [done..|]. by repeat constructor.
    - intros ??? Hin%list_elem_of_singleton. done. }
  destruct one as [s1 out1]. cbn in Hok, Hsil. pose proof Hok as [Hinv1 _ _]. specialize (IH s1 Hinv1).
  destruct (stop_endpoints es s1) as [s2 out2]. cbn in *. by eapply step_ok_app.
Qed.
End views.

(** * The life of a message

    What the connectors promise: a connection they announce or create is a new one, and after a pending connection was
    closed its handshake is not completed any more (they detach the handshaker). *)

Section messages.
  Context (offering_hash : string → Z) (distance : string → string → Z) `{SortedIndex} (opts : cm_options).
  Implicit Types (s : ConnectionManager) (nodeId lockId : string) (c : nat).

Notation step_ := (cm_step offering_hash distance opts).
Notation run_ := (cm_run offering_hash distance opts).

Definition legal (ev : cm_event) s : Prop :=
  match ev with
  | ESend _ _ _ c | ENewConnection _ c => cm_connections s !! c = None
  | EHandshakeCompleted c => ∀ nodeId replaced, cm_connections s !! c ≠ Some (MkConn nodeId (Pending replaced true))
  | _ => True
  end.

Fixpoint legal_run (evs : list (Z * cm_event)) s : Prop :=
  match evs with
  | [] => True
  | (now, ev) :: evs => legal ev s ∧ legal_run evs (step_ now ev s).1.1
  end.

Lemma step_is_ok now ev s :
  cm_inv s → legal ev s → let '(s', out, taken) := step_ now ev s in step_ok s s' out taken.
Proof using Type.
  intros Hinv Hlegal.
  assert (∀ s', cm_endpoints s' = cm_endpoints s → cm_connections s' = cm_connections s → step_ok s s' [] []) as Hquiet.
  { intros s' He Hc. apply step_ok_quiet; [done|done| |done]. intros c. unfold speaker. by rewrite Hc. }
  assert (∀ s' r, cm_endpoints s' = cm_endpoints s → cm_connections s' = cm_connections s →
    Forall (λ o, match o with Transmit _ _ _ | BufferRejected _ _ => False | _ => True end) r → step_ok s s' r []) as Hquiet'.
  { intros s' r He Hc Hr. apply step_ok_quiet; [done|done| |done]. intros c. unfold speaker. by rewrite Hc. }
  destruct ev; cbn [cm_step].
  - unfold cm_start. destruct (_ || _); by apply Hquiet.
  - pose proof (send_ok offering_hash opts now nodeId message options created s Hinv Hlegal) as Hs. by destruct (cm_send _ _ _ _ _ _ _ _) as [[s' out] r].
  - pose proof (accept_ok offering_hash opts s nodeId c Hinv Hlegal) as Ha. destruct (onNewConnection _ _ _ _ _) as [s' acc]. by apply Ha.
  - unfold onHandshakeCompleted. destruct (cm_connections s !! c) as [[p [[] st|? ? ?]]|] eqn:Hc; try by apply Hquiet.
    destruct st; [by apply Hlegal in Hc|].
    destruct (connected_ok now s p c Hinv) as (s' & out & -> & Hok); [|done]. unfold speaker. by rewrite Hc.
  - destruct (pending_close_ok c graceful s Hinv) as [Hok _]. by destruct (pending_close c graceful s).
  - pose proof (socket_disconnected_ok c graceful s Hinv) as Hok. by destruct (socket_disconnected c graceful s).
  - unfold onData. destruct (cm_connections s !! c) as [[p [? ?|r [] t]]|]; try by apply Hquiet.
    set (s1 := with_endpoints _ _ s). assert (step_ok s s1 [] []) as Hs1.
    { apply step_ok_quiet; [done|done| |done]. intros c'. apply touch_speaker. }
    destruct (decide _); [done|]. destruct m as [m|]; [|done]. unfold handleMessage.
    destruct (nm_isRpc m); [|done]. cbn [negb]. destruct (isMostLikelyDuplicate _ _); [done|].
    apply step_ok_quiet; [done|done|intros c'; apply touch_speaker|]. destruct (bool_decide _); by repeat constructor.
  - unfold lockConnection. destruct (_ || _); [by apply Hquiet|]. apply Hquiet'; [done..|]. by repeat constructor.
  - unfold unlockConnection. destruct (_ || _); [by apply Hquiet|]. apply Hquiet'; [done..|]. destruct (map_has _ _); by repeat constructor.
  - unfold weakLockConnection. destruct (_ || _); by apply Hquiet.
  - unfold weakUnlockConnection. destruct (_ || _); by apply Hquiet.
  - unfold lockRequest. destruct (is_local _ _); by apply Hquiet.
  - by apply Hquiet.
  - unfold gracefulDisconnect, closeConnection. cbn [cm_endpoints with_locks].
    destruct (map_get sender _) as [e|]; [|apply Hquiet'; [done..|by repeat constructor]].
    set (s1 := with_locks _ s). assert (cm_inv s1) as Hinv1 by done.
    pose proof (close_endpoint_ok e leaving s1 Hinv1) as Hok. destruct (close_endpoint e leaving s1). cbn in *.
    eapply cm_step_ok_trans; [|done]. by apply Hquiet.
  - unfold setPrivate. destruct (negb _); [by apply Hquiet|]. by destruct private; apply Hquiet.
  - apply Hquiet'; [done..|]. apply Forall_fmap, Forall_true. done.
  - unfold garbageCollectConnections. destruct (_ <=? _); [by apply Hquiet|].
    destruct (addContacts _ _ _ _) as [r|]; [|by apply Hquiet]. cbn [outcome_bind]. apply Hquiet'; [done..|]. apply Forall_fmap, Forall_true. done.
  - unfold stop_begin. destruct (_ || _); [by apply Hquiet|].
    set (s1 := with_state Stopping s). assert (cm_inv s1) as Hinv1 by done.
    pose proof (stop_endpoints_ok (cm_endpoints s) s1 Hinv1) as Hok. destruct (stop_endpoints _ s1). cbn in *.
    eapply cm_step_ok_trans; [|done]. by apply Hquiet.
  - by apply Hquiet.
Qed.

Lemma manager_new_inv : cm_inv manager_new.
Proof using Type. intros p c b. unfold view_of, speaker. cbn. by rewrite lookup_empty. Qed.

Lemma run_inv evs s : cm_inv s → legal_run evs s → cm_inv (run_ evs s).1.1.
Proof using Type.
  revert s. induction evs as [|[now ev] evs IH]; intros s Hinv Hlegal; [done|]. destruct Hlegal as [Hl Hlegal].
  pose proof (step_is_ok now ev s Hinv Hl) as Hok. cbn [cm_run]. destruct (step_ now ev s) as [[s1 out1] taken1]. destruct Hok as [Hinv1 _ _].
  specialize (IH s1 Hinv1 Hlegal). by destruct (run_ evs s1) as [[s2 out2] taken2].
Qed.

Lemma run_accounts evs s p :
  cm_inv s → legal_run evs s →
  let '(s', out, taken) := run_ evs s in buffer_of p s ++ taken_for p taken = accounted p out ++ buffer_of p s'.
Proof using Type.
  revert s. induction evs as [|[now ev] evs IH]; intros s Hinv Hlegal; [cbn; by rewrite app_nil_r|]. destruct Hlegal as [Hl Hlegal].
  pose proof (step_is_ok now ev s Hinv Hl) as Hok. cbn [cm_run]. destruct (step_ now ev s) as [[s1 out1] taken1]. destruct Hok as [Hinv1 Ha _].
  specialize (IH s1 Hinv1 Hlegal). destruct (run_ evs s1) as [[s2 out2] taken2].
  unfold taken_for in *. rewrite filter_app, fmap_app, accounted_app, app_assoc, Ha, <-!app_assoc. by f_equal.
Qed.
Lemma cm_legal_run_app evs evs' s : legal_run (evs ++ evs') s ↔ legal_run evs s ∧ legal_run evs' (run_ evs s).1.1.
Proof using Type.
  revert s. induction evs as [|[now ev] evs IH]; intros s; cbn [app legal_run cm_run]; [cbn; tauto|].
  rewrite IH. destruct (step_ now ev s) as [[s1 out1] taken1]. cbn. destruct (run_ evs s1) as [[s2 out2] taken2]. cbn. tauto.
Qed.

(** C24: no message that the node took upon itself to send is lost, sent twice or overtaken: the messages taken for a node are,
    in their order, those written to its connections or given up with a rejected promise, and then those still in the
    buffer of the connection being opened; and what is written goes to the one open connection of the node, however
    connections are opened, replaced as duplicates, closed and collected. *)
Theorem manager_accounts_for_messages evs now ev nodeId :
  legal_run (evs ++ [(now, ev)]) manager_new →
  let '(s, out, taken) := run_ evs manager_new in
  let '(s', out', taken') := step_ now ev s in
  taken_for nodeId (taken ++ taken') = accounted nodeId (out ++ out') ++ buffer_of nodeId s' ∧
  (∀ c m, Transmit nodeId c m ∈ out' → map_get nodeId (cm_endpoints s') = Some (Connected c)).
Proof using Type.
  intros [Hlegal [Hl _]]%cm_legal_run_app. pose proof (run_inv evs _ manager_new_inv Hlegal) as Hinv.
  pose proof (run_accounts evs _ nodeId manager_new_inv Hlegal) as Hacc. destruct (run_ evs manager_new) as [[s out] taken].
  pose proof (step_is_ok now ev s Hinv Hl) as Hok. destruct (step_ now ev s) as [[s' out'] taken']. destruct Hok as [Hinv' Ha Hlive]. split.
  - cbn in Hacc. unfold taken_for in *. rewrite filter_app, fmap_app, accounted_app, Hacc, <-!app_assoc. f_equal. apply Ha.
  - intros c m Hin%Hlive%Hinv'. unfold view_of in Hin. destruct (map_get nodeId _) as [[c' b|c']|]; [done| |done].
    by injection Hin as ->.
Qed.

(** ** Garbage collection *)

Definition cm_keys s : Prop := NoDup (cm_endpoints s).*1.

Lemma keys_delete nodeId (m : jsmap string endpoint) : NoDup m.*1 → NoDup (map_delete nodeId m).*1.
Proof using Type. intros Hnd. rewrite map_delete_keys. by apply NoDup_filter. Qed.

Lemma onDisconnected_keys p g s : cm_keys s → cm_keys (onDisconnected p g s).1.
Proof using Type. intros Hk. unfold onDisconnected. destruct (map_get _ _); [by apply keys_delete|done]. Qed.

Lemma pending_close_keys c g s : cm_keys s → cm_keys (pending_close c g s).1.
Proof using Type.
  intros Hk. unfold pending_close. destruct (cm_connections s !! c) as [[p [[] [|]|? ? ?]]|]; try done. by apply onDisconnected_keys.
Qed.

Lemma stop_endpoints_keys es s : cm_keys s → cm_keys (stop_endpoints es s).1.
Proof using Type.
  revert s. induction es as [|[p e] es IH]; intros s Hk; [done|]. cbn [stop_endpoints].
  assert (cm_keys (match e with Connecting c _ => pending_close c true s | Connected _ => (s, [RequestTo p (GracefulDisconnect true)]) end).1) as H1.
  { destruct e; [by apply pending_close_keys|done]. }
  destruct (match e with Connecting _ _ => _ | Connected _ => _ end) as [s1 o1]. specialize (IH s1 H1). by destruct (stop_endpoints es s1).
Qed.

Lemma accept_keys p c s : cm_keys s → cm_keys (onNewConnection offering_hash opts p c s).1.
Proof using Type.
  intros Hk. unfold onNewConnection, acceptNewConnection. destruct (decide _); [done|].
  destruct (map_get _ _); [destruct (negb _); [|done]|]; by apply map_set_nodup.
Qed.

Lemma step_keys now ev s : cm_keys s → cm_keys (step_ now ev s).1.1.
Proof using Type.
  intros Hk. destruct ev; cbn [cm_step].
  - unfold cm_start. by destruct (_ || _).
  - unfold cm_send. destruct (_ && _); [done|]. destruct (isConnectionToSelf _ _); [done|].
    assert (cm_keys (onNewConnection offering_hash opts nodeId created s).1) as Hk1 by by apply accept_keys.
    assert (∀ s1, cm_keys s1 →
      cm_keys (match map_get nodeId (cm_endpoints s1) with
               | None => (s1, [], Throw no_endpoint)
               | Some (Connected c) =>
                   (with_endpoints (cm_endpoints s1) (alter (touch now) c (cm_connections s1)) s1, [Transmit nodeId c message], Return Sent)
               | Some (Connecting c buffer) =>
                   if sn_bufferWhileConnecting options
                   then (with_endpoints (map_set nodeId (Connecting c (buffer ++ [message])) (cm_endpoints s1)) (cm_connections s1) s1,
                         [], Return Buffered)
                   else (s1, [], Return Dropped)
               end).1.1) as Hrest.
    { intros s1 Hs1. destruct (map_get nodeId (cm_endpoints s1)) as [[|]|]; [|done..].
      destruct (sn_bufferWhileConnecting _); [by apply map_set_nodup|done]. }
    assert (∀ r : ConnectionManager * list cm_output * outcome js_error send_result, cm_keys r.1.1 →
      cm_keys (let '(s', out, r') := r in (s', out, match r' with Return Sent | Return Buffered => [(nodeId, message)] | _ => [] end)).1.1) as Hlet
      by (by intros [[? ?] ?]).
    apply Hlet. destruct (map_get nodeId (cm_endpoints s)) as [[|]|]; [destruct (sn_connect options)| |destruct (sn_connect options)];
      try done; by apply Hrest.
  - by apply accept_keys.
  - unfold onHandshakeCompleted, onConnected. destruct (cm_connections s !! c) as [[p [[] st|? ? ?]]|]; try done.
    destruct (map_get p _) as [[]|]; try done. by apply map_set_nodup.
  - pose proof (pending_close_keys c graceful s Hk). by destruct (pending_close c graceful s).
  - unfold socket_disconnected. destruct (cm_connections s !! c) as [[p [? ?|[] [] t]]|]; try done.
    set (s1 := with_endpoints _ _ s). pose proof (onDisconnected_keys p graceful s1 Hk). by destruct (onDisconnected p graceful s1).
  - unfold onData, handleMessage. destruct (cm_connections s !! c) as [[p [? ?|r [] t]]|]; try done.
    destruct (decide _); [done|]. destruct m; [|done]. destruct (negb _); [done|]. by destruct (isMostLikelyDuplicate _ _).
  - unfold lockConnection. by destruct (_ || _).
  - unfold unlockConnection. by destruct (_ || _).
  - unfold weakLockConnection. by destruct (_ || _).
  - unfold weakUnlockConnection. by destruct (_ || _).
  - unfold lockRequest. by destruct (is_local _ _).
  - done.
  - unfold gracefulDisconnect, closeConnection. destruct (map_get _ _) as [e|]; [|done]. set (s1 := with_locks _ s).
    destruct e as [c b|c]; [|done]. cbn [close_endpoint]. pose proof (pending_close_keys c leaving s1 Hk). by destruct (pending_close c leaving s1).
  - unfold setPrivate. by destruct (negb _).
  - done.
  - done.
  - unfold stop_begin. destruct (_ || _); [done|]. set (s1 := with_state _ s).
    pose proof (stop_endpoints_keys (cm_endpoints s) s1 Hk). by destruct (stop_endpoints _ s1).
  - done.
Qed.

Lemma run_keys evs s : cm_keys s → cm_keys (run_ evs s).1.1.
Proof using Type.
  revert s. induction evs as [|[now ev] evs IH]; intros s Hk; [done|]. cbn [cm_run].
  pose proof (step_keys now ev s Hk) as Hk1. destruct (step_ now ev s) as [[s1 o1] t1]. specialize (IH s1 Hk1). by destruct (run_ evs s1) as [[? ?] ?].
Qed.

Lemma disposable_spec s now idle nodeId :
  cm_inv s → cm_keys s → nodeId ∈ disposable now idle s →
  isLocked nodeId (cm_locks s) = false ∧ isPrivate nodeId (cm_locks s) = false ∧
  ∃ c t, map_get nodeId (cm_endpoints s) = Some (Connected c) ∧
    cm_connections s !! c = Some (MkConn nodeId (Managed false false t)) ∧ (idle < now - t)%Z.
Proof using Type.
  intros Hinv Hk (e & He & Hsome)%list_elem_of_omap. destruct e as [p [c b|c]]; cbn in Hsome; [done|].
  apply map_get_Some in He; [|done]. assert (speaker s c = Some (p, true)) as Hs.
  { apply Hinv. unfold view_of. by rewrite He. }
  unfold speaker in Hs. destruct (cm_connections s !! c) as [[p' [[] []|[] [] t]]|] eqn:Hc; try done. injection Hs as ->.
  destruct (negb (isLocked p _) && _ && _) eqn:Hcond; [|done]. injection Hsome as ->.
  apply andb_true_iff in Hcond as [[Hl%negb_true_iff Hp%negb_true_iff]%andb_true_iff Ht%Z.ltb_lt].
  split_and!; [done|done|]. by exists c, t.
Qed.

Lemma disposable_nodup s now idle : cm_inv s → cm_keys s → NoDup (disposable now idle s).
Proof using Type.
  intros Hinv Hk. eapply sublist_NoDup; [exact Hk|]. apply omap_keys_sublist. intros [p e] x He Hx.
  cbn in Hx. destruct e as [|c]; [done|].
  apply map_get_Some in He; [|done]. assert (speaker s c = Some (p, true)) as Hs by (apply Hinv; unfold view_of; by rewrite He).
  unfold speaker in Hs. destruct (cm_connections s !! c) as [[p' [[] []|[] [] t]]|]; try done. injection Hs as ->.
  destruct (_ && _); [|done]. by injection Hx as ->.
Qed.

(** Garbage collection is fair: it closes nothing while there are not too many connections, and then at most as many as
    are too many; only connections that neither side has locked, that are not private and were idle for the given time;
    and of those the ones furthest from the node, all of them when there are too few. *)
Theorem garbage_collection_is_fair evs now maxConnections idle :
  legal_run evs manager_new →
  let s := (run_ evs manager_new).1.1 in
  let candidates := filter (λ p, p ≠ mo_localNodeId opts) (disposable now idle s) in
  ∃ ps, garbageCollectConnections distance opts maxConnections now idle s = Return ((λ p, RequestTo p (GracefulDisconnect false)) <$> ps) ∧
    NoDup ps ∧ length ps ≤ length (cm_endpoints s) - maxConnections ∧
    (∀ p, p ∈ ps → isLocked p (cm_locks s) = false ∧ isPrivate p (cm_locks s) = false ∧
       ∃ c t, map_get p (cm_endpoints s) = Some (Connected c) ∧
         cm_connections s !! c = Some (MkConn p (Managed false false t)) ∧ (idle < now - t)%Z) ∧
    (length candidates ≤ GC_LIST_SIZE →
       length ps = (length (cm_endpoints s) - maxConnections) `min` length candidates ∧
       ∀ p q, p ∈ ps → q ∈ candidates → q ∉ ps → (distance (mo_localNodeId opts) q ≤ distance (mo_localNodeId opts) p)%Z).
Proof using Type.
  intros Hlegal s candidates. pose proof (run_inv evs _ manager_new_inv Hlegal) as Hinv. pose proof (run_keys evs manager_new (NoDup_nil_2)) as Hk.
  fold s in Hinv, Hk. clearbody s. set (ds := disposable now idle s) in *.
  pose proof (disposable_nodup s now idle Hinv Hk : NoDup ds) as Hds.
  assert (∀ p, refuses distance (gc_options opts) p = bool_decide (mo_localNodeId opts = p)) as Href.
  { intros p. unfold refuses. cbn. rewrite bool_decide_eq_false_2 by set_solver. cbn. by rewrite orb_false_r. }
  unfold garbageCollectConnections. fold ds. destruct (Nat.leb_spec (length (cm_endpoints s)) maxConnections) as [Hfew|Hmany].
  { exists []. split_and!; [done|constructor|cbn; lia|by intros p Hp%not_elem_of_nil|]. intros _. split; [cbn; lia|]. by intros p q Hp%not_elem_of_nil. }
  destruct (addContacts_spec id distance ds (sorted_new (gc_options opts)) ∅ (sorted_new_inv id distance _)) as (l & evs' & -> & Hl & Ho & Hkept & Hget).
  { by intros [=]. }
  { split; cbn; intros p Hp; [by apply not_elem_of_nil in Hp|set_solver]. }
  cbn [outcome_bind fst]. rewrite (right_id_L ∅ (∪)) in Hkept.
  assert (closest_of id distance (gc_options opts) ds (getClosestContacts None l)) as (Hsort & Hnd & Hsub & Hlen & Hfar).
  { apply closest_contacts_of; [done|done|done|]. intros p c Hc. by destruct (Hget p c Hc). }
  rewrite list_fmap_id in *. set (cl := getClosestContacts None l) in *.
  unfold getFurthestContacts. fold cl. cbn [limited]. set (k := Z.to_nat _). eexists. split; [done|].
  assert (k = length (cm_endpoints s) - maxConnections) as Hk' by lia.
  assert (∀ p, p ∈ take k (reverse cl) → p ∈ cl) as Htake.
  { intros p Hp%subseteq_take. by apply elem_of_reverse. }
  split_and!.
  - eapply sublist_NoDup; [|apply sublist_take]. by rewrite reverse_Permutation.
  - rewrite length_take. lia.
  - intros p Hp%Htake. apply (disposable_spec s now idle p Hinv Hk). by apply Hsub.
  - intros Hsmall.
    assert (filter (λ p, refuses distance (gc_options opts) p = false) ds = candidates) as Hcand.
    { unfold candidates. apply list_filter_iff. intros p. rewrite Href, bool_decide_eq_false. split; intros Hne Heq; by apply Hne. }
    assert (NoDup candidates) as Hcnd by by apply NoDup_filter.
    cbn [so_maxSize gc_options] in Hlen. rewrite Hcand, (size_list_to_set _ Hcnd), (Nat.min_r _ _ Hsmall) in Hlen. clear Hsmall.
    assert (cl ≡ₚ candidates) as Hperm.
    { apply submseteq_length_Permutation; [|by rewrite Hlen]. apply NoDup_submseteq; [done|]. intros p Hp. destruct (Hsub p Hp) as [Hd Hr].
      rewrite <-Hcand. by apply list_elem_of_filter. }
    split; [rewrite length_take, length_reverse, Hperm, Hk'; reflexivity|]. intros p q Hp Hq Hnq.
    assert (StronglySorted (λ a b, distance (mo_localNodeId opts) b ≤ distance (mo_localNodeId opts) a)%Z (reverse cl)) as Hrev.
    { eapply StronglySorted_reverse; [|exact Hsort]. by intros x y. }
    eapply (StronglySorted_take_rest _ _ _ q p) in Hrev as [_ ?]; [done| |done|done]. rewrite elem_of_reverse. by rewrite Hperm.
Qed.
End messages.

Module ConnectionsWitness.

Definition opts : cm_options := MkCmOptions "me" (λ _, false) 1 true.
Definition hash (idPair : string) : Z := Z.of_nat (String.length idPair).
Definition dist (a b : string) : Z := Z.of_nat (String.length b).
Definition by_default : send_options := MkSendOptions true false true.

(** Two messages are buffered, the handshake ends, a third message follows; another node's connection is lost. *)
Definition conversation : list (Z * cm_event) :=
  [(0, EStart); (1, ESend "b" "m1" by_default 0); (2, ESend "b" "m2" by_default 1); (3, ESend "c" "x" by_default 1);
   (4, EPendingClose 1 false); (5, EHandshakeCompleted 0)]%Z.

Lemma conversation_legal : legal_run hash dist opts (conversation ++ [(6%Z, ESend "b" "m3" by_default 2)]) manager_new.
Proof.
  repeat (split; [first [exact I | reflexivity | intros ?? Hc; vm_compute in Hc; discriminate Hc]|]). exact I.
Qed.

Example conversation_out :
  (cm_run hash dist opts conversation manager_new).1.2 =
  [BufferRejected "c" ["x"]; EmitDisconnected "c" false; Transmit "b" 0 "m1"; Transmit "b" 0 "m2"; BufferResolved "b" ["m1"; "m2"]; EmitConnected "b"].
Proof. vm_compute. reflexivity. Qed.

Lemma manager_accounts_for_messages_witness :
  legal_run hash dist opts (conversation ++ [(6%Z, ESend "b" "m3" by_default 2)]) manager_new ∧
  let '(s, out, taken) := cm_run hash dist opts conversation manager_new in
  let '(s', out', taken') := cm_step hash dist opts 6 (ESend "b" "m3" by_default 2) s in
  taken_for "b" (taken ++ taken') = accounted "b" (out ++ out') ++ buffer_of "b" s' ∧
  (∀ c m, Transmit "b" c m ∈ out' → map_get "b" (cm_endpoints s') = Some (Connected c)).
Proof.
  split; [exact conversation_legal|]. apply (manager_accounts_for_messages hash dist opts conversation 6 _ "b"). exact conversation_legal.
Defined.

(** Four connections, of which one is locked by its other end and one was used lately *)
Definition crowd : list (Z * cm_event) :=
  [(0, EStart); (0, ENewConnection "b" 0); (0, ENewConnection "cc" 1); (0, ENewConnection "ddd" 2); (0, ENewConnection "eeee" 3);
   (1, EHandshakeCompleted 0); (1, EHandshakeCompleted 1); (1, EHandshakeCompleted 2); (1, EHandshakeCompleted 3);
   (2, ELockRequest "ddd" "lock"); (9000, EData 3 None)]%Z.

Lemma crowd_legal : legal_run hash dist opts crowd manager_new.
Proof.
  repeat (split; [first [exact I | reflexivity | intros ?? Hc; vm_compute in Hc; discriminate Hc]|]). exact I.
Qed.

Lemma garbage_collection_is_fair_witness :
  legal_run hash dist opts crowd manager_new ∧
  let s := (cm_run hash dist opts crowd manager_new).1.1 in
  let candidates := filter (λ p, p ≠ "me") (disposable 25000 20000 s) in
  ∃ ps, garbageCollectConnections dist opts 3 25000 20000 s = Return ((λ p, RequestTo p (GracefulDisconnect false)) <$> ps) ∧
    NoDup ps ∧ length ps ≤ length (cm_endpoints s) - 3 ∧
    (∀ p, p ∈ ps → isLocked p (cm_locks s) = false ∧ isPrivate p (cm_locks s) = false ∧
       ∃ c t, map_get p (cm_endpoints s) = Some (Connected c) ∧
         cm_connections s !! c = Some (MkConn p (Managed false false t)) ∧ (20000 < 25000 - t)%Z) ∧
    (length candidates ≤ GC_LIST_SIZE →
       length ps = (length (cm_endpoints s) - 3) `min` length candidates ∧
       ∀ p q, p ∈ ps → q ∈ candidates → q ∉ ps → (dist "me" q ≤ dist "me" p)%Z).
Proof.
  split; [exact crowd_legal|]. apply (garbage_collection_is_fair hash dist opts crowd 25000 3 20000). exact crowd_legal.
Defined.

Example crowd_collected :
  garbageCollectConnections dist opts 3 25000 20000 (cm_run hash dist opts crowd manager_new).1.1 =
  Return [RequestTo "cc" (GracefulDisconnect false)].
Proof. vm_compute. reflexivity. Qed.

(** A node that once was private and comes back, not private, is not among the connections. *)
Example private_outlives_the_connection :
  let s := (cm_run hash dist opts
    [(0, EStart); (0, ENewConnection "b" 0); (1, EHandshakeCompleted 0); (2, ESetPrivate "b" true); (3, ESocketDisconnected 0 true);
     (4, ENewConnection "b" 1); (5, EHandshakeCompleted 1)]%Z manager_new).1.1 in
  connected_nodes s = ["b"] ∧ getConnections s = [].
Proof. split; vm_compute; reflexivity. Qed.

End ConnectionsWitness.
