(* ===== verification/Peers.v ===== *)
(** The peers a DHT node knows (packages/dht/src/dht/): [PeerManager] with its k-bucket of neighbours and its lists of
    nearby, random and ring contacts, and the RPC handlers of [DhtNodeRpcLocal] that use it.

    A remote ([DhtNodeRpcRemote]) is its peer descriptor.  The npm package [k-bucket] is an interface; ids of its contacts
    are written as hexadecimal texts.  What the manager does to others is appended to [pm_out]; pings are answered by calls
    of [ping_settled]; the outcomes of [Math.random] are in [pm_rolls]. *)

From S2P Require Import Prelude.
From S2P Require Import JsMap.
From S2P Require Import Frames.
From S2P Require Import DataQuery.
From S2P Require Import Contacts.
From S2P Require Import Connections.
From S2P Require Import Ring.

Set Default Proof Using "Type".
Local Open Scope eff_scope.

(** * k-bucket *)

(** [kb_add] either adds a contact or, when its bucket is full, asks about some contacts of that bucket ([ping]); each of
    them, removed, makes room for the contact. *)
Class KBucket (KB : Type) := {
  kb_toArray : KB → list PeerDescriptor;
  kb_new : string → nat → KB;
  kb_get : string → KB → option PeerDescriptor;
  kb_add : PeerDescriptor → KB → KB + list PeerDescriptor;
  kb_remove : string → KB → KB;
  kb_toArray_new localNodeId n : kb_toArray (kb_new localNodeId n) = [];
  kb_get_has id b : is_Some (kb_get id b) ↔ id ∈ toNodeId <$> kb_toArray b;
  kb_toArray_remove id b : kb_toArray (kb_remove id b) ≡ₚ filter (λ c, toNodeId c ≠ id) (kb_toArray b);
  kb_add_spec c b :
    toNodeId c ∉ toNodeId <$> kb_toArray b →
    match kb_add c b with
    | inl b' => kb_toArray b' ≡ₚ c :: kb_toArray b
    | inr olds =>
        olds ≠ [] ∧ ∀ old, old ∈ olds → old ∈ kb_toArray b ∧ ∃ b', kb_add c (kb_remove (toNodeId old) b) = inl b'
    end
}.

(** * PeerManager *)

Inductive peer_effect :=
  | NearbyContactAdded (c : PeerDescriptor) | NearbyContactRemoved (c : PeerDescriptor)
  | RandomContactAdded (c : PeerDescriptor) | RandomContactRemoved (c : PeerDescriptor)
  | RingContactAdded (c : PeerDescriptor) | RingContactRemoved (c : PeerDescriptor)
  | KBucketEmpty
  | WeakLock (nodeId : string) | WeakUnlock (nodeId : string)
  | StartPing (c : PeerDescriptor) | LeaveNotice (c : PeerDescriptor).

Notation nearby_list := (SortedContactList (C := PeerDescriptor)).
Notation random_list := (RandomContactList (C := PeerDescriptor)).

Record PeerManager (KB M : Type) := MkPeers {
  pm_neighbors : KB;
  pm_nearbyContacts : nearby_list;
  pm_activeContacts : gset string;
  pm_ringContacts : RingContactList (M := M);
  pm_randomContacts : random_list;
  pm_stopped : bool;
  pm_rolls : list bool;
  pm_out : list peer_effect
}.
Arguments MkPeers {KB M} _ _ _ _ _ _ _ _.
Arguments pm_neighbors {KB M} _.
Arguments pm_nearbyContacts {KB M} _.
Arguments pm_activeContacts {KB M} _.
Arguments pm_ringContacts {KB M} _.
Arguments pm_randomContacts {KB M} _.
Arguments pm_stopped {KB M} _.
Arguments pm_rolls {KB M} _.
Arguments pm_out {KB M} _.

Definition with_kbucket {KB M} (b : KB) (m : PeerManager KB M) := MkPeers b (pm_nearbyContacts m) (pm_activeContacts m)
  (pm_ringContacts m) (pm_randomContacts m) (pm_stopped m) (pm_rolls m) (pm_out m).
Definition with_nearby {KB M} (l : nearby_list) (m : PeerManager KB M) := MkPeers (pm_neighbors m) l (pm_activeContacts m)
  (pm_ringContacts m) (pm_randomContacts m) (pm_stopped m) (pm_rolls m) (pm_out m).
Definition with_active {KB M} (ids : gset string) (m : PeerManager KB M) := MkPeers (pm_neighbors m) (pm_nearbyContacts m) ids
  (pm_ringContacts m) (pm_randomContacts m) (pm_stopped m) (pm_rolls m) (pm_out m).
Definition with_ring {KB M} (l : RingContactList (M := M)) (m : PeerManager KB M) := MkPeers (pm_neighbors m) (pm_nearbyContacts m) (pm_activeContacts m)
  l (pm_randomContacts m) (pm_stopped m) (pm_rolls m) (pm_out m).
Definition with_random {KB M} (l : random_list) (rolls : list bool) (m : PeerManager KB M) := MkPeers (pm_neighbors m) (pm_nearbyContacts m) (pm_activeContacts m)
  (pm_ringContacts m) l (pm_stopped m) rolls (pm_out m).
Definition with_stopped {KB M} (b : bool) (m : PeerManager KB M) := MkPeers (pm_neighbors m) (pm_nearbyContacts m) (pm_activeContacts m)
  (pm_ringContacts m) (pm_randomContacts m) b (pm_rolls m) (pm_out m).
Definition with_out {KB M} (out : list peer_effect) (m : PeerManager KB M) := MkPeers (pm_neighbors m) (pm_nearbyContacts m) (pm_activeContacts m)
  (pm_ringContacts m) (pm_randomContacts m) (pm_stopped m) (pm_rolls m) (pm_out m ++ out).

Definition undefined_error (property : string) : js_error :=
  MkError None ("Cannot read properties of undefined (reading '" +:+ property +:+ "')").

Definition on_random_event (ev : contact_event (C := PeerDescriptor)) : peer_effect :=
  match ev with ContactAdded c => RandomContactAdded c | ContactRemoved c => RandomContactRemoved c end.

Definition on_ring_event (ev : contact_event (C := PeerDescriptor)) : peer_effect :=
  match ev with ContactAdded c => RingContactAdded c | ContactRemoved c => RingContactRemoved c end.

(** * The locks of the connections *)

(** The weak locks that are left after what the manager did *)
Definition weak_locks (lockId : string) (out : list peer_effect) : ConnectionLockStates :=
  foldl (λ locks e, match e with
                    | WeakLock nodeId => addWeakLocked nodeId lockId locks
                    | WeakUnlock nodeId => removeWeakLocked nodeId lockId locks
                    | _ => locks
                    end) locks_new out.

(** The same as a set *)
Definition weak_set (out : list peer_effect) : gset string :=
  foldl (λ locks e, match e with WeakLock nodeId => {[nodeId]} ∪ locks | WeakUnlock nodeId => locks ∖ {[nodeId]} | _ => locks end) ∅ out.

Lemma weak_set_app out e : weak_set (out ++ [e]) =
  match e with WeakLock nodeId => {[nodeId]} ∪ weak_set out | WeakUnlock nodeId => weak_set out ∖ {[nodeId]} | _ => weak_set out end.
Proof. unfold weak_set. by rewrite foldl_app. Qed.

Lemma weak_locks_set lockId out nodeId :
  lk_weakLocks (weak_locks lockId out) !! nodeId = if decide (nodeId ∈ weak_set out) then Some {[lockId]} else None.
Proof.
  revert nodeId. induction out as [|e out IH] using rev_ind; intros nodeId; [done|]. rewrite weak_set_app. unfold weak_locks. rewrite foldl_app. cbn [foldl].
  fold (weak_locks lockId out). destruct e as [| | | | | | |id|id| |]; try done; cbn [lk_weakLocks addWeakLocked removeWeakLocked].
  - unfold add_lock. destruct (decide (nodeId = id)) as [->|Hne].
    + rewrite lookup_insert_eq, decide_True by set_solver. f_equal. rewrite IH. destruct (decide _); cbn; set_solver.
    + rewrite lookup_insert_ne, IH by done. apply decide_ext. set_solver.
  - unfold remove_lock. rewrite IH. destruct (decide (id ∈ weak_set out)) as [Hin|Hin].
    + rewrite decide_True by (rewrite difference_diag_L; apply size_empty). destruct (decide (nodeId = id)) as [->|Hne].
      * rewrite lookup_delete_eq, decide_False; [done|set_solver].
      * rewrite lookup_delete_ne, IH by done. apply decide_ext. set_solver.
    + rewrite IH. apply decide_ext. destruct (decide (nodeId = id)) as [->|]; set_solver.
Qed.

Lemma weak_locks_spec lockId out nodeId : isWeakLocked nodeId (weak_locks lockId out) = bool_decide (nodeId ∈ weak_set out).
Proof.
  unfold isWeakLocked, is_locked_in. rewrite weak_locks_set. apply bool_decide_ext.
  destruct (decide (nodeId ∈ weak_set out)); split; [done|eauto|by intros [? [=]]|done].
Qed.

Definition quiet (e : peer_effect) : bool := match e with WeakLock _ | WeakUnlock _ => false | _ => true end.

Lemma weak_set_quiet out out' : forallb quiet out' = true → weak_set (out ++ out') = weak_set out.
Proof.
  induction out' as [|e out' IH] using rev_ind; [by rewrite app_nil_r|]. rewrite forallb_app. intros [Hq [He _]%andb_true_iff]%andb_true_iff.
  rewrite app_assoc, weak_set_app, IH by done. by destruct e.
Qed.

Lemma on_random_quiet evs : forallb quiet (on_random_event <$> evs) = true.
Proof. induction evs as [|[] evs IH]; [done|apply IH..]. Qed.

Lemma on_ring_quiet evs : forallb quiet (on_ring_event <$> evs) = true.
Proof. induction evs as [|[] evs IH]; [done|apply IH..]. Qed.

Section peers.
  Context (distance : string → string → Z) `{SortedIndex} {M} `{OrderedMap PeerDescriptor M} {KB} `{KBucket KB}.
  Context (localPeerDescriptor : PeerDescriptor) (maxContactCount : nat) (neighborPingLimit : option nat).
  Notation manager := (PeerManager KB M).
  Notation op := (eff manager js_error unit).
  Implicit Types (m : manager) (c peerDescriptor : PeerDescriptor) (nodeId : string) (hasConnection : string → bool).

Definition localNodeId : string := toNodeId localPeerDescriptor.

Definition nearby_options : SortedContactListOptions := MkSortedOptions localNodeId false (Some maxContactCount) None None.

Definition peers_new (numberOfNodesPerKBucket : nat) (rolls : list bool) : manager :=
  MkPeers (kb_new localNodeId numberOfNodesPerKBucket) (sorted_new nearby_options) ∅
    (ringContacts_new (getRingIdRawFromPeerDescriptor localPeerDescriptor) None true)
    (random_new localNodeId maxContactCount) false rolls [].

Definition emit_effects (out : list peer_effect) : op := eff_modify (with_out out).

Fixpoint each {A} (f : A → op) (l : list A) : op :=
  match l with [] => eff_ret tt | x :: l => f x ;; each f l end.

Definition unless_stopped (body : op) : op := λ m, if pm_stopped m then (m, Return tt) else body m.

Definition is_neighbor nodeId m : bool := bool_decide (is_Some (kb_get nodeId (pm_neighbors m))).

Definition getNeighbors m : list PeerDescriptor := kb_toArray (pm_neighbors m).
Definition getNeighborCount m : nat := length (getNeighbors m).

(** ** The lists and their events *)

Definition random_addContact c : op := λ m,
  let '(l, evs) := random_add toNodeId (default false (head (pm_rolls m))) c (pm_randomContacts m) in
  emit_effects (on_random_event <$> evs) (with_random l (tail (pm_rolls m)) m).

Definition random_removeContact nodeId : op := λ m,
  let '(l, evs, _) := random_remove nodeId (pm_randomContacts m) in
  emit_effects (on_random_event <$> evs) (with_random l (pm_rolls m) m).

Definition on_nearby_event (ev : contact_event (C := PeerDescriptor)) : op :=
  match ev with
  | ContactRemoved c => unless_stopped (emit_effects [NearbyContactRemoved c] ;; random_addContact c)
  | ContactAdded c => emit_effects [NearbyContactAdded c]
  end.

Definition nearby_addContact c : op := λ m,
  match addContact toNodeId distance c (pm_nearbyContacts m) with
  | Return (l, evs) => each on_nearby_event evs (with_nearby l m)
  | Throw e => (m, Throw e)
  end.

Definition nearby_removeContact nodeId : op := λ m,
  let '(l, evs, _) := removeContact nodeId (pm_nearbyContacts m) in each on_nearby_event evs (with_nearby l m).

Definition ring_addContact c : op := λ m,
  let '(l, evs) := ringContacts_add id c (pm_ringContacts m) in emit_effects (on_ring_event <$> evs) (with_ring l m).

Definition ring_removeContact (contact : option PeerDescriptor) : op := λ m,
  let '(l, evs) := ringContacts_remove id contact (pm_ringContacts m) in emit_effects (on_ring_event <$> evs) (with_ring l m).

(** ** The k-bucket and its events *)

Definition onKBucketRemoved nodeId : op :=
  unless_stopped (λ m, emit_effects (WeakUnlock nodeId :: if (getNeighborCount m =? 0)%nat then [KBucketEmpty] else []) m).

Definition neighbors_remove nodeId : op := λ m,
  if is_neighbor nodeId m then onKBucketRemoved nodeId (with_kbucket (kb_remove nodeId (pm_neighbors m)) m) else (m, Return tt).

Definition onKBucketAdded hasConnection c : op :=
  unless_stopped (λ m,
    if bool_decide (toNodeId c = localNodeId) then (m, Return tt)
    else
      emit_effects (WeakLock (toNodeId c) ::
        if hasConnection (toNodeId c) || match neighborPingLimit with Some limit => (limit <? getNeighborCount m)%nat | None => false end
        then [] else [StartPing c]) m).

(** The contact [onKBucketPing] removes *)
Definition furthest_of (oldContacts : list PeerDescriptor) : outcome js_error string :=
  (let? r := addContacts toNodeId distance oldContacts (sorted_new (MkSortedOptions localNodeId false None None None)) in
   match head (getFurthestContacts (Some 1%Z) r.1) with
   | Some c => Return (toNodeId c)
   | None => Throw (undefined_error "getNodeId")
   end)%eff.

(** [neighbors.add], whose event [ping] adds the contact again: the depth is bounded by [fuel]. *)
Fixpoint neighbors_add (fuel : nat) hasConnection c : op := λ m,
  match fuel with
  | O => (m, Throw (MkError None "Maximum call stack size exceeded"))
  | S fuel =>
      match kb_add c (pm_neighbors m) with
      | inl b => onKBucketAdded hasConnection c (with_kbucket b m)
      | inr oldContacts =>
          unless_stopped (λ m,
            match furthest_of oldContacts with
            | Return removableNodeId =>
                (emit_effects [WeakUnlock removableNodeId] ;; neighbors_remove removableNodeId ;; neighbors_add fuel hasConnection c) m
            | Throw e => (m, Throw e)
            end) m
      end
  end.

(** ** The manager *)

Definition when (b : bool) (body : op) : op := if b then body else eff_ret tt.

Definition pm_addContact hasConnection peerDescriptor : op :=
  unless_stopped (λ m,
    let nodeId := toNodeId peerDescriptor in
    if bool_decide (nodeId = localNodeId) then (m, Return tt)
    else
      let isInNeighbors := is_neighbor nodeId m in
      let isInNearbyContacts := bool_decide (is_Some (getContact nodeId (pm_nearbyContacts m))) in
      let isInRingContacts := bool_decide (is_Some (ring_getContact peerDescriptor (pm_ringContacts m))) in
      (when (isInNeighbors || isInNearbyContacts) (random_addContact peerDescriptor) ;;
       when (negb isInNeighbors) (neighbors_add 2 hasConnection peerDescriptor) ;;
       when (negb isInNearbyContacts) (nearby_addContact peerDescriptor) ;;
       when (negb isInRingContacts) (ring_addContact peerDescriptor)) m).

Definition pm_removeContact nodeId : op :=
  unless_stopped (λ m,
    (ring_removeContact (getContact nodeId (pm_nearbyContacts m)) ;;
     neighbors_remove nodeId ;;
     nearby_removeContact nodeId ;;
     eff_modify (λ m, with_active (pm_activeContacts m ∖ {[nodeId]}) m) ;;
     random_removeContact nodeId) m).

Definition removeNeighbor nodeId : op := neighbors_remove nodeId.

Definition setContactActive nodeId : op := eff_modify (λ m, with_active ({[nodeId]} ∪ pm_activeContacts m) m).

Fixpoint first_active_stranger (ids : list string) m : option PeerDescriptor :=
  match ids with
  | [] => None
  | contactId :: ids =>
      if negb (is_neighbor contactId m) && bool_decide (contactId ∈ pm_activeContacts m)
      then getContact contactId (pm_nearbyContacts m) else first_active_stranger ids m
  end.

Definition getNearbyActiveContactNotInNeighbors m : option PeerDescriptor :=
  first_active_stranger (getContactIds (pm_nearbyContacts m)) m.

Definition addNearbyContactToNeighbors hasConnection : op :=
  unless_stopped (λ m,
    match getNearbyActiveContactNotInNeighbors m with
    | Some closest => pm_addContact hasConnection closest m
    | None => (m, Return tt)
    end).

(** What follows the ping of [onKBucketAdded] *)
Definition ping_settled hasConnection nodeId (result : bool) : op :=
  if result then eff_ret tt
  else emit_effects [WeakUnlock nodeId] ;; pm_removeContact nodeId ;; addNearbyContactToNeighbors hasConnection.

(** [pruneOfflineNodes]: the answers of [pingNodes], one by one, and what follows all of them *)
Definition pingNodes_answer nodeId (isOnline : bool) : op :=
  eff_modify (λ m, with_active (if isOnline then {[nodeId]} ∪ pm_activeContacts m else pm_activeContacts m ∖ {[nodeId]}) m).
Definition prune_offline (offlineNeighbors : list string) : op := each pm_removeContact offlineNeighbors.

Definition pm_stop : op := λ m,
  let m := with_stopped true m in
  (each (λ c, emit_effects [LeaveNotice c] ;; neighbors_remove (toNodeId c)) (getNeighbors m) ;;
   each (λ c, emit_effects [LeaveNotice c] ;; ring_removeContact (Some c)) (ring_all (pm_ringContacts m)) ;;
   eff_modify (λ m, with_random (random_new localNodeId maxContactCount) (pm_rolls m) (with_nearby (sorted_new nearby_options) m))) m.

Definition getClosestRingContactsTo (ringIdRaw : bytes) (limit : option nat) (excludedIds : option (gset string)) m
    : list PeerDescriptor * list PeerDescriptor :=
  let closest := ring_adds id (ring_all (pm_ringContacts m)) (ringContacts_new (M := M) ringIdRaw excludedIds false) in
  ring_closest (Some (default 8 limit)) closest.

Definition getNearbyContactCount (excludedNodeIds : option (gset string)) m : Z := getSize excludedNodeIds (pm_nearbyContacts m).

(** ** DhtNodeRpcLocal *)

Definition rpc_getClosestPeers hasConnection (batchSize : nat) (nodeId : string) (sender : PeerDescriptor) m
    : manager * outcome js_error (list PeerDescriptor) :=
  match pm_addContact hasConnection sender m with
  | (m, Return _) => (m, getClosestNodes toNodeId distance nodeId (getNeighbors m) (Some batchSize) None)
  | (m, Throw e) => (m, Throw e)
  end.

Definition rpc_getClosestRingPeers hasConnection (batchSize : nat) (ringId : bytes) (sender : PeerDescriptor) m
    : manager * outcome js_error (list PeerDescriptor * list PeerDescriptor) :=
  match pm_addContact hasConnection sender m with
  | (m, Return _) => (m, Return (getClosestRingContactsTo ringId (Some batchSize) None m))
  | (m, Throw e) => (m, Throw e)
  end.

(** [ping] adds the sender in a task of its own; its answer bears the id of the request. *)
Definition rpc_ping_task hasConnection (sender : PeerDescriptor) : op := pm_addContact hasConnection sender.

Definition rpc_leaveNotice (sender : PeerDescriptor) : op := pm_removeContact (toNodeId sender).

(** The handler of [disconnected] in DhtNode.ts; only the control layer node has a connection locker. *)
Definition node_onDisconnected (isControlLayerNode gracefulLeave : bool) nodeId : op :=
  if isControlLayerNode then if gracefulLeave then pm_removeContact nodeId else removeNeighbor nodeId else eff_ret tt.

(** ** What happens to a manager *)

Inductive peer_event :=
  | PAdd (c : PeerDescriptor) | PRemove (nodeId : string) | PDisconnected (control graceful : bool) (nodeId : string)
  | PPingSettled (nodeId : string) (result : bool)
  | PPingAnswer (nodeId : string) (isOnline : bool) | PPrune (offline : list string)
  | PActive (nodeId : string) | PStop.

(** [hasConnection] is what the connections view answers at that moment. *)
Definition peer_step hasConnection (ev : peer_event) : op :=
  match ev with
  | PAdd c => pm_addContact hasConnection c
  | PRemove nodeId => pm_removeContact nodeId
  | PDisconnected control graceful nodeId => node_onDisconnected control graceful nodeId
  | PPingSettled nodeId result => ping_settled hasConnection nodeId result
  | PPingAnswer nodeId isOnline => pingNodes_answer nodeId isOnline
  | PPrune offline => prune_offline offline
  | PActive nodeId => setContactActive nodeId
  | PStop => pm_stop
  end.

Definition peer_run (evs : list ((string → bool) * peer_event)) : op := each (λ e, peer_step e.1 e.2) evs.

(** ** What a manager always is *)

Notation neighbor_ids m := (toNodeId <$> getNeighbors m).

(** [known] holds of the ids of all contacts added; [X] are neighbours that are unlocked already and about to go. *)
Record peers_ok (known : string → Prop) (X : gset string) m : Prop := {
  po_options : sc_options (pm_nearbyContacts m) = nearby_options;
  po_nearby : sc_inv toNodeId distance (pm_nearbyContacts m);
  po_known : ∀ nodeId, nodeId ∈ getContactIds (pm_nearbyContacts m) → known nodeId;
  po_random : random_inv (pm_randomContacts m);
  po_random_of : rl_localNodeId (pm_randomContacts m) = localNodeId ∧ rl_maxSize (pm_randomContacts m) = maxContactCount;
  po_ring : ring_ok id (pm_ringContacts m);
  po_ring_of : rc_referenceId (pm_ringContacts m) = getRingIdFromPeerDescriptor localPeerDescriptor ∧ rc_excludedIds (pm_ringContacts m) = ∅;
  po_ring_others : ∀ c, c ∈ ring_all (pm_ringContacts m) → toNodeId c ≠ localNodeId;
  po_neighbors : NoDup (neighbor_ids m);
  po_not_local : localNodeId ∉ neighbor_ids m;
  po_locks : pm_stopped m = false → ∀ nodeId, nodeId ∈ weak_set (pm_out m) ↔ nodeId ∈ neighbor_ids m ∧ nodeId ∉ X
}.

Lemma peers_new_ok known n rolls : peers_ok known ∅ (peers_new n rolls).
Proof using Type.
  unfold peers_new. split; cbn; try done; unfold getNeighbors; cbn; rewrite ?kb_toArray_new.
  - apply sorted_new_inv.
  - intros nodeId Hin. by apply not_elem_of_nil in Hin.
  - split; cbn; [apply NoDup_nil_2|apply NoDup_nil_2|done|apply not_elem_of_nil|lia].
  - apply ring_contacts_new_ok.
  - unfold ring_all. cbn. rewrite !om_entries_create. intros c Hc. by apply not_elem_of_nil in Hc.
  - apply NoDup_nil_2.
  - apply not_elem_of_nil.
  - intros _ nodeId. rewrite elem_of_empty. split; [done|]. by intros [?%not_elem_of_nil _].
Qed.

Lemma is_neighbor_spec nodeId m : is_neighbor nodeId m = bool_decide (nodeId ∈ neighbor_ids m).
Proof using Type. apply bool_decide_ext, kb_get_has. Qed.

(** [f] ends without an error, and keeps the invariant. *)
Definition keeps_at known (X X' : gset string) m (f : op) : Prop :=
  ∃ m', f m = (m', Return tt) ∧ peers_ok known X' m' ∧ pm_stopped m' = pm_stopped m.

Definition keeps known (X X' : gset string) (f : op) : Prop := ∀ m, peers_ok known X m → keeps_at known X X' m f.

Lemma keeps_ret known X : keeps known X X (eff_ret tt).
Proof using Type. intros m Hok. by exists m. Qed.

Lemma keeps_at_bind known X X1 X' m f g : keeps_at known X X1 m f → keeps known X1 X' g → keeps_at known X X' m (f ;; g).
Proof using Type.
  intros (m1 & Hf & Hok1 & Hs1) Hg. destruct (Hg m1 Hok1) as (m2 & Hg2 & Hok2 & Hs2). exists m2.
  unfold eff_bind. rewrite Hf. split_and!; [done|done|congruence].
Qed.

Lemma keeps_bind known X X1 X' f g : keeps known X X1 f → keeps known X1 X' g → keeps known X X' (f ;; g).
Proof using Type. intros Hf Hg m Hok. eapply keeps_at_bind; eauto. Qed.

Lemma keeps_each {A} known X (f : A → op) l : (∀ x, x ∈ l → keeps known X X (f x)) → keeps known X X (each f l).
Proof using Type.
  induction l as [|x l IH]; intros Hf; [apply keeps_ret|]. cbn [each]. apply keeps_bind with X; [apply Hf; left|].
  apply IH. intros y Hy. apply Hf. by right.
Qed.

Lemma keeps_when known X b f : (b = true → keeps known X X f) → keeps known X X (when b f).
Proof using Type. destruct b; [by intros Hf; apply Hf|intros _; apply keeps_ret]. Qed.

Lemma peers_ok_stopped known X X' m : peers_ok known X m → pm_stopped m = true → peers_ok known X' m.
Proof using Type. intros [] Hs. split; try done. by rewrite Hs. Qed.

Lemma keeps_unless known X X' f :
  (∀ m, peers_ok known X m → pm_stopped m = false → keeps_at known X X' m f) → keeps known X X' (unless_stopped f).
Proof using Type.
  intros Hf m Hok. unfold keeps_at, unless_stopped. destruct (pm_stopped m) eqn:Hs; [|rewrite <-Hs; by apply Hf].
  exists m. split_and!; [done|by eapply peers_ok_stopped|done].
Qed.

(** *** Parts of the state that change alone *)

Lemma emit_quiet known X m out : peers_ok known X m → forallb quiet out = true → peers_ok known X (with_out out m).
Proof using Type. intros [] Hq. split; try done. cbn. rewrite weak_set_quiet by done. done. Qed.

Lemma keeps_emit known X out : forallb quiet out = true → keeps known X X (emit_effects out).
Proof using Type. intros Hq m Hok. eexists. split_and!; [done|by apply emit_quiet|done]. Qed.

Lemma keeps_active known X (f : gset string → gset string) : keeps known X X (eff_modify (λ m, with_active (f (pm_activeContacts m)) m)).
Proof using Type. intros m []. eexists. split_and!; [done| |done]. by split. Qed.

Lemma random_add_of roll c (l : random_list) :
  rl_localNodeId (random_add toNodeId roll c l).1 = rl_localNodeId l ∧ rl_maxSize (random_add toNodeId roll c l).1 = rl_maxSize l.
Proof using Type. unfold random_add, random_remove. by repeat (case_match; simplify_eq/=). Qed.

Lemma random_set_ok known X m l rolls :
  peers_ok known X m → random_inv l → rl_localNodeId l = rl_localNodeId (pm_randomContacts m) →
  rl_maxSize l = rl_maxSize (pm_randomContacts m) → peers_ok known X (with_random l rolls m).
Proof using Type. intros [] Hinv Hl Hm. split; try done. cbn. by rewrite Hl, Hm. Qed.

Lemma keeps_random_add known X c : maxContactCount ≠ 0 → keeps known X X (random_addContact c).
Proof using Type.
  intros Hmax m Hok. unfold keeps_at, random_addContact. pose proof (po_random_of _ _ _ Hok) as [Hl Hm].
  set (roll := default false (head (pm_rolls m))). clearbody roll.
  pose proof (random_add_spec toNodeId roll c _ (po_random _ _ _ Hok) ltac:(congruence)) as [Hinv _].
  pose proof (random_add_of roll c (pm_randomContacts m)) as [Hl' Hm']. destruct (random_add _ _ _ _) as [l evs]. cbn [fst] in *.
  eexists. split_and!; [done| |done]. apply emit_quiet; [by apply random_set_ok|apply on_random_quiet].
Qed.

Lemma keeps_random_remove known X nodeId : keeps known X X (random_removeContact nodeId).
Proof using Type.
  intros m Hok. unfold keeps_at, random_removeContact. pose proof (random_remove_spec nodeId _ (po_random _ _ _ Hok)) as Hrem.
  destruct (random_remove _ _) as [[l evs] b]. destruct Hrem as (Hinv & Hl & Hm & _).
  eexists. split_and!; [done| |done]. apply emit_quiet; [by apply random_set_ok|apply on_random_quiet].
Qed.

Lemma keeps_nearby_event known X ev : maxContactCount ≠ 0 → keeps known X X (on_nearby_event ev).
Proof using Type.
  intros Hmax. destruct ev as [c|c]; [by apply keeps_emit|]. cbn. apply keeps_unless. intros m Hok _.
  revert m Hok. change (keeps known X X (emit_effects [NearbyContactRemoved c] ;; random_addContact c)).
  apply keeps_bind with X; [by apply keeps_emit|by apply keeps_random_add].
Qed.

Lemma nearby_set_ok known X m l :
  peers_ok known X m → sc_inv toNodeId distance l → sc_options l = sc_options (pm_nearbyContacts m) →
  (∀ nodeId, nodeId ∈ sc_contactIds l → known nodeId) → peers_ok known X (with_nearby l m).
Proof using Type. intros [] Hinv Ho Hk. split; try done. cbn. by rewrite Ho. Qed.

Lemma ids_after_elem o nodeId ids ids' x : ids_after distance o nodeId ids ids' → x ∈ ids' → x = nodeId ∨ x ∈ ids.
Proof using Type.
  intros [[Hp _]|(n & init & far & _ & _ & Hids & _ & [[-> _]|[Hp _]])]; [rewrite Hp, elem_of_cons; tauto|tauto|].
  rewrite Hp, elem_of_cons, Hids, elem_of_app. tauto.
Qed.

Lemma keeps_nearby_add (known : string → Prop) X c :
  maxContactCount ≠ 0 → known (toNodeId c) → keeps known X X (nearby_addContact c).
Proof using Type.
  intros Hmax Hc m Hok. unfold keeps_at, nearby_addContact. pose proof Hok as [Ho Hinv Hk _ _ _ _ _ _ _ _].
  destruct (add_spec toNodeId distance c _ Hinv) as (l & evs & Hadd & Hinv' & Ho' & _ & Hafter).
  { rewrite Ho. cbn. congruence. }
  rewrite Hadd. destruct (keeps_each known X on_nearby_event evs (λ ev _, keeps_nearby_event known X ev Hmax) (with_nearby l m)) as (m' & Hm' & Hok' & Hs').
  - apply nearby_set_ok; [done..|]. intros nodeId Hin. cbn zeta in Hafter. destruct (refuses _ _ _ || bool_decide _); [rewrite Hafter in Hin; by apply Hk|].
    apply (ids_after_elem _ _ _ _ _ Hafter) in Hin as [->|Hin]; [done|by apply Hk].
  - exists m'. split_and!; [done|done|by rewrite Hs'].
Qed.

Lemma keeps_nearby_remove known X nodeId : maxContactCount ≠ 0 → keeps known X X (nearby_removeContact nodeId).
Proof using Type.
  intros Hmax m Hok. unfold keeps_at, nearby_removeContact. pose proof Hok as [Ho Hinv Hk _ _ _ _ _ _ _ _].
  pose proof (remove_spec toNodeId distance nodeId _ Hinv) as Hrem. destruct (removeContact _ _) as [[l evs] b].
  destruct Hrem as (Hinv' & Ho' & _ & Hids).
  destruct (keeps_each known X on_nearby_event evs (λ ev _, keeps_nearby_event known X ev Hmax) (with_nearby l m)) as (m' & Hm' & Hok' & Hs').
  - apply nearby_set_ok; [done..|]. intros id. rewrite Hids. intros [_ Hin]%list_elem_of_filter. by apply Hk.
  - exists m'. split_and!; [done|done|by rewrite Hs'].
Qed.

Lemma ring_set_ok known X m l :
  peers_ok known X m → ring_ok id l → rc_referenceId l = rc_referenceId (pm_ringContacts m) →
  rc_excludedIds l = rc_excludedIds (pm_ringContacts m) → (∀ c, c ∈ ring_all l → toNodeId c ≠ localNodeId) →
  peers_ok known X (with_ring l m).
Proof using Type. intros [] Hl Hr He Ho. split; try done. cbn. by rewrite Hr, He. Qed.

Lemma keeps_ring_add known X c : toNodeId c ≠ localNodeId → keeps known X X (ring_addContact c).
Proof using Type.
  intros Hlocal m Hok. unfold keeps_at, ring_addContact. destruct (ring_contacts_add_ok id c _ (po_ring _ _ _ Hok)) as (Hl & Hr & He).
  pose proof (ring_add_all id c (pm_ringContacts m)) as Hall.
  destruct (ringContacts_add _ _ _) as [l evs]. eexists. split_and!; [done| |done]. apply emit_quiet; [|apply on_ring_quiet].
  apply ring_set_ok; [done..|]. intros c' [->|Hc']%Hall; [done|]. by apply (po_ring_others _ _ _ Hok).
Qed.

Lemma keeps_ring_remove known X (c : option PeerDescriptor) : keeps known X X (ring_removeContact c).
Proof using Type.
  intros m Hok. unfold keeps_at, ring_removeContact. destruct (ring_contacts_remove_ok id c _ (po_ring _ _ _ Hok)) as (Hl & Hr & He).
  pose proof (ring_remove_all id c (pm_ringContacts m)) as Hall.
  destruct (ringContacts_remove _ _ _) as [l evs]. eexists. split_and!; [done| |done]. apply emit_quiet; [|apply on_ring_quiet].
  apply ring_set_ok; [done..|]. intros c' Hc'. by apply (po_ring_others _ _ _ Hok), Hall.
Qed.

(** *** The neighbours and their locks *)

Lemma remaining_neighbor_ids nodeId m :
  toNodeId <$> kb_toArray (kb_remove nodeId (pm_neighbors m)) ≡ₚ filter (λ id, id ≠ nodeId) (neighbor_ids m).
Proof using Type.
  rewrite (kb_toArray_remove nodeId). unfold getNeighbors. induction (kb_toArray _) as [|c l IH]; [done|].
  rewrite filter_cons, fmap_cons, filter_cons. destruct (decide (toNodeId c ≠ nodeId)); [by rewrite fmap_cons, IH|done].
Qed.

(** [nodeId] may be unlocked already. *)
Lemma keeps_neighbors_remove known X nodeId : X ⊆ {[nodeId]} → keeps known X ∅ (neighbors_remove nodeId).
Proof using Type.
  intros HX m Hok. unfold keeps_at, neighbors_remove. rewrite is_neighbor_spec.
  destruct (bool_decide_reflect (nodeId ∈ neighbor_ids m)) as [Hin|Hin].
  2: { exists m. split_and!; [done| |done]. destruct Hok. split; try done. intros Hs id. rewrite po_locks0 by done. set_solver. }
  unfold onKBucketRemoved, unless_stopped. cbn [pm_stopped with_kbucket]. pose proof (remaining_neighbor_ids nodeId m) as Hp.
  assert (∀ out, (pm_stopped m = false → ∀ id, id ∈ weak_set (pm_out m ++ out) ↔ id ∈ weak_set (pm_out m) ∧ id ≠ nodeId) →
    peers_ok known ∅ (with_out out (with_kbucket (kb_remove nodeId (pm_neighbors m)) m))) as Hdone.
  { intros out Hout. destruct Hok. split; try done; unfold getNeighbors in *; cbn in *.
    - rewrite Hp. by apply NoDup_filter.
    - rewrite Hp. by intros [_ ?]%list_elem_of_filter.
    - intros Hs id. rewrite Hout, po_locks0, Hp, list_elem_of_filter by done. set_solver. }
  destruct (pm_stopped m) eqn:Hs.
  { eexists. split_and!; [done| |done]. assert (with_kbucket (kb_remove nodeId (pm_neighbors m)) m =
      with_out [] (with_kbucket (kb_remove nodeId (pm_neighbors m)) m)) as ->; [|by apply Hdone].
    unfold with_out. cbn. rewrite app_nil_r. done. }
  unfold emit_effects, eff_modify. eexists. split_and!; [done| |done]. apply Hdone. intros _ id.
  set (rest := if (getNeighborCount _ =? 0)%nat then [KBucketEmpty] else []). assert (forallb quiet rest = true) as Hq by (unfold rest; by case_match).
  change (WeakUnlock nodeId :: rest) with ([WeakUnlock nodeId] ++ rest). rewrite app_assoc, weak_set_quiet, weak_set_app by done. set_solver.
Qed.
Lemma furthest_of_spec oldContacts :
  oldContacts ≠ [] → (∀ c, c ∈ oldContacts → toNodeId c ≠ localNodeId) →
  ∃ old, old ∈ oldContacts ∧ furthest_of oldContacts = Return (toNodeId old).
Proof using Type.
  intros Hne Hlocal. unfold furthest_of. set (o := MkSortedOptions _ _ _ _ _).
  destruct (addContacts_spec toNodeId distance oldContacts (sorted_new o) ∅ (sorted_new_inv _ _ o) ltac:(done)) as (l & evs & Hadd & Hinv & Ho & [_ Hall] & Hget).
  { split; cbn; intros id Hid; [by apply not_elem_of_nil in Hid|set_solver]. }
  rewrite Hadd. cbn [outcome_bind fst]. unfold getFurthestContacts. change (limited (Some 1%Z)) with (take (A := PeerDescriptor) 1).
  pose proof (closest_contacts_ids toNodeId distance l Hinv) as Hids. destruct oldContacts as [|old oldContacts]; [done|].
  assert (toNodeId old ∈ toNodeId <$> getClosestContacts None l) as (c & Hc & Hin)%list_elem_of_fmap.
  { rewrite Hids. destruct (decide (toNodeId old ∈ sc_contactIds l)) as [?|Hnin]; [done|].
    destruct (Hall (toNodeId old)) as [Hmax _]; [cbn; set_solver| |done|rewrite Ho in Hmax; done].
    rewrite Ho. unfold refuses, o. cbn. rewrite bool_decide_eq_false_2 by set_solver. rewrite bool_decide_eq_false_2; [done|].
    intros Heq. by apply (Hlocal old ltac:(left)). }
  destruct (reverse (getClosestContacts None l)) as [|far rest] eqn:Hr.
  { apply (f_equal reverse) in Hr. rewrite reverse_involutive in Hr. rewrite Hr in Hin. by apply not_elem_of_nil in Hin. }
  exists far. split; [|done]. assert (far ∈ getClosestContacts None l) as Hfar by (apply elem_of_reverse; rewrite Hr; left).
  apply list_elem_of_omap in Hfar as (id & _ & Hfar). destruct (Hget id far Hfar) as [?|Hno]; [done|]. by cbn in Hno.
Qed.

Lemma keeps_kbucket_added known hasConnection c b m :
  peers_ok known ∅ m → toNodeId c ≠ localNodeId → toNodeId c ∉ neighbor_ids m → kb_toArray b ≡ₚ c :: getNeighbors m →
  ∃ m', onKBucketAdded hasConnection c (with_kbucket b m) = (m', Return tt) ∧ peers_ok known ∅ m' ∧ pm_stopped m' = pm_stopped m.
Proof using Type.
  intros Hok Hlocal Hnin Hp. unfold onKBucketAdded, unless_stopped. cbn [pm_stopped with_kbucket].
  assert (toNodeId <$> kb_toArray b ≡ₚ toNodeId c :: neighbor_ids m) as Hids by by rewrite Hp.
  assert (∀ out, (pm_stopped m = false → ∀ id, id ∈ weak_set (pm_out m ++ out) ↔ id = toNodeId c ∨ id ∈ weak_set (pm_out m)) →
    peers_ok known ∅ (with_out out (with_kbucket b m))) as Hdone.
  { intros out Hout. destruct Hok. split; try done; unfold getNeighbors in *; cbn in *.
    - rewrite Hids. by constructor.
    - rewrite Hids, elem_of_cons. by intros [?|?].
    - intros Hs id. rewrite Hout, po_locks0, Hids, elem_of_cons by done. set_solver. }
  destruct (pm_stopped m) eqn:Hs.
  { eexists. split_and!; [done| |done]. assert (with_kbucket b m = with_out [] (with_kbucket b m)) as ->; [|by apply Hdone].
    unfold with_out. cbn. rewrite app_nil_r. done. }
  rewrite bool_decide_eq_false_2 by done. unfold emit_effects, eff_modify. eexists. split_and!; [done| |done]. apply Hdone. intros _ id.
  set (rest := if hasConnection (toNodeId c) || _ then [] else [StartPing c]). assert (forallb quiet rest = true) as Hq by (unfold rest; by case_match).
  change (WeakLock (toNodeId c) :: rest) with ([WeakLock (toNodeId c)] ++ rest). rewrite app_assoc, weak_set_quiet, weak_set_app by done. set_solver.
Qed.

(** Adding a neighbour that is new ends, with at most one contact asked about. *)
Lemma neighbors_add_ok known hasConnection c m :
  peers_ok known ∅ m → toNodeId c ≠ localNodeId → toNodeId c ∉ neighbor_ids m → keeps_at known ∅ ∅ m (neighbors_add 2 hasConnection c).
Proof using Type.
  intros Hok Hlocal Hnin. unfold keeps_at. cbn [neighbors_add]. pose proof (kb_add_spec c (pm_neighbors m) Hnin) as Hadd.
  destruct (kb_add c (pm_neighbors m)) as [b|oldContacts]; [by apply keeps_kbucket_added|]. destruct Hadd as [Hne Hold].
  unfold unless_stopped. destruct (pm_stopped m) eqn:Hs; [by exists m|].
  destruct (furthest_of_spec oldContacts Hne) as (old & Hin & ->).
  { intros c' Hc' Heq. apply (po_not_local _ _ _ Hok). rewrite <-Heq. apply list_elem_of_fmap_2. by apply Hold. }
  destruct (Hold old Hin) as [Hin' [b' Hb']]. unfold eff_bind at 1, emit_effects, eff_modify.
  assert (peers_ok known {[toNodeId old]} (with_out [WeakUnlock (toNodeId old)] m)) as Hok1.
  { destruct Hok. split; try done. cbn. intros Hs' id. rewrite weak_set_app. specialize (po_locks0 Hs id). set_solver. }
  destruct (keeps_neighbors_remove known {[toNodeId old]} (toNodeId old) ltac:(done) _ Hok1) as (m2 & Hm2 & Hok2 & Hs2).
  unfold eff_bind. rewrite Hm2. assert (pm_neighbors m2 = kb_remove (toNodeId old) (pm_neighbors m)) as Hkb.
  { unfold neighbors_remove in Hm2. rewrite is_neighbor_spec, bool_decide_eq_true_2 in Hm2 by (by apply list_elem_of_fmap_2).
    unfold onKBucketRemoved, unless_stopped, emit_effects, eff_modify in Hm2. cbn [pm_stopped with_kbucket with_out] in Hm2. rewrite Hs in Hm2. by simplify_eq. }
  rewrite Hkb, Hb'. assert (toNodeId c ∉ neighbor_ids m2) as Hnin2.
  { unfold getNeighbors. rewrite Hkb, remaining_neighbor_ids. by intros [_ ?]%list_elem_of_filter. }
  pose proof (kb_add_spec c (pm_neighbors m2) Hnin2) as Hadd2. rewrite Hkb, Hb' in Hadd2.
  destruct (keeps_kbucket_added known hasConnection c b' m2) as (m3 & Hm3 & Hok3 & Hs3); [done..| |].
  { unfold getNeighbors. by rewrite Hkb. }
  exists m3. split_and!; [done|done|]. rewrite Hs3, Hs2. done.
Qed.

(** *** The operations *)

Lemma keeps_addContact (known : string → Prop) hasConnection c :
  maxContactCount ≠ 0 → known (toNodeId c) → keeps known ∅ ∅ (pm_addContact hasConnection c).
Proof using Type.
  intros Hmax Hc. apply keeps_unless. intros m Hok Hs. unfold keeps_at. destruct (bool_decide_reflect (toNodeId c = localNodeId)) as [|Hlocal]; [by exists m|].
  rewrite is_neighbor_spec. set (inNearby := bool_decide (is_Some _)). set (inRing := bool_decide (is_Some _)).
  set (inNeighbors := bool_decide (toNodeId c ∈ neighbor_ids m)).
  assert (keeps known ∅ ∅ (when (negb inNearby) (nearby_addContact c) ;; when (negb inRing) (ring_addContact c))) as Hrest.
  { apply keeps_bind with ∅; apply keeps_when; intros _; [by apply keeps_nearby_add|by apply keeps_ring_add]. }
  destruct (keeps_when known ∅ (inNeighbors || inNearby) _ (λ _, keeps_random_add known ∅ c Hmax) m Hok) as (m1 & Hm1 & Hok1 & Hs1).
  assert (neighbor_ids m1 = neighbor_ids m) as Hsame.
  { revert Hm1. destruct (inNeighbors || inNearby); cbn [when]; [|by intros [= <-]]. unfold random_addContact.
    destruct (random_add _ _ _ _) as [l evs]. by intros [= <-]. }
  unfold eff_bind at 1. rewrite Hm1. assert (keeps_at known ∅ ∅ m1 (when (negb inNeighbors) (neighbors_add 2 hasConnection c))) as Hadd.
  { unfold inNeighbors. destruct (bool_decide_reflect (toNodeId c ∈ neighbor_ids m)) as [|Hnin]; [by apply keeps_ret|].
    apply neighbors_add_ok; [done|done|by rewrite Hsame]. }
  destruct (keeps_at_bind known ∅ ∅ ∅ m1 _ _ Hadd Hrest) as (m2 & Hm2 & Hok2 & Hs2). exists m2. split_and!; [done|done|congruence].
Qed.

Lemma keeps_removeContact known X nodeId : maxContactCount ≠ 0 → X ⊆ {[nodeId]} → keeps known X ∅ (pm_removeContact nodeId).
Proof using Type.
  intros Hmax HX. apply keeps_unless. intros m Hok _. revert m Hok.
  assert (∀ c : option PeerDescriptor, keeps known X ∅ (ring_removeContact c ;; neighbors_remove nodeId ;; nearby_removeContact nodeId ;;
     eff_modify (λ m, with_active (pm_activeContacts m ∖ {[nodeId]}) m) ;; random_removeContact nodeId)) as Hall.
  { intros c. apply keeps_bind with X; [by apply keeps_ring_remove|]. apply keeps_bind with ∅; [by apply keeps_neighbors_remove|].
    apply keeps_bind with ∅; [by apply keeps_nearby_remove|]. apply keeps_bind with ∅; [apply (keeps_active known ∅ (λ a, a ∖ {[nodeId]}))|].
    apply keeps_random_remove. }
  intros m Hok. by apply Hall.
Qed.

Lemma nearby_contact_known known X m nodeId c :
  peers_ok known X m → getContact nodeId (pm_nearbyContacts m) = Some c → known (toNodeId c).
Proof using Type.
  intros Hok Hc. apply (po_known _ _ _ Hok). unfold getContactIds, getContact in *. pose proof (po_nearby _ _ _ Hok) as Hinv.
  rewrite (inv_named _ _ _ Hinv _ _ Hc). apply (inv_same _ _ _ Hinv). destruct (decide (nodeId ∈ (sc_contactsById (pm_nearbyContacts m)).*1)) as [?|Hn]; [done|].
  apply map_get_None in Hn. congruence.
Qed.

Lemma keeps_addNearby (known : string → Prop) hasConnection : maxContactCount ≠ 0 → keeps known ∅ ∅ (addNearbyContactToNeighbors hasConnection).
Proof using Type.
  intros Hmax. apply keeps_unless. intros m Hok _. unfold keeps_at. destruct (getNearbyActiveContactNotInNeighbors m) as [c|] eqn:Hc; [|by exists m].
  apply keeps_addContact; [done| |done]. unfold getNearbyActiveContactNotInNeighbors in Hc. revert Hc.
  induction (getContactIds (pm_nearbyContacts m)) as [|id ids IH]; [done|]. cbn. destruct (_ && _); [by apply (nearby_contact_known known ∅)|done].
Qed.

Lemma keeps_ping_settled known hasConnection nodeId result : maxContactCount ≠ 0 → keeps known ∅ ∅ (ping_settled hasConnection nodeId result).
Proof using Type.
  intros Hmax. destruct result; [apply keeps_ret|]. cbn [ping_settled]. intros m Hok. unfold keeps_at, eff_bind at 1, emit_effects, eff_modify.
  assert (peers_ok known {[nodeId]} (with_out [WeakUnlock nodeId] m)) as Hok1.
  { destruct Hok. split; try done. cbn. intros Hs id. rewrite weak_set_app. specialize (po_locks0 Hs id). set_solver. }
  destruct (keeps_bind known {[nodeId]} ∅ ∅ _ _ (keeps_removeContact known {[nodeId]} nodeId Hmax ltac:(done))
    (keeps_addNearby known hasConnection Hmax) _ Hok1) as (m' & Hm' & Hok' & Hs').
  exists m'. split_and!; [done|done|by rewrite Hs'].
Qed.

Lemma keeps_stop known m : peers_ok known ∅ m → ∃ m', pm_stop m = (m', Return tt) ∧ peers_ok known ∅ m' ∧ pm_stopped m' = true.
Proof using Type.
  intros Hok. unfold pm_stop. assert (peers_ok known ∅ (with_stopped true m)) as Hok1 by (destruct Hok; by split).
  set (op1 := each _ (getNeighbors _)). set (op2 := each _ (ring_all _)).
  assert (keeps known ∅ ∅ op1 ∧ keeps known ∅ ∅ op2) as [H1' H2'].
  { split; apply keeps_each; intros c _; (apply keeps_bind with ∅; [by apply keeps_emit|]); [by apply keeps_neighbors_remove|apply keeps_ring_remove]. }
  destruct (keeps_bind known ∅ ∅ ∅ _ _ H1' H2' _ Hok1) as (m2 & Hm2 & Hok2 & Hs2).
  unfold eff_bind in *. destruct (op1 _) as [ma [[]|]]; [|done]. rewrite Hm2. unfold eff_modify. eexists. split_and!; [done| |done].
  apply random_set_ok; [apply nearby_set_ok|..]; cbn; try by rewrite ?(proj1 (po_random_of _ _ _ Hok2)), ?(proj2 (po_random_of _ _ _ Hok2)).
  - apply sorted_new_inv.
  - by rewrite (po_options _ _ _ Hok2).
  - intros id Hid. by apply not_elem_of_nil in Hid.
  - split; cbn; [apply NoDup_nil_2|apply NoDup_nil_2|done|apply not_elem_of_nil|lia].
Qed.

(** What an event may add *)
Definition adds (known : string → Prop) (ev : peer_event) : Prop := match ev with PAdd c => known (toNodeId c) | _ => True end.

Lemma peer_step_ok known hasConnection ev m :
  maxContactCount ≠ 0 → adds known ev → peers_ok known ∅ m →
  ∃ m', peer_step hasConnection ev m = (m', Return tt) ∧ peers_ok known ∅ m' ∧ (pm_stopped m = true → pm_stopped m' = true).
Proof using Type.
  intros Hmax Hadds Hok.
  assert (∀ f, keeps known ∅ ∅ f → ∃ m', f m = (m', Return tt) ∧ peers_ok known ∅ m' ∧ (pm_stopped m = true → pm_stopped m' = true)) as Hkeep.
  { intros f Hf. destruct (Hf m Hok) as (m' & Hm' & Hok' & Hs'). exists m'. split_and!; [done|done|by rewrite Hs']. }
  destruct ev as [c|id|control graceful id|id result|id online|offline|id|]; cbn [peer_step].
  - apply Hkeep. by apply keeps_addContact.
  - apply Hkeep. by apply keeps_removeContact.
  - apply Hkeep. unfold node_onDisconnected. destruct control; [|apply keeps_ret].
    destruct graceful; [by apply keeps_removeContact|by apply keeps_neighbors_remove].
  - apply Hkeep. by apply keeps_ping_settled.
  - apply Hkeep. unfold pingNodes_answer. apply (keeps_active known ∅ (λ a, if online then {[id]} ∪ a else a ∖ {[id]})).
  - apply Hkeep. apply keeps_each. intros id _. by apply keeps_removeContact.
  - apply Hkeep. apply (keeps_active known ∅ (λ a, {[id]} ∪ a)).
  - destruct (keeps_stop known m Hok) as (m' & ? & ? & ?). eauto.
Qed.

Lemma peer_run_ok known evs m :
  maxContactCount ≠ 0 → Forall (λ e, adds known e.2) evs → peers_ok known ∅ m →
  ∃ m', peer_run evs m = (m', Return tt) ∧ peers_ok known ∅ m'.
Proof using Type.
  intros Hmax Hadds. revert m. induction Hadds as [|[view ev] evs Hev Hadds IH]; intros m Hok; [by exists m|].
  destruct (peer_step_ok known view ev m Hmax Hev Hok) as (m1 & Hm1 & Hok1 & _). destruct (IH m1 Hok1) as (m2 & Hm2 & Hok2).
  exists m2. split; [|done]. unfold peer_run in *. cbn [each]. unfold eff_bind. cbn [fst snd]. by rewrite Hm1.
Qed.

(** ** Removing a contact *)

Definition same_lists m m' : Prop :=
  pm_neighbors m' = pm_neighbors m ∧ pm_nearbyContacts m' = pm_nearbyContacts m ∧ pm_activeContacts m' = pm_activeContacts m ∧
  pm_ringContacts m' = pm_ringContacts m.

Lemma nearby_event_frame ev m : same_lists m (on_nearby_event ev m).1.
Proof using Type.
  destruct ev as [c|c]; [done|]. cbn [on_nearby_event]. unfold unless_stopped. destruct (pm_stopped m); [done|].
  unfold eff_bind, emit_effects, eff_modify, random_addContact. by destruct (random_add _ _ _ _).
Qed.

Lemma nearby_events_frame evs m : same_lists m (each on_nearby_event evs m).1.
Proof using Type.
  revert m. induction evs as [|ev evs IH]; intros m; [done|]. cbn [each]. unfold eff_bind.
  pose proof (nearby_event_frame ev m) as (E1 & E2 & E3 & E4). destruct (on_nearby_event ev m) as [m1 [[]|]]; cbn [fst] in *; [|done].
  destruct (IH m1) as (F1 & F2 & F3 & F4). split_and!; congruence.
Qed.

Lemma removed_contact known m nodeId :
  maxContactCount ≠ 0 → peers_ok known ∅ m → pm_stopped m = false →
  ∃ m', pm_removeContact nodeId m = (m', Return tt) ∧
    nodeId ∉ neighbor_ids m' ∧ nodeId ∉ getContactIds (pm_nearbyContacts m') ∧ nodeId ∉ pm_activeContacts m' ∧
    nodeId ∉ rl_contactIds (pm_randomContacts m') ∧
    pm_ringContacts m' = (ringContacts_remove id (getContact nodeId (pm_nearbyContacts m)) (pm_ringContacts m)).1.
Proof using Type.
  intros Hmax Hok Hs. unfold pm_removeContact, unless_stopped. rewrite Hs. set (gone := getContact nodeId (pm_nearbyContacts m)).
  assert (∃ m1, ring_removeContact gone m = (m1, Return tt) ∧ pm_nearbyContacts m1 = pm_nearbyContacts m ∧
    pm_ringContacts m1 = (ringContacts_remove id gone (pm_ringContacts m)).1 ∧ peers_ok known ∅ m1) as (m1 & E1 & Hn1 & Hr1 & Hok1).
  { destruct (keeps_ring_remove known ∅ gone m Hok) as (m1 & E1 & Hok1 & _). exists m1. split_and!; [done| | |done]; revert E1;
      unfold ring_removeContact; destruct (ringContacts_remove _ _ _) as [l evs]; by intros [= <-]. }
  assert (∃ m2, neighbors_remove nodeId m1 = (m2, Return tt) ∧ nodeId ∉ neighbor_ids m2 ∧ pm_nearbyContacts m2 = pm_nearbyContacts m1 ∧
    pm_ringContacts m2 = pm_ringContacts m1 ∧ peers_ok known ∅ m2) as (m2 & E2 & Hnb2 & Hn2 & Hr2 & Hok2).
  { destruct (keeps_neighbors_remove known ∅ nodeId (empty_subseteq _) m1 Hok1) as (m2 & E2 & Hok2 & _). exists m2. revert E2. unfold neighbors_remove.
    rewrite is_neighbor_spec. destruct (bool_decide_reflect (nodeId ∈ neighbor_ids m1)) as [Hin|Hnin]; [|intros [= <-]; by split_and!].
    unfold onKBucketRemoved, unless_stopped, emit_effects, eff_modify. cbn [pm_stopped with_kbucket]. intros E2.
    assert (nodeId ∉ toNodeId <$> kb_toArray (kb_remove nodeId (pm_neighbors m1))) as Hnin.
    { rewrite remaining_neighbor_ids. by intros [? _]%list_elem_of_filter. }
    destruct (pm_stopped m1); simplify_eq; by split_and!. }
  assert (∃ m3, nearby_removeContact nodeId m2 = (m3, Return tt) ∧ nodeId ∉ neighbor_ids m3 ∧ nodeId ∉ getContactIds (pm_nearbyContacts m3) ∧
    pm_ringContacts m3 = pm_ringContacts m2 ∧ peers_ok known ∅ m3) as (m3 & E3 & Hnb3 & Hnn3 & Hr3 & Hok3).
  { destruct (keeps_nearby_remove known ∅ nodeId Hmax m2 Hok2) as (m3 & E3 & Hok3 & _). exists m3. split; [done|]. revert E3. unfold nearby_removeContact.
    pose proof (remove_spec toNodeId distance nodeId _ (po_nearby _ _ _ Hok2)) as Hrem. destruct (removeContact _ _) as [[l evs] b].
    destruct Hrem as (_ & _ & _ & Hids). pose proof (nearby_events_frame evs (with_nearby l m2)) as (F1 & F2 & _ & F4). intros E3.
    rewrite E3 in F1, F2, F4. cbn in F1, F2, F4. unfold getNeighbors, getContactIds in *. rewrite F1, F2, F4, Hids.
    split_and!; [done| |done|done]. by intros [? _]%list_elem_of_filter. }
  unfold eff_bind at 1. rewrite E1. unfold eff_bind at 1. rewrite E2. unfold eff_bind at 1. rewrite E3. unfold eff_bind, eff_modify, random_removeContact.
  pose proof (random_remove_spec nodeId _ (po_random _ _ _ Hok3)) as Hrem. cbn [pm_randomContacts with_active].
  destruct (random_remove _ _) as [[l evs] b]. destruct Hrem as (_ & _ & _ & _ & Hids). unfold emit_effects, eff_modify.
  eexists. split_and!; [done|done|done|cbn; set_solver| |cbn; congruence]. cbn. rewrite Hids. by intros [? _]%list_elem_of_filter.
Qed.

(** ** The theorems *)

(** C38: the node's picture of its peers is consistent: whatever happens to the manager, no operation fails; the nearby contacts
    are the sorted, bounded list without the node itself; the neighbours are distinct and do not include the node; each side of
    the ring has at most five contacts; and as long as it runs, the connections that its own calls
    have weakly locked and not unlocked are exactly those of the neighbours (the lock table itself, which stopping the
    connections also clears, is not the manager's). *)
Theorem neighbors_are_locked n rolls evs lockId :
  maxContactCount ≠ 0 →
  ∃ m, peer_run evs (peers_new n rolls) = (m, Return tt) ∧
    let nearby := getContactIds (pm_nearbyContacts m) in
    (NoDup nearby ∧ length nearby ≤ maxContactCount ∧ localNodeId ∉ nearby ∧
      StronglySorted (λ a b, distance localNodeId a ≤ distance localNodeId b)%Z nearby) ∧
    (NoDup (neighbor_ids m) ∧ localNodeId ∉ neighbor_ids m) ∧
    (length (om_entries (rc_leftNeighbors (pm_ringContacts m))) ≤ 5 ∧ length (om_entries (rc_rightNeighbors (pm_ringContacts m))) ≤ 5) ∧
    (pm_stopped m = false → ∀ nodeId, isWeakLocked nodeId (weak_locks lockId (pm_out m)) = bool_decide (nodeId ∈ neighbor_ids m)).
Proof using Type.
  intros Hmax. destruct (peer_run_ok (λ _, True) evs (peers_new n rolls) Hmax) as (m & Hrun & []).
  { apply Forall_forall. by intros [view []]. } { apply peers_new_ok. }
  exists m. split; [done|]. unfold getContactIds. destruct po_nearby0. rewrite po_options0 in *. split_and!; try done.
  - by apply inv_bounded.
  - intros Hin. apply inv_admitted in Hin. unfold refuses in Hin. cbn in Hin. by rewrite (bool_decide_eq_true_2 (localNodeId = localNodeId)) in Hin.
  - apply po_ring0.
  - apply po_ring0.
  - intros Hs nodeId. rewrite weak_locks_spec. apply bool_decide_ext. rewrite po_locks0 by done. set_solver.
Qed.

(** A contact that is removed is gone from the neighbours, the nearby and the random contacts and from those that were
    active; from the ring it goes only if it was a nearby contact. *)
Theorem removed_contact_is_gone n rolls evs nodeId m :
  maxContactCount ≠ 0 → peer_run evs (peers_new n rolls) = (m, Return tt) → pm_stopped m = false →
  ∃ m', pm_removeContact nodeId m = (m', Return tt) ∧
    nodeId ∉ neighbor_ids m' ∧ nodeId ∉ getContactIds (pm_nearbyContacts m') ∧ nodeId ∉ pm_activeContacts m' ∧
    nodeId ∉ rl_contactIds (pm_randomContacts m') ∧
    (getContact nodeId (pm_nearbyContacts m) = None → pm_ringContacts m' = pm_ringContacts m).
Proof using Type.
  intros Hmax Hrun Hs. destruct (peer_run_ok (λ _, True) evs (peers_new n rolls) Hmax) as (m1 & Hrun1 & Hok).
  { apply Forall_forall. by intros [view []]. } { apply peers_new_ok. }
  assert (m1 = m) as -> by congruence. destruct (removed_contact (λ _, True) m nodeId Hmax Hok Hs) as (m' & Hm' & H1' & H2' & H3' & H4' & H5').
  exists m'. split_and!; [done..|]. intros Hnone. by rewrite H5', Hnone.
Qed.
End peers.

(** * A k-bucket that computes: one bucket of limited size *)

Definition flat_bucket : Type := { x : nat * list PeerDescriptor | bool_decide (length x.2 ≤ S x.1) = true }.

Lemma flat_room (c : PeerDescriptor) (b : flat_bucket) :
  length (`b).2 < S (`b).1 → bool_decide (length ((`b).1, c :: (`b).2).2 ≤ S ((`b).1, c :: (`b).2).1) = true.
Proof. intros Hlt. apply bool_decide_eq_true_2. cbn in *. lia. Qed.

Definition flat_add (c : PeerDescriptor) (b : flat_bucket) : flat_bucket + list PeerDescriptor :=
  match decide (length (`b).2 < S (`b).1) with
  | left Hlt => inl (exist _ ((`b).1, c :: (`b).2) (flat_room c b Hlt))
  | right _ => inr (`b).2
  end.

Program Definition flat_remove (nodeId : string) (b : flat_bucket) : flat_bucket :=
  exist _ ((`b).1, filter (λ c, toNodeId c ≠ nodeId) (`b).2) _.
Next Obligation.
  intros nodeId [[n l] Hb]. pose proof (bool_decide_eq_true_1 _ Hb) as Hb'. apply bool_decide_eq_true_2. cbn in *. clear Hb.
  etrans; [|exact Hb']. apply sublist_length, sublist_filter.
Qed.

#[export] Program Instance flat_kbucket : KBucket flat_bucket := {|
  kb_toArray b := (`b).2; kb_new _ n := exist _ (n, []) _; kb_get nodeId b := head (filter (λ c, toNodeId c = nodeId) (`b).2);
  kb_add := flat_add; kb_remove := flat_remove |}.
Next Obligation. intros _ n. apply bool_decide_eq_true_2. cbn. lia. Qed.
Next Obligation. done. Qed.
Next Obligation.
  intros nodeId [[n l] Hb]. cbn [proj1_sig fst snd]. clear Hb. rewrite list_elem_of_fmap.
  destruct (filter (λ c, toNodeId c = nodeId) l) as [|c rest] eqn:Hf; cbn [head].
  - split; [by intros [? [=]]|]. intros (c & -> & Hc).
    assert (c ∈ filter (λ c', toNodeId c' = toNodeId c) l) as Hin by by apply list_elem_of_filter. rewrite Hf in Hin. by apply not_elem_of_nil in Hin.
  - split; [|eauto]. intros _. assert (c ∈ filter (λ c', toNodeId c' = nodeId) l) as [<- Hin]%list_elem_of_filter by (rewrite Hf; left). eauto.
Qed.
Next Obligation. done. Qed.
Next Obligation.
  intros c [[n l] Hb] _. pose proof (bool_decide_eq_true_1 _ Hb) as Hb'. cbn in Hb'. unfold flat_add at 1. cbn [proj1_sig fst snd].
  destruct (decide (length l < S n)) as [Hlt|Hge]; [done|]. split; [intros ->; cbn in Hge; lia|]. intros old Hin. split; [done|].
  unfold flat_add, flat_remove. cbn [proj1_sig fst snd]. destruct (decide (length (filter _ l) < S n)) as [?|Hno]; [by eexists|].
  destruct Hno. assert (length (filter (λ c', toNodeId c' ≠ toNodeId old) l) < length l); [|lia].
  apply list_elem_of_split in Hin as (l1 & l2 & ->). rewrite filter_app, filter_cons_False by tauto. rewrite !length_app. cbn [length].
  pose proof (sublist_length _ _ (sublist_filter (λ c', toNodeId c' ≠ toNodeId old) l1)).
  pose proof (sublist_length _ _ (sublist_filter (λ c', toNodeId c' ≠ toNodeId old) l2)). lia.
Qed.

Module PeersWitness.

Definition node (n : Z) : PeerDescriptor := MkPeerDescriptor (n :: replicate 19 0%Z) (Some n) (Some 0%Z).
Definition node_id (n : Z) : string := toNodeId (node n).
Definition local : PeerDescriptor := node 64.

Notation manager := (PeerManager flat_bucket (list (Z * PeerDescriptor))).
Definition run (maxContactCount : nat) (evs : list ((string → bool) * peer_event)) : manager * outcome js_error unit :=
  peer_run ContactsWitness.distance local maxContactCount None evs (peers_new local maxContactCount 1 []).

Definition connected : string → bool := λ _, true.
Definition four : list ((string → bool) * peer_event) :=
  [(connected, PAdd (node 16)); (connected, PAdd (node 80)); (connected, PAdd (node 128)); (connected, PRemove (node_id 80))].

(** Two neighbours at most; the furthest one of a full bucket makes room. *)
Example full_bucket_drops_the_furthest :
  getNeighbors (run 5 [(connected, PAdd (node 16)); (connected, PAdd (node 80)); (connected, PAdd (node 48))]).1 = [node 48; node 80].
Proof. vm_compute. reflexivity. Qed.

(** A ring contact that is not among the nearby contacts survives its removal, for example after a ping that failed. *)
Example offline_ring_contact_stays :
  let m := (run 1 [(connected, PAdd (node 80)); (connected, PAdd (node 100));
                   (connected, PPingAnswer (node_id 100) false); (connected, PPrune [node_id 100])]).1 in
  getNeighbors m = [node 80] ∧ getContactIds (pm_nearbyContacts m) = [node_id 80] ∧
  node 100 ∈ ring_all (pm_ringContacts m).
Proof. split_and!; [vm_compute; reflexivity..|]. apply elem_of_app. left. vm_compute. left. Qed.

(** Asked for the ring contacts closest to its own place, a node that knows five on each side names one to the left. *)
Example one_left_contact_is_named :
  let m := (run 20 ((λ n, (connected, PAdd (node n))) <$> [50; 78; 52; 76; 54; 74; 56; 72; 58; 70]%Z)).1 in
  (length (om_entries (rc_leftNeighbors (pm_ringContacts m))), length (om_entries (rc_rightNeighbors (pm_ringContacts m)))) = (5, 5) ∧
  (getClosestRingContactsTo (KB := flat_bucket) (getRingIdRawFromPeerDescriptor local) (Some 5) None m).1 = [node 58].
Proof. split; vm_compute; reflexivity. Qed.

Lemma neighbors_are_locked_witness :
  ∃ m, run 3 four = (m, Return tt) ∧
    let nearby := getContactIds (pm_nearbyContacts m) in
    (NoDup nearby ∧ length nearby ≤ 3 ∧ localNodeId local ∉ nearby ∧
      StronglySorted (λ a b, ContactsWitness.distance (localNodeId local) a ≤ ContactsWitness.distance (localNodeId local) b)%Z nearby) ∧
    (NoDup (toNodeId <$> getNeighbors m) ∧ localNodeId local ∉ toNodeId <$> getNeighbors m) ∧
    (length (om_entries (rc_leftNeighbors (pm_ringContacts m))) ≤ 5 ∧ length (om_entries (rc_rightNeighbors (pm_ringContacts m))) ≤ 5) ∧
    (pm_stopped m = false → ∀ nodeId, isWeakLocked nodeId (weak_locks "lock" (pm_out m)) = bool_decide (nodeId ∈ toNodeId <$> getNeighbors m)).
Proof. apply (neighbors_are_locked ContactsWitness.distance local 3 None 1 [] four "lock"). discriminate. Defined.

Lemma removed_contact_is_gone_witness :
  let m := (run 3 four).1 in
  ∃ m', pm_removeContact (node_id 16) m = (m', Return tt) ∧
    node_id 16 ∉ toNodeId <$> getNeighbors m' ∧ node_id 16 ∉ getContactIds (pm_nearbyContacts m') ∧ node_id 16 ∉ pm_activeContacts m' ∧
    node_id 16 ∉ rl_contactIds (pm_randomContacts m') ∧
    (getContact (node_id 16) (pm_nearbyContacts m) = None → pm_ringContacts m' = pm_ringContacts m).
Proof.
  apply (removed_contact_is_gone ContactsWitness.distance local 3 None 1 [] four (node_id 16)); [discriminate| |vm_compute; reflexivity].
  vm_compute. reflexivity.
Defined.

End PeersWitness.
