(* ===== verification/Discovery.v ===== *)
(** How a DHT node finds its peers (packages/dht/src/dht/discovery/): [DiscoverySession], [RingDiscoverySession] and
    [PeerDiscovery].

    A discovery is driven by events: answers of remotes, calls of [findMoreContacts] that are scheduled, waits of joins
    that end, timers, and whatever else happens to the peer manager.  Sessions, joins and sets of contacted peers are
    numbered in the order of their creation. *)

From S2P Require Import Prelude.
From S2P Require Import JsMap.
From S2P Require Import Frames.
From S2P Require Import DataQuery.
From S2P Require Import Contacts.
From S2P Require Import Ring.
From S2P Require Import Peers.

Set Default Proof Using "Type".
Local Open Scope eff_scope.

(** What a session looks for: the nodes close to an id, or to a place on the ring *)
Inductive session_target := NodeTarget (targetId : string) | RingTarget (targetId : bytes).

(** [se_calls] counts the scheduled calls of [findMoreContacts]; [se_contactedPeers] names a shared set. *)
Record DiscoverySession := MkDiscoverySession {
  se_target : session_target;
  se_contactedPeers : nat;
  se_noProgressCounter : nat;
  se_ongoingRequests : gset string;
  se_doneGate : bool;
  se_calls : nat;
  se_started : bool
}.

Definition discoverySession_new (target : session_target) (contactedPeers : nat) : DiscoverySession :=
  MkDiscoverySession target contactedPeers 0 ∅ false 0 false.

Definition se_with ongoing calls (s : DiscoverySession) : DiscoverySession :=
  MkDiscoverySession (se_target s) (se_contactedPeers s) (se_noProgressCounter s) ongoing (se_doneGate s) calls (se_started s).
Definition se_open (s : DiscoverySession) : DiscoverySession :=
  MkDiscoverySession (se_target s) (se_contactedPeers s) (se_noProgressCounter s) (se_ongoingRequests s) true (se_calls s) (se_started s).
Definition se_no_progress (s : DiscoverySession) : DiscoverySession :=
  MkDiscoverySession (se_target s) (se_contactedPeers s) (S (se_noProgressCounter s)) (se_ongoingRequests s) (se_doneGate s) (se_calls s) (se_started s).
Definition se_start (s : DiscoverySession) : DiscoverySession :=
  MkDiscoverySession (se_target s) (se_contactedPeers s) (se_noProgressCounter s) (se_ongoingRequests s) (se_doneGate s) (S (se_calls s)) true.

(** What a join waits for: the end of a session, a promise that is resolved already, the first fetch of the recovery interval, or,
    in [rejoinDht], a join that returned early or failed *)
Inductive join_wait := WaitSession (session : nat) | WaitNothing | WaitRecovery | WaitReturn (failed : bool).

(** A run of [runSessions] or, without an entry point, of [runRingSessions] *)
Record Join := MkJoin {
  jn_entryPoint : option PeerDescriptor;
  jn_sessions : list nat;     (** all its sessions *)
  jn_remaining : list nat;    (** those not begun *)
  jn_wait : join_wait;
  jn_retry : bool;
  jn_rejoin : bool            (** called by [rejoinDht] *)
}.

Record PeerDiscovery (KB M : Type) := MkDiscovery {
  di_peers : PeerManager KB M;
  di_contacted : list (gset string);
  di_sessions : list DiscoverySession;
  di_aborted : bool;
  di_requests : list (nat * string);                  (** requests made, with the set of contacted peers *)
  di_joins : gmap nat Join;
  di_nextJoin : nat;
  di_ongoingDiscoverySessions : gset nat;
  di_ongoingRingDiscoverySessions : gset nat;
  di_rejoinOngoing : bool;
  di_joinCalled : bool;
  di_recoveryIntervalStarted : bool;
  di_timers : list (PeerDescriptor * Z);              (** rejoins to come, with their delay *)
  di_entryPointLocks : list (bool * string)           (** [lockConnection] and [unlockConnection] *)
}.
Arguments MkDiscovery {KB M}.
Arguments di_peers {KB M}.
Arguments di_contacted {KB M}.
Arguments di_sessions {KB M}.
Arguments di_aborted {KB M}.
Arguments di_requests {KB M}.
Arguments di_joins {KB M}.
Arguments di_nextJoin {KB M}.
Arguments di_ongoingDiscoverySessions {KB M}.
Arguments di_ongoingRingDiscoverySessions {KB M}.
Arguments di_rejoinOngoing {KB M}.
Arguments di_joinCalled {KB M}.
Arguments di_recoveryIntervalStarted {KB M}.
Arguments di_timers {KB M}.
Arguments di_entryPointLocks {KB M}.

(** The part that sessions work on, and the part of the joins *)
Definition with_work {KB M} (peers : PeerManager KB M) contacted sessions requests (d : PeerDiscovery KB M) : PeerDiscovery KB M :=
  MkDiscovery peers contacted sessions (di_aborted d) requests (di_joins d) (di_nextJoin d) (di_ongoingDiscoverySessions d)
    (di_ongoingRingDiscoverySessions d) (di_rejoinOngoing d) (di_joinCalled d) (di_recoveryIntervalStarted d) (di_timers d) (di_entryPointLocks d).
Definition with_peers {KB M} (peers : PeerManager KB M) (d : PeerDiscovery KB M) : PeerDiscovery KB M :=
  with_work peers (di_contacted d) (di_sessions d) (di_requests d) d.
Definition with_session {KB M} i (s : DiscoverySession) (d : PeerDiscovery KB M) : PeerDiscovery KB M :=
  with_work (di_peers d) (di_contacted d) (<[i := s]> (di_sessions d)) (di_requests d) d.
Definition with_joins {KB M} joins next (d : PeerDiscovery KB M) : PeerDiscovery KB M :=
  MkDiscovery (di_peers d) (di_contacted d) (di_sessions d) (di_aborted d) (di_requests d) joins next (di_ongoingDiscoverySessions d)
    (di_ongoingRingDiscoverySessions d) (di_rejoinOngoing d) (di_joinCalled d) (di_recoveryIntervalStarted d) (di_timers d) (di_entryPointLocks d).
Definition with_ongoing {KB M} plain ring (d : PeerDiscovery KB M) : PeerDiscovery KB M :=
  MkDiscovery (di_peers d) (di_contacted d) (di_sessions d) (di_aborted d) (di_requests d) (di_joins d) (di_nextJoin d) plain
    ring (di_rejoinOngoing d) (di_joinCalled d) (di_recoveryIntervalStarted d) (di_timers d) (di_entryPointLocks d).
Definition with_flags {KB M} aborted rejoin called recovery (d : PeerDiscovery KB M) : PeerDiscovery KB M :=
  MkDiscovery (di_peers d) (di_contacted d) (di_sessions d) aborted (di_requests d) (di_joins d) (di_nextJoin d) (di_ongoingDiscoverySessions d)
    (di_ongoingRingDiscoverySessions d) rejoin called recovery (di_timers d) (di_entryPointLocks d).
Definition with_timers {KB M} timers (d : PeerDiscovery KB M) : PeerDiscovery KB M :=
  MkDiscovery (di_peers d) (di_contacted d) (di_sessions d) (di_aborted d) (di_requests d) (di_joins d) (di_nextJoin d) (di_ongoingDiscoverySessions d)
    (di_ongoingRingDiscoverySessions d) (di_rejoinOngoing d) (di_joinCalled d) (di_recoveryIntervalStarted d) timers (di_entryPointLocks d).
Definition with_entry_lock {KB M} (lock : bool) nodeId (d : PeerDiscovery KB M) : PeerDiscovery KB M :=
  MkDiscovery (di_peers d) (di_contacted d) (di_sessions d) (di_aborted d) (di_requests d) (di_joins d) (di_nextJoin d) (di_ongoingDiscoverySessions d)
    (di_ongoingRingDiscoverySessions d) (di_rejoinOngoing d) (di_joinCalled d) (di_recoveryIntervalStarted d) (di_timers d)
    (di_entryPointLocks d ++ [(lock, nodeId)]).

Section discovery.
  Context (distance : string → string → Z) `{SortedIndex} {M} `{OrderedMap PeerDescriptor M} {KB} `{KBucket KB}.
  Context (localPeerDescriptor : PeerDescriptor) (maxContactCount : nat) (neighborPingLimit : option nat).
  Context (parallelism joinNoProgressLimit : nat).
  Notation manager := (PeerManager KB M).
  Notation discovery := (PeerDiscovery KB M).
  Notation add_contact := (pm_addContact distance localPeerDescriptor neighborPingLimit).
  Implicit Types (m : manager) (d : discovery) (s : DiscoverySession) (c : PeerDescriptor) (hasConnection : string → bool) (nodeId : string).

Definition discovery_new m : discovery :=
  MkDiscovery m [] [] false [] ∅ 0 ∅ ∅ false false false [] [].

(** ** Sessions *)

(** [addContacts] of a session *)
Definition session_addContacts hasConnection s (contacts : list PeerDescriptor) d : eff manager js_error unit :=
  if di_aborted d || se_doneGate s then eff_ret tt else each (add_contact hasConnection) contacts.

(** [getClosestNeighbor], [None] where reading [nodeId] of its result throws *)
Definition getClosestNeighbor (targetId : string) m : option string :=
  match getClosestNodes toNodeId distance targetId (getNeighbors m) (Some 1) None with
  | Return nodes => toNodeId <$> head nodes
  | Throw _ => None
  end.

(** The distances of the closest ring contacts on each side; both are computed by [getLeftDistance]. *)
Definition closest_ring_distances (targetId : bytes) m : option (Z * Z) :=
  let closest := getClosestRingContactsTo targetId (Some 1) None m in
  let distance c := getLeftDistance (getRingIdFromRaw targetId) (getRingIdFromPeerDescriptor c) in
  match head closest.1, head closest.2 with Some l, Some r => Some (distance l, distance r) | _, _ => None end.

(** What a session compares to see progress: a list of distances *)
Definition closeness (target : session_target) m : option (list Z) :=
  match target with
  | NodeTarget targetId => (λ nodeId, [distance targetId nodeId]) <$> getClosestNeighbor targetId m
  | RingTarget targetId => (λ ds, [ds.1; ds.2]) <$> closest_ring_distances targetId m
  end.

(** [onRequestSucceeded]; an error in it is caught, and [onRequestFailed] then finds no ongoing request. *)
Definition discovery_succeeded hasConnection i nodeId (contacts : list PeerDescriptor) d : discovery :=
  match di_sessions d !! i with
  | None => d
  | Some s =>
      if negb (bool_decide (nodeId ∈ se_ongoingRequests s)) then d
      else
        let s := se_with (se_ongoingRequests s ∖ {[nodeId]}) (se_calls s) s in
        let d := with_session i s d in
        match closeness (se_target s) (di_peers d) with
        | None => d
        | Some old =>
            match session_addContacts hasConnection s contacts d (di_peers d) with
            | (m, Throw _) => with_peers m d
            | (m, Return _) =>
                let d := with_peers m d in
                match closeness (se_target s) m with
                | None => d
                | Some new =>
                    if forallb (λ p, (p.2 <=? p.1)%Z) (zip new old) then with_session i (se_no_progress s) d else d
                end
            end
        end
  end.

Definition discovery_failed i nodeId d : discovery :=
  match di_sessions d !! i with
  | None => d
  | Some s =>
      if negb (bool_decide (nodeId ∈ se_ongoingRequests s)) then d
      else
        let d := with_session i (se_with (se_ongoingRequests s ∖ {[nodeId]}) (se_calls s) s) d in
        with_peers (pm_removeContact nodeId (di_peers d)).1 d
  end.

(** [merged] of the ring session: both sides in turn, each contact once *)
Definition push_new (merged : list PeerDescriptor) c : list PeerDescriptor :=
  if bool_decide (toNodeId c ∈ toNodeId <$> merged) then merged else merged ++ [c].

Definition merge_sides (left right : list PeerDescriptor) : list PeerDescriptor :=
  foldl (λ merged i,
    let merged := match left !! i with Some c => push_new merged c | None => merged end in
    match right !! i with Some c => push_new merged c | None => merged end) [] (seq 0 (length left `max` length right)).

(** The peers a session may ask, and whether it is done when there are none *)
Definition uncontacted (contactedPeers : gset string) s m : outcome js_error (list PeerDescriptor * bool) :=
  match se_target s with
  | NodeTarget targetId =>
      (let? nodes := getClosestNodes toNodeId distance targetId (getAllContactsInUndefinedOrder (pm_nearbyContacts m))
                       (Some parallelism) (Some contactedPeers) in
       Return (nodes, bool_decide (nodes = []) && bool_decide (se_ongoingRequests s = ∅)))%eff
  | RingTarget targetId =>
      let sides := getClosestRingContactsTo targetId (Some parallelism) (Some contactedPeers) m in
      Return (merge_sides sides.1 sides.2, bool_decide (sides.1 = []) && bool_decide (sides.2 = []))
  end.

(** The loop of [findMoreContacts] with the first part of the fetch: the requests made *)
Fixpoint contact_loop (nodes : list PeerDescriptor) (ongoing contactedPeers : gset string) : gset string * gset string * list string :=
  match nodes with
  | [] => (ongoing, contactedPeers, [])
  | node :: nodes =>
      if (parallelism <=? size ongoing)%nat then (ongoing, contactedPeers, [])
      else
        let nodeId := toNodeId node in
        let '(ongoing, contactedPeers, requests) := contact_loop nodes ({[nodeId]} ∪ ongoing) ({[nodeId]} ∪ contactedPeers) in
        (ongoing, contactedPeers, nodeId :: requests)
  end.

(** An error of [findMoreContacts] rejects a promise that nobody waits for. *)
Definition findMoreContacts i d : discovery :=
  match di_sessions d !! i with
  | None => d
  | Some s =>
      if di_aborted d || se_doneGate s then d
      else
        let g := se_contactedPeers s in
        let contactedPeers := default ∅ (di_contacted d !! g) in
        match uncontacted contactedPeers s (di_peers d) with
        | Throw _ => d
        | Return (nodes, finished) =>
            if finished || (joinNoProgressLimit <=? se_noProgressCounter s)%nat then with_session i (se_open s) d
            else
              let '(ongoing, contactedPeers, requests) := contact_loop nodes (se_ongoingRequests s) contactedPeers in
              with_work (di_peers d) (<[g := contactedPeers]> (di_contacted d)) (<[i := se_with ongoing (se_calls s) s]> (di_sessions d))
                (di_requests d ++ ((λ nodeId, (g, nodeId)) <$> requests)) d
        end
  end.

(** The answer of a request, or its failure ([None]), and the call that follows it *)
Definition request_settled hasConnection i nodeId (answer : option (list PeerDescriptor)) d : discovery :=
  match di_sessions d !! i with
  | None => d
  | Some s =>
      if negb (bool_decide (nodeId ∈ se_ongoingRequests s)) then d
      else
        let d := with_session i (se_with (se_ongoingRequests s) (S (se_calls s)) s) d in
        match answer with
        | Some contacts => discovery_succeeded hasConnection i nodeId contacts (with_peers (setContactActive nodeId (di_peers d)).1 d)
        | None => discovery_failed i nodeId d
        end
  end.

Definition scheduled_call i d : discovery :=
  match di_sessions d !! i with
  | Some s =>
      match se_calls s with
      | O => d
      | S n => findMoreContacts i (with_session i (se_with (se_ongoingRequests s) n s) d)
      end
  | None => d
  end.

(** [findClosestNodes]: whether it has to wait *)
Definition findClosestNodes i d : discovery * bool :=
  match di_sessions d !! i with
  | None => (d, false)
  | Some s =>
      if (getNearbyContactCount (Some (default ∅ (di_contacted d !! se_contactedPeers s))) (di_peers d) =? 0)%Z then (d, false)
      else (with_session i (se_start s) d, true)
  end.

(** ** PeerDiscovery *)

Definition flip_byte (b : Z) : Z := 255 - b.
(** [createDistantDhtAddress] *)
Definition createDistantDhtAddress (c : PeerDescriptor) : string := binaryToHex (flip_byte <$> pd_nodeId c) false.

Definition createSession (target : session_target) (contactedPeers : nat) d : discovery * nat :=
  (with_work (di_peers d) (di_contacted d) (di_sessions d ++ [discoverySession_new target contactedPeers]) (di_requests d) d, length (di_sessions d)).

(** [new Set()] *)
Definition new_contacted d : discovery * nat :=
  (with_work (di_peers d) (di_contacted d ++ [∅]) (di_sessions d) (di_requests d) d, length (di_contacted d)).

(** The end of [joinThroughEntryPoint] and of [rejoinDht], after [runSessions] *)
Definition join_ended (j : nat) (jn : Join) d : discovery :=
  let d := with_joins (delete j (di_joins d)) (di_nextJoin d) d in
  let d := with_ongoing (di_ongoingDiscoverySessions d ∖ list_to_set (jn_sessions jn)) (di_ongoingRingDiscoverySessions d) d in
  match jn_entryPoint jn with
  | None => d
  | Some entryPoint =>
      let d := with_entry_lock false (toNodeId entryPoint) d in
      if jn_rejoin jn then with_flags (di_aborted d) false (di_joinCalled d) (di_recoveryIntervalStarted d) d else d
  end.

Definition REJOIN_DELAY : Z := 1000.
Definition FAILED_REJOIN_DELAY : Z := 5000.

(** The [finally] of [runSessions] and [runRingSessions] *)
Definition sessions_ended (j : nat) (jn : Join) d : discovery :=
  match jn_entryPoint jn with
  | None => join_ended j jn d
  | Some entryPoint =>
      if di_aborted d then join_ended j jn d
      else if (getNeighborCount (di_peers d) =? 0)%nat then
        join_ended j jn (if jn_retry jn then with_timers (di_timers d ++ [(entryPoint, REJOIN_DELAY)]) d else d)
      else if di_recoveryIntervalStarted d then join_ended j jn d
      else
        let d := with_flags (di_aborted d) (di_rejoinOngoing d) (di_joinCalled d) true d in
        with_joins (<[j := MkJoin (jn_entryPoint jn) (jn_sessions jn) (jn_remaining jn) WaitRecovery (jn_retry jn) (jn_rejoin jn)]> (di_joins d))
          (di_nextJoin d) d
  end.

(** The loop of [runSessions] and [runRingSessions], up to its next wait *)
Definition next_session (j : nat) (jn : Join) d : discovery :=
  match jn_remaining jn with
  | [] => sessions_ended j jn d
  | i :: remaining =>
      let d := match jn_entryPoint jn with
               | Some _ => with_ongoing ({[i]} ∪ di_ongoingDiscoverySessions d) (di_ongoingRingDiscoverySessions d) d
               | None => with_ongoing (di_ongoingDiscoverySessions d) ({[i]} ∪ di_ongoingRingDiscoverySessions d) d
               end in
      let '(d, waits) := findClosestNodes i d in
      let wait := if waits then WaitSession i else WaitNothing in
      with_joins (<[j := MkJoin (jn_entryPoint jn) (jn_sessions jn) remaining wait (jn_retry jn) (jn_rejoin jn)]> (di_joins d)) (di_nextJoin d) d
  end.

Definition start_join (entryPoint : option PeerDescriptor) (sessions : list nat) (retry rejoin : bool) d : discovery :=
  let j := di_nextJoin d in
  let jn := MkJoin entryPoint sessions sessions WaitNothing retry rejoin in
  next_session j jn (with_joins (<[j := jn]> (di_joins d)) (S j) d).

(** A join that begins no session: [rejoinDht] goes on after its [await]. *)
Definition join_returns (rejoin failed : bool) entryPoint d : discovery :=
  if rejoin then with_joins (<[di_nextJoin d := MkJoin (Some entryPoint) [] [] (WaitReturn failed) true true]> (di_joins d)) (S (di_nextJoin d)) d
  else d.

(** The [catch] and the [finally] of [rejoinDht] *)
Definition rejoin_over (j : nat) (jn : Join) (failed : bool) d : discovery :=
  let d := match jn_entryPoint jn with
           | Some entryPoint => if failed && negb (di_aborted d) then with_timers (di_timers d ++ [(entryPoint, FAILED_REJOIN_DELAY)]) d else d
           | None => d
           end in
  with_flags (di_aborted d) false (di_joinCalled d) (di_recoveryIntervalStarted d) (with_joins (delete j (di_joins d)) (di_nextJoin d) d).

Definition joinThroughEntryPoint hasConnection entryPoint (contactedPeers : nat) (additionalDistantJoin : option nat) (retry rejoin : bool) d : discovery :=
  if di_aborted d then join_returns rejoin false entryPoint d
  else
    let d := with_flags (di_aborted d) (di_rejoinOngoing d) true (di_recoveryIntervalStarted d) d in
    if bool_decide (pd_nodeId entryPoint = pd_nodeId localPeerDescriptor) then join_returns rejoin false entryPoint d
    else
      let d := with_entry_lock true (toNodeId entryPoint) d in
      match add_contact hasConnection entryPoint (di_peers d) with
      | (m, Throw _) => join_returns rejoin true entryPoint (with_peers m d)
      | (m, Return _) =>
          let d := with_peers m d in
          let '(d, i) := createSession (NodeTarget (toNodeId localPeerDescriptor)) contactedPeers d in
          let '(d, sessions) := match additionalDistantJoin with
                                | Some distant =>
                                    let '(d, i') := createSession (NodeTarget (createDistantDhtAddress localPeerDescriptor)) distant d in (d, [i; i'])
                                | None => (d, [i])
                                end in
          start_join (Some entryPoint) sessions retry rejoin d
      end.

Fixpoint join_all hasConnection (entryPoints : list PeerDescriptor) (contactedPeers : nat) (distant : option nat) (retry : bool) d : discovery :=
  match entryPoints with
  | [] => d
  | entryPoint :: entryPoints =>
      join_all hasConnection entryPoints contactedPeers distant retry (joinThroughEntryPoint hasConnection entryPoint contactedPeers distant retry false d)
  end.

Definition joinDht hasConnection (entryPoints : list PeerDescriptor) (doAdditionalDistantPeerDiscovery retry : bool) d : discovery :=
  let '(d, contactedPeers) := new_contacted d in
  let '(d, distant) := if doAdditionalDistantPeerDiscovery then let '(d, g) := new_contacted d in (d, Some g) else (d, None) in
  join_all hasConnection entryPoints contactedPeers distant retry d.

Definition joinRing d : discovery :=
  let '(d, contactedPeers) := new_contacted d in
  let '(d, i) := createSession (RingTarget (getRingIdRawFromPeerDescriptor localPeerDescriptor)) contactedPeers d in
  start_join None [i] false false d.

Definition rejoinDht hasConnection entryPoint (contactedPeers distantJoinContactPeers : nat) d : discovery :=
  if di_aborted d || di_rejoinOngoing d then d
  else
    let d := with_flags (di_aborted d) true (di_joinCalled d) (di_recoveryIntervalStarted d) d in
    joinThroughEntryPoint hasConnection entryPoint contactedPeers (Some distantJoinContactPeers) true true d.

(** A rejoin of a timer, with sets of its own *)
Definition rejoin_timeout hasConnection (k : nat) d : discovery :=
  match di_timers d !! k with
  | None => d
  | Some (entryPoint, _) =>
      let d := with_timers (delete k (di_timers d)) d in
      if di_aborted d then d
      else
        let '(d, contactedPeers) := new_contacted d in
        let '(d, distant) := new_contacted d in rejoinDht hasConnection entryPoint contactedPeers distant d
  end.

Definition isJoinOngoing d : bool := if negb (di_joinCalled d) then true else (0 <? size (di_ongoingDiscoverySessions d))%nat.
Definition isJoinCalled d : bool := di_joinCalled d.

(** The listener of [kBucketEmpty] in DhtNode.ts, and its task *)
Inductive empty_reaction := RejoinTask | ManualRejoinRequired | NoReaction.
Definition onKBucketEmpty (entryPoints : list PeerDescriptor) d : empty_reaction :=
  if isJoinOngoing d then NoReaction else if bool_decide (entryPoints = []) then ManualRejoinRequired else RejoinTask.
Fixpoint rejoin_all hasConnection (entryPoints : list PeerDescriptor) (contactedPeers distant : nat) d : discovery :=
  match entryPoints with
  | [] => d
  | entryPoint :: entryPoints =>
      rejoin_all hasConnection entryPoints contactedPeers distant (rejoinDht hasConnection entryPoint contactedPeers distant d)
  end.
Definition kbucket_empty_task hasConnection (entryPoints : list PeerDescriptor) d : discovery :=
  let '(d, contactedPeers) := new_contacted d in
  let '(d, distant) := new_contacted d in rejoin_all hasConnection entryPoints contactedPeers distant d.

(** A join goes on when the gate of its session is open, when the wait timed out or was aborted, or when the first fetch of the
    recovery interval is over. *)
Definition join_continues (j : nat) (timedOut : bool) d : discovery :=
  match di_joins d !! j with
  | None => d
  | Some jn =>
      match jn_wait jn with
      | WaitRecovery => join_ended j jn d
      | WaitNothing => next_session j jn d
      | WaitReturn failed => rejoin_over j jn failed d
      | WaitSession i =>
          if timedOut || di_aborted d then sessions_ended j jn d
          else if match di_sessions d !! i with Some s => se_doneGate s | None => false end then next_session j jn d
          else d
      end
  end.

(** [fetchClosestAndRandomNeighbors]: whom it asks; the contacts in an answer are added one by one. *)
Definition fetchClosestAndRandomNeighbors (randomId : string) d : list PeerDescriptor :=
  if di_aborted d then []
  else
    let closest referenceId maxCount :=
      match getClosestNodes toNodeId distance referenceId (getNeighbors (di_peers d)) (Some maxCount) None with Return l => l | Throw _ => [] end in
    closest (toNodeId localPeerDescriptor) parallelism ++ closest randomId 1.

(** ** What happens *)

Inductive discovery_event :=
  | DJoin (entryPoints : list PeerDescriptor) (distant retry : bool)
  | DJoinRing
  | DKBucketEmpty (entryPoints : list PeerDescriptor)
  | DTimer (k : nat)
  | DSettled (i : nat) (nodeId : string) (answer : option (list PeerDescriptor))
  | DCall (i : nat)
  | DContinue (j : nat) (timedOut : bool)
  | DPeers (ev : peer_event)
  | DAbort.

Definition discovery_step hasConnection (ev : discovery_event) d : discovery :=
  match ev with
  | DJoin entryPoints distant retry => joinDht hasConnection entryPoints distant retry d
  | DJoinRing => joinRing d
  | DKBucketEmpty entryPoints => kbucket_empty_task hasConnection entryPoints d
  | DTimer k => rejoin_timeout hasConnection k d
  | DSettled i nodeId answer => request_settled hasConnection i nodeId answer d
  | DCall i => scheduled_call i d
  | DContinue j timedOut => join_continues j timedOut d
  | DPeers ev => with_peers (peer_step distance localPeerDescriptor maxContactCount neighborPingLimit hasConnection ev (di_peers d)).1 d
  | DAbort => with_flags true (di_rejoinOngoing d) (di_joinCalled d) (di_recoveryIntervalStarted d) d
  end.

(** ** Whom a session asks *)

Lemma contact_loop_spec nodes ongoing contactedPeers :
  let '(ongoing', contactedPeers', requests) := contact_loop nodes ongoing contactedPeers in
  requests `prefix_of` (toNodeId <$> nodes) ∧ ongoing' = ongoing ∪ list_to_set requests ∧
  contactedPeers' = contactedPeers ∪ list_to_set requests ∧ (size ongoing ≤ parallelism → size ongoing' ≤ parallelism) ∧
  (nodes ≠ [] → parallelism ≠ 0 → ongoing' ≠ ∅).
Proof using Type.
  revert ongoing contactedPeers. induction nodes as [|node nodes IH]; intros ongoing contactedPeers.
  { cbn. split_and!; [done|by rewrite (right_id_L ∅ (∪))..|done|done]. }
  cbn [contact_loop]. destruct (Nat.leb_spec parallelism (size ongoing)) as [Hfull|Hroom].
  { cbn. rewrite !(right_id_L ∅ (∪)). split_and!; [apply prefix_nil|done..|]. intros _ Hp ->. rewrite size_empty in Hfull. lia. }
  specialize (IH ({[toNodeId node]} ∪ ongoing) ({[toNodeId node]} ∪ contactedPeers)).
  destruct (contact_loop nodes _ _) as [[ongoing' contacted'] requests]. destruct IH as (Hp & -> & -> & Hs & _).
  split_and!.
  - rewrite fmap_cons. by apply prefix_cons.
  - rewrite list_to_set_cons, (assoc_L (∪)). f_equal. apply (comm_L (∪)).
  - rewrite list_to_set_cons, (assoc_L (∪)). f_equal. apply (comm_L (∪)).
  - intros _. apply Hs. rewrite size_union_alt, size_singleton.
    pose proof (subseteq_size (ongoing ∖ {[toNodeId node]}) ongoing (subseteq_difference_l _ _ _ (reflexivity _))). lia.
  - intros _ _ Hempty. assert (toNodeId node ∈ (∅ : gset string)) as Hin; [|by apply not_elem_of_empty in Hin].
    rewrite <-Hempty. apply elem_of_union. left. apply elem_of_union. left. by apply elem_of_singleton.
Qed.

Lemma push_new_spec merged c :
  NoDup (toNodeId <$> merged) →
  NoDup (toNodeId <$> push_new merged c) ∧ push_new merged c ≠ [] ∧ ∀ c', c' ∈ push_new merged c → c' = c ∨ c' ∈ merged.
Proof using Type.
  intros Hnd. unfold push_new. destruct (bool_decide_reflect (toNodeId c ∈ toNodeId <$> merged)) as [Hin|Hnin].
  - split_and!; [done| |by right]. intros ->. by apply not_elem_of_nil in Hin.
  - split_and!.
    + rewrite fmap_app. apply NoDup_app. split_and!; [done| |apply NoDup_singleton]. by intros x Hx ->%list_elem_of_singleton.
    + by destruct merged.
    + intros c' [?| ->%list_elem_of_singleton]%elem_of_app; [by right|by left].
Qed.

Definition merge_step (left right merged : list PeerDescriptor) (i : nat) : list PeerDescriptor :=
  let merged := match left !! i with Some c => push_new merged c | None => merged end in
  match right !! i with Some c => push_new merged c | None => merged end.

Lemma merge_step_spec left right merged i :
  NoDup (toNodeId <$> merged) →
  NoDup (toNodeId <$> merge_step left right merged i) ∧
  (∀ c, c ∈ merge_step left right merged i → c ∈ merged ∨ c ∈ left ∨ c ∈ right) ∧
  (merged ≠ [] ∨ is_Some (left !! i) ∨ is_Some (right !! i) → merge_step left right merged i ≠ []).
Proof using Type.
  intros Hnd. unfold merge_step.
  assert (∀ (l : list PeerDescriptor) acc, NoDup (toNodeId <$> acc) →
    let acc' := match l !! i with Some c => push_new acc c | None => acc end in
    NoDup (toNodeId <$> acc') ∧ (∀ c, c ∈ acc' → c ∈ acc ∨ c ∈ l) ∧ (acc ≠ [] ∨ is_Some (l !! i) → acc' ≠ [])) as Hside.
  { intros l acc Hacc. destruct (l !! i) as [c|] eqn:Hi; cbn.
    - destruct (push_new_spec acc c Hacc) as (H1' & H2' & H3'). split_and!; [done| |done].
      intros c' [->|?]%H3'; [right; by eapply list_elem_of_lookup_2|by left].
    - split_and!; [done|by left|]. intros [?|[? [=]]]. done. }
  destruct (Hside left merged Hnd) as (H1' & H2' & H3'). cbn zeta in H1', H2', H3'.
  set (acc := match left !! i with Some c => push_new merged c | None => merged end) in *. clearbody acc.
  destruct (Hside right acc H1') as (H4' & H5' & H6'). cbn zeta in *. split_and!; [done| |tauto].
  intros c Hc. apply H5' in Hc as [Hc|?]; [|tauto]. apply H2' in Hc. tauto.
Qed.

Lemma merge_sides_spec left right :
  NoDup (toNodeId <$> merge_sides left right) ∧ (∀ c, c ∈ merge_sides left right → c ∈ left ∨ c ∈ right) ∧
  (left ≠ [] ∨ right ≠ [] → merge_sides left right ≠ []).
Proof using Type.
  assert (∀ ixs acc, NoDup (toNodeId <$> acc) → let r := foldl (merge_step left right) acc ixs in
    NoDup (toNodeId <$> r) ∧ (∀ c, c ∈ r → c ∈ acc ∨ c ∈ left ∨ c ∈ right) ∧ (acc ≠ [] → r ≠ [])) as Hfold.
  { induction ixs as [|i ixs IH]; intros acc Hacc; cbn; [split_and!; [done|by left|done]|].
    destruct (merge_step_spec left right acc i Hacc) as (H1' & H2' & H3'). destruct (IH _ H1') as (H4' & H5' & H6'). split_and!; [done| |].
    - intros c Hc. apply H5' in Hc as [Hc|?]; [|tauto]. apply H2' in Hc. tauto.
    - intros Hne. apply H6', H3'. by left. }
  change (merge_sides left right) with (foldl (merge_step left right) [] (seq 0 (length left `max` length right))).
  destruct (Hfold (seq 0 (length left `max` length right)) [] NoDup_nil_2) as (H1' & H2' & _). split_and!; [done| |].
  - intros c Hc. apply H2' in Hc as [Hc|?]; [by apply not_elem_of_nil in Hc|tauto].
  - intros Hne. destruct (length left `max` length right) as [|n] eqn:Hn.
    { destruct left, right; cbn in Hn; try lia. by destruct Hne. }
    cbn [seq foldl]. destruct (merge_step_spec left right [] 0 NoDup_nil_2) as (H3' & _ & H5'). destruct (Hfold (seq 1 n) _ H3') as (_ & _ & H6').
    apply H6', H5'. right. destruct Hne as [Hl|Hr]; [left; destruct left; [done|by eexists]|right; destruct right; [done|by eexists]].
Qed.

Notation no_local m := (peers_ok distance localPeerDescriptor maxContactCount (λ _, True) ∅ m).
Notation local_id := (localNodeId localPeerDescriptor).

Lemma ring_candidates ring m limit (X : gset string) c :
  no_local m → let sides := getClosestRingContactsTo ring limit (Some X) m in
  c ∈ sides.1 ∨ c ∈ sides.2 → toNodeId c ∉ X ∧ toNodeId c ≠ local_id.
Proof using Type.
  intros Hok sides Hc. unfold sides, getClosestRingContactsTo in Hc. set (l0 := ringContacts_new ring (Some X) false) in Hc.
  set (l := ring_adds _ _ l0) in Hc.
  assert (c ∈ ring_all l) as Hall.
  { unfold ring_closest in Hc. cbn [fst snd] in Hc. unfold ring_all. apply elem_of_app. destruct Hc as [Hc|Hc]; [left|right];
      eapply sublist_subseteq; [apply sublist_take| |apply sublist_take|]; exact Hc. }
  destruct (ring_adds_ok id (ring_all (pm_ringContacts m)) l0 (ring_contacts_new_ok id _ _ _)) as (Hok' & _ & Hex). fold l in Hok', Hex. split.
  - pose proof (ring_all_admitted id l c Hok' Hall) as Hr. unfold ring_refuses in Hr. rewrite Hex in Hr. cbn in Hr.
    apply orb_false_iff in Hr as [_ Hr]. by apply bool_decide_eq_false in Hr.
  - apply (ring_adds_all id) in Hall as [Hall|Hall]; [by apply (po_ring_others _ _ _ _ _ _ Hok)|].
    unfold ring_all, l0, ringContacts_new in Hall. cbn in Hall. rewrite !om_entries_create in Hall. by apply not_elem_of_nil in Hall.
Qed.

Lemma uncontacted_spec X s m :
  no_local m → parallelism ≠ 0 →
  ∃ nodes finished, uncontacted X s m = Return (nodes, finished) ∧ NoDup (toNodeId <$> nodes) ∧
    (∀ c, c ∈ nodes → toNodeId c ∉ X ∧ toNodeId c ≠ local_id) ∧ (finished = false → nodes ≠ [] ∨ se_ongoingRequests s ≠ ∅).
Proof using Type.
  intros Hok Hp. unfold uncontacted. destruct (se_target s) as [targetId|targetId].
  - set (contacts := getAllContactsInUndefinedOrder (pm_nearbyContacts m)).
    destruct (getClosestNodes_closest toNodeId distance targetId contacts (Some parallelism) (Some X)) as (nodes & -> & Hclosest); [congruence|].
    destruct Hclosest as (_ & Hnd & Hin & _ & _). exists nodes. eexists. cbn [outcome_bind]. split_and!; [done|done| |].
    + intros c Hc. destruct (Hin c Hc) as [Hc' Hr]. split.
      * unfold refuses in Hr. cbn in Hr. apply orb_false_iff in Hr as [[Hr _]%orb_false_iff _]. by apply bool_decide_eq_false in Hr.
      * intros Hl. pose proof (po_nearby _ _ _ _ _ _ Hok) as Hinv. unfold contacts, getAllContactsInUndefinedOrder in Hc'.
        apply list_elem_of_fmap in Hc' as ([k c'] & -> & Hk). cbn in Hl. pose proof Hk as Hk'. apply (list_elem_of_fmap_2 fst) in Hk'.
        apply (inv_same _ _ _ Hinv) in Hk'. apply (map_get_Some k _ c' (inv_keys _ _ _ Hinv)) in Hk. apply (inv_named _ _ _ Hinv) in Hk as <-.
        apply (inv_admitted _ _ _ Hinv) in Hk'. rewrite (po_options _ _ _ _ _ _ Hok) in Hk'. unfold refuses, nearby_options in Hk'. cbn in Hk'.
        apply orb_false_iff in Hk' as [[_ Hk']%orb_false_iff _]. by apply bool_decide_eq_false in Hk'.
    + intros Hf. apply andb_false_iff in Hf as [Hf%bool_decide_eq_false|Hf%bool_decide_eq_false]; [by left|by right].
  - pose proof (λ c, ring_candidates targetId m (Some parallelism) X c Hok) as Hcand. cbn zeta in Hcand.
    set (sides := getClosestRingContactsTo _ _ _ _) in *. destruct (merge_sides_spec sides.1 sides.2) as (Hnd & Hin & Hne).
    eexists _, _. split_and!; [done|done| |].
    + intros c Hc. apply Hcand, Hin, Hc.
    + intros Hf. left. apply Hne. apply andb_false_iff in Hf as [Hf%bool_decide_eq_false|Hf%bool_decide_eq_false]; [by left|by right].
Qed.

(** ** What a discovery always is: the work of the sessions *)

Record session_ok (aborted : bool) (sets : nat) s : Prop := {
  sk_parallel : size (se_ongoingRequests s) ≤ parallelism;
  sk_set : se_contactedPeers s < sets;
  sk_busy : se_started s = true → se_doneGate s = false → aborted = false → se_ongoingRequests s ≠ ∅ ∨ se_calls s ≠ 0
}.

Record work_ok d : Prop := {
  wk_peers : no_local (di_peers d);
  wk_requests : NoDup (di_requests d);
  wk_contacted : ∀ g nodeId, (g, nodeId) ∈ di_requests d →
    nodeId ≠ local_id ∧ ∃ contactedPeers, di_contacted d !! g = Some contactedPeers ∧ nodeId ∈ contactedPeers;
  wk_sessions : ∀ i s, di_sessions d !! i = Some s → session_ok (di_aborted d) (length (di_contacted d)) s
}.

(** What work leaves alone: the joins; sessions that are started stay so. *)
Record works d d' : Prop := {
  ws_started : ∀ i s, di_sessions d !! i = Some s → se_started s = true → ∃ s', di_sessions d' !! i = Some s' ∧ se_started s' = true;
  ws_sessions : length (di_sessions d) ≤ length (di_sessions d');
  ws_contacted : length (di_contacted d) ≤ length (di_contacted d');
  ws_aborted : di_aborted d' = di_aborted d;
  ws_joins : di_joins d' = di_joins d;
  ws_next : di_nextJoin d' = di_nextJoin d;
  ws_rejoin : di_rejoinOngoing d' = di_rejoinOngoing d
}.

Lemma works_refl d : works d d.
Proof using Type. split; try done. eauto. Qed.

Lemma works_trans d1 d2 d3 : works d1 d2 → works d2 d3 → works d1 d3.
Proof using Type.
  intros [A1 B1 C1 D1 E1 F1 G1] [A2 B2 C2 D2 E2 F2 G2]. split; try congruence; try lia.
  intros i s Hs Hst. destruct (A1 i s Hs Hst) as (s' & Hs' & Hst'). by apply (A2 i s').
Qed.

(** Work that keeps the invariant *)
Definition good d d' : Prop := work_ok d' ∧ works d d'.

Lemma good_refl d : work_ok d → good d d.
Proof using Type. intros Hok. split; [done|apply works_refl]. Qed.

Lemma good_trans d1 d2 d3 : good d1 d2 → (work_ok d2 → good d2 d3) → good d1 d3.
Proof using Type. intros [Hok Hw] Hg. destruct (Hg Hok) as [Hok' Hw']. split; [done|by eapply works_trans]. Qed.

Lemma peers_good m d : work_ok d → no_local m → good d (with_peers m d).
Proof using Type. intros [] Hm. split; [by split|]. split; try done. cbn. eauto. Qed.

Lemma session_good i s s' d :
  work_ok d → di_sessions d !! i = Some s → session_ok (di_aborted d) (length (di_contacted d)) s' → (se_started s = true → se_started s' = true) →
  good d (with_session i s' d).
Proof using Type.
  intros [] Hi Hs' Hst. pose proof (lookup_lt_Some _ _ _ Hi) as Hlt. split.
  - split; try done. cbn. intros i' s2. rewrite list_lookup_insert_Some. intros [(<- & <- & _)|[_ Hi']]; [done|by eapply wk_sessions0].
  - split; try done; cbn; [|by rewrite length_insert]. intros i' s2 Hi' Hst2. rewrite list_lookup_insert. destruct (decide _) as [[-> _]|_].
    + exists s'. split; [done|]. apply Hst. congruence.
    + eauto.
Qed.

Lemma keeps_good (f : eff manager js_error unit) d :
  work_ok d → (∀ m, no_local m → ∃ m', f m = (m', Return tt) ∧ no_local m') → ∃ m', f (di_peers d) = (m', Return tt) ∧ good d (with_peers m' d).
Proof using Type.
  intros Hok Hf. destruct (Hf _ (wk_peers _ Hok)) as (m' & Hm' & Hok'). exists m'. split; [done|]. by apply peers_good.
Qed.

Lemma discovery_succeeded_good hasConnection i nodeId contacts d :
  maxContactCount ≠ 0 → work_ok d → (∀ s, di_sessions d !! i = Some s → se_calls s ≠ 0) →
  good d (discovery_succeeded hasConnection i nodeId contacts d).
Proof using Type.
  intros Hmax Hok Hcalls. unfold discovery_succeeded. destruct (di_sessions d !! i) as [s|] eqn:Hi; [|by apply good_refl].
  specialize (Hcalls s eq_refl). destruct (negb _); [by apply good_refl|]. pose proof (wk_sessions _ Hok _ _ Hi) as [Hpar Hset Hbusy].
  set (s1 := se_with _ _ _). set (d1 := with_session i s1 d).
  assert (session_ok (di_aborted d) (length (di_contacted d)) s1) as Hs1.
  { split; [|done|by right]. cbn. etrans; [|exact Hpar]. apply subseteq_size, subseteq_difference_l. done. }
  assert (good d d1) as Hg1 by by eapply session_good.
  destruct (closeness _ _) as [old|]; [|done]. apply (good_trans _ _ _ Hg1). intros Hok1.
  destruct (keeps_good (session_addContacts hasConnection s1 contacts d1) d1 Hok1) as (m & Hm & Hg2).
  { intros m Hm. unfold session_addContacts. destruct (_ || _); [by exists m|].
    destruct (keeps_each distance localPeerDescriptor maxContactCount (λ _, True) ∅ (add_contact hasConnection) contacts) with m as (m' & Hm' & Hok' & _); [|done|by exists m'].
    intros c _. by apply keeps_addContact. }
  rewrite Hm. destruct (closeness _ m) as [new|]; [|done]. destruct (forallb _ _); [|done]. apply (good_trans _ _ _ Hg2). intros Hok2.
  assert (di_sessions (with_peers m d1) !! i = Some s1) as Hi1.
  { cbn. rewrite list_lookup_insert, decide_True; [done|]. split; [done|]. by eapply lookup_lt_Some. }
  eapply session_good; [done|exact Hi1| |done]. cbn. rewrite ?length_insert. destruct Hs1. by split.
Qed.

Lemma discovery_failed_good i nodeId d :
  maxContactCount ≠ 0 → work_ok d → (∀ s, di_sessions d !! i = Some s → se_calls s ≠ 0) → good d (discovery_failed i nodeId d).
Proof using Type.
  intros Hmax Hok Hcalls. unfold discovery_failed. destruct (di_sessions d !! i) as [s|] eqn:Hi; [|by apply good_refl].
  specialize (Hcalls s eq_refl). destruct (negb _); [by apply good_refl|]. pose proof (wk_sessions _ Hok _ _ Hi) as [Hpar Hset Hbusy].
  set (d1 := with_session _ _ d). assert (good d d1) as Hg1.
  { eapply session_good; [done|done| |done]. split; [|done|by right]. cbn. etrans; [|exact Hpar]. apply subseteq_size, subseteq_difference_l. done. }
  apply (good_trans _ _ _ Hg1). intros Hok1. apply peers_good; [done|].
  destruct (keeps_removeContact distance localPeerDescriptor maxContactCount (λ _, True) ∅ nodeId Hmax (empty_subseteq _) _ (wk_peers _ Hok1)) as (m' & Hm' & Hok' & _).
  by rewrite Hm'.
Qed.

Lemma settled_good hasConnection i nodeId answer d :
  maxContactCount ≠ 0 → work_ok d → good d (request_settled hasConnection i nodeId answer d).
Proof using Type.
  intros Hmax Hok. unfold request_settled. destruct (di_sessions d !! i) as [s|] eqn:Hi; [|by apply good_refl].
  destruct (negb _); [by apply good_refl|]. pose proof (wk_sessions _ Hok _ _ Hi) as [Hpar Hset Hbusy].
  set (d1 := with_session _ _ d).
  assert (good d d1) as Hg1 by (eapply session_good; [done|done| |done]; split; [done|done|by right]).
  assert (∀ s', di_sessions d1 !! i = Some s' → se_calls s' ≠ 0) as Hcalls.
  { intros s' Hs'. cbn in Hs'. rewrite list_lookup_insert, decide_True in Hs' by (split; [done|by eapply lookup_lt_Some]). by simplify_eq/=. }
  apply (good_trans _ _ _ Hg1). intros Hok1. destruct answer as [contacts|]; [|by apply discovery_failed_good].
  destruct (keeps_active distance localPeerDescriptor maxContactCount (λ _, True) ∅ (λ a, {[nodeId]} ∪ a) _ (wk_peers _ Hok1)) as (m' & Hm' & Hok' & _).
  change (eff_modify _ (di_peers d1)) with (setContactActive nodeId (di_peers d1)) in Hm'. rewrite Hm'.
  apply (good_trans _ _ _ (peers_good _ _ Hok1 Hok')). intros Hok2. by apply discovery_succeeded_good.
Qed.

Lemma with_session_twice i s s' d : with_session i s (with_session i s' d) = with_session i s d.
Proof using Type. unfold with_session, with_work. cbn. by rewrite list_insert_insert_eq. Qed.

(** New requests of a session: to peers that were not contacted *)
Lemma requests_good i s s' requests X d :
  work_ok d → di_sessions d !! i = Some s → di_contacted d !! se_contactedPeers s = Some X →
  NoDup requests → (∀ nodeId, nodeId ∈ requests → nodeId ∉ X ∧ nodeId ≠ local_id) →
  session_ok (di_aborted d) (length (di_contacted d)) s' → (se_started s = true → se_started s' = true) →
  let g := se_contactedPeers s in
  good d (with_work (di_peers d) (<[g := X ∪ list_to_set requests]> (di_contacted d)) (<[i := s']> (di_sessions d))
            (di_requests d ++ ((λ nodeId, (g, nodeId)) <$> requests)) d).
Proof using Type.
  intros Hok Hi HX Hnd Hnew Hs' Hst g. subst g. destruct (session_good i s s' d Hok Hi Hs' Hst) as [Hok1 Hw1].
  pose proof Hok as [Hp Hr Hc Hs]. split.
  - split; cbn; [done| | |intros i' s2 Hi'; rewrite length_insert; by apply (wk_sessions _ Hok1 i' s2)].
    + apply NoDup_app. split_and!; [done| |].
      * intros [g nodeId] Hin (nodeId' & [= -> ->] & Hin')%list_elem_of_fmap. destruct (Hc _ _ Hin) as (_ & X' & HX' & HinX).
        assert (X' = X) as -> by congruence. by destruct (Hnew nodeId' Hin').
      * apply NoDup_fmap_2; [by intros ?? [=]|done].
    + intros g nodeId [Hin|(nodeId' & [= -> ->] & Hin')%list_elem_of_fmap]%elem_of_app.
      * destruct (Hc _ _ Hin) as (Hl & X' & HX' & HinX). split; [done|]. rewrite list_lookup_insert. destruct (decide _) as [[<- Hlt]|_]; [|eauto].
        assert (X' = X) as -> by congruence. eexists. split; [done|]. apply elem_of_union. by left.
      * split; [by apply Hnew|]. rewrite list_lookup_insert, decide_True by (split; [done|by eapply lookup_lt_Some]).
        eexists. split; [done|]. apply elem_of_union. right. by apply elem_of_list_to_set.
  - destruct Hw1. split; try done. cbn. by rewrite length_insert.
Qed.

Lemma scheduled_call_good i d : parallelism ≠ 0 → work_ok d → good d (scheduled_call i d).
Proof using Type.
  intros Hp Hok. unfold scheduled_call. destruct (di_sessions d !! i) as [s|] eqn:Hi; [|by apply good_refl].
  destruct (se_calls s) as [|n] eqn:Hn; [by apply good_refl|]. pose proof (wk_sessions _ Hok _ _ Hi) as [Hpar Hset Hbusy].
  set (s0 := se_with (se_ongoingRequests s) n s). unfold findMoreContacts.
  assert (di_sessions (with_session i s0 d) !! i = Some s0) as ->.
  { cbn. rewrite list_lookup_insert, decide_True; [done|]. split; [done|by eapply lookup_lt_Some]. }
  cbn [di_aborted di_contacted di_peers with_session with_work].
  destruct (di_aborted d || se_doneGate s0) eqn:Hoff.
  { eapply session_good; [done|done| |done]. split; [done|done|]. cbn in *. intros _ Hd Ha. by rewrite Hd, Ha in Hoff. }
  destruct (lookup_lt_is_Some_2 _ _ Hset) as [X HX]. change (se_contactedPeers s0) with (se_contactedPeers s). rewrite HX. cbn [default from_option id].
  destruct (uncontacted_spec X s0 (di_peers d) (wk_peers _ Hok) Hp) as (nodes & finished & -> & Hnd & Hnew & Hwork).
  destruct (finished || _) eqn:Hend.
  { rewrite with_session_twice. eapply session_good; [done|done| |done]. by split. }
  apply orb_false_iff in Hend as [-> _]. specialize (Hwork eq_refl).
  pose proof (contact_loop_spec nodes (se_ongoingRequests s0) X) as Hloop. destruct (contact_loop _ _ _) as [[ongoing contacted] requests].
  destruct Hloop as ([rest Hpre] & -> & -> & Hsize & Hsome). cbn [di_sessions di_requests with_session with_work].
  rewrite list_insert_insert_eq. refine (requests_good i s _ requests X d Hok Hi HX _ _ _ _); [| | |done].
  - rewrite Hpre in Hnd. by apply NoDup_app in Hnd as [? _].
  - intros nodeId Hin. assert (nodeId ∈ toNodeId <$> nodes) as (c & -> & Hc)%list_elem_of_fmap; [|by apply Hnew].
    rewrite Hpre. apply elem_of_app. by left.
  - split; cbn; [by apply Hsize|done|]. intros _ _ _. left. destruct Hwork as [Hne|Hne]; [by apply Hsome|].
    intros Hempty. apply Hne. cbn. set_solver.
Qed.

Lemma find_good i d : work_ok d → good d (findClosestNodes i d).1 ∧
  ((findClosestNodes i d).2 = true → ∃ s, di_sessions (findClosestNodes i d).1 !! i = Some s ∧ se_started s = true).
Proof using Type.
  intros Hok. unfold findClosestNodes. destruct (di_sessions d !! i) as [s|] eqn:Hi; [|split; [by apply good_refl|done]].
  destruct (_ =? 0)%Z; [split; [by apply good_refl|done]|]. cbn [fst snd]. destruct (wk_sessions _ Hok _ _ Hi) as [Hpar Hset _]. split.
  - eapply session_good; [done|done| |done]. split; [done|done|by right].
  - intros _. exists (se_start s). cbn. rewrite list_lookup_insert, decide_True; [done|]. split; [done|by eapply lookup_lt_Some].
Qed.

Lemma new_contacted_good d : work_ok d → good d (new_contacted d).1 ∧ (new_contacted d).2 < length (di_contacted (new_contacted d).1).
Proof using Type.
  intros []. split; [|cbn; rewrite length_app; cbn; lia]. split.
  - split; cbn; try done.
    + intros g nodeId Hin. destruct (wk_contacted0 g nodeId Hin) as (Hl & X & HX & HinX). split; [done|]. exists X. split; [|done].
      by apply lookup_app_l_Some.
    + intros i s Hi. destruct (wk_sessions0 i s Hi). split; [done|rewrite length_app; lia|done].
  - split; try done; cbn; [eauto|]. rewrite length_app. lia.
Qed.

Lemma createSession_good target g d : work_ok d → g < length (di_contacted d) → good d (createSession target g d).1.
Proof using Type.
  intros [] Hg. split.
  - split; cbn; try done. intros i s [Hi|[_ Hi]]%lookup_app_Some; [by eapply wk_sessions0|].
    apply list_lookup_singleton_Some in Hi as [_ <-]. split; cbn; [rewrite size_empty; lia|done|done].
  - split; try done; cbn; [|rewrite length_app; lia]. intros i s Hi Hst. exists s. split; [by apply lookup_app_l_Some|done].
Qed.

(** ** What a discovery always is: the joins *)

(** [pending]: [rejoinDht] has set its flag, and its join is about to begin. *)
Record joins_ok (pending : bool) d : Prop := {
  jo_wait : ∀ j jn i, di_joins d !! j = Some jn → jn_wait jn = WaitSession i → ∃ s, di_sessions d !! i = Some s ∧ se_started s = true;
  jo_next : ∀ j jn, di_joins d !! j = Some jn → j < di_nextJoin d;
  jo_rejoin : ∀ j jn, di_joins d !! j = Some jn → jn_rejoin jn = true →
    pending = false ∧ di_rejoinOngoing d = true ∧ is_Some (jn_entryPoint jn);
  jo_unique : ∀ j j' jn jn', di_joins d !! j = Some jn → di_joins d !! j' = Some jn' → jn_rejoin jn = true → jn_rejoin jn' = true → j = j';
  jo_flag : di_rejoinOngoing d = true → pending = true ∨ ∃ j jn, di_joins d !! j = Some jn ∧ jn_rejoin jn = true;
  jo_pending : pending = true → di_rejoinOngoing d = true;
  jo_return : ∀ j jn failed, di_joins d !! j = Some jn → jn_wait jn = WaitReturn failed → jn_rejoin jn = true
}.

Definition disc_ok (pending : bool) d : Prop := work_ok d ∧ joins_ok pending d.

Lemma good_ok pending d d' : disc_ok pending d → good d d' → disc_ok pending d'.
Proof using Type.
  intros [_ []] [Hok []]. split; [done|]. split; rewrite ?ws_joins0, ?ws_next0, ?ws_rejoin0; try done.
  intros j jn i Hj Hw. destruct (jo_wait0 j jn i Hj Hw) as (s & Hs & Hst). by apply (ws_started0 i s).
Qed.

Lemma work_same d d' :
  di_peers d' = di_peers d → di_requests d' = di_requests d → di_contacted d' = di_contacted d → di_sessions d' = di_sessions d →
  di_aborted d' = di_aborted d → work_ok d → work_ok d'.
Proof using Type. intros E1 E2 E3 E4 E5 []. split; by rewrite ?E1, ?E2, ?E3, ?E4, ?E5. Qed.

Lemma joins_same pending d d' :
  di_sessions d' = di_sessions d → di_joins d' = di_joins d → di_nextJoin d' = di_nextJoin d → di_rejoinOngoing d' = di_rejoinOngoing d →
  joins_ok pending d → joins_ok pending d'.
Proof using Type. intros E1 E2 E3 E4 []. split; by rewrite ?E1, ?E2, ?E3, ?E4. Qed.

(** Changes of the other fields *)
Lemma other_ok pending d d' :
  di_peers d' = di_peers d → di_requests d' = di_requests d → di_contacted d' = di_contacted d → di_sessions d' = di_sessions d →
  di_aborted d' = di_aborted d → di_joins d' = di_joins d → di_nextJoin d' = di_nextJoin d → di_rejoinOngoing d' = di_rejoinOngoing d →
  disc_ok pending d → disc_ok pending d'.
Proof using Type. intros ???????? [Hw Hj]. split; [by eapply work_same|by eapply joins_same]. Qed.

(** The end of a join *)
Lemma delete_join_ok j jn flag d d' :
  disc_ok false d → di_joins d !! j = Some jn →
  di_peers d' = di_peers d → di_requests d' = di_requests d → di_contacted d' = di_contacted d → di_sessions d' = di_sessions d →
  di_aborted d' = di_aborted d → di_joins d' = delete j (di_joins d) → di_nextJoin d' = di_nextJoin d → di_rejoinOngoing d' = flag →
  (flag = di_rejoinOngoing d ∧ jn_rejoin jn = false ∨ flag = false ∧ jn_rejoin jn = true) → disc_ok false d'.
Proof using Type.
  intros [Hw [Hwait Hnext Hre Hun Hfl _ Hret]] Hjn E1 E2 E3 E4 E5 E6 E7 E8 Hflag. split; [by eapply work_same|]. split; rewrite ?E4, ?E6, ?E7, ?E8.
  - intros j' jn' i [_ Hj']%lookup_delete_Some Hi. by eapply Hwait.
  - intros j' jn' [_ Hj']%lookup_delete_Some. by eapply Hnext.
  - intros j' jn' [Hne Hj']%lookup_delete_Some Hr. destruct Hflag as [[-> _]|[-> Hr']]; [by eapply Hre|].
    destruct Hne. by eapply Hun.
  - intros j1 j2 jn1 jn2 [_ H1']%lookup_delete_Some [_ H2']%lookup_delete_Some. by eapply Hun.
  - intros Hf. right. destruct Hflag as [[-> Hr]|[-> _]]; [|done]. destruct (Hfl Hf) as [|(j' & jn' & Hj' & Hr')]; [done|].
    exists j', jn'. split; [|done]. apply lookup_delete_Some. split; [|done]. intros <-. congruence.
  - done.
  - intros j' jn' failed [_ Hj']%lookup_delete_Some. by eapply Hret.
Qed.

Lemma join_ended_ok j jn d : disc_ok false d → di_joins d !! j = Some jn → disc_ok false (join_ended j jn d).
Proof using Type.
  intros Hok Hjn. pose proof (jo_rejoin _ _ (proj2 Hok) j jn Hjn) as Hre. unfold join_ended. destruct (jn_rejoin jn) eqn:Hr.
  - destruct (Hre eq_refl) as (_ & _ & [entryPoint ->]). eapply (delete_join_ok j jn); try done. by right.
  - destruct (jn_entryPoint jn); eapply (delete_join_ok j jn); try done; by left.
Qed.

Lemma rejoin_over_ok j jn failed d :
  disc_ok false d → di_joins d !! j = Some jn → jn_wait jn = WaitReturn failed → disc_ok false (rejoin_over j jn failed d).
Proof using Type.
  intros Hok Hjn Hw. pose proof (jo_return _ _ (proj2 Hok) j jn failed Hjn Hw) as Hr. unfold rejoin_over.
  destruct (jn_entryPoint jn); [destruct (failed && _)|]; eapply (delete_join_ok j jn); try done; by right.
Qed.

(** The same join, at another point *)
Lemma set_join_ok j jn jn' d :
  disc_ok false d → di_joins d !! j = Some jn → jn_rejoin jn' = jn_rejoin jn → jn_entryPoint jn' = jn_entryPoint jn →
  (∀ i, jn_wait jn' = WaitSession i → ∃ s, di_sessions d !! i = Some s ∧ se_started s = true) →
  (∀ failed, jn_wait jn' ≠ WaitReturn failed) →
  disc_ok false (with_joins (<[j := jn']> (di_joins d)) (di_nextJoin d) d).
Proof using Type.
  intros [Hw [Hwait Hnext Hre Hun Hfl _ Hret]] Hjn Er Ee Hs Hnr. split; [by apply (work_same d)|].
  assert (∀ j' jn2, <[j := jn']> (di_joins d) !! j' = Some jn2 → ∃ jn1, di_joins d !! j' = Some jn1 ∧ jn_rejoin jn2 = jn_rejoin jn1 ∧ jn_entryPoint jn2 = jn_entryPoint jn1) as Hall.
  { intros j' jn2 [[<- <-]|[_ Hj']]%lookup_insert_Some; eauto. }
  split; cbn.
  - intros j' jn2 i [[<- <-]|[_ Hj']]%lookup_insert_Some Hi; [by apply Hs|by eapply Hwait].
  - intros j' jn2 (jn1 & Hj' & _)%Hall. by eapply Hnext.
  - intros j' jn2 (jn1 & Hj' & -> & ->)%Hall Hr. by apply (Hre j' jn1).
  - intros j1 j2 jn1 jn2 (jn1' & H1' & -> & _)%Hall (jn2' & H2' & -> & _)%Hall. by eapply Hun.
  - intros Hf. destruct (Hfl Hf) as [|(j' & jn2 & Hj' & Hr)]; [done|]. right. destruct (decide (j = j')) as [<-|Hne].
    + exists j, jn'. rewrite lookup_insert_eq. split; [done|]. congruence.
    + exists j', jn2. by rewrite lookup_insert_ne.
  - done.
  - intros j' jn2 failed [[<- <-]|[_ Hj']]%lookup_insert_Some Hi; [by apply Hnr in Hi|by eapply Hret].
Qed.

Lemma sessions_ended_ok j jn d : disc_ok false d → di_joins d !! j = Some jn → disc_ok false (sessions_ended j jn d).
Proof using Type.
  intros Hok Hjn. unfold sessions_ended. destruct (jn_entryPoint jn) as [entryPoint|] eqn:He; [|by apply join_ended_ok].
  destruct (di_aborted d) eqn:Ha; [by apply join_ended_ok|]. destruct (_ =? 0)%nat.
  - destruct (jn_retry jn); [|by apply join_ended_ok]. apply join_ended_ok; [|done]. by apply (other_ok false d).
  - destruct (di_recoveryIntervalStarted d); [by apply join_ended_ok|].
    eapply (set_join_ok j jn); [apply (other_ok false d); first [done|by rewrite Ha]|done|done|by rewrite He|done|done].
Qed.

Lemma next_session_ok j jn d : disc_ok false d → di_joins d !! j = Some jn → disc_ok false (next_session j jn d).
Proof using Type.
  intros Hok Hjn. unfold next_session. destruct (jn_remaining jn) as [|i remaining]; [by apply sessions_ended_ok|].
  set (d1 := match jn_entryPoint jn with Some _ => _ | None => _ end).
  assert (disc_ok false d1 ∧ di_joins d1 = di_joins d) as [Hok1 Hj1].
  { unfold d1. destruct (jn_entryPoint jn); (split; [by apply (other_ok false d)|done]). }
  destruct (find_good i d1 (proj1 Hok1)) as [Hg Hst]. destruct (findClosestNodes i d1) as [d2 waits]. cbn [fst snd] in *.
  pose proof (good_ok _ _ _ Hok1 Hg) as Hok2. apply (set_join_ok j jn); [done| |done|done| |by destruct waits].
  - destruct Hg as [_ []]. by rewrite ws_joins0, Hj1.
  - cbn. destruct waits; [|done]. intros i' [= <-]. by apply Hst.
Qed.

(** A new join *)
Lemma insert_join_ok jn d :
  disc_ok (jn_rejoin jn) d → (jn_rejoin jn = true → is_Some (jn_entryPoint jn)) → (∀ i, jn_wait jn ≠ WaitSession i) →
  (∀ failed, jn_wait jn = WaitReturn failed → jn_rejoin jn = true) →
  disc_ok false (with_joins (<[di_nextJoin d := jn]> (di_joins d)) (S (di_nextJoin d)) d).
Proof using Type.
  intros [Hw [Hwait Hnext Hre Hun Hfl Hpe Hret]] He Hwaits Hrets. set (j := di_nextJoin d). split; [by apply (work_same d)|].
  assert (di_joins d !! j = None) as Hfresh.
  { destruct (di_joins d !! j) as [jn'|] eqn:Hj; [|done]. apply Hnext in Hj. unfold j in Hj. lia. }
  split; cbn.
  - intros j' jn' i [[<- <-]|[_ Hj']]%lookup_insert_Some Hi; [by apply Hwaits in Hi|by apply (Hwait j' jn')].
  - intros j' jn' [[<- _]|[_ Hj']]%lookup_insert_Some; [lia|]. apply Hnext in Hj'. unfold j. lia.
  - intros j' jn' [[<- <-]|[_ Hj']]%lookup_insert_Some Hr; [split_and!; [done|by apply Hpe|by apply He]|].
    destruct (Hre j' jn' Hj' Hr) as (_ & ? & ?). done.
  - intros j1 j2 jn1 jn2 [[<- <-]|[_ H1']]%lookup_insert_Some [[<- <-]|[_ H2']]%lookup_insert_Some Hr1 Hr2; [done| | |by eapply Hun].
    + destruct (Hre _ _ H2' Hr2) as [? _]. congruence.
    + destruct (Hre _ _ H1' Hr1) as [? _]. congruence.
  - intros Hf. right. destruct (Hfl Hf) as [Hr|(j' & jn' & Hj' & Hr)].
    + exists j, jn. by rewrite lookup_insert_eq.
    + exists j', jn'. rewrite lookup_insert_ne; [done|]. intros ->. congruence.
  - done.
  - intros j' jn' failed [[<- <-]|[_ Hj']]%lookup_insert_Some; [apply Hrets|by eapply Hret].
Qed.

Lemma start_join_ok entryPoint sessions retry rejoin d :
  disc_ok rejoin d → (rejoin = true → is_Some entryPoint) → disc_ok false (start_join entryPoint sessions retry rejoin d).
Proof using Type.
  intros Hok He. unfold start_join. apply next_session_ok; [|cbn; by rewrite lookup_insert_eq].
  by apply (insert_join_ok (MkJoin entryPoint sessions sessions WaitNothing retry rejoin)).
Qed.

Lemma join_returns_ok rejoin failed entryPoint d : disc_ok rejoin d → disc_ok false (join_returns rejoin failed entryPoint d).
Proof using Type.
  intros Hok. destruct rejoin; [|done]. by apply (insert_join_ok (MkJoin (Some entryPoint) [] [] (WaitReturn failed) true true)).
Qed.

Lemma sessions_ended_contacted j jn d : di_contacted (sessions_ended j jn d) = di_contacted d.
Proof using Type. unfold sessions_ended, join_ended. by repeat case_match. Qed.

Lemma next_session_contacted j jn d : di_contacted (next_session j jn d) = di_contacted d.
Proof using Type.
  unfold next_session. destruct (jn_remaining jn) as [|i remaining]; [apply sessions_ended_contacted|]. unfold findClosestNodes.
  by destruct (jn_entryPoint jn); cbn; destruct (di_sessions d !! i); cbn; try destruct (_ =? 0)%Z.
Qed.

(** What holds after a join began: the invariant, with as many sets of contacted peers as before *)
Definition begun d d' : Prop := disc_ok false d' ∧ length (di_contacted d') = length (di_contacted d).

Lemma joinThrough_ok hasConnection entryPoint g distant retry rejoin d :
  maxContactCount ≠ 0 → disc_ok rejoin d → g < length (di_contacted d) → (∀ g', distant = Some g' → g' < length (di_contacted d)) →
  begun d (joinThroughEntryPoint hasConnection entryPoint g distant retry rejoin d).
Proof using Type.
  intros Hmax Hok Hg Hdistant. unfold joinThroughEntryPoint. assert (∀ failed d', di_contacted (join_returns rejoin failed entryPoint d') = di_contacted d') as Hover by by destruct rejoin.
  destruct (di_aborted d) eqn:Ha; [split; [by apply join_returns_ok|by rewrite Hover]|].
  set (d1 := with_flags _ _ _ _ d). assert (disc_ok rejoin d1) as Hok1 by (apply (other_ok rejoin d); first [done|by rewrite Ha]).
  destruct (bool_decide _); [split; [by apply join_returns_ok|by rewrite Hover]|].
  set (d2 := with_entry_lock _ _ d1). assert (disc_ok rejoin d2) as Hok2 by by apply (other_ok rejoin d1).
  destruct (keeps_good (add_contact hasConnection entryPoint) d2 (proj1 Hok2)) as (m & Hm & Hgood).
  { intros m Hm. destruct (keeps_addContact distance localPeerDescriptor maxContactCount neighborPingLimit (λ _, True) hasConnection entryPoint Hmax I m Hm) as (m' & ? & ? & _).
    by exists m'. }
  rewrite Hm. set (d3 := with_peers m d2) in *. pose proof (good_ok _ _ _ Hok2 Hgood) as Hok3.
  set (first := NodeTarget _). pose proof (createSession_good first g d3 (proj1 Hok3) Hg) as Hg4. pose proof (good_ok _ _ _ Hok3 Hg4) as Hok4.
  destruct (createSession first g d3) as [d4 i] eqn:E4. assert (di_contacted d4 = di_contacted d) as Hc4 by (injection E4 as <- _; done). cbn [fst] in *.
  destruct distant as [g'|].
  - set (second := NodeTarget _). pose proof (createSession_good second g' d4 (proj1 Hok4)) as Hg5. destruct (createSession second g' d4) as [d5 i'] eqn:E5.
    assert (di_contacted d5 = di_contacted d4) as Hc5 by (injection E5 as <- _; done). cbn [fst] in Hg5.
    split; [|unfold start_join; rewrite next_session_contacted; cbn; by rewrite Hc5, Hc4]. apply start_join_ok; [|done].
    apply (good_ok _ _ _ Hok4), Hg5. rewrite Hc4. by apply Hdistant.
  - split; [|unfold start_join; rewrite next_session_contacted; cbn; by rewrite Hc4]. by apply start_join_ok.
Qed.

Lemma rejoinDht_ok hasConnection entryPoint g g' d :
  maxContactCount ≠ 0 → disc_ok false d → g < length (di_contacted d) → g' < length (di_contacted d) →
  begun d (rejoinDht hasConnection entryPoint g g' d).
Proof using Type.
  intros Hmax Hok Hg Hg'. unfold rejoinDht. destruct (di_aborted d || di_rejoinOngoing d) eqn:Hoff; [done|].
  apply orb_false_iff in Hoff as [Ha Hr]. set (d1 := with_flags _ _ _ _ d). apply (joinThrough_ok hasConnection entryPoint g (Some g') true true d1); [done| |done|by intros ? [= <-]].
  destruct Hok as [Hw [Hwait Hnext Hre Hun Hfl Hpe Hret]]. split; [by apply (work_same d)|]. split; cbn; try done.
  - intros j jn Hj Hjr. destruct (Hre j jn Hj Hjr) as (_ & ? & _). congruence.
  - by left.
Qed.

Lemma join_all_ok hasConnection entryPoints g distant retry d :
  maxContactCount ≠ 0 → disc_ok false d → g < length (di_contacted d) → (∀ g', distant = Some g' → g' < length (di_contacted d)) →
  disc_ok false (join_all hasConnection entryPoints g distant retry d).
Proof using Type.
  intros Hmax. revert d. induction entryPoints as [|entryPoint entryPoints IH]; intros d Hok Hg Hd; [done|]. cbn [join_all].
  destruct (joinThrough_ok hasConnection entryPoint g distant retry false d Hmax Hok Hg Hd) as [Hok' Hl]. apply IH; [done|by rewrite Hl|by rewrite Hl].
Qed.

Lemma rejoin_all_ok hasConnection entryPoints g g' d :
  maxContactCount ≠ 0 → disc_ok false d → g < length (di_contacted d) → g' < length (di_contacted d) →
  disc_ok false (rejoin_all hasConnection entryPoints g g' d).
Proof using Type.
  intros Hmax. revert d. induction entryPoints as [|entryPoint entryPoints IH]; intros d Hok Hg Hd; [done|]. cbn [rejoin_all].
  destruct (rejoinDht_ok hasConnection entryPoint g g' d Hmax Hok Hg Hd) as [Hok' Hl]. apply IH; [done|by rewrite Hl|by rewrite Hl].
Qed.

Lemma two_sets d : disc_ok false d →
  let d1 := (new_contacted d).1 in let d2 := (new_contacted d1).1 in
  disc_ok false d1 ∧ disc_ok false d2 ∧ (new_contacted d).2 < length (di_contacted d1) ∧
  (new_contacted d).2 < length (di_contacted d2) ∧ (new_contacted d1).2 < length (di_contacted d2).
Proof using Type.
  intros Hok d1 d2. destruct (new_contacted_good d (proj1 Hok)) as [Hg1 Hl1]. pose proof (good_ok _ _ _ Hok Hg1) as Hok1.
  destruct (new_contacted_good d1 (proj1 Hok1)) as [Hg2 Hl2]. pose proof (good_ok _ _ _ Hok1 Hg2) as Hok2. fold d1 d2 in Hok1, Hok2, Hl1, Hl2.
  split_and!; [done..| |done]. destruct Hg2 as [_ []]. fold d2 in ws_contacted0. lia.
Qed.

Lemma join_continues_ok j timedOut d : disc_ok false d → disc_ok false (join_continues j timedOut d).
Proof using Type.
  intros Hok. unfold join_continues. destruct (di_joins d !! j) as [jn|] eqn:Hj; [|done].
  destruct (jn_wait jn) as [i| | |failed] eqn:Hwait; [|by apply next_session_ok|by apply join_ended_ok|by apply rejoin_over_ok].
  destruct (_ || _); [by apply sessions_ended_ok|]. destruct (di_sessions d !! i) as [s|]; [|done]. destruct (se_doneGate s); [by apply next_session_ok|done].
Qed.

Lemma discovery_step_ok hasConnection ev d :
  maxContactCount ≠ 0 → parallelism ≠ 0 → disc_ok false d → disc_ok false (discovery_step hasConnection ev d).
Proof using Type.
  intros Hmax Hp Hok. pose proof (two_sets d Hok) as (Hok1 & Hok2 & Hl1 & Hl1' & Hl2).
  destruct ev as [entryPoints distant retry| |entryPoints|k|i nodeId answer|i|j timedOut|ev|]; cbn [discovery_step].
  - unfold joinDht. destruct (new_contacted d) as [d1 g] eqn:E1. cbn [fst snd] in *. destruct distant; [|by apply join_all_ok].
    destruct (new_contacted d1) as [d2 g']. cbn [fst snd] in *. apply join_all_ok; [done..|by intros ? [= <-]].
  - unfold joinRing. destruct (new_contacted d) as [d1 g] eqn:E1. cbn [fst snd] in *. set (target := RingTarget _).
    pose proof (createSession_good target g d1 (proj1 Hok1) Hl1) as Hg3. destruct (createSession target g d1) as [d3 i]. cbn [fst] in Hg3.
    apply start_join_ok; [exact (good_ok _ _ _ Hok1 Hg3)|done].
  - unfold kbucket_empty_task. destruct (new_contacted d) as [d1 g] eqn:E1. cbn [fst snd] in *. destruct (new_contacted d1) as [d2 g']. cbn [fst snd] in *.
    by apply rejoin_all_ok.
  - unfold rejoin_timeout. destruct (di_timers d !! k) as [[entryPoint delay]|]; [|done]. set (d0 := with_timers _ d).
    assert (disc_ok false d0) as Hok0 by by apply (other_ok false d). destruct (di_aborted d0); [done|].
    pose proof (two_sets d0 Hok0) as (Hok3 & Hok4 & Hl3 & Hl3' & Hl4). destruct (new_contacted d0) as [d3 g] eqn:E3. cbn [fst snd] in *.
    destruct (new_contacted d3) as [d4 g']. cbn [fst snd] in *. by apply rejoinDht_ok.
  - apply (good_ok _ _ _ Hok). by apply settled_good, Hok.
  - apply (good_ok _ _ _ Hok). by apply scheduled_call_good, Hok.
  - by apply join_continues_ok.
  - apply (good_ok _ _ _ Hok). destruct (peer_step_ok distance localPeerDescriptor maxContactCount neighborPingLimit (λ _, True) hasConnection ev (di_peers d) Hmax) as (m & -> & Hm & _).
    { by destruct ev. } { apply Hok. } { apply peers_good; [apply Hok|done]. }
  - destruct Hok as [[] Hj]. split; [|by apply (joins_same false d)]. split; try done. cbn. intros i s Hi. destruct (wk_sessions0 i s Hi). by split.
Qed.

Fixpoint discovery_run (evs : list ((string → bool) * discovery_event)) d : discovery :=
  match evs with [] => d | (hasConnection, ev) :: evs => discovery_run evs (discovery_step hasConnection ev d) end.

Lemma discovery_run_ok evs m :
  maxContactCount ≠ 0 → parallelism ≠ 0 → no_local m → disc_ok false (discovery_run evs (discovery_new m)).
Proof using Type.
  intros Hmax Hp Hm. assert (∀ d, disc_ok false d → disc_ok false (discovery_run evs d)) as Hrun.
  { induction evs as [|[view ev] evs IH]; intros d Hok; [done|]. cbn. by apply IH, discovery_step_ok. }
  apply Hrun. split.
  - split; cbn; [done|constructor|intros g nodeId Hin; by apply not_elem_of_nil in Hin|done].
  - by split.
Qed.

(** ** The theorems *)

Notation after n rolls evs := (discovery_run evs (discovery_new (peers_new localPeerDescriptor maxContactCount n rolls))).

(** C39: a join asks nobody twice: of the sessions that share a set of contacted peers, plain ones and those of the ring, no two
    requests go to the same peer, whatever the answers, timeouts and failures; the node never asks itself; and no session has
    more requests under way than its parallelism. *)
Theorem peers_are_asked_once n rolls evs :
  maxContactCount ≠ 0 → parallelism ≠ 0 →
  let d := after n rolls evs in
  NoDup (di_requests d) ∧ (∀ g nodeId, (g, nodeId) ∈ di_requests d → nodeId ≠ local_id) ∧
  (∀ i s, di_sessions d !! i = Some s → size (se_ongoingRequests s) ≤ parallelism).
Proof using Type.
  intros Hmax Hp d. destruct (discovery_run_ok evs (peers_new localPeerDescriptor maxContactCount n rolls) Hmax Hp) as [[] _]; [apply peers_new_ok|].
  fold d in wk_peers0, wk_requests0, wk_contacted0, wk_sessions0. split_and!; [done| |].
  - intros g nodeId Hin. by destruct (wk_contacted0 g nodeId Hin).
  - intros i s Hi. apply (wk_sessions0 i s Hi).
Qed.

(** C40: no join hangs: a join in progress can go on, or the session it waits for is open, has a request under way, or is about to
    look for more contacts; and a node that refuses to rejoin because it is rejoining has such a join in progress. *)
Theorem no_join_hangs n rolls evs :
  maxContactCount ≠ 0 → parallelism ≠ 0 →
  let d := after n rolls evs in
  di_aborted d = false →
  (∀ j jn i, di_joins d !! j = Some jn → jn_wait jn = WaitSession i →
     ∃ s, di_sessions d !! i = Some s ∧ (se_doneGate s = true ∨ se_ongoingRequests s ≠ ∅ ∨ se_calls s ≠ 0)) ∧
  (di_rejoinOngoing d = true → ∃ j jn, di_joins d !! j = Some jn ∧ jn_rejoin jn = true).
Proof using Type.
  intros Hmax Hp d Ha. destruct (discovery_run_ok evs (peers_new localPeerDescriptor maxContactCount n rolls) Hmax Hp) as [Hw Hj]; [apply peers_new_ok|].
  fold d in Hw, Hj. split.
  - intros j jn i Hjn Hwait. destruct (jo_wait _ _ Hj _ _ _ Hjn Hwait) as (s & Hs & Hst). exists s. split; [done|].
    destruct (se_doneGate s) eqn:Hd; [by left|right]. by apply (sk_busy _ _ _ (wk_sessions _ Hw _ _ Hs)).
  - intros Hf. by destruct (jo_flag _ _ Hj Hf).
Qed.

Lemma start_join_flag entryPoint sessions retry rejoin d :
  sessions ≠ [] → di_rejoinOngoing (start_join entryPoint sessions retry rejoin d) = di_rejoinOngoing d.
Proof using Type.
  destruct sessions as [|i sessions]; [done|]. intros _. unfold start_join, next_session. cbn [jn_remaining jn_entryPoint].
  unfold findClosestNodes. by destruct entryPoint; cbn; destruct (di_sessions d !! i); cbn; try destruct (_ =? 0)%Z.
Qed.

Lemma rejoin_starts hasConnection entryPoint g g' d :
  di_aborted d = false → di_rejoinOngoing (rejoinDht hasConnection entryPoint g g' d) = true.
Proof using Type.
  intros Ha. unfold rejoinDht. rewrite Ha. cbn [orb]. destruct (di_rejoinOngoing d) eqn:Hr; [done|].
  unfold joinThroughEntryPoint. cbn [di_aborted with_flags]. destruct (bool_decide _); [done|].
  destruct (add_contact _ _ _) as [m [[]|]]; [|done]. cbn [createSession]. by rewrite start_join_flag.
Qed.

(** A node that lost all its neighbours tries to rejoin through the first of its entry points only: the rejoins through the
    others find one ongoing. *)
Theorem rejoin_uses_the_first_entry_point hasConnection entryPoint entryPoints d :
  kbucket_empty_task hasConnection (entryPoint :: entryPoints) d = kbucket_empty_task hasConnection [entryPoint] d.
Proof using Type.
  unfold kbucket_empty_task. destruct (new_contacted d) as [d1 g]. destruct (new_contacted d1) as [d2 g']. cbn [rejoin_all].
  assert (∀ d', di_aborted d' || di_rejoinOngoing d' = true → rejoin_all hasConnection entryPoints g g' d' = d') as Hstop.
  { induction entryPoints as [|e es IH]; intros d' Hd'; [done|]. cbn [rejoin_all]. assert (rejoinDht hasConnection e g g' d' = d') as ->; [|by apply IH].
    unfold rejoinDht. by rewrite Hd'. }
  apply Hstop. destruct (di_aborted d2) eqn:Ha; [|by rewrite rejoin_starts, orb_true_r].
  unfold rejoinDht. by rewrite Ha; cbn; rewrite Ha.
Qed.
End discovery.

Module DiscoveryWitness.
Import PeersWitness.

Notation disc := (PeerDiscovery flat_bucket (list (Z * PeerDescriptor))).
Definition disc_after (evs : list discovery_event) : disc :=
  discovery_run ContactsWitness.distance local 20 None 2 3 ((λ ev, (connected, ev)) <$> evs)
    (discovery_new (peers_new local 20 20 [])).

(** An entry point tells of two nodes; they are asked and tell of nobody new, and the session of the join ends. *)
Definition small_join : list discovery_event :=
  [DJoin [node 16] false true; DCall 0; DSettled 0 (node_id 16) (Some [node 80; node 128]); DCall 0;
   DSettled 0 (node_id 80) (Some [node 16]); DSettled 0 (node_id 128) None; DCall 0; DCall 0; DContinue 0 false; DContinue 0 false].

Example small_join_runs :
  let d := disc_after small_join in
  di_requests d = [(0, node_id 16); (0, node_id 80); (0, node_id 128)] ∧
  map_to_list (di_joins d) = [] ∧ di_entryPointLocks d = [(true, node_id 16); (false, node_id 16)] ∧ getNeighborCount (di_peers d) = 2.
Proof. split_and!; vm_compute; reflexivity. Qed.

(** The session of the ring is done as soon as there is nobody left to ask: the answer of the node asked last is dropped. *)
Example ring_answer_is_dropped :
  let before := [DPeers (PAdd (node 50)); DPeers (PAdd (node 80)); DJoinRing; DCall 0; DSettled 0 (node_id 50) (Some []); DCall 0] in
  let d := disc_after (before ++ [DSettled 0 (node_id 80) (Some [node 70])]) in
  (se_ongoingRequests <$> di_sessions (disc_after before) !! 0) = Some {[node_id 80]} ∧
  getNeighborCount (di_peers d) = 2.
Proof. split; vm_compute; reflexivity. Qed.

(** The session of a ring join that is over stays among the ongoing ones. *)
Example ring_session_stays :
  let d := disc_after [DJoinRing; DContinue 0 false] in
  map_to_list (di_joins d) = [] ∧ di_ongoingRingDiscoverySessions d = {[0]}.
Proof. split; vm_compute; reflexivity. Qed.

(** The first entry point is dead: it is the one that is tried again, though there is another. *)
Example dead_entry_point_is_tried_again :
  let d := disc_after [DKBucketEmpty [node 16; node 80]; DCall 0; DSettled 0 (node_id 16) None; DCall 0; DContinue 0 false; DContinue 0 false] in
  di_requests d = [(0, node_id 16)] ∧ di_timers d = [(node 16, REJOIN_DELAY)] ∧ di_rejoinOngoing d = false.
Proof. split_and!; vm_compute; reflexivity. Qed.

Lemma peers_are_asked_once_witness :
  let d := disc_after small_join in
  NoDup (di_requests d) ∧ (∀ g nodeId, (g, nodeId) ∈ di_requests d → nodeId ≠ localNodeId local) ∧
  (∀ i s, di_sessions d !! i = Some s → size (se_ongoingRequests s) ≤ 2).
Proof. apply (peers_are_asked_once ContactsWitness.distance local 20 None 2 3 20 []); discriminate. Defined.

Lemma no_join_hangs_witness :
  let d := disc_after [DJoin [node 16] true true] in
  (∀ j jn i, di_joins d !! j = Some jn → jn_wait jn = WaitSession i →
     ∃ s, di_sessions d !! i = Some s ∧ (se_doneGate s = true ∨ se_ongoingRequests s ≠ ∅ ∨ se_calls s ≠ 0)) ∧
  (di_rejoinOngoing d = true → ∃ j jn, di_joins d !! j = Some jn ∧ jn_rejoin jn = true).
Proof.
  apply (no_join_hangs ContactsWitness.distance local 20 None 2 3 20 []); [discriminate..|]. vm_compute. reflexivity.
Defined.

End DiscoveryWitness.
