(* ===== verification/DataStore.v ===== *)
(** * The data store of the DHT

    Translated from [dht/src/dht/store/]: [LocalDataStore.ts] (entries by key and creator, with a time to live),
    [StoreRpcLocal.ts] (storing and replicating on request) and [StoreManager.ts] (storing to the DHT, replicating
    to a new contact and when leaving).

    Entries are objects that several places hold: the store, and the tasks that will send them.  A node has a list
    of objects, and an entry is known by its number there.  A peer is its node id.  What [getNeighbors] answers is an
    argument; [setImmediate] puts a task in a queue.  Times of creation are exact: milliseconds with a fraction, in
    the source a floating point number. *)

From S2P Require Import Prelude.
From S2P Require Import JsMap.
From S2P Require Import TtlMap.
From S2P Require Import Contacts.

Set Default Proof Using "Type".

Record Timestamp := MkTimestamp { ts_seconds : Z; ts_nanos : Z }.

(** [Timestamp.now()] at a time in milliseconds *)
Definition timestamp_now (now : Z) : Timestamp := MkTimestamp (now / 1000)%Z (now `mod` 1000 * 1000000)%Z.

(** [seconds * 1000 + nanos / 1000000], in millionths of a millisecond *)
Definition millis (t : Timestamp) : Z := (ts_seconds t * 1000000000 + ts_nanos t)%Z.

Record DataEntry := MkEntry {
  de_key : string;
  de_data : string;
  de_creator : string;
  de_createdAt : Timestamp;
  de_storedAt : Timestamp;
  de_ttl : Z;
  de_stale : bool;
  de_deleted : bool }.

Definition set_stale (e : DataEntry) : DataEntry :=
  MkEntry (de_key e) (de_data e) (de_creator e) (de_createdAt e) (de_storedAt e) (de_ttl e) true (de_deleted e).
Definition set_deleted (e : DataEntry) : DataEntry :=
  MkEntry (de_key e) (de_data e) (de_creator e) (de_createdAt e) (de_storedAt e) (de_ttl e) (de_stale e) true.

(** * LocalDataStore *)

Record LocalDataStore := MkStore {
  ld_maxTtl : Z;
  ld_store : jsmap string (ttl_map string nat);
  (** the objects of the node; the store holds numbers of this list *)
  ld_objects : list DataEntry }.

Implicit Types (s : LocalDataStore) (key creator : string) (now : Z) (e : DataEntry).

Definition store_new (maxTtl : Z) : LocalDataStore := MkStore maxTtl [] [].

Definition with_store (store : jsmap string (ttl_map string nat)) s : LocalDataStore := MkStore (ld_maxTtl s) store (ld_objects s).
Definition with_objects (objects : list DataEntry) s : LocalDataStore := MkStore (ld_maxTtl s) (ld_store s) objects.

(** A new object *)
Definition alloc e s : LocalDataStore * nat := (with_objects (ld_objects s ++ [e]) s, length (ld_objects s)).

(** The time to live of an object: the callback given to [MapWithTtl] *)
Definition entry_ttl s (id : nat) : Z := match ld_objects s !! id with Some e => Z.min (de_ttl e) (ld_maxTtl s) | None => 0 end.

(** Whether the stored entry is at least as new as [e] *)
Definition not_newer e s (m : ttl_map string nat) : bool :=
  match ttl_get (de_creator e) m ≫= λ id, ld_objects s !! id with
  | Some old => (millis (de_createdAt e) <=? millis (de_createdAt old))%Z
  | None => false
  end.

Definition storeEntry now (id : nat) s : LocalDataStore * bool :=
  match ld_objects s !! id with
  | None => (s, false)
  | Some e =>
      let store := if map_has (de_key e) (ld_store s) then ld_store s else map_set (de_key e) ttl_empty (ld_store s) in
      let m := default ttl_empty (map_get (de_key e) store) in
      if not_newer e s m then (with_store store s, false)
      else (with_store (map_set (de_key e) (ttl_set (entry_ttl s) now (de_creator e) id m) store) s, true)
  end.

Definition markAsDeleted key creator s : LocalDataStore * bool :=
  match map_get key (ld_store s) ≫= ttl_get creator with
  | Some id => (with_objects (alter set_deleted id (ld_objects s)) s, true)
  | None => (s, false)
  end.

(** [values]: the objects under a key, or all *)
Definition store_values (key : option string) s : list nat :=
  match key with
  | Some key => match map_get key (ld_store s) with Some m => ttl_values m | None => [] end
  | None => (ld_store s).*2 ≫= ttl_values
  end.

Definition store_keys s : list string := (ld_store s).*1.

Definition setAllEntriesAsStale key s : LocalDataStore :=
  match map_get key (ld_store s) with
  | Some m => with_objects (foldr (alter set_stale) (ld_objects s) (ttl_values m)) s
  | None => s
  end.

Definition deleteEntry key creator s : LocalDataStore :=
  match map_get key (ld_store s) ≫= ttl_get creator with
  | Some _ =>
      match map_get key (ld_store s) with
      | Some m => let m := ttl_delete creator m in
                  if (ttl_size m =? 0)%nat then with_store (map_delete key (ld_store s)) s
                  else with_store (map_set key m (ld_store s)) s
      | None => s
      end
  | None => s
  end.

(** [clear] stops the timers of the maps and forgets them. *)
Definition store_clear s : LocalDataStore := with_store [] s.

(** The timers that are due run. *)
Definition store_expire now s : LocalDataStore := with_store (prod_map id (ttl_expire now) <$> ld_store s) s.

(** * A node that stores *)

(** The callbacks given to [setImmediate]: [replicateDataToContact] of an entry, and of all the entries under a key *)
Inductive store_task :=
  | TaskEntry (id : nat) (target : string)
  | TaskKey (key : string) (target : string).

Record StoreNode := MkStoreNode {
  sn_store : LocalDataStore;
  sn_tasks : list store_task }.

(** The messages of the protocol: [replicateData], with whether to connect *)
Record replicate_message := MkReplicate { re_target : string; re_entry : DataEntry; re_connect : bool }.

Section node.
  Context (distance : string → string → Z) `{SortedIndex}.
  Context (localPeer : string) (redundancyFactor : nat).
  Implicit Types (n : StoreNode) (neighbors : list string) (peer : string).

Local Notation act := (eff StoreNode js_error).

(** A step of the local store *)
Definition on_store {A} (f : LocalDataStore → LocalDataStore * A) : act A :=
  λ n, let '(s, a) := f (sn_store n) in (MkStoreNode s (sn_tasks n), Return a).

Definition later (tasks : list store_task) : act unit :=
  eff_modify (λ n, MkStoreNode (sn_store n) (sn_tasks n ++ tasks)).

Definition no_descriptor : js_error := MkError None "Cannot read properties of undefined (reading 'nodeId')".

(** [getStorers] of the manager, which passes no excluded node *)
Definition getStorers neighbors key : outcome js_error (list string) :=
  getClosestNodes id distance key (neighbors ++ [localPeer]) (Some redundancyFactor) None.

(** ** StoreRpcLocal *)

Definition isLocalNodeStorer neighbors key : act bool :=
  (let! storers := eff_await (getStorers neighbors key) in
   eff_ret (bool_decide (localPeer ∈ storers)))%eff.

Definition when (b : bool) (m : act unit) : act unit := if b then m else eff_ret tt.

(** The request of [storeData] is an entry without the fields that the storer sets. *)
Record StoreDataRequest := MkStoreData {
  sr_key : string; sr_data : string; sr_creator : string; sr_createdAt : Timestamp; sr_ttl : Z }.

Definition stored_entry now (stale : bool) (r : StoreDataRequest) : DataEntry :=
  MkEntry (sr_key r) (sr_data r) (sr_creator r) (sr_createdAt r) (timestamp_now now) (sr_ttl r) stale false.

Definition store_new_entry now e : act bool :=
  on_store (λ s, let '(s, id) := alloc e s in storeEntry now id s).

Definition storeData now neighbors (r : StoreDataRequest) : act unit :=
  (let! isLocal := isLocalNodeStorer neighbors (sr_key r) in
   let! stored := store_new_entry now (stored_entry now (negb isLocal) r) in
   when (negb isLocal) (on_store (λ s, (setAllEntriesAsStale (sr_key r) s, tt))))%eff.

(** To the other storers when this node is the closest of them, to the closest otherwise; never to the requestor *)
Definition replication_targets requestor (storers : list string) : outcome js_error (list string) :=
  match storers with
  | [] => Throw no_descriptor
  | primary :: _ =>
      Return (filter (λ p, p ≠ requestor ∧ p ≠ localPeer) (if decide (primary = localPeer) then storers else [primary]))
  end.

Definition replicateDataToNeighbors neighbors requestor (id : nat) key : act unit :=
  (let! storers := eff_await (getStorers neighbors key) in
   let! targets := eff_await (replication_targets requestor storers) in
   later (TaskEntry id <$> targets))%eff.

Definition replicateData now neighbors requestor e : act unit :=
  (let! id := on_store (alloc e) in
   let! wasStored := on_store (storeEntry now id) in
   when wasStored (replicateDataToNeighbors neighbors requestor id (de_key e)) ;;
   let! isLocal := isLocalNodeStorer neighbors (de_key e) in
   when (negb isLocal) (on_store (λ s, (setAllEntriesAsStale (de_key e) s, tt))))%eff.

(** ** StoreManager *)

Definition replicateAndUpdateStaleState neighbors newNode key : act unit :=
  (let! storers := eff_await (getStorers neighbors key) in
   match filter (λ p, p ≠ newNode) storers with
   | [] => eff_throw no_descriptor
   | primary :: _ =>
       if decide (primary = localPeer) then when (bool_decide (newNode ∈ storers)) (later [TaskKey key newNode])
       else when (negb (bool_decide (localPeer ∈ storers))) (on_store (λ s, (setAllEntriesAsStale key s, tt)))
   end)%eff.

Fixpoint for_each {X} (f : X → act unit) (l : list X) : act unit :=
  match l with [] => eff_ret tt | x :: l => (f x ;; for_each f l)%eff end.

Definition onContactAdded neighbors newNode : act unit :=
  λ n, for_each (replicateAndUpdateStaleState neighbors newNode) (store_keys (sn_store n)) n.

(** The first task runs: what it sends, as the entries are then. *)
Definition send_entries (connect : bool) (target : string) s (ids : list nat) : list replicate_message :=
  omap (λ id, (λ e, MkReplicate target e connect) <$> ld_objects s !! id) ids.

Definition run_task n : StoreNode * list replicate_message :=
  match sn_tasks n with
  | [] => (n, [])
  | TaskEntry id target :: tasks => (MkStoreNode (sn_store n) tasks, send_entries true target (sn_store n) [id])
  | TaskKey key target :: tasks =>
      (MkStoreNode (sn_store n) tasks, send_entries true target (sn_store n) (store_values (Some key) (sn_store n)))
  end.

(** [storeDataToDht], after the closest nodes were found: [answers] tells which of the others store the data. *)
Definition store_at_node now (r : StoreDataRequest) (answers : string → bool) peer : act bool :=
  if decide (localPeer = peer) then
    (let! stored := store_new_entry now (stored_entry now false r) in eff_ret true)%eff
  else eff_ret (answers peer).

Fixpoint storeDataToDht now (r : StoreDataRequest) (answers : string → bool) (closestNodes successfulNodes : list string)
    : act (list string) :=
  match closestNodes with
  | [] => eff_ret successfulNodes
  | peer :: closestNodes =>
      if (length successfulNodes <? redundancyFactor)%nat then
        (let! stored := store_at_node now r answers peer in
         storeDataToDht now r answers closestNodes (if stored then successfulNodes ++ [peer] else successfulNodes))%eff
      else eff_ret successfulNodes
  end.

(** [destroy]: every entry goes to the neighbours closest to its key. *)
Definition replicateDataToClosestNodes neighbors n : outcome js_error (list replicate_message) :=
  foldr (λ id rest,
    match ld_objects (sn_store n) !! id with
    | None => rest
    | Some e => (let? targets := getClosestNodes (λ p, p) distance (de_key e) neighbors (Some redundancyFactor) None in
                 let? sent := rest in
                 Return (((λ p, MkReplicate p e false) <$> targets) ++ sent))%eff
    end) (Return []) (store_values None (sn_store n)).
End node.

(** * What the store promises

    A map from key and creator to an entry with the time at which it goes. *)

Notation store_spec := (gmap (string * string) (DataEntry * Z)).

Inductive store_op :=
  | OStore (e : DataEntry)
  | OMarkDeleted (key creator : string)
  | OSetStale (key : string)
  | ODelete (key creator : string)
  | OClear
  | OExpire.

(** An operation on the store, and what it answers *)
Definition store_step now (op : store_op) s : LocalDataStore * bool :=
  match op with
  | OStore e => let '(s, id) := alloc e s in storeEntry now id s
  | OMarkDeleted key creator => markAsDeleted key creator s
  | OSetStale key => (setAllEntriesAsStale key s, true)
  | ODelete key creator => (deleteEntry key creator s, true)
  | OClear => (store_clear s, true)
  | OExpire => (store_expire now s, true)
  end.

Definition expires (maxTtl now : Z) e : Z := (now + timer_delay (Z.min (de_ttl e) maxTtl))%Z.

Definition keeps_old e (old : option (DataEntry * Z)) : bool :=
  match old with Some (old, _) => (millis (de_createdAt e) <=? millis (de_createdAt old))%Z | None => false end.

Definition spec_step (maxTtl now : Z) (op : store_op) (m : store_spec) : store_spec * bool :=
  match op with
  | OStore e =>
      let slot := (de_key e, de_creator e) in
      if keeps_old e (m !! slot) then (m, false) else (<[slot := (e, expires maxTtl now e)]> m, true)
  | OMarkDeleted key creator => (alter (prod_map set_deleted id) (key, creator) m, bool_decide (is_Some (m !! (key, creator))))
  | OSetStale key => (map_imap (λ slot v, Some (if decide (slot.1 = key) then prod_map set_stale id v else v)) m, true)
  | ODelete key creator => (delete (key, creator) m, true)
  | OClear => (∅, true)
  | OExpire => (filter (λ v, (now < v.2.2)%Z) m, true)
  end.

Fixpoint store_run (ops : list (Z * store_op)) s : LocalDataStore * list bool :=
  match ops with
  | [] => (s, [])
  | (now, op) :: ops => let '(s, b) := store_step now op s in let '(s, bs) := store_run ops s in (s, b :: bs)
  end.

Fixpoint spec_run (maxTtl : Z) (ops : list (Z * store_op)) (m : store_spec) : store_spec * list bool :=
  match ops with
  | [] => (m, [])
  | (now, op) :: ops => let '(m, b) := spec_step maxTtl now op m in let '(m, bs) := spec_run maxTtl ops m in (m, b :: bs)
  end.

(** The entry of a creator under a key, with the time at which it goes *)
Definition lookup_entry s key creator : option (DataEntry * Z) :=
  map_get key (ld_store s) ≫= λ m, view m !! creator ≫= λ v, (λ e, (e, v.2)) <$> ld_objects s !! v.1.

Record store_inv s : Prop := {
  sti_keys : NoDup (ld_store s).*1;
  sti_wf : ∀ key m, map_get key (ld_store s) = Some m → ttl_wf m;
  sti_objects : ∀ key m creator id d, map_get key (ld_store s) = Some m → view m !! creator = Some (id, d) →
    ∃ e, ld_objects s !! id = Some e ∧ de_key e = key ∧ de_creator e = creator }.

(** ** Lemmas on a map with a TTL *)

Lemma get_view (m : ttl_map string nat) creator : ttl_wf m → ttl_get creator m = fst <$> view m !! creator.
Proof. apply (em_get_view (ExpiringMap := ttl_map_expiring (λ _, 0%Z))). Qed.

Lemma values_view (m : ttl_map string nat) id : ttl_wf m → id ∈ ttl_values m ↔ ∃ creator d, view m !! creator = Some (id, d).
Proof.
  intros Hwf. unfold ttl_values. rewrite list_elem_of_fmap. split.
  - intros ([creator [id' t]] & -> & Hin%elem_of_map_to_list). destruct Hwf as (Hd & _). destruct (Hd _ _ _ Hin) as [d Ht].
    exists creator, d. apply view_lookup. by exists t, creator.
  - intros (creator & d & (t & k & Hd & _)%view_lookup). exists (creator, (id, t)). split; [done|]. by apply elem_of_map_to_list.
Qed.

Lemma empty_view (m : ttl_map string nat) : ttl_wf m → ttl_size m = 0 ↔ view m = ∅.
Proof.
  intros Hwf. unfold ttl_size. rewrite map_size_empty_iff. split; intros He; apply map_eq; intros k; rewrite lookup_empty.
  - apply view_lookup_None; [done|]. by rewrite He.
  - apply view_lookup_None; [done|]. by rewrite He.
Qed.

Lemma lookup_key s key m : map_get key (ld_store s) = Some m →
  ∀ creator, lookup_entry s key creator = view m !! creator ≫= λ v, (λ e, (e, v.2)) <$> ld_objects s !! v.1.
Proof. intros Hm creator. unfold lookup_entry. by rewrite Hm. Qed.

Lemma lookup_no_key s key creator : map_get key (ld_store s) = None → lookup_entry s key creator = None.
Proof. intros Hm. unfold lookup_entry. by rewrite Hm. Qed.

(** The object of a slot *)
Lemma lookup_slot s key creator e d : store_inv s → lookup_entry s key creator = Some (e, d) →
  ∃ m id, map_get key (ld_store s) = Some m ∧ view m !! creator = Some (id, d) ∧ ld_objects s !! id = Some e ∧
    de_key e = key ∧ de_creator e = creator.
Proof.
  intros Hinv. unfold lookup_entry. destruct (map_get key (ld_store s)) as [m|] eqn:Hm; [|done]. cbn.
  destruct (view m !! creator) as [[id d']|] eqn:Hv; [|done]. cbn. destruct (ld_objects s !! id) as [e'|] eqn:Ho; [|done]. intros [= -> ->].
  destruct (sti_objects s Hinv _ _ _ _ _ Hm Hv) as (e' & Ho' & Hk & Hc). exists m, id. by simplify_eq.
Qed.

(** ** Every operation does as specified *)

Lemma new_inv maxTtl : store_inv (store_new maxTtl).
Proof. split; cbn; [constructor|done|done]. Qed.

Lemma alloc_spec e s : store_inv s →
  store_inv (alloc e s).1 ∧ ld_objects (alloc e s).1 !! (alloc e s).2 = Some e ∧
  ∀ k c, lookup_entry (alloc e s).1 k c = lookup_entry s k c.
Proof.
  intros Hinv. assert (∀ id x, ld_objects s !! id = Some x → (ld_objects s ++ [e]) !! id = Some x) as Hkeep by (intros; by apply lookup_app_l_Some).
  split_and!.
  - destruct Hinv as [? ? Hobj]. split; cbn; [done..|]. intros key m creator id d Hm Hv.
    destruct (Hobj _ _ _ _ _ Hm Hv) as (x & Hx & ?). exists x. auto.
  - cbn. by rewrite lookup_app_r, Nat.sub_diag.
  - intros k c. unfold lookup_entry. cbn. destruct (map_get k (ld_store s)) as [m|] eqn:Hm; [|done]. cbn.
    destruct (view m !! c) as [[id d]|] eqn:Hv; [|done]. cbn. destruct (sti_objects s Hinv _ _ _ _ _ Hm Hv) as (x & Hx & _).
    by rewrite Hx, (Hkeep _ _ Hx).
Qed.

Lemma set_map_spec s key m : store_inv s → ttl_wf m →
  (∀ creator id d, view m !! creator = Some (id, d) → ∃ e, ld_objects s !! id = Some e ∧ de_key e = key ∧ de_creator e = creator) →
  store_inv (with_store (map_set key m (ld_store s)) s) ∧
  ∀ k c, lookup_entry (with_store (map_set key m (ld_store s)) s) k c =
    if decide (key = k) then view m !! c ≫= λ v, (λ e, (e, v.2)) <$> ld_objects s !! v.1 else lookup_entry s k c.
Proof.
  intros [Hkeys Hwf Hobj] Hm Hnew. split.
  - split; cbn.
    + by apply map_set_nodup.
    + intros k m'. rewrite map_get_set. case_decide; [by intros [= <-]|apply Hwf].
    + intros k m' c id d. rewrite map_get_set. case_decide; [subst; intros [= <-]; apply Hnew|apply Hobj].
  - intros k c. unfold lookup_entry. cbn. rewrite map_get_set. by case_decide.
Qed.

Lemma view_new : view (ttl_empty (K := string) (V := nat)) = ∅.
Proof. apply map_eq. intros k. done. Qed.

(** The map of a key, which [storeEntry] makes if there is none *)
Lemma opened_spec s key : store_inv s → let store := if map_has key (ld_store s) then ld_store s else map_set key ttl_empty (ld_store s) in
  store_inv (with_store store s) ∧ (∀ k c, lookup_entry (with_store store s) k c = lookup_entry s k c) ∧
  ∃ m, map_get key store = Some m.
Proof.
  intros Hinv. cbn zeta. destruct (map_has key (ld_store s)) eqn:Hhas; unfold map_has in Hhas.
  - apply bool_decide_eq_true in Hhas as [m Hm]. split_and!; [by destruct s|by destruct s|by exists m].
  - apply bool_decide_eq_false, eq_None_not_Some in Hhas.
    destruct (set_map_spec s key ttl_empty Hinv ttl_wf_empty) as [Hset Hlookup]; [intros creator id d Hv; by rewrite view_new, lookup_empty in Hv|].
    split_and!; [done| |exists ttl_empty; by rewrite map_get_set, decide_True].
    intros k c. rewrite Hlookup. case_decide as Hk; [|done]. subst k. by rewrite lookup_no_key, view_new, lookup_empty.
Qed.

Lemma storeEntry_spec now id e s : store_inv s → ld_objects s !! id = Some e →
  let '(s', stored) := storeEntry now id s in
  let slot_entry := lookup_entry s (de_key e) (de_creator e) in
  store_inv s' ∧ ld_objects s' = ld_objects s ∧ ld_maxTtl s' = ld_maxTtl s ∧ stored = negb (keeps_old e slot_entry) ∧
  ∀ k c, lookup_entry s' k c = if decide (stored = true ∧ (de_key e, de_creator e) = (k, c)) then Some (e, expires (ld_maxTtl s) now e)
                               else lookup_entry s k c.
Proof.
  intros Hinv He. unfold storeEntry. rewrite He.
  destruct (opened_spec s (de_key e) Hinv) as (Hinv' & Hlookup & m & Hm). cbn zeta in *.
  set (store := if map_has (de_key e) (ld_store s) then _ else _) in *. rewrite Hm. change (default ttl_empty (Some m)) with m.
  assert (ttl_wf m) as Hwf by (by apply (sti_wf _ Hinv' (de_key e))).
  assert (not_newer e s m = keeps_old e (lookup_entry s (de_key e) (de_creator e))) as Hnewer.
  { rewrite <-Hlookup, (lookup_key (with_store store s) _ m) by done. unfold not_newer. rewrite get_view by done.
    destruct (view m !! de_creator e) as [[id' d]|]; [|done]. cbn. by destruct (ld_objects s !! id'). }
  rewrite Hnewer. destruct (keeps_old _ _) eqn:Hold; cbn [negb].
  - split_and!; [done..|]. intros k c. rewrite Hlookup. case_decide as Hd; [by destruct Hd|done].
  - set (m' := ttl_set (entry_ttl s) now (de_creator e) id m).
    assert (view m' = <[de_creator e := (id, expires (ld_maxTtl s) now e)]> (view m)) as Hview.
    { unfold m'. rewrite ttl_set_view by done. unfold entry_ttl. by rewrite He. }
    destruct (set_map_spec (with_store store s) (de_key e) m' Hinv') as [Hinv2 Hlookup2].
    + by apply ttl_set_wf.
    + intros creator id' d. rewrite Hview, lookup_insert. case_decide as Hc.
      * intros [= <- <-]. exists e. subst. done.
      * intros Hv. by apply (sti_objects _ Hinv' (de_key e) m creator id' d).
    + split_and!; [done..|]. intros k c. rewrite Hlookup2, Hview, lookup_insert. cbn [with_store ld_objects].
      destruct (decide (de_key e = k)) as [Hk|Hk], (decide (de_creator e = c)) as [Hc|Hc]; subst.
      * rewrite decide_True by done. cbn. by rewrite He.
      * rewrite decide_False by (intros [_ [=]]; done). by rewrite <-Hlookup, (lookup_key (with_store store s) _ m).
      * rewrite decide_False by (intros [_ [=]]; done). apply Hlookup.
      * rewrite decide_False by (intros [_ [=]]; done). apply Hlookup.
Qed.

(** Changing an object changes its slot and no other. *)
Lemma objects_spec s (objects : list DataEntry) (f : string → string → DataEntry → DataEntry) : store_inv s →
  (∀ k c x, de_key (f k c x) = de_key x ∧ de_creator (f k c x) = de_creator x) →
  (∀ k c m id d x, map_get k (ld_store s) = Some m → view m !! c = Some (id, d) → ld_objects s !! id = Some x →
     de_key x = k → de_creator x = c → objects !! id = Some (f k c x)) →
  store_inv (with_objects objects s) ∧
  ∀ k c, lookup_entry (with_objects objects s) k c = prod_map (f k c) id <$> lookup_entry s k c.
Proof.
  intros Hinv Hf Hobjects. split.
  - pose proof Hinv as [? ? Hobj]. split; cbn; [done..|]. intros k m c id d Hm Hv. destruct (Hobj _ _ _ _ _ Hm Hv) as (x & Hx & Hk & Hc).
    exists (f k c x). destruct (Hf k c x) as [-> ->]. split_and!; [|done..]. by eapply Hobjects.
  - intros k c. unfold lookup_entry. cbn. destruct (map_get k (ld_store s)) as [m|] eqn:Hm; [|done]. cbn.
    destruct (view m !! c) as [[id d]|] eqn:Hv; [|done]. cbn. destruct (sti_objects s Hinv _ _ _ _ _ Hm Hv) as (x & Hx & Hk & Hc).
    by rewrite Hx, (Hobjects _ _ _ _ _ _ Hm Hv Hx Hk Hc).
Qed.

Lemma lookup_alter_objects (g : DataEntry → DataEntry) (l : list DataEntry) id id' x : l !! id' = Some x →
  alter g id l !! id' = Some (if decide (id = id') then g x else x).
Proof.
  intros Hx. case_decide as Hd; [subst; by rewrite list_lookup_alter_eq, Hx|by rewrite list_lookup_alter_ne].
Qed.

Lemma markAsDeleted_spec key creator s : store_inv s →
  let '(s', had) := markAsDeleted key creator s in
  store_inv s' ∧ had = bool_decide (is_Some (lookup_entry s key creator)) ∧
  ∀ k c, lookup_entry s' k c = (if decide ((key, creator) = (k, c)) then prod_map set_deleted id else id) <$> lookup_entry s k c.
Proof.
  intros Hinv. unfold markAsDeleted.
  assert (∀ k c, lookup_entry s k c = id <$> lookup_entry s k c) as Hid by (intros; by rewrite option_fmap_id).
  destruct (map_get key (ld_store s)) as [m|] eqn:Hm; cbn.
  2: { split_and!; [done|by rewrite lookup_no_key|]. intros k c. case_decide as Hd; [|done]. injection Hd as <- <-. by rewrite lookup_no_key. }
  rewrite get_view by (by eapply sti_wf). rewrite (lookup_key s key m Hm creator).
  destruct (view m !! creator) as [[id d]|] eqn:Hv; cbn.
  2: { split_and!; [done..|]. intros k c. case_decide as Hd; [|done]. injection Hd as <- <-. by rewrite (lookup_key s key m Hm), Hv. }
  destruct (sti_objects s Hinv _ _ _ _ _ Hm Hv) as (x & Hx & Hk & Hc). rewrite Hx.
  destruct (objects_spec s (alter set_deleted id (ld_objects s)) (λ k c, if decide ((key, creator) = (k, c)) then set_deleted else λ x, x) Hinv)
    as [Hinv' Hlookup].
  - intros k c y. by case_decide.
  - intros k c m' id' d' y Hm' Hv' Hy Hky Hcy. rewrite (lookup_alter_objects _ _ _ _ y Hy). f_equal.
    destruct (decide (id = id')) as [->|Hne].
    + rewrite decide_True; [done|]. assert (x = y) as -> by congruence. congruence.
    + rewrite decide_False; [done|]. intros [= <- <-]. apply Hne. congruence.
  - split_and!; [done|done|]. intros k c. etrans; [apply Hlookup|]. case_decide; [done|]. by destruct (lookup_entry s k c) as [[? ?]|].
Qed.

Lemma foldr_alter_lookup (g : DataEntry → DataEntry) (ids : list nat) (l : list DataEntry) id x : (∀ y, g (g y) = g y) → l !! id = Some x →
  foldr (alter g) l ids !! id = Some (if decide (id ∈ ids) then g x else x).
Proof.
  intros Hg Hx. induction ids as [|id' ids IH]; cbn; [done|]. rewrite (lookup_alter_objects _ _ _ _ _ IH). f_equal.
  destruct (decide (id' = id)) as [->|Hne].
  - rewrite (decide_True (P := id ∈ id :: ids)) by left. case_decide; [apply Hg|done].
  - destruct (decide (id ∈ ids)); [rewrite decide_True by (by right)|rewrite decide_False by (by intros [?|?]%elem_of_cons)]; done.
Qed.

Lemma setAllEntriesAsStale_spec key s : store_inv s →
  store_inv (setAllEntriesAsStale key s) ∧
  ∀ k c, lookup_entry (setAllEntriesAsStale key s) k c = (if decide (k = key) then prod_map set_stale id else id) <$> lookup_entry s k c.
Proof.
  intros Hinv. unfold setAllEntriesAsStale.
  destruct (map_get key (ld_store s)) as [m|] eqn:Hm.
  2: { split; [done|]. intros k c. case_decide as Hd; [subst; by rewrite lookup_no_key|by rewrite option_fmap_id]. }
  destruct (objects_spec s (foldr (alter set_stale) (ld_objects s) (ttl_values m)) (λ k c, if decide (k = key) then set_stale else λ x, x) Hinv)
    as [Hinv' Hlookup].
  - intros k c y. by case_decide.
  - intros k c m' id' d' y Hm' Hv' Hy Hky Hcy. rewrite (foldr_alter_lookup _ _ _ _ y) by done. f_equal.
    destruct (decide (k = key)) as [->|Hne].
    + rewrite decide_True; [done|]. apply values_view; [by eapply sti_wf|]. exists c, d'. congruence.
    + rewrite decide_False; [done|]. intros (c' & d & Hv)%values_view; [|by eapply sti_wf].
      destruct (sti_objects s Hinv _ _ _ _ _ Hm Hv) as (z & Hz & Hkz & _). congruence.
  - split; [done|]. intros k c. rewrite Hlookup. case_decide; [done|]. by destruct (lookup_entry s k c) as [[? ?]|].
Qed.

Lemma deleteEntry_spec key creator s : store_inv s →
  store_inv (deleteEntry key creator s) ∧
  ∀ k c, lookup_entry (deleteEntry key creator s) k c = if decide ((key, creator) = (k, c)) then None else lookup_entry s k c.
Proof.
  intros Hinv. unfold deleteEntry. destruct (map_get key (ld_store s)) as [m|] eqn:Hm; cbn.
  2: { split; [done|]. intros k c. case_decide as Hd; [injection Hd as <- <-; by rewrite lookup_no_key|done]. }
  assert (ttl_wf m) as Hwf by by eapply sti_wf. rewrite get_view by done.
  destruct (view m !! creator) as [[id d]|] eqn:Hv; cbn.
  2: { split; [done|]. intros k c. case_decide as Hd; [|done]. injection Hd as <- <-. by rewrite (lookup_key s key m Hm), Hv. }
  destruct (ttl_delete_view creator m Hwf) as [Hwf' Hview].
  destruct (decide (ttl_size (ttl_delete creator m) = 0)) as [Hsize|Hsize].
  - rewrite (proj2 (Nat.eqb_eq _ _) Hsize). apply empty_view in Hsize; [|done]. rewrite Hview in Hsize.
    assert (∀ k c, lookup_entry (with_store (map_delete key (ld_store s)) s) k c = if decide (key = k) then None else lookup_entry s k c) as Hlookup.
    { intros k c. unfold lookup_entry. cbn [with_store ld_store ld_objects]. rewrite map_get_delete. by case_decide. }
    split.
    + destruct Hinv as [Hkeys Hwfs Hobj]. split; cbn [with_store ld_store ld_objects].
      * rewrite map_delete_keys. by apply NoDup_filter.
      * intros k m'. rewrite map_get_delete. case_decide; [done|apply Hwfs].
      * intros k m' c id' d'. rewrite map_get_delete. case_decide; [done|apply Hobj].
    + intros k c. rewrite Hlookup. destruct (decide (key = k)) as [->|Hk].
      * case_decide as Hd; [done|]. rewrite (lookup_key s k m Hm). assert (view m !! c = None) as ->; [|done].
        assert (delete creator (view m) !! c = None) as Hn by (by rewrite Hsize, lookup_empty).
        apply lookup_delete_None in Hn as [->|?]; done.
      * rewrite decide_False; [done|]. intros [= ? ?]. done.
  - rewrite (proj2 (Nat.eqb_neq _ _) Hsize).
    destruct (set_map_spec s key (ttl_delete creator m) Hinv Hwf') as [Hinv' Hlookup].
    + intros c id' d'. rewrite Hview. intros [_ Hc]%lookup_delete_Some. by apply (sti_objects s Hinv key m c id' d').
    + split; [done|]. intros k c. rewrite Hlookup, Hview. destruct (decide (key = k)) as [->|Hk].
      * destruct (decide (creator = c)) as [->|Hc]; [by rewrite lookup_delete_eq, decide_True|].
        rewrite lookup_delete_ne, decide_False by (done || (intros [= ?]; done)). by rewrite (lookup_key s k m Hm).
      * rewrite decide_False; [done|]. intros [= ? ?]. done.
Qed.

Lemma store_expire_spec now s : store_inv s →
  store_inv (store_expire now s) ∧
  ∀ k c, lookup_entry (store_expire now s) k c = lookup_entry s k c ≫= λ v, if decide (now < v.2)%Z then Some v else None.
Proof.
  intros Hinv.
  assert (∀ k, map_get k (prod_map id (ttl_expire now) <$> ld_store s) = ttl_expire now <$> map_get k (ld_store s)) as Hget.
  { intros k. induction (ld_store s) as [|[k' m] l IH]; [done|]. cbn. by case_decide. }
  assert (∀ (m : ttl_map string nat) c id d, ttl_wf m → view (ttl_expire now m) !! c = Some (id, d) ↔ view m !! c = Some (id, d) ∧ (now < d)%Z) as Hview.
  { intros m c id d Hwf. rewrite ttl_expire_view by done. apply map_lookup_filter_Some. }
  pose proof Hinv as [Hkeys Hwf Hobj]. split.
  - split; cbn [store_expire with_store ld_store ld_objects].
    + by rewrite <-list_fmap_compose, (list_fmap_ext _ fst).
    + intros k m. rewrite Hget. destruct (map_get k (ld_store s)) as [m0|] eqn:Hm; [|done]. intros [= <-]. apply ttl_expire_wf. by eapply Hwf.
    + intros k m c id d. rewrite Hget. destruct (map_get k (ld_store s)) as [m0|] eqn:Hm; [|done]. intros [= <-] [Hv _]%Hview; [|by eapply Hwf].
      by eapply Hobj.
  - intros k c. unfold lookup_entry. cbn [store_expire with_store ld_store ld_objects]. rewrite Hget.
    destruct (map_get k (ld_store s)) as [m|] eqn:Hm; [|done]. cbn. assert (ttl_wf m) as Hm' by by eapply Hwf.
    destruct (view m !! c) as [[id d]|] eqn:Hv; cbn.
    + destruct (Hobj _ _ _ _ _ Hm Hv) as (e & He & _). rewrite He. cbn. case_decide as Hd.
      * rewrite (proj2 (Hview m c id d Hm')) by done. cbn. by rewrite He.
      * destruct (view (ttl_expire now m) !! c) as [[id' d']|] eqn:Hv'; [|done]. apply Hview in Hv' as [Hv' ?]; [|done]. simplify_eq. lia.
    + destruct (view (ttl_expire now m) !! c) as [[id' d']|] eqn:Hv'; [|done]. apply Hview in Hv' as [Hv' ?]; [|done]. congruence.
Qed.

(** A store and a map agree. *)
Definition agrees s (m : store_spec) : Prop := store_inv s ∧ ∀ k c, lookup_entry s k c = m !! (k, c).

Lemma step_agrees now op s m : agrees s m →
  let '(s', b) := store_step now op s in let '(m', b') := spec_step (ld_maxTtl s) now op m in
  agrees s' m' ∧ b = b' ∧ ld_maxTtl s' = ld_maxTtl s.
Proof.
  intros [Hinv Hlookup]. destruct op as [e|key creator|key|key creator| |]; cbn [store_step spec_step].
  - destruct (alloc_spec e s Hinv) as (Hinv1 & He & Hsame). destruct (alloc e s) as [s1 id] eqn:Ha. cbn in Hinv1, He, Hsame.
    assert (ld_maxTtl s1 = ld_maxTtl s) as Hmax by (by injection Ha as <- _).
    pose proof (storeEntry_spec now id e s1 Hinv1 He) as Hs. destruct (storeEntry now id s1) as [s2 b].
    destruct Hs as (Hinv2 & _ & Hmax2 & -> & Hlookup2). rewrite Hsame, Hlookup in Hlookup2 |- *.
    destruct (keeps_old e (m !! (de_key e, de_creator e))); cbn [negb] in *; (split_and!; [|done|congruence]); (split; [done|]); intros k c; rewrite Hlookup2.
    + rewrite decide_False by (by intros [? _]). by rewrite Hsame, Hlookup.
    + rewrite lookup_insert, Hmax. destruct (decide ((de_key e, de_creator e) = (k, c))) as [Hd|Hd].
      * by rewrite decide_True.
      * rewrite decide_False by (by intros [_ ?]). by rewrite Hsame, Hlookup.
  - pose proof (markAsDeleted_spec key creator s Hinv) as Hs. destruct (markAsDeleted key creator s) as [s' had] eqn:Hm.
    destruct Hs as (Hinv' & -> & Hlookup'). split_and!; [|by rewrite Hlookup|].
    + split; [done|]. intros k c. rewrite Hlookup', Hlookup, lookup_alter. case_decide as Hd.
      * by injection Hd as <- <-.
      * by destruct (m !! (k, c)).
    + unfold markAsDeleted in Hm. case_match; by injection Hm as <- _.
  - destruct (setAllEntriesAsStale_spec key s Hinv) as [Hinv' Hlookup']. split_and!; [|done|by unfold setAllEntriesAsStale; case_match].
    split; [done|]. intros k c. rewrite Hlookup', Hlookup, map_lookup_imap. cbn. destruct (m !! (k, c)) as [v|]; [|by case_decide]. cbn. by case_decide.
  - destruct (deleteEntry_spec key creator s Hinv) as [Hinv' Hlookup'].
    split_and!; [|done|unfold deleteEntry; repeat case_match; done]. split; [done|]. intros k c. rewrite Hlookup', Hlookup, lookup_delete. done.
  - split_and!; [|done|done]. split; [split; cbn; [constructor|done|done]|]. intros k c. by rewrite lookup_empty.
  - destruct (store_expire_spec now s Hinv) as [Hinv' Hlookup']. split_and!; [|done|done]. split; [done|]. intros k c.
    rewrite Hlookup', Hlookup. rewrite map_lookup_filter. destruct (m !! (k, c)) as [v|]; [|done]. cbn. by case_decide; case_guard.
Qed.

Lemma run_agrees ops s m : agrees s m →
  agrees (store_run ops s).1 (spec_run (ld_maxTtl s) ops m).1 ∧ (store_run ops s).2 = (spec_run (ld_maxTtl s) ops m).2 ∧
  ld_maxTtl (store_run ops s).1 = ld_maxTtl s.
Proof.
  revert s m. induction ops as [|[now op] ops IH]; intros s m Hrel; [done|]. cbn.
  pose proof (step_agrees now op s m Hrel) as Hstep. destruct (store_step now op s) as [s1 b], (spec_step (ld_maxTtl s) now op m) as [m1 b1].
  destruct Hstep as (Hrel1 & -> & Hmax). destruct (IH s1 m1 Hrel1) as (H1 & H2 & H3). rewrite Hmax in H1, H2, H3.
  destruct (store_run ops s1), (spec_run (ld_maxTtl s) ops m1). cbn in *. by subst.
Qed.

(** What [values] yields *)
Lemma values_spec s key id e : store_inv s → ld_objects s !! id = Some e →
  id ∈ store_values (Some key) s → ∃ creator d, lookup_entry s key creator = Some (e, d).
Proof.
  intros Hinv He. cbn. destruct (map_get key (ld_store s)) as [m|] eqn:Hm; [|by intros ?%not_elem_of_nil].
  intros (creator & d & Hv)%values_view; [|by eapply sti_wf]. exists creator, d. rewrite (lookup_key s key m Hm), Hv. cbn. by rewrite He.
Qed.

Lemma values_complete s key creator e d : store_inv s → lookup_entry s key creator = Some (e, d) →
  ∃ id, id ∈ store_values (Some key) s ∧ ld_objects s !! id = Some e.
Proof.
  intros Hinv Hl. destruct (lookup_slot s key creator e d Hinv Hl) as (m & id & Hm & Hv & He & _). exists id. split; [|done].
  cbn. rewrite Hm. apply values_view; [by eapply sti_wf|]. by exists creator, d.
Qed.

(** C27: the local data store is a map from key and creator to the newest entry stored there: over any sequence of operations
    it answers and holds what the specification says, an entry replaces an older one and no other, goes when the smaller of
    its time to live and the store's is over, and [values] yields the entries under a key, all of them. *)
Theorem local_store_refines_map maxTtl ops :
  let '(s, answers) := store_run ops (store_new maxTtl) in
  let '(m, answers') := spec_run maxTtl ops ∅ in
  answers = answers' ∧ (∀ key creator, lookup_entry s key creator = m !! (key, creator)) ∧
  ∀ key e, (∃ id, id ∈ store_values (Some key) s ∧ ld_objects s !! id = Some e) ↔ ∃ creator d, m !! (key, creator) = Some (e, d).
Proof.
  assert (agrees (store_new maxTtl) ∅) as Hnew by (split; [apply new_inv|intros k c; by rewrite lookup_empty]).
  destruct (run_agrees ops _ _ Hnew) as ([Hinv Hlookup] & Hans & _). cbn [store_new ld_maxTtl] in *.
  destruct (store_run ops (store_new maxTtl)) as [s bs], (spec_run maxTtl ops ∅) as [m bs']. cbn in *. split_and!; [done..|].
  intros key e. split.
  - intros (id & Hid & He). destruct (values_spec s key id e Hinv He Hid) as (c & d & Hc). exists c, d. by rewrite <-Hlookup.
  - intros (c & d & Hc). rewrite <-Hlookup in Hc. by eapply values_complete.
Qed.

(** ** Replicas converge *)

Definition stores (entries : list (Z * DataEntry)) : list (Z * store_op) := prod_map id OStore <$> entries.

Definition in_slot (slot : string * string) e : Prop := (de_key e, de_creator e) = slot.

(** What a store holds in a slot after entries were stored: one of them, and none is newer *)
Definition newest_of (slot : string * string) (l : list DataEntry) (r : option DataEntry) : Prop :=
  match r with
  | Some e => e ∈ l ∧ in_slot slot e ∧ ∀ e', e' ∈ l → in_slot slot e' → (millis (de_createdAt e') ≤ millis (de_createdAt e))%Z
  | None => ∀ e', e' ∈ l → ¬ in_slot slot e'
  end.

Lemma stores_newest (maxTtl : Z) (slot : string * string) (entries : list (Z * DataEntry)) (m : store_spec) (l : list DataEntry) :
  newest_of slot l (fst <$> m !! slot) →
  newest_of slot (l ++ entries.*2) (fst <$> (spec_run maxTtl (stores entries) m).1 !! slot).
Proof.
  revert m l. induction entries as [|[now e] entries IH]; intros m l Hm; [by rewrite app_nil_r|].
  change (stores ((now, e) :: entries)) with ((now, OStore e) :: stores entries).
  cbn [spec_run spec_step fmap list_fmap snd]. rewrite cons_middle, (assoc_L (++)).
  set (slot_e := (de_key e, de_creator e)).
  assert (∀ m', newest_of slot (l ++ [e]) (fst <$> m' !! slot) → ∀ b,
    newest_of slot ((l ++ [e]) ++ entries.*2) (fst <$> (let '(m0, bs) := spec_run maxTtl (stores entries) m' in (m0, b :: bs)).1 !! slot)) as Hgo.
  { intros m' Hm' b. specialize (IH m' _ Hm'). by destruct (spec_run maxTtl (stores entries) m'). }
  destruct (keeps_old e (m !! slot_e)) eqn:Hold; apply Hgo.
  - destruct (m !! slot) as [[e0 d]|] eqn:Hslot; cbn in Hm |- *.
    + destruct Hm as (Hin & Hs & Hmax). split_and!; [apply elem_of_app; by left|done|].
      intros e' [He'| ->%list_elem_of_singleton]%elem_of_app Hs'; [by apply Hmax|]. unfold in_slot in Hs'. unfold slot_e in Hold. rewrite Hs', Hslot in Hold.
      by apply Z.leb_le.
    + intros e' [He'| ->%list_elem_of_singleton]%elem_of_app Hs'; [by apply (Hm e')|]. unfold in_slot in Hs'. unfold slot_e in Hold. by rewrite Hs', Hslot in Hold.
  - destruct (decide (slot_e = slot)) as [Hs|Hs].
    + rewrite <-Hs, lookup_insert_eq. cbn. split_and!; [apply elem_of_app; right; by apply list_elem_of_singleton|done|].
      intros e' [He'| ->%list_elem_of_singleton]%elem_of_app Hs'; [|done]. rewrite Hs in Hs', Hold. destruct (m !! slot) as [[e0 d]|]; cbn in Hm, Hold.
      * destruct Hm as (_ & _ & Hmax). specialize (Hmax e' He' Hs'). apply Z.leb_gt in Hold. lia.
      * by destruct (Hm e' He').
    + rewrite lookup_insert_ne by done. destruct (m !! slot) as [[e0 d]|] eqn:Hslot; cbn in Hm |- *.
      * destruct Hm as (Hin & Hs0 & Hmax). split_and!; [apply elem_of_app; by left|done|].
        intros e' [He'| ->%list_elem_of_singleton]%elem_of_app Hs'; [by apply Hmax|by destruct Hs].
      * intros e' [He'| ->%list_elem_of_singleton]%elem_of_app Hs'; [by apply (Hm e')|by destruct Hs].
Qed.

Lemma newest_unique (slot : string * string) (l l' : list DataEntry) r r' : (∀ e, e ∈ l ↔ e ∈ l') →
  (∀ e e', e ∈ l → e' ∈ l → de_key e = de_key e' → de_creator e = de_creator e' → millis (de_createdAt e) = millis (de_createdAt e') → e = e') →
  newest_of slot l r → newest_of slot l' r' → r = r'.
Proof.
  intros Hsame Hdistinct Hr Hr'. destruct r as [e|], r' as [e'|]; cbn in *.
  - destruct Hr as (Hin & Hs & Hmax), Hr' as (Hin' & Hs' & Hmax'). apply Hsame in Hin'. f_equal. unfold in_slot in *.
    apply Hdistinct; [done|done|congruence|congruence|]. apply Z.le_antisymm; [by apply Hmax'; [apply Hsame|]|by apply Hmax].
  - destruct Hr as (Hin & Hs & _). apply Hsame in Hin. by destruct (Hr' e Hin).
  - destruct Hr' as (Hin & Hs & _). apply Hsame in Hin. by destruct (Hr e' Hin).
  - done.
Qed.

(** C28: replicas converge: two stores to which the same entries were given, in whatever order, at whatever times and however
    often, hold the same entry for every key and creator, provided that two different entries of a creator under a key were
    not created in the same instant, and that none has expired; it is the newest. *)
Theorem replicas_converge (maxTtl maxTtl' : Z) (entries entries' : list (Z * DataEntry)) key creator :
  (∀ e, e ∈ entries.*2 ↔ e ∈ entries'.*2) →
  (∀ e e', e ∈ entries.*2 → e' ∈ entries.*2 → de_key e = de_key e' → de_creator e = de_creator e' →
     millis (de_createdAt e) = millis (de_createdAt e') → e = e') →
  let s := (store_run (stores entries) (store_new maxTtl)).1 in
  let s' := (store_run (stores entries') (store_new maxTtl')).1 in
  fst <$> lookup_entry s key creator = fst <$> lookup_entry s' key creator ∧
  newest_of (key, creator) entries.*2 (fst <$> lookup_entry s key creator).
Proof.
  intros Hsame Hdistinct s s'.
  assert (∀ t l, newest_of (key, creator) l.*2 (fst <$> lookup_entry (store_run (stores l) (store_new t)).1 key creator)) as Hnewest.
  { intros t l. assert (agrees (store_new t) ∅) as Hnew by (split; [apply new_inv|intros k c; by rewrite lookup_empty]).
    destruct (run_agrees (stores l) _ _ Hnew) as ([_ Hlookup] & _). rewrite Hlookup.
    apply (stores_newest _ (key, creator) l ∅ []). rewrite lookup_empty. by intros e ?%not_elem_of_nil. }
  split; [|apply Hnewest]. eapply newest_unique; [done|done|apply Hnewest|apply Hnewest].
Qed.

(** * A flood of replication ends

    The nodes of a network, with their names, the messages under way with their senders; a message can be lost or
    arrive late, nodes run their tasks when they please. *)

Record flood := MkFlood { fl_nodes : list (string * StoreNode); fl_messages : list (string * replicate_message) }.

Inductive flood_event :=
  | FDeliver now (j i : nat)
  | FLose (j : nat)
  | FTask (i : nat).

Section flood.
  Context (distance : string → string → Z) `{SortedIndex} (redundancyFactor : nat) (neighbors : string → list string).
  Implicit Types (f : flood) (n : StoreNode) (v : string * string * Z).

Definition flood_step (ev : flood_event) f : flood :=
  match ev with
  | FDeliver now j i =>
      match fl_messages f !! j, fl_nodes f !! i with
      | Some (source, m), Some (name, n) =>
          if decide (re_target m = name) then
            MkFlood (<[i := (name, (replicateData distance name redundancyFactor now (neighbors name) source (re_entry m) n).1)]> (fl_nodes f))
              (delete j (fl_messages f))
          else f
      | _, _ => f
      end
  | FLose j => MkFlood (fl_nodes f) (delete j (fl_messages f))
  | FTask i =>
      match fl_nodes f !! i with
      | Some (name, n) => let '(n, sent) := run_task n in
                          MkFlood (<[i := (name, n)]> (fl_nodes f)) (fl_messages f ++ (pair name <$> sent))
      | None => f
      end
  end.

(** A version of an entry: its slot and its time of creation *)
Definition version e : string * string * Z := (de_key e, de_creator e, millis (de_createdAt e)).

Definition task_about v s (t : store_task) : bool :=
  match t with
  | TaskEntry id _ => match ld_objects s !! id with Some e => bool_decide (version e = v) | None => false end
  | TaskKey _ _ => false
  end.

(** What a step does for version [v]: a message of it arrives or is lost, or leaves *)
Definition about v (ev : flood_event) f : bool :=
  match ev with
  | FDeliver _ j i =>
      match fl_messages f !! j, fl_nodes f !! i with
      | Some (_, m), Some (name, _) => bool_decide (re_target m = name ∧ version (re_entry m) = v)
      | _, _ => false
      end
  | FLose j => match fl_messages f !! j with Some (_, m) => bool_decide (version (re_entry m) = v) | None => false end
  | FTask i => match fl_nodes f !! i with
               | Some (_, n) => match sn_tasks n with t :: _ => task_about v (sn_store n) t | [] => false end
               | None => false
               end
  end.

(** The steps of a run that are about [v] *)
Fixpoint steps_about v (evs : list flood_event) f : nat :=
  match evs with
  | [] => 0
  | ev :: evs => (if about v ev f then 1 else 0) + steps_about v evs (flood_step ev f)
  end.

(** Whether a node has an entry that is as new as [v] *)
Definition has_version v n : bool :=
  match lookup_entry (sn_store n) v.1.1 v.1.2 with Some (e, _) => (v.2 <=? millis (de_createdAt e))%Z | None => false end.

Definition node_potential v n : nat :=
  2 * length (filter (λ t, task_about v (sn_store n) t = true) (sn_tasks n)) + (if has_version v n then 0 else 2 * redundancyFactor).

Definition potential v f : nat :=
  sum_list_with (λ x, node_potential v x.2) (fl_nodes f) +
  length (filter (λ x, version (re_entry x.2) = v) (fl_messages f)).

Record node_inv n : Prop := {
  ni_store : store_inv (sn_store n);
  ni_tasks : Forall (λ t, match t with TaskEntry id _ => is_Some (ld_objects (sn_store n) !! id) | TaskKey _ _ => False end) (sn_tasks n) }.

(** A change of the store that keeps the objects' versions and does not lose a version *)
Definition store_grows s s' : Prop :=
  store_inv s' ∧
  (∀ id e, ld_objects s !! id = Some e → ∃ e', ld_objects s' !! id = Some e' ∧ version e' = version e) ∧
  (∀ v n n', sn_store n = s → sn_store n' = s' → has_version v n = true → has_version v n' = true).

Lemma grows_trans s1 s2 s3 : store_grows s1 s2 → store_grows s2 s3 → store_grows s1 s3.
Proof using Type.
  intros (_ & Ho1 & Hv1) (Hinv & Ho2 & Hv2). split_and!; [done| |].
  - intros id e He. destruct (Ho1 id e He) as (e1 & He1 & Hve1). destruct (Ho2 id e1 He1) as (e2 & ? & ?). exists e2. split; [done|congruence].
  - intros v n n' Hn Hn' Hv. apply (Hv2 v (MkStoreNode s2 []) n'); [done..|]. by apply (Hv1 v n (MkStoreNode s2 [])).
Qed.

(** A lookup that changes at most in marks *)
Lemma grows_lookup s s' : store_inv s' →
  (∀ id e, ld_objects s !! id = Some e → ∃ e', ld_objects s' !! id = Some e' ∧ version e' = version e) →
  (∀ k c e d, lookup_entry s k c = Some (e, d) → ∃ e' d', lookup_entry s' k c = Some (e', d') ∧
     (millis (de_createdAt e) ≤ millis (de_createdAt e'))%Z) →
  store_grows s s'.
Proof using Type.
  intros Hinv Ho Hl. split_and!; [done|done|]. intros v n n' <- <-. unfold has_version.
  destruct (lookup_entry (sn_store n) v.1.1 v.1.2) as [[e d]|] eqn:He; [|done]. intros Hle%Z.leb_le.
  destruct (Hl _ _ _ _ He) as (e' & d' & -> & ?). apply Z.leb_le. lia.
Qed.

Lemma alloc_grows e s : store_inv s → store_grows s (alloc e s).1.
Proof using Type.
  intros Hinv. destruct (alloc_spec e s Hinv) as (Hinv' & _ & Hlookup). apply grows_lookup; [done| |].
  - intros id x Hx. exists x. split; [|done]. by apply lookup_app_l_Some.
  - intros k c x d Hx. exists x, d. by rewrite Hlookup.
Qed.

Lemma storeEntry_grows now id e s : store_inv s → ld_objects s !! id = Some e → store_grows s (storeEntry now id s).1.
Proof using Type.
  intros Hinv He. pose proof (storeEntry_spec now id e s Hinv He) as Hs. destruct (storeEntry now id s) as [s' b].
  destruct Hs as (Hinv' & Hobj & _ & -> & Hlookup). cbn [fst]. apply grows_lookup; [done| |].
  - intros id' x Hx. exists x. by rewrite Hobj.
  - intros k c x d Hx. rewrite Hlookup. destruct (decide (_ ∧ _)) as [[Hold [= <- <-]]|Hd]; [|by exists x, d].
    eexists _, _. split; [reflexivity|]. rewrite Hx in Hold. cbn in Hold. apply negb_true_iff, Z.leb_gt in Hold. lia.
Qed.

Lemma stale_grows key s : store_inv s → store_grows s (setAllEntriesAsStale key s).
Proof using Type.
  intros Hinv. destruct (setAllEntriesAsStale_spec key s Hinv) as [Hinv' Hlookup]. apply grows_lookup; [done| |].
  - intros id x Hx. unfold setAllEntriesAsStale. destruct (map_get key (ld_store s)) as [m|]; [|by exists x]. cbn.
    rewrite (foldr_alter_lookup _ _ _ _ x) by done. eexists. split; [done|]. by case_decide.
  - intros k c x d Hx. rewrite Hlookup, Hx. case_decide; cbn; by eexists _, _.
Qed.

Lemma tasks_about_grows v s s' (tasks : list store_task) : store_grows s s' →
  Forall (λ t, match t with TaskEntry id _ => is_Some (ld_objects s !! id) | TaskKey _ _ => False end) tasks →
  filter (λ t, task_about v s' t = true) tasks = filter (λ t, task_about v s t = true) tasks.
Proof using Type.
  intros (_ & Ho & _) Ht. induction Ht as [|t tasks Hid Ht IH]; [done|]. rewrite !filter_cons, IH.
  assert (task_about v s' t = task_about v s t) as ->; [|done]. destruct t as [id target|]; [|done]. cbn. destruct Hid as [e He].
  destruct (Ho id e He) as (e' & -> & Hv). by rewrite He, Hv.
Qed.

Lemma grows_potential v n n' : node_inv n → store_grows (sn_store n) (sn_store n') → sn_tasks n' = sn_tasks n →
  node_inv n' ∧ node_potential v n' ≤ node_potential v n.
Proof using Type.
  intros [Hs Ht] Hg Heq. split.
  - split; [apply Hg|]. rewrite Heq. eapply Forall_impl; [exact Ht|]. intros [id target|]; [|done]. intros [e He].
    destruct Hg as (_ & Ho & _). destruct (Ho id e He) as (e' & ? & _). by exists e'.
  - unfold node_potential. rewrite Heq, (tasks_about_grows v (sn_store n)) by done.
    destruct (has_version v n) eqn:Hv; [|case_match; lia]. destruct Hg as (_ & _ & Hver). by rewrite (Hver v n n').
Qed.

Lemma later_potential v n (id : nat) e (targets : list string) : node_inv n → ld_objects (sn_store n) !! id = Some e →
  let n' := MkStoreNode (sn_store n) (sn_tasks n ++ (TaskEntry id <$> targets)) in
  node_inv n' ∧ node_potential v n' = node_potential v n + (if decide (version e = v) then 2 * length targets else 0).
Proof using Type.
  intros [Hs Ht] He. split.
  - split; [done|]. cbn. apply Forall_app. split; [done|]. apply Forall_fmap, Forall_true. intros target. by exists e.
  - unfold node_potential. cbn [sn_store sn_tasks has_version]. rewrite filter_app, length_app. unfold has_version. cbn [sn_store].
    assert (length (filter (λ t, task_about v (sn_store n) t = true) (TaskEntry id <$> targets)) = if decide (version e = v) then length targets else 0) as ->.
    { case_decide as Hd.
      - rewrite filter_all; [by rewrite length_fmap|]. intros t (target & -> & _)%list_elem_of_fmap. cbn. rewrite He. by apply bool_decide_eq_true.
      - rewrite filter_none; [done|]. intros t (target & -> & _)%list_elem_of_fmap. cbn. rewrite He. by intros ?%bool_decide_eq_true. }
    case_decide; lia.
Qed.

Lemma getStorers_bound local (contacts : list string) key : redundancyFactor ≠ 0 →
  ∃ storers, getStorers distance local redundancyFactor contacts key = Return storers ∧ length storers ≤ redundancyFactor.
Proof using Type.
  intros HR. unfold getStorers.
  destruct (getClosestNodes_closest id distance key (contacts ++ [local]) (Some redundancyFactor) None) as (l & -> & _ & _ & _ & Hlen & _); [congruence|].
  exists l. split; [done|]. rewrite Hlen. cbn. lia.
Qed.

Lemma targets_bound local requestor (storers targets : list string) :
  replication_targets local requestor storers = Return targets → length targets ≤ length storers.
Proof using Type.
  destruct storers as [|primary storers]; [done|]. cbn [replication_targets]. intros [= <-]. etrans; [apply length_filter|].
  destruct (decide (primary = local)); cbn; lia.
Qed.

(** An entry that is stored is a version that the node did not have. *)
Lemma stored_version now id e n : store_inv (sn_store n) → ld_objects (sn_store n) !! id = Some e →
  (storeEntry now id (sn_store n)).2 = true →
  has_version (version e) n = false ∧ has_version (version e) (MkStoreNode (storeEntry now id (sn_store n)).1 (sn_tasks n)) = true.
Proof using Type.
  intros Hinv He. pose proof (storeEntry_spec now id e _ Hinv He) as Hs. destruct (storeEntry now id (sn_store n)) as [s' b].
  destruct Hs as (_ & _ & _ & Hb & Hlookup). cbn. intros ->. symmetry in Hb. apply negb_true_iff in Hb. unfold has_version, version. cbn.
  split.
  - unfold keeps_old in Hb. by destruct (lookup_entry _ _ _) as [[old d]|].
  - rewrite Hlookup, decide_True by done. apply Z.leb_refl.
Qed.

(** What follows the storing keeps the potential. *)
Lemma refresh_potential v local (contacts : list string) key n n' : redundancyFactor ≠ 0 → node_inv n →
  n' = ((let! isLocal := isLocalNodeStorer distance local redundancyFactor contacts key in
         when (negb isLocal) (on_store (λ s, (setAllEntriesAsStale key s, tt))))%eff n).1 →
  node_inv n' ∧ node_potential v n' ≤ node_potential v n.
Proof using Type.
  intros HR Hn ->. destruct (getStorers_bound local contacts key HR) as (storers & Hst & _).
  unfold isLocalNodeStorer, eff_bind, eff_await. rewrite Hst. cbn [eff_ret]. destruct (bool_decide _); cbn [negb when]; [done|].
  cbn [on_store fst snd eff_ret]. by apply grows_potential; [|apply stale_grows, Hn|].
Qed.

(** A replica that arrives adds no more work than the version it brings was worth. *)
Lemma replicate_potential v local now (contacts : list string) requestor e n n' : redundancyFactor ≠ 0 → node_inv n →
  n' = (replicateData distance local redundancyFactor now contacts requestor e n).1 →
  node_inv n' ∧ node_potential v n' ≤ node_potential v n.
Proof using Type.
  intros HR Hn. destruct (alloc_spec e (sn_store n) (ni_store n Hn)) as (Hinv1 & He1 & _).
  unfold replicateData. unfold eff_bind at 1, on_store at 1. destruct (alloc e (sn_store n)) as [s1 id] eqn:Ha. cbn [fst snd] in *.
  set (n1 := MkStoreNode s1 (sn_tasks n)).
  assert (store_grows (sn_store n) s1) as Hg1 by (pose proof (alloc_grows e _ (ni_store n Hn)) as Hg; by rewrite Ha in Hg).
  destruct (grows_potential v n n1 Hn Hg1 eq_refl) as [Hn1 Hle1]. change s1 with (sn_store n1) in He1.
  pose proof (storeEntry_grows now id e _ (ni_store n1 Hn1) He1) as Hg2. pose proof (stored_version now id e n1 (ni_store n1 Hn1) He1) as Hver.
  unfold eff_bind at 1, on_store at 1. destruct (storeEntry now id (sn_store n1)) as [s2 stored] eqn:Hse. cbn [fst snd] in *.
  set (n2 := MkStoreNode s2 (sn_tasks n1)). destruct (grows_potential v n1 n2 Hn1 Hg2 eq_refl) as [Hn2 Hle2].
  destruct stored; cbn [when].
  2: { unfold eff_bind at 1, eff_ret at 1. intros Heq. destruct (refresh_potential v _ _ _ _ _ HR Hn2 Heq). split; [done|lia]. }
  destruct (Hver eq_refl) as [Hno Hyes]. fold n2 in Hyes.
  unfold eff_bind at 1, replicateDataToNeighbors, eff_bind at 1 2, eff_await.
  destruct (getStorers_bound local contacts (de_key e) HR) as (storers & Hst & Hlen). rewrite Hst.
  destruct (replication_targets local requestor storers) as [targets|err] eqn:Ht; [|intros ->; split; [done|]; cbn [fst]; lia].
  cbn [later eff_modify]. apply targets_bound in Ht.
  assert (∃ e2, ld_objects (sn_store n2) !! id = Some e2 ∧ version e2 = version e) as (e2 & He2 & Hv2) by (by apply Hg2).
  destruct (later_potential v n2 id e2 targets Hn2 He2) as [Hn3 Hp3]. intros Heq.
  destruct (refresh_potential v _ _ _ _ _ HR Hn3 Heq) as [Hn' Hle']. split; [done|]. rewrite Hp3 in Hle'.
  destruct (decide (version e2 = v)) as [Hv|]; [|lia]. rewrite Hv2 in Hv. subst v.
  assert (node_potential (version e) n2 + 2 * redundancyFactor ≤ node_potential (version e) n1); [|lia].
  unfold node_potential. rewrite Hno, Hyes. cbn [sn_store sn_tasks n2]. rewrite (tasks_about_grows _ _ s2 _ Hg2) by apply Hn1. lia.
Qed.

Lemma sum_insert {A} (g : A → nat) (l : list A) i x y : l !! i = Some x → sum_list_with g (<[i := y]> l) + g x = sum_list_with g l + g y.
Proof using Type.
  revert i. induction l as [|z l IH]; intros [|i] Hi; [done|done|injection Hi as ->; cbn; lia|]. specialize (IH i Hi).
  change (<[S i := y]> (z :: l)) with (z :: <[i := y]> l). cbn. lia.
Qed.

Lemma filter_delete {A} (P : A → Prop) `{∀ x, Decision (P x)} (l : list A) j x : l !! j = Some x →
  length (filter P l) = length (filter P (delete j l)) + (if decide (P x) then 1 else 0).
Proof using Type.
  intros Hj. etrans; [apply Permutation_length, filter_Permutation, (delete_Permutation l j x Hj)|].
  rewrite filter_cons. destruct (decide (P x)); cbn; lia.
Qed.

Definition flood_inv f : Prop := Forall (λ x, node_inv x.2) (fl_nodes f).

(** A step never raises the potential, and lowers it when it is about the version. *)
Lemma flood_step_potential v ev f : redundancyFactor ≠ 0 → flood_inv f →
  flood_inv (flood_step ev f) ∧ (if about v ev f then 1 else 0) + potential v (flood_step ev f) ≤ potential v f.
Proof using Type.
  intros HR Hf. destruct ev as [now j i|j|i]; cbn [flood_step about].
  - destruct (fl_messages f !! j) as [[source m]|] eqn:Hj; [|done]. destruct (fl_nodes f !! i) as [[name n]|] eqn:Hi; [|done].
    destruct (decide (re_target m = name)) as [Hname|Hname]; [|rewrite bool_decide_eq_false_2 by naive_solver; done].
    set (n' := (replicateData _ _ _ _ _ _ _ _).1).
    assert (node_inv n) as Hn by exact (Forall_lookup_1 _ _ _ _ Hf Hi).
    destruct (replicate_potential v _ _ _ _ _ _ n' HR Hn eq_refl) as [Hn' Hle]. split; [by apply Forall_insert|].
    unfold potential. cbn [fl_nodes fl_messages]. pose proof (sum_insert (λ x, node_potential v x.2) _ i _ (name, n') Hi) as Hsum. cbn [snd] in Hsum.
    rewrite (filter_delete _ _ j _ Hj). cbn [snd]. destruct (decide (version (re_entry m) = v)) as [Hv|Hv].
    + rewrite bool_decide_eq_true_2 by done. lia.
    + rewrite bool_decide_eq_false_2 by naive_solver. lia.
  - split; [done|]. unfold potential. cbn [fl_nodes fl_messages]. destruct (fl_messages f !! j) as [[source m]|] eqn:Hj.
    + rewrite (filter_delete _ _ j _ Hj). cbn [snd]. destruct (decide (version (re_entry m) = v)) as [Hv|Hv].
      * rewrite bool_decide_eq_true_2 by done. lia.
      * rewrite bool_decide_eq_false_2 by done. lia.
    + apply lookup_ge_None in Hj. by rewrite delete_take_drop, take_ge, drop_ge, app_nil_r by lia.
  - destruct (fl_nodes f !! i) as [[name n]|] eqn:Hi; [|done].
    assert (node_inv n) as Hn by exact (Forall_lookup_1 _ _ _ _ Hf Hi). pose proof Hn as [Hs Ht]. unfold run_task.
    destruct (sn_tasks n) as [|[id target|] tasks] eqn:Htasks; [|apply Forall_cons in Ht as [[e He] Ht]|by apply Forall_cons in Ht as [[] _]].
    + split; cbn [fl_nodes]; [by apply Forall_insert|].
      unfold potential. cbn [fl_nodes fl_messages]. rewrite app_nil_r, list_insert_id by done. done.
    + cbn [send_entries omap list_omap]. rewrite He. cbn [fmap option_fmap option_map]. split; [apply Forall_insert; [done|by split]|].
      unfold potential. cbn [fl_nodes fl_messages]. set (n' := MkStoreNode (sn_store n) tasks).
      pose proof (sum_insert (λ x, node_potential v x.2) _ i _ (name, n') Hi) as Hsum. cbn [snd] in Hsum.
      rewrite filter_app, length_app. cbn [fmap list_fmap]. rewrite filter_cons, filter_nil. cbn [snd re_entry task_about]. rewrite He.
      assert (node_potential v n = node_potential v n' + (if decide (version e = v) then 2 else 0)) as Hpot.
      { unfold node_potential. rewrite Htasks, filter_cons. unfold has_version. cbn [task_about sn_store sn_tasks n']. rewrite He.
        destruct (decide (version e = v)) as [Hv|Hv].
        - rewrite decide_True by by apply bool_decide_eq_true. cbn [length]. lia.
        - rewrite decide_False by by (intros ?%bool_decide_eq_true). lia. }
      destruct (decide (version e = v)) as [Hv|Hv].
      * rewrite bool_decide_eq_true_2 by done. cbn [length]. lia.
      * rewrite bool_decide_eq_false_2 by done. cbn [length]. lia.
Qed.

(** C29: a flood of replicas ends: whatever the order in which messages arrive, are lost, and nodes send, and even if every
    node has another view of its neighbours, the steps about one version of an entry (a replica arrives, is lost or is sent)
    are at most two per replica that can still be sent: twice the redundancy factor per node that lacks the version, two per
    replica waiting to be sent and one per replica under way. *)
Theorem replication_flood_ends v (evs : list flood_event) f : redundancyFactor ≠ 0 → flood_inv f → steps_about v evs f ≤ potential v f.
Proof using Type.
  intros HR. revert f. induction evs as [|ev evs IH]; intros f Hf; cbn [steps_about]; [lia|].
  destruct (flood_step_potential v ev f HR Hf) as [Hf' Hle]. specialize (IH _ Hf'). lia.
Qed.
End flood.

(** * Storing to the DHT *)

Section storing.
  Context (localPeer : string) (redundancyFactor : nat).
  Context (now : Z) (r : StoreDataRequest) (answers : string → bool).

(** Who stores the data when asked *)
Definition accepts (p : string) : Prop := p = localPeer ∨ answers p = true.

#[export] Instance accepts_dec p : Decision (accepts p).
Proof. unfold accepts. apply _. Defined.

Lemma store_at_node_spec p n :
  store_at_node localPeer now r answers p n =
  (if decide (localPeer = p) then (store_new_entry now (stored_entry now false r) n).1 else n, Return (bool_decide (accepts p))).
Proof using Type.
  unfold store_at_node. destruct (decide (localPeer = p)) as [->|Hp].
  - rewrite bool_decide_eq_true_2 by by left. unfold eff_bind, store_new_entry, on_store. cbn [alloc].
    by destruct (storeEntry now _ _) as [s b].
  - assert (answers p = bool_decide (accepts p)) as ->; [|done]. apply eq_true_iff_eq. rewrite bool_decide_eq_true. unfold accepts. clear n. naive_solver.
Qed.

(** Once the local node has its turn behind it *)
Lemma storeDataToDht_others (l found : list string) n : localPeer ∉ l → storeDataToDht localPeer redundancyFactor now r answers l found n =
  (n, Return (if (length found <? redundancyFactor)%nat then take redundancyFactor (found ++ filter accepts l) else found)).
Proof using Type.
  revert found n. induction l as [|q l IH]; intros found n Hl; cbn [storeDataToDht].
  - rewrite app_nil_r. case_match eqn:Hlt; [|done]. apply Nat.ltb_lt in Hlt. by rewrite take_ge by lia.
  - apply not_elem_of_cons in Hl as [Hq Hl]. destruct (length found <? redundancyFactor) eqn:Hlt; [|done]. apply Nat.ltb_lt in Hlt.
    unfold eff_bind at 1. rewrite store_at_node_spec, decide_False, filter_cons by done. destruct (decide (accepts q)) as [Ha|Ha].
    + rewrite bool_decide_eq_true_2, IH, <-(assoc_L (++)) by done. cbn. case_match eqn:Hlt'; [done|].
      apply Nat.ltb_ge in Hlt'. rewrite length_app in Hlt'. cbn in Hlt'. rewrite take_app_ge by lia.
      replace (redundancyFactor - length found) with 1 by lia. done.
    + rewrite bool_decide_eq_false_2, IH by done. by rewrite (proj2 (Nat.ltb_lt _ _) Hlt).
Qed.

Lemma storeDataToDht_visits (closest found : list string) n : NoDup closest → length found ≤ redundancyFactor →
  localPeer ∉ found →
  let stored := take redundancyFactor (found ++ filter accepts closest) in
  storeDataToDht localPeer redundancyFactor now r answers closest found n =
  (if decide (localPeer ∈ stored) then (store_new_entry now (stored_entry now false r) n).1 else n, Return stored).
Proof using Type.
  revert found n. induction closest as [|p closest IH]; intros found n Hnd Hlen Hnot stored; subst stored; cbn [storeDataToDht].
  { rewrite app_nil_r, take_ge by done. by rewrite decide_False. }
  apply NoDup_cons in Hnd as [Hp Hnd]. destruct (Nat.ltb_spec (length found) redundancyFactor) as [Hlt|Hge].
  2: { assert (take redundancyFactor (found ++ filter accepts (p :: closest)) = found) as -> by (rewrite take_app_le, take_ge by lia; reflexivity).
       by rewrite decide_False. }
  unfold eff_bind at 1. rewrite store_at_node_spec, filter_cons. destruct (decide (localPeer = p)) as [<-|Hlocal].
  - assert (accepts localPeer) as Hacc by by left. rewrite bool_decide_eq_true_2, !(decide_True (P := accepts localPeer) _ _ Hacc) by done.
    assert (localPeer ∈ take redundancyFactor (found ++ localPeer :: filter accepts closest)) as Hin.
    { apply (list_elem_of_lookup_2 _ (length found)). by rewrite lookup_take_lt, list_lookup_middle. }
    rewrite (decide_True _ _ Hin). clear IH Hin Hnot. set (n' := (store_new_entry _ _ n).1). clearbody n'.
    rewrite storeDataToDht_others by done. do 2 f_equal. rewrite length_app. cbn [length]. rewrite <-(assoc_L (++)). cbn. case_match eqn:Hlt'; [done|].
    apply Nat.ltb_ge in Hlt'. rewrite take_app_ge by lia. replace (redundancyFactor - length found) with 1 by lia. done.
  - destruct (decide (accepts p)) as [Ha|Ha].
    + rewrite bool_decide_eq_true_2 by done. replace (found ++ p :: filter accepts closest) with ((found ++ [p]) ++ filter accepts closest) by by rewrite <-(assoc_L (++)). apply IH; [done|rewrite length_app; cbn; lia|set_solver].
    + rewrite bool_decide_eq_false_2, IH by (done || lia). done.
Qed.

(** Data goes to the closest nodes that take it: [storeDataToDht] answers with the first [redundancyFactor] of the closest
    nodes, in their order, that store the data, and the local store changes exactly when the local node is one of them, and
    then holds the entry (unless it holds a newer one). *)
Theorem store_to_closest_that_accept (closest : list string) n : NoDup closest → store_inv (sn_store n) →
  let '(n', result) := storeDataToDht localPeer redundancyFactor now r answers closest [] n in
  result = Return (take redundancyFactor (filter accepts closest)) ∧
  (localPeer ∉ take redundancyFactor (filter accepts closest) → n' = n) ∧
  (localPeer ∈ take redundancyFactor (filter accepts closest) →
     ∃ e d, lookup_entry (sn_store n') (sr_key r) (sr_creator r) = Some (e, d) ∧
       (e = stored_entry now false r ∨ millis (sr_createdAt r) ≤ millis (de_createdAt e))%Z).
Proof using Type.
  intros Hnd Hinv. rewrite (storeDataToDht_visits closest [] n Hnd) by (cbn; lia || set_solver). cbn [app].
  set (stored := take redundancyFactor _). split_and!; [done|intros Hl; by rewrite decide_False|intros Hl; rewrite decide_True by done].
  set (e := stored_entry now false r). unfold store_new_entry, on_store. destruct (alloc_spec e _ Hinv) as (Hinv1 & He1 & Hlook1).
  destruct (alloc e (sn_store n)) as [s1 id]. cbn [fst snd] in *. pose proof (storeEntry_spec now id e s1 Hinv1 He1) as Hs.
  destruct (storeEntry now id s1) as [s2 b]. destruct Hs as (_ & _ & _ & Hb & Hlook2). cbn [fst sn_store].
  change (sr_key r) with (de_key e). change (sr_creator r) with (de_creator e). rewrite Hlook2.
  destruct b; [rewrite decide_True by done; by eexists _, _; split; [|left]|].
  rewrite decide_False by by intros [? _]. symmetry in Hb. apply negb_false_iff in Hb. unfold keeps_old in Hb.
  destruct (lookup_entry s1 _ _) as [[old d]|]; [|done]. exists old, d. split; [done|right; by apply Z.leb_le].
Qed.
End storing.

Module DataStoreWitness.

Definition distance (a b : string) : Z :=
  match a, b with String x _, String y _ => Z.abs (Z.of_N (Ascii.N_of_ascii x) - Z.of_N (Ascii.N_of_ascii y))%Z | _, _ => 0%Z end.

Definition entry (data : string) (seconds : Z) : DataEntry :=
  MkEntry "m" data "c" (MkTimestamp seconds 0) (MkTimestamp seconds 0) 60000 false false.

Lemma replicas_converge_witness :
  fst <$> lookup_entry (store_run (stores [(0%Z, entry "x" 1); (5%Z, entry "y" 2)]) (store_new 100)).1 "m" "c" =
  fst <$> lookup_entry (store_run (stores [(3%Z, entry "y" 2); (4%Z, entry "x" 1); (9%Z, entry "y" 2)]) (store_new 90)).1 "m" "c" ∧
  newest_of ("m", "c") [entry "x" 1; entry "y" 2]
    (fst <$> lookup_entry (store_run (stores [(0%Z, entry "x" 1); (5%Z, entry "y" 2)]) (store_new 100)).1 "m" "c").
Proof.
  apply (replicas_converge 100 90 [(0%Z, entry "x" 1); (5%Z, entry "y" 2)] [(3%Z, entry "y" 2); (4%Z, entry "x" 1); (9%Z, entry "y" 2)] "m" "c").
  - intros e. cbn. set_solver.
  - intros e e' He He'. cbn in He, He'. set_unfold. destruct He as [->|[->|[]]], He' as [->|[->|[]]]; vm_compute; intros; done || discriminate.
Defined.

Definition fresh : StoreNode := MkStoreNode (store_new 100000) [].

Definition network : flood :=
  MkFlood [("a", fresh); ("l", fresh); ("o", fresh)] [("z", MkReplicate "a" (entry "x" 1) true)].

Definition view_of (name : string) : list string := if bool_decide (name = "a") then ["l"; "o"] else if bool_decide (name = "l") then ["a"; "o"] else ["l"].

(** The entry arrives at a node that is not to store it, which sends it to the closest node, which sends it to the other
    storer; what they get is already marked as stale, although the sender of the first replica did not mark it. *)
Example flood_run :
  let f := foldl (λ f ev, flood_step distance 2 view_of ev f) network
             [FDeliver 1 0 0; FTask 0; FDeliver 2 0 1; FTask 1; FDeliver 3 0 2] in
  (λ x, (λ v, (de_data v.1, de_stale v.1)) <$> lookup_entry (sn_store x.2) "m" "c") <$> fl_nodes f =
    [Some ("x", true); Some ("x", true); Some ("x", true)].
Proof. vm_compute. reflexivity. Qed.

Lemma replication_flood_ends_witness :
  steps_about distance 2 view_of ("m", "c", 1000000000%Z) [FDeliver 1 0 0; FTask 0; FDeliver 2 0 1; FTask 1; FDeliver 3 0 2] network ≤
  potential 2 ("m", "c", 1000000000%Z) network.
Proof.
  apply replication_flood_ends; [discriminate|].
  assert (node_inv fresh) as Hfresh by (split; [apply new_inv|constructor]).
  repeat apply Forall_cons_2; exact Hfresh || constructor.
Defined.

Definition request : StoreDataRequest := MkStoreData "m" "x" "c" (MkTimestamp 1 0) 60000.

Lemma store_to_closest_that_accept_witness :
  let closest := ["l"; "n"; "k"; "j"] in let answers := λ p, negb (bool_decide (p = "l")) in
  let '(n', result) := storeDataToDht "k" 2 1000 request answers closest [] fresh in
  result = Return (take 2 (filter (accepts "k" answers) closest)) ∧
  ("k" ∉ take 2 (filter (accepts "k" answers) closest) → n' = fresh) ∧
  ("k" ∈ take 2 (filter (accepts "k" answers) closest) →
     ∃ e d, lookup_entry (sn_store n') (sr_key request) (sr_creator request) = Some (e, d) ∧
       (e = stored_entry 1000 false request ∨ millis (sr_createdAt request) ≤ millis (de_createdAt e))%Z).
Proof.
  intros closest answers. apply store_to_closest_that_accept; [|apply new_inv].
  unfold closest. repeat (apply NoDup_cons_2; [set_solver|]). constructor.
Defined.
End DataStoreWitness.
