(* ===== verification/Rpc.v ===== *)
(** * Remote procedure calls between peers

    Translated from [proto-rpc/src/RpcCommunicator.ts] (calls and their settling, requests served),
    [ClientTransport.ts], [ServerRegistry.ts], [common.ts] ([promiseTimeout]), [toProtoRpcClient.ts],
    [errors.ts], and of the DHT [transport/RoutingRpcCommunicator.ts] and
    [transport/ListeningRpcCommunicator.ts].

    Calls and served requests have numbers, in the order they begin.  What a call resolves to is shared by
    its four promises ([message], [header], [status], [trailer]), which the source settles together: one
    state stands for them.  The bytes of protobuf messages are made and read by parameters. *)

From Stdlib Require Import Ascii.
From S2P Require Import Prelude.
From S2P Require Import JsMap.

Implicit Types (requestId method peer : string).
Set Default Proof Using "Type".

(** * Errors and messages *)

Record rpc_error := MkRpcError {
  re_code : option string;
  re_className : option string;
  re_message : string;
  re_errorClassName : option string;
  re_errorCode : option string }.

(** [class Err] and its subclasses *)
Definition rpc_err (code : string) (message : option string) : rpc_error :=
  MkRpcError (Some code) None (default "" message) None None.
Definition RpcTimeout := rpc_err "RPC_TIMEOUT".
Definition RpcRequest := rpc_err "RPC_REQUEST".
Definition UnknownRpcMethod := rpc_err "UNKNOWN_RPC_METHOD".
Definition FailedToParse := rpc_err "FAILED_TO_PARSE".
Definition Disconnected := rpc_err "DISCONNECTED".
Definition RpcServerError (errorMessage errorClassName errorCode : option string) : rpc_error :=
  MkRpcError (Some "RPC_SERVER_ERROR") None (default "" errorMessage) errorClassName errorCode.
Definition plain_error (message : string) : rpc_error := MkRpcError None None message None None.

Inductive StatusCode := OK | STOPPED | DEADLINE_EXCEEDED | SERVER_ERROR.
Inductive RpcErrorType := ESERVER_TIMEOUT | ECLIENT_TIMEOUT | EUNKNOWN_RPC_METHOD | ECLIENT_ERROR | ESERVER_ERROR.

Definition quoted (x : string) : string := String "034"%char x +:+ String "034"%char EmptyString.

(** A value of a JavaScript string that counts as true *)
Definition truthy (x : option string) : option string :=
  match x with Some "" => None | x => x end.

Record Any := MkAny { any_typeUrl : string; any_value : string }.

Record RpcMessage := MkRpc {
  rm_header : gmap string string;
  rm_body : option Any;
  rm_requestId : string;
  rm_errorType : option RpcErrorType;
  rm_errorClassName : option string;
  rm_errorCode : option string;
  rm_errorMessage : option string }.

(** [DhtCallContext], as far as it is read *)
Record CallContext := MkContext {
  cc_isProtoRpc : bool;
  cc_notification : bool;
  cc_timeout : option Z;
  cc_target : option string;
  cc_source : option string;
  cc_connect : option bool;
  cc_sendIfStopped : option bool;
  cc_bufferWhileConnecting : option bool }.

(** [new DhtCallContext()] of an incoming message *)
Definition incoming_context (source : option string) : CallContext :=
  MkContext false false None None source None None None.

Record SendOptions := MkSendOptions { so_connect : bool; so_sendIfStopped : bool; so_bufferWhileConnecting : bool }.
Definition DEFAULT_SEND_OPTIONS : SendOptions := MkSendOptions true false true.

(** The [Message] of the DHT; a body that is not an RPC message is [None]. *)
Record Message := MkMessage {
  me_serviceId : string;
  me_rpcMessage : option RpcMessage;
  me_target : option string;
  me_source : option string }.

Definition request_headers (method : string) (notification : bool) : gmap string string :=
  let header := <["method" := method]> (<["request" := "request"]> ∅) in
  if notification then <["notification" := "notification"]> header else header.

Record response_params := MkParams {
  rp_request : RpcMessage;
  rp_body : option Any;
  rp_errorType : option RpcErrorType;
  rp_errorClassName : option string;
  rp_errorCode : option string;
  rp_errorMessage : option string }.

Definition with_method (method : option string) (header : gmap string string) : gmap string string :=
  match method with Some m => <["method" := m]> header | None => header end.

Definition createResponseRpcMessage (p : response_params) : RpcMessage :=
  MkRpc (with_method (rm_header (rp_request p) !! "method") {["response" := "response"]})
    (rp_body p) (rm_requestId (rp_request p)) (rp_errorType p) (rp_errorClassName p) (rp_errorCode p) (rp_errorMessage p).

(** The listener that [RoutingRpcCommunicator] sets: whom a message goes to, and how it is sent *)
Definition routing_outgoing (ownServiceId : string) (msg : RpcMessage) (callContext : CallContext) : Message * SendOptions :=
  let target := match cc_target callContext with Some t => Some t | None => cc_source callContext end in
  (MkMessage ownServiceId (Some msg) target None,
   match rm_header msg !! "response" with
   | Some _ => MkSendOptions false true true
   | None => MkSendOptions (default (so_connect DEFAULT_SEND_OPTIONS) (cc_connect callContext))
               (default (so_sendIfStopped DEFAULT_SEND_OPTIONS) (cc_sendIfStopped callContext))
               (default (so_bufferWhileConnecting DEFAULT_SEND_OPTIONS) (cc_bufferWhileConnecting callContext))
   end).

(** * The state *)

Section communicator.
  Context {V : Type}.

Inductive deferred :=
  | PENDING
  | RESOLVED (value : option V)
  | REJECTED (error : rpc_error) (code : StatusCode).

Record rpc_call := MkCall {
  ca_method : string;
  ca_input : V;
  ca_requestId : string;
  ca_context : CallContext;
  ca_state : deferred }.

Record OngoingRequest := MkOngoing { or_call : nat; or_context : CallContext }.

(** A request or notification that was received, and whether its handler is still awaited *)
Record serving := MkServing {
  sv_request : RpcMessage;
  sv_context : CallContext;
  sv_notification : bool;
  sv_timeout : Z;
  sv_deadline : Z;
  sv_open : bool }.

Record RpcCommunicator := MkComm {
  rc_stopped : bool;
  (** whether [rpcRequest] of the client transport has its listener *)
  rc_attached : bool;
  rc_ongoing : jsmap string OngoingRequest;
  rc_rpcRequestTimeout : Z;
  (** whether [setOutgoingMessageListener] was called *)
  rc_listening : bool;
  rc_calls : list rpc_call;
  (** the timer of each call that has one: its request and the time *)
  rc_timers : gmap nat (string * Z);
  (** the calls whose message the listener has not finished sending *)
  rc_sends : gset nat;
  rc_methods : gmap string Z;
  rc_notifications : gmap string Z;
  rc_serving : list serving }.

Implicit Types (s : RpcCommunicator) (c : rpc_call).

(** What a step does outside: messages given to the transport, and handlers called *)
Inductive rpc_output :=
  | SendFn (message : Message) (options : SendOptions)
  | Invoked (h : nat) (method : string) (input : V) (callContext : CallContext).

Definition communicator_new (rpcRequestTimeout : option Z) : RpcCommunicator :=
  MkComm false true [] (default 5000%Z rpcRequestTimeout) false [] ∅ ∅ ∅ ∅ [].

Definition setOutgoingMessageListener s : RpcCommunicator :=
  MkComm (rc_stopped s) (rc_attached s) (rc_ongoing s) (rc_rpcRequestTimeout s) true (rc_calls s) (rc_timers s) (rc_sends s)
    (rc_methods s) (rc_notifications s) (rc_serving s).

Definition with_client (ongoing : jsmap string OngoingRequest) (calls : list rpc_call) (timers : gmap nat (string * Z))
    (sends : gset nat) s : RpcCommunicator :=
  MkComm (rc_stopped s) (rc_attached s) ongoing (rc_rpcRequestTimeout s) (rc_listening s) calls timers sends
    (rc_methods s) (rc_notifications s) (rc_serving s).
Definition with_ongoing ongoing s := with_client ongoing (rc_calls s) (rc_timers s) (rc_sends s) s.
Definition with_calls calls s := with_client (rc_ongoing s) calls (rc_timers s) (rc_sends s) s.
Definition with_timers timers s := with_client (rc_ongoing s) (rc_calls s) timers (rc_sends s) s.
Definition with_sends sends s := with_client (rc_ongoing s) (rc_calls s) (rc_timers s) sends s.

Definition with_registry (methods notifications : gmap string Z) s : RpcCommunicator :=
  MkComm (rc_stopped s) (rc_attached s) (rc_ongoing s) (rc_rpcRequestTimeout s) (rc_listening s) (rc_calls s) (rc_timers s)
    (rc_sends s) methods notifications (rc_serving s).
Definition with_serving (serving : list serving) s : RpcCommunicator :=
  MkComm (rc_stopped s) (rc_attached s) (rc_ongoing s) (rc_rpcRequestTimeout s) (rc_listening s) (rc_calls s) (rc_timers s)
    (rc_sends s) (rc_methods s) (rc_notifications s) serving.
Definition with_stopped s : RpcCommunicator :=
  MkComm true (rc_attached s) (rc_ongoing s) (rc_rpcRequestTimeout s) (rc_listening s) (rc_calls s) (rc_timers s)
    (rc_sends s) (rc_methods s) (rc_notifications s) (rc_serving s).
Definition detached s : RpcCommunicator :=
  MkComm (rc_stopped s) false (rc_ongoing s) (rc_rpcRequestTimeout s) (rc_listening s) (rc_calls s) (rc_timers s)
    (rc_sends s) (rc_methods s) (rc_notifications s) (rc_serving s).

(** ** [OngoingRequest] *)

(** The deferred promises of a call settle once. *)
Definition settle_deferred (d : deferred) (state : deferred) : deferred :=
  match state with PENDING => d | _ => state end.

Definition set_deferred (d : deferred) c : rpc_call :=
  MkCall (ca_method c) (ca_input c) (ca_requestId c) (ca_context c) (settle_deferred d (ca_state c)).

Definition settle_call (n : nat) (d : deferred) s : RpcCommunicator := with_calls (alter (set_deferred d) n (rc_calls s)) s.

Definition rejectDeferredPromises (n : nat) (error : rpc_error) (code : StatusCode) s : RpcCommunicator :=
  settle_call n (REJECTED error code) s.

Definition clear_timer (n : nat) s : RpcCommunicator := with_timers (delete n (rc_timers s)) s.

Definition rejectRequest (n : nat) (error : rpc_error) (code : StatusCode) s : RpcCommunicator :=
  rejectDeferredPromises n error code (clear_timer n s).

(** On an [OngoingRequest] made for the occasion, which has no timer: [resolveNotification], and [rejectRequest] *)
Definition resolveNotification (n : nat) s : RpcCommunicator := settle_call n (RESOLVED None) s.
Definition reject_untimed (n : nat) (error : rpc_error) (code : StatusCode) s : RpcCommunicator := rejectDeferredPromises n error code s.

Context (ownServiceId : string).
(** [Any.pack] and [Any.unpack] for the request class of a method, [Any.pack] for its response class, and
    [method.O.fromBinary] *)
Context (pack_request : string → V → Any) (unpack_request : string → Any → option V).
Context (pack_response : string → V → Any) (fromBinary : string → string → option V).

Definition parse_failure : rpc_error :=
  FailedToParse (Some "Failed to parse received response, network protocol version likely is likely incompatible").

(** What a response without error settles its call with *)
Definition resolveDeferredPromises (c : rpc_call) (response : RpcMessage) : deferred :=
  match rm_body response ≫= λ body, fromBinary (ca_method c) (any_value body) with
  | Some value => RESOLVED (Some value)
  | None => REJECTED parse_failure SERVER_ERROR
  end.

Definition resolveRequest (n : nat) (response : RpcMessage) s : RpcCommunicator :=
  let s := clear_timer n s in
  match rc_calls s !! n with
  | Some c => settle_call n (resolveDeferredPromises c response) s
  | None => s
  end.

(** ** The client's side *)

Definition registerRequest (now : Z) (requestId : string) (n : nat) (callContext : CallContext) (timeout : Z) s : RpcCommunicator :=
  if rc_stopped s then s
  else with_client (map_set requestId (MkOngoing n callContext) (rc_ongoing s)) (rc_calls s)
         (<[n := (requestId, now + timeout)%Z]> (rc_timers s)) (rc_sends s) s.

Definition stopped_error : rpc_error := plain_error "stopped".

Definition onOutgoingMessage (now : Z) (rpcMessage : RpcMessage) (callContext : CallContext) (deferredPromises : option nat) s
    : RpcCommunicator * list rpc_output :=
  if rc_stopped s then
    (match deferredPromises with Some n => reject_untimed n stopped_error STOPPED s | None => s end, [])
  else
    let timeout := default (rc_rpcRequestTimeout s) (cc_timeout callContext) in
    let s := match deferredPromises with
             | Some n => if negb (cc_notification callContext)
                         then registerRequest now (rm_requestId rpcMessage) n callContext timeout s else s
             | None => s
             end in
    if rc_listening s then
      let '(message, options) := routing_outgoing ownServiceId rpcMessage callContext in
      (match deferredPromises with Some n => with_sends ({[n]} ∪ rc_sends s) s | None => s end, [SendFn message options])
    else
      (match deferredPromises with
       | Some n => if map_has (rm_requestId rpcMessage) (rc_ongoing s) then s else resolveNotification n s
       | None => s
       end, []).

Definition handleClientError (requestId : string) (error : rpc_error) s : RpcCommunicator :=
  if rc_stopped s then s
  else match map_get requestId (rc_ongoing s) with
       | Some r => let s := rejectRequest (or_call r) error SERVER_ERROR s in with_ongoing (map_delete requestId (rc_ongoing s)) s
       | None => s
       end.

(** The promise of the outgoing listener settles: the [catch] and [then] of [onOutgoingMessage]. *)
Definition rpc_send_settled (n : nat) (result : outcome rpc_error unit) s : RpcCommunicator :=
  match rc_calls s !! n with
  | Some c =>
      if decide (n ∈ rc_sends s) then
        let requestId := ca_requestId c in
        let s := with_sends (rc_sends s ∖ {[n]}) s in
        let s := match result with
                 | Return _ => s
                 | Throw error => if map_has requestId (rc_ongoing s) then handleClientError requestId error s
                                  else reject_untimed n error SERVER_ERROR s
                 end in
        if map_has requestId (rc_ongoing s) then s else resolveNotification n s
      else s
  | None => s
  end.

(** [ClientTransport.unary]; the request id is drawn by [uuid].  The answer is the number of the call. *)
Definition unary (now : Z) (method : string) (input : V) (options : CallContext) (requestId : string) s
    : RpcCommunicator * list rpc_output * outcome rpc_error nat :=
  if negb (cc_isProtoRpc options) then (s, [], Throw (plain_error ("ProtoRpc ClientTransport can only be used with ProtoRpcClients. " +:+
    "Please convert your protobuf-ts generated client to a ProtoRpcClient by calling toProtoRpcclient(yourClient).")))
  else
    let request := MkRpc (request_headers method (cc_notification options)) (Some (pack_request method input)) requestId
                     None None None None in
    let n := length (rc_calls s) in
    let s := with_calls (rc_calls s ++ [MkCall method input requestId options PENDING]) s in
    let '(s, out) := if rc_attached s then onOutgoingMessage now request options (Some n) s else (s, []) in
    (s, out, Return n).

(** The methods of [toProtoRpcClient]: one whose answer is [Empty] is a notification. *)
Definition client_options (emptyAnswer : bool) (options : CallContext) : CallContext :=
  MkContext true (emptyAnswer || cc_notification options) (cc_timeout options) (cc_target options) (cc_source options)
    (cc_connect options) (cc_sendIfStopped options) (cc_bufferWhileConnecting options).

(** [onTimeout] of an ongoing request *)
Definition client_timeout (now : Z) (n : nat) s : RpcCommunicator :=
  match rc_timers s !! n with
  | Some (requestId, deadline) =>
      if (deadline <=? now)%Z then
        let s := rejectDeferredPromises n (RpcTimeout (Some "Rpc request timed out")) DEADLINE_EXCEEDED (clear_timer n s) in
        with_ongoing (map_delete requestId (rc_ongoing s)) s
      else s
  | None => s
  end.

Definition resolveOngoingRequest (response : RpcMessage) s : RpcCommunicator :=
  if rc_stopped s then s
  else match map_get (rm_requestId response) (rc_ongoing s) with
       | Some r => let s := resolveRequest (or_call r) response s in
                   with_ongoing (map_delete (rm_requestId response) (rc_ongoing s)) s
       | None => s
       end.

(** The error that a response with an error rejects the call with *)
Definition response_error (errorType : RpcErrorType) (response : RpcMessage) : rpc_error :=
  match errorType with
  | ESERVER_TIMEOUT => RpcTimeout (Some "Server timed out on request")
  | EUNKNOWN_RPC_METHOD =>
      UnknownRpcMethod (Some ("Server does not implement method " +:+ default "undefined" (rm_header response !! "method")))
  | ESERVER_ERROR => RpcServerError (rm_errorMessage response) (rm_errorClassName response) (rm_errorCode response)
  | _ => RpcRequest (Some "Unknown RPC Error")
  end.

Definition rejectOngoingRequest (errorType : RpcErrorType) (response : RpcMessage) s : RpcCommunicator :=
  if rc_stopped s then s
  else match map_get (rm_requestId response) (rc_ongoing s) with
       | Some r => let s := rejectRequest (or_call r) (response_error errorType response) SERVER_ERROR s in
                   with_ongoing (map_delete (rm_requestId response) (rc_ongoing s)) s
       | None => s
       end.

Definition getRequestIds (predicate : OngoingRequest → bool) s : list string :=
  fst <$> filter (λ e, predicate e.2 = true) (rc_ongoing s).

(** [disconnectedListener] of [ListeningRpcCommunicator]; a context without a target throws. *)
Definition on_peer_disconnected (peer : string) s : outcome rpc_error RpcCommunicator :=
  if forallb (λ e, bool_decide (is_Some (cc_target (or_context e.2)))) (rc_ongoing s) then
    let requests := getRequestIds (λ r, bool_decide (cc_target (or_context r) = Some peer)) s in
    Return (foldl (λ s id, handleClientError id (Disconnected (Some "Peer disconnected")) s) s requests)
  else Throw (plain_error "Cannot read properties of undefined (reading 'nodeId')").

Definition rpc_stop s : RpcCommunicator :=
  let s := with_stopped s in
  let s := foldl (λ s e, rejectRequest (or_call e.2) stopped_error STOPPED s) s (rc_ongoing s) in
  detached (with_ongoing [] s).

(** ** The server's side *)

Definition DEFAULT_TIMEOUT : Z := 1000.

Definition registerRpcMethod (name : string) (timeout : option Z) s : RpcCommunicator :=
  with_registry (<[name := default DEFAULT_TIMEOUT timeout]> (rc_methods s)) (rc_notifications s) s.
Definition registerRpcNotification (name : string) (timeout : option Z) s : RpcCommunicator :=
  with_registry (rc_methods s) (<[name := default DEFAULT_TIMEOUT timeout]> (rc_notifications s)) s.

(** The name and the timeout of the method of a message *)
Definition getImplementation (rpcMessage : RpcMessage) (registered : gmap string Z) : outcome rpc_error (string * Z) :=
  match truthy (rm_header rpcMessage !! "method") with
  | None => Throw (UnknownRpcMethod (Some ("Header " +:+ quoted "method" +:+ " missing from RPC message")))
  | Some method => match registered !! method with
                   | Some timeout => Return (method, timeout)
                   | None => Throw (UnknownRpcMethod (Some ("RPC Method " +:+ method +:+ " is not provided")))
                   end
  end.

Definition unpack_failure : rpc_error := FailedToParse (Some "Could not parse binary to JSON-object").

(** What [implementation.fn] parses before it calls the handler *)
Definition parse_request (rpcMessage : RpcMessage) (registered : gmap string Z) : outcome rpc_error (string * Z * V) :=
  match getImplementation rpcMessage registered with
  | Throw e => Throw e
  | Return (method, timeout) =>
      match rm_body rpcMessage ≫= unpack_request method with
      | Some input => Return (method, timeout, input)
      | None => Throw unpack_failure
      end
  end.

(** [errorParams] of a request that ends in an error *)
Definition error_params (request : RpcMessage) (e : rpc_error) : response_params :=
  if decide (re_code e = Some "UNKNOWN_RPC_METHOD") then MkParams request None (Some EUNKNOWN_RPC_METHOD) None None None
  else if decide (re_code e = Some "RPC_TIMEOUT") then MkParams request None (Some ESERVER_TIMEOUT) None None None
  else MkParams request None (Some ESERVER_ERROR) (truthy (re_className e)) (truthy (re_code e)) (truthy (Some (re_message e))).

Definition method_of (request : RpcMessage) : string := default "" (rm_header request !! "method").

Definition response_of (request : RpcMessage) (r : outcome rpc_error V) : RpcMessage :=
  createResponseRpcMessage match r with
                           | Return value => MkParams request (Some (pack_response (method_of request) value)) None None None None
                           | Throw e => error_params request e
                           end.

(** The handler of a received message has answered, or its time is over. *)
Definition serve_end (now : Z) (h : nat) (r : outcome rpc_error V) s : RpcCommunicator * list rpc_output :=
  match rc_serving s !! h with
  | Some (MkServing request context notification timeout deadline true) =>
      let s := with_serving (<[h := MkServing request context notification timeout deadline false]> (rc_serving s)) s in
      if notification then (s, []) else onOutgoingMessage now (response_of request r) context None s
  | _ => (s, [])
  end.

Definition server_timeout (now : Z) (h : nat) s : RpcCommunicator * list rpc_output :=
  match rc_serving s !! h with
  | Some v => if (sv_deadline v <=? now)%Z then serve_end now h (Throw (RpcTimeout (Some ("Timed out in " +:+ pretty (sv_timeout v) +:+ "ms.")))) s else (s, [])
  | None => (s, [])
  end.

(** [handleRequest] and [handleNotification], up to the answer of the handler; a message that has no handler, or does
    not parse, is answered at once. *)
Definition serve (now : Z) (rpcMessage : RpcMessage) (callContext : CallContext) (notification : bool) s
    : RpcCommunicator * list rpc_output :=
  if rc_stopped s then (s, [])
  else
    let h := length (rc_serving s) in
    match parse_request rpcMessage (if notification then rc_notifications s else rc_methods s) with
    | Return (method, timeout, input) =>
        (with_serving (rc_serving s ++ [MkServing rpcMessage callContext notification timeout (now + timeout)%Z true]) s,
         [Invoked h method input callContext])
    | Throw e =>
        serve_end now h (Throw e)
          (with_serving (rc_serving s ++ [MkServing rpcMessage callContext notification 0 now true]) s)
    end.
Definition handleRequest now rpcMessage callContext s := serve now rpcMessage callContext false s.
Definition handleNotification now rpcMessage callContext s := serve now rpcMessage callContext true s.

Definition onIncomingMessage (now : Z) (rpcMessage : RpcMessage) (callContext : CallContext) s : RpcCommunicator * list rpc_output :=
  let header k := truthy (rm_header rpcMessage !! k) in
  if bool_decide (is_Some (header "response")) && map_has (rm_requestId rpcMessage) (rc_ongoing s) then
    (match rm_errorType rpcMessage with
     | Some errorType => rejectOngoingRequest errorType rpcMessage s
     | None => resolveOngoingRequest rpcMessage s
     end, [])
  else if bool_decide (is_Some (header "request")) && bool_decide (is_Some (header "method")) then
    if bool_decide (is_Some (header "notification")) then handleNotification now rpcMessage callContext s
    else handleRequest now rpcMessage callContext s
  else (s, []).

Definition handleIncomingMessage now rpcMessage callContext s : RpcCommunicator * list rpc_output :=
  if rc_stopped s then (s, []) else onIncomingMessage now rpcMessage callContext s.

Definition handleMessageFromPeer (now : Z) (message : Message) s : RpcCommunicator * list rpc_output :=
  match me_rpcMessage message with
  | Some rpcMessage =>
      if decide (me_serviceId message = ownServiceId)
      then handleIncomingMessage now rpcMessage (incoming_context (me_source message)) s
      else (s, [])
  | None => (s, [])
  end.

(** ** Events *)

Inductive rpc_event :=
  | EListen
  | ERegisterMethod (name : string) (timeout : option Z)
  | ERegisterNotification (name : string) (timeout : option Z)
  | ECall (method : string) (input : V) (options : CallContext) (requestId : string)
  | ESendSettled (n : nat) (result : outcome rpc_error unit)
  | EMessage (message : Message)
  | EClientTimeout (n : nat)
  | EHandlerSettled (h : nat) (result : outcome rpc_error V)
  | EServerTimeout (h : nat)
  | EDisconnected (peer : string)
  | EStop.

Definition rpc_step (e : Z * rpc_event) s : RpcCommunicator * list rpc_output :=
  let '(now, ev) := e in
  match ev with
  | EListen => (setOutgoingMessageListener s, [])
  | ERegisterMethod name timeout => (registerRpcMethod name timeout s, [])
  | ERegisterNotification name timeout => (registerRpcNotification name timeout s, [])
  | ECall method input options requestId => (unary now method input options requestId s).1
  | ESendSettled n result => (rpc_send_settled n result s, [])
  | EMessage message => handleMessageFromPeer now message s
  | EClientTimeout n => (client_timeout now n s, [])
  | EHandlerSettled h result => serve_end now h result s
  | EServerTimeout h => server_timeout now h s
  | EDisconnected peer => (match on_peer_disconnected peer s with Return s => s | Throw _ => s end, [])
  | EStop => (rpc_stop s, [])
  end.

Fixpoint rpc_run (evs : list (Z * rpc_event)) s : RpcCommunicator * list rpc_output :=
  match evs with
  | [] => (s, [])
  | e :: evs => let '(s, out) := rpc_step e s in let '(s, out') := rpc_run evs s in (s, out ++ out')
  end.
End communicator.

Arguments deferred V : clear implicits.
Arguments rpc_call V : clear implicits.
Arguments RpcCommunicator V : clear implicits.
Arguments rpc_event V : clear implicits.
Arguments rpc_output V : clear implicits.

(** * Why a call settles *)

Section client.
  Context {V : Type}.
  Context (ownServiceId : string) (fromBinary : string → string → option V).
  Implicit Types (s : RpcCommunicator V) (c : rpc_call V) (e : Z * rpc_event V) (evs : list (Z * rpc_event V)).


Definition is_response (m : RpcMessage) : Prop := is_Some (truthy (rm_header m !! "response")).

(** The message of [m] is a response to call [c]. *)
Definition responds evs c (response : RpcMessage) : Prop :=
  ∃ now message, (now, EMessage message) ∈ evs ∧ me_serviceId message = ownServiceId ∧ me_rpcMessage message = Some response ∧
    is_response response ∧ rm_requestId response = ca_requestId c.

Definition called evs now c : Prop := (now, ECall (ca_method c) (ca_input c) (ca_context c) (ca_requestId c)) ∈ evs.

Definition timeout_of (timeout : option Z) c : Z := default (default 5000%Z timeout) (cc_timeout (ca_context c)).

Inductive reason (timeout : option Z) evs n c : deferred V → Prop :=
  | ByResponse response value :
      responds evs c response → rm_errorType response = None → cc_notification (ca_context c) = false →
      (rm_body response ≫= λ body, fromBinary (ca_method c) (any_value body)) = Some value →
      reason timeout evs n c (RESOLVED (Some value))
  | ByUnreadable response :
      responds evs c response → rm_errorType response = None →
      (rm_body response ≫= λ body, fromBinary (ca_method c) (any_value body)) = None →
      reason timeout evs n c (REJECTED parse_failure SERVER_ERROR)
  | ByErrorResponse response errorType :
      responds evs c response → rm_errorType response = Some errorType →
      reason timeout evs n c (REJECTED (response_error errorType response) SERVER_ERROR)
  | BySent now : (now, ESendSettled n (Return tt)) ∈ evs → cc_notification (ca_context c) = true →
      reason timeout evs n c (RESOLVED None)
  | ByNoTransport (evs1 evs2 : list (Z * rpc_event V)) : evs = evs1 ++ evs2 → (∀ now, (now, EListen) ∉ evs1) → (∃ now, called evs2 now c) →
      cc_notification (ca_context c) = true → reason timeout evs n c (RESOLVED None)
  | BySendFailure error now : (now, ESendSettled n (Throw error)) ∈ evs → reason timeout evs n c (REJECTED error SERVER_ERROR)
  | ByTimeout now began : (now, EClientTimeout n) ∈ evs → called evs began c → (began + timeout_of timeout c ≤ now)%Z →
      reason timeout evs n c (REJECTED (RpcTimeout (Some "Rpc request timed out")) DEADLINE_EXCEEDED)
  | ByDisconnection peer now : (now, EDisconnected peer) ∈ evs → cc_target (ca_context c) = Some peer →
      reason timeout evs n c (REJECTED (Disconnected (Some "Peer disconnected")) SERVER_ERROR)
  | ByStop now : (now, EStop) ∈ evs → reason timeout evs n c (REJECTED stopped_error STOPPED).
Definition settled_for_reason timeout evs n c : Prop := ca_state c = PENDING ∨ reason timeout evs n c (ca_state c).

Record rpc_inv (timeout : option Z) evs s : Prop := {
  inv_timeout : rc_rpcRequestTimeout s = default 5000%Z timeout;
  inv_ids : NoDup (ca_requestId <$> rc_calls s);
  inv_called : ∀ n c, rc_calls s !! n = Some c → ∃ now, called evs now c ∧
    ∀ id d, rc_timers s !! n = Some (id, d) → id = ca_requestId c ∧ d = (now + timeout_of timeout c)%Z;
  inv_keys : NoDup (rc_ongoing s).*1;
  inv_ongoing : ∀ id r, map_get id (rc_ongoing s) = Some r → ∃ c d, rc_calls s !! or_call r = Some c ∧ ca_requestId c = id ∧
    ca_context c = or_context r ∧ ca_state c = PENDING ∧ cc_notification (ca_context c) = false ∧
    rc_timers s !! or_call r = Some (id, d);
  inv_timers : ∀ n id d, rc_timers s !! n = Some (id, d) → ∃ ctx, map_get id (rc_ongoing s) = Some (MkOngoing n ctx);
  inv_stopped : rc_stopped s = true → rc_ongoing s = [] ∧ ∃ now, (now, EStop) ∈ evs;
  inv_sends : ∀ n, n ∈ rc_sends s → ∃ c, rc_calls s !! n = Some c ∧ (ca_state c = PENDING →
    cc_notification (ca_context c) = true ∨ map_get (ca_requestId c) (rc_ongoing s) = Some (MkOngoing n (ca_context c)));
  inv_listening : rc_listening s = false → ∀ now, (now, EListen) ∉ evs;
  inv_attached : rc_attached s = negb (rc_stopped s);
  inv_pending : ∀ n c, rc_calls s !! n = Some c → ca_state c = PENDING →
    map_get (ca_requestId c) (rc_ongoing s) = Some (MkOngoing n (ca_context c)) ∨
    (cc_notification (ca_context c) = true ∧ n ∈ rc_sends s) ∨
    (rc_stopped s = true ∧ ∃ now now' (evs1 evs2 : list (Z * rpc_event V)), evs = evs1 ++ (now, EStop) :: evs2 ∧ called evs2 now' c);
  inv_reason : ∀ n c, rc_calls s !! n = Some c → settled_for_reason timeout evs n c }.

(** ** Frames *)

Lemma called_snoc evs e now c : called evs now c → called (evs ++ [e]) now c.
Proof using Type. intros H. apply elem_of_app. by left. Qed.

Lemma reason_snoc timeout evs e n c d : reason timeout evs n c d → reason timeout (evs ++ [e]) n c d.
Proof using Type.
  assert (∀ x, x ∈ evs → x ∈ evs ++ [e]) as Hin by (intros x Hx; apply elem_of_app; by left).
  assert (∀ response, responds evs c response → responds (evs ++ [e]) c response) as Hr.
  { intros response (now & message & H & Hrest). exists now, message. split; [by apply Hin|done]. }
  destruct 1 as [response value ??|response ??|response t ??|now ?|evs1 evs2 -> ? [now ?] ?|err now ?|now began ???|peer now ??|now ?].
  - by eapply ByResponse; eauto.
  - by eapply ByUnreadable; eauto.
  - by eapply ByErrorResponse; eauto.
  - by eapply BySent; eauto.
  - eapply (ByNoTransport _ _ _ _ evs1 (evs2 ++ [e])); [by rewrite assoc_L by apply _|done| |done]. exists now. by apply called_snoc.
  - by eapply BySendFailure; eauto.
  - by eapply ByTimeout; eauto using called_snoc.
  - by eapply ByDisconnection; eauto.
  - by eapply ByStop; eauto.
Qed.

Lemma reason_frame timeout evs n c c' d : ca_method c' = ca_method c → ca_input c' = ca_input c → ca_requestId c' = ca_requestId c →
  ca_context c' = ca_context c → reason timeout evs n c d → reason timeout evs n c' d.
Proof using Type.
  intros Hm Hi Hr Hc.
  assert (∀ evs now, called evs now c' = called evs now c) as Hcalled by (intros; unfold called; by rewrite Hm, Hi, Hr, Hc).
  assert (∀ response, responds evs c' response = responds evs c response) as Hresp by (intros; unfold responds; by rewrite Hr).
  destruct 1 as [response value ??|response ??|response t ??|now ?|evs1 evs2 -> ? [now ?] ?|err now ?|now began ???|peer now ??|now ?].
  - eapply ByResponse; rewrite ?Hresp, ?Hc, ?Hm; eauto.
  - eapply ByUnreadable; rewrite ?Hresp, ?Hm; eauto.
  - eapply ByErrorResponse; rewrite ?Hresp; eauto.
  - eapply BySent; rewrite ?Hc; eauto.
  - eapply ByNoTransport; [done|done| |by rewrite Hc]. exists now. by rewrite Hcalled.
  - eapply BySendFailure; eauto.
  - eapply ByTimeout; rewrite ?Hcalled; eauto. unfold timeout_of. by rewrite Hc.
  - eapply ByDisconnection; rewrite ?Hc; eauto.
  - eapply ByStop; eauto.
Qed.

Lemma settled_snoc timeout evs e n c : settled_for_reason timeout evs n c → settled_for_reason timeout (evs ++ [e]) n c.
Proof using Type. intros [?|?]; [by left|right]. by apply reason_snoc. Qed.

(** An event that leaves the client's side alone *)
Lemma inv_snoc timeout evs s e : (∀ now, rc_listening s = false → e ≠ (now, EListen)) → rpc_inv timeout evs s → rpc_inv timeout (evs ++ [e]) s.
Proof using Type.
  intros Hl [? ? Hcalled ? ? ? Hstop ? Hlisten ? Hpending Hreason]. split; try done.
  - intros n c Hc. destruct (Hcalled n c Hc) as (now & H1 & H2). exists now. split; [by apply called_snoc|done].
  - intros Hs. destruct (Hstop Hs) as [? [now ?]]. split; [done|]. exists now. apply elem_of_app. by left.
  - intros Hf now [Hin%Hlisten|Hin%list_elem_of_singleton]%elem_of_app; [done|done|]. by eapply Hl.
  - intros n c Hc Hp. destruct (Hpending n c Hc Hp) as [?|[?|(? & now & now' & evs1 & evs2 & -> & ?)]]; [by left|by right; left|].
    right; right. split; [done|]. exists now, now', evs1, (evs2 ++ [e]). split; [by rewrite <-assoc_L by apply _|by apply called_snoc].
  - intros n c Hc. by apply settled_snoc, Hreason.
Qed.

Lemma inv_serving timeout evs s serving : rpc_inv timeout evs s → rpc_inv timeout evs (with_serving serving s).
Proof using Type. by destruct 1. Qed.

Lemma lookup_alter_list {A} (f : A → A) (l : list A) n k : alter f n l !! k = if decide (n = k) then f <$> l !! k else l !! k.
Proof using Type. case_decide as Hd; [subst; apply list_lookup_alter_eq|by apply list_lookup_alter_ne]. Qed.

Lemma fmap_alter_same {A B} (g : A → B) (f : A → A) (l : list A) n : (∀ x, g (f x) = g x) → g <$> alter f n l = g <$> l.
Proof using Type.
  intros Hf. apply list_eq. intros k. rewrite !list_lookup_fmap, lookup_alter_list. case_decide; [|done].
  destruct (l !! k); cbn; [by rewrite Hf|done].
Qed.

(** ** A call settles *)

(** The request [id] of call [n] ends with [d]. *)
Definition finish (id : string) (n : nat) (d : deferred V) s : RpcCommunicator V :=
  with_client (map_delete id (rc_ongoing s)) (alter (set_deferred d) n (rc_calls s)) (delete n (rc_timers s)) (rc_sends s) s.

Lemma handleClientError_finish id error s r : rc_stopped s = false → map_get id (rc_ongoing s) = Some r →
  handleClientError id error s = finish id (or_call r) (REJECTED error SERVER_ERROR) s.
Proof using Type. intros Hs Hr. unfold handleClientError. by rewrite Hs, Hr. Qed.

Lemma settled_alter timeout evs s n d k c :
  (∀ k c, rc_calls s !! k = Some c → settled_for_reason timeout evs k c) →
  (∀ c, rc_calls s !! n = Some c → ca_state c = PENDING → reason timeout evs n c d) →
  alter (set_deferred d) n (rc_calls s) !! k = Some c → settled_for_reason timeout evs k c.
Proof using Type.
  intros Hreason Hd. rewrite lookup_alter_list. case_decide as Hn; [subst k|by apply Hreason].
  destruct (rc_calls s !! n) as [c0|] eqn:Hc0; [|done]. intros [= <-].
  destruct (Hreason n c0 Hc0) as [Hp|Hr].
  - right. cbn. unfold settle_deferred. rewrite Hp. eapply reason_frame; [..|by apply Hd]; done.
  - destruct (ca_state c0) eqn:Hst; [by inversion Hr|right..]; cbn; rewrite Hst; cbn;
      (eapply reason_frame; [..|exact Hr]; done).
Qed.

Lemma pending_alter d c : ca_state (set_deferred d c) = PENDING → d ≠ PENDING → False.
Proof using Type. cbn. unfold settle_deferred. by destruct (ca_state c). Qed.

Lemma called_set_deferred evs now d c : called evs now (set_deferred d c) = called evs now c.
Proof using Type. done. Qed.

Lemma finish_inv timeout evs s id r d : rpc_inv timeout evs s → map_get id (rc_ongoing s) = Some r → d ≠ PENDING →
  (∀ c, rc_calls s !! or_call r = Some c → ca_requestId c = id → ca_context c = or_context r →
    cc_notification (ca_context c) = false → reason timeout evs (or_call r) c d) →
  rpc_inv timeout evs (finish id (or_call r) d s).
Proof using Type.
  intros [? Hids Hcalled Hkeys Hongoing Htimers Hstop Hsends ? ? Hpending Hreason] Hr Hd Hreason_d.
  destruct (Hongoing id r Hr) as (c & dl & Hc & Hid & Hctx & Hp & Hnot & Htimer).
  assert (∀ id' r', map_get id' (rc_ongoing s) = Some r' → or_call r' = or_call r → id' = id) as Hsame.
  { intros id' r' Hr' Heq. destruct (Hongoing id' r' Hr') as (c' & ? & Hc' & <- & _). congruence. }
  split; cbn [finish with_client rc_stopped rc_attached rc_ongoing rc_rpcRequestTimeout rc_listening rc_calls rc_timers rc_sends]; try done.
  - by rewrite fmap_alter_same.
  - intros k c'. rewrite lookup_alter_list. case_decide as Hk.
    + subst k. rewrite Hc. intros [= <-]. destruct (Hcalled _ _ Hc) as (now & H1 & H2). exists now. split; [done|].
      intros ? ?. by rewrite lookup_delete_eq.
    + intros Hc'. destruct (Hcalled k c' Hc') as (now & H1 & H2). exists now. split; [done|].
      intros ? ?. rewrite lookup_delete_ne by done. apply H2.
  - rewrite map_delete_keys. by apply NoDup_filter.
  - intros id' r'. rewrite map_get_delete. case_decide as Hid'; [done|]. intros Hr'.
    destruct (Hongoing id' r' Hr') as (c' & d' & Hc' & Hrest).
    assert (or_call r ≠ or_call r') as Hne by (intros Heq; by apply Hid'; symmetry; apply (Hsame id' r')).
    exists c', d'. rewrite lookup_alter_list, decide_False, lookup_delete_ne by done. done.
  - intros k id' d' Hk%lookup_delete_Some. destruct Hk as [Hk Ht]. destruct (Htimers k id' d' Ht) as [ctx Hctx'].
    exists ctx. rewrite map_get_delete, decide_False; [done|]. intros ->. rewrite Hctx' in Hr. by injection Hr as <-.
  - intros Hs. destruct (Hstop Hs) as [Hnil _]. by rewrite Hnil in Hr.
  - intros k Hk. destruct (Hsends k Hk) as (c1 & Hc1 & Hor). rewrite lookup_alter_list. case_decide as Hk'.
    + subst k. rewrite Hc. eexists. split; [done|]. intros Hpend. by destruct (pending_alter _ _ Hpend).
    + exists c1. split; [done|]. intros Hp'. destruct (Hor Hp') as [?|Hmap]; [by left|right].
      rewrite map_get_delete, decide_False; [done|]. intros Heq. rewrite <-Heq, Hr in Hmap. injection Hmap as ->. done.
  - intros k c'. rewrite lookup_alter_list. case_decide as Hk.
    + subst k. rewrite Hc. intros [= <-] Hpend. by destruct (pending_alter _ _ Hpend).
    + intros Hc' Hp'. destruct (Hpending k c' Hc' Hp') as [Hmap|?]; [left|by right].
      rewrite map_get_delete, decide_False; [done|]. intros Heq. rewrite <-Heq, Hr in Hmap. injection Hmap as ->. done.
  - intros k c'. eapply settled_alter; [exact Hreason|]. intros c2 Hc2 _. rewrite Hc in Hc2. injection Hc2 as <-. by apply Hreason_d.
Qed.

(** A call that is not ongoing settles with [d]. *)
Lemma rpc_settle_inv timeout evs s n d : rpc_inv timeout evs s → d ≠ PENDING →
  (∀ c, rc_calls s !! n = Some c → ca_state c = PENDING →
     map_get (ca_requestId c) (rc_ongoing s) = None ∧ reason timeout evs n c d) →
  rpc_inv timeout evs (settle_call n d s).
Proof using Type.
  intros [? Hids Hcalled Hkeys Hongoing Htimers Hstop Hsends ? ? Hpending Hreason] Hd Hfree.
  split; cbn [settle_call with_calls with_client rc_stopped rc_attached rc_ongoing rc_rpcRequestTimeout rc_listening rc_calls rc_timers rc_sends]; try done.
  - by rewrite fmap_alter_same.
  - intros k c'. rewrite lookup_alter_list. case_decide as Hk; [|by apply Hcalled]. subst k.
    destruct (rc_calls s !! n) as [c|] eqn:Hc; [|done]. intros [= <-]. by destruct (Hcalled _ _ Hc) as (now & H1 & H2); exists now.
  - intros id r Hr. destruct (Hongoing id r Hr) as (c & d' & Hc & Hid & Hctx & Hp & Hrest). exists c, d'.
    rewrite lookup_alter_list, decide_False; [done|]. intros ->. destruct (Hfree c Hc Hp) as [Hn _]. by rewrite Hid, Hr in Hn.
  - intros k Hk. destruct (Hsends k Hk) as (c & Hc & Hor). rewrite lookup_alter_list. case_decide as Hk'; [|by exists c].
    subst k. rewrite Hc. eexists. split; [done|]. intros Hpend. by destruct (pending_alter _ _ Hpend).
  - intros k c'. rewrite lookup_alter_list. case_decide as Hk'; [|by apply Hpending]. subst k.
    destruct (rc_calls s !! n) as [c|] eqn:Hc; [|done]. intros [= <-] Hpend. by destruct (pending_alter _ _ Hpend).
  - intros k c'. eapply settled_alter; [exact Hreason|]. intros c Hc Hp. by apply Hfree.
Qed.

(** A new call [c], registered as a request or not *)
Lemma append_inv timeout evs s c now (registered : bool) sends : rpc_inv timeout evs s →
  ca_requestId c ∉ ca_requestId <$> rc_calls s → called evs now c →
  let n := length (rc_calls s) in
  let id := ca_requestId c in
  (∀ k, k ∈ sends → k = n ∨ k ∈ rc_sends s) → rc_sends s ⊆ sends →
  settled_for_reason timeout evs n c →
  (if registered then rc_stopped s = false ∧ ca_state c = PENDING ∧ cc_notification (ca_context c) = false
   else ca_state c = PENDING → (cc_notification (ca_context c) = true ∧ n ∈ sends) ∨
          (n ∉ sends ∧ rc_stopped s = true ∧ ∃ now (evs1 evs2 : list (Z * rpc_event V)) now', evs = evs1 ++ (now, EStop) :: evs2 ∧ called evs2 now' c)) →
  rpc_inv timeout evs
    (with_client (if registered then map_set id (MkOngoing n (ca_context c)) (rc_ongoing s) else rc_ongoing s)
       (rc_calls s ++ [c])
       (if registered then <[n := (id, now + timeout_of timeout c)%Z]> (rc_timers s) else rc_timers s) sends s).
Proof using Type.
  intros [? Hids Hcalled Hkeys Hongoing Htimers Hstop Hsends ? ? Hpending Hreason] Hfresh Hcall n id Hin Hsub Hsettled Hreg.
  assert (∀ k c', rc_calls s !! k = Some c' → k ≠ n) as Hold by (intros k c' Hk%lookup_lt_Some; unfold n; lia).
  assert (∀ k c', rc_calls s !! k = Some c' → ca_requestId c' ≠ id) as Hother.
  { intros k c' Hk Heq. apply Hfresh, list_elem_of_fmap. exists c'. split; [done|]. by eapply list_elem_of_lookup_2. }
  assert (rc_timers s !! n = None) as Hnotimer.
  { destruct (rc_timers s !! n) as [[id' d]|] eqn:Ht; [|done]. destruct (Htimers _ _ _ Ht) as [ctx Hctx].
    destruct (Hongoing _ _ Hctx) as (c' & ? & Hc' & _). cbn in Hc'. by apply Hold in Hc'. }
  assert (∀ k c', (rc_calls s ++ [c]) !! k = Some c' → rc_calls s !! k = Some c' ∨ k = n ∧ c' = c) as Hcases.
  { intros k c' [Hk|[Hk Hc']]%lookup_app_Some; [by left|right]. apply list_lookup_singleton_Some in Hc' as [? <-]. split; [|done].
    unfold n. lia. }
  assert ((rc_calls s ++ [c]) !! n = Some c) as Hnew by (by rewrite lookup_app_r, Nat.sub_diag by done).
  assert (∀ k c', rc_calls s !! k = Some c' → (rc_calls s ++ [c]) !! k = Some c') as Hkeep by (intros; by apply lookup_app_l_Some).
  assert (map_get id (rc_ongoing s) = None) as Hnokey.
  { destruct (map_get id (rc_ongoing s)) as [r|] eqn:Hr; [|done]. destruct (Hongoing _ _ Hr) as (c' & ? & Hc' & Hid' & _).
    by apply Hother in Hc'. }
  assert (∀ id' r, map_get id' (rc_ongoing s) = Some r →
    map_get id' (if registered then map_set id (MkOngoing n (ca_context c)) (rc_ongoing s) else rc_ongoing s) = Some r) as Hmap.
  { intros id' r Hr. destruct registered; [|done]. rewrite map_get_set, decide_False; [done|]. intros <-. by rewrite Hnokey in Hr. }
  assert (registered = true → map_get id (if registered then map_set id (MkOngoing n (ca_context c)) (rc_ongoing s)
            else rc_ongoing s) = Some (MkOngoing n (ca_context c))) as Hmapn by (intros ->; by rewrite map_get_set, decide_True).
  split; cbn [with_client rc_stopped rc_attached rc_ongoing rc_rpcRequestTimeout rc_listening rc_calls rc_timers rc_sends]; try done.
  - rewrite fmap_app. apply NoDup_app. split; [done|]. split; [|apply NoDup_singleton].
    intros x Hx [= ->]%list_elem_of_singleton. done.
  - intros k c' [Hk|[-> ->]]%Hcases.
    + destruct (Hcalled k c' Hk) as (now' & H1 & H2). exists now'. split; [done|]. intros id' d'.
      destruct registered; [|apply H2]. rewrite lookup_insert_ne; [apply H2|]. intros Heq. by apply (Hold k c').
    + exists now. split; [done|]. intros id' d'. destruct registered; [rewrite lookup_insert_eq; by intros [= <- <-]|by rewrite Hnotimer].
  - destruct registered; [by apply map_set_nodup|done].
  - intros id' r Hr. assert (map_get id' (rc_ongoing s) = Some r ∨ (registered = true ∧ id' = id ∧ r = MkOngoing n (ca_context c))) as [Hr'|(-> & -> & ->)].
    { destruct registered; [|by left]. rewrite map_get_set in Hr. case_decide; [right; by simplify_eq|by left]. }
    + destruct (Hongoing id' r Hr') as (c' & d & Hc' & Hid' & Hctx & Hp & Hnot & Ht). exists c', d. split_and!; auto.
      destruct registered; [|done]. rewrite lookup_insert_ne; [done|]. intros Heq. by apply (Hold _ _ Hc').
    + destruct Hreg as (_ & ? & ?). exists c, (now + timeout_of timeout c)%Z. cbn. by rewrite lookup_insert_eq.
  - intros k id' d Hk. destruct registered.
    + apply lookup_insert_Some in Hk as [[<- [= <- <-]]|[? Hk]]; [exists (ca_context c); by apply Hmapn|].
      destruct (Htimers _ _ _ Hk) as [ctx ?]. exists ctx. by apply Hmap.
    + by apply (Htimers k id' d).
  - intros Hs. destruct (Hstop Hs) as [Hnil ?]. destruct registered; [by destruct Hreg as [? _]; congruence|done].
  - intros k Hk. destruct (Hin k Hk) as [->|Hk'].
    + exists c. split; [done|]. intros Hp. destruct registered; [right; by apply Hmapn|].
      destruct (Hreg Hp) as [[? _]|[? _]]; [by left|done].
    + destruct (Hsends k Hk') as (c' & Hc' & Hor). exists c'. split; [by apply Hkeep|]. intros Hp.
      destruct (Hor Hp); [by left|right; by apply Hmap].
  - intros k c' [Hk|[-> ->]]%Hcases Hp.
    + destruct (Hpending k c' Hk Hp) as [?|[[? ?]|?]]; [left; by apply Hmap|right; left; split; [done|by apply Hsub]|by right; right].
    + destruct registered; [left; by apply Hmapn|]. destruct (Hreg Hp) as [?|(_ & ? & now1 & evs1 & evs2 & now' & -> & ?)]; [by right; left|].
      right; right. split; [done|]. by exists now1, now', evs1, evs2.
  - intros k c' [Hk|[-> ->]]%Hcases; [by apply Hreason|done].
Qed.

(** ** Every step keeps the invariant *)

Lemma inv_free timeout evs s n c : rpc_inv timeout evs s → rc_calls s !! n = Some c → n ∈ rc_sends s → ca_state c = PENDING →
  map_get (ca_requestId c) (rc_ongoing s) = None → cc_notification (ca_context c) = true.
Proof using Type.
  intros Hinv Hc Hn Hp Hnone. destruct (inv_sends _ _ _ Hinv n Hn) as (c' & Hc' & Hor). rewrite Hc in Hc'. injection Hc' as <-.
  destruct (Hor Hp) as [?|Hmap]; [done|]. by rewrite Hnone in Hmap.
Qed.

Lemma handleClientError_inv timeout evs s id error : rpc_inv timeout evs s →
  (∀ r c, map_get id (rc_ongoing s) = Some r → rc_calls s !! or_call r = Some c → ca_requestId c = id →
     ca_context c = or_context r → reason timeout evs (or_call r) c (REJECTED error SERVER_ERROR)) →
  rpc_inv timeout evs (handleClientError id error s).
Proof using Type.
  intros Hinv Hreason. destruct (rc_stopped s) eqn:Hs; [by unfold handleClientError; rewrite Hs|].
  destruct (map_get id (rc_ongoing s)) as [r|] eqn:Hr; [|by unfold handleClientError; rewrite Hs, Hr].
  rewrite (handleClientError_finish id error s r) by done. apply finish_inv; [done..|]. intros c Hc Hid Hctx _. by apply Hreason.
Qed.

(** The message of call [n] is sent: as long as the call is not waiting for that, the send can be forgotten. *)
Lemma forget_send_inv timeout evs s n : rpc_inv timeout evs s →
  (∀ c, rc_calls s !! n = Some c → ca_state c = PENDING → map_get (ca_requestId c) (rc_ongoing s) ≠ None) →
  rpc_inv timeout evs (with_sends (rc_sends s ∖ {[n]}) s).
Proof using Type.
  intros [? Hids Hcalled Hkeys Hongoing Htimers Hstop Hsends ? ? Hpending Hreason] Hn. split; try done; cbn.
  - intros k Hk. apply Hsends. set_solver.
  - intros k c Hc Hp. destruct (Hpending k c Hc Hp) as [?|[[? ?]|?]]; [by left| |by right; right].
    destruct (decide (k = n)) as [->|]; [|right; left; split; [done|set_solver]].
    left. specialize (Hn c Hc Hp). destruct (map_get (ca_requestId c) (rc_ongoing s)) as [r|] eqn:Hr; [|done].
    destruct (Hongoing _ _ Hr) as (c' & ? & Hc' & Hid' & Hctx & _). destruct r as [k ctx]; cbn in *.
    assert (k = n) as ->; [|by assert (c' = c) as -> by congruence; subst].
    eapply NoDup_lookup; [exact Hids|..]; rewrite list_lookup_fmap; [by rewrite Hc'|by rewrite Hc; cbn; congruence].
Qed.

Lemma pending_settled d s n c : d ≠ PENDING → rc_calls (settle_call n d s) !! n = Some c → ca_state c ≠ PENDING.
Proof using Type.
  intros Hd. cbn. rewrite lookup_alter_list, decide_True by done. destruct (rc_calls s !! n); [|done]. intros [= <-] Hp.
  by destruct (pending_alter _ _ Hp).
Qed.

Lemma map_has_get {A} id (m : jsmap string A) : map_has id m = bool_decide (is_Some (map_get id m)).
Proof using Type. done. Qed.

(** The [then] that follows when the message of call [n] is sent, or could not be *)
Lemma send_over_inv timeout evs s n c : rpc_inv timeout evs s → rc_calls s !! n = Some c →
  (map_get (ca_requestId c) (rc_ongoing s) = None → ca_state c = PENDING → reason timeout evs n c (RESOLVED None)) →
  rpc_inv timeout evs (with_sends (rc_sends s ∖ {[n]})
    (if map_has (ca_requestId c) (rc_ongoing s) then s else resolveNotification n s)).
Proof using Type.
  intros Hinv Hc Hreason. rewrite map_has_get. case_bool_decide as Hhas.
  - apply forget_send_inv; [done|]. intros c' Hc' _. assert (c' = c) as -> by congruence. intros Hnone. rewrite Hnone in Hhas. by destruct Hhas.
  - apply (forget_send_inv timeout evs (resolveNotification n s)).
    + apply rpc_settle_inv; [done|done|]. intros c' Hc' Hp. assert (c' = c) as -> by congruence.
      assert (map_get (ca_requestId c) (rc_ongoing s) = None) as Hn by (by apply eq_None_not_Some). auto.
    + intros c' Hc' Hp. by apply pending_settled in Hc'.
Qed.

Lemma send_settled_inv timeout evs s now n result : rpc_inv timeout evs s → (now, ESendSettled n result) ∈ evs →
  rpc_inv timeout evs (rpc_send_settled n result s).
Proof using Type.
  intros Hinv Hin. unfold rpc_send_settled. destruct (rc_calls s !! n) as [c|] eqn:Hc; [|done]. case_decide as Hn; [|done].
  destruct result as [[]|error].
  - change (if map_has _ _ then _ else _) with (if map_has (ca_requestId c) (rc_ongoing s) then with_sends (rc_sends s ∖ {[n]}) s
      else with_sends (rc_sends s ∖ {[n]}) (resolveNotification n s)).
    pose proof (send_over_inv timeout evs s n c Hinv Hc) as Hover. destruct (map_has _ _); apply Hover; intros Hnone Hp;
      (eapply BySent; [done|]; by eapply inv_free).
  - assert (reason timeout evs n c (REJECTED error SERVER_ERROR)) as Hr by by eapply BySendFailure.
    destruct (map_has (ca_requestId c) (rc_ongoing (with_sends _ s))) eqn:Hhas; cbn in Hhas.
    + rewrite map_has_get in Hhas. apply bool_decide_eq_true in Hhas as [r Hmap].
      assert (rc_stopped s = false) as Hs.
      { destruct (rc_stopped s) eqn:Hs; [|done]. destruct (inv_stopped _ _ _ Hinv Hs) as [Hnil _]. by rewrite Hnil in Hmap. }
      destruct (inv_ongoing _ _ _ Hinv _ _ Hmap) as (c' & d & Hc' & Hid & Hctx & Hp & _).
      assert (or_call r = n) as <-.
      { eapply NoDup_lookup; [exact (inv_ids _ _ _ Hinv)|..]; rewrite list_lookup_fmap; [by rewrite Hc'|by rewrite Hc; cbn; congruence]. }
      rewrite (handleClientError_finish _ _ _ r) by done.
      set (s' := finish (ca_requestId c) (or_call r) (REJECTED error SERVER_ERROR) s).
      assert (rpc_inv timeout evs s') as Hinv'.
      { apply finish_inv; [done..|]. intros c2 Hc2 _ _ _. by assert (c2 = c) as -> by congruence. }
      assert (rc_calls s' !! or_call r = Some (set_deferred (REJECTED error SERVER_ERROR) c)) as Hc2
        by (cbn; by rewrite lookup_alter_list, decide_True, Hc by done).
      assert (map_has (ca_requestId c) (map_delete (ca_requestId c) (rc_ongoing s)) = false) as Hgone
        by (rewrite map_has_get, map_get_delete, decide_True by done; done).
      pose proof (send_over_inv timeout evs s' (or_call r) _ Hinv' Hc2) as Hover. cbn in Hover. rewrite Hgone in Hover.
      change (rpc_inv timeout evs (if map_has (ca_requestId c) (map_delete (ca_requestId c) (rc_ongoing s))
        then with_sends (rc_sends s ∖ {[or_call r]}) s' else with_sends (rc_sends s ∖ {[or_call r]}) (resolveNotification (or_call r) s'))).
      rewrite Hgone. apply Hover.
      intros _ Hp'. by destruct (pending_alter _ _ Hp').
    + set (s' := reject_untimed n error SERVER_ERROR s).
      assert (rpc_inv timeout evs s') as Hinv'.
      { apply rpc_settle_inv; [done|done|]. intros c2 Hc2 _. assert (c2 = c) as -> by congruence. split; [|done].
        rewrite map_has_get in Hhas. by apply bool_decide_eq_false, eq_None_not_Some in Hhas. }
      assert (rc_calls s' !! n = Some (set_deferred (REJECTED error SERVER_ERROR) c)) as Hc2
        by (cbn; by rewrite lookup_alter_list, decide_True, Hc by done).
      pose proof (send_over_inv timeout evs s' n _ Hinv' Hc2) as Hover. cbn in Hover |- *. rewrite Hhas in Hover |- *. apply Hover.
      intros _ Hp'. by destruct (pending_alter _ _ Hp').
Qed.

Lemma client_timeout_inv timeout evs s now n : rpc_inv timeout evs s → (now, EClientTimeout n) ∈ evs →
  rpc_inv timeout evs (client_timeout now n s).
Proof using Type.
  intros Hinv Hin. unfold client_timeout. destruct (rc_timers s !! n) as [[id d]|] eqn:Ht; [|done]. case_match eqn:Hd; [|done].
  destruct (inv_timers _ _ _ Hinv _ _ _ Ht) as [ctx Hr].
  apply (finish_inv timeout evs s id (MkOngoing n ctx)); [done..|]. intros c Hc _ _ _.
  destruct (inv_called _ _ _ Hinv n c Hc) as (began & Hcalled & Htimer). destruct (Htimer _ _ Ht) as [_ ->].
  eapply ByTimeout; [done|done|]. by apply Z.leb_le.
Qed.

(** A response arrived for the ongoing request with its id. *)
Lemma response_inv timeout evs s response now message : rpc_inv timeout evs s →
  (now, EMessage message) ∈ evs → me_serviceId message = ownServiceId → me_rpcMessage message = Some response → is_response response →
  rpc_inv timeout evs match rm_errorType response with
                      | Some errorType => rejectOngoingRequest errorType response s
                      | None => resolveOngoingRequest fromBinary response s
                      end.
Proof using Type.
  intros Hinv Hin Hservice Hrpc Hresp. unfold rejectOngoingRequest, resolveOngoingRequest, resolveRequest.
  destruct (rc_stopped s) eqn:Hs; [by case_match|].
  destruct (map_get (rm_requestId response) (rc_ongoing s)) as [r|] eqn:Hr; [|by case_match].
  assert (∀ c, ca_requestId c = rm_requestId response → responds evs c response) as Hresponds by (intros c Hc; by exists now, message).
  destruct (rm_errorType response) as [errorType|] eqn:He.
  - apply (finish_inv timeout evs s _ r); [done..|]. intros c Hc Hid _ _. eapply ByErrorResponse; eauto.
  - destruct (inv_ongoing _ _ _ Hinv _ _ Hr) as (c & d & Hc & _). cbn [clear_timer with_timers with_client rc_calls]. rewrite Hc.
    apply (finish_inv timeout evs s _ r); [done|done|by unfold resolveDeferredPromises; case_match|]. intros c' Hc' Hid _ Hnot.
    assert (c' = c) as -> by congruence. unfold resolveDeferredPromises. case_match eqn:Hv; [by eapply ByResponse; eauto|by eapply ByUnreadable; eauto].
Qed.

Lemma getRequestIds_spec predicate s id : NoDup (rc_ongoing s).*1 →
  id ∈ getRequestIds predicate s ↔ ∃ r, map_get id (rc_ongoing s) = Some r ∧ predicate r = true.
Proof using Type.
  intros Hnd. unfold getRequestIds. rewrite list_elem_of_fmap. split.
  - intros ([id' r] & -> & [Hp Hin]%list_elem_of_filter). exists r. split; [by apply map_get_Some|done].
  - intros (r & Hr & Hp). exists (id, r). split; [done|]. apply list_elem_of_filter. split; [done|by apply map_get_Some].
Qed.

Lemma handleClientError_ongoing id id' error s r : map_get id' (rc_ongoing (handleClientError id error s)) = Some r →
  map_get id' (rc_ongoing s) = Some r.
Proof using Type.
  unfold handleClientError. destruct (rc_stopped s); [done|]. destruct (map_get id (rc_ongoing s)) eqn:Hr; [|done]. cbn.
  change (filter _ _) with (map_delete id (rc_ongoing s)). rewrite map_get_delete. by case_decide.
Qed.

Lemma disconnected_inv timeout evs s now peer s' : rpc_inv timeout evs s → (now, EDisconnected peer) ∈ evs →
  on_peer_disconnected peer s = Return s' → rpc_inv timeout evs s'.
Proof using Type.
  intros Hinv Hin. unfold on_peer_disconnected. case_match; [|done]. intros [= <-].
  set (ids := getRequestIds _ s).
  assert (∀ id, id ∈ ids → ∀ r, map_get id (rc_ongoing s) = Some r → cc_target (or_context r) = Some peer) as Hids.
  { intros id Hid r Hr. apply getRequestIds_spec in Hid as (r' & Hr' & Hp); [|by eapply inv_keys]. apply bool_decide_eq_true in Hp. congruence. }
  clearbody ids. clear H. revert s Hinv Hids. induction ids as [|id ids IH]; intros s Hinv Hids; [done|]. cbn. apply IH.
  - apply handleClientError_inv; [done|]. intros r c Hr Hc _ Hctx. eapply ByDisconnection; [done|]. rewrite Hctx.
    apply (Hids id); [left|done].
  - intros id' Hid' r Hr. apply handleClientError_ongoing in Hr. apply (Hids id'); [by right|done].
Qed.

(** ** Stopping *)

Lemma set_deferred_twice d c : set_deferred d (set_deferred d c) = set_deferred d c.
Proof using Type. unfold set_deferred, settle_deferred. cbn. by destruct (ca_state c), d. Qed.

Lemma reject_all_spec (l : list (string * OngoingRequest)) s :
  let s' := foldl (λ s x, rejectRequest (or_call x.2) stopped_error STOPPED s) s l in
  s' = with_client (rc_ongoing s) (rc_calls s') (rc_timers s') (rc_sends s) s ∧
  length (rc_calls s') = length (rc_calls s) ∧
  (∀ n, rc_calls s' !! n = (if decide (n ∈ or_call ∘ snd <$> l) then set_deferred (REJECTED stopped_error STOPPED) else id) <$> rc_calls s !! n) ∧
  (∀ n, rc_timers s' !! n = if decide (n ∈ or_call ∘ snd <$> l) then None else rc_timers s !! n).
Proof using Type.
  clear ownServiceId fromBinary. revert s. induction l as [|[i r] l IH]; intros s; cbn zeta in *; cbn [foldl snd].
  - split_and!; [by destruct s|done| |]; intros n; (rewrite decide_False; [|apply not_elem_of_nil]); [|done]. by destruct (rc_calls s !! n).
  - specialize (IH (rejectRequest (or_call r) stopped_error STOPPED s)) as (Heq & Hlen & Hcalls & Htimers).
    split_and!.
    + rewrite Heq at 1. done.
    + rewrite Hlen. cbn. by rewrite length_alter.
    + intros n. rewrite Hcalls. cbn. rewrite lookup_alter_list. destruct (decide (or_call r = n)) as [Hn|Hn].
      * rewrite (decide_True (P := n ∈ or_call r :: _)) by (rewrite Hn; left). destruct (rc_calls s !! n) as [c|]; [|done]. cbn.
        case_decide; [|done]. by rewrite set_deferred_twice.
      * erewrite decide_ext; [done|]. cbn. rewrite elem_of_cons. naive_solver.
    + intros n. rewrite Htimers. cbn. destruct (decide (or_call r = n)) as [Hn|Hn].
      * rewrite (decide_True (P := n ∈ or_call r :: _)) by (rewrite Hn; left). subst n. rewrite lookup_delete_eq. by case_decide.
      * rewrite lookup_delete_ne by done. erewrite decide_ext; [done|]. cbn. rewrite elem_of_cons. naive_solver.
Qed.

(** Stopping rejects every request: a call that is pending afterwards is a notification on its way. *)
Lemma stop_inv timeout evs s now : rpc_inv timeout evs s → (now, EStop) ∈ evs → rpc_inv timeout evs (rpc_stop s).
Proof using Type.
  intros Hinv Hin. unfold rpc_stop. cbn zeta. change (rc_ongoing (with_stopped s)) with (rc_ongoing s).
  destruct (reject_all_spec (rc_ongoing s) (with_stopped s)) as (Heq & Hlen & Hcalls & Htimers).
  set (s' := foldl _ (with_stopped s) (rc_ongoing s)) in *. clearbody s'.
  assert (∀ n, n ∈ or_call ∘ snd <$> rc_ongoing s ↔ ∃ id r, map_get id (rc_ongoing s) = Some r ∧ or_call r = n) as Hin_ongoing.
  { intros n. rewrite list_elem_of_fmap. setoid_rewrite map_get_Some; [|apply (inv_keys _ _ _ Hinv)]. split.
    - intros ([id r] & -> & ?). by exists id, r.
    - intros (id & r & ? & <-). by exists (id, r). }
  destruct Hinv as [? Hids Hcalled Hkeys Hongoing Htim Hstop Hsends ? ? Hpending Hreason].
  assert (∀ n c', rc_calls s' !! n = Some c' → ∃ c, rc_calls s !! n = Some c ∧
    (c' = set_deferred (REJECTED stopped_error STOPPED) c ∧ n ∈ or_call ∘ snd <$> rc_ongoing s ∨ c' = c ∧ n ∉ or_call ∘ snd <$> rc_ongoing s)) as Hcase.
  { intros n c'. rewrite Hcalls. cbn. destruct (rc_calls s !! n) as [c|] eqn:Hc; [|done]. cbn. intros [= <-]. exists c. split; [done|].
    case_decide; [by left|by right]. }
  assert (∀ n id d, rc_timers s' !! n = Some (id, d) → False) as Hnotimer.
  { intros n id d. rewrite Htimers. cbn. case_decide as Hn; [done|]. intros Ht. apply Hn, Hin_ongoing.
    destruct (Htim _ _ _ Ht) as [ctx Hctx]. by exists id, (MkOngoing n ctx). }
  rewrite Heq. clear Heq.
  split; cbn [detached with_ongoing with_client with_stopped rc_stopped rc_attached rc_ongoing rc_rpcRequestTimeout rc_listening rc_calls rc_timers rc_sends];
    try done.
  - assert (ca_requestId <$> rc_calls s' = ca_requestId <$> rc_calls s) as ->; [|done]. apply list_eq. intros n.
    rewrite !list_lookup_fmap, Hcalls. cbn. destruct (rc_calls s !! n); [|done]. cbn. by case_decide.
  - intros n c' (c & Hc & [[-> _]|[-> _]])%Hcase; destruct (Hcalled n c Hc) as (began & Hb & _); exists began; (split; [done|]);
      intros id d Ht; by apply Hnotimer in Ht.
  - constructor.
  - intros n id d Ht. by apply Hnotimer in Ht.
  - intros _. split; [done|]. by exists now.
  - intros n Hn. destruct (Hsends n Hn) as (c & Hc & Hor). eexists. rewrite Hcalls. cbn. rewrite Hc. split; [done|].
    case_decide as Hd; [intros Hp; by destruct (pending_alter _ _ Hp)|]. intros Hp. destruct (Hor Hp) as [?|Hmap]; [by left|].
    destruct Hd. apply Hin_ongoing. by eexists _, _.
  - intros n c' (c & Hc & [[-> Hd]|[-> Hd]])%Hcase Hp; [by destruct (pending_alter _ _ Hp)|].
    destruct (Hpending n c Hc Hp) as [Hmap|[?|[_ ?]]]; [|by right; left|by right; right]. destruct Hd. apply Hin_ongoing. by eexists _, _.
  - intros n c' (c & Hc & [[-> Hd]|[-> Hd]])%Hcase; [|by apply Hreason].
    eapply (settled_alter _ _ s n (REJECTED stopped_error STOPPED) n); [done| |by rewrite lookup_alter_list, decide_True, Hc by done].
    intros c' Hc' _. by eapply ByStop.
Qed.
End client.

(** * The life of a communicator *)

Section life.
  Context {V : Type}.
  Context (ownServiceId : string).
  Context (pack_request : string → V → Any) (unpack_request : string → Any → option V).
  Context (pack_response : string → V → Any) (fromBinary : string → string → option V).
  Implicit Types (s : RpcCommunicator V) (c : rpc_call V) (e : Z * rpc_event V) (evs : list (Z * rpc_event V)).
  Notation step_ := (rpc_step ownServiceId pack_request unpack_request pack_response fromBinary).
  Notation run_ := (rpc_run ownServiceId pack_request unpack_request pack_response fromBinary).

(** Request ids are fresh, as those of [uuid] are. *)
Definition rpc_legal e s : Prop :=
  match e.2 with ECall _ _ _ requestId => requestId ∉ ca_requestId <$> rc_calls s | _ => True end.

(** [rpc_life timeout evs s out]: a communicator that began with [timeout] lives through [evs], is now in the state [s] and
    has done [out]. *)
Inductive rpc_life (timeout : option Z) : list (Z * rpc_event V) → RpcCommunicator V → list (rpc_output V) → Prop :=
  | life_begins : rpc_life timeout [] (communicator_new timeout) []
  | life_goes_on evs s out e s' out' :
      rpc_life timeout evs s out → rpc_legal e s → step_ e s = (s', out') → rpc_life timeout (evs ++ [e]) s' (out ++ out').

Fixpoint rpc_legal_run (evs : list (Z * rpc_event V)) s : Prop :=
  match evs with [] => True | e :: evs => rpc_legal e s ∧ rpc_legal_run evs (step_ e s).1 end.

Lemma rpc_run_snoc evs e s : run_ (evs ++ [e]) s = let '(s1, out1) := run_ evs s in let '(s2, out2) := step_ e s1 in (s2, out1 ++ out2).
Proof using Type.
  revert s. induction evs as [|e' evs IH]; intros s; cbn.
  - destruct (step_ e s) as [s2 out2]. by rewrite app_nil_r.
  - destruct (step_ e' s) as [s1 out1]. rewrite IH. destruct (run_ evs s1) as [s2 out2]. destruct (step_ e s2) as [s3 out3].
    by rewrite app_assoc.
Qed.

Lemma rpc_legal_run_snoc evs e s : rpc_legal_run (evs ++ [e]) s ↔ rpc_legal_run evs s ∧ rpc_legal e (run_ evs s).1.
Proof using Type.
  revert s. induction evs as [|e' evs IH]; intros s; cbn; [tauto|]. rewrite IH.
  destruct (step_ e' s) as [s1 out1]; cbn. destruct (run_ evs s1) as [s2 out2]; cbn. tauto.
Qed.

Lemma rpc_life_of_run timeout evs :
  rpc_legal_run evs (communicator_new timeout) → rpc_life timeout evs (run_ evs (communicator_new timeout)).1 (run_ evs (communicator_new timeout)).2.
Proof using Type.
  induction evs as [|e evs IH] using rev_ind; [constructor|].
  intros [Hl He]%rpc_legal_run_snoc. rewrite rpc_run_snoc. specialize (IH Hl).
  destruct (run_ evs (communicator_new timeout)) as [s out]. destruct (step_ e s) as [s' out'] eqn:Hs. by eapply life_goes_on.
Qed.


(** ** Calling *)

Lemma fresh_not_ongoing timeout evs s id : rpc_inv ownServiceId fromBinary timeout evs s → id ∉ ca_requestId <$> rc_calls s →
  map_get id (rc_ongoing s) = None.
Proof using Type.
  intros Hinv Hfresh. destruct (map_get id (rc_ongoing s)) as [r|] eqn:Hr; [|done].
  destruct (inv_ongoing _ _ _ _ _ Hinv _ _ Hr) as (c & ? & Hc & <- & _). destruct Hfresh. apply list_elem_of_fmap.
  exists c. split; [done|]. by eapply list_elem_of_lookup_2.
Qed.

Lemma unary_inv timeout evs s now method input options requestId :
  rpc_inv ownServiceId fromBinary timeout evs s → requestId ∉ ca_requestId <$> rc_calls s →
  rpc_inv ownServiceId fromBinary timeout (evs ++ [(now, ECall method input options requestId)])
    (unary ownServiceId pack_request now method input options requestId s).1.1.
Proof using Type.
  clear unpack_request pack_response. intros Hinv Hfresh. set (e := (now, ECall method input options requestId)).
  assert (rpc_inv ownServiceId fromBinary timeout (evs ++ [e]) s) as Hinv' by (apply inv_snoc; [by intros now' _ [=]|done]).
  unfold unary. destruct (cc_isProtoRpc options); cbn [negb]; [|done].
  set (c := MkCall method input requestId options PENDING). set (n := length (rc_calls s)).
  assert (called (evs ++ [e]) now c) as Hcalled by (apply elem_of_app; right; by apply list_elem_of_singleton).
  assert (n ∉ rc_sends s) as Hn.
  { intros Hin. destruct (inv_sends _ _ _ _ _ Hinv _ Hin) as (c' & Hc' & _). apply lookup_lt_Some in Hc'. unfold n in Hc'. lia. }
  pose proof (append_inv ownServiceId fromBinary timeout (evs ++ [e]) s) as Happend. cbn zeta in Happend. fold n in Happend.
  cbn zeta. change (rc_attached (with_calls _ s)) with (rc_attached s).
  rewrite (inv_attached _ _ _ _ _ Hinv). destruct (rc_stopped s) eqn:Hs; cbn [negb].
  { apply (Happend c now false (rc_sends s)); [done|done|done|by right|done|by left|]. intros _. right. split; [done|].
    destruct (inv_stopped _ _ _ _ _ Hinv Hs) as [_ [now' Hstop]]. apply list_elem_of_split in Hstop as (evs1 & evs2 & ->).
    split; [done|]. exists now', evs1, (evs2 ++ [e]), now. split; [by rewrite <-assoc_L by apply _|]. apply elem_of_app. right. by apply list_elem_of_singleton. }
  unfold onOutgoingMessage, registerRequest. cbn [with_calls with_client rc_stopped rc_ongoing rc_listening rc_timers rc_rpcRequestTimeout rm_requestId].
  rewrite Hs. cbn [rc_stopped]. rewrite (inv_timeout _ _ _ _ _ Hinv).
  destruct (cc_notification options) eqn:Hnot; cbn [negb]; destruct (rc_listening s) eqn:Hl;
    cbn [routing_outgoing fst with_client with_calls with_sends rc_listening rc_ongoing]; rewrite ?Hl.
  - apply (Happend c now false ({[n]} ∪ rc_sends s)); [done|done|done|set_solver|set_solver|by left|]. intros _. left. split; [done|set_solver].
  - rewrite map_has_get, (fresh_not_ongoing timeout evs s) by done. cbn [bool_decide].
    assert (resolveNotification n (with_calls (rc_calls s ++ [c]) s) =
      with_client (rc_ongoing s) (rc_calls s ++ [set_deferred (RESOLVED None) c]) (rc_timers s) (rc_sends s) s) as Hres.
    { unfold resolveNotification, settle_call, with_calls. cbn. unfold n. by rewrite alter_app_r_alt, Nat.sub_diag by lia. }
    cbn iota. cbn [fst]. rewrite Hres.
    apply (Happend (set_deferred (RESOLVED None) c) now false (rc_sends s)); [done|done|done|by right|done| |done].
    right. eapply (ByNoTransport _ _ _ _ _ _ evs [e]); [done|by apply (inv_listening _ _ _ _ _ Hinv)| |done]. exists now. by apply list_elem_of_singleton.
  - apply (Happend c now true ({[n]} ∪ rc_sends s)); [done|done|done|set_solver|set_solver|by left|done].
  - cbn. rewrite map_has_get, map_get_set, decide_True by done. cbn.
    apply (Happend c now true (rc_sends s)); [done|done|done|by right|done|by left|done].
Qed.

(** ** Serving *)

(** A message that belongs to no call changes nothing on the client's side. *)
Lemma outgoing_response now message context s : onOutgoingMessage ownServiceId now message context None s =
  (s, if negb (rc_stopped s) && rc_listening s then [let '(m, o) := routing_outgoing ownServiceId message context in SendFn m o] else []).
Proof using Type. unfold onOutgoingMessage. destruct (rc_stopped s); [done|]. by destruct (rc_listening s). Qed.

Lemma serve_end_spec now h r s :
  serve_end ownServiceId pack_response now h r s =
    match rc_serving s !! h with
    | Some (MkServing request context notification timeout deadline true) =>
        (with_serving (<[h := MkServing request context notification timeout deadline false]> (rc_serving s)) s,
         if negb notification && negb (rc_stopped s) && rc_listening s
         then [let '(m, o) := routing_outgoing ownServiceId (response_of pack_response request r) context in SendFn m o] else [])
    | _ => (s, [])
    end.
Proof using Type.
  unfold serve_end. destruct (rc_serving s !! h) as [[request context notification timeout deadline []]|]; try done.
  destruct notification; [done|]. by rewrite outgoing_response.
Qed.

Lemma serve_end_serving now h r s : ∃ serving, (serve_end ownServiceId pack_response now h r s).1 = with_serving serving s.
Proof using Type.
  rewrite serve_end_spec. destruct (rc_serving s !! h) as [[????? []]|]; cbn; [by eexists| |]; exists (rc_serving s); by destruct s.
Qed.

Lemma serve_serving now message context notification s :
  ∃ serving, (serve ownServiceId unpack_request pack_response now message context notification s).1 = with_serving serving s.
Proof using Type.
  unfold serve. destruct (rc_stopped s); [exists (rc_serving s); by destruct s|]. destruct (parse_request _ _ _) as [[[? ?] ?]|?]; [by eexists|].
  edestruct serve_end_serving as [serving Hs]. exists serving. by rewrite Hs.
Qed.

Lemma server_timeout_serving now h s : ∃ serving, (server_timeout ownServiceId pack_response now h s).1 = with_serving serving s.
Proof using Type.
  unfold server_timeout. case_match; [case_match|]; [apply serve_end_serving|exists (rc_serving s); by destruct s..].
Qed.

Lemma rpc_step_inv timeout evs e s : rpc_inv ownServiceId fromBinary timeout evs s → rpc_legal e s →
  rpc_inv ownServiceId fromBinary timeout (evs ++ [e]) (step_ e s).1.
Proof using Type.
  intros Hinv Hlegal. destruct e as [now ev].
  assert (∀ x, x = (now, ev) → x ∈ evs ++ [(now, ev)]) as Hin by (intros x ->; apply elem_of_app; right; by apply list_elem_of_singleton).
  assert (∀ serving s', s' = with_serving serving s → ev ≠ EListen → rpc_inv ownServiceId fromBinary timeout (evs ++ [(now, ev)]) s') as Hserving.
  { intros serving s' -> Hev. apply inv_serving, inv_snoc; [by intros now' _ [=]|done]. }
  destruct ev as [|name t|name t|method input options id|n result|message|n|h r|h|peer|].
  - destruct Hinv as [? ? Hcalled ? ? ? Hstop ? Hlisten ? Hpending Hreason]. split; cbn; try done.
    + intros n c Hc. destruct (Hcalled n c Hc) as (began & H1 & H2). exists began. split; [by apply called_snoc|done].
    + intros Hs. destruct (Hstop Hs) as [? [now' ?]]. split; [done|]. exists now'. apply elem_of_app. by left.
    + intros n c Hc Hp. destruct (Hpending n c Hc Hp) as [?|[?|(? & now1 & now2 & evs1 & evs2 & -> & ?)]]; [by left|by right; left|].
      right; right. split; [done|]. exists now1, now2, evs1, (evs2 ++ [(now, EListen)]). split; [by rewrite <-assoc_L by apply _|by apply called_snoc].
    + intros n c Hc. by apply settled_snoc, Hreason.
  - apply inv_snoc; [by intros ? _ [=]|]. by destruct Hinv.
  - apply inv_snoc; [by intros ? _ [=]|]. by destruct Hinv.
  - by apply unary_inv.
  - eapply send_settled_inv; [apply inv_snoc; [by intros ? _ [=]|done]|by apply Hin].
  - cbn. unfold handleMessageFromPeer. destruct (me_rpcMessage message) as [m|] eqn:Hm; [|by eapply (Hserving (rc_serving s)); destruct s].
    case_decide as Hservice; [|by eapply (Hserving (rc_serving s)); destruct s].
    unfold handleIncomingMessage, onIncomingMessage. case_match; [by eapply (Hserving (rc_serving s)); destruct s|].
    case_match eqn:Hresponse.
    + apply andb_true_iff in Hresponse as [Hresponse%bool_decide_eq_true _].
      eapply response_inv; [apply inv_snoc; [by intros ? _ [=]|done]|by apply Hin|done..].
    + case_match; [|by eapply (Hserving (rc_serving s)); destruct s].
      case_match; edestruct serve_serving as [serving Hs]; by eapply Hserving.
  - eapply client_timeout_inv; [apply inv_snoc; [by intros ? _ [=]|done]|by apply Hin].
  - edestruct serve_end_serving as [serving Hs]. by eapply Hserving.
  - edestruct server_timeout_serving as [serving Hs]. by eapply Hserving.
  - cbn. assert (rpc_inv ownServiceId fromBinary timeout (evs ++ [(now, EDisconnected peer)]) s) as Hs by (apply inv_snoc; [by intros ? _ [=]|done]).
    destruct (on_peer_disconnected peer s) as [s'|] eqn:Hd; [|done]. eapply disconnected_inv; [done|by apply Hin|done].
  - eapply stop_inv; [apply inv_snoc; [by intros ? _ [=]|done]|by apply Hin].
Qed.

Lemma rpc_new_inv timeout : rpc_inv (V := V) ownServiceId fromBinary timeout [] (communicator_new timeout).
Proof using Type. split; cbn; try done; try constructor. intros _ now Hin. by apply not_elem_of_nil in Hin. Qed.

Lemma rpc_life_inv timeout evs s out : rpc_life timeout evs s out → rpc_inv ownServiceId fromBinary timeout evs s.
Proof using Type.
  induction 1 as [|evs s out e s' out' _ IH Hlegal Hstep]; [apply rpc_new_inv|].
  pose proof (rpc_step_inv timeout evs e s IH Hlegal) as Hinv. by rewrite Hstep in Hinv.
Qed.

(** ** A call settles once *)

(** The calls of [l] are in [l'] as they were, or settled. *)
Definition calls_ext (l l' : list (rpc_call V)) : Prop :=
  ∀ n c, l !! n = Some c → ∃ c', l' !! n = Some c' ∧ (c' = c ∨ ∃ d, c' = set_deferred d c).

Lemma calls_ext_refl l : calls_ext l l.
Proof using Type. intros n c Hc. exists c. split; [done|by left]. Qed.

Lemma calls_ext_trans l1 l2 l3 : calls_ext l1 l2 → calls_ext l2 l3 → calls_ext l1 l3.
Proof using Type.
  intros H1 H2 n c Hc. destruct (H1 n c Hc) as (c1 & Hc1 & Hor1). destruct (H2 n c1 Hc1) as (c2 & Hc2 & Hor2).
  exists c2. split; [done|]. destruct Hor1 as [->|[d ->]]; [done|]. destruct Hor2 as [->|[d' ->]]; right; [by exists d|].
  exists (settle_deferred d' d). unfold set_deferred, settle_deferred. cbn. destruct (ca_state c), d; done.
Qed.

Lemma calls_ext_alter l n d : calls_ext l (alter (set_deferred d) n l).
Proof using Type.
  intros k c Hc. rewrite lookup_alter_list. case_decide; [|exists c; by split; [|left]]. rewrite Hc. eexists. split; [done|].
  right. by exists d.
Qed.

Lemma calls_ext_app l l' : calls_ext l (l ++ l').
Proof using Type. intros n c Hc. exists c. split; [by apply lookup_app_l_Some|by left]. Qed.

Lemma client_error_ext id error s : calls_ext (rc_calls s) (rc_calls (handleClientError id error s)).
Proof using Type.
  unfold handleClientError. destruct (rc_stopped s); [apply calls_ext_refl|]. case_match; [apply calls_ext_alter|apply calls_ext_refl].
Qed.

Lemma fold_ext {A} (f : RpcCommunicator V → A → RpcCommunicator V) (l : list A) s :
  (∀ s x, calls_ext (rc_calls s) (rc_calls (f s x))) → calls_ext (rc_calls s) (rc_calls (foldl f s l)).
Proof using Type.
  intros Hf. revert s. induction l as [|x l IH]; intros s; [apply calls_ext_refl|]. cbn. eapply calls_ext_trans; [apply Hf|apply IH].
Qed.

Lemma outgoing_ext now message context d s :
  calls_ext (rc_calls s) (rc_calls (onOutgoingMessage ownServiceId now message context d s).1).
Proof using Type.
  unfold onOutgoingMessage, registerRequest. destruct (rc_stopped s), d as [n|]; cbn [negb]; try apply calls_ext_refl; [apply calls_ext_alter|..];
    destruct (cc_notification context), (rc_listening s); cbn [negb]; repeat case_match; cbn; try apply calls_ext_refl; apply calls_ext_alter.
Qed.

Lemma serving_ext s s' : (∃ serving, s' = with_serving serving s) → calls_ext (rc_calls s) (rc_calls s').
Proof using Type. intros [serving ->]. apply calls_ext_refl. Qed.

Lemma rpc_step_ext e s : calls_ext (rc_calls s) (rc_calls (step_ e s).1).
Proof using Type.
  destruct e as [now [|name t|name t|method input options id|n result|message|n|h r|h|peer|]]; cbn [rpc_step fst]; try apply calls_ext_refl.
  - unfold unary. destruct (cc_isProtoRpc options); [|apply calls_ext_refl]. cbn [negb]. cbn zeta.
    set (s0 := with_calls (rc_calls s ++ _) s). apply (calls_ext_trans _ (rc_calls s0)); [apply calls_ext_app|].
    destruct (rc_attached s0); [|apply calls_ext_refl]. set (m := MkRpc _ _ _ _ _ _ _).
    pose proof (outgoing_ext now m options (Some (length (rc_calls s))) s0) as Ho.
    by destruct (onOutgoingMessage ownServiceId now m options (Some (length (rc_calls s))) s0).
  - unfold rpc_send_settled. destruct (rc_calls s !! n) as [c|] eqn:Hc; [|apply calls_ext_refl]. case_decide; [|apply calls_ext_refl].
    cbn zeta. set (s0 := with_sends _ s). change (rc_calls s) with (rc_calls s0). set (s1 := match result with Return _ => s0 | _ => _ end).
    apply (calls_ext_trans _ (rc_calls s1)).
    + unfold s1. destruct result as [|error]; [apply calls_ext_refl|]. case_match; [apply client_error_ext|apply calls_ext_alter].
    + case_match; [apply calls_ext_refl|apply calls_ext_alter].
  - unfold handleMessageFromPeer. case_match; [|apply calls_ext_refl]. case_decide; [|apply calls_ext_refl].
    unfold handleIncomingMessage, onIncomingMessage. case_match; [apply calls_ext_refl|].
    case_match; [|case_match; [case_match; apply serving_ext, serve_serving|apply calls_ext_refl]].
    cbn. unfold rejectOngoingRequest, resolveOngoingRequest, resolveRequest.
    repeat case_match; cbn; try apply calls_ext_refl; apply calls_ext_alter.
  - unfold client_timeout. repeat case_match; [apply calls_ext_alter|apply calls_ext_refl..].
  - apply serving_ext, serve_end_serving.
  - apply serving_ext, server_timeout_serving.
  - unfold on_peer_disconnected. destruct (forallb _ _); [|apply calls_ext_refl]. apply fold_ext. intros. apply client_error_ext.
  - unfold rpc_stop. cbn [detached with_ongoing with_client rc_calls].
    change (rc_calls s) with (rc_calls (with_stopped s)). apply fold_ext. intros. apply calls_ext_alter.
Qed.

Lemma rpc_run_ext evs s : calls_ext (rc_calls s) (rc_calls (run_ evs s).1).
Proof using Type.
  revert s. induction evs as [|e evs IH]; intros s; [apply calls_ext_refl|]. cbn. pose proof (rpc_step_ext e s) as Hs.
  destruct (step_ e s) as [s1 out1]. specialize (IH s1). destruct (run_ evs s1) as [s2 out2]. by eapply calls_ext_trans.
Qed.

(** A remote call settles once and for a reason: it resolves to a value only because a response without error carrying its request id,
    which its method can read as that value, arrived (a notification: because its message was sent), it is rejected because
    an error response, an unreadable one, a failure to send, a disconnection of its target, its own timeout or the stop of
    the communicator occurred, with the error that tells which; and whatever happens next, it stays as it settled. *)
Theorem rpc_calls_settle_for_a_reason timeout evs s out n c :
  rpc_life timeout evs s out → rc_calls s !! n = Some c →
  (∃ now, called evs now c) ∧ settled_for_reason ownServiceId fromBinary timeout evs n c ∧
  ∀ evs', ca_state c ≠ PENDING → rc_calls (run_ evs' s).1 !! n = Some c.
Proof using Type.
  intros Hlife%rpc_life_inv Hc. split_and!.
  - destruct (inv_called _ _ _ _ _ Hlife n c Hc) as (now & ? & _). by exists now.
  - by apply (inv_reason _ _ _ _ _ Hlife).
  - intros evs' Hp. destruct (rpc_run_ext evs' s n c Hc) as (c' & -> & [->|[d ->]]); [done|]. f_equal.
    unfold set_deferred, settle_deferred. by destruct c as [? ? ? ? []].
Qed.

(** C23: no remote call hangs while the communicator runs: a pending request ends at the latest when its timer fires, which is
    due [timeout] after the call; a pending notification ends when the transport has finished, well or badly, with its message;
    and stopping the communicator rejects every request that is pending. *)
Theorem no_call_hangs timeout evs s out n c :
  rpc_life timeout evs s out → rc_stopped s = false → rc_calls s !! n = Some c → ca_state c = PENDING →
  if cc_notification (ca_context c)
  then ∀ now result, ∃ c', rc_calls (step_ (now, ESendSettled n result) s).1 !! n = Some c' ∧
    ca_state c' = match result with Return _ => RESOLVED None | Throw error => REJECTED error SERVER_ERROR end
  else (∃ began, called evs began c ∧ ∀ now, (began + timeout_of timeout c ≤ now)%Z →
         ∃ c', rc_calls (step_ (now, EClientTimeout n) s).1 !! n = Some c' ∧
           ca_state c' = REJECTED (RpcTimeout (Some "Rpc request timed out")) DEADLINE_EXCEEDED) ∧
       ∀ now, ∃ c', rc_calls (step_ (now, EStop) s).1 !! n = Some c' ∧ ca_state c' = REJECTED stopped_error STOPPED.
Proof using Type.
  intros Hinv%rpc_life_inv Hs Hc Hp.
  destruct (inv_pending _ _ _ _ _ Hinv n c Hc Hp) as [Hmap|[[Hnot Hn]|[? _]]]; [| |congruence].
  - destruct (inv_ongoing _ _ _ _ _ Hinv _ _ Hmap) as (c' & d & Hc' & _ & _ & _ & Hnot & Ht). cbn in Hc', Ht.
    assert (c' = c) as -> by congruence. rewrite Hnot.
    destruct (inv_called _ _ _ _ _ Hinv n c Hc) as (began & Hcalled & Htimer). destruct (Htimer _ _ Ht) as [_ ->].
    split; [exists began; split; [done|]|]; intros now.
    + intros Hd%Z.leb_le. cbn [rpc_step fst]. unfold client_timeout. rewrite Ht, Hd. cbn.
      rewrite lookup_alter_list, decide_True, Hc by done. eexists. split; [done|]. cbn. by rewrite Hp.
    + cbn [rpc_step fst]. unfold rpc_stop. cbn [detached with_ongoing with_client rc_calls].
      destruct (reject_all_spec (rc_ongoing s) (with_stopped s)) as (_ & _ & Hcalls & _). cbn zeta in Hcalls. rewrite Hcalls, decide_True.
      * cbn. rewrite Hc. eexists. split; [done|]. cbn. by rewrite Hp.
      * apply list_elem_of_fmap. exists (ca_requestId c, MkOngoing n (ca_context c)). split; [done|].
        by apply map_get_Some; [apply (inv_keys _ _ _ _ _ Hinv)|].
  - rewrite Hnot. intros now result.
    assert (map_has (ca_requestId c) (rc_ongoing s) = false) as Hhas.
    { rewrite map_has_get. apply bool_decide_eq_false. intros [r Hr].
      destruct (inv_ongoing _ _ _ _ _ Hinv _ _ Hr) as (c' & d & Hc' & Hid & _ & _ & Hnot' & _).
      assert (c' = c) as ->; [|congruence]. assert (or_call r = n) as Heq; [|congruence].
      eapply NoDup_lookup; [exact (inv_ids _ _ _ _ _ Hinv)|..]; rewrite list_lookup_fmap; [by rewrite Hc'|by rewrite Hc; cbn; congruence]. }
    cbn [rpc_step fst]. unfold rpc_send_settled. rewrite Hc, decide_True by done. cbn zeta.
    destruct result as [[]|error]; cbn; rewrite Hhas; cbn; rewrite ?Hhas; cbn.
    + rewrite lookup_alter_list, decide_True, Hc by done. eexists. split; [done|]. cbn. by rewrite Hp.
    + rewrite !lookup_alter_list, !decide_True, Hc by done. eexists. split; [done|]. cbn. unfold settle_deferred at 2. by rewrite Hp.
Qed.

(** A call made after the stop stays pending for ever, although [onOutgoingMessage] means to reject it: nobody listens to
    [rpcRequest] any more. *)
Definition abandoned n s : Prop :=
  rc_stopped s = true ∧ rc_attached s = false ∧ rc_ongoing s = [] ∧ rc_timers s !! n = None ∧ n ∉ rc_sends s ∧
  ∃ c, rc_calls s !! n = Some c ∧ ca_state c = PENDING.

Lemma abandoned_serving n s s' : (∃ serving, s' = with_serving serving s) → abandoned n s → abandoned n s'.
Proof using Type. intros [serving ->]. done. Qed.

Lemma abandoned_step n e s : abandoned n s → abandoned n (step_ e s).1.
Proof using Type.
  intros Hab. pose proof Hab as (Hs & Hat & Hon & Ht & Hn & c & Hc & Hp).
  destruct e as [now [|name t|name t|method input options id|k result|message|k|h r|h|peer|]]; cbn [rpc_step fst]; try done.
  - unfold unary. destruct (cc_isProtoRpc options); [|done]. cbn [negb]. cbn zeta. change (rc_attached (with_calls _ s)) with (rc_attached s).
    rewrite Hat. split_and!; try done. exists c. split; [by apply lookup_app_l_Some|done].
  - unfold rpc_send_settled. destruct (rc_calls s !! k) as [ck|] eqn:Hck; [|done]. case_decide as Hk; [|done]. cbn zeta.
    assert (k ≠ n) as Hkn by (by intros ->).
    destruct result as [|error]; cbn; rewrite ?Hon; cbn; rewrite ?Hon; (split_and!; [done|done|done|done|set_solver|]);
      exists c; cbn; rewrite ?lookup_alter_list; repeat (rewrite (decide_False (P := k = n)) by done); done.
  - unfold handleMessageFromPeer, handleIncomingMessage. case_match; [|done]. case_decide; [|done]. by rewrite Hs.
  - unfold client_timeout. destruct (rc_timers s !! k) as [[id d]|] eqn:Hk; [|done]. case_match; [|done].
    assert (k ≠ n) as Hkn by (intros ->; congruence). cbn. rewrite Hon. split_and!; try done.
    + cbn. by rewrite lookup_delete_ne.
    + exists c. cbn. by rewrite lookup_alter_list, decide_False.
  - by eapply abandoned_serving; [apply serve_end_serving|].
  - by eapply abandoned_serving; [apply server_timeout_serving|].
  - unfold on_peer_disconnected, getRequestIds. rewrite Hon. cbn. done.
  - unfold rpc_stop. cbn zeta. change (rc_ongoing (with_stopped s)) with (rc_ongoing s). rewrite Hon. cbn. split_and!; try done. by exists c.
Qed.

Lemma call_after_stop_hangs timeout evs s out now method input options requestId evs' :
  rpc_life timeout evs s out → rc_stopped s = true → cc_isProtoRpc options = true →
  let n := length (rc_calls s) in
  (unary ownServiceId pack_request now method input options requestId s).2 = Return n ∧
  ∃ c, rc_calls (run_ ((now, ECall method input options requestId) :: evs') s).1 !! n = Some c ∧ ca_state c = PENDING.
Proof using Type.
  intros Hinv%rpc_life_inv Hs Hrpc n.
  assert (abandoned n (step_ (now, ECall method input options requestId) s).1) as Hab.
  { cbn [rpc_step fst]. unfold unary. rewrite Hrpc. cbn [negb]. cbn zeta. change (rc_attached (with_calls _ s)) with (rc_attached s).
    pose proof (inv_attached _ _ _ _ _ Hinv) as Hat. rewrite Hs in Hat. cbn in Hat. rewrite Hat.
    destruct (inv_stopped _ _ _ _ _ Hinv Hs) as [Hon _]. split_and!; try done; cbn.
    - destruct (rc_timers s !! n) as [[id d]|] eqn:Ht; [|done]. destruct (inv_timers _ _ _ _ _ Hinv _ _ _ Ht) as [ctx Hctx].
      by rewrite Hon in Hctx.
    - intros Hin. destruct (inv_sends _ _ _ _ _ Hinv _ Hin) as (c' & Hc' & _). apply lookup_lt_Some in Hc'. unfold n in Hc'. lia.
    - eexists. rewrite lookup_app_r, Nat.sub_diag by done. done. }
  split.
  - unfold unary. rewrite Hrpc. cbn [negb]. cbn zeta. by destruct (if rc_attached _ then _ else _).
  - cbn [rpc_run]. destruct (step_ (now, ECall method input options requestId) s) as [s1 out1]. cbn [fst] in Hab.
    revert s1 out1 Hab. clear. induction evs' as [|e evs IH]; intros s1 out1 Hab; cbn [rpc_run].
    + by destruct Hab as (_ & _ & _ & _ & _ & ?).
    + pose proof (abandoned_step n e s1 Hab) as Hab'. destruct (step_ e s1) as [s2 out2].
      specialize (IH s2 out2 Hab'). by destruct (run_ evs s2).
Qed.

(** * What is sent and what is served *)

(** The request that call [c] sends *)
Definition request_of c : RpcMessage :=
  MkRpc (request_headers (ca_method c) (cc_notification (ca_context c))) (Some (pack_request (ca_method c) (ca_input c)))
    (ca_requestId c) None None None None.

(** The handler of [h] was called with the input of the request. *)
Definition invoked (out : list (rpc_output V)) h (v : serving) : Prop :=
  ∃ method input, truthy (rm_header (sv_request v) !! "method") = Some method ∧
    (rm_body (sv_request v) ≫= unpack_request method) = Some input ∧ Invoked h method input (sv_context v) ∈ out.

Definition sent_for_reason evs s out (m : RpcMessage) : Prop :=
  (∃ n c, rc_calls s !! n = Some c ∧ m = request_of c) ∨
  (∃ h v r, rc_serving s !! h = Some v ∧ sv_open v = false ∧ sv_notification v = false ∧ m = response_of pack_response (sv_request v) r ∧
     match r with Return _ => invoked out h v ∧ ∃ now, (now, EHandlerSettled h r) ∈ evs | Throw _ => True end).

(** The requests that were answered *)
Definition responses_in (out : list (rpc_output V)) : list string :=
  omap (λ o, match o with
             | SendFn (MkMessage _ (Some m) _ _) _ => (λ _, rm_requestId m) <$> rm_header m !! "response"
             | _ => None
             end) out.
Definition answered (l : list serving) : list string :=
  (λ v, rm_requestId (sv_request v)) <$> filter (λ v, sv_open v = false ∧ sv_notification v = false) l.

Record server_inv evs s out : Prop := {
  srv_received : ∀ h v, rc_serving s !! h = Some v → ∃ now message, (now, EMessage message) ∈ evs ∧ me_serviceId message = ownServiceId ∧
    me_rpcMessage message = Some (sv_request v) ∧ is_Some (truthy (rm_header (sv_request v) !! "request"));
  srv_open : ∀ h v, rc_serving s !! h = Some v → sv_open v = true → invoked out h v;
  srv_sent : ∀ m o, SendFn m o ∈ out → ∃ rm, me_rpcMessage m = Some rm ∧ me_serviceId m = ownServiceId ∧ sent_for_reason evs s out rm;
  srv_listening : (∃ now, (now, EListen) ∈ evs) → rc_listening s = true;
  srv_answered : head evs = None ∨ (∃ now, head evs = Some (now, EListen)) → rc_stopped s = false → responses_in out ≡ₚ answered (rc_serving s) }.

Lemma invoked_app out out' h v : invoked out h v → invoked (out ++ out') h v.
Proof using Type. intros (method & input & ? & ? & ?). exists method, input. split_and!; [done..|]. apply elem_of_app. by left. Qed.

(** The servings of [l] are in [l'], where some may have ended. *)
Definition servings_ext (l l' : list serving) : Prop :=
  ∀ h v, l !! h = Some v → ∃ v', l' !! h = Some v' ∧ sv_request v' = sv_request v ∧ sv_context v' = sv_context v ∧
    sv_notification v' = sv_notification v ∧ (sv_open v = false → sv_open v' = false).

Lemma request_of_set d c : request_of (set_deferred d c) = request_of c.
Proof using Type. done. Qed.

Lemma sent_mono evs e s s' out out' m : calls_ext (rc_calls s) (rc_calls s') → servings_ext (rc_serving s) (rc_serving s') →
  sent_for_reason evs s out m → sent_for_reason (evs ++ [e]) s' (out ++ out') m.
Proof using Type.
  intros Hc Hs [(n & c & Hn & ->)|(h & v & r & Hv & Hopen & Hnot & -> & Hr)].
  - left. destruct (Hc n c Hn) as (c' & Hc' & [->|[d ->]]); [by exists n, c|by exists n, (set_deferred d c)].
  - right. destruct (Hs h v Hv) as (v' & Hv' & Hreq & Hctx & Hnot' & Hopen'). exists h, v', r. rewrite Hreq, Hnot', Hopen' by done.
    split_and!; [done..|]. destruct r as [value|]; [|done]. destruct Hr as [Hi [now Hin]]. split.
    + apply invoked_app. unfold invoked in *. by rewrite Hreq, Hctx.
    + exists now. apply elem_of_app. by left.
Qed.

Lemma servings_ext_refl l : servings_ext l l.
Proof using Type. intros h v Hv. by exists v. Qed.

Lemma responses_app out out' : responses_in (out ++ out') = responses_in out ++ responses_in out'.
Proof using Type. unfold responses_in. by rewrite omap_app. Qed.

Lemma answered_app l l' : answered (l ++ l') = answered l ++ answered l'.
Proof using Type. unfold answered. by rewrite filter_app, fmap_app. Qed.

(** ** Every step keeps it *)

Lemma outgoing_flags now message context d s :
  rc_stopped (onOutgoingMessage ownServiceId now message context d s).1 = rc_stopped s ∧
  rc_listening (onOutgoingMessage ownServiceId now message context d s).1 = rc_listening s ∧
  rc_serving (onOutgoingMessage ownServiceId now message context d s).1 = rc_serving s.
Proof using Type.
  unfold onOutgoingMessage, registerRequest. destruct (rc_stopped s) eqn:Hs, d as [n|]; cbn; rewrite ?Hs; try done;
    destruct (cc_notification context), (rc_listening s) eqn:Hl; cbn; rewrite ?Hl; cbn; try done; repeat case_match; done.
Qed.

Lemma fold_flags {A} (f : RpcCommunicator V → A → RpcCommunicator V) (l : list A) s :
  (∀ s x, rc_stopped (f s x) = rc_stopped s ∧ rc_listening (f s x) = rc_listening s ∧ rc_serving (f s x) = rc_serving s) →
  rc_stopped (foldl f s l) = rc_stopped s ∧ rc_listening (foldl f s l) = rc_listening s ∧ rc_serving (foldl f s l) = rc_serving s.
Proof using Type.
  intros Hf. revert s. induction l as [|x l IH]; intros s; [done|]. cbn. destruct (IH (f s x)) as (-> & -> & ->). apply Hf.
Qed.

Lemma client_error_flags id error s : rc_stopped (handleClientError id error s) = rc_stopped s ∧
  rc_listening (handleClientError id error s) = rc_listening s ∧ rc_serving (handleClientError id error s) = rc_serving s.
Proof using Type. unfold handleClientError. destruct (rc_stopped s) eqn:Hs; [done|]. by case_match. Qed.

(** What concerns the client's side leaves the other alone. *)
Definition client_event (ev : rpc_event V) : bool :=
  match ev with EMessage _ | EHandlerSettled _ _ | EServerTimeout _ => false | _ => true end.

Lemma client_event_serving e s : client_event e.2 = true → rc_serving (step_ e s).1 = rc_serving s.
Proof using Type.
  destruct e as [now [|name t|name t|method input options id|n result|message|n|h r|h|peer|]]; cbn [rpc_step fst snd client_event]; try done; intros _.
  - unfold unary. destruct (cc_isProtoRpc options); [|done]. cbn [negb]. cbn zeta. destruct (rc_attached _); [|done].
    set (s0 := with_calls _ s). set (m := MkRpc _ _ _ _ _ _ _).
    pose proof (outgoing_flags now m options (Some (length (rc_calls s))) s0) as Ho.
    destruct (onOutgoingMessage ownServiceId now m options (Some (length (rc_calls s))) s0). apply Ho.
  - unfold rpc_send_settled. destruct (rc_calls s !! n) as [c|]; [|done]. destruct (decide (n ∈ rc_sends s)); [|done]. cbn zeta.
    destruct result as [|error]; [by case_match|].
    set (s0 := with_sends _ s). destruct (map_has (ca_requestId c) (rc_ongoing s0)); [|by case_match].
    destruct (client_error_flags (ca_requestId c) error s0) as (_ & _ & Hs). by case_match.
  - unfold client_timeout. repeat case_match; done.
  - unfold on_peer_disconnected. destruct (forallb _ _); [|done]. apply fold_flags. intros. apply client_error_flags.
  - unfold rpc_stop. cbn [detached with_ongoing with_client rc_serving]. by apply (fold_flags _ _ (with_stopped s)).
Qed.

Lemma step_flags e s : (rc_stopped s = true → rc_stopped (step_ e s).1 = true) ∧ (rc_listening s = true → rc_listening (step_ e s).1 = true).
Proof using Type.
  destruct e as [now [|name t|name t|method input options id|n result|message|n|h r|h|peer|]]; cbn [rpc_step fst]; try done.
  - unfold unary. destruct (cc_isProtoRpc options); [|done]. cbn [negb]. cbn zeta. destruct (rc_attached _); [|done].
    set (s0 := with_calls _ s). set (m := MkRpc _ _ _ _ _ _ _).
    pose proof (outgoing_flags now m options (Some (length (rc_calls s))) s0) as (Ho & Ho' & _).
    destruct (onOutgoingMessage ownServiceId now m options (Some (length (rc_calls s))) s0). cbn in *. by rewrite Ho, Ho'.
  - unfold rpc_send_settled. destruct (rc_calls s !! n) as [c|]; [|done]. destruct (decide (n ∈ rc_sends s)); [|done]. cbn zeta.
    destruct result as [|error]; [by case_match|].
    set (s0 := with_sends _ s). destruct (map_has (ca_requestId c) (rc_ongoing s0)); [|by case_match].
    destruct (client_error_flags (ca_requestId c) error s0) as (Hs & Hl & _). case_match; cbn; by rewrite Hs, Hl.
  - unfold handleMessageFromPeer. case_match; [|done]. case_decide; [|done].
    unfold handleIncomingMessage, onIncomingMessage. case_match; [done|].
    case_match; [|case_match; [case_match; edestruct serve_serving as [serving Hs]; unfold handleRequest, handleNotification; rewrite Hs; done|done]].
    cbn. unfold rejectOngoingRequest, resolveOngoingRequest, resolveRequest. repeat case_match; done.
  - unfold client_timeout. repeat case_match; done.
  - edestruct serve_end_serving as [serving Hs]. by rewrite Hs.
  - edestruct server_timeout_serving as [serving Hs]. by rewrite Hs.
  - unfold on_peer_disconnected. destruct (forallb _ _); [|done].
    edestruct (fold_flags (λ s id, handleClientError id (Disconnected (Some "Peer disconnected")) s)) as (Hs & Hl & _);
      [intros; apply client_error_flags|]. by rewrite Hs, Hl.
  - unfold rpc_stop. cbn [detached with_ongoing with_client rc_stopped rc_listening].
    edestruct (fold_flags (λ s (x : string * OngoingRequest), rejectRequest (or_call x.2) stopped_error STOPPED s)) as (Hs & Hl & _);
      [done|]. by rewrite Hs, Hl.
Qed.

(** What one step adds: the messages sent, and the requests that it answers *)
Record server_step evs e s out s' out' : Prop := {
  step_ext : servings_ext (rc_serving s) (rc_serving s');
  step_new : ∀ h v, rc_serving s' !! h = Some v → rc_serving s !! h = Some v ∨
     (∃ v0, rc_serving s !! h = Some v0 ∧ sv_request v0 = sv_request v ∧ sv_open v = false) ∨
     (∃ now message, e = (now, EMessage message) ∧ me_serviceId message = ownServiceId ∧ me_rpcMessage message = Some (sv_request v) ∧
        is_Some (truthy (rm_header (sv_request v) !! "request")) ∧ (sv_open v = true → invoked (out ++ out') h v));
  step_sent : ∀ m o, SendFn m o ∈ out' → ∃ rm, me_rpcMessage m = Some rm ∧ me_serviceId m = ownServiceId ∧
     sent_for_reason (evs ++ [e]) s' (out ++ out') rm;
  step_answered : rc_listening s = true → rc_stopped s' = false →
     responses_in out' ++ answered (rc_serving s) ≡ₚ answered (rc_serving s') }.

Lemma server_step_inv evs e s out s' out' : server_inv evs s out → step_ e s = (s', out') →
  server_step evs e s out s' out' → server_inv (evs ++ [e]) s' (out ++ out').
Proof using Type.
  intros [Hrec Hopen Hsent Hlis Hans] Hstep [Hservs Hnew Hadd Hcount].
  pose proof (step_flags e s) as [Hstop Hlisten]. pose proof (rpc_step_ext e s) as Hcalls. rewrite Hstep in Hstop, Hlisten, Hcalls. cbn in Hstop, Hlisten, Hcalls.
  assert (∀ now message, (now, EMessage message) ∈ evs → (now, EMessage message) ∈ evs ++ [e]) as Hin by (intros; apply elem_of_app; by left).
  split.
  - intros h v [Hv|[(v0 & Hv0 & <- & _)|(now & message & -> & ? & ? & ? & _)]]%Hnew.
    + destruct (Hrec h v Hv) as (now & message & ? & ?). exists now, message. auto.
    + destruct (Hrec h v0 Hv0) as (now & message & ? & ?). exists now, message. auto.
    + exists now, message. split_and!; [|done..]. apply elem_of_app. right. by apply list_elem_of_singleton.
  - intros h v [Hv|[(v0 & Hv0 & _ & Hf)|(now & message & _ & _ & _ & _ & Hi)]]%Hnew Ho; [|congruence|by apply Hi].
    apply invoked_app. by apply Hopen.
  - intros m o [Hm|Hm]%elem_of_app; [|by apply (Hadd m o)]. destruct (Hsent m o Hm) as (rm & ? & ? & ?). exists rm. split_and!; [done..|].
    by eapply sent_mono.
  - intros [now [Hl|Hl]%elem_of_app]; [apply Hlisten, Hlis; by exists now|]. apply list_elem_of_singleton in Hl as <-.
    cbn in Hstep. by injection Hstep as <- _.
  - intros Hhead Hrun. destruct evs as [|e0 evs].
    + destruct Hhead as [?|[now Hhead]]; [done|]. cbn in Hhead. injection Hhead as ->. cbn in Hstep. injection Hstep as <- <-.
      rewrite app_nil_r. apply Hans; [by left|done].
    + destruct Hhead as [?|[now Hhead]]; [done|]. cbn in Hhead. injection Hhead as ->. rewrite responses_app, Hans.
      * rewrite (comm app). apply Hcount; [|done]. apply Hlis. exists now. left.
      * right. by exists now.
      * destruct (rc_stopped s); [by rewrite Hstop in Hrun|done].
Qed.

Lemma quiet_step evs e s out s' : rc_serving s' = rc_serving s → server_step evs e s out s' [].
Proof using Type.
  intros Hs. split; rewrite ?Hs; [apply servings_ext_refl|by left|by intros m o ?%not_elem_of_nil|done].
Qed.

Lemma unary_sent now method input options id s : let '(s', out', _) := unary ownServiceId pack_request now method input options id s in
  out' = [] ∨ ∃ c opts, rc_calls s' !! length (rc_calls s) = Some c ∧
    out' = [SendFn (MkMessage ownServiceId (Some (request_of c)) (match cc_target options with Some t => Some t | None => cc_source options end) None) opts].
Proof using Type.
  unfold unary. destruct (cc_isProtoRpc options); [|by left]. cbn [negb]. cbn zeta. destruct (rc_attached _); [|by left].
  set (c := MkCall method input id options PENDING). set (m := MkRpc _ _ _ _ _ _ _).
  unfold onOutgoingMessage, registerRequest. cbn. destruct (rc_stopped s) eqn:Hs; [by left|].
  assert (∀ l : list (rpc_call V), l = rc_calls s ++ [c] → l !! length (rc_calls s) = Some c) as Hl
    by (intros l ->; by rewrite lookup_app_r, Nat.sub_diag by done).
  destruct (cc_notification options) eqn:Hn, (rc_listening s) eqn:Hlis; cbn; rewrite ?Hs; cbn; rewrite ?Hlis; cbn;
    try (by left); right; exists c; eexists; (split; [by apply Hl|]); unfold request_of; cbn; by rewrite Hn.
Qed.

Lemma response_header request r : rm_header (response_of pack_response request r) !! "response" = Some "response".
Proof using Type.
  unfold response_of, createResponseRpcMessage. set (p := match r with Return _ => _ | Throw _ => _ end). cbn.
  destruct (rm_header (rp_request p) !! "method"); cbn; [rewrite lookup_insert_ne by done|]; apply lookup_singleton_eq.
Qed.

Lemma response_id request r : rm_requestId (response_of pack_response request r) = rm_requestId request.
Proof using Type. unfold response_of. destruct r as [|e]; [done|]. unfold error_params. by repeat case_decide. Qed.

Lemma request_header c : rm_header (request_of c) !! "response" = None.
Proof using Type. cbn. unfold request_headers. destruct (cc_notification _); by rewrite !lookup_insert_ne by done. Qed.

Lemma responses_response request r target opts :
  responses_in [SendFn (MkMessage ownServiceId (Some (response_of pack_response request r)) target None) opts] = [rm_requestId request].
Proof using Type. unfold responses_in. cbn [omap list_omap]. rewrite response_header, response_id. done. Qed.

Lemma responses_request c target opts : responses_in [SendFn (MkMessage ownServiceId (Some (request_of c)) target None) opts] = [].
Proof using Type. unfold responses_in. cbn [omap list_omap]. by rewrite request_header. Qed.

(** A serving that ends *)
Lemma answered_close l h v v' : l !! h = Some v → sv_open v = true → sv_open v' = false → sv_request v' = sv_request v →
  sv_notification v' = sv_notification v →
  answered (<[h := v']> l) ≡ₚ (if sv_notification v then [] else [rm_requestId (sv_request v)]) ++ answered l.
Proof using Type.
  intros Hv Ho Ho' Hr Hn. assert (h < length l) as Hlt by by eapply lookup_lt_Some.
  rewrite <-(take_drop_middle l h v Hv) at 2. rewrite insert_take_drop by done. rewrite !answered_app.
  assert (answered (v :: drop (S h) l) = answered (drop (S h) l)) as Hv1.
  { unfold answered. rewrite filter_cons_False; [done|]. intros [? _]. congruence. }
  assert (answered (v' :: drop (S h) l) = (if sv_notification v then [] else [rm_requestId (sv_request v)]) ++ answered (drop (S h) l)) as Hv2.
  { unfold answered. destruct (sv_notification v) eqn:Hnot.
    - rewrite filter_cons_False; [done|]. intros [_ ?]. congruence.
    - rewrite filter_cons_True by (split; congruence). cbn. by rewrite Hr. }
  rewrite Hv1, Hv2, !(assoc app). by rewrite (comm app (answered (take h l))).
Qed.

Lemma serve_end_step evs e s out now h r :
  (∀ v, rc_serving s !! h = Some v → sv_open v = true →
     match r with Return _ => invoked out h v ∧ ∃ now, (now, EHandlerSettled h r) ∈ evs ++ [e] | Throw _ => True end) →
  server_step evs e s out (serve_end ownServiceId pack_response now h r s).1 (serve_end ownServiceId pack_response now h r s).2.
Proof using Type.
  intros Hr. rewrite serve_end_spec.
  destruct (rc_serving s !! h) as [[request context notification t d []]|] eqn:Hh; cbn [fst snd]; [|by apply quiet_step..].
  set (v := MkServing request context notification t d true). set (v' := MkServing request context notification t d false).
  assert (∀ k w, <[h := v']> (rc_serving s) !! k = Some w → (k = h ∧ w = v') ∨ (k ≠ h ∧ rc_serving s !! k = Some w)) as Hcases.
  { intros k w. destruct (decide (k = h)) as [->|Hk]; [|rewrite list_lookup_insert_ne by done; by right].
    rewrite list_lookup_insert_eq by (by eapply lookup_lt_Some). intros [= <-]. by left. }
  assert (<[h := v']> (rc_serving s) !! h = Some v') as Hnew by (apply list_lookup_insert_eq; by eapply lookup_lt_Some).
  split; cbn [with_serving rc_serving rc_stopped].
  - intros k w Hk. destruct (decide (k = h)) as [->|Hne]; [|exists w; by rewrite list_lookup_insert_ne].
    rewrite Hh in Hk. injection Hk as <-. exists v'. split; [done|by split_and!].
  - intros k w [[-> ->]|[_ ?]]%Hcases; [|by left]. right; left. by exists v.
  - intros m o. destruct (negb notification) eqn:Hnot; [|by intros ?%not_elem_of_nil]. destruct (rc_stopped s), (rc_listening s); cbn;
      try by intros ?%not_elem_of_nil. intros [= -> ->]%list_elem_of_singleton. eexists. split; [done|]. split; [done|]. right.
    exists h, v', r. split; [done|]. split_and!; [done|by destruct notification|done|]. specialize (Hr v eq_refl eq_refl).
    destruct r as [value|]; [|done]. destruct Hr as [Hi ?]. split; [by apply invoked_app|done].
  - intros Hl Hs. rewrite Hl, Hs. rewrite (answered_close _ h v v') by done. cbn.
    destruct notification; cbn [negb andb]; [done|]. by rewrite responses_response.
Qed.

Lemma serve_spec now message context notification s : rc_stopped s = false →
  serve ownServiceId unpack_request pack_response now message context notification s =
    match parse_request unpack_request message (if notification then rc_notifications s else rc_methods s) with
    | Return (method, t, input) =>
        (with_serving (rc_serving s ++ [MkServing message context notification t (now + t)%Z true]) s,
         [Invoked (length (rc_serving s)) method input context])
    | Throw e =>
        (with_serving (rc_serving s ++ [MkServing message context notification 0 now false]) s,
         if negb notification && rc_listening s
         then [let '(m, o) := routing_outgoing ownServiceId (response_of pack_response message (Throw e)) context in SendFn m o] else [])
    end.
Proof using Type.
  intros Hs. unfold serve. rewrite Hs. destruct (parse_request _ _ _) as [[[method t] input]|e]; [done|].
  rewrite serve_end_spec. cbn [with_serving rc_serving rc_stopped rc_listening]. rewrite lookup_app_r, Nat.sub_diag by done. cbn.
  rewrite Hs, insert_app_r_alt, Nat.sub_diag by done. cbn. by rewrite andb_true_r.
Qed.

Lemma answered_one v : answered [v] = if negb (sv_open v) && negb (sv_notification v) then [rm_requestId (sv_request v)] else [].
Proof using Type. destruct v as [? ? [] ? ? []]; done. Qed.

Lemma servings_ext_app l l' : servings_ext l (l ++ l').
Proof using Type. intros h v Hv. exists v. split; [by apply lookup_app_l_Some|by split_and!]. Qed.

(** A message that was received is served. *)
Lemma serve_step evs s out now now' message rm context notification :
  me_serviceId message = ownServiceId → me_rpcMessage message = Some rm → is_Some (truthy (rm_header rm !! "request")) →
  rc_stopped s = false →
  let e := (now', EMessage message) in
  server_step evs e s out (serve ownServiceId unpack_request pack_response now rm context notification s).1
    (serve ownServiceId unpack_request pack_response now rm context notification s).2.
Proof using Type.
  intros Hservice Hrpc Hreq Hs e. rewrite serve_spec by done.
  set (known := match parse_request unpack_request rm (if notification then rc_notifications s else rc_methods s) with Return _ => true | Throw _ => false end).
  assert (∀ l (v : serving) h w, (l ++ [v]) !! h = Some w → l !! h = Some w ∨ (h = length l ∧ w = v)) as Hcases.
  { intros l v h w [?|[Hh Hw]]%lookup_app_Some; [by left|]. apply list_lookup_singleton_Some in Hw as [? <-]. right. split; [lia|done]. }
  destruct (parse_request _ _ _) as [[[method t] input]|error] eqn:Hparse; cbn [fst snd].
  - split; cbn [with_serving rc_serving].
    + apply servings_ext_app.
    + intros h v [?|[-> ->]]%Hcases; [by left|]. right; right. exists now', message. split_and!; [done..|]. intros _.
      exists method, input. unfold parse_request, getImplementation in Hparse. cbn.
      destruct (truthy (rm_header rm !! "method")) as [method'|]; [|done]. destruct (_ !! method') as [t'|]; [|done].
      destruct (rm_body rm ≫= unpack_request method') as [input'|] eqn:Hb; [|done]. injection Hparse as -> -> ->.
      split_and!; [done..|]. apply elem_of_app. right. by apply list_elem_of_singleton.
    + by intros m o [=]%list_elem_of_singleton.
    + intros _ _. rewrite answered_app, answered_one. cbn. by rewrite (right_id_L [] (++)).
  - split; cbn [with_serving rc_serving rc_stopped].
    + apply servings_ext_app.
    + intros h v [?|[-> ->]]%Hcases; [by left|]. right; right. by exists now', message.
    + intros m o. destruct notification; cbn; [by intros ?%not_elem_of_nil|]. destruct (rc_listening s); cbn; [|by intros ?%not_elem_of_nil].
      intros [= -> ->]%list_elem_of_singleton. eexists. split_and!; [done..|]. right. eexists (length (rc_serving s)), _, (Throw error). cbn.
      rewrite lookup_app_r, Nat.sub_diag by done. split_and!; done.
    + intros -> _. rewrite answered_app, answered_one. cbn [sv_open sv_notification sv_request]. destruct notification; cbn [negb andb].
      * by rewrite (right_id_L [] (++)).
      * cbn [routing_outgoing]. rewrite responses_response. by rewrite (comm (++)).
Qed.

Lemma server_step_ok evs e s out : server_inv evs s out → server_step evs e s out (step_ e s).1 (step_ e s).2.
Proof using Type.
  intros Hinv. destruct (client_event e.2) eqn:Hclient.
  - pose proof (client_event_serving e s Hclient) as Hs. destruct e as [now [|name t|name t|method input options id|n result|message|n|h r|h|peer|]]; try done;
      try (apply quiet_step; exact Hs).
    cbn [rpc_step fst] in *. pose proof (unary_sent now method input options id s) as Hsent.
    destruct (unary _ _ _ _ _ _ _ _) as [[s' out'] r]. cbn in *. destruct Hsent as [->|(c & opts & Hc & ->)]; [by apply quiet_step|].
    split; rewrite ?Hs; [apply servings_ext_refl|by left| |intros _ _; by rewrite responses_request].
    intros m o [= -> ->]%list_elem_of_singleton. exists (request_of c). split_and!; [done..|]. left. by exists (length (rc_calls s)), c.
  - destruct e as [now [|name t|name t|method input options id|n result|message|n|h r|h|peer|]]; try done; cbn [rpc_step fst snd].
    + unfold handleMessageFromPeer. destruct (me_rpcMessage message) as [rm|] eqn:Hrm; [|by apply quiet_step]. case_decide as Hservice; [|by apply quiet_step].
      unfold handleIncomingMessage, onIncomingMessage. destruct (rc_stopped s) eqn:Hs; [by apply quiet_step|].
      case_match; [apply quiet_step; cbn; unfold rejectOngoingRequest, resolveOngoingRequest, resolveRequest; repeat case_match; done|].
      case_match eqn:Hreq; [|by apply quiet_step]. apply andb_true_iff in Hreq as [Hreq%bool_decide_eq_true _].
      case_match; by apply serve_step.
    + apply serve_end_step. intros v Hv Hopen. destruct r as [value|]; [|done]. split; [by apply (srv_open _ _ _ Hinv)|].
      exists now. apply elem_of_app. right. by apply list_elem_of_singleton.
    + unfold server_timeout. destruct (rc_serving s !! h) as [v|] eqn:Hv; [|by apply quiet_step]. case_match; [|by apply quiet_step].
      by apply serve_end_step.
Qed.

Lemma rpc_life_server timeout evs s out : rpc_life timeout evs s out → server_inv evs s out.
Proof using Type.
  induction 1 as [|evs s out e s' out' _ IH _ Hstep].
  - split; cbn; [done|done|by intros m o ?%not_elem_of_nil|by intros [now ?%not_elem_of_nil]|done].
  - eapply server_step_inv; [done|done|]. pose proof (server_step_ok evs e s out IH) as Hok. by rewrite Hstep in Hok.
Qed.

(** Every request is answered once: while the communicator runs, the responses that it has sent are those of the requests
    whose handling has ended, one for each request that arrived and none for a notification; and a request whose handler is still
    awaited is answered at the latest when its time is over. *)
Theorem requests_are_answered_once timeout t0 evs s out :
  rpc_life timeout ((t0, EListen) :: evs) s out → rc_stopped s = false →
  responses_in out ≡ₚ answered (rc_serving s) ∧
  ∀ h v now, rc_serving s !! h = Some v → sv_open v = true → (sv_deadline v ≤ now)%Z →
    let '(s', out') := step_ (now, EServerTimeout h) s in
    responses_in out' = (if sv_notification v then [] else [rm_requestId (sv_request v)]) ∧
    sv_open <$> rc_serving s' !! h = Some false.
Proof using Type.
  intros Hlife%rpc_life_server Hs. assert (rc_listening s = true) as Hl by (apply (srv_listening _ _ _ Hlife); exists t0; left).
  split; [apply (srv_answered _ _ _ Hlife); [right; by exists t0|done]|].
  intros h v now Hv Hopen Hd%Z.leb_le. cbn [rpc_step fst]. unfold server_timeout. rewrite Hv, Hd, serve_end_spec, Hv.
  destruct v as [request context notification t d open]. cbn in Hopen. subst open. rewrite Hs, Hl. cbn [sv_notification sv_request with_serving rc_serving].
  split; [destruct notification; cbn [negb andb]; [done|]; cbn [routing_outgoing]; by rewrite responses_response|].
  rewrite list_lookup_insert_eq by (by eapply lookup_lt_Some). done.
Qed.

Lemma request_header_request c : rm_header (request_of c) !! "request" = Some "request" ∧ rm_header (request_of c) !! "method" = Some (ca_method c).
Proof using Type. cbn. unfold request_headers. destruct (cc_notification _); split; by simplify_map_eq. Qed.

Lemma response_header_request request r : rm_header (response_of pack_response request r) !! "request" = None.
Proof using Type.
  unfold response_of, createResponseRpcMessage. cbn. destruct (rm_header _ !! "method"); cbn; by simplify_map_eq.
Qed.

Lemma response_error_type request (error : rpc_error) : is_Some (rm_errorType (response_of pack_response request (Throw error))).
Proof using Type. unfold response_of, error_params. repeat case_decide; by eexists. Qed.

Context (pack_unpack : ∀ method v, unpack_request method (pack_request method v) = Some v).
Context (pack_parse : ∀ method v, fromBinary method (any_value (pack_response method v)) = Some v).

(** A request that is served is one that its sender called. *)
Lemma served_request_called evsA sA outA evsB sB outB h v :
  server_inv evsA sA outA → server_inv evsB sB outB →
  (∀ now m, (now, EMessage m) ∈ evsB → ∃ m' o, SendFn m' o ∈ outA ∧ me_rpcMessage m' = me_rpcMessage m) →
  rc_serving sB !! h = Some v → ∃ n c, rc_calls sA !! n = Some c ∧ sv_request v = request_of c.
Proof using Type.
  intros HA HB Hnet Hv. destruct (srv_received _ _ _ HB h v Hv) as (now & m & Hin & _ & Hrm & Hreq).
  destruct (Hnet now m Hin) as (m' & o & Hsent & Heq). destruct (srv_sent _ _ _ HA m' o Hsent) as (rm & Hrm' & _ & Hreason).
  assert (rm = sv_request v) as -> by congruence. destruct Hreason as [(n & c & Hc & Hm)|(h' & v' & r & _ & _ & _ & Hm & _)]; [by exists n, c|].
  rewrite Hm, response_header_request in Hreq. by destruct Hreq.
Qed.

(** C22: the answer of a call comes from its handler: between two peers whose messages can be lost, delayed, reordered and
    duplicated, but not invented, a call that resolves to a value was carried out: a handler of the method was invoked on the
    other side with the input of the call, and it returned that value. *)
Theorem answers_come_from_the_handler timeoutA evsA sA outA timeoutB evsB sB outB n c v :
  rpc_life timeoutA evsA sA outA → rpc_life timeoutB evsB sB outB →
  (∀ now m, (now, EMessage m) ∈ evsA → ∃ m' o, SendFn m' o ∈ outB ∧ me_rpcMessage m' = me_rpcMessage m) →
  (∀ now m, (now, EMessage m) ∈ evsB → ∃ m' o, SendFn m' o ∈ outA ∧ me_rpcMessage m' = me_rpcMessage m) →
  rc_calls sA !! n = Some c → ca_state c = RESOLVED (Some v) →
  ∃ h ctx now, Invoked h (ca_method c) (ca_input c) ctx ∈ outB ∧ (now, EHandlerSettled h (Return v)) ∈ evsB.
Proof using pack_unpack pack_parse.
  intros HlifeA HlifeB HnetA HnetB Hc Hstate.
  pose proof (rpc_life_inv _ _ _ _ HlifeA) as HinvA. pose proof (rpc_life_server _ _ _ _ HlifeA) as HA.
  pose proof (rpc_life_server _ _ _ _ HlifeB) as HB.
  destruct (inv_reason _ _ _ _ _ HinvA n c Hc) as [Hp|Hr]; [congruence|]. rewrite Hstate in Hr.
  inversion Hr as [response value (now & message & Hin & _ & Hrm & [header Hheader] & Hid) Herr _ Hparse| | | | | | | |]; subst.
  destruct (HnetA now message Hin) as (m' & o & Hsent & Heq). destruct (srv_sent _ _ _ HB m' o Hsent) as (rm & Hrm' & _ & Hreason).
  assert (rm = response) as -> by congruence.
  destruct Hreason as [(n' & c' & _ & Hm)|(h & w & r & Hw & _ & _ & Hm & Hhandled)].
  { rewrite Hm, request_header in Hheader. done. }
  destruct (served_request_called _ _ _ _ _ _ _ _ HA HB HnetB Hw) as (n' & c' & Hc' & Hreq).
  assert (c' = c) as ->.
  { assert (n' = n) as ->; [|congruence]. eapply NoDup_lookup; [exact (inv_ids _ _ _ _ _ HinvA)|..]; rewrite list_lookup_fmap; [by rewrite Hc'|].
    rewrite Hc. cbn. rewrite <-Hid, Hm, response_id, Hreq. done. }
  destruct r as [value|e]; [|rewrite Hm in Herr; destruct (response_error_type (sv_request w) e) as [? He]; congruence].
  destruct Hhandled as [(method & input & Hmethod & Hbody & Hinv) [now' Hin']].
  destruct (request_header_request c) as [_ Hmc]. rewrite Hreq, Hmc in Hmethod. rewrite Hreq in Hbody.
  assert (method = ca_method c) as -> by (destruct (ca_method c); cbn in Hmethod; congruence).
  cbn in Hbody. rewrite pack_unpack in Hbody. injection Hbody as <-.
  assert (value = v) as ->.
  { rewrite Hm in Hparse. unfold response_of, method_of in Hparse. cbn in Hparse. rewrite Hreq, Hmc in Hparse. cbn in Hparse.
    rewrite pack_parse in Hparse. congruence. }
  by exists h, (sv_context w), now'.
Qed.
End life.

(** * Examples *)

Module RpcWitness.
Definition pack (method v : string) : Any := MkAny method v.
Definition unpack (method : string) (a : Any) : option string := Some (any_value a).
Definition parse (method bytes : string) : option string := Some bytes.
Notation run := (rpc_run "service" pack unpack pack parse).
Notation life := (rpc_life "service" pack unpack pack parse None).

Definition options : CallContext := client_options false (MkContext false false None (Some "b") None None None None).

(** Node a calls [ping] on node b. *)
Definition called_a : list (Z * rpc_event string) :=
  [(0%Z, EListen); (10%Z, ECall "ping" "hello" options "1"); (11%Z, ESendSettled 0 (Return tt))].
Definition ping : RpcMessage := MkRpc (request_headers "ping" false) (Some (pack "ping" "hello")) "1" None None None None.
Definition request : Message := MkMessage "service" (Some ping) (Some "b") (Some "a").
Definition events_b : list (Z * rpc_event string) :=
  [(0%Z, EListen); (0%Z, ERegisterMethod "ping" None); (20%Z, EMessage request); (25%Z, EHandlerSettled 0 (Return "world"))].
Definition response : Message :=
  MkMessage "service" (Some (response_of pack ping (Return "world"))) (Some "a") (Some "b").
Definition events_a : list (Z * rpc_event string) := called_a ++ [(30%Z, EMessage response)].

Lemma legal_events (evs : list (Z * rpc_event string)) : 
  Forall (λ e, match e.2 with ECall _ _ _ _ => False | _ => True end) evs → ∀ s, rpc_legal_run "service" pack unpack pack parse evs s.
Proof. induction 1 as [|e evs He _ IH]; intros s; [done|]. split; [|apply IH]. unfold rpc_legal. by destruct e as [? []]. Qed.

Lemma life_a : life events_a (run events_a (communicator_new None)).1 (run events_a (communicator_new None)).2.
Proof.
  apply rpc_life_of_run. split; [done|]. split; [apply not_elem_of_nil|]. apply legal_events. by repeat constructor.
Qed.

Lemma life_called : life called_a (run called_a (communicator_new None)).1 (run called_a (communicator_new None)).2.
Proof.
  apply rpc_life_of_run. split; [done|]. split; [apply not_elem_of_nil|]. apply legal_events. by repeat constructor.
Qed.

Lemma life_b : life events_b (run events_b (communicator_new None)).1 (run events_b (communicator_new None)).2.
Proof. apply rpc_life_of_run, legal_events. by repeat constructor. Qed.

Definition result (evs : list (Z * rpc_event string)) : list (deferred string) := ca_state <$> rc_calls (run evs (communicator_new None)).1.

(** The call resolves; without the response it is rejected after 5 seconds, and when node b disconnects, at once. *)
Example call_results :
  result events_a = [RESOLVED (Some "world")] ∧
  result (called_a ++ [(5009%Z, EClientTimeout 0)]) = [PENDING] ∧
  result (called_a ++ [(5010%Z, EClientTimeout 0)]) = [REJECTED (RpcTimeout (Some "Rpc request timed out")) DEADLINE_EXCEEDED] ∧
  result (called_a ++ [(20%Z, EDisconnected "b")]) = [REJECTED (Disconnected (Some "Peer disconnected")) SERVER_ERROR] ∧
  result (called_a ++ [(20%Z, EStop); (21%Z, ECall "ping" "again" options "2")]) = [REJECTED stopped_error STOPPED; PENDING].
Proof. vm_compute. done. Qed.

(** A handler whose own remote call timed out, or met an unknown method, makes its caller believe the same of this node. *)
Example nested_errors_are_misread : ∀ request message,
  rm_errorType (response_of pack request (Throw (RpcTimeout message))) = Some ESERVER_TIMEOUT ∧
  rm_errorType (response_of pack request (Throw (UnknownRpcMethod message))) = Some EUNKNOWN_RPC_METHOD.
Proof. done. Qed.

Lemma answers_come_from_the_handler_witness :
  ∃ h ctx now, Invoked h "ping" "hello" ctx ∈ (run events_b (communicator_new None)).2 ∧ (now, EHandlerSettled h (Return "world")) ∈ events_b.
Proof.
  apply (answers_come_from_the_handler "service" pack unpack pack parse (λ _ _, eq_refl) (λ _ _, eq_refl)
    None events_a _ _ None events_b _ _ 0 (MkCall "ping" "hello" "1" options (RESOLVED (Some "world"))) "world" life_a life_b).
  - intros now m Hin. assert (m = response) as ->.
    { apply list_elem_of_In in Hin. cbn in Hin. intuition congruence. }
    eexists _, _. split; [vm_compute; right; left|]. done.
  - intros now m Hin. assert (m = request) as ->.
    { apply list_elem_of_In in Hin. cbn in Hin. intuition congruence. }
    eexists _, _. split; [vm_compute; left|]. done.
  - vm_compute. done.
  - done.
Defined.

Definition resolved_call : rpc_call string := MkCall "ping" "hello" "1" options (RESOLVED (Some "world")).
Definition pending_call : rpc_call string := MkCall "ping" "hello" "1" options PENDING.

Lemma rpc_calls_settle_for_a_reason_witness :
  (∃ now, called events_a now resolved_call) ∧ settled_for_reason "service" parse None events_a 0 resolved_call ∧
  ∀ evs', ca_state resolved_call ≠ PENDING → rc_calls (run evs' (run events_a (communicator_new None)).1).1 !! 0 = Some resolved_call.
Proof.
  apply (rpc_calls_settle_for_a_reason "service" pack unpack pack parse None events_a _ _ 0 resolved_call life_a). vm_compute. done.
Defined.

Lemma no_call_hangs_witness :
  (∃ began, called called_a began pending_call ∧ ∀ now, (began + timeout_of None pending_call ≤ now)%Z →
     ∃ c', rc_calls (rpc_step "service" pack unpack pack parse (now, EClientTimeout 0) (run called_a (communicator_new None)).1).1 !! 0 = Some c' ∧
       ca_state c' = REJECTED (RpcTimeout (Some "Rpc request timed out")) DEADLINE_EXCEEDED) ∧
  ∀ now, ∃ c', rc_calls (rpc_step "service" pack unpack pack parse (now, EStop) (run called_a (communicator_new None)).1).1 !! 0 = Some c' ∧
    ca_state c' = REJECTED stopped_error STOPPED.
Proof.
  apply (no_call_hangs "service" pack unpack pack parse None called_a _ _ 0 pending_call life_called); vm_compute; done.
Defined.

Lemma requests_are_answered_once_witness :
  responses_in (run events_b (communicator_new None)).2 ≡ₚ answered (rc_serving (run events_b (communicator_new None)).1) ∧
  responses_in (run events_b (communicator_new None)).2 = ["1"].
Proof.
  split; [|vm_compute; done].
  apply (requests_are_answered_once "service" pack unpack pack parse None 0 _ _ _ life_b). vm_compute. done.
Defined.
End RpcWitness.
