(* ===== verification/Routing.v ===== *)
(** Routing messages through the DHT (packages/dht/src/dht/routing/): [RoutingSession], [RoutingTablesCache],
    [Router] and [RouterRpcLocal].

    A peer is its node id.  The LRU cache of the tables is a map from which the library may drop entries, an event of its
    own.  A request to a peer is an output, its answer an event. *)

From S2P Require Import Prelude.
From S2P Require Import Js.
From S2P Require Import JsMap.
From S2P Require Import Contacts.
From S2P Require Import Connections.

Set Default Proof Using "Type".

Definition MAX_FAILED_HOPS : nat := 2.
Definition ROUTING_TABLE_MAX_SIZE : nat := 5.

Inductive RoutingMode := ROUTE | FORWARD | RECURSIVE.
#[export] Instance routing_mode_eq_dec : EqDecision RoutingMode.
Proof. solve_decision. Defined.

(** [rm_message] is the payload, [rm_messageTarget] its own target. *)
Record RouteMessageWrapper := MkRouted {
  rm_requestId : string;
  rm_target : string;
  rm_sourcePeer : string;
  rm_routingPath : list string;
  rm_reachableThrough : list string;
  rm_parallelRootNodeIds : list string;
  rm_message : string;
  rm_messageTarget : string
}.

Notation routing_table := (@SortedContactList string).

Definition getPreviousPeer (m : RouteMessageWrapper) : option string := last (rm_routingPath m).

(** * RoutingTablesCache *)

Definition createRoutingTableId (targetId : string) (previousId : option string) : string := targetId +:+ default "" previousId.

Definition table_options (targetId : string) (previousId : option string) : SortedContactListOptions :=
  MkSortedOptions targetId true (Some ROUTING_TABLE_MAX_SIZE) previousId None.

Section routing.
  Context (distance : string → string → Z) `{SortedIndex} (localNodeId : string).
  Implicit Types (nodeId : string) (cache : gmap string routing_table) (table : routing_table).

(** A table has room for five, so adding to it does not throw. *)
Definition table_add nodeId table : routing_table :=
  match addContact id distance nodeId table with Return r => r.1 | Throw _ => table end.

Definition new_table (targetId : string) (previousId : option string) (connections : list string) : routing_table :=
  match addContacts id distance connections (sorted_new (table_options targetId previousId)) with
  | Return r => r.1
  | Throw _ => sorted_new (table_options targetId previousId)
  end.

Definition cache_onNodeConnected nodeId cache : gmap string routing_table := table_add nodeId <$> cache.
Definition cache_onNodeDisconnected nodeId cache : gmap string routing_table := (λ table, (removeContact nodeId table).1.1) <$> cache.

(** * RoutingSession *)

Inductive session_event := RoutingSucceeded | PartialSuccess | RoutingFailed.

Record RoutingSession := MkSession {
  rs_routedMessage : RouteMessageWrapper;
  rs_parallelism : nat;
  rs_mode : RoutingMode;
  rs_excludedNodeIds : gset string;
  rs_ongoingRequests : gset string;
  rs_contactedPeers : gset string;
  rs_failedHopCounter : nat;
  rs_successfulHopCounter : nat;
  rs_stopped : bool
}.
Implicit Types (s : RoutingSession).

Definition session_new (m : RouteMessageWrapper) (parallelism : nat) (mode : RoutingMode) (excludedNodeIds : gset string) : RoutingSession :=
  MkSession m parallelism mode excludedNodeIds ∅ ∅ 0 0 false.

Definition updateAndGetRoutablePeers (connections : list string) cache s : gmap string routing_table * list string :=
  let targetId := rm_target (rs_routedMessage s) in
  let previousId := getPreviousPeer (rs_routedMessage s) in
  let key := createRoutingTableId targetId previousId in
  let fresh := new_table targetId previousId connections in
  let '(cache, table) := match cache !! key with
                         | Some table => if (0 <? getSize None table)%Z then (cache, table) else (<[key := fresh]> cache, fresh)
                         | None => (<[key := fresh]> cache, fresh)
                         end in
  (cache, filter (λ nodeId, nodeId ∉ rs_contactedPeers s ∧ nodeId ∉ rs_excludedNodeIds s) (getClosestContacts None table)).

Definition with_roots (roots : list string) (m : RouteMessageWrapper) : RouteMessageWrapper :=
  MkRouted (rm_requestId m) (rm_target m) (rm_sourcePeer m) (rm_routingPath m) (rm_reachableThrough m) roots
    (rm_message m) (rm_messageTarget m).

Definition is_root (mode : RoutingMode) (m : RouteMessageWrapper) : bool :=
  bool_decide (mode = RECURSIVE) && bool_decide (localNodeId = rm_sourcePeer m).

Definition addParallelRootIfSource nodeId s : RouteMessageWrapper :=
  let m := rs_routedMessage s in
  if is_root (rs_mode s) m then with_roots (rm_parallelRootNodeIds m ++ [nodeId]) m else m.

Definition deleteParallelRootIfSource nodeId s : RouteMessageWrapper :=
  let m := rs_routedMessage s in
  if is_root (rs_mode s) m then with_roots (filter (λ x, x ≠ nodeId) (rm_parallelRootNodeIds m)) m else m.

Definition failure_event s : session_event :=
  if (1 <=? rs_successfulHopCounter s)%nat then PartialSuccess else RoutingFailed.

(** The loop of [sendMoreRequests], over what is left of [uncontacted] *)
Fixpoint request_loop (uncontacted : list string) s : RoutingSession * list string :=
  match uncontacted with
  | [] => (s, [])
  | nextPeer :: uncontacted =>
      if (size (rs_ongoingRequests s) <? rs_parallelism s)%nat && negb (rs_stopped s) then
        let s := MkSession (addParallelRootIfSource nextPeer s) (rs_parallelism s) (rs_mode s) (rs_excludedNodeIds s)
                   ({[nextPeer]} ∪ rs_ongoingRequests s) ({[nextPeer]} ∪ rs_contactedPeers s)
                   (rs_failedHopCounter s) (rs_successfulHopCounter s) (rs_stopped s) in
        let '(s, sent) := request_loop uncontacted s in (s, nextPeer :: sent)
      else (s, [])
  end.

(** The requests that are sent, and what is emitted *)
Definition sendMoreRequests (uncontacted : list string) s : RoutingSession * list string * list session_event :=
  if rs_stopped s then (s, [], [])
  else match uncontacted with
       | [] => (s, [], [failure_event s])
       | _ => let '(s, sent) := request_loop uncontacted s in (s, sent, [])
       end.

Definition count_failure nodeId s : RoutingSession :=
  MkSession (deleteParallelRootIfSource nodeId s) (rs_parallelism s) (rs_mode s) (rs_excludedNodeIds s)
    (rs_ongoingRequests s ∖ {[nodeId]}) (rs_contactedPeers s)
    (S (rs_failedHopCounter s)) (rs_successfulHopCounter s) (rs_stopped s).

Definition onRequestFailed nodeId (connections : list string) cache s
    : gmap string routing_table * RoutingSession * list string * list session_event :=
  if rs_stopped s then (cache, s, [], [])
  else
    let s := count_failure nodeId s in
    if (MAX_FAILED_HOPS <=? rs_failedHopCounter s)%nat then (cache, s, [], [failure_event s])
    else
      let '(cache, contacts) := updateAndGetRoutablePeers connections cache s in
      if bool_decide (contacts = []) && bool_decide (rs_ongoingRequests s = ∅) then (cache, s, [], [failure_event s])
      else let '(s, sent, evs) := sendMoreRequests contacts s in (cache, s, sent, evs).

Definition onRequestSucceeded (connections : list string) cache s
    : gmap string routing_table * RoutingSession * list string * list session_event :=
  if rs_stopped s then (cache, s, [], [])
  else
    let s := MkSession (rs_routedMessage s) (rs_parallelism s) (rs_mode s) (rs_excludedNodeIds s)
               (rs_ongoingRequests s) (rs_contactedPeers s)
               (rs_failedHopCounter s) (S (rs_successfulHopCounter s)) (rs_stopped s) in
    if (rs_parallelism s <=? rs_successfulHopCounter s)%nat then (cache, s, [], [RoutingSucceeded])
    else
      let '(cache, contacts) := updateAndGetRoutablePeers connections cache s in
      match contacts with
      | [] => (cache, s, [], [RoutingSucceeded])
      | _ => if bool_decide (rs_ongoingRequests s = ∅)
             then let '(s, sent, evs) := sendMoreRequests contacts s in (cache, s, sent, evs)
             else (cache, s, [], [])
      end.

Definition session_stop s : RoutingSession :=
  MkSession (rs_routedMessage s) (rs_parallelism s) (rs_mode s) (rs_excludedNodeIds s) (rs_ongoingRequests s)
    (rs_contactedPeers s) (rs_failedHopCounter s) (rs_successfulHopCounter s) true.

(** * Router *)

Record ForwardingTableEntry := MkForwarding { fe_peerDescriptors : list string; fe_timeout : Z }.

Record Router := MkRouter {
  ro_connections : list string;                         (** what [getConnections] answers *)
  ro_cache : gmap string routing_table;
  ro_sessions : gmap nat RoutingSession;                (** sessions by number, stopped ones too *)
  ro_forwardingTable : gmap string ForwardingTableEntry;
  ro_duplicateRequestDetector : DuplicateDetector;
  ro_stopped : bool
}.
Implicit Types (r : Router).

Definition router_new : Router := MkRouter [] ∅ ∅ ∅ (dht_detector_new 10000) false.

Inductive route_error := NO_TARGETS | DUPLICATE | STOPPED.

(** [Request sid nodeId m] asks a peer to take the message; the wrapper has this node at the end of its path. *)
Inductive router_output :=
  | Request (sid : nat) (nodeId : string) (mode : RoutingMode) (m : RouteMessageWrapper)
  | SessionEvent (sid : nat) (e : session_event)
  | Deliver (message : string).

Definition with_sessions cache (sessions : gmap nat RoutingSession) r : Router :=
  MkRouter (ro_connections r) cache sessions (ro_forwardingTable r) (ro_duplicateRequestDetector r) (ro_stopped r).

(** The message of a request: the path with the local node appended *)
Definition forwarded (m : RouteMessageWrapper) : RouteMessageWrapper :=
  MkRouted (rm_requestId m) (rm_target m) (rm_sourcePeer m) (rm_routingPath m ++ [localNodeId]) (rm_reachableThrough m)
    (rm_parallelRootNodeIds m) (rm_message m) (rm_messageTarget m).

Definition requests (sid : nat) s (sent : list string) : list router_output :=
  (λ nodeId, Request sid nodeId (rs_mode s) (forwarded (rs_routedMessage s))) <$> sent.

(** The first event of a session ends the race of [doRouteMessage], which stops the session. *)
Definition after_session (sid : nat) (res : gmap string routing_table * RoutingSession * list string * list session_event) r
    : Router * list router_output :=
  let '(cache, s, sent, evs) := res in
  (with_sessions cache (<[sid := if bool_decide (evs = []) then s else session_stop s]> (ro_sessions r)) r,
   requests sid s sent ++ (SessionEvent sid <$> evs)).

Definition createRoutingSession (m : RouteMessageWrapper) (mode : RoutingMode) (excludedNode : option string) : RoutingSession :=
  session_new m (if bool_decide (localNodeId = rm_sourcePeer m) then 2 else 1) mode
    (list_to_set (rm_routingPath m) ∪ match excludedNode with Some x => {[x]} | None => ∅ end ∪ list_to_set (rm_parallelRootNodeIds m)).

(** [sid] is the number of the new session.  [None] is an acknowledgement without an error. *)
Definition doRouteMessage (sid : nat) (m : RouteMessageWrapper) (mode : RoutingMode) (excludedPeer : option string) r
    : Router * list router_output * option route_error :=
  if ro_stopped r then (r, [], Some STOPPED)
  else
    let s := createRoutingSession m mode excludedPeer in
    let '(cache, contacts) := updateAndGetRoutablePeers (ro_connections r) (ro_cache r) s in
    match contacts with
    | [] => (with_sessions cache (ro_sessions r) r, [], Some NO_TARGETS)
    | _ => let '(s, sent, evs) := sendMoreRequests contacts s in
           let '(r, out) := after_session sid (cache, s, sent, evs) r in (r, out, None)
    end.

(** The answer to a request of a session *)
Definition request_answered (sid : nat) nodeId (succeeded : bool) r : Router * list router_output :=
  match ro_sessions r !! sid with
  | None => (r, [])
  | Some s => after_session sid (if succeeded then onRequestSucceeded (ro_connections r) (ro_cache r) s
                                 else onRequestFailed nodeId (ro_connections r) (ro_cache r) s) r
  end.

(** ** Forwarding *)

Definition with_forwarding (table : gmap string ForwardingTableEntry) r : Router :=
  MkRouter (ro_connections r) (ro_cache r) (ro_sessions r) table (ro_duplicateRequestDetector r) (ro_stopped r).

Definition setForwardingEntries (now : Z) (m : RouteMessageWrapper) r : Router :=
  let reachableThroughWithoutSelf := filter (λ p, p ≠ localNodeId) (rm_reachableThrough m) in
  match reachableThroughWithoutSelf with
  | [] => r
  | _ => with_forwarding (<[rm_sourcePeer m := MkForwarding reachableThroughWithoutSelf (now + 10000)]> (ro_forwardingTable r)) r
  end.

(** The timeout of an entry *)
Definition forwarding_timeout (now : Z) nodeId r : Router :=
  match ro_forwardingTable r !! nodeId with
  | Some e => if (fe_timeout e <=? now)%Z then with_forwarding (delete nodeId (ro_forwardingTable r)) r else r
  | None => r
  end.

(** [requestId] is the new random id. *)
Definition router_send (sid : nat) (requestId message targetNodeId : string) (reachableThrough : list string) r
    : Router * list router_output * option route_error :=
  match ro_forwardingTable r !! targetNodeId with
  | Some (MkForwarding (p :: _) _) =>
      doRouteMessage sid (MkRouted requestId p localNodeId [] reachableThrough [] message targetNodeId) FORWARD None r
  | _ => doRouteMessage sid (MkRouted requestId targetNodeId localNodeId [] reachableThrough [] message targetNodeId) ROUTE None r
  end.

(** ** RouterRpcLocal, behind the handlers of the router *)

Definition with_detector (d : DuplicateDetector) r : Router :=
  MkRouter (ro_connections r) (ro_cache r) (ro_sessions r) (ro_forwardingTable r) d (ro_stopped r).

Definition routeMessage (now : Z) (sid : nat) (m : RouteMessageWrapper) r : Router * list router_output * option route_error :=
  if ro_stopped r then (r, [], Some STOPPED)
  else if isMostLikelyDuplicate (rm_requestId m) (ro_duplicateRequestDetector r) then (r, [], Some DUPLICATE)
  else
    let r := with_detector (detector_add (rm_requestId m) (ro_duplicateRequestDetector r)) r in
    if bool_decide (localNodeId = rm_target m) then (setForwardingEntries now m r, [Deliver (rm_message m)], None)
    else doRouteMessage sid m ROUTE None r.

(** [newId] is the random id of a message that goes on to its own target. *)
Definition forwardToDestination (sid : nat) (newId : string) (m : RouteMessageWrapper) r : Router * list router_output * option route_error :=
  if bool_decide (localNodeId = rm_messageTarget m) then (r, [Deliver (rm_message m)], None)
  else doRouteMessage sid (MkRouted newId (rm_messageTarget m) (rm_sourcePeer m) (rm_routingPath m) (rm_reachableThrough m)
                             (rm_parallelRootNodeIds m) (rm_message m) (rm_messageTarget m)) ROUTE None r.

Definition forwardMessage (sid : nat) (newId : string) (m : RouteMessageWrapper) r : Router * list router_output * option route_error :=
  if ro_stopped r then (r, [], Some STOPPED)
  else if isMostLikelyDuplicate (rm_requestId m) (ro_duplicateRequestDetector r) then (r, [], Some DUPLICATE)
  else
    let r := with_detector (detector_add (rm_requestId m) (ro_duplicateRequestDetector r)) r in
    if bool_decide (localNodeId = rm_target m) then forwardToDestination sid newId m r
    else doRouteMessage sid m FORWARD None r.

(** ** What happens to a router *)

Inductive router_event :=
  | ESend (sid : nat) (requestId message targetNodeId : string) (reachableThrough : list string)
  | EDoRoute (sid : nat) (m : RouteMessageWrapper) (mode : RoutingMode) (excludedPeer : option string)
  | ERouteMessage (sid : nat) (m : RouteMessageWrapper)
  | EForwardMessage (sid : nat) (newId : string) (m : RouteMessageWrapper)
  | EAnswered (sid : nat) (nodeId : string) (succeeded : bool)
  | EThrew (sid : nat) (nodeId : string)              (** logged and forgotten *)
  | ESessionTimeout (sid : nat)
  | EConnected (nodeId : string)
  | EDisconnected (nodeId : string)
  | EEvicted (key : string)
  | EForwardingTimeout (nodeId : string)
  | EStop.

Definition router_step (now : Z) (ev : router_event) r : Router * list router_output :=
  match ev with
  | ESend sid requestId message target through => (router_send sid requestId message target through r).1
  | EDoRoute sid m mode excludedPeer => (doRouteMessage sid m mode excludedPeer r).1
  | ERouteMessage sid m => (routeMessage now sid m r).1
  | EForwardMessage sid newId m => (forwardMessage sid newId m r).1
  | EAnswered sid nodeId succeeded => request_answered sid nodeId succeeded r
  | EThrew _ _ => (r, [])
  | ESessionTimeout sid => (with_sessions (ro_cache r) (alter session_stop sid (ro_sessions r)) r, [])
  | EConnected nodeId =>
      (MkRouter (ro_connections r ++ [nodeId]) (cache_onNodeConnected nodeId (ro_cache r)) (ro_sessions r) (ro_forwardingTable r)
         (ro_duplicateRequestDetector r) (ro_stopped r), [])
  | EDisconnected nodeId =>
      (MkRouter (filter (λ x, x ≠ nodeId) (ro_connections r)) (cache_onNodeDisconnected nodeId (ro_cache r)) (ro_sessions r)
         (ro_forwardingTable r) (ro_duplicateRequestDetector r) (ro_stopped r), [])
  | EEvicted key => (with_sessions (delete key (ro_cache r)) (ro_sessions r) r, [])
  | EForwardingTimeout nodeId => (forwarding_timeout now nodeId r, [])
  | EStop =>
      (MkRouter (ro_connections r) ∅ (session_stop <$> ro_sessions r) ∅ (detector_clear (ro_duplicateRequestDetector r)) true, [])
  end.

Fixpoint router_run (evs : list (Z * router_event)) r : Router * list router_output :=
  match evs with
  | [] => (r, [])
  | (now, ev) :: evs =>
      let '(r, out) := router_step now ev r in
      let '(r, out') := router_run evs r in (r, out ++ out')
  end.
End routing.

(** * What a session asks, and of whom

    Ids are texts of one length, so a key of the cache is that of one target and one previous peer. *)

Section justified.
  Context (distance : string → string → Z) `{SortedIndex} (localNodeId : string).
  Implicit Types (s : RoutingSession) (r : Router) (nodeId : string) (C : gset string) (log : list string).

Notation step_ := (router_step distance localNodeId).
Notation run_ := (router_run distance localNodeId).
Notation dist := (distance _).

(** The hexadecimal form of 20 bytes *)
Definition is_id (x : string) : Prop := String.length x = 40%nat.

Definition well_formed (m : RouteMessageWrapper) : Prop := is_id (rm_target m) ∧ Forall is_id (rm_routingPath m).

Lemma append_inj (a a' b b' : string) : String.length a = String.length a' → a +:+ b = a' +:+ b' → a = a' ∧ b = b'.
Proof using Type.
  revert a'. induction a as [|c a IH]; intros [|c' a'] Hlen; try discriminate Hlen; [done|]. intros [= -> Happ].
  injection Hlen as Hlen. destruct (IH a' Hlen Happ) as [-> ->]. done.
Qed.

(** The tables of the cache, whose contacts are among the peers [C] that were connected *)
Definition table_ok C (key : string) (table : routing_table) : Prop :=
  sc_inv id distance table ∧ (∀ x, x ∈ sc_contactIds table → x ∈ C) ∧
  ∃ t p, is_id t ∧ (∀ x, p = Some x → is_id x) ∧ key = createRoutingTableId t p ∧ sc_options table = table_options t p.

Definition cache_ok C (cache : gmap string routing_table) : Prop :=
  ∀ key table, cache !! key = Some table → table_ok C key table.

(** Why a session may ask a peer *)
Definition reason C s nodeId : Prop :=
  nodeId ∈ C ∧ nodeId ∉ rs_excludedNodeIds s ∧
  ∀ prev, getPreviousPeer (rs_routedMessage s) = Some prev →
    (distance (rm_target (rs_routedMessage s)) nodeId ≤ distance (rm_target (rs_routedMessage s)) prev)%Z.

Record session_ok C log s : Prop := {
  so_nodup : NoDup log;
  so_log : rs_contactedPeers s = list_to_set log;
  so_reason : ∀ nodeId, nodeId ∈ log → reason C s nodeId;
  so_ongoing : rs_ongoingRequests s ⊆ rs_contactedPeers s;
  so_path : list_to_set (rm_routingPath (rs_routedMessage s)) ⊆ rs_excludedNodeIds s;
  so_well_formed : well_formed (rs_routedMessage s);
  so_slots : size (rs_ongoingRequests s) ≤ rs_parallelism s ≤ 2;
  so_count : length log ≤ size (rs_ongoingRequests s) + rs_failedHopCounter s;
  so_failed : rs_stopped s = false → rs_failedHopCounter s < MAX_FAILED_HOPS;
  so_total : length log ≤ S (rs_parallelism s)
}.

Lemma table_id_inj t t' p p' :
  is_id t → is_id t' → (∀ x, p = Some x → is_id x) → (∀ x, p' = Some x → is_id x) →
  createRoutingTableId t p = createRoutingTableId t' p' → t = t' ∧ p = p'.
Proof using Type.
  unfold is_id, createRoutingTableId. intros Ht Ht' Hp Hp' Heq. apply append_inj in Heq as [-> Heq]; [|congruence]. split; [done|].
  destruct p as [x|], p' as [x'|]; cbn in Heq; [by subst|subst; by specialize (Hp _ eq_refl)|subst; by specialize (Hp' _ eq_refl)|done].
Qed.

Lemma new_table_ok C t p connections :
  is_id t → (∀ x, p = Some x → is_id x) → (∀ x, x ∈ connections → x ∈ C) →
  table_ok C (createRoutingTableId t p) (new_table distance t p connections).
Proof using Type.
  intros Ht Hp Hc. unfold new_table.
  destruct (addContacts_spec id distance connections (sorted_new (table_options t p)) ∅ (sorted_new_inv id distance _)) as (l & evs & -> & Hl & Ho & Hkept & _).
  { done. }
  { split; cbn; intros x Hx; [by apply not_elem_of_nil in Hx|set_solver]. }
  split_and!; [done| |by exists t, p]. intros x Hx. apply Hc. apply (kept_seen _ _ _ Hkept) in Hx.
  rewrite (right_id_L ∅ (∪)), list_fmap_id in Hx. by apply elem_of_list_to_set in Hx.
Qed.

Lemma routable_spec C connections (cache : gmap string routing_table) s :
  cache_ok C cache → (∀ x, x ∈ connections → x ∈ C) →
  well_formed (rs_routedMessage s) →
  let '(cache', contacts) := updateAndGetRoutablePeers distance connections cache s in
  cache_ok C cache' ∧ NoDup contacts ∧ ∀ x, x ∈ contacts → x ∉ rs_contactedPeers s ∧ reason C s x.
Proof using Type.
  intros Hcache Hconn [Ht Hpath]. unfold updateAndGetRoutablePeers.
  set (m := rs_routedMessage s) in *. set (key := createRoutingTableId _ _). set (fresh := new_table _ _ _ _).
  assert (∀ x, getPreviousPeer m = Some x → is_id x) as Hprev.
  { intros x Hx. apply (proj1 (Forall_forall _ _) Hpath). by apply last_Some_elem_of. }
  assert (table_ok C key fresh) as Hfresh by by apply new_table_ok.
  assert (∀ cache', cache_ok C cache' → ∀ table, table_ok C key table →
    let contacts := filter (λ nodeId, nodeId ∉ rs_contactedPeers s ∧ nodeId ∉ rs_excludedNodeIds s) (getClosestContacts None table) in
    cache_ok C cache' ∧ NoDup contacts ∧ ∀ x, x ∈ contacts → x ∉ rs_contactedPeers s ∧ reason C s x) as Hgoal.
  { intros cache' Hc' table (Hinv & HC & t & p & Ht' & Hp & Hkey & Ho) contacts. split; [done|].
    apply table_id_inj in Hkey as [<- <-]; [|done..].
    pose proof (closest_contacts_ids id distance table Hinv) as Hids. rewrite list_fmap_id in Hids. unfold contacts. rewrite Hids. split.
    - apply NoDup_filter, (inv_nodup _ _ _ Hinv).
    - intros x [[Hnc Hne] Hin]%list_elem_of_filter. split; [done|]. split_and!; [by apply HC|done|]. intros prev Hpr. fold m in Hpr |- *.
      pose proof (inv_admitted _ _ _ Hinv x Hin) as Hadm. rewrite Ho in Hadm. unfold refuses in Hadm. cbn in Hadm. rewrite Hpr in Hadm.
      apply orb_false_iff in Hadm as [_ Hd%Z.ltb_ge]. unfold compareIds, distanceToReferenceId in Hd. cbn in Hd. lia. }
  assert (cache_ok C (<[key := fresh]> cache)) as Hins.
  { intros key' table' [[<- <-]|[_ Hl]]%lookup_insert_Some; [done|by apply Hcache]. }
  destruct (cache !! key) as [table|] eqn:Hk; [|by apply Hgoal]. destruct (0 <? _)%Z; [|by apply Hgoal]. apply Hgoal; [done|by apply Hcache].
Qed.

(** ** Sending requests *)

(** What requests and answers leave as it is *)
Record same_message s s' : Prop := {
  sm_target : rm_target (rs_routedMessage s') = rm_target (rs_routedMessage s);
  sm_path : rm_routingPath (rs_routedMessage s') = rm_routingPath (rs_routedMessage s);
  sm_excluded : rs_excludedNodeIds s' = rs_excludedNodeIds s;
  sm_parallelism : rs_parallelism s' = rs_parallelism s
}.

Lemma same_message_trans s1 s2 s3 : same_message s1 s2 → same_message s2 s3 → same_message s1 s3.
Proof using Type. intros [? ? ? ?] [? ? ? ?]. split; congruence. Qed.

Lemma same_reason C s s' nodeId : same_message s s' → reason C s nodeId → reason C s' nodeId.
Proof using Type. unfold reason, getPreviousPeer. by intros [-> -> -> _]. Qed.

Lemma same_well_formed s s' : same_message s s' → well_formed (rs_routedMessage s) → well_formed (rs_routedMessage s').
Proof using Type. unfold well_formed. by intros [-> -> _ _]. Qed.

Lemma request_loop_spec C log uncontacted s :
  session_ok C log s → rs_stopped s = false → NoDup uncontacted →
  (∀ x, x ∈ uncontacted → x ∉ rs_contactedPeers s ∧ reason C s x) →
  let '(s', sent) := request_loop localNodeId uncontacted s in
  session_ok C (log ++ sent) s' ∧ same_message s s' ∧ rs_stopped s' = false ∧
  rs_successfulHopCounter s' = rs_successfulHopCounter s ∧ rs_failedHopCounter s' = rs_failedHopCounter s ∧
  rs_ongoingRequests s' = rs_ongoingRequests s ∪ list_to_set sent ∧ rs_contactedPeers s' = rs_contactedPeers s ∪ list_to_set sent ∧
  sent `prefix_of` uncontacted ∧ (size (rs_ongoingRequests s') = rs_parallelism s ∨ sent = uncontacted).
Proof using Type.
  revert log s. induction uncontacted as [|x uncontacted IH]; intros log s Hok Hst Hnd Hun.
  { cbn. rewrite app_nil_r. split_and!; try done; [set_solver..|by right]. }
  cbn [request_loop]. rewrite Hst, andb_true_r. pose proof Hok as [Hn Hl Hr Ho Hp Hw Hs Hc Hf Ht].
  destruct (Nat.ltb_spec (size (rs_ongoingRequests s)) (rs_parallelism s)) as [Hlt|Hge].
  2: { rewrite app_nil_r. split_and!; try done; [set_solver..|apply prefix_nil|left; lia]. }
  apply NoDup_cons in Hnd as [Hx Hnd]. destruct (Hun x (list_elem_of_here _ _)) as [Hxc Hxr].
  set (s1 := MkSession (addParallelRootIfSource localNodeId x s) _ _ _ _ _ _ _ _).
  assert (same_message s s1) as Hsame.
  { split; cbn; try done; unfold addParallelRootIfSource; by destruct (is_root _ _ _). }
  assert (x ∉ rs_ongoingRequests s) as Hxo by set_solver.
  assert (size (rs_ongoingRequests s1) = S (size (rs_ongoingRequests s))) as Hsize.
  { cbn. rewrite size_union by set_solver. by rewrite size_singleton. }
  assert (session_ok C (log ++ [x]) s1) as Hok1.
  { specialize (Hf Hst). unfold MAX_FAILED_HOPS in Hf. split.
    - apply NoDup_app. split_and!; [done| |apply NoDup_singleton]. intros y Hy ->%list_elem_of_singleton. apply Hxc. rewrite Hl.
      by apply elem_of_list_to_set.
    - cbn. rewrite Hl, list_to_set_app_L. set_solver.
    - intros y [Hy| ->%list_elem_of_singleton]%elem_of_app; (eapply same_reason; [exact Hsame|]); [by apply Hr|done].
    - cbn. set_solver.
    - rewrite (sm_path _ _ Hsame), (sm_excluded _ _ Hsame). done.
    - by apply (same_well_formed s).
    - rewrite Hsize. cbn. lia.
    - rewrite Hsize, length_app. cbn. lia.
    - done.
    - rewrite length_app. cbn. lia. }
  specialize (IH (log ++ [x]) s1 Hok1 eq_refl Hnd).
  destruct (request_loop localNodeId uncontacted s1) as [s2 sent].
  destruct IH as (Hok2 & Hsame2 & Hst2 & Hsu2 & Hfa2 & Hon2 & Hco2 & Hpre & Hfull).
  { intros y Hy. destruct (Hun y) as [Hy1 Hy2]; [by right|]. split; [|by eapply same_reason]. cbn. set_solver. }
  rewrite <-app_assoc in Hok2. split_and!; [done|by eapply same_message_trans|done|by rewrite Hsu2|by rewrite Hfa2| | | |].
  - rewrite Hon2. cbn. set_solver.
  - rewrite Hco2. cbn. set_solver.
  - by apply prefix_cons.
  - destruct Hfull as [Hf2| ->]; [left; by rewrite Hf2|by right].
Qed.
Lemma session_stop_ok C log s : session_ok C log s → session_ok C log (session_stop s).
Proof using Type. by intros [? ? ? ? ? ? ? ? ? ?]. Qed.

Lemma session_mono C C' log s : C ⊆ C' → session_ok C log s → session_ok C' log s.
Proof using Type.
  intros HC [? ? Hr ? ? ? ? ? ? ?]. split; try done. intros x Hx. destruct (Hr x Hx) as (? & ? & ?). split_and!; [set_solver|done..].
Qed.

(** A session after a step of its own: stopped when it emitted something *)
Definition settled_session s (evs : list session_event) : RoutingSession := if bool_decide (evs = []) then s else session_stop s.

Lemma settled_ok C log s evs : session_ok C log s → session_ok C log (settled_session s evs).
Proof using Type. unfold settled_session. destruct (bool_decide _); [done|apply session_stop_ok]. Qed.

Lemma send_more_ok C log uncontacted s :
  session_ok C log s → rs_stopped s = false → NoDup uncontacted →
  (∀ x, x ∈ uncontacted → x ∉ rs_contactedPeers s ∧ reason C s x) →
  let '(s', sent, evs) := sendMoreRequests localNodeId uncontacted s in
  session_ok C (log ++ sent) (settled_session s' evs) ∧ same_message s s'.
Proof using Type.
  intros Hok Hst Hnd Hun. unfold sendMoreRequests. rewrite Hst. destruct uncontacted as [|x uncontacted].
  { rewrite app_nil_r. split; [by apply settled_ok|done]. }
  pose proof (request_loop_spec C log _ s Hok Hst Hnd Hun) as Hloop. destruct (request_loop _ _ _) as [s' sent].
  destruct Hloop as (? & ? & _). split; [by apply settled_ok|done].
Qed.

Lemma count_failure_same nodeId s : same_message s (count_failure localNodeId nodeId s).
Proof using Type. split; cbn; try done; unfold deleteParallelRootIfSource; by destruct (is_root _ _ _). Qed.

(** A failure that is counted, in a session that goes on, or is stopped *)
Lemma count_failure_ok C log nodeId s :
  session_ok C log s → rs_stopped s = false →
  let s1 := count_failure localNodeId nodeId s in
  session_ok C log (session_stop s1) ∧ (rs_failedHopCounter s1 < MAX_FAILED_HOPS → session_ok C log s1).
Proof using Type.
  intros Hok Hst s1. pose proof Hok as [Hn Hl Hr Ho Hp Hw Hs Hc Hf Ht].
  pose proof (count_failure_same nodeId s) as Hsame. fold s1 in Hsame.
  assert (size (rs_ongoingRequests s) ≤ S (size (rs_ongoingRequests s1)) ∧ size (rs_ongoingRequests s1) ≤ size (rs_ongoingRequests s)) as [Hs1 Hs2].
  { cbn. split; [|apply subseteq_size; set_solver]. trans (size ({[nodeId]} ∪ (rs_ongoingRequests s ∖ {[nodeId]}))).
    - apply subseteq_size. intros y Hy. destruct (decide (y = nodeId)); set_solver.
    - rewrite size_union, size_singleton by set_solver. lia. }
  assert (∀ s2, same_message s s2 → rs_ongoingRequests s2 = rs_ongoingRequests s1 → rs_contactedPeers s2 = rs_contactedPeers s →
    rs_failedHopCounter s2 = S (rs_failedHopCounter s) → (rs_stopped s2 = false → rs_failedHopCounter s2 < MAX_FAILED_HOPS) →
    session_ok C log s2) as Hall.
  { intros s2 Hsame2 Hon Hco Hfa Hfail. split; rewrite ?Hon, ?Hco, ?Hfa, ?(sm_path _ _ Hsame2), ?(sm_excluded _ _ Hsame2), ?(sm_parallelism _ _ Hsame2).
    - done.
    - done.
    - intros y Hy. apply (same_reason C s); [done|]. by apply Hr.
    - cbn. set_solver.
    - done.
    - by apply (same_well_formed s).
    - lia.
    - lia.
    - by rewrite <-Hfa.
    - done. }
  split; [|intros Hfail]; apply Hall; try done. by destruct Hsame.
Qed.

Lemma failed_ok C log nodeId connections cache s :
  session_ok C log s → cache_ok C cache → (∀ x, x ∈ connections → x ∈ C) →
  let '(cache', s', sent, evs) := onRequestFailed distance localNodeId nodeId connections cache s in
  cache_ok C cache' ∧ session_ok C (log ++ sent) (settled_session s' evs) ∧ same_message s s'.
Proof using Type.
  intros Hok Hcache Hconn. unfold onRequestFailed. destruct (rs_stopped s) eqn:Hst; [by rewrite app_nil_r|].
  destruct (count_failure_ok C log nodeId s Hok Hst) as [Hstop Hok1]. pose proof (count_failure_same nodeId s) as Hsame.
  assert (rs_stopped (count_failure localNodeId nodeId s) = false) as Hst1 by done.
  set (s1 := count_failure _ _ _) in *. clearbody s1.
  destruct (Nat.leb_spec MAX_FAILED_HOPS (rs_failedHopCounter s1)) as [Hmax|Hmore]; [by rewrite app_nil_r|].
  specialize (Hok1 Hmore).
  pose proof (routable_spec C connections cache s1 Hcache Hconn (so_well_formed _ _ _ Hok1)) as Hroute.
  destruct (updateAndGetRoutablePeers _ _ _ _) as [cache' contacts]. destruct Hroute as (Hcache' & Hnd & Hcontacts).
  destruct (bool_decide _ && _); [rewrite app_nil_r; split_and!; [done|by apply settled_ok|done]|].
  pose proof (send_more_ok C log contacts s1 Hok1 Hst1 Hnd Hcontacts) as Hsend. destruct (sendMoreRequests _ _ _) as [[s2 sent] evs].
  destruct Hsend as [? ?]. split_and!; [done|done|by eapply same_message_trans].
Qed.

Lemma succeeded_ok C log connections cache s :
  session_ok C log s → cache_ok C cache → (∀ x, x ∈ connections → x ∈ C) →
  let '(cache', s', sent, evs) := onRequestSucceeded distance localNodeId connections cache s in
  cache_ok C cache' ∧ session_ok C (log ++ sent) (settled_session s' evs) ∧ same_message s s'.
Proof using Type.
  intros Hok Hcache Hconn. unfold onRequestSucceeded. destruct (rs_stopped s) eqn:Hst; [by rewrite app_nil_r|].
  set (s1 := MkSession _ _ _ _ _ _ _ _ _). assert (same_message s s1) as Hsame by done.
  assert (session_ok C log s1) as Hok1.
  { destruct Hok as [? ? ? ? ? ? ? ? Hf ?]. split; try done. intros _. by apply Hf. }
  destruct (_ <=? _); [rewrite app_nil_r; split_and!; [done|by apply settled_ok|done]|].
  pose proof (routable_spec C connections cache s1 Hcache Hconn (so_well_formed _ _ _ Hok1)) as Hroute.
  destruct (updateAndGetRoutablePeers _ _ _ _) as [cache' contacts]. destruct Hroute as (Hcache' & Hnd & Hcontacts).
  destruct contacts as [|x contacts]; [rewrite app_nil_r; split_and!; [done|by apply settled_ok|done]|].
  destruct (bool_decide _); [|by rewrite app_nil_r].
  assert (rs_stopped s1 = false) as Hst1 by done. pose proof (send_more_ok C log _ s1 Hok1 Hst1 Hnd Hcontacts) as Hsend. destruct (sendMoreRequests _ _ _) as [[s2 sent] evs].
  destruct Hsend as [? ?]. split_and!; [done|done|by eapply same_message_trans].
Qed.

(** ** Runs of the router *)

Definition requests_of (sid : nat) (out : list router_output) : list string :=
  omap (λ o, match o with Request sid' nodeId _ _ => if decide (sid' = sid) then Some nodeId else None | _ => None end) out.

(** The peers that were connected at some time *)
Definition connected_peers (evs : list (Z * router_event)) : gset string :=
  list_to_set (omap (λ e, match e.2 with EConnected nodeId => Some nodeId | _ => None end) evs).

(** A session has a new number, and ids are ids. *)
Definition legal (ev : router_event) r : Prop :=
  match ev with
  | ESend sid _ _ target _ => ro_sessions r !! sid = None ∧ is_id target
  | EDoRoute sid m _ _ => ro_sessions r !! sid = None ∧ well_formed m
  | ERouteMessage sid m => ro_sessions r !! sid = None ∧ well_formed m ∧ Forall is_id (rm_reachableThrough m)
  | EForwardMessage sid _ m => ro_sessions r !! sid = None ∧ well_formed m ∧ is_id (rm_messageTarget m)
  | _ => True
  end.

Fixpoint legal_run (evs : list (Z * router_event)) r : Prop :=
  match evs with
  | [] => True
  | (now, ev) :: evs => legal ev r ∧ legal_run evs (step_ now ev r).1
  end.

Record router_ok C (out : list router_output) r : Prop := {
  rk_cache : cache_ok C (ro_cache r);
  rk_connections : ∀ x, x ∈ ro_connections r → x ∈ C;
  rk_sessions : ∀ sid s, ro_sessions r !! sid = Some s → session_ok C (requests_of sid out) s;
  rk_forwarding : ∀ x e, ro_forwardingTable r !! x = Some e → Forall is_id (fe_peerDescriptors e);
  rk_fresh : ∀ sid, ro_sessions r !! sid = None → requests_of sid out = [];
  rk_requests : ∀ sid nodeId mode m, Request sid nodeId mode m ∈ out →
    ∃ s, ro_sessions r !! sid = Some s ∧ rm_target m = rm_target (rs_routedMessage s) ∧
      rm_routingPath m = rm_routingPath (rs_routedMessage s) ++ [localNodeId]
}.

Lemma requests_of_app sid out out' : requests_of sid (out ++ out') = requests_of sid out ++ requests_of sid out'.
Proof using Type. apply omap_app. Qed.

Lemma requests_of_requests sid sid' s sent evs :
  requests_of sid' (requests localNodeId sid s sent ++ (SessionEvent sid <$> evs)) = if decide (sid = sid') then sent else [].
Proof using Type.
  rewrite requests_of_app. assert (requests_of sid' (SessionEvent sid <$> evs) = []) as -> by by induction evs.
  rewrite app_nil_r. unfold requests_of, requests. induction sent as [|x sent IH]; [by case_decide|]. rewrite fmap_cons. cbn. rewrite IH.
  by case_decide.
Qed.

(** A session that takes a step, or a new one *)
Lemma after_session_ok C out sid cache s0 s sent evs r :
  router_ok C out r → cache_ok C cache →
  (ro_sessions r !! sid = Some s0 ∨ ro_sessions r !! sid = None) → same_message s0 s →
  session_ok C (requests_of sid out ++ sent) (settled_session s evs) →
  let '(r', out') := after_session localNodeId sid (cache, s, sent, evs) r in router_ok C (out ++ out') r'.
Proof using Type.
  intros [Hcache Hconn Hsess Hfwd Hfresh Hreq] Hcache' Hold Hsame Hok. cbn [after_session].
  change (if bool_decide (evs = []) then s else session_stop s) with (settled_session s evs).
  set (s' := settled_session s evs) in *.
  assert (rs_routedMessage s' = rs_routedMessage s) as Hm by (unfold s', settled_session; by destruct (bool_decide _)).
  split; cbn.
  - done.
  - done.
  - intros sid' s1. rewrite requests_of_app, requests_of_requests. intros [[<- <-]|[Hne Hl]]%lookup_insert_Some.
    + by rewrite decide_True.
    + rewrite decide_False, app_nil_r by done. by apply Hsess.
  - done.
  - intros sid' [Hl Hne]%lookup_insert_None. rewrite requests_of_app, requests_of_requests, decide_False, app_nil_r by done. by apply Hfresh.
  - intros sid' nodeId mode m [Hin|Hin]%elem_of_app.
    + destruct (Hreq _ _ _ _ Hin) as (s1 & Hs1 & Ht & Hp). destruct (decide (sid' = sid)) as [->|Hne].
      * exists s'. rewrite lookup_insert_eq. split; [done|]. destruct Hold as [Hold|Hold]; [|congruence].
        assert (s1 = s0) as -> by congruence. rewrite Hm, (sm_target _ _ Hsame), (sm_path _ _ Hsame). done.
      * exists s1. by rewrite lookup_insert_ne.
    + apply elem_of_app in Hin as [Hin|Hin].
      * apply list_elem_of_fmap in Hin as (x & [= -> -> _ ->] & _). exists s'. rewrite lookup_insert_eq. by rewrite Hm.
      * by apply list_elem_of_fmap in Hin as (? & ? & _).
Qed.

Lemma new_session_ok C m mode excludedPeer :
  well_formed m → session_ok C [] (createRoutingSession localNodeId m mode excludedPeer).
Proof using Type.
  intros Hm. split; cbn; try done.
  - constructor.
  - by intros x Hx%not_elem_of_nil.
  - set_solver.
  - rewrite size_empty. case_bool_decide; lia.
  - unfold MAX_FAILED_HOPS. lia.
  - lia.
Qed.

Lemma do_route_ok C out sid m mode excludedPeer r :
  router_ok C out r → ro_sessions r !! sid = None → well_formed m →
  let '(r', out', _) := doRouteMessage distance localNodeId sid m mode excludedPeer r in router_ok C (out ++ out') r'.
Proof using Type.
  intros Hr Hsid Hm. unfold doRouteMessage. destruct (ro_stopped r); [by rewrite app_nil_r|].
  set (s := createRoutingSession localNodeId m mode excludedPeer). pose proof Hr as [Hcache Hconn Hsess Hfwd Hfresh Hreq].
  pose proof (new_session_ok C m mode excludedPeer Hm : session_ok C [] s) as Hs.
  pose proof (routable_spec C (ro_connections r) (ro_cache r) s Hcache Hconn Hm) as Hroute.
  destruct (updateAndGetRoutablePeers _ _ _ _) as [cache contacts]. destruct Hroute as (Hcache' & Hnd & Hcontacts).
  destruct contacts as [|x contacts]; [rewrite app_nil_r; by split|].
  pose proof (send_more_ok C [] _ s Hs eq_refl Hnd Hcontacts) as Hsend. destruct (sendMoreRequests _ _ _) as [[s1 sent] evs].
  destruct Hsend as [Hok Hsame].
  pose proof (after_session_ok C out sid cache s s1 sent evs r Hr Hcache' (or_intror Hsid) Hsame) as Hafter.
  rewrite (Hfresh sid Hsid) in Hafter. destruct (after_session _ _ _ _) as [r' out']. by apply Hafter.
Qed.

Lemma answered_ok C out sid nodeId succeeded r :
  router_ok C out r →
  let '(r', out') := request_answered distance localNodeId sid nodeId succeeded r in router_ok C (out ++ out') r'.
Proof using Type.
  intros Hr. unfold request_answered. destruct (ro_sessions r !! sid) as [s|] eqn:Hs; [|by rewrite app_nil_r].
  pose proof Hr as [Hcache Hconn Hsess _ _ _]. specialize (Hsess sid s Hs).
  assert (∀ res, (let '(cache', s', sent, evs) := res in
      cache_ok C cache' ∧ session_ok C (requests_of sid out ++ sent) (settled_session s' evs) ∧ same_message s s') →
    let '(r', out') := after_session localNodeId sid res r in router_ok C (out ++ out') r') as Hafter.
  { intros [[[cache' s'] sent] evs] (H1 & H2 & H3). apply (after_session_ok C out sid cache' s s' sent evs r); auto. }
  destruct succeeded; apply Hafter; [by apply succeeded_ok|by apply failed_ok].
Qed.

Lemma table_add_ok C nodeId key table : table_ok C key table → table_ok ({[nodeId]} ∪ C) key (table_add distance nodeId table).
Proof using Type.
  intros (Hinv & Hin & t & p & Ht & Hp & Hkey & Ho).
  destruct (add_spec id distance nodeId table Hinv) as (l & evs & Hadd & Hinv' & Ho' & _ & Hafter); [by rewrite Ho|].
  unfold table_add. rewrite Hadd. cbn [fst]. split_and!; [done| |exists t, p; by rewrite Ho']. cbn in Hafter. intros x Hx.
  destruct (_ || _); [rewrite Hafter in Hx; set_solver|].
  destruct Hafter as [[Hperm _]|(n & init & far & _ & _ & Hids & _ & [[Hsame _]|[Hperm _]])].
  - rewrite Hperm in Hx. apply elem_of_cons in Hx as [->|Hx]; [set_solver|]. specialize (Hin _ Hx). set_solver.
  - rewrite Hsame in Hx. specialize (Hin _ Hx). set_solver.
  - rewrite Hperm in Hx. apply elem_of_cons in Hx as [->|Hx]; [set_solver|]. rewrite Hids in Hin. specialize (Hin x). set_solver.
Qed.

Lemma router_mono C C' out r : C ⊆ C' → router_ok C out r → router_ok C' out r.
Proof using Type.
  intros HC [Hcache Hconn Hsess Hfwd Hfresh Hreq]. split; try done.
  - intros key table Hk. destruct (Hcache key table Hk) as (? & Hin & ?). split_and!; [done| |done]. intros x Hx. apply HC. by apply Hin.
  - intros x Hx. apply HC. by apply Hconn.
  - intros sid s Hs. eapply session_mono; [exact HC|]. by apply Hsess.
Qed.

Lemma table_remove_ok C nodeId key table : table_ok C key table → table_ok C key (removeContact nodeId table).1.1.
Proof using Type.
  intros (Hinv & Hin & t & p & Ht & Hp & Hkey & Ho). pose proof (remove_spec id distance nodeId table Hinv) as Hrem.
  destruct (removeContact nodeId table) as [[l evs] b]. destruct Hrem as (Hinv' & Ho' & _ & Hids). cbn [fst].
  split_and!; [done| |exists t, p; by rewrite Ho']. intros x. rewrite Hids. intros [_ Hx]%list_elem_of_filter. by apply Hin.
Qed.

Lemma stop_some_ok C out r r' :
  router_ok C out r → cache_ok C (ro_cache r') →
  (∀ sid, ro_sessions r' !! sid = ro_sessions r !! sid ∨ ro_sessions r' !! sid = session_stop <$> ro_sessions r !! sid) →
  (∀ x, x ∈ ro_connections r' → x ∈ C) →
  (∀ x e, ro_forwardingTable r' !! x = Some e → Forall is_id (fe_peerDescriptors e)) → router_ok C out r'.
Proof using Type.
  intros [Hcache Hconn Hsess Hfwd Hfresh Hreq] Hcache' Hstop Hconn' Hfwd'. split; try done.
  - intros sid s' Hs'. destruct (Hstop sid) as [Heq|Heq]; rewrite Heq in Hs'; [by apply Hsess|].
    apply fmap_Some in Hs' as (s & Hs & ->). by apply session_stop_ok, Hsess.
  - intros sid Hs'. apply Hfresh. destruct (Hstop sid) as [Heq|Heq]; rewrite Heq in Hs'; [done|]. by apply fmap_None in Hs'.
  - intros sid x md m Hin. destruct (Hreq sid x md m Hin) as (s & Hs & ?). destruct (Hstop sid) as [Heq|Heq]; rewrite Heq, Hs; by eexists.
Qed.

Definition newly_connected (ev : router_event) : gset string := match ev with EConnected nodeId => {[nodeId]} | _ => ∅ end.

Lemma router_step_ok C out now ev r :
  router_ok C out r → legal ev r →
  let '(r', out') := step_ now ev r in router_ok (newly_connected ev ∪ C) (out ++ out') r'.
Proof using Type.
  intros Hr Hlegal.
  assert (∀ r' out', router_ok C (out ++ out') r' → router_ok (∅ ∪ C) (out ++ out') r') as Hempty by (intros; by rewrite (left_id_L ∅ (∪))).
  assert (∀ r', ro_cache r' = ro_cache r → ro_connections r' = ro_connections r → ro_sessions r' = ro_sessions r →
    (∀ x e, ro_forwardingTable r' !! x = Some e → Forall is_id (fe_peerDescriptors e)) → router_ok C out r') as Hquiet.
  { intros r' H1 H2 H3 H4. destruct Hr as [Hcache Hconn Hsess Hfwd Hfresh Hreq]. split; rewrite ?H1, ?H2, ?H3; done. }
  pose proof Hr as [Hcache Hconn Hsess Hfwd Hfresh Hreq].
  assert (∀ r', router_ok C out r' → router_ok (∅ ∪ C) out r') as Hnone by (intros r'; apply router_mono; set_solver).
  assert (∀ m r', router_ok C out r' → router_ok C (out ++ [Deliver m]) r') as Hdeliver.
  { intros m r' [? ? Hs' ? Hf' Hq']. split; try done.
    - intros sid' s' Hl. rewrite requests_of_app, app_nil_r. by apply Hs'.
    - intros sid' Hl. rewrite requests_of_app, app_nil_r. by apply Hf'.
    - intros sid' x md m' [Hin|Hin%list_elem_of_singleton]%elem_of_app; [by eapply Hq'|done]. }
  destruct ev; cbn [router_step newly_connected].
  - destruct Hlegal as [Hsid Ht].
    assert (∀ target mode, is_id target → let '(r', out', _) := doRouteMessage distance localNodeId sid
      (MkRouted requestId target localNodeId [] reachableThrough [] message targetNodeId) mode None r in router_ok C (out ++ out') r') as Hroute.
    { intros target mode Htarget. by apply do_route_ok. }
    unfold router_send. destruct (ro_forwardingTable r !! targetNodeId) as [[[|p ps] t]|] eqn:Hf.
    + specialize (Hroute targetNodeId ROUTE Ht). destruct (doRouteMessage _ _ _ _ _ _ _) as [[r' out'] e]. by apply Hempty.
    + assert (is_id p) as Hp by (by apply Hfwd, Forall_inv in Hf).
      specialize (Hroute p FORWARD Hp). destruct (doRouteMessage _ _ _ _ _ _ _) as [[r' out'] e]. by apply Hempty.
    + specialize (Hroute targetNodeId ROUTE Ht). destruct (doRouteMessage _ _ _ _ _ _ _) as [[r' out'] e]. by apply Hempty.
  - destruct Hlegal as [Hsid Hm]. pose proof (do_route_ok C out sid m mode excludedPeer r Hr Hsid Hm) as Hroute.
    destruct (doRouteMessage _ _ _ _ _ _ _) as [[r' out'] e]. by apply Hempty.
  - destruct Hlegal as (Hsid & Hm & Hthrough). unfold routeMessage. destruct (ro_stopped r); [cbn; rewrite app_nil_r; by apply Hnone|].
    destruct (isMostLikelyDuplicate _ _); [cbn; rewrite app_nil_r; by apply Hnone|].
    set (r1 := with_detector _ r). assert (router_ok C out r1) as Hr1 by by apply Hquiet.
    destruct (bool_decide _).
    + apply Hempty, Hdeliver. unfold setForwardingEntries. destruct (filter _ _) as [|y ys] eqn:Hf; [done|]. apply Hquiet; try done. cbn.
      intros x e [[<- <-]|[_ Hl]]%lookup_insert_Some; [|by eapply Hfwd]. cbn. rewrite <-Hf. apply Forall_forall. intros z [_ Hz]%list_elem_of_filter.
      by apply (proj1 (Forall_forall _ _) Hthrough).
    + pose proof (do_route_ok C out sid m ROUTE None r1 Hr1 Hsid Hm) as Hroute.
      destruct (doRouteMessage _ _ _ _ _ _ _) as [[r' out'] e]. by apply Hempty.
  - destruct Hlegal as (Hsid & Hm & Htarget). unfold forwardMessage. destruct (ro_stopped r); [cbn; rewrite app_nil_r; by apply Hnone|].
    destruct (isMostLikelyDuplicate _ _); [cbn; rewrite app_nil_r; by apply Hnone|].
    set (r1 := with_detector _ r). assert (router_ok C out r1) as Hr1 by by apply Hquiet.
    destruct (bool_decide _); [unfold forwardToDestination; destruct (bool_decide _); [by apply Hempty, Hdeliver|]|].
    + set (m' := MkRouted _ _ _ _ _ _ _ _). assert (well_formed m') as Hm' by (split; [done|apply Hm]).
      pose proof (do_route_ok C out sid m' ROUTE None r1 Hr1 Hsid Hm') as Hroute.
      destruct (doRouteMessage _ _ _ _ _ _ _) as [[r' out'] e]. by apply Hempty.
    + pose proof (do_route_ok C out sid m FORWARD None r1 Hr1 Hsid Hm) as Hroute.
      destruct (doRouteMessage _ _ _ _ _ _ _) as [[r' out'] e]. by apply Hempty.
  - pose proof (answered_ok C out sid nodeId succeeded r Hr) as Ha. destruct (request_answered _ _ _ _ _ _) as [r' out']. by apply Hempty.
  - rewrite app_nil_r. by apply Hnone.
  - rewrite app_nil_r. apply Hnone, (stop_some_ok C out r); try done. intros sid'. cbn. destruct (decide (sid = sid')) as [<-|Hne].
    + right. apply lookup_alter_eq.
    + left. by apply lookup_alter_ne.
  - rewrite app_nil_r. apply (router_mono C ({[nodeId]} ∪ C)) in Hr; [|apply union_subseteq_r].
    apply (stop_some_ok _ out r); try done; [|by intros ?; left|].
    + intros key table. cbn. unfold cache_onNodeConnected. rewrite lookup_fmap. intros (t & Ht & ->)%fmap_Some. by apply table_add_ok, Hcache.
    + cbn. intros x [Hx| ->%list_elem_of_singleton]%elem_of_app; [|set_solver]. apply elem_of_union_r. by apply Hconn.
  - rewrite app_nil_r. apply Hnone, (stop_some_ok C out r); try done; [|by intros ?; left|].
    + intros key table. cbn. unfold cache_onNodeDisconnected. rewrite lookup_fmap. intros (t & Ht & ->)%fmap_Some. by apply table_remove_ok, Hcache.
    + cbn. intros x [_ Hx]%list_elem_of_filter. by apply Hconn.
  - rewrite app_nil_r. apply Hnone, (stop_some_ok C out r); try done; [|by intros ?; left].
    intros key' table. cbn. intros [_ Hl]%lookup_delete_Some. by apply Hcache.
  - rewrite app_nil_r. apply Hnone. unfold forwarding_timeout. destruct (ro_forwardingTable r !! nodeId); [|done].
    destruct (_ <=? _)%Z; [|done]. apply Hquiet; try done. cbn. intros x e' [_ Hl]%lookup_delete_Some. by eapply Hfwd.
  - rewrite app_nil_r. apply Hnone, (stop_some_ok C out r); try done.
    intros sid'. right. cbn. apply lookup_fmap.
Qed.

Lemma legal_run_app evs evs' r : legal_run (evs ++ evs') r ↔ legal_run evs r ∧ legal_run evs' (run_ evs r).1.
Proof using Type.
  revert r. induction evs as [|[now ev] evs IH]; intros r; cbn [app legal_run router_run]; [cbn; tauto|].
  rewrite IH. destruct (step_ now ev r) as [r1 out1]. cbn. destruct (run_ evs r1) as [r2 out2]. cbn. tauto.
Qed.

Lemma router_new_ok : router_ok ∅ [] router_new.
Proof using Type.
  split; cbn; try done.
  - by intros x Hx%not_elem_of_nil.
  - by intros sid x md m Hx%not_elem_of_nil.
Qed.

Lemma router_run_ok C out evs r :
  router_ok C out r → legal_run evs r →
  let '(r', out') := run_ evs r in router_ok (connected_peers evs ∪ C) (out ++ out') r'.
Proof using Type.
  revert C out r. induction evs as [|[now ev] evs IH]; intros C out r Hr Hlegal.
  { cbn. rewrite app_nil_r. by apply router_mono with C; [set_solver|]. }
  destruct Hlegal as [Hl Hlegal]. pose proof (router_step_ok C out now ev r Hr Hl) as Hstep. cbn [router_run].
  destruct (step_ now ev r) as [r1 out1]. specialize (IH _ _ r1 Hstep Hlegal). destruct (run_ evs r1) as [r2 out2].
  rewrite app_assoc. apply router_mono with (2 := IH). destruct ev; unfold connected_peers; cbn; set_solver.
Qed.

Lemma run_session_ok evs sid s :
  legal_run evs router_new →
  let '(r, out) := run_ evs router_new in
  ro_sessions r !! sid = Some s → session_ok (connected_peers evs) (requests_of sid out) s.
Proof using Type.
  intros Hlegal. pose proof (router_run_ok ∅ [] evs router_new router_new_ok Hlegal) as Hrun.
  destruct (run_ evs router_new) as [r out]. rewrite (right_id_L ∅ (∪)) in Hrun. apply Hrun.
Qed.

(** A message is routed for a reason: over any life of a router, with any interleaving of sessions, connections and
    answers, a session asks each peer at most once and no more than its parallelism and one, three peers at most; each of
    them was connected, is not on the path of the message, and is no further from the target than the peer that the message
    came from; and every request carries the target and the path, with the node added to it. *)
Theorem routing_is_justified evs sid s :
  legal_run evs router_new →
  let '(r, out) := run_ evs router_new in
  ro_sessions r !! sid = Some s →
  let m := rs_routedMessage s in
  let asked := requests_of sid out in
  NoDup asked ∧ length asked ≤ S (rs_parallelism s) ≤ 3 ∧
  (∀ nodeId, nodeId ∈ asked → nodeId ∈ connected_peers evs ∧ nodeId ∉ rm_routingPath m ∧
     ∀ prev, getPreviousPeer m = Some prev → (distance (rm_target m) nodeId ≤ distance (rm_target m) prev)%Z) ∧
  (∀ nodeId mode m', Request sid nodeId mode m' ∈ out →
     rm_target m' = rm_target m ∧ rm_routingPath m' = rm_routingPath m ++ [localNodeId]).
Proof using Type.
  intros Hlegal. pose proof (router_run_ok ∅ [] evs router_new router_new_ok Hlegal) as Hrun.
  destruct (run_ evs router_new) as [r out]. rewrite (right_id_L ∅ (∪)) in Hrun. destruct Hrun as [_ _ Hsess _ _ Hreq]. cbn in Hsess, Hreq.
  intros Hs. pose proof (Hsess sid s Hs) as [Hnd _ Hreason _ Hpath _ Hslots _ _ Htotal]. cbn zeta. split_and!; [done|done|lia| |].
  - intros nodeId Hn. destruct (Hreason nodeId Hn) as (H1 & H2 & H3). split_and!; [done| |done]. intros Hp. apply H2, Hpath.
    by apply elem_of_list_to_set.
  - intros nodeId mode m' Hin. destruct (Hreq sid nodeId mode m' Hin) as (s' & Hs' & ? & ?). by assert (s' = s) as -> by congruence.
Qed.
End justified.

(** * The way of a message

    The nodes are routers that run on their own; a message with a target goes from one to the next when a session for it, with
    the path it has, asks the next one. *)

Section way.
  Context (distance : string → string → Z) `{SortedIndex} (target : string).

Inductive route : list string → string → Prop :=
  | route_origin n : route [] n
  | route_hop path n evs sid s nodeId :
      route path n →
      legal_run distance n evs router_new → n ∉ connected_peers evs →
      ro_sessions (router_run distance n evs router_new).1 !! sid = Some s →
      rm_target (rs_routedMessage s) = target → rm_routingPath (rs_routedMessage s) = path →
      nodeId ∈ requests_of sid (router_run distance n evs router_new).2 →
      route (path ++ [n]) nodeId.

(** C25: a routed message does not loop: the nodes on its way are all different, so that its way ends within the number of
    nodes there are; and every node is at least as close to the target as the one two hops before it. *)
Theorem routes_do_not_loop path n (nodes : gset string) :
  route path n →
  (∀ x, x ∈ path ++ [n] → x ∈ nodes) →
  NoDup (path ++ [n]) ∧ length path < size nodes ∧
  ∀ i x y, (path ++ [n]) !! i = Some x → (path ++ [n]) !! (i + 2) = Some y → (distance target y ≤ distance target x)%Z.
Proof using Type.
  intros Hroute Hnodes.
  assert (NoDup (path ++ [n]) ∧
    ∀ i x y, (path ++ [n]) !! i = Some x → (path ++ [n]) !! (i + 2) = Some y → (distance target y ≤ distance target x)%Z) as [Hnd Hdist].
  { clear Hnodes nodes. induction Hroute as [n|path n evs sid s nodeId Hroute [IHnd IHdist] Hlegal Hself Hs Ht Hp Hin].
    { split; [apply NoDup_singleton|]. intros i x y _. cbn. by destruct i as [|[|i]]. }
    pose proof (run_session_ok distance n evs sid s Hlegal) as Hok. destruct (router_run distance n evs router_new) as [r out].
    destruct (so_reason _ _ _ _ (Hok Hs) nodeId Hin) as (Hc & Hex & Hlim). split.
    - apply NoDup_app. split_and!; [done| |apply NoDup_singleton]. intros x Hx ->%list_elem_of_singleton.
      apply elem_of_app in Hx as [Hx| ->%list_elem_of_singleton]; [|done].
      apply Hex, (so_path _ _ _ _ (Hok Hs)). rewrite Hp. by apply elem_of_list_to_set.
    - intros i x y Hx Hy. destruct (decide (i + 2 < length (path ++ [n]))) as [Hlt|Hge].
      + rewrite lookup_app_l in Hx, Hy by lia. by eapply IHdist.
      + apply lookup_lt_Some in Hy as Hlast. rewrite !length_app in *. cbn in *.
        assert (i + 1 = length path) as Hi by lia. rewrite lookup_app_r in Hy by (rewrite length_app; cbn; lia). rewrite length_app in Hy. cbn in Hy.
        replace (i + 2 - (length path + 1)) with 0 in Hy by lia. injection Hy as <-.
        rewrite <-app_assoc, lookup_app_l in Hx by lia.
        rewrite Ht in Hlim. apply Hlim. unfold getPreviousPeer. rewrite Hp, last_lookup, <-Hi. by replace (pred (i + 1)) with i by lia. }
  split_and!; [done| |done].
  assert (size (list_to_set (path ++ [n]) : gset string) ≤ size nodes) as Hle by (apply subseteq_size; set_solver).
  rewrite size_list_to_set, length_app in Hle by done. cbn in Hle. lia.
Qed.
End way.

(** * Sessions end *)

Lemma size_zero (X : gset string) : size X = 0 → X = ∅.
Proof. intros Hs. apply leibniz_equiv, size_empty_inv, Hs. Qed.

Section waiting.
  Context (distance : string → string → Z) `{SortedIndex} (localNodeId : string) (sid : nat).
  Implicit Types (s : RoutingSession) (r : Router) (nodeId : string) (asked answered : list string) (T : routing_table).

Notation step_ := (router_step distance localNodeId).
Notation run_ := (router_run distance localNodeId).
Notation set_of l := (list_to_set l : gset string).

(** Events during which the peers of the session stay connected, its table stays in the cache, and its requests are answered *)
Definition calm (ev : router_event) : Prop :=
  match ev with
  | EConnected _ | EDisconnected _ | EEvicted _ | EStop => False
  | EThrew sid' _ | ESessionTimeout sid' => sid' ≠ sid
  | _ => True
  end.

(** The peers that answered a request of the session *)
Definition answers (evs : list (Z * router_event)) : list string :=
  omap (λ e, match e.2 with EAnswered sid' nodeId _ => if decide (sid' = sid) then Some nodeId else None | _ => None end) evs.

(** A peer answers once, and only what it was asked. *)
Fixpoint answered_once answered (evs : list (Z * router_event)) asked r : Prop :=
  match evs with
  | [] => True
  | (now, ev) :: evs =>
      let '(r', out) := step_ now ev r in
      Forall (λ nodeId, nodeId ∈ asked ∧ nodeId ∉ answered) (answers [(now, ev)]) ∧
      answered_once (answered ++ answers [(now, ev)]) evs (asked ++ requests_of sid out) r'
  end.

#[export] Instance answered_once_dec answered evs asked r : Decision (answered_once answered evs asked r).
Proof.
  revert answered asked r. induction evs as [|[now ev] evs IH]; intros answered asked r; cbn [answered_once]; [apply _|].
  destruct (router_step distance localNodeId now ev r) as [r' out]. apply and_dec; [apply _|apply IH].
Defined.

Definition key_of s : string := createRoutingTableId (rm_target (rs_routedMessage s)) (getPreviousPeer (rs_routedMessage s)).

(** The peers of a table that a session has not asked yet *)
Definition left_to_ask T s : list string :=
  filter (λ nodeId, nodeId ∉ rs_contactedPeers s ∧ nodeId ∉ rs_excludedNodeIds s) (getClosestContacts None T).

Record waiting T asked answered s : Prop := {
  wt_running : rs_stopped s = false;
  wt_answered : set_of answered ⊆ set_of asked;
  wt_ongoing : set_of asked ∖ set_of answered ⊆ rs_ongoingRequests s;
  wt_size : size (rs_ongoingRequests s) = size (set_of asked ∖ set_of answered) + rs_successfulHopCounter s;
  wt_pending : set_of asked ∖ set_of answered ≠ ∅;
  wt_full : left_to_ask T s = [] ∨ size (rs_ongoingRequests s) = rs_parallelism s
}.

Lemma routable_cached T connections (cache : gmap string routing_table) s k :
  cache !! k = Some T → (0 < getSize None T)%Z →
  (updateAndGetRoutablePeers distance connections cache s).1 !! k = Some T ∧
  (key_of s = k → (updateAndGetRoutablePeers distance connections cache s).2 = left_to_ask T s).
Proof using Type.
  intros Hk Hpos. unfold updateAndGetRoutablePeers. fold (key_of s).
  destruct (decide (key_of s = k)) as [->|Hne].
  - rewrite Hk. by rewrite (proj2 (Z.ltb_lt _ _) Hpos).
  - split; [|done]. destruct (cache !! key_of s); [destruct (0 <? _)%Z|]; cbn; [done|by rewrite lookup_insert_ne..].
Qed.

(** A session that is answered *)
Lemma succeeded_waiting C T connections cache asked answered nodeId s :
  session_ok distance C asked s → waiting T asked answered s → cache !! key_of s = Some T → (0 < getSize None T)%Z →
  nodeId ∈ asked → nodeId ∉ answered →
  let '(cache', s', sent, evs) := onRequestSucceeded distance localNodeId connections cache s in
  cache' !! key_of s = Some T ∧ (evs ≠ [] ∨ waiting T (asked ++ sent) (answered ++ [nodeId]) s').
Proof using Type.
  intros Hok [Hrun Hans Hon Hsize Hpend Hfull] Hk Hpos Hin Hnin. unfold onRequestSucceeded. rewrite Hrun.
  set (s1 := MkSession _ _ _ _ _ _ _ _ _). destruct (Nat.leb_spec (rs_parallelism s1) (rs_successfulHopCounter s1)) as [Hpar|Hpar]; [split; [done|by left]|].
  destruct (routable_cached T connections cache s1 (key_of s) Hk Hpos) as [Hk' Hcontacts]. specialize (Hcontacts eq_refl).
  destruct (updateAndGetRoutablePeers _ _ _ _) as [cache' contacts]. cbn [fst snd] in *. subst contacts.
  change (left_to_ask T s1) with (left_to_ask T s). destruct (left_to_ask T s) as [|x xs] eqn:Hleft; [split; [done|by left]|].
  destruct Hfull as [?|Hfull]; [done|]. cbn in Hpar.
  rewrite bool_decide_eq_false_2 by (cbn; intros He; rewrite He, size_empty in Hsize; apply Hpend, size_zero; lia).
  split; [done|]. right. rewrite app_nil_r.
  assert (set_of asked ∖ set_of (answered ++ [nodeId]) = (set_of asked ∖ set_of answered) ∖ {[nodeId]}) as Hset.
  { rewrite list_to_set_app_L. cbn. set_solver. }
  assert (size ((set_of asked ∖ set_of answered) ∖ {[nodeId]}) = size (set_of asked ∖ set_of answered) - 1) as Hminus.
  { rewrite size_difference, size_singleton; [done|]. set_solver. }
  assert (size (set_of asked ∖ set_of answered) ≠ 0) as Hne by (intros Hz; by apply Hpend, size_zero).
  split; rewrite ?Hset; cbn.
  - done.
  - rewrite list_to_set_app_L. cbn. set_solver.
  - set_solver.
  - rewrite Hminus, Hsize. lia.
  - intros He. rewrite He, size_empty in Hminus. lia.
  - right. done.
Qed.

Lemma failed_waiting C T connections cache asked answered nodeId s :
  session_ok distance C asked s → waiting T asked answered s → cache !! key_of s = Some T → (0 < getSize None T)%Z →
  (∀ x, x ∈ left_to_ask T s → reason distance C s x) → NoDup (left_to_ask T s) →
  nodeId ∈ asked → nodeId ∉ answered →
  let '(cache', s', sent, evs) := onRequestFailed distance localNodeId nodeId connections cache s in
  cache' !! key_of s = Some T ∧ (evs ≠ [] ∨ waiting T (asked ++ sent) (answered ++ [nodeId]) s').
Proof using Type.
  intros Hok [Hrun Hans Hon Hsize Hpend Hfull] Hk Hpos Hreason Hnd Hin Hnin. unfold onRequestFailed. rewrite Hrun.
  destruct (count_failure_ok distance localNodeId C asked nodeId s Hok Hrun) as [_ Hok1].
  pose proof (count_failure_same localNodeId nodeId s) as Hsame.
  assert (key_of (count_failure localNodeId nodeId s) = key_of s) as Hkey.
  { unfold key_of, getPreviousPeer. by rewrite (sm_target _ _ Hsame), (sm_path _ _ Hsame). }
  assert (left_to_ask T (count_failure localNodeId nodeId s) = left_to_ask T s) as Hleft by done.
  assert (rs_ongoingRequests (count_failure localNodeId nodeId s) = rs_ongoingRequests s ∖ {[nodeId]} ∧
    rs_stopped (count_failure localNodeId nodeId s) = false ∧
    rs_contactedPeers (count_failure localNodeId nodeId s) = rs_contactedPeers s ∧
    rs_successfulHopCounter (count_failure localNodeId nodeId s) = rs_successfulHopCounter s) as (Hon1 & Hst1 & Hco1 & Hsu1) by done.
  set (s1 := count_failure _ _ _) in *. clearbody s1.
  destruct (Nat.leb_spec MAX_FAILED_HOPS (rs_failedHopCounter s1)) as [Hmax|Hmore]; [split; [done|by left]|]. specialize (Hok1 Hmore).
  destruct (routable_cached T connections cache s1 (key_of s) Hk Hpos) as [Hk' Hcontacts]. specialize (Hcontacts Hkey).
  destruct (updateAndGetRoutablePeers _ _ _ _) as [cache' contacts]. cbn [fst snd] in *. subst contacts. rewrite Hleft.
  destruct (bool_decide _ && _); [split; [done|by left]|]. unfold sendMoreRequests. rewrite Hst1.
  destruct (left_to_ask T s) as [|x xs] eqn:Hl; [split; [done|by left]|].
  destruct Hfull as [?|Hfull]; [done|].
  assert (∀ y, y ∈ x :: xs → y ∉ rs_contactedPeers s1 ∧ reason distance C s1 y) as Hun.
  { intros y Hy. split; [|eapply same_reason; [exact Hsame|by apply Hreason]].
    rewrite <-Hl in Hy. apply list_elem_of_filter in Hy as [[? _] _]. by rewrite Hco1. }
  pose proof (request_loop_spec distance localNodeId C asked (x :: xs) s1 Hok1 Hst1 Hnd Hun) as Hloop.
  destruct (request_loop localNodeId (x :: xs) s1) as [s2 sent].
  destruct Hloop as (Hok2 & Hsame2 & Hst2 & Hsu2 & _ & Hon2 & Hco2 & Hpre & Hfull2). split; [done|]. right.
  pose proof (so_log _ _ _ _ Hok) as Hlog. pose proof (so_nodup _ _ _ _ Hok2) as Hnd2. apply NoDup_app in Hnd2 as (_ & Hdisj & Hnds).
  assert (set_of asked ∖ set_of answered ⊆ rs_contactedPeers s) as Hpc by (rewrite Hlog; set_solver).
  assert (set_of (asked ++ sent) ∖ set_of (answered ++ [nodeId]) = ((set_of asked ∖ set_of answered) ∖ {[nodeId]}) ∪ set_of sent) as Hset.
  { rewrite !list_to_set_app_L. cbn. apply set_eq. intros y.
    assert (y ∈ sent → y ∉ asked) as Hy1 by (intros ? ?; by eapply Hdisj).
    assert (y ∈ answered → y ∈ asked) as Hy2 by set_solver. set_solver. }
  assert (size (rs_ongoingRequests s2) = size (rs_ongoingRequests s1) + length sent) as Hsize2.
  { rewrite Hon2, size_union, size_list_to_set by first [done | pose proof (so_ongoing _ _ _ _ Hok) as Ho; rewrite Hon1, Hlog in *; set_solver]. done. }
  assert (size (set_of asked ∖ set_of answered) ≠ 0) as Hne by (intros Hz; by apply Hpend, size_zero).
  assert (size (rs_ongoingRequests s1) = size (rs_ongoingRequests s) - 1) as Hsize1.
  { rewrite Hon1, size_difference, size_singleton; [done|]. set_solver. }
  assert (sent ≠ []) as Hsent.
  { intros ->. destruct Hfull2 as [Hf| ?]; [|done]. rewrite (sm_parallelism _ _ Hsame) in Hf. cbn in Hsize2. lia. }
  split.
  - done.
  - rewrite !list_to_set_app_L. cbn. set_solver.
  - rewrite Hset, Hon2, Hon1. set_solver.
  - rewrite Hset, Hsize2, Hsu2, Hsu1, Hsize1, size_union, size_list_to_set, size_difference, size_singleton; [lia|set_solver|done|].
    set_solver.
  - rewrite Hset. destruct sent as [|y ys]; [done|]. cbn. set_solver.
  - destruct Hfull2 as [Hf| ->]; [right; by rewrite Hf, (sm_parallelism _ _ Hsame2)|left].
    unfold left_to_ask. apply filter_none. intros y Hy [Hc1 Hc2]. apply Hc1. rewrite Hco2. apply elem_of_union_r, elem_of_list_to_set.
    rewrite <-Hl. apply list_elem_of_filter. split; [|done]. split.
    + rewrite <-Hco1. intros Hin'. apply Hc1. rewrite Hco2. by apply elem_of_union_l.
    + rewrite <-(sm_excluded _ _ Hsame), <-(sm_excluded _ _ Hsame2). done.
Qed.

(** ** Other sessions *)

Lemma succeeded_keeps T connections (cache : gmap string routing_table) s k :
  cache !! k = Some T → (0 < getSize None T)%Z → (onRequestSucceeded distance localNodeId connections cache s).1.1.1 !! k = Some T.
Proof using Type.
  intros Hk Hpos. unfold onRequestSucceeded. destruct (rs_stopped s); [done|]. set (s1 := MkSession _ _ _ _ _ _ _ _ _).
  destruct (_ <=? _); [done|]. destruct (routable_cached T connections cache s1 k Hk Hpos) as [Hk' _].
  destruct (updateAndGetRoutablePeers _ _ _ _) as [cache' [|x xs]]; [done|]. destruct (bool_decide _); [|done].
  by destruct (sendMoreRequests _ _ _) as [[? ?] ?].
Qed.

Lemma failed_keeps T nodeId connections (cache : gmap string routing_table) s k :
  cache !! k = Some T → (0 < getSize None T)%Z → (onRequestFailed distance localNodeId nodeId connections cache s).1.1.1 !! k = Some T.
Proof using Type.
  intros Hk Hpos. unfold onRequestFailed. destruct (rs_stopped s); [done|]. set (s1 := count_failure _ _ _).
  destruct (_ <=? _); [done|]. destruct (routable_cached T connections cache s1 k Hk Hpos) as [Hk' _].
  destruct (updateAndGetRoutablePeers _ _ _ _) as [cache' contacts]. destruct (_ && _); [done|].
  by destruct (sendMoreRequests _ _ _) as [[? ?] ?].
Qed.

(** An event of other sessions *)
Definition undisturbed T s k r' out : Prop :=
  ro_sessions r' !! sid = Some s ∧ ro_cache r' !! k = Some T ∧ requests_of sid out = [] ∧ (∀ e, SessionEvent sid e ∉ out).

Lemma after_other T s k sid' res r :
  sid' ≠ sid → ro_sessions r !! sid = Some s → res.1.1.1 !! k = Some T →
  let '(r', out) := after_session localNodeId sid' res r in undisturbed T s k r' out.
Proof using Type.
  destruct res as [[[cache s'] sent] evs]. intros Hne Hs Hk. cbn. split_and!.
  - cbn. by rewrite lookup_insert_ne.
  - done.
  - by rewrite requests_of_requests, decide_False.
  - intros e [Hin|Hin]%elem_of_app; apply list_elem_of_fmap in Hin as (x & Hx & _); congruence.
Qed.

Lemma do_route_other T s k sid' m mode excludedPeer r :
  sid' ≠ sid → ro_sessions r !! sid = Some s → ro_cache r !! k = Some T → (0 < getSize None T)%Z →
  let '(r', out, _) := doRouteMessage distance localNodeId sid' m mode excludedPeer r in undisturbed T s k r' out.
Proof using Type.
  intros Hne Hs Hk Hpos. unfold doRouteMessage.
  assert (undisturbed T s k r []) as Hnone by (split_and!; try done; intros e Hin; by apply not_elem_of_nil in Hin).
  destruct (ro_stopped r); [done|].
  destruct (routable_cached T (ro_connections r) (ro_cache r) (createRoutingSession localNodeId m mode excludedPeer) k Hk Hpos) as [Hk' _].
  destruct (updateAndGetRoutablePeers _ _ _ _) as [cache [|x xs]]; cbn [fst] in Hk'.
  { split_and!; try done. intros e Hin. by apply not_elem_of_nil in Hin. }
  destruct (sendMoreRequests _ _ _) as [[s1 sent] evs].
  pose proof (after_other T s k sid' (cache, s1, sent, evs) r Hne Hs Hk') as Ha. by destruct (after_session _ _ _ _) as [r' out].
Qed.

Lemma calm_step T s now ev r :
  calm ev → legal ev r → ro_sessions r !! sid = Some s → ro_cache r !! key_of s = Some T → (0 < getSize None T)%Z →
  undisturbed T s (key_of s) (step_ now ev r).1 (step_ now ev r).2 ∧ answers [(now, ev)] = [] ∨
  ∃ nodeId succeeded, ev = EAnswered sid nodeId succeeded ∧
    step_ now ev r = after_session localNodeId sid (if succeeded then onRequestSucceeded distance localNodeId (ro_connections r) (ro_cache r) s
                                   else onRequestFailed distance localNodeId nodeId (ro_connections r) (ro_cache r) s) r.
Proof using Type.
  intros Hcalm Hlegal Hs Hk Hpos.
  assert (∀ sid', ro_sessions r !! sid' = None → sid' ≠ sid) as Hnew by congruence.
  assert (∀ d, undisturbed T s (key_of s) r d ↔ requests_of sid d = [] ∧ ∀ e, SessionEvent sid e ∉ d) as Hsame by (unfold undisturbed; naive_solver).
  assert (undisturbed T s (key_of s) r []) as Hnone by (apply Hsame; split; [done|intros e Hin; by apply not_elem_of_nil in Hin]).
  assert (∀ r1 m, ro_sessions r1 = ro_sessions r → ro_cache r1 = ro_cache r → undisturbed T s (key_of s) r1 [Deliver m]) as Hdeliver.
  { intros r1 m H1 H2. unfold undisturbed. rewrite H1, H2. split_and!; [done..|]. by intros e Hin%list_elem_of_singleton. }
  destruct ev; cbn [router_step calm] in *; try done.
  - left. split; [|done]. destruct Hlegal as [Hsid _]. unfold router_send. destruct (ro_forwardingTable r !! targetNodeId) as [[[|p ps] t]|];
      match goal with |- context [doRouteMessage _ _ _ ?m ?mode None r] =>
        pose proof (do_route_other T s (key_of s) sid0 m mode None r (Hnew _ Hsid) Hs Hk Hpos) as Ho end;
      by destruct (doRouteMessage _ _ _ _ _ _ _) as [[r' out] e].
  - left. split; [|done]. destruct Hlegal as [Hsid _]. pose proof (do_route_other T s (key_of s) sid0 m mode excludedPeer r (Hnew _ Hsid) Hs Hk Hpos) as Ho.
    by destruct (doRouteMessage _ _ _ _ _ _ _) as [[r' out] e].
  - left. split; [|done]. destruct Hlegal as (Hsid & _). unfold routeMessage. destruct (ro_stopped r); [done|]. destruct (isMostLikelyDuplicate _ _); [done|].
    destruct (bool_decide _).
    + unfold setForwardingEntries. destruct (filter _ _); by apply Hdeliver.
    + set (r1 := with_detector _ r). pose proof (do_route_other T s (key_of s) sid0 m ROUTE None r1 (Hnew _ Hsid) Hs Hk Hpos) as Ho.
      by destruct (doRouteMessage _ _ _ _ _ _ _) as [[r' out] e].
  - left. split; [|done]. destruct Hlegal as (Hsid & _). unfold forwardMessage. destruct (ro_stopped r); [done|]. destruct (isMostLikelyDuplicate _ _); [done|].
    set (r1 := with_detector _ r). unfold forwardToDestination. destruct (bool_decide _); [destruct (bool_decide _); [by apply Hdeliver|]|];
      match goal with |- context [doRouteMessage _ _ _ ?m ?mode None r1] =>
        pose proof (do_route_other T s (key_of s) sid0 m mode None r1 (Hnew _ Hsid) Hs Hk Hpos) as Ho end;
      by destruct (doRouteMessage _ _ _ _ _ _ _) as [[r' out] e].
  - unfold request_answered. destruct (decide (sid0 = sid)) as [->|Hne].
    + rewrite Hs. right. by exists nodeId, succeeded.
    + destruct (ro_sessions r !! sid0) as [s'|] eqn:Hs'; [|left; split; [done|cbn; by rewrite decide_False]].
      pose proof (after_other T s (key_of s) sid0 (if succeeded then onRequestSucceeded distance localNodeId (ro_connections r) (ro_cache r) s'
        else onRequestFailed distance localNodeId nodeId (ro_connections r) (ro_cache r) s') r Hne Hs) as Ho.
      left. split; [|cbn; by rewrite decide_False]. destruct (after_session _ _ _ _) as [r' out]. apply Ho. destruct succeeded; [by apply succeeded_keeps|by apply failed_keeps].
  - by left.
  - left. split; [|done]. split_and!; try done; [cbn; by rewrite lookup_alter_ne|intros e Hin; by apply not_elem_of_nil in Hin].
  - left. split; [|done]. unfold forwarding_timeout. destruct (ro_forwardingTable r !! nodeId); [|done]. by destruct (_ <=? _)%Z.
Qed.

Lemma waiting_run C T out answered evs s r :
  router_ok distance localNodeId C out r → legal_run distance localNodeId evs r → Forall (λ e, calm e.2) evs →
  ro_sessions r !! sid = Some s → ro_cache r !! key_of s = Some T → (0 < getSize None T)%Z →
  waiting T (requests_of sid out) answered s → answered_once answered evs (requests_of sid out) r →
  (∃ e, SessionEvent sid e ∈ (run_ evs r).2) ∨
  ∃ nodeId, nodeId ∈ requests_of sid (out ++ (run_ evs r).2) ∧ nodeId ∉ answered ++ answers evs.
Proof using Type.
  revert C out answered s r. induction evs as [|[now ev] evs IH]; intros C out answered s r Hr Hlegal Hcalm Hs Hk Hpos Hw Honce.
  { right. destruct (set_choose_L _ (wt_pending _ _ _ _ Hw)) as [nodeId Hn]. exists nodeId. cbn. rewrite !app_nil_r. set_solver. }
  destruct Hlegal as [Hl Hlegal]. apply Forall_cons in Hcalm as [Hc Hcalm]. cbn in Hc.
  pose proof (calm_step T s now ev r Hc Hl Hs Hk Hpos) as Hstep. pose proof (router_step_ok distance localNodeId C out now ev r Hr Hl) as Hr1.
  cbn [answered_once] in Honce. cbn [router_run].
  assert (answers ((now, ev) :: evs) = answers [(now, ev)] ++ answers evs) as Hans.
  { unfold answers. rewrite <-omap_app. done. }
  assert (∀ r1, run_ evs r1 = ((run_ evs r1).1, (run_ evs r1).2)) as Hpair by (intros r1; by destruct (run_ evs r1)).
  destruct (step_ now ev r) as [r1 out1] eqn:Hst. destruct Honce as [Hasked Honce]. rewrite (Hpair r1).
  assert ((∃ e, SessionEvent sid e ∈ (run_ evs r1).2) ∨
    (∃ nodeId, nodeId ∈ requests_of sid ((out ++ out1) ++ (run_ evs r1).2) ∧ nodeId ∉ (answered ++ answers [(now, ev)]) ++ answers evs) →
    (∃ e, SessionEvent sid e ∈ out1 ++ (run_ evs r1).2) ∨
    ∃ nodeId, nodeId ∈ requests_of sid (out ++ out1 ++ (run_ evs r1).2) ∧ nodeId ∉ answered ++ answers ((now, ev) :: evs)) as Hdone.
  { rewrite Hans, <-!app_assoc. intros [[e He]|?]; [left; exists e; set_solver|by right]. }
  cbn [snd]. cbn [fst snd] in Hstep. destruct Hstep as [[(Hs1 & Hk1 & Hreq & _) Hno]|(nodeId & succeeded & -> & Hafter)].
  - apply Hdone. rewrite Hno, !app_nil_r in *.
    assert (requests_of sid (out ++ out1) = requests_of sid out) as Hreq1 by (rewrite requests_of_app, Hreq; apply app_nil_r).
    apply (IH _ (out ++ out1) answered s r1 Hr1); try done; rewrite Hreq1; [done|]. by rewrite Hreq, app_nil_r in Honce.
  - assert (answers [(now, EAnswered sid nodeId succeeded)] = [nodeId]) as Hone by (cbn; by rewrite decide_True).
    rewrite Hone in Hasked, Honce, Hdone. destruct (Forall_inv Hasked) as [Hin Hnin].
    pose proof Hr as [Hcache Hconn Hsess _ _ _]. pose proof (Hsess sid s Hs) as Hok.
    set (res := if succeeded then _ else _) in Hafter.
    assert (let '(cache', s', sent, emitted) := res in
      cache' !! key_of s = Some T ∧ same_message s s' ∧
      (emitted ≠ [] ∨ waiting T (requests_of sid out ++ sent) (answered ++ [nodeId]) s')) as Hres.
    { unfold res. destruct succeeded.
      - pose proof (succeeded_ok distance localNodeId C _ (ro_connections r) (ro_cache r) s Hok Hcache Hconn) as H1.
        pose proof (succeeded_waiting C T (ro_connections r) (ro_cache r) _ answered nodeId s Hok Hw Hk Hpos Hin Hnin) as H2.
        destruct (onRequestSucceeded _ _ _ _ _) as [[[cache' s'] sent] emitted]. split_and!; tauto.
      - pose proof (failed_ok distance localNodeId C _ nodeId (ro_connections r) (ro_cache r) s Hok Hcache Hconn) as H1.
        pose proof (routable_spec distance C (ro_connections r) (ro_cache r) s Hcache Hconn (so_well_formed _ _ _ _ Hok)) as H3.
        destruct (routable_cached T (ro_connections r) (ro_cache r) s (key_of s) Hk Hpos) as [_ H4]. specialize (H4 eq_refl).
        destruct (updateAndGetRoutablePeers _ _ _ _) as [c0 contacts]. cbn in H4. subst contacts. destruct H3 as (_ & Hnd & Hreason).
        pose proof (failed_waiting C T (ro_connections r) (ro_cache r) _ answered nodeId s Hok Hw Hk Hpos (λ x Hx, proj2 (Hreason x Hx)) Hnd Hin Hnin) as H2.
        destruct (onRequestFailed _ _ _ _ _ _) as [[[cache' s'] sent] emitted]. split_and!; tauto. }
    destruct res as [[[cache' s'] sent] emitted]. destruct Hres as (Hk1 & Hsame & Hnext). cbn in Hafter. injection Hafter as -> ->.
    destruct (decide (emitted = [])) as [->|Hem].
    2: { left. destruct emitted as [|e em]; [done|]. exists e. apply elem_of_app. left. apply elem_of_app. right. left. }
    destruct Hnext as [?|Hw1]; [done|]. apply Hdone.
    assert (key_of s' = key_of s) as Hkey by (unfold key_of, getPreviousPeer; by rewrite (sm_target _ _ Hsame), (sm_path _ _ Hsame)).
    assert (requests_of sid (requests localNodeId sid s' sent ++ (SessionEvent sid <$> [])) = sent) as Hsent by by rewrite requests_of_requests, decide_True.
    rewrite Hsent in Honce. apply (IH _ _ (answered ++ [nodeId]) s' _ Hr1); try done.
    + cbn. by rewrite lookup_insert_eq.
    + cbn. by rewrite Hkey.
    + by rewrite requests_of_app, Hsent.
    + by rewrite requests_of_app, Hsent.
Qed.

Lemma start_waiting C out m mode excludedPeer r :
  router_ok distance localNodeId C out r → ro_sessions r !! sid = None → well_formed m →
  let '(r1, out1, err) := doRouteMessage distance localNodeId sid m mode excludedPeer r in
  err = None →
  ∃ s T, ro_sessions r1 !! sid = Some s ∧ ro_cache r1 !! key_of s = Some T ∧ (0 < getSize None T)%Z ∧
    waiting T (requests_of sid out1) [] s.
Proof using Type.
  intros Hr Hsid Hm. unfold doRouteMessage. destruct (ro_stopped r); [done|].
  set (s := createRoutingSession localNodeId m mode excludedPeer). pose proof Hr as [Hcache Hconn _ _ _ _].
  pose proof (new_session_ok distance localNodeId C m mode excludedPeer Hm : session_ok distance C [] s) as Hs.
  pose proof (routable_spec distance C (ro_connections r) (ro_cache r) s Hcache Hconn Hm) as Hroute.
  assert (let '(cache, contacts) := updateAndGetRoutablePeers distance (ro_connections r) (ro_cache r) s in
    ∃ T, cache !! key_of s = Some T ∧ contacts = left_to_ask T s) as Htable.
  { unfold updateAndGetRoutablePeers. fold (key_of s). destruct (ro_cache r !! key_of s) as [T|] eqn:Hk; [destruct (0 <? _)%Z|];
      eexists; (split; [|done]); [done|by rewrite lookup_insert_eq..]. }
  destruct (updateAndGetRoutablePeers _ _ _ _) as [cache contacts]. destruct Hroute as (Hcache' & Hnd & Hcontacts).
  destruct Htable as (T & Hk & ->). destruct (left_to_ask T s) as [|x xs] eqn:Hleft; [done|].
  assert (0 < getSize None T)%Z as Hpos.
  { unfold getSize. destruct (sc_contactIds T) as [|y ys] eqn:Hids; [|cbn; lia]. exfalso.
    assert (getClosestContacts None T = []) as Hno by (unfold getClosestContacts; cbn; by rewrite Hids).
    unfold left_to_ask in Hleft. by rewrite Hno in Hleft. }
  unfold sendMoreRequests. cbn [rs_stopped s createRoutingSession session_new].
  pose proof (request_loop_spec distance localNodeId C [] (x :: xs) s Hs eq_refl Hnd Hcontacts) as Hloop.
  change (session_new m _ mode _) with s. destruct (request_loop localNodeId (x :: xs) s) as [s1 sent].
  destruct Hloop as (Hok1 & Hsame & Hst1 & Hsu1 & _ & Hon1 & Hco1 & Hpre & Hfull).
  destruct (after_session localNodeId sid (cache, s1, sent, []) r) as [r1 out1] eqn:Hafter. cbn in Hafter. injection Hafter as <- <-. intros _.
  assert (key_of s1 = key_of s) as Hkey by (unfold key_of, getPreviousPeer; by rewrite (sm_target _ _ Hsame), (sm_path _ _ Hsame)).
  exists s1, T. cbn. rewrite lookup_insert_eq, Hkey. split_and!; [done..|].
  assert (requests_of sid (requests localNodeId sid s1 sent ++ []) = sent) as -> by (pose proof (requests_of_requests localNodeId sid sid s1 sent []) as Hq; cbn in Hq; by rewrite Hq, decide_True).
  pose proof (so_nodup _ _ _ _ Hok1) as Hnds. cbn in Hnds.
  assert (rs_ongoingRequests s1 = set_of sent) as Hon by (rewrite Hon1; cbn; set_solver).
  assert (sent ≠ []) as Hne.
  { intros ->. destruct Hfull as [Hf|?]; [|done]. rewrite Hon in Hf. cbn in Hf. rewrite size_empty in Hf. by case_bool_decide. }
  split.
  - done.
  - set_solver.
  - rewrite Hon. set_solver.
  - rewrite Hon, Hsu1. cbn. rewrite difference_empty_L. lia.
  - cbn. rewrite difference_empty_L. destruct sent; [done|]. cbn. set_solver.
  - destruct Hfull as [Hf| ->]; [right; by rewrite Hf, (sm_parallelism _ _ Hsame)|left].
    unfold left_to_ask. apply filter_none. intros y Hy [Hc1 Hc2]. apply Hc1. rewrite Hco1. apply elem_of_union_r, elem_of_list_to_set.
    rewrite <-Hleft. apply list_elem_of_filter. split; [|done]. split; [cbn; set_solver|by rewrite <-(sm_excluded _ _ Hsame)].
Qed.

(** A routing session ends when its requests are answered: while its peers stay connected, and as long as it has
    reported neither success nor failure, one of the peers it asked still owes an answer; as it asks three at most, it ends
    with the third answer, whatever other sessions, messages and answers come in between. *)
Theorem sessions_end_when_answered evs0 now m mode excludedPeer evs :
  legal_run distance localNodeId (evs0 ++ (now, EDoRoute sid m mode excludedPeer) :: evs) router_new →
  Forall (λ e, calm e.2) evs →
  let '(r0, out0) := run_ evs0 router_new in
  let '(r1, out1, err) := doRouteMessage distance localNodeId sid m mode excludedPeer r0 in
  err = None → answered_once [] evs (requests_of sid out1) r1 →
  let '(r2, out2) := run_ evs r1 in
  (∃ e, SessionEvent sid e ∈ out2) ∨
  ∃ nodeId, nodeId ∈ requests_of sid (out1 ++ out2) ∧ nodeId ∉ answers evs.
Proof using Type.
  intros Hlegal Hcalm. apply legal_run_app in Hlegal as [Hlegal0 [[Hsid Hm] Hlegal]].
  pose proof (router_run_ok distance localNodeId ∅ [] evs0 router_new (router_new_ok distance localNodeId) Hlegal0) as Hr0.
  destruct (run_ evs0 router_new) as [r0 out0]. cbn [fst] in Hsid. cbn [router_step fst] in Hlegal.
  pose proof (do_route_ok distance localNodeId _ _ sid m mode excludedPeer r0 Hr0 Hsid Hm) as Hr1.
  pose proof (start_waiting _ _ m mode excludedPeer r0 Hr0 Hsid Hm) as Hstart.
  pose proof (rk_fresh _ _ _ _ _ Hr0 sid Hsid) as Hfresh.
  destruct (doRouteMessage distance localNodeId sid m mode excludedPeer r0) as [[r1 out1] err]. intros Herr Honce.
  destruct (Hstart Herr) as (s & T & Hs & Hk & Hpos & Hw). cbn [fst] in Hlegal.
  rewrite app_nil_l in Hfresh, Hr1.
  assert (requests_of sid (out0 ++ out1) = requests_of sid out1) as Hreq by by rewrite requests_of_app, Hfresh.
  destruct (waiting_run _ T _ [] evs s r1 Hr1 Hlegal Hcalm Hs Hk Hpos) as [Hev|(nodeId & Hin & Hnin)].
  - by rewrite Hreq.
  - by rewrite Hreq.
  - destruct (run_ evs r1) as [r2 out2]. by left.
  - destruct (run_ evs r1) as [r2 out2]. right. exists nodeId. split; [|done].
    rewrite requests_of_app in Hin |- *. by rewrite Hreq in Hin.
Qed.
End waiting.

Module RoutingWitness.

(** Ids of one letter, forty times; the distance is that of the letters. *)
Fixpoint repeated (n : nat) (c : Ascii.ascii) : string := match n with O => "" | S n => String c (repeated n c) end.
Definition peer (x : string) : string := match x with String c _ => repeated 40 c | EmptyString => x end.
Definition code (x : string) : Z := match x with String c _ => Z.of_N (Ascii.N_of_ascii c) | EmptyString => 0 end.
Definition distance (a b : string) : Z := Z.abs (code a - code b).

Definition me : string := peer "m".

Definition message : RouteMessageWrapper := MkRouted "request" (peer "g") me [] [] [] "hello" (peer "g").

(** Three peers; a message of its own, to two of them at a time. *)
Definition before : list (Z * router_event) := [(0, EConnected (peer "a")); (0, EConnected (peer "h")); (0, EConnected (peer "d"))]%Z.
Definition start : Z * router_event := (1%Z, EDoRoute 0 message ROUTE None).
Definition after : list (Z * router_event) := [(2, EAnswered 0 (peer "h") false); (3, EAnswered 0 (peer "d") true)]%Z.

Lemma all_legal : legal_run distance me (before ++ start :: after) router_new.
Proof. repeat split; constructor. Qed.

Definition the_session : RoutingSession :=
  default (session_new message 0 ROUTE ∅) (ro_sessions (router_run distance me (before ++ start :: after) router_new).1 !! 0).

Example asked_in_order :
  requests_of 0 (router_run distance me (before ++ start :: after) router_new).2 = [peer "h"; peer "d"; peer "a"].
Proof. vm_compute. reflexivity. Qed.

Lemma routing_is_justified_witness :
  legal_run distance me (before ++ start :: after) router_new ∧
  ro_sessions (router_run distance me (before ++ start :: after) router_new).1 !! 0 = Some the_session ∧
  let '(r, out) := router_run distance me (before ++ start :: after) router_new in
  let m := rs_routedMessage the_session in
  let asked := requests_of 0 out in
  NoDup asked ∧ length asked ≤ S (rs_parallelism the_session) ≤ 3 ∧
  (∀ nodeId, nodeId ∈ asked → nodeId ∈ connected_peers (before ++ start :: after) ∧ nodeId ∉ rm_routingPath m ∧
     ∀ prev, getPreviousPeer m = Some prev → (distance (rm_target m) nodeId ≤ distance (rm_target m) prev)%Z) ∧
  (∀ nodeId mode m', Request 0 nodeId mode m' ∈ out →
     rm_target m' = rm_target m ∧ rm_routingPath m' = rm_routingPath m ++ [me]).
Proof.
  assert (ro_sessions (router_run distance me (before ++ start :: after) router_new).1 !! 0 = Some the_session) as Hs
    by (vm_compute; reflexivity).
  split; [exact all_legal|]. split; [exact Hs|].
  pose proof (routing_is_justified distance me (before ++ start :: after) 0 the_session all_legal) as Hj.
  destruct (router_run distance me (before ++ start :: after) router_new) as [r out]. exact (Hj Hs).
Defined.

Lemma sessions_end_when_answered_witness :
  legal_run distance me (before ++ start :: after) router_new ∧
  let '(r0, out0) := router_run distance me before router_new in
  let '(r1, out1, err) := doRouteMessage distance me 0 message ROUTE None r0 in
  err = None ∧ answered_once distance me 0 [] after (requests_of 0 out1) r1 ∧
  let '(r2, out2) := router_run distance me after r1 in
  (∃ e, SessionEvent 0 e ∈ out2) ∨
  ∃ nodeId, nodeId ∈ requests_of 0 (out1 ++ out2) ∧ nodeId ∉ answers 0 after.
Proof.
  split; [exact all_legal|].
  pose proof (sessions_end_when_answered distance me 0 before 1 message ROUTE None after all_legal) as He.
  assert (Forall (λ e, calm 0 e.2) after) as Hcalm by (repeat constructor). specialize (He Hcalm).
  assert ((doRouteMessage distance me 0 message ROUTE None (router_run distance me before router_new).1).2 = None) as Herr
    by (vm_compute; reflexivity).
  assert (answered_once distance me 0 [] after
    (requests_of 0 (doRouteMessage distance me 0 message ROUTE None (router_run distance me before router_new).1).1.2)
    (doRouteMessage distance me 0 message ROUTE None (router_run distance me before router_new).1).1.1) as Honce.
  { apply (bool_decide_unpack _). vm_compute. exact I. }
  destruct (router_run distance me before router_new) as [r0 out0]. cbn [fst] in Herr, Honce.
  destruct (doRouteMessage distance me 0 message ROUTE None r0) as [[r1 out1] err]. cbn [fst snd] in Herr, Honce.
  split; [exact Herr|]. split; [exact Honce|]. exact (He Herr Honce).
Defined.

Lemma one_hop : route distance (peer "g") [me] (peer "h").
Proof.
  assert (ro_sessions (router_run distance me (before ++ start :: after) router_new).1 !! 0 = Some the_session) as Hs by (vm_compute; reflexivity).
  apply (route_hop distance (peer "g") [] me (before ++ start :: after) 0 the_session (peer "h")).
  - constructor.
  - exact all_legal.
  - apply (bool_decide_unpack _). vm_compute. exact I.
  - exact Hs.
  - vm_compute. reflexivity.
  - vm_compute. reflexivity.
  - apply (bool_decide_unpack _). vm_compute. exact I.
Qed.

Lemma routes_do_not_loop_witness :
  route distance (peer "g") [me] (peer "h") ∧
  NoDup ([me] ++ [peer "h"]) ∧ length [me] < size ({[me; peer "h"; peer "g"]} : gset string) ∧
  ∀ i x y, ([me] ++ [peer "h"]) !! i = Some x → ([me] ++ [peer "h"]) !! (i + 2) = Some y → (distance (peer "g") y ≤ distance (peer "g") x)%Z.
Proof.
  split; [exact one_hop|]. apply (routes_do_not_loop distance (peer "g") [me] (peer "h") {[me; peer "h"; peer "g"]} one_hop).
  intros x Hx. cbn in Hx. set_solver.
Defined.

(** ** Sessions that wait in vain *)

Definition stopped_session (r : Router) : option bool := rs_stopped <$> ro_sessions r !! 0.

(** A peer that connects after the only one was asked: the success of that one neither ends the session nor asks the new
    peer, because the request that succeeded still counts as ongoing. *)
Example success_waits_for_nothing :
  let '(r, out) := router_run distance me
    [(0, EConnected (peer "a")); (1, EDoRoute 0 message ROUTE None); (2, EConnected (peer "h")); (3, EAnswered 0 (peer "a") true)]%Z router_new in
  requests_of 0 out = [peer "a"] ∧ stopped_session r = Some false.
Proof. split; vm_compute; reflexivity. Qed.

(** A request that throws counts neither as a success nor as a failure. *)
Example throw_waits_for_nothing :
  let '(r, out) := router_run distance me
    [(0, EConnected (peer "a")); (1, EDoRoute 0 message ROUTE None); (2, EThrew 0 (peer "a"))]%Z router_new in
  requests_of 0 out = [peer "a"] ∧ stopped_session r = Some false.
Proof. split; vm_compute; reflexivity. Qed.

(** The first failure ends a session whose other request is not answered yet. *)
Example failure_does_not_wait :
  (router_run distance me
    [(0, EConnected (peer "a")); (0, EConnected (peer "h")); (1, EDoRoute 0 message ROUTE None); (2, EAnswered 0 (peer "a") false)]%Z router_new).2 =
  ((λ x, Request 0 (peer x) ROUTE (forwarded me message)) <$> ["h"; "a"]) ++ [SessionEvent 0 RoutingFailed].
Proof. vm_compute. reflexivity. Qed.
End RoutingWitness.
