(* ===== verification/Recursive.v ===== *)
(** * Recursive operations of the DHT

    Translated from [dht/recursive-operation/]: [RecursiveOperationSession.ts] (the reports of one operation),
    [RecursiveOperationManager.ts] (starting operations and taking part in those of others) and
    [RecursiveOperationRpcLocal.ts], over the router of [Routing] and the data store of [DataStore].

    A peer is its node id.  The entries that a node holds and those that it gets in reports are objects of its data
    store, known by their numbers.  Promises are events: the wait of [execute] ends by the event [completed], or by its
    timer.  How a request is written into a message is an interface. *)

From S2P Require Import Prelude.
From S2P Require Import JsMap.
From S2P Require Import Contacts.
From S2P Require Import Connections.
From S2P Require Import Routing.
From S2P Require Import DataStore.
From Stdlib Require Import Ascii.

Set Default Proof Using "Type".

Inductive RecursiveOperation := FIND_CLOSEST_NODES | FETCH_DATA | DELETE_DATA.
#[export] Instance operation_eq_dec : EqDecision RecursiveOperation.
Proof. solve_decision. Defined.

Definition RECURSIVE_OPERATION_TIMEOUT : Z := (10 * 1000)%Z.
Definition COMPLETION_TIMEOUT : Z := 4000%Z.

#[export] Instance route_error_eq_dec : EqDecision route_error.
Proof. solve_decision. Defined.

(** [<] and [<=] of two objects compare the texts that they convert to. *)
Definition object_text (t : Timestamp) : string := "[object Object]".

Fixpoint text_compare (a b : string) : comparison :=
  match a, b with
  | EmptyString, EmptyString => Eq
  | EmptyString, _ => Lt
  | _, EmptyString => Gt
  | String x a, String y b =>
      match N.compare (Ascii.N_of_ascii x) (Ascii.N_of_ascii y) with Eq => text_compare a b | c => c end
  end.

Definition js_lt (t t' : Timestamp) : bool :=
  match text_compare (object_text t) (object_text t') with Lt => true | _ => false end.
Definition js_le (t t' : Timestamp) : bool :=
  match text_compare (object_text t) (object_text t') with Gt => false | _ => true end.

(** * A session *)

Record OperationSession := MkOperation {
  os_targetId : string;
  os_local : string;
  os_waitedRoutingPathCompletions : nat;
  os_operation : RecursiveOperation;
  os_results : routing_table;
  os_foundData : jsmap string nat;
  os_allKnownHops : gset string;
  os_reportedHops : gset string;
  (** when [timeoutTask] is due *)
  os_timeoutTask : option Z;
  os_completionEventEmitted : bool;
  os_noCloserNodesReceivedCounter : nat;
  os_noCloserNodesReceivedFrom : gset string;
  (** how often [completed] was emitted *)
  os_completed : nat;
  (** whether the communicator of the session is destroyed *)
  os_stopped : bool }.

Record Report := MkReport {
  rp_remote : string;
  rp_routingPath : list string;
  rp_closestConnectedNodes : list string;
  rp_dataEntries : list nat;
  rp_noCloserNodesFound : bool }.

Section session.
  Context (distance : string → string → Z) `{SortedIndex}.
  Implicit Types (s : OperationSession) (r : Report) (objects : list DataEntry) (nodeId : string) (now : Z).

Definition operation_new (targetId localPeer : string) (waited : nat) (operation : RecursiveOperation) : OperationSession :=
  MkOperation targetId localPeer waited operation (sorted_new (MkSortedOptions targetId true (Some 10) None None))
    [] ∅ ∅ None false 0 ∅ 0 false.

Definition with_hops (known reported : gset string) s : OperationSession :=
  MkOperation (os_targetId s) (os_local s) (os_waitedRoutingPathCompletions s) (os_operation s) (os_results s) (os_foundData s)
    known reported (os_timeoutTask s) (os_completionEventEmitted s) (os_noCloserNodesReceivedCounter s)
    (os_noCloserNodesReceivedFrom s) (os_completed s) (os_stopped s).

Definition with_found (results : routing_table) (found : jsmap string nat) s : OperationSession :=
  MkOperation (os_targetId s) (os_local s) (os_waitedRoutingPathCompletions s) (os_operation s) results found
    (os_allKnownHops s) (os_reportedHops s) (os_timeoutTask s) (os_completionEventEmitted s) (os_noCloserNodesReceivedCounter s)
    (os_noCloserNodesReceivedFrom s) (os_completed s) (os_stopped s).

(** [timer], [emitted] and [completed] replaced *)
Definition with_events (timer : option Z) (emitted : bool) (completed : nat) s : OperationSession :=
  MkOperation (os_targetId s) (os_local s) (os_waitedRoutingPathCompletions s) (os_operation s) (os_results s) (os_foundData s)
    (os_allKnownHops s) (os_reportedHops s) timer emitted (os_noCloserNodesReceivedCounter s)
    (os_noCloserNodesReceivedFrom s) completed (os_stopped s).

Definition count_no_closer nodeId s : OperationSession :=
  MkOperation (os_targetId s) (os_local s) (os_waitedRoutingPathCompletions s) (os_operation s) (os_results s) (os_foundData s)
    (os_allKnownHops s) (os_reportedHops s) (os_timeoutTask s) (os_completionEventEmitted s)
    (S (os_noCloserNodesReceivedCounter s)) ({[nodeId]} ∪ os_noCloserNodesReceivedFrom s) (os_completed s) (os_stopped s).

Definition hasNonStaleData objects s : bool :=
  existsb (λ id, match objects !! id with Some e => negb (de_stale e) | None => false end) (os_foundData s).*2.

Definition unreportedHops s : gset string := os_allKnownHops s ∖ os_reportedHops s.

Definition isCompleted objects s : bool :=
  if (1 <=? os_noCloserNodesReceivedCounter s)%nat && bool_decide (unreportedHops s = ∅) then
    if bool_decide (os_operation s = FETCH_DATA)
       && (hasNonStaleData objects s || (os_waitedRoutingPathCompletions s <=? os_noCloserNodesReceivedCounter s)%nat) then true
    else if bool_decide (os_operation s = FETCH_DATA) then false
    else true
  else false.

Definition addKnownHops (routingPath : list string) s : OperationSession :=
  with_hops (list_to_set (filter (λ p, p ≠ os_local s) routingPath) ∪ os_allKnownHops s) (os_reportedHops s) s.

Definition emit_completed s : OperationSession := with_events None true (S (os_completed s)) s.

Definition setHopAsReported objects nodeId s : OperationSession :=
  let s := if decide (os_local s = nodeId) then s else with_hops (os_allKnownHops s) ({[nodeId]} ∪ os_reportedHops s) s in
  if isCompleted objects s then
    if negb (os_completionEventEmitted s) && isCompleted objects s then emit_completed s else s
  else s.

(** Whether an entry replaces the one that was found before *)
Definition replaces (existing : option DataEntry) (entry : DataEntry) : bool :=
  match existing with
  | None => true
  | Some existing => js_lt (de_createdAt existing) (de_createdAt entry)
                     || (js_le (de_createdAt existing) (de_createdAt entry) && de_deleted entry)
  end.

Fixpoint processFoundData objects (dataEntries : list nat) (found : jsmap string nat) : jsmap string nat :=
  match dataEntries with
  | [] => found
  | id :: dataEntries =>
      processFoundData objects dataEntries
        (match objects !! id with
         | None => found
         | Some entry => if replaces (map_get (de_creator entry) found ≫= λ id, objects !! id) entry
                         then map_set (de_creator entry) id found else found
         end)
  end.

Definition onNoCloserPeersFound objects now nodeId s : OperationSession :=
  let s := count_no_closer nodeId s in
  if isCompleted objects s then emit_completed s
  else if bool_decide (os_timeoutTask s = None) && negb (os_completionEventEmitted s)
       then with_events (Some (now + COMPLETION_TIMEOUT)%Z) (os_completionEventEmitted s) (os_completed s) s
  else s.

(** The timer of [timeoutTask]; the task is forgotten only when the session completes otherwise. *)
Definition operation_timeout now s : OperationSession :=
  match os_timeoutTask s with
  | Some due => if (due <=? now)%Z && negb (os_completionEventEmitted s)
                then with_events (os_timeoutTask s) true (S (os_completed s)) s else s
  | None => s
  end.

(** The contacts of a list of ten: adding to it does not throw. *)
Definition add_results (nodes : list string) (results : routing_table) : routing_table :=
  match addContacts id distance nodes results with Return r => r.1 | Throw _ => results end.

Definition onResponseReceived objects now r s : OperationSession :=
  let s := addKnownHops (rp_routingPath r) s in
  let s := match last (rp_routingPath r) with Some hop => setHopAsReported objects hop s | None => s end in
  let s := with_found (add_results (rp_closestConnectedNodes r) (os_results s))
             (processFoundData objects (rp_dataEntries r) (os_foundData s)) s in
  if rp_noCloserNodesFound r || bool_decide (rp_remote r ∈ os_noCloserNodesReceivedFrom s)
  then onNoCloserPeersFound objects now (rp_remote r) s else s.

Record OperationResult := MkResult { or_closestNodes : list string; or_dataEntries : list nat }.

Definition getResults s : OperationResult :=
  MkResult (getClosestContacts None (os_results s)) (os_foundData s).*2.

Definition operation_stop s : OperationSession :=
  MkOperation (os_targetId s) (os_local s) (os_waitedRoutingPathCompletions s) (os_operation s) (os_results s) (os_foundData s)
    (os_allKnownHops s) (os_reportedHops s) None (os_completionEventEmitted s) (os_noCloserNodesReceivedCounter s)
    (os_noCloserNodesReceivedFrom s) (S (os_completed s)) true.
End session.

(** * The manager *)

(** The request in the body of a message *)
Class RequestBody := {
  write_request : string → RecursiveOperation → string;
  read_request : string → string * RecursiveOperation;
  read_write_request sessionId operation : read_request (write_request sessionId operation) = (sessionId, operation) }.

Record OperationManager := MkManager {
  mg_store : LocalDataStore;
  mg_router : Router;
  (** the sessions that exist *)
  mg_operations : gmap string OperationSession;
  (** [ongoingSessions], with what [execute] waits for: until when, and whether the event ends the wait *)
  mg_ongoingSessions : gmap string (Z * bool);
  mg_stopped : bool }.

Inductive manager_output :=
  | RouterOutput (o : router_output)
  | SendResponse (target sessionId : string) (routingPath closestConnectedNodes : list string) (dataEntries : list DataEntry)
      (noCloserNodesFound : bool)
  | OperationDone (sessionId : string) (result : OperationResult).

Section manager.
  Context (distance : string → string → Z) `{SortedIndex} `{RequestBody} (localNodeId : string).
  Implicit Types (m : OperationManager) (w : RouteMessageWrapper) (now : Z) (sessionId targetId : string).

Definition with_operation sessionId (f : OperationSession → OperationSession) m : OperationManager :=
  MkManager (mg_store m) (mg_router m) (alter f sessionId (mg_operations m)) (mg_ongoingSessions m) (mg_stopped m).

Definition with_router (r : Router) m : OperationManager :=
  MkManager (mg_store m) r (mg_operations m) (mg_ongoingSessions m) (mg_stopped m).

Definition with_local_store (s : LocalDataStore) m : OperationManager :=
  MkManager s (mg_router m) (mg_operations m) (mg_ongoingSessions m) (mg_stopped m).

Definition getClosestConnectedNodes (referenceId : string) (limit : nat) m : list string :=
  getClosestContacts (Some (Z.of_nat limit))
    (add_results distance (ro_connections (mg_router m)) (sorted_new (MkSortedOptions referenceId true (Some limit) None None))).

Definition isPeerCloserToIdThanSelf (peer nodeIdOrDataKey : string) : bool :=
  (distance peer nodeIdOrDataKey <? distance localNodeId nodeIdOrDataKey)%Z.

(** To a session of this node, or in a message; [r] is the report as from the local node. *)
Definition sendResponse now (target sessionId : string) (r : Report) m : OperationManager * list manager_output :=
  if bool_decide (localNodeId = target) && bool_decide (is_Some (mg_ongoingSessions m !! sessionId)) then
    (with_operation sessionId (onResponseReceived distance (ld_objects (mg_store m)) now r) m, [])
  else (m, [SendResponse target sessionId (rp_routingPath r) (rp_closestConnectedNodes r)
              (omap (λ id, ld_objects (mg_store m) !! id) (rp_dataEntries r)) (rp_noCloserNodesFound r)]).

Definition fetched (operation : RecursiveOperation) targetId m : list nat :=
  if bool_decide (operation = FETCH_DATA) then store_values (Some targetId) (mg_store m) else [].

Definition delete_own (operation : RecursiveOperation) targetId (source : string) m : OperationManager :=
  if bool_decide (operation = DELETE_DATA) then with_local_store (markAsDeleted targetId source (mg_store m)).1 m else m.

(** Whether no connection of this node is closer to the target, as far as a message tells *)
Definition no_closer (ack : option route_error) (closest : list string) w : bool :=
  bool_decide (ack = Some NO_TARGETS) ||
  match closest, getPreviousPeer w with
  | first :: _, Some _ => negb (isPeerCloserToIdThanSelf first (rm_target w))
  | _, _ => false
  end.

(** [rid] numbers the session of the router. *)
Definition doRouteRequest now (rid : nat) w (excludedPeer : option string) m
    : OperationManager * list manager_output * option route_error :=
  if mg_stopped m then (m, [], Some STOPPED)
  else
    let targetId := rm_target w in
    let '(sessionId, operation) := read_request (rm_message w) in
    let closest := getClosestConnectedNodes targetId 5 m in
    let dataEntries := fetched operation targetId m in
    let m := delete_own operation targetId (rm_sourcePeer w) m in
    let report := MkReport localNodeId (rm_routingPath w) closest dataEntries in
    if bool_decide (localNodeId = rm_target w) then
      let '(m, out) := sendResponse now (rm_sourcePeer w) sessionId (report true) m in (m, out, None)
    else
      let '(router, routed, ack) := doRouteMessage distance localNodeId rid w RECURSIVE excludedPeer (mg_router m) in
      let m := with_router router m in
      if bool_decide (ack = None) || bool_decide (ack = Some NO_TARGETS) then
        let '(m, out) := sendResponse now (rm_sourcePeer w) sessionId (report (no_closer ack closest w)) m in
        (m, (RouterOutput <$> routed) ++ out, ack)
      else (m, RouterOutput <$> routed, ack).

(** [RecursiveOperationRpcLocal] *)
Definition routeRequest_rpc now (rid : nat) w m : OperationManager * list manager_output * option route_error :=
  if isMostLikelyDuplicate (rm_requestId w) (ro_duplicateRequestDetector (mg_router m)) then (m, [], Some DUPLICATE)
  else
    let router := with_detector (detector_add (rm_requestId w) (ro_duplicateRequestDetector (mg_router m))) (mg_router m) in
    doRouteRequest now rid w None (with_router router m).

(** The handler of [routeRequest] *)
Definition routeRequest now (rid : nat) w m : OperationManager * list manager_output * option route_error :=
  if mg_stopped m then (m, [], Some STOPPED) else routeRequest_rpc now rid w m.

(** [start] of a session; [requestId] is the random id of the request *)
Definition wrapRequest (requestId sessionId targetId : string) (operation : RecursiveOperation) : RouteMessageWrapper :=
  MkRouted requestId targetId localNodeId [] [] [] (write_request sessionId operation) EmptyString.

(** [execute] until it waits; [None] is what it answers at once when it need not. *)
Definition execute now (rid : nat) (sessionId requestId targetId : string) (operation : RecursiveOperation)
    (excludedPeer : option string) (waitForCompletion : bool) m : OperationManager * list manager_output :=
  if mg_stopped m then (m, [OperationDone sessionId (MkResult [] [])])
  else
    let connections := length (ro_connections (mg_router m)) in
    let session := operation_new targetId localNodeId (if (1 <? connections)%nat then 2 else 1) operation in
    if (connections =? 0)%nat then
      let r := MkReport localNodeId [localNodeId] [localNodeId] (store_values (Some targetId) (mg_store m)) true in
      let session := onResponseReceived distance (ld_objects (mg_store m)) now r session in
      (MkManager (mg_store m) (mg_router m) (<[sessionId := session]> (mg_operations m)) (mg_ongoingSessions m) (mg_stopped m),
       [OperationDone sessionId (getResults session)])
    else
      let wait := if waitForCompletion then (now + RECURSIVE_OPERATION_TIMEOUT)%Z else (now + 50)%Z in
      let m := MkManager (mg_store m) (mg_router m) (<[sessionId := session]> (mg_operations m))
                 (<[sessionId := (wait, waitForCompletion)]> (mg_ongoingSessions m)) (mg_stopped m) in
      let '(m, out, _) := doRouteRequest now rid (wrapRequest requestId sessionId targetId operation) excludedPeer m in (m, out).

(** What [execute] does when its wait is over *)
Definition finish now sessionId m : OperationManager * list manager_output :=
  match mg_operations m !! sessionId with
  | None => (m, [])
  | Some s =>
      let '(m, out) :=
        if bool_decide (os_operation s = FETCH_DATA) then
          match store_values (Some (os_targetId s)) (mg_store m) with
          | [] => (m, [])
          | dataEntries => sendResponse now localNodeId sessionId (MkReport localNodeId [localNodeId] [] dataEntries true) m
          end
        else (delete_own (os_operation s) (os_targetId s) localNodeId m, []) in
      let m := with_operation sessionId operation_stop m in
      (MkManager (mg_store m) (mg_router m) (mg_operations m) (delete sessionId (mg_ongoingSessions m)) (mg_stopped m),
       out ++ match mg_operations m !! sessionId with Some s => [OperationDone sessionId (getResults s)] | None => [] end)
  end.

(** Entries that come in a message are new objects. *)
Fixpoint alloc_all (entries : list DataEntry) (s : LocalDataStore) : LocalDataStore * list nat :=
  match entries with
  | [] => (s, [])
  | e :: entries => let '(s, id) := alloc e s in let '(s, ids) := alloc_all entries s in (s, id :: ids)
  end.

(** [sendResponse] of a remote, to the communicator of a session *)
Definition response_received now sessionId (remote : string) (routingPath closest : list string) (entries : list DataEntry)
    (noCloser : bool) m : OperationManager :=
  let '(s, ids) := alloc_all entries (mg_store m) in
  with_operation sessionId (λ op, if os_stopped op then op else
      onResponseReceived distance (ld_objects s) now (MkReport remote routingPath closest ids noCloser) op)
    (with_local_store s m).

Definition manager_stop m : OperationManager :=
  MkManager (mg_store m) (mg_router m)
    (map_imap (λ sessionId s, Some (if bool_decide (is_Some (mg_ongoingSessions m !! sessionId)) then operation_stop s else s)) (mg_operations m))
    ∅ true.
End manager.

(** * What a session does with its reports *)

Section session_runs.
  Context (distance : string → string → Z) `{SortedIndex}.
  Context (targetId localPeer : string) (waited : nat) (operation : RecursiveOperation).
  Implicit Types (s : OperationSession) (r : Report) (objects : list DataEntry) (now : Z) (log : list (Z * Report)).

Inductive operation_event := OReport (r : Report) | OTimeout.

(** An event at a time, with the objects of the node as they are then *)
Definition operation_step (x : Z * list DataEntry * operation_event) s : OperationSession :=
  match x with
  | (now, objects, OReport r) => onResponseReceived distance objects now r s
  | (now, objects, OTimeout) => operation_timeout now s
  end.

Definition operation_run (evs : list (Z * list DataEntry * operation_event)) : OperationSession :=
  foldl (λ s x, operation_step x s) (operation_new targetId localPeer waited operation) evs.

Definition reports_of (evs : list (Z * list DataEntry * operation_event)) : list (Z * Report) :=
  omap (λ x, match x.2 with OReport r => Some (x.1.1, r) | OTimeout => None end) evs.

(** When the first report came that tells of no closer nodes *)
Definition first_no_closer log : option Z := head ((filter (λ x, rp_noCloserNodesFound x.2 = true) log).*1).

(** The reports of nodes that told so *)
Definition told log (x : Z * Report) : Prop := Exists (λ y, rp_remote y.2 = rp_remote x.2 ∧ rp_noCloserNodesFound y.2 = true) log.

#[export] Instance told_dec log x : Decision (told log x).
Proof. unfold told. apply _. Defined.

Definition counted log : list (Z * Report) := filter (told log) log.

(** Why an operation is over: a node found no closer ones; every node on the way of a report reported itself; and data that
    is not stale was found, or enough reports came, if data is looked for. *)
Definition operation_settled log objects : Prop :=
  first_no_closer log ≠ None ∧
  (∀ x hop, x ∈ log → hop ∈ rp_routingPath x.2 → hop ≠ localPeer → ∃ y, y ∈ log ∧ last (rp_routingPath y.2) = Some hop) ∧
  (operation = FETCH_DATA →
     (∃ x id e, x ∈ log ∧ id ∈ rp_dataEntries x.2 ∧ objects !! id = Some e ∧ de_stale e = false) ∨ waited ≤ length (counted log)).

Definition result_options : SortedContactListOptions := MkSortedOptions targetId true (Some 10) None None.

Definition nodes_of log : list string := log ≫= λ x, rp_closestConnectedNodes x.2.

(** The state of a session, as far as its hops, its counter and its results have seen the log *)
Record stage (hops log found : list (Z * Report)) s : Prop := {
  oi_same : os_targetId s = targetId ∧ os_local s = localPeer ∧ os_waitedRoutingPathCompletions s = waited ∧ os_operation s = operation;
  oi_known : ∀ hop, hop ∈ os_allKnownHops s ↔ hop ≠ localPeer ∧ ∃ x, x ∈ hops ∧ hop ∈ rp_routingPath x.2;
  oi_reported : ∀ hop, hop ∈ os_reportedHops s → ∃ x, x ∈ hops ∧ last (rp_routingPath x.2) = Some hop;
  oi_from : ∀ nodeId, nodeId ∈ os_noCloserNodesReceivedFrom s → ∃ x, x ∈ log ∧ rp_remote x.2 = nodeId ∧ rp_noCloserNodesFound x.2 = true;
  oi_counter : os_noCloserNodesReceivedCounter s ≤ length (counted log);
  oi_some : os_noCloserNodesReceivedCounter s = 0 ↔ first_no_closer log = None;
  oi_found : ∀ id, id ∈ (os_foundData s).*2 → ∃ x, x ∈ found ∧ id ∈ rp_dataEntries x.2;
  oi_results : sc_inv id distance (os_results s) ∧ sc_options (os_results s) = result_options ∧
    kept distance (list_to_set (nodes_of found)) (os_results s) ∧
    ∀ id c, map_get id (sc_contactsById (os_results s)) = Some c → c ∈ nodes_of found;
  oi_emitted : os_completionEventEmitted s = true ↔ 0 < os_completed s;
  oi_timer : os_completionEventEmitted s = false → os_timeoutTask s = (λ t, t + COMPLETION_TIMEOUT)%Z <$> first_no_closer log;
  oi_quiet : first_no_closer log = None → os_completionEventEmitted s = false }.

Lemma first_no_closer_snoc log now r :
  first_no_closer (log ++ [(now, r)]) =
  match first_no_closer log with Some t => Some t | None => if rp_noCloserNodesFound r then Some now else None end.
Proof using Type.
  unfold first_no_closer. rewrite filter_app, fmap_app. destruct (filter _ log) as [|x l]; [|done].
  rewrite filter_cons, filter_nil. cbn. by destruct (rp_noCloserNodesFound r).
Qed.

Lemma counted_grows log x : (length (counted log) ≤ length (counted (log ++ [x])) ∧
  ((∃ y, y ∈ log ++ [x] ∧ rp_remote y.2 = rp_remote x.2 ∧ rp_noCloserNodesFound y.2 = true) →
   S (length (counted log)) ≤ length (counted (log ++ [x])))).
Proof using Type.
  unfold counted. assert (∀ l, length (filter (told log) l) ≤ length (filter (told (log ++ [x])) l)) as Hmono.
  { induction l as [|z l IH]; [done|]. rewrite !filter_cons.
    destruct (decide (told log z)) as [Hd|Hd], (decide (told (log ++ [x]) z)) as [Hd'|Hd']; cbn; [lia| |lia|lia].
    destruct Hd'. apply Exists_app. by left. }
  specialize (Hmono log). rewrite (filter_app (told (log ++ [x]))), length_app. split; [lia|]. intros (y & Hy & Hyx).
  rewrite filter_cons, decide_True by (apply Exists_exists; by exists y). cbn. lia.
Qed.

Lemma completed_settled hops log found s objects : stage hops log found s → isCompleted objects s = true →
  first_no_closer log ≠ None ∧
  (∀ x hop, x ∈ hops → hop ∈ rp_routingPath x.2 → hop ≠ localPeer → ∃ y, y ∈ hops ∧ last (rp_routingPath y.2) = Some hop) ∧
  (operation = FETCH_DATA →
     (∃ x id e, x ∈ found ∧ id ∈ rp_dataEntries x.2 ∧ objects !! id = Some e ∧ de_stale e = false) ∨ waited ≤ length (counted log)).
Proof using Type.
  intros [(_ & _ & Hw & Hop) Hknown Hrep _ Hcounter Hsome Hfound _ _ _ _]. unfold isCompleted.
  destruct (1 <=? os_noCloserNodesReceivedCounter s) eqn:H1; [|done]. apply Nat.leb_le in H1. cbn [andb].
  destruct (bool_decide (unreportedHops s = ∅)) eqn:Hun; [|done]. apply bool_decide_eq_true in Hun. intros Hfetch. split_and!.
  - intros Hnone. apply Hsome in Hnone. lia.
  - intros x hop Hx Hhop Hl. apply Hrep. destruct (decide (hop ∈ os_reportedHops s)) as [|Hn]; [done|].
    assert (hop ∈ unreportedHops s) as Hin; [|rewrite Hun in Hin; set_solver]. apply elem_of_difference. split; [|done].
    apply Hknown. split; [done|by exists x].
  - intros Hf. rewrite Hop, bool_decide_eq_true_2 in Hfetch by done. cbn [andb] in Hfetch.
    destruct (hasNonStaleData objects s) eqn:Hdata; cbn [orb] in Hfetch.
    + left. unfold hasNonStaleData in Hdata. apply existsb_exists in Hdata as (id & Hid%list_elem_of_In & He).
      destruct (objects !! id) as [e|] eqn:Ho; [|done]. destruct (Hfound id Hid) as (x & ? & ?). exists x, id, e. by apply negb_true_iff in He.
    + right. destruct (os_waitedRoutingPathCompletions s <=? _) eqn:Hle; [|done]. apply Nat.leb_le in Hle. rewrite Hw in Hle. lia.
Qed.

(** Emitting the event keeps the rest. *)
Lemma emit_stage hops log found s : stage hops log found s → first_no_closer log ≠ None → stage hops log found (emit_completed s).
Proof using Type.
  intros [] Hfirst. split; cbn; try done. split; [|done]. lia.
Qed.

Lemma known_stage hops log found s x : stage hops log found s →
  stage (hops ++ [x]) log found (addKnownHops (rp_routingPath x.2) s).
Proof using Type.
  intros [Hsame Hknown Hrep ? ? ? ? ? ? ? ?]. destruct Hsame as (? & Hl & ? & ?). split; cbn; try done.
  - intros hop. rewrite elem_of_union, elem_of_list_to_set, list_elem_of_filter, Hl, Hknown. setoid_rewrite elem_of_app.
    setoid_rewrite list_elem_of_singleton. naive_solver.
  - intros hop Hhop. destruct (Hrep hop Hhop) as (y & ? & ?). exists y. split; [apply elem_of_app; by left|done].
Qed.

Lemma reported_stage hops log found s x hop objects : stage (hops ++ [x]) log found s → last (rp_routingPath x.2) = Some hop →
  let s' := setHopAsReported objects hop s in
  stage (hops ++ [x]) log found s' ∧ os_completed s ≤ os_completed s' ∧
  (os_completed s < os_completed s' → ∃ s1, stage (hops ++ [x]) log found s1 ∧ isCompleted objects s1 = true).
Proof using Type.
  intros Hs Hlast. cbn zeta. unfold setHopAsReported.
  set (s1 := if decide (os_local s = hop) then s else _).
  assert (stage (hops ++ [x]) log found s1) as Hs1.
  { subst s1. case_decide; [done|]. destruct Hs as [? ? Hrep ? ? ? ? ? ? ? ?]. split; cbn; try done.
    intros hop' [->%elem_of_singleton|Hin]%elem_of_union; [|by apply Hrep]. exists x. split; [apply elem_of_app; right; by apply list_elem_of_singleton|done]. }
  assert (os_completed s1 = os_completed s) as Hc by (subst s1; by case_decide). clearbody s1.
  destruct (isCompleted objects s1) eqn:Hcomp; [|by rewrite Hc; split_and!; [|lia|lia]].
  destruct (negb (os_completionEventEmitted s1)); cbn [andb].
  - split_and!; [|cbn; lia|by exists s1]. apply emit_stage; [done|]. by destruct (completed_settled _ _ _ _ _ Hs1 Hcomp).
  - by rewrite Hc; split_and!; [|lia|lia].
Qed.

Lemma process_found objects (ids : list nat) (found : jsmap string nat) (Q : nat → Prop) :
  (∀ id, id ∈ found.*2 → Q id) → (∀ id, id ∈ ids → Q id) → ∀ id, id ∈ (processFoundData objects ids found).*2 → Q id.
Proof using Type.
  revert found. induction ids as [|i ids IH]; intros found Hfound Hids; [done|]. cbn [processFoundData]. apply IH.
  - destruct (objects !! i) as [e|]; [|done]. destruct (replaces _ _); [|done]. intros id (x & -> & Hx)%list_elem_of_fmap.
    assert (x ∈ found ∨ x.2 = i) as [Hin| ->]; [|by apply Hfound, list_elem_of_fmap_2|by apply Hids; left].
    clear -Hx. induction found as [|[k v] found IH]; cbn in Hx; [apply list_elem_of_singleton in Hx as ->; by right|].
    destruct (decide (k = de_creator e)).
    + apply elem_of_cons in Hx as [->|Hx]; [by right|left; by right].
    + apply elem_of_cons in Hx as [->|Hx]; [left; by left|]. destruct (IH Hx); [left; by right|by right].
  - intros id Hid. apply Hids. by right.
Qed.

Lemma found_stage hops log s x objects : stage hops log log s →
  stage hops log (log ++ [x]) (with_found (add_results distance (rp_closestConnectedNodes x.2) (os_results s))
    (processFoundData objects (rp_dataEntries x.2) (os_foundData s)) s).
Proof using Type.
  intros [? ? ? ? ? ? Hfound (Hsc & Ho & Hkept & Hget) ? ? ?]. split; cbn; try done.
  - apply process_found.
    + intros id Hid. destruct (Hfound id Hid) as (y & ? & ?). exists y. split; [apply elem_of_app; by left|done].
    + intros id Hid. exists x. split; [apply elem_of_app; right; by apply list_elem_of_singleton|done].
  - unfold add_results.
    destruct (addContacts_spec id distance (rp_closestConnectedNodes x.2) (os_results s) _ Hsc ltac:(by rewrite Ho) Hkept)
      as (l & evs & -> & Hsc' & Ho' & Hkept' & Hget'). cbn [fst].
    assert (nodes_of (log ++ [x]) = nodes_of log ++ rp_closestConnectedNodes x.2) as Hnodes.
    { unfold nodes_of. rewrite bind_app. cbn. by rewrite app_nil_r. }
    split_and!; [done|by rewrite Ho'| |].
    + rewrite Hnodes, list_to_set_app_L, (comm_L (∪)). by rewrite list_fmap_id in Hkept'.
    + intros i c Hc. rewrite Hnodes. apply elem_of_app. destruct (Hget' i c Hc); [by right|left; by eapply Hget].
Qed.

(** The last part of a report: is it one of no closer nodes, or of a node that sent one? *)
Lemma counted_stage hops log s now r objects : stage hops log (log ++ [(now, r)]) s →
  let log' := log ++ [(now, r)] in
  let s' := if rp_noCloserNodesFound r || bool_decide (rp_remote r ∈ os_noCloserNodesReceivedFrom s)
            then onNoCloserPeersFound objects now (rp_remote r) s else s in
  stage hops log' log' s' ∧ os_completed s ≤ os_completed s' ∧
  (os_completed s < os_completed s' → ∃ s1, stage hops log' log' s1 ∧ isCompleted objects s1 = true).
Proof using Type.
  intros Hs. cbn zeta. set (log' := log ++ [(now, r)]). pose proof Hs as [Hsame ? ? Hfrom Hcounter Hsome ? ? Hemitted Htimer Hquiet].
  pose proof (first_no_closer_snoc log now r) as Hfirst. fold log' in Hfirst. pose proof (counted_grows log (now, r)) as [Hgrow Hhere]. fold log' in Hgrow, Hhere.
  destruct (rp_noCloserNodesFound r || _) eqn:Hcase.
  2: { apply orb_false_iff in Hcase as [Hr Hin]. rewrite Hr in Hfirst.
       assert (first_no_closer log' = first_no_closer log) as Heq by (rewrite Hfirst; by destruct (first_no_closer log)).
       split_and!; [|lia|lia]. split; try rewrite Heq; try done; [|lia].
       intros nodeId Hn. destruct (Hfrom nodeId Hn) as (y & ? & ?). exists y. split; [apply elem_of_app; by left|done]. }
  assert (∃ y, y ∈ log' ∧ rp_remote y.2 = rp_remote r ∧ rp_noCloserNodesFound y.2 = true) as Htold.
  { apply orb_true_iff in Hcase as [Hr|Hin%bool_decide_eq_true]; [exists (now, r); split; [apply elem_of_app; right; by apply list_elem_of_singleton|done]|].
    destruct (Hfrom _ Hin) as (y & ? & ?). exists y. split; [apply elem_of_app; by left|done]. }
  specialize (Hhere Htold).
  assert (∃ t0, first_no_closer log' = Some t0 ∧ (first_no_closer log = Some t0 ∨ first_no_closer log = None ∧ t0 = now)) as (t0 & Ht0 & Hold).
  { rewrite Hfirst. destruct (first_no_closer log) as [t|] eqn:Hlog; [by exists t; split; [|left]|].
    apply orb_true_iff in Hcase as [->|Hin%bool_decide_eq_true]; [exists now; split; [done|by right]|].
    destruct (Hfrom _ Hin) as (y & Hy & _ & Hno). unfold first_no_closer in Hlog.
    assert (y.1 ∈ (filter (λ x, rp_noCloserNodesFound x.2 = true) log).*1) as Hin' by (apply list_elem_of_fmap_2, list_elem_of_filter; done).
    destruct (filter (λ x, rp_noCloserNodesFound x.2 = true) log); [by apply not_elem_of_nil in Hin'|done]. }
  unfold onNoCloserPeersFound. set (s1 := count_no_closer (rp_remote r) s).
  assert (∀ timer : option Z, (os_completionEventEmitted s = false → timer = Some (t0 + COMPLETION_TIMEOUT)%Z) →
    stage hops log' log' (with_events timer (os_completionEventEmitted s1) (os_completed s1) s1)) as Hstage.
  { intros timer Ht. split; cbn; try rewrite Ht0; try done; [|lia].
    intros nodeId [->%elem_of_singleton|Hn]%elem_of_union; [done|].
    destruct (Hfrom nodeId Hn) as (y & ? & ?). exists y. split; [apply elem_of_app; by left|done]. }
  destruct (isCompleted objects s1) eqn:Hcomp.
  - set (s2 := with_events (Some (t0 + COMPLETION_TIMEOUT)%Z) (os_completionEventEmitted s1) (os_completed s1) s1).
    assert (stage hops log' log' s2) as Hs2 by by apply Hstage.
    split_and!; [|cbn; lia|by exists s2]. change (emit_completed s1) with (emit_completed s2). apply emit_stage; [done|]. by rewrite Ht0.
  - destruct (bool_decide (os_timeoutTask s1 = None) && negb (os_completionEventEmitted s1)) eqn:Hnew.
    + split_and!; [|cbn; lia|cbn; lia]. apply Hstage. intros He.
      apply andb_true_iff in Hnew as [Hnone%bool_decide_eq_true _]. change (os_timeoutTask s = None) in Hnone. rewrite Htimer in Hnone by done.
      destruct Hold as [Hold|[_ ->]]; [by rewrite Hold in Hnone|done].
    + split_and!; [|cbn; lia|cbn; lia]. replace s1 with (with_events (os_timeoutTask s1) (os_completionEventEmitted s1) (os_completed s1) s1) by done.
      apply Hstage. intros He. change (os_timeoutTask s1) with (os_timeoutTask s). rewrite Htimer by done.
      destruct Hold as [->|[Hnone ->]]; [done|]. change (os_timeoutTask s1) with (os_timeoutTask s) in Hnew.
      change (os_completionEventEmitted s1) with (os_completionEventEmitted s) in Hnew. by rewrite Htimer, He, Hnone in Hnew.
Qed.

Lemma settled_grows log found x s objects : stage (log ++ [x]) log found s ∨ stage (log ++ [x]) (log ++ [x]) found s →
  (∀ y, y ∈ found → y ∈ log ++ [x]) → isCompleted objects s = true → operation_settled (log ++ [x]) objects.
Proof using Type.
  intros Hs Hfound Hcomp. assert (∃ log', stage (log ++ [x]) log' found s ∧ (first_no_closer log' ≠ None → first_no_closer (log ++ [x]) ≠ None) ∧
    length (counted log') ≤ length (counted (log ++ [x]))) as (log' & Hs' & Hf & Hc).
  { destruct Hs as [Hs|Hs]; [exists log|by exists (log ++ [x])]. split_and!; [done| |by destruct (counted_grows log x)].
    destruct x as [now r]. rewrite first_no_closer_snoc. by destruct (first_no_closer log). }
  destruct (completed_settled _ _ _ _ _ Hs' Hcomp) as (H1 & H2 & H3). split_and!; [by apply Hf|done|]. intros Hop.
  destruct (H3 Hop) as [(y & id & e & Hy & ? & ? & ?)|?]; [left; exists y, id, e; split_and!; try done; by apply Hfound|right; lia].
Qed.

Lemma report_stage log s now r objects : stage log log log s →
  let s' := onResponseReceived distance objects now r s in
  stage (log ++ [(now, r)]) (log ++ [(now, r)]) (log ++ [(now, r)]) s' ∧
  os_completed s ≤ os_completed s' ∧ (os_completed s < os_completed s' → operation_settled (log ++ [(now, r)]) objects).
Proof using Type.
  intros Hs. cbn zeta. unfold onResponseReceived. set (x := (now, r)). set (s1 := addKnownHops _ s).
  assert (stage (log ++ [x]) log log s1) as Hs1 by by apply (known_stage log log log s x).
  set (s2 := match last (rp_routingPath r) with Some hop => setHopAsReported objects hop s1 | None => s1 end).
  assert (stage (log ++ [x]) log log s2 ∧ os_completed s ≤ os_completed s2 ∧ (os_completed s < os_completed s2 → operation_settled (log ++ [x]) objects)) as (Hs2 & Hle2 & Hlt2).
  { subst s2. destruct (last (rp_routingPath r)) as [hop|] eqn:Hlast; [|by split_and!; [|cbn; lia|cbn; lia]].
    destruct (reported_stage log log log s1 x hop objects Hs1 Hlast) as (? & ? & Hlt). split_and!; [done..|]. intros Hl.
    destruct (Hlt Hl) as (s' & Hs' & Hcomp). apply (settled_grows log log x s' objects); [by left| |done]. intros y Hy. apply elem_of_app. by left. }
  clearbody s2. pose proof (found_stage _ _ s2 x objects Hs2) as Hs3. cbn [snd x] in Hs3. set (s3 := with_found _ _ s2) in *.
  destruct (counted_stage _ log s3 now r objects Hs3) as (Hs4 & Hle4 & Hlt4). cbn zeta in *. set (s4 := if rp_noCloserNodesFound r || _ then _ else s3) in *. clearbody s4.
  change (os_completed s3) with (os_completed s2) in *. split_and!; [done|lia|]. intros Hl.
  destruct (decide (os_completed s < os_completed s2)) as [Hl2|Hl2]; [by apply Hlt2|]. destruct (Hlt4 ltac:(lia)) as (s' & Hs' & Hcomp).
  apply (settled_grows log (log ++ [x]) x s' objects); [by right|done|done].
Qed.

Lemma timeout_stage log s now : stage log log log s →
  let s' := operation_timeout now s in
  stage log log log s' ∧ os_completed s ≤ os_completed s' ∧
  (os_completed s < os_completed s' → ∃ t0, first_no_closer log = Some t0 ∧ (t0 + COMPLETION_TIMEOUT ≤ now)%Z).
Proof using Type.
  intros Hs. cbn zeta. unfold operation_timeout. pose proof Hs as [? ? ? ? ? ? ? ? Hemitted Htimer Hquiet].
  destruct (os_timeoutTask s) as [due|] eqn:Hdue; [|by split_and!; [|lia|lia]].
  destruct ((due <=? now)%Z && negb (os_completionEventEmitted s)) eqn:Hfire; [|by split_and!; [|lia|lia]].
  apply andb_true_iff in Hfire as [Hle%Z.leb_le He%negb_true_iff]. pose proof (Htimer He) as Ht.
  destruct (first_no_closer log) as [t0|] eqn:Hf; [|done]. injection Ht as ->. split_and!; [|cbn; lia|intros _; by exists t0].
  split; cbn; rewrite ?Hf; try done. split; [lia|done].
Qed.

Lemma new_stage : stage [] [] [] (operation_new targetId localPeer waited operation).
Proof using Type.
  split; cbn; try done; try (by intros ? ?%elem_of_empty); try (by intros ? ?%not_elem_of_nil).
  - intros hop. split; [by intros ?%elem_of_empty|]. by intros (_ & x & ?%not_elem_of_nil & _).
  - split_and!; [apply sorted_new_inv|done| |done]. split; cbn; intros id Hid; [by apply not_elem_of_nil in Hid|set_solver].
  - split; [done|lia].
Qed.

Lemma run_stage (evs : list (Z * list DataEntry * operation_event)) : let log := reports_of evs in stage log log log (operation_run evs).
Proof using Type.
  induction evs as [|[[now objects] ev] evs IH] using rev_ind; [apply new_stage|]. cbn zeta in *. unfold operation_run, reports_of in *.
  rewrite foldl_app, omap_app. destruct ev as [r|]; cbn.
  - by destruct (report_stage _ _ now r objects IH).
  - rewrite app_nil_r. by destruct (timeout_stage _ _ now IH).
Qed.

(** An operation completes for a reason: when a session emits its event [completed], then either a report told that a node
    has no closer ones, every node on the way of a report reported itself and, if data is looked for, data that is not stale
    was reported or as many reports of nodes without closer ones came as are waited for; or the first report of no closer
    nodes is four seconds old. *)
Theorem operation_completes_for_a_reason (evs : list (Z * list DataEntry * operation_event)) now objects ev :
  let s := operation_run evs in let s' := operation_step (now, objects, ev) s in
  os_completed s < os_completed s' →
  match ev with
  | OReport r => operation_settled (reports_of (evs ++ [(now, objects, ev)])) objects
  | OTimeout => ∃ t0, first_no_closer (reports_of evs) = Some t0 ∧ (t0 + COMPLETION_TIMEOUT ≤ now)%Z
  end.
Proof using Type.
  cbn zeta. pose proof (run_stage evs) as Hs. cbn zeta in Hs. destruct ev as [r|]; cbn [operation_step].
  - unfold reports_of. rewrite omap_app. by apply report_stage.
  - by apply timeout_stage.
Qed.

(** C30: an operation completes in time: from the first report that tells of no closer nodes, a session either has emitted its
    event or its timer is set for four seconds after that report, and emits it when the timer fires. *)
Theorem operation_completes_in_time (evs : list (Z * list DataEntry * operation_event)) t0 : first_no_closer (reports_of evs) = Some t0 →
  let s := operation_run evs in
  0 < os_completed s ∨
  os_timeoutTask s = Some (t0 + COMPLETION_TIMEOUT)%Z ∧
  ∀ now objects, (t0 + COMPLETION_TIMEOUT ≤ now)%Z → 0 < os_completed (operation_step (now, objects, OTimeout) s).
Proof using Type.
  intros Ht0. cbn zeta. destruct (run_stage evs) as [? ? ? ? ? ? ? ? Hemitted Htimer ?]. destruct (os_completionEventEmitted (operation_run evs)) eqn:He.
  - left. by apply Hemitted.
  - right. specialize (Htimer eq_refl). rewrite Ht0 in Htimer. split; [done|]. intros now objects Hnow. cbn. unfold operation_timeout.
    rewrite Htimer, He. cbn. rewrite (proj2 (Z.leb_le _ _)) by done. cbn. lia.
Qed.

(** An operation answers with the closest nodes that were reported: at most ten, each once, in the order of their distance
    to the target, and no node that was reported but left out is closer than one in the answer. *)
Theorem operation_finds_the_closest (evs : list (Z * list DataEntry * operation_event)) :
  closest_of id distance result_options (nodes_of (reports_of evs)) (or_closestNodes (getResults (operation_run evs))).
Proof using Type.
  destruct (run_stage evs) as [? ? ? ? ? ? ? (Hsc & Ho & Hkept & Hget) ? ? ?]. cbn [getResults or_closestNodes].
  apply closest_contacts_of; [done|done|by rewrite list_fmap_id|done].
Qed.
End session_runs.

(** * What data an operation finds *)

Section found.
  Context (objects : list DataEntry) (creator : string).

Definition created_by (id : nat) : Prop := ∃ e, objects !! id = Some e ∧ de_creator e = creator.
Definition is_deleted (id : nat) : Prop := ∃ e, objects !! id = Some e ∧ de_deleted e = true.

#[export] Instance created_by_dec id : Decision (created_by id).
Proof.
  refine (match objects !! id as o return objects !! id = o → Decision (created_by id) with
          | Some e => λ H, match decide (de_creator e = creator) with left Hc => left _ | right Hc => right _ end
          | None => λ H, right _
          end eq_refl); [by exists e|intros (e' & He & Hc'); congruence|intros (e' & He & Hc'); congruence].
Defined.

#[export] Instance is_deleted_dec id : Decision (is_deleted id).
Proof.
  refine (match objects !! id as o return objects !! id = o → Decision (is_deleted id) with
          | Some e => λ H, match decide (de_deleted e = true) with left Hc => left _ | right Hc => right _ end
          | None => λ H, right _
          end eq_refl); [by exists e|intros (e' & He & Hc'); congruence|intros (e' & He & Hc'); congruence].
Defined.

(** The first entry that came, or the last one after it that is marked as deleted *)
Definition first_or_deleted (ids : list nat) : option nat :=
  match ids with
  | [] => None
  | first :: rest => Some (List.last (filter is_deleted rest) first)
  end.

(** Texts of objects are equal, so no time is before another. *)
Lemma times_not_compared t t' : js_lt t t' = false ∧ js_le t t' = true.
Proof using Type. split; reflexivity. Qed.

Lemma replaces_deleted old e : replaces (Some old) e = de_deleted e.
Proof using Type. unfold replaces. destruct (times_not_compared (de_createdAt old) (de_createdAt e)) as [-> ->]. done. Qed.

Lemma last_cons {A} (x d : A) (l : list A) : List.last (x :: l) d = List.last l x.
Proof using Type. revert x d. induction l as [|y l IH]; intros x d; [done|]. change (List.last (y :: l) d = List.last (y :: l) x). by rewrite !IH. Qed.

Lemma process_spec (ids : list nat) (found : jsmap string nat) :
  (∀ c id, map_get c found = Some id → is_Some (objects !! id)) →
  map_get creator (processFoundData objects ids found) =
  match map_get creator found with
  | Some first => Some (List.last (filter is_deleted (filter created_by ids)) first)
  | None => first_or_deleted (filter created_by ids)
  end.
Proof using Type.
  revert found. induction ids as [|id ids IH]; intros found Hfound; cbn [processFoundData]; [by destruct (map_get creator found)|].
  rewrite filter_cons. destruct (objects !! id) as [e|] eqn:He.
  2: { rewrite IH by done. rewrite decide_False; [done|]. intros (e & He' & _). congruence. }
  destruct (replaces (map_get (de_creator e) found ≫= λ id0, objects !! id0) e) eqn:Hrep.
  - rewrite IH.
    2: { intros c i. rewrite map_get_set. case_decide; [intros [= <-]; by exists e|apply Hfound]. }
    rewrite map_get_set. destruct (decide (de_creator e = creator)) as [Hc|Hc].
    + rewrite decide_True by by exists e. rewrite Hc in Hrep. destruct (map_get creator found) as [first|] eqn:Hf; [|done].
      cbn in Hrep. destruct (Hfound _ _ Hf) as [old Hold]. rewrite Hold, replaces_deleted in Hrep.
      rewrite filter_cons, decide_True by by exists e. by rewrite last_cons.
    + rewrite decide_False; [done|]. intros (e' & He' & Hc'). congruence.
  - rewrite IH by done. destruct (map_get (de_creator e) found) as [first|] eqn:Hf; [|done]. cbn in Hrep.
    destruct (Hfound _ _ Hf) as [old Hold]. rewrite Hold, replaces_deleted in Hrep.
    destruct (decide (de_creator e = creator)) as [Hc|Hc].
    + rewrite decide_True by by exists e. rewrite Hc in Hf. rewrite Hf, filter_cons, decide_False; [done|]. intros (e' & He' & Hd). congruence.
    + rewrite decide_False; [done|]. intros (e' & He' & Hc'). congruence.
Qed.

(** The times of creation are never compared: of the entries of a creator, the first one that is reported is the answer,
    whatever comes later and however new it is; but any later one that is marked as deleted takes its place, however old. *)
Lemma found_data_is_first_or_deleted (ids : list nat) :
  map_get creator (processFoundData objects ids []) = first_or_deleted (filter created_by ids).
Proof using Type. by rewrite process_spec. Qed.
End found.

(** * Requests of other nodes *)

Section requests.
  Context (distance : string → string → Z) `{SortedIndex} `{RequestBody} (localNodeId : string).
  Implicit Types (m : OperationManager) (w : RouteMessageWrapper) (now : Z).

Definition responses (out : list manager_output) : list (string * string * Report * list DataEntry) :=
  omap (λ o, match o with
             | SendResponse target sessionId path closest entries noCloser =>
                 Some (target, sessionId, MkReport localNodeId path closest [] noCloser, entries)
             | _ => None end) out.

Lemma routed_responses (routed : list router_output) : responses (RouterOutput <$> routed) = [].
Proof using Type. by induction routed. Qed.

Lemma closest_connected referenceId limit m : limit ≠ 0 →
  closest_of id distance (MkSortedOptions referenceId true (Some limit) None None) (ro_connections (mg_router m))
    (getClosestConnectedNodes distance referenceId limit m).
Proof using Type.
  intros Hl. unfold getClosestConnectedNodes, add_results. set (o := MkSortedOptions _ _ _ _ _).
  destruct (addContacts_spec id distance (ro_connections (mg_router m)) (sorted_new o) ∅ (sorted_new_inv id distance o)) as (l & evs & -> & Hinv & Ho & Hkept & Hget).
  { cbn. congruence. }
  { split; cbn; intros x Hx; [by apply not_elem_of_nil in Hx|set_solver]. }
  cbn [fst]. rewrite (right_id_L ∅ (∪)) in Hkept.
  assert (getClosestContacts (Some (Z.of_nat limit)) l = getClosestContacts None l) as ->.
  { unfold getClosestContacts, limited. rewrite take_ge; [done|]. pose proof (inv_bounded _ _ _ Hinv limit) as Hb. rewrite Ho in Hb. specialize (Hb eq_refl). lia. }
  apply closest_contacts_of; [done|done|done|]. intros x c Hc. by destruct (Hget x c Hc).
Qed.

(** What a node answers to a request, and what it tells the node that started the operation *)
Definition request_ack w m : option route_error :=
  if mg_stopped m then Some STOPPED
  else if isMostLikelyDuplicate (rm_requestId w) (ro_duplicateRequestDetector (mg_router m)) then Some DUPLICATE
  else if bool_decide (localNodeId = rm_target w) then None
  else if ro_stopped (mg_router m) then Some STOPPED
  else match (updateAndGetRoutablePeers distance (ro_connections (mg_router m)) (ro_cache (mg_router m))
                (createRoutingSession localNodeId w RECURSIVE None)).2 with
       | [] => Some NO_TARGETS
       | _ => None
       end.

Definition told_entries (operation : RecursiveOperation) targetId m : list DataEntry :=
  omap (λ id, ld_objects (mg_store m) !! id) (fetched operation targetId m).

Lemma doRouteMessage_ack rid w mode m :
  (doRouteMessage distance localNodeId rid w mode None (mg_router m)).2 =
  if ro_stopped (mg_router m) then Some STOPPED
  else match (updateAndGetRoutablePeers distance (ro_connections (mg_router m)) (ro_cache (mg_router m))
                (createRoutingSession localNodeId w mode None)).2 with [] => Some NO_TARGETS | _ => None end.
Proof using Type.
  unfold doRouteMessage. destruct (ro_stopped (mg_router m)); [done|].
  destruct (updateAndGetRoutablePeers _ _ _ _) as [cache [|x contacts]]; [done|]. cbn [snd].
  destruct (sendMoreRequests _ _ _) as [[s sent] evs]. by destruct (after_session _ _ _ _).
Qed.

Lemma sendResponse_remote now target sessionId r m : target ≠ localNodeId →
  sendResponse distance localNodeId now target sessionId r m =
  (m, [SendResponse target sessionId (rp_routingPath r) (rp_closestConnectedNodes r)
         (omap (λ id, ld_objects (mg_store m) !! id) (rp_dataEntries r)) (rp_noCloserNodesFound r)]).
Proof using Type. intros Hne. unfold sendResponse. by rewrite bool_decide_eq_false_2 by congruence. Qed.

Lemma delete_own_spec operation targetId source m : store_inv (mg_store m) →
  let m' := delete_own operation targetId source m in
  mg_operations m' = mg_operations m ∧ mg_router m' = mg_router m ∧
  (operation ≠ DELETE_DATA → m' = m) ∧
  ∀ key creator, lookup_entry (mg_store m') key creator =
    (if decide (operation = DELETE_DATA ∧ (key, creator) = (targetId, source)) then prod_map set_deleted id else id) <$> lookup_entry (mg_store m) key creator.
Proof using Type.
  intros Hinv. cbn zeta. unfold delete_own. destruct (decide (operation = DELETE_DATA)) as [Hop|Hop].
  - rewrite bool_decide_eq_true_2 by done. split_and!; [done|done|done|]. pose proof (markAsDeleted_spec targetId source _ Hinv) as Hs.
    destruct (markAsDeleted targetId source (mg_store m)) as [s b]. destruct Hs as (_ & _ & Hlookup). intros key creator. cbn. rewrite Hlookup.
    destruct (decide ((targetId, source) = (key, creator))) as [[= <- <-]|Hne]; [by rewrite decide_True|]. rewrite decide_False; [done|].
    intros [_ [= -> ->]]. by apply Hne.
  - rewrite bool_decide_eq_false_2 by done. split_and!; [done|done|done|]. intros key creator. rewrite decide_False by (by intros [? _]). by rewrite option_fmap_id.
Qed.

(** What a node answers to a request of another node: it answers that it is stopped, that it had the request, that there
    is nobody closer, or takes it; a request that it takes or has no targets for is reported to the node that started the
    operation, once, with the five connected nodes closest to the target, the entries under the target if data is looked
    for, and whether the way ends here; a request that it refuses changes nothing; and the only entry that a request can
    mark as deleted is one of the node that started the operation. *)
Theorem route_request_answers now (rid : nat) w m : rm_sourcePeer w ≠ localNodeId → store_inv (mg_store m) → ro_stopped (mg_router m) = mg_stopped m →
  let '(m', out, ack) := routeRequest distance localNodeId now rid w m in
  let '(sessionId, operation) := read_request (rm_message w) in
  let closest := getClosestConnectedNodes distance (rm_target w) 5 m in
  ack = request_ack w m ∧
  responses out =
    (if bool_decide (ack = None) || bool_decide (ack = Some NO_TARGETS) then
       [(rm_sourcePeer w, sessionId,
         MkReport localNodeId (rm_routingPath w) closest [] (bool_decide (localNodeId = rm_target w) || no_closer distance localNodeId ack closest w),
         told_entries operation (rm_target w) m)]
     else []) ∧
  (ack = Some STOPPED ∨ ack = Some DUPLICATE → m' = m ∧ out = []) ∧
  mg_operations m' = mg_operations m ∧
  closest_of id distance (MkSortedOptions (rm_target w) true (Some 5) None None) (ro_connections (mg_router m)) closest ∧
  ∀ key creator, lookup_entry (mg_store m') key creator =
    (if decide ((ack = None ∨ ack = Some NO_TARGETS) ∧ operation = DELETE_DATA ∧ (key, creator) = (rm_target w, rm_sourcePeer w))
     then prod_map set_deleted id else id) <$> lookup_entry (mg_store m) key creator.
Proof using Type.
  intros Hsource Hinv Hstop. unfold routeRequest, routeRequest_rpc, request_ack. destruct (mg_stopped m) eqn:Hm.
  { destruct (read_request _) as [sessionId operation]. split_and!; try done; [by apply closest_connected|].
    intros key creator. rewrite decide_False by (intros ([?|?] & _); congruence). by rewrite option_fmap_id. }
  destruct (isMostLikelyDuplicate _ _).
  { destruct (read_request _) as [sessionId operation]. split_and!; try done; [by apply closest_connected|].
    intros key creator. rewrite decide_False by (intros ([?|?] & _); congruence). by rewrite option_fmap_id. }
  set (m1 := with_router _ m). unfold doRouteRequest. change (mg_stopped m1) with (mg_stopped m). rewrite Hm.
  destruct (read_request _) as [sessionId operation].
  change (getClosestConnectedNodes distance (rm_target w) 5 m1) with (getClosestConnectedNodes distance (rm_target w) 5 m).
  set (closest := getClosestConnectedNodes distance (rm_target w) 5 m).
  change (fetched operation (rm_target w) m1) with (fetched operation (rm_target w) m).
  destruct (delete_own_spec operation (rm_target w) (rm_sourcePeer w) m1 Hinv) as (Hops & Hrouter & Hsame & Hlookup). cbn zeta in *.
  set (m2 := delete_own _ _ _ m1) in *.
  assert (omap (λ id, ld_objects (mg_store m2) !! id) (fetched operation (rm_target w) m) = told_entries operation (rm_target w) m) as Htold.
  { unfold told_entries, fetched. destruct (decide (operation = FETCH_DATA)) as [->|Hf]; [by rewrite Hsame|]. by rewrite bool_decide_eq_false_2. }
  assert (closest_of id distance (MkSortedOptions (rm_target w) true (Some 5) None None) (ro_connections (mg_router m)) closest) as Hclosest by by apply closest_connected.
  destruct (bool_decide (localNodeId = rm_target w)) eqn:Htarget.
  - rewrite sendResponse_remote by done. cbn [rp_routingPath rp_closestConnectedNodes rp_dataEntries rp_noCloserNodesFound]. rewrite Htold.
    split_and!; [done|done|by intros [?|?]|done|done|]. intros key creator. rewrite Hlookup. apply f_equal2; [|done].
    apply decide_ext. naive_solver.
  - pose proof (doRouteMessage_ack rid w RECURSIVE m2) as Hack. rewrite Hrouter in Hack |- *.
    destruct (doRouteMessage distance localNodeId rid w RECURSIVE None (mg_router m1)) as [[router routed] ack]. cbn [snd] in Hack.
    change (mg_router m1) with (with_detector (ro_duplicateRequestDetector (mg_router m1)) (mg_router m)) in Hack. cbn [with_detector ro_stopped ro_connections ro_cache] in Hack.
    rewrite Hstop in Hack |- *. set (contacts := (updateAndGetRoutablePeers _ _ _ _).2) in *.
    assert (ack = None ∨ ack = Some NO_TARGETS) as Hok by (rewrite Hack; destruct contacts; auto).
    replace (bool_decide (ack = None) || bool_decide (ack = Some NO_TARGETS)) with true by by destruct Hok as [->| ->].
    rewrite sendResponse_remote by done. cbn [rp_routingPath rp_closestConnectedNodes rp_dataEntries rp_noCloserNodesFound].
    change (mg_store (with_router router m2)) with (mg_store m2). rewrite Htold.
    split_and!; [done| |by destruct Hok as [->| ->]; intros [?|?]|done|done|].
    + unfold responses. rewrite omap_app. fold (responses (RouterOutput <$> routed)). rewrite routed_responses. by destruct Hok as [->| ->].
    + intros key creator. change (mg_store (with_router router m2)) with (mg_store m2). rewrite Hlookup. apply f_equal2; [|done].
      apply decide_ext. clear -Hok. naive_solver.
Qed.
End requests.

Module RecursiveWitness.

Definition distance (a b : string) : Z :=
  match a, b with String x _, String y _ => Z.abs (Z.of_N (Ascii.N_of_ascii x) - Z.of_N (Ascii.N_of_ascii y))%Z | _, _ => 0%Z end.

#[local] Program Instance text_body : RequestBody := {|
  write_request sessionId operation :=
    match operation with FIND_CLOSEST_NODES => "f" | FETCH_DATA => "g" | DELETE_DATA => "d" end +:+ sessionId;
  read_request text :=
    match text with
    | String c sessionId => (sessionId, if decide (c = "f"%char) then FIND_CLOSEST_NODES else if decide (c = "g"%char) then FETCH_DATA else DELETE_DATA)
    | EmptyString => (EmptyString, FIND_CLOSEST_NODES)
    end |}.
Next Obligation. by intros sessionId []. Defined.

Definition entry (data : string) (seconds : Z) (stale deleted : bool) : DataEntry :=
  MkEntry "m" data "c" (MkTimestamp seconds 0) (MkTimestamp seconds 0) 60000 stale deleted.

(** An old entry, a newer one, and an even older one that is marked as deleted *)
Definition objects : list DataEntry := [entry "old" 5 false false; entry "new" 9 false false; entry "ancient" 1 false true].

Example newer_entry_is_ignored : processFoundData objects [0; 1] [] = [("c", 0)].
Proof. vm_compute. reflexivity. Qed.

Example older_deletion_wins : processFoundData objects [1; 2] [] = [("c", 2)].
Proof. vm_compute. reflexivity. Qed.

(** Two hops report; the second one tells of no closer nodes, and both report themselves. *)
Definition first_report : Report := MkReport "b" ["a"; "b"] ["k"; "p"] [] false.
Definition second_report : Report := MkReport "l" ["a"; "b"; "l"] ["n"; "k"] [0] true.

Definition reports : list (Z * list DataEntry * operation_event) := [(100%Z, objects, OReport first_report)].

Lemma operation_completes_for_a_reason_witness :
  operation_settled "a" 2 FIND_CLOSEST_NODES (reports_of (reports ++ [(200%Z, objects, OReport second_report)])) objects.
Proof.
  refine (operation_completes_for_a_reason distance "m" "a" 2 FIND_CLOSEST_NODES reports 200 objects (OReport second_report) _).
  vm_compute. apply le_n.
Defined.

(** The last hop that is waited for brings the data, but the session looked for data before it took it in: the timer
    completes it. *)
Definition data_report : Report := MkReport "b" ["a"; "b"] [] [1] false.
Definition fetching : list (Z * list DataEntry * operation_event) :=
  [(100%Z, objects, OReport (MkReport "l" ["a"; "b"; "l"] [] [] true)); (200%Z, objects, OReport data_report)].

Example data_comes_too_late :
  let s := operation_run distance "m" "a" 2 FETCH_DATA fetching in
  isCompleted objects s = true ∧ os_completed s = 0 ∧ os_timeoutTask s = Some 4100%Z.
Proof. vm_compute. done. Qed.

Lemma operation_completes_in_time_witness :
  let s := operation_run distance "m" "a" 2 FETCH_DATA fetching in
  0 < os_completed s ∨
  os_timeoutTask s = Some (100 + COMPLETION_TIMEOUT)%Z ∧
  ∀ now objects, (100 + COMPLETION_TIMEOUT ≤ now)%Z → 0 < os_completed (operation_step distance (now, objects, OTimeout) s).
Proof. apply (operation_completes_in_time distance "m" "a" 2 FETCH_DATA fetching 100). reflexivity. Defined.

(** A request to delete goes through node k, which holds an entry of the node that asks. *)
Definition held : LocalDataStore :=
  (store_run [(0%Z, OStore (MkEntry "m" "x" "a" (MkTimestamp 1 0) (MkTimestamp 1 0) 60000 false false)); (0%Z, OStore (entry "y" 2 false false))] (store_new 60000)).1.

Definition router : Router := MkRouter ["b"; "n"] ∅ ∅ ∅ (dht_detector_new 10) false.
Definition manager : OperationManager := MkManager held router ∅ ∅ false.
Definition request : RouteMessageWrapper := MkRouted "r1" "m" "a" ["a"; "b"] [] [] (write_request "s" DELETE_DATA) EmptyString.

Lemma route_request_answers_witness :
  let '(m', out, ack) := routeRequest distance "k" 0 1 request manager in
  let '(sessionId, operation) := read_request (rm_message request) in
  let closest := getClosestConnectedNodes distance (rm_target request) 5 manager in
  ack = request_ack distance "k" request manager ∧
  responses "k" out =
    (if bool_decide (ack = None) || bool_decide (ack = Some NO_TARGETS) then
       [(rm_sourcePeer request, sessionId,
         MkReport "k" (rm_routingPath request) closest [] (bool_decide ("k" = rm_target request) || no_closer distance "k" ack closest request),
         told_entries operation (rm_target request) manager)]
     else []) ∧
  (ack = Some STOPPED ∨ ack = Some DUPLICATE → m' = manager ∧ out = []) ∧
  mg_operations m' = mg_operations manager ∧
  closest_of id distance (MkSortedOptions (rm_target request) true (Some 5) None None) (ro_connections (mg_router manager)) closest ∧
  ∀ key creator, lookup_entry (mg_store m') key creator =
    (if decide ((ack = None ∨ ack = Some NO_TARGETS) ∧ operation = DELETE_DATA ∧ (key, creator) = (rm_target request, rm_sourcePeer request))
     then prod_map set_deleted id else id) <$> lookup_entry (mg_store manager) key creator.
Proof.
  apply route_request_answers; [discriminate| |reflexivity]. unfold manager, held. cbn [mg_store].
  set (ops := [_; _]). destruct (run_agrees ops (store_new 60000) ∅) as ([Hinv _] & _); [|exact Hinv].
  split; [apply new_inv|]. intros k c. by rewrite lookup_empty.
Defined.

Example the_entry_is_marked :
  let '(m', out, ack) := routeRequest distance "k" 0 1 request manager in
  ack = None ∧ (λ v, de_deleted v.1) <$> lookup_entry (mg_store m') "m" "a" = Some true ∧
  (λ v, de_deleted v.1) <$> lookup_entry (mg_store m') "m" "c" = Some false.
Proof. vm_compute. done. Qed.
End RecursiveWitness.
