(* ===== verification/Fleet.v ===== *)
(** The nodes of an operator share its stream parts
    (packages/node/src/plugins/operator): ConsistentHashRing.ts, OperatorFleetState.ts,
    StreamPartAssignments.ts and MaintainTopologyService.ts.

    Each node learns from heartbeats which nodes are up, puts them on a ring, and joins the
    stream parts the ring gives it.  The ring itself is the package [consistent-hash], a
    parameter: [ring_get nodes key count], with the nodes in the order in which they were added. *)

From S2P Require Import Prelude.
From S2P Require Import Js.
From S2P Require Import JsMap.
From S2P Require Import Identifiers.

Set Default Proof Using "Type".

(** [Array.prototype.sort] on strings *)
Definition sort_strings (l : list string) : list string := merge_sort String.le l.

Lemma sort_strings_perm (l l' : list string) : l ≡ₚ l' → sort_strings l = sort_strings l'.
Proof.
  intros Hp. apply (StronglySorted_unique String.le); [apply StronglySorted_merge_sort; apply _..|].
  unfold sort_strings. by rewrite !merge_sort_Permutation.
Qed.

(** * ConsistentHashRing *)

Section ring.
  Context (number : string → jsnum) (ring_get : list string → string → nat → option (list string)).

(** [consistentHash] is the library's object: the nodes it was given, in order. *)
Record ConsistentHashRing := MkRing {
  cr_nodes : list string;
  cr_consistentHash : option (list string);
  cr_redundancyFactor : nat
}.
Implicit Types (r : ConsistentHashRing) (nodeId streamPartId : string).

Definition ring_new (redundancyFactor : nat) : ConsistentHashRing := MkRing [] None redundancyFactor.

Definition formKey streamPartId : string :=
  let '(streamId, partition) := parse_raw_elements number streamPartId in
  (match partition with Some p => js_num_to_string p | None => "undefined" end) +:+ "#" +:+ streamId.

Definition ring_add nodeId r : ConsistentHashRing :=
  if bool_decide (nodeId ∈ cr_nodes r) then r
  else MkRing (cr_nodes r ++ [nodeId]) None (cr_redundancyFactor r).

Definition ring_remove nodeId r : ConsistentHashRing :=
  match list_find (λ x, x = nodeId) (cr_nodes r) with
  | Some (idx, _) => MkRing (delete idx (cr_nodes r)) None (cr_redundancyFactor r)
  | None => r
  end.

Definition ring_lookup streamPartId r : ConsistentHashRing * list string :=
  let r := match cr_consistentHash r with
           | None => let nodes := sort_strings (cr_nodes r) in MkRing nodes (Some nodes) (cr_redundancyFactor r)
           | Some _ => r
           end in
  (r, default [] (ring_get (default [] (cr_consistentHash r)) (formKey streamPartId) (cr_redundancyFactor r))).

(** * StreamPartAssignments *)

Record StreamPartAssignments := MkAssignments {
  sa_assignments : jsmap string (list string);
  sa_myStreamParts : list string;               (** a set, in insertion order *)
  sa_consistentHashRing : ConsistentHashRing;
  sa_myNodeId : string
}.
Implicit Types (a : StreamPartAssignments).

Inductive assignment_event := Assigned (streamPartId : string) | Unassigned (streamPartId : string).

Definition assignments_new (myNodeId : string) (redundancyFactor : nat) : StreamPartAssignments :=
  MkAssignments [] [] (ring_add myNodeId (ring_new redundancyFactor)) myNodeId.

Definition getMyStreamParts a : list string := sa_myStreamParts a.

Definition with_ring r a : StreamPartAssignments :=
  MkAssignments (sa_assignments a) (sa_myStreamParts a) r (sa_myNodeId a).
Definition with_assignments m a : StreamPartAssignments :=
  MkAssignments m (sa_myStreamParts a) (sa_consistentHashRing a) (sa_myNodeId a).

(** The first loop, over the keys of the assignments *)
Fixpoint assign_loop (keys : list string) a : StreamPartAssignments * list assignment_event :=
  match keys with
  | [] => (a, [])
  | streamPartId :: keys =>
      let '(r, nodeList) := ring_lookup streamPartId (sa_consistentHashRing a) in
      let new := bool_decide (sa_myNodeId a ∈ nodeList) && negb (bool_decide (streamPartId ∈ sa_myStreamParts a)) in
      let a := MkAssignments (map_set streamPartId nodeList (sa_assignments a))
                 (if new then sa_myStreamParts a ++ [streamPartId] else sa_myStreamParts a) r (sa_myNodeId a) in
      let '(a, evs) := assign_loop keys a in
      (a, if new then Assigned streamPartId :: evs else evs)
  end.

(** The second loop, over [myStreamParts] *)
Fixpoint unassign_loop (parts : list string) a : StreamPartAssignments * list assignment_event :=
  match parts with
  | [] => (a, [])
  | streamPartId :: parts =>
      let has := map_has streamPartId (sa_assignments a) in
      let '(r, nodeList) := if has then ring_lookup streamPartId (sa_consistentHashRing a)
                            else (sa_consistentHashRing a, []) in
      if negb has || negb (bool_decide (sa_myNodeId a ∈ nodeList)) then
        let '(a, evs) := unassign_loop parts
          (MkAssignments (sa_assignments a) (filter (λ p, p ≠ streamPartId) (sa_myStreamParts a)) r (sa_myNodeId a)) in
        (a, Unassigned streamPartId :: evs)
      else unassign_loop parts (with_ring r a)
  end.

Definition recalculateAssignments a : StreamPartAssignments * list assignment_event :=
  let '(a, evs) := assign_loop (sa_assignments a).*1 a in
  let '(a, evs') := unassign_loop (sa_myStreamParts a) a in
  (a, evs ++ evs').

Definition nodeAdded nodeId a : StreamPartAssignments * list assignment_event :=
  if bool_decide (nodeId = sa_myNodeId a) then (a, [])
  else recalculateAssignments (with_ring (ring_add nodeId (sa_consistentHashRing a)) a).

Definition nodeRemoved nodeId a : StreamPartAssignments * list assignment_event :=
  if bool_decide (nodeId = sa_myNodeId a) then (a, [])
  else recalculateAssignments (with_ring (ring_remove nodeId (sa_consistentHashRing a)) a).

(** [getStreamPartIds], from what [getStreamParts] answers *)
Definition getStreamPartIds (answer : outcome js_error (list string)) : list string :=
  match answer with Return parts => parts | Throw _ => [] end.

Definition streamsStaked (answers : list (outcome js_error (list string))) a
    : StreamPartAssignments * list assignment_event :=
  let streamPartIds := answers ≫= getStreamPartIds in
  recalculateAssignments (with_assignments (foldl (λ m p, map_set p [] m) (sa_assignments a) streamPartIds) a).

Definition streamUnstaked (answer : outcome js_error (list string)) a
    : StreamPartAssignments * list assignment_event :=
  recalculateAssignments
    (with_assignments (foldl (λ m p, map_delete p m) (sa_assignments a) (getStreamPartIds answer)) a).

(** [pLimit(1)] runs the handlers one after the other, each to its end. *)
Inductive assignments_call :=
  | NodeAdded (nodeId : string)
  | NodeRemoved (nodeId : string)
  | StreamsStaked (answers : list (outcome js_error (list string)))
  | StreamUnstaked (answer : outcome js_error (list string)).

Definition assignments_step (call : assignments_call) a : StreamPartAssignments * list assignment_event :=
  match call with
  | NodeAdded nodeId => nodeAdded nodeId a
  | NodeRemoved nodeId => nodeRemoved nodeId a
  | StreamsStaked answers => streamsStaked answers a
  | StreamUnstaked answer => streamUnstaked answer a
  end.

Fixpoint assignments_run (calls : list assignments_call) a : StreamPartAssignments * list assignment_event :=
  match calls with
  | [] => (a, [])
  | call :: calls =>
      let '(a, evs) := assignments_step call a in
      let '(a, evs') := assignments_run calls a in (a, evs ++ evs')
  end.
End ring.

(** * The ring is a function of its set of nodes *)

Section ring_basics.
  Implicit Types (r : ConsistentHashRing) (nodes : list string).

Record ring_ok r : Prop := {
  ro_nodup : NoDup (cr_nodes r);
  ro_cache l : cr_consistentHash r = Some l → l = cr_nodes r ∧ sort_strings l = l
}.

Lemma sort_strings_idemp nodes : sort_strings (sort_strings nodes) = sort_strings nodes.
Proof. apply sort_strings_perm, merge_sort_Permutation. Qed.

Lemma ring_new_ok k : ring_ok (ring_new k).
Proof. by repeat constructor. Qed.

Lemma ring_add_ok nodeId r :
  ring_ok r →
  ring_ok (ring_add nodeId r) ∧ cr_redundancyFactor (ring_add nodeId r) = cr_redundancyFactor r ∧
  list_to_set (cr_nodes (ring_add nodeId r)) = ({[nodeId]} ∪ list_to_set (cr_nodes r) : gset string).
Proof.
  intros [Hnd Hc]. unfold ring_add. case_bool_decide as Hin.
  { split_and!; [by split|done|]. set_solver. }
  split_and!; [|done|cbn; set_solver]. split; [|done]. cbn. apply NoDup_app.
  split_and!; [done| |apply NoDup_singleton]. by intros x Hx ->%list_elem_of_singleton.
Qed.

Lemma delete_elem {A} (l : list A) i x y : NoDup l → l !! i = Some x → y ∈ delete i l ↔ y ∈ l ∧ y ≠ x.
Proof.
  intros Hnd Hi. pose proof (delete_Permutation l i x Hi) as Hp.
  assert (y ∈ l ↔ y = x ∨ y ∈ delete i l) as Hl by (rewrite Hp at 1; apply elem_of_cons).
  assert (x ∉ delete i l) as Hx by (rewrite Hp in Hnd at 1; by apply NoDup_cons in Hnd as [? _]).
  rewrite Hl. split; [|tauto]. intros Hy. split; [by right|]. by intros ->.
Qed.

Lemma ring_remove_ok nodeId r :
  ring_ok r →
  ring_ok (ring_remove nodeId r) ∧ cr_redundancyFactor (ring_remove nodeId r) = cr_redundancyFactor r ∧
  list_to_set (cr_nodes (ring_remove nodeId r)) = (list_to_set (cr_nodes r) ∖ {[nodeId]} : gset string).
Proof.
  intros [Hnd Hc]. unfold ring_remove.
  destruct (list_find (λ x, x = nodeId) (cr_nodes r)) as [[idx x]|] eqn:Hf.
  - apply list_find_Some in Hf as (Hi & -> & _). split_and!; [|done|].
    + split; [|done]. cbn. eapply sublist_NoDup; [exact Hnd|]. apply sublist_delete.
    + cbn. apply set_eq. intros y. rewrite elem_of_difference, elem_of_singleton, !elem_of_list_to_set.
      by rewrite (delete_elem _ _ _ _ Hnd Hi).
  - apply list_find_None in Hf. split_and!; [by split|done|]. apply set_eq. intros y.
    rewrite elem_of_difference, elem_of_singleton, !elem_of_list_to_set.
    split; [|tauto]. intros Hy. split; [done|]. intros ->. exact (proj1 (Forall_forall _ _) Hf _ Hy eq_refl).
Qed.

Lemma foldl_set_keys (parts : list string) (m : jsmap string (list string)) :
  NoDup m.*1 →
  NoDup (foldl (λ m p, map_set p [] m) m parts).*1 ∧
  ∀ x, x ∈ (foldl (λ m p, map_set p [] m) m parts).*1 ↔ x ∈ m.*1 ∨ x ∈ parts.
Proof.
  revert m. induction parts as [|p parts IH]; intros m Hnd; cbn [foldl].
  { split; [done|]. intros x. rewrite elem_of_nil. tauto. }
  destruct (IH (map_set p [] m) ltac:(by apply map_set_nodup)) as [Hnd' Hin]. split; [done|]. intros x.
  rewrite Hin, map_set_keys, elem_of_cons. case_decide; [naive_solver|]. rewrite elem_of_app, list_elem_of_singleton. tauto.
Qed.

Lemma foldl_delete_keys (parts : list string) (m : jsmap string (list string)) :
  NoDup m.*1 →
  NoDup (foldl (λ m p, map_delete p m) m parts).*1 ∧
  ∀ x, x ∈ (foldl (λ m p, map_delete p m) m parts).*1 ↔ x ∈ m.*1 ∧ x ∉ parts.
Proof.
  revert m. induction parts as [|p parts IH]; intros m Hnd; cbn [foldl].
  { split; [done|]. intros x. rewrite elem_of_nil. tauto. }
  destruct (IH (map_delete p m)) as [Hnd' Hin]; [by apply NoDup_fmap_filter|]. split; [done|]. intros x.
  rewrite Hin, map_delete_keys, list_elem_of_filter, elem_of_cons. tauto.
Qed.
End ring_basics.

Section ring_facts.
  Context (number : string → jsnum) (ring_get : list string → string → nat → option (list string)).
  Implicit Types (r : ConsistentHashRing) (a : StreamPartAssignments) (nodes : list string).
  Notation ring_lookup_ := (ring_lookup number ring_get).
  Notation assign_loop_ := (assign_loop number ring_get).
  Notation unassign_loop_ := (unassign_loop number ring_get).

(** The nodes responsible for a stream part *)
Definition responsible nodes (redundancyFactor : nat) (streamPartId : string) : list string :=
  default [] (ring_get (sort_strings nodes) (formKey number streamPartId) redundancyFactor).

Lemma responsible_perm nodes nodes' k p : nodes ≡ₚ nodes' → responsible nodes k p = responsible nodes' k p.
Proof. intros Hp. unfold responsible. by rewrite (sort_strings_perm _ _ Hp). Qed.

Lemma ring_lookup_spec p r r' l :
  ring_ok r → ring_lookup_ p r = (r', l) →
  ring_ok r' ∧ cr_nodes r' ≡ₚ cr_nodes r ∧ cr_redundancyFactor r' = cr_redundancyFactor r ∧
  l = responsible (cr_nodes r) (cr_redundancyFactor r) p.
Proof.
  intros [Hnd Hc]. unfold ring_lookup. destruct (cr_consistentHash r) as [cached|] eqn:Hh.
  - intros [= <- <-]. destruct (Hc _ eq_refl) as [-> Hs]. rewrite Hh. cbn. unfold responsible. rewrite Hs.
    split_and!; [|done..]. split; [done|]. rewrite Hh. intros l [= <-]. by split.
  - intros [= <- <-]. cbn. split_and!; [|by apply merge_sort_Permutation|done|done].
    split; cbn; [|intros l [= <-]; by rewrite sort_strings_idemp].
    unfold sort_strings. by rewrite merge_sort_Permutation.
Qed.

(** * What recalculation leads to *)

Definition mine a (p : string) : Prop :=
  sa_myNodeId a ∈ responsible (cr_nodes (sa_consistentHashRing a)) (cr_redundancyFactor (sa_consistentHashRing a)) p.
#[local] Instance mine_dec a p : Decision (mine a p).
Proof. unfold mine. apply _. Defined.

(** The two states have the same ring, up to the order of its nodes. *)
Record same_ring a a' : Prop := {
  sr_nodes : cr_nodes (sa_consistentHashRing a') ≡ₚ cr_nodes (sa_consistentHashRing a);
  sr_factor : cr_redundancyFactor (sa_consistentHashRing a') = cr_redundancyFactor (sa_consistentHashRing a);
  sr_id : sa_myNodeId a' = sa_myNodeId a;
  sr_ok : ring_ok (sa_consistentHashRing a')
}.

Lemma same_ring_mine a a' p : same_ring a a' → mine a' p ↔ mine a p.
Proof. intros [Hn Hf Hi _]. unfold mine. rewrite (responsible_perm _ _ _ _ Hn), Hf, Hi. done. Qed.

Lemma same_ring_trans a a' a'' : same_ring a a' → same_ring a' a'' → same_ring a a''.
Proof. intros [H1 H2 H3 _] [H4 H5 H6 H7]. split; [by rewrite H4|congruence|congruence|done]. Qed.

Lemma same_ring_responsible a a' p :
  same_ring a a' →
  responsible (cr_nodes (sa_consistentHashRing a')) (cr_redundancyFactor (sa_consistentHashRing a')) p =
  responsible (cr_nodes (sa_consistentHashRing a)) (cr_redundancyFactor (sa_consistentHashRing a)) p.
Proof. intros [Hn Hf _ _]. by rewrite (responsible_perm _ _ _ _ Hn), Hf. Qed.

(** A listener of the events, which joins and leaves *)
Definition follow (parts : list string) (ev : assignment_event) : list string :=
  match ev with Assigned p => parts ++ [p] | Unassigned p => filter (λ x, x ≠ p) parts end.

Lemma assign_loop_spec keys a a' evs :
  ring_ok (sa_consistentHashRing a) → (∀ k, k ∈ keys → k ∈ (sa_assignments a).*1) → NoDup (sa_myStreamParts a) →
  assign_loop_ keys a = (a', evs) →
  same_ring a a' ∧ (sa_assignments a').*1 = (sa_assignments a).*1 ∧ NoDup (sa_myStreamParts a') ∧
  foldl follow (sa_myStreamParts a) evs = sa_myStreamParts a' ∧
  (∀ p, p ∈ sa_myStreamParts a' ↔ p ∈ sa_myStreamParts a ∨ p ∈ keys ∧ mine a p) ∧
  (∀ p, map_get p (sa_assignments a') =
     if decide (p ∈ keys)
     then Some (responsible (cr_nodes (sa_consistentHashRing a)) (cr_redundancyFactor (sa_consistentHashRing a)) p)
     else map_get p (sa_assignments a)).
Proof.
  revert a a' evs. induction keys as [|p keys IH]; intros a a' evs Hok Hkeys Hnd; cbn [assign_loop].
  { intros [= <- <-]. split_and!; try done. intros p. split; [by left|]. by intros [?|[?%elem_of_nil _]]. }
  destruct (ring_lookup_ p (sa_consistentHashRing a)) as [r l] eqn:Hl.
  destruct (ring_lookup_spec _ _ _ _ Hok Hl) as (Hr & Hperm & Hfac & ->).
  set (new := bool_decide _ && negb _). set (a1 := MkAssignments _ _ _ _).
  destruct (assign_loop_ keys a1) as [a2 evs2] eqn:Hloop. intros [= <- <-].
  assert (same_ring a a1) as Hsame by (by split).
  assert (p ∈ (sa_assignments a).*1) as Hp by (apply Hkeys; left).
  assert ((sa_assignments a1).*1 = (sa_assignments a).*1) as Hk1 by (cbn; by rewrite map_set_keys, decide_True).
  assert (new = true ↔ mine a p ∧ p ∉ sa_myStreamParts a) as Hnew.
  { unfold new. by rewrite andb_true_iff, bool_decide_eq_true, negb_true_iff, bool_decide_eq_false. }
  clearbody new. assert (NoDup (sa_myStreamParts a1) ∧ ∀ x, x ∈ sa_myStreamParts a1 ↔ x ∈ sa_myStreamParts a ∨ x = p ∧ mine a p) as [Hnd1 Hmy1].
  { cbn. destruct new.
    - destruct (proj1 Hnew eq_refl) as [Hm Hnin]. split.
      + apply NoDup_app. split_and!; [done| |apply NoDup_singleton]. by intros x Hx ->%list_elem_of_singleton.
      + intros x. rewrite elem_of_app, list_elem_of_singleton. naive_solver.
    - split; [done|]. intros x. split; [by left|]. intros [?|[-> Hm]]; [done|].
      destruct (decide (p ∈ sa_myStreamParts a)); [done|]. by discriminate (proj2 Hnew (conj Hm n)). }
  destruct (IH _ _ _ (sr_ok _ _ Hsame) (λ k Hk, eq_ind_r (λ l, k ∈ l) (Hkeys k (list_elem_of_further _ _ _ Hk)) Hk1) Hnd1 Hloop)
    as (Hs2 & Hk2 & Hnd2 & Hf2 & Hmy2 & Hg2).
  split_and!; [by eapply same_ring_trans|congruence|done| | |].
  - destruct new; exact Hf2.
  - intros x. rewrite Hmy2, Hmy1, elem_of_cons, (same_ring_mine _ _ x Hsame).
    destruct (decide (x = p)) as [->|]; naive_solver.
  - intros x. rewrite Hg2, (same_ring_responsible _ _ x Hsame). cbn [sa_assignments a1]. rewrite map_get_set.
    destruct (decide (x ∈ keys)) as [Hx|Hx]; [by rewrite decide_True by (by right)|].
    destruct (decide (p = x)) as [->|Hne]; [by rewrite decide_True by left|].
    rewrite decide_False; [done|]. by intros [->|?]%elem_of_cons.
Qed.

Lemma unassign_loop_spec parts a a' evs :
  ring_ok (sa_consistentHashRing a) → NoDup (sa_myStreamParts a) → unassign_loop_ parts a = (a', evs) →
  same_ring a a' ∧ sa_assignments a' = sa_assignments a ∧ NoDup (sa_myStreamParts a') ∧
  foldl follow (sa_myStreamParts a) evs = sa_myStreamParts a' ∧
  (∀ p, p ∈ sa_myStreamParts a' ↔
     p ∈ sa_myStreamParts a ∧ (p ∈ parts → p ∈ (sa_assignments a).*1 ∧ mine a p)).
Proof.
  revert a a' evs. induction parts as [|p parts IH]; intros a a' evs Hok Hnd; cbn [unassign_loop].
  { intros [= <- <-]. split_and!; try done. intros p. split; [|by intros []]. intros Hp. split; [done|]. by intros ?%elem_of_nil. }
  destruct (if map_has p (sa_assignments a) then _ else _) as [r l] eqn:Hl.
  assert (ring_ok r ∧ cr_nodes r ≡ₚ cr_nodes (sa_consistentHashRing a) ∧
          cr_redundancyFactor r = cr_redundancyFactor (sa_consistentHashRing a) ∧
          (map_has p (sa_assignments a) = true → l = responsible (cr_nodes (sa_consistentHashRing a))
             (cr_redundancyFactor (sa_consistentHashRing a)) p)) as (Hr & Hperm & Hfac & Hresp).
  { destruct (map_has p (sa_assignments a)); [|by injection Hl as <- <-].
    by destruct (ring_lookup_spec _ _ _ _ Hok Hl) as (? & ? & ? & ->). }
  set (gone := negb (map_has p (sa_assignments a)) || _).
  assert (gone = false ↔ p ∈ (sa_assignments a).*1 ∧ mine a p) as Hgone.
  { unfold gone. rewrite orb_false_iff, !negb_false_iff, map_has_spec, bool_decide_eq_true. unfold mine.
    destruct (map_has p (sa_assignments a)) eqn:Hh; [rewrite Hresp by done; tauto|].
    apply not_true_iff_false in Hh. rewrite map_has_spec in Hh. tauto. }
  clearbody gone. destruct gone.
  - destruct (unassign_loop_ parts _) as [a2 evs2] eqn:Hloop. intros [= <- <-].
    set (a1 := MkAssignments _ _ r _) in *. assert (same_ring a a1) as Hsame by (by split).
    destruct (IH a1 _ _ Hr ltac:(by apply NoDup_filter) Hloop) as (Hs2 & Ha2 & Hnd2 & Hf2 & Hmy2).
    split_and!; [by eapply same_ring_trans|done|done|exact Hf2|].
    intros x. rewrite Hmy2, (same_ring_mine _ _ x Hsame), elem_of_cons. cbn [sa_myStreamParts sa_assignments a1].
    rewrite list_elem_of_filter. destruct (decide (x = p)) as [->|]; [|tauto].
    split; [by intros [[] _]|]. intros [_ H]. by discriminate (proj2 Hgone (H (or_introl eq_refl))).
  - intros Hloop. set (a1 := with_ring r a) in *. assert (same_ring a a1) as Hsame by (by split).
    destruct (IH a1 _ _ Hr Hnd Hloop) as (Hs2 & Ha2 & Hnd2 & Hf2 & Hmy2).
    split_and!; [by eapply same_ring_trans|done|done|exact Hf2|].
    intros x. rewrite Hmy2, (same_ring_mine _ _ x Hsame), elem_of_cons. cbn [sa_myStreamParts sa_assignments a1 with_ring].
    destruct (decide (x = p)) as [->|]; [|tauto]. pose proof (proj1 Hgone eq_refl). tauto.
Qed.

(** The state after recalculation *)
Record recalculated a : Prop := {
  se_ring : ring_ok (sa_consistentHashRing a);
  se_keys : NoDup (sa_assignments a).*1;
  se_values p l : map_get p (sa_assignments a) = Some l →
    l = responsible (cr_nodes (sa_consistentHashRing a)) (cr_redundancyFactor (sa_consistentHashRing a)) p;
  se_nodup : NoDup (sa_myStreamParts a);
  se_mine p : p ∈ sa_myStreamParts a ↔ p ∈ (sa_assignments a).*1 ∧ mine a p
}.

Lemma recalculate_spec a a' evs :
  ring_ok (sa_consistentHashRing a) → NoDup (sa_assignments a).*1 → NoDup (sa_myStreamParts a) →
  recalculateAssignments number ring_get a = (a', evs) →
  recalculated a' ∧ same_ring a a' ∧ (sa_assignments a').*1 = (sa_assignments a).*1 ∧
  foldl follow (sa_myStreamParts a) evs = sa_myStreamParts a'.
Proof.
  intros Hok Hk Hnd. unfold recalculateAssignments.
  destruct (assign_loop_ (sa_assignments a).*1 a) as [a1 evs1] eqn:H1.
  destruct (assign_loop_spec _ _ _ _ Hok (λ _ H, H) Hnd H1) as (Hs1 & Hk1 & Hnd1 & Hf1 & Hmy1 & Hg1).
  destruct (unassign_loop_ (sa_myStreamParts a1) a1) as [a2 evs2] eqn:H2. intros [= <- <-].
  destruct (unassign_loop_spec _ _ _ _ (sr_ok _ _ Hs1) Hnd1 H2) as (Hs2 & Ha2 & Hnd2 & Hf2 & Hmy2).
  pose proof (same_ring_trans _ _ _ Hs1 Hs2) as Hs. split_and!; [split|done|congruence|by rewrite foldl_app, Hf1].
  - apply Hs.
  - by rewrite Ha2, Hk1.
  - intros p l. rewrite Ha2, Hg1, (same_ring_responsible _ _ p Hs). case_decide as Hin; [congruence|].
    intros Hp. destruct Hin. apply map_get_Some in Hp; [|done]. by apply (list_elem_of_fmap_2 fst) in Hp.
  - done.
  - intros p. rewrite Hmy2, Hmy1, Ha2, Hk1, (same_ring_mine _ _ p Hs), (same_ring_mine _ _ p Hs1). tauto.
Qed.


(** * Runs *)

(** The nodes of the ring and the staked stream parts, as sets *)
Definition nodes_step (myNodeId : string) (nodes : gset string) (call : assignments_call) : gset string :=
  match call with
  | NodeAdded nodeId => {[nodeId]} ∪ nodes
  | NodeRemoved nodeId => if bool_decide (nodeId = myNodeId) then nodes else nodes ∖ {[nodeId]}
  | _ => nodes
  end.

Definition parts_step (parts : gset string) (call : assignments_call) : gset string :=
  match call with
  | StreamsStaked answers => list_to_set (answers ≫= getStreamPartIds) ∪ parts
  | StreamUnstaked answer => parts ∖ list_to_set (getStreamPartIds answer)
  | _ => parts
  end.

Definition ring_set a : gset string := list_to_set (cr_nodes (sa_consistentHashRing a)).
Definition staked_set a : gset string := list_to_set (sa_assignments a).*1.

Record assignments_inv (myNodeId : string) (k : nat) (nodes parts : gset string) a : Prop := {
  ai_settled : recalculated a;
  ai_id : sa_myNodeId a = myNodeId;
  ai_factor : cr_redundancyFactor (sa_consistentHashRing a) = k;
  ai_nodes : ring_set a = nodes;
  ai_own : myNodeId ∈ nodes;
  ai_parts : staked_set a = parts
}.

Lemma recalculate_inv myNodeId k (nodes parts : gset string) a a' evs :
  ring_ok (sa_consistentHashRing a) → NoDup (sa_assignments a).*1 → NoDup (sa_myStreamParts a) →
  sa_myNodeId a = myNodeId → cr_redundancyFactor (sa_consistentHashRing a) = k →
  ring_set a = nodes → myNodeId ∈ nodes → staked_set a = parts →
  recalculateAssignments number ring_get a = (a', evs) →
  assignments_inv myNodeId k nodes parts a' ∧ foldl follow (sa_myStreamParts a) evs = sa_myStreamParts a'.
Proof.
  intros Hok Hk Hnd Hid Hfac Hnodes Hown Hparts Hrec.
  destruct (recalculate_spec _ _ _ Hok Hk Hnd Hrec) as (Hs & [Hn Hf Hi _] & Hkeys & Hfol).
  split; [|done]. split; [done|congruence|congruence| |done|].
  - rewrite <-Hnodes. unfold ring_set. by rewrite Hn.
  - rewrite <-Hparts. unfold staked_set. by rewrite Hkeys.
Qed.

Lemma assignments_step_inv myNodeId k (nodes parts : gset string) call a a' evs :
  assignments_inv myNodeId k nodes parts a → assignments_step number ring_get call a = (a', evs) →
  assignments_inv myNodeId k (nodes_step myNodeId nodes call) (parts_step parts call) a' ∧
  foldl follow (sa_myStreamParts a) evs = sa_myStreamParts a'.
Proof.
  intros [[Hok Hk Hv Hnd Hm] Hid Hfac Hnodes Hown Hparts].
  destruct call as [nodeId|nodeId|answers|answer]; cbn [assignments_step nodes_step parts_step].
  - unfold nodeAdded. rewrite Hid. case_bool_decide as He.
    { intros [= <- <-]. split; [|done]. replace ({[nodeId]} ∪ nodes) with nodes by set_solver. by split; [split|..]. }
    destruct (ring_add_ok nodeId _ Hok) as (Hok' & Hf' & Hs'). intros Hrec; refine (recalculate_inv _ _ _ _ _ _ _ _ _ _ _ _ _ _ _ Hrec); cbn; try done; [congruence| |set_solver].
    unfold ring_set in *. cbn. by rewrite Hs', Hnodes.
  - unfold nodeRemoved. rewrite Hid. case_bool_decide as He.
    { intros [= <- <-]. split; [|done]. by split; [split|..]. }
    destruct (ring_remove_ok nodeId _ Hok) as (Hok' & Hf' & Hs'). intros Hrec; refine (recalculate_inv _ _ _ _ _ _ _ _ _ _ _ _ _ _ _ Hrec); cbn; try done; [congruence| |set_solver].
    unfold ring_set in *. cbn. by rewrite Hs', Hnodes.
  - unfold streamsStaked. destruct (foldl_set_keys (answers ≫= getStreamPartIds) (sa_assignments a) Hk) as [Hk' Hin].
    intros Hrec; refine (recalculate_inv _ _ _ _ _ _ _ _ _ _ _ _ _ _ _ Hrec); cbn; try done. unfold staked_set in *. cbn. apply set_eq. intros x.
    rewrite elem_of_list_to_set, Hin, elem_of_union, elem_of_list_to_set, <-Hparts, elem_of_list_to_set. tauto.
  - unfold streamUnstaked. destruct (foldl_delete_keys (getStreamPartIds answer) (sa_assignments a) Hk) as [Hk' Hin].
    intros Hrec; refine (recalculate_inv _ _ _ _ _ _ _ _ _ _ _ _ _ _ _ Hrec); cbn; try done. unfold staked_set in *. cbn. apply set_eq. intros x.
    rewrite elem_of_list_to_set, Hin, elem_of_difference, elem_of_list_to_set, <-Hparts, elem_of_list_to_set. tauto.
Qed.

Lemma assignments_run_inv myNodeId k (nodes parts : gset string) calls a :
  assignments_inv myNodeId k nodes parts a →
  let '(a', evs) := assignments_run number ring_get calls a in
  assignments_inv myNodeId k (foldl (nodes_step myNodeId) nodes calls) (foldl parts_step parts calls) a' ∧
  foldl follow (sa_myStreamParts a) evs = sa_myStreamParts a'.
Proof.
  revert nodes parts a. induction calls as [|call calls IH]; intros nodes parts a Hinv; [done|].
  cbn [assignments_run foldl]. destruct (assignments_step _ _ call a) as [a1 evs1] eqn:Hstep.
  destruct (assignments_step_inv _ _ _ _ _ _ _ _ Hinv Hstep) as [Hinv1 Hf1].
  specialize (IH _ _ _ Hinv1). destruct (assignments_run _ _ calls a1) as [a2 evs2].
  destruct IH as [Hinv2 Hf2]. split; [done|]. rewrite foldl_app, Hf1. exact Hf2.
Qed.

Lemma assignments_new_inv myNodeId k : assignments_inv myNodeId k {[myNodeId]} ∅ (assignments_new myNodeId k).
Proof.
  destruct (ring_add_ok myNodeId _ (ring_new_ok k)) as (Hok & Hf & Hs). cbn in Hs.
  split; [|done|done|unfold ring_set; cbn; rewrite Hs; set_solver|set_solver|done].
  split; cbn; [apply ring_add_ok, ring_new_ok|constructor|done|constructor|]. intros p. rewrite elem_of_nil. tauto.
Qed.

(** What the invariant says of one stream part *)
Lemma assignments_inv_spec myNodeId k (nodes parts : gset string) a p :
  assignments_inv myNodeId k nodes parts a →
  (p ∈ parts → (p ∈ getMyStreamParts a ↔ myNodeId ∈ responsible (elements nodes) k p) ∧
               map_get p (sa_assignments a) = Some (responsible (elements nodes) k p)) ∧
  (p ∉ parts → p ∉ getMyStreamParts a ∧ map_get p (sa_assignments a) = None).
Proof.
  intros [[Hok Hk Hv Hnd Hm] Hid Hfac Hnodes Hown Hparts].
  assert (cr_nodes (sa_consistentHashRing a) ≡ₚ elements nodes) as Hperm.
  { rewrite <-Hnodes. unfold ring_set. symmetry. apply elements_list_to_set. apply Hok. }
  assert (p ∈ (sa_assignments a).*1 ↔ p ∈ parts) as Hst.
  { rewrite <-Hparts. unfold staked_set. by rewrite elem_of_list_to_set. }
  unfold getMyStreamParts. rewrite Hm, <-Hst. unfold mine. rewrite (responsible_perm _ _ _ _ Hperm), Hfac, Hid.
  split; intros Hp; (split; [tauto|]); [|by apply map_get_None].
  destruct (map_get p (sa_assignments a)) as [l|] eqn:Hg; [|by apply map_get_None in Hg].
  by rewrite (Hv _ _ Hg), (responsible_perm _ _ _ _ Hperm), Hfac.
Qed.

(** A node's assignments follow the fleet and the stakes: after any sequence of nodes coming and going and of streams
    staked and unstaked, the node has joined exactly the staked stream parts that the ring of the nodes known at the moment
    gives it, whatever the order of events; its table names for each staked part the nodes responsible; and whoever
    follows its [assigned] and [unassigned] events is in the same parts. *)
Theorem assignments_follow_the_ring myNodeId k calls :
  let '(a, evs) := assignments_run number ring_get calls (assignments_new myNodeId k) in
  let nodes := foldl (nodes_step myNodeId) {[myNodeId]} calls in
  let staked := foldl parts_step ∅ calls in
  (∀ p, p ∈ getMyStreamParts a ↔ p ∈ staked ∧ myNodeId ∈ responsible (elements nodes) k p) ∧
  (∀ p, map_get p (sa_assignments a) =
     if decide (p ∈ staked) then Some (responsible (elements nodes) k p) else None) ∧
  foldl follow [] evs = getMyStreamParts a ∧ NoDup (getMyStreamParts a).
Proof.
  pose proof (assignments_run_inv _ _ _ _ calls _ (assignments_new_inv myNodeId k)) as Hrun.
  destruct (assignments_run _ _ _ _) as [a evs]. destruct Hrun as [Hinv Hf]. cbv zeta.
  pose proof (λ p, assignments_inv_spec _ _ _ _ _ p Hinv) as Hp.
  split_and!; [| |done|by destruct Hinv as [[]]]; intros p; destruct (Hp p) as [Hin Hout];
    destruct (decide (p ∈ foldl parts_step ∅ calls)) as [H|H]; naive_solver.
Qed.
End ring_facts.

(** * Agreement

    The documented behaviour of [consistent-hash]: asked for [count] nodes it gives as many distinct
    nodes, or all when there are fewer. *)

Section agreement.
  Context (number : string → jsnum) (ring_get : list string → string → nat → option (list string)).
  Hypothesis ring_gives : ∀ nodes key k, NoDup nodes → nodes ≠ [] → 1 ≤ k →
    ∃ l, ring_get nodes key k = Some l ∧ NoDup l ∧ (∀ x, x ∈ l → x ∈ nodes) ∧ length l = k `min` length nodes.

Lemma responsible_spec (nodes : gset string) k p :
  nodes ≠ ∅ → 1 ≤ k →
  let l := responsible number ring_get (elements nodes) k p in
  NoDup l ∧ (∀ x, x ∈ l → x ∈ nodes) ∧ length l = k `min` size nodes.
Proof using ring_gives.
  intros Hne Hk. unfold responsible. set (sorted := sort_strings (elements nodes)).
  assert (sorted ≡ₚ elements nodes) as Hperm by apply merge_sort_Permutation.
  destruct (ring_gives sorted (formKey number p) k) as (l & -> & Hnd & Hin & Hlen); [| |done|].
  - rewrite Hperm. apply NoDup_elements.
  - intros Hs. rewrite Hs in Hperm. apply Permutation_nil in Hperm. by apply elements_empty_inv, leibniz_equiv in Hperm.
  - cbn. split_and!; [done| |by rewrite Hlen, Hperm]. intros x Hx. apply elem_of_elements. rewrite <-Hperm. by apply Hin.
Qed.

(** C34: the nodes of an operator share its stream parts: when the nodes of a fleet know each other and a stream part is
    staked, however differently each of them got there, they name the same nodes for it, and as many of them join it as
    the redundancy factor says, or all of them if there are fewer. *)
Theorem fleet_shares_stream_parts (fleet : gset string) k (calls : string → list assignments_call) p :
  1 ≤ k →
  (∀ id, id ∈ fleet → foldl (nodes_step id) {[id]} (calls id) = fleet ∧ p ∈ foldl parts_step ∅ (calls id)) →
  let state id := (assignments_run number ring_get (calls id) (assignments_new id k)).1 in
  size (filter (λ id, p ∈ getMyStreamParts (state id)) fleet) = k `min` size fleet ∧
  (∀ id id', id ∈ fleet → id' ∈ fleet → map_get p (sa_assignments (state id)) = map_get p (sa_assignments (state id'))).
Proof using ring_gives.
  intros Hk Hall state.
  assert (∀ id, id ∈ fleet →
    (p ∈ getMyStreamParts (state id) ↔ id ∈ responsible number ring_get (elements fleet) k p) ∧
    map_get p (sa_assignments (state id)) = Some (responsible number ring_get (elements fleet) k p)) as Hid.
  { intros id Hin. destruct (Hall id Hin) as [Hf Hp].
    pose proof (assignments_run_inv number ring_get _ _ _ _ (calls id) _ (assignments_new_inv number ring_get id k)) as Hrun.
    unfold state. destruct (assignments_run _ _ _ _) as [a evs]. cbn [fst]. destruct Hrun as [Hinv _].
    rewrite Hf in Hinv. destruct (assignments_inv_spec _ _ _ _ _ _ _ p Hinv) as [Hs _]. by apply Hs. }
  split; [|intros id id' Hi Hi'; by rewrite (proj2 (Hid id Hi)), (proj2 (Hid id' Hi'))].
  destruct (decide (fleet = ∅)) as [He|Hne].
  { rewrite He. assert (∀ P `{∀ x, Decision (P x)}, filter P (∅ : gset string) = ∅) as -> by set_solver. rewrite size_empty. lia. }
  destruct (responsible_spec fleet k p Hne Hk) as (Hnd & Hsub & <-).
  rewrite <-(size_list_to_set (C:=gset string)) by done. f_equal. apply set_eq. intros id.
  rewrite elem_of_filter, elem_of_list_to_set. split.
  - intros [Hp Hin]. by apply Hid.
  - intros Hr. split; [by apply Hid; [apply Hsub|]|by apply Hsub].
Qed.
End agreement.
