(* ===== verification/Heartbeats.v ===== *)
(** [OperatorFleetState] and [createIsLeaderFn] (packages/node/src/plugins/operator): which nodes
    of the operator are up, by the heartbeats they send on a stream, and who leads them; and the
    node's part of the work, with the assignments of [Fleet.v] behind it.

    A message of the stream is given as what the schema makes of it: a heartbeat, or nothing
    when it is invalid.  The timers are events. *)

From S2P Require Import Prelude.
From S2P Require Import Js.
From S2P Require Import JsMap.
From S2P Require Import Fleet.

Set Default Proof Using "Type".

(** * OperatorFleetState *)

Section fleet_state.
  Context {D : Type}.                      (** peer descriptors, apart from their node id *)

Record HeartbeatMessage := MkHeartbeat { hb_nodeId : string; hb_peerDescriptor : D }.

Record fleet_options := MkFleetOptions {
  fo_heartbeatIntervalInMs : Z;
  fo_pruneAgeInMs : Z;
  fo_latencyExtraInMs : Z;
  fo_warmupPeriodInMs : Z
}.
Context (opts : fleet_options).

Record OperatorFleetState := MkFleetState {
  fs_latestHeartbeats : jsmap string (Z * D);
  fs_startTime : option Z;                   (** [Some] once there is a subscription *)
  fs_launched : bool;                        (** [once]: the timer of the gate is set *)
  fs_open : bool                             (** the gate [ready] *)
}.
Implicit Types (f : OperatorFleetState).

Inductive fleet_event := FleetAdded (nodeId : string) | FleetRemoved (nodeId : string).

Definition fleet_new : OperatorFleetState := MkFleetState [] None false false.

Definition fleet_start (now : Z) f : outcome js_error OperatorFleetState :=
  match fs_startTime f with
  | Some _ => Throw (MkError None "already started")
  | None => Return (MkFleetState (fs_latestHeartbeats f) (Some now) (fs_launched f) (fs_open f))
  end.

(** The listener of the subscription; the last component is the delay of the timer it sets. *)
Definition on_coordination_message (now startTime : Z) (message : option HeartbeatMessage) f
    : OperatorFleetState * list fleet_event * option Z :=
  if (now - startTime <? fo_warmupPeriodInMs opts)%Z then (f, [], None)
  else match message with
  | None => (f, [], None)
  | Some message =>
      let nodeId := hb_nodeId message in
      let exists_ := map_has nodeId (fs_latestHeartbeats f) in
      let launch := negb (fs_open f) && negb (fs_launched f) in
      (MkFleetState (map_set nodeId (now, hb_peerDescriptor message) (fs_latestHeartbeats f))
         (fs_startTime f) (fs_launched f || negb (fs_open f)) (fs_open f),
       if negb exists_ then [FleetAdded nodeId] else [],
       if launch then Some (fo_heartbeatIntervalInMs opts + fo_latencyExtraInMs opts)%Z else None)
  end.

Definition open_gate f : OperatorFleetState :=
  MkFleetState (fs_latestHeartbeats f) (fs_startTime f) (fs_launched f) true.

Definition stale (now : Z) (e : string * (Z * D)) : Prop := (fo_pruneAgeInMs opts ≤ now - e.2.1)%Z.
#[export] Instance stale_dec now e : Decision (stale now e).
Proof. unfold stale. apply _. Defined.

Fixpoint prune_loop (now : Z) (entries : jsmap string (Z * D)) f : OperatorFleetState * list fleet_event :=
  match entries with
  | [] => (f, [])
  | e :: entries =>
      if decide (stale now e) then
        let '(f, evs) := prune_loop now entries
          (MkFleetState (map_delete e.1 (fs_latestHeartbeats f)) (fs_startTime f) (fs_launched f) (fs_open f)) in
        (f, FleetRemoved e.1 :: evs)
      else prune_loop now entries f
  end.

Definition pruneOfflineNodes (now : Z) f : OperatorFleetState * list fleet_event :=
  prune_loop now (fs_latestHeartbeats f) f.

Definition getNodeIds f : list string := (fs_latestHeartbeats f).*1.

(** [min] of lodash, with the order of strings *)
Fixpoint min_from (computed : string) (l : list string) : string :=
  match l with
  | [] => computed
  | x :: l => min_from (if decide (String.le computed x) then computed else x) l
  end.
Definition min_string (l : list string) : option string :=
  match l with [] => None | x :: l => Some (min_from x l) end.

Definition getLeaderNodeId f : option string := min_string (getNodeIds f).
Definition isLeader (myNodeId : string) f : bool := bool_decide (Some myNodeId = getLeaderNodeId f).
Definition getPeerDescriptor (nodeId : string) f : option D := snd <$> map_get nodeId (fs_latestHeartbeats f).

(** [StreamPartAssignments.getAssignedNodesForStreamPart] *)
Definition getAssignedNodesForStreamPart (streamPartId : string) (a : StreamPartAssignments) f : list D :=
  omap (λ nodeId, getPeerDescriptor nodeId f) (default [] (map_get streamPartId (sa_assignments a))).
End fleet_state.
Arguments HeartbeatMessage : clear implicits.
Arguments OperatorFleetState : clear implicits.

(** * The leader *)

Lemma min_from_spec x l : (min_from x l = x ∨ min_from x l ∈ l) ∧ ∀ y, y = x ∨ y ∈ l → String.le (min_from x l) y.
Proof.
  revert x. induction l as [|z l IH]; intros x; cbn [min_from].
  { split; [by left|]. by intros y [->|?%elem_of_nil]. }
  destruct (IH (if decide (String.le x z) then x else z)) as [Hin Hle].
  assert (String.le (if decide (String.le x z) then x else z) x ∧ String.le (if decide (String.le x z) then x else z) z) as [Hx Hz].
  { case_decide as Hd; [done|]. split; [|done]. by destruct (total String.le x z). }
  split.
  - destruct Hin as [->|Hin]; [case_decide; [by left|right; left]|right; by right].
  - intros y Hy. assert (String.le (min_from (if decide (String.le x z) then x else z) l)
                           (if decide (String.le x z) then x else z)) as Hmin by (apply Hle; by left).
    rewrite elem_of_cons in Hy. destruct Hy as [->|[->|Hy]]; [by etrans|by etrans|]. apply Hle. by right.
Qed.

(** The leader is the smallest id, whatever the order of the nodes. *)
Lemma min_string_spec l : match min_string l with
  | Some x => x ∈ l ∧ ∀ y, y ∈ l → String.le x y
  | None => l = []
  end.
Proof.
  destruct l as [|x l]; [done|]. cbn. destruct (min_from_spec x l) as [Hin Hle]. split.
  - apply elem_of_cons. destruct Hin; auto.
  - intros y ?%elem_of_cons. by apply Hle.
Qed.

Lemma min_string_set l l' : (∀ x, x ∈ l ↔ x ∈ l') → min_string l = min_string l'.
Proof.
  intros Heq. pose proof (min_string_spec l) as H. pose proof (min_string_spec l') as H'.
  destruct (min_string l) as [x|], (min_string l') as [x'|].
  - destruct H as [Hx Hle], H' as [Hx' Hle']. f_equal. apply (anti_symm String.le); [apply Hle, Heq, Hx'|apply Hle', Heq, Hx].
  - subst l'. destruct H as [Hx _]. by apply Heq, elem_of_nil in Hx.
  - subst l. destruct H' as [Hx _]. by apply Heq, elem_of_nil in Hx.
  - done.
Qed.

(** * The node: heartbeats drive the assignments *)

Section operator_node.
  Context {D : Type} (opts : fleet_options) (startTime : Z).
  Implicit Types (f : OperatorFleetState D) (a : StreamPartAssignments).

Record operator_node := MkOperatorNode {
  on_fleet : OperatorFleetState D;
  on_assignments : StreamPartAssignments
}.

Inductive operator_event :=
  | Coordination (message : option (HeartbeatMessage D))
  | PruneTick
  | GateTimer
  | Staked (answers : list (outcome js_error (list string)))
  | Unstaked (answer : outcome js_error (list string)).

(** The constructor of [StreamPartAssignments] listens to the fleet. *)
Definition fleet_call (ev : fleet_event) : assignments_call :=
  match ev with FleetAdded nodeId => NodeAdded nodeId | FleetRemoved nodeId => NodeRemoved nodeId end.

Definition operator_calls (now : Z) (ev : operator_event) f : OperatorFleetState D * list assignments_call :=
  match ev with
  | Coordination message => let '(f, evs, _) := on_coordination_message opts now startTime message f in (f, fleet_call <$> evs)
  | PruneTick => let '(f, evs) := pruneOfflineNodes opts now f in (f, fleet_call <$> evs)
  | GateTimer => (open_gate f, [])
  | Staked answers => (f, [StreamsStaked answers])
  | Unstaked answer => (f, [StreamUnstaked answer])
  end.

Fixpoint fleet_run (evs : list (Z * operator_event)) f : OperatorFleetState D * list assignments_call :=
  match evs with
  | [] => (f, [])
  | (now, ev) :: evs =>
      let '(f, calls) := operator_calls now ev f in
      let '(f, calls') := fleet_run evs f in (f, calls ++ calls')
  end.

Definition operator_new (myNodeId : string) (redundancyFactor : nat) : operator_node :=
  MkOperatorNode (MkFleetState [] (Some startTime) false false) (assignments_new myNodeId redundancyFactor).

(** ** What was heard, and when *)

Definition heard (now : Z) (ev : operator_event) : option string :=
  match ev with
  | Coordination (Some message) =>
      if (now - startTime <? fo_warmupPeriodInMs opts)%Z then None else Some (hb_nodeId message)
  | _ => None
  end.

(** The time of the last heartbeat of a node, if any *)
Definition last_heartbeat (evs : list (Z * operator_event)) (nodeId : string) : option Z :=
  foldl (λ t ev, if bool_decide (heard ev.1 ev.2 = Some nodeId) then Some ev.1 else t) None evs.

Definition alive (evs : list (Z * operator_event)) (now : Z) (nodeId : string) : Prop :=
  match last_heartbeat evs nodeId with Some t => (now - t < fo_pruneAgeInMs opts)%Z | None => False end.
#[export] Instance alive_dec evs now nodeId : Decision (alive evs now nodeId).
Proof. unfold alive. case_match; apply _. Defined.

Lemma last_heartbeat_snoc evs now ev nodeId :
  last_heartbeat (evs ++ [(now, ev)]) nodeId =
  if bool_decide (heard now ev = Some nodeId) then Some now else last_heartbeat evs nodeId.
Proof. unfold last_heartbeat. by rewrite foldl_app. Qed.

(** The table of heartbeats against what was heard up to [now] *)
Record fleet_inv (evs : list (Z * operator_event)) (now : Z) f : Prop := {
  fl_nodup : NoDup (getNodeIds f);
  fl_times nodeId t d : map_get nodeId (fs_latestHeartbeats f) = Some (t, d) → last_heartbeat evs nodeId = Some t;
  fl_missing nodeId : map_get nodeId (fs_latestHeartbeats f) = None → ¬ alive evs now nodeId
}.

(** The calls bring the nodes of a ring from one table to the next. *)
Definition ring_of (myNodeId : string) f : gset string := {[myNodeId]} ∪ list_to_set (getNodeIds f).

Lemma ring_of_remove myNodeId nodeId f f' :
  (∀ x, x ∈ getNodeIds f' ↔ x ∈ getNodeIds f ∧ x ≠ nodeId) →
  nodes_step myNodeId (ring_of myNodeId f) (NodeRemoved nodeId) = ring_of myNodeId f'.
Proof.
  intros Hids. unfold nodes_step, ring_of. apply set_eq. intros x. case_bool_decide as He.
  - rewrite !elem_of_union, !elem_of_list_to_set, Hids, elem_of_singleton. destruct (decide (x = nodeId)); naive_solver.
  - rewrite elem_of_difference, !elem_of_union, !elem_of_list_to_set, Hids, !elem_of_singleton. naive_solver.
Qed.

Lemma getNodeIds_get f nodeId : nodeId ∈ getNodeIds f ↔ is_Some (map_get nodeId (fs_latestHeartbeats f)).
Proof.
  unfold getNodeIds. rewrite <-not_eq_None_Some, map_get_None. destruct (decide (nodeId ∈ (fs_latestHeartbeats f).*1)); tauto.
Qed.

Lemma prune_loop_spec now (entries : jsmap string (Z * D)) f :
  NoDup (getNodeIds f) → NoDup entries.*1 → (∀ e, e ∈ entries → map_get e.1 (fs_latestHeartbeats f) = Some e.2) →
  let '(f', evs) := prune_loop opts now entries f in
  NoDup (getNodeIds f') ∧
  (∀ k, map_get k (fs_latestHeartbeats f') =
     match map_get k (fs_latestHeartbeats f) with
     | Some (t, d) => if decide (k ∈ entries.*1 ∧ stale opts now (k, (t, d))) then None else Some (t, d)
     | None => None
     end) ∧
  ∀ myNodeId, foldl (nodes_step myNodeId) (ring_of myNodeId f) (fleet_call <$> evs) = ring_of myNodeId f'.
Proof.
  revert f. induction entries as [|[k [t d]] entries IH]; intros f Hnd Hnde Hget; cbn [prune_loop].
  { split_and!; [done| |done]. intros k. destruct (map_get k _) as [[t d]|]; [|done].
    rewrite decide_False; [done|]. by intros [?%elem_of_nil _]. }
  rewrite fmap_cons in *. apply NoDup_cons in Hnde as [Hnin Hnde]. cbn [fst snd] in Hnin.
  pose proof (Hget _ (list_elem_of_here _ _)) as Hk. cbn in Hk.
  destruct (decide (stale opts now (k, (t, d)))) as [Hs|Hs].
  - set (f1 := MkFleetState _ _ _ _). specialize (IH f1). destruct (prune_loop opts now entries f1) as [f' evs].
    assert (∀ x, map_get x (fs_latestHeartbeats f1) = if decide (k = x) then None else map_get x (fs_latestHeartbeats f)) as Hg1
      by (intros x; apply map_get_delete).
    destruct IH as (Hnd' & Hg' & Hring).
    + unfold getNodeIds. cbn. by apply NoDup_fmap_filter.
    + done.
    + intros e He. rewrite Hg1, decide_False; [apply Hget; by right|]. intros ->. destruct Hnin. by apply list_elem_of_fmap_2.
    + split_and!; [done| |].
      * intros x. rewrite Hg', Hg1. destruct (decide (k = x)) as [<-|Hne].
        -- rewrite Hk, decide_True; [done|]. split; [left|done].
        -- destruct (map_get x _) as [[t' d']|]; [|done]. apply decide_ext. rewrite elem_of_cons. naive_solver.
      * intros myNodeId. rewrite fmap_cons. cbn [foldl fleet_call fst]. rewrite (ring_of_remove _ _ _ f1); [apply Hring|].
        intros x. rewrite !getNodeIds_get, Hg1. destruct (decide (k = x)) as [->|Hne]; [|naive_solver].
        split; [by intros [? ?]|tauto].
  - specialize (IH f Hnd Hnde (λ e He, Hget e (list_elem_of_further _ _ _ He))).
    destruct (prune_loop opts now entries f) as [f' evs]. destruct IH as (Hnd' & Hg' & Hring).
    split_and!; [done| |done]. intros x. rewrite Hg'. destruct (decide (k = x)) as [<-|Hne].
    + rewrite Hk. rewrite !decide_False; [done|by intros [_ ?]|by intros [_ ?]].
    + destruct (map_get x _) as [[t' d']|]; [|done]. apply decide_ext. rewrite elem_of_cons. naive_solver.
Qed.

(** ** One event *)

Lemma alive_mono evs now now' nodeId : (now ≤ now')%Z → alive evs now' nodeId → alive evs now nodeId.
Proof. unfold alive. destruct (last_heartbeat evs nodeId); [lia|done]. Qed.

Lemma heard_none evs now ev nodeId : heard now ev = None → last_heartbeat (evs ++ [(now, ev)]) nodeId = last_heartbeat evs nodeId.
Proof. intros Hh. by rewrite last_heartbeat_snoc, Hh. Qed.

(** Events that say nothing about the nodes *)
Lemma fleet_inv_quiet evs now0 now ev f f' :
  fleet_inv evs now0 f → (now0 ≤ now)%Z → heard now ev = None → fs_latestHeartbeats f' = fs_latestHeartbeats f →
  fleet_inv (evs ++ [(now, ev)]) now f'.
Proof.
  intros [Hnd Ht Hm] Hle Hh Hf. unfold getNodeIds in *. split; unfold getNodeIds; rewrite Hf.
  - done.
  - intros nodeId t d Hg. rewrite heard_none by done. by eapply Ht.
  - intros nodeId Hg Ha. apply (Hm nodeId Hg). unfold alive in *. rewrite heard_none in Ha by done.
    by apply (alive_mono evs now0) in Ha.
Qed.

Lemma heartbeat_inv evs now0 now message f :
  fleet_inv evs now0 f → (now0 ≤ now)%Z →
  let '(f', out, _) := on_coordination_message opts now startTime message f in
  fleet_inv (evs ++ [(now, Coordination message)]) now f' ∧
  ∀ myNodeId, foldl (nodes_step myNodeId) (ring_of myNodeId f) (fleet_call <$> out) = ring_of myNodeId f'.
Proof.
  intros Hinv Hle. unfold on_coordination_message.
  destruct (now - startTime <? fo_warmupPeriodInMs opts)%Z eqn:Hw.
  { split; [|done]. eapply fleet_inv_quiet; [done..| |done]. cbn. by destruct message as [m|]; [rewrite Hw|]. }
  destruct message as [m|]; [|split; [by eapply fleet_inv_quiet|done]].
  assert (heard now (Coordination (Some m)) = Some (hb_nodeId m)) as Hh by (cbn; by rewrite Hw).
  destruct Hinv as [Hnd Ht Hm]. split; [split|]; unfold getNodeIds; cbn [fs_latestHeartbeats].
  - by apply map_set_nodup.
  - intros nodeId t d. rewrite map_get_set, last_heartbeat_snoc, Hh. case_decide as He.
    + intros [= <- _]. by rewrite bool_decide_eq_true_2 by congruence.
    + rewrite bool_decide_eq_false_2 by congruence. apply Ht.
  - intros nodeId. rewrite map_get_set. case_decide as He; [done|]. intros Hg Ha. apply (Hm nodeId Hg).
    unfold alive in *. rewrite last_heartbeat_snoc, Hh, bool_decide_eq_false_2 in Ha by congruence.
    by apply (alive_mono evs now0) in Ha.
  - intros myNodeId. unfold ring_of, getNodeIds. cbn [fs_latestHeartbeats]. rewrite map_set_keys.
    destruct (map_has (hb_nodeId m) (fs_latestHeartbeats f)) eqn:Hhas.
    + apply map_has_spec in Hhas. by rewrite decide_True by done.
    + apply not_true_iff_false in Hhas. rewrite map_has_spec in Hhas. rewrite decide_False by done.
      cbn. rewrite list_to_set_app_L. cbn. set_solver.
Qed.

Lemma prune_inv evs now0 now f :
  fleet_inv evs now0 f → (now0 ≤ now)%Z →
  let '(f', out) := pruneOfflineNodes opts now f in
  fleet_inv (evs ++ [(now, PruneTick)]) now f' ∧
  (∀ myNodeId, foldl (nodes_step myNodeId) (ring_of myNodeId f) (fleet_call <$> out) = ring_of myNodeId f') ∧
  (∀ nodeId, nodeId ∈ getNodeIds f' ↔ alive evs now nodeId).
Proof.
  intros [Hnd Ht Hm] Hle. unfold pruneOfflineNodes.
  pose proof (prune_loop_spec now (fs_latestHeartbeats f) f Hnd Hnd) as Hp. destruct (prune_loop _ _ _ f) as [f' out].
  destruct Hp as (Hnd' & Hg & Hring); [intros [k e] He; by apply map_get_Some|].
  assert (∀ k t d, map_get k (fs_latestHeartbeats f) = Some (t, d) → k ∈ (fs_latestHeartbeats f).*1) as Hin.
  { intros k t d Hk. apply map_get_Some in Hk; [|done]. by apply (list_elem_of_fmap_2 fst) in Hk. }
  split_and!; [split; [done|..]|done|].
  - intros nodeId t d. rewrite Hg, heard_none by done. destruct (map_get nodeId (fs_latestHeartbeats f)) as [[t' d']|] eqn:Hk; [|done].
    case_decide; [done|]. intros [= <- <-]. by eapply Ht.
  - intros nodeId Hnone Ha. unfold alive in Ha. rewrite heard_none in Ha by done. rewrite Hg in Hnone.
    destruct (map_get nodeId (fs_latestHeartbeats f)) as [[t d]|] eqn:Hk; [|by apply (Hm nodeId Hk), (alive_mono evs now0 now)].
    case_decide as Hd; [|done]. destruct Hd as [_ Hst]. rewrite (Ht _ _ _ Hk) in Ha. unfold stale in Hst. cbn in Hst. lia.
  - intros nodeId. rewrite getNodeIds_get, Hg. unfold alive.
    destruct (map_get nodeId (fs_latestHeartbeats f)) as [[t d]|] eqn:Hk.
    + rewrite (Ht _ _ _ Hk). unfold stale. cbn. case_decide as Hd.
      * split; [by intros [? ?]|]. destruct Hd. lia.
      * split; [|by eexists]. intros _. destruct (decide (now - t < fo_pruneAgeInMs opts)%Z); [done|]. destruct Hd.
        split; [by eapply Hin|lia].
    + split; [by intros [? ?]|]. intros Ha. by destruct (Hm nodeId Hk (alive_mono evs now0 now nodeId Hle Ha)).
Qed.

(** ** Runs *)

Definition staked_step (parts : gset string) (ev : operator_event) : gset string :=
  match ev with
  | Staked answers => list_to_set (answers ≫= getStreamPartIds) ∪ parts
  | Unstaked answer => parts ∖ list_to_set (getStreamPartIds answer)
  | _ => parts
  end.

Lemma fleet_calls_parts parts (out : list fleet_event) : foldl parts_step parts (fleet_call <$> out) = parts.
Proof. induction out as [|[] out IH]; [done|exact IH|exact IH]. Qed.

Lemma operator_calls_inv evs now0 now ev f :
  fleet_inv evs now0 f → (now0 ≤ now)%Z →
  let '(f', calls) := operator_calls now ev f in
  fleet_inv (evs ++ [(now, ev)]) now f' ∧
  (∀ myNodeId, foldl (nodes_step myNodeId) (ring_of myNodeId f) calls = ring_of myNodeId f') ∧
  (∀ parts, foldl parts_step parts calls = staked_step parts ev).
Proof.
  intros Hinv Hle. destruct ev as [message| | |answers|answer]; cbn [operator_calls staked_step].
  - pose proof (heartbeat_inv _ _ _ message f Hinv Hle) as H. destruct (on_coordination_message _ _ _ _ _) as [[f' out] t].
    destruct H. split_and!; [done..|]. intros parts. apply fleet_calls_parts.
  - pose proof (prune_inv _ _ _ f Hinv Hle) as H. destruct (pruneOfflineNodes _ _ _) as [f' out].
    destruct H as (? & ? & _). split_and!; [done..|]. intros parts. apply fleet_calls_parts.
  - split_and!; [by eapply fleet_inv_quiet|done|done].
  - split_and!; [by eapply fleet_inv_quiet|done|done].
  - split_and!; [by eapply fleet_inv_quiet|done|done].
Qed.

Lemma fleet_run_inv evs0 now0 evs now f :
  fleet_inv evs0 now0 f → Sorted Z.le (now0 :: evs.*1 ++ [now]) →
  let '(f', calls) := fleet_run evs f in
  (∃ now1, (now1 ≤ now)%Z ∧ fleet_inv (evs0 ++ evs) now1 f') ∧
  (∀ myNodeId, foldl (nodes_step myNodeId) (ring_of myNodeId f) calls = ring_of myNodeId f') ∧
  (∀ parts, foldl parts_step parts calls = foldl staked_step parts evs.*2).
Proof.
  revert evs0 now0 f. induction evs as [|[now1 ev] evs IH]; intros evs0 now0 f Hinv Hs.
  { cbn in *. apply Sorted_inv in Hs as [_ Hle%HdRel_inv]. rewrite app_nil_r. split; [by exists now0|done]. }
  rewrite !fmap_cons in *. cbn [fleet_run fst snd foldl app] in *. apply Sorted_inv in Hs as [Hs Hle%HdRel_inv].
  pose proof (operator_calls_inv _ _ _ ev f Hinv Hle) as Hstep. destruct (operator_calls now1 ev f) as [f1 calls].
  destruct Hstep as (Hinv1 & Hn & Hp). specialize (IH _ _ f1 Hinv1 Hs).
  destruct (fleet_run evs f1) as [f2 calls']. destruct IH as (Hinv2 & Hn2 & Hp2). rewrite <-app_assoc in Hinv2.
  split_and!.
  - done.
  - intros myNodeId. by rewrite foldl_app, Hn.
  - intros parts. by rewrite foldl_app, Hp.
Qed.

Lemma fleet_new_inv : fleet_inv [] 0 (MkFleetState (D:=D) [] (Some startTime) false false).
Proof. split; unfold getNodeIds; cbn; [constructor|done|]. intros nodeId _. unfold alive. cbn. tauto. Qed.
End operator_node.
Arguments operator_event : clear implicits.
Arguments operator_node : clear implicits.

Lemma fleet_run_app {D} opts startTime (evs evs' : list (Z * operator_event D)) f :
  fleet_run opts startTime (evs ++ evs') f =
  let '(f, calls) := fleet_run opts startTime evs f in
  let '(f, calls') := fleet_run opts startTime evs' f in (f, calls ++ calls').
Proof.
  revert f. induction evs as [|[now ev] evs IH]; intros f; cbn [app fleet_run].
  { by destruct (fleet_run _ _ evs' f). }
  destruct (operator_calls _ _ now ev f) as [f1 calls]. rewrite IH. destruct (fleet_run _ _ evs f1) as [f2 calls2].
  destruct (fleet_run _ _ evs' f2) as [f3 calls3]. by rewrite app_assoc.
Qed.

Lemma alive_heard {D} opts startTime (evs : list (Z * operator_event D)) now x :
  alive opts startTime evs now x → x ∈ omap (λ ev, heard opts startTime ev.1 ev.2) evs.
Proof.
  unfold alive. induction evs as [|[t ev] evs IH] using rev_ind; [done|]. rewrite last_heartbeat_snoc, omap_app, elem_of_app.
  case_bool_decide as He; [|by left; apply IH]. intros _. right. cbn. rewrite He. left.
Qed.

Section operator_run.
  Context {D : Type} (opts : fleet_options) (startTime : Z).
  Context (number : string → jsnum) (ring_get : list string → string → nat → option (list string)).

(** [pLimit(1)] keeps the calls in order; a run is seen when all of them are done. *)
Definition operator_run (evs : list (Z * operator_event D)) (n : operator_node D) : operator_node D * list assignment_event :=
  let '(f, calls) := fleet_run opts startTime evs (on_fleet n) in
  let '(a, out) := assignments_run number ring_get calls (on_assignments n) in
  (MkOperatorNode f a, out).


(** The nodes whose last heartbeat is not too old *)
Definition alive_set (evs : list (Z * operator_event D)) (now : Z) : gset string :=
  list_to_set (filter (alive opts startTime evs now) (omap (λ ev, heard opts startTime ev.1 ev.2) evs)).

(** Heartbeats decide what a node joins: with time going forward, after the fleet is pruned the node is in a stream part
    exactly when the part is staked and the ring of the nodes alive, those whose last heartbeat (after the warm-up) is
    younger than the prune age, and of the node itself, gives it to the node. *)
Theorem operator_joins_its_share (evs : list (Z * operator_event D)) now myNodeId k :
  Sorted Z.le (0%Z :: (evs ++ [(now, PruneTick)]).*1) →
  let '(n, out) := operator_run (evs ++ [(now, PruneTick)]) (operator_new startTime myNodeId k) in
  let nodes := {[myNodeId]} ∪ alive_set evs now in
  (∀ p, p ∈ getMyStreamParts (on_assignments n) ↔
     p ∈ foldl staked_step ∅ evs.*2 ∧ myNodeId ∈ responsible number ring_get (elements nodes) k p) ∧
  foldl follow [] out = getMyStreamParts (on_assignments n).
Proof.
  intros Hs. unfold operator_run, operator_new. cbn [on_fleet on_assignments].
  rewrite fmap_app in Hs. cbn in Hs.
  pose proof (fleet_run_inv opts startTime [] 0 evs now _ (fleet_new_inv opts startTime) Hs) as Hrun.
  rewrite (fleet_run_app opts startTime evs). destruct (fleet_run opts startTime evs _) as [f calls].
  destruct Hrun as ((now1 & Hle & Hinv) & Hn & Hp). cbn [fleet_run operator_calls app] in *.
  pose proof (prune_inv opts startTime _ _ _ f Hinv Hle) as Hprune. destruct (pruneOfflineNodes opts now f) as [f' out].
  destruct Hprune as (_ & Hn' & Halive). rewrite app_nil_r.
  pose proof (assignments_run_inv number ring_get myNodeId k _ _ (calls ++ (fleet_call <$> out)) _
                (assignments_new_inv number ring_get myNodeId k)) as Ha.
  destruct (assignments_run _ _ _ _) as [a evs']. destruct Ha as [Ha Hf]. cbn [on_assignments]. split; [|exact Hf].
  rewrite !foldl_app, Hp, fleet_calls_parts in Ha.
  assert (foldl (nodes_step myNodeId) {[myNodeId]} calls = ring_of myNodeId f) as Hring.
  { rewrite <-Hn. f_equal. unfold ring_of. cbn. set_solver. }
  rewrite Hring, Hn' in Ha.
  assert (ring_of myNodeId f' = {[myNodeId]} ∪ alive_set evs now) as Hset.
  { unfold ring_of, alive_set. f_equal. apply set_eq. intros x.
    rewrite !elem_of_list_to_set, Halive, list_elem_of_filter. split; [|tauto]. intros Hx. split; [done|].
    by eapply alive_heard. }
  rewrite Hset in Ha. intros p. destruct (assignments_inv_spec _ _ _ _ _ _ _ p Ha) as [Hin Hout].
  destruct (decide (p ∈ foldl staked_step ∅ evs.*2)); naive_solver.
Qed.
End operator_run.

(** ** One leader

    Nodes that hold the same ids agree on the leader; one of them leads, and only one. *)

Lemma fleet_agrees_on_leader {D} (f f' : OperatorFleetState D) id id' :
  (∀ x, x ∈ getNodeIds f ↔ x ∈ getNodeIds f') →
  getLeaderNodeId f = getLeaderNodeId f' ∧
  (isLeader id f = true → isLeader id' f' = true → id = id') ∧
  (getNodeIds f ≠ [] → ∃ leader, leader ∈ getNodeIds f ∧ isLeader leader f = true).
Proof.
  intros Hids. pose proof (min_string_set _ _ Hids) as Hmin. unfold isLeader, getLeaderNodeId. rewrite <-Hmin.
  split_and!; [done| |].
  - intros H%bool_decide_eq_true H'%bool_decide_eq_true. congruence.
  - intros Hne. pose proof (min_string_spec (getNodeIds f)) as Hs. destruct (min_string (getNodeIds f)) as [x|]; [|done].
    exists x. split; [by destruct Hs|]. by apply bool_decide_eq_true.
Qed.

Module HeartbeatsWitness.
(** A ring that gives the first nodes *)
Definition first_nodes (nodes : list string) (key : string) (k : nat) : option (list string) := Some (take k nodes).
Definition opts : fleet_options := MkFleetOptions 10000 300000 1000 5000.
Definition beat (nodeId : string) : operator_event unit := Coordination (Some (MkHeartbeat nodeId tt)).

(** [a] falls silent: the node [b] takes over its part. *)
Definition silence : list (Z * operator_event unit) :=
  [(1000%Z, beat "d"); (6000%Z, beat "a"); (6001%Z, beat "b"); (7000%Z, Staked [Return ["s#0"; "s#1"]; Throw (MkError None "no stream")]);
   (200000%Z, beat "b")].

Lemma operator_joins_its_share_witness :
  getMyStreamParts (on_assignments (operator_run opts 0 js_parse_int first_nodes (silence ++ [(306000%Z, PruneTick)])
    (operator_new 0 "b" 1)).1) = ["s#0"; "s#1"] ∧
  "b" ∈ responsible js_parse_int first_nodes (elements ({["b"]} ∪ alive_set opts 0 silence 306000)) 1 "s#1".
Proof.
  assert (Sorted Z.le (0%Z :: (silence ++ [(306000%Z, PruneTick)]).*1)) as Hs by (repeat constructor; vm_compute; congruence).
  pose proof (operator_joins_its_share opts 0 js_parse_int first_nodes silence 306000 "b" 1 Hs) as H.
  destruct (operator_run opts 0 js_parse_int first_nodes (silence ++ [(306000%Z, PruneTick)]) (operator_new 0 "b" 1)) as [n out] eqn:Hrun.
  assert (getMyStreamParts (on_assignments n) = ["s#0"; "s#1"]) as Hmy.
  { apply (f_equal (λ r, getMyStreamParts (on_assignments r.1))) in Hrun. cbn [fst] in Hrun. rewrite <-Hrun. vm_compute. reflexivity. }
  split; [exact Hmy|]. destruct H as [H _]. apply (H "s#1"). rewrite Hmy. right. left.
Defined.

Definition calls (id : string) : list assignments_call :=
  if bool_decide (id = "a") then [NodeAdded "b"; StreamsStaked [Return ["s#0"]]; NodeAdded "c"; NodeAdded "x"; NodeRemoved "x"]
  else if bool_decide (id = "b") then [NodeAdded "c"; NodeAdded "a"; StreamsStaked [Return ["t#0"; "s#0"]]]
  else [StreamsStaked [Return ["s#0"]]; NodeAdded "a"; NodeAdded "b"; NodeAdded "c"].

Lemma fleet_shares_stream_parts_witness :
  size (filter (λ id, "s#0" ∈ getMyStreamParts (assignments_run js_parse_int first_nodes (calls id) (assignments_new id 2)).1)
          ({["a"; "b"; "c"]} : gset string)) = 2.
Proof.
  refine (proj1 (fleet_shares_stream_parts js_parse_int first_nodes _ {["a"; "b"; "c"]} 2 calls "s#0" _ _)).
  - intros nodes key k Hnd _ _. exists (take k nodes). split_and!; [done| | |by rewrite length_take].
    + eapply sublist_NoDup; [exact Hnd|]. apply sublist_take.
    + intros x Hx. rewrite <-(take_drop k nodes). apply elem_of_app. by left.
  - lia.
  - intros id Hid. assert (id = "a" ∨ id = "b" ∨ id = "c") as Hcases by set_solver.
    destruct Hcases as [->|[->| ->]]; (split; [|vm_compute; reflexivity]); vm_compute; reflexivity.
Defined.
End HeartbeatsWitness.
