(* ===== verification/Topology.v ===== *)
(** What an operator's stakes make its nodes join (packages/node/src/plugins/operator):
    MaintainTopologyHelper.ts, which turns stakes in sponsorships into staked streams, and
    MaintainTopologyService.ts, which subscribes to the assigned stream parts.

    [getStreamId], the query of staked streams and the subscriptions are calls whose answers
    are events.  [topology_inv] counts, for each stream, the sponsorships staked in. *)

From S2P Require Import Prelude.
From S2P Require Import Js.
From S2P Require Import JsMap.
From S2P Require Import Identifiers.
From S2P Require Import Fleet.

Set Default Proof Using "Type".

(** * MaintainTopologyHelper *)

Record MaintainTopologyHelper := MkTopology {
  mt_streamIdOfSponsorship : gmap string string;
  mt_sponsorshipCountOfStream : jsmap string Z;
  mt_awaiting : list (option string)          (** [staked] listeners that await [getStreamId] *)
}.
Implicit Types (h : MaintainTopologyHelper) (sponsorshipAddress streamId : string).

Definition topology_new : MaintainTopologyHelper := MkTopology ∅ [] [].

Inductive topology_emit := AddStakedStreams (streamIds : list string) | RemoveStakedStream (streamId : string).

Definition count_of streamId h : Z := default 0%Z (map_get streamId (mt_sponsorshipCountOfStream h)).

Definition set_stake sponsorshipAddress streamId (count : Z) h : MaintainTopologyHelper :=
  MkTopology (<[sponsorshipAddress := streamId]> (mt_streamIdOfSponsorship h))
    (map_set streamId count (mt_sponsorshipCountOfStream h)) (mt_awaiting h).

(** The [staked] listener up to its [await] *)
Definition onStaked (sponsorship : string) h : MaintainTopologyHelper :=
  match to_ethereum_address sponsorship with
  | Return sponsorshipAddress =>
      MkTopology (mt_streamIdOfSponsorship h) (mt_sponsorshipCountOfStream h) (mt_awaiting h ++ [Some sponsorshipAddress])
  | Throw _ => h
  end.

(** ... and after it *)
Definition onStreamId (i : nat) (answer : outcome js_error string) h : MaintainTopologyHelper * list topology_emit :=
  match mt_awaiting h !! i with
  | Some (Some sponsorshipAddress) =>
      let h := MkTopology (mt_streamIdOfSponsorship h) (mt_sponsorshipCountOfStream h) (<[i := None]> (mt_awaiting h)) in
      match answer with
      | Throw _ => (h, [])
      | Return streamId =>
          if bool_decide (is_Some (mt_streamIdOfSponsorship h !! sponsorshipAddress)) then (h, [])
          else
            let sponsorshipCount := (count_of streamId h + 1)%Z in
            (set_stake sponsorshipAddress streamId sponsorshipCount h,
             if (sponsorshipCount =? 1)%Z then [AddStakedStreams [streamId]] else [])
      end
  | _ => (h, [])
  end.

Definition onUnstaked (sponsorship : string) h : MaintainTopologyHelper * list topology_emit :=
  match to_ethereum_address sponsorship with
  | Throw _ => (h, [])
  | Return sponsorshipAddress =>
      match mt_streamIdOfSponsorship h !! sponsorshipAddress with
      | None => (h, [])
      | Some streamId =>
          let sponsorshipCount := (count_of streamId h - 1)%Z in
          if (sponsorshipCount =? 0)%Z
          then (MkTopology (delete sponsorshipAddress (mt_streamIdOfSponsorship h))
                  (map_delete streamId (mt_sponsorshipCountOfStream h)) (mt_awaiting h), [RemoveStakedStream streamId])
          else (MkTopology (delete sponsorshipAddress (mt_streamIdOfSponsorship h))
                  (map_set streamId sponsorshipCount (mt_sponsorshipCountOfStream h)) (mt_awaiting h), [])
      end
  end.

(** One item of [pullStakedStreams], whose addresses and ids are in canonical form *)
Definition onListed sponsorshipAddress streamId h : MaintainTopologyHelper :=
  if bool_decide (mt_streamIdOfSponsorship h !! sponsorshipAddress = Some streamId) then h
  else set_stake sponsorshipAddress streamId (count_of streamId h + 1) h.

Definition onListEnd h : list topology_emit :=
  if (0 <? length (mt_sponsorshipCountOfStream h))%nat then [AddStakedStreams (mt_sponsorshipCountOfStream h).*1] else [].

Inductive topology_event :=
  | StakedEvent (sponsorship : string)
  | StreamIdAnswered (i : nat) (answer : outcome js_error string)
  | UnstakedEvent (sponsorship : string)
  | StakeListed (sponsorshipAddress streamId : string)
  | ListEnded.

Definition topology_step (ev : topology_event) h : MaintainTopologyHelper * list topology_emit :=
  match ev with
  | StakedEvent sponsorship => (onStaked sponsorship h, [])
  | StreamIdAnswered i answer => onStreamId i answer h
  | UnstakedEvent sponsorship => onUnstaked sponsorship h
  | StakeListed sponsorshipAddress streamId => (onListed sponsorshipAddress streamId h, [])
  | ListEnded => (h, onListEnd h)
  end.

Fixpoint topology_run (evs : list topology_event) h : MaintainTopologyHelper * list topology_emit :=
  match evs with
  | [] => (h, [])
  | ev :: evs =>
      let '(h, out) := topology_step ev h in
      let '(h, out') := topology_run evs h in (h, out ++ out')
  end.

(** * MaintainTopologyService *)

(** [subscriptions], and what the client is really subscribed to *)
Record MaintainTopologyService := MkService { ms_subscriptions : gset string; ms_joined : gset string }.

(** [pLimit(1)]: one event after the other, with the answer of the client *)
Definition service_step (s : MaintainTopologyService) (ev : assignment_event * bool) : MaintainTopologyService :=
  match ev with
  | (Assigned streamPartId, true) => MkService ({[streamPartId]} ∪ ms_subscriptions s) ({[streamPartId]} ∪ ms_joined s)
  | (Assigned _, false) => s
  | (Unassigned streamPartId, ok) =>
      MkService (ms_subscriptions s ∖ {[streamPartId]})
        (if ok && bool_decide (streamPartId ∈ ms_subscriptions s) then ms_joined s ∖ {[streamPartId]} else ms_joined s)
  end.

Definition service_run (evs : list (assignment_event * bool)) : MaintainTopologyService :=
  foldl service_step (MkService ∅ ∅) evs.

(** * Stakes and streams *)

Section facts.
  Context (stream_of : string → string).    (** the stream of a sponsorship, which never changes *)

(** The answers are those of the chain. *)
Definition truthful (h : MaintainTopologyHelper) (ev : topology_event) : Prop :=
  match ev with
  | StreamIdAnswered i (Return streamId) => ∀ s, mt_awaiting h !! i = Some (Some s) → streamId = stream_of s
  | StakeListed s streamId => streamId = stream_of s
  | _ => True
  end.

(** The sponsorships of a stream that are known to be staked in *)
Definition sponsorships streamId h : gset string :=
  filter (λ s, stream_of s = streamId) (dom (mt_streamIdOfSponsorship h)).

Record topology_inv h : Prop := {
  ti_streams s streamId : mt_streamIdOfSponsorship h !! s = Some streamId → streamId = stream_of s;
  ti_keys : NoDup (mt_sponsorshipCountOfStream h).*1;
  ti_counts streamId : map_get streamId (mt_sponsorshipCountOfStream h) =
    if decide (sponsorships streamId h = ∅) then None else Some (Z.of_nat (size (sponsorships streamId h)))
}.

(** A listener that keeps the set of staked streams *)
Definition staked_follow (streams : gset string) (e : topology_emit) : gset string :=
  match e with AddStakedStreams l => list_to_set l ∪ streams | RemoveStakedStream s => streams ∖ {[s]} end.

Definition staked_streams h : gset string := list_to_set (mt_sponsorshipCountOfStream h).*1.

Lemma staked_streams_spec h streamId :
  topology_inv h → streamId ∈ staked_streams h ↔ ∃ s, mt_streamIdOfSponsorship h !! s = Some streamId.
Proof.
  intros [Hs Hk Hc]. unfold staked_streams. rewrite elem_of_list_to_set.
  assert (streamId ∈ (mt_sponsorshipCountOfStream h).*1 ↔ sponsorships streamId h ≠ ∅) as ->.
  { specialize (Hc streamId). destruct (decide (sponsorships streamId h = ∅)) as [He|He].
    - apply map_get_None in Hc. tauto.
    - split; [done|]. intros _. apply map_get_Some in Hc; [|done]. by apply (list_elem_of_fmap_2 fst) in Hc. }
  split.
  - intros [s [Hst Hd]%elem_of_filter]%set_choose_L. apply elem_of_dom in Hd as [x Hx]. exists s.
    by rewrite Hx, (Hs _ _ Hx), Hst.
  - intros [s Hx] He. assert (s ∈ sponsorships streamId h) as Hin; [|set_solver].
    apply elem_of_filter. split; [symmetry; by apply Hs|]. apply elem_of_dom. by eexists.
Qed.

Lemma count_of_spec h streamId : topology_inv h → count_of streamId h = Z.of_nat (size (sponsorships streamId h)).
Proof.
  intros [_ _ Hc]. unfold count_of. rewrite Hc. case_decide as He; [by rewrite He, size_empty|done].
Qed.

(** A stake that was not known *)
Lemma set_stake_inv h s :
  topology_inv h → mt_streamIdOfSponsorship h !! s = None →
  topology_inv (set_stake s (stream_of s) (count_of (stream_of s) h + 1) h) ∧
  staked_streams (set_stake s (stream_of s) (count_of (stream_of s) h + 1) h) = {[stream_of s]} ∪ staked_streams h.
Proof.
  intros Hinv Hnone. pose proof (count_of_spec h (stream_of s) Hinv) as Hcount. pose proof Hinv as [Hs Hk Hc].
  set (h' := set_stake _ _ _ _).
  assert (∀ streamId, sponsorships streamId h' =
    if decide (stream_of s = streamId) then {[s]} ∪ sponsorships streamId h else sponsorships streamId h) as Hsp.
  { intros streamId. unfold sponsorships. cbn. rewrite dom_insert_L. apply set_eq. intros x.
    case_decide; rewrite ?elem_of_union, !elem_of_filter, ?elem_of_union, ?elem_of_singleton; naive_solver. }
  split.
  - split.
    + intros x streamId. cbn. destruct (decide (s = x)) as [<-|Hne]; [rewrite lookup_insert_eq; by intros [= <-]|].
      rewrite lookup_insert_ne by done. apply Hs.
    + by apply map_set_nodup.
    + intros streamId. rewrite Hsp. cbn [h' set_stake mt_sponsorshipCountOfStream]. rewrite map_get_set.
      destruct (decide (stream_of s = streamId)) as [<-|Hne]; [|apply Hc].
      rewrite decide_False by set_solver. rewrite Hcount, size_union, size_singleton; [f_equal; lia|].
      intros x ->%elem_of_singleton [_ Hd]%elem_of_filter. by apply not_elem_of_dom in Hnone.
  - unfold staked_streams, h'. cbn. rewrite map_set_keys. apply set_eq. intros x.
    case_decide; rewrite ?list_to_set_app_L, ?elem_of_union, !elem_of_list_to_set; [|cbn]; set_solver.
Qed.

(** A stake that was known *)
Lemma drop_stake_sponsorships h s streamId counts awaiting :
  topology_inv h → is_Some (mt_streamIdOfSponsorship h !! s) →
  sponsorships streamId (MkTopology (delete s (mt_streamIdOfSponsorship h)) counts awaiting) = sponsorships streamId h ∖ {[s]} ∧
  (stream_of s ≠ streamId → sponsorships streamId h ∖ {[s]} = sponsorships streamId h) ∧ s ∈ sponsorships (stream_of s) h.
Proof.
  intros _ Hsome. unfold sponsorships. cbn. rewrite dom_delete_L. split_and!.
  - apply set_eq. intros x. rewrite elem_of_difference, !elem_of_filter, elem_of_difference. tauto.
  - intros Hne. apply set_eq. intros x. rewrite elem_of_difference, !elem_of_filter, elem_of_singleton. naive_solver.
  - apply elem_of_filter. split; [done|]. by apply elem_of_dom.
Qed.

Lemma unstake_inv h sponsorship :
  topology_inv h →
  let '(h', out) := onUnstaked sponsorship h in
  topology_inv h' ∧
  ∀ F, F ⊆ staked_streams h → foldl staked_follow F out ⊆ staked_streams h' ∧
       (F = staked_streams h → foldl staked_follow F out = staked_streams h').
Proof.
  intros Hinv. unfold onUnstaked. destruct (to_ethereum_address sponsorship) as [s|]; [|done].
  destruct (mt_streamIdOfSponsorship h !! s) as [streamId|] eqn:Hs; [|done].
  pose proof (count_of_spec h streamId Hinv) as Hcount. pose proof Hinv as [Hst Hk Hc]. pose proof (Hst _ _ Hs) as ->.
  assert (is_Some (mt_streamIdOfSponsorship h !! s)) as Hsome by (by eexists).
  assert (∀ x streamId, delete s (mt_streamIdOfSponsorship h) !! x = Some streamId → streamId = stream_of x) as Hst'.
  { intros x streamId [_ ?]%lookup_delete_Some. by apply Hst. }
  pose proof (λ streamId c aw, drop_stake_sponsorships h s streamId c aw Hinv Hsome) as Hdrop.
  destruct (Hdrop (stream_of s) [] []) as (_ & _ & Hin).
  assert (size (sponsorships (stream_of s) h ∖ {[s]}) = size (sponsorships (stream_of s) h) - 1 ∧ 0 < size (sponsorships (stream_of s) h)) as [Hsz Hpos].
  { rewrite size_difference by set_solver. rewrite size_singleton. split; [done|].
    destruct (size (sponsorships (stream_of s) h)) eqn:He; [|lia]. apply size_empty_inv in He. set_solver. }
  destruct (Z.eqb_spec (count_of (stream_of s) h - 1) 0) as [Hz|Hz].
  - split.
    + split; [done|by apply NoDup_fmap_filter|]. intros streamId. destruct (Hdrop streamId (map_delete (stream_of s) (mt_sponsorshipCountOfStream h)) (mt_awaiting h)) as (-> & Hne & _).
      cbn. rewrite map_get_delete. destruct (decide (stream_of s = streamId)) as [<-|Hd]; [|by rewrite Hne].
      rewrite decide_True; [done|]. apply leibniz_equiv, size_empty_inv. lia.
    + assert (∀ c aw m, staked_streams (MkTopology m c aw) = list_to_set c.*1) as Hss by done.
      intros F HF. rewrite Hss, map_delete_keys. unfold staked_streams in *. cbn.
      split; [|intros ->; apply set_eq]; intros x; rewrite !elem_of_difference, !elem_of_list_to_set, list_elem_of_filter, elem_of_singleton;
        set_solver.
  - split.
    + split; [done|by apply map_set_nodup|]. intros streamId. destruct (Hdrop streamId (map_set (stream_of s) (count_of (stream_of s) h - 1)%Z (mt_sponsorshipCountOfStream h)) (mt_awaiting h)) as (-> & Hne & _).
      cbn. rewrite map_get_set. destruct (decide (stream_of s = streamId)) as [<-|Hd]; [|by rewrite Hne].
      rewrite decide_False; [f_equal; lia|]. intros He. rewrite He, size_empty in Hsz. lia.
    + intros F HF. assert (staked_streams (MkTopology (delete s (mt_streamIdOfSponsorship h))
        (map_set (stream_of s) (count_of (stream_of s) h - 1)%Z (mt_sponsorshipCountOfStream h)) (mt_awaiting h)) = staked_streams h) as ->; [|done].
      unfold staked_streams. cbn. rewrite map_set_keys, decide_True; [done|].
      specialize (Hc (stream_of s)). rewrite decide_False in Hc by set_solver.
      apply map_get_Some in Hc; [|done]. by apply (list_elem_of_fmap_2 fst) in Hc.
Qed.

Lemma topology_step_inv ev h :
  topology_inv h → truthful h ev →
  let '(h', out) := topology_step ev h in
  topology_inv h' ∧
  ∀ F, F ⊆ staked_streams h → foldl staked_follow F out ⊆ staked_streams h' ∧
       (match ev with
        | ListEnded => True
        | StakeListed _ _ => False
        | _ => F = staked_streams h
        end → foldl staked_follow F out = staked_streams h').
Proof.
  intros Hinv Htrue. destruct ev as [sponsorship|i answer|sponsorship|s streamId|]; cbn [topology_step].
  - unfold onStaked. destruct (to_ethereum_address sponsorship); [|done]. by destruct Hinv.
  - unfold onStreamId. destruct (mt_awaiting h !! i) as [[s|]|] eqn:Hi; [|done|done].
    set (h1 := MkTopology _ _ (<[i := None]> (mt_awaiting h))). assert (topology_inv h1) as Hinv1 by (by destruct Hinv).
    destruct answer as [streamId|]; [|done]. cbn in Htrue. rewrite (Htrue s Hi). case_bool_decide as Hb; [done|].
    destruct (set_stake_inv h1 s Hinv1) as [Hinv' Hss]; [by apply eq_None_not_Some|]. split; [done|]. intros F HF.
    rewrite Hss. change (staked_streams h1) with (staked_streams h).
    destruct (Z.eqb_spec (count_of (stream_of s) h1 + 1) 1) as [Hc|Hc]; cbn; [set_solver|].
    rewrite count_of_spec in Hc by done.
    assert (stream_of s ∈ staked_streams h) as Hin; [|set_solver].
    apply (staked_streams_spec h1 _ Hinv1). destruct (set_choose_or_empty (sponsorships (stream_of s) h1)) as [[x Hx]|He].
    + apply elem_of_filter in Hx as [Hx [y Hy]%elem_of_dom]. exists x. rewrite Hy. f_equal. destruct Hinv1 as [Hst _ _].
      by rewrite (Hst _ _ Hy).
    + apply leibniz_equiv in He. rewrite He, size_empty in Hc. done.
  - pose proof (unstake_inv h sponsorship Hinv) as Hu. by destruct (onUnstaked sponsorship h).
  - cbn in Htrue. subst streamId. unfold onListed. case_bool_decide as Hb; [done|].
    destruct (mt_streamIdOfSponsorship h !! s) as [x|] eqn:Hx; [destruct Hinv as [Hst _ _]; by rewrite (Hst _ _ Hx) in Hb|].
    destruct (set_stake_inv h s Hinv Hx) as [Hinv' Hss]. split; [done|]. rewrite Hss. intros F HF. cbn. set_solver.
  - split; [done|]. intros F HF. unfold onListEnd, staked_streams in *.
    destruct (mt_sponsorshipCountOfStream h) as [|e l]; cbn in *; set_solver.
Qed.

(** All answers of a run are those of the chain. *)
Fixpoint truthful_run (evs : list topology_event) h : Prop :=
  match evs with
  | [] => True
  | ev :: evs => truthful h ev ∧ truthful_run evs (topology_step ev h).1
  end.

Lemma topology_run_inv evs h F :
  topology_inv h → truthful_run evs h → F ⊆ staked_streams h →
  let '(h', out) := topology_run evs h in
  topology_inv h' ∧ foldl staked_follow F out ⊆ staked_streams h' ∧
  (F = staked_streams h → Forall (λ ev, match ev with StakeListed _ _ => False | _ => True end) evs →
   foldl staked_follow F out = staked_streams h').
Proof.
  revert h F. induction evs as [|ev evs IH]; intros h F Hinv Htrue HF; cbn [topology_run]; [done|].
  destruct Htrue as [Ht Htrue]. pose proof (topology_step_inv ev h Hinv Ht) as Hstep.
  destruct (topology_step ev h) as [h1 out1]. destruct Hstep as [Hinv1 Hf1]. destruct (Hf1 F HF) as [Hsub Heq].
  specialize (IH h1 _ Hinv1 Htrue Hsub). destruct (topology_run evs h1) as [h2 out2]. destruct IH as (Hinv2 & Hsub2 & Heq2).
  rewrite foldl_app. split_and!; [done|done|]. intros HFeq [Hev Hevs]%Forall_cons. apply Heq2; [|done]. apply Heq.
  by destruct ev.
Qed.

Lemma topology_new_inv : topology_inv topology_new.
Proof.
  split; cbn; [done|constructor|]. intros streamId. rewrite decide_True; [done|]. unfold sponsorships. cbn.
  rewrite dom_empty_L. set_solver.
Qed.

Lemma topology_run_app evs evs' h :
  topology_run (evs ++ evs') h =
  let '(h, out) := topology_run evs h in let '(h, out') := topology_run evs' h in (h, out ++ out').
Proof.
  revert h. induction evs as [|ev evs IH]; intros h; cbn [app topology_run]; [by destruct (topology_run evs' h)|].
  destruct (topology_step ev h) as [h1 out1]. rewrite IH. destruct (topology_run evs h1) as [h2 out2].
  destruct (topology_run evs' h2) as [h3 out3]. by rewrite app_assoc.
Qed.

Lemma truthful_run_app evs evs' h :
  truthful_run (evs ++ evs') h ↔ truthful_run evs h ∧ truthful_run evs' (topology_run evs h).1.
Proof.
  revert h. induction evs as [|ev evs IH]; intros h; cbn [app truthful_run topology_run]; [tauto|]. rewrite IH.
  destruct (topology_step ev h) as [h1 out1]. cbn [fst]. destruct (topology_run evs h1). tauto.
Qed.

(** The streams announced are those of the sponsorships that the helper has recorded. *)
Lemma announced_streams_are_recorded evs post :
  truthful_run (evs ++ ListEnded :: post) topology_new →
  Forall (λ ev, match ev with StakeListed _ _ => False | _ => True end) post →
  let '(h, out) := topology_run evs topology_new in
  let '(h', out') := topology_run (evs ++ ListEnded :: post) topology_new in
  (∀ streamId, streamId ∈ foldl staked_follow ∅ out → ∃ s, mt_streamIdOfSponsorship h !! s = Some streamId) ∧
  (∀ streamId, streamId ∈ foldl staked_follow ∅ out' ↔ ∃ s, mt_streamIdOfSponsorship h' !! s = Some streamId).
Proof.
  intros Htrue Hpost. rewrite (cons_middle ListEnded), app_assoc in *.
  rewrite (topology_run_app (evs ++ [ListEnded])), (topology_run_app evs).
  apply truthful_run_app in Htrue as [Htrue Hpt]. apply truthful_run_app in Htrue as [Htrue _].
  rewrite topology_run_app in Hpt.
  pose proof (topology_run_inv evs _ ∅ topology_new_inv Htrue ltac:(set_solver)) as H1.
  destruct (topology_run evs topology_new) as [h out]. destruct H1 as (Hinv & Hsub & _). cbn [topology_run topology_step fst] in *.
  destruct (topology_step_inv ListEnded h Hinv I) as [_ Hend]. destruct (Hend _ Hsub) as [_ Heq]. cbn [topology_step] in Heq.
  pose proof (topology_run_inv post h (staked_streams h) Hinv Hpt ltac:(done)) as H2.
  destruct (topology_run post h) as [h' out']. destruct H2 as (Hinv' & _ & Heq').
  split; [intros streamId Hin; apply staked_streams_spec; [done|by apply Hsub]|]. intros streamId.
  rewrite <-staked_streams_spec by done. rewrite !foldl_app. cbn [foldl]. rewrite Heq by done. by rewrite (Heq' eq_refl Hpost).
Qed.

(** ** The stakes of the chain

    A ledger kept from the events alone, whatever the helper does: the sponsorships that are staked in, the lookups under
    way, and the stakes whose stream the node has been told, by the list or by the answer to a lookup. *)
Record ledger := MkLedger { lg_staked : gset string; lg_lookups : list (option string); lg_told : gset string }.

Definition ledger_step (l : ledger) (ev : topology_event) : ledger :=
  match ev with
  | StakedEvent sponsorship =>
      match to_ethereum_address sponsorship with
      | Return a => MkLedger ({[a]} ∪ lg_staked l) (lg_lookups l ++ [Some a]) (lg_told l)
      | Throw _ => l
      end
  | UnstakedEvent sponsorship =>
      match to_ethereum_address sponsorship with
      | Return a => MkLedger (lg_staked l ∖ {[a]}) (lg_lookups l) (lg_told l ∖ {[a]})
      | Throw _ => l
      end
  | StreamIdAnswered i answer =>
      match lg_lookups l !! i with
      | Some (Some a) =>
          MkLedger (lg_staked l) (<[i := None]> (lg_lookups l)) (if is_return answer then {[a]} ∪ lg_told l else lg_told l)
      | _ => l
      end
  | StakeListed a _ => MkLedger (lg_staked l) (lg_lookups l) ({[a]} ∪ lg_told l)
  | ListEnded => l
  end.

(** What the chain and the order of the events are assumed to do: answers and the list tell the stream of a
    sponsorship, the list does not name what was unstaked before it came, and no sponsorship is unstaked while its stream
    is being looked up ([unstake_overtakes_stake] is what happens then). *)
Definition in_order (l : ledger) (ev : topology_event) : Prop :=
  match ev with
  | StreamIdAnswered i (Return streamId) => ∀ a, lg_lookups l !! i = Some (Some a) → streamId = stream_of a
  | StakeListed a streamId => streamId = stream_of a ∧ a ∈ lg_staked l
  | UnstakedEvent sponsorship => ∀ a, to_ethereum_address sponsorship = Return a → Some a ∉ lg_lookups l
  | _ => True
  end.

Fixpoint in_order_run (evs : list topology_event) (l : ledger) : Prop :=
  match evs with
  | [] => True
  | ev :: evs => in_order l ev ∧ in_order_run evs (ledger_step l ev)
  end.

(** The helper's record agrees with the ledger. *)
Record recorded (l : ledger) h : Prop := {
  rd_lookups : mt_awaiting h = lg_lookups l;
  rd_told : dom (mt_streamIdOfSponsorship h) = lg_told l;
  rd_staked : lg_told l ⊆ lg_staked l;
  rd_pending a : Some a ∈ lg_lookups l → a ∈ lg_staked l;
  rd_streams s streamId : mt_streamIdOfSponsorship h !! s = Some streamId → streamId = stream_of s
}.

Lemma recorded_insert l h s count :
  recorded l h → s ∈ lg_staked l →
  recorded (MkLedger (lg_staked l) (lg_lookups l) ({[s]} ∪ lg_told l)) (set_stake s (stream_of s) count h).
Proof.
  intros [H1 H2 H3 H4 H5] Hs. split; cbn; [done|by rewrite dom_insert_L, H2|set_solver|done|].
  intros x streamId. destruct (decide (s = x)) as [<-|Hne]; [rewrite lookup_insert_eq; by intros [= <-]|].
  rewrite lookup_insert_ne by done. apply H5.
Qed.

Lemma recorded_known l h s :
  recorded l h → is_Some (mt_streamIdOfSponsorship h !! s) → {[s]} ∪ lg_told l = lg_told l.
Proof. intros [_ H2 _ _ _] Hs%elem_of_dom. rewrite H2 in Hs. set_solver. Qed.

Lemma recorded_step l h ev :
  recorded l h → in_order l ev → truthful h ev ∧ recorded (ledger_step l ev) (topology_step ev h).1.
Proof.
  intros Hr Hin. pose proof Hr as [H1 H2 H3 H4 H5].
  destruct ev as [sponsorship|i answer|sponsorship|s streamId|]; cbn [topology_step ledger_step fst truthful in_order] in *.
  - split; [done|]. unfold onStaked. destruct (to_ethereum_address sponsorship) as [a|]; [|done].
    split; cbn; [by rewrite H1|done|set_solver| |done].
    intros x [Hx|Hx%list_elem_of_singleton]%elem_of_app; [specialize (H4 _ Hx)|]; set_solver.
  - split; [destruct answer; [by rewrite H1|done]|]. unfold onStreamId. rewrite H1.
    destruct (lg_lookups l !! i) as [[a|]|] eqn:Hi; [|done..].
    assert (a ∈ lg_staked l) as Ha by (apply H4; by eapply list_elem_of_lookup_2).
    assert (recorded (MkLedger (lg_staked l) (<[i:=None]> (lg_lookups l)) (lg_told l))
      (MkTopology (mt_streamIdOfSponsorship h) (mt_sponsorshipCountOfStream h) (<[i:=None]> (lg_lookups l)))) as Hr1.
    { split; cbn; [done..| |done]. intros x Hx. apply H4. apply list_elem_of_lookup in Hx as [j Hj].
      apply list_elem_of_lookup. exists j. apply list_lookup_insert_Some in Hj as [(_ & ? & _)|[_ ?]]; done. }
    destruct answer as [streamId|]; cbn [is_return]; [|exact Hr1]. rewrite (Hin a eq_refl).
    case_bool_decide as Hb; cbn [fst].
    + by rewrite (recorded_known l h a Hr Hb).
    + by apply (recorded_insert _ _ a _ Hr1).
  - split; [done|]. unfold onUnstaked. destruct (to_ethereum_address sponsorship) as [a|] eqn:Ha; [|done].
    specialize (Hin a eq_refl).
    assert (∀ counts, recorded (MkLedger (lg_staked l ∖ {[a]}) (lg_lookups l) (lg_told l ∖ {[a]}))
      (MkTopology (delete a (mt_streamIdOfSponsorship h)) counts (mt_awaiting h))) as Hdel.
    { intros counts. split; cbn; [done|by rewrite dom_delete_L, H2|set_solver| |].
      - intros x Hx. specialize (H4 x Hx). assert (x ≠ a) by (intros ->; done). set_solver.
      - intros x streamId [_ ?]%lookup_delete_Some. by apply H5. }
    destruct (mt_streamIdOfSponsorship h !! a) as [streamId|] eqn:Hk.
    + destruct (_ =? 0)%Z; cbn [fst]; apply Hdel.
    + specialize (Hdel (mt_sponsorshipCountOfStream h)). rewrite delete_id in Hdel by done. by destruct h.
  - destruct Hin as [-> Hs]. split; [done|]. unfold onListed. case_bool_decide as Hb.
    + rewrite (recorded_known l h s Hr) by by eexists. by destruct l.
    + by apply recorded_insert.
  - done.
Qed.

Lemma recorded_run evs l h :
  recorded l h → in_order_run evs l →
  truthful_run evs h ∧ recorded (foldl ledger_step l evs) (topology_run evs h).1.
Proof.
  revert l h. induction evs as [|ev evs IH]; intros l h Hr Hin; [done|]. cbn [in_order_run truthful_run topology_run foldl] in *.
  destruct Hin as [Hev Hin]. destruct (recorded_step _ _ _ Hr Hev) as [Ht Hr1]. destruct (IH _ _ Hr1 Hin) as [Ht2 Hr2].
  split; [done|]. destruct (topology_step ev h) as [h1 out1]. cbn [fst] in Hr2. by destruct (topology_run evs h1).
Qed.

Lemma in_order_run_app evs evs' l :
  in_order_run (evs ++ evs') l → in_order_run evs l.
Proof. revert l. induction evs as [|ev evs IH]; intros l; [done|]. cbn. intros [? ?]. split; [done|]. by apply IH. Qed.

(** C20: the streams announced as staked are those of the stakes on the chain.  The stakes are counted from the events alone:
    those at the start ([staked0]), a [staked] event adds one and an [unstaked] event removes it.  Whatever the
    interleaving of the events, the list and the answers to the lookups, as long as the list does not name what was
    unstaked before and no sponsorship is unstaked while its stream is being looked up: before the list of stakes is
    complete, and after it, a listener knows only streams in which some sponsorship is staked; and from the end of the
    list on it knows the stream of every stake that the list or the answer to a lookup has told.  So a stream is dropped
    with its last sponsorship, and not before. *)
Theorem topology_follows_the_stakes staked0 evs post :
  in_order_run (evs ++ ListEnded :: post) (MkLedger staked0 [] ∅) →
  Forall (λ ev, match ev with StakeListed _ _ => False | _ => True end) post →
  let before := foldl ledger_step (MkLedger staked0 [] ∅) evs in
  let after := foldl ledger_step (MkLedger staked0 [] ∅) (evs ++ ListEnded :: post) in
  let known := foldl staked_follow ∅ (topology_run (evs ++ ListEnded :: post) topology_new).2 in
  (∀ streamId, streamId ∈ foldl staked_follow ∅ (topology_run evs topology_new).2 →
     ∃ a, a ∈ lg_staked before ∧ stream_of a = streamId) ∧
  (∀ streamId, streamId ∈ known → ∃ a, a ∈ lg_staked after ∧ stream_of a = streamId) ∧
  (∀ a, a ∈ lg_staked after → a ∈ lg_told after → stream_of a ∈ known).
Proof.
  intros Hin Hpost before after known.
  assert (recorded (MkLedger staked0 [] ∅) topology_new) as H0.
  { split; cbn; [done|set_solver|set_solver|by intros a ?%not_elem_of_nil|done]. }
  destruct (recorded_run _ _ _ H0 (in_order_run_app _ _ _ Hin)) as [_ Hb].
  destruct (recorded_run _ _ _ H0 Hin) as [Ht Ha].
  pose proof (announced_streams_are_recorded evs post Ht Hpost) as Hann. fold before in Hb. fold after in Ha.
  unfold known. destruct (topology_run evs topology_new) as [h out].
  destruct (topology_run (evs ++ ListEnded :: post) topology_new) as [h' out']. destruct Hann as [Hann1 Hann2].
  assert (∀ l h, recorded l h → ∀ streamId, (∃ s, mt_streamIdOfSponsorship h !! s = Some streamId) →
            ∃ a, a ∈ lg_staked l ∧ stream_of a = streamId) as Hsound.
  { intros l g [_ R2 R3 _ R5] streamId [s Hs]. exists s. split; [|symmetry; by apply R5].
    apply R3. rewrite <-R2. by eapply elem_of_dom_2. }
  cbn [fst snd] in *. split_and!.
  - intros streamId Hs. by apply (Hsound _ _ Hb), Hann1.
  - intros streamId Hs. by apply (Hsound _ _ Ha), Hann2.
  - intros a _ Htold. apply Hann2. destruct Ha as [_ R2 _ _ R5]. rewrite <-R2 in Htold.
    apply elem_of_dom in Htold as [streamId Hs]. exists a. by rewrite Hs, (R5 _ _ Hs).
Qed.
End facts.

(** ** A stake that is taken back before its stream is known

    The listener of [staked] awaits the stream's id; an [unstaked] event in the meantime finds nothing to remove, and the
    answer then records the sponsorship, which is staked in no more, for ever. *)
Lemma unstake_overtakes_stake :
  let sponsorship := "0x" +:+ "1111111111111111111111111111111111111111" in
  let '(h, out) := topology_run [ListEnded; StakedEvent sponsorship; UnstakedEvent sponsorship; StreamIdAnswered 0 (Return "s")]
                     topology_new in
  mt_streamIdOfSponsorship h !! sponsorship = Some "s" ∧ out = [AddStakedStreams ["s"]].
Proof. vm_compute. done. Qed.

(** ** The subscriptions *)

(** The service joins what it is assigned: with a client that always succeeds, its subscriptions and what the client is
    subscribed to are the stream parts assigned. *)
Lemma service_follows_assignments evs :
  let s := service_run ((λ ev, (ev, true)) <$> evs) in
  ms_subscriptions s = list_to_set (foldl follow [] evs) ∧ ms_joined s = ms_subscriptions s.
Proof.
  cbv zeta. induction evs as [|ev evs IH] using rev_ind; [done|].
  rewrite fmap_app. unfold service_run in *. rewrite !foldl_app. cbn [fmap list_fmap foldl].
  destruct IH as [IH1 IH2]. destruct ev as [p|p]; cbn [service_step follow ms_subscriptions ms_joined andb].
  - rewrite IH2, IH1, list_to_set_app_L. split; [cbn; set_solver|done].
  - split.
    + rewrite IH1. apply set_eq. intros x. rewrite elem_of_difference, !elem_of_list_to_set, list_elem_of_filter. set_solver.
    + rewrite IH2. case_bool_decide as Hin; [done|]. set_solver.
Qed.

(** A subscription that fails is not tried again, and one that cannot be ended is forgotten. *)
Lemma service_failures :
  ms_joined (service_run [(Assigned "s#0", false)]) = ∅ ∧
  let s := service_run [(Assigned "s#0", true); (Unassigned "s#0", false)] in
  ms_subscriptions s = ∅ ∧ ms_joined s = {["s#0"]}.
Proof. split; [done|]. cbv zeta. split; vm_compute; reflexivity. Qed.

Module TopologyWitness.
Definition sponsorship_a : string := "0x" +:+ "1111111111111111111111111111111111111111".
Definition sponsorship_b : string := "0x" +:+ "2222222222222222222222222222222222222222".
Definition start_events : list topology_event :=
  [StakedEvent sponsorship_a; StakeListed sponsorship_a "s"; StreamIdAnswered 0 (Return "s"); StakeListed sponsorship_b "s"].

(** Of two stakes of a stream that was staked in before, one is taken back: the stream stays.  When the other one is taken
    back as well, it goes. *)
Definition end_events : list topology_event := [UnstakedEvent sponsorship_a; UnstakedEvent sponsorship_b].

Definition staked0 : gset string := {[sponsorship_b]}.

Lemma events_in_order post :
  post ∈ [[UnstakedEvent sponsorship_a]; end_events] →
  in_order_run (λ _, "s") (start_events ++ ListEnded :: post) (MkLedger staked0 [] ∅).
Proof.
  assert (to_ethereum_address sponsorship_a = Return sponsorship_a) as Ha by (vm_compute; reflexivity).
  assert (to_ethereum_address sponsorship_b = Return sponsorship_b) as Hb by (vm_compute; reflexivity).
  intros Hpost. cbn [start_events app in_order_run in_order ledger_step]. rewrite Ha. cbn. split_and!; [done..| | |].
  - set_solver.
  - done.
  - rewrite !elem_of_cons, elem_of_nil in Hpost. destruct Hpost as [->|[->|[]]]; cbn [in_order_run end_events in_order ledger_step].
    all: rewrite ?Ha, ?Hb; cbn; split_and!; try done; intros a _; by intros [?|?%not_elem_of_nil]%elem_of_cons.
Qed.

Lemma topology_follows_the_stakes_witness :
  "s" ∈ foldl staked_follow ∅ (topology_run (start_events ++ ListEnded :: [UnstakedEvent sponsorship_a]) topology_new).2 ∧
  "s" ∉ foldl staked_follow ∅ (topology_run (start_events ++ ListEnded :: end_events) topology_new).2.
Proof.
  split.
  - destruct (topology_follows_the_stakes (λ _, "s") staked0 start_events [UnstakedEvent sponsorship_a]) as (_ & _ & H).
    + apply events_in_order. by left.
    + repeat constructor.
    + apply (H sponsorship_b); apply (bool_decide_unpack _); vm_compute; exact I.
  - destruct (topology_follows_the_stakes (λ _, "s") staked0 start_events end_events) as (_ & H & _).
    + apply events_in_order. right. by left.
    + repeat constructor.
    + intros Hs. destruct (H "s" Hs) as (a & Ha & _). revert Ha.
      assert (lg_staked (foldl ledger_step (MkLedger staked0 [] ∅) (start_events ++ ListEnded :: end_events)) = ∅) as ->
        by (vm_compute; reflexivity). apply not_elem_of_empty.
Defined.
End TopologyWitness.
