(* ===== verification/Text.v ===== *)
(** Text and bytes (utf8ToBinary, binaryToUtf8 and areEqualBinaries of
    packages/utils/src/binaryUtils.ts): [TextEncoder] and [TextDecoder] with their defaults,
    as the Encoding Standard defines them.  A text is the list of its code points. *)

From S2P Require Import Prelude.
From S2P Require Import Js.
From S2P Require Import Frames.

Set Default Proof Using "Type".

Local Open Scope Z_scope.

Definition text : Type := list Z.

(** A code point that is no surrogate *)
Definition is_scalar (c : Z) : Prop := 0 ≤ c < 55296 ∨ 57344 ≤ c < 1114112.
Definition REPLACEMENT : Z := 65533.
Definition BYTE_ORDER_MARK : Z := 65279.

#[global] Instance is_scalar_dec c : Decision (is_scalar c).
Proof. unfold is_scalar. apply _. Defined.

(** The text of a string whose code units are below 256 *)
Definition codes (s : string) : text :=
  (λ c, Z.of_nat (Ascii.nat_of_ascii c)) <$> String.list_ascii_of_string s.

(** * Encoding *)

Definition utf8_code (c : Z) : bytes :=
  if c <? 128 then [c]
  else if c <? 2048 then [192 + c / 64; 128 + c mod 64]
  else if c <? 65536 then [224 + c / 4096; 128 + (c / 64) mod 64; 128 + c mod 64]
  else [240 + c / 262144; 128 + (c / 4096) mod 64; 128 + (c / 64) mod 64; 128 + c mod 64].

Definition utf8ToBinary (utf8 : text) : bytes := utf8 ≫= utf8_code.

(** [Buffer.from(s)] *)
Definition utf8_string (s : string) : bytes := utf8ToBinary (codes s).

(** * Decoding *)

(** The code point read so far, the continuation bytes it needs, and the range of the next *)
Record decoder := MkDecoder { de_code : Z; de_needed : nat; de_lower : Z; de_upper : Z }.

Definition decoder_idle : decoder := MkDecoder 0 0 128 191.

Definition decode_first (b : Z) : decoder * text :=
  if b <=? 127 then (decoder_idle, [b])
  else if (194 <=? b) && (b <=? 223) then (MkDecoder (Z.land b 31) 1 128 191, [])
  else if (224 <=? b) && (b <=? 239) then
    (MkDecoder (Z.land b 15) 2 (if b =? 224 then 160 else 128) (if b =? 237 then 159 else 191), [])
  else if (240 <=? b) && (b <=? 244) then
    (MkDecoder (Z.land b 7) 3 (if b =? 240 then 144 else 128) (if b =? 244 then 143 else 191), [])
  else (decoder_idle, [REPLACEMENT]).

Definition decode_byte (d : decoder) (b : Z) : decoder * text :=
  match de_needed d with
  | O => decode_first b
  | S n =>
      if (b <? de_lower d) || (de_upper d <? b)
      then let '(d', out) := decode_first b in (d', REPLACEMENT :: out)
      else let code := Z.lor (Z.shiftl (de_code d) 6) (Z.land b 63) in
           match n with
           | O => (decoder_idle, [code])
           | S _ => (MkDecoder code n 128 191, [])
           end
  end.

Fixpoint decode_bytes (d : decoder) (bs : bytes) : text :=
  match bs with
  | [] => match de_needed d with O => [] | S _ => [REPLACEMENT] end
  | b :: bs => let '(d', out) := decode_byte d b in out ++ decode_bytes d' bs
  end.

Definition strip_mark (t : text) : text :=
  match t with
  | c :: t' => if c =? BYTE_ORDER_MARK then t' else t
  | [] => []
  end.

Definition binaryToUtf8 (bs : bytes) : text := strip_mark (decode_bytes decoder_idle bs).

(** [Buffer.compare(arr1, arr2) === 0] *)
Fixpoint areEqualBinaries (arr1 arr2 : bytes) : bool :=
  match arr1, arr2 with
  | [], [] => true
  | a :: arr1, b :: arr2 => (a =? b) && areEqualBinaries arr1 arr2
  | _, _ => false
  end.

Lemma areEqualBinaries_spec arr1 arr2 : areEqualBinaries arr1 arr2 = bool_decide (arr1 = arr2).
Proof.
  revert arr2. induction arr1 as [|a arr1 IH]; intros [|b arr2]; simpl; try done.
  rewrite IH. destruct (Z.eqb_spec a b) as [->|]; simpl.
  - apply bool_decide_ext. split; [by intros ->|congruence].
  - symmetry. apply bool_decide_eq_false. congruence.
Qed.

(** * Round trip *)

(** Appending the low six bits of a continuation byte *)
Lemma append_six code b :
  0 ≤ code → 128 ≤ b ≤ 191 → Z.lor (Z.shiftl code 6) (Z.land b 63) = code * 64 + (b - 128).
Proof.
  intros Hc Hb.
  assert (Z.land b 63 = b - 128) as ->.
  { change 63 with (Z.ones 6). rewrite Z.land_ones by lia. change (2 ^ 6) with 64.
    Z.to_euclidean_division_equations. lia. }
  rewrite Z.shiftl_mul_pow2 by lia. change (2 ^ 6) with 64.
  rewrite <-Z.add_lor_land.
  assert (Z.land (code * 64) (b - 128) = 0) as ->; [|lia].
  apply Z.bits_inj'. intros n Hn. rewrite Z.land_spec, Z.bits_0.
  change 64 with (2 ^ 6). destruct (Z.ltb_spec n 6).
  - by rewrite Z.mul_pow2_bits_low by lia.
  - rewrite (Z.bits_above_log2 (b - 128)), andb_false_r; [done|lia|].
    destruct (Z.eqb_spec (b - 128) 0) as [->|]; [simpl; lia|].
    assert (Z.log2 (b - 128) < 6); [|lia]. apply Z.log2_lt_pow2; lia.
Qed.

(** What holds of each of finitely many integers *)
Lemma Forall_range (P : Z → Prop) a n q : Forall P (seqZ a n) → a ≤ q < a + n → P q.
Proof. intros HP Hq. exact (proj1 (Forall_forall _ _) HP q (proj2 (elem_of_seqZ _ _ _) Hq)). Qed.

Ltac check_range a n :=
  match goal with
  | |- _ → ?G =>
      let H := fresh in
      intros H; match type of H with _ <= ?q < _ => pattern q end;
      apply (Forall_range _ a n); [|lia];
      let l := eval vm_compute in (seqZ a n) in change (seqZ a n) with l;
      repeat (apply Forall_cons; split; [reflexivity|]); apply Forall_nil_2
  end.

(** The lead byte of a code of two, three or four bytes *)
Lemma decode_lead_2 q : 2 ≤ q < 32 → decode_first (192 + q) = (MkDecoder q 1 128 191, []).
Proof. check_range 2 30. Qed.
Lemma decode_lead_3 q :
  0 ≤ q < 16 →
  decode_first (224 + q) =
    (MkDecoder q 2 (if q =? 0 then 160 else 128) (if q =? 13 then 159 else 191), []).
Proof. check_range 0 16. Qed.
Lemma decode_lead_4 q :
  0 ≤ q < 5 →
  decode_first (240 + q) =
    (MkDecoder q 3 (if q =? 0 then 144 else 128) (if q =? 4 then 143 else 191), []).
Proof. check_range 0 5. Qed.

(** A continuation byte in range *)
Lemma decode_continue code n lower upper b :
  0 ≤ code → lower ≤ b ≤ upper → 128 ≤ b ≤ 191 →
  decode_byte (MkDecoder code (S n) lower upper) b =
    match n with
    | O => (decoder_idle, [code * 64 + (b - 128)])
    | S _ => (MkDecoder (code * 64 + (b - 128)) n 128 191, [])
    end.
Proof.
  intros Hc Hr Hb. unfold decode_byte. cbn [de_needed de_lower de_upper de_code].
  rewrite append_six by done.
  destruct (Z.ltb_spec b lower), (Z.ltb_spec upper b); [lia..|]. by destruct n.
Qed.

Lemma decode_bytes_first b bs :
  decode_bytes decoder_idle (b :: bs) = (decode_first b).2 ++ decode_bytes (decode_first b).1 bs.
Proof. simpl. unfold decode_byte. simpl. by destruct (decode_first b). Qed.

Lemma decode_bytes_continue code n lower upper b bs :
  0 ≤ code → lower ≤ b ≤ upper → 128 ≤ b ≤ 191 →
  decode_bytes (MkDecoder code (S n) lower upper) (b :: bs) =
    match n with
    | O => (code * 64 + (b - 128)) :: decode_bytes decoder_idle bs
    | S _ => decode_bytes (MkDecoder (code * 64 + (b - 128)) n 128 191) bs
    end.
Proof. intros. cbn [decode_bytes]. rewrite decode_continue by done. by destruct n. Qed.

(** A number by its digits of six bits *)
Lemma six_bits c : 0 ≤ c → c = c / 64 * 64 + c mod 64 ∧ 0 ≤ c mod 64 < 64 ∧ 0 ≤ c / 64.
Proof. intros. Z.to_euclidean_division_equations. lia. Qed.

(** A code point is read back from its bytes, and the decoder is idle again. *)
Lemma decode_code c bs :
  is_scalar c → decode_bytes decoder_idle (utf8_code c ++ bs) = c :: decode_bytes decoder_idle bs.
Proof.
  intros Hc. unfold is_scalar in Hc. unfold utf8_code.
  change 262144 with (64 * (64 * 64)). change 4096 with (64 * 64).
  rewrite <-!Z.div_div by lia.
  destruct (six_bits c) as (H1 & Hr1 & Hq1); [lia|]. set (q1 := c / 64) in *.
  destruct (six_bits q1) as (H2 & Hr2 & Hq2); [lia|]. set (q2 := q1 / 64) in *.
  destruct (six_bits q2) as (H3 & Hr3 & Hq3); [lia|]. set (q3 := q2 / 64) in *.
  destruct (Z.ltb_spec c 128); [|destruct (Z.ltb_spec c 2048); [|destruct (Z.ltb_spec c 65536)]];
    cbn [app]; rewrite decode_bytes_first.
  - unfold decode_first. by rewrite (proj2 (Z.leb_le c 127)) by lia.
  - rewrite decode_lead_2 by lia. cbn [fst snd app]. rewrite decode_bytes_continue by lia.
    f_equal. lia.
  - rewrite decode_lead_3 by lia. cbn [fst snd app].
    rewrite decode_bytes_continue by (destruct (Z.eqb_spec q2 0), (Z.eqb_spec q2 13); lia).
    rewrite decode_bytes_continue by lia. f_equal. lia.
  - rewrite decode_lead_4 by lia. cbn [fst snd app].
    rewrite decode_bytes_continue by (destruct (Z.eqb_spec q3 0), (Z.eqb_spec q3 4); lia).
    rewrite !decode_bytes_continue by lia. f_equal. lia.
Qed.

Lemma decode_encoded t : Forall is_scalar t → decode_bytes decoder_idle (utf8ToBinary t) = t.
Proof.
  induction 1 as [|c t Hc _ IH]; [done|]. unfold utf8ToBinary in *. cbn [mbind list_bind].
  rewrite decode_code by done. by rewrite IH.
Qed.

Lemma utf8_code_bytes c : 0 ≤ c < 1114112 → is_bytes (utf8_code c).
Proof.
  intros Hc. unfold utf8_code, is_bytes.
  destruct (Z.ltb_spec c 128); [|destruct (Z.ltb_spec c 2048); [|destruct (Z.ltb_spec c 65536)]];
    repeat constructor; Z.to_euclidean_division_equations; lia.
Qed.

Lemma utf8ToBinary_bytes t : Forall (λ c, 0 ≤ c < 1114112) t → is_bytes (utf8ToBinary t).
Proof.
  induction 1 as [|c t Hc _ IH]; [constructor|]. unfold utf8ToBinary in *. cbn [mbind list_bind].
  apply Forall_app. split; [by apply utf8_code_bytes|done].
Qed.

(** * Decoding any bytes *)

(** What the next [n] continuation bytes make of the code read so far *)
Fixpoint code_ok (n : nat) (code lower upper : Z) : Prop :=
  match n with
  | O => is_scalar code
  | S n => 0 ≤ code ∧ 128 ≤ lower ∧ upper ≤ 191 ∧
           ∀ b, lower ≤ b ≤ upper → code_ok n (code * 64 + (b - 128)) 128 191
  end.

Definition decoder_ok (d : decoder) : Prop :=
  match de_needed d with O => True | S _ => code_ok (de_needed d) (de_code d) (de_lower d) (de_upper d) end.

Lemma replacement_scalar : is_scalar REPLACEMENT.
Proof. right. unfold REPLACEMENT. lia. Qed.

Ltac code_range :=
  repeat match goal with |- _ ∧ _ => split | |- ∀ _, _ => intros ? end; lia.

Lemma decode_first_ok b :
  0 ≤ b < 256 → decoder_ok (decode_first b).1 ∧ Forall is_scalar (decode_first b).2.
Proof.
  intros Hb. destruct (Z.leb_spec b 127); [|destruct (decide (194 <= b <= 223));
    [|destruct (decide (224 <= b <= 239)); [|destruct (decide (240 <= b <= 244))]]].
  - unfold decode_first. rewrite (proj2 (Z.leb_le b 127)) by lia. repeat constructor; lia.
  - replace b with (192 + (b - 192)) by lia. rewrite decode_lead_2 by lia.
    split; [|constructor]. cbn. unfold is_scalar. code_range.
  - replace b with (224 + (b - 224)) by lia. rewrite decode_lead_3 by lia.
    split; [|constructor]. cbn. unfold is_scalar.
    destruct (Z.eqb_spec (b - 224) 0), (Z.eqb_spec (b - 224) 13); code_range.
  - replace b with (240 + (b - 240)) by lia. rewrite decode_lead_4 by lia.
    split; [|constructor]. cbn. unfold is_scalar.
    destruct (Z.eqb_spec (b - 240) 0), (Z.eqb_spec (b - 240) 4); code_range.
  - assert (decode_first b = (decoder_idle, [REPLACEMENT])) as ->.
    { unfold decode_first. rewrite (proj2 (Z.leb_gt b 127)) by lia.
      destruct (Z.leb_spec 194 b), (Z.leb_spec b 223), (Z.leb_spec 224 b), (Z.leb_spec b 239),
        (Z.leb_spec 240 b), (Z.leb_spec b 244); simpl; try done; lia. }
    split; [done|]. constructor; [apply replacement_scalar|constructor].
Qed.

Lemma decode_byte_ok d b :
  decoder_ok d → 0 ≤ b < 256 → decoder_ok (decode_byte d b).1 ∧ Forall is_scalar (decode_byte d b).2.
Proof.
  intros Hd Hb. destruct d as [code [|n] lower upper]; [by apply decode_first_ok|].
  destruct Hd as (Hc & Hl & Hu & Hnext). cbn [de_needed de_lower de_upper de_code] in *.
  destruct (decide (lower ≤ b ≤ upper)) as [Hr|Hr].
  - rewrite decode_continue by lia. specialize (Hnext b Hr).
    destruct n as [|n]; (split; [done|]); [constructor; [exact Hnext|constructor]|constructor].
  - unfold decode_byte. cbn [de_needed de_lower de_upper de_code].
    destruct (decode_first_ok b Hb) as [Hok Hout]. destruct (decode_first b) as [d' out].
    destruct (Z.ltb_spec b lower), (Z.ltb_spec upper b); simpl; try lia.
    all: split; [done|]; constructor; [apply replacement_scalar|done].
Qed.

Lemma decode_bytes_scalar d bs : decoder_ok d → is_bytes bs → Forall is_scalar (decode_bytes d bs).
Proof.
  intros Hd Hbs. revert d Hd. induction Hbs as [|b bs Hb _ IH]; intros d Hd.
  - cbn. destruct (de_needed d); [constructor|]. constructor; [apply replacement_scalar|constructor].
  - cbn [decode_bytes]. destruct (decode_byte_ok d b Hd Hb) as [Hok Hout].
    destruct (decode_byte d b). apply Forall_app. split; [done|by apply IH].
Qed.

Lemma strip_mark_scalar t : Forall is_scalar t → Forall is_scalar (strip_mark t).
Proof. destruct 1; simpl; [constructor|]. case_match; [done|by constructor]. Qed.

(** Text survives its bytes, and bytes make text.  Any text without surrogates is read
    back from its UTF-8 encoding, byte order mark at its start apart, which the decoder takes
    for a mark; and whatever bytes arrive (truncated, overlong, surrogates) are decoded to
    a text that can be encoded and read back again. *)
Theorem utf8_roundtrip t bs :
  Forall is_scalar t → is_bytes bs →
  is_bytes (utf8ToBinary t) ∧ binaryToUtf8 (utf8ToBinary t) = strip_mark t ∧
  Forall is_scalar (binaryToUtf8 bs) ∧
  decode_bytes decoder_idle (utf8ToBinary (binaryToUtf8 bs)) = binaryToUtf8 bs.
Proof.
  intros Ht Hbs. assert (Forall is_scalar (binaryToUtf8 bs)) as Hd.
  { apply strip_mark_scalar. by apply decode_bytes_scalar. }
  split_and!; [|unfold binaryToUtf8 at 1; by rewrite decode_encoded|done|by apply decode_encoded].
  apply utf8ToBinary_bytes. eapply Forall_impl; [exact Ht|]. unfold is_scalar. intros; lia.
Qed.

Module TextWitness.
(** The euro sign, an emoji and, as bytes, a truncated sequence before a letter *)
Lemma utf8_roundtrip_witness :
  utf8ToBinary [8364; 128512] = [226; 130; 172; 240; 159; 152; 128]
  ∧ binaryToUtf8 [226; 130; 65] = [REPLACEMENT; 65]
  ∧ is_bytes (utf8ToBinary [8364; 128512])
  ∧ binaryToUtf8 (utf8ToBinary [8364; 128512]) = [8364; 128512]
  ∧ Forall is_scalar (binaryToUtf8 [226; 130; 65])
  ∧ decode_bytes decoder_idle (utf8ToBinary (binaryToUtf8 [226; 130; 65])) = binaryToUtf8 [226; 130; 65].
Proof.
  split; [reflexivity|]. split; [reflexivity|].
  apply (utf8_roundtrip [8364; 128512] [226; 130; 65]); repeat constructor; unfold is_scalar; lia.
Defined.
End TextWitness.
