(* ===== verification/Signing.v ===== *)
(** Signature schemes (packages/utils/src/SigningUtil.ts).

    The curves, the hash and the post-quantum scheme are packages of npm and the Web
    Cryptography API: [crypto] holds what the source calls of them.  What a signing scheme
    needs of a library is a hypothesis of the lemma that uses it. *)

From S2P Require Import Prelude.
From S2P Require Import Js.
From S2P Require Import Frames.
From S2P Require Import Text.
From Stdlib Require Import Ascii.

Set Default Proof Using "Type".

Record crypto := MkCrypto {
  keccak256 : bytes → bytes;
  ecdsaSign : bytes → bytes → outcome js_error (bytes * Z);
  ecdsaRecover : bytes → Z → bytes → outcome js_error bytes;
  publicKeyCreate : bytes → bytes;
  p256_importKey : bytes → outcome js_error bytes;
  p256_decompress : bytes → outcome js_error bytes;
  p256_verify : bytes → bytes → bytes → outcome js_error bool;
  mldsa_verify : bytes → bytes → bytes → outcome js_error bool
}.

Inductive KeyType := ECDSA_SECP256K1_EVM | ECDSA_SECP256R1 | ML_DSA_87.
#[global] Instance KeyType_eq_dec : EqDecision KeyType.
Proof. solve_decision. Defined.

(** [buffer.subarray(0, buffer.length - 1)] *)
Definition drop_last (b : bytes) : bytes := take (length b - 1) b.

Section schemes.
  Context (cr : crypto).

(** * EcdsaSecp256k1Evm *)

Definition ECDSA_SECP256K1_EVM_SIGN_MAGIC : string :=
  String "025" ("Ethereum Signed Message:" +:+ newline).

Definition keccakHash (message : bytes) (useEthereumMagic : bool) : bytes :=
  keccak256 cr (if useEthereumMagic
                then utf8_string (ECDSA_SECP256K1_EVM_SIGN_MAGIC +:+ pretty (Z.of_nat (length message))) ++ message
                else message).

(** [readUInt8] of an empty buffer throws. *)
Definition recoverPublicKey (signature payload : bytes) : outcome js_error bytes :=
  match last signature with
  | None => Throw (MkError (Some "ERR_BUFFER_OUT_OF_BOUNDS") "Attempt to access memory outside buffer bounds")
  | Some b => ecdsaRecover cr (drop_last signature) (b - 27) (keccakHash payload true)
  end.

(** [writeInt8] of the recovery id, as an unsigned byte *)
Definition createSignature (payload privateKey : bytes) : outcome js_error bytes :=
  (let? sigObj := ecdsaSign cr (keccakHash payload true) privateKey in
   Return (sigObj.1 ++ [(27 + sigObj.2)%Z]))%eff.

Definition publicKeyToAddress (publicKey : bytes) : outcome js_error bytes :=
  if negb (length publicKey =? 65)%nat
  then Throw (MkError None "Expected 65 bytes (an ECDSA uncompressed public key with header byte).")
  else Return (drop 12 (keccak256 cr (drop 1 publicKey))).

Definition recoverSignerUserId (signature payload : bytes) : outcome js_error bytes :=
  (let? publicKey := recoverPublicKey signature payload in publicKeyToAddress publicKey)%eff.

Definition evm_verifySignature (expectedUserId payload signature : bytes) : bool :=
  match recoverSignerUserId signature payload with
  | Return recoveredAddress => areEqualBinaries recoveredAddress expectedUserId
  | Throw _ => false
  end.

(** * EcdsaSecp256r1 *)

Definition isCompressedPublicKey (publicKey : bytes) : bool := (length publicKey =? 33)%nat.
Definition isUncompressedPublicKey (publicKey : bytes) : bool := (length publicKey =? 65)%nat.

Definition getUncompressedPublicKey (publicKey : bytes) : outcome js_error bytes :=
  if isCompressedPublicKey publicKey then p256_decompress cr publicKey
  else if isUncompressedPublicKey publicKey then Return publicKey
  else Throw (MkError None "Unexpected public key length").

Definition p256_verifySignature (publicKey payload signature : bytes) : outcome js_error bool :=
  (let? key := match p256_importKey cr publicKey with
               | Return key => Return key
               | Throw err =>
                   if isCompressedPublicKey publicKey
                   then let? uncompressed := getUncompressedPublicKey publicKey in
                        p256_importKey cr uncompressed
                   else Throw err
               end in
   p256_verify cr key signature payload)%eff.

(** * The scheme of a key type *)

Definition verifySignature (keyType : KeyType) (publicKey payload signature : bytes) : outcome js_error bool :=
  match keyType with
  | ECDSA_SECP256K1_EVM => Return (evm_verifySignature publicKey payload signature)
  | ECDSA_SECP256R1 => p256_verifySignature publicKey payload signature
  | ML_DSA_87 => mldsa_verify cr publicKey payload signature
  end.

(** * Facts *)

(** The check of the EVM scheme: the signer that the signature gives is the expected one. *)
Lemma evm_verifySignature_spec expected payload signature :
  evm_verifySignature expected payload signature = true ↔
  recoverSignerUserId signature payload = Return expected.
Proof.
  unfold evm_verifySignature. destruct (recoverSignerUserId _ _) as [a|]; [|done].
  rewrite areEqualBinaries_spec, bool_decide_eq_true. split; congruence.
Qed.

Lemma drop_last_app b x : drop_last (b ++ [x]) = b.
Proof.
  unfold drop_last. rewrite length_app. simpl. rewrite take_app_le by lia. apply take_ge. lia.
Qed.

Lemma recover_created payload privateKey sig recid :
  ecdsaSign cr (keccakHash payload true) privateKey = Return (sig, recid) →
  createSignature payload privateKey = Return (sig ++ [(27 + recid)%Z]) ∧
  recoverPublicKey (sig ++ [(27 + recid)%Z]) payload = ecdsaRecover cr sig recid (keccakHash payload true).
Proof.
  intros Hs. unfold createSignature, recoverPublicKey. rewrite Hs, last_snoc, drop_last_app.
  split; [done|]. f_equal. lia.
Qed.

Section sign.
  (** What the documentation of the secp256k1 package says of a key pair: the public key in its
      uncompressed form has 65 bytes, signing succeeds, and the key that signed is
      recovered. *)
  Context (valid_key : bytes → Prop).
  Hypothesis publicKeyCreate_length : ∀ k, valid_key k → length (publicKeyCreate cr k) = 65.
  Hypothesis sign_recover : ∀ m k, valid_key k →
    ∃ sig recid, ecdsaSign cr (keccak256 cr m) k = Return (sig, recid) ∧
      ecdsaRecover cr sig recid (keccak256 cr m) = Return (publicKeyCreate cr k).

(** what a key signs is accepted as signed by its address, and by no other address. *)
Theorem evm_sign_verify payload k :
  valid_key k →
  ∃ address signature,
    publicKeyToAddress (publicKeyCreate cr k) = Return address ∧
    createSignature payload k = Return signature ∧
    recoverSignerUserId signature payload = Return address ∧
    ∀ user, evm_verifySignature user payload signature = bool_decide (user = address).
Proof using publicKeyCreate_length sign_recover.
  intros Hk. destruct (sign_recover (utf8_string (ECDSA_SECP256K1_EVM_SIGN_MAGIC +:+
    pretty (Z.of_nat (length payload))) ++ payload) k Hk) as (sig & recid & Hs & Hr).
  change (keccak256 cr _) with (keccakHash payload true) in Hs, Hr.
  destruct (recover_created _ _ _ _ Hs) as [Hc Hp].
  assert (∃ address, publicKeyToAddress (publicKeyCreate cr k) = Return address) as [address Ha].
  { unfold publicKeyToAddress. rewrite publicKeyCreate_length by done. eauto. }
  assert (recoverSignerUserId (sig ++ [(27 + recid)%Z]) payload = Return address) as Hrec.
  { unfold recoverSignerUserId. by rewrite Hp, Hr. }
  exists address, (sig ++ [(27 + recid)%Z]). split_and!; [done..|]. intros user.
  apply Bool.eq_iff_eq_true. rewrite evm_verifySignature_spec, Hrec, bool_decide_eq_true.
  split; congruence.
Qed.
End sign.
End schemes.

Module SigningWitness.
(** A scheme without secrets: the signature is the hash, then the key. *)
Definition pad (n : nat) (b : bytes) : bytes := take n (b ++ replicate n 0%Z).
Definition toy : crypto := MkCrypto
  (λ b, pad 32 (reverse b))
  (λ h k, Return (h ++ k, 1%Z))
  (λ sig recid h, if bool_decide (take 32 sig = h ∧ recid = 1%Z) then Return (pad 65 (drop 32 sig))
                  else Throw (MkError None "invalid signature"))
  (pad 65)
  (λ k, Return k) (λ k, Return k) (λ k s p, Return (bool_decide (s = p))) (λ k p s, Return (bool_decide (s = p))).
Definition toy_key (k : bytes) : Prop := length k = 32.

Lemma toy_length b : length (pad 65 b) = 65.
Proof. unfold pad. rewrite length_take, length_app, length_replicate. lia. Qed.
Lemma toy_hash_length b : length (keccak256 toy b) = 32.
Proof. simpl. unfold pad. rewrite length_take, length_app, length_replicate. lia. Qed.

Lemma toy_recover m k :
  toy_key k →
  ∃ sig recid, ecdsaSign toy (keccak256 toy m) k = Return (sig, recid) ∧
    ecdsaRecover toy sig recid (keccak256 toy m) = Return (publicKeyCreate toy k).
Proof.
  intros Hk. exists (keccak256 toy m ++ k), 1%Z. split; [done|].
  pose proof (toy_hash_length m) as Hm. revert Hm. generalize (keccak256 toy m). intros h Hh.
  simpl. rewrite take_app_le by lia. rewrite take_ge by lia. rewrite bool_decide_eq_true_2 by done.
  by rewrite drop_app_length' by done.
Qed.

Lemma evm_sign_verify_witness :
  ∃ address signature,
    publicKeyToAddress toy (publicKeyCreate toy (replicate 32 7%Z)) = Return address ∧
    createSignature toy [1; 2; 3]%Z (replicate 32 7%Z) = Return signature ∧
    recoverSignerUserId toy signature [1; 2; 3]%Z = Return address ∧
    ∀ user, evm_verifySignature toy user [1; 2; 3]%Z signature = bool_decide (user = address).
Proof.
  apply (evm_sign_verify toy toy_key (λ k _, toy_length k) (λ m k, toy_recover m k)
           [1; 2; 3]%Z (replicate 32 7%Z)). reflexivity.
Defined.
End SigningWitness.
