(* ===== verification/Heap.v ===== *)
(** The sorted array behind the class [Heap] of packages/utils/src/Heap.ts: insertion by
    binary search, and removal of the smallest item. *)

From S2P Require Import Prelude.
From stdpp Require Import sorting.

Set Default Proof Using "Type*".

(** What the class relies on of its argument [compare]: the sign of a total preorder. *)
Class Comparator {A : Type} (compare : A → A → Z) : Prop := {
  compare_refl x : compare x x = 0%Z;
  compare_antisym x y : (compare x y < 0)%Z ↔ (0 < compare y x)%Z;
  compare_trans x y z : (compare x y ≤ 0)%Z → (compare y z ≤ 0)%Z → (compare x z ≤ 0)%Z;
}.

Section heap.
Context {A : Type} (compare : A → A → Z).

Notation heap := (list A).

(** The [while] of [getItemIndex]; [fuel] bounds its rounds. *)
Fixpoint search_loop (fuel : nat) (items : heap) (item : A) (first last : nat) : nat :=
  match fuel with
  | O => last
  | S fuel' =>
      if first <? last then
        let middle := ((first + last) / 2)%nat in
        match items !! middle with
        | Some x =>
            if (compare x item <? 0)%Z
            then search_loop fuel' items item (middle + 1) last
            else search_loop fuel' items item first middle
        | None => last
        end
      else last
  end%nat.

Definition heap_isEmpty (items : heap) : bool := (length items =? 0)%nat.

Definition getItemIndex (items : heap) (item : A) : nat :=
  if heap_isEmpty items then 0%nat
  else search_loop (length items) items item 0 (length items).

Definition heap_push (items : heap) (item : A) : heap :=
  let index := getItemIndex items item in take index items ++ item :: drop index items.

Definition heap_pop (items : heap) : option A * heap := (head items, tail items).

Definition heap_peek (items : heap) : option A :=
  if heap_isEmpty items then None else items !! 0%nat.

Definition heap_contains (items : heap) (item : A) : bool :=
  if heap_isEmpty items then false
  else
    let index := getItemIndex items item in
    if (index =? length items)%nat then false
    else match items !! index with
         | Some x => (compare x item =? 0)%Z
         | None => false
         end.

(** * Sorted arrays *)

Definition below (item x : A) : Prop := (compare x item < 0)%Z.
Definition at_most (x y : A) : Prop := (compare x y ≤ 0)%Z.

Definition heap_sorted (items : heap) : Prop := StronglySorted at_most items.

Context `{!Comparator compare}.

#[global] Instance at_most_preorder : PreOrder at_most.
Proof.
  split; unfold at_most; [|by intros x y z; apply compare_trans].
  intros x. by rewrite compare_refl.
Qed.

Lemma below_at_most x y item : at_most x y → below item y → below item x.
Proof.
  unfold at_most, below. intros Hxy Hy. apply compare_antisym.
  destruct (decide (0 < compare item x)%Z) as [?|Hn]; [done|].
  assert (Hix : (compare item x ≤ 0)%Z) by lia.
  apply compare_antisym in Hy. pose proof (compare_trans _ _ _ Hix Hxy). lia.
Qed.

Lemma compare_le_or_lt x y : at_most x y ∨ below x y.
Proof.
  unfold at_most, below. destruct (decide (compare x y ≤ 0)%Z) as [?|Hn]; [by left|right].
  apply compare_antisym. lia.
Qed.

(** The search ends at the first position whose item is not below [item]. *)
Lemma search_loop_spec fuel items item first last :
  heap_sorted items →
  first ≤ last ≤ length items → last - first ≤ fuel →
  (∀ i x, items !! i = Some x → i < first → below item x) →
  (∀ i x, items !! i = Some x → last ≤ i → ¬ below item x) →
  let index := search_loop fuel items item first last in
  index ≤ length items
  ∧ (∀ i x, items !! i = Some x → i < index → below item x)
  ∧ (∀ i x, items !! i = Some x → index ≤ i → ¬ below item x).
Proof.
  intros Hs. revert first last. induction fuel as [|fuel IH]; intros first last Hfl Hfuel Hlo Hhi.
  - simpl. assert (first = last) as -> by lia. split_and!; [lia|done|done].
  - cbn [search_loop]. destruct (Nat.ltb_spec first last) as [Hlt|Hge]; cbv zeta.
    2:{ assert (first = last) as -> by lia. split_and!; [lia|done|done]. }
    set (middle := (first + last) / 2).
    assert (Hm : first ≤ middle < last).
    { subst middle. split; [apply Nat.div_le_lower_bound|apply Nat.Div0.div_lt_upper_bound]; lia. }
    destruct (lookup_lt_is_Some_2 items middle ltac:(lia)) as [x Hx]. rewrite Hx.
    destruct (Z.ltb_spec (compare x item) 0) as [Hc|Hc].
    + apply IH; [lia|lia| |done]. intros i y Hy Hi.
      destruct (decide (i = middle)) as [->|]; [by simplify_eq|].
      apply (below_at_most y x); [|done].
      apply (StronglySorted_nth _ items i middle); [done..|lia].
    + apply IH; [lia|lia|done|]. intros i y Hy Hi Hb.
      destruct (decide (i = middle)) as [->|]; [simplify_eq; unfold below in Hb; lia|].
      assert (below item x); [|unfold below in *; lia].
      apply (below_at_most x y); [|done].
      apply (StronglySorted_nth _ items middle i); [done..|lia].
Qed.

Lemma getItemIndex_spec items item :
  heap_sorted items →
  let index := getItemIndex items item in
  index ≤ length items
  ∧ (∀ i x, items !! i = Some x → i < index → below item x)
  ∧ (∀ i x, items !! i = Some x → index ≤ i → ¬ below item x).
Proof.
  intros Hs. unfold getItemIndex, heap_isEmpty. destruct (Nat.eqb_spec (length items) 0) as [Hn|Hn].
  - apply nil_length_inv in Hn as ->. by split_and!.
  - apply search_loop_spec; [done|lia|lia| |].
    + intros i x _ Hi. lia.
    + intros i x Hx Hi. apply lookup_lt_Some in Hx. lia.
Qed.

(** Binary search and counting agree. *)
Lemma getItemIndex_counts items item :
  heap_sorted items →
  getItemIndex items item = length (filter (λ x, compare x item < 0)%Z items).
Proof.
  intros Hs. destruct (getItemIndex_spec items item Hs) as (Hle & Hlo & Hhi).
  rewrite <-(take_drop (getItemIndex items item) items) at 2.
  rewrite filter_app, length_app.
  rewrite filter_all, length_take, filter_none; [simpl; lia| |].
  - intros x [i Hi]%list_elem_of_lookup. rewrite lookup_drop in Hi.
    intros Hb. apply (Hhi _ _ Hi); [lia|done].
  - intros x [i Hi]%list_elem_of_lookup. apply lookup_take_Some in Hi as [Hi ?].
    by apply (Hlo i x).
Qed.

Lemma heap_push_perm items item : heap_push items item ≡ₚ item :: items.
Proof using Type.
  unfold heap_push. cbv zeta. rewrite <-Permutation_middle. by rewrite take_drop.
Qed.

Lemma elem_of_heap_push items item x : x ∈ heap_push items item ↔ x = item ∨ x ∈ items.
Proof using Type. by rewrite heap_push_perm, elem_of_cons. Qed.

Lemma heap_push_sorted items item :
  heap_sorted items → heap_sorted (heap_push items item).
Proof.
  intros Hs. destruct (getItemIndex_spec items item Hs) as (Hle & Hlo & Hhi).
  unfold heap_push. cbv zeta. set (index := getItemIndex items item) in *.
  pose proof Hs as Hs'. unfold heap_sorted in Hs'. rewrite <-(take_drop index items) in Hs'.
  assert (Hlow : ∀ x, x ∈ take index items → at_most x item).
  { intros x [i [Hi ?]%lookup_take_Some]%list_elem_of_lookup. pose proof (Hlo _ _ Hi ltac:(done)).
    unfold below, at_most in *. lia. }
  assert (Hhigh : ∀ x, x ∈ drop index items → at_most item x).
  { intros x [i Hi]%list_elem_of_lookup. rewrite lookup_drop in Hi.
    destruct (compare_le_or_lt item x) as [?|Hb]; [done|].
    assert (¬ below item x) as Hn by (apply (Hhi _ _ Hi); lia).
    unfold below, at_most in *. destruct (decide (compare item x ≤ 0)%Z); [done|].
    destruct Hn. apply compare_antisym. lia. }
  apply StronglySorted_app_2.
  - intros x y Hx [->|Hy]%elem_of_cons; [by apply Hlow|]. trans item; auto.
  - by eapply StronglySorted_app_1_l.
  - constructor; [by eapply StronglySorted_app_1_r|]. by apply Forall_forall.
Qed.

Lemma heap_contains_spec items item :
  heap_sorted items →
  heap_contains items item = true ↔ ∃ x, x ∈ items ∧ compare x item = 0%Z.
Proof.
  intros Hs. destruct (getItemIndex_spec items item Hs) as (Hle & Hlo & Hhi).
  unfold heap_contains, heap_isEmpty.
  set (index := getItemIndex items item) in *. destruct (Nat.eqb_spec (length items) 0) as [Hn|Hn].
  { apply nil_length_inv in Hn as ->. split; [done|]. intros (x & Hx & _). by apply not_elem_of_nil in Hx. }
  destruct (Nat.eqb_spec index (length items)) as [He|He].
  - split; [done|]. intros (x & [i Hi]%list_elem_of_lookup & Hx).
    pose proof (lookup_lt_Some _ _ _ Hi). pose proof (Hlo i x Hi ltac:(lia)). unfold below in *. lia.
  - destruct (lookup_lt_is_Some_2 items index ltac:(lia)) as [y Hy]. rewrite Hy, Z.eqb_eq.
    split; [intros ?; exists y; split; [by eapply list_elem_of_lookup_2|done]|].
    intros (x & [i Hi]%list_elem_of_lookup & Hx).
    assert (¬ below item y) as Hny by (apply (Hhi _ _ Hy); lia).
    destruct (decide (i < index)) as [Hlt|]; [pose proof (Hlo _ _ Hi Hlt); unfold below in *; lia|].
    destruct (decide (i = index)) as [->|]; [congruence|].
    assert (at_most y x) as Hyx by (apply (StronglySorted_nth _ items index i); [done..|lia]).
    assert (at_most x item) as Hxi by (unfold at_most; lia).
    pose proof (transitivity Hyx Hxi) as Hyi. unfold at_most, below in *. lia.
Qed.

(** The head of the array is one of the smallest items. *)
Lemma heap_head_min x items y : heap_sorted (x :: items) → y ∈ items → at_most x y.
Proof. intros [_ Hx]%StronglySorted_inv Hy. by eapply Forall_forall in Hx. Qed.

Lemma heap_tail_sorted x items : heap_sorted (x :: items) → heap_sorted items.
Proof. by intros [? _]%StronglySorted_inv. Qed.
End heap.

Arguments heap_sorted {A} compare items.
Arguments at_most {A} compare x y.
