(* ===== verification/Ordering.v ===== *)
(** Ordering of a message chain on the subscriber's side: MessageRef.ts and
    validateSequence of StreamMessage.ts (packages/sdk/src/protocol), and
    OrderedMessageChain.ts of packages/sdk/src/subscribe/ordering.

    An operation of the chain returns the new state and the events it emitted, in order.
    The listeners of the program do not call the chain back while it emits. *)

From S2P Require Import Prelude.
From S2P Require Import Heap.

Set Default Proof Using "Type".

(** * Message references *)

Record MessageRef := MkRef { mr_timestamp : Z; mr_sequenceNumber : Z }.

#[global] Instance MessageRef_eq_dec : EqDecision MessageRef.
Proof. solve_decision. Defined.

Definition compareTo (r other : MessageRef) : Z :=
  if (mr_timestamp r <? mr_timestamp other)%Z then -1
  else if (mr_timestamp other <? mr_timestamp r)%Z then 1
  else if (mr_sequenceNumber r <? mr_sequenceNumber other)%Z then -1
  else if (mr_sequenceNumber other <? mr_sequenceNumber r)%Z then 1
  else 0.

(** A message as the chain sees it; [sm_content] stands for the rest of it. *)
Record StreamMessage := MkStreamMessage {
  getMessageRef : MessageRef; prevMsgRef : option MessageRef; sm_content : Z }.

#[global] Instance StreamMessage_eq_dec : EqDecision StreamMessage.
Proof. solve_decision. Defined.

(** The error thrown: the previous message is the message itself, or after it. *)
Inductive sequence_error := PrevIdentical | PrevAfter.

Definition validateSequence (messageId : MessageRef) (prev : option MessageRef)
    : outcome sequence_error unit :=
  match prev with
  | None => Return tt
  | Some prev =>
      let comparison := compareTo messageId prev in
      if (comparison =? 0)%Z then Throw PrevIdentical
      else if (comparison <? 0)%Z then Throw PrevAfter
      else Return tt
  end.

(** The constructor of [StreamMessage]. *)
Definition stream_message_new (ref : MessageRef) (prev : option MessageRef) (content : Z)
    : outcome sequence_error StreamMessage :=
  (let? _ := validateSequence ref prev in Return (MkStreamMessage ref prev content))%eff.

Definition compare_messages (msg1 msg2 : StreamMessage) : Z :=
  compareTo (getMessageRef msg1) (getMessageRef msg2).

Definition areEqualRefs (ref1 ref2 : MessageRef) : bool := (compareTo ref1 ref2 =? 0)%Z.

(** * The chain *)

Record Gap := MkGap { gap_from : option StreamMessage; gap_to : StreamMessage }.

#[global] Instance Gap_eq_dec : EqDecision Gap.
Proof. solve_decision. Defined.

Inductive chain_event :=
  | OrderedMessageAdded (msg : StreamMessage)
  | GapFound (gap : Gap)
  | GapResolved
  | UnfillableGap (gap : Gap).

#[global] Instance chain_event_eq_dec : EqDecision chain_event.
Proof. solve_decision. Defined.

Record OrderedMessageChain := MkChain {
  lastOrderedMsg : option StreamMessage;
  currentGap : option Gap;
  pendingMsgs : list StreamMessage;
  oc_aborted : bool
}.

Definition chain_new : OrderedMessageChain := MkChain None None [] false.

(** The abort listener of the constructor removes every listener. *)
Definition chain_abort (c : OrderedMessageChain) : OrderedMessageChain :=
  MkChain (lastOrderedMsg c) (currentGap c) (pendingMsgs c) true.

Definition emit (c : OrderedMessageChain) (e : chain_event) : list chain_event :=
  if oc_aborted c then [] else [e].

Definition isNextOrderedMessage (c : OrderedMessageChain) (msg : StreamMessage) : bool :=
  match lastOrderedMsg c, prevMsgRef msg with
  | None, _ => true
  | _, None => true
  | Some last, Some previousRef => areEqualRefs previousRef (getMessageRef last)
  end.

Definition isStaleMessage (c : OrderedMessageChain) (msg : StreamMessage) : bool :=
  match lastOrderedMsg c with
  | Some last => (compareTo (getMessageRef msg) (getMessageRef last) <=? 0)%Z
  | None => false
  end || heap_contains compare_messages (pendingMsgs c) msg.

Definition checkGapFound (c : OrderedMessageChain) : OrderedMessageChain * list chain_event :=
  match heap_peek (pendingMsgs c), currentGap c with
  | Some top, None =>
      let gap := MkGap (lastOrderedMsg c) top in
      (MkChain (lastOrderedMsg c) (Some gap) (pendingMsgs c) (oc_aborted c), emit c (GapFound gap))
  | _, _ => (c, [])
  end.

Definition checkGapResolved (c : OrderedMessageChain) : OrderedMessageChain * list chain_event :=
  match currentGap c, lastOrderedMsg c with
  | Some gap, Some last =>
      if areEqualRefs (getMessageRef last) (getMessageRef (gap_to gap))
      then (MkChain (lastOrderedMsg c) None (pendingMsgs c) (oc_aborted c), emit c GapResolved)
      else (c, [])
  | _, _ => (c, [])
  end.

(** The [while] of [consumePendingOrderedMessages]: [pending] is the array the chain
    holds, one item shorter in every round. *)
Fixpoint consume_loop (isConsumable : OrderedMessageChain → StreamMessage → bool * list chain_event)
    (pending : list StreamMessage) (c : OrderedMessageChain) : OrderedMessageChain * list chain_event :=
  match pending with
  | [] => (c, [])
  | next :: rest =>
      let '(ok, e1) := isConsumable c next in
      if ok then
        let c1 := MkChain (Some next) (currentGap c) rest (oc_aborted c) in
        let '(c2, e2) := checkGapResolved c1 in
        let '(c3, e3) := consume_loop isConsumable rest c2 in
        (c3, e1 ++ emit c1 (OrderedMessageAdded next) ++ e2 ++ e3)
      else (c, e1)
  end.

Definition consumePendingOrderedMessages
    (isConsumable : OrderedMessageChain → StreamMessage → bool * list chain_event)
    (gapCheckEnabled : bool) (c : OrderedMessageChain) : OrderedMessageChain * list chain_event :=
  let '(c1, e1) := consume_loop isConsumable (pendingMsgs c) c in
  if gapCheckEnabled then let '(c2, e2) := checkGapFound c1 in (c2, e1 ++ e2) else (c1, e1).

Definition addMessage (msg : StreamMessage) (c : OrderedMessageChain)
    : OrderedMessageChain * list chain_event :=
  if isStaleMessage c msg then (c, [])
  else
    consumePendingOrderedMessages (λ c m, (isNextOrderedMessage c m, [])) true
      (MkChain (lastOrderedMsg c) (currentGap c)
         (heap_push compare_messages (pendingMsgs c) msg) (oc_aborted c)).

(** The predicate of [resolveMessages]. *)
Definition resolvable (to : option MessageRef) (c : OrderedMessageChain) (msg : StreamMessage)
    : bool * list chain_event :=
  if isNextOrderedMessage c msg then (true, [])
  else if match to with
          | None => true
          | Some to => (compareTo (getMessageRef msg) to <=? 0)%Z
          end
  then (true, emit c (UnfillableGap (MkGap (lastOrderedMsg c) msg)))
  else (false, []).

Definition resolveMessages (to : option MessageRef) (gapCheckEnabled : bool)
    (c : OrderedMessageChain) : OrderedMessageChain * list chain_event :=
  consumePendingOrderedMessages (resolvable to) gapCheckEnabled c.

(** [waitUntilIdle] waits until this holds. *)
Definition isIdle (c : OrderedMessageChain) : bool := heap_isEmpty (pendingMsgs c) || oc_aborted c.

(** * Order of the references *)

Definition ref_lt (r1 r2 : MessageRef) : Prop := (compareTo r1 r2 < 0)%Z.

Lemma compareTo_cases r1 r2 :
  let d := (mr_timestamp r1 - mr_timestamp r2)%Z in
  let e := (mr_sequenceNumber r1 - mr_sequenceNumber r2)%Z in
  (compareTo r1 r2 = -1 ∧ (d < 0 ∨ d = 0 ∧ e < 0))%Z
  ∨ (compareTo r1 r2 = 0 ∧ d = 0 ∧ e = 0)%Z ∨ (compareTo r1 r2 = 1 ∧ (0 < d ∨ d = 0 ∧ 0 < e))%Z.
Proof.
  unfold compareTo. repeat (case_match; [lia|]; case_match || idtac).
  all: rewrite ?Z.ltb_lt, ?Z.ltb_ge in *; lia.
Qed.

(** Marks the comparisons the next tactic has looked at. *)
Inductive cmp_seen (a b : MessageRef) : Prop := CmpSeen.

(** Turns the comparisons in sight into linear facts. *)
Ltac refs :=
  unfold ref_lt, at_most, below, compare_messages in *;
  repeat match goal with
  | H : context [compareTo ?a ?b] |- _ =>
      lazymatch goal with
      | _ : cmp_seen a b |- _ => fail
      | _ => assert (cmp_seen a b) by constructor; pose proof (compareTo_cases a b)
      end
  | |- context [compareTo ?a ?b] =>
      lazymatch goal with
      | _ : cmp_seen a b |- _ => fail
      | _ => assert (cmp_seen a b) by constructor; pose proof (compareTo_cases a b)
      end
  end; simpl in *; lia.

#[global] Instance compare_messages_comparator : Comparator compare_messages.
Proof. split; intros; refs. Qed.

Lemma areEqualRefs_spec r1 r2 : areEqualRefs r1 r2 = true ↔ r1 = r2.
Proof.
  unfold areEqualRefs. rewrite Z.eqb_eq. split.
  - intros H. destruct r1, r2. assert (mr_timestamp0 = mr_timestamp1 ∧ mr_sequenceNumber0 = mr_sequenceNumber1)
      as [-> ->] by refs. done.
  - intros ->. refs.
Qed.

Lemma ref_lt_trans r1 r2 r3 : ref_lt r1 r2 → ref_lt r2 r3 → ref_lt r1 r3.
Proof. intros. refs. Qed.

Lemma ref_lt_irrefl r : ¬ ref_lt r r.
Proof. intros H. refs. Qed.

Lemma ref_total r1 r2 : ref_lt r1 r2 ∨ r1 = r2 ∨ ref_lt r2 r1.
Proof.
  destruct (Z.lt_trichotomy (compareTo r1 r2) 0) as [?|[?|?]]; [by left|right; left|right; right; refs].
  apply areEqualRefs_spec. by apply Z.eqb_eq.
Qed.

(** * Events *)

Definition delivered (es : list chain_event) : list StreamMessage :=
  omap (λ e, match e with OrderedMessageAdded msg => Some msg | _ => None end) es.

(** The protocol of the gap events: a gap is resolved before the next one is found.
    [None] when a trace breaks it; otherwise the gap that is open at the end. *)
Fixpoint gap_protocol (open : option Gap) (es : list chain_event) : option (option Gap) :=
  match es with
  | [] => Some open
  | GapFound gap :: es =>
      match open with None => gap_protocol (Some gap) es | Some _ => None end
  | GapResolved :: es =>
      match open with Some _ => gap_protocol None es | None => None end
  | _ :: es => gap_protocol open es
  end.

Definition is_unfillable (e : chain_event) : bool :=
  match e with UnfillableGap _ => true | _ => false end.

Lemma delivered_app es es' : delivered (es ++ es') = delivered es ++ delivered es'.
Proof. apply omap_app. Qed.

Lemma gap_protocol_app open es es' :
  gap_protocol open (es ++ es') = gap_protocol open es ≫= λ open', gap_protocol open' es'.
Proof. revert open. induction es as [|[] es IH]; intros open; simpl; [done..| | |]; destruct open; done. Qed.

Lemma unfillable_events es :
  Forall is_unfillable es → delivered es = [] ∧ ∀ open, gap_protocol open es = Some open.
Proof.
  induction 1 as [|[] es He Hes [IHd IHg]]; [done|done|done|done|]. split; [apply IHd|apply IHg].
Qed.

(** * The loop *)

Definition msg_lt (m1 m2 : StreamMessage) : Prop := ref_lt (getMessageRef m1) (getMessageRef m2).

Lemma msg_lt_trans m1 m2 m3 : msg_lt m1 m2 → msg_lt m2 m3 → msg_lt m1 m3.
Proof. apply ref_lt_trans. Qed.

(** What a predicate passed to the loop may emit. *)
Definition quiet (isConsumable : OrderedMessageChain → StreamMessage → bool * list chain_event) : Prop :=
  ∀ c m, Forall is_unfillable (isConsumable c m).2.

Definition last_msg (lst : option StreamMessage) (ms : list StreamMessage) : option StreamMessage :=
  match last ms with Some m => Some m | None => lst end.

Lemma last_msg_app lst ms ms' : last_msg lst (ms ++ ms') = last_msg (last_msg lst ms) ms'.
Proof. unfold last_msg. rewrite last_app. by destruct (last ms'). Qed.

Lemma last_msg_cons lst m ms : last_msg lst (m :: ms) = last_msg (Some m) ms.
Proof. apply (last_msg_app lst [m]). Qed.

(** Every message of [taken] was consumable when the one before it was the last. *)
Fixpoint taken_in_turn (ok : option StreamMessage → StreamMessage → Prop) (lst : option StreamMessage)
    (taken : list StreamMessage) : Prop :=
  match taken with
  | [] => True
  | m :: taken => ok lst m ∧ taken_in_turn ok (Some m) taken
  end.

Definition consumable (isC : OrderedMessageChain → StreamMessage → bool * list chain_event)
    (lst : option StreamMessage) (m : StreamMessage) : Prop :=
  ∃ c, lastOrderedMsg c = lst ∧ (isC c m).1 = true.

(** The gap that is left when the messages [taken] have been consumed. *)
Definition gap_after (gap : option Gap) (taken : list StreamMessage) : option Gap :=
  match gap with
  | Some g => if bool_decide (gap_to g ∈ taken) then None else Some g
  | None => None
  end.

Definition gap_pending (gap : option Gap) (pending : list StreamMessage) : Prop :=
  ∀ g, gap = Some g → gap_to g ∈ pending.

Lemma sorted_same_ref pending m1 m2 :
  StronglySorted msg_lt pending → m1 ∈ pending → m2 ∈ pending →
  getMessageRef m1 = getMessageRef m2 → m1 = m2.
Proof.
  intros Hs [i Hi]%list_elem_of_lookup [j Hj]%list_elem_of_lookup Heq.
  destruct (decide (i = j)) as [->|Hij]; [congruence|].
  assert (msg_lt m1 m2 ∨ msg_lt m2 m1) as [H|H].
  { destruct (decide (i < j)); [left; eapply (StronglySorted_nth _ _ i j); eauto|].
    right. eapply (StronglySorted_nth _ _ j i); eauto. lia. }
  all: unfold msg_lt in H; rewrite Heq in H; by destruct (ref_lt_irrefl _ H).
Qed.

Lemma checkGapResolved_spec next rest gap ab :
  StronglySorted msg_lt (next :: rest) → gap_pending gap (next :: rest) →
  checkGapResolved (MkChain (Some next) gap rest ab) =
    (MkChain (Some next) (gap_after gap [next]) rest ab,
     match gap, gap_after gap [next] with
     | Some _, None => if ab then [] else [GapResolved]
     | _, _ => []
     end).
Proof.
  intros Hs Hg. unfold checkGapResolved, gap_after, emit. simpl. destruct gap as [g|]; [|done].
  destruct (areEqualRefs _ _) eqn:Heq.
  - apply areEqualRefs_spec in Heq.
    assert (next = gap_to g) as -> by (eapply sorted_same_ref; eauto; left).
    by rewrite bool_decide_eq_true_2 by left.
  - rewrite bool_decide_eq_false_2; [done|].
    intros Hin%list_elem_of_singleton. rewrite Hin in Heq.
    assert (areEqualRefs (getMessageRef next) (getMessageRef next) = true) by by apply areEqualRefs_spec.
    congruence.
Qed.

Lemma gap_after_cons gap next taken :
  gap_after (gap_after gap [next]) taken = gap_after gap (next :: taken).
Proof.
  destruct gap as [g|]; [|done]. simpl.
  destruct (decide (gap_to g = next)) as [<-|Hn].
  - by rewrite !bool_decide_eq_true_2 by left.
  - rewrite bool_decide_eq_false_2 by by intros ?%list_elem_of_singleton. simpl.
    apply (f_equal (λ b : bool, if b then None else Some g)). apply bool_decide_ext. set_solver.
Qed.

Lemma gap_pending_after gap next rest :
  gap_pending gap (next :: rest) → gap_pending (gap_after gap [next]) rest.
Proof.
  intros Hg g' Heq. destruct gap as [g|]; [|done]. simpl in Heq.
  case_bool_decide as Hn; [done|]. injection Heq as ->. specialize (Hg _ eq_refl).
  apply elem_of_cons in Hg as [?|?]; [|done]. destruct Hn. by apply list_elem_of_singleton.
Qed.

Lemma consume_loop_spec isC pending c c' es :
  quiet isC → pendingMsgs c = pending → StronglySorted msg_lt pending →
  gap_pending (currentGap c) pending →
  consume_loop isC pending c = (c', es) →
  ∃ taken,
    pending = taken ++ pendingMsgs c' ∧ oc_aborted c' = oc_aborted c
    ∧ lastOrderedMsg c' = (last_msg (lastOrderedMsg c) taken)
    ∧ currentGap c' = gap_after (currentGap c) taken
    ∧ (oc_aborted c = false →
       delivered es = taken ∧ gap_protocol (currentGap c) es = Some (currentGap c'))
    ∧ (∀ m, head (pendingMsgs c') = Some m → (isC c' m).1 = false)
    ∧ taken_in_turn (consumable isC) (lastOrderedMsg c) taken.
Proof.
  intros Hq. revert c c' es. induction pending as [|next rest IH]; intros [lst gap p ab] c' es Hp Hs Hg Hrun;
    cbn [pendingMsgs currentGap lastOrderedMsg oc_aborted] in *; subst p; simpl in Hrun.
  { injection Hrun as <- <-. exists []. simpl. split_and!; try done. by destruct gap. }
  pose proof (Hq (MkChain lst gap (next :: rest) ab) next) as Hqn.
  destruct (isC _ next) as [ok e1] eqn:Hok. simpl in Hqn. destruct (unfillable_events _ Hqn) as [Hd1 Hg1].
  destruct ok.
  2:{ injection Hrun as <- <-. exists []. simpl. split_and!; try done.
      - by destruct gap.
      - intros m [= <-]. by rewrite Hok. }
  rewrite (checkGapResolved_spec _ _ _ _ Hs Hg) in Hrun.
  destruct (consume_loop isC rest _) as [c3 e3] eqn:Hloop. injection Hrun as <- <-.
  edestruct (λ H1 H2 H3, IH _ _ _ H1 H2 H3 Hloop)
    as (taken & Hrest & Hab & Hlast & Hgap & Hev & Hstop & Hturn);
    [done|by apply StronglySorted_inv in Hs as [? _]|by apply gap_pending_after|].
  cbn [pendingMsgs currentGap lastOrderedMsg oc_aborted] in *.
  exists (next :: taken). split_and!; [by rewrite Hrest at 1|done| | | |done|].
  - by rewrite Hlast, last_msg_cons.
  - by rewrite Hgap, gap_after_cons.
  - intros ->. destruct (Hev eq_refl) as [Hdel Hprot]. unfold emit. cbn [oc_aborted].
    set (e2 := match gap with Some _ => _ | None => _ end).
    assert (delivered e2 = [] ∧ gap_protocol gap e2 = Some (gap_after gap [next])) as [Hd2 Hg2].
    { subst e2. destruct gap as [g|]; simpl; [|done]. by case_bool_decide. }
    rewrite !delivered_app, Hd1, Hd2, Hdel. split; [done|].
    rewrite !gap_protocol_app, Hg1. simpl. by rewrite gap_protocol_app, Hg2.
  - split; [|done]. eexists (MkChain _ _ _ _). split; [done|]. by rewrite Hok.
Qed.

(** * The invariant of the chain *)

(** The open gap ends at a pending message, which names a previous one, and starts at a
    message that was delivered, the last one or an earlier. *)
Definition gap_ok (c : OrderedMessageChain) : Prop :=
  ∀ g, currentGap c = Some g →
    gap_to g ∈ pendingMsgs c ∧
    ∃ f l p, gap_from g = Some f ∧ lastOrderedMsg c = Some l ∧ (f = l ∨ msg_lt f l)
      ∧ prevMsgRef (gap_to g) = Some p.

Definition all_later (lst : option StreamMessage) (pending : list StreamMessage) : Prop :=
  ∀ l m, lst = Some l → m ∈ pending → msg_lt l m.

(** Between two operations. *)
Record chain_inv (c : OrderedMessageChain) : Prop := {
  ci_sorted : StronglySorted msg_lt (pendingMsgs c);
  ci_later : all_later (lastOrderedMsg c) (pendingMsgs c);
  ci_gap : gap_ok c;
  ci_open : pendingMsgs c ≠ [] → currentGap c ≠ None;
  ci_blocked m : head (pendingMsgs c) = Some m → isNextOrderedMessage c m = false;
}.

Lemma all_later_app lst taken rest :
  StronglySorted msg_lt (taken ++ rest) → all_later lst (taken ++ rest) →
  all_later (last_msg lst taken) rest.
Proof.
  intros Hs Hl l m Heq Hm. unfold last_msg in Heq. destruct (last taken) as [l'|] eqn:Hlast.
  - injection Heq as ->. apply last_Some_elem_of in Hlast. by eapply StronglySorted_app_1_elem_of.
  - apply (Hl l m Heq). apply elem_of_app. by right.
Qed.

Lemma isNext_false c m :
  isNextOrderedMessage c m = false →
  ∃ l p, lastOrderedMsg c = Some l ∧ prevMsgRef m = Some p ∧ p ≠ getMessageRef l.
Proof.
  unfold isNextOrderedMessage. intros H.
  destruct (lastOrderedMsg c) as [l|] eqn:Hl; [|done]. destruct (prevMsgRef m) as [p|] eqn:Hp; [|done].
  exists l, p. split_and!; [done..|]. intros Heq. apply areEqualRefs_spec in Heq. congruence.
Qed.

Lemma checkGapFound_spec c c' es :
  checkGapFound c = (c', es) →
  pendingMsgs c' = pendingMsgs c ∧ lastOrderedMsg c' = lastOrderedMsg c ∧ oc_aborted c' = oc_aborted c
  ∧ delivered es = []
  ∧ currentGap c' = match currentGap c, head (pendingMsgs c) with
                    | None, Some top => Some (MkGap (lastOrderedMsg c) top)
                    | gap, _ => gap
                    end
  ∧ (oc_aborted c = false → gap_protocol (currentGap c) es = Some (currentGap c')).
Proof.
  unfold checkGapFound, heap_peek, heap_isEmpty, emit. destruct c as [lst gap pending ab]. simpl.
  destruct pending as [|top pending]; simpl.
  - intros [= <- <-]. simpl. by destruct gap.
  - destruct gap as [g|]; intros [= <- <-]; simpl; [done|]. by destruct ab.
Qed.

(** What an operation does to a chain whose array is in order. *)
Record consumed (c c' : OrderedMessageChain) (es : list chain_event) (taken : list StreamMessage) : Prop := {
  cs_pending : pendingMsgs c = taken ++ pendingMsgs c';
  cs_aborted : oc_aborted c' = oc_aborted c;
  cs_last : lastOrderedMsg c' = last_msg (lastOrderedMsg c) taken;
  cs_delivered : oc_aborted c = false → delivered es = taken;
  cs_protocol : oc_aborted c = false → gap_protocol (currentGap c) es = Some (currentGap c');
  cs_gap g : currentGap c = Some g → gap_to g ∈ taken ∨ currentGap c' = Some g;
}.

Section consume.
Context (isC : OrderedMessageChain → StreamMessage → bool * list chain_event) (gapCheck : bool).
Context (Hquiet : quiet isC).
Context (Hnext : ∀ c m, (isC c m).1 = false → isNextOrderedMessage c m = false).
Context (Hcheck : gapCheck = true ∨ ∀ c m, (isC c m).1 = true).

Lemma consume_spec c c' es :
  StronglySorted msg_lt (pendingMsgs c) → all_later (lastOrderedMsg c) (pendingMsgs c) → gap_ok c →
  consumePendingOrderedMessages isC gapCheck c = (c', es) →
  chain_inv c' ∧ ∃ taken, consumed c c' es taken ∧
    (∀ m, head (pendingMsgs c') = Some m →
      ∃ c1, lastOrderedMsg c1 = lastOrderedMsg c' ∧ (isC c1 m).1 = false)
    ∧ taken_in_turn (consumable isC) (lastOrderedMsg c) taken.
Proof using Hcheck Hnext Hquiet.
  intros Hs Hl Hg. unfold consumePendingOrderedMessages.
  destruct (consume_loop isC (pendingMsgs c) c) as [c1 e1] eqn:Hloop.
  apply consume_loop_spec in Hloop as (taken & Hp & Hab & Hlast & Hgap & Hev & Hstop & Hturn);
    [|done..|by intros g [? _]%Hg].
  rewrite Hp in Hs, Hl. pose proof (all_later_app _ _ _ Hs Hl) as Hl1. rewrite <-Hlast in Hl1.
  pose proof (StronglySorted_app_1_r _ _ _ Hs) as Hs1.
  assert (Hblk : ∀ m, head (pendingMsgs c1) = Some m → isNextOrderedMessage c1 m = false) by auto.
  assert (Hold : ∀ g, currentGap c1 = Some g → currentGap c = Some g ∧ gap_to g ∈ pendingMsgs c1).
  { intros g. rewrite Hgap. unfold gap_after. destruct (currentGap c) as [g0|] eqn:Hc0; [|done].
    case_bool_decide as Hin; [done|]. intros [= <-]. split; [done|].
    destruct (Hg g0 Hc0) as [Hin' _]. rewrite Hp in Hin'. set_solver. }
  assert (Hg1 : gap_ok c1).
  { intros g [Hc0 Hin]%Hold. split; [done|]. destruct (Hg g Hc0) as (_ & f & l & p & Hf & Hlc & Hfl & Hpr).
    exists f. rewrite Hlast. unfold last_msg. destruct (last taken) as [l'|] eqn:Hl'; [|by exists l, p].
    exists l', p. split_and!; [done..| |done]. right. apply last_Some_elem_of in Hl'.
    assert (msg_lt l l') by (apply (Hl l l' Hlc), elem_of_app; by left).
    destruct Hfl as [->|Hfl]; [done|]. by eapply ref_lt_trans. }
  assert (Hcs : ∀ g, currentGap c = Some g → gap_to g ∈ taken ∨ currentGap c1 = Some g).
  { intros g Hc0. rewrite Hgap, Hc0. simpl. case_bool_decide; auto. }
  destruct gapCheck.
  - destruct (checkGapFound c1) as [c2 e2] eqn:Hfound.
    apply checkGapFound_spec in Hfound as (Hp2 & Hl2 & Hab2 & Hd2 & Hg2 & Hpr2). intros [= <- <-].
    assert (Hnx : ∀ m, isNextOrderedMessage c2 m = isNextOrderedMessage c1 m).
    { intros m. unfold isNextOrderedMessage. by rewrite Hl2. }
    split; [split|exists taken; split; [split|split; [|done]]]; rewrite ?Hp2, ?Hl2, ?Hab2; auto.
    + intros g Hgc2. rewrite Hg2 in Hgc2. destruct (currentGap c1) as [g1|] eqn:Hg1c.
      * injection Hgc2 as <-. destruct (Hg1 g1 Hg1c) as [? Hrest]. rewrite Hp2, Hl2. done.
      * destruct (head (pendingMsgs c1)) as [top|] eqn:Htop; [|done]. injection Hgc2 as <-.
        rewrite Hp2, Hl2. simpl. split; [by apply head_Some_elem_of|].
        destruct (isNext_false _ _ (Hblk _ eq_refl)) as (l & p & Hlc & Hpc & _).
        exists l, l, p. auto.
    + intros Hne. rewrite Hg2. destruct (currentGap c1); [done|].
      by destruct (pendingMsgs c1).
    + intros m Hm. rewrite Hnx. auto.
    + intros Hf. rewrite delivered_app, Hd2, app_nil_r. by apply Hev.
    + intros Hf. rewrite gap_protocol_app, (proj2 (Hev Hf)). simpl. apply Hpr2. congruence.
    + intros g Hc0. destruct (Hcs g Hc0) as [?|Hc1]; [by left|right]. by rewrite Hg2, Hc1.
    + intros m Hm. exists c1. auto.
  - intros [= <- <-]. destruct Hcheck as [?|Hall]; [done|].
    assert (Hnil : pendingMsgs c1 = []).
    { destruct (pendingMsgs c1) as [|m ms]; [done|]. specialize (Hstop m eq_refl). rewrite Hall in Hstop. done. }
    split; [split|exists taken; split; [split|split; [|done]]]; auto; try (by intros Hf; apply Hev).
    intros m. by rewrite Hnil.
Qed.
End consume.

(** * Operations *)

Inductive chain_op :=
  | Add (msg : StreamMessage)
  | ResolveUpTo (to : MessageRef)
  | ResolveAll (gapCheck : bool).

Definition chain_step (c : OrderedMessageChain) (op : chain_op) : OrderedMessageChain * list chain_event :=
  match op with
  | Add msg => addMessage msg c
  | ResolveUpTo to => resolveMessages (Some to) true c
  | ResolveAll gapCheck => resolveMessages None gapCheck c
  end.

Fixpoint chain_run (c : OrderedMessageChain) (ops : list chain_op) : OrderedMessageChain * list chain_event :=
  match ops with
  | [] => (c, [])
  | op :: ops =>
      let '(c1, e1) := chain_step c op in
      let '(c2, e2) := chain_run c1 ops in (c2, e1 ++ e2)
  end.

Lemma chain_inv_new : chain_inv chain_new.
Proof. split; try done. constructor. Qed.

Lemma strictly_sorted pending :
  heap_sorted compare_messages pending → NoDup (getMessageRef <$> pending) →
  StronglySorted msg_lt pending.
Proof.
  induction 1 as [|m pending Hs IH Hm]; [constructor|]. intros [Hnin Hnd]%NoDup_cons.
  constructor; [by apply IH|]. apply Forall_forall. intros x Hx.
  eapply Forall_forall in Hm; [|done].
  destruct (ref_total (getMessageRef m) (getMessageRef x)) as [?|[Heq|?]]; [done| |].
  - destruct Hnin. rewrite Heq. by apply list_elem_of_fmap_2.
  - unfold msg_lt. refs.
Qed.

Lemma strict_sorted pending :
  StronglySorted msg_lt pending →
  heap_sorted compare_messages pending ∧ NoDup (getMessageRef <$> pending).
Proof.
  induction 1 as [|m pending Hs [IHs IHn] Hm]; [split; constructor|]. split.
  - constructor; [done|]. eapply Forall_impl; [done|]. intros x Hx. unfold msg_lt in Hx. refs.
  - simpl. apply NoDup_cons. split; [|done].
    intros (x & Heq & Hx)%list_elem_of_fmap. eapply Forall_forall in Hm; [|done].
    unfold msg_lt in Hm. rewrite Heq in Hm. by destruct (ref_lt_irrefl _ Hm).
Qed.

(** A message is stale when it is not later than the last one, or its reference is pending. *)
Lemma isStaleMessage_spec c msg :
  chain_inv c →
  isStaleMessage c msg = true ↔
    (∃ l, lastOrderedMsg c = Some l ∧ ¬ msg_lt l msg)
    ∨ getMessageRef msg ∈ getMessageRef <$> pendingMsgs c.
Proof.
  intros Hinv. destruct (strict_sorted _ (ci_sorted _ Hinv)) as [Hsort _].
  unfold isStaleMessage. rewrite orb_true_iff, heap_contains_spec, list_elem_of_fmap by first [done|apply _]. f_equiv.
  - destruct (lastOrderedMsg c) as [l|].
    + rewrite Z.leb_le. unfold msg_lt. split; [intros ?; exists l; split; [done|intros ?; refs]|].
      intros (l' & [= <-] & Hn). destruct (decide (compareTo (getMessageRef msg) (getMessageRef l) ≤ 0)%Z); [done|].
      destruct Hn. refs.
    + split; [done|]. by intros (l & ? & _).
  - split; intros (x & H1 & H2).
    + exists x. split; [|done]. symmetry. apply areEqualRefs_spec, Z.eqb_eq, H2.
    + exists x. split; [done|]. apply Z.eqb_eq, areEqualRefs_spec. done.
Qed.

Lemma pushed_ok c msg :
  chain_inv c → isStaleMessage c msg = false →
  StronglySorted msg_lt (heap_push compare_messages (pendingMsgs c) msg)
  ∧ all_later (lastOrderedMsg c) (heap_push compare_messages (pendingMsgs c) msg).
Proof.
  intros Hinv Hst. apply not_true_iff_false in Hst. rewrite isStaleMessage_spec in Hst by done.
  destruct (strict_sorted _ (ci_sorted _ Hinv)) as [Hsort Hnd]. split.
  - apply strictly_sorted; [by apply heap_push_sorted; [apply _|]|].
    rewrite heap_push_perm. simpl. apply NoDup_cons. tauto.
  - intros l m Hl [->|Hm]%elem_of_heap_push; [|by eapply ci_later].
    destruct (ref_total (getMessageRef l) (getMessageRef msg)) as [?|Hge]; [done|].
    destruct Hst. left. exists l. split; [done|]. unfold msg_lt. intros Hlt.
    destruct Hge as [Heq|Hgt]; [rewrite Heq in Hlt; by destruct (ref_lt_irrefl _ Hlt)|refs].
Qed.

Lemma quiet_next : quiet (λ c m, (isNextOrderedMessage c m, [])).
Proof. intros c m. constructor. Qed.

Lemma quiet_resolvable to : quiet (resolvable to).
Proof.
  intros c m. unfold resolvable, emit. repeat case_match; repeat constructor.
Qed.

Lemma resolvable_next to c m : (resolvable to c m).1 = false → isNextOrderedMessage c m = false.
Proof. unfold resolvable. by case_match. Qed.

Lemma resolvable_all c m : (resolvable None c m).1 = true.
Proof. unfold resolvable. by case_match. Qed.

(** A fresh message is pending, and everything in order is delivered. *)
Lemma addMessage_spec c msg c' es :
  chain_inv c → addMessage msg c = (c', es) →
  chain_inv c' ∧ oc_aborted c' = oc_aborted c ∧
  if isStaleMessage c msg then c' = c ∧ es = []
  else ∃ taken, consumed
    (MkChain (lastOrderedMsg c) (currentGap c) (heap_push compare_messages (pendingMsgs c) msg) (oc_aborted c))
    c' es taken ∧ taken_in_turn (consumable (λ c m, (isNextOrderedMessage c m, []))) (lastOrderedMsg c) taken.
Proof.
  intros Hinv. unfold addMessage. destruct (isStaleMessage c msg) eqn:Hst; [by intros [= <- <-]|].
  destruct (pushed_ok _ _ Hinv Hst) as [Hs Hl]. intros Hrun.
  eapply consume_spec in Hrun as (Hinv' & taken & Hcs & _ & Hturn);
    [|apply quiet_next|done|by left|done|done|].
  - split_and!; [done|by apply (cs_aborted _ _ _ _ Hcs)|]. by exists taken.
  - intros g (Hin & Hrest)%(ci_gap _ Hinv). split; [|done]. apply elem_of_heap_push. by right.
Qed.

Lemma resolveMessages_spec c to gapCheck c' es :
  chain_inv c → (gapCheck = true ∨ to = None) → resolveMessages to gapCheck c = (c', es) →
  chain_inv c' ∧ ∃ taken, consumed c c' es taken ∧
    ∀ m, head (pendingMsgs c') = Some m →
      ∃ to', to = Some to' ∧ ref_lt to' (getMessageRef m).
Proof.
  intros Hinv Hok Hrun.
  eapply consume_spec in Hrun as (Hinv' & taken & Hcs & Hstop & _);
    [|apply quiet_resolvable|apply resolvable_next| |apply Hinv|apply Hinv|apply Hinv].
  - split; [done|]. exists taken. split; [done|]. intros m Hm. destruct (Hstop m Hm) as (c1 & _ & Hc1).
    unfold resolvable in Hc1. case_match; [done|]. destruct to as [to|]; [|done]. exists to.
    split; [done|]. destruct (Z.leb_spec (compareTo (getMessageRef m) to) 0); [done|]. refs.
  - destruct Hok as [?| ->]; [by left|right]. apply resolvable_all.
Qed.

(** What an operation delivers and leaves, from the array it worked on. *)
Lemma consumed_facts c c0 c' es taken :
  consumed c0 c' es taken → StronglySorted msg_lt (pendingMsgs c0) →
  all_later (lastOrderedMsg c) (pendingMsgs c0) → oc_aborted c0 = oc_aborted c →
  lastOrderedMsg c0 = lastOrderedMsg c → currentGap c0 = currentGap c → oc_aborted c = false →
  gap_protocol (currentGap c) es = Some (currentGap c')
  ∧ StronglySorted msg_lt (delivered es) ∧ all_later (lastOrderedMsg c) (delivered es)
  ∧ lastOrderedMsg c' = (last_msg (lastOrderedMsg c) (delivered es))
  ∧ ∀ m, m ∈ delivered es ++ pendingMsgs c' ↔ m ∈ pendingMsgs c0.
Proof.
  intros [Hp Hab Hlast Hdel Hpr _] Hs Hl Hab0 Hlast0 Hgap0 Hf.
  rewrite Hab0 in *. rewrite Hlast0 in *. rewrite Hgap0 in *. rewrite (Hdel Hf), Hp in *.
  split_and!; [by apply Hpr|by eapply StronglySorted_app_1_l| |done|done].
  intros l m Hlm Hm. apply (Hl l m Hlm), elem_of_app. by left.
Qed.

(** What holds of every operation. *)
Lemma chain_step_spec c op c' es :
  chain_inv c → chain_step c op = (c', es) →
  chain_inv c' ∧ oc_aborted c' = oc_aborted c
  ∧ (oc_aborted c = false →
     gap_protocol (currentGap c) es = Some (currentGap c')
     ∧ StronglySorted msg_lt (delivered es)
     ∧ all_later (lastOrderedMsg c) (delivered es)
     ∧ lastOrderedMsg c' = (last_msg (lastOrderedMsg c) (delivered es))
     ∧ (∀ m, m ∈ delivered es ++ pendingMsgs c' → m ∈ pendingMsgs c ∨ op = Add m)
     ∧ (∀ m, m ∈ pendingMsgs c ∨ op = Add m ∧ isStaleMessage c m = false →
        m ∈ delivered es ++ pendingMsgs c')).
Proof.
  intros Hinv Hstep.
  assert (Hres : ∀ to gapCheck, gapCheck = true ∨ to = None → (∀ m, op ≠ Add m) →
    resolveMessages to gapCheck c = (c', es) → chain_inv c' ∧ oc_aborted c' = oc_aborted c
    ∧ ∃ taken, consumed c c' es taken).
  { intros to gapCheck Hok Hop Hr. apply resolveMessages_spec in Hr as (? & taken & Hcs & _); [|done..].
    split_and!; [done|apply Hcs|by exists taken]. }
  destruct op as [msg|to|gapCheck]; simpl in Hstep.
  - apply addMessage_spec in Hstep as (Hinv' & Hab & Hcase); [|done]. split_and!; [done..|]. intros Hf.
    destruct (isStaleMessage c msg) eqn:Hst.
    { destruct Hcase as [-> ->]. simpl.
      split_and!; [done|constructor|by intros l m _ ?%not_elem_of_nil|done|by left|].
      intros m [?|[[= <-] ?]]; [done|congruence]. }
    destruct Hcase as (taken & Hcs & _). destruct (pushed_ok _ _ Hinv Hst) as [Hs Hl].
    destruct (consumed_facts c _ _ _ _ Hcs Hs Hl eq_refl eq_refl eq_refl Hf) as (H1 & H2 & H3 & H4 & H5).
    split_and!; [done..| |]; intros m; rewrite H5; simpl; rewrite elem_of_heap_push;
      [intros [->|?]; auto|intros [?|[[= <-] _]]; auto].
  - destruct (Hres _ _ (or_introl eq_refl) ltac:(done) Hstep) as (Hinv' & Hab & taken & Hcs).
    split_and!; [done..|]. intros Hf. edestruct consumed_facts as (H1 & H2 & H3 & H4 & H5);
      [exact Hcs|by apply ci_sorted|by apply ci_later|done..|].
    split_and!; [done..| |]; intros m; rewrite H5; [auto|by intros [?|[? _]]].
  - destruct (Hres _ _ (or_intror eq_refl) ltac:(done) Hstep) as (Hinv' & Hab & taken & Hcs).
    split_and!; [done..|]. intros Hf. edestruct consumed_facts as (H1 & H2 & H3 & H4 & H5);
      [exact Hcs|by apply ci_sorted|by apply ci_later|done..|].
    split_and!; [done..| |]; intros m; rewrite H5; [auto|by intros [?|[? _]]].
Qed.

(** * Runs *)

Lemma sorted_app_later lst ms ms' :
  StronglySorted msg_lt ms → all_later lst ms → StronglySorted msg_lt ms' →
  all_later (last_msg lst ms) ms' →
  StronglySorted msg_lt (ms ++ ms') ∧ all_later lst (ms ++ ms').
Proof.
  intros Hs Hl Hs' Hl'.
  assert (Hx : ∀ m, m ∈ ms' → (∀ x, x ∈ ms → msg_lt x m) ∧ (∀ l, lst = Some l → msg_lt l m)).
  { intros m Hm. unfold last_msg in Hl'. destruct (last ms) as [z|] eqn:Hz.
    - pose proof (Hl' z m eq_refl Hm) as Hzm. apply last_Some in Hz as [ms0 ->]. split.
      + intros x [Hx| ->%list_elem_of_singleton]%elem_of_app; [|done].
        eapply msg_lt_trans; [|done]. eapply StronglySorted_app_1_elem_of; [exact Hs|done|by left].
      + intros l Hlst. eapply msg_lt_trans; [|done]. apply (Hl l z Hlst). set_solver.
    - apply last_None in Hz as ->. split; [by intros ? ?%not_elem_of_nil|]. intros l Hlst. by apply Hl'. }
  split; [apply StronglySorted_app_2; [|done..]; intros x y Hxm Hy; by apply (proj1 (Hx y Hy))|].
  intros l m Hlst [Hm|Hm]%elem_of_app; [by apply (Hl l m)|by apply (proj2 (Hx m Hm))].
Qed.

Lemma chain_run_spec ops c c' es :
  chain_inv c → oc_aborted c = false → chain_run c ops = (c', es) →
  chain_inv c' ∧ oc_aborted c' = false
  ∧ gap_protocol (currentGap c) es = Some (currentGap c')
  ∧ StronglySorted msg_lt (delivered es) ∧ all_later (lastOrderedMsg c) (delivered es)
  ∧ lastOrderedMsg c' = last_msg (lastOrderedMsg c) (delivered es)
  ∧ (∀ m, m ∈ delivered es ++ pendingMsgs c' → m ∈ pendingMsgs c ∨ Add m ∈ ops)
  ∧ (∀ m, m ∈ pendingMsgs c → m ∈ delivered es ++ pendingMsgs c').
Proof.
  revert c es. induction ops as [|op ops IH]; intros c es Hinv Hab Hrun; simpl in Hrun.
  { injection Hrun as <- <-. simpl.
    split_and!; [done|done|done|constructor|by intros l m _ ?%not_elem_of_nil|done|by left|done]. }
  destruct (chain_step c op) as [c1 e1] eqn:Hstep. destruct (chain_run c1 ops) as [c2 e2] eqn:Hr.
  injection Hrun as <- <-.
  apply chain_step_spec in Hstep as (Hinv1 & Hab1 & Hfacts); [|done].
  destruct (Hfacts Hab) as (Hg1 & Hs1 & Hl1 & Hlast1 & Hin1 & Hkeep1). rewrite Hab in Hab1.
  destruct (IH _ _ Hinv1 Hab1 Hr) as (Hinv2 & Hab2 & Hg2 & Hs2 & Hl2 & Hlast2 & Hin2 & Hkeep2).
  rewrite Hlast1 in Hl2, Hlast2. rewrite delivered_app.
  destruct (sorted_app_later _ _ _ Hs1 Hl1 Hs2 Hl2) as [Hs Hl].
  split_and!; [done..| |done|done| | |].
  - by rewrite gap_protocol_app, Hg1.
  - by rewrite last_msg_app.
  - intros m Hm. rewrite <-app_assoc in Hm. apply elem_of_app in Hm as [Hm|[Hm|Hm]%Hin2].
    + destruct (Hin1 m) as [?| ->]; [by apply elem_of_app; left|by left|right; by left].
    + destruct (Hin1 m) as [?| ->]; [by apply elem_of_app; right|by left|right; by left].
    + right. by right.
  - intros m Hm. rewrite <-app_assoc. specialize (Hkeep1 m (or_introl Hm)).
    apply elem_of_app in Hkeep1 as [?|Hm1]; apply elem_of_app; [by left|right; by apply Hkeep2].
Qed.

(** Whatever messages arrive, in whatever order, and however the gaps are given up, the
    messages a chain delivers are in strictly ascending order of their references, so none
    is delivered twice, and each of them was added. *)
Theorem chain_delivers_in_order ops :
  let '(_, es) := chain_run chain_new ops in
  StronglySorted msg_lt (delivered es) ∧ Forall (λ m, Add m ∈ ops) (delivered es).
Proof.
  destruct (chain_run chain_new ops) as [c es] eqn:Hrun.
  apply chain_run_spec in Hrun as (_ & _ & _ & Hs & _ & _ & Hin & _); [|apply chain_inv_new|done].
  split; [done|]. apply Forall_forall. intros m Hm. destruct (Hin m) as [?%not_elem_of_nil|?]; [|done..].
  apply elem_of_app. by left.
Qed.

Lemma gap_none_iff c : chain_inv c → currentGap c = None ↔ pendingMsgs c = [].
Proof.
  intros Hinv. split.
  - intros Hn. destruct (pendingMsgs c) eqn:Hp; [done|]. by destruct (ci_open _ Hinv); [rewrite Hp|].
  - intros Hp. destruct (currentGap c) as [g|] eqn:Hc; [|done].
    destruct (ci_gap _ Hinv g Hc) as [Hin _]. rewrite Hp in Hin. by apply not_elem_of_nil in Hin.
Qed.

Lemma open_gap_stays g es open :
  GapResolved ∉ es → gap_protocol (Some g) es = Some open → open = Some g.
Proof.
  induction es as [|[] es IH]; intros Hnin Hpr; simpl in Hpr; try congruence;
    [|by destruct Hnin; left|]; apply IH; set_solver.
Qed.

(** The events of a chain keep the protocol its comment promises: a gap is found only
    when no gap is open, and resolved before the next one is found; the gap that is open ends at a message
    that waits, names a previous message (which the resend request uses) and is not the next one; and
    messages wait only while a gap is open. *)
Theorem chain_gap_protocol ops :
  let '(c, es) := chain_run chain_new ops in
  gap_protocol None es = Some (currentGap c) ∧ gap_ok c
  ∧ (currentGap c = None ↔ pendingMsgs c = [])
  ∧ match head (pendingMsgs c) with Some m => isNextOrderedMessage c m = false | None => True end.
Proof.
  destruct (chain_run chain_new ops) as [c es] eqn:Hrun.
  apply chain_run_spec in Hrun as (Hinv & _ & Hg & _); [|apply chain_inv_new|done].
  split_and!; [done|by apply ci_gap|by apply gap_none_iff|].
  case_match; [|done]. by apply ci_blocked.
Qed.

Lemma resolve_up_to_gone c g c1 e1 :
  chain_inv c → currentGap c = Some g →
  resolveMessages (Some (getMessageRef (gap_to g))) true c = (c1, e1) → gap_to g ∉ pendingMsgs c1.
Proof.
  intros Hinv Hc H1. apply resolveMessages_spec in H1 as (Hinv1 & taken1 & Hcs1 & Hstop1); [|done|by left].
  intros Hin1. pose proof (ci_sorted _ Hinv1) as Hs1.
  destruct (pendingMsgs c1) as [|m ms] eqn:Hp1; [by apply not_elem_of_nil in Hin1|].
  destruct (Hstop1 m eq_refl) as (to & [= <-] & Hlt). apply StronglySorted_inv in Hs1 as [_ Hm].
  apply elem_of_cons in Hin1 as [Heq|Hin1]; [rewrite Heq in Hlt; by destruct (ref_lt_irrefl _ Hlt)|].
  eapply Forall_forall in Hm; [|done]. destruct (ref_lt_irrefl _ (ref_lt_trans _ _ _ Hlt Hm)).
Qed.

Lemma resolve_all_empties c gapCheck c2 e2 :
  chain_inv c → resolveMessages None gapCheck c = (c2, e2) → pendingMsgs c2 = [].
Proof.
  intros Hinv H2. apply resolveMessages_spec in H2 as (_ & taken2 & _ & Hstop2); [|done|by right].
  destruct (pendingMsgs c2) as [|m ms]; [done|]. by destruct (Hstop2 m eq_refl) as (to & ? & _).
Qed.

(** An open gap that is not the open one any more was resolved. *)
Lemma gap_gone_resolved c g op c' es :
  chain_inv c → oc_aborted c = false → currentGap c = Some g → chain_step c op = (c', es) →
  currentGap c' ≠ Some g → GapResolved ∈ es.
Proof.
  intros Hinv Hab Hc Hstep Hne. apply chain_step_spec in Hstep as (_ & _ & Hf); [|done].
  destruct (Hf Hab) as (Hpr & _). rewrite Hc in Hpr.
  destruct (decide (GapResolved ∈ es)) as [?|Hn]; [done|]. destruct Hne. by eapply open_gap_stays.
Qed.

Lemma gap_not_pending c g : chain_inv c → gap_to g ∉ pendingMsgs c → currentGap c ≠ Some g.
Proof. intros Hinv Hn Hc. by destruct (ci_gap _ Hinv g Hc). Qed.

(** Giving up a gap ends it.  Resolving up to the end of the open gap delivers the
    messages up to there, so the gap is no longer the open one and [gapResolved] is emitted; resolving
    everything delivers all pending messages. *)
Theorem resolve_ends_gap c g c1 e1 c2 e2 :
  chain_inv c → oc_aborted c = false → currentGap c = Some g →
  resolveMessages (Some (getMessageRef (gap_to g))) true c = (c1, e1) →
  resolveMessages None false c = (c2, e2) →
  (gap_to g ∈ delivered e1 ∧ GapResolved ∈ e1 ∧ currentGap c1 ≠ Some g)
  ∧ (delivered e2 = pendingMsgs c ∧ pendingMsgs c2 = [] ∧ currentGap c2 = None).
Proof.
  intros Hinv Hab Hc H1 H2. pose proof (resolve_up_to_gone _ _ _ _ Hinv Hc H1) as Hgone.
  pose proof (resolve_all_empties _ _ _ _ Hinv H2) as Hnil.
  destruct (chain_step_spec c (ResolveUpTo _) c1 e1 Hinv H1) as (Hinv1 & _ & Hf1).
  destruct (Hf1 Hab) as (_ & _ & _ & _ & _ & Hkeep).
  apply resolveMessages_spec in H2 as (Hinv2 & taken & Hcs & _); [|done|by right].
  assert (Hne : currentGap c1 ≠ Some g) by by apply gap_not_pending.
  split; split_and!; [|by eapply (gap_gone_resolved c g (ResolveUpTo _))|done| |done|by apply gap_none_iff].
  - destruct (ci_gap _ Hinv g Hc) as [Hin _]. specialize (Hkeep _ (or_introl Hin)).
    by apply elem_of_app in Hkeep as [?|?].
  - by rewrite (cs_delivered _ _ _ _ Hcs Hab), (cs_pending _ _ _ _ Hcs), Hnil, app_nil_r.
Qed.

(** * Messages of one publisher

    A publisher names in each message the one before it. *)

Fixpoint linked (ms : list StreamMessage) : Prop :=
  match ms with
  | m1 :: (m2 :: _) as ms' => prevMsgRef m2 = Some (getMessageRef m1) ∧ msg_lt m1 m2 ∧ linked ms'
  | _ => True
  end.

Lemma linked_lookup ms i m1 m2 :
  linked ms → ms !! i = Some m1 → ms !! S i = Some m2 → prevMsgRef m2 = Some (getMessageRef m1).
Proof.
  revert i. induction ms as [|x [|y ms] IH]; intros i; [done|by destruct i|].
  intros (Hp & Hlt & Hl). destruct i as [|i]; [by intros [= <-] [= <-]|]. apply (IH i Hl).
Qed.

Lemma linked_sorted ms : linked ms → StronglySorted msg_lt ms.
Proof.
  intros Hl. apply Sorted_StronglySorted; [intros x y z; apply msg_lt_trans|].
  induction ms as [|x [|y ms] IH]; [constructor|repeat constructor|].
  destruct Hl as (_ & Hlt & Hl). constructor; [by apply IH|by constructor].
Qed.

Lemma linked_index ms i j m1 m2 :
  linked ms → ms !! i = Some m1 → ms !! j = Some m2 → getMessageRef m1 = getMessageRef m2 → i = j.
Proof.
  intros Hl Hi Hj Heq. pose proof (linked_sorted _ Hl) as Hs.
  destruct (Nat.lt_trichotomy i j) as [Hlt|[?|Hlt]]; [|done|]; exfalso.
  - pose proof (StronglySorted_nth _ _ _ _ _ _ Hs Hi Hj Hlt) as H. unfold msg_lt in H.
    rewrite Heq in H. by apply ref_lt_irrefl in H.
  - pose proof (StronglySorted_nth _ _ _ _ _ _ Hs Hj Hi Hlt) as H. unfold msg_lt in H.
    rewrite Heq in H. by apply ref_lt_irrefl in H.
Qed.

(** What can be delivered after a message of the chain is its successor. *)
Lemma linked_successor ms i l m c :
  linked ms → ms !! i = Some l → m ∈ ms → msg_lt l m →
  lastOrderedMsg c = Some l → isNextOrderedMessage c m = true ↔ ms !! S i = Some m.
Proof.
  intros Hl Hi [j Hj]%list_elem_of_lookup Hlt Hlast.
  assert (Hij : i < j).
  { destruct (Nat.lt_trichotomy i j) as [?|[->|Hji]]; [done| |]; exfalso.
    - simplify_eq. by apply ref_lt_irrefl in Hlt.
    - pose proof (StronglySorted_nth _ _ _ _ _ _ (linked_sorted _ Hl) Hj Hi Hji) as H.
      exact (ref_lt_irrefl _ (ref_lt_trans _ _ _ Hlt H)). }
  destruct j as [|j]; [lia|].
  destruct (lookup_lt_is_Some_2 ms j) as [p Hp]; [apply lookup_lt_Some in Hj; lia|].
  pose proof (linked_lookup _ _ _ _ Hl Hp Hj) as Hprev.
  unfold isNextOrderedMessage. rewrite Hlast, Hprev, areEqualRefs_spec. split.
  - intros Heq. by rewrite (linked_index _ _ _ _ _ Hl Hi Hp (eq_sym Heq)).
  - intros Hm. assert (S j = S i) as [= ->] by by eapply (linked_index ms).
    by simplify_eq.
Qed.

Section complete.
Context (L : list StreamMessage) (Hlinked : linked L).

(** The first [S i] messages of the publisher have been delivered. *)
Definition delivered_prefix (c : OrderedMessageChain) (i : nat) : Prop :=
  ∃ l, L !! i = Some l ∧ lastOrderedMsg c = Some l ∧ ∀ m, m ∈ pendingMsgs c → m ∈ L.

Lemma taken_prefix i l taken :
  L !! i = Some l → StronglySorted msg_lt (l :: taken) → (∀ m, m ∈ taken → m ∈ L) →
  taken_in_turn (consumable (λ c m, (isNextOrderedMessage c m, []))) (Some l) taken →
  take (S i) L ++ taken = take (S i + length taken) L
  ∧ ∃ l', L !! (i + length taken) = Some l' ∧ last_msg (Some l) taken = Some l'.
Proof using Hlinked.
  revert i l. induction taken as [|m taken IH]; intros i l Hi Hs Hin Hturn; simpl.
  { rewrite app_nil_r, !Nat.add_0_r. split; [done|by exists l]. }
  destruct Hturn as [(c & Hc & Hok) Hturn]. simpl in Hok.
  apply StronglySorted_inv in Hs as [Hs Hl]. apply Forall_cons in Hl as [Hlm _].
  apply (linked_successor L i l) in Hok; [|done|done|apply Hin; by left|done|done].
  destruct (IH (S i) m Hok Hs) as [Htake (l' & Hl' & Hlast)]; [intros; apply Hin; by right|done|].
  split; [|by exists l'; rewrite <-Nat.add_succ_comm, last_msg_cons].
  trans (take (S (S i) + length taken) L); [rewrite <-Htake|f_equal; lia].
  rewrite (take_S_r L (S i) m Hok), <-app_assoc. done.
Qed.

Lemma add_prefix c i m c' es :
  chain_inv c → oc_aborted c = false → delivered_prefix c i → m ∈ L →
  addMessage m c = (c', es) →
  ∃ j, delivered_prefix c' j ∧ take (S i) L ++ delivered es = take (S j) L
    ∧ m ∈ take (S j) L ++ pendingMsgs c'.
Proof using Hlinked.
  intros Hinv Hab (l & Hi & Hlast & Hp) Hm Hrun.
  pose proof (addMessage_spec _ _ _ _ Hinv Hrun) as (Hinv' & Hab' & Hcase).
  destruct (isStaleMessage c m) eqn:Hst.
  - destruct Hcase as [-> ->]. exists i. simpl. rewrite app_nil_r.
    split_and!; [by exists l|done|]. apply isStaleMessage_spec in Hst; [|done].
    apply list_elem_of_lookup in Hm as [j Hj]. apply elem_of_app.
    destruct Hst as [(l' & Hl' & Hnlt)|(m' & Heq & Hm')%list_elem_of_fmap].
    + left. rewrite Hlast in Hl'. injection Hl' as <-.
      apply list_elem_of_lookup. exists j. apply lookup_take_Some. split; [done|].
      destruct (decide (j < S i)); [done|]. destruct Hnlt.
      apply (StronglySorted_nth _ L i j); [by apply linked_sorted|done..|lia].
    + right. destruct (proj1 (list_elem_of_lookup _ _) (Hp m' Hm')) as [k Hk].
      assert (j = k) as -> by by eapply (linked_index L). by simplify_eq.
  - destruct Hcase as (taken & Hcs & Hturn). destruct (pushed_ok _ _ Hinv Hst) as [Hs Hlater].
    pose proof (cs_pending _ _ _ _ Hcs) as Hpend. cbn [pendingMsgs] in Hpend.
    assert (HinL : ∀ x, x ∈ taken ++ pendingMsgs c' → x ∈ L).
    { intros x. rewrite <-Hpend, elem_of_heap_push. intros [->|?]; auto. }
    rewrite Hlast in Hturn. rewrite Hpend in Hs, Hlater.
    destruct (taken_prefix i l taken Hi) as [Htake (l' & Hl' & Hlast')]; [| |done|].
    + constructor; [by eapply StronglySorted_app_1_l|]. apply Forall_forall. intros x Hx.
      apply (Hlater l x Hlast), elem_of_app. by left.
    + intros x Hx. apply HinL, elem_of_app. by left.
    + exists (i + length taken). split_and!.
      * exists l'. split_and!; [done|by rewrite (cs_last _ _ _ _ Hcs); simpl; rewrite Hlast|].
        intros x Hx. apply HinL, elem_of_app. by right.
      * rewrite (cs_delivered _ _ _ _ Hcs Hab). done.
      * assert (Hmin : m ∈ taken ++ pendingMsgs c') by (rewrite <-Hpend; apply elem_of_heap_push; by left).
        apply elem_of_app. apply elem_of_app in Hmin as [?|?]; [left|by right].
        change (S (i + length taken)) with (S i + length taken). rewrite <-Htake. apply elem_of_app. by right.
Qed.

Lemma adds_prefix arrivals c i c' es :
  chain_inv c → oc_aborted c = false → delivered_prefix c i → (∀ m, m ∈ arrivals → m ∈ L) →
  chain_run c (Add <$> arrivals) = (c', es) →
  ∃ j, chain_inv c' ∧ delivered_prefix c' j ∧ take (S i) L ++ delivered es = take (S j) L
    ∧ ∀ m, m ∈ arrivals ∨ m ∈ take (S i) L ++ pendingMsgs c → m ∈ take (S j) L ++ pendingMsgs c'.
Proof using Hlinked.
  revert c i es. induction arrivals as [|m arrivals IH]; intros c i es Hinv Hab Hpre Hin Hrun;
    rewrite ?fmap_cons in Hrun; cbn [chain_run chain_step] in Hrun.
  { injection Hrun as <- <-. exists i. simpl. rewrite app_nil_r. split_and!; [done..|].
    by intros m [?%not_elem_of_nil|?]. }
  destruct (addMessage m c) as [c1 e1] eqn:Hadd.
  destruct (chain_run c1 (Add <$> arrivals)) as [c2 e2] eqn:Hr. injection Hrun as <- <-.
  destruct (add_prefix _ _ _ _ _ Hinv Hab Hpre (Hin m ltac:(left)) Hadd) as (j & Hpre1 & Htake1 & Hm1).
  pose proof (chain_step_spec c (Add m) c1 e1 Hinv Hadd) as (Hinv1 & Hab1 & Hfacts).
  destruct (Hfacts Hab) as (_ & _ & _ & _ & _ & Hkeep).
  destruct (IH c1 j e2 Hinv1 ltac:(congruence) Hpre1) as (k & Hinv2 & Hpre2 & Htake2 & Hall);
    [intros x Hx; apply Hin; by right|done|].
  exists k. split_and!; [done..|by rewrite delivered_app, app_assoc, Htake1|].
  intros x [[->|Hx]%elem_of_cons|[Hx|Hx]%elem_of_app]; apply Hall; [by right|by left| |].
  - right. rewrite <-Htake1, !elem_of_app. by left; left.
  - right. rewrite <-Htake1. specialize (Hkeep x (or_introl Hx)). set_solver.
Qed.

(** Nothing is left waiting when everything has arrived. *)
Lemma prefix_complete c j :
  chain_inv c → delivered_prefix c j → (∀ m, m ∈ L → m ∈ take (S j) L ++ pendingMsgs c) →
  pendingMsgs c = [] ∧ take (S j) L = L.
Proof using Hlinked.
  intros Hinv (l & Hj & Hlast & Hp) Hall.
  assert (Hnext : ∀ x, L !! S j = Some x → x ∈ pendingMsgs c).
  { intros x Hx. assert (x ∈ L) as Hin by by eapply list_elem_of_lookup_2.
    destruct (proj1 (elem_of_app _ _ _) (Hall x Hin)) as [[k [Hk ?]%lookup_take_Some]%list_elem_of_lookup|?]; [|done].
    assert (k = S j) by by eapply (linked_index L). lia. }
  assert (Hnil : pendingMsgs c = []).
  { destruct (pendingMsgs c) as [|h rest] eqn:Hpend; [done|exfalso].
    pose proof (ci_blocked _ Hinv h) as Hblk. rewrite Hpend in Hblk. specialize (Hblk eq_refl).
    assert (Hlh : msg_lt l h) by (eapply (ci_later _ Hinv); [done|rewrite Hpend; by left]).
    assert (HhL : h ∈ L) by (apply Hp; by left).
    destruct (proj1 (list_elem_of_lookup _ _) HhL) as [k Hk].
    destruct (decide (k = S j)) as [->|Hkj].
    { apply (linked_successor L j l h c Hlinked Hj HhL Hlh Hlast) in Hk. congruence. }
    pose proof (linked_sorted _ Hlinked) as HsL.
    assert (S j < k).
    { destruct (decide (k ≤ j)) as [Hle|]; [exfalso|lia].
      destruct (decide (k = j)) as [->|]; [simplify_eq; by apply ref_lt_irrefl in Hlh|].
      assert (msg_lt h l) as Hhl by (eapply (StronglySorted_nth _ L k j); [done..|lia]).
      exact (ref_lt_irrefl _ (ref_lt_trans _ _ _ Hlh Hhl)). }
    destruct (lookup_lt_is_Some_2 L (S j)) as [x Hx]; [apply lookup_lt_Some in Hk; lia|].
    assert (Hxh : msg_lt x h) by by eapply (StronglySorted_nth _ L (S j) k).
    apply Hnext in Hx. pose proof (ci_sorted _ Hinv) as Hs. rewrite Hpend in Hs.
    apply StronglySorted_inv in Hs as [_ Hh]. apply elem_of_cons in Hx as [->|Hx].
    - by apply ref_lt_irrefl in Hxh.
    - eapply Forall_forall in Hh; [|done]. exact (ref_lt_irrefl _ (ref_lt_trans _ _ _ Hxh Hh)). }
  split; [done|]. destruct (decide (length L ≤ S j)); [by apply take_ge|].
  destruct (lookup_lt_is_Some_2 L (S j)) as [x Hx]; [lia|].
  apply Hnext in Hx. rewrite Hnil in Hx. by apply not_elem_of_nil in Hx.
Qed.
End complete.

(** C14: Whatever the order in which the messages of a publisher arrive after the first, and
    however often each arrives, the chain delivers exactly the publisher's sequence once all
    have arrived: nothing is left waiting and no gap is open. *)
Theorem chain_completes m0 ms arrivals :
  linked (m0 :: ms) → (∀ m, m ∈ arrivals → m ∈ m0 :: ms) → (∀ m, m ∈ ms → m ∈ arrivals) →
  let '(c, es) := chain_run chain_new (Add <$> m0 :: arrivals) in
  delivered es = m0 :: ms ∧ pendingMsgs c = [] ∧ currentGap c = None.
Proof.
  intros Hl Hin Hall. rewrite fmap_cons. cbn [chain_run chain_step].
  change (addMessage m0 chain_new) with
    (MkChain (Some m0) None [] false, [OrderedMessageAdded m0]).
  cbv beta iota. destruct (chain_run (MkChain (Some m0) None [] false) (Add <$> arrivals)) as [c es] eqn:Hrun.
  simpl. pose proof (chain_step_spec chain_new (Add m0) (MkChain (Some m0) None [] false) _ chain_inv_new eq_refl)
    as (Hinv0 & _).
  edestruct (λ Hpre, adds_prefix (m0 :: ms) Hl arrivals _ 0 _ _ Hinv0 eq_refl Hpre Hin Hrun)
    as (j & Hinv & Hpre & Htake & Harr).
  { exists m0. split_and!; [done..|]. by intros m ?%not_elem_of_nil. }
  destruct (prefix_complete _ Hl _ _ Hinv Hpre) as [Hnil HL].
  { intros m [->|Hm]%elem_of_cons; apply Harr; [right; by left|left; by apply Hall]. }
  rewrite HL in Htake. simpl in Htake. split_and!; [done..|]. by apply gap_none_iff.
Qed.

(** A message without a valid previous reference is not constructed. *)
Lemma stream_message_new_ok ref prev content :
  (∃ m, stream_message_new ref prev content = Return m)
  ↔ match prev with Some p => ref_lt p ref | None => True end.
Proof.
  unfold stream_message_new, validateSequence. destruct prev as [p|]; simpl; [|split; [done|by eexists]].
  destruct (Z.eqb_spec (compareTo ref p) 0) as [He|He]; simpl.
  { split; [by intros [? ?]|intros ?; exfalso; refs]. }
  destruct (Z.ltb_spec (compareTo ref p) 0) as [Hl|Hl]; simpl.
  - split; [by intros [? ?]|intros ?; exfalso; refs].
  - split; [intros _; refs|by eexists].
Qed.

Module OrderingWitness.
Definition msg (t p : Z) : StreamMessage := MkStreamMessage (MkRef t 0) (Some (MkRef p 0)) t.

Lemma chain_completes_witness :
  let '(c, es) := chain_run chain_new (Add <$> [msg 1 0; msg 4 3; msg 3 2; msg 4 3; msg 2 1; msg 1 0]) in
  delivered es = [msg 1 0; msg 2 1; msg 3 2; msg 4 3] ∧ pendingMsgs c = [] ∧ currentGap c = None.
Proof.
  apply (chain_completes (msg 1 0) [msg 2 1; msg 3 2; msg 4 3]
    [msg 4 3; msg 3 2; msg 4 3; msg 2 1; msg 1 0]).
  - repeat split.
  - apply Forall_forall. refine (bool_decide_eq_true_1 _ _). vm_compute. reflexivity.
  - apply Forall_forall. refine (bool_decide_eq_true_1 _ _). vm_compute. reflexivity.
Defined.

Definition gapped : OrderedMessageChain :=
  (chain_run chain_new (Add <$> [msg 1 0; msg 3 2; msg 7 6])).1.

Lemma gapped_inv : chain_inv gapped.
Proof.
  unfold gapped. destruct (chain_run _ _) as [c es] eqn:Hrun.
  by apply chain_run_spec in Hrun as [? _]; [|apply chain_inv_new|].
Qed.

Lemma resolve_ends_gap_witness :
  ∃ c1 e1 c2 e2,
    (msg 3 2 ∈ delivered e1 ∧ GapResolved ∈ e1 ∧ currentGap c1 ≠ Some (MkGap (Some (msg 1 0)) (msg 3 2)))
    ∧ (delivered e2 = pendingMsgs gapped ∧ pendingMsgs c2 = [] ∧ currentGap c2 = None).
Proof.
  do 4 eexists.
  apply (resolve_ends_gap gapped (MkGap (Some (msg 1 0)) (msg 3 2)));
    [apply gapped_inv|reflexivity|reflexivity|vm_compute; reflexivity|vm_compute; reflexivity].
Defined.
End OrderingWitness.
