(* ===== verification/GapFill.v ===== *)
(** Filling the gaps of a message chain: GapFiller.ts and OrderMessages.ts of
    packages/sdk/src/subscribe/ordering.

    The asynchronous task of a gap is cut at its awaits; an event of the model is a message
    that arrives or the answer to an await.  A task whose gap was resolved meanwhile is
    aborted, which ends its waits but not the requests in flight. *)

From S2P Require Import Prelude.
From S2P Require Import Ordering.

Set Default Proof Using "Type".

Inductive GapFillStrategy := Full | Light.

Record GapFillerOptions := MkGapFillerOptions { go_strategy : GapFillStrategy; go_maxRequestsPerGap : nat }.

(** Where [onGapFound] stands: in the first [wait], in [getStorageNodeAddresses], in the
    [i]-th [resend], in the [wait] after it, at its end; or ended by an error. *)
Inductive phase :=
  | InitialWait | Lookup | Resending (i : nat) | RetryWait (i : nat) | Finished | Failed.

#[global] Instance phase_eq_dec : EqDecision phase.
Proof. solve_decision. Defined.

Record task := MkTask { tk_gap : Gap; tk_aborted : bool; tk_phase : phase }.

(** [gf_tasks] holds every task started, [currentTask] the index of the one the class
    refers to. *)
Record GapFiller := MkGapFiller {
  gf_chain : OrderedMessageChain; gf_tasks : list task; currentTask : option nat }.

Definition gap_filler_new : GapFiller := MkGapFiller chain_new [] None.

Definition set_phase (p : phase) (tk : task) : task := MkTask (tk_gap tk) (tk_aborted tk) p.

(** [abortController.abort()]: a pending [wait] rejects, which ends the task. *)
Definition abort_task (tk : task) : task :=
  MkTask (tk_gap tk) true
    (match tk_phase tk with InitialWait | RetryWait _ => Finished | p => p end).

(** The listeners of [gapFound] and [gapResolved]. *)
Definition onGapFound (gap : Gap) (f : GapFiller) : GapFiller :=
  MkGapFiller (gf_chain f) (gf_tasks f ++ [MkTask gap false InitialWait]) (Some (length (gf_tasks f))).

Definition onGapResolved (f : GapFiller) : GapFiller :=
  match currentTask f with
  | Some id => MkGapFiller (gf_chain f) (alter abort_task id (gf_tasks f)) None
  | None => f
  end.

Definition listen (f : GapFiller) (e : chain_event) : GapFiller :=
  match e with
  | GapFound gap => onGapFound gap f
  | GapResolved => onGapResolved f
  | _ => f
  end.

(** A call of a method of the chain, with the listeners it runs. *)
Definition call_chain (m : OrderedMessageChain → OrderedMessageChain * list chain_event) (f : GapFiller)
    : GapFiller * list chain_event :=
  let '(c, es) := m (gf_chain f) in
  (foldl listen (MkGapFiller c (gf_tasks f) (currentTask f)) es, es).

Definition move_task (id : nat) (p : phase) (f : GapFiller) : GapFiller :=
  MkGapFiller (gf_chain f) (alter (set_phase p) id (gf_tasks f)) (currentTask f).

Definition give_up_op (strategy : GapFillStrategy) (gap : Gap) : chain_op :=
  match strategy with
  | Full => ResolveUpTo (getMessageRef (gap_to gap))
  | Light => ResolveAll false
  end.

(** The end of the task: [chain.resolveMessages] as the strategy says. *)
Definition give_up_gap (o : GapFillerOptions) (id : nat) (gap : Gap) (f : GapFiller)
    : GapFiller * list chain_event :=
  let '(f1, es) := call_chain (λ c, chain_step c (give_up_op (go_strategy o) gap)) f in
  (move_task id Finished f1, es).

Inductive gf_event :=
  | Arrives (msg : StreamMessage)
  | WaitEnds (id : nat)
  | Addresses (id : nat) (count : option nat)
  | ResendYields (id : nat) (msg : StreamMessage)
  | ResendEnds (id : nat).

(** [Addresses id None] is a rejection of [getStorageNodeAddresses]; [ResendEnds] stands for
    the end of the stream, an abort or an error, which the loop treats alike. *)
Definition gf_step (o : GapFillerOptions) (f : GapFiller) (ev : gf_event) : GapFiller * list chain_event :=
  match ev with
  | Arrives msg => call_chain (addMessage msg) f
  | WaitEnds id =>
      match gf_tasks f !! id with
      | Some (MkTask gap _ InitialWait) =>
          if (0 <? go_maxRequestsPerGap o)%nat then (move_task id Lookup f, []) else give_up_gap o id gap f
      | Some (MkTask gap _ (RetryWait i)) => (move_task id (Resending (S i)) f, [])
      | _ => (f, [])
      end
  | Addresses id count =>
      match gf_tasks f !! id with
      | Some (MkTask gap _ Lookup) =>
          match count with
          | None => (move_task id Failed f, [])
          | Some O => give_up_gap o id gap f
          | Some _ => (move_task id (Resending 0) f, [])
          end
      | _ => (f, [])
      end
  | ResendYields id msg =>
      match gf_tasks f !! id with
      | Some (MkTask gap _ (Resending i)) => call_chain (addMessage msg) f
      | _ => (f, [])
      end
  | ResendEnds id =>
      match gf_tasks f !! id with
      | Some (MkTask gap aborted (Resending i)) =>
          if negb (S i =? go_maxRequestsPerGap o)%nat
          then (move_task id (if aborted then Finished else RetryWait i) f, [])
          else give_up_gap o id gap f
      | _ => (f, [])
      end
  end.

Fixpoint gf_run (o : GapFillerOptions) (f : GapFiller) (evs : list gf_event) : GapFiller * list chain_event :=
  match evs with
  | [] => (f, [])
  | ev :: evs =>
      let '(f1, e1) := gf_step o f ev in
      let '(f2, e2) := gf_run o f1 evs in (f2, e1 ++ e2)
  end.

(** The abort listener of the constructor, with that of the chain. *)
Definition gf_destroy (f : GapFiller) : GapFiller :=
  MkGapFiller (chain_abort (gf_chain f))
    (match currentTask f with Some id => alter abort_task id (gf_tasks f) | None => gf_tasks f end)
    (currentTask f).

(** * Tasks and gaps *)

Definition is_waiting (p : phase) : bool :=
  match p with InitialWait | RetryWait _ => true | _ => false end.

(** The current task is that of the open gap, and runs or has failed; the others are
    aborted. *)
Record tasks_match (open : option Gap) (f : GapFiller) : Prop := {
  tm_current :
    match open, currentTask f with
    | Some g, Some id => ∃ p, gf_tasks f !! id = Some (MkTask g false p) ∧ p ≠ Finished
    | None, None => True
    | _, _ => False
    end;
  tm_others id tk : gf_tasks f !! id = Some tk → currentTask f ≠ Some id →
    tk_aborted tk = true ∧ is_waiting (tk_phase tk) = false;
}.

Lemma listen_match open open' f es :
  tasks_match open f → gap_protocol open es = Some open' →
  tasks_match open' (foldl listen f es)
  ∧ gf_chain (foldl listen f es) = gf_chain f
  ∧ length (gf_tasks f) ≤ length (gf_tasks (foldl listen f es)).
Proof.
  revert open f. induction es as [|e es IH]; intros open f [Hc Ho] Hpr; simpl in Hpr.
  { injection Hpr as <-. simpl. split_and!; [by split|done|done]. }
  destruct e as [msg|gap| |gap]; simpl.
  - by apply (IH open).
  - destruct open as [g|]; [done|]. destruct (currentTask f) as [id|] eqn:Hcur; [done|].
    apply (IH _ (onGapFound gap f)) in Hpr as (Hm & Hch & Hlen).
    + split_and!; [done|by rewrite Hch|]. etrans; [|exact Hlen]. simpl. rewrite length_app. lia.
    + split; simpl.
      * exists InitialWait. split; [|done]. by apply list_lookup_middle.
      * intros id tk Hid Hne. apply lookup_app_Some in Hid as [Hid|[Hle Hid]].
        -- apply (Ho id tk Hid); congruence.
        -- apply list_lookup_singleton_Some in Hid as [? <-]. destruct Hne. f_equal. lia.
  - destruct open as [g|]; [|done]. destruct (currentTask f) as [id|] eqn:Hcur; [|done].
    destruct Hc as (p & Hid & Hp).
    assert (Heq : onGapResolved f = MkGapFiller (gf_chain f) (alter abort_task id (gf_tasks f)) None)
      by (unfold onGapResolved; by rewrite Hcur).
    apply (IH _ (onGapResolved f)) in Hpr as (Hm & Hch & Hlen).
    + split_and!; [done|by rewrite Hch, Heq|]. etrans; [|exact Hlen]. rewrite Heq. simpl. by rewrite length_alter.
    + rewrite Heq. split; simpl; [done|]. intros id' tk Hid' _.
      destruct (decide (id' = id)) as [->|Hne].
      * rewrite list_lookup_alter_eq, Hid in Hid'. injection Hid' as <-. simpl. split; [done|]. by destruct p.
      * rewrite list_lookup_alter_ne in Hid' by done. apply (Ho id' tk Hid'). congruence.
  - by apply (IH open).
Qed.

Lemma listen_length e f : length (gf_tasks f) ≤ length (gf_tasks (listen f e)).
Proof.
  destruct e; simpl; [done|rewrite length_app; simpl; lia| |done].
  unfold onGapResolved. destruct (currentTask f); simpl; [by rewrite length_alter|done].
Qed.

(** A task that is not the current one does not become it again. *)
Lemma listen_not_current es f id :
  id < length (gf_tasks f) → currentTask f ≠ Some id → currentTask (foldl listen f es) ≠ Some id.
Proof.
  revert f. induction es as [|e es IH]; intros f Hlt Hne; [done|]. simpl. apply IH.
  - pose proof (listen_length e f). lia.
  - destruct e; simpl; [done| | |done].
    + intros [= ?]. lia.
    + unfold onGapResolved. by destruct (currentTask f) eqn:?; simpl; [|congruence].
Qed.

Lemma listen_resolved es f id :
  id < length (gf_tasks f) → GapResolved ∈ es → currentTask (foldl listen f es) ≠ Some id.
Proof.
  revert f. induction es as [|e es IH]; intros f Hlt Hin; [by apply not_elem_of_nil in Hin|]. simpl.
  pose proof (listen_length e f). destruct (decide (e = GapResolved)) as [->|Hne].
  - apply listen_not_current; [lia|]. simpl. unfold onGapResolved.
    by destruct (currentTask f) eqn:?; simpl; [|congruence].
  - apply IH; [lia|set_solver].
Qed.

(** * The invariant *)

Record filler_inv (f : GapFiller) : Prop := {
  fi_chain : chain_inv (gf_chain f);
  fi_live : oc_aborted (gf_chain f) = false;
  fi_match : tasks_match (currentGap (gf_chain f)) f;
}.

Lemma filler_inv_new : filler_inv gap_filler_new.
Proof. split; [apply chain_inv_new|done|]. split; [done|]. by intros id tk ?. Qed.

Lemma call_chain_inv f op f' es :
  filler_inv f → call_chain (λ c, chain_step c op) f = (f', es) →
  filler_inv f' ∧ chain_step (gf_chain f) op = (gf_chain f', es)
  ∧ f' = foldl listen (MkGapFiller (gf_chain f') (gf_tasks f) (currentTask f)) es
  ∧ length (gf_tasks f) ≤ length (gf_tasks f').
Proof.
  intros [Hinv Hlive [Hcur Hoth]]. unfold call_chain. destruct (chain_step (gf_chain f) op) as [c e] eqn:Hstep.
  intros [= <- <-]. pose proof (chain_step_spec _ _ _ _ Hinv Hstep) as (Hinv' & Hab & Hfacts).
  destruct (Hfacts Hlive) as (Hpr & _).
  edestruct (listen_match (currentGap (gf_chain f)) (currentGap c) (MkGapFiller c (gf_tasks f) (currentTask f)) e) as (Hm & Hch & Hlen);
    [by split|exact Hpr|]. simpl in Hch, Hlen.
  split_and!; [|by rewrite Hch|by rewrite Hch|done]. split; rewrite ?Hch; [done|congruence|done].
Qed.

Lemma move_task_inv f id p :
  filler_inv f →
  (currentTask f = Some id ∧ p ≠ Finished) ∨ (currentTask f ≠ Some id ∧ is_waiting p = false) →
  filler_inv (move_task id p f).
Proof.
  intros [Hc Hl [Hcur Hoth]] Hp. split; simpl; [done..|]. split; simpl.
  - destruct (currentGap (gf_chain f)) as [g|], (currentTask f) as [id'|]; try done.
    destruct Hcur as (p' & Hid & Hp'). destruct (decide (id = id')) as [<-|Hne].
    + exists p. rewrite list_lookup_alter_eq, Hid. split; [done|]. by destruct Hp as [[_ ?]|[? _]].
    + exists p'. by rewrite list_lookup_alter_ne.
  - intros id' tk Hid' Hne'. destruct (decide (id = id')) as [<-|Hne].
    + rewrite list_lookup_alter_eq in Hid'. apply fmap_Some in Hid' as (tk' & Hid & ->).
      destruct Hp as [[? _]|[_ ?]]; [done|]. simpl. split; [|done]. by apply (Hoth id).
    + rewrite list_lookup_alter_ne in Hid' by done. by apply (Hoth id').
Qed.

(** Giving up the gap of a task that runs leaves another gap open, or none. *)
Lemma give_up_inv o f id tk f' es :
  filler_inv f → gf_tasks f !! id = Some tk →
  give_up_gap o id (tk_gap tk) f = (f', es) →
  filler_inv f' ∧ chain_step (gf_chain f) (give_up_op (go_strategy o) (tk_gap tk)) = (gf_chain f', es)
  ∧ currentTask f' ≠ Some id.
Proof.
  intros Hinv Hid. unfold give_up_gap.
  destruct (call_chain _ f) as [f1 e1] eqn:Hcall. intros [= <- <-].
  apply call_chain_inv in Hcall as (Hinv1 & Hstep & Heq & _); [|done].
  pose proof (lookup_lt_Some _ _ _ Hid) as Hlt.
  assert (Hcur : currentTask f1 ≠ Some id).
  { rewrite Heq. destruct (decide (currentTask f = Some id)) as [Hc|Hc]; [|by apply listen_not_current].
    apply listen_resolved; [done|]. pose proof (tm_current _ _ (fi_match _ Hinv)) as Hm. rewrite Hc in Hm.
    destruct (currentGap (gf_chain f)) as [g|] eqn:Hg; [|done]. destruct Hm as (p & Hid' & _).
    rewrite Hid in Hid'. injection Hid' as ->. simpl in *.
    eapply (gap_gone_resolved _ g); [apply Hinv|apply Hinv|done|done|].
    pose proof (fi_chain _ Hinv) as Hch. pose proof (fi_chain _ Hinv1) as Hch1.
    apply gap_not_pending; [done|]. destruct (go_strategy o); simpl in Hstep.
    - exact (resolve_up_to_gone _ _ _ _ Hch Hg Hstep).
    - rewrite (resolve_all_empties _ _ _ _ Hch Hstep). apply not_elem_of_nil. }
  split_and!; [|done|done]. apply move_task_inv; [done|]. by right.
Qed.

(** A step calls the chain at most once. *)
Definition step_ok (f f' : GapFiller) (es : list chain_event) : Prop :=
  filler_inv f' ∧ ((gf_chain f' = gf_chain f ∧ es = []) ∨ ∃ op, chain_step (gf_chain f) op = (gf_chain f', es)).

Lemma gf_step_inv o f ev f' es :
  filler_inv f → gf_step o f ev = (f', es) →
  step_ok f f' es.
Proof.
  intros Hinv Hstep.
  assert (Hup : ∀ id tk, gf_tasks f !! id = Some tk → give_up_gap o id (tk_gap tk) f = (f', es) →
    step_ok f f' es).
  { intros id tk Hid Hg. apply give_up_inv in Hg as (? & ? & _); [|done..]. split; [done|]. right. by eexists. }
  assert (Hadd : ∀ m, call_chain (addMessage m) f = (f', es) →
    step_ok f f' es).
  { intros m Hc. apply (call_chain_inv f (Add m)) in Hc as (? & ? & _); [|done]. split; [done|]. right. by eexists. }
  assert (Hmove : ∀ id tk p, gf_tasks f !! id = Some tk →
    p ≠ Finished → (is_waiting p = true → is_waiting (tk_phase tk) = true ∨ tk_aborted tk = false) →
    (move_task id p f, []) = (f', es) →
    step_ok f f' es).
  { intros id tk p Hid Hp Hw [= <- <-]. split; [|by left]. apply move_task_inv; [done|].
    destruct (decide (currentTask f = Some id)); [by left|right]. split; [done|].
    destruct (tm_others _ _ (fi_match _ Hinv) id tk Hid) as [Hab Hnw]; [done|].
    destruct (is_waiting p) eqn:?; [|done]. destruct Hw; congruence. }
  assert (Hnone : (f, []) = (f', es) →
    step_ok f f' es).
  { intros [= <- <-]. split; [done|by left]. }
  destruct ev as [m|id|id count|id m|id]; simpl in Hstep; [by apply (Hadd m)| | | |];
    destruct (gf_tasks f !! id) as [[g ab [| |i|i| |]]|] eqn:Hid; try (by apply Hnone).
  - case_match; [by apply (Hmove id _ Lookup Hid)|by eapply (Hup id _ Hid)].
  - by apply (Hmove id _ (Resending (S i)) Hid).
  - destruct count as [[|n]|]; [by eapply (Hup id _ Hid)|by apply (Hmove id _ (Resending 0) Hid)|by apply (Hmove id _ Failed Hid)].
  - by apply (Hadd m).
  - case_match; [|by eapply (Hup id _ Hid)]. destruct ab; [|by apply (Hmove id _ (RetryWait i) Hid); auto].
    injection Hstep as <- <-. split; [|by left]. apply move_task_inv; [done|]. right. split; [|done].
    intros Hc. pose proof (tm_current _ _ (fi_match _ Hinv)) as Hm. rewrite Hc in Hm.
    destruct (currentGap (gf_chain f)); [|done]. destruct Hm as (p & Hid' & _). congruence.
Qed.

(** * Runs *)

Lemma gf_run_inv o f evs f' es :
  filler_inv f → gf_run o f evs = (f', es) →
  filler_inv f' ∧ ∃ ops, chain_run (gf_chain f) ops = (gf_chain f', es).
Proof.
  revert f es. induction evs as [|ev evs IH]; intros f es Hinv Hrun; simpl in Hrun.
  { injection Hrun as <- <-. split; [done|]. by exists []. }
  destruct (gf_step o f ev) as [f1 e1] eqn:Hstep. destruct (gf_run o f1 evs) as [f2 e2] eqn:Hr.
  injection Hrun as <- <-. apply gf_step_inv in Hstep as (Hinv1 & Hcall); [|done].
  destruct (IH _ _ Hinv1 Hr) as (Hinv2 & ops & Hops). split; [done|].
  destruct Hcall as [[Heq ->]|[op Hop]].
  - exists ops. by rewrite <-Heq.
  - exists (op :: ops). cbn [chain_run]. by rewrite Hop, Hops.
Qed.

(** A chain with its gap filler, under any interleaving of arriving messages, timers and
    answers of storage nodes, is a chain run by some sequence of its operations; and while
    messages wait, the task of the open gap is the current one, has not been aborted, and has not
    ended unless by an error.  Every other task is aborted and no longer waits. *)
Theorem gap_filler_refines_chain o evs :
  let '(f, es) := gf_run o gap_filler_new evs in
  (∃ ops, chain_run chain_new ops = (gf_chain f, es))
  ∧ (pendingMsgs (gf_chain f) = [] ↔ currentTask f = None)
  ∧ tasks_match (currentGap (gf_chain f)) f.
Proof.
  destruct (gf_run o gap_filler_new evs) as [f es] eqn:Hrun.
  apply gf_run_inv in Hrun as (Hinv & Hops); [|apply filler_inv_new].
  split_and!; [done| |by apply fi_match]. rewrite <-gap_none_iff by apply Hinv.
  pose proof (tm_current _ _ (fi_match _ Hinv)) as Hm.
  by destruct (currentGap (gf_chain f)), (currentTask f).
Qed.

(** * Termination *)

(** How many answers a task may still take. *)
Definition phase_measure (o : GapFillerOptions) (p : phase) : nat :=
  match p with
  | InitialWait => 2 * go_maxRequestsPerGap o + 2
  | Lookup => 2 * go_maxRequestsPerGap o + 1
  | Resending i => 2 * (go_maxRequestsPerGap o - i)
  | RetryWait i => 2 * (go_maxRequestsPerGap o - i) - 1
  | Finished | Failed => 0
  end.

Definition phase_ok (o : GapFillerOptions) (p : phase) : bool :=
  match p with
  | Lookup => (0 <? go_maxRequestsPerGap o)%nat
  | Resending i => (i <? go_maxRequestsPerGap o)%nat
  | RetryWait i => (S i <? go_maxRequestsPerGap o)%nat
  | _ => true
  end.

(** The answer the task [id] awaits in this phase. *)
Definition awaits (id : nat) (p : phase) (ev : gf_event) : bool :=
  match p, ev with
  | (InitialWait | RetryWait _), WaitEnds id' => id =? id'
  | Lookup, Addresses id' _ => id =? id'
  | Resending _, ResendEnds id' => id =? id'
  | _, _ => false
  end%nat.

(** The answers the task [id] has taken in a run. *)
Fixpoint answers_taken (o : GapFillerOptions) (id : nat) (f : GapFiller) (evs : list gf_event) : nat :=
  match evs with
  | [] => 0
  | ev :: evs =>
      (if match gf_tasks f !! id with Some tk => awaits id (tk_phase tk) ev | None => false end
       then 1 else 0) + answers_taken o id (gf_step o f ev).1 evs
  end.

(** One step as seen by a task: it takes the answer it awaits and gets nearer to its end,
    or it does not get further from it. *)
Definition task_progress (o : GapFillerOptions) (taken : bool) (tk tk' : task) : Prop :=
  tk_gap tk' = tk_gap tk ∧ phase_ok o (tk_phase tk') = true
  ∧ (if taken then phase_measure o (tk_phase tk') < phase_measure o (tk_phase tk)
     else phase_measure o (tk_phase tk') ≤ phase_measure o (tk_phase tk)).

Lemma abort_progress o tk :
  phase_ok o (tk_phase tk) = true → task_progress o false tk (abort_task tk).
Proof.
  intros Hok. destruct tk as [g ab []]; (split; [done|split; [done|simpl in *; lia]]).
Qed.

Lemma task_progress_trans o b tk1 tk2 tk3 :
  task_progress o false tk1 tk2 → task_progress o b tk2 tk3 → task_progress o b tk1 tk3.
Proof. intros (Hg & _ & Hm) (Hg' & Hp' & Hm'). split; [congruence|split; [done|]]. destruct b; lia. Qed.

Lemma listen_progress o es f id tk :
  gf_tasks f !! id = Some tk → phase_ok o (tk_phase tk) = true →
  ∃ tk', gf_tasks (foldl listen f es) !! id = Some tk' ∧ task_progress o false tk tk'.
Proof.
  revert f tk. induction es as [|e es IH]; intros f tk Hid Hok; simpl; [by exists tk|].
  assert (∃ tk1, gf_tasks (listen f e) !! id = Some tk1 ∧ task_progress o false tk tk1) as (tk1 & Hid1 & Hpr1).
  { destruct e; simpl; [by exists tk|exists tk| |by exists tk].
    - split; [|done]. by apply lookup_app_l_Some.
    - unfold onGapResolved. destruct (currentTask f) as [id'|]; simpl; [|by exists tk].
      destruct (decide (id' = id)) as [->|Hne].
      + exists (abort_task tk). rewrite list_lookup_alter_eq, Hid. split; [done|]. by apply abort_progress.
      + exists tk. by rewrite list_lookup_alter_ne. }
  destruct (IH _ _ Hid1 (proj1 (proj2 Hpr1))) as (tk' & Hid' & Hpr').
  exists tk'. split; [done|]. by eapply task_progress_trans.
Qed.

Lemma new_tasks_ok o es f id tk :
  gf_tasks (foldl listen f es) !! id = Some tk → gf_tasks f !! id = None → phase_ok o (tk_phase tk) = true.
Proof.
  revert f. induction es as [|e es IH]; intros f Hid Hnone; simpl in Hid; [congruence|].
  destruct (gf_tasks (listen f e) !! id) as [tk1|] eqn:H1; [|by eapply IH].
  assert (Hok1 : phase_ok o (tk_phase tk1) = true).
  { destruct e; simpl in H1; [congruence| | |congruence].
    - apply lookup_app_Some in H1 as [?|[_ H1]]; [congruence|].
      by apply list_lookup_singleton_Some in H1 as [_ <-].
    - unfold onGapResolved in H1. destruct (currentTask f) as [id'|]; simpl in H1; [|congruence].
      apply lookup_lt_Some in H1. rewrite length_alter in H1. apply lookup_ge_None in Hnone. lia. }
  destruct (listen_progress o es _ _ _ H1 Hok1) as (tk2 & H2 & _ & Hok2 & _). congruence.
Qed.

Lemma task_progress_refl o tk : phase_ok o (tk_phase tk) = true → task_progress o false tk tk.
Proof. intros Hok. by split; [|split]. Qed.

Lemma call_chain_progress o m f id tk :
  gf_tasks f !! id = Some tk → phase_ok o (tk_phase tk) = true →
  ∃ tk', gf_tasks (call_chain m f).1 !! id = Some tk' ∧ task_progress o false tk tk'.
Proof.
  intros Hid Hok. unfold call_chain. destruct (m (gf_chain f)) as [c es]. by apply listen_progress.
Qed.

Lemma move_task_progress o id p f id' tk :
  gf_tasks f !! id' = Some tk → phase_ok o (tk_phase tk) = true →
  (id = id' → phase_ok o p = true ∧ phase_measure o p < phase_measure o (tk_phase tk)) →
  ∃ tk', gf_tasks (move_task id p f) !! id' = Some tk' ∧ task_progress o (bool_decide (id = id')) tk tk'.
Proof.
  intros Hid Hok Hp. simpl. case_bool_decide as He.
  - subst id'. exists (set_phase p tk). rewrite list_lookup_alter_eq, Hid. split; [done|].
    split; [done|]. by destruct Hp.
  - exists tk. rewrite list_lookup_alter_ne by done. split; [done|]. by apply task_progress_refl.
Qed.

Lemma give_up_progress o id gap f id' tk :
  gf_tasks f !! id' = Some tk → phase_ok o (tk_phase tk) = true →
  (id = id' → 0 < phase_measure o (tk_phase tk)) →
  ∃ tk', gf_tasks (give_up_gap o id gap f).1 !! id' = Some tk' ∧ task_progress o (bool_decide (id = id')) tk tk'.
Proof.
  intros Hid Hok Hp. unfold give_up_gap.
  destruct (call_chain_progress o (λ c, chain_step c (give_up_op (go_strategy o) gap)) f id' tk Hid Hok)
    as (tk1 & Hid1 & Hg1 & Hok1 & Hm1).
  destruct (call_chain _ f) as [f1 e1]. simpl in *. case_bool_decide as He.
  - subst id'. exists (set_phase Finished tk1). rewrite list_lookup_alter_eq, Hid1.
    split; [done|]. split; [done|split; [done|]]. simpl. by apply Hp.
  - exists tk1. rewrite list_lookup_alter_ne by done. split; [done|]. by split; [|split].
Qed.

(** What a step does to the tasks: nothing, what the chain's events do, or it moves or
    ends the one task whose answer it is. *)
Inductive step_shape (o : GapFillerOptions) (f : GapFiller) (ev : gf_event) : GapFiller → Prop :=
  | shape_same :
      (∀ id tk, gf_tasks f !! id = Some tk → awaits id (tk_phase tk) ev = false) → step_shape o f ev f
  | shape_call m :
      (∀ id p, awaits id p ev = false) → step_shape o f ev (call_chain m f).1
  | shape_move id tk p :
      gf_tasks f !! id = Some tk → awaits id (tk_phase tk) ev = true →
      (phase_ok o (tk_phase tk) = true → phase_ok o p = true ∧ phase_measure o p < phase_measure o (tk_phase tk)) →
      step_shape o f ev (move_task id p f)
  | shape_give_up id tk :
      gf_tasks f !! id = Some tk → awaits id (tk_phase tk) ev = true →
      (phase_ok o (tk_phase tk) = true → 0 < phase_measure o (tk_phase tk)) →
      step_shape o f ev (give_up_gap o id (tk_gap tk) f).1.

Lemma awaits_unique id id' p p' ev : awaits id p ev = true → awaits id' p' ev = true → id = id'.
Proof. destruct p, ev; simpl; try done; destruct p'; simpl; try done; rewrite !Nat.eqb_eq; congruence. Qed.

Ltac no_answer :=
  simpl; apply shape_same; intros ?id' ?tk' ?Hid'; destruct (tk_phase _) eqn:?; simpl; try done;
  apply Nat.eqb_neq; intros ->; by simplify_eq/=.

Ltac answer_moves id tk Hid :=
  simpl; apply (shape_move _ _ _ id tk); [exact Hid|apply Nat.eqb_refl|];
  simpl; rewrite ?Nat.ltb_lt in *; lia.

Ltac answer_ends id tk Hid :=
  simpl; apply (shape_give_up _ _ _ id tk); [exact Hid|apply Nat.eqb_refl|];
  simpl; rewrite ?Nat.ltb_lt in *; lia.

Lemma gf_step_shape o f ev : step_shape o f ev (gf_step o f ev).1.
Proof.
  destruct ev as [m|id|id count|id m|id]; unfold gf_step;
    [apply shape_call; by intros id []| | | |];
    (destruct (gf_tasks f !! id) as [[g ab [| |i|i| |]]|] eqn:Hid; try no_answer).
  - destruct (Nat.ltb_spec 0 (go_maxRequestsPerGap o)).
    + answer_moves id (MkTask g ab InitialWait) Hid.
    + answer_ends id (MkTask g ab InitialWait) Hid.
  - answer_moves id (MkTask g ab (RetryWait i)) Hid.
  - destruct count as [[|n]|].
    + answer_ends id (MkTask g ab Lookup) Hid.
    + answer_moves id (MkTask g ab Lookup) Hid.
    + answer_moves id (MkTask g ab Lookup) Hid.
  - apply shape_call. by intros id' [].
  - destruct (Nat.eqb_spec (S i) (go_maxRequestsPerGap o)); simpl.
    + answer_ends id (MkTask g ab (Resending i)) Hid.
    + destruct ab; answer_moves id (MkTask g true (Resending i)) Hid || answer_moves id (MkTask g false (Resending i)) Hid.
Qed.

Lemma gf_step_progress o f ev id tk :
  gf_tasks f !! id = Some tk → phase_ok o (tk_phase tk) = true →
  ∃ tk', gf_tasks (gf_step o f ev).1 !! id = Some tk'
    ∧ task_progress o (awaits id (tk_phase tk) ev) tk tk'.
Proof.
  intros Hid Hok.
  assert (Hans : ∀ id' tk', gf_tasks f !! id' = Some tk' → awaits id' (tk_phase tk') ev = true →
    awaits id (tk_phase tk) ev = bool_decide (id' = id)).
  { intros id' tk' Hid' Haw. case_bool_decide as He; [subst; congruence|].
    apply not_true_iff_false. intros Haw'. destruct He. by eapply awaits_unique. }
  destruct (gf_step_shape o f ev) as [Hno|m Hno|id' tk' p Hid' Haw Hm|id' tk' Hid' Haw Hm].
  - rewrite (Hno id tk Hid). exists tk. split; [done|]. by apply task_progress_refl.
  - rewrite (Hno id). by apply call_chain_progress.
  - rewrite (Hans _ _ Hid' Haw). apply move_task_progress; [done..|]. intros ->. simplify_eq. by apply Hm.
  - rewrite (Hans _ _ Hid' Haw). apply give_up_progress; [done..|]. intros ->. simplify_eq. by apply Hm.
Qed.

Lemma gf_step_new_ok o f ev id tk :
  gf_tasks (gf_step o f ev).1 !! id = Some tk → gf_tasks f !! id = None → phase_ok o (tk_phase tk) = true.
Proof.
  intros Hid Hnone.
  assert (Hcall : ∀ m, gf_tasks (call_chain m f).1 !! id = Some tk → phase_ok o (tk_phase tk) = true).
  { intros m. unfold call_chain. destruct (m (gf_chain f)) as [c es]. intros H. by eapply new_tasks_ok. }
  destruct (gf_step_shape o f ev) as [_|m _|id' tk' p Hid' _ _|id' tk' Hid' _ _].
  - congruence.
  - by eapply Hcall.
  - simpl in Hid. apply lookup_lt_Some in Hid. rewrite length_alter in Hid. apply lookup_ge_None in Hnone. lia.
  - revert Hid Hcall. unfold give_up_gap.
    set (m := λ c, chain_step c _). intros Hid Hcall. specialize (Hcall m).
    destruct (call_chain m f) as [f1 e1]. simpl in *.
    destruct (decide (id' = id)) as [->|Hne]; [congruence|].
    rewrite list_lookup_alter_ne in Hid by done. by apply Hcall.
Qed.

Lemma gf_run_progress o evs f id tk :
  (∀ id tk, gf_tasks f !! id = Some tk → phase_ok o (tk_phase tk) = true) →
  gf_tasks (gf_run o f evs).1 !! id = Some tk →
  phase_ok o (tk_phase tk) = true
  ∧ answers_taken o id f evs + phase_measure o (tk_phase tk)
    ≤ match gf_tasks f !! id with Some tk0 => phase_measure o (tk_phase tk0) | None => 2 * go_maxRequestsPerGap o + 2 end.
Proof.
  revert f. induction evs as [|ev evs IH]; intros f Hok Hid; simpl in Hid |- *.
  { split; [by eapply Hok|]. by rewrite Hid. }
  destruct (gf_step o f ev) as [f1 e1] eqn:Hstep. simpl.
  assert (Hf1 : (gf_step o f ev).1 = f1) by by rewrite Hstep.
  assert (Hok1 : ∀ id tk, gf_tasks f1 !! id = Some tk → phase_ok o (tk_phase tk) = true).
  { intros id1 tk1 H1. rewrite <-Hf1 in H1. destruct (gf_tasks f !! id1) as [tk0|] eqn:H0.
    - destruct (gf_step_progress o f ev _ _ H0 (Hok _ _ H0)) as (tk2 & H2 & _ & Hp & _). congruence.
    - by eapply gf_step_new_ok. }
  destruct (gf_run o f1 evs) as [f2 e2] eqn:Hr. simpl in Hid.
  destruct (IH f1 Hok1) as [Hp Hle]; [by rewrite Hr|]. split; [done|].
  destruct (gf_tasks f !! id) as [tk0|] eqn:H0.
  - destruct (gf_step_progress o f ev _ _ H0 (Hok _ _ H0)) as (tk1 & H1 & _ & _ & Hm).
    rewrite Hf1 in H1. rewrite H1 in Hle. destruct (awaits _ _ _); lia.
  - destruct (gf_tasks f1 !! id) as [tk1|] eqn:H1; [|lia].
    pose proof (Hok1 _ _ H1) as Hk1.
    assert (phase_measure o (tk_phase tk1) ≤ 2 * go_maxRequestsPerGap o + 2)
      by (destruct (tk_phase tk1); simpl; lia). lia.
Qed.

(** The number of answers after which every task has ended. *)
Definition max_answers (o : GapFillerOptions) : nat := 2 * go_maxRequestsPerGap o + 2.

(** Gap filling terminates.  A task takes at most [2 * maxRequestsPerGap + 2] answers (timers,
    the address lookup, the ends of its requests); when it has ended, and not by an error, the chain no
    longer waits for its gap.  *)
Theorem gap_tasks_end o evs id :
  let '(f, _) := gf_run o gap_filler_new evs in
  match gf_tasks f !! id with
  | None => True
  | Some tk =>
      answers_taken o id gap_filler_new evs + phase_measure o (tk_phase tk) ≤ max_answers o
      ∧ (phase_measure o (tk_phase tk) = 0 ↔ tk_phase tk = Finished ∨ tk_phase tk = Failed)
      ∧ (currentTask f ≠ Some id ∨ tk_phase tk ≠ Finished ∧ currentGap (gf_chain f) = Some (tk_gap tk))
  end.
Proof.
  destruct (gf_run o gap_filler_new evs) as [f es] eqn:Hrun.
  destruct (gf_tasks f !! id) as [tk|] eqn:Hid; [|done].
  destruct (gf_run_progress o evs gap_filler_new id tk) as [Hok Hle]; [by intros ? ? ?|by rewrite Hrun|].
  apply gf_run_inv in Hrun as (Hinv & _); [|apply filler_inv_new]. split_and!.
  - exact Hle.
  - destruct (tk_phase tk); simpl in *; rewrite ?Nat.ltb_lt in *; split; intros; try lia; try (by auto);
      by destruct_or?.
  - destruct (decide (currentTask f = Some id)) as [Hc|]; [right|by left].
    pose proof (tm_current _ _ (fi_match _ Hinv)) as Hm. rewrite Hc in Hm.
    destruct (currentGap (gf_chain f)) as [g|]; [|done]. destruct Hm as (p & Hid' & Hp).
    rewrite Hid in Hid'. by injection Hid' as ->.
Qed.

(** * A lookup that fails

    [fetchFromStorageNode] awaits the addresses outside of its [try]: a rejection ends the
    task, and nothing starts another one while the gap is open. *)

(** The message names a previous message, and not the last one. *)
Definition not_next (last m : StreamMessage) : Prop :=
  match prevMsgRef m with Some p => p ≠ getMessageRef last | None => False end.

Definition not_next_event (last : StreamMessage) (ev : gf_event) : Prop :=
  match ev with Arrives m => not_next last m | _ => True end.

Definition ended (tk : task) : Prop := tk_phase tk = Finished ∨ tk_phase tk = Failed.

Lemma not_next_spec c l m :
  lastOrderedMsg c = Some l → not_next l m → isNextOrderedMessage c m = false.
Proof.
  intros Hl. unfold not_next, isNextOrderedMessage. rewrite Hl. destruct (prevMsgRef m) as [p|]; [|done].
  intros Hne. apply not_true_iff_false. by rewrite areEqualRefs_spec.
Qed.

(** A chain that waits keeps waiting when the next message does not arrive. *)
Lemma addMessage_waits c g l m c' es :
  chain_inv c → currentGap c = Some g → lastOrderedMsg c = Some l →
  Forall (not_next l) (pendingMsgs c) → not_next l m → addMessage m c = (c', es) →
  es = [] ∧ currentGap c' = Some g ∧ lastOrderedMsg c' = Some l ∧ Forall (not_next l) (pendingMsgs c').
Proof.
  intros Hinv Hg Hl Hp Hm. unfold addMessage. destruct (isStaleMessage c m); [by intros [= <- <-]|].
  set (pending := Heap.heap_push compare_messages (pendingMsgs c) m).
  assert (Hpend : Forall (not_next l) pending).
  { apply Forall_forall. intros x [->|Hx]%Heap.elem_of_heap_push; [done|]. by eapply Forall_forall in Hp. }
  unfold consumePendingOrderedMessages. cbn [pendingMsgs currentGap lastOrderedMsg].
  assert (Hstop : ∀ c0, lastOrderedMsg c0 = Some l →
    consume_loop (λ c m, (isNextOrderedMessage c m, [])) pending c0 = (c0, [])).
  { intros c0 Hl0. destruct pending as [|x pending']; [done|]. simpl.
    apply Forall_cons in Hpend as [Hx _]. by rewrite (not_next_spec c0 l x). }
  rewrite Hstop by done. unfold checkGapFound. simpl. rewrite Hg.
  destruct (Heap.heap_peek pending); intros [= <- <-]; by simpl; rewrite ?Hg, ?Hl.
Qed.

(** When the lookup of the storage nodes fails, the chain stalls: from then on no message is delivered,
    whatever timers and answers come and however many messages arrive, until the one message that
    follows the last delivered one arrives by itself. *)
Theorem failed_lookup_stalls o f g l evs :
  filler_inv f → currentGap (gf_chain f) = Some g → lastOrderedMsg (gf_chain f) = Some l →
  Forall ended (gf_tasks f) → Forall (not_next l) (pendingMsgs (gf_chain f)) →
  Forall (not_next_event l) evs →
  let '(f', es) := gf_run o f evs in
  es = [] ∧ currentGap (gf_chain f') = Some g ∧ lastOrderedMsg (gf_chain f') = Some l.
Proof.
  revert f. induction evs as [|ev evs IH]; intros f Hinv Hg Hl Hend Hp Hevs; simpl; [done|].
  apply Forall_cons in Hevs as [Hev Hevs].
  destruct (gf_step o f ev) as [f1 e1] eqn:Hstep.
  assert (e1 = [] ∧ currentGap (gf_chain f1) = Some g ∧ lastOrderedMsg (gf_chain f1) = Some l
    ∧ Forall (not_next l) (pendingMsgs (gf_chain f1)) ∧ Forall ended (gf_tasks f1)) as (-> & Hg1 & Hl1 & Hp1 & Hend1).
  { assert (Hno : ∀ id, match gf_tasks f !! id with Some tk => ended tk | None => True end).
    { intros id. destruct (gf_tasks f !! id) as [tk|] eqn:Hid; [|done]. by eapply Forall_lookup_1. }
    destruct ev as [m|id|id count|id m|id]; simpl in Hstep.
    { unfold call_chain in Hstep. destruct (addMessage m (gf_chain f)) as [c es] eqn:Hadd.
      apply (addMessage_waits _ g l) in Hadd as (-> & ? & ? & ?); [|by apply Hinv|done..].
      simpl in Hstep. by injection Hstep as <- <-. }
    all: specialize (Hno id); destruct (gf_tasks f !! id) as [[g' ab p]|]; [|by injection Hstep as <- <-];
      destruct Hno as [Hph|Hph]; simpl in Hph; subst p; by injection Hstep as <- <-. }
  apply gf_step_inv in Hstep as [Hinv1 _]; [|done].
  specialize (IH f1 Hinv1 Hg1 Hl1 Hend1 Hp1 Hevs). by destruct (gf_run o f1 evs) as [f2 e2].
Qed.

Module GapFillWitness.
Definition msg (t p : Z) : StreamMessage := MkStreamMessage (MkRef t 0) (Some (MkRef p 0)) t.
Definition opts : GapFillerOptions := MkGapFillerOptions Light 1.

(** Message 2 is missing, and the lookup fails. *)
Definition stalled : GapFiller :=
  (gf_run opts gap_filler_new [Arrives (msg 1 0); Arrives (msg 3 2); WaitEnds 0; Addresses 0 None]).1.

Lemma stalled_inv : filler_inv stalled.
Proof.
  unfold stalled. destruct (gf_run _ _ _) as [f es] eqn:Hrun.
  apply gf_run_inv in Hrun as [? _]; [done|apply filler_inv_new].
Qed.

Lemma failed_lookup_stalls_witness :
  let '(f', es) := gf_run opts stalled [WaitEnds 0; Arrives (msg 4 3); Arrives (msg 5 4); Addresses 0 (Some 1)] in
  es = [] ∧ currentGap (gf_chain f') = Some (MkGap (Some (msg 1 0)) (msg 3 2))
  ∧ lastOrderedMsg (gf_chain f') = Some (msg 1 0).
Proof.
  apply (failed_lookup_stalls opts stalled (MkGap (Some (msg 1 0)) (msg 3 2)) (msg 1 0));
    [apply stalled_inv|reflexivity|reflexivity| | |].
  - apply Forall_singleton. right. reflexivity.
  - apply Forall_singleton. discriminate.
  - repeat (apply Forall_cons; split; [done|]). by apply Forall_nil.
Defined.

(** With the strategy [light], a task whose last request filled the gap is not stopped by
    the abort and drops the next gap, which nobody has tried to fill: message 7 is
    delivered although 4, 5 and 6 were never asked for. *)
Lemma light_drops_next_gap :
  (gf_run opts gap_filler_new
    [Arrives (msg 1 0); Arrives (msg 3 2); Arrives (msg 7 6); WaitEnds 0; Addresses 0 (Some 1);
     ResendYields 0 (msg 2 1); ResendEnds 0]).2
  = [OrderedMessageAdded (msg 1 0); GapFound (MkGap (Some (msg 1 0)) (msg 3 2));
     OrderedMessageAdded (msg 2 1); OrderedMessageAdded (msg 3 2); GapResolved;
     GapFound (MkGap (Some (msg 3 2)) (msg 7 6)); UnfillableGap (MkGap (Some (msg 3 2)) (msg 7 6));
     OrderedMessageAdded (msg 7 6); GapResolved].
Proof. vm_compute. reflexivity. Qed.
End GapFillWitness.

(** * OrderMessages.ts

    One chain for each publisher and message chain of a stream part, created when its first
    message comes; what the chains deliver goes to one output. *)

Notation chain_key := (string * string)%type.

Record OrderMessages := MkOrderMessages {
  om_chains : gmap chain_key GapFiller; om_outBuffer : list (chain_key * StreamMessage) }.

Definition order_messages_new : OrderMessages := MkOrderMessages ∅ [].

(** [createLazyMap]: the chain of a key, made on demand by [createMessageChain]. *)
Definition om_get (key : chain_key) (s : OrderMessages) : GapFiller :=
  default gap_filler_new (om_chains s !! key).

Definition onOrdered (key : chain_key) (es : list chain_event) (s : OrderMessages) : OrderMessages :=
  MkOrderMessages (om_chains s) (om_outBuffer s ++ ((key,.) <$> delivered es)).

(** [addMessages] for an arriving message; the other events are those of a chain made
    before. *)
Definition om_step (o : GapFillerOptions) (s : OrderMessages) (ev : chain_key * gf_event) : OrderMessages :=
  let '(f, es) := gf_step o (om_get ev.1 s) ev.2 in
  onOrdered ev.1 es (MkOrderMessages (<[ev.1 := f]> (om_chains s)) (om_outBuffer s)).

Definition om_run (o : GapFillerOptions) (s : OrderMessages) (evs : list (chain_key * gf_event)) : OrderMessages :=
  foldl (om_step o) s evs.

(** The range that [resend] asks a storage node for. *)
Definition resend_range (gap : Gap) : option (MessageRef * MessageRef) :=
  match gap_from gap, prevMsgRef (gap_to gap) with
  | Some from, Some to =>
      Some (MkRef (mr_timestamp (getMessageRef from)) (mr_sequenceNumber (getMessageRef from) + 1), to)
  | _, _ => None
  end.

(** The range covers what lies after the last delivered message, up to the one the next
    message names. *)
Lemma resend_range_spec f g :
  filler_inv f → currentGap (gf_chain f) = Some g →
  ∃ from to first last, gap_from g = Some from ∧ prevMsgRef (gap_to g) = Some to
    ∧ resend_range g = Some (first, last)
    ∧ ∀ r, (¬ ref_lt r first ∧ ¬ ref_lt last r) ↔ ref_lt (getMessageRef from) r ∧ (r = to ∨ ref_lt r to).
Proof.
  intros Hinv Hg. destruct (ci_gap _ (fi_chain _ Hinv) g Hg) as (_ & from & l & to & Hf & _ & _ & Hto).
  unfold resend_range. rewrite Hf, Hto. do 4 eexists. split_and!; [done..|]. intros r.
  assert (Hfst : ¬ ref_lt r (MkRef (mr_timestamp (getMessageRef from)) (mr_sequenceNumber (getMessageRef from) + 1))
    ↔ ref_lt (getMessageRef from) r) by (split; intros; refs).
  rewrite Hfst. f_equiv. split.
  - intros Hn. destruct (ref_total r to) as [?|[?|?]]; [by right|by left|done].
  - intros [->|Hlt]; [apply ref_lt_irrefl|]. intros Hlt'. exact (ref_lt_irrefl _ (ref_lt_trans _ _ _ Hlt Hlt')).
Qed.

Definition events_of (key : chain_key) (evs : list (chain_key * gf_event)) : list gf_event :=
  omap (λ ev, if bool_decide (ev.1 = key) then Some ev.2 else None) evs.

Definition output_of (key : chain_key) (s : OrderMessages) : list StreamMessage :=
  omap (λ m, if bool_decide (m.1 = key) then Some m.2 else None) (om_outBuffer s).

Lemma output_tagged key key' (ms : list StreamMessage) :
  omap (λ m : chain_key * StreamMessage, if bool_decide (m.1 = key) then Some m.2 else None) ((key',.) <$> ms)
  = if bool_decide (key' = key) then ms else [].
Proof.
  induction ms as [|m ms IH]; [by case_bool_decide|]. rewrite fmap_cons. cbn [omap list_omap fst snd].
  case_bool_decide; [|exact IH]. f_equal. exact IH.
Qed.

Lemma om_run_spec o evs s key :
  let '(f, es) := gf_run o (om_get key s) (events_of key evs) in
  om_get key (om_run o s evs) = f ∧ output_of key (om_run o s evs) = output_of key s ++ delivered es.
Proof.
  revert s. induction evs as [|[key' ev] evs IH]; intros s; [split; [done|]; symmetry; apply app_nil_r|].
  cbn [om_run foldl]. specialize (IH (om_step o s (key', ev))). fold (om_run o (om_step o s (key', ev)) evs).
  assert (Hout : output_of key (om_step o s (key', ev)) = output_of key s ++
    if bool_decide (key' = key) then delivered (gf_step o (om_get key' s) ev).2 else []).
  { unfold om_step. cbn [fst snd]. destruct (gf_step o (om_get key' s) ev) as [f es].
    unfold output_of. simpl. by rewrite omap_app, output_tagged. }
  assert (Hget : om_get key (om_step o s (key', ev)) =
    if bool_decide (key' = key) then (gf_step o (om_get key' s) ev).1 else om_get key s).
  { unfold om_step. cbn [fst snd]. destruct (gf_step o (om_get key' s) ev) as [f es].
    unfold om_get. simpl. case_bool_decide as He; [by subst; rewrite lookup_insert_eq|by rewrite lookup_insert_ne]. }
  rewrite Hout, Hget in IH. unfold events_of. cbn [omap list_omap fst snd].
  case_bool_decide as He.
  - subst key'. cbn [gf_run]. destruct (gf_step o (om_get key s) ev) as [f1 e1]. simpl in IH.
    fold (events_of key evs). destruct (gf_run o f1 (events_of key evs)) as [f2 e2].
    destruct IH as [IH1 IH2]. split; [done|]. by rewrite IH2, delivered_app, app_assoc.
  - rewrite app_nil_r in IH. exact IH.
Qed.

(** The ordered output of a stream part: the messages of each publisher's chain come out
    as that chain alone would deliver them from its own events, whatever the other publishers
    send, and in strictly ascending order. *)
Theorem order_messages_independent o evs key :
  let s := om_run o order_messages_new evs in
  output_of key s = delivered (gf_run o gap_filler_new (events_of key evs)).2
  ∧ StronglySorted msg_lt (output_of key s).
Proof.
  cbv zeta. pose proof (om_run_spec o evs order_messages_new key) as Hs.
  change (om_get key order_messages_new) with gap_filler_new in Hs.
  destruct (gf_run o gap_filler_new (events_of key evs)) as [f es] eqn:Hrun. destruct Hs as [_ ->].
  split; [done|]. apply gf_run_inv in Hrun as (_ & ops & Hops); [|apply filler_inv_new].
  by apply chain_run_spec in Hops as (_ & _ & _ & ? & _); [|apply chain_inv_new|].
Qed.
