(* ===== verification/Payout.v ===== *)
(** The autostaker (packages/node/src/plugins/autostaker): payoutProportionalStrategy.ts,
    which plans how an operator's tokens are staked, and the part of AutostakerPlugin.ts
    that prepares its input and submits its actions.

    Amounts are [bigint]s.
    [md5_int32] stands for the first four bytes of an MD5 digest as a signed integer.
    The wallet at the end of the file is the specification: what executing a plan does. *)

From S2P Require Import Prelude.
From S2P Require Import Js.
From S2P Require Import JsMap.
From stdpp Require Import sorting.

Set Default Proof Using "Type".

(** * Sums and slices *)

Fixpoint sum (values : list Z) : Z :=
  match values with [] => 0 | value :: values => value + sum values end%Z.

(** [array.slice(0, count)]; a negative count leaves out the last elements. *)
Definition slice0 {A} (count : Z) (l : list A) : list A :=
  if (count <? 0)%Z then take (length l - Z.to_nat (- count)) l else take (Z.to_nat count) l.

(** [minBy] of lodash: the first of the smallest. *)
Fixpoint minBy {A} (f : A → Z) (l : list A) : option A :=
  match l with
  | [] => None
  | x :: l =>
      match minBy f l with
      | Some y => if (f y <? f x)%Z then Some y else Some x
      | None => Some x
      end
  end.

(** * The strategy *)

Inductive action_type := TStake | TUnstake.
#[global] Instance action_type_eq_dec : EqDecision action_type.
Proof. solve_decision. Defined.

Record Action := MkAction { ac_type : action_type; ac_sponsorshipId : string; ac_amount : Z }.
#[global] Instance Action_eq_dec : EqDecision Action.
Proof. solve_decision. Defined.

(** The argument of [adjustStakes]; of a [SponsorshipConfig], its [payoutPerSec]. *)
Record StakeOpts := MkStakeOpts {
  myCurrentStakes : jsmap string Z;
  myUnstakedAmount : Z;
  stakeableSponsorships : jsmap string Z;
  undelegationQueueAmount : Z;
  operatorContractAddress : string;
  maxSponsorshipCount : Z;
  minTransactionAmount : Z;
  minStakePerSponsorship : Z
}.

Record adjustment := MkAdjustment { ad_sponsorshipId : string; ad_difference : Z }.

Section strategy.
Context (md5_int32 : string → Z).
Implicit Types o : StakeOpts.

Definition payoutOf o (id : string) : Z := default 0%Z (map_get id (stakeableSponsorships o)).

Definition getExpiredSponsorships o : list string :=
  filter (λ id, negb (map_has id (stakeableSponsorships o))) (myCurrentStakes o).*1.

(** The order of the potential sponsorships: the higher payout, then the hash. *)
Definition sponsorship_lt o (id1 id2 : string) : bool :=
  ((payoutOf o id2 <? payoutOf o id1)
   || (payoutOf o id1 =? payoutOf o id2)
      && (md5_int32 (operatorContractAddress o +:+ id1) <? md5_int32 (operatorContractAddress o +:+ id2)))%Z.

Definition sponsorship_count o (totalStakeableAmount : Z) : Z :=
  let count := Z.min (Z.of_nat (length (stakeableSponsorships o))) (maxSponsorshipCount o) in
  if (0 <? minStakePerSponsorship o)%Z
  then Z.min count (Z.quot totalStakeableAmount (minStakePerSponsorship o))
  else count.

Definition keptSponsorships o : list string :=
  filter (λ id, map_has id (myCurrentStakes o)) (stakeableSponsorships o).*1.
Definition potentialSponsorships o : list string :=
  filter (λ id, negb (map_has id (myCurrentStakes o))) (stakeableSponsorships o).*1.

Definition getSelectedSponsorships o (totalStakeableAmount : Z) : list string :=
  slice0 (sponsorship_count o totalStakeableAmount)
    (keptSponsorships o ++ sortBy (sponsorship_lt o) (potentialSponsorships o)).

Definition totalStakeable o : Z :=
  (sum (myCurrentStakes o).*2 + myUnstakedAmount o - undelegationQueueAmount o)%Z.

(** [x / y] of two [bigint]s. *)
Definition bigint_div (x y : Z) : outcome js_error Z :=
  if (y =? 0)%Z then Throw (MkError None "Division by zero") else Return (Z.quot x y).

Fixpoint map_outcome {A B} (f : A → outcome js_error B) (l : list A) : outcome js_error (list B) :=
  match l with
  | [] => Return []
  | x :: l => outcome_bind (f x) (λ y, outcome_bind (map_outcome f l) (λ ys, Return (y :: ys)))
  end.

Definition target_of o (payoutProportionalAmount payoutPerSecSum : Z) (id : string)
    : outcome js_error (string * Z) :=
  outcome_bind (bigint_div (payoutProportionalAmount * payoutOf o id) payoutPerSecSum)
    (λ share, Return (id, (minStakePerSponsorship o + share)%Z)).

Definition getTargetStakes o : outcome js_error (jsmap string Z) :=
  let totalStakeableAmount := totalStakeable o in
  let selectedSponsorships := getSelectedSponsorships o totalStakeableAmount in
  let minStakePerSponsorshipSum := (Z.of_nat (length selectedSponsorships) * minStakePerSponsorship o)%Z in
  let payoutProportionalAmount := (totalStakeableAmount - minStakePerSponsorshipSum)%Z in
  let payoutPerSecSum := sum (payoutOf o <$> selectedSponsorships) in
  outcome_bind (map_outcome (target_of o payoutProportionalAmount payoutPerSecSum) selectedSponsorships)
    (λ targetsForSelected,
      let targetsForFullUnstake :=
        (λ id, (id, 0%Z)) <$> filter (λ id, id ∉ selectedSponsorships) (myCurrentStakes o).*1 in
      let targetsForExpired := (λ id, (id, 0%Z)) <$> getExpiredSponsorships o in
      Return (map_new (targetsForSelected ++ targetsForFullUnstake ++ targetsForExpired))).

(** * The adjustments *)

Definition currentStake o (id : string) : Z := default 0%Z (map_get id (myCurrentStakes o)).

Definition adjustments_of o (targetStakes : jsmap string Z) : list adjustment :=
  filter (λ a, ad_difference a ≠ 0%Z)
    ((λ id, MkAdjustment id (default 0%Z (map_get id targetStakes) - currentStake o id)) <$> targetStakes.*1).

Definition too_small o (a : adjustment) : bool :=
  (Z.abs (ad_difference a) <? minTransactionAmount o)%Z
  && map_has (ad_sponsorshipId a) (stakeableSponsorships o).

Definition stakings (adjustments : list adjustment) : list adjustment :=
  filter (λ a, 0 < ad_difference a)%Z adjustments.
Definition unstakings (adjustments : list adjustment) : list adjustment :=
  filter (λ a, ad_difference a < 0)%Z adjustments.

Definition availableSum o (adjustments : list adjustment) : Z :=
  (Z.abs (sum (ad_difference <$> unstakings adjustments)) + myUnstakedAmount o - undelegationQueueAmount o)%Z.

Definition excess_of o (adjustments : list adjustment) : Z :=
  (sum (ad_difference <$> stakings adjustments) - availableSum o adjustments)%Z.

(** The reduction a staking allows. *)
Definition allowance o (a : adjustment) : Z :=
  let minDiff := Z.max (minTransactionAmount o)
                   (if map_has (ad_sponsorshipId a) (myCurrentStakes o) then 0 else minStakePerSponsorship o) in
  Z.max (ad_difference a - minDiff) 0.

(** The [for] over the stakings, which are objects of [adjustments] and are visited once
    each; [adjustments] is walked so that the others stay where they are. *)
Fixpoint reduce_stakings o (excess : Z) (adjustments : list adjustment) : list adjustment :=
  match adjustments with
  | [] => []
  | a :: rest =>
      if (0 <? ad_difference a)%Z && (0 <? allowance o a)%Z then
        let reduction := Z.min (allowance o a) excess in
        let a' := MkAdjustment (ad_sponsorshipId a) (ad_difference a - reduction) in
        if (excess - reduction <=? 0)%Z then a' :: rest
        else a' :: reduce_stakings o (excess - reduction) rest
      else a :: reduce_stakings o excess rest
  end.

(** [pull] of an adjustment: no two are for the same sponsorship. *)
Definition pull (a : adjustment) (adjustments : list adjustment) : list adjustment :=
  filter (λ a', ad_sponsorshipId a' ≠ ad_sponsorshipId a) adjustments.

(** The [while (true)]; [fuel] bounds its rounds. *)
Fixpoint balance o (fuel : nat) (adjustments : list adjustment) : list adjustment :=
  let excess := excess_of o adjustments in
  if (0 <? excess)%Z && (0 <? length (stakings adjustments))%nat then
    let totalAllowance := sum (allowance o <$> stakings adjustments) in
    if (totalAllowance <? excess)%Z then
      match fuel, minBy ad_difference (stakings adjustments) with
      | S fuel, Some smallestStaking => balance o fuel (pull smallestStaking adjustments)
      | _, _ => adjustments
      end
    else reduce_stakings o excess adjustments
  else adjustments.

Definition action_of (a : adjustment) : Action :=
  MkAction (if 0 <? ad_difference a then TStake else TUnstake)%Z (ad_sponsorshipId a)
    (if 0 <? ad_difference a then ad_difference a else - ad_difference a)%Z.

Definition type_index (t : action_type) : Z := match t with TUnstake => 0 | TStake => 1 end.
Definition action_lt (a1 a2 : Action) : bool := (type_index (ac_type a1) <? type_index (ac_type a2))%Z.

Definition adjustStakes o : outcome js_error (list Action) :=
  outcome_bind (getTargetStakes o) (λ targetStakes,
    let adjustments := filter (λ a, negb (too_small o a)) (adjustments_of o targetStakes) in
    let adjustments := balance o (length (stakings adjustments)) adjustments in
    Return (sortBy action_lt (action_of <$> adjustments))).
End strategy.

(** * AutostakerPlugin.ts *)

Record SponsorshipQueryResultItem := MkSponsorshipItem {
  sq_id : string; sq_totalPayoutWeiPerSec : Z; sq_operatorCount : Z; sq_maxOperators : option Z }.

(** A sponsorship the operator has staked to stays in the list although it is full. *)
Definition hasAcceptableOperatorCount (stakes : jsmap string Z) (item : SponsorshipQueryResultItem) : bool :=
  if map_has (sq_id item) stakes then true
  else match sq_maxOperators item with
       | None => true
       | Some maxOperators => (sq_operatorCount item <? maxOperators)%Z
       end.

Definition getStakeableSponsorships (stakes : jsmap string Z) (items : list SponsorshipQueryResultItem) : jsmap string Z :=
  map_new ((λ item, (sq_id item, sq_totalPayoutWeiPerSec item))
             <$> filter (λ item, hasAcceptableOperatorCount stakes item) items).

Definition getMyCurrentStakes (items : list (string * Z)) : jsmap string Z := map_new items.

Definition getUndelegationQueueAmount (amounts : list Z) : Z := sum amounts.

Record AutostakerConfig := MkAutostakerConfig {
  ak_operatorContractAddress : string; ak_maxSponsorshipCount : Z; ak_minTransactionAmount : Z }.

(** What The Graph, the operator contract and the signer answer during a run. *)
Record chain_answers := MkChainAnswers {
  ca_stakes : list (string * Z); ca_sponsorships : list SponsorshipQueryResultItem;
  ca_queueEntries : list Z; ca_valueWithoutEarnings : Z; ca_transactionCount : Z }.

Definition stake_opts (cfg : AutostakerConfig) (minStake : Z) (c : chain_answers) : StakeOpts :=
  let stakes := getMyCurrentStakes (ca_stakes c) in
  MkStakeOpts stakes (ca_valueWithoutEarnings c - sum stakes.*2)
    (getStakeableSponsorships stakes (ca_sponsorships c)) (getUndelegationQueueAmount (ca_queueEntries c))
    (ak_operatorContractAddress cfg) (ak_maxSponsorshipCount cfg) (ak_minTransactionAmount cfg) minStake.

Definition orderedActions (actions : list Action) : list Action :=
  filter (λ a, ac_type a = TUnstake) actions ++ filter (λ a, ac_type a = TStake) actions.

(** The submissions of a run, each with its nonce. *)
Definition runActions (md5_int32 : string → Z) (cfg : AutostakerConfig) (minStake : Z) (c : chain_answers)
    : outcome js_error (list (Z * Action)) :=
  outcome_bind (adjustStakes md5_int32 (stake_opts cfg minStake c)) (λ actions,
    Return (imap (λ i a, (ca_transactionCount c + Z.of_nat i, a)%Z) (orderedActions actions))).

(** * Lists *)

Lemma sum_app l1 l2 : sum (l1 ++ l2) = (sum l1 + sum l2)%Z.
Proof. induction l1 as [|x l1 IH]; simpl; [done|]. rewrite IH. lia. Qed.

#[global] Instance sum_proper : Proper (Permutation ==> eq) sum.
Proof. induction 1; simpl; lia. Qed.

Lemma sum_nonneg l : Forall (λ x, 0 ≤ x)%Z l → (0 ≤ sum l)%Z.
Proof. induction 1; simpl; lia. Qed.

Lemma sum_elem_le l x : Forall (λ x, 0 ≤ x)%Z l → x ∈ l → (x ≤ sum l)%Z.
Proof.
  induction 1 as [|y l Hy Hl IH]; intros Hin; [by apply not_elem_of_nil in Hin|].
  pose proof (sum_nonneg _ Hl). simpl. apply elem_of_cons in Hin as [->|Hin]; [lia|].
  specialize (IH Hin). lia.
Qed.

Lemma sum_zero {A} (f : A → Z) l : (∀ x, x ∈ l → f x = 0%Z) → sum (f <$> l) = 0%Z.
Proof.
  induction l as [|x l IH]; intros H; [done|]. rewrite fmap_cons. cbn [sum]. rewrite (H x) by left.
  rewrite IH; [done|]. intros y Hy. apply H. by right.
Qed.

Lemma sum_fmap_add {A} (f g : A → Z) l : sum ((λ x, f x + g x)%Z <$> l) = (sum (f <$> l) + sum (g <$> l))%Z.
Proof. induction l as [|x l IH]; [simpl; lia|]. rewrite ?fmap_cons. cbn [sum length]. rewrite IH. lia. Qed.

Lemma sum_fmap_mul {A} (c : Z) (f : A → Z) l : sum ((λ x, c * f x)%Z <$> l) = (c * sum (f <$> l))%Z.
Proof. induction l as [|x l IH]; [simpl; lia|]. rewrite ?fmap_cons. cbn [sum length]. rewrite IH. lia. Qed.

Lemma sum_fmap_const {A} (c : Z) (l : list A) : sum ((λ _, c) <$> l) = (Z.of_nat (length l) * c)%Z.
Proof. induction l as [|x l IH]; [simpl; lia|]. rewrite ?fmap_cons. cbn [sum length]. rewrite IH. lia. Qed.

(** * Maps *)

(** * The inputs the plugin gives *)

(** Sponsorships are named once and pay; amounts and limits are not negative. *)
Record amounts_ok (o : StakeOpts) : Prop := {
  io_stakes_keys : NoDup (myCurrentStakes o).*1;
  io_sponsorship_keys : NoDup (stakeableSponsorships o).*1;
  io_stakes : Forall (λ e, 0 ≤ e.2)%Z (myCurrentStakes o);
  io_payouts : Forall (λ e, 0 < e.2)%Z (stakeableSponsorships o);
  io_unstaked : (0 ≤ myUnstakedAmount o)%Z;
  io_queue : (0 ≤ undelegationQueueAmount o)%Z;
  io_min_transaction : (0 ≤ minTransactionAmount o)%Z;
  io_min_stake : (0 ≤ minStakePerSponsorship o)%Z;
  io_count : (0 ≤ maxSponsorshipCount o)%Z;
}.

(** And the tokens of the operator, staked and unstaked, cover the undelegation queue.  The chain
    does not promise this: the queue may be longer. *)
Record inputs_ok (o : StakeOpts) : Prop := {
  io_amounts :> amounts_ok o;
  io_total : (0 ≤ totalStakeable o)%Z;
}.

Lemma payoutOf_pos o id : inputs_ok o → id ∈ (stakeableSponsorships o).*1 → (0 < payoutOf o id)%Z.
Proof.
  intros Hok Hin. unfold payoutOf. destruct (map_get id _) as [v|] eqn:Hg.
  - simpl. apply map_get_Some in Hg; [|by apply (io_sponsorship_keys _ Hok)].
    exact (proj1 (Forall_forall _ _) (io_payouts _ Hok) _ Hg).
  - by apply map_get_None in Hg.
Qed.

Lemma currentStake_nonneg o id : inputs_ok o → (0 ≤ currentStake o id)%Z.
Proof.
  intros Hok. unfold currentStake. destruct (map_get id _) as [v|] eqn:Hg; simpl; [|done].
  apply map_get_Some in Hg; [|by apply (io_stakes_keys _ Hok)].
  exact (proj1 (Forall_forall _ _) (io_stakes _ Hok) _ Hg).
Qed.

Section plan.
Context (md5_int32 : string → Z) (o : StakeOpts).
Notation selected := (getSelectedSponsorships md5_int32 o (totalStakeable o)).
Notation candidates :=
  (keptSponsorships o ++ sortBy (sponsorship_lt md5_int32 o) (potentialSponsorships o)).

Lemma candidates_perm : candidates ≡ₚ (stakeableSponsorships o).*1.
Proof.
  rewrite sortBy_perm. unfold keptSponsorships, potentialSponsorships.
  induction ((stakeableSponsorships o).*1) as [|id l IH]; simpl; [done|]. rewrite !filter_cons.
  destruct (map_has id (myCurrentStakes o)); simpl.
  - by rewrite IH.
  - rewrite <-Permutation_middle. by rewrite IH.
Qed.

Context (Hok : inputs_ok o).

Lemma count_nonneg : (0 ≤ sponsorship_count o (totalStakeable o))%Z.
Proof using Hok.
  unfold sponsorship_count. pose proof (io_count _ Hok). pose proof (io_total _ Hok).
  destruct (Z.ltb_spec 0 (minStakePerSponsorship o)); [|lia].
  pose proof (Z.quot_pos (totalStakeable o) (minStakePerSponsorship o)). lia.
Qed.

Lemma selected_take : selected = take (Z.to_nat (sponsorship_count o (totalStakeable o))) candidates.
Proof using Hok.
  unfold getSelectedSponsorships, slice0. pose proof count_nonneg.
  by destruct (Z.ltb_spec (sponsorship_count o (totalStakeable o)) 0); [lia|].
Qed.

Lemma selected_nodup : NoDup selected.
Proof using Hok.
  rewrite selected_take. set (n := Z.to_nat _).
  assert (Hnd : NoDup candidates) by (rewrite candidates_perm; apply (io_sponsorship_keys _ Hok)).
  rewrite <-(take_drop n candidates) in Hnd. by apply NoDup_app in Hnd as [? _].
Qed.

Lemma selected_stakeable id : id ∈ selected → id ∈ (stakeableSponsorships o).*1.
Proof using Hok.
  rewrite selected_take, <-candidates_perm.
  intros [i [Hi _]%lookup_take_Some]%list_elem_of_lookup. by eapply list_elem_of_lookup_2.
Qed.

(** The operator can afford the minimum stake of all that are selected. *)
Lemma selected_affordable :
  (0 ≤ totalStakeable o - Z.of_nat (length selected) * minStakePerSponsorship o)%Z.
Proof using Hok.
  rewrite selected_take, length_take. pose proof count_nonneg as Hc. pose proof (io_total _ Hok) as Ht.
  pose proof (io_min_stake _ Hok) as Hm. unfold sponsorship_count in *.
  destruct (Z.ltb_spec 0 (minStakePerSponsorship o)) as [Hpos|Hz]; [|nia].
  set (q := Z.quot (totalStakeable o) (minStakePerSponsorship o)) in *.
  assert (q * minStakePerSponsorship o ≤ totalStakeable o)%Z.
  { subst q. rewrite Z.mul_comm. apply Z.mul_quot_le; lia. }
  set (n := min _ _). assert (Z.of_nat n ≤ q)%Z by (subst n; lia). nia.
Qed.

Lemma map_outcome_return {A B} (f : A → outcome js_error B) (g : A → B) l :
  (∀ x, x ∈ l → f x = Return (g x)) → map_outcome f l = Return (g <$> l).
Proof.
  induction l as [|x l IH]; intros H; simpl; [done|]. rewrite (H x) by left. simpl.
  rewrite IH; [done|]. intros y Hy. apply H. by right.
Qed.

Definition proportional : Z :=
  (totalStakeable o - Z.of_nat (length selected) * minStakePerSponsorship o)%Z.
Definition payoutSum : Z := sum (payoutOf o <$> selected).
Definition share (id : string) : Z := Z.quot (proportional * payoutOf o id) payoutSum.
Definition targets : jsmap string Z :=
  ((λ id, (id, minStakePerSponsorship o + share id)%Z) <$> selected)
  ++ ((λ id, (id, 0%Z)) <$> filter (λ id, id ∉ selected) (myCurrentStakes o).*1).

Lemma payoutSum_pos id : id ∈ selected → (0 < payoutSum)%Z.
Proof using Hok.
  intros Hin. unfold payoutSum.
  assert (Hall : ∀ id, id ∈ selected → (0 < payoutOf o id)%Z)
    by (intros id' Hid'; by apply payoutOf_pos, selected_stakeable).
  assert (payoutOf o id ≤ sum (payoutOf o <$> selected))%Z.
  { apply sum_elem_le; [|by apply list_elem_of_fmap_2]. apply Forall_forall.
    intros x (y & -> & Hy)%list_elem_of_fmap. specialize (Hall y Hy). lia. }
  specialize (Hall id Hin). lia.
Qed.

Lemma fmap_pair_fst {A} (f : string → A) (l : list string) : ((λ id, (id, f id)) <$> l).*1 = l.
Proof. rewrite <-list_fmap_compose. apply list_fmap_id. Qed.

Lemma targets_keys : targets.*1 = selected ++ filter (λ id, id ∉ selected) (myCurrentStakes o).*1.
Proof. unfold targets. by rewrite fmap_app, !fmap_pair_fst. Qed.

Lemma targets_nodup : NoDup targets.*1.
Proof using Hok.
  rewrite targets_keys. apply NoDup_app. split_and!; [apply selected_nodup| |].
  - intros id Hin [? _]%list_elem_of_filter. done.
  - apply NoDup_filter, (io_stakes_keys _ Hok).
Qed.

(** The targets are computed without a division by zero, and no entry overwrites another
    with a different amount. *)
Lemma getTargetStakes_spec : getTargetStakes md5_int32 o = Return targets.
Proof using Hok.
  unfold getTargetStakes. cbv zeta.
  rewrite (map_outcome_return _ (λ id, (id, minStakePerSponsorship o + share id)%Z)).
  2:{ intros id Hin. unfold target_of, bigint_div. pose proof (payoutSum_pos id Hin) as Hp.
      unfold payoutSum in Hp. destruct (Z.eqb_spec (sum (payoutOf o <$> selected)) 0); [lia|done]. }
  cbn [outcome_bind]. f_equal. rewrite app_assoc. apply map_new_app; [apply targets_nodup|].
  intros e (id & -> & Hid)%list_elem_of_fmap. apply elem_of_app. right.
  apply list_elem_of_fmap. exists id. split; [done|]. unfold getExpiredSponsorships in Hid.
  apply list_elem_of_filter in Hid as [Hnot Hid]. apply list_elem_of_filter. split; [|done].
  intros Hsel%selected_stakeable%map_has_spec. by rewrite Hsel in Hnot.
Qed.

Lemma share_nonneg id : id ∈ selected → (0 ≤ share id)%Z.
Proof using Hok.
  intros Hin. unfold share. pose proof (payoutSum_pos id Hin). pose proof selected_affordable.
  pose proof (payoutOf_pos o id Hok (selected_stakeable id Hin)).
  apply Z.quot_pos; [unfold proportional; nia|done].
Qed.

(** * The budget *)

Lemma map_get_values (m : jsmap string Z) :
  NoDup m.*1 → (λ id, default 0%Z (map_get id m)) <$> m.*1 = m.*2.
Proof.
  induction m as [|[id v] m IH]; intros Hnd; [done|]. rewrite !fmap_cons in *. cbn [fst snd map_get] in *.
  apply NoDup_cons in Hnd as [Hnin Hnd]. rewrite decide_True by done. cbn [default]. f_equal.
  rewrite <-(IH Hnd). apply list_fmap_ext. intros i id' Hid'. rewrite decide_False; [done|].
  intros ->. destruct Hnin. by eapply list_elem_of_lookup_2.
Qed.

(** What is staked now, summed over any list of sponsorships that has them all. *)
Lemma sum_currentStake (l : list string) :
  NoDup l → (∀ id, id ∈ (myCurrentStakes o).*1 → id ∈ l) →
  sum (currentStake o <$> l) = sum (myCurrentStakes o).*2.
Proof using Hok.
  intros Hnd Hsub. pose proof (io_stakes_keys _ Hok) as Hk.
  destruct (submseteq_Permutation (myCurrentStakes o).*1 l) as [rest Hrest];
    [by apply NoDup_submseteq|].
  rewrite Hrest, fmap_app, sum_app. rewrite <-(map_get_values (myCurrentStakes o) Hk).
  rewrite (sum_zero (currentStake o) rest); [unfold currentStake; lia|].
  intros id Hid. rewrite Hrest in Hnd. apply NoDup_app in Hnd as (_ & Hd & _).
  unfold currentStake. destruct (map_get id (myCurrentStakes o)) eqn:Hg; [|done].
  exfalso. apply (Hd id); [|done]. destruct (decide (id ∈ (myCurrentStakes o).*1)); [done|].
  by rewrite (proj2 (map_get_None _ _)) in Hg.
Qed.

Lemma quot_bounds x y : (0 ≤ x)%Z → (0 < y)%Z → (y * Z.quot x y ≤ x < y * Z.quot x y + y)%Z.
Proof.
  intros Hx Hy. rewrite Z.quot_div_nonneg by lia. pose proof (Z.div_mod x y). pose proof (Z.mod_pos_bound x y). lia.
Qed.

Lemma shares_bound l :
  (∀ id, id ∈ l → id ∈ selected) → selected ≠ [] →
  (payoutSum * sum (share <$> l) ≤ proportional * sum (payoutOf o <$> l)
   ≤ payoutSum * sum (share <$> l) + payoutSum * Z.of_nat (length l))%Z.
Proof using Hok.
  intros Hl Hne. induction l as [|id l IH]; [simpl; lia|]. rewrite !fmap_cons. cbn [sum length].
  assert (Hid : id ∈ selected) by (apply Hl; by left).
  pose proof (payoutSum_pos id Hid) as HP. pose proof (payoutOf_pos o id Hok (selected_stakeable id Hid)) as Hp.
  pose proof selected_affordable as Hprop. fold proportional in Hprop.
  pose proof (quot_bounds (proportional * payoutOf o id) payoutSum ltac:(nia) HP) as Hq.
  fold (share id) in Hq. specialize (IH (λ id' H, Hl id' (list_elem_of_further _ _ _ H))). nia.
Qed.

(** The targets spend the operator's tokens and no more: their sum is at most what is stakeable (stakes
    and unstaked tokens less the undelegation queue), and, if any sponsorship is selected, less
    than one wei for each of them is left over. *)
Lemma targets_sum :
  (sum targets.*2 ≤ totalStakeable o)%Z
  ∧ (selected ≠ [] → totalStakeable o ≤ sum targets.*2 + Z.of_nat (length selected))%Z.
Proof using Hok.
  assert (Heq : sum targets.*2 =
    (Z.of_nat (length selected) * minStakePerSponsorship o + sum (share <$> selected))%Z).
  { unfold targets. rewrite fmap_app, sum_app, <-!list_fmap_compose.
    rewrite (sum_zero (snd ∘ (λ id, (id, 0%Z)))) by done.
    change (snd ∘ (λ id, (id, minStakePerSponsorship o + share id)%Z))
      with (λ id, (minStakePerSponsorship o + share id)%Z).
    rewrite (sum_fmap_add (λ _, minStakePerSponsorship o) share), sum_fmap_const. lia. }
  rewrite Heq. pose proof (io_total _ Hok) as Ht.
  destruct (decide (selected = [])) as [He|Hne].
  { rewrite He. simpl. split; [lia|done]. }
  destruct selected as [|id l] eqn:Hsel; [done|].
  assert (Hid : id ∈ selected) by (rewrite Hsel; by left).
  pose proof (payoutSum_pos id Hid) as HP.
  pose proof (shares_bound selected (λ _ H, H)) as Hb. fold payoutSum in Hb.
  rewrite Hsel in Hb. specialize (Hb ltac:(done)). unfold payoutSum in HP. rewrite Hsel in HP.
  assert (HPs : payoutSum = sum (payoutOf o <$> id :: l)) by (unfold payoutSum; by rewrite Hsel).
  assert (Hpr : proportional = (totalStakeable o - Z.of_nat (length (id :: l)) * minStakePerSponsorship o)%Z)
    by (unfold proportional; by rewrite Hsel).
  rewrite HPs in Hb. split; [|intros _]; nia.
Qed.

(** * The adjustments *)

Lemma target_selected id :
  id ∈ selected → map_get id targets = Some (minStakePerSponsorship o + share id)%Z.
Proof using Hok.
  intros Hin. apply map_get_Some; [apply targets_nodup|]. unfold targets. apply elem_of_app. left.
  apply list_elem_of_fmap. by exists id.
Qed.

Lemma target_unselected id : id ∉ selected → default 0%Z (map_get id targets) = 0%Z.
Proof using Hok.
  intros Hnin. destruct (map_get id targets) as [v|] eqn:Hg; [|done]. simpl.
  apply map_get_Some in Hg; [|apply targets_nodup]. unfold targets in Hg.
  apply elem_of_app in Hg as [(id' & [= -> _] & ?)%list_elem_of_fmap|(id' & [= -> ->] & _)%list_elem_of_fmap]; done.
Qed.

(** What an adjustment may be. *)
Record good_adjustment (a : adjustment) : Prop := {
  ga_nonzero : ad_difference a ≠ 0%Z;
  ga_funded : (0 ≤ currentStake o (ad_sponsorshipId a) + ad_difference a)%Z;
  ga_size : (minTransactionAmount o ≤ Z.abs (ad_difference a))%Z
            ∨ (ad_difference a < 0)%Z ∧ ad_sponsorshipId a ∉ (stakeableSponsorships o).*1;
  ga_stake : (0 < ad_difference a)%Z → ad_sponsorshipId a ∈ selected
             ∧ (ad_sponsorshipId a ∉ (myCurrentStakes o).*1 → minStakePerSponsorship o ≤ ad_difference a)%Z;
  ga_left : (ad_difference a < 0)%Z →
            (currentStake o (ad_sponsorshipId a) + ad_difference a = 0)%Z ∧ ad_sponsorshipId a ∉ selected
            ∨ ad_sponsorshipId a ∈ selected
              ∧ (minStakePerSponsorship o ≤ currentStake o (ad_sponsorshipId a) + ad_difference a)%Z;
}.

Definition first_adjustments : list adjustment :=
  filter (λ a, negb (too_small o a)) (adjustments_of o targets).

Lemma adjustments_ids : NoDup (ad_sponsorshipId <$> adjustments_of o targets).
Proof using Hok.
  unfold adjustments_of. apply NoDup_fmap_filter. rewrite <-list_fmap_compose.
  rewrite (list_fmap_ext _ id _) by done. rewrite list_fmap_id. apply targets_nodup.
Qed.

Lemma first_adjustments_ids : NoDup (ad_sponsorshipId <$> first_adjustments).
Proof using Hok. apply NoDup_fmap_filter, adjustments_ids. Qed.

Lemma first_adjustments_good : Forall good_adjustment first_adjustments.
Proof using Hok.
  apply Forall_forall. intros a [Hsmall [Hnz Ha]%list_elem_of_filter]%list_elem_of_filter.
  apply list_elem_of_fmap in Ha as (id & -> & Hid). cbn [ad_difference ad_sponsorshipId] in *.
  pose proof (currentStake_nonneg o id Hok) as Hcur. pose proof (io_min_stake _ Hok) as Hmin.
  assert (Hsz : (minTransactionAmount o ≤ Z.abs (default 0 (map_get id targets) - currentStake o id))%Z
    ∨ id ∉ (stakeableSponsorships o).*1).
  { unfold too_small in Hsmall. cbn [ad_difference ad_sponsorshipId] in Hsmall.
    apply Is_true_true, negb_true_iff, andb_false_iff in Hsmall as [?%Z.ltb_ge|Hh]; [by left|right].
    intros Hin%map_has_spec. congruence. }
  destruct (decide (id ∈ selected)) as [Hsel|Hsel].
  - pose proof (share_nonneg id Hsel) as Hsh. rewrite (target_selected id Hsel) in *. cbn [from_option Datatypes.id] in *.
    split; cbn [ad_difference ad_sponsorshipId]; [done|lia| | |].
    + destruct Hsz as [?|Hn]; [by left|]. by destruct Hn; apply selected_stakeable.
    + intros _. split; [done|]. intros Hnc. unfold currentStake.
      rewrite (proj2 (map_get_None _ _) Hnc). cbn [default]. lia.
    + intros _. right. split; [done|]. lia.
  - rewrite (target_unselected id Hsel) in *.
    split; cbn [ad_difference ad_sponsorshipId]; [done|lia| |lia|].
    + destruct Hsz as [?|Hn]; [by left|right; split; [lia|done]].
    + intros _. left. split; [lia|done].
Qed.

Definition pos_sum (l : list adjustment) : Z := sum ((λ a, Z.max (ad_difference a) 0) <$> l).
Definition neg_sum (l : list adjustment) : Z := sum ((λ a, Z.max (- ad_difference a) 0) <$> l).

Lemma sum_stakings l : sum (ad_difference <$> stakings l) = pos_sum l.
Proof.
  unfold stakings, pos_sum. induction l as [|a l IH]; [done|]. rewrite filter_cons.
  case_decide; rewrite !fmap_cons; cbn [sum]; rewrite IH; lia.
Qed.

Lemma sum_unstakings l : sum (ad_difference <$> unstakings l) = (- neg_sum l)%Z ∧ (0 ≤ neg_sum l)%Z.
Proof.
  unfold unstakings, neg_sum. induction l as [|a l [IH IHn]]; [done|]. rewrite filter_cons.
  case_decide; rewrite !fmap_cons; cbn [sum]; rewrite ?IH; lia.
Qed.

Lemma excess_spec l :
  excess_of o l = (pos_sum l - (neg_sum l + myUnstakedAmount o - undelegationQueueAmount o))%Z.
Proof.
  unfold excess_of, availableSum. rewrite sum_stakings. destruct (sum_unstakings l) as [-> ?]. lia.
Qed.

(** Before small adjustments are dropped there is no excess. *)
Lemma adjustments_excess : (excess_of o (adjustments_of o targets) ≤ 0)%Z.
Proof using Hok.
  rewrite excess_spec.
  assert (Hdiff : (pos_sum (adjustments_of o targets) - neg_sum (adjustments_of o targets))%Z
    = (sum targets.*2 - sum (myCurrentStakes o).*2)%Z).
  { rewrite <-(sum_currentStake targets.*1), <-(map_get_values targets);
      [|apply targets_nodup|apply targets_nodup|].
    - unfold adjustments_of, pos_sum, neg_sum. induction targets.*1 as [|id l IH]; [done|].
      rewrite !fmap_cons, filter_cons. cbn [ad_difference].
      case_decide as Hd; rewrite ?fmap_cons; cbn [sum ad_difference]; [lia|].
      destruct (decide (default 0%Z (map_get id targets) - currentStake o id = 0)%Z); [lia|done].
    - intros id Hid. rewrite targets_keys. apply elem_of_app.
      destruct (decide (id ∈ selected)); [by left|right]. by apply list_elem_of_filter. }
  destruct targets_sum as [Hle _]. unfold totalStakeable in Hle. lia.
Qed.

(** * The balancing loop *)

Lemma minBy_spec {A} (f : A → Z) l :
  match minBy f l with Some x => x ∈ l ∧ ∀ y, y ∈ l → (f x ≤ f y)%Z | None => l = [] end.
Proof.
  induction l as [|x l IH]; simpl; [done|]. destruct (minBy f l) as [y|].
  - destruct IH as [Hin Hmin]. destruct (Z.ltb_spec (f y) (f x)); split; try (by (left || right)).
    all: intros z [->|Hz]%elem_of_cons; [lia|]; specialize (Hmin z Hz); lia.
  - subst l. split; [by left|]. intros y ->%list_elem_of_singleton. lia.
Qed.

(** The reductions take the excess, as far as they are allowed. *)
Lemma reduce_stakings_spec excess l :
  (0 < minTransactionAmount o)%Z → (0 < excess ≤ sum (allowance o <$> stakings l))%Z →
  Forall good_adjustment l →
  pos_sum (reduce_stakings o excess l) = (pos_sum l - excess)%Z
  ∧ neg_sum (reduce_stakings o excess l) = neg_sum l
  ∧ ad_sponsorshipId <$> reduce_stakings o excess l = ad_sponsorshipId <$> l
  ∧ Forall good_adjustment (reduce_stakings o excess l)
  ∧ ∀ a, (ad_difference a < 0)%Z → a ∈ l → a ∈ reduce_stakings o excess l.
Proof using Hok.
  intros Hmt. revert excess. induction l as [|a l IH]; intros excess Hex Hgood; [simpl in Hex; lia|].
  apply Forall_cons in Hgood as [Ha Hgood]. cbn [reduce_stakings].
  unfold stakings in Hex. rewrite filter_cons in Hex.
  destruct (Z.ltb_spec 0 (ad_difference a)) as [Hpos|Hneg]; cbn [andb].
  2:{ rewrite decide_False in Hex by lia. destruct (IH excess Hex Hgood) as (H1 & H2 & H3 & H4 & H5).
      unfold pos_sum, neg_sum in *. rewrite !fmap_cons. cbn [sum]. rewrite H1, H2, H3.
      split_and!; [lia|done|done|by constructor|].
      intros b Hb [->|?]%elem_of_cons; [by left|right; by apply H5]. }
  rewrite decide_True in Hex by done. rewrite fmap_cons in Hex. cbn [sum] in Hex.
  assert (Hothers : ∀ l', (∀ b, (ad_difference b < 0)%Z → b ∈ l → b ∈ l') → ∀ a',
    ∀ b, (ad_difference b < 0)%Z → b ∈ a :: l → b ∈ a' :: l').
  { intros l' Hl' a' b Hb [->|?]%elem_of_cons; [lia|right; by apply Hl']. }
  destruct (Z.ltb_spec 0 (allowance o a)) as [Hall|Hnone].
  2:{ assert (Hz : allowance o a = 0%Z) by (unfold allowance in *; lia).
      unfold stakings in IH. destruct (IH excess ltac:(lia) Hgood) as (H1 & H2 & H3 & H4 & H5).
      unfold pos_sum, neg_sum in *. rewrite !fmap_cons. cbn [sum]. rewrite H1, H2, H3.
      split_and!; [lia|done|done|by constructor|by apply Hothers]. }
  set (red := Z.min (allowance o a) excess).
  assert (Hred : (0 < red ≤ allowance o a)%Z) by lia.
  assert (Ha' : good_adjustment (MkAdjustment (ad_sponsorshipId a) (ad_difference a - red))).
  { unfold allowance in Hred. destruct Ha as [Hnz Hfund Hsize Hstake Hleft].
    destruct (Hstake Hpos) as [Hsel Hnew].
    pose proof (currentStake_nonneg o (ad_sponsorshipId a) Hok) as Hcs.
    split; cbn [ad_difference ad_sponsorshipId]; [lia|lia|left; lia| |intros; exfalso; lia].
    intros _. split; [done|]. intros Hnc. destruct (map_has (ad_sponsorshipId a) (myCurrentStakes o)) eqn:Hh;
      [by apply map_has_spec in Hh|lia]. }
  assert (Hd : (0 ≤ ad_difference a - red)%Z) by (unfold allowance in Hred; lia).
  destruct (Z.leb_spec (excess - red) 0) as [Hdone|Hmore].
  - unfold pos_sum, neg_sum. rewrite !fmap_cons. cbn [sum ad_difference ad_sponsorshipId].
    split_and!; [lia|lia|done|by constructor|by apply Hothers].
  - unfold stakings in IH. destruct (IH (excess - red)%Z ltac:(lia) Hgood) as (H1 & H2 & H3 & H4 & H5).
    unfold pos_sum, neg_sum in *. rewrite !fmap_cons. cbn [sum ad_difference ad_sponsorshipId].
    rewrite H1, H2, H3. split_and!; [lia|lia|done|by constructor|by apply Hothers].
Qed.

Lemma length_filter_lt {A} (P Q : A → Prop) `{∀ x, Decision (P x), ∀ x, Decision (Q x)} (l : list A) x :
  x ∈ l → P x → ¬ Q x → length (filter P (filter Q l)) < length (filter P l).
Proof.
  intros Hin HP HQ. apply list_elem_of_split in Hin as (l1 & l2 & ->).
  assert (Hle : ∀ l, length (filter P (filter Q l)) ≤ length (filter P l)).
  { induction l as [|y l IH]; [done|]. rewrite !filter_cons. do 2 case_decide; rewrite ?filter_cons;
      rewrite ?decide_True, ?decide_False by done; simpl; lia. }
  rewrite !filter_app, filter_cons_False, filter_cons_True, !length_app by done. simpl.
  pose proof (Hle l1). pose proof (Hle l2). lia.
Qed.

(** What the loop leaves of its input. *)
Record balanced (l r : list adjustment) : Prop := {
  bl_excess : (excess_of o r ≤ 0)%Z ∨ stakings r = [];
  bl_ids : NoDup (ad_sponsorshipId <$> r);
  bl_good : Forall good_adjustment r;
  bl_unstakings a : (ad_difference a < 0)%Z → a ∈ l → a ∈ r;
}.

Lemma balance_spec fuel l :
  (0 < minTransactionAmount o)%Z → NoDup (ad_sponsorshipId <$> l) → Forall good_adjustment l →
  length (stakings l) ≤ fuel → balanced l (balance o fuel l).
Proof using Hok.
  intros Hmt. revert l. induction fuel as [|fuel IH]; intros l Hnd Hgood Hfuel; cbn [balance].
  { assert (Hst : stakings l = []) by (apply nil_length_inv; lia).
    rewrite Hst. simpl. rewrite andb_false_r. split; auto. }
  destruct (Z.ltb_spec 0 (excess_of o l)) as [Hex|Hex]; cbn [andb]; [|split; auto].
  destruct (Nat.ltb_spec 0 (length (stakings l))) as [Hlen|Hlen].
  2:{ split; auto. right. apply nil_length_inv. lia. }
  destruct (Z.ltb_spec (sum (allowance o <$> stakings l)) (excess_of o l)) as [Hall|Hall].
  - pose proof (minBy_spec ad_difference (stakings l)) as Hmin.
    destruct (minBy ad_difference (stakings l)) as [x|]; [|rewrite Hmin in Hlen; simpl in Hlen; lia].
    destruct Hmin as [Hx _]. pose proof Hx as [Hpos Hxl]%list_elem_of_filter.
    destruct (IH (pull x l)) as [He Hn Hg Hu].
    + by apply NoDup_fmap_filter.
    + apply Forall_forall. intros b [_ Hb]%list_elem_of_filter. exact (proj1 (Forall_forall _ _) Hgood b Hb).
    + pose proof (length_filter_lt (λ a, 0 < ad_difference a)%Z
        (λ a', ad_sponsorshipId a' ≠ ad_sponsorshipId x) l x Hxl Hpos ltac:(tauto)).
      unfold pull, stakings in *. lia.
    + split; [done..|]. intros a Ha Hin. apply Hu; [done|]. apply list_elem_of_filter. split; [|done].
      intros Heq. assert (a = x) as ->; [|lia].
      by eapply (NoDup_fmap_eq ad_sponsorshipId l).
  - destruct (reduce_stakings_spec (excess_of o l) l Hmt ltac:(lia) Hgood) as (H1 & H2 & H3 & H4 & H5).
    split; [|by rewrite H3|done|done]. left. rewrite excess_spec, H1, H2. rewrite excess_spec. lia.
Qed.

(** More fuel than there are stakings changes nothing. *)
Lemma balance_fuel fuel fuel' l :
  length (stakings l) ≤ fuel → length (stakings l) ≤ fuel' → balance o fuel l = balance o fuel' l.
Proof.
  revert fuel' l. induction fuel as [|fuel IH]; intros fuel' l Hf Hf'.
  { assert (Hst : stakings l = []) by (apply nil_length_inv; lia).
    destruct fuel'; cbn [balance]; rewrite Hst; simpl; by rewrite !andb_false_r. }
  destruct (decide (stakings l = [])) as [Hst|Hne].
  { destruct fuel'; cbn [balance]; rewrite Hst; simpl; by rewrite !andb_false_r. }
  destruct fuel' as [|fuel']; [destruct (stakings l); [done|simpl in *; lia]|]. cbn [balance].
  do 2 (case_match; [|done]).
  pose proof (minBy_spec ad_difference (stakings l)) as Hmin.
  destruct (minBy ad_difference (stakings l)) as [x|]; [|done].
  destruct Hmin as [[Hpos Hxl]%list_elem_of_filter _].
  pose proof (length_filter_lt (λ a, 0 < ad_difference a)%Z
    (λ a', ad_sponsorshipId a' ≠ ad_sponsorshipId x) l x Hxl Hpos ltac:(tauto)).
  unfold pull, stakings in *. apply IH; lia.
Qed.

Definition final_adjustments : list adjustment :=
  balance o (length (stakings first_adjustments)) first_adjustments.

Lemma final_balanced : balanced first_adjustments final_adjustments.
Proof using Hok.
  pose proof (io_min_transaction _ Hok) as Hmt.
  destruct (decide (0 < minTransactionAmount o)%Z) as [Hpos|Hz].
  { by apply balance_spec; [|apply first_adjustments_ids|apply first_adjustments_good|]. }
  assert (Hfirst : first_adjustments = adjustments_of o targets).
  { apply filter_all. intros a _. unfold too_small.
    destruct (Z.ltb_spec (Z.abs (ad_difference a)) (minTransactionAmount o)); [lia|done]. }
  assert (Hex : (excess_of o first_adjustments ≤ 0)%Z) by (rewrite Hfirst; apply adjustments_excess).
  assert (Hbal : final_adjustments = first_adjustments).
  { unfold final_adjustments. destruct (length _); cbn [balance];
      (destruct (Z.ltb_spec 0 (excess_of o first_adjustments)); [lia|done]). }
  rewrite Hbal. split; [by left|apply first_adjustments_ids|apply first_adjustments_good|done].
Qed.

Lemma adjustStakes_spec :
  adjustStakes md5_int32 o = Return (sortBy action_lt (action_of <$> final_adjustments)).
Proof using Hok. unfold adjustStakes. by rewrite getTargetStakes_spec. Qed.
End plan.

(** * Executing a plan *)

(** The operator contract: tokens it holds, and what is staked to each sponsorship. *)
Record wallet := MkWallet { w_unstaked : Z; w_stakes : gmap string Z }.

Definition staked_in (w : wallet) (id : string) : Z := default 0%Z (w_stakes w !! id).

(** An action fails when it spends more than there is. *)
Definition exec_action (a : Action) (w : wallet) : option wallet :=
  let id := ac_sponsorshipId a in
  match ac_type a with
  | TStake =>
      if (ac_amount a <=? w_unstaked w)%Z
      then Some (MkWallet (w_unstaked w - ac_amount a) (<[id := (staked_in w id + ac_amount a)%Z]> (w_stakes w)))
      else None
  | TUnstake =>
      if (ac_amount a <=? staked_in w id)%Z
      then Some (MkWallet (w_unstaked w + ac_amount a) (<[id := (staked_in w id - ac_amount a)%Z]> (w_stakes w)))
      else None
  end.

Fixpoint exec_plan (actions : list Action) (w : wallet) : option wallet :=
  match actions with
  | [] => Some w
  | a :: actions => exec_action a w ≫= exec_plan actions
  end.

Definition wallet_of (o : StakeOpts) : wallet :=
  MkWallet (myUnstakedAmount o) (list_to_map (myCurrentStakes o)).

Lemma exec_plan_app l1 l2 w : exec_plan (l1 ++ l2) w = exec_plan l1 w ≫= exec_plan l2.
Proof. revert w. induction l1 as [|a l1 IH]; intros w; simpl; [done|]. destruct (exec_action a w); [apply IH|done]. Qed.

(** The change an action makes to the stake of its sponsorship. *)
Definition signed_amount (a : Action) : Z :=
  match ac_type a with TStake => ac_amount a | TUnstake => - ac_amount a end.

Definition change_of (actions : list Action) (id : string) : Z :=
  sum (signed_amount <$> filter (λ a, ac_sponsorshipId a = id) actions).

Definition amounts (t : action_type) (actions : list Action) : Z :=
  sum (ac_amount <$> filter (λ a, ac_type a = t) actions).

Lemma exec_unstakes actions w :
  Forall (λ a, ac_type a = TUnstake ∧ ac_amount a ≤ staked_in w (ac_sponsorshipId a))%Z actions →
  NoDup (ac_sponsorshipId <$> actions) →
  ∃ w', exec_plan actions w = Some w' ∧ w_unstaked w' = (w_unstaked w + sum (ac_amount <$> actions))%Z
    ∧ ∀ id, staked_in w' id = (staked_in w id + change_of actions id)%Z.
Proof.
  revert w. induction actions as [|a actions IH]; intros w Hall Hnd.
  { exists w. split_and!; [done|simpl; lia|]. intros id. unfold change_of. simpl. lia. }
  apply Forall_cons in Hall as [[Ht Ha] Hall]. rewrite fmap_cons in Hnd. apply NoDup_cons in Hnd as [Hnin Hnd].
  cbn [exec_plan]. unfold exec_action. rewrite Ht.
  destruct (Z.leb_spec (ac_amount a) (staked_in w (ac_sponsorshipId a))) as [_|?]; [|lia]. cbn [mbind option_bind].
  set (w1 := MkWallet _ _).
  assert (Hw1 : ∀ id, staked_in w1 id = (staked_in w id + if decide (ac_sponsorshipId a = id) then - ac_amount a else 0)%Z).
  { intros id. unfold staked_in, w1. simpl. case_decide as He.
    - subst. rewrite lookup_insert_eq. simpl. unfold staked_in. lia.
    - rewrite lookup_insert_ne by done. lia. }
  destruct (IH w1) as (w' & Hex & Hun & Hst); [|done|].
  { apply Forall_forall. intros b Hb. destruct (proj1 (Forall_forall _ _) Hall b Hb) as [Htb Hab]. split; [done|].
    rewrite Hw1, decide_False; [lia|]. intros Heq. destruct Hnin. rewrite Heq. by apply list_elem_of_fmap_2. }
  exists w'. split_and!; [done|rewrite Hun; rewrite fmap_cons; cbn [sum]; unfold w1; simpl; lia|].
  intros id. rewrite Hst, Hw1. unfold change_of. rewrite filter_cons. case_decide; [|lia].
  rewrite fmap_cons. cbn [sum]. unfold signed_amount at 2. rewrite Ht. lia.
Qed.

Lemma exec_stakes actions w :
  Forall (λ a, ac_type a = TStake ∧ 0 ≤ ac_amount a)%Z actions →
  (sum (ac_amount <$> actions) ≤ w_unstaked w)%Z →
  ∃ w', exec_plan actions w = Some w' ∧ w_unstaked w' = (w_unstaked w - sum (ac_amount <$> actions))%Z
    ∧ ∀ id, staked_in w' id = (staked_in w id + change_of actions id)%Z.
Proof.
  revert w. induction actions as [|a actions IH]; intros w Hall Hsum.
  { exists w. split_and!; [done|simpl; lia|]. intros id. unfold change_of. simpl. lia. }
  apply Forall_cons in Hall as [[Ht Ha] Hall]. rewrite fmap_cons in Hsum. cbn [sum] in Hsum.
  assert (Hrest : (0 ≤ sum (ac_amount <$> actions))%Z).
  { apply sum_nonneg, Forall_fmap. eapply Forall_impl; [exact Hall|]. by intros b [_ ?]. }
  cbn [exec_plan]. unfold exec_action. rewrite Ht.
  destruct (Z.leb_spec (ac_amount a) (w_unstaked w)) as [_|?]; [|lia]. cbn [mbind option_bind].
  set (w1 := MkWallet _ _).
  destruct (IH w1 Hall) as (w' & Hex & Hun & Hst); [unfold w1; simpl; lia|].
  exists w'. split_and!; [done|rewrite Hun, fmap_cons; cbn [sum]; unfold w1; simpl; lia|].
  intros id. rewrite Hst. unfold change_of. rewrite filter_cons. unfold staked_in, w1. simpl.
  case_decide as He.
  - subst. rewrite lookup_insert_eq, fmap_cons. cbn [sum]. unfold signed_amount at 2. rewrite Ht. simpl.
    unfold staked_in. lia.
  - by rewrite lookup_insert_ne.
Qed.

(** The sort keeps the unstakes, then the stakes, each in their order. *)
Lemma sortBy_ordered actions : sortBy action_lt actions = orderedActions actions.
Proof.
  unfold sortBy, orderedActions.
  assert (H : ∀ us ss, Forall (λ a, ac_type a = TUnstake) us → Forall (λ a, ac_type a = TStake) ss →
    foldl (λ acc x, insert_after action_lt x acc) (us ++ ss) actions
    = (us ++ filter (λ a, ac_type a = TUnstake) actions) ++ ss ++ filter (λ a, ac_type a = TStake) actions).
  { induction actions as [|a actions IH]; intros us ss Hus Hss; simpl; [by rewrite !app_nil_r|].
    rewrite !filter_cons. destruct (ac_type a) eqn:Ht.
    - rewrite decide_False, decide_True by done.
      assert (Hins : ∀ l, insert_after action_lt a l = l ++ [a]).
      { induction l as [|b l IHl]; [done|]. simpl. unfold action_lt at 1. rewrite Ht, IHl. by destruct (ac_type b). }
      rewrite Hins, <-app_assoc, (IH us (ss ++ [a])), <-(app_assoc ss); [done..|].
      apply Forall_app. split; [done|by apply Forall_singleton].
    - rewrite decide_True, decide_False by done.
      assert (Hins : insert_after action_lt a (us ++ ss) = (us ++ [a]) ++ ss).
      { clear IH. induction Hus as [|b us Hb Hus IHu]; simpl.
        - destruct Hss as [|b ss Hb Hss]; [done|]. simpl. unfold action_lt. by rewrite Ht, Hb.
        - unfold action_lt at 1. rewrite Ht, Hb. simpl. by rewrite IHu. }
      rewrite Hins, (IH (us ++ [a]) ss), <-(app_assoc us); [done| |done].
      apply Forall_app. split; [done|by apply Forall_singleton]. }
  by apply (H [] []).
Qed.

Lemma staked_in_wallet_of o id : inputs_ok o → staked_in (wallet_of o) id = currentStake o id.
Proof.
  intros Hok. unfold staked_in, currentStake, wallet_of. cbn [w_stakes]. f_equal.
  pose proof (io_stakes_keys _ Hok) as Hnd.
  destruct (map_get id (myCurrentStakes o)) as [v|] eqn:Hg.
  - apply map_get_Some in Hg; [|done]. by apply elem_of_list_to_map_1.
  - apply map_get_None in Hg. by apply not_elem_of_list_to_map_1.
Qed.

Lemma signed_action_of a : signed_amount (action_of a) = ad_difference a.
Proof. unfold signed_amount, action_of. simpl. destruct (Z.ltb_spec 0 (ad_difference a)); simpl; lia. Qed.

Lemma change_of_perm l1 l2 id : l1 ≡ₚ l2 → change_of l1 id = change_of l2 id.
Proof. intros H. unfold change_of. by rewrite H. Qed.

Lemma change_of_adjustments l id :
  change_of (action_of <$> l) id = sum (ad_difference <$> filter (λ a, ad_sponsorshipId a = id) l).
Proof.
  unfold change_of. induction l as [|a l IH]; [done|]. rewrite fmap_cons, !filter_cons.
  change (ac_sponsorshipId (action_of a)) with (ad_sponsorshipId a).
  case_decide; [|done]. rewrite !fmap_cons. cbn [sum]. by rewrite signed_action_of, IH.
Qed.

Lemma change_of_found l a :
  NoDup (ad_sponsorshipId <$> l) → a ∈ l → change_of (action_of <$> l) (ad_sponsorshipId a) = ad_difference a.
Proof.
  rewrite change_of_adjustments. induction l as [|b l IH]; intros Hnd Ha; [by apply not_elem_of_nil in Ha|].
  rewrite fmap_cons in Hnd. apply NoDup_cons in Hnd as [Hnin Hnd]. rewrite filter_cons.
  apply elem_of_cons in Ha as [->|Ha].
  - rewrite decide_True by done. rewrite fmap_cons. cbn [sum]. rewrite filter_none; [simpl; lia|].
    intros c Hc Heq. destruct Hnin. rewrite <-Heq. by apply list_elem_of_fmap_2.
  - rewrite decide_False; [by apply IH|]. intros Heq. destruct Hnin. rewrite Heq. by apply list_elem_of_fmap_2.
Qed.

Lemma change_of_absent l id : id ∉ ad_sponsorshipId <$> l → change_of (action_of <$> l) id = 0%Z.
Proof.
  intros Hnin. rewrite change_of_adjustments, filter_none; [done|]. intros a Ha Heq. destruct Hnin.
  rewrite <-Heq. by apply list_elem_of_fmap_2.
Qed.

Lemma action_of_cases a :
  ac_type (action_of a) = TStake ∧ ac_amount (action_of a) = ad_difference a ∧ (0 < ad_difference a)%Z
  ∨ ac_type (action_of a) = TUnstake ∧ ac_amount (action_of a) = (- ad_difference a)%Z ∧ (ad_difference a ≤ 0)%Z.
Proof.
  unfold action_of. cbn [ac_type ac_amount]. destruct (Z.ltb_spec 0 (ad_difference a)); [left|right]; done.
Qed.

Lemma amounts_of_adjustments l :
  amounts TStake (action_of <$> l) = pos_sum l ∧ amounts TUnstake (action_of <$> l) = neg_sum l.
Proof.
  unfold amounts, pos_sum, neg_sum. induction l as [|a l [IH1 IH2]]; [done|]. rewrite !fmap_cons, !filter_cons.
  destruct (action_of_cases a) as [(Ht & Ham & Hd)|(Ht & Ham & Hd)];
    (case_decide as H1; [|]; case_decide as H2; try congruence);
    rewrite ?fmap_cons; cbn [sum]; rewrite IH1, IH2; lia.
Qed.

Section plan_theorems.
Context (md5_int32 : string → Z) (o : StakeOpts) (Hok : inputs_ok o).
Notation final := (final_adjustments md5_int32 o).
Notation selected := (getSelectedSponsorships md5_int32 o (totalStakeable o)).

Lemma ordered_perm actions : orderedActions actions ≡ₚ actions.
Proof. rewrite <-sortBy_ordered. apply sortBy_perm. Qed.

Lemma action_of_good a :
  a ∈ final → good_adjustment md5_int32 o a ∧ ac_sponsorshipId (action_of a) = ad_sponsorshipId a.
Proof using Hok.
  intros Ha. split; [|done]. exact (proj1 (Forall_forall _ _) (bl_good _ _ _ _ (final_balanced md5_int32 o Hok)) a Ha).
Qed.

(** The plan runs: what it leaves in the wallet. *)
Lemma plan_runs :
  ∃ w, exec_plan (orderedActions (action_of <$> final)) (wallet_of o) = Some w
    ∧ w_unstaked w = (myUnstakedAmount o + neg_sum final - pos_sum final)%Z
    ∧ ∀ id, staked_in w id = (currentStake o id + change_of (action_of <$> final) id)%Z.
Proof using Hok.
  pose proof (final_balanced md5_int32 o Hok) as [Hex Hids Hgood _].
  destruct (amounts_of_adjustments final) as [Hpos Hneg].
  assert (Hnda : NoDup (ac_sponsorshipId <$> (action_of <$> final))).
  { rewrite <-list_fmap_compose. exact Hids. }
  unfold orderedActions. rewrite exec_plan_app.
  destruct (exec_unstakes (filter (λ a, ac_type a = TUnstake) (action_of <$> final)) (wallet_of o))
    as (w1 & He1 & Hu1 & Hs1); [|by apply NoDup_fmap_filter|].
  { apply Forall_forall. intros b [Ht (a & -> & Ha)%list_elem_of_fmap]%list_elem_of_filter. split; [done|].
    rewrite staked_in_wallet_of by done. destruct (action_of_good a Ha) as [Hg ->].
    pose proof (ga_funded _ _ _ Hg). unfold action_of in *. cbn [ac_type ac_amount] in *.
    destruct (Z.ltb_spec 0 (ad_difference a)); [done|lia]. }
  rewrite He1. cbn [mbind option_bind]. unfold amounts in Hpos, Hneg. rewrite Hneg in Hu1.
  pose proof (sum_unstakings final) as [_ Hnn]. pose proof (io_unstaked _ Hok) as Hun. simpl in Hu1.
  destruct (exec_stakes (filter (λ a, ac_type a = TStake) (action_of <$> final)) w1)
    as (w2 & He2 & Hu2 & Hs2).
  { apply Forall_forall. intros b [Ht (a & -> & Ha)%list_elem_of_fmap]%list_elem_of_filter. split; [done|].
    unfold action_of in *. cbn [ac_type ac_amount] in *. destruct (Z.ltb_spec 0 (ad_difference a)); [lia|done]. }
  { rewrite Hpos. pose proof (io_queue _ Hok). destruct Hex as [Hex|Hst].
    - rewrite excess_spec in Hex. lia.
    - rewrite <-sum_stakings, Hst. simpl. lia. }
  exists w2. rewrite Hpos in Hu2. split_and!; [done|lia|]. intros id.
  rewrite Hs2, Hs1, staked_in_wallet_of by done. rewrite <-(change_of_perm _ _ id (ordered_perm (action_of <$> final))).
  unfold orderedActions, change_of. rewrite filter_app, fmap_app, sum_app. lia.
Qed.

(** Nothing is left of the stake to a sponsorship that cannot be staked to. *)
Lemma expired_change id :
  id ∈ (myCurrentStakes o).*1 → id ∉ (stakeableSponsorships o).*1 →
  (currentStake o id + change_of (action_of <$> final) id = 0)%Z.
Proof using Hok.
  intros Hcur Hexp. pose proof (final_balanced md5_int32 o Hok) as [_ Hids Hgood Hkeep].
  assert (Hnsel : id ∉ selected) by (intros Hs; apply Hexp, (selected_stakeable md5_int32 o Hok), Hs).
  pose proof (target_unselected md5_int32 o Hok id Hnsel) as Ht.
  pose proof (currentStake_nonneg o id Hok) as Hc.
  destruct (decide (currentStake o id = 0)%Z) as [Hz|Hnz].
  + destruct (decide (id ∈ ad_sponsorshipId <$> final)) as [Hin|Hnin].
    * apply list_elem_of_fmap in Hin as (a & -> & Ha). rewrite change_of_found by done.
      destruct (action_of_good a Ha) as [Hg _]. pose proof (ga_funded _ _ _ Hg) as Hf.
      pose proof (ga_nonzero _ _ _ Hg). destruct (Z_lt_le_dec 0 (ad_difference a)) as [Hpos|?]; [|lia].
      by destruct (ga_stake _ _ _ Hg Hpos).
    * rewrite change_of_absent by done. lia.
  + set (a := MkAdjustment id (- currentStake o id)).
    assert (Ha : a ∈ final).
    { apply Hkeep; [unfold a; simpl; lia|]. unfold first_adjustments. apply list_elem_of_filter. split.
      - unfold too_small, a. cbn [ad_sponsorshipId]. destruct (map_has id (stakeableSponsorships o)) eqn:Hh;
          [by apply map_has_spec in Hh|by rewrite andb_false_r].
      - unfold adjustments_of. apply list_elem_of_filter. split; [unfold a; simpl; lia|].
        apply list_elem_of_fmap. exists id. rewrite Ht. split; [done|]. rewrite targets_keys.
        apply elem_of_app. right. by apply list_elem_of_filter. }
    change id with (ad_sponsorshipId a). rewrite change_of_found by done. unfold a. simpl. lia.
Qed.

(** The plan keeps the limits.  Every action moves a positive amount, at least the minimum transaction
    unless it unstakes from an expired sponsorship; a stake goes to a selected sponsorship, and a first one is
    at least the minimum stake; an unstake takes all of it or leaves at least the minimum stake,
    and takes all of it only from a sponsorship that is not selected. *)
Theorem plan_respects_limits :
  ∃ actions, adjustStakes md5_int32 o = Return actions ∧
    Forall (λ a,
      let id := ac_sponsorshipId a in
      (0 < ac_amount a)%Z
      ∧ (minTransactionAmount o ≤ ac_amount a
         ∨ ac_type a = TUnstake ∧ id ∉ (stakeableSponsorships o).*1)%Z
      ∧ match ac_type a with
        | TStake => id ∈ selected ∧ (id ∈ (myCurrentStakes o).*1 ∨ minStakePerSponsorship o ≤ ac_amount a)%Z
        | TUnstake =>
            (currentStake o id = ac_amount a ∧ id ∉ selected)
            ∨ (id ∈ selected ∧ minStakePerSponsorship o ≤ currentStake o id - ac_amount a)%Z
        end) actions.
Proof using Hok.
  exists (orderedActions (action_of <$> final)). rewrite adjustStakes_spec, sortBy_ordered by done.
  split; [done|]. rewrite ordered_perm. apply Forall_forall. intros b (a & -> & Ha)%list_elem_of_fmap.
  destruct (action_of_good a Ha) as [[Hnz Hfund Hsize Hstake Hleft] ->]. cbv zeta.
  destruct (action_of_cases a) as [(-> & -> & Hd)|(-> & -> & Hd)].
  - destruct (Hstake Hd) as [Hsel Hnew]. split_and!; [done|left; destruct Hsize as [?|[? _]]; lia|done|].
    destruct (decide (ad_sponsorshipId a ∈ (myCurrentStakes o).*1)); [by left|right; by apply Hnew].
  - assert (Hneg : (ad_difference a < 0)%Z) by lia. split_and!; [lia| |].
    + destruct Hsize as [?|[_ ?]]; [left; lia|by right].
    + destruct (Hleft Hneg) as [[? ?]|[? ?]]; [left; split; [lia|done]|right; split; [done|lia]].
Qed.

(** Which sponsorships are selected: as many as the limits and the tokens allow; those the operator has staked
    to before any other; and among the others, none that is left out pays more than one that is
    chosen. *)
Theorem selection_spec :
  NoDup selected
  ∧ Z.of_nat (length selected) = sponsorship_count o (totalStakeable o)
  ∧ (Forall (λ id, id ∈ keptSponsorships o) selected ∨ Forall (λ id, id ∈ selected) (keptSponsorships o))
  ∧ Forall (λ new, Forall (λ other, other ∈ selected ∨ payoutOf o other ≤ payoutOf o new)%Z
                     (potentialSponsorships o))
      (filter (λ id, id ∈ potentialSponsorships o) selected).
Proof using Hok.
  set (cands := keptSponsorships o ++ sortBy (sponsorship_lt md5_int32 o) (potentialSponsorships o)).
  pose proof (candidates_perm md5_int32 o) as Hperm. fold cands in Hperm.
  pose proof (selected_take md5_int32 o Hok) as Hsel. fold cands in Hsel.
  pose proof (count_nonneg o Hok) as Hc. set (n := Z.to_nat _) in Hsel.
  assert (Hn : n ≤ length cands).
  { rewrite Hperm, length_fmap. subst n. unfold sponsorship_count in *. destruct (0 <? _)%Z; lia. }
  split_and!; [by apply selected_nodup|rewrite Hsel, length_take; lia| |].
  - rewrite Hsel. unfold cands. destruct (decide (n ≤ length (keptSponsorships o))) as [Hle|Hgt]; [left|right].
    + rewrite take_app_le by done. apply Forall_forall. intros id [i [Hi _]%lookup_take_Some]%list_elem_of_lookup.
      by eapply list_elem_of_lookup_2.
    + rewrite take_app_ge by lia. apply Forall_forall. intros id Hid. apply elem_of_app. by left.
  - apply Forall_forall. intros new [Hnew Hin]%list_elem_of_filter. apply Forall_forall. intros other Hother.
    destruct (decide (other ∈ selected)) as [?|Hout]; [by left|right].
    assert (Hpot : ∀ id, id ∈ potentialSponsorships o → id ∉ keptSponsorships o).
    { intros id [Hnk _]%list_elem_of_filter [Hk _]%list_elem_of_filter.
      by destruct (map_has id (myCurrentStakes o)). }
    set (m := n - length (keptSponsorships o)).
    set (sorted := sortBy (sponsorship_lt md5_int32 o) (potentialSponsorships o)).
    assert (Htake : ∀ id, id ∈ potentialSponsorships o → id ∈ selected ↔ id ∈ take m sorted).
    { intros id Hid%Hpot. rewrite Hsel. unfold cands. rewrite take_app, elem_of_app. fold m sorted.
      split; [|by right]. intros [Hk|?]; [|done]. destruct Hid.
      apply list_elem_of_lookup in Hk as [i [Hi _]%lookup_take_Some]. by eapply list_elem_of_lookup_2. }
    apply Htake in Hin; [|done]. rewrite Htake in Hout by done.
    assert (Hos : other ∈ sorted) by (unfold sorted; by rewrite sortBy_perm).
    assert (Hs : StronglySorted (not_after (sponsorship_lt md5_int32 o)) sorted).
    { apply sortBy_sorted; unfold sponsorship_lt; intros; lia. }
    destruct (StronglySorted_take_rest _ _ _ _ _ Hs Hos Hout Hin) as [_ Hle].
    unfold not_after, sponsorship_lt in Hle. lia.
Qed.

(** The balancing loop ends.  A round that continues drops one staking, so as many rounds as there are
    stakings are enough: any larger bound gives the same result, and at the result the loop's condition to
    go on is false. *)
Theorem balancing_terminates fuel :
  length (stakings (first_adjustments md5_int32 o)) ≤ fuel →
  balance o fuel (first_adjustments md5_int32 o) = final
  ∧ ((excess_of o final ≤ 0)%Z ∨ stakings final = []).
Proof using Hok.
  intros Hfuel. split; [by apply balance_fuel|]. apply (final_balanced md5_int32 o Hok).
Qed.
End plan_theorems.

(** C13: The plan can be executed, if the operator's tokens cover the undelegation queue.  For
    amounts and limits that are not negative, sponsorships that pay, and an undelegation
    queue that does not exceed all the tokens of the operator, staked and unstaked (for a
    larger queue it is false: [overdrawn_plan_fails]), the strategy returns a plan;
    executed in order, no action spends more than there is; nothing stays staked to a
    sponsorship that has expired; and if anything is staked, what is left in the operator
    contract covers the undelegation queue. *)
Theorem plan_is_executable md5_int32 o :
  amounts_ok o → (undelegationQueueAmount o ≤ sum (myCurrentStakes o).*2 + myUnstakedAmount o)%Z →
  ∃ actions w, adjustStakes md5_int32 o = Return actions
    ∧ exec_plan actions (wallet_of o) = Some w
    ∧ (0 ≤ w_unstaked w)%Z
    ∧ (filter (λ a, ac_type a = TStake) actions = [] ∨ undelegationQueueAmount o ≤ w_unstaked w)%Z
    ∧ Forall (λ id, id ∈ (stakeableSponsorships o).*1 ∨ staked_in w id = 0%Z) (myCurrentStakes o).*1.
Proof.
  intros Ham Hqueue.
  assert (Hok : inputs_ok o) by (split; [done|]; unfold totalStakeable; lia).
  destruct (plan_runs md5_int32 o Hok) as (w & Hex & Hun & Hst).
  pose proof (final_balanced md5_int32 o Hok) as [Hexc Hids Hgood Hkeep].
  pose proof (sum_unstakings (final_adjustments md5_int32 o)) as [_ Hnn]. pose proof (io_unstaked _ Hok). pose proof (io_queue _ Hok).
  exists (orderedActions (action_of <$> (final_adjustments md5_int32 o))), w.
  rewrite adjustStakes_spec, sortBy_ordered by done. split_and!; [done|done| | |].
  - destruct Hexc as [He|He]; [rewrite excess_spec in He; lia|].
    pose proof (sum_stakings (final_adjustments md5_int32 o)) as Hs. rewrite He in Hs. simpl in Hs. lia.
  - destruct Hexc as [He|He]; [right; rewrite excess_spec in He; lia|left].
    apply filter_none. intros b Hb. rewrite ordered_perm in Hb.
    apply list_elem_of_fmap in Hb as (a & -> & Ha). intros Ht.
    destruct (action_of_cases a) as [(_ & _ & Hd)|(Ht' & _)]; [|congruence].
    assert (a ∈ stakings (final_adjustments md5_int32 o)) as Hin by by apply list_elem_of_filter.
    rewrite He in Hin. by apply not_elem_of_nil in Hin.
  - apply Forall_forall. intros id Hcur. destruct (decide (id ∈ (stakeableSponsorships o).*1)) as [?|Hexp];
      [by left|right]. rewrite Hst. by apply expired_change.
Qed.

Module PayoutWitness.
(** A hash for the examples. *)
Definition hash (s : string) : Z := Z.of_nat (String.length s).

(** One expired stake, one that pays little, and two that are new; the small top-up of [a]
    is dropped, and the stake of [c] reduced. *)
Definition opts : StakeOpts :=
  MkStakeOpts [("x", 3000%Z); ("a", 5300%Z)] 2500 [("a", 3%Z); ("b", 1%Z); ("c", 5%Z)] 100 "0x" 2 1000 4000.

Lemma opts_amounts : amounts_ok opts.
Proof.
  split; try done.
  - refine (bool_decide_eq_true_1 _ _). vm_compute. reflexivity.
  - refine (bool_decide_eq_true_1 _ _). vm_compute. reflexivity.
  - repeat constructor; done.
  - repeat constructor; done.
Qed.

Lemma opts_ok : inputs_ok opts.
Proof. split; [exact opts_amounts|done]. Qed.

Definition plan : outcome js_error (list Action) := adjustStakes hash opts.
Definition small_adjustments : list adjustment := first_adjustments hash opts.

Lemma plan_computed :
  plan = Return [MkAction TUnstake "x" 3000; MkAction TStake "c" 5400].
Proof. vm_compute. reflexivity. Qed.

Lemma plan_is_executable_witness :
  ∃ actions w, plan = Return actions
    ∧ exec_plan actions (wallet_of opts) = Some w
    ∧ (0 ≤ w_unstaked w)%Z
    ∧ (filter (λ a, ac_type a = TStake) actions = [] ∨ undelegationQueueAmount opts ≤ w_unstaked w)%Z
    ∧ Forall (λ id, id ∈ (stakeableSponsorships opts).*1 ∨ staked_in w id = 0%Z) (myCurrentStakes opts).*1.
Proof. apply (plan_is_executable hash opts opts_amounts). by vm_compute. Defined.

Lemma plan_respects_limits_witness :
  ∃ actions, plan = Return actions ∧
    Forall (λ a,
      let id := ac_sponsorshipId a in
      (0 < ac_amount a)%Z
      ∧ (minTransactionAmount opts ≤ ac_amount a
         ∨ ac_type a = TUnstake ∧ id ∉ (stakeableSponsorships opts).*1)%Z
      ∧ match ac_type a with
        | TStake => id ∈ getSelectedSponsorships hash opts (totalStakeable opts)
                    ∧ (id ∈ (myCurrentStakes opts).*1 ∨ minStakePerSponsorship opts ≤ ac_amount a)%Z
        | TUnstake =>
            (currentStake opts id = ac_amount a ∧ id ∉ getSelectedSponsorships hash opts (totalStakeable opts))
            ∨ (id ∈ getSelectedSponsorships hash opts (totalStakeable opts)
               ∧ minStakePerSponsorship opts ≤ currentStake opts id - ac_amount a)%Z
        end) actions.
Proof. exact (plan_respects_limits hash opts opts_ok). Defined.

Lemma selection_spec_witness :
  let selected := getSelectedSponsorships hash opts (totalStakeable opts) in
  NoDup selected
  ∧ Z.of_nat (length selected) = sponsorship_count opts (totalStakeable opts)
  ∧ (Forall (λ id, id ∈ keptSponsorships opts) selected ∨ Forall (λ id, id ∈ selected) (keptSponsorships opts))
  ∧ Forall (λ new, Forall (λ other, other ∈ selected ∨ payoutOf opts other ≤ payoutOf opts new)%Z
                     (potentialSponsorships opts))
      (filter (λ id, id ∈ potentialSponsorships opts) selected).
Proof. exact (selection_spec hash opts opts_ok). Defined.

Lemma balancing_terminates_witness :
  balance opts 7 small_adjustments = final_adjustments hash opts
  ∧ ((excess_of opts (final_adjustments hash opts) ≤ 0)%Z ∨ stakings (final_adjustments hash opts) = []).
Proof. apply (balancing_terminates hash opts opts_ok 7). vm_compute. lia. Defined.

(** When the undelegation queue exceeds all tokens, the count of sponsorships is negative
    and [slice] selects all but the last: the targets are negative, and the plan unstakes
    more than is staked. *)
Definition overdrawn : StakeOpts :=
  MkStakeOpts [("a", 100%Z); ("b", 100%Z); ("c", 100%Z)] 0 [("a", 1%Z); ("b", 1%Z); ("c", 1%Z)] 450 "0x" 25 10 100.

Lemma overdrawn_plan_fails :
  adjustStakes hash overdrawn =
    Return [MkAction TUnstake "a" 175; MkAction TUnstake "b" 175; MkAction TUnstake "c" 100]
  ∧ exec_plan [MkAction TUnstake "a" 175; MkAction TUnstake "b" 175; MkAction TUnstake "c" 100]
      (wallet_of overdrawn) = None.
Proof. split; vm_compute; reflexivity. Qed.
End PayoutWitness.

(** * The inputs of a run *)

(** The plan of a run is submitted in its own order, with consecutive nonces. *)
Lemma runActions_spec md5_int32 cfg minStake c actions :
  adjustStakes md5_int32 (stake_opts cfg minStake c) = Return actions →
  inputs_ok (stake_opts cfg minStake c) →
  runActions md5_int32 cfg minStake c
  = Return (imap (λ i a, (ca_transactionCount c + Z.of_nat i, a)%Z) actions).
Proof.
  intros Hplan Hok. unfold runActions. rewrite Hplan. cbn [outcome_bind]. do 2 f_equal.
  rewrite adjustStakes_spec in Hplan by done. injection Hplan as <-. rewrite !sortBy_ordered.
  unfold orderedActions. rewrite !filter_app, !list_filter_filter.
  rewrite (filter_none (λ x, ac_type x = TUnstake ∧ ac_type x = TStake)),
    (filter_none (λ x, ac_type x = TStake ∧ ac_type x = TUnstake)) by (intros ? _ [? ?]; congruence).
  rewrite app_nil_r. simpl. f_equal; apply list_filter_iff; tauto.
Qed.
