(* ===== verification/Failover.v ===== *)
(** Which RPC provider answers a read of the chain: ProviderHealth.ts and
    FailoverProvider.ts of packages/sdk/src.

    A provider is its index; the class [FallbackProvider] of ethers, which handles the
    calls with a quorum other than 1, is not part of the model.  A call is a state machine:
    its events are its timers and the answers of the providers it asked. *)

From S2P Require Import Prelude.
From S2P Require Import Js.
From stdpp Require Import sorting.

Set Default Proof Using "Type".

(** * ProviderHealth.ts *)

Definition FAILURES_TO_SET_ASIDE : Z := 2.
Definition FIRST_COOLDOWN : Z := 30 * 1000.
Definition MAX_COOLDOWN : Z := 5 * 60 * 1000.

Notation provider := nat.

Record State := MkState { hs_failures : Z; hs_cooldown : Z; hs_asideUntil : Z }.

Notation health := (gmap provider State).

Definition health_new (providers : list provider) : health :=
  list_to_map ((λ p, (p, MkState 0 0 0)) <$> providers).

(** [random i] is [Math.floor(Math.random() * (i + 1))]. *)
Definition shuffle_swap {A} (random : nat → nat) (result : list A) (i : nat) : list A :=
  let j := random i in
  match result !! i, result !! j with
  | Some x, Some y => <[j := x]> (<[i := y]> result)
  | _, _ => result
  end.

(** The loop from the last index down to 1. *)
Definition shuffle {A} (random : nat → nat) (items : list A) : list A :=
  foldl (shuffle_swap random) items (reverse (seq 1 (length items - 1))).

Definition asideUntil (h : health) (p : provider) : Z :=
  match h !! p with Some s => hs_asideUntil s | None => 0 end.

Definition order (random : nat → nat) (now : Z) (h : health) (providers : list provider) : list provider :=
  let healthy := filter (λ p, asideUntil h p ≤ now)%Z providers in
  let aside := sortBy (λ a b, asideUntil h a <? asideUntil h b)%Z
                 (filter (λ p, now < asideUntil h p)%Z providers) in
  shuffle random healthy ++ aside.

Definition recordSuccess (p : provider) (h : health) : health :=
  match h !! p with
  | None => h
  | Some s => if (hs_failures s =? 0)%Z then h else <[p := MkState 0 0 0]> h
  end.

Definition recordFailure (now : Z) (p : provider) (h : health) : health :=
  match h !! p with
  | None => h
  | Some s =>
      if (now <? hs_asideUntil s)%Z then h
      else
        let failures := (hs_failures s + 1)%Z in
        if (FAILURES_TO_SET_ASIDE <=? failures)%Z then
          let cooldown := if (hs_cooldown s =? 0)%Z then FIRST_COOLDOWN
                          else Z.min (hs_cooldown s * 2) MAX_COOLDOWN in
          <[p := MkState failures cooldown (now + cooldown)]> h
        else <[p := MkState failures (hs_cooldown s) (hs_asideUntil s)]> h
  end.

(** * FailoverProvider.ts *)

Definition PROVIDER_FAILURES : list string :=
  ["SERVER_ERROR"; "TIMEOUT"; "NETWORK_ERROR"; "UNKNOWN_ERROR"].

Definition isProviderFailure (err : js_error) : bool :=
  existsb (λ code, has_code code err) PROVIDER_FAILURES.

Section call.
Context {T : Type}.

(** An attempt: whether its answer has been judged, which clears its timer, and what the
    provider answered. *)
Record attempt := MkAttempt {
  at_provider : provider; at_judged : bool; at_answer : option (outcome js_error T) }.

(** The variables of [performWithFailover]; [fc_result] is how the promise was settled. *)
Record call := MkCall {
  fc_queue : list provider;
  fc_attempts : list attempt;
  fc_pending : Z;
  fc_result : option (outcome js_error T);
  fc_lastFailure : option js_error;
  fc_attemptTimer : bool;
  fc_callTimer : bool;
  fc_health : health
}.

Definition settled (c : call) : bool := match fc_result c with Some _ => true | None => false end.

Definition settle (r : outcome js_error T) (c : call) : call :=
  if settled c then c
  else MkCall (fc_queue c) (fc_attempts c) (fc_pending c) (Some r) (fc_lastFailure c) false false (fc_health c).

Definition launchNext (c : call) : call :=
  match fc_queue c with
  | [] => MkCall [] (fc_attempts c) (fc_pending c) (fc_result c) (fc_lastFailure c) false (fc_callTimer c) (fc_health c)
  | p :: queue =>
      if settled c
      then MkCall queue (fc_attempts c) (fc_pending c) (fc_result c) (fc_lastFailure c) false (fc_callTimer c) (fc_health c)
      else MkCall queue (fc_attempts c ++ [MkAttempt p false None]) (fc_pending c + 1) (fc_result c)
             (fc_lastFailure c) true (fc_callTimer c) (fc_health c)
  end.

Definition performWithFailover (queue : list provider) (h : health) : call :=
  launchNext (MkCall queue [] 0 None None false true h).

Definition with_health (h : health) (c : call) : call :=
  MkCall (fc_queue c) (fc_attempts c) (fc_pending c) (fc_result c) (fc_lastFailure c) (fc_attemptTimer c)
    (fc_callTimer c) h.

(** The function [judgeAttempt] returns, for the attempt [k]. *)
Definition judge (now : Z) (k : nat) (answered : bool) (c : call) : call :=
  match fc_attempts c !! k with
  | Some (MkAttempt p false a) =>
      MkCall (fc_queue c) (<[k := MkAttempt p true a]> (fc_attempts c)) (fc_pending c) (fc_result c)
        (fc_lastFailure c) (fc_attemptTimer c) (fc_callTimer c)
        (if answered then recordSuccess p (fc_health c) else recordFailure now p (fc_health c))
  | _ => c
  end.

Definition set_answer (k : nat) (a : outcome js_error T) (c : call) : call :=
  MkCall (fc_queue c) (alter (λ t, MkAttempt (at_provider t) (at_judged t) (Some a)) k (fc_attempts c))
    (fc_pending c) (fc_result c) (fc_lastFailure c) (fc_attemptTimer c) (fc_callTimer c) (fc_health c).

(** The two callbacks of the attempt [k]. *)
Definition on_answer (now : Z) (k : nat) (a : outcome js_error T) (c : call) : call :=
  match a with
  | Return result => settle (Return result) (judge now k true c)
  | Throw error =>
      let c := MkCall (fc_queue c) (fc_attempts c) (fc_pending c - 1) (fc_result c) (fc_lastFailure c)
                 (fc_attemptTimer c) (fc_callTimer c) (fc_health c) in
      if negb (isProviderFailure error) then settle (Throw error) (judge now k true c)
      else
        let c := judge now k false c in
        let c := MkCall (fc_queue c) (fc_attempts c) (fc_pending c) (fc_result c) (Some error)
                   (fc_attemptTimer c) (fc_callTimer c) (fc_health c) in
        if (0 <? length (fc_queue c))%nat then launchNext c
        else if (fc_pending c =? 0)%Z then settle (Throw error) c
        else c
  end.

Definition timeout_error : js_error := MkError (Some "TIMEOUT") "RPC call timed out".

Inductive call_event :=
  | CallTimer
  | AttemptTimer
  | SlowTimer (k : nat)
  | Answers (k : nat) (a : outcome js_error T).

(** A timer that was cleared does not fire, and a promise settles once. *)
Definition call_step (c : call) (now : Z) (ev : call_event) : call :=
  match ev with
  | CallTimer =>
      if fc_callTimer c then settle (Throw (default timeout_error (fc_lastFailure c))) c else c
  | AttemptTimer => if fc_attemptTimer c then launchNext c else c
  | SlowTimer k => judge now k false c
  | Answers k a =>
      match fc_attempts c !! k with
      | Some (MkAttempt _ _ None) => on_answer now k a (set_answer k a c)
      | _ => c
      end
  end.

Definition call_run (c : call) (evs : list (Z * call_event)) : call :=
  foldl (λ c ev, call_step c ev.1 ev.2) c evs.
End call.
Arguments attempt : clear implicits.
Arguments call : clear implicits.
Arguments call_event : clear implicits.

(** * Health *)

Lemma shuffle_swap_perm {A} random (l : list A) i : shuffle_swap random l i ≡ₚ l.
Proof.
  unfold shuffle_swap. destruct (l !! i) as [x|] eqn:Hi; [|done]. destruct (l !! random i) as [y|] eqn:Hj; [|done].
  destruct (decide (i = random i)) as [Heq|Hne].
  { rewrite <-Heq in *. assert (y = x) as -> by congruence. by rewrite !list_insert_id by (rewrite ?list_insert_id; done). }
  apply Permutation_inj. rewrite !length_insert. split; [done|].
  exists (λ k, if decide (k = i) then random i else if decide (k = random i) then i else k). split.
  - intros k k' Hk. repeat case_decide; congruence.
  - intros k. destruct (decide (k = random i)) as [->|Hkj].
    + rewrite list_lookup_insert_eq by (rewrite length_insert; by eapply lookup_lt_Some).
      repeat case_decide; congruence.
    + rewrite list_lookup_insert_ne by done. destruct (decide (k = i)) as [->|Hki]; [|by rewrite list_lookup_insert_ne].
      rewrite list_lookup_insert_eq by by eapply lookup_lt_Some. by rewrite Hj.
Qed.

Lemma shuffle_perm {A} random (l : list A) : shuffle random l ≡ₚ l.
Proof.
  unfold shuffle. generalize (reverse (seq 1 (length l - 1))). intros ixs. revert l.
  induction ixs as [|i ixs IH]; intros l; [done|]. simpl. by rewrite IH, shuffle_swap_perm.
Qed.

Lemma filter_split_perm {A} (P Q : A → Prop) `{∀ x, Decision (P x), ∀ x, Decision (Q x)} (l : list A) :
  (∀ x, Q x ↔ ¬ P x) → filter P l ++ filter Q l ≡ₚ l.
Proof.
  intros HPQ. induction l as [|x l IH]; [done|]. rewrite !filter_cons.
  destruct (decide (P x)) as [HP|HP].
  - rewrite decide_False by by rewrite HPQ; tauto. simpl. by rewrite IH.
  - rewrite decide_True by by apply HPQ. rewrite <-Permutation_middle. by rewrite IH.
Qed.

Lemma order_perm random now (h : health) providers : order random now h providers ≡ₚ providers.
Proof. unfold order. rewrite shuffle_perm, sortBy_perm. apply filter_split_perm. intros p. lia. Qed.

(** What [ProviderHealth] is told: at a time, that a provider failed or answered. *)
Definition health_step (h : health) (ev : Z * provider * bool) : health :=
  let '(now, p, answered) := ev in if answered then recordSuccess p h else recordFailure now p h.

(** The cooldown after a number of failures in a row. *)
Definition cooldown_of (failures : Z) : Z :=
  if (failures <? FAILURES_TO_SET_ASIDE)%Z then 0
  else Z.min (FIRST_COOLDOWN * 2 ^ (failures - FAILURES_TO_SET_ASIDE)) MAX_COOLDOWN.

Lemma cooldown_of_next f :
  (FAILURES_TO_SET_ASIDE <= f + 1)%Z →
  (if (cooldown_of f =? 0)%Z then FIRST_COOLDOWN else Z.min (cooldown_of f * 2) MAX_COOLDOWN) = cooldown_of (f + 1).
Proof.
  unfold cooldown_of, FAILURES_TO_SET_ASIDE, FIRST_COOLDOWN, MAX_COOLDOWN. intros Hf.
  destruct (Z.ltb_spec (f + 1) 2); [lia|]. destruct (Z.ltb_spec f 2).
  - assert (f = 1)%Z as -> by lia. done.
  - replace (f + 1 - 2)%Z with (Z.succ (f - 2)) by lia. rewrite Z.pow_succ_r by lia.
    pose proof (Z.pow_pos_nonneg 2 (f - 2) ltac:(lia) ltac:(lia)).
    destruct (Z.eqb_spec (Z.min (30 * 1000 * 2 ^ (f - 2)) (5 * 60 * 1000)) 0); lia.
Qed.

Lemma cooldown_of_bounds f :
  (0 ≤ cooldown_of f ≤ MAX_COOLDOWN)%Z ∧ (FAILURES_TO_SET_ASIDE ≤ f → FIRST_COOLDOWN ≤ cooldown_of f)%Z.
Proof.
  unfold cooldown_of, FAILURES_TO_SET_ASIDE, FIRST_COOLDOWN, MAX_COOLDOWN.
  destruct (Z.ltb_spec f 2); [lia|]. pose proof (Z.pow_pos_nonneg 2 (f - 2) ltac:(lia) ltac:(lia)). lia.
Qed.

(** The invariant of a provider's state at the time [t]. *)
Record state_ok (t : Z) (s : State) : Prop := {
  so_failures : (0 ≤ hs_failures s)%Z;
  so_cooldown : hs_cooldown s = cooldown_of (hs_failures s);
  so_aside : hs_asideUntil s = 0%Z ∧ (hs_failures s < FAILURES_TO_SET_ASIDE)%Z
             ∨ (hs_asideUntil s ≤ t + hs_cooldown s)%Z ∧ (FAILURES_TO_SET_ASIDE ≤ hs_failures s)%Z;
}.

Lemma health_step_ok t now p b h :
  (t ≤ now)%Z → map_Forall (λ _, state_ok t) h → map_Forall (λ _, state_ok now) (health_step h (now, p, b)).
Proof.
  intros Ht Hh.
  assert (Hnow : map_Forall (λ _, state_ok now) h).
  { intros q s Hs. destruct (Hh q s Hs) as [H1 H2 H3]. split; [done|done|]. lia. }
  unfold health_step, recordSuccess, recordFailure. destruct (h !! p) as [s|] eqn:Hp; [|by destruct b].
  destruct (Hnow p s Hp) as [Hf Hc Ha]. destruct b.
  - case_match; [done|]. apply map_Forall_insert_2; [|done]. split; simpl; [done|done|left]. done.
  - case_match; [done|]. case_match eqn:Hle; apply map_Forall_insert_2; try done.
    + apply Z.leb_le in Hle. rewrite Hc, cooldown_of_next by done. split; simpl; [lia|done|right].
      unfold FAILURES_TO_SET_ASIDE in *. lia.
    + apply Z.leb_gt in Hle. split; simpl; [lia| |left].
      * rewrite Hc. unfold cooldown_of, FAILURES_TO_SET_ASIDE in *.
        destruct (Z.ltb_spec (hs_failures s) 2); [|lia]. by destruct (Z.ltb_spec (hs_failures s + 1) 2); [|lia].
      * unfold FAILURES_TO_SET_ASIDE in *. destruct Ha as [[? _]|[_ ?]]; [done|lia].
Qed.

Definition event_time (ev : Z * provider * bool) : Z := ev.1.1.

Lemma health_run_ok t t' evs h :
  Sorted Z.le (t :: (event_time <$> evs) ++ [t']) → map_Forall (λ _, state_ok t) h →
  map_Forall (λ _, state_ok t') (foldl health_step h evs).
Proof.
  revert t h. induction evs as [|[[now p] b] evs IH]; intros t h Hs Hh.
  - simpl in Hs. apply Sorted_inv in Hs as [_ Hhd]. apply HdRel_inv in Hhd. intros q s Hq.
    destruct (Hh q s Hq) as [H1 H2 H3]. split; [done|done|]. simpl in *. lia.
  - rewrite fmap_cons in Hs. cbn [app] in Hs. apply Sorted_inv in Hs as [Hs Hhd]. apply HdRel_inv in Hhd.
    cbn [foldl]. apply (IH now); [exact Hs|]. by apply (health_step_ok t).
Qed.

Lemma health_new_ok providers : map_Forall (λ _, state_ok 0) (health_new providers).
Proof.
  intros p s Hs. apply elem_of_list_to_map_2, list_elem_of_fmap in Hs as (q & [= -> ->] & _).
  split; simpl; [done|done|left]. done.
Qed.

Lemma StronglySorted_mono {A} (R R' : A → A → Prop) (l : list A) :
  (∀ x y, R x y → R' x y) → StronglySorted R l → StronglySorted R' l.
Proof.
  intros HR. induction 1 as [|x l _ IH Hx]; constructor; [done|]. eapply Forall_impl; [exact Hx|]. apply HR.
Qed.

(** The memory of failures.  After any sequence of successes and failures, a provider's cooldown
    is a function of its failures in a row: none below two, then 30 seconds doubled each time, 5 minutes at
    most, so nobody stays set aside longer than that; and the order in which the providers are asked leaves out none and
    asks none twice, those set aside last. *)
Theorem health_never_excludes providers evs t random :
  Sorted Z.le (0%Z :: (event_time <$> evs) ++ [t]) →
  let h := foldl health_step (health_new providers) evs in
  order random t h providers ≡ₚ providers
  ∧ map_Forall (λ _ s, hs_cooldown s = cooldown_of (hs_failures s)
                       ∧ hs_asideUntil s ≤ t + MAX_COOLDOWN)%Z h
  ∧ ∃ healthy aside, order random t h providers = healthy ++ aside
      ∧ Forall (λ p, asideUntil h p ≤ t)%Z healthy
      ∧ Forall (λ p, t < asideUntil h p ≤ t + MAX_COOLDOWN)%Z aside
      ∧ StronglySorted (λ p q, asideUntil h p ≤ asideUntil h q)%Z aside.
Proof.
  intros Hs. cbv zeta. set (h := foldl _ _ _).
  pose proof (health_run_ok 0 t evs _ Hs (health_new_ok providers)) as Hok. fold h in Hok.
  assert (Ht : (0 ≤ t)%Z).
  { apply Sorted_StronglySorted in Hs; [|intros ???; lia]. apply StronglySorted_inv in Hs as [_ Hall].
    apply Forall_app in Hall as [_ Hall]. exact (Forall_inv Hall). }
  assert (Hbound : map_Forall (λ _ s, hs_cooldown s = cooldown_of (hs_failures s)
                       ∧ hs_asideUntil s ≤ t + MAX_COOLDOWN)%Z h).
  { intros p s Hp. destruct (Hok p s Hp) as [_ Hc Ha]. split; [done|]. rewrite Hc in Ha.
    pose proof (cooldown_of_bounds (hs_failures s)). lia. }
  assert (Haside : ∀ p, (asideUntil h p ≤ t + MAX_COOLDOWN)%Z).
  { intros p. unfold asideUntil. destruct (h !! p) as [s|] eqn:Hp; [exact (proj2 (Hbound p s Hp))|].
    unfold MAX_COOLDOWN. lia. }
  split_and!; [|done|].
  - apply order_perm.
  - unfold order. do 2 eexists. split; [reflexivity|]. split_and!.
    + rewrite shuffle_perm. apply Forall_forall. by intros p [? _]%list_elem_of_filter.
    + rewrite sortBy_perm. apply Forall_forall. by intros p [? _]%list_elem_of_filter.
    + eapply StronglySorted_mono; [|apply sortBy_sorted]; [|intros; lia|intros; lia].
      by intros p q Hpq%Z.ltb_ge.
Qed.

(** * Calls *)

Section call_facts.
Context {T : Type}.
Implicit Types c : call T.

Notation answer := (option (outcome js_error T)).

(** What was asked, and what was answered. *)
Definition asked c : list (provider * answer) := (λ t, (at_provider t, at_answer t)) <$> fc_attempts c.

Definition failed (a : answer) : Prop :=
  match a with Some (Throw e) => isProviderFailure e = true | _ => False end.
#[global] Instance failed_dec a : Decision (failed a).
Proof. destruct a as [[v|e]|]; simpl; apply _. Defined.

Definition is_error (a : answer) : Prop := match a with Some (Throw _) => True | _ => False end.
#[global] Instance is_error_dec a : Decision (is_error a).
Proof. destruct a as [[v|e]|]; simpl; apply _. Defined.

(** Why a call ends as it does: with the answer of a provider; with the failure of one when
    every provider has failed; or when the time of the call is over, with the last failure or
    the timeout. *)
Definition justified (fired : Prop) (qs : list provider) (r : outcome js_error T) (l : list (provider * answer)) : Prop :=
  match r with
  | Return v => ∃ p, (p, Some (Return v)) ∈ l
  | Throw e =>
      (∃ p, (p, Some (Throw e)) ∈ l)
      ∧ (isProviderFailure e = false ∨ (l.*1 = qs ∧ Forall (λ a, failed a.2) l) ∨ fired)
      ∨ fired ∧ e = timeout_error
  end.

Record call_inv (fired : Prop) (qs : list provider) c : Prop := {
  ca_prefix : ∃ dropped, qs = (asked c).*1 ++ dropped ++ fc_queue c
                ∧ (fc_result c = None → dropped = []);
  ca_pending : fc_pending c = Z.of_nat (length (filter (λ a, ¬ is_error a.2) (asked c)));
  ca_running : fc_result c = None →
    fc_callTimer c = true
    ∧ (fc_queue c ≠ [] → fc_attemptTimer c = true)
    ∧ (qs ≠ [] → 0 < fc_pending c)%Z
    ∧ Forall (λ a, a.2 = None ∨ failed a.2) (asked c);
  ca_result r : fc_result c = Some r →
    justified fired qs r (asked c) ∧ fc_callTimer c = false ∧ fc_attemptTimer c = false;
  ca_lastFailure e : fc_lastFailure c = Some e →
    isProviderFailure e = true ∧ ∃ p, (p, Some (Throw e)) ∈ asked c;
}.

Lemma asked_judge now k b c : asked (judge now k b c) = asked c.
Proof.
  unfold judge, asked. destruct (fc_attempts c !! k) as [[p [] a]|] eqn:Hk; [done| |done]. simpl.
  apply list_eq. intros i. rewrite !list_lookup_fmap. destruct (decide (i = k)) as [->|Hne].
  - rewrite list_lookup_insert_eq by by eapply lookup_lt_Some. by rewrite Hk.
  - by rewrite list_lookup_insert_ne.
Qed.

Lemma judge_fields now k b c :
  fc_queue (judge now k b c) = fc_queue c ∧ fc_pending (judge now k b c) = fc_pending c
  ∧ fc_result (judge now k b c) = fc_result c ∧ fc_lastFailure (judge now k b c) = fc_lastFailure c
  ∧ fc_attemptTimer (judge now k b c) = fc_attemptTimer c ∧ fc_callTimer (judge now k b c) = fc_callTimer c.
Proof. unfold judge. by destruct (fc_attempts c !! k) as [[p [] a]|]. Qed.

Lemma call_inv_judge fired qs now k b c :
  call_inv fired qs c → call_inv fired qs (judge now k b c).
Proof.
  intros [H1 H2 H3 H4 H5]. destruct (judge_fields now k b c) as (Hq & Hp & Hr & Hl & Ha & Hc).
  split; rewrite ?asked_judge, ?Hq, ?Hp, ?Hr, ?Hl, ?Ha, ?Hc; done.
Qed.

Lemma call_inv_fired (fired fired' : Prop) qs c :
  (fired → fired') → call_inv fired qs c → call_inv fired' qs c.
Proof.
  intros Hf [H1 H2 H3 H4 H5]. split; [done..| |done]. intros r Hr. destruct (H4 r Hr) as [Hj Ht].
  split; [|done]. destruct r as [v|e]; simpl in *; [done|]. tauto.
Qed.

Lemma call_inv_launch (fired : Prop) qs c :
  (∃ dropped, qs = (asked c).*1 ++ dropped ++ fc_queue c ∧ (fc_result c = None → dropped = [])) →
  fc_pending c = Z.of_nat (length (filter (λ a, ¬ is_error a.2) (asked c))) →
  (fc_result c = None → fc_callTimer c = true ∧ (fc_queue c ≠ [] ∨ (qs ≠ [] → 0 < fc_pending c)%Z)
     ∧ Forall (λ a, a.2 = None ∨ failed a.2) (asked c)) →
  (∀ r, fc_result c = Some r → justified fired qs r (asked c) ∧ fc_callTimer c = false) →
  (∀ e, fc_lastFailure c = Some e → isProviderFailure e = true ∧ ∃ p, (p, Some (Throw e)) ∈ asked c) →
  call_inv fired qs (launchNext c).
Proof.
  intros (dropped & Hq & Hd) Hp Hrun Hres Hlast. unfold launchNext, settled.
  destruct (fc_queue c) as [|p queue] eqn:Hqc.
  - split; simpl; [by exists dropped|done| | |done].
    + intros Hr. destruct (Hrun Hr) as (? & [?|?] & ?); done.
    + intros r Hr. destruct (Hres r Hr). done.
  - destruct (fc_result c) as [r|] eqn:Hr.
    + split; simpl; [|done|done| |done].
      * exists (dropped ++ [p]). by rewrite <-!app_assoc.
      * intros r' Hr'. destruct (Hres r' Hr'). done.
    + destruct (Hrun eq_refl) as (Hct & _ & Hall). rewrite (Hd eq_refl) in Hq.
      assert (Hasked : asked (MkCall queue (fc_attempts c ++ [MkAttempt p false None]) (fc_pending c + 1) None
        (fc_lastFailure c) true (fc_callTimer c) (fc_health c)) = asked c ++ [(p, None)]).
      { unfold asked. simpl. by rewrite fmap_app. }
      split; rewrite ?Hasked; simpl.
      * exists []. rewrite fmap_app, <-app_assoc. done.
      * rewrite filter_app, length_app, Hp, filter_cons, decide_True by (simpl; tauto).
        simpl. lia.
      * intros _. split_and!; [done|done|lia|]. apply Forall_app. split; [done|]. apply Forall_singleton. by left.
      * done.
      * intros e He. destruct (Hlast e He) as [? [q Hin]]. split; [done|]. exists q. apply elem_of_app. by left.
Qed.

Lemma call_inv_settle (fired : Prop) qs r c :
  (∃ dropped, qs = (asked c).*1 ++ dropped ++ fc_queue c ∧ (fc_result c = None → dropped = [])) →
  fc_pending c = Z.of_nat (length (filter (λ a, ¬ is_error a.2) (asked c))) →
  (fc_result c = None → justified fired qs r (asked c)) →
  (∀ r, fc_result c = Some r → justified fired qs r (asked c) ∧ fc_callTimer c = false ∧ fc_attemptTimer c = false) →
  (∀ e, fc_lastFailure c = Some e → isProviderFailure e = true ∧ ∃ p, (p, Some (Throw e)) ∈ asked c) →
  call_inv fired qs (settle r c).
Proof.
  intros (dropped & Hq & Hd) Hp Hr Hres Hlast. unfold settle, settled. destruct (fc_result c) as [r'|] eqn:Hrc.
  - split; rewrite ?Hrc; [by exists dropped|done..].
  - split; simpl; [by exists dropped|done|done| |done].
    intros r' [= <-]. split; [by apply Hr|done].
Qed.

(** The answer of an attempt, in the list of what was asked. *)
Section answered.
Context (l : list (provider * answer)) (k : nat) (p : provider) (a : outcome js_error T).
Context (Hk : l !! k = Some (p, None)).
Notation l' := (<[k := (p, Some a)]> l).

Lemma asked_set_answer c : asked c = l → asked (set_answer k a c) = l'.
Proof using Hk.
  intros Hl. unfold asked in *. simpl. rewrite <-Hl in *. apply list_eq. intros i.
  rewrite list_lookup_fmap. destruct (decide (i = k)) as [->|Hne].
  - rewrite list_lookup_alter_eq, list_lookup_insert_eq by by eapply lookup_lt_Some.
    rewrite list_lookup_fmap in Hk. destruct (fc_attempts c !! k) as [t|]; [|done].
    simpl in *. by injection Hk as <- _.
  - by rewrite list_lookup_alter_ne, list_lookup_insert_ne, list_lookup_fmap.
Qed.

Lemma answered_keys : l'.*1 = l.*1.
Proof using Hk. rewrite list_fmap_insert. apply list_insert_id. by rewrite list_lookup_fmap, Hk. Qed.

Lemma answered_keeps q x : (q, Some x) ∈ l → (q, Some x) ∈ l'.
Proof using Hk.
  intros [i Hi]%list_elem_of_lookup. apply list_elem_of_lookup. exists i.
  rewrite list_lookup_insert_ne; [done|]. intros <-. congruence.
Qed.

Lemma answered_in : (p, Some a) ∈ l'.
Proof using Hk.
  apply list_elem_of_lookup. exists k. rewrite list_lookup_insert_eq; [done|]. by eapply lookup_lt_Some.
Qed.

Lemma answered_count :
  length (filter (λ a, ¬ is_error a.2) l)
  = length (filter (λ a, ¬ is_error a.2) l') + (if decide (is_error (Some a)) then 1 else 0).
Proof using Hk.
  rewrite <-(take_drop_middle l k _ Hk) at 1. rewrite insert_take_drop by by eapply lookup_lt_Some.
  rewrite !filter_app, !filter_cons, !length_app. cbn [snd].
  rewrite (decide_True (P := ¬ is_error None)) by (simpl; tauto).
  destruct (decide (is_error (Some a))) as [He|He].
  - rewrite decide_False by tauto. simpl. lia.
  - rewrite decide_True by done. simpl. lia.
Qed.

Lemma answered_justified fired qs r : justified fired qs r l → justified fired qs r l'.
Proof using Hk.
  destruct r as [v|e]; simpl.
  - intros [q Hq]. exists q. by apply answered_keeps.
  - intros [[[q Hq] Hwhy]|Hfired]; [left|by right]. split; [exists q; by apply answered_keeps|].
    destruct Hwhy as [?|[[Hqs Hall]|?]]; [by left| |by right; right].
    pose proof (Forall_lookup_1 _ _ _ _ Hall Hk). done.
Qed.

Lemma answered_running :
  failed (Some a) → Forall (λ a, a.2 = None ∨ failed a.2) l → Forall (λ a, a.2 = None ∨ failed a.2) l'.
Proof using Type. intros Ha Hall. apply Forall_insert; [done|]. by right. Qed.
End answered.

Lemma all_failed (l : list (provider * answer)) :
  length (filter (λ a, ¬ is_error a.2) l) = 0 → Forall (λ a, a.2 = None ∨ failed a.2) l →
  Forall (λ a, failed a.2) l.
Proof.
  intros Hlen Hall. apply nil_length_inv in Hlen. apply Forall_forall. intros a Ha.
  destruct (proj1 (Forall_forall _ _) Hall a Ha) as [Hn|?]; [|done].
  assert (a ∈ filter (λ a, ¬ is_error a.2) l) as Hin by (apply list_elem_of_filter; rewrite Hn; simpl; tauto).
  rewrite Hlen in Hin. by apply not_elem_of_nil in Hin.
Qed.

(** The state an answer of the attempt [k] is processed in. *)
Lemma answered_state fired qs c k a p j :
  call_inv fired qs c → fc_attempts c !! k = Some (MkAttempt p j None) →
  ∃ l', asked (set_answer k a c) = l'
    ∧ (p, Some a) ∈ l'
    ∧ (∃ dropped, qs = l'.*1 ++ dropped ++ fc_queue c ∧ (fc_result c = None → dropped = []))
    ∧ (fc_pending c - (if decide (is_error (Some a)) then 1 else 0)
       = Z.of_nat (length (filter (λ a, ¬ is_error a.2) l')))%Z
    ∧ (∀ r, fc_result c = Some r → justified fired qs r l' ∧ fc_callTimer c = false ∧ fc_attemptTimer c = false)
    ∧ (∀ e, fc_lastFailure c = Some e → isProviderFailure e = true ∧ ∃ p, (p, Some (Throw e)) ∈ l')
    ∧ (failed (Some a) → fc_result c = None → Forall (λ a, a.2 = None ∨ failed a.2) l').
Proof.
  intros [Hpre Hpend Hrun Hres Hlast] Hat.
  assert (Hk : asked c !! k = Some (p, None)) by (unfold asked; by rewrite list_lookup_fmap, Hat).
  eexists. split; [by apply (asked_set_answer (asked c) k p a)|]. split_and!.
  - by apply answered_in.
  - by rewrite (answered_keys _ _ _ _ Hk).
  - rewrite Hpend, (answered_count _ _ _ a Hk). destruct (decide _); lia.
  - intros r Hr. destruct (Hres r Hr) as [? ?]. split; [|done]. by apply answered_justified.
  - intros e He. destruct (Hlast e He) as [? [q Hq]]. split; [done|]. exists q. by apply answered_keeps.
  - intros Ha Hr. apply answered_running; [done|]. by destruct (Hrun Hr) as (_ & _ & _ & ?).
Qed.

Lemma on_answer_inv fired qs c now k a p j :
  call_inv fired qs c → fc_attempts c !! k = Some (MkAttempt p j None) →
  call_inv fired qs (on_answer now k a (set_answer k a c)).
Proof.
  intros Hinv Hat. pose proof (ca_running _ _ _ Hinv) as Hrun.
  destruct (answered_state _ _ _ _ a _ _ Hinv Hat) as (l' & Hl' & Hin & Hpre & Hpend & Hres & Hlast & Hall).
  destruct a as [v|e]; cbn [on_answer].
  - rewrite decide_False in Hpend by (simpl; tauto).
    destruct (judge_fields now k true (set_answer k (Return v) c)) as (Hq & Hp & Hr & Hl & Ha & Hc).
    apply call_inv_settle; rewrite ?asked_judge, ?Hq, ?Hp, ?Hr, ?Hl, ?Ha, ?Hc, ?Hl'; simpl; try done; [lia|].
    intros _. by exists p.
  - rewrite decide_True in Hpend by done. set (c0 := MkCall _ _ _ _ _ _ _ _).
    assert (Hl0 : asked c0 = l') by done.
    destruct (isProviderFailure e) eqn:Hf; cbn [negb].
    2:{ destruct (judge_fields now k true c0) as (Hq & Hp & Hr & Hl & Ha & Hc).
        apply call_inv_settle; rewrite ?asked_judge, ?Hq, ?Hp, ?Hr, ?Hl, ?Ha, ?Hc, ?Hl0; simpl; try done.
        intros _. left. split; [by exists p|by left]. }
    destruct (judge_fields now k false c0) as (Hq & Hp & Hr & Hl & Ha & Hc).
    set (c1 := MkCall (fc_queue (judge now k false c0)) _ _ _ (Some e) _ _ _).
    assert (Hl1 : asked c1 = l') by (rewrite <-Hl0, <-(asked_judge now k false c0); done).
    assert (Hlast1 : ∀ e', fc_lastFailure c1 = Some e' →
      isProviderFailure e' = true ∧ ∃ p, (p, Some (Throw e')) ∈ asked c1).
    { simpl. intros e' [= <-]. split; [done|]. exists p. by rewrite Hl1. }
    assert (Hrun1 : fc_result c = None → fc_callTimer c = true ∧ Forall (λ a, a.2 = None ∨ failed a.2) (asked c1)).
    { intros Hn. rewrite Hl1. split; [by destruct (Hrun Hn)|by apply Hall]. }
    assert (Hpre1 : ∃ dropped, qs = (asked c1).*1 ++ dropped ++ fc_queue c1 ∧ (fc_result c1 = None → dropped = [])).
    { rewrite Hl1. simpl. by rewrite Hq, Hr. }
    assert (Hpend1 : fc_pending c1 = Z.of_nat (length (filter (λ a, ¬ is_error a.2) (asked c1)))).
    { rewrite Hl1. simpl. rewrite Hp. simpl. lia. }
    change (fc_queue c1) with (fc_queue (judge now k false c0)). rewrite Hq. change (fc_queue c0) with (fc_queue c).
    change (fc_pending c1) with (fc_pending (judge now k false c0)). rewrite Hp.
    destruct (Nat.ltb_spec 0 (length (fc_queue c))) as [Hne|Hnil].
    + apply call_inv_launch; [done|done| | |done]; simpl; rewrite ?Hr, ?Hc, ?Hl1; simpl.
      * intros Hn. destruct (Hrun1 Hn) as [? Hall1]. rewrite Hl1 in Hall1. split_and!; [done| |done].
        left. rewrite Hq. simpl. by destruct (fc_queue c); [simpl in Hne; lia|].
      * intros r Hrr. by destruct (Hres r Hrr) as (? & ? & _).
    + assert (Hqn : fc_queue c = []) by (destruct (fc_queue c); [done|simpl in Hnil; lia]).
      destruct (Z.eqb_spec (fc_pending c0) 0) as [Hz|Hnz].
      * apply call_inv_settle; [done|done| | |done]; simpl; rewrite ?Hr, ?Hc, ?Ha, ?Hl1; simpl; [|done].
        intros Hn. destruct (Hrun1 Hn) as [_ Hall1]. rewrite Hl1 in Hall1. left. split; [by exists p|].
        right; left. destruct Hpre as (dropped & Hqs & Hd). rewrite (Hd Hn), Hqn, app_nil_r in Hqs.
        split; [done|]. apply all_failed; [|done]. simpl in Hz. lia.
      * split; [done|done| | |done]; simpl; rewrite ?Hr, ?Hc, ?Ha, ?Hq; simpl; [|intros r Hrr; rewrite Hl1; by apply Hres].
        intros Hn. destruct (Hrun1 Hn) as [? Hall1]. split_and!; [done|by rewrite Hqn| |done].
        intros _. rewrite Hp. simpl in *. lia.
Qed.

Lemma call_step_inv fired qs c now ev :
  call_inv fired qs c → call_inv (fired ∨ ev = CallTimer) qs (call_step c now ev).
Proof.
  intros Hinv. pose proof (call_inv_fired fired (fired ∨ ev = CallTimer) qs c (or_introl (B := _)) Hinv) as Hinv'.
  destruct Hinv' as [Hpre Hpend Hrun Hres Hlast]. destruct ev as [| |k|k a]; simpl.
  - destruct (fc_callTimer c) eqn:Hct; [|split; try done; by rewrite Hct].
    apply call_inv_settle; [done|done| |by rewrite Hct|done].
    intros _. destruct (fc_lastFailure c) as [e|] eqn:Hl; simpl; [left|right; auto].
    destruct (Hlast e eq_refl) as [_ [p Hp]]. split; [by exists p|]. auto.
  - destruct (fc_attemptTimer c) eqn:Hat; [|split; try done; by rewrite Hat].
    apply call_inv_launch; [done|done| | |done].
    + intros Hr. destruct (Hrun Hr) as (? & _ & ? & ?). auto.
    + intros r Hr. by destruct (Hres r Hr) as (? & ? & _).
  - apply call_inv_judge. by split.
  - destruct (fc_attempts c !! k) as [[p j [b|]]|] eqn:Hk; [by split| |by split].
    apply (call_inv_fired fired); [by left|]. by eapply on_answer_inv.
Qed.

Lemma call_inv_start qs h : call_inv False qs (performWithFailover (T := T) qs h).
Proof.
  apply call_inv_launch; simpl; [by exists []|done| |done|done].
  intros _. split_and!; [done| |done]. destruct (decide (qs = [])); [right|left]; done.
Qed.

Lemma call_run_inv fired qs c evs :
  call_inv fired qs c → call_inv (fired ∨ ∃ t, (t, CallTimer) ∈ evs) qs (call_run c evs).
Proof.
  revert fired c. induction evs as [|[t ev] evs IH]; intros fired c Hinv; simpl.
  - eapply call_inv_fired; [|exact Hinv]. by left.
  - eapply call_inv_fired; [|apply IH, call_step_inv, Hinv]. simpl. intros [[?| ->]|[t' ?]].
    + by left.
    + right. exists t. by left.
    + right. exists t'. by right.
Qed.

(** A call asks the providers in the given order, each once at most, and ends for a reason: with an
    answer that a provider gave; with an error that is an answer (a revert); with the
    failure of a provider only when all providers have been asked and all have failed; or because the
    time of the call is over. *)
Theorem failover_call_justified qs h evs :
  let c := call_run (T := T) (performWithFailover qs h) evs in
  (asked c).*1 `prefix_of` qs
  ∧ match fc_result c with
    | Some r => justified (∃ t, (t, CallTimer) ∈ evs) qs r (asked c)
    | None => True
    end.
Proof.
  cbv zeta. destruct (call_run_inv False qs _ evs (call_inv_start qs h)) as [(d & Hd & _) _ _ Hres _].
  split; [by eexists|].
  destruct (fc_result _) as [r|]; [|done]. destruct (Hres r eq_refl) as [Hj _].
  destruct r as [v|e]; simpl in *; tauto.
Qed.

(** A call always ends.  While it has not, its timer is running and its firing ends it; as long as a
    provider is left to ask, the timer that asks it is running; and if there are any
    providers, one that was asked has not answered yet. *)
Theorem failover_call_progress qs h evs t :
  let c := call_run (T := T) (performWithFailover qs h) evs in
  settled c = true
  ∨ (settled (call_step c t CallTimer) = true
     ∧ (fc_queue c = [] ∨ fc_attemptTimer c = true
                          ∧ asked (call_step c t AttemptTimer) = asked c ++ [(hd 0 (fc_queue c), None)])
     ∧ (qs = [] ∨ Exists (λ a, a.2 = None) (asked c))).
Proof.
  cbv zeta. set (c := call_run _ _).
  pose proof (call_run_inv False qs _ evs (call_inv_start qs h)) as [_ Hpend Hrun _ _].
  fold c in Hpend, Hrun. unfold settled. destruct (fc_result c) as [r|] eqn:Hr; [by left|right].
  destruct (Hrun eq_refl) as (Hct & Hat & Hp & Hall). split_and!.
  - simpl. rewrite Hct. unfold settle, settled. by rewrite Hr.
  - destruct (fc_queue c) as [|p queue] eqn:Hq; [by left|right]. specialize (Hat ltac:(done)).
    split; [done|]. simpl. rewrite Hat. unfold launchNext, settled. rewrite Hq, Hr.
    unfold asked. simpl. by rewrite fmap_app.
  - destruct (decide (qs = [])) as [?|Hne]; [by left|right]. specialize (Hp Hne).
    destruct (filter (λ a, ¬ is_error a.2) (asked c)) as [|a l] eqn:Hf; [simpl in Hpend; lia|].
    assert (Ha : a ∈ filter (λ a, ¬ is_error a.2) (asked c)) by (rewrite Hf; by left).
    apply list_elem_of_filter in Ha as [Hne' Ha]. apply Exists_exists. exists a. split; [done|].
    destruct (proj1 (Forall_forall _ _) Hall a Ha) as [?|Hfail]; [done|].
    by destruct (a.2) as [[|]|].
Qed.
End call_facts.

(** [_perform]: the calls this class handles itself; [None] is left to [FallbackProvider]. *)
Definition perform {T} (random : nat → nat) (quorum : Z) (broadcastTransaction : bool) (now : Z)
    (h : health) (providers : list provider) : option (call T) :=
  if negb (quorum =? 1)%Z || broadcastTransaction then None
  else Some (performWithFailover (order random now h providers) h).

Module FailoverWitness.
Lemma health_never_excludes_witness :
  let h := foldl health_step (health_new [0; 1; 2]) [(10%Z, 1, false); (20%Z, 1, false); (25%Z, 0, false); (30%Z, 1, true)] in
  order id 40 h [0; 1; 2] ≡ₚ [0; 1; 2]
  ∧ map_Forall (λ _ s, hs_cooldown s = cooldown_of (hs_failures s)
                       ∧ hs_asideUntil s ≤ 40 + MAX_COOLDOWN)%Z h
  ∧ ∃ healthy aside, order id 40 h [0; 1; 2] = healthy ++ aside
      ∧ Forall (λ p, asideUntil h p ≤ 40)%Z healthy
      ∧ Forall (λ p, 40 < asideUntil h p ≤ 40 + MAX_COOLDOWN)%Z aside
      ∧ StronglySorted (λ p q, asideUntil h p ≤ asideUntil h q)%Z aside.
Proof.
  apply (health_never_excludes [0; 1; 2] [(10%Z, 1, false); (20%Z, 1, false); (25%Z, 0, false); (30%Z, 1, true)] 40 id).
  simpl. repeat apply Sorted_cons; try apply Sorted_nil; try apply HdRel_cons; try apply HdRel_nil;
    unfold event_time; simpl; lia.
Defined.
End FailoverWitness.
