(* ===== verification/ChainPoller.v ===== *)
(** [ChainEventPoller] (packages/sdk/src/contracts/ChainEventPoller.ts): the events of the
    contracts, read from the RPC providers in polls, and handed to the listeners.

    The providers' answers, the decoding of a log by ethers and the listeners' code are
    parameters; a poll is an event with the answers it gets.  The providers and their health
    are those of [Failover.v]. *)

From S2P Require Import Prelude.
From S2P Require Import Js.
From S2P Require Import Identifiers.
From S2P Require Import Failover.

Set Default Proof Using "Type".

Definition POLLS_SINCE_LAST_FROM_BLOCK_UPDATE_THRESHOLD : nat := 30.

(** * Listeners and logs *)

Record event_fragment := MkFragment { ef_name : string; ef_topicHash : string }.
#[export] Instance event_fragment_eq_dec : EqDecision event_fragment.
Proof. solve_decision. Defined.

(** [el_onEvent] tells the callbacks apart. *)
Record EventListenerDefinition := MkListener {
  el_onEvent : nat; el_fragment : event_fragment; el_contractAddress : string }.
#[export] Instance listener_eq_dec : EqDecision EventListenerDefinition.
Proof. solve_decision. Defined.

Record log_item := MkLog { li_address : string; li_topic : string; li_data : string; li_blockNumber : Z }.

Section poller.
  Context {A : Type} (decodeEventLog : event_fragment → log_item → outcome js_error A).
  Context (listener_throws : EventListenerDefinition → A → option js_error).
  Implicit Types (l : EventListenerDefinition) (listeners : list EventListenerDefinition) (x : log_item).

(** A decoded event *)
Record contract_event := MkEvent { ce_contractAddress : string; ce_name : string; ce_args : A; ce_blockNumber : Z }.

(** One session of polling; [None] for [fromBlock] until the first block number is known. *)
Record session := MkSession { ss_fromBlock : option Z; ss_pollsSinceFromBlockUpdate : nat; ss_dead : bool }.

Record ChainEventPoller := MkPoller {
  cp_listeners : list EventListenerDefinition;
  cp_health : health;
  cp_session : option session          (** the one whose signal is not aborted *)
}.
Implicit Types (c : ChainEventPoller).

Definition poller_new (h : health) : ChainEventPoller := MkPoller [] h None.

Definition poller_on l c : ChainEventPoller :=
  let started := (0 <? length (cp_listeners c))%nat in
  MkPoller (cp_listeners c ++ [l]) (cp_health c)
    (if started then cp_session c else Some (MkSession None 0 false)).

Definition same_listener l l' : Prop :=
  el_contractAddress l = el_contractAddress l' ∧ ef_topicHash (el_fragment l) = ef_topicHash (el_fragment l') ∧
  el_onEvent l = el_onEvent l'.
#[export] Instance same_listener_dec l l' : Decision (same_listener l l').
Proof. unfold same_listener. apply _. Defined.

Definition poller_off l c : ChainEventPoller :=
  let started := (0 <? length (cp_listeners c))%nat in
  let listeners := filter (λ l', ¬ same_listener l' l) (cp_listeners c) in
  MkPoller listeners (cp_health c)
    (if started && (length listeners =? 0)%nat then None else cp_session c).

(** ** One task, provider by provider *)

(** [withProvider]; the task reads and writes a variable of its caller. *)
Fixpoint try_providers {S T} (task : provider → eff S js_error T) (now : Z) (providers : list provider)
    (lastFailure : outcome js_error T) (hs : health * S) : (health * S) * outcome js_error T :=
  match providers with
  | [] => (hs, lastFailure)
  | p :: providers =>
      let '(h, s) := hs in
      match task p s with
      | (s, Return result) => ((recordSuccess p h, s), Return result)
      | (s, Throw err) =>
          if negb (isProviderFailure err) then ((recordSuccess p h, s), Throw err)
          else try_providers task now providers (Throw err) (recordFailure now p h, s)
      end
  end.

Definition withProvider {S T} (task : provider → eff S js_error T) (random : nat → nat) (now : Z)
    (providers : list provider) (hs : health * S) : (health * S) * outcome js_error T :=
  try_providers task now (order random now hs.1 providers) (Throw (MkError None "undefined")) hs.

(** What the providers answer during a task: the block number, and the logs from a block on *)
Record poll_answers := MkAnswers {
  pa_now : Z;
  pa_random : nat → nat;
  pa_getBlockNumber : provider → outcome js_error Z;
  pa_getLogs : provider → outcome js_error (list log_item);
  pa_abortedAfterNumber : bool         (** the session ends while a block number is awaited *)
}.

(** The first loop of a session: it waits until a block number is known. *)
Definition poller_begin (providers : list provider) (ans : poll_answers) c : ChainEventPoller :=
  match cp_session c with
  | Some (MkSession None polls dead) =>
      let '((h, _), r) := withProvider (λ p, eff_await (pa_getBlockNumber ans p)) (pa_random ans) (pa_now ans) providers (cp_health c, tt) in
      MkPoller (cp_listeners c) h
        (Some (MkSession (match r with Return n => Some n | Throw _ => None end) polls dead))
  | _ => c
  end.

(** The task of a poll, which writes [newFromBlock] *)
Definition poll_task (polls : nat) (ans : poll_answers) (p : provider) : eff Z js_error (option (list log_item)) :=
  λ newFromBlock,
    if (POLLS_SINCE_LAST_FROM_BLOCK_UPDATE_THRESHOLD <=? polls)%nat then
      match pa_getBlockNumber ans p with
      | Throw e => (newFromBlock, Throw e)
      | Return n =>
          ((n + 1)%Z, if pa_abortedAfterNumber ans then Return None
                      else (let? items := pa_getLogs ans p in Return (Some items))%eff)
      end
    else (newFromBlock, (let? items := pa_getLogs ans p in Return (Some items))%eff).

(** ** The events of a poll *)

Definition defines x l : outcome js_error bool :=
  match to_ethereum_address (li_address x) with
  | Throw e => Throw e
  | Return a => Return (bool_decide (el_contractAddress l = a) && bool_decide (ef_topicHash (el_fragment l) = li_topic x))
  end.

(** [find]: the conversion of the address can throw. *)
Fixpoint find_definition x listeners : outcome js_error (option EventListenerDefinition) :=
  match listeners with
  | [] => Return None
  | l :: listeners =>
      match defines x l with
      | Throw e => Throw e
      | Return true => Return (Some l)
      | Return false => find_definition x listeners
      end
  end.

(** The loop over the log items.  An error ends it; the events before it stay. *)
Fixpoint decode_loop listeners (items : list log_item) : list contract_event * option js_error :=
  match items with
  | [] => ([], None)
  | x :: items =>
      match find_definition x listeners with
      | Throw e => ([], Some e)
      | Return None => decode_loop listeners items
      | Return (Some l) =>
          match decodeEventLog (el_fragment l) x with
          | Throw e => ([], Some e)
          | Return args =>
              let '(events, err) := decode_loop listeners items in
              (MkEvent (el_contractAddress l) (ef_name (el_fragment l)) args (li_blockNumber x) :: events, err)
          end
      end
  end.

Record delivery := MkDelivery { dl_listener : EventListenerDefinition; dl_args : A; dl_blockNumber : Z }.

Definition receivers listeners (e : contract_event) : list EventListenerDefinition :=
  filter (λ l, el_contractAddress l = ce_contractAddress e ∧ ef_name (el_fragment l) = ce_name e) listeners.

Definition deliveries listeners (events : list contract_event) : list delivery :=
  events ≫= (λ e, (λ l, MkDelivery l (ce_args e) (ce_blockNumber e)) <$> receivers listeners e).

(** A listener that throws ends the task, after it was called. *)
Fixpoint call_listeners (ds : list delivery) : list delivery * option js_error :=
  match ds with
  | [] => ([], None)
  | d :: ds =>
      match listener_throws (dl_listener d) (dl_args d) with
      | Some e => ([d], Some e)
      | None => let '(done_, err) := call_listeners ds in (d :: done_, err)
      end
  end.

Definition max_block (events : list contract_event) : Z := foldr Z.max 0%Z (ce_blockNumber <$> events).

(** One poll: the state after it, and the calls of the listeners.  When the session is aborted during the poll
    ([aborted]), by the [off] of the last listener, only the health of the providers changes.  A poll whose listener throws is the last one: nothing
    schedules the next. *)
Definition poll (providers : list provider) (ans : poll_answers) (aborted : bool) c : ChainEventPoller * list delivery :=
  match cp_session c with
  | Some (MkSession (Some fromBlock) polls false) =>
      let '((h, newFromBlock), r) :=
        withProvider (poll_task polls ans) (pa_random ans) (pa_now ans) providers (cp_health c, 0%Z) in
      if aborted || pa_abortedAfterNumber ans then (MkPoller [] h None, [])
      else
        let events := match r with
                      | Return items => (λ items, (decode_loop (cp_listeners c) items).1) <$> items
                      | Throw _ => None
                      end in
        let '(called, err) := call_listeners (deliveries (cp_listeners c) (default [] events)) in
        match err with
        | Some _ => (MkPoller (cp_listeners c) h (Some (MkSession (Some fromBlock) polls true)), called)
        | None =>
            let newFromBlock := match events with
                                | Some (e :: es) => (max_block (e :: es) + 1)%Z
                                | _ => newFromBlock
                                end in
            (MkPoller (cp_listeners c) h
               (Some (if bool_decide (is_Some events) && (fromBlock <? newFromBlock)%Z
                      then MkSession (Some newFromBlock) 0 false
                      else MkSession (Some fromBlock) (S polls) false)), called)
        end
  | _ => (c, [])
  end.

Fixpoint poll_run (providers : list provider) (polls : list poll_answers) c : ChainEventPoller * list delivery :=
  match polls with
  | [] => (c, [])
  | ans :: polls =>
      let '(c, out) := poll providers ans false c in
      let '(c, out') := poll_run providers polls c in (c, out ++ out')
  end.
End poller.

(** * Each event once

    The chain is a list of logs in the order of their blocks, which does not change.  An honest provider answers
    with all the logs its filter asks for, up to the block it is at; the block number it gave before is not later. *)

Section exactly_once.
  Context {A : Type} (decode : event_fragment → log_item → A).
  Context (chain : list log_item) (listeners : list EventListenerDefinition).
  Hypothesis chain_sorted : StronglySorted (λ x y, li_blockNumber x ≤ li_blockNumber y)%Z chain.
  Hypothesis chain_blocks : Forall (λ x, 0 ≤ li_blockNumber x ∧ is_ethereum_address (li_address x) = true)%Z chain.
  Implicit Types (x : log_item) (l : EventListenerDefinition) (events : list (@contract_event A)).

Notation decodeEventLog := (λ f x, Return (decode f x)).
Notation no_throw := (λ _ _, None).
Notation poll_ := (poll decodeEventLog no_throw).

(** What the filter of [getLogs] selects *)
Definition in_filter (fromBlock head : Z) x : Prop :=
  to_lower (li_address x) ∈ el_contractAddress <$> listeners ∧
  li_topic x ∈ (λ l, ef_topicHash (el_fragment l)) <$> listeners ∧ (fromBlock ≤ li_blockNumber x ≤ head)%Z.
#[export] Instance in_filter_dec from head x : Decision (in_filter from head x).
Proof. unfold in_filter. apply _. Defined.



(** The listener that decodes a log, and what the log leads to *)
Definition definition_of x : option EventListenerDefinition :=
  snd <$> list_find (λ l, el_contractAddress l = to_lower (li_address x) ∧ ef_topicHash (el_fragment l) = li_topic x) listeners.

Definition wanted x : Prop := is_Some (definition_of x).
#[local] Instance wanted_dec x : Decision (wanted x).
Proof. unfold wanted. apply _. Defined.











(** ** The provider that answers *)









(** ** A run of polls *)




(** ** Whom a log is for

    The specification: a listener is for a log of its contract with its topic, and is called with what it decodes. *)

Definition is_for x l : Prop :=
  el_contractAddress l = to_lower (li_address x) ∧ ef_topicHash (el_fragment l) = li_topic x.
#[local] Instance is_for_dec x l : Decision (is_for x l).
Proof. unfold is_for. apply _. Defined.






End exactly_once.

(** * What breaks it *)

(** After a listener threw, no event is delivered any more. *)
Lemma throwing_listener_ends_polling {A} decode throws providers polls (c : ChainEventPoller) from k :
  cp_session c = Some (MkSession from k true) → poll_run (A := A) decode throws providers polls c = (c, []).
Proof. intros Hs. induction polls as [|ans polls IH]; [done|]. cbn [poll_run]. unfold poll. rewrite Hs. destruct from; by rewrite IH. Qed.

Module PollerWitness.

Definition addr : string := "0x1111111111111111111111111111111111111111".
Definition staked : EventListenerDefinition := MkListener 1 (MkFragment "Staked" "0xaa") addr.
Definition unstaked : EventListenerDefinition := MkListener 2 (MkFragment "Unstaked" "0xbb") addr.

Definition the_chain : list log_item :=
  [MkLog addr "0xaa" "a" 3; MkLog addr "0xcc" "other" 3; MkLog addr "0xbb" "b" 5; MkLog addr "0xaa" "c" 5; MkLog addr "0xbb" "d" 8].

Definition down : js_error := MkError (Some "TIMEOUT") "".

(** Provider 1 is late, and fails in the second poll. *)
Definition heads1 (p : provider) : Z := if (p =? 0)%nat then 5 else 3.
Definition heads2 (p : provider) : Z := if (p =? 0)%nat then 9 else 3.

Definition answers (down1 : bool) (fromBlock : Z) (heads : provider → Z) : poll_answers :=
  MkAnswers 1000 (λ i, i) (λ p, Return (heads p))
    (λ p, if down1 && (p =? 1)%nat then Throw down
          else Return (filter (in_filter [staked; unstaked] fromBlock (heads p)) the_chain)) false.

Definition decode (f : event_fragment) (x : log_item) : string := li_data x.

Definition polls : list (poll_answers * (provider → Z)) :=
  [(answers false 2 heads1, heads1); (answers true 6 heads2, heads2)].

Definition start : ChainEventPoller := MkPoller [staked; unstaked] (health_new [0; 1]) (Some (MkSession (Some 2%Z) 0 false)).

Example polls_deliver :
  (λ d, (el_onEvent (dl_listener d), dl_args d)) <$> (poll_run (λ f x, Return (decode f x)) (λ _ _, None) [0; 1] (fst <$> polls) start).2 =
  [(1, "a"); (2, "b"); (1, "c"); (2, "d")].
Proof. vm_compute. reflexivity. Qed.




(** The second log of block 5 does not decode: it is never delivered, and neither is the third. *)
Definition undecodable (f : event_fragment) (x : log_item) : outcome js_error string :=
  if bool_decide (li_data x = "b") then Throw (MkError None "invalid data") else Return (li_data x).

Example undecodable_log_loses_events :
  let '(c, out) := poll undecodable (λ _ _, None) [0] (MkAnswers 1000 (λ i, i) (λ _, Return 9%Z)
                     (λ _, Return [MkLog addr "0xaa" "a" 5; MkLog addr "0xbb" "b" 5; MkLog addr "0xaa" "c" 5]) false) false start in
  dl_args <$> out = ["a"] ∧ cp_session c = Some (MkSession (Some 6%Z) 0 false).
Proof. split; vm_compute; reflexivity. Qed.

End PollerWitness.
