(* ===== verification/Validation.v ===== *)
(** Validation of stream messages in the SDK: createSignaturePayload.ts,
    createLegacySignaturePayload.ts and SignatureValidator.ts of packages/sdk/src/signature,
    contracts/ERC1271ContractFacade.ts, utils/validateStreamMessage.ts and getPartitionCount of
    StreamMetadata.ts; and what the storage node makes of it (IngestValidator.ts).

    A [world] is what the registry and the ERC-1271 contracts answer at one moment; a
    validation is given the world of its time.  The generated protobuf readers are
    parameters ([proto]). *)

From S2P Require Import Prelude.
From S2P Require Import Js.
From S2P Require Import TtlMap.
From S2P Require Import Identifiers.
From S2P Require Import Ordering.
From S2P Require Import Json.
From S2P Require Import KnownPublic.
From S2P Require Import PomboGates.
From S2P Require Import Ingest.
From S2P Require Import Frames.
From S2P Require Import DataQuery.
From S2P Require Import Text.
From S2P Require Import Signing.

Set Default Proof Using "Type".

(** * Messages (MessageID.ts, StreamMessage.ts) *)

Record MessageID := MkMessageID {
  mid_streamId : string; mid_streamPartition : Z; mid_timestamp : Z; mid_sequenceNumber : Z;
  mid_publisherId : string; mid_msgChainId : string
}.

Record EncryptedGroupKey := MkGroupKey { gk_id : string; gk_data : bytes }.

Definition MESSAGE : Z := 0.
Definition GROUP_KEY_REQUEST : Z := 1.
Definition GROUP_KEY_RESPONSE : Z := 2.

Record StreamMessage := MkMessage {
  vm_messageId : MessageID; vm_prevMsgRef : option MessageRef; vm_messageType : Z;
  vm_content : bytes; vm_contentType : Z; vm_signature : bytes; vm_signatureType : Z; vm_encryptionType : Z;
  vm_groupKeyId : option string; vm_newGroupKey : option EncryptedGroupKey
}.

Definition getStreamId (m : StreamMessage) : string := mid_streamId (vm_messageId m).
Definition getStreamPartition (m : StreamMessage) : Z := mid_streamPartition (vm_messageId m).
Definition getPublisherId (m : StreamMessage) : string := mid_publisherId (vm_messageId m).

(** The generated readers of group key messages *)
Record GroupKeyRequest := MkGroupKeyRequest {
  rq_requestId : string; rq_recipientId : bytes; rq_publicKey : bytes; rq_groupKeyIds : list string;
  rq_encryptionType : Z }.
Record GroupKeyResponse := MkGroupKeyResponse {
  rs_requestId : string; rs_recipientId : bytes; rs_groupKeys : list EncryptedGroupKey; rs_encryptionType : Z }.
Record proto := MkProto {
  request_fromBinary : bytes → outcome js_error GroupKeyRequest;
  response_fromBinary : bytes → outcome js_error GroupKeyResponse
}.

(** * What is signed *)

Definition id_text (id : MessageID) : string :=
  mid_streamId id +:+ pretty (mid_streamPartition id) +:+ pretty (mid_timestamp id)
    +:+ pretty (mid_sequenceNumber id) +:+ mid_publisherId id +:+ mid_msgChainId id.
Definition prev_text (prev : option MessageRef) : string :=
  match prev with
  | Some r => pretty (mr_timestamp r) +:+ pretty (mr_sequenceNumber r)
  | None => ""
  end.

Definition createSignaturePayload (pb : proto) (m : StreamMessage) : outcome js_error bytes :=
  let header := utf8_string (id_text (vm_messageId m)) ++ utf8_string (prev_text (vm_prevMsgRef m)) in
  if (vm_messageType m =? MESSAGE)%Z then
    Return (header ++ vm_content m
            ++ match vm_newGroupKey m with Some k => utf8_string (gk_id k) ++ gk_data k | None => [] end)
  else if (vm_messageType m =? GROUP_KEY_REQUEST)%Z then
    (let? request := request_fromBinary pb (vm_content m) in
     Return (header ++ utf8_string (rq_requestId request) ++ rq_recipientId request
             ++ rq_publicKey request ++ (rq_groupKeyIds request ≫= utf8_string)))%eff
  else if (vm_messageType m =? GROUP_KEY_RESPONSE)%Z then
    (let? response := response_fromBinary pb (vm_content m) in
     Return (header ++ utf8_string (rs_requestId response) ++ rs_recipientId response
             ++ (rs_groupKeys response ≫= λ k, utf8_string (gk_id k) ++ gk_data k)))%eff
  else Throw (MkError None "Assertion failed: unknown message type").

Definition serializeGroupKey (k : EncryptedGroupKey) : string :=
  json_print (JArray [JString (gk_id k); JString (binaryToHex (gk_data k) false)]).

Definition createLegacySignaturePayload (m : StreamMessage) : bytes :=
  let newGroupKey := match vm_newGroupKey m with Some k => serializeGroupKey k | None => "" end in
  let contentAsString := if (vm_encryptionType m =? ENCRYPTION_NONE)%Z then binaryToUtf8 (vm_content m)
                         else codes (binaryToHex (vm_content m) false) in
  utf8ToBinary (codes (id_text (vm_messageId m) +:+ prev_text (vm_prevMsgRef m)) ++ contentAsString
                ++ codes newGroupKey).

(** * The signature *)

(** What is thrown: a [StreamrClientError], or any other error *)
Inductive thrown := ClientError (code message : string) | OtherError (err : js_error).

Definition thrown_error (t : thrown) : js_error :=
  match t with ClientError code message => MkError (Some code) message | OtherError err => err end.

Definition SIGNATURE_LEGACY : Z := 0.
Definition SIGNATURE_EVM : Z := 1.
Definition SIGNATURE_ERC_1271 : Z := 2.
Definition SIGNATURE_ML_DSA_87 : Z := 3.
Definition SIGNATURE_SECP256R1 : Z := 4.

(** [signingUtilBySignatureType], made from the identity mapping *)
Definition signingUtilBySignatureType (signatureType : Z) : option KeyType :=
  if (signatureType =? SIGNATURE_EVM)%Z then Some ECDSA_SECP256K1_EVM
  else if (signatureType =? SIGNATURE_SECP256R1)%Z then Some ECDSA_SECP256R1
  else if (signatureType =? SIGNATURE_ML_DSA_87)%Z then Some ML_DSA_87
  else None.

Definition SUCCESS_MAGIC_VALUE : string := "0x1626ba7e".
Definition ERC1271_CACHE_TTL : Z := 10 * 60 * 1000.
Definition ERC1271_DENIAL_TTL : Z := 20 * 1000.
Definition publisher_ttl (isValid : bool) : Z := if isValid then ERC1271_CACHE_TTL else ERC1271_DENIAL_TTL.

Definition formCacheKey (contractAddress signerUserId : string) : string :=
  contractAddress +:+ "_" +:+ signerUserId.

(** What the chain answers at one moment: [isValidSignature] of a contract, the [partitions] of
    a stream's metadata (a value that is no number counts as [JNaN]), the permissions *)
Record world := MkWorld {
  w_isValidSignature : string → bytes → bytes → outcome js_error string;
  w_partitions : string → outcome js_error (option jsnum);
  w_isStreamPublisher : string → string → outcome js_error bool;
  w_isStreamSubscriber : string → string → outcome js_error bool
}.

Definition toUserIdRaw (userId : string) : outcome js_error bytes := hexToBinary userId.

Definition lift {M A} (r : outcome js_error A) : eff M thrown A :=
  λ m, (m, match r with Return a => Return a | Throw e => Throw (OtherError e) end).

Section validation.
  Context (cr : crypto) (pb : proto).
  Context {M : Type} `{E : !ExpiringMap string bool M publisher_ttl}.

Definition isValidSignature (now : Z) (w : world) (contractAddress : string) (payload signature : bytes)
    : eff M thrown bool := λ cache,
  match recoverSignerUserId cr signature payload with
  | Throw e => (cache, Throw (OtherError e))
  | Return raw =>
      let cacheKey := formCacheKey contractAddress (binaryToHex raw true) in
      match em_get cacheKey cache with
      | Some cachedValue => (cache, Return cachedValue)
      | None =>
          match w_isValidSignature w contractAddress (keccakHash cr payload true) signature with
          | Throw err =>
              (cache, Throw (ClientError "CHAIN_UNAVAILABLE" ("Could not ask " +:+ contractAddress
                 +:+ " whether the signature is valid: " +:+ err_message err)))
          | Return result =>
              let isValid := bool_decide (result = SUCCESS_MAGIC_VALUE) in
              (em_set now cacheKey isValid cache, Return isValid)
          end
      end
  end.

(** [SignatureValidator.validate] *)
Definition validateSignature (now : Z) (w : world) (m : StreamMessage) : eff M thrown bool :=
  match signingUtilBySignatureType (vm_signatureType m) with
  | Some signingUtil =>
      (let! raw := lift (toUserIdRaw (getPublisherId m)) in
       let! payload := lift (createSignaturePayload pb m) in
       lift (verifySignature cr signingUtil raw payload (vm_signature m)))%eff
  | None =>
      if (vm_signatureType m =? SIGNATURE_LEGACY)%Z then
        (let! raw := lift (toUserIdRaw (getPublisherId m)) in
         eff_ret (evm_verifySignature cr raw (createLegacySignaturePayload m) (vm_signature m)))%eff
      else if (vm_signatureType m =? SIGNATURE_ERC_1271)%Z then
        (let! address := lift (to_ethereum_address (getPublisherId m)) in
         let! payload := lift (createSignaturePayload pb m) in
         isValidSignature now w address payload (vm_signature m))%eff
      else eff_throw (OtherError (MkError None "Cannot validate message signature, unsupported signatureType"))
  end.

Definition assertSignatureIsValid (now : Z) (w : world) (m : StreamMessage) : eff M thrown unit :=
  (let! success := eff_catch (validateSignature now w m) (λ err,
     match err with
     | ClientError _ _ => eff_throw err
     | OtherError e =>
         eff_throw (ClientError "INVALID_SIGNATURE"
           ("An error occurred during address recovery from signature: " +:+ err_message e))
     end) in
   if success then eff_ret tt
   else eff_throw (ClientError "INVALID_SIGNATURE" "Signature validation failed"))%eff.

(** * The rules of the protocol *)

Record validation_config := MkValidationConfig { vc_permissions : bool; vc_partitions : bool }.

Definition DEFAULT_PARTITION_COUNT : Z := 1.

Definition ensureValidStreamPartitionCount (count : jsnum) : outcome js_error unit :=
  match count with
  | JFin z => if negb (js_is_safe_integer count) || (z <? 0)%Z || (MAX_PARTITION_COUNT <? z)%Z
              then Throw (MkError None "invalid streamPartition value") else Return tt
  | _ => Throw (MkError None "invalid streamPartition value")
  end.

(** The count of partitions, a number that [ensureValidStreamPartitionCount] let pass *)
Definition getPartitionCount (partitions : option jsnum) : outcome js_error Z :=
  match partitions with
  | None => Return DEFAULT_PARTITION_COUNT
  | Some value =>
      match ensureValidStreamPartitionCount value, value with
      | Return _, JFin z => Return z
      | _, _ => Throw (MkError (Some "INVALID_STREAM_METADATA") "Invalid partition count")
      end
  end.

Definition require_permission (has : outcome js_error bool) : outcome js_error unit :=
  (let? ok := has in
   if ok then Return tt else Throw (MkError (Some "MISSING_PERMISSION") "is not a publisher or subscriber on stream"))%eff.

Definition validateMessage (w : world) (cfg : validation_config) (m : StreamMessage) : outcome js_error unit :=
  (let? _ :=
     (if vc_partitions cfg then
        let? partitions := w_partitions w (getStreamId m) in
        let? partitionCount := getPartitionCount partitions in
        if (getStreamPartition m <? 0)%Z || (partitionCount <=? getStreamPartition m)%Z
        then Throw (MkError (Some "INVALID_PARTITION") "Partition is out of range")
        else Return tt
      else Return tt) in
   if vc_permissions cfg
   then require_permission (w_isStreamPublisher w (getStreamId m) (getPublisherId m))
   else Return tt)%eff.

Definition validateGroupKeyMessage (w : world) (cfg : validation_config) (m : StreamMessage)
    (expectedPublisherId expectedSubscriberId : string) : outcome js_error unit :=
  if vc_permissions cfg then
    (let? _ := require_permission (w_isStreamPublisher w (getStreamId m) expectedPublisherId) in
     require_permission (w_isStreamSubscriber w (getStreamId m) expectedSubscriberId))%eff
  else Return tt.

(** The rules by the type of the message *)
Definition validateByType (w : world) (cfg : validation_config) (m : StreamMessage) : outcome js_error unit :=
  if (vm_messageType m =? MESSAGE)%Z then validateMessage w cfg m
  else if (vm_messageType m =? GROUP_KEY_REQUEST)%Z then
    (let? request := request_fromBinary pb (vm_content m) in
     validateGroupKeyMessage w cfg m (binaryToHex (rq_recipientId request) true) (getPublisherId m))%eff
  else if (vm_messageType m =? GROUP_KEY_RESPONSE)%Z then
    (let? response := response_fromBinary pb (vm_content m) in
     validateGroupKeyMessage w cfg m (getPublisherId m) (binaryToHex (rs_recipientId response) true))%eff
  else Throw (MkError (Some "ASSERTION_FAILED") "Unknown message type").

Definition validateStreamMessage (now : Z) (w : world) (cfg : validation_config) (m : StreamMessage)
    : eff M js_error unit := λ cache,
  match assertSignatureIsValid now w m cache with
  | (cache, Throw t) => (cache, Throw (thrown_error t))
  | (cache, Return _) => (cache, validateByType w cfg m)
  end.

(** * Ingest (IngestValidator.ts with the client's validateMessage) *)

(** [getMessageSigner], up to the conversion of the recovered id *)
Definition recovered_signer (m : StreamMessage) : outcome js_error string :=
  (let? payload := (if (vm_signatureType m =? SIGNATURE_LEGACY)%Z
                    then Return (createLegacySignaturePayload m) else createSignaturePayload pb m) in
   let? raw := recoverSignerUserId cr (vm_signature m) payload in
   Return (binaryToHex raw true))%eff.

Definition ingest {MB MG} `{EB : !ExpiringMap string bool MB ttlOf}
    `{EG : !ExpiringMap string (option GateInfo) MG gate_ttl}
    (now : Z) (w : world) (c : chain) (cfg : validation_config) (m : StreamMessage)
    (cache : M) (v : validator MB MG) : M * validator MB MG * IngestVerdict :=
  let '(cache, validated) := validateStreamMessage now w cfg m cache in
  let '(v, verdict) := validate now c (MkIngestMessage (getStreamId m) validated (recovered_signer m)) v in
  (cache, v, verdict).
End validation.

(** * Facts *)

Lemma publisher_ttl_delay b : timer_delay (publisher_ttl b) = publisher_ttl b.
Proof. by destruct b. Qed.

Lemma publisher_ttl_pos b : (0 < publisher_ttl b)%Z.
Proof. by destruct b. Qed.

Lemma formCacheKey_inj a u a' u' :
  String.length a = 42 → String.length a' = 42 → formCacheKey a u = formCacheKey a' u' → a = a' ∧ u = u'.
Proof.
  unfold formCacheKey. intros Ha Ha' Heq.
  destruct (string_app_inj_length a a' _ _ ltac:(lia) Heq) as [-> Hu]. by simplify_eq/=.
Qed.

Section facts.
  Context (cr : crypto) (pb : proto).
  Context {M : Type} `{E : !ExpiringMap string bool M publisher_ttl}.
  Context (world_at : Z → world) (cfg : validation_config).

(** Some signature of [signer], put to the contract at [t], was accepted or refused. *)
Definition contract_said (t : Z) (address signer : string) (b : bool) : Prop :=
  ∃ payload signature raw result,
    recoverSignerUserId cr signature payload = Return raw ∧ signer = binaryToHex raw true ∧
    w_isValidSignature (world_at t) address (keccakHash cr payload true) signature = Return result ∧
    b = bool_decide (result = SUCCESS_MAGIC_VALUE).

(** The same, at most the lifetime of the answer ago *)
Definition contract_says (now : Z) (address signer : string) (b : bool) : Prop :=
  ∃ t, (t ≤ now < t + publisher_ttl b)%Z ∧ contract_said t address signer b.

Definition contract_answer (t : Z) (key : string) (b : bool) : Prop :=
  ∃ address signer, String.length address = 42 ∧ key = formCacheKey address signer ∧
    contract_said t address signer b.

Definition cache_ok (now : Z) (m : M) : Prop := cache_inv contract_answer now m ∧ cache_fresh now m.

(** What is known of a signature: that it is its publisher's, or not *)
Inductive signature_says (now : Z) (m : StreamMessage) : bool → Prop :=
  | says_key keyType raw payload b :
      signingUtilBySignatureType (vm_signatureType m) = Some keyType →
      toUserIdRaw (getPublisherId m) = Return raw → createSignaturePayload pb m = Return payload →
      verifySignature cr keyType raw payload (vm_signature m) = Return b → signature_says now m b
  | says_legacy raw :
      vm_signatureType m = SIGNATURE_LEGACY → toUserIdRaw (getPublisherId m) = Return raw →
      signature_says now m (evm_verifySignature cr raw (createLegacySignaturePayload m) (vm_signature m))
  | says_contract address payload raw b :
      vm_signatureType m = SIGNATURE_ERC_1271 → to_ethereum_address (getPublisherId m) = Return address →
      createSignaturePayload pb m = Return payload →
      recoverSignerUserId cr (vm_signature m) payload = Return raw →
      contract_says now address (binaryToHex raw true) b → signature_says now m b.

(** Nothing can verify it: what the scheme of its type needs of the publisher id, the content
    or the signature is malformed, the library throws, or no scheme has its type. *)
Inductive unverifiable (m : StreamMessage) : Prop :=
  | bad_publisher_id err :
      vm_signatureType m ≠ SIGNATURE_ERC_1271 → toUserIdRaw (getPublisherId m) = Throw err → unverifiable m
  | bad_contract_address err :
      vm_signatureType m = SIGNATURE_ERC_1271 → to_ethereum_address (getPublisherId m) = Throw err → unverifiable m
  | bad_content err :
      vm_signatureType m ≠ SIGNATURE_LEGACY → createSignaturePayload pb m = Throw err → unverifiable m
  | bad_signature payload err :
      vm_signatureType m = SIGNATURE_ERC_1271 → createSignaturePayload pb m = Return payload →
      recoverSignerUserId cr (vm_signature m) payload = Throw err → unverifiable m
  | verification_throws keyType raw payload err :
      signingUtilBySignatureType (vm_signatureType m) = Some keyType →
      toUserIdRaw (getPublisherId m) = Return raw → createSignaturePayload pb m = Return payload →
      verifySignature cr keyType raw payload (vm_signature m) = Throw err → unverifiable m
  | unsupported_type :
      signingUtilBySignatureType (vm_signatureType m) = None → vm_signatureType m ≠ SIGNATURE_LEGACY →
      vm_signatureType m ≠ SIGNATURE_ERC_1271 → unverifiable m.

(** The contract of the publisher gives no answer. *)
Definition contract_silent (now : Z) (m : StreamMessage) : Prop :=
  vm_signatureType m = SIGNATURE_ERC_1271 ∧
  ∃ address payload err,
    to_ethereum_address (getPublisherId m) = Return address ∧ createSignaturePayload pb m = Return payload ∧
    w_isValidSignature (world_at now) address (keccakHash cr payload true) (vm_signature m) = Throw err.

Lemma isValidSignature_ok now address payload signature m m' r :
  String.length address = 42 → cache_ok now m →
  isValidSignature cr now (world_at now) address payload signature m = (m', r) →
  cache_ok now m' ∧
  match r with
  | Return b => ∃ raw, recoverSignerUserId cr signature payload = Return raw ∧
                       contract_says now address (binaryToHex raw true) b
  | Throw (ClientError code _) => code = "CHAIN_UNAVAILABLE" ∧ ∃ err,
      w_isValidSignature (world_at now) address (keccakHash cr payload true) signature = Throw err
  | Throw (OtherError err) => recoverSignerUserId cr signature payload = Throw err
  end.
Proof.
  intros Ha [Hinv Hf]. unfold isValidSignature.
  destruct (recoverSignerUserId cr signature payload) as [raw|e] eqn:Hr; [|by intros [= <- <-]].
  destruct (em_get _ m) as [b|] eqn:Hg.
  { intros [= <- <-]. split; [done|]. exists raw. split; [done|].
    destruct (cache_get _ _ _ _ _ Hinv Hf Hg) as (t & Ht & a' & s' & Ha' & Hk & Hs).
    destruct (formCacheKey_inj _ _ _ _ Ha Ha' Hk) as [-> ->]. exists t.
    by rewrite publisher_ttl_delay in Ht. }
  destruct (w_isValidSignature _ _ _ _) as [result|err] eqn:Hw.
  2: { intros [= <- <-]. split; [done|]. split; [done|]. eauto. }
  assert (contract_said now address (binaryToHex raw true) (bool_decide (result = SUCCESS_MAGIC_VALUE))) as Hsaid.
  { exists payload, signature, raw, result. done. }
  intros [= <- <-]. split; [split|].
  - apply cache_inv_set; [done|]. exists address, (binaryToHex raw true). done.
  - apply cache_fresh_set; [by destruct Hinv| |done]. rewrite publisher_ttl_delay.
    apply publisher_ttl_pos.
  - exists raw. split; [done|]. exists now. split; [|done].
    pose proof (publisher_ttl_pos (bool_decide (result = SUCCESS_MAGIC_VALUE))). lia.
Qed.

Lemma validateSignature_ok now msg m m' r :
  cache_ok now m → validateSignature cr pb now (world_at now) msg m = (m', r) →
  cache_ok now m' ∧
  match r with
  | Return b => signature_says now msg b
  | Throw (ClientError code _) => code = "CHAIN_UNAVAILABLE" ∧ contract_silent now msg
  | Throw (OtherError _) => unverifiable msg
  end.
Proof.
  intros Hok. unfold validateSignature, eff_bind, lift.
  destruct (signingUtilBySignatureType _) as [keyType|] eqn:Hs.
  { assert (vm_signatureType msg ≠ SIGNATURE_ERC_1271 ∧ vm_signatureType msg ≠ SIGNATURE_LEGACY) as [Hne Hnl].
    { split; intros Ht; by rewrite Ht in Hs. }
    destruct (toUserIdRaw _) as [raw|] eqn:Hraw; [|intros [= <- <-]; split; [done|by eapply bad_publisher_id]].
    destruct (createSignaturePayload _ _) as [payload|] eqn:Hp; [|intros [= <- <-]; split; [done|by eapply bad_content]].
    destruct (verifySignature _ _ _ _ _) as [b|] eqn:Hv; intros [= <- <-]; (split; [done|]);
      [by eapply says_key|by eapply verification_throws]. }
  destruct (Z.eqb_spec (vm_signatureType msg) SIGNATURE_LEGACY) as [Hl|Hl].
  { destruct (toUserIdRaw _) as [raw|] eqn:Hraw; intros [= <- <-]; (split; [done|]);
      [by apply says_legacy|eapply bad_publisher_id; [by rewrite Hl|done]]. }
  destruct (Z.eqb_spec (vm_signatureType msg) SIGNATURE_ERC_1271) as [He|He].
  2: { intros [= <- <-]. split; [done|by apply unsupported_type]. }
  destruct (to_ethereum_address _) as [address|] eqn:Ha; [|intros [= <- <-]; split; [done|by eapply bad_contract_address]].
  destruct (createSignaturePayload _ _) as [payload|] eqn:Hp; [|intros [= <- <-]; split; [done|eapply bad_content; [by rewrite He|done]]].
  intros Hv. apply isValidSignature_ok in Hv as [Hok' Hv]; [|by eapply to_ethereum_address_length|done].
  split; [done|]. destruct r as [b|[code ?|err]].
  - destruct Hv as (raw & Hrec & Hc). by eapply says_contract.
  - destruct Hv as [-> (err & Hw)]. split; [done|]. split; [done|]. by exists address, payload, err.
  - by eapply bad_signature.
Qed.

Lemma assertSignatureIsValid_ok now msg m m' r :
  cache_ok now m → assertSignatureIsValid cr pb now (world_at now) msg m = (m', r) →
  cache_ok now m' ∧
  match r with
  | Return _ => signature_says now msg true
  | Throw t => err_code (thrown_error t) = Some "INVALID_SIGNATURE" ∧ (signature_says now msg false ∨ unverifiable msg) ∨
               err_code (thrown_error t) = Some "CHAIN_UNAVAILABLE" ∧ contract_silent now msg
  end.
Proof.
  intros Hok. unfold assertSignatureIsValid, eff_bind, eff_catch.
  destruct (validateSignature _ _ _ _ _ m) as [m1 r1] eqn:Hv.
  destruct (validateSignature_ok _ _ _ _ _ Hok Hv) as [Hok1 Hr].
  destruct r1 as [[]|[code message|err]]; cbn.
  - by intros [= <- <-].
  - intros [= <- <-]. split; [done|]. left. auto.
  - intros [= <- <-]. split; [done|]. right. destruct Hr as [-> ?]. auto.
  - intros [= <- <-]. split; [done|]. left. auto.
Qed.

(** ** The rules *)

Definition partition_in_range (w : world) (m : StreamMessage) : Prop :=
  ∃ partitions count, w_partitions w (getStreamId m) = Return partitions ∧
    getPartitionCount partitions = Return count ∧ (0 ≤ getStreamPartition m < count)%Z.

Definition publisher (w : world) (m : StreamMessage) (user : string) : Prop :=
  w_isStreamPublisher w (getStreamId m) user = Return true.
Definition subscriber (w : world) (m : StreamMessage) (user : string) : Prop :=
  w_isStreamSubscriber w (getStreamId m) user = Return true.

(** The stream's registry allows the message. *)
Inductive permitted (w : world) (m : StreamMessage) : Prop :=
  | permitted_message :
      vm_messageType m = MESSAGE → (vc_partitions cfg = true → partition_in_range w m) →
      (vc_permissions cfg = true → publisher w m (getPublisherId m)) → permitted w m
  | permitted_request request :
      vm_messageType m = GROUP_KEY_REQUEST → request_fromBinary pb (vm_content m) = Return request →
      (vc_permissions cfg = true → publisher w m (binaryToHex (rq_recipientId request) true) ∧
                                   subscriber w m (getPublisherId m)) → permitted w m
  | permitted_response response :
      vm_messageType m = GROUP_KEY_RESPONSE → response_fromBinary pb (vm_content m) = Return response →
      (vc_permissions cfg = true → publisher w m (getPublisherId m) ∧
                                   subscriber w m (binaryToHex (rs_recipientId response) true)) → permitted w m.

(** Who must be a publisher of the stream, and who a subscriber, for a message to be allowed *)
Inductive must_publish (m : StreamMessage) : string → Prop :=
  | publishes_message : vm_messageType m = MESSAGE → must_publish m (getPublisherId m)
  | answers_request request :
      vm_messageType m = GROUP_KEY_REQUEST → request_fromBinary pb (vm_content m) = Return request →
      must_publish m (binaryToHex (rq_recipientId request) true)
  | publishes_response response :
      vm_messageType m = GROUP_KEY_RESPONSE → response_fromBinary pb (vm_content m) = Return response →
      must_publish m (getPublisherId m).
Inductive must_subscribe (m : StreamMessage) : string → Prop :=
  | sends_request request :
      vm_messageType m = GROUP_KEY_REQUEST → request_fromBinary pb (vm_content m) = Return request →
      must_subscribe m (getPublisherId m)
  | receives_response response :
      vm_messageType m = GROUP_KEY_RESPONSE → response_fromBinary pb (vm_content m) = Return response →
      must_subscribe m (binaryToHex (rs_recipientId response) true).

(** The registry refuses it. *)
Inductive forbidden (w : world) (m : StreamMessage) : string → Prop :=
  | out_of_range partitions count :
      vm_messageType m = MESSAGE → vc_partitions cfg = true → w_partitions w (getStreamId m) = Return partitions →
      getPartitionCount partitions = Return count → ¬ (0 ≤ getStreamPartition m < count)%Z →
      forbidden w m "INVALID_PARTITION"
  | not_a_publisher user :
      vc_permissions cfg = true → must_publish m user →
      w_isStreamPublisher w (getStreamId m) user = Return false → forbidden w m "MISSING_PERMISSION"
  | not_a_subscriber user :
      vc_permissions cfg = true → must_subscribe m user →
      w_isStreamSubscriber w (getStreamId m) user = Return false → forbidden w m "MISSING_PERMISSION".

(** Neither: [err] is the error of the first question about this message that has no answer,
    and what was asked before it was answered with yes.  A question is the partition count
    and the publisher of a message, or the content, the publisher and the subscriber of a
    key exchange. *)
Inductive undecided (w : world) (m : StreamMessage) (err : js_error) : Prop :=
  | metadata_fails :
      vm_messageType m = MESSAGE → vc_partitions cfg = true →
      w_partitions w (getStreamId m) = Throw err → undecided w m err
  | metadata_invalid partitions :
      vm_messageType m = MESSAGE → vc_partitions cfg = true →
      w_partitions w (getStreamId m) = Return partitions → getPartitionCount partitions = Throw err →
      undecided w m err
  | publisher_fails user :
      vc_permissions cfg = true → must_publish m user →
      (vm_messageType m = MESSAGE → vc_partitions cfg = true → partition_in_range w m) →
      w_isStreamPublisher w (getStreamId m) user = Throw err → undecided w m err
  | subscriber_fails user :
      vc_permissions cfg = true → must_subscribe m user → (∀ user', must_publish m user' → publisher w m user') →
      w_isStreamSubscriber w (getStreamId m) user = Throw err → undecided w m err
  | request_unreadable :
      vm_messageType m = GROUP_KEY_REQUEST → request_fromBinary pb (vm_content m) = Throw err → undecided w m err
  | response_unreadable :
      vm_messageType m = GROUP_KEY_RESPONSE → response_fromBinary pb (vm_content m) = Throw err → undecided w m err
  | unknown_type :
      vm_messageType m ≠ MESSAGE → vm_messageType m ≠ GROUP_KEY_REQUEST → vm_messageType m ≠ GROUP_KEY_RESPONSE →
      err_code err = Some "ASSERTION_FAILED" → undecided w m err.

Lemma require_permission_cases has r :
  require_permission has = r →
  match r with
  | Return _ => has = Return true
  | Throw err => has = Return false ∧ err_code err = Some "MISSING_PERMISSION" ∨ has = Throw err
  end.
Proof. intros <-. destruct has as [[]|err]; cbn; auto. Qed.

Lemma validateGroupKeyMessage_ok w m p s r :
  vm_messageType m ≠ MESSAGE → must_publish m p → must_subscribe m s → (∀ p', must_publish m p' → p' = p) →
  validateGroupKeyMessage w cfg m p s = r →
  match r with
  | Return _ => vc_permissions cfg = true → publisher w m p ∧ subscriber w m s
  | Throw err => (∃ code, err_code err = Some code ∧ forbidden w m code) ∨ undecided w m err
  end.
Proof.
  intros Hm Hp Hs Hp'. unfold validateGroupKeyMessage. destruct (vc_permissions cfg) eqn:Hc; [|by intros <-].
  destruct (require_permission (w_isStreamPublisher _ _ _)) as [[]|err] eqn:H1;
    apply require_permission_cases in H1; cbn.
  2: { intros <-. destruct H1 as [[H1 Hcode]|H1]; [left|right; by eapply publisher_fails].
       eexists. split; [done|by eapply not_a_publisher]. }
  intros H2%require_permission_cases. destruct r as [|err]; [done|].
  destruct H2 as [[H2 Hcode]|H2]; [left|right; eapply subscriber_fails; try done].
  - eexists. split; [done|by eapply not_a_subscriber].
  - by intros p' ->%Hp'.
Qed.

Lemma validateMessage_ok w m r :
  vm_messageType m = MESSAGE → validateMessage w cfg m = r →
  match r with
  | Return _ => (vc_partitions cfg = true → partition_in_range w m) ∧
                (vc_permissions cfg = true → publisher w m (getPublisherId m))
  | Throw err => (∃ code, err_code err = Some code ∧ forbidden w m code) ∨ undecided w m err
  end.
Proof.
  intros Hm. unfold validateMessage.
  assert (∀ q, (if vc_partitions cfg then
                  (let? partitions := w_partitions w (getStreamId m) in
                   let? partitionCount := getPartitionCount partitions in
                   if (getStreamPartition m <? 0)%Z || (partitionCount <=? getStreamPartition m)%Z
                   then Throw (MkError (Some "INVALID_PARTITION") "Partition is out of range")
                   else Return tt)%eff
                else Return tt) = q →
          match q with
          | Return _ => vc_partitions cfg = true → partition_in_range w m
          | Throw err => (∃ code, err_code err = Some code ∧ forbidden w m code) ∨ undecided w m err
          end) as Hpart.
  { intros q. destruct (vc_partitions cfg) eqn:Hc; [|by intros <-].
    destruct (w_partitions w _) as [p|e] eqn:Hp; cbn; [|intros <-; right; by apply metadata_fails].
    destruct (getPartitionCount p) as [count|e] eqn:Hcount; cbn; [|intros <-; right; by eapply metadata_invalid].
    destruct (Z.ltb_spec (getStreamPartition m) 0), (Z.leb_spec count (getStreamPartition m)); cbn; intros <-.
    1-3: left; eexists; (split; [done|]); eapply out_of_range; [done..|lia].
    intros _. exists p, count. split_and!; [done..|lia|lia]. }
  destruct (if vc_partitions cfg then _ else _) as [[]|err] eqn:H1;
    specialize (Hpart _ eq_refl); cbn; [|by intros <-].
  destruct (vc_permissions cfg) eqn:Hc; [|by intros <-].
  intros H2%require_permission_cases. destruct r as [|err]; [done|].
  destruct H2 as [[H2 Hcode]|H2]; [left|right; by eapply publisher_fails; [|apply publishes_message|..]].
  eexists. split; [done|]. by eapply not_a_publisher; [|apply publishes_message|].
Qed.

Lemma validateByType_ok w m r :
  validateByType pb w cfg m = r →
  match r with
  | Return _ => permitted w m
  | Throw err => (∃ code, err_code err = Some code ∧ forbidden w m code) ∨ undecided w m err
  end.
Proof.
  unfold validateByType.
  destruct (Z.eqb_spec (vm_messageType m) MESSAGE) as [Ht|].
  { intros Hr%validateMessage_ok; [|done]. destruct r; [|done]. destruct Hr. by apply permitted_message. }
  destruct (Z.eqb_spec (vm_messageType m) GROUP_KEY_REQUEST) as [Ht|].
  { destruct (request_fromBinary _ _) as [request|] eqn:Hq; cbn; [|intros <-; right; by apply request_unreadable].
    intros Hr%validateGroupKeyMessage_ok; [destruct r; [|done]; by eapply permitted_request|by rewrite Ht| | |].
    - by apply answers_request.
    - by eapply sends_request.
    - destruct 1 as [Ht'|request' Ht' Hq'|response Ht' _]; [by rewrite Ht in Ht'| |by rewrite Ht in Ht'].
      rewrite Hq in Hq'. by injection Hq' as ->. }
  destruct (Z.eqb_spec (vm_messageType m) GROUP_KEY_RESPONSE) as [Ht|].
  { destruct (response_fromBinary _ _) as [response|] eqn:Hq; cbn; [|intros <-; right; by apply response_unreadable].
    intros Hr%validateGroupKeyMessage_ok; [destruct r; [|done]; by eapply permitted_response|by rewrite Ht| | |].
    - by eapply publishes_response.
    - by apply receives_response.
    - destruct 1 as [Ht'|request Ht' _|response' Ht' Hq']; [by rewrite Ht in Ht'..|done]. }
  intros <-. right. by apply unknown_type.
Qed.

(** ** Validation *)

(** A message is taken: its signature is good and the registry allows it. *)
Definition accepted (now : Z) (m : StreamMessage) : Prop :=
  signature_says now m true ∧ permitted (world_at now) m.

(** A message is refused, by an authority on the question. *)
Inductive refused (now : Z) (m : StreamMessage) : string → Prop :=
  | refused_signature : signature_says now m false → refused now m "INVALID_SIGNATURE"
  | refused_unverifiable : unverifiable m → refused now m "INVALID_SIGNATURE"
  | refused_registry code : signature_says now m true → forbidden (world_at now) m code → refused now m code.

(** No one could say. *)
Inductive unanswered (now : Z) (m : StreamMessage) (err : js_error) : Prop :=
  | silent_contract : err_code err = Some "CHAIN_UNAVAILABLE" → contract_silent now m → unanswered now m err
  | silent_registry : signature_says now m true → undecided (world_at now) m err → unanswered now m err.

Lemma validateStreamMessage_ok now msg m m' r :
  cache_ok now m → validateStreamMessage cr pb now (world_at now) cfg msg m = (m', r) →
  cache_ok now m' ∧
  match r with
  | Return _ => accepted now msg
  | Throw err => (∃ code, err_code err = Some code ∧ refused now msg code) ∨ unanswered now msg err
  end.
Proof.
  intros Hok. unfold validateStreamMessage.
  destruct (assertSignatureIsValid _ _ _ _ _ m) as [m1 r1] eqn:Hs.
  destruct (assertSignatureIsValid_ok _ _ _ _ _ Hok Hs) as [Hok1 Hr1].
  destruct r1 as [[]|t]; intros [= <- <-]; (split; [done|]).
  - destruct (validateByType _ _ _ _) as [[]|err] eqn:Hb; apply validateByType_ok in Hb; [done|].
    destruct Hb as [(code & ? & ?)|?]; [left; exists code|right]; [|by apply silent_registry].
    split; [done|by apply refused_registry].
  - destruct Hr1 as [[Hc [?|?]]|[Hc ?]]; [left; eexists; (split; [exact Hc|])..|right; by apply silent_contract].
    + by apply refused_signature.
    + by apply refused_unverifiable.
Qed.

(** The caches that the validations of a client lead to, with the time of the last one *)
Inductive validations_reach : Z → M → Prop :=
  | validations_new now : validations_reach now em_empty
  | validations_step now now' msg m :
      validations_reach now m → (now ≤ now')%Z →
      validations_reach now' (validateStreamMessage cr pb now' (world_at now') cfg msg (em_expire now' m)).1.

Lemma cache_ok_expire now now' m : cache_inv contract_answer now m → (now ≤ now')%Z → cache_ok now' (em_expire now' m).
Proof.
  intros Hinv Hle. assert (cache_inv contract_answer now' m) as Hinv' by (by eapply cache_inv_mono).
  split; [by apply cache_inv_expire|by eapply cache_fresh_expire].
Qed.

Lemma validations_reach_inv now m : validations_reach now m → cache_inv contract_answer now m.
Proof.
  induction 1 as [now|now now' msg m _ IH Hle]; [by apply cache_inv_empty|].
  destruct (validateStreamMessage _ _ _ _ _ _ _) as [m' r] eqn:Hv.
  by destruct (validateStreamMessage_ok _ _ _ _ _ (cache_ok_expire _ _ _ IH Hle) Hv) as [[? _] _].
Qed.

(** Validation answers for every message.  It passes only a message whose signature is its
    publisher's (for a contract: some signature of the same signer was accepted by the
    contract at most ten minutes ago) and which the registry allows now; an error tells
    either an authority's refusal, with its code, or that none could be asked. *)
Theorem validation_verdict_justified t m now msg m' r :
  validations_reach t m → (t ≤ now)%Z →
  validateStreamMessage cr pb now (world_at now) cfg msg (em_expire now m) = (m', r) →
  match r with
  | Return _ => accepted now msg
  | Throw err => (∃ code, err_code err = Some code ∧ refused now msg code) ∨ unanswered now msg err
  end.
Proof.
  intros Hr%validations_reach_inv Hle. by apply validateStreamMessage_ok, cache_ok_expire with t.
Qed.
End facts.

(** * Ingest, end to end *)


Section ingest_facts.
  Context (cr : crypto) (pb : proto).
  Context {M : Type} `{E : !ExpiringMap string bool M publisher_ttl}.
  Context {MB : Type} `{EB : !ExpiringMap string bool MB ttlOf}.
  Context {MG : Type} `{EG : !ExpiringMap string (option GateInfo) MG gate_ttl}.
  Context (world_at : Z → world) (chain_at : Z → chain) (cfg : validation_config).





(** What the registry allows, it does not refuse. *)
Lemma permitted_not_forbidden w m code : permitted pb cfg w m → ¬ forbidden pb cfg w m code.
Proof.
  intros Hp. destruct 1 as [partitions count Ht Hc Hw Hn Hr|user Hc Hm Hu|user Hc Hm Hu].
  - destruct Hp as [_ Hpart _|request Ht' _ _|response Ht' _ _]; [|by rewrite Ht in Ht'..].
    destruct (Hpart Hc) as (p' & c' & Hw' & Hn' & ?).
    assert (p' = partitions) as -> by congruence. assert (c' = count) as -> by congruence. done.
  - assert (publisher w m user) as Hp'; [|unfold publisher in Hp'; congruence].
    destruct Hm as [Ht|request Ht Hq|response Ht Hq], Hp as [Ht' _ H|? Ht' Hq' H|? Ht' Hq' H];
      try (by rewrite Ht in Ht').
    + exact (H Hc).
    + rewrite Hq in Hq'. injection Hq' as <-. exact (proj1 (H Hc)).
    + exact (proj1 (H Hc)).
  - assert (subscriber w m user) as Hp'; [|unfold subscriber in Hp'; congruence].
    destruct Hm as [request Ht Hq|response Ht Hq], Hp as [Ht' _ H|? Ht' Hq' H|? Ht' Hq' H];
      try (by rewrite Ht in Ht').
    + exact (proj2 (H Hc)).
    + rewrite Hq in Hq'. injection Hq' as <-. exact (proj2 (H Hc)).
Qed.

(** What the ingest model is told of the message *)
Definition told (msg : StreamMessage) : ingest_message :=
  MkIngestMessage (getStreamId msg) (Return tt) (recovered_signer cr pb msg).

Definition verdict_justified (now : Z) (msg : StreamMessage) (verdict : IngestVerdict) : Prop :=
  match verdict with
  | Reject reason =>
      refused cr pb world_at cfg now msg reason ∨
      accepted cr pb world_at cfg now msg ∧ must_reject chain_at now (told msg) reason
  | Store =>
      accepted cr pb world_at cfg now msg ∧ may_store chain_at now (told msg) ∨
      ∃ err, unanswered cr pb world_at cfg now msg err
  end.

(** Where every authority answers, one refusal of the registry keeps a message out. *)
Lemma refused_is_not_storable now msg code :
  (∀ err, ¬ unanswered cr pb world_at cfg now msg err) → forbidden pb cfg (world_at now) msg code →
  ¬ verdict_justified now msg Store.
Proof.
  intros Hno Hf [[[_ Hp] _]|[err Hun]]; [by eapply permitted_not_forbidden|by eapply Hno].
Qed.



(** A signature that names a contract which does not answer is as good as valid.  The
    author of a message chooses its publisher id and its signature type: with the type
    ERC-1271 and the address of an account that is no contract (the call cannot be decoded)
    or of a contract that reverts, any bytes a signer can be recovered from are stored,
    whoever signed, without a permission check, and without the read-only rule. *)
Theorem unanswering_contract_is_stored now c msg address payload raw err (cache : M) (v : validator MB MG) :
  vm_signatureType msg = SIGNATURE_ERC_1271 → to_ethereum_address (getPublisherId msg) = Return address →
  createSignaturePayload pb msg = Return payload →
  recoverSignerUserId cr (vm_signature msg) payload = Return raw →
  em_get (formCacheKey address (binaryToHex raw true)) cache = None →
  w_isValidSignature (world_at now) address (keccakHash cr payload true) (vm_signature msg) = Throw err →
  ingest cr pb now (world_at now) c cfg msg cache v = (cache, v, Store).
Proof.
  intros Ht Ha Hp Hr Hg Hw.
  assert (isValidSignature cr now (world_at now) address payload (vm_signature msg) cache =
    (cache, Throw (ClientError "CHAIN_UNAVAILABLE" ("Could not ask " +:+ address
                 +:+ " whether the signature is valid: " +:+ err_message err)))) as Hsilent.
  { unfold isValidSignature. by rewrite Hr, Hg, Hw. }
  assert (validateSignature cr pb now (world_at now) msg cache =
          isValidSignature cr now (world_at now) address payload (vm_signature msg) cache) as Hval.
  { unfold validateSignature, eff_bind, lift. by rewrite Ht, Ha, Hp. }
  unfold ingest, validateStreamMessage, assertSignatureIsValid, eff_bind, eff_catch.
  by rewrite Hval, Hsilent.
Qed.
End ingest_facts.

(** * The payload

    Its fields are written one after the other, without a separator. *)

(** A message of another time has the same payload, so that its publisher's signature is good
    for both: the digits move from the timestamp to the sequence number. *)
Lemma payload_ambiguous pb stream partition publisher chainId prev content contentType sig keyType enc keyId newKey :
  createSignaturePayload pb (MkMessage (MkMessageID stream partition 1700000000123 0 publisher chainId)
                               prev MESSAGE content contentType sig keyType enc keyId newKey) =
  createSignaturePayload pb (MkMessage (MkMessageID stream partition 170000000012 30 publisher chainId)
                               prev MESSAGE content contentType sig keyType enc keyId newKey).
Proof. reflexivity. Qed.

Module ValidationWitness.
Import SigningWitness.
Definition key : bytes := replicate 32 7%Z.
Definition readers : proto := MkProto (λ _, Throw (MkError None "not a request")) (λ _, Throw (MkError None "not a response")).
Definition publisherId : string :=
  match publicKeyToAddress toy (publicKeyCreate toy key) with Return a => binaryToHex a true | Throw _ => "" end.
Definition unsigned (publisher : string) (signatureType : Z) : StreamMessage :=
  MkMessage (MkMessageID "chat" 0 1700000000123 0 publisher "c") None MESSAGE [104; 105]%Z CONTENT_JSON [] signatureType 0 None None.
(** A message in the name of [publisher], signed by the holder of [key] *)
Definition sign_message (publisher : string) (signatureType : Z) : StreamMessage :=
  let m := unsigned publisher signatureType in
  match (let? payload := createSignaturePayload readers m in createSignature toy payload key)%eff with
  | Return s => MkMessage (vm_messageId m) None MESSAGE (vm_content m) CONTENT_JSON s signatureType 0 None None
  | Throw _ => m
  end.

(** Every user may publish on the two partitions of the stream; an account without code does
    not answer. *)
Definition open_world (t : Z) : world :=
  MkWorld (λ _ _ _, Throw (MkError (Some "BAD_DATA") "could not decode result data"))
    (λ _, Return (Some (JFin 2))) (λ _ _, Return true) (λ _ _, Return true).
Definition no_gates (t : Z) : chain :=
  MkChain (λ s, Return None) (λ _, GatesWitness.contract t) (λ _, Return true) (λ _ _, Return false) (λ _ _, Return false).
Definition strict : validation_config := MkValidationConfig true true.
Definition cache0 : ttl_map string bool := ttl_empty.
Definition ingest_at (msg : StreamMessage) :
    ttl_map string bool * validator (ttl_map string bool) (ttl_map string (option GateInfo)) * IngestVerdict :=
  ingest toy readers (E:=ttl_map_expiring publisher_ttl) 5 (open_world 5) (no_gates 5) strict msg
    (em_expire (ExpiringMap:=ttl_map_expiring publisher_ttl) 5 cache0)
    (MkValidator (gates_tick 5 (gates_new (kp_new None))) 0).

Lemma validation_verdict_justified_witness :
  snd (validateStreamMessage toy readers (E:=ttl_map_expiring publisher_ttl) 5 (open_world 5) strict
         (sign_message publisherId SIGNATURE_EVM) (ttl_expire 5 cache0)) = Return tt ∧
  accepted toy readers open_world strict 5 (sign_message publisherId SIGNATURE_EVM).
Proof.
  pose (r := validateStreamMessage toy readers (E:=ttl_map_expiring publisher_ttl) 5 (open_world 5) strict
               (sign_message publisherId SIGNATURE_EVM) (ttl_expire 5 cache0)).
  assert (snd r = Return tt) as Hr by (vm_compute; reflexivity). split; [exact Hr|].
  refine (validation_verdict_justified toy readers (E:=ttl_map_expiring publisher_ttl) open_world strict 5
    cache0 5 _ (fst r) (Return tt) (validations_new _ _ _ _ _) _ _); [lia|].
  rewrite <-Hr. apply surjective_pairing.
Defined.



(** Signed by the holder of [key], in the name of another account *)
Definition forged : StreamMessage := sign_message GatesWitness.owner SIGNATURE_ERC_1271.

Lemma unanswering_contract_is_stored_witness :
  publisherId ≠ GatesWitness.owner ∧
  snd (ingest_at (sign_message GatesWitness.owner SIGNATURE_EVM)) = Reject "INVALID_SIGNATURE" ∧
  let v := MkValidator (gates_new (kp_new None)) 0 in
  ingest toy readers 5 (open_world 5) (no_gates 5) strict forged cache0
    (v : validator (ttl_map string bool) (ttl_map string (option GateInfo))) = (cache0, v, Store).
Proof.
  split; [by vm_compute|]. split; [vm_compute; reflexivity|].
  pose (payload := match createSignaturePayload readers forged with Return p => p | Throw _ => [] end).
  pose (raw := match recoverSignerUserId toy (vm_signature forged) payload with Return a => a | Throw _ => [] end).
  apply (unanswering_contract_is_stored toy readers open_world strict 5 (no_gates 5) forged GatesWitness.owner
           payload raw (MkError (Some "BAD_DATA") "could not decode result data")); vm_compute; reflexivity.
Defined.
End ValidationWitness.
