(* ===== verification/StreamIds.v ===== *)
(** Stream ids and permissions: StreamID.ts, ENSName.ts, toEthereumAddressOrENSName.ts and StreamPartIDUtils of
    packages/utils/src, StreamIDBuilder.ts and permission.ts of packages/sdk/src.

    A stream id is a text in one of three formats; [toStreamID] gives the canonical one.  [number] is the
    global [Number]. *)

From S2P Require Import Prelude.
From S2P Require Import Js.
From S2P Require Import Identifiers.
From Stdlib Require Import Ascii.

Set Default Proof Using "Type".

(** * Stream ids (StreamID.ts) *)

(** [indexOf] of a character, with the texts before it and from it on *)
Fixpoint split_at_first (c : ascii) (s : string) : option (string * string) :=
  match s with
  | EmptyString => None
  | String x s' =>
      if Ascii.eqb x c then Some (EmptyString, s)
      else match split_at_first c s' with
           | Some (a, b) => Some (String x a, b)
           | None => None
           end
  end.

(** [str.indexOf('.') > 0] *)
Definition isENSNameFormatIgnoreCase (str : string) : bool :=
  match split_at_first "." str with Some (String _ _, _) => true | _ => false end.

Definition toENSName (str : string) : outcome js_error string :=
  if isENSNameFormatIgnoreCase str then Return (to_lower str)
  else Throw (MkError None "not a valid ENS name").

Definition toEthereumAddressOrENSName (str : string) : outcome js_error string :=
  if isENSNameFormatIgnoreCase str then toENSName str else to_ethereum_address str.

Definition toStreamID (streamIdOrPath : string) (domain : option string) : outcome js_error string :=
  if (String.length streamIdOrPath =? 0)%nat then Throw (MkError None "stream id may not be empty")
  else match split_at_first "/" streamIdOrPath with
       | None => Return streamIdOrPath
       | Some (EmptyString, _) =>
           match domain with
           | None => Throw (MkError None "path-only format provided without domain")
           | Some domain => Return (domain +:+ streamIdOrPath)
           end
       | Some (name, path) =>
           (let? domain := toEthereumAddressOrENSName name in Return (domain +:+ path))%eff
       end.

Definition isPathOnlyFormat (streamIdOrPath : string) : bool :=
  match streamIdOrPath with String x _ => Ascii.eqb x "/" | EmptyString => false end.

Definition getDomainAndPath (streamId : string) : option (string * string) := split_at_first "/" streamId.
Definition getDomain (streamId : string) : option string := fst <$> getDomainAndPath streamId.
Definition getPath (streamId : string) : option string := snd <$> getDomainAndPath streamId.

(** * Stream parts (StreamPartID.ts) *)

Section parts.
  Context (number : string → jsnum).

Definition parse (streamPartIdAsStr : string) : outcome js_error string :=
  match parse_raw_elements number streamPartIdAsStr with
  | (_, None) => Throw (MkError None "invalid streamPartId string")
  | (streamId, Some streamPartition) =>
      (let? _ := toStreamID streamId None in
       let? _ := ensure_valid_stream_partition_index streamPartition in
       Return streamPartIdAsStr)%eff
  end.

Definition getStreamIDAndPartition (streamPartId : string) : string * option jsnum :=
  parse_raw_elements number streamPartId.
Definition getStreamID (streamPartId : string) : string := (getStreamIDAndPartition streamPartId).1.
Definition getPartition (streamPartId : string) : option jsnum := (getStreamIDAndPartition streamPartId).2.

(** * StreamIDBuilder.ts *)

Definition DEFAULT_PARTITION : jsnum := JFin 0.

Record definition_object := MkDefinition {
  df_id : option string; df_stream : option string; df_streamId : option string; df_partition : option jsnum }.
Inductive StreamDefinition := TextDefinition (text : string) | ObjectDefinition (object : definition_object).

Definition pickStreamId (definition : definition_object) : outcome js_error string :=
  match df_id definition, df_stream definition, df_streamId definition with
  | Some id, _, _ => Return id
  | None, Some stream, _ => Return stream
  | None, None, Some streamId => Return streamId
  | None, None, None => Throw (MkError None "streamDefinition: object must have property: id, stream, or streamId")
  end.

Definition parseRawDefinition (definition : StreamDefinition) : outcome js_error (string * option jsnum) :=
  match definition with
  | TextDefinition text => Return (parse_raw_elements number text)
  | ObjectDefinition object => (let? id := pickStreamId object in Return (id, df_partition object))%eff
  end.

(** [StreamIDBuilder.toStreamID]; [userId] is the id of the client's identity. *)
Definition build_streamId (userId streamIdOrPath : string) : outcome js_error string :=
  if isPathOnlyFormat streamIdOrPath
  then (let? address := to_ethereum_address userId in toStreamID streamIdOrPath (Some address))%eff
  else toStreamID streamIdOrPath None.

Definition toStreamPartElements (userId : string) (definition : StreamDefinition)
    : outcome js_error (string * option jsnum) :=
  (let? raw := parseRawDefinition definition in
   let? streamId := build_streamId userId raw.1 in
   Return (streamId, raw.2))%eff.

Definition build_streamPartId (userId : string) (definition : StreamDefinition) : outcome js_error string :=
  (let? elements := toStreamPartElements userId definition in
   to_stream_part_id elements.1 (default DEFAULT_PARTITION elements.2))%eff.

(** [===] of numbers *)
Definition js_num_eqb (a b : jsnum) : bool := negb (js_is_nan a) && bool_decide (a = b).

Definition getMatcher (userId : string) (definition : StreamDefinition) : outcome js_error (string → bool) :=
  (let? target := toStreamPartElements userId definition in
   Return (λ streamPartId,
     bool_decide (target.1 = getStreamID streamPartId) &&
     match target.2 with
     | None => true
     | Some targetPartition =>
         match getPartition streamPartId with
         | Some partition => js_num_eqb targetPartition partition
         | None => false
         end
     end))%eff.
End parts.

(** * Permissions (permission.ts) *)

Inductive StreamPermission := EDIT | DELETE | PUBLISH | SUBSCRIBE | GRANT.
#[global] Instance StreamPermission_eq_dec : EqDecision StreamPermission.
Proof. solve_decision. Defined.

Definition MaxUint256 : Z := 2 ^ 256 - 1.

Record ChainPermissions := MkChainPermissions {
  canEdit : bool; canDelete : bool; publishExpiration : Z; subscribeExpiration : Z; canGrant : bool }.

Definition streamPermissionToSolidityType (permission : StreamPermission) : Z :=
  match permission with EDIT => 0 | DELETE => 1 | PUBLISH => 2 | SUBSCRIBE => 3 | GRANT => 4 end.

(** [Math.round(Date.now() / 1000)] *)
Definition now_seconds (now : Z) : Z := (now + 500) `div` 1000.

Definition convertChainPermissionsToStreamPermissions (now : Z) (chainPermissions : ChainPermissions)
    : list StreamPermission :=
  let now := now_seconds now in
  (if canEdit chainPermissions then [EDIT] else [])
  ++ (if canDelete chainPermissions then [DELETE] else [])
  ++ (if (now <? publishExpiration chainPermissions)%Z then [PUBLISH] else [])
  ++ (if (now <? subscribeExpiration chainPermissions)%Z then [SUBSCRIBE] else [])
  ++ (if canGrant chainPermissions then [GRANT] else []).

Definition convertStreamPermissionsToChainPermission (permissions : list StreamPermission) : ChainPermissions :=
  MkChainPermissions
    (bool_decide (EDIT ∈ permissions))
    (bool_decide (DELETE ∈ permissions))
    (if bool_decide (PUBLISH ∈ permissions) then MaxUint256 else 0)
    (if bool_decide (SUBSCRIBE ∈ permissions) then MaxUint256 else 0)
    (bool_decide (GRANT ∈ permissions)).

Inductive PermissionQuery :=
  | UserPermissionQuery (streamId : string) (permission : StreamPermission) (userId : string) (allowPublic : bool)
  | PublicPermissionQuery (streamId : string) (permission : StreamPermission).
Inductive PermissionAssignment :=
  | UserPermissionAssignment (permissions : list StreamPermission) (userId : string)
  | PublicPermissionAssignment (permissions : list StreamPermission).

Definition toInternalPermissionQuery (myUserId : string) (query : PermissionQuery)
    : outcome js_error PermissionQuery :=
  match query with
  | UserPermissionQuery streamId permission userId allowPublic =>
      (let? streamId := build_streamId myUserId streamId in
       let? userId := to_user_id userId in
       Return (UserPermissionQuery streamId permission userId allowPublic))%eff
  | PublicPermissionQuery streamId permission =>
      (let? streamId := build_streamId myUserId streamId in
       Return (PublicPermissionQuery streamId permission))%eff
  end.

Definition toInternalPermissionAssignment (assignment : PermissionAssignment)
    : outcome js_error PermissionAssignment :=
  match assignment with
  | UserPermissionAssignment permissions userId =>
      (let? userId := to_user_id userId in Return (UserPermissionAssignment permissions userId))%eff
  | PublicPermissionAssignment _ => Return assignment
  end.

Definition isPublicPermissionQuery (query : PermissionQuery) : bool :=
  match query with PublicPermissionQuery _ _ => true | _ => false end.
Definition isPublicPermissionAssignment (assignment : PermissionAssignment) : bool :=
  match assignment with PublicPermissionAssignment _ => true | _ => false end.

(** * Facts *)

Definition lacks (c : ascii) (s : string) : Prop := string_forallb (λ x, negb (Ascii.eqb x c)) s = true.

Lemma split_at_first_spec c s :
  match split_at_first c s with
  | None => lacks c s
  | Some (a, b) => s = a +:+ b ∧ lacks c a ∧ ∃ b', b = String c b'
  end.
Proof.
  unfold lacks. induction s as [|x s IH]; simpl; [done|]. destruct (Ascii.eqb_spec x c) as [->|Hx]; simpl.
  - split_and!; [done..|]. by exists s.
  - destruct (split_at_first c s) as [[a b]|]; simpl; [|done]. destruct IH as (-> & Ha & Hb).
    destruct (Ascii.eqb_spec x c); [done|]. by split_and!.
Qed.

Lemma split_at_first_app c a b : lacks c a → split_at_first c (a +:+ String c b) = Some (a, String c b).
Proof.
  unfold lacks. induction a as [|x a IH]; intros Ha; [rewrite string_app_nil_l; simpl; by rewrite Ascii.eqb_refl|].
  rewrite string_app_cons. simpl. simpl in Ha. apply andb_true_iff in Ha as [Hx Ha].
  destruct (Ascii.eqb x c); [done|]. by rewrite IH.
Qed.

(** Neither a dot nor a slash is a letter. *)
Lemma split_at_first_to_lower c s :
  (∀ x, Ascii.eqb (lower_ascii x) c = Ascii.eqb x c) →
  split_at_first c (to_lower s) = (λ p, (to_lower p.1, to_lower p.2)) <$> split_at_first c s.
Proof.
  intros Hc. induction s as [|x s IH]; simpl; [done|]. rewrite Hc. destruct (Ascii.eqb x c); [done|].
  rewrite IH. by destruct (split_at_first c s) as [[a b]|].
Qed.

Lemma lower_dot x : Ascii.eqb (lower_ascii x) "." = Ascii.eqb x ".".
Proof. destruct x as [[] [] [] [] [] [] [] []]; reflexivity. Qed.
Lemma lower_slash x : Ascii.eqb (lower_ascii x) "/" = Ascii.eqb x "/".
Proof. destruct x as [[] [] [] [] [] [] [] []]; reflexivity. Qed.

Lemma lacks_to_lower c s : (∀ x, Ascii.eqb (lower_ascii x) c = Ascii.eqb x c) → lacks c s → lacks c (to_lower s).
Proof.
  intros Hc. unfold lacks. induction s as [|x s IH]; simpl; [done|]. rewrite Hc.
  intros [-> Hs]%andb_true_iff. by apply IH.
Qed.

(** A character that is no hexadecimal digit, zero or x is not in an address. *)
Lemma address_lacks c a b :
  is_hex_digit c = false → c ≠ "x"%char → c ≠ "0"%char → to_ethereum_address a = Return b → lacks c b.
Proof.
  intros Hc Hx H0 Ha. destruct (to_ethereum_address_idemp _ _ Ha) as [Hb _]. revert Hb. clear Ha.
  unfold to_ethereum_address, is_ethereum_address. destruct (has_0x_prefix b) eqn:Hp; [|done].
  destruct (_ =? 42)%nat; [|done]. destruct (string_forallb _ _) eqn:Hs; [|done]. intros _.
  assert (∃ s, b = "0x" +:+ s) as [s ->].
  { destruct b as [|c1 [|c2 s]]; [done|..]; (destruct c1 as [[] [] [] [] [] [] [] []]; try done);
      destruct c2 as [[] [] [] [] [] [] [] []]; try done. by exists s. }
  change (string_forallb is_hex_digit s = true) in Hs. unfold lacks.
  change (negb (Ascii.eqb "0" c) && (negb (Ascii.eqb "x" c) && string_forallb (λ x, negb (Ascii.eqb x c)) s) = true).
  destruct (Ascii.eqb_spec "0" c) as [Heq|]; [congruence|]. destruct (Ascii.eqb_spec "x" c) as [Heq|]; [congruence|]. simpl.
  eapply string_forallb_impl; [|exact Hs]. intros x Hh. destruct (Ascii.eqb_spec x c) as [->|]; [congruence|done].
Qed.

Lemma ens_dot str : isENSNameFormatIgnoreCase (to_lower str) = isENSNameFormatIgnoreCase str.
Proof.
  unfold isENSNameFormatIgnoreCase. rewrite split_at_first_to_lower by apply lower_dot.
  by destruct (split_at_first "." str) as [[[|? ?] ?]|].
Qed.

Lemma address_no_ens a b : to_ethereum_address a = Return b → isENSNameFormatIgnoreCase b = false.
Proof.
  intros Ha. unfold isENSNameFormatIgnoreCase. pose proof (split_at_first_spec "." b) as Hs.
  pose proof (address_lacks "." _ _ eq_refl ltac:(done) ltac:(done) Ha) as Hl.
  destruct (split_at_first "." b) as [[x y]|]; [|done]. destruct x as [|z x]; [done|]. exfalso.
  destruct Hs as (-> & _ & y' & ->). clear -Hl. unfold lacks in Hl. revert Hl.
  generalize (String z x). intros w Hl. induction w as [|u w IH]; simpl in Hl; [done|].
  apply andb_true_iff in Hl as [_ Hl]. by apply IH.
Qed.

(** The domain of a canonical stream id: an ENS name or an address, in lower case *)
Definition canonical_domain (domain : string) : Prop :=
  toEthereumAddressOrENSName domain = Return domain ∧ to_lower domain = domain ∧ lacks "/" domain.

Lemma domain_canonical name domain :
  lacks "/" name → toEthereumAddressOrENSName name = Return domain → canonical_domain domain.
Proof.
  intros Hn. unfold toEthereumAddressOrENSName, toENSName. destruct (isENSNameFormatIgnoreCase name) eqn:He.
  - intros [= <-]. unfold canonical_domain, toEthereumAddressOrENSName, toENSName.
    rewrite ens_dot, He, to_lower_idemp. split_and!; [done..|]. apply lacks_to_lower; [apply lower_slash|done].
  - intros Ha. destruct (to_ethereum_address_idemp _ _ Ha) as [Hb Hl].
    unfold canonical_domain, toEthereumAddressOrENSName. rewrite (address_no_ens _ _ Ha). split_and!; [done..|].
    by eapply address_lacks.
Qed.

Lemma canonical_toStreamID domain path d :
  canonical_domain domain → toStreamID (domain +:+ String "/" path) d = Return (domain +:+ String "/" path) ∧
  isPathOnlyFormat (domain +:+ String "/" path) = false ∧
  getDomainAndPath (domain +:+ String "/" path) = Some (domain, String "/" path).
Proof.
  intros (Hd & _ & Hl). pose proof (split_at_first_app "/" domain path Hl) as Hs.
  destruct domain as [|x domain]; [done|]. unfold getDomainAndPath. split_and!; [|simpl|done].
  - unfold toStreamID. rewrite Hs, Hd. simpl. done.
  - unfold lacks in Hl. simpl in Hl. apply andb_true_iff in Hl as [Hx _]. by destruct (Ascii.eqb x "/").
Qed.

(** What an id is: a name without a slash, or a canonical domain and a path *)
Inductive canonical_id : string → Prop :=
  | legacy_id id : id ≠ "" → lacks "/" id → canonical_id id
  | domain_id domain path : canonical_domain domain → canonical_id (domain +:+ String "/" path).

Lemma canonical_id_fixed id d : canonical_id id → toStreamID id d = Return id ∧ isPathOnlyFormat id = false.
Proof.
  intros [id' Hne Hl|domain path Hd].
  2: { destruct (canonical_toStreamID domain path d Hd) as (H1 & H2 & _). by rewrite H1, H2. }
  unfold toStreamID. pose proof (split_at_first_spec "/" id') as Hs.
  destruct id' as [|x id']; [done|]. simpl String.length. cbn [Nat.eqb].
  unfold lacks in Hl. destruct (split_at_first "/" (String x id')) as [[a b]|].
  - exfalso. destruct Hs as (Heq & _ & b' & ->). rewrite Heq in Hl. clear -Hl.
    induction a as [|u a IH]; simpl in Hl; [done|]. apply andb_true_iff in Hl as [_ Hl]. by apply IH.
  - split; [done|]. simpl in *. apply andb_true_iff in Hl as [Hl _]. by destruct (Ascii.eqb x "/").
Qed.

Lemma isPathOnlyFormat_split s :
  isPathOnlyFormat s = true ↔ ∃ rest, split_at_first "/" s = Some (EmptyString, rest).
Proof.
  destruct s as [|x s]; simpl; [split; [done|by intros (? & ?)]|].
  destruct (Ascii.eqb x "/"); [split; eauto|]. split; [done|]. intros (rest & Hs).
  by destruct (split_at_first "/" s) as [[? ?]|].
Qed.

Lemma build_streamId_canonical user s id : build_streamId user s = Return id → canonical_id id.
Proof.
  unfold build_streamId. pose proof (split_at_first_spec "/" s) as Hs.
  destruct (isPathOnlyFormat s) eqn:Hp.
  - apply isPathOnlyFormat_split in Hp as [rest Hr]. destruct (to_ethereum_address user) as [a|] eqn:Ha; [|done].
    simpl. unfold toStreamID. rewrite Hr in *. destruct (_ =? 0)%nat; [done|]. intros [= <-].
    destruct Hs as (Heq & _ & path & ->). rewrite string_app_nil_l in Heq. subst s. apply domain_id.
    destruct (to_ethereum_address_idemp _ _ Ha) as [Hb Hl]. unfold canonical_domain, toEthereumAddressOrENSName.
    rewrite (address_no_ens _ _ Ha). split_and!; [done..|]. by eapply address_lacks.
  - unfold toStreamID. destruct (String.length s =? 0)%nat eqn:Hlen; [done|].
    destruct (split_at_first "/" s) as [[[|x name] rest]|] eqn:Hr; [done|..].
    + destruct (toEthereumAddressOrENSName _) as [domain|] eqn:Hd; [|done]. intros [= <-].
      destruct Hs as (-> & Hl & path & ->). apply domain_id. by eapply domain_canonical.
    + intros [= <-]. apply legacy_id; [|done]. by intros ->.
Qed.

(** What [toStreamID] refuses *)
Inductive no_stream_id (user : string) : string → Prop :=
  | empty_refused : no_stream_id user ""
  | stranger_refused path err : to_ethereum_address user = Throw err → no_stream_id user (String "/" path)
  | domain_refused x name path :
      lacks "/" (String x name) → isENSNameFormatIgnoreCase (String x name) = false →
      is_ethereum_address (String x name) = false → no_stream_id user (String x name +:+ String "/" path).

(** C9: stream ids are well formed: what a client makes of an id or a path is canonical (a name without a slash, or a lower
    case address or ENS name with a path), the paths of the client are put under its own address, and ids made once are
    not changed when they are read again, by any client; only the empty text, a path of a user without an address and
    a domain that is neither an address nor an ENS name are refused.  Lower case is that of the ASCII letters. *)
Theorem stream_ids_are_canonical user s :
  match build_streamId user s with
  | Return id =>
      canonical_id id ∧ (∀ other, build_streamId other id = Return id) ∧
      (isPathOnlyFormat s = true → getPath id = Some s ∧ ∃ address, to_ethereum_address user = Return address ∧
                                                                    getDomain id = Some address)
  | Throw _ => no_stream_id user s
  end.
Proof.
  pose proof (build_streamId_canonical user s) as Hc.
  destruct (build_streamId user s) as [id|err] eqn:Hb.
  - specialize (Hc id eq_refl). split_and!; [done|..].
    + intros other. unfold build_streamId. by destruct (canonical_id_fixed id None Hc) as [-> ->].
    + intros Hp. unfold build_streamId in Hb. rewrite Hp in Hb. destruct (to_ethereum_address user) as [a|] eqn:Ha; [|done].
      simpl in Hb. unfold toStreamID in Hb. apply isPathOnlyFormat_split in Hp as [rest Hr]. rewrite Hr in Hb.
      destruct (_ =? 0)%nat; [done|]. injection Hb as <-. pose proof (split_at_first_spec "/" s) as Hs. rewrite Hr in Hs.
      destruct Hs as (Heq & _ & path & ->). rewrite string_app_nil_l in Heq. subst s.
      assert (canonical_domain a) as Hd.
      { destruct (to_ethereum_address_idemp _ _ Ha) as [H1 H2]. unfold canonical_domain, toEthereumAddressOrENSName.
        rewrite (address_no_ens _ _ Ha). split_and!; [done..|]. by eapply address_lacks. }
      destruct (canonical_toStreamID a path None Hd) as (_ & _ & Hg). unfold getPath, getDomain. rewrite Hg. eauto.
  - clear Hc. unfold build_streamId in Hb. pose proof (split_at_first_spec "/" s) as Hs.
    destruct (isPathOnlyFormat s) eqn:Hp.
    + apply isPathOnlyFormat_split in Hp as [rest Hr]. rewrite Hr in Hs. destruct Hs as (Heq & _ & path & ->).
      rewrite string_app_nil_l in Heq. subst s. destruct (to_ethereum_address user) as [a|e] eqn:Ha; [|by eapply stranger_refused].
      simpl in Hb. unfold toStreamID in Hb. by rewrite Hr in Hb.
    + unfold toStreamID in Hb. destruct s as [|x s]; [constructor|]. simpl (_ =? 0)%nat in Hb. cbv iota in Hb.
      destruct (split_at_first "/" (String x s)) as [[[|y name] rest]|] eqn:Hr; [|clear Hp|done].
      { exfalso. assert (isPathOnlyFormat (String x s) = true) as Ht by (apply isPathOnlyFormat_split; eauto). congruence. }
      destruct Hs as (-> & Hl & path & ->). unfold toEthereumAddressOrENSName, toENSName, to_ethereum_address in Hb.
      destruct (isENSNameFormatIgnoreCase _) eqn:He; [done|]. destruct (is_ethereum_address _) eqn:Ha; [done|].
      by apply domain_refused.
Qed.

Section part_facts.
  Context (number : string → jsnum).

(** Stream parts are read back: the text of a stream part of a well formed id parses, to that id and that partition,
    whether it is read as a stream part or given by a user to name one, and the matcher made of it takes this part and
    no other partition of the stream. *)
Theorem stream_parts_roundtrip user id p :
  number (pretty p) = JFin p → canonical_id id → (0 ≤ p < MAX_PARTITION_COUNT)%Z →
  ∃ part, to_stream_part_id id (JFin p) = Return part ∧
    parse number part = Return part ∧ getStreamID number part = id ∧ getPartition number part = Some (JFin p) ∧
    toStreamPartElements number user (TextDefinition part) = Return (id, Some (JFin p)) ∧
    build_streamPartId number user (TextDefinition part) = Return part ∧
    ∃ matcher, getMatcher number user (TextDefinition part) = Return matcher ∧
      ∀ part' q, to_stream_part_id id (JFin q) = Return part' → number (pretty q) = JFin q →
        matcher part' = bool_decide (q = p).
Proof.
  intros Hn Hc Hp.
  assert (∀ q, (0 ≤ q < MAX_PARTITION_COUNT)%Z → to_stream_part_id id (JFin q) = Return (id +:+ String "#" (pretty q)))
    as Hpart.
  { intros q Hq. unfold to_stream_part_id, ensure_valid_stream_partition_index, js_is_safe_integer.
    unfold MAX_PARTITION_COUNT in *. rewrite (proj2 (Z.leb_le _ _)) by lia. simpl.
    rewrite (proj2 (Z.ltb_ge _ _)), (proj2 (Z.leb_gt _ _)) by lia. done. }
  assert (∀ q, (0 ≤ q)%Z → number (pretty q) = JFin q →
    parse_raw_elements number (id +:+ String "#" (pretty q)) = (id, Some (JFin q))) as Hraw.
  { intros q Hq Hnq. unfold parse_raw_elements. rewrite split_at_last_app.
    - pose proof (pretty_Z_nonempty q). destruct (pretty q) as [|x t]; [done|by rewrite Hnq].
    - apply split_at_last_None, (string_forallb_impl is_digit); [|by apply pretty_Z_digits].
      intros x Hx. destruct (Ascii.eqb_spec x "#") as [->|]; [done|done]. }
  destruct (canonical_id_fixed id None Hc) as [Hid Hnp].
  exists (id +:+ String "#" (pretty p)). unfold parse, getStreamID, getPartition, getStreamIDAndPartition,
    build_streamPartId, getMatcher, toStreamPartElements, parseRawDefinition.
  rewrite !Hraw, Hpart by (done || lia). cbn [outcome_bind fst snd default]. unfold build_streamId.
  rewrite Hnp, Hid. cbn [outcome_bind fst snd default].
  assert (ensure_valid_stream_partition_index (JFin p) = Return tt) as ->.
  { specialize (Hpart p Hp). unfold to_stream_part_id in Hpart. by destruct (ensure_valid_stream_partition_index _) as [[]|]. }
  split_and!; [done..|by apply Hpart|]. eexists. split; [done|]. intros part' q Hq Hnq. cbn beta.
  assert ((0 ≤ q)%Z ∧ part' = id +:+ String "#" (pretty q)) as [Hq0 ->].
  { unfold to_stream_part_id in Hq. destruct (ensure_valid_stream_partition_index (JFin q)) eqn:He; [|done].
    injection Hq as <-. split; [|done]. unfold ensure_valid_stream_partition_index in He.
    destruct (negb _ || (q <? 0)%Z || _) eqn:Hb in He; [done|].
    apply orb_false_iff in Hb as [[_ Hb%Z.ltb_ge]%orb_false_iff _]. done. }
  unfold getStreamID, getPartition, getStreamIDAndPartition. rewrite Hraw by done. cbn [fst snd]. rewrite bool_decide_eq_true_2 by done. unfold js_num_eqb. cbn.
  apply bool_decide_ext. split; [by intros [= ->]|by intros ->].
Qed.
End part_facts.

(** Permissions given on chain are read back, while they last. *)
Theorem permissions_roundtrip now permissions p :
  (0 ≤ now_seconds now < MaxUint256)%Z →
  let read := convertChainPermissionsToStreamPermissions now
                (convertStreamPermissionsToChainPermission permissions) in
  NoDup read ∧ (p ∈ read ↔ p ∈ permissions).
Proof.
  intros Hnow. cbv zeta. unfold convertChainPermissionsToStreamPermissions, convertStreamPermissionsToChainPermission.
  cbn [canEdit canDelete publishExpiration subscribeExpiration canGrant]. cbv zeta.
  assert (∀ b : bool, (now_seconds now <? (if b then MaxUint256 else 0))%Z = b) as Hb.
  { intros []; [apply Z.ltb_lt|apply Z.ltb_ge]; lia. }
  rewrite !Hb. split.
  - repeat case_bool_decide; simpl; repeat constructor; set_solver.
  - rewrite !elem_of_app. destruct p; repeat case_bool_decide; set_solver.
Qed.

Module StreamIdsWitness.
(** [Number] on the texts of partitions *)
Definition to_number (s : string) : jsnum := js_parse_int s.

Lemma stream_parts_roundtrip_witness :
  ∃ part, to_stream_part_id "name.eth/chat" (JFin 7) = Return part ∧
    parse to_number part = Return part ∧ getStreamID to_number part = "name.eth/chat" ∧
    getPartition to_number part = Some (JFin 7) ∧
    toStreamPartElements to_number "0x1" (TextDefinition part) = Return ("name.eth/chat", Some (JFin 7)) ∧
    build_streamPartId to_number "0x1" (TextDefinition part) = Return part ∧
    ∃ matcher, getMatcher to_number "0x1" (TextDefinition part) = Return matcher ∧
      ∀ part' q, to_stream_part_id "name.eth/chat" (JFin q) = Return part' → to_number (pretty q) = JFin q →
        matcher part' = bool_decide (q = 7%Z).
Proof.
  apply (stream_parts_roundtrip to_number "0x1" "name.eth/chat" 7); [reflexivity| |unfold MAX_PARTITION_COUNT; lia].
  apply (domain_id "name.eth" "chat"). split_and!; reflexivity.
Defined.
End StreamIdsWitness.
