(* ===== verification/Publish.v ===== *)
(** Publishing (packages/sdk/src/publish): messageChain.ts, MessageFactory.ts and Publisher.ts.

    A [MessageFactory] makes the messages of one stream: it chooses the partition, chains the messages of a
    partition and chain id, encrypts and signs.  The publisher keeps a factory and a queue of group keys for each
    stream.  Its tasks run one at a time ([pLimit(1)]), so that a task is one operation of the model; what the
    registry answers, the node's broadcast ends with, and the random values of a task are arguments. *)

From S2P Require Import Prelude.
From S2P Require Import Js.
From S2P Require Import TtlMap.
From S2P Require Import Identifiers.
From S2P Require Import StreamIds.
From S2P Require Import Ordering.
From S2P Require Import Json.
From S2P Require Import Frames.
From S2P Require Import DataQuery.
From S2P Require Import Text.
From S2P Require Import Signing.
From S2P Require Import PomboGates.
From S2P Require Import Validation.
From S2P Require Import Keys.
From Stdlib Require Import Ascii.

Set Default Proof Using "Type".

(** * Message references (messageChain.ts, MessageRef.ts) *)

(** [a < z], [a >= z] and [a === z] for an integer [z] *)
Definition js_ltb (a : jsnum) (z : Z) : bool :=
  match a with
  | JFin x => (x <? z)%Z
  | JFrac f _ => (f <? z)%Z
  | JNaN => false
  | JInf negative => negative
  end.
Definition js_geb (a : jsnum) (z : Z) : bool :=
  match a with
  | JFin x => (z <=? x)%Z
  | JFrac f _ => (z <=? f)%Z
  | JNaN => false
  | JInf negative => negb negative
  end.
Definition js_is (a : jsnum) (z : Z) : bool := match a with JFin x => (x =? z)%Z | _ => false end.

(** The constructor of [MessageRef] *)
Definition message_ref_new (timestamp : jsnum) (sequenceNumber : Z) : outcome js_error MessageRef :=
  (let? _ := validateIsNotNegativeInteger (Some timestamp) false in
   let? _ := validateIsNotNegativeInteger (Some (JFin sequenceNumber)) true in
   Return (MkRef (js_integer timestamp) sequenceNumber))%eff.

Definition createMessageRef (timestamp : jsnum) (prevMsgRef : option MessageRef) : outcome js_error MessageRef :=
  let isBackdated := match prevMsgRef with Some r => js_ltb timestamp (mr_timestamp r) | None => false end in
  if isBackdated then Throw (MkError None "prevMessageRef must come before current")
  else let nextSequenceNumber :=
         match prevMsgRef with
         | Some r => if js_is timestamp (mr_timestamp r) then (mr_sequenceNumber r + 1)%Z else 0%Z
         | None => 0%Z
         end in
       message_ref_new timestamp nextSequenceNumber.

(** * MessageFactory.ts *)

(** What the user gives beside the content; [pm_timestamp] is already a number. *)
Record PublishMetadata := MkPublishMetadata {
  pm_timestamp : jsnum; pm_partitionKey : option array_key; pm_msgChainId : option string;
  pm_erc1271Contract : option string }.

(** The content: a Uint8Array, or any other value, written as JSON *)
Inductive publish_content := BytesContent (b : bytes) | JsonContent (v : json).

(** The maps [defaultMessageChainIds] and [prevMsgRefs], by the texts that [formLookupKey] makes *)
Record MessageFactory := MkFactory {
  mf_defaultPartition : option Z;
  mf_defaultMessageChainIds : gmap string string;
  mf_prevMsgRefs : gmap string MessageRef;
  mf_firstMessage : bool }.

Definition factory_new : MessageFactory := MkFactory None ∅ ∅ true.

Definition with_prevMsgRef (key : string) (r : MessageRef) (f : MessageFactory) : MessageFactory :=
  MkFactory (mf_defaultPartition f) (mf_defaultMessageChainIds f) (<[key := r]> (mf_prevMsgRefs f)) (mf_firstMessage f).

(** [formLookupKey([partition, msgChainId])] *)
Definition msg_chain_key (partition : jsnum) (msgChainId : string) : string :=
  js_num_to_string partition +:+ "|" +:+ msgChainId.

(** The random values of a task *)
Record task_draws := MkTaskDraws {
  td_partition : Z; td_chainId : string; td_keyId : string; td_keyData : bytes; td_iv : bytes; td_nextIv : bytes }.

(** What the registry answers; [hasPublicSubscribePermission] beside the questions of the validation *)
Record registry := MkRegistry { rg_world : world; rg_hasPublicSubscribePermission : string → outcome js_error bool }.

(** The state a task works on: the factory, the queue of keys, the key store, and the cache of the validator *)
Record task_state (M : Type) := MkTask {
  ts_factory : MessageFactory; ts_queue : GroupKeyQueue; ts_store : key_store; ts_cache : M }.
Arguments MkTask {M} _ _ _ _.
Arguments ts_factory {M} _.
Arguments ts_queue {M} _.
Arguments ts_store {M} _.
Arguments ts_cache {M} _.

Definition with_factory {M} (f : MessageFactory) (s : task_state M) : task_state M :=
  MkTask f (ts_queue s) (ts_store s) (ts_cache s).

(** An error of the registry or of the node, which may be a [StreamrClientError] or not *)
Definition as_registry {A} (is_client_error : js_error → bool) (r : outcome js_error A) : outcome thrown A :=
  match r with
  | Return a => Return a
  | Throw e => Throw (if is_client_error e then ClientError (default "" (err_code e)) (err_message e) else OtherError e)
  end.

Section factory.
  Context (is_client_error : js_error → bool) (cr : crypto) (pb : proto) (cs : ciphers) (md5_int32 : string → Z).
  Context {M : Type} `{E : !ExpiringMap string bool M publisher_ttl}.
  Context (cfg : encryption_config) (vcfg : validation_config) (ident : identity) (streamId : string).

Definition publisher_id (metadata : PublishMetadata) : outcome js_error string :=
  match pm_erc1271Contract metadata with
  | Some contract => (let? address := to_ethereum_address contract in to_user_id address)%eff
  | None => Return (id_userId ident)
  end.

Definition check_permission (rg : registry) (publisherId : string) : outcome thrown unit :=
  if vc_permissions vcfg then
    (let? isPublisher := as_registry is_client_error (w_isStreamPublisher (rg_world rg) streamId publisherId) in
     if isPublisher then Return tt
     else Throw (ClientError "MISSING_PERMISSION" "You don't have permission to publish to this stream."))%eff
  else Return tt.

(** [random] is the drawn number of [0 .. partitionCount - 1]. *)
Definition getDefaultPartition (partitionCount random : Z) (f : MessageFactory) : MessageFactory * Z :=
  match mf_defaultPartition f with
  | Some p => if (partitionCount <=? p)%Z
              then (MkFactory (Some random) (mf_defaultMessageChainIds f) (mf_prevMsgRefs f) (mf_firstMessage f), random)
              else (f, p)
  | None => (MkFactory (Some random) (mf_defaultMessageChainIds f) (mf_prevMsgRefs f) (mf_firstMessage f), random)
  end.

(** [getStreamMetadata] and [getPartitionCount] *)
Definition partition_count (rg : registry) : outcome thrown Z :=
  (let? partitions := as_registry is_client_error (w_partitions (rg_world rg) streamId) in
   match getPartitionCount partitions with
   | Return count => Return count
   | Throw e => Throw (ClientError "INVALID_STREAM_METADATA" (err_message e))
   end)%eff.

Definition choose_partition (rg : registry) (metadata : PublishMetadata) (explicitPartition : option jsnum)
    (random : Z) : eff MessageFactory thrown jsnum := λ f,
  if negb (vc_partitions vcfg) then
    match explicitPartition with
    | None => (f, Throw (OtherError (MkError None "Explicit partition must be set when partition validation is disabled")))
    | Some p => (f, Return p)
    end
  else
    match partition_count rg with
    | Throw e => (f, Throw e)
    | Return partitionCount =>
        match explicitPartition, pm_partitionKey metadata with
        | Some p, key =>
            if js_ltb p 0 || js_geb p partitionCount
            then (f, Throw (OtherError (MkError None "Partition is out of range")))
            else match key with
                 | Some _ => (f, Throw (OtherError (MkError None "Invalid combination of partition and partitionKey")))
                 | None => (f, Return p)
                 end
        | None, Some key =>
            (f, (let? p := as_thrown (key_to_array_index md5_int32 partitionCount key) in Return (JFin p))%eff)
        | None, None =>
            let '(f, p) := getDefaultPartition partitionCount random f in (f, Return (JFin p))
        end
    end.

(** The chain id of the user, or the default one of the partition, drawn at its first use *)
Definition choose_chain (metadata : PublishMetadata) (partition : jsnum) (drawn : string) (f : MessageFactory)
    : MessageFactory * string :=
  match pm_msgChainId metadata with
  | Some msgChainId => (f, msgChainId)
  | None =>
      match mf_defaultMessageChainIds f !! js_num_to_string partition with
      | Some msgChainId => (f, msgChainId)
      | None => (MkFactory (mf_defaultPartition f) (<[js_num_to_string partition := drawn]> (mf_defaultMessageChainIds f))
                   (mf_prevMsgRefs f) (mf_firstMessage f), drawn)
      end
  end.

Definition choose_encryption (rg : registry) : outcome thrown Z :=
  (let? encryptionType :=
     (if vc_permissions vcfg then
        let? isPublic := as_registry is_client_error (rg_hasPublicSubscribePermission rg streamId) in
        Return (if isPublic then ENCRYPTION_NONE else ENCRYPTION_AES)
      else Return ENCRYPTION_AES) in
   if isCompliantEncryptionType encryptionType cfg then Return encryptionType
   else Throw (ClientError "ENCRYPTION_POLICY_VIOLATION" "Publishing was prevented because configuration requires encryption!"))%eff.

Definition raw_content (content : publish_content) : bytes * Z :=
  match content with
  | BytesContent b => (b, CONTENT_BINARY)
  | JsonContent v => (utf8_string (json_print v), CONTENT_JSON)
  end.

(** The content as it is sent: with the id of the key and the next key, when encrypted *)
Definition encrypt_content (encryptionType : Z) (raw : bytes) (dw : task_draws)
    : eff (GroupKeyQueue * key_store) js_error (bytes * option string * option EncryptedGroupKey) := λ qs,
  if (encryptionType =? ENCRYPTION_AES)%Z then
    match useGroupKey ident streamId (td_keyId dw) (td_keyData dw) qs with
    | (qs, Throw e) => (qs, Throw e)
    | (qs, Return sequence) =>
        (qs, (let? encrypted := encryptWithAES cs raw (key_data (gs_current sequence)) (td_iv dw) in
              match gs_next sequence with
              | None => Return (encrypted, Some (key_id (gs_current sequence)), None)
              | Some next =>
                  let? newGroupKey := encryptNextGroupKey cs (gs_current sequence) next (td_nextIv dw) in
                  Return (encrypted, Some (key_id (gs_current sequence)), Some newGroupKey)
              end)%eff)
    end
  else (qs, Return (raw, None, None)).

Definition signature_type (metadata : PublishMetadata) : Z :=
  match pm_erc1271Contract metadata with Some _ => SIGNATURE_ERC_1271 | None => id_signatureType ident end.

(** The signature of the first message of a factory is checked when it is made for a contract. *)
Definition check_first (now : Z) (rg : registry) (metadata : PublishMetadata) (m : StreamMessage)
    : eff (task_state M) thrown StreamMessage := λ s,
  let f := ts_factory s in
  if mf_firstMessage f then
    let s := with_factory (MkFactory (mf_defaultPartition f) (mf_defaultMessageChainIds f) (mf_prevMsgRefs f) false) s in
    match pm_erc1271Contract metadata with
    | None => (s, Return m)
    | Some _ =>
        match assertSignatureIsValid cr pb now (rg_world rg) m (ts_cache s) with
        | (cache, Return _) => (MkTask (ts_factory s) (ts_queue s) (ts_store s) cache, Return m)
        | (cache, Throw e) => (MkTask (ts_factory s) (ts_queue s) (ts_store s) cache, Throw e)
        end
    end
  else (s, Return m).

(** The second half of [createMessage], from the message id on *)
Definition finish_message (now : Z) (rg : registry) (dw : task_draws) (content : publish_content)
    (metadata : PublishMetadata) (prevMsgRef : option MessageRef) (messageId : MessageID)
    : eff (task_state M) thrown StreamMessage := λ s,
  match choose_encryption rg with
  | Throw e => (s, Throw e)
  | Return encryptionType =>
      let raw := raw_content content in
      match encrypt_content encryptionType raw.1 dw (ts_queue s, ts_store s) with
      | (q, store, Throw e) => (MkTask (ts_factory s) q store (ts_cache s), Throw (OtherError e))
      | (q, store, Return (sent, groupKeyId, newGroupKey)) =>
          let s := MkTask (ts_factory s) q store (ts_cache s) in
          let opts := MkMessage messageId prevMsgRef MESSAGE sent raw.2 [] SIGNATURE_LEGACY encryptionType
                        groupKeyId newGroupKey in
          match createSignedMessage pb ident opts (signature_type metadata) with
          | Throw e => (s, Throw (OtherError e))
          | Return m => check_first now rg metadata m s
          end
      end
  end.

(** [createMessage]; the new reference of the chain is kept before anything else can fail. *)
Definition createMessage (now : Z) (rg : registry) (dw : task_draws) (content : publish_content)
    (metadata : PublishMetadata) (explicitPartition : option jsnum) : eff (task_state M) thrown StreamMessage := λ s,
  match (let? publisherId := as_thrown (publisher_id metadata) in
         let? _ := check_permission rg publisherId in Return publisherId)%eff with
  | Throw e => (s, Throw e)
  | Return publisherId =>
      match choose_partition rg metadata explicitPartition (td_partition dw) (ts_factory s) with
      | (f, Throw e) => (with_factory f s, Throw e)
      | (f, Return partition) =>
          let '(f, msgChainId) := choose_chain metadata partition (td_chainId dw) f in
          let msgChainKey := msg_chain_key partition msgChainId in
          let prevMsgRef := mf_prevMsgRefs f !! msgChainKey in
          match createMessageRef (pm_timestamp metadata) prevMsgRef with
          | Throw e => (with_factory f s, Throw (OtherError e))
          | Return msgRef =>
              let s := with_factory (with_prevMsgRef msgChainKey msgRef f) s in
              match message_id_new streamId (Some partition) (JFin (mr_timestamp msgRef)) (mr_sequenceNumber msgRef)
                      publisherId msgChainId with
              | Throw e => (s, Throw (OtherError e))
              | Return messageId => finish_message now rg dw content metadata prevMsgRef messageId s
              end
          end
      end
  end.
End factory.

(** * Publisher.ts *)

(** The time a user gives: a number, a text (read by [Date]) or a Date with its time value *)
Inductive timestamp_input := TimeNumber (n : jsnum) | TimeText (s : string) | TimeDate (time : jsnum).

Definition parseTimestamp (date_parse : string → jsnum) (now : Z) (timestamp : option timestamp_input) : jsnum :=
  match timestamp with
  | None => JFin now
  | Some (TimeNumber n) => n
  | Some (TimeText s) => date_parse s
  | Some (TimeDate time) => time
  end.

(** [messageFactories] and [groupKeyQueues] by stream id, what all tasks share, and what the node was given to
    broadcast *)
Record Publisher (M : Type) := MkPublisher {
  pb_messageFactories : gmap string MessageFactory;
  pb_groupKeyQueues : gmap string GroupKeyQueue;
  pb_store : key_store;
  pb_cache : M;
  pb_broadcast : list StreamMessage }.
Arguments MkPublisher {M} _ _ _ _ _.
Arguments pb_messageFactories {M} _.
Arguments pb_groupKeyQueues {M} _.
Arguments pb_store {M} _.
Arguments pb_cache {M} _.
Arguments pb_broadcast {M} _.

Section publisher.
  Context (is_client_error : js_error → bool) (cr : crypto) (pb : proto) (cs : ciphers) (md5_int32 : string → Z).
  Context (number date_parse : string → jsnum).
  Context {M : Type} `{E : !ExpiringMap string bool M publisher_ttl}.
  Context (cfg : encryption_config) (vcfg : validation_config) (ident : identity).

(** The lazy map of queues: a queue is made at its first use; a failure is not kept. *)
Definition getGroupKeyQueue (streamId : string) : eff (Publisher M) js_error GroupKeyQueue := λ b,
  match pb_groupKeyQueues b !! streamId with
  | Some q => (b, Return q)
  | None =>
      match (let? explicitKey := getExplicitKey (id_userId ident) streamId cfg in
             queue_createInstance ident streamId explicitKey (pb_store b))%eff with
      | Throw e => (b, Throw e)
      | Return q =>
          (MkPublisher (pb_messageFactories b) (<[streamId := q]> (pb_groupKeyQueues b)) (pb_store b) (pb_cache b)
             (pb_broadcast b), Return q)
      end
  end.

(** The lazy map of factories, each made with the queue of its stream *)
Definition getMessageFactory (streamId : string) : eff (Publisher M) js_error MessageFactory := λ b,
  match pb_messageFactories b !! streamId with
  | Some f => (b, Return f)
  | None =>
      match getGroupKeyQueue streamId b with
      | (b, Throw e) => (b, Throw e)
      | (b, Return _) =>
          (MkPublisher (<[streamId := factory_new]> (pb_messageFactories b)) (pb_groupKeyQueues b) (pb_store b)
             (pb_cache b) (pb_broadcast b), Return factory_new)
      end
  end.

Definition put_task (streamId : string) (s : task_state M) (b : Publisher M) : Publisher M :=
  MkPublisher (<[streamId := ts_factory s]> (pb_messageFactories b)) (<[streamId := ts_queue s]> (pb_groupKeyQueues b))
    (ts_store s) (ts_cache s) (pb_broadcast b).

(** The body of the [try] block of [publish]; [sent] is what the broadcast ends with. *)
Definition make_and_send (now : Z) (rg : registry) (dw : task_draws) (sent : outcome js_error unit) (streamId : string)
    (content : publish_content) (metadata : PublishMetadata) (partition : option jsnum)
    : eff (Publisher M) thrown StreamMessage := λ b,
  match getMessageFactory streamId b with
  | (b, Throw e) => (b, Throw (OtherError e))
  | (b, Return f) =>
      match getGroupKeyQueue streamId b with
      | (b, Throw e) => (b, Throw (OtherError e))
      | (b, Return q) =>
          match createMessage is_client_error cr pb cs md5_int32 cfg vcfg ident streamId now rg dw content metadata
                  partition (MkTask f q (pb_store b) (pb_cache b)) with
          | (s, Throw e) => (put_task streamId s b, Throw e)
          | (s, Return message) =>
              let b := put_task streamId s b in
              match sent with
              | Throw e => (b, as_registry is_client_error (Throw e))
              | Return _ =>
                  (MkPublisher (pb_messageFactories b) (pb_groupKeyQueues b) (pb_store b) (pb_cache b)
                     (pb_broadcast b ++ [message]), Return message)
              end
          end
      end
  end.

(** One task of [publish].  What fails once the stream part is known is told as a [StreamrClientError], with the code
    of the failure if it is one. *)
Definition publish (now : Z) (rg : registry) (dw : task_draws) (sent : outcome js_error unit)
    (definition : StreamDefinition) (content : publish_content) (timestamp : option timestamp_input)
    (partitionKey : option array_key) (msgChainId erc1271Contract : option string)
    : eff (Publisher M) thrown StreamMessage := λ b,
  let metadata := MkPublishMetadata (parseTimestamp date_parse now timestamp) partitionKey msgChainId erc1271Contract in
  match toStreamPartElements number (id_userId ident) definition with
  | Throw e => (b, Throw (OtherError e))
  | Return (streamId, partition) =>
      match make_and_send now rg dw sent streamId content metadata partition b with
      | (b, Return message) => (b, Return message)
      | (b, Throw e) =>
          (b, Throw (ClientError (match e with ClientError code _ => code | OtherError _ => "UNKNOWN_ERROR" end)
                       ("Failed to publish to stream. Cause: " +:+ err_message (thrown_error e))))
      end
  end.

(** [updateEncryptionKey] of the client, on the queue of the publisher *)
Definition publisher_updateKey (streamIdOrPath : string) (method : distribution_method) (key : option GroupKey)
    (newId : string) (newData : bytes) : eff (Publisher M) js_error unit := λ b,
  match build_streamId (id_userId ident) streamIdOrPath with
  | Throw e => (b, Throw e)
  | Return streamId =>
      match getGroupKeyQueue streamId b with
      | (b, Throw e) => (b, Throw e)
      | (b, Return q) =>
          let '(q, store, r) := updateEncryptionKey ident streamId method key newId newData (q, pb_store b) in
          (MkPublisher (pb_messageFactories b) (<[streamId := q]> (pb_groupKeyQueues b)) store (pb_cache b)
             (pb_broadcast b), r)
      end
  end.
End publisher.

(** * Facts *)

Definition get_message_ref (m : StreamMessage) : MessageRef := toMessageRef (vm_messageId m).
Definition getMsgChainId (m : StreamMessage) : string := mid_msgChainId (vm_messageId m).

(** The key of a message's chain in the map of its factory *)
Definition chain_key (m : StreamMessage) : string := msg_chain_key (JFin (getStreamPartition m)) (getMsgChainId m).

Lemma createMessageRef_Return t prev r :
  createMessageRef t prev = Return r →
  t = JFin (mr_timestamp r) ∧ (0 ≤ mr_timestamp r)%Z ∧ (0 ≤ mr_sequenceNumber r)%Z ∧
  match prev with
  | None => mr_sequenceNumber r = 0%Z
  | Some p => ref_lt p r
  end.
Proof.
  unfold createMessageRef, message_ref_new.
  set (next := match prev with Some r => if js_is t (mr_timestamp r) then (mr_sequenceNumber r + 1)%Z else 0%Z | None => 0%Z end).
  destruct (match prev with Some r => js_ltb t (mr_timestamp r) | None => false end) eqn:Hb; [done|].
  destruct t as [z| | |]; simpl; try done. destruct (Z.ltb_spec z 0); [done|]. simpl.
  destruct (Z.ltb_spec next 0); [done|]. simpl. intros [= <-]. cbn [mr_timestamp mr_sequenceNumber]. split_and!; [done..|].
  destruct prev as [p|]; [|done]. unfold next in *. simpl in *. apply Z.ltb_ge in Hb.
  destruct (Z.eqb_spec z (mr_timestamp p)); refs.
Qed.

Section made.
  Context (is_client_error : js_error → bool) (cr : crypto) (pb : proto) (cs : ciphers) (md5_int32 : string → Z).
  Context {M : Type} `{E : !ExpiringMap string bool M publisher_ttl}.
  Context (cfg : encryption_config) (vcfg : validation_config) (ident : identity) (streamId : string).

(** [createMessage] of this factory *)
Notation make_message := (createMessage is_client_error cr pb cs md5_int32 cfg vcfg ident streamId).

(** What is known of the draws of a task: the default partition is one of the stream's. *)
Definition draws_fit (rg : registry) (dw : task_draws) : Prop :=
  ∀ count, partition_count is_client_error streamId rg = Return count → (0 ≤ td_partition dw < count)%Z.

Definition factory_ok (f : MessageFactory) : Prop := ∀ p, mf_defaultPartition f = Some p → (0 ≤ p)%Z.

Lemma choose_partition_refs rg metadata explicit random f f' r :
  choose_partition is_client_error md5_int32 vcfg streamId rg metadata explicit random f = (f', r) →
  mf_prevMsgRefs f' = mf_prevMsgRefs f ∧ mf_firstMessage f' = mf_firstMessage f ∧
  (factory_ok f → (∀ count, partition_count is_client_error streamId rg = Return count → (0 ≤ random < count)%Z) →
   factory_ok f' ∧ ∀ p, r = Return (JFin p) → vc_partitions vcfg = true →
     ∃ count, partition_count is_client_error streamId rg = Return count ∧ (0 ≤ p < count)%Z).
Proof.
  unfold choose_partition. destruct (vc_partitions vcfg); simpl; [|destruct explicit; intros [= <- <-]; by split_and!].
  destruct (partition_count is_client_error streamId rg) as [count|] eqn:Hc; [|intros [= <- <-]; split_and!; [done..|]; done].
  assert (∀ g q, getDefaultPartition count random f = (g, q) →
    mf_prevMsgRefs g = mf_prevMsgRefs f ∧ mf_firstMessage g = mf_firstMessage f ∧
    (factory_ok f → (0 ≤ random < count)%Z → factory_ok g ∧ (0 ≤ q < count)%Z)) as Hd.
  { intros g q. unfold getDefaultPartition. destruct (mf_defaultPartition f) as [p|] eqn:Hp;
      [destruct (Z.leb_spec count p)|]; intros [= <- <-]; (split_and!; [done..|]); intros Hf Hr.
    - split; [|done]. intros x [= <-]. lia.
    - split; [done|]. split; [by apply Hf|done].
    - split; [|done]. intros x [= <-]. lia. }
  destruct explicit as [p|].
  - destruct (js_ltb p 0 || js_geb p count) eqn:Hr; [intros [= <- <-]; by split_and!|].
    destruct (pm_partitionKey metadata); intros [= <- <-]; [by split_and!|]. split_and!; [done..|].
    intros Hf _. split; [done|]. intros q [= ->] _. exists count. split; [done|].
    apply orb_false_iff in Hr as [Hr1%Z.ltb_ge Hr2%Z.leb_gt]. done.
  - destruct (pm_partitionKey metadata) as [key|].
    + intros [= <- <-]. split_and!; [done..|]. intros Hf _. split; [done|]. intros q Hq _.
      destruct (key_to_array_index md5_int32 count key) as [p|] eqn:Hk; [|done]. simpl in Hq. injection Hq as <-.
      exists count. split; [done|]. by eapply key_to_array_index_range.
    + destruct (getDefaultPartition count random f) as [g q] eqn:Hg. destruct (Hd _ _ eq_refl) as (H1 & H2 & H3).
      intros [= <- <-]. split_and!; [done..|]. intros Hf Hr. destruct (H3 Hf (Hr _ eq_refl)) as [H4 H5].
      split; [done|]. intros q' [= <-] _. by exists count.
Qed.

Lemma choose_chain_refs metadata p drawn f f' chain :
  choose_chain metadata p drawn f = (f', chain) →
  mf_prevMsgRefs f' = mf_prevMsgRefs f ∧ mf_firstMessage f' = mf_firstMessage f ∧ (factory_ok f → factory_ok f') ∧
  ∀ c, pm_msgChainId metadata = Some c → chain = c.
Proof.
  unfold choose_chain. destruct (pm_msgChainId metadata) as [c|]; [intros [= <- <-]; split_and!; [done..|by intros ? [= ->]]|].
  destruct (_ !! _); intros [= <- <-]; by split_and!.
Qed.

(** How a message carries its content *)
Definition carries (q : GroupKeyQueue) (content : publish_content) (dw : task_draws) (m : StreamMessage)
    (sequence : option GroupKeySequence) : Prop :=
  vm_contentType m = (raw_content content).2 ∧
  match sequence with
  | None => vm_encryptionType m = ENCRYPTION_NONE ∧ vm_content m = (raw_content content).1 ∧
            vm_groupKeyId m = None ∧ vm_newGroupKey m = None
  | Some sequence =>
      vm_encryptionType m = ENCRYPTION_AES ∧ vm_groupKeyId m = Some (key_id (gs_current sequence)) ∧
      encryptWithAES cs (raw_content content).1 (key_data (gs_current sequence)) (td_iv dw) = Return (vm_content m) ∧
      match gs_next sequence with
      | None => vm_newGroupKey m = None
      | Some next => ∃ encrypted, vm_newGroupKey m = Some encrypted ∧
          encryptNextGroupKey cs (gs_current sequence) next (td_nextIv dw) = Return encrypted
      end
  end.

Lemma encrypt_content_Return type raw dw q store q' store' sent gid newKey :
  encrypt_content cs ident streamId type raw dw (q, store) = (q', store', Return (sent, gid, newKey)) →
  (type ≠ ENCRYPTION_AES ∧ q' = q ∧ store' = store ∧ sent = raw ∧ gid = None ∧ newKey = None) ∨
  (type = ENCRYPTION_AES ∧ ∃ sequence,
     useGroupKey ident streamId (td_keyId dw) (td_keyData dw) (q, store) = (q', store', Return sequence) ∧
     gid = Some (key_id (gs_current sequence)) ∧
     encryptWithAES cs raw (key_data (gs_current sequence)) (td_iv dw) = Return sent ∧
     match gs_next sequence with
     | None => newKey = None
     | Some next => ∃ encrypted, newKey = Some encrypted ∧
         encryptNextGroupKey cs (gs_current sequence) next (td_nextIv dw) = Return encrypted
     end).
Proof.
  unfold encrypt_content. destruct (Z.eqb_spec type ENCRYPTION_AES) as [->|]; [|intros [= <- <- <- <- <-]; by left].
  destruct (useGroupKey _ _ _ _ _) as [[q1 store1] [sequence|]]; [|done]. intros Heq. right. split; [done|].
  exists sequence. destruct (encryptWithAES cs raw _ _) as [c|]; [|done]. simpl in Heq.
  destruct (gs_next sequence) as [next|]; [|injection Heq as <- <- <- <- <-; by split_and!].
  destruct (encryptNextGroupKey _ _ _ _) as [k|]; [|done]. simpl in Heq. injection Heq as <- <- <- <- <-. eauto 10.
Qed.

Lemma choose_encryption_Return rg type :
  choose_encryption is_client_error cfg vcfg streamId rg = Return type →
  isCompliantEncryptionType type cfg = true ∧
  (type = ENCRYPTION_AES ∨
   type = ENCRYPTION_NONE ∧ vc_permissions vcfg = true ∧ rg_hasPublicSubscribePermission rg streamId = Return true).
Proof.
  unfold choose_encryption. destruct (vc_permissions vcfg); simpl.
  - destruct (rg_hasPublicSubscribePermission rg streamId) as [b|]; [|done]. simpl.
    destruct (isCompliantEncryptionType _ cfg) eqn:Hc; [|done]. intros [= <-]. split; [done|]. destruct b; auto.
  - intros Heq. injection Heq as <-. split; [reflexivity|by left].
Qed.

(** A message was made: what its fields are, and how the state changed *)
Record made (rg : registry) (dw : task_draws) (content : publish_content) (metadata : PublishMetadata)
    (s s' : task_state M) (m : StreamMessage) : Prop := {
  made_publisher : publisher_id ident metadata = Return (getPublisherId m);
  made_permission : check_permission is_client_error vcfg streamId rg (getPublisherId m) = Return tt;
  made_stream : getStreamId m = streamId;
  made_type : vm_messageType m = MESSAGE;
  made_prev : vm_prevMsgRef m = mf_prevMsgRefs (ts_factory s) !! chain_key m;
  made_ref : createMessageRef (pm_timestamp metadata) (vm_prevMsgRef m) = Return (get_message_ref m);
  made_chain : mf_prevMsgRefs (ts_factory s') = <[chain_key m := get_message_ref m]> (mf_prevMsgRefs (ts_factory s));
  made_chain_id : ∀ c, pm_msgChainId metadata = Some c → getMsgChainId m = c;
  made_partition : (0 ≤ getStreamPartition m)%Z;
  made_range : factory_ok (ts_factory s) → draws_fit rg dw → factory_ok (ts_factory s') ∧
    (vc_partitions vcfg = true → ∃ count, partition_count is_client_error streamId rg = Return count ∧
                                          (0 ≤ getStreamPartition m < count)%Z);
  made_encryption : ∃ type sequence,
    choose_encryption is_client_error cfg vcfg streamId rg = Return type ∧ vm_encryptionType m = type ∧
    carries (ts_queue s) content dw m sequence ∧
    match sequence with
    | None => ts_queue s' = ts_queue s ∧ ts_store s' = ts_store s
    | Some sequence => useGroupKey ident streamId (td_keyId dw) (td_keyData dw) (ts_queue s, ts_store s)
                       = (ts_queue s', ts_store s', Return sequence)
    end;
  made_signature : vm_signatureType m = signature_type ident metadata ∧
    ∃ payload, createSignaturePayload pb m = Return payload ∧
               id_createMessageSignature ident payload = Return (vm_signature m)
}.

Lemma check_first_Return now rg metadata m s s' m' :
  check_first cr pb now rg metadata m s = (s', Return m') →
  m' = m ∧ ts_queue s' = ts_queue s ∧ ts_store s' = ts_store s ∧
  mf_prevMsgRefs (ts_factory s') = mf_prevMsgRefs (ts_factory s) ∧
  mf_defaultPartition (ts_factory s') = mf_defaultPartition (ts_factory s).
Proof.
  unfold check_first. destruct (mf_firstMessage (ts_factory s)); [|by intros [= <- <-]].
  destruct (pm_erc1271Contract metadata); [|by intros [= <- <-]].
  destruct (assertSignatureIsValid _ _ _ _ _ _) as [cache [|]]; [|done]. by intros [= <- <-].
Qed.

Lemma createMessage_Return now rg dw content metadata explicit s s' m :
  make_message now rg dw content metadata explicit s = (s', Return m) → made rg dw content metadata s s' m.
Proof.
  unfold createMessage. destruct (publisher_id ident metadata) as [user|] eqn:Huser; [|done].
  cbn [as_thrown outcome_bind].
  destruct (check_permission is_client_error vcfg streamId rg user) as [[]|] eqn:Hperm; [|done]. cbn [outcome_bind].
  destruct (choose_partition _ _ _ _ _ _ _ _ _) as [f1 [p|]] eqn:Hp; [|done].
  destruct (choose_chain metadata p (td_chainId dw) f1) as [f2 chain] eqn:Hc.
  destruct (choose_partition_refs _ _ _ _ _ _ _ Hp) as (Hrefs1 & _ & Hrange).
  destruct (choose_chain_refs _ _ _ _ _ _ Hc) as (Hrefs2 & _ & Hok2 & Hchain).
  destruct (createMessageRef _ _) as [ref|] eqn:Href; [|done].
  destruct (message_id_new _ _ _ _ _ _) as [mid|] eqn:Hid; [|done].
  apply message_id_new_Return in Hid as (q & ts & [= ->] & [= <-] & Hq & _ & _ & ->).
  unfold finish_message. destruct (choose_encryption _ _ _ _ _) as [type|] eqn:Htype; [|done].
  cbn [ts_queue ts_store with_factory].
  destruct (encrypt_content _ _ _ _ _ _ _) as [[q' store'] [[[sent gid] newKey]|]] eqn:Henc; [|done].
  destruct (createSignedMessage _ _ _ _) as [m1|] eqn:Hsign; [|done].
  intros (-> & Hsq & Hss & Hsf & Hsd)%check_first_Return. cbn [ts_queue ts_store ts_factory] in *.
  apply createSignedMessage_Return in Hsign as (payload & sig & Hpay & Hsig & ->).
  assert (get_message_ref (with_signature sig (signature_type ident metadata) (MkMessage (MkMessageID streamId q
    (mr_timestamp ref) (mr_sequenceNumber ref) user chain) (mf_prevMsgRefs f2 !! msg_chain_key (JFin q) chain) MESSAGE sent
    (raw_content content).2 [] SIGNATURE_LEGACY type gid newKey)) = ref) as Hrefm by by destruct ref.
  constructor.
  - done.
  - done.
  - done.
  - done.
  - unfold chain_key. cbn. by rewrite Hrefs2, Hrefs1.
  - by rewrite Hrefm.
  - rewrite Hrefm, Hsf. unfold chain_key. cbn. by rewrite Hrefs2, Hrefs1.
  - intros c Hcc. unfold getMsgChainId. cbn. by apply Hchain.
  - done.
  - intros Hf Hd. destruct (Hrange Hf Hd) as [Hf1 Hpart]. split; [|intros Hv; by apply (Hpart q)].
    intros x Hx. rewrite Hsd in Hx. by apply Hok2 in Hx.
  - exists type. apply encrypt_content_Return in Henc as [(Hne & -> & -> & -> & -> & ->)|(-> & sequence & Huse & -> & Hct & Hnext)].
    + exists None. split_and!; [done|done| |done|done]. unfold carries. split; [done|].
      destruct (choose_encryption_Return _ _ Htype) as [_ [->|[-> _]]]; [done|]. by split_and!.
    + exists (Some sequence). split_and!; [done|done| |by rewrite Hsq, Hss]. split; [done|]. by split_and!.
  - split; [done|]. exists payload. done.
Qed.

Lemma createMessage_validates now rg dw content metadata explicit s s' m :
  working_identity cr ident → pm_erc1271Contract metadata = None → factory_ok (ts_factory s) → draws_fit rg dw →
  make_message now rg dw content metadata explicit s = (s', Return m) →
  ∀ now' (cache : M), validateStreamMessage cr pb now' (rg_world rg) vcfg m cache = (cache, Return tt).
Proof.
  intros Hw Herc Hf Hd Hm%createMessage_Return now' cache. destruct Hm.
  unfold publisher_id in made_publisher0. rewrite Herc in made_publisher0. injection made_publisher0 as Huser.
  destruct made_signature0 as (Htype & payload & Hpay & Hsig). unfold signature_type in Htype. rewrite Herc in Htype.
  rewrite (signature_validates cr pb ident m payload) by done. f_equal. unfold validateByType.
  rewrite made_type0. cbn [Z.eqb]. unfold MESSAGE. cbn [Z.eqb]. unfold validateMessage. rewrite made_stream0.
  assert ((if vc_partitions vcfg then
     (let? partitions := w_partitions (rg_world rg) streamId in
      let? partitionCount := getPartitionCount partitions in
      if (getStreamPartition m <? 0)%Z || (partitionCount <=? getStreamPartition m)%Z
      then Throw (MkError (Some "INVALID_PARTITION") "Partition is out of range")
      else Return tt)%eff else Return tt) = Return tt) as ->.
  { destruct (vc_partitions vcfg); [|done]. destruct (made_range0 Hf Hd) as [_ Hr].
    destruct (Hr eq_refl) as (count & Hc & Hp). unfold partition_count in Hc.
    destruct (w_partitions _ _) as [parts|]; [|done]. simpl in *. destruct (getPartitionCount parts); [|done].
    injection Hc as <-. simpl. rewrite (proj2 (Z.ltb_ge _ _)), (proj2 (Z.leb_gt _ _)) by lia. done. }
  cbn [outcome_bind]. unfold check_permission in made_permission0. destruct (vc_permissions vcfg); [|done].
  unfold require_permission. destruct (w_isStreamPublisher _ _ _) as [b|]; [|done]. simpl in *. by destruct b.
Qed.

(** C5: a message that a client publishes is taken: when [createMessage] makes a message in the client's own name, with the
    registry's answers of the moment, then a validation under the same rules and answers, by a subscriber or a storage
    node, at any time and with whatever it has cached, accepts it: the signature is good, the partition exists, and the
    publisher may publish. *)
Theorem published_messages_are_accepted now rg dw content metadata explicit s s' m :
  working_identity cr ident → pm_erc1271Contract metadata = None → factory_ok (ts_factory s) → draws_fit rg dw →
  make_message now rg dw content metadata explicit s = (s', Return m) →
  ∀ now' (cache : M), validateStreamMessage cr pb now' (rg_world rg) vcfg m cache = (cache, Return tt).
Proof. apply createMessage_validates. Qed.

(** ** Chains *)

(** What a call of [createMessage] does to the chains of its factory: it makes a message, or fails after it has taken a
    reference, which no message will bear *)
Inductive chain_step := Made (m : StreamMessage) | Lost (key : string) (r : MessageRef).
Definition step_key (x : chain_step) : string := match x with Made m => chain_key m | Lost key _ => key end.
Definition step_ref (x : chain_step) : MessageRef := match x with Made m => get_message_ref m | Lost _ r => r end.
Definition made_messages (steps : list chain_step) : list StreamMessage :=
  omap (λ x, match x with Made m => Some m | Lost _ _ => None end) steps.

(** What a failed call leaves: nothing, when it did not come to the chain, or a lost reference *)
Inductive leaves (metadata : PublishMetadata) (s s1 : task_state M) : list chain_step → Prop :=
  | leaves_nothing : mf_prevMsgRefs (ts_factory s1) = mf_prevMsgRefs (ts_factory s) → leaves metadata s s1 []
  | leaves_reference key r :
      createMessageRef (pm_timestamp metadata) (mf_prevMsgRefs (ts_factory s) !! key) = Return r →
      mf_prevMsgRefs (ts_factory s1) = <[key := r]> (mf_prevMsgRefs (ts_factory s)) → leaves metadata s s1 [Lost key r].

(** Any calls of [createMessage] on one factory, with what they do; the keys may be updated in between. *)
Inductive calls : task_state M → list chain_step → task_state M → Prop :=
  | calls_none s : calls s [] s
  | calls_made now rg dw content metadata explicit s s1 s2 m steps :
      make_message now rg dw content metadata explicit s = (s1, Return m) → calls s1 steps s2 →
      calls s (Made m :: steps) s2
  | calls_failed now rg dw content metadata explicit s s1 s2 err left steps :
      make_message now rg dw content metadata explicit s = (s1, Throw err) → leaves metadata s s1 left →
      calls s1 steps s2 → calls s (left ++ steps) s2
  | calls_keys q store s s2 steps :
      calls (MkTask (ts_factory s) q store (ts_cache s)) steps s2 → calls s steps s2.

Lemma check_first_refs now rg metadata m s s' r :
  check_first cr pb now rg metadata m s = (s', r) →
  mf_prevMsgRefs (ts_factory s') = mf_prevMsgRefs (ts_factory s).
Proof.
  unfold check_first. destruct (mf_firstMessage (ts_factory s)); [|by intros [= <- _]].
  destruct (pm_erc1271Contract metadata); [|by intros [= <- _]].
  by destruct (assertSignatureIsValid _ _ _ _ _ _) as [cache [|]]; intros [= <- _].
Qed.

Lemma finish_message_refs now rg dw content metadata prev mid s s' r :
  finish_message is_client_error cr pb cs cfg vcfg ident streamId now rg dw content metadata prev mid s = (s', r) →
  mf_prevMsgRefs (ts_factory s') = mf_prevMsgRefs (ts_factory s).
Proof.
  unfold finish_message. destruct (choose_encryption _ _ _ _ _); [|by intros [= <- _]].
  destruct (encrypt_content _ _ _ _ _ _ _) as [[q store] [[[sent gid] newKey]|]]; [|by intros [= <- _]].
  destruct (createSignedMessage _ _ _ _); [|by intros [= <- _]]. intros Hc%check_first_refs. exact Hc.
Qed.

(** Every call that fails is one of the two. *)
Lemma failed_call_leaves now rg dw content metadata explicit s s1 err :
  make_message now rg dw content metadata explicit s = (s1, Throw err) → ∃ left, leaves metadata s s1 left.
Proof.
  unfold createMessage. destruct (outcome_bind _ _) as [user|]; [|intros [= <- _]; exists []; by constructor].
  destruct (choose_partition _ _ _ _ _ _ _ _ _) as [f1 [p|]] eqn:Hp;
    destruct (choose_partition_refs _ _ _ _ _ _ _ Hp) as (Hr1 & _ & _); [|intros [= <- _]; exists []; by constructor].
  destruct (choose_chain metadata p (td_chainId dw) f1) as [f2 chain] eqn:Hc.
  destruct (choose_chain_refs _ _ _ _ _ _ Hc) as (Hr2 & _ & _).
  assert (mf_prevMsgRefs f2 = mf_prevMsgRefs (ts_factory s)) as Hr by congruence. rewrite Hr.
  destruct (createMessageRef _ _) as [ref|] eqn:Href; [|intros [= <- _]; exists []; by constructor].
  intros Hrest. exists [Lost (msg_chain_key p chain) ref]. constructor; [exact Href|].
  destruct (message_id_new _ _ _ _ _ _); [apply finish_message_refs in Hrest; rewrite Hrest|injection Hrest as <- _];
    cbn; by rewrite Hr.
Qed.

(** A message as the ordering of a subscriber sees it *)
Definition chained (m : StreamMessage) : Ordering.StreamMessage :=
  MkStreamMessage (get_message_ref m) (vm_prevMsgRef m) 0.

Definition of_chain (key : string) (steps : list chain_step) : list chain_step :=
  filter (λ x, step_key x = key) steps.

(** Each reference is after the one taken before it, and a message names that one. *)
Fixpoint follows (before : option MessageRef) (steps : list chain_step) : Prop :=
  match steps with
  | [] => True
  | x :: steps =>
      (∀ p, before = Some p → ref_lt p (step_ref x)) ∧
      (∀ m, x = Made m → vm_prevMsgRef m = before) ∧ follows (Some (step_ref x)) steps
  end.

Lemma calls_follow s steps s' key :
  calls s steps s' → follows (mf_prevMsgRefs (ts_factory s) !! key) (of_chain key steps).
Proof.
  induction 1 as [s|now rg dw content metadata explicit s s1 s2 m steps Hm _ IH
                 |now rg dw content metadata explicit s s1 s2 err left steps Hm Hl _ IH
                 |q store s s2 steps _ IH]; [done| | |exact IH].
  - apply createMessage_Return in Hm as []. apply createMessageRef_Return in made_ref0 as (_ & _ & _ & Hlt).
    rewrite made_chain0 in IH. unfold of_chain in *. rewrite filter_cons. cbn [step_key].
    destruct (decide (chain_key m = key)) as [<-|Hne]; [|by rewrite lookup_insert_ne in IH].
    rewrite lookup_insert_eq in IH. cbn [follows step_ref]. rewrite <-made_prev0.
    split_and!; [intros p Hp; by rewrite Hp in Hlt|by intros ? [= <-]|exact IH].
  - destruct Hl as [Hr|key' r Hr Hc]; [by rewrite Hr in IH|]. rewrite Hc in IH.
    apply createMessageRef_Return in Hr as (_ & _ & _ & Hlt). unfold of_chain in *. cbn [app]. rewrite filter_cons.
    cbn [step_key]. destruct (decide (key' = key)) as [<-|Hne]; [|by rewrite lookup_insert_ne in IH].
    rewrite lookup_insert_eq in IH. cbn [follows step_ref].
    split_and!; [intros p Hp; by rewrite Hp in Hlt|done|exact IH].
Qed.

Lemma follows_sorted before steps :
  follows before steps →
  StronglySorted ref_lt (step_ref <$> steps) ∧ ∀ p, before = Some p → Forall (ref_lt p) (step_ref <$> steps).
Proof.
  revert before. induction steps as [|x steps IH]; intros before; [split; constructor|]. cbn [follows fmap list_fmap].
  intros (Hx & _ & Hrest). destruct (IH _ Hrest) as [Hs Hall]. specialize (Hall _ eq_refl). split; [by constructor|].
  intros p Hp. specialize (Hx p Hp). constructor; [done|]. eapply Forall_impl; [exact Hall|]. intros r Hr. refs.
Qed.

(** Where no call lost a reference, the messages are a chain without a gap. *)
Lemma follows_linked before steps :
  follows before steps → (∀ key r, Lost key r ∉ steps) → linked (chained <$> made_messages steps).
Proof.
  revert before. induction steps as [|x steps IH]; intros before; [done|]. cbn [follows].
  intros (_ & _ & Hrest) Hno. assert (linked (chained <$> made_messages steps)) as Hl.
  { eapply IH; [exact Hrest|]. intros key r Hin. apply (Hno key r). by right. }
  destruct x as [m|key r]; [|by destruct (Hno key r); left]. cbn [made_messages omap list_omap fmap list_fmap] in *.
  destruct steps as [|y steps]; [done|]. destruct y as [m2|key r]; [|by destruct (Hno key r); right; left].
  cbn [follows step_ref] in Hrest. destruct Hrest as (Hlt & Hprev & _). cbn [omap list_omap fmap list_fmap linked] in *.
  split_and!; [by apply Hprev|by apply Hlt|exact Hl].
Qed.

(** C15: messages are chained.  Whatever calls of [createMessage] are made on a factory, with failures among them, the
    references taken for one partition and chain id grow strictly, also when they bear the same time, and each message
    names the one taken directly before it, the first the one the factory had; where no call failed after it had taken
    its reference, that is the message before it, and the messages form the chain without gaps that the ordering of a
    subscriber relies on.  (A call that fails later than that leaves a reference that no message bears and the next
    message names.) *)
Theorem messages_are_chained s steps s' key :
  calls s steps s' →
  follows (mf_prevMsgRefs (ts_factory s) !! key) (of_chain key steps) ∧
  StronglySorted ref_lt (step_ref <$> of_chain key steps) ∧
  ((∀ r, Lost key r ∉ steps) → linked (chained <$> made_messages (of_chain key steps))).
Proof.
  intros Hc. pose proof (calls_follow _ _ _ key Hc) as Hf. split; [done|]. split; [by eapply follows_sorted|].
  intros Hno. eapply follows_linked; [exact Hf|]. intros key' r [Hk Hin]%list_elem_of_filter. cbn in Hk. subst key'.
  by apply (Hno r).
Qed.

(** A call that fails once the chain has moved leaves a reference that no message bears, and the next message of the chain
    names it: subscribers look for a message that was never published. *)
Theorem failed_message_is_named now rg dw content metadata explicit s s1 err key r now' rg' dw' content' metadata' explicit' s2 m :
  make_message now rg dw content metadata explicit s = (s1, Throw err) →
  mf_prevMsgRefs (ts_factory s1) = <[key := r]> (mf_prevMsgRefs (ts_factory s)) →
  make_message now' rg' dw' content' metadata' explicit' s1 = (s2, Return m) → chain_key m = key →
  vm_prevMsgRef m = Some r.
Proof.
  intros _ Hr Hm%createMessage_Return <-. destruct Hm. by rewrite made_prev0, Hr, lookup_insert_eq.
Qed.

(** The chains of a factory do not tell publishers apart: a message made for one contract is named by the next message of
    the partition and chain id, whoever that one is made for. *)
Theorem chains_mix_publishers now rg dw content metadata explicit s s1 m1 now' rg' dw' content' metadata' explicit' s2 m2 :
  make_message now rg dw content metadata explicit s = (s1, Return m1) →
  make_message now' rg' dw' content' metadata' explicit' s1 = (s2, Return m2) →
  getPublisherId m1 ≠ getPublisherId m2 → chain_key m1 = chain_key m2 → vm_prevMsgRef m2 = Some (get_message_ref m1).
Proof.
  intros Hm1%createMessage_Return Hm2%createMessage_Return _ Hk. destruct Hm1, Hm2.
  by rewrite made_prev1, made_chain0, Hk, lookup_insert_eq.
Qed.
End made.

Section publish_facts.
  Context (is_client_error : js_error → bool) (cr : crypto) (pb : proto) (cs : ciphers) (md5_int32 : string → Z).
  Context (number date_parse : string → jsnum).
  Context {M : Type} `{E : !ExpiringMap string bool M publisher_ttl}.
  Context (cfg : encryption_config) (vcfg : validation_config) (ident : identity).

(** The code of an error, and of what a step throws *)
Definition error_code (e : js_error) : string :=
  if is_client_error e then default "" (err_code e) else "UNKNOWN_ERROR".
Definition thrown_code (t : thrown) : string :=
  match t with ClientError code _ => code | OtherError _ => "UNKNOWN_ERROR" end.

Section causes.
  Context (now : Z) (rg : registry) (dw : task_draws) (sent : outcome js_error unit) (streamId : string).
  Context (content : publish_content) (metadata : PublishMetadata) (explicit : option jsnum) (b : Publisher M).

(** The factory of the stream, made at its first use *)
Definition known_factory : MessageFactory := default factory_new (pb_messageFactories b !! streamId).

Notation partition_chosen :=
  (choose_partition is_client_error md5_int32 vcfg streamId rg metadata explicit (td_partition dw) known_factory).

(** The reference that a message of the chain names *)
Definition last_ref (partition : jsnum) (chain : string) : option MessageRef :=
  mf_prevMsgRefs known_factory !! msg_chain_key partition chain.

(** The message that this publish signs *)
Inductive drafted : StreamMessage → Prop :=
  | drafted_from user f1 f2 p chain ref messageId type q qs body gid newKey :
      publisher_id ident metadata = Return user → partition_chosen = (f1, Return p) →
      choose_chain metadata p (td_chainId dw) f1 = (f2, chain) →
      createMessageRef (pm_timestamp metadata) (last_ref p chain) = Return ref →
      message_id_new streamId (Some p) (JFin (mr_timestamp ref)) (mr_sequenceNumber ref) user chain = Return messageId →
      choose_encryption is_client_error cfg vcfg streamId rg = Return type →
      (getGroupKeyQueue cfg ident streamId b).2 = Return q →
      encrypt_content cs ident streamId type (raw_content content).1 dw (q, pb_store b) = (qs, Return (body, gid, newKey)) →
      drafted (MkMessage messageId (last_ref p chain) MESSAGE body (raw_content content).2 [] SIGNATURE_LEGACY type gid newKey).

(** What makes this publish fail, with the code it is told by *)
Inductive publish_cause : string → Prop :=
  | cause_queue e : (getGroupKeyQueue cfg ident streamId b).2 = Throw e → publish_cause "UNKNOWN_ERROR"
  | cause_publisher_id e : publisher_id ident metadata = Throw e → publish_cause "UNKNOWN_ERROR"
  | cause_permission_unknown user e :
      vc_permissions vcfg = true → publisher_id ident metadata = Return user →
      w_isStreamPublisher (rg_world rg) streamId user = Throw e → publish_cause (error_code e)
  | cause_not_permitted user :
      vc_permissions vcfg = true → publisher_id ident metadata = Return user →
      w_isStreamPublisher (rg_world rg) streamId user = Return false → publish_cause "MISSING_PERMISSION"
  | cause_metadata_unknown e :
      vc_partitions vcfg = true → w_partitions (rg_world rg) streamId = Throw e → publish_cause (error_code e)
  | cause_metadata_invalid partitions :
      vc_partitions vcfg = true → w_partitions (rg_world rg) streamId = Return partitions →
      is_return (getPartitionCount partitions) = false → publish_cause "INVALID_STREAM_METADATA"
  | cause_no_partition :
      vc_partitions vcfg = false → explicit = None → publish_cause "UNKNOWN_ERROR"
  | cause_partition_refused count p :
      vc_partitions vcfg = true → partition_count is_client_error streamId rg = Return count → explicit = Some p →
      js_ltb p 0 = true ∨ js_geb p count = true ∨ pm_partitionKey metadata ≠ None → publish_cause "UNKNOWN_ERROR"
  | cause_partition_key count key e :
      vc_partitions vcfg = true → partition_count is_client_error streamId rg = Return count →
      pm_partitionKey metadata = Some key → key_to_array_index md5_int32 count key = Throw e → publish_cause "UNKNOWN_ERROR"
  | cause_reference f1 f2 p chain e :
      partition_chosen = (f1, Return p) → choose_chain metadata p (td_chainId dw) f1 = (f2, chain) →
      createMessageRef (pm_timestamp metadata) (last_ref p chain) = Throw e → publish_cause "UNKNOWN_ERROR"
  | cause_partition_no_integer f1 p e :
      partition_chosen = (f1, Return p) → validateIsNotNegativeInteger (Some p) false = Throw e →
      publish_cause "UNKNOWN_ERROR"
  | cause_public_unknown e :
      vc_permissions vcfg = true → rg_hasPublicSubscribePermission rg streamId = Throw e → publish_cause (error_code e)
  | cause_encryption_required :
      vc_permissions vcfg = true → ec_requireQuantumResistantEncryption cfg = true →
      rg_hasPublicSubscribePermission rg streamId = Return true → publish_cause "ENCRYPTION_POLICY_VIOLATION"
  | cause_encryption type q qs e :
      choose_encryption is_client_error cfg vcfg streamId rg = Return type →
      (getGroupKeyQueue cfg ident streamId b).2 = Return q →
      encrypt_content cs ident streamId type (raw_content content).1 dw (q, pb_store b) = (qs, Throw e) →
      publish_cause "UNKNOWN_ERROR"
  | cause_signing m e :
      drafted m → createSignedMessage pb ident m (signature_type ident metadata) = Throw e → publish_cause "UNKNOWN_ERROR"
  | cause_signer_refused draft m cache' t :
      drafted draft → createSignedMessage pb ident draft (signature_type ident metadata) = Return m →
      mf_firstMessage known_factory = true → pm_erc1271Contract metadata ≠ None →
      assertSignatureIsValid cr pb now (rg_world rg) m (pb_cache b) = (cache', Throw t) → publish_cause (thrown_code t)
  | cause_not_sent e : sent = Throw e → publish_cause (error_code e).

Lemma as_registry_Throw {A} (r : outcome js_error A) t :
  as_registry is_client_error r = Throw t → ∃ e, r = Throw e ∧ thrown_code t = error_code e.
Proof.
  unfold as_registry, error_code. destruct r as [|e]; [done|]. intros Heq. exists e. split; [done|].
  destruct (is_client_error e); by injection Heq as <-.
Qed.

Lemma as_registry_Return {A} (r : outcome js_error A) a : as_registry is_client_error r = Return a → r = Return a.
Proof. destruct r; simpl; [by intros [= ->]|done]. Qed.

Lemma partition_count_cause t :
  vc_partitions vcfg = true → partition_count is_client_error streamId rg = Throw t → publish_cause (thrown_code t).
Proof.
  intros Hv. unfold partition_count.
  destruct (as_registry is_client_error (w_partitions (rg_world rg) streamId)) as [parts|t'] eqn:Hr; cbn [outcome_bind].
  - apply as_registry_Return in Hr. destruct (getPartitionCount parts) eqn:Hp; [done|]. intros [= <-].
    apply (cause_metadata_invalid parts); [done..|by rewrite Hp].
  - apply as_registry_Throw in Hr as (e & He & Hc). intros [= <-]. rewrite Hc. by apply cause_metadata_unknown.
Qed.

Lemma choose_partition_cause f1 t : partition_chosen = (f1, Throw t) → publish_cause (thrown_code t).
Proof.
  unfold choose_partition. destruct (vc_partitions vcfg) eqn:Hv; cbn [negb].
  2: { destruct explicit eqn:He; [done|]. intros [= <- <-]. by apply cause_no_partition. }
  destruct (partition_count is_client_error streamId rg) as [count|t'] eqn:Hc.
  2: { intros [= <- <-]. by apply partition_count_cause. }
  destruct explicit as [p|] eqn:He.
  - destruct (js_ltb p 0) eqn:Hlo; cbn [orb]; [intros [= <- <-]; eapply cause_partition_refused; eauto|].
    destruct (js_geb p count) eqn:Hhi; [intros [= <- <-]; eapply cause_partition_refused; eauto|].
    destruct (pm_partitionKey metadata) eqn:Hk; [|done]. intros [= <- <-].
    eapply cause_partition_refused; eauto. right. right. by rewrite Hk.
  - destruct (pm_partitionKey metadata) as [key|] eqn:Hk; [|by destruct (getDefaultPartition _ _ _)].
    destruct (key_to_array_index md5_int32 count key) as [|e] eqn:Hi; [done|]. intros [= <- <-].
    by eapply cause_partition_key.
Qed.

Lemma check_permission_cause user t :
  publisher_id ident metadata = Return user → check_permission is_client_error vcfg streamId rg user = Throw t →
  publish_cause (thrown_code t).
Proof.
  intros Hu. unfold check_permission. destruct (vc_permissions vcfg) eqn:Hv; [|done].
  destruct (as_registry is_client_error (w_isStreamPublisher (rg_world rg) streamId user)) as [ok|t'] eqn:Hr; cbn [outcome_bind].
  - apply as_registry_Return in Hr. destruct ok; [done|]. intros [= <-]. by eapply cause_not_permitted.
  - apply as_registry_Throw in Hr as (e & He & Hc). intros [= <-]. rewrite Hc. by eapply cause_permission_unknown.
Qed.

Lemma choose_encryption_cause t :
  choose_encryption is_client_error cfg vcfg streamId rg = Throw t → publish_cause (thrown_code t).
Proof.
  unfold choose_encryption. destruct (vc_permissions vcfg) eqn:Hv; [|done].
  destruct (as_registry is_client_error (rg_hasPublicSubscribePermission rg streamId)) as [public|t'] eqn:Hr; cbn [outcome_bind].
  - apply as_registry_Return in Hr. destruct (isCompliantEncryptionType _ cfg) eqn:Hc; [done|]. intros [= <-].
    unfold isCompliantEncryptionType in Hc. apply orb_false_iff in Hc as [Hc Hq]. apply negb_false_iff in Hq.
    destruct public; [by apply cause_encryption_required|done].
  - apply as_registry_Throw in Hr as (e & He & Hc). intros [= <-]. rewrite Hc. by apply cause_public_unknown.
Qed.

Lemma check_first_cause m draft s s' t :
  drafted draft → createSignedMessage pb ident draft (signature_type ident metadata) = Return m →
  mf_firstMessage (ts_factory s) = mf_firstMessage known_factory → ts_cache s = pb_cache b →
  check_first cr pb now rg metadata m s = (s', Throw t) → publish_cause (thrown_code t).
Proof.
  intros Hd Hs Hf Hc. unfold check_first. rewrite Hf. destruct (mf_firstMessage known_factory) eqn:Hfirst; [|done].
  destruct (pm_erc1271Contract metadata) eqn:Herc; [|done]. cbn [with_factory ts_cache]. rewrite Hc.
  destruct (assertSignatureIsValid _ _ _ _ _ _) as [cache' [|t']] eqn:Ha; [done|]. intros [= <- <-].
  eapply cause_signer_refused; [exact Hd|exact Hs|exact Hfirst|by rewrite Herc|exact Ha].
Qed.

Lemma createMessage_cause q s s' t :
  (getGroupKeyQueue cfg ident streamId b).2 = Return q → s = MkTask known_factory q (pb_store b) (pb_cache b) →
  createMessage is_client_error cr pb cs md5_int32 cfg vcfg ident streamId now rg dw content metadata explicit s
    = (s', Throw t) → publish_cause (thrown_code t).
Proof.
  intros Hq ->. unfold createMessage. cbn [ts_factory]. destruct (publisher_id ident metadata) as [user|e] eqn:Hu; cbn [as_thrown outcome_bind].
  2: { intros [= <- <-]. by eapply cause_publisher_id. }
  destruct (check_permission is_client_error vcfg streamId rg user) as [[]|t'] eqn:Hperm; cbn [outcome_bind].
  2: { intros [= <- <-]. by eapply check_permission_cause. }
  destruct partition_chosen as [f1 [p|t']] eqn:Hp; [|intros [= <- <-]; by eapply choose_partition_cause].
  destruct (choose_chain metadata p (td_chainId dw) f1) as [f2 chain] eqn:Hc.
  destruct (choose_partition_refs is_client_error md5_int32 vcfg streamId _ _ _ _ _ _ _ Hp) as (Hr1 & Hm1 & _).
  destruct (choose_chain_refs _ _ _ _ _ _ Hc) as (Hr2 & Hm2 & _).
  assert (mf_prevMsgRefs f2 !! msg_chain_key p chain = last_ref p chain) as -> by (by rewrite Hr2, Hr1).
  destruct (createMessageRef _ _) as [ref|e] eqn:Href; [|intros [= <- <-]; by eapply cause_reference].
  destruct (message_id_new _ _ _ _ _ _) as [messageId|e] eqn:Hid.
  2: { intros [= <- <-]. apply createMessageRef_Return in Href as (_ & Ht & Hn & _).
       unfold message_id_new in Hid. destruct (validateIsNotNegativeInteger (Some p) false) as [|e'] eqn:Hpi.
       - cbn in Hid. destruct (Z.ltb_spec (mr_timestamp ref) 0); [lia|]. cbn in Hid.
         destruct (Z.ltb_spec (mr_sequenceNumber ref) 0); [lia|done].
       - by eapply cause_partition_no_integer. }
  unfold finish_message. destruct (choose_encryption _ _ _ _ _) as [type|t'] eqn:Htype.
  2: { intros [= <- <-]. by apply choose_encryption_cause. }
  cbn [ts_queue ts_store with_factory].
  destruct (encrypt_content _ _ _ _ _ _ _) as [[q' store] [[[body gid] newKey]|e]] eqn:Henc.
  2: { intros [= <- <-]. by eapply cause_encryption. }
  pose proof (drafted_from _ _ _ _ _ _ _ _ _ _ _ _ _ Hu Hp Hc Href Hid Htype Hq Henc) as Hd.
  destruct (createSignedMessage _ _ _ _) as [m|e] eqn:Hsign; [|intros [= <- <-]; by eapply cause_signing].
  apply (check_first_cause m _ _ _ _ Hd Hsign); cbn; [by rewrite Hm2, Hm1|done].
Qed.

(** The factory and the queue that a publish works with *)
Lemma factory_opened b' r :
  getMessageFactory cfg ident streamId b = (b', r) →
  pb_store b' = pb_store b ∧ pb_cache b' = pb_cache b ∧ pb_broadcast b' = pb_broadcast b ∧
  match r with
  | Return f => f = known_factory ∧ (getGroupKeyQueue cfg ident streamId b').2 = (getGroupKeyQueue cfg ident streamId b).2
  | Throw e => (getGroupKeyQueue cfg ident streamId b).2 = Throw e
  end.
Proof.
  unfold getMessageFactory, known_factory. destruct (pb_messageFactories b !! streamId) as [f|]; [by intros [= <- <-]|].
  unfold getGroupKeyQueue at 1 4. destruct (pb_groupKeyQueues b !! streamId) as [q|] eqn:Hq.
  { intros [= <- <-]. split_and!; [done..|]. unfold getGroupKeyQueue. cbn. by rewrite Hq. }
  unfold getGroupKeyQueue. destruct (outcome_bind _ _) as [q|e] eqn:Hb; intros [= <- <-]; [|split_and!; done].
  split_and!; [done..|]. cbn. by rewrite lookup_insert_eq, Hq.
Qed.

Lemma queue_opened b' r :
  getGroupKeyQueue cfg ident streamId b = (b', r) →
  pb_store b' = pb_store b ∧ pb_cache b' = pb_cache b ∧ pb_broadcast b' = pb_broadcast b.
Proof.
  unfold getGroupKeyQueue. destruct (pb_groupKeyQueues b !! streamId); [by intros [= <- <-]|].
  destruct (outcome_bind _ _); by intros [= <- <-].
Qed.
End causes.

Lemma make_and_send_cause now rg dw sent streamId content metadata explicit (b b' : Publisher M) r :
  make_and_send is_client_error cr pb cs md5_int32 cfg vcfg ident now rg dw sent streamId content metadata explicit b = (b', r) →
  match r with
  | Return m => pb_broadcast b' = pb_broadcast b ++ [m] ∧ sent = Return tt
  | Throw t => pb_broadcast b' = pb_broadcast b ∧
      publish_cause now rg dw sent streamId content metadata explicit b (thrown_code t)
  end.
Proof.
  unfold make_and_send. destruct (getMessageFactory _ _ _ b) as [b1 r1] eqn:Hf.
  destruct (factory_opened _ _ _ _ Hf) as (Hs1 & Hc1 & Hb1 & Hr1).
  destruct r1 as [f|e]; [|intros [= <- <-]; split; [done|by eapply cause_queue]]. destruct Hr1 as [-> Hq1].
  destruct (getGroupKeyQueue _ _ _ b1) as [b2 r2] eqn:Hq. destruct (queue_opened _ _ _ _ Hq) as (Hs2 & Hc2 & Hb2).
  cbn [snd] in Hq1. symmetry in Hq1.
  destruct r2 as [q|e]; [|intros [= <- <-]; split; [congruence|by eapply cause_queue]].
  rewrite Hs2, Hs1, Hc2, Hc1.
  destruct (createMessage _ _ _ _ _ _ _ _ _ _ _ _ _ _ _ _) as [s1 [m|t]] eqn:Hcm.
  - destruct sent as [[]|e] eqn:Hsent; intros [= <- <-]; cbn [pb_broadcast put_task]; [split; [congruence|done]|].
    split; [congruence|]. assert (thrown_code (if is_client_error e then ClientError (default "" (err_code e)) (err_message e)
      else OtherError e) = error_code e) as -> by (unfold error_code; by destruct (is_client_error e)).
    by apply cause_not_sent.
  - intros [= <- <-]. cbn [pb_broadcast put_task]. split; [congruence|].
    by eapply createMessage_cause.
Qed.

(** C17: a publish tells what happened: it broadcasts exactly the message it returns, or nothing and it fails; before the
    stream part is known it fails without a trace, later with a client error that bears the code of its cause.  The
    causes are of this very publish: the registry or the node fails (the code is that of their error, when it is a client
    error), the publisher of the message has no permission (MISSING_PERMISSION), the stream's metadata are bad
    (INVALID_STREAM_METADATA), the stream is public where encryption is required (ENCRYPTION_POLICY_VIOLATION), the
    contract refuses the signer of the first message (the code of the refusal); and UNKNOWN_ERROR stands only for an
    error without a code: of the registry or the node, of the key queue, of the publisher id, the partition, the
    reference, the encryption or the signing. *)
Theorem publish_tells_what_happened now rg dw sent definition content timestamp partitionKey chain erc (b b' : Publisher M) r :
  publish is_client_error cr pb cs md5_int32 number date_parse cfg vcfg ident now rg dw sent definition content timestamp
    partitionKey chain erc b = (b', r) →
  match r with
  | Return m => pb_broadcast b' = pb_broadcast b ++ [m] ∧ sent = Return tt
  | Throw (OtherError e) => toStreamPartElements number (id_userId ident) definition = Throw e ∧ b' = b
  | Throw (ClientError code _) =>
      pb_broadcast b' = pb_broadcast b ∧
      ∃ streamId partition, toStreamPartElements number (id_userId ident) definition = Return (streamId, partition) ∧
        publish_cause now rg dw sent streamId content
          (MkPublishMetadata (parseTimestamp date_parse now timestamp) partitionKey chain erc) partition b code
  end.
Proof.
  unfold publish. destruct (toStreamPartElements _ _ _) as [[streamId partition]|e]; [|by intros [= <- <-]].
  destruct (make_and_send _ _ _ _ _ _ _ _ _ _ _ _ _ _ _ _ b) as [b1 r1] eqn:Hm. apply make_and_send_cause in Hm.
  destruct r1 as [m|t]; intros [= <- <-]; [done|]. destruct Hm as [Hb Hcause]. split; [done|].
  exists streamId, partition. split; [done|]. by destruct t.
Qed.
End publish_facts.

Module PublishWitness.
Import SigningWitness KeysWitness.

Definition open_registry : registry := MkRegistry open_world (λ _, Return false).
Definition task0 : task_state (ttl_map string bool) :=
  MkTask factory_new (MkQueue (Some secret_key) None) bobs_store ttl_empty.
Definition metadata0 : PublishMetadata := MkPublishMetadata (JFin 1000) None (Some "c") None.
Definition draws0 : task_draws := MkTaskDraws 0 "chain" "key-2" (replicate 32 6%Z) (replicate 16 0%Z) (replicate 16 1%Z).
Definition made_from (s : task_state (ttl_map string bool)) (b : bytes)
    : task_state (ttl_map string bool) * outcome thrown StreamMessage :=
  createMessage (λ _, false) toy open_proto open_ciphers (λ _, 0%Z) open_config strict bob "chat" 1000 open_registry
    draws0 (BytesContent b) metadata0 None s.
Definition run1 : task_state (ttl_map string bool) * outcome thrown StreamMessage := made_from task0 [1; 2; 3]%Z.
Definition run2 : task_state (ttl_map string bool) * outcome thrown StreamMessage := made_from run1.1 [4]%Z.

Lemma draws_fit0 : draws_fit (λ _, false) "chat" open_registry draws0.
Proof. intros count. vm_compute. intros [= <-]. split; [discriminate|reflexivity]. Qed.
Lemma factory_ok0 : factory_ok factory_new.
Proof. intros p. discriminate. Qed.

Lemma published_messages_are_accepted_witness :
  match run1.2 with
  | Return m => ∀ now' (cache : ttl_map string bool),
      validateStreamMessage toy open_proto now' (rg_world open_registry) strict m cache = (cache, Return tt)
  | Throw _ => False
  end.
Proof.
  assert (is_return run1.2 = true) as Hr by (vm_compute; reflexivity).
  destruct run1 as [s' [m|]] eqn:Hrun; [|discriminate]. simpl.
  apply (published_messages_are_accepted (λ _, false) toy open_proto open_ciphers (λ _, 0%Z) open_config strict bob "chat"
    1000 open_registry draws0 (BytesContent [1; 2; 3]%Z) metadata0 None task0 s' m bob_works eq_refl factory_ok0 draws_fit0 Hrun).
Defined.

Definition publisher0 : Publisher (ttl_map string bool) := MkPublisher ∅ ∅ bobs_store ttl_empty [].
Definition published_to (registry : registry) : Publisher (ttl_map string bool) * outcome thrown StreamMessage :=
  publish (λ _, false) toy open_proto open_ciphers (λ _, 0%Z) StreamIdsWitness.to_number (λ _, JNaN) open_config strict bob
    1000 registry draws0 (Return tt) (TextDefinition "chat") (JsonContent (JString "hello")) None None None None publisher0.

(** A registry that knows no publishers *)
Definition closed_registry : registry :=
  MkRegistry (MkWorld (λ _ _ _, Return "0x") (λ _, Return None) (λ _ _, Return false) (λ _ _, Return false)) (λ _, Return false).

Lemma publish_tells_what_happened_witness :
  match (published_to closed_registry).2 with
  | Throw (ClientError code _) => code = "MISSING_PERMISSION" ∧
      pb_broadcast (published_to closed_registry).1 = pb_broadcast publisher0 ∧
      ∃ streamId partition, toStreamPartElements StreamIdsWitness.to_number (id_userId bob) (TextDefinition "chat")
                            = Return (streamId, partition) ∧
        publish_cause (λ _, false) toy open_proto open_ciphers (λ _, 0%Z) open_config strict bob 1000 closed_registry draws0
          (Return tt) streamId (JsonContent (JString "hello")) (MkPublishMetadata (JFin 1000) None None None) partition
          publisher0 code
  | _ => False
  end.
Proof.
  pose proof (publish_tells_what_happened (λ _, false) toy open_proto open_ciphers (λ _, 0%Z) StreamIdsWitness.to_number
    (λ _, JNaN) open_config strict bob 1000 closed_registry draws0 (Return tt) (TextDefinition "chat")
    (JsonContent (JString "hello")) None None None None publisher0 (published_to closed_registry).1
    (published_to closed_registry).2) as Ht.
  assert (∃ text, (published_to closed_registry).2 = Throw (ClientError "MISSING_PERMISSION" text)) as [text Hr].
  { eexists. vm_compute. reflexivity. }
  rewrite Hr in *. split; [reflexivity|]. apply Ht. rewrite <-Hr. unfold published_to.
  by destruct (publish _ _ _ _ _ _ _ _ _ _ _ _ _ _ _ _ _ _ _ _ _).
Defined.

(** A publish that the registry cannot answer moves the chain: the next message names a message that was never sent. *)
Definition failing_registry : registry :=
  MkRegistry open_world (λ _, Throw (MkError None "no connection")).
Definition failed_run (s : task_state (ttl_map string bool)) : task_state (ttl_map string bool) * outcome thrown StreamMessage :=
  createMessage (λ _, false) toy open_proto open_ciphers (λ _, 0%Z) open_config strict bob "chat" 1000
    failing_registry draws0 (BytesContent [1]%Z) metadata0 None s.

Example lost_reference_is_named :
  is_return (failed_run task0).2 = false ∧
  match (made_from (failed_run task0).1 [2]%Z).2 with
  | Return m => vm_prevMsgRef m = Some (MkRef 1000 0) ∧ get_message_ref m = MkRef 1000 1
  | Throw _ => False
  end.
Proof. vm_compute. done. Qed.

(** A message, a call that fails, and a message that names what the call took *)
Lemma messages_are_chained_witness :
  ∃ m1 m2, get_message_ref m1 = MkRef 1000 0 ∧ get_message_ref m2 = MkRef 1000 2 ∧
    (follows None [Made m1; Lost "0|c" (MkRef 1000 1); Made m2] ∧
     StronglySorted ref_lt [MkRef 1000 0; MkRef 1000 1; MkRef 1000 2]).
Proof.
  assert (∃ s1 m1 s2 err s3 m2, run1 = (s1, Return m1) ∧ failed_run s1 = (s2, Throw err) ∧
            made_from s2 [4]%Z = (s3, Return m2) ∧ chain_key m1 = "0|c" ∧ chain_key m2 = "0|c" ∧
            mf_prevMsgRefs (ts_factory s1) !! "0|c" = Some (MkRef 1000 0) ∧
            mf_prevMsgRefs (ts_factory s2) = <["0|c" := MkRef 1000 1]> (mf_prevMsgRefs (ts_factory s1)) ∧
            get_message_ref m1 = MkRef 1000 0 ∧ get_message_ref m2 = MkRef 1000 2)
    as (s1 & m1 & s2 & err & s3 & m2 & H1 & H2 & H3 & K1 & K2 & L1 & L2 & R1 & R2).
  { do 6 eexists. split; [vm_compute; reflexivity|]. split; [vm_compute; reflexivity|].
    split; [vm_compute; reflexivity|]. split_and!; vm_compute; reflexivity. }
  exists m1, m2. split; [exact R1|]. split; [exact R2|].
  destruct (messages_are_chained (λ _, false) toy open_proto open_ciphers (λ _, 0%Z) open_config strict bob "chat" task0
    [Made m1; Lost "0|c" (MkRef 1000 1); Made m2] s3 "0|c") as (Hf & Hs & _).
  { eapply calls_made; [exact H1|]. eapply calls_failed with (left := [Lost "0|c" (MkRef 1000 1)]); [exact H2| |].
    - apply leaves_reference; [rewrite L1; vm_compute; reflexivity|exact L2].
    - eapply calls_made; [exact H3|]. constructor. }
  assert (of_chain "0|c" [Made m1; Lost "0|c" (MkRef 1000 1); Made m2] = [Made m1; Lost "0|c" (MkRef 1000 1); Made m2]) as Heq.
  { unfold of_chain. rewrite !filter_cons. cbn [step_key]. rewrite K1, K2. reflexivity. }
  rewrite Heq in Hf, Hs. cbn [fmap list_fmap step_ref] in Hs. rewrite R1, R2 in Hs. split; [exact Hf|exact Hs].
Defined.
End PublishWitness.
