(* ===== verification/Pipeline.v ===== *)
(** The pipeline of a subscription (packages/sdk/src/subscribe): MsgChainUtil.ts and the processing of a message in
    messagePipeline.ts, with what a publisher and a subscriber do together.

    Ordered messages come in; those of one publisher and chain are processed one after the other, validated, checked
    against the configuration, decrypted and parsed.  The processing of a message is asynchronous: its end is an
    event.  The order of delivery and the filling of gaps before it are in [Ordering.v] and [GapFill.v]. *)

From S2P Require Import Prelude.
From S2P Require Import Js.
From S2P Require Import TtlMap.
From S2P Require Import Identifiers.
From S2P Require Import StreamIds.
From S2P Require Import Ordering.
From S2P Require Import Json.
From S2P Require Import Frames.
From S2P Require Import DataQuery.
From S2P Require Import Text.
From S2P Require Import Signing.
From S2P Require Import PomboGates.
From S2P Require Import Validation.
From S2P Require Import Keys.
From S2P Require Import Publish.

Set Default Proof Using "Type".

(** * MsgChainUtil.ts *)

(** A processor: the message whose processing has not ended (the gate [busy] is closed then), and [inputBuffer] *)
Record MsgChainProcessor := MkProcessor {
  cp_current : option StreamMessage; cp_inputBuffer : list StreamMessage }.

(** [mu_handled] are the messages whose processing ended, with what it ended with: a message goes to the output
    buffer, an error to [onError]. *)
Record MsgChainUtil := MkChainUtil {
  mu_processors : gmap string MsgChainProcessor;
  mu_handled : list (StreamMessage * outcome thrown StreamMessage);
  mu_outputBuffer : list StreamMessage;
  mu_stopped : bool }.

Definition chain_util_new : MsgChainUtil := MkChainUtil ∅ [] [] false.

Definition processor_id (m : StreamMessage) : string := getPublisherId m +:+ "-" +:+ getMsgChainId m.

Definition processor_new : MsgChainProcessor := MkProcessor None [].

(** The loop of [addMessage]: the next message is shifted when none is in process. *)
Definition shift_message (inputBuffer : list StreamMessage) : MsgChainProcessor :=
  match inputBuffer with
  | m :: inputBuffer => MkProcessor (Some m) inputBuffer
  | [] => processor_new
  end.

Definition processor_add (m : StreamMessage) (p : MsgChainProcessor) : MsgChainProcessor :=
  match cp_current p with
  | None => shift_message (cp_inputBuffer p ++ [m])
  | Some _ => MkProcessor (cp_current p) (cp_inputBuffer p ++ [m])
  end.

Definition util_addMessage (m : StreamMessage) (u : MsgChainUtil) : MsgChainUtil :=
  let p := default processor_new (mu_processors u !! processor_id m) in
  MkChainUtil (<[processor_id m := processor_add m p]> (mu_processors u)) (mu_handled u) (mu_outputBuffer u) (mu_stopped u).

(** The processing of the current message of a processor ends; a stopped buffer takes no more. *)
Definition processing_ended (id : string) (result : outcome thrown StreamMessage) (u : MsgChainUtil) : MsgChainUtil :=
  match mu_processors u !! id with
  | Some (MkProcessor (Some m) inputBuffer) =>
      MkChainUtil (<[id := shift_message inputBuffer]> (mu_processors u)) (mu_handled u ++ [(m, result)])
        (match result with
         | Return processed => if mu_stopped u then mu_outputBuffer u else mu_outputBuffer u ++ [processed]
         | Throw _ => mu_outputBuffer u
         end) (mu_stopped u)
  | _ => u
  end.

Definition util_stop (u : MsgChainUtil) : MsgChainUtil :=
  MkChainUtil (mu_processors u) (mu_handled u) (mu_outputBuffer u) true.

(** [flush] waits until no processor is busy. *)
Definition flushed (u : MsgChainUtil) : Prop := ∀ id p, mu_processors u !! id = Some p → cp_current p = None.

Inductive util_event := Added (m : StreamMessage) | Ended (id : string) (result : outcome thrown StreamMessage) | Stopped.

Definition util_step (u : MsgChainUtil) (ev : util_event) : MsgChainUtil :=
  match ev with
  | Added m => util_addMessage m u
  | Ended id result => processing_ended id result u
  | Stopped => util_stop u
  end.

Definition util_run (evs : list util_event) : MsgChainUtil := foldl util_step chain_util_new evs.

(** * messagePipeline.ts *)

Section pipeline.
  Context (cr : crypto) (pb : proto) (cs : ciphers) (number : string → jsnum).
  (** [JSON.parse(binaryToUtf8(content))] *)
  Context (parse_json : bytes → outcome js_error json).
  Context {M : Type} `{E : !ExpiringMap string bool M publisher_ttl}.
  Context (cfg : encryption_config) (vcfg : validation_config) (ident : identity).

(** The message as [getParsedContent] reads it *)
Definition view_of (m : StreamMessage) : message_view :=
  MkMessageView (getStreamId m) (getStreamPartition m) (mid_timestamp (vm_messageId m))
    (mid_sequenceNumber (vm_messageId m)) (getPublisherId m) (getMsgChainId m) (vm_messageType m) (vm_contentType m)
    (vm_encryptionType m) (vm_content m) (parse_json (vm_content m)) (vm_signature m) (vm_groupKeyId m).

(** The key of a message: from the store, or what the fetch ends with *)
Definition fetched_key (answer : outcome thrown (option GroupKey)) (m : StreamMessage) (s : key_store)
    : outcome thrown (option GroupKey) :=
  match getStreamPartID m with
  | Throw e => Throw (OtherError e)
  | Return streamPartId =>
      match fetchKey number cfg ident streamPartId (default "" (vm_groupKeyId m)) (getPublisherId m) s with
      | Fetched result => result
      | _ => answer
      end
  end.

(** The processing of one message, with the world of its time, what [isDestroyed] says before and after the key is
    fetched, and what a fetch that has to wait ends with *)
Definition process_message (now : Z) (w : world) (destroyed : bool * bool)
    (answer : outcome thrown (option GroupKey)) (m : StreamMessage) : eff (M * key_store) thrown StreamMessage :=
  λ '(cache, s),
  match validateStreamMessage cr pb now w vcfg m cache with
  | (cache, Throw e) => (cache, s, Throw (OtherError e))
  | (cache, Return _) =>
      if negb (vm_encryptionType m =? ENCRYPTION_NONE)%Z && negb (isCompliantEncryptionType (vm_encryptionType m) cfg)
      then (cache, s, Throw (ClientError "ENCRYPTION_POLICY_VIOLATION" "the encryption type violates configured requirements"))
      else if negb (isCompliantSignatureType (vm_signatureType m) cfg)
      then (cache, s, Throw (ClientError "SIGNATURE_POLICY_VIOLATION" "the signature type violates configured requirements"))
      else
        let '(s, decrypted) :=
          if (vm_encryptionType m =? ENCRYPTION_AES)%Z
          then decrypt cs destroyed m (fetched_key answer m s) s
          else (s, Return m) in
        (cache, s,
         (let? message := decrypted in
          let? _ := as_thrown (getParsedContent (view_of message)) in
          Return message)%eff)
  end.
End pipeline.

(** * Facts *)

Definition added (evs : list util_event) : list StreamMessage :=
  omap (λ ev, match ev with Added m => Some m | _ => None end) evs.

Definition of_processor (id : string) (ms : list StreamMessage) : list StreamMessage :=
  filter (λ m, processor_id m = id) ms.

(** What a processor has not ended *)
Definition unended (p : MsgChainProcessor) : list StreamMessage := option_list (cp_current p) ++ cp_inputBuffer p.
Definition util_unended (id : string) (u : MsgChainUtil) : list StreamMessage :=
  unended (default processor_new (mu_processors u !! id)).

Record util_inv (evs : list util_event) (u : MsgChainUtil) : Prop := {
  ui_order id : of_processor id (mu_handled u).*1 ++ util_unended id u = of_processor id (added evs);
  ui_idle id p : mu_processors u !! id = Some p → cp_current p = None → cp_inputBuffer p = [];
  ui_id id : Forall (λ m, processor_id m = id) (util_unended id u);
  ui_output : ∃ late, omap (λ r, match r with Return m => Some m | Throw _ => None end) (mu_handled u).*2
                      = mu_outputBuffer u ++ late ∧ (mu_stopped u = false → late = [])
}.

Lemma unended_next l : unended (shift_message l) = l.
Proof. by destruct l. Qed.

Lemma unended_add m p : (cp_current p = None → cp_inputBuffer p = []) → unended (processor_add m p) = unended p ++ [m].
Proof.
  intros Hp. unfold processor_add. destruct (cp_current p) as [c|] eqn:Hc.
  - unfold unended. rewrite Hc. done.
  - rewrite unended_next. unfold unended. by rewrite Hc, (Hp eq_refl).
Qed.

Lemma next_idle l : cp_current (shift_message l) = None → cp_inputBuffer (shift_message l) = [].
Proof. by destruct l. Qed.

Lemma added_app evs ev : added (evs ++ [ev]) = added evs ++ match ev with Added m => [m] | _ => [] end.
Proof. unfold added. rewrite omap_app. by destruct ev. Qed.

Lemma util_addMessage_inv evs m u : util_inv evs u → util_inv (evs ++ [Added m]) (util_addMessage m u).
Proof.
  intros [Ho Hi Hid Hout].
  assert (∀ p, mu_processors u !! processor_id m = p → let p := default processor_new p in cp_current p = None → cp_inputBuffer p = []) as Hidle.
  { intros [p|] Hp; [by apply (Hi _ _ Hp)|done]. }
  constructor.
  - intros id. rewrite added_app. unfold of_processor. rewrite filter_app. fold (of_processor id (added evs)).
    rewrite <-(Ho id), <-app_assoc. f_equal. unfold util_unended, util_addMessage. cbn [mu_processors].
    rewrite filter_cons, filter_nil. destruct (decide (processor_id m = id)) as [<-|Hne].
    + rewrite lookup_insert_eq. cbn -[unended]. apply unended_add. by apply Hidle.
    + by rewrite lookup_insert_ne, app_nil_r.
  - intros id p. unfold util_addMessage. cbn [mu_processors]. destruct (decide (processor_id m = id)) as [<-|Hne].
    + rewrite lookup_insert_eq. intros [= <-]. unfold processor_add.
      destruct (cp_current (default processor_new (mu_processors u !! processor_id m))); [done|apply next_idle].
    + rewrite lookup_insert_ne by done. apply Hi.
  - intros id. unfold util_unended, util_addMessage. cbn [mu_processors]. destruct (decide (processor_id m = id)) as [<-|Hne].
    + rewrite lookup_insert_eq. cbn -[unended]. rewrite unended_add by by apply Hidle. apply Forall_app.
      split; [apply Hid|by repeat constructor].
    + rewrite lookup_insert_ne by done. apply Hid.
  - done.
Qed.

Lemma processing_ended_inv evs id r u : util_inv evs u → util_inv (evs ++ [Ended id r]) (processing_ended id r u).
Proof.
  intros Hinv. assert (added (evs ++ [Ended id r]) = added evs) as Hadd by (by rewrite added_app, app_nil_r).
  unfold processing_ended. destruct (mu_processors u !! id) as [[[m|] input]|] eqn:Hp.
  2,3: destruct Hinv as [Ho Hi Hid Hout]; constructor; [intros id'; by rewrite Hadd|done..].
  destruct Hinv as [Ho Hi Hid (late & Hlate & Hstop)].
  assert (processor_id m = id) as Hm.
  { specialize (Hid id). unfold util_unended in Hid. rewrite Hp in Hid. by apply Forall_cons in Hid as [? _]. }
  constructor.
  - intros id'. rewrite Hadd, <-(Ho id'). cbn [mu_handled mu_processors]. unfold util_unended. cbn [mu_processors].
    rewrite fmap_app. unfold of_processor. rewrite filter_app, <-app_assoc. f_equal. cbn [fmap list_fmap fst].
    rewrite filter_cons, filter_nil. destruct (decide (id = id')) as [<-|Hne].
    + rewrite decide_True by done. rewrite lookup_insert_eq, Hp. cbn -[unended]. by rewrite unended_next.
    + rewrite decide_False by congruence. by rewrite lookup_insert_ne.
  - intros id' p. cbn [mu_processors]. destruct (decide (id = id')) as [<-|Hne].
    + rewrite lookup_insert_eq. intros [= <-]. apply next_idle.
    + rewrite lookup_insert_ne by done. apply Hi.
  - intros id'. unfold util_unended. cbn [mu_processors]. destruct (decide (id = id')) as [<-|Hne].
    + rewrite lookup_insert_eq. cbn -[unended]. rewrite unended_next. specialize (Hid id). unfold util_unended in Hid.
      rewrite Hp in Hid. by apply Forall_cons in Hid as [_ ?].
    + rewrite lookup_insert_ne by done. apply Hid.
  - cbn [mu_handled mu_outputBuffer mu_stopped]. rewrite fmap_app, omap_app, Hlate. destruct r as [m'|e]; simpl.
    + destruct (mu_stopped u).
      * exists (late ++ [m']). by rewrite app_assoc.
      * exists []. rewrite (Hstop eq_refl), !app_nil_r. done.
    + exists late. by rewrite app_nil_r.
Qed.

Lemma util_run_inv evs : util_inv evs (util_run evs).
Proof.
  induction evs as [|ev evs IH] using rev_ind.
  - constructor; [done|done|constructor|by exists []].
  - unfold util_run in *. rewrite foldl_snoc. destruct ev as [m|id r|]; cbn [util_step].
    + by apply util_addMessage_inv.
    + by apply processing_ended_inv.
    + destruct IH as [Ho Hi Hid (late & Hlate & _)]. constructor; [intros id; rewrite added_app, app_nil_r; apply Ho|done|done|].
      by exists late.
Qed.

(** C16: the messages of a chain are processed one at a time, each once and in the order in which they came, however long each
    takes and whatever it ends with: those of a publisher and chain whose processing ended, then the one in process, then
    those that wait, are all that were added.  While the pipeline is not stopped, every processed message is given out;
    and after a flush nothing is left. *)
Theorem chains_are_processed_in_order evs id :
  let u := util_run evs in
  of_processor id (mu_handled u).*1 ++ util_unended id u = of_processor id (added evs) ∧
  (mu_stopped u = false →
     mu_outputBuffer u = omap (λ r, match r with Return m => Some m | Throw _ => None end) (mu_handled u).*2) ∧
  (flushed u → of_processor id (mu_handled u).*1 = of_processor id (added evs)).
Proof.
  intros u. destruct (util_run_inv evs) as [Ho Hi _ (late & Hlate & Hstop)]. fold u in Ho, Hi, Hlate, Hstop. split_and!.
  - apply Ho.
  - intros Hs. by rewrite Hlate, (Hstop Hs), app_nil_r.
  - intros Hf. rewrite <-(Ho id). unfold util_unended. destruct (mu_processors u !! id) as [p|] eqn:Hp.
    + simpl. unfold unended. rewrite (Hf _ _ Hp), (Hi _ _ Hp (Hf _ _ Hp)). by rewrite !app_nil_r.
    + by rewrite app_nil_r.
Qed.

(** * A publisher and a subscriber *)

Lemma message_new_chained m :
  (∀ r, vm_prevMsgRef m = Some r → ref_lt r (get_message_ref m)) → vm_encryptionType m = ENCRYPTION_NONE →
  message_new m = Return m.
Proof.
  intros Hr He. unfold message_new. rewrite He. unfold validateSequence.
  change (toMessageRef (vm_messageId m)) with (get_message_ref m).
  destruct (vm_prevMsgRef m) as [r|]; [|done]. specialize (Hr r eq_refl).
  assert (0 < compareTo (get_message_ref m) r)%Z as Hc by refs.
  rewrite (proj2 (Z.eqb_neq _ _)), (proj2 (Z.ltb_ge _ _)) by lia. done.
Qed.

Section together.
  Context (is_client_error : js_error → bool) (cr : crypto) (pb : proto) (cs : ciphers) `{!CipherLaws cs}.
  Context (md5_int32 : string → Z) (number : string → jsnum) (parse_json : bytes → outcome js_error json).
  Context {M : Type} `{E : !ExpiringMap string bool M publisher_ttl}.
  (** The publisher with its configuration, and the subscriber with its own; they validate by the same rules. *)
  Context (cfg : encryption_config) (ident : identity) (rcfg : encryption_config) (reader : identity).
  Context (vcfg : validation_config) (streamId : string).
  (** [JSON.parse] reads what [JSON.stringify] wrote. *)
  Hypothesis json_reads : ∀ v, is_return (parse_json (utf8_string (json_print v))) = true.
  Hypothesis ident_works : working_identity cr ident.
  Hypothesis partitions_checked : vc_partitions vcfg = true.
  Hypothesis reader_exchanges : ec_keys rcfg = None.
  Hypothesis reader_accepts : isCompliantSignatureType (id_signatureType ident) rcfg = true.

(** What a publisher does on a stream: it publishes in its own name, or rotates the key.  A published message is kept
    with the registry of its time and the bytes of its content. *)
Record published := MkPublished { pd_message : StreamMessage; pd_world : world; pd_raw : bytes }.

Inductive publisher_run : task_state M → list published → task_state M → Prop :=
  | run_none s : publisher_run s [] s
  | run_made now rg dw content metadata explicit s s1 s2 m l :
      createMessage is_client_error cr pb cs md5_int32 cfg vcfg ident streamId now rg dw content metadata explicit s
        = (s1, Return m) →
      pm_erc1271Contract metadata = None → draws_fit is_client_error streamId rg dw →
      length (td_iv dw) = 16 → length (td_nextIv dw) = 16 → publisher_run s1 l s2 →
      publisher_run s (MkPublished m (rg_world rg) (raw_content content).1 :: l) s2
  | run_rotated key newId newData s s2 q store k l :
      queue_rotate ident streamId key newId newData (ts_queue s, ts_store s) = (q, store, Return k) →
      (∀ k', key = Some k' → valid_key k') → is_bytes newData →
      publisher_run (MkTask (ts_factory s) q store (ts_cache s)) l s2 → publisher_run s l s2.

(** The subscriber processes messages one after the other; [answer] is what a key exchange would end with. *)
Fixpoint process_all (clock : StreamMessage → Z) (answer : outcome thrown (option GroupKey)) (l : list published)
    (st : M * key_store) : (M * key_store) * list (outcome thrown StreamMessage) :=
  match l with
  | [] => (st, [])
  | p :: l =>
      let '(st, r) := process_message cr pb cs number parse_json rcfg vcfg reader (clock (pd_message p)) (pd_world p)
                        (false, false) answer (pd_message p) st in
      let '(st, rs) := process_all clock answer l st in (st, r :: rs)
  end.

(** The subscriber holds the key that the publisher uses. *)
Definition in_step (q : GroupKeyQueue) (ss : key_store) : Prop :=
  ∃ k, gq_currentGroupKey q = Some k ∧ valid_key k ∧ (∀ next, gq_queuedGroupKey q = Some next → valid_key next) ∧
       store_get (key_id k) (id_userId ident) ss = Return (Some k).

(** What the subscriber makes of a message *)
Definition read_as (p : published) (r : outcome thrown StreamMessage) : Prop :=
  ∃ m, r = Return m ∧ vm_content m = pd_raw p ∧ vm_encryptionType m = ENCRYPTION_NONE ∧
       vm_messageId m = vm_messageId (pd_message p).

Lemma decrypt_carried key raw iv sent :
  valid_key key → length iv = 16 → encryptWithAES cs raw (key_data key) iv = Return sent →
  decryptWithAES cs sent (key_data key) = Return raw.
Proof using CipherLaws0.
  intros Hk Hiv Henc. destruct (AES_roundtrip cs raw (key_data key) iv (valid_key_length _ Hk) Hiv) as (c & Hc & Hd).
  rewrite Henc in Hc. by injection Hc as ->.
Qed.

Lemma decrypt_next key next iv encrypted :
  valid_key key → valid_key next → length iv = 16 → encryptNextGroupKey cs key next iv = Return encrypted →
  decryptNextGroupKey cs key encrypted = Return next.
Proof using CipherLaws0.
  intros Hk [Hn _] Hiv. unfold encryptNextGroupKey. destruct (encryptWithAES cs _ _ _) as [c|] eqn:Hc; [|done].
  intros [= <-]. unfold decryptNextGroupKey. cbn [gk_data gk_id]. by rewrite (decrypt_carried _ _ _ _ Hk Hiv Hc).
Qed.

Lemma part_of_message m count partitions :
  getPartitionCount partitions = Return count → (0 ≤ getStreamPartition m < count)%Z →
  ∃ part, getStreamPartID m = Return part.
Proof.
  intros Hc Hp. unfold getStreamPartID, to_stream_part_id.
  assert (count ≤ 100)%Z as Hle.
  { unfold getPartitionCount, DEFAULT_PARTITION_COUNT in Hc. destruct partitions as [v|]; [|injection Hc as <-; lia].
    destruct (ensureValidStreamPartitionCount v) eqn:Hv; [|done]. destruct v as [z| | |]; try done. injection Hc as <-.
    unfold ensureValidStreamPartitionCount, MAX_PARTITION_COUNT in Hv.
    destruct (negb _ || _ || (100 <? z)%Z) eqn:Hb; [done|]. apply orb_false_iff in Hb as [_ Hb%Z.ltb_ge]. done. }
  unfold ensure_valid_stream_partition_index, js_is_safe_integer, MAX_PARTITION_COUNT.
  rewrite (proj2 (Z.leb_le _ _)), (proj2 (Z.ltb_ge _ _)), (proj2 (Z.leb_gt _ _)) by lia. simpl. eauto.
Qed.

(** One message: it is read, and both go on in step. *)
Lemma message_is_read now rg dw content metadata explicit s s1 m ss (cache : M) clock answer :
  createMessage is_client_error cr pb cs md5_int32 cfg vcfg ident streamId now rg dw content metadata explicit s
    = (s1, Return m) →
  pm_erc1271Contract metadata = None → draws_fit is_client_error streamId rg dw → factory_ok (ts_factory s) →
  length (td_iv dw) = 16 → length (td_nextIv dw) = 16 → in_step (ts_queue s) ss →
  ∃ ss' r, process_message cr pb cs number parse_json rcfg vcfg reader clock (rg_world rg) (false, false) answer m (cache, ss)
             = (cache, ss', r) ∧
    read_as (MkPublished m (rg_world rg) (raw_content content).1) r ∧ in_step (ts_queue s1) ss'.
Proof using CipherLaws0 E ident_works json_reads partitions_checked reader_accepts reader_exchanges.
  intros Hm Herc Hd Hf Hiv Hiv2 (k & Hcur & Hk & Hqueued & Hget).
  pose proof (createMessage_validates is_client_error cr pb cs md5_int32 cfg vcfg ident streamId _ _ _ _ _ _ _ _ _
    ident_works Herc Hf Hd Hm clock cache) as Hval.
  apply createMessage_Return in Hm as [].
  destruct (made_range Hf Hd) as [_ Hrange]. destruct (Hrange partitions_checked) as (count & Hcount & Hp).
  assert (∃ part, getStreamPartID m = Return part) as [part Hpart].
  { unfold partition_count in Hcount. destruct (as_registry _ _) as [parts|]; [|done]. simpl in Hcount.
    destruct (getPartitionCount parts) eqn:Hpc; [|done]. injection Hcount as ->. by eapply part_of_message. }
  assert (getPublisherId m = id_userId ident) as Huser.
  { unfold publisher_id in made_publisher. rewrite Herc in made_publisher. by injection made_publisher. }
  assert (vm_signatureType m = id_signatureType ident) as Hst.
  { destruct made_signature as [-> _]. unfold signature_type. by rewrite Herc. }
  apply createMessageRef_Return in made_ref as (_ & _ & _ & Hlt).
  assert (∀ m', vm_messageId m' = vm_messageId m → vm_prevMsgRef m' = vm_prevMsgRef m →
    vm_encryptionType m' = ENCRYPTION_NONE → vm_content m' = (raw_content content).1 → vm_contentType m' = vm_contentType m →
    message_new m' = Return m' ∧ is_return (getParsedContent (view_of parse_json m')) = true) as Hnew.
  { intros m' Hid Hprev He Hc Hct. split.
    - apply message_new_chained; [|done]. intros r Hr. rewrite Hprev in Hr. rewrite Hr in Hlt.
      unfold get_message_ref. by rewrite Hid.
    - destruct made_encryption as (type & sequence & _ & _ & [Hcontent _] & _). unfold getParsedContent, view_of.
      cbn [mv_encryptionType mv_contentType mv_json mv_content]. rewrite He, Hct, Hcontent, Hc.
      destruct content as [b|v]; [done|]. cbn [raw_content fst snd]. specialize (json_reads v).
      by destruct (parse_json _). }
  unfold process_message. rewrite Hval, Hst, reader_accepts.
  destruct made_encryption as (type & sequence & Htype & <- & [_ Hcarry] & Huse).
  destruct sequence as [sequence|].
  - destruct Hcarry as (He & Hgid & Henc & Hnext). rewrite He. cbn [negb andb].
    change (isCompliantEncryptionType ENCRYPTION_AES rcfg) with true. cbn [negb andb].
    rewrite andb_false_r. unfold fetched_key. rewrite Hpart, Hgid, Huser. unfold fetchKey. rewrite reader_exchanges.
    unfold useGroupKey in Huse. rewrite Hcur in Huse. unfold use_current in Huse.
    assert (gs_current sequence = k ∧ gs_next sequence = gq_queuedGroupKey (ts_queue s) ∧
      ts_queue s1 = match gq_queuedGroupKey (ts_queue s) with Some next => MkQueue (Some next) None | None => ts_queue s end)
      as (Hsc & Hsn & Hq) by (injection Huse as Hq1 _ Hs1; rewrite <-Hs1, <-Hq1; done).
    rewrite Hsc in *. cbn [from_option id]. unfold default. cbn [from_option id]. rewrite Hget.
    unfold decrypt. cbn [fst snd orb]. unfold decryptStreamMessage.
    rewrite (decrypt_carried _ _ _ _ Hk Hiv Henc). rewrite Hsn in Hnext. rewrite Hq.
    destruct (Hnew (with_content (raw_content content).1 ENCRYPTION_NONE m)) as [Hn1 Hn2]; [done..|].
    assert (∀ mk (x : outcome thrown StreamMessage), x = as_thrown mk → mk = Return (with_content (raw_content content).1 ENCRYPTION_NONE m) →
      (let? message := x in let? _ := as_thrown (getParsedContent (view_of parse_json message)) in Return message)%eff
        = Return (with_content (raw_content content).1 ENCRYPTION_NONE m)) as Hfin.
    { intros mk x -> ->. cbn [as_thrown outcome_bind]. by destruct (getParsedContent _). }
    destruct (gq_queuedGroupKey (ts_queue s)) as [next|] eqn:Hqueue.
    + destruct Hnext as (encrypted & -> & Hencn).
      rewrite (decrypt_next _ _ _ _ Hk (Hqueued _ eq_refl) Hiv2 Hencn). do 2 eexists. split; [reflexivity|]. split.
      * rewrite (Hfin _ _ eq_refl Hn1). eexists. split; [done|]. done.
      * exists next. split_and!; [done|by apply Hqueued|done|]. rewrite Huser. apply store_get_set. by apply Hqueued.
    + rewrite Hnext. do 2 eexists. split; [reflexivity|]. split.
      * rewrite (Hfin _ _ eq_refl Hn1). eexists. split; [done|]. done.
      * exists k. split_and!; [done..|by rewrite Hqueue|done].
  - destruct Hcarry as (He & Hcontent & _ & _). destruct Huse as [-> _]. rewrite He. cbn [negb andb].
    change (ENCRYPTION_NONE =? ENCRYPTION_NONE)%Z with true. change (ENCRYPTION_NONE =? ENCRYPTION_AES)%Z with false.
    cbn [negb andb]. do 2 eexists. split; [reflexivity|]. destruct (Hnew m) as [_ Hn]; [done..|]. split.
    + exists m. cbn [outcome_bind]. split; [|done]. by destruct (getParsedContent _).
    + exists k. by split_and!.
Qed.

(** C3: a subscriber follows the rotations of keys: once it holds the key a publisher uses on a stream, it reads everything
    the publisher then publishes there, in order, however often the key is rotated in between: every message is
    validated, decrypted and parsed, with the very bytes that were published, whatever a key exchange would have
    answered, so that none is needed; in the end it holds the key that is used then. *)
Theorem rotations_are_followed s l s' ss (cache : M) clock answer :
  publisher_run s l s' → factory_ok (ts_factory s) → in_step (ts_queue s) ss →
  ∃ ss' rs, process_all clock answer l (cache, ss) = (cache, ss', rs) ∧ Forall2 read_as l rs ∧ in_step (ts_queue s') ss'.
Proof using CipherLaws0 E ident_works json_reads partitions_checked reader_accepts reader_exchanges.
  intros Hrun. revert ss. induction Hrun as [s|now rg dw content metadata explicit s s1 s2 m l Hm Herc Hd Hiv Hiv2 Hrun IH
    |key newId newData s s2 q store k l Hrot Hkey Hbytes Hrun IH]; intros ss Hf Hstep.
  - exists ss, []. by split_and!.
  - destruct (message_is_read _ _ _ _ _ _ _ _ _ _ cache (clock m) answer Hm Herc Hd Hf Hiv Hiv2 Hstep)
      as (ss1 & r & Hp & Hr & Hstep1).
    pose proof (createMessage_Return _ _ _ _ _ _ _ _ _ _ _ _ _ _ _ _ _ _ Hm) as Hmade.
    destruct (made_range _ _ _ _ _ _ _ _ _ _ _ _ _ _ Hmade Hf Hd) as [Hf1 _].
    destruct (IH ss1 Hf1 Hstep1) as (ss2 & rs & Hall & Hrs & Hend). exists ss2, (r :: rs). cbn [process_all pd_message pd_world].
    rewrite Hp, Hall. split_and!; [done|by constructor|done].
  - apply IH; [done|]. destruct Hstep as (k0 & Hcur & Hk0 & Hq & Hget). unfold queue_rotate, storeKey in Hrot.
    rewrite bool_decide_eq_true_2 in Hrot by done. cbn [negb] in Hrot.
    assert (∀ k1, match key with Some key => Return key | None => group_key_new newId newData end = Return k1 → valid_key k1) as Hvalid.
    { intros k1. destruct key as [k'|]; [intros [= <-]; by apply Hkey|]. intros Hn. pose proof Hn as [-> _]%group_key_new_valid.
      by split. }
    destruct (match key with Some key => Return key | None => group_key_new newId newData end) as [k1|] eqn:Hk1; [|done].
    injection Hrot as <- <- ->. exists k0. cbn [ts_queue gq_currentGroupKey gq_queuedGroupKey]. split_and!; [done..| |done].
    intros next [= <-]. by apply Hvalid.
Qed.
End together.

Module PipelineWitness.
Import SigningWitness KeysWitness PublishWitness.

Definition parse0 (b : bytes) : outcome js_error json := Return JNull.
Lemma in_step0 : in_step bob (ts_queue task0) bobs_store.
Proof.
  exists secret_key. split; [reflexivity|]. split; [|split; [discriminate|vm_compute; reflexivity]].
  split; [reflexivity|]. vm_compute. repeat (constructor; [split; [discriminate|reflexivity]|]). constructor.
Qed.

(** Two messages, and a rotation between them *)
Lemma rotations_are_followed_witness :
  ∃ m1 m2 (s' : task_state (ttl_map string bool)), let l := [MkPublished m1 open_world [1; 2; 3]%Z; MkPublished m2 open_world [4]%Z] in
    vm_newGroupKey m2 ≠ None ∧
    ∃ ss' rs, process_all toy open_proto open_ciphers StreamIdsWitness.to_number parse0 open_config alice strict (λ _, 2000%Z)
                (Throw (OtherError (MkError None "no answer"))) l (cache0, bobs_store) = (cache0, ss', rs) ∧
              Forall2 read_as l rs ∧ in_step bob (ts_queue s') ss'.
Proof.
  assert (∃ s1 m1 s2 m2 q store k, run1 = (s1, Return m1) ∧
    queue_rotate bob "chat" None "key-2" (replicate 32 6%Z) (ts_queue s1, ts_store s1) = (q, store, Return k) ∧
    made_from (MkTask (ts_factory s1) q store (ts_cache s1)) [4]%Z = (s2, Return m2) ∧ is_Some (vm_newGroupKey m2))
    as (s1 & m1 & s2 & m2 & q & store & k & H1 & H2 & H3 & H4).
  { do 7 eexists. split; [vm_compute; reflexivity|]. split; [vm_compute; reflexivity|].
    split; [vm_compute; reflexivity|]. eexists. vm_compute. reflexivity. }
  exists m1, m2, s2. split; [destruct H4 as [x ->]; discriminate|].
  apply (rotations_are_followed (λ _, false) toy open_proto open_ciphers (λ _, 0%Z) StreamIdsWitness.to_number parse0 open_config
    bob open_config alice strict "chat" (λ _, eq_refl) bob_works eq_refl eq_refl eq_refl task0
    [MkPublished m1 open_world [1; 2; 3]%Z; MkPublished m2 open_world [4]%Z] s2 bobs_store cache0);
    [|exact factory_ok0|exact in_step0].
  apply (run_made _ _ _ _ _ _ _ _ _ 1000 open_registry draws0 (BytesContent [1; 2; 3]%Z) metadata0 None task0 s1);
    [exact H1|reflexivity|exact draws_fit0|reflexivity|reflexivity|].
  eapply run_rotated; [exact H2|discriminate| |].
  { repeat (constructor; [lia|]). constructor. }
  apply (run_made _ _ _ _ _ _ _ _ _ 1000 open_registry draws0 (BytesContent [4]%Z) metadata0 None _ s2);
    [exact H3|reflexivity|exact draws_fit0|reflexivity|reflexivity|]. constructor.
Defined.
End PipelineWitness.
